(* ===== verification/_CoqProject ===== *)
-Q . S2P
Prelude.v
Codec.v
FileSystem.v
RaftTypes.v
MemoryStorage.v
DurableStorage.v
DurableRecovery.v
Wal.v
WalFacts.v
WalProperties.v
Pending.v
ReadIndex.v
Floats.v
Durability.v
RaftNode.v
RaftCluster.v
RaftNodeFacts.v
ElectionSafety.v
ReadSafety.v
Routing.v
RaftLogFacts.v
RaftApply.v
RaftReplica.v
RaftDriver.v
RaftDriverFacts.v
RaftSamples.v
StorageSamples.v
Relational.v
RelationalFacts.v
Hypercube.v
HypercubeFacts.v
MetadataIndex.v
MetadataFacts.v
AgentMemory.v
AgentMemoryFacts.v
StateMachine.v
StateMachineFacts.v
EngineSamples.v
Order.v
Ring.v
Topology.v
Federation.v
StreamIngest.v
TopK.v
StoragePolicies.v
Segment.v
SegmentFacts.v
SegmentCompaction.v
SegmentSearch.v
SegmentRecovery.v
Coordinator.v
ClusterSamples.v
Incidence.v
Entity.v
Relation.v
EntityFacts.v
RelationFacts.v
KnowledgeSamples.v
Security.v
Fleet.v
Qir0.v
Resp.v
Graph.v
GraphFacts.v
GraphSeal.v
GraphAnalytics.v
GraphSearch.v
GraphComponents.v
QueryLexer.v
QueryAst.v
QueryParser.v
QueryParserFacts.v
QueryPrint.v
QueryRoundtrip.v
QueryPlan.v
QueryExec.v
QueryExecFacts.v
QueryOptimizer.v
QueryCorrect.v
QuerySamples.v
