(* ===== verification/Prelude.v ===== *)
(** * HoloSphere: consensus, storage, cluster and graph core

    HoloSphere is a multi-model state engine written in Rust (src/src).  Clients
    write through a distributed coordinator, which routes by a consistent hash
    ring, fences with an epoch and proposes to Raft; Raft stores its log durably,
    commits it by quorum and applies it to a shard state machine; the state
    machine publishes each mutation to the engines behind it: the segmented
    vector engine with its write-ahead log, the relational engine, the tensor
    space, the agent memory and the property graph, which a Cypher-like query
    language reads.  Beside them stand the entity kernel with its N-ary relations, the
    metadata index, the security and fleet services, and the binary and Redis
    protocols.  This library is a shallow
    embedding of those parts: each Rust function is a Rocq function of the same
    name where Rocq allows it, a struct is a record, an enum an inductive type,
    a [Result] the type [Result], a panic (index out of bounds, [unwrap] of
    [None]) the value [None] of the outer [option].  State is passed explicitly;
    a call is one atomic step, because the code holds a lock for its length or
    because one thread makes the calls (the driver's loop, for consensus); the
    group commit of the write-ahead log is modelled step by step
    (WalProperties.v).

    ** Files and what they model

    Foundations.
    - Prelude.v (this file): record update, machine integers (a [u64] is an [N]
      below 2^64, every wrapping, saturating and truncating operation written
      out), [HNSQRError] of lib.rs and [Result], hash-map iteration orders, list
      lemmas, hint databases and tactics.  Floats.v: [f32] and [f64] as IEEE
      numbers.  Order.v: comparison functions, sorting, [min_by] and the standard
      library's binary search.  Codec.v: integers in either byte order, UTF-8
      and the CRC-framed record of consensus/storage.rs.  FileSystem.v: files,
      system calls and a stream of I/O faults.
    Consensus (src/src/consensus).
    - RaftTypes.v: the data types of raft.rs, pending.rs and storage.rs and the
      interfaces [RaftStorage] and [ReplicatedStateMachine] as type classes with
      their laws.  MemoryStorage.v and DurableStorage.v implement the storage
      interface (storage.rs); DurableStorage.v and DurableRecovery.v prove the laws,
      atomic replacement and recovery.
    - Pending.v: the proposal registry (pending.rs).  ReadIndex.v: ReadIndex
      rounds and leases (read_index.rs).  Durability.v: batching and health
      (durability_controller.rs and the telemetry of raft.rs).
    - RaftNode.v and RaftCluster.v: every handler of [RaftNode] and [RaftCluster]
      (raft.rs); [cluster_step] is the transition relation of a cluster, with
      elections, messages, proposals, storage failures, crashes and restarts.
      RaftNodeFacts.v, ElectionSafety.v, ReadSafety.v, Routing.v, RaftLogFacts.v,
      RaftApply.v and RaftReplica.v hold the proofs.
    - RaftDriver.v, RaftDriverFacts.v: the event loop (driver.rs).
    Storage (src/src/storage).
    - Wal.v, WalFacts.v, WalProperties.v: the write-ahead log (wal.rs),
      sequentially and under group commit.
    - Relational.v, RelationalFacts.v: the relational engine (relational_acid.rs).
    - Segment.v, SegmentFacts.v, SegmentCompaction.v, SegmentSearch.v,
      SegmentRecovery.v, TopK.v: the segmented vector engine (segment.rs).
    - StoragePolicies.v: io_budget.rs, backpressure.rs, sharded_map.rs.
    Engines: Hypercube.v (vector/hypercube.rs), AgentMemory.v
    (ecosystem/agent_memory.rs), MetadataIndex.v (metadata: the index over node
    metadata, the interned store, geometry), each with its Facts file.
    Cluster (src/src/cluster).
    - StateMachine.v, StateMachineFacts.v: the shard state machine
      (state_machine.rs), against an interface of the engines; StateMachineFacts.v
      shows that it keeps the laws RaftReplica.v and RaftApply.v assume of a state
      machine ([RsmLaws]).
    - Ring.v, Topology.v, Federation.v, StreamIngest.v: ring.rs, topology.rs,
      world_digest.rs, migration.rs, federation.rs, stream_ingest.rs.
      Coordinator.v: coordinator.rs, disaster_recovery.rs.
      Fleet.v: control_plane.rs, serverless.rs.
    Security (src/src/security).
    - Security.v: audit chain, API keys and roles, tenants, certificates, envelope
      keys.
    Transport (src/src/transport).
    - Qir0.v: the binary protocol, server and client (qir0.rs).  Resp.v: the
      key-value store (ecosystem/kv_cache.rs), the Redis protocol and its commands
      (resp.rs) and the connection loop of bin/hnsqr_daemon.rs.
    Entities and relations (src/src/entity, src/src/relation).
    - Entity.v: epistemic states, provenance arena, version table, entity arena and
      segment, mutations and reads at a log position.  Incidence.v: the postings of
      relations by type, role and entity, and their leapfrog join.  Relation.v:
      schemas, the relation arena, mutations, reads, queries and patterns.
      EntityFacts.v and RelationFacts.v refine them to an abstract history.
    Graph (src/src/graph).
    - Graph.v: catalogs, node arena, edge delta with intrusive chains, property
      store, CSR/CSC adjacency, generations and the mutation applier
      (catalog, storage, mutation); GraphFacts.v refines it to an abstract graph
      of nodes and relationships, GraphSeal.v proves sealing.
    - GraphAnalytics.v: the algorithms over a projection (analytics); their proofs
      are in GraphSearch.v and GraphComponents.v.
    - QueryLexer.v, QueryAst.v, QueryParser.v, QueryPlan.v, QueryExec.v: lexer,
      AST and semantic analysis, parser, planner with optimiser, lowering and
      statistics, columnar executor (query, stats/cardinality.rs).  A parser is a
      function in a state and error monad.  QueryParserFacts.v: termination, by a
      weakest precondition for parsers.  QueryPrint.v and QueryRoundtrip.v: a
      printer and the round trip.  QueryExecFacts.v: what a logical plan denotes
      and that the columnar executor computes it, variable-length steps included;
      QueryOptimizer.v: the optimiser; QueryCorrect.v: its composition with
      execution, and a query from its text to its rows.
    The Samples files instantiate every parameter with concrete functions and
    apply the theorems; they also hold runs that end where the code's own
    comments say it should not.

    ** What is proved

    - Consensus: one leader per term and one vote per term over all runs; the
      log invariant of a replica under every handler; commit by quorum;
      committed entries are applied in order, one that fails being retried before
      the next; receipts only for applied entries; linearizable reads see no newer
      leader; recovery replays exactly the committed prefix; a proposal is answered
      or registered; the driver's loop is a sequence of cluster steps.
    - Durability: the durable Raft storage refines the one in memory across
      reopening; metadata files are replaced atomically under any fault pattern;
      tails torn inside a frame header are cut, corruption in the middle is reported; the write-ahead
      log gives back what was appended, truncation never loses a live record,
      and the group-commit barrier covers what it acknowledges, if no record slips
      between a sync and the counter's reading and no sync at a rotation fails.
    - Engines: transactions on rows without NULLs are all-or-nothing and selects return exactly the
      visible rows; the tensor space, the segmented engine, the striped map and
      the agent memory refine finite maps; exact vector search returns the best
      k; a logged engine is restored by replay.
    - Shards: retries are applied once, strict batches are atomic, client sequence
      numbers cannot be replayed.
    - Cluster: the ring's lookup is the clockwise successor and scaling moves the
      fewest keys; replicas of a region converge; the ingestor is a lossless
      bounded queue per stripe; a stale epoch never writes.
    - Graph: mutations refine an abstract graph; sealing keeps its adjacency;
      breadth-first and bidirectional search, components and core numbers are
      what their definitions say; parsing ends on every text and inverts
      printing; the optimiser permutes rows; a path query over a sealed
      generation returns the paths of the abstract graph.
    - Knowledge: entities and relations read at a log position are what was current
      there (an entity unless it is tombstoned), the past is kept, queries and patterns return exactly what matches.
    - Metadata: filters as they are documented match the nodes the statements left
      match, and the store
      finds its facts within its quota.
    - Services: the audit chain is tamper-evident up to its actions; a serverless
      worker serves one query at a time.
    - Protocols: a QIR0 session answers what the service answers and the client
      reads it back; a pipelined RESP session answers what a map of texts and counters answers, however
      the bytes are cut into reads.

    ** Parameters

    Code outside src is a parameter with its documented behaviour as the laws of
    a class: bincode ([BincodeLaws]: decoding inverts encoding), CRC-32
    ([Crc32Laws]: 32 bits), SHA-256, AES-256-GCM, serde_json, roaring bitmaps
    ([RoaringLaws]: a set of [u32]), [ln] and [exp] ([Libm]), the iteration order of hash maps
    ([HashOrder]: some permutation of the keys), unstable sorting
    ([SortUnstable]: a sorted permutation), [f64::powi] in the cost model of the
    optimiser (no laws).  The numeric kernels of the vector
    search (complex dot product, address compiler, territory index, proof tree)
    are [VectorKernels], without laws: no theorem depends on them beyond the
    score of a pair.  The engines behind the state machine are [ShardBackends],
    the service behind the binary protocol is [Service].

    ** Fuel and bounds

    Loops over data are structural.  Fuel appears where a loop waits for other
    threads ([wait_applied], with the theorem that one poll past the timeout
    suffices) and where a loop runs as long as there is input (replay of a file:
    its length; the expiry heap: its size; the parser: eight units per byte, since
    a level of its recursion that consumes nothing is one of four; the searches:
    the number of nodes; a connection: the bytes it buffers or the messages it
    receives; a chain of versions: the number of rows; the leapfrog join: the keys its
    cursors have left); the theorems state that a result is produced.  Hypotheses such as
    "fewer than 2^32 - 2 operations" keep slot numbers within the [u32] the code
    casts them to.

    ** Not modelled

    The rest of the repository: the HTTP, MCP and Arrow servers, command-line
    tools and exporters (I/O and glue); approximate search, quantisation,
    inference and learning (floating-point heuristics without a contract); the
    source-code indexers; segment files and backups; OIDC and TLS configuration;
    the blocking and pinned variants of the coordinator's calls; weighted paths,
    PageRank and Louvain; the shortest-path operator of the executor, which no
    query compiles to; the experience store, the snapshot files of entities and the CSR
    cache of relations.
    In modelled files: serde derives (the abstract codec), logging, read errors during log
    replay and truncation, the exit of the WAL worker on a disconnected queue,
    and the text of error messages with interpolated values.  Segment files are
    named with sixteen digits, so that name order is numeric order below 10^16;
    the model keys them by number. *)

From stdpp Require Import base gmap sets list strings numbers sorting fin_maps.

(** ** Scopes *)

Declare Scope holo_scope.
Delimit Scope holo_scope with holo.
#[export] Set Default Goal Selector "!".
#[export] Set Warnings "-clear-no-such-hyp".

(** ** Record update

    Rust code assigns single fields of large structs.  [update proj f r] is the
    record [r] with the field [proj] replaced by [f (proj r)]; the updater of a
    field is derived from the record's eta-expansion. *)

Class Eta (T : Type) := eta : T → T.
Class Update {T A : Type} (proj : T → A) := update : (A → A) → T → T.
Arguments update {T A} proj {_} _ _.

Ltac derive_update :=
  match goal with
  | |- @Update ?T ?A ?proj =>
      let f := fresh "f" in
      let r := fresh "r" in
      intros f r;
      let i := constr:(_ : Eta T) in
      let e := eval red in (i r) in
      match eval pattern (proj r) in e with
      | ?F _ => let t := eval cbv beta in (F (f (proj r))) in exact t
      end
  end.

#[export] Hint Extern 0 (Update _) => derive_update : typeclass_instances.

Notation "r <| p := v |>" := (update p (λ _, v) r)
  (at level 1, left associativity, p at level 9, v at level 200,
   format "r <| p  :=  v |>") : holo_scope.
Notation "r <| p ::= f |>" := (update p f r)
  (at level 1, left associativity, p at level 9, f at level 200,
   format "r <| p  ::=  f |>") : holo_scope.
Open Scope holo_scope.

(** ** Machine integers

    [u64], [usize] (64-bit targets), [u32] and [u16] values are [N] below the
    width; operations that can leave the range wrap, as release builds do. *)

Definition u64_modulus : N := 18446744073709551616.
Definition u64_max : N := 18446744073709551615.
Definition u32_modulus : N := 4294967296.
Definition u64_wrap (x : N) : N := x `mod` u64_modulus.
Definition u64_add (x y : N) : N := u64_wrap (x + y).
Definition u64_sub (x y : N) : N := u64_wrap (x + u64_modulus - y).
Definition u64_saturating_add (x y : N) : N := N.min (x + y) u64_max.
Definition u64_wrapping_mul (x y : N) : N := u64_wrap (x * y).
Definition u64_shl (x k : N) : N := u64_wrap (N.shiftl x k).

(** [Vec::len() as u64] *)
Definition lenN {A} (l : list A) : N := N.of_nat (length l).
(** [v[i]] with a [u64] index; [None] is the out-of-bounds panic. *)
Definition nth_u64 {A} (l : list A) (i : N) : option A := l !! N.to_nat i.
(** [v.truncate(n)] and [v[n..]] *)
Definition truncateN {A} (n : N) (l : list A) : list A := take (N.to_nat n) l.
Definition skipN {A} (n : N) (l : list A) : list A := drop (N.to_nat n) l.

(** [iter().find(..)] *)
Fixpoint find_first {A} (f : A → bool) (l : list A) : option A :=
  match l with
  | [] => None
  | x :: l => if f x then Some x else find_first f l
  end.

(** ** Errors

    [HNSQRError] of src/lib.rs.  The strings keep the static text of the
    message; the values a [format!] interpolates are not part of the model. *)

Inductive HNSQRError :=
  | DimensionMismatch (expected actual : N)
  | NodeNotFound (id : string)
  | NodeIndexNotFound (idx : N)
  | NodeAlreadyExists (id : string)
  | IndexFull (cap : N)
  | SearchError (msg : string)
  | ConcurrencyError (msg : string)
  | InvalidConfig (msg : string)
  | InvalidRequest (msg : string)
  | SerializationError (msg : string)
  | IoError (msg : string)
  | SnapshotIncompatible (msg : string)
  | CorruptedSnapshot (msg : string)
  | Internal (msg : string)
  | StaleEpoch (msg : string)
  | Unauthorized (msg : string)
  | UnsupportedFeature (msg : string)
  | CertifiedDeadlineExceeded (elapsed_us budget_us frontier_nodes_remaining region_prune_ratio_ppm : N).

#[export] Instance HNSQRError_eq_dec : EqDecision HNSQRError.
Proof. solve_decision. Defined.

(** Rust's [Result<A, E>]. *)
Inductive Result (A E : Type) := Ok (a : A) | Err (e : E).
Arguments Ok {A E} _.
Arguments Err {A E} _.
Abbreviation HNSQRResult A := (Result A HNSQRError).

Lemma Ok_inj {A E} (x y : A) : Ok x = @Ok A E y → x = y.
Proof. congruence. Qed.

Definition is_ok {A E} (r : Result A E) : bool :=
  match r with Ok _ => true | Err _ => false end.
Definition is_err {A E} (r : Result A E) : bool := negb (is_ok r).

(** The [?] operator: early return of the error. *)
Notation "'let?' x := c 'in' k" :=
  (match c with Ok x => k | Err e => Err e end)
  (at level 10, x pattern, c at level 100, k at level 200) : holo_scope.

(** ** Proof automation *)

Create HintDb holo.

(** Case analysis on the outermost [match] of the goal or a hypothesis. *)
Ltac split_match :=
  match goal with
  | |- context [match ?x with _ => _ end] => destruct x eqn:?
  | H : context [match ?x with _ => _ end] |- _ => destruct x eqn:?
  end.

(** Boolean tests on [N] to arithmetic facts. *)
Ltac bool_to_N :=
  repeat match goal with
  | H : (_ && _)%bool = true |- _ => apply andb_true_iff in H as [? ?]
  | H : (_ || _)%bool = false |- _ => apply orb_false_iff in H as [? ?]
  | H : negb _ = true |- _ => apply negb_true_iff in H
  | H : negb _ = false |- _ => apply negb_false_iff in H
  | H : (_ <? _)%N = true |- _ => apply N.ltb_lt in H
  | H : (_ <? _)%N = false |- _ => apply N.ltb_ge in H
  | H : (_ <=? _)%N = true |- _ => apply N.leb_le in H
  | H : (_ <=? _)%N = false |- _ => apply N.leb_gt in H
  | H : (_ =? _)%N = true |- _ => apply N.eqb_eq in H
  | H : (_ =? _)%N = false |- _ => apply N.eqb_neq in H
  | H : bool_decide _ = true |- _ => apply bool_decide_eq_true in H
  | H : bool_decide _ = false |- _ => apply bool_decide_eq_false in H
  end.

(** ** Lists indexed by [N] *)

Section lists.
Context {A : Type}.
Implicit Types l : list A.

Lemma lenN_app l1 l2 : lenN (l1 ++ l2) = (lenN l1 + lenN l2)%N.
Proof. unfold lenN. rewrite length_app. lia. Qed.

Lemma nth_u64_lt l i x : nth_u64 l i = Some x → (i < lenN l)%N.
Proof. unfold nth_u64, lenN. intros H%lookup_lt_Some. lia. Qed.

Lemma nth_u64_is_Some l i : (i < lenN l)%N → is_Some (nth_u64 l i).
Proof. unfold nth_u64, lenN. intros. apply lookup_lt_is_Some. lia. Qed.

Lemma lenN_truncate n l : (n ≤ lenN l)%N → lenN (truncateN n l) = n.
Proof. unfold lenN, truncateN. intros. rewrite length_take. lia. Qed.

Lemma nth_u64_app_l l1 l2 i : (i < lenN l1)%N → nth_u64 (l1 ++ l2) i = nth_u64 l1 i.
Proof. unfold nth_u64, lenN. intros. apply lookup_app_l. lia. Qed.

Lemma nth_u64_app_r l1 l2 i :
  (lenN l1 ≤ i)%N → nth_u64 (l1 ++ l2) i = nth_u64 l2 (i - lenN l1)%N.
Proof.
  unfold nth_u64, lenN. intros. rewrite lookup_app_r by lia. f_equal. lia.
Qed.

Lemma nth_u64_truncate n l i : (i < n)%N → nth_u64 (truncateN n l) i = nth_u64 l i.
Proof. unfold nth_u64, truncateN. intros. apply lookup_take_lt. lia. Qed.

Lemma last_lookup_pred l : last l = l !! pred (length l).
Proof.
  induction l as [|x [|y l] IH]; [done..|]. rewrite last_cons_cons, IH. done.
Qed.

Lemma lenN_snoc l x : lenN (l ++ [x]) = (lenN l + 1)%N.
Proof. rewrite lenN_app. done. Qed.

Lemma lenN_pos l : l ≠ [] → (0 < lenN l)%N.
Proof. destruct l; [done|]. unfold lenN. simpl. lia. Qed.

Lemma truncateN_app l1 l2 n : n = lenN l1 → truncateN n (l1 ++ l2) = l1.
Proof. intros ->. unfold truncateN, lenN. rewrite Nat2N.id. apply take_app_length. Qed.

Lemma skipN_app l1 l2 n : n = lenN l1 → skipN n (l1 ++ l2) = l2.
Proof. intros ->. unfold skipN, lenN. rewrite Nat2N.id. apply drop_app_length. Qed.

Lemma truncateN_app_le n l1 l2 : (n ≤ lenN l1)%N → truncateN n (l1 ++ l2) = truncateN n l1.
Proof. unfold truncateN, lenN. intros. by rewrite take_app_le by lia. Qed.

Lemma skipN_app_le n l1 l2 : (n ≤ lenN l1)%N → skipN n (l1 ++ l2) = skipN n l1 ++ l2.
Proof. unfold skipN, lenN. intros. by rewrite drop_app_le by lia. Qed.

Lemma lenN_skip n l : lenN (skipN n l) = (lenN l - n)%N.
Proof. unfold lenN, skipN. rewrite length_drop. lia. Qed.
End lists.

(** Changing the relation of a [Forall2] under a fact on the left list. *)
Lemma Forall2_impl_l {A B} (P : A → Prop) (R Q : A → B → Prop) l k :
  Forall P l → Forall2 R l k → (∀ x y, P x → R x y → Q x y) → Forall2 Q l k.
Proof.
  intros HP HR HQ. induction HR as [|x y l k Hxy HR IH]; constructor;
    apply Forall_cons in HP as [Hx HP]; auto.
Qed.

Lemma NoDup_omap_inj {A B} (f : A → option B) l :
  (∀ x y z, f x = Some z → f y = Some z → x = y) → NoDup l → NoDup (omap f l).
Proof.
  intros Hf. induction 1 as [|x l Hx Hl IH]; cbn; [constructor|].
  destruct (f x) as [z|] eqn:Hz; [|done]. constructor; [|done].
  intros (y & Hy & Hyz)%list_elem_of_omap. by rewrite (Hf x y z Hz Hyz) in Hx.
Qed.

Lemma sorted_lt_le (l : list N) : StronglySorted N.lt l → StronglySorted N.le l.
Proof.
  induction 1 as [|x l Hs IH Hx]; constructor; [done|]. eapply Forall_impl; [exact Hx|]. cbn. lia.
Qed.

Lemma sorted_lt_NoDup (l : list N) : StronglySorted N.lt l → NoDup l.
Proof.
  induction 1 as [|x l Hs IH Hx]; constructor; [|done].
  intros Hin. rewrite Forall_forall in Hx. specialize (Hx x Hin). lia.
Qed.

(** Sublists inherit what holds of every element and the order. *)
Lemma sublist_Forall {A} (P : A → Prop) l1 l2 : l1 `sublist_of` l2 → Forall P l2 → Forall P l1.
Proof.
  induction 1; intros HP; [done| |]; apply Forall_cons in HP as [? ?]; [constructor|]; auto.
Qed.

Lemma sublist_sorted {A} (R : A → A → Prop) l1 l2 :
  l1 `sublist_of` l2 → StronglySorted R l2 → StronglySorted R l1.
Proof.
  induction 1; intros HS; [done| |]; apply StronglySorted_inv in HS as [? ?]; [|auto].
  constructor; [auto|]. by eapply sublist_Forall.
Qed.

(** The last elements of related lists. *)
Lemma Forall2_last_inv {A B} (R : A → B → Prop) l k x :
  Forall2 R l k → last l = Some x →
  ∃ l' k' y, l = l' ++ [x] ∧ k = k' ++ [y] ∧ Forall2 R l' k' ∧ R x y.
Proof.
  intros Hf Hl. apply last_Some in Hl as [l' ->].
  apply Forall2_app_inv_l in Hf as (k1 & k2 & H1 & H2 & ->).
  apply Forall2_cons_inv_l in H2 as (y & k2' & Hxy & Hnil & ->).
  apply Forall2_nil_inv_l in Hnil as ->. eauto 10.
Qed.

(** Filters that agree on the elements of the list. *)
Lemma filter_agree {A} (P Q : A → Prop) `{!∀ x, Decision (P x), !∀ x, Decision (Q x)} (l : list A) :
  (∀ x, x ∈ l → P x ↔ Q x) → filter P l = filter Q l.
Proof.
  induction l as [|x l IH]; intros HPQ; [done|]. rewrite !filter_cons.
  rewrite IH by (intros; apply HPQ; by right). specialize (HPQ x (list_elem_of_here _ _)).
  by repeat case_decide; try tauto.
Qed.

Lemma fmap_list_bind {A1 A2 A3} (f : A2 → A3) (g : A1 → list A2) l :
  f <$> (l ≫= g) = l ≫= λ x, f <$> g x.
Proof. induction l as [|x l IH]; [done|]. cbn. by rewrite fmap_app, <- IH. Qed.

(** ** Hash iteration order

    The order in which a [HashMap] or [HashSet] is traversed is unspecified: some
    enumeration of the keys. *)

Class HashOrderOf (K : Type) `{Countable K} := {
  iter_order : gset K → list K;
  iter_order_perm X : iter_order X ≡ₚ elements X
}.
Abbreviation HashOrder := (HashOrderOf N).

(** One possible order. *)
Definition canonical_order {K} `{Countable K} : HashOrderOf K := {|
  iter_order := elements;
  iter_order_perm X := reflexivity (elements X)
|}.

(** ** Filtered and sorted lists *)

Section filter.
Context {A : Type} (P : A → Prop) `{!∀ x, Decision (P x)}.
Implicit Types l : list A.

Lemma filter_all l : (∀ x, x ∈ l → P x) → filter P l = l.
Proof.
  induction l as [|x l IH]; intros Hl; [done|]. rewrite filter_cons_True by (apply Hl; by left).
  rewrite IH; [done|]. intros; apply Hl; by right.
Qed.

Lemma filter_nil_all l : (∀ x, x ∈ l → ¬ P x) → filter P l = [].
Proof.
  induction l as [|x l IH]; intros Hl; [done|]. rewrite filter_cons_False by (apply Hl; by left).
  apply IH. intros; apply Hl; by right.
Qed.

Lemma filter_sublist l : filter P l `sublist_of` l.
Proof.
  induction l as [|x l IH]; [done|]. destruct (decide (P x)).
  - rewrite filter_cons_True by done. by constructor.
  - rewrite filter_cons_False by done. by constructor.
Qed.
End filter.

Lemma filter_ext_elem {A} (P Q : A → Prop) `{!∀ x, Decision (P x), !∀ x, Decision (Q x)} (l : list A) :
  (∀ x, x ∈ l → P x ↔ Q x) → filter P l = filter Q l.
Proof.
  induction l as [|x l IH]; intros Hl; [done|]. specialize (IH ltac:(intros; apply Hl; by right)).
  specialize (Hl x ltac:(by left)). destruct (decide (P x)).
  - rewrite !filter_cons_True by tauto. by rewrite IH.
  - rewrite !filter_cons_False by tauto. done.
Qed.

Lemma sorted_weaken {A} (R R' : A → A → Prop) l :
  (∀ x y, R x y → R' x y) → StronglySorted R l → StronglySorted R' l.
Proof. intros HR. induction 1 as [|x l Hl IH Hx]; constructor; [done|]. eapply Forall_impl; eauto. Qed.

(** ** Strings *)

(** Concatenation does not compute by [cbn]. *)
Lemma append_cons c a b : (String c a +:+ b)%string = String c (a +:+ b).
Proof. reflexivity. Qed.

Lemma append_assoc a b c : ((a +:+ b) +:+ c)%string = (a +:+ b +:+ c)%string.
Proof. induction a as [|x a IH]; [done|]. rewrite !append_cons. by f_equal. Qed.

Lemma list_ascii_append a b :
  String.list_ascii_of_string (a +:+ b) = String.list_ascii_of_string a ++ String.list_ascii_of_string b.
Proof. induction a as [|c a IH]; [done|]. rewrite append_cons. cbn. by f_equal. Qed.
