(* ===== verification/Codec.v ===== *)
(** Byte-level codecs: little-endian integers ([to_le_bytes] and
    [from_le_bytes]) and the CRC-framed record format of
    src/consensus/storage.rs ([encode_framed_record], [decode_framed_record]);
    big-endian integers and UTF-8 for the wire protocols.

    [bincode] and [crc32fast] are third-party crates: the classes [Bincode] and
    [Crc32] are their interfaces, [BincodeLaws] and [Crc32Laws] the documented
    behaviour the code relies on. *)

From Stdlib Require Import Strings.Byte.
From S2P Require Import Prelude.
From stdpp Require Import base list numbers strings.

#[export] Instance byte_eq_dec : EqDecision byte := Byte.byte_eq_dec.

(** ** Little-endian integers *)

Definition byte_of_N (x : N) : byte := default x00 (Byte.of_N (x `mod` 256)).

(** The [n] low bytes of [x], least significant first. *)
Fixpoint le_bytes (n : nat) (x : N) : list byte :=
  match n with
  | O => []
  | S n => byte_of_N x :: le_bytes n (x / 256)
  end.

Fixpoint le_num (bs : list byte) : N :=
  match bs with
  | [] => 0
  | b :: bs => Byte.to_N b + 256 * le_num bs
  end.

(** [buffer[a..b]] *)
Definition slice {A} (a b : nat) (l : list A) : list A := take (b - a) (drop a l).

(** Most significant byte first *)
Definition be_bytes (n : nat) (x : N) : list byte := reverse (le_bytes n x).
Definition be_num (bs : list byte) : N := le_num (reverse bs).

(** ** UTF-8 *)

(** The range of the second byte and the length of a sequence, by its first byte *)
Definition utf8_lead (b : N) : option (N * N * nat) :=
  if (194 <=? b)%N && (b <=? 223)%N then Some (128%N, 191%N, 2%nat)
  else if (b =? 224)%N then Some (160%N, 191%N, 3%nat)
  else if (225 <=? b)%N && (b <=? 236)%N then Some (128%N, 191%N, 3%nat)
  else if (b =? 237)%N then Some (128%N, 159%N, 3%nat)
  else if (238 <=? b)%N && (b <=? 239)%N then Some (128%N, 191%N, 3%nat)
  else if (b =? 240)%N then Some (144%N, 191%N, 4%nat)
  else if (241 <=? b)%N && (b <=? 243)%N then Some (128%N, 191%N, 4%nat)
  else if (b =? 244)%N then Some (128%N, 143%N, 4%nat)
  else None.
Definition in_range (lo hi : N) (b : byte) : bool := (lo <=? Byte.to_N b)%N && (Byte.to_N b <=? hi)%N.
Fixpoint continuations (n : nat) (l : list byte) : nat :=
  match n, l with
  | S n, b :: l => if in_range 128 191 b then S (continuations n l) else O
  | _, _ => O
  end.
(** The next character, or the next invalid sequence: whether it is valid, and its
    length *)
Definition utf8_next (l : list byte) : bool * nat :=
  match l with
  | [] => (false, O)
  | b :: l =>
      if (Byte.to_N b <? 128)%N then (true, 1%nat)
      else match utf8_lead (Byte.to_N b), l with
           | Some (lo, hi, width), c :: l =>
               if in_range lo hi c
               then let m := continuations (width - 2) l in ((m =? width - 2)%nat, (2 + m)%nat)
               else (false, 1%nat)
           | _, _ => (false, 1%nat)
           end
  end.
Fixpoint utf8_loop (fuel : nat) (l : list byte) : bool :=
  match fuel, l with
  | _, [] => true
  | O, _ => false
  | S fuel, _ => let '(ok, n) := utf8_next l in ok && utf8_loop fuel (drop n l)
  end.
(** [str::from_utf8(bytes).is_ok()]; every character takes a byte at least. *)
Definition utf8_valid (l : list byte) : bool := utf8_loop (length l) l.

Fixpoint lossy_loop (fuel : nat) (l : list byte) : list byte :=
  match fuel, l with
  | S fuel, _ :: _ =>
      let '(ok, n) := utf8_next l in
      (if ok : bool then take n l else [xef; xbf; xbd]) ++ lossy_loop fuel (drop n l)
  | _, _ => []
  end.
(** [String::from_utf8_lossy]: each invalid sequence becomes U+FFFD. *)
Definition utf8_lossy (l : list byte) : list byte := lossy_loop (length l) l.

(** ** Third-party interfaces *)

Class Bincode (T : Type) := {
  serialize : T → Result (list byte) string;
  deserialize : list byte → Result T string
}.
Class BincodeLaws (T : Type) `{Bincode T} :=
  bincode_roundtrip x bs : serialize x = Ok bs → deserialize bs = Ok x.

Class Crc32 := crc32 : list byte → N.
Class Crc32Laws `{Crc32} := crc32_range bs : (crc32 bs < u32_modulus)%N.

(** ** Framed records *)

Definition RAFT_FRAME_MAGIC : N := 0x52414654.
Definition RAFT_FRAME_VERSION : N := 1.
Definition RAFT_FRAME_HEADER_SIZE : nat := 14.

Section framed.
Context {T : Type} `{Bincode T} `{Crc32}.

(** The frame of an already serialized payload; [payload.len() as u32]
    truncates to 32 bits. *)
Definition frame_of_payload (payload : list byte) : list byte :=
  le_bytes 4 RAFT_FRAME_MAGIC ++ le_bytes 2 RAFT_FRAME_VERSION ++
  le_bytes 4 (lenN payload `mod` u32_modulus) ++ le_bytes 4 (crc32 payload) ++
  payload.

Definition encode_framed_record (record : T) : HNSQRResult (list byte) :=
  match serialize record with
  | Err _ => Err (Internal "Failed to serialize Raft record")
  | Ok payload => Ok (frame_of_payload payload)
  end.

Definition decode_framed_record (buffer : list byte) : HNSQRResult (T * nat) :=
  if bool_decide (length buffer < RAFT_FRAME_HEADER_SIZE)
  then Err (Internal "Buffer too small for Raft frame header") else
  let magic := le_num (slice 0 4 buffer) in
  if negb (magic =? RAFT_FRAME_MAGIC)%N
  then Err (Internal "Invalid Raft frame magic") else
  let version := le_num (slice 4 6 buffer) in
  if negb (version =? RAFT_FRAME_VERSION)%N
  then Err (Internal "Unsupported Raft frame version") else
  let payload_len := N.to_nat (le_num (slice 6 10 buffer)) in
  let expected_crc := le_num (slice 10 14 buffer) in
  let total_frame_len := RAFT_FRAME_HEADER_SIZE + payload_len in
  if bool_decide (length buffer < total_frame_len)
  then Err (Internal "Incomplete Raft frame payload (torn record)") else
  let payload := slice RAFT_FRAME_HEADER_SIZE total_frame_len buffer in
  let actual_crc := crc32 payload in
  if negb (actual_crc =? expected_crc)%N
  then Err (Internal "CRC32 checksum mismatch in Raft frame") else
  match deserialize payload with
  | Err _ => Err (Internal "Failed to deserialize Raft record payload")
  | Ok record => Ok (record, total_frame_len)
  end.
End framed.

(** ** Facts on little-endian integers *)

Lemma to_N_byte_of_N x : Byte.to_N (byte_of_N x) = (x `mod` 256)%N.
Proof.
  unfold byte_of_N.
  destruct (Byte.of_N (x `mod` 256)) as [b|] eqn:E; simpl.
  - by apply Byte.to_of_N in E.
  - apply Byte.of_N_None_iff in E. pose proof (N.mod_lt x 256). lia.
Qed.

Lemma length_le_bytes n x : length (le_bytes n x) = n.
Proof. revert x. induction n; intros; simpl; auto. Qed.

Lemma le_num_le_bytes n x : le_num (le_bytes n x) = (x `mod` 256 ^ N.of_nat n)%N.
Proof.
  revert x. induction n as [|n IH]; intros x.
  { simpl. by rewrite N.mod_1_r. }
  cbn [le_bytes le_num]. rewrite IH, to_N_byte_of_N, Nat2N.inj_succ, N.pow_succ_r'.
  by rewrite N.Div0.mod_mul_r.
Qed.

Lemma le_num_le_bytes_small n x :
  (x < 256 ^ N.of_nat n)%N → le_num (le_bytes n x) = x.
Proof. intros. rewrite le_num_le_bytes. by apply N.mod_small. Qed.

Lemma le_num_bound bs : (le_num bs < 256 ^ N.of_nat (length bs))%N.
Proof.
  induction bs as [|b bs IH]; [done|]. cbn [le_num length].
  rewrite Nat2N.inj_succ, N.pow_succ_r'. pose proof (Byte.to_N_bounded b). lia.
Qed.

(** ** Slices of concatenations *)

Lemma slice_app_here {A} (l1 l2 l3 : list A) :
  slice (length l1) (length l1 + length l2) (l1 ++ l2 ++ l3) = l2.
Proof.
  unfold slice. rewrite drop_app_length. replace (_ - _) with (length l2) by lia.
  apply take_app_length.
Qed.

Lemma length_slice {A} a b (l : list A) :
  a ≤ b → b ≤ length l → length (slice a b l) = b - a.
Proof. intros. unfold slice. rewrite length_take, length_drop. lia. Qed.

Lemma slice_take {A} a b k (l : list A) : b ≤ k → slice a b (take k l) = slice a b l.
Proof.
  intros. unfold slice. rewrite !skipn_firstn_comm, take_take. f_equal. lia.
Qed.

(** ** Facts on frames *)

Section framed_facts.
Context {T : Type} `{Bincode T} `{Crc32}.

Lemma length_frame_of_payload payload :
  length (frame_of_payload payload) = RAFT_FRAME_HEADER_SIZE + length payload.
Proof. unfold frame_of_payload. by rewrite !length_app, !length_le_bytes. Qed.

Lemma frame_header_slices payload rest :
  let f := frame_of_payload payload ++ rest in
  slice 0 4 f = le_bytes 4 RAFT_FRAME_MAGIC ∧
  slice 4 6 f = le_bytes 2 RAFT_FRAME_VERSION ∧
  slice 6 10 f = le_bytes 4 (lenN payload `mod` u32_modulus) ∧
  slice 10 14 f = le_bytes 4 (crc32 payload).
Proof. done. Qed.

Lemma frame_payload_slice payload rest :
  slice RAFT_FRAME_HEADER_SIZE (RAFT_FRAME_HEADER_SIZE + length payload)
    (frame_of_payload payload ++ rest) = payload.
Proof.
  unfold frame_of_payload. rewrite <- !app_assoc.
  change (take (14 + length payload - 14) (payload ++ rest) = payload).
  rewrite Nat.add_comm, Nat.add_sub. apply take_app_length.
Qed.

Lemma encode_framed_inv x frame :
  encode_framed_record x = Ok frame →
  ∃ payload, serialize x = Ok payload ∧ frame = frame_of_payload payload.
Proof.
  unfold encode_framed_record. intros E. destruct (serialize x) as [p|]; [|done].
  injection E as <-. eauto.
Qed.

Lemma decode_frame_of_payload `{!Crc32Laws} payload rest :
  (lenN payload < u32_modulus)%N →
  decode_framed_record (T := T) (frame_of_payload payload ++ rest) =
  match deserialize payload with
  | Err _ => Err (Internal "Failed to deserialize Raft record payload")
  | Ok record => Ok (record, length (frame_of_payload payload))
  end.
Proof.
  intros Hlen. unfold decode_framed_record.
  destruct (frame_header_slices payload rest) as (-> & -> & -> & ->).
  rewrite !le_num_le_bytes.
  rewrite (N.mod_small RAFT_FRAME_MAGIC), (N.mod_small RAFT_FRAME_VERSION) by done.
  rewrite (N.mod_small (lenN payload) u32_modulus) by done.
  rewrite (N.mod_small (lenN payload)), (N.mod_small (crc32 payload))
    by first [done | apply crc32_range].
  rewrite !N.eqb_refl. cbn [negb].
  assert (N.to_nat (lenN payload) = length payload) as -> by (unfold lenN; lia).
  rewrite frame_payload_slice, N.eqb_refl. cbn [negb].
  rewrite !bool_decide_eq_false_2
    by (rewrite length_app, length_frame_of_payload; lia).
  by rewrite length_frame_of_payload.
Qed.

(** A strict prefix of a frame never decodes. *)
Lemma decode_frame_prefix_err payload k :
  (lenN payload < u32_modulus)%N →
  k < length (frame_of_payload payload) →
  is_err (decode_framed_record (T := T) (take k (frame_of_payload payload))) = true.
Proof.
  intros Hlen Hk. rewrite length_frame_of_payload in Hk.
  unfold decode_framed_record. rewrite !length_take, !length_frame_of_payload.
  case_bool_decide as Hh; [done|].
  assert (∀ b, b ≤ 14 → ∀ a, slice a b (take k (frame_of_payload payload)) =
    slice a b (frame_of_payload payload ++ [])) as Hs.
  { intros. rewrite app_nil_r. apply slice_take. unfold RAFT_FRAME_HEADER_SIZE in *. lia. }
  rewrite (Hs 4 ltac:(lia)), (Hs 6 ltac:(lia)), (Hs 10 ltac:(lia)), (Hs 14 ltac:(lia)).
  destruct (frame_header_slices payload []) as (-> & -> & -> & ->).
  change (negb (le_num (le_bytes 4 RAFT_FRAME_MAGIC) =? RAFT_FRAME_MAGIC)%N) with false.
  change (negb (le_num (le_bytes 2 RAFT_FRAME_VERSION) =? RAFT_FRAME_VERSION)%N) with false.
  cbv beta iota zeta.
  rewrite (N.mod_small (lenN payload) u32_modulus) by done.
  rewrite le_num_le_bytes_small by done.
  rewrite bool_decide_eq_true_2; [done|]. unfold lenN. lia.
Qed.
End framed_facts.

(** Decoding a framed record gives back the record and the exact frame
    length whatever bytes follow it, and every proper prefix of a frame is
    refused with an error. *)
Lemma framed_record_codec {T} `{!Bincode T} `{!BincodeLaws T} `{!Crc32} `{!Crc32Laws}
    (x : T) payload frame rest :
  serialize x = Ok payload → (lenN payload < u32_modulus)%N →
  encode_framed_record x = Ok frame →
  decode_framed_record (frame ++ rest) = Ok (x, length frame) ∧
  ∀ k, k < length frame → is_err (decode_framed_record (T := T) (take k frame)) = true.
Proof.
  intros Hs Hlen He. apply encode_framed_inv in He as (p & Hp & ->).
  rewrite Hs in Hp. injection Hp as <-. split.
  - rewrite decode_frame_of_payload by done. by rewrite (bincode_roundtrip x payload Hs).
  - intros k Hk. by apply decode_frame_prefix_err.
Qed.

(** ** Facts on big-endian integers and UTF-8 *)

Lemma length_be_bytes n x : length (be_bytes n x) = n.
Proof. unfold be_bytes. by rewrite length_reverse, length_le_bytes. Qed.

Lemma be_num_be_bytes n x : be_num (be_bytes n x) = (x `mod` 256 ^ N.of_nat n)%N.
Proof. unfold be_num, be_bytes. by rewrite reverse_involutive, le_num_le_bytes. Qed.

Lemma be_num_bound bs : (be_num bs < 256 ^ N.of_nat (length bs))%N.
Proof. unfold be_num. rewrite <- length_reverse. apply le_num_bound. Qed.

(** Plain text is valid. *)
Lemma utf8_ascii l : Forall (λ b, Byte.to_N b < 128)%N l → utf8_valid l = true.
Proof.
  unfold utf8_valid. induction 1 as [|b l Hb _ IH]; [done|]. apply N.ltb_lt in Hb.
  cbn [length utf8_loop utf8_next]. by rewrite Hb.
Qed.

(** Valid text stays as it is. *)
Lemma utf8_lossy_valid l : utf8_valid l = true → utf8_lossy l = l.
Proof.
  unfold utf8_valid, utf8_lossy. generalize (length l) as fuel. intros fuel. revert l.
  induction fuel as [|fuel IH]; intros [|b l]; try done. cbn [utf8_loop lossy_loop].
  destruct (utf8_next (b :: l)) as [ok n]. intros [-> Hl]%andb_true_iff. rewrite IH by done. apply take_drop.
Qed.
