(* ===== verification/FileSystem.v ===== *)
(** The file system the storage components run on.

    A disk maps paths to contents and carries a script of faults: the next
    system call succeeds on [None] (and when the script is used up) and fails on
    [Some k], a failing write after [k] bytes.  Contents are durable once
    written: a loss of unsynced data at power failure is not modelled. *)

From Stdlib Require Import Strings.Byte.
From S2P Require Import Prelude.
From stdpp Require Import base gmap strings numbers list fin_maps.

(** ** The file system *)

(** The files the program writes: metadata files by name, Raft log segments
    [log/{start:016}.rlog] by the start index in the name and WAL segments
    [wal_{id:016}.wal] by their id.  Names are zero-padded, so sorting the paths
    of log segments sorts their indices (below 10^16). *)
Inductive path := Meta (name : string) | Rlog (start : N) | WalSeg (id : N).

#[export] Instance path_eq_dec : EqDecision path.
Proof. solve_decision. Defined.
#[export] Instance path_countable : Countable path.
Proof.
  refine (inj_countable'
    (λ p, match p with Meta s => inl s | Rlog i => inr (inl i) | WalSeg i => inr (inr i) end)
    (λ x, match x with inl s => Meta s | inr (inl i) => Rlog i | inr (inr i) => WalSeg i end) _).
  by intros [].
Defined.

Record Disk := mkDisk {
  files : gmap path (list byte);
  faults : list (option nat)
}.
#[export] Instance eta_Disk : Eta Disk := λ d, mkDisk (files d) (faults d).

Definition IO (A : Type) : Type := Disk → HNSQRResult A * Disk.
Definition io_ret {A} (x : A) : IO A := λ d, (Ok x, d).
Definition io_err {A} (e : HNSQRError) : IO A := λ d, (Err e, d).
Definition io_bind {A B} (c : IO A) (f : A → IO B) : IO B := λ d,
  match c d with
  | (Ok x, d) => f x d
  | (Err e, d) => (Err e, d)
  end.
Notation "'let!' x := c 'in' k" := (io_bind c (λ x, k))
  (at level 10, x pattern, c at level 100, k at level 200) : holo_scope.

Definition io_lift {A} (r : HNSQRResult A) : IO A := λ d, (r, d).

Definition disk_error : HNSQRError := IoError "I/O error".

(** The outcome of the next system call. *)
Definition next_fault : Disk → option nat * Disk := λ d,
  match faults d with
  | [] => (None, d)
  | f :: fs => (f, d <| faults := fs |>)
  end.

(** A system call that reads or syncs. *)
Definition syscall : IO unit := λ d,
  match next_fault d with
  | (None, d) => (Ok tt, d)
  | (Some _, d) => (Err disk_error, d)
  end.

(** A system call whose result the code discards ([let _ = ..]). *)
Definition io_try (c : IO unit) : IO unit := λ d, (Ok tt, (c d).2).

(** A system call with an effect on the files. *)
Definition syscall_files (f : gmap path (list byte) → gmap path (list byte)) : IO unit := λ d,
  match next_fault d with
  | (None, d) => (Ok tt, d <| files ::= f |>)
  | (Some _, d) => (Err disk_error, d)
  end.

(** [create(true).write(true).truncate(true).open] *)
Definition open_truncate (p : path) : IO unit := syscall_files <[p := []]>.
(** [create(true).append(true).open] *)
Definition open_append (p : path) : IO unit :=
  syscall_files (λ fs, match fs !! p with Some _ => fs | None => <[p := []]> fs end).
(** [write(true).truncate(true).open]: the file has to exist. *)
Definition open_existing_truncate (p : path) : IO unit := λ d,
  match files d !! p with
  | Some _ => open_truncate p d
  | None => (Err disk_error, d)
  end.
(** [write_all] at the end of an open file; a failure leaves a torn write. *)
Definition write_all (p : path) (bs : list byte) : IO unit := λ d,
  match next_fault d with
  | (None, d) => (Ok tt, d <| files ::= alter (λ old, old ++ bs) p |>)
  | (Some k, d) => (Err disk_error, d <| files ::= alter (λ old, old ++ take k bs) p |>)
  end.
Definition sync_all : IO unit := syscall.
(** [fs::rename] replaces the target in one step; the source has to exist. *)
Definition rename (a b : path) : IO unit := λ d,
  match files d !! a with
  | Some c => syscall_files (λ fs, <[b := c]> (delete a fs)) d
  | None => (Err disk_error, d)
  end.
Definition remove_file (p : path) : IO unit := syscall_files (delete p).
(** [File::open] and [read_to_end]. *)
Definition read_file (p : path) : IO (list byte) :=
  let! _ := syscall in
  let! _ := syscall in
  λ d, match files d !! p with Some c => (Ok c, d) | None => (Err disk_error, d) end.
Definition set_len (p : path) (n : nat) : IO unit := syscall_files (alter (take n) p).
(** [File::open(dir)] and [sync_all], both best effort. *)
Definition sync_dir : IO unit :=
  io_try (let! _ := syscall in syscall).

(** The per-entry calls of a directory listing. *)
Fixpoint syscalls (n : nat) : IO unit :=
  match n with
  | O => io_ret tt
  | S n => let! _ := syscall in syscalls n
  end.

(** ** Disk actions *)

(** [c] changes no file but those in [ps]. *)
Definition frames_files {A} (ps : list path) (c : IO A) : Prop :=
  ∀ d r d', c d = (r, d') → ∀ p, p ∉ ps → files d' !! p = files d !! p.

Lemma next_fault_files d f d' : next_fault d = (f, d') → files d' = files d.
Proof. unfold next_fault. case_match; by intros [= <- <-]. Qed.

Section frames.
Context {A B : Type}.

Lemma frames_ret ps (x : A) : frames_files ps (io_ret x).
Proof. by intros d r d' [= <- <-]. Qed.

Lemma frames_lift ps (r : HNSQRResult A) : frames_files ps (io_lift r).
Proof. by intros d r' d' [= <- <-]. Qed.

Lemma frames_bind ps (c : IO A) (f : A → IO B) :
  frames_files ps c → (∀ x, frames_files ps (f x)) → frames_files ps (io_bind c f).
Proof.
  intros Hc Hf d r d'. unfold io_bind. destruct (c d) as [[x|e] d1] eqn:Ec.
  - intros Ef p Hp. rewrite (Hf x d1 r d' Ef p Hp). eapply Hc; eauto.
  - intros [= <- <-] p Hp. eapply Hc; eauto.
Qed.
End frames.

Lemma frames_syscall ps : frames_files ps syscall.
Proof.
  intros d r d'. unfold syscall. destruct (next_fault d) as [[k|] d1] eqn:E;
    apply next_fault_files in E; intros [= <- <-] p _; congruence.
Qed.

Lemma frames_try ps c : frames_files ps c → frames_files ps (io_try c).
Proof. intros Hc d r d' [= <- <-] p Hp. destruct (c d) as [r1 d1] eqn:E. eapply Hc; eauto. Qed.

Lemma frames_syscall_files ps f :
  (∀ fs p, p ∉ ps → f fs !! p = fs !! p) → frames_files ps (syscall_files f).
Proof.
  intros Hf d r d'. unfold syscall_files. destruct (next_fault d) as [[k|] d1] eqn:E;
    apply next_fault_files in E; intros [= <- <-] p Hp; cbn; [congruence|].
  rewrite Hf by done. congruence.
Qed.

Lemma frames_open_truncate ps p : p ∈ ps → frames_files ps (open_truncate p).
Proof.
  intros Hp. apply frames_syscall_files. intros fs q Hq. apply lookup_insert_ne. by intros ->.
Qed.

Lemma frames_write_all ps p bs : p ∈ ps → frames_files ps (write_all p bs).
Proof.
  intros Hp d r d'. unfold write_all. destruct (next_fault d) as [[k|] d1] eqn:E;
    apply next_fault_files in E; intros [= <- <-] q Hq; cbn;
    rewrite lookup_alter_ne by (by intros ->); congruence.
Qed.

Lemma frames_sync_dir ps : frames_files ps sync_dir.
Proof. apply frames_try, frames_bind; [apply frames_syscall|intros; apply frames_syscall]. Qed.

#[export] Hint Resolve frames_ret frames_lift frames_bind frames_syscall frames_try
  frames_open_truncate frames_write_all frames_sync_dir : holo.
#[export] Hint Resolve list_elem_of_here list_elem_of_further : holo.

(** [write_all] into a file just opened, when it succeeds. *)
Lemma open_write_spec p bs d d' :
  (let! _ := open_truncate p in let! _ := write_all p bs in sync_all) d = (Ok tt, d') →
  files d' = <[p := bs]> (files d).
Proof.
  unfold io_bind, open_truncate, syscall_files, write_all, sync_all, syscall.
  destruct (next_fault d) as [[k|] d1] eqn:E1; [done|]. cbn.
  destruct (next_fault (d1 <| files ::= <[p := []]> |>)) as [[k|] d2] eqn:E2; [done|].
  cbn. destruct (next_fault (d2 <| files ::= _ |>)) as [[k|] d3] eqn:E3; [done|].
  intros [= <-]. apply next_fault_files in E1, E2, E3. rewrite E3. cbn. rewrite E2. cbn.
  rewrite E1. by rewrite alter_insert_eq.
Qed.

(** ** A disk without faults *)

Lemma io_bind_ok {A B} (c : IO A) (f : A → IO B) d x d' :
  c d = (Ok x, d') → io_bind c f d = f x d'.
Proof. unfold io_bind. by intros ->. Qed.

Definition healthy (d : Disk) : Prop := faults d = [].

Lemma next_fault_healthy d : healthy d → next_fault d = (None, d).
Proof. unfold healthy, next_fault. by intros ->. Qed.

Lemma syscall_healthy d : healthy d → syscall d = (Ok tt, d).
Proof. intros Hd. unfold syscall. by rewrite next_fault_healthy. Qed.

Lemma sync_dir_healthy d : healthy d → sync_dir d = (Ok tt, d).
Proof.
  intros Hd. unfold sync_dir, io_try, io_bind. rewrite syscall_healthy by done.
  by rewrite syscall_healthy.
Qed.

Lemma read_file_healthy p d bs :
  healthy d → files d !! p = Some bs → read_file p d = (Ok bs, d).
Proof.
  intros Hd Hp. unfold read_file, io_bind. rewrite syscall_healthy by done.
  rewrite syscall_healthy by done. by rewrite Hp.
Qed.

Lemma open_write_healthy p bs d :
  healthy d →
  (let! _ := open_truncate p in let! _ := write_all p bs in sync_all) d =
    (Ok tt, mkDisk (<[p := bs]> (files d)) []).
Proof.
  destruct d as [fs fl]. unfold healthy. cbn. intros ->.
  unfold io_bind, open_truncate, syscall_files, write_all, sync_all, syscall, next_fault. cbn.
  unfold update. cbn. by rewrite alter_insert_eq.
Qed.

Lemma append_write_healthy p old bs d :
  healthy d → files d !! p = Some old →
  (let! _ := open_append p in let! _ := write_all p bs in sync_all) d =
    (Ok tt, mkDisk (<[p := old ++ bs]> (files d)) []).
Proof.
  destruct d as [fs fl]. unfold healthy. cbn. intros -> Hp.
  unfold io_bind, open_append, syscall_files, write_all, sync_all, syscall, next_fault. cbn.
  unfold update. cbn. rewrite Hp. f_equal. f_equal. apply map_eq. intros q.
  destruct (decide (p = q)) as [<-|Hne].
  - by rewrite lookup_alter_eq, lookup_insert_eq, Hp.
  - by rewrite lookup_alter_ne, lookup_insert_ne by done.
Qed.

Lemma existing_write_healthy p old bs d :
  healthy d → files d !! p = Some old →
  (let! _ := open_existing_truncate p in let! _ := write_all p bs in sync_all) d =
    (Ok tt, mkDisk (<[p := bs]> (files d)) []).
Proof.
  intros Hd Hp. rewrite <- open_write_healthy by done. unfold io_bind at 1 3.
  unfold open_existing_truncate. by rewrite Hp.
Qed.

Lemma syscalls_healthy k d : healthy d → syscalls k d = (Ok tt, d).
Proof.
  intros Hd. induction k as [|k IH]; [done|]. cbn [syscalls]. unfold io_bind.
  by rewrite syscall_healthy.
Qed.
