(* ===== verification/RaftTypes.v ===== *)
(** Data types of the consensus layer: roles, commands, log entries and RPC
    messages of src/consensus/raft.rs, the identifiers, receipts and errors of
    src/consensus/pending.rs, and the two interfaces the Raft node is written
    against: the [ReplicatedStateMachine] trait of src/cluster/state_machine.rs
    and the [RaftStorage] trait of src/consensus/storage.rs. *)

From S2P Require Import Prelude.
From stdpp Require Import base gmap strings numbers list.

Abbreviation RaftNodeId := N (only parsing).
Abbreviation ShardId := N (only parsing).

(** ** src/consensus/raft.rs *)

Inductive RaftRole := Follower | Candidate | Leader | Learner.

#[export] Instance RaftRole_eq_dec : EqDecision RaftRole.
Proof. solve_decision. Defined.

Record TopologyMutation := mkTopologyMutation {
  tm_epoch : N;
  tm_shard_owners : gmap ShardId RaftNodeId
}.

Record MembershipMutation := mkMembershipMutation {
  mm_new_peers : list RaftNodeId
}.

(** [D] is the type of [DataMutation]s. *)
Inductive RaftCommand (D : Type) :=
  | Data (d : D)
  | Topology (t : TopologyMutation)
  | Membership (m : MembershipMutation)
  | NoOp.
Arguments Data {D} _.
Arguments Topology {D} _.
Arguments Membership {D} _.
Arguments NoOp {D}.

Record RaftLogEntry (D : Type) := mkEntry {
  e_term : N;
  e_index : N;
  e_command : RaftCommand D
}.
Arguments mkEntry {D} _ _ _.
Arguments e_term {D} _.
Arguments e_index {D} _.
Arguments e_command {D} _.

Record RequestVoteArgs := mkRequestVoteArgs {
  rv_term : N;
  rv_candidate_id : RaftNodeId;
  rv_last_log_index : N;
  rv_last_log_term : N
}.

Record RequestVoteReply := mkRequestVoteReply {
  rvr_term : N;
  rvr_vote_granted : bool
}.

Record AppendEntriesArgs (D : Type) := mkAppendEntriesArgs {
  ae_term : N;
  ae_leader_id : RaftNodeId;
  ae_prev_log_index : N;
  ae_prev_log_term : N;
  ae_entries : list (RaftLogEntry D);
  ae_leader_commit : N;
  ae_is_heartbeat : bool
}.
Arguments mkAppendEntriesArgs {D}.
Arguments ae_term {D} _.
Arguments ae_leader_id {D} _.
Arguments ae_prev_log_index {D} _.
Arguments ae_prev_log_term {D} _.
Arguments ae_entries {D} _.
Arguments ae_leader_commit {D} _.
Arguments ae_is_heartbeat {D} _.

Record AppendEntriesReply := mkAppendEntriesReply {
  aer_term : N;
  aer_success : bool;
  aer_match_index : N
}.

Inductive RaftMessage (D : Type) :=
  | MRequestVote (args : RequestVoteArgs)
  | MRequestVoteReply (reply : RequestVoteReply)
  | MAppendEntries (args : AppendEntriesArgs D)
  | MAppendEntriesReply (reply : AppendEntriesReply).
Arguments MRequestVote {D} _.
Arguments MRequestVoteReply {D} _.
Arguments MAppendEntries {D} _.
Arguments MAppendEntriesReply {D} _.

(** ** src/consensus/pending.rs *)

Record ProposalId := mkProposalId {
  p_term : N;
  p_log_index : N
}.

#[export] Instance ProposalId_eq_dec : EqDecision ProposalId.
Proof. solve_decision. Defined.
#[export] Instance ProposalId_countable : Countable ProposalId.
Proof.
  refine (inj_countable' (λ p, (p_term p, p_log_index p))
    (λ q, mkProposalId q.1 q.2) _). by intros [].
Defined.

Abbreviation MutationId := string (only parsing).

Inductive DurabilityLevel := MemoryOnly | QuorumReplicated | QuorumDurableFsylog.

#[export] Instance DurabilityLevel_eq_dec : EqDecision DurabilityLevel.
Proof. solve_decision. Defined.

Record CommitReceipt := mkCommitReceipt {
  cr_mutation_id : MutationId;
  cr_term : N;
  cr_log_index : N;
  cr_quorum_committed : bool;
  cr_state_machine_applied : bool;
  cr_applied_index : N;
  cr_topology_epoch : N;
  cr_durability : DurabilityLevel
}.

#[export] Instance CommitReceipt_eq_dec : EqDecision CommitReceipt.
Proof. solve_decision. Defined.

(** [CommitReceipt::new_verified]; [None] is the failed [assert!]. *)
Definition new_verified (mutation_id : MutationId) (term log_index applied_index
    topology_epoch : N) (durability : DurabilityLevel) : option CommitReceipt :=
  if (0 <? applied_index)%N
  then Some (mkCommitReceipt mutation_id term log_index true true applied_index
               topology_epoch durability)
  else None.

Inductive CommitStatus := Committed | Uncommitted | Unknown.

#[export] Instance CommitStatus_eq_dec : EqDecision CommitStatus.
Proof. solve_decision. Defined.

Inductive ApplyError :=
  | LeadershipLost (mutation_id : MutationId) (term log_index : N)
      (commit_status : CommitStatus)
  | StateApplyFailed (mutation_id : MutationId) (reason : HNSQRError) (log_index : N)
  | StateMachineUnavailable (log_index : N)
  | SequenceViolation (reason : string)
  | QuorumUnavailable (term : N)
  | ProposalTimedOut (proposal : ProposalId)
  | Deduplicated (receipt : CommitReceipt).

#[export] Instance ApplyError_eq_dec : EqDecision ApplyError.
Proof. solve_decision. Defined.

(** The value a proposal's one-shot channel carries. *)
Abbreviation ProposalOutcome := (Result CommitReceipt ApplyError).

(** ** The persistent records of src/consensus/storage.rs *)

Record RaftHardState := mkRaftHardState {
  hs_current_term : N;
  hs_voted_for : option RaftNodeId
}.

Record RaftPersistentProgress := mkRaftPersistentProgress {
  pp_commit_index : N;
  pp_last_applied : N;
  pp_snapshot_index : N;
  pp_snapshot_term : N
}.

Record RaftSnapshotMeta := mkRaftSnapshotMeta {
  sm_last_included_index : N;
  sm_last_included_term : N;
  sm_topology_epoch : N
}.

(** [#[derive(Default)]] *)
Definition RaftHardState_default := mkRaftHardState 0 None.
Definition RaftPersistentProgress_default := mkRaftPersistentProgress 0 0 0 0.
Definition RaftSnapshotMeta_default := mkRaftSnapshotMeta 0 0 0.

(** ** The [ReplicatedStateMachine] trait (src/cluster/state_machine.rs) *)

Record ApplyReceipt := mkApplyReceipt {
  ar_mutation_id : MutationId;
  ar_applied_index : N;
  ar_applied_generation : N;
  ar_durable_lsn : N
}.

#[export] Instance ApplyReceipt_eq_dec : EqDecision ApplyReceipt.
Proof. solve_decision. Defined.

(** [DataMutation::mutation_id] *)
Class Mutation (D : Type) := mutation_id : D → MutationId.

Class ReplicatedStateMachine (M D : Type) := {
  rsm_apply : N → D → M → HNSQRResult ApplyReceipt * M;
  rsm_last_applied_index : M → N;
  rsm_applied_generation : M → N
}.

(** ** The [RaftStorage] trait *)

Class RaftStorage (S D : Type) := {
  save_hard_state : RaftHardState → S → HNSQRResult unit * S;
  load_hard_state : S → HNSQRResult RaftHardState;
  save_progress : RaftPersistentProgress → S → HNSQRResult unit * S;
  load_progress : S → HNSQRResult RaftPersistentProgress;
  append_entries : list (RaftLogEntry D) → S → HNSQRResult unit * S;
  truncate_suffix : N → S → HNSQRResult unit * S;
  load_log_entries : N → S → HNSQRResult (list (RaftLogEntry D));
  save_snapshot_meta : RaftSnapshotMeta → S → HNSQRResult unit * S;
  load_snapshot_meta : S → HNSQRResult RaftSnapshotMeta;
  storage_flush : S → HNSQRResult unit
}.

(** What a storage engine promises to the Raft node.  A failed save either left
    the record alone or replaced it (the caller cannot tell which): the two
    crash points a storage may fail at. *)
Class RaftStorageLaws (S D : Type) `{RaftStorage S D} := {
  save_hard_state_spec h s r s' :
    save_hard_state h s = (r, s') →
    (∀ i, load_log_entries i s' = load_log_entries i s) ∧
    load_progress s' = load_progress s ∧
    load_snapshot_meta s' = load_snapshot_meta s ∧
    (if is_ok r then load_hard_state s' = Ok h
     else load_hard_state s' = load_hard_state s ∨ load_hard_state s' = Ok h);
  save_progress_spec p s r s' :
    save_progress p s = (r, s') →
    (∀ i, load_log_entries i s' = load_log_entries i s) ∧
    load_hard_state s' = load_hard_state s ∧
    load_snapshot_meta s' = load_snapshot_meta s ∧
    (if is_ok r then load_progress s' = Ok p
     else load_progress s' = load_progress s ∨ load_progress s' = Ok p);
  append_entries_spec es s r s' :
    append_entries es s = (r, s') →
    load_hard_state s' = load_hard_state s ∧
    load_progress s' = load_progress s ∧
    load_snapshot_meta s' = load_snapshot_meta s ∧
    (∀ log, load_log_entries 0 s = Ok log →
       (∀ k e, es !! k = Some e → e_index e = (lenN log + N.of_nat k)%N) →
       if is_ok r then load_log_entries 0 s' = Ok (log ++ es) else True);
  truncate_suffix_spec i s r s' :
    truncate_suffix i s = (r, s') →
    load_hard_state s' = load_hard_state s ∧
    load_progress s' = load_progress s ∧
    load_snapshot_meta s' = load_snapshot_meta s ∧
    (∀ log, load_log_entries 0 s = Ok log →
       if is_ok r then load_log_entries 0 s' = Ok (truncateN i log) else True)
}.
