(* ===== verification/MemoryStorage.v ===== *)
(** The in-memory [RaftStorage] of src/consensus/storage.rs with its four
    injected crash points, and the proof that it keeps the storage contract. *)

From S2P Require Import Prelude RaftTypes.
From stdpp Require Import base gmap strings numbers list.

Record MemoryRaftStorage (D : Type) := mkMemoryRaftStorage {
  mem_hard_state : RaftHardState;
  mem_progress : RaftPersistentProgress;
  mem_snapshot_meta : RaftSnapshotMeta;
  mem_log : list (RaftLogEntry D);
  fail_before_vote_persist : bool;
  fail_after_vote_persist : bool;
  fail_before_log_persist : bool;
  fail_after_log_persist : bool
}.
Arguments mkMemoryRaftStorage {D}.
Arguments mem_hard_state {D} _.
Arguments mem_progress {D} _.
Arguments mem_snapshot_meta {D} _.
Arguments mem_log {D} _.
Arguments fail_before_vote_persist {D} _.
Arguments fail_after_vote_persist {D} _.
Arguments fail_before_log_persist {D} _.
Arguments fail_after_log_persist {D} _.

#[export] Instance eta_MemoryRaftStorage D : Eta (MemoryRaftStorage D) := λ s,
  mkMemoryRaftStorage (mem_hard_state s) (mem_progress s) (mem_snapshot_meta s)
    (mem_log s) (fail_before_vote_persist s) (fail_after_vote_persist s)
    (fail_before_log_persist s) (fail_after_log_persist s).

Section memory.
Context {D : Type}.
Implicit Types s : MemoryRaftStorage D.

(** The sentinel entry at index 0. *)
Definition sentinel : RaftLogEntry D := mkEntry 0 0 NoOp.

(** [MemoryRaftStorage::new] *)
Definition mem_new : MemoryRaftStorage D :=
  mkMemoryRaftStorage RaftHardState_default RaftPersistentProgress_default
    RaftSnapshotMeta_default [sentinel] false false false false.

Definition mem_save_hard_state (st : RaftHardState) s :
    HNSQRResult unit * MemoryRaftStorage D :=
  if fail_before_vote_persist s
  then (Err (Internal "Injected crash before vote persistence"), s) else
  let s := s <| mem_hard_state := st |> in
  if fail_after_vote_persist s
  then (Err (Internal "Injected crash after vote persistence"), s)
  else (Ok tt, s).

Definition mem_save_progress (p : RaftPersistentProgress) s :
    HNSQRResult unit * MemoryRaftStorage D :=
  (Ok tt, s <| mem_progress := p |>).

(** One iteration of the loop of [append_entries]: overwrite in place when the
    entry's index is inside the log, push otherwise. *)
Definition mem_append_one (log : list (RaftLogEntry D)) (e : RaftLogEntry D) :
    list (RaftLogEntry D) :=
  if (e_index e <? lenN log)%N then <[N.to_nat (e_index e) := e]> log
  else log ++ [e].

Definition mem_append_entries (es : list (RaftLogEntry D)) s :
    HNSQRResult unit * MemoryRaftStorage D :=
  if fail_before_log_persist s
  then (Err (Internal "Injected crash before log persistence"), s) else
  let s := s <| mem_log ::= λ log, foldl mem_append_one log es |> in
  if fail_after_log_persist s
  then (Err (Internal "Injected crash after log persistence"), s)
  else (Ok tt, s).

Definition mem_truncate_suffix (from_index : N) s :
    HNSQRResult unit * MemoryRaftStorage D :=
  (Ok tt, if (from_index <? lenN (mem_log s))%N
          then s <| mem_log ::= truncateN from_index |> else s).

Definition mem_load_log_entries (from_index : N) s :
    HNSQRResult (list (RaftLogEntry D)) :=
  if (from_index <? lenN (mem_log s))%N
  then Ok (skipN from_index (mem_log s)) else Ok [].

Definition mem_save_snapshot_meta (meta : RaftSnapshotMeta) s :
    HNSQRResult unit * MemoryRaftStorage D :=
  (Ok tt, s <| mem_snapshot_meta := meta |>).

(** [impl RaftStorage for MemoryRaftStorage] *)
#[export] Instance MemoryRaftStorage_impl : RaftStorage (MemoryRaftStorage D) D := {
  save_hard_state := mem_save_hard_state;
  load_hard_state s := Ok (mem_hard_state s);
  save_progress := mem_save_progress;
  load_progress s := Ok (mem_progress s);
  append_entries := mem_append_entries;
  truncate_suffix := mem_truncate_suffix;
  load_log_entries := mem_load_log_entries;
  save_snapshot_meta := mem_save_snapshot_meta;
  load_snapshot_meta s := Ok (mem_snapshot_meta s);
  storage_flush _ := Ok tt
}.

(** ** The storage contract *)

Lemma mem_load_log_all s : mem_load_log_entries 0 s = Ok (mem_log s).
Proof.
  unfold mem_load_log_entries. destruct (N.ltb_spec 0 (lenN (mem_log s))) as [|Hl]; [done|].
  destruct (mem_log s); [done|]. unfold lenN in Hl. simpl in Hl. lia.
Qed.

(** Appending entries whose indices continue the log concatenates them. *)
Lemma mem_append_contiguous es (log : list (RaftLogEntry D)) :
  (∀ k e, es !! k = Some e → e_index e = (lenN log + N.of_nat k)%N) →
  foldl mem_append_one log es = log ++ es.
Proof.
  revert log. induction es as [|e es IH]; intros log Hidx; simpl.
  { by rewrite app_nil_r. }
  assert (mem_append_one log e = log ++ [e]) as ->.
  { unfold mem_append_one. rewrite (Hidx 0 e) by done.
    destruct (N.ltb_spec (lenN log + N.of_nat 0) (lenN log)); [lia|done]. }
  rewrite IH, <- app_assoc; [done|].
  intros k e' Hk. rewrite (Hidx (S k) e' Hk), lenN_snoc. lia.
Qed.

#[export] Instance MemoryRaftStorage_laws : RaftStorageLaws (MemoryRaftStorage D) D.
Proof.
  split.
  - intros h s r s' E. cbn in E. unfold mem_save_hard_state in E. cbn.
    repeat case_match; simplify_eq; cbn; auto.
  - intros p s r s' E. cbn in E. unfold mem_save_progress in E.
    simplify_eq. cbn. auto.
  - intros es s r s' E. cbn in E |- *. unfold mem_append_entries in E.
    rewrite !mem_load_log_all.
    repeat case_match; simplify_eq; cbn; split_and!; try done.
    intros log [= <-] Hidx. by rewrite mem_append_contiguous.
  - intros i s r s' E. cbn in E |- *. unfold mem_truncate_suffix in E.
    injection E as <- <-. rewrite !mem_load_log_all.
    destruct (N.ltb_spec i (lenN (mem_log s))) as [|Hi]; cbn; split_and!; try done.
    + by intros log [= <-].
    + intros log [= <-]. unfold truncateN, lenN in *. by rewrite take_ge by lia.
Qed.
End memory.
