(* ===== verification/DurableRecovery.v ===== *)
(** The segment files hold the log: an invariant between cache and disk that
    appends and truncations keep, and what [open] reads back from it.  Then the
    durable storage end to end: on a disk without faults, every sequence of
    saves, appends and truncations succeeds, does to the cached state what
    [MemoryRaftStorage] does, and a restart of the process recovers that state
    (without the sentinel entry). *)

From Stdlib Require Import Strings.Byte.
From stdpp Require Import base gmap strings numbers list sorting fin_maps.
From S2P Require Import Prelude.
From S2P Require Import Codec.
From S2P Require Import FileSystem.
From S2P Require Import RaftTypes.
From S2P Require Import MemoryStorage.
From S2P Require Import DurableStorage.

Section recovery.
Context {D : Type} `{!Crc32} `{!Bincode RaftHardState} `{!Bincode RaftPersistentProgress}
  `{!Bincode RaftSnapshotMeta} `{!Bincode (RaftLogEntry D)}.
Context `{!Crc32Laws} `{!BincodeLaws (RaftLogEntry D)} `{!BincodeLaws RaftHardState}
  `{!BincodeLaws RaftPersistentProgress} `{!BincodeLaws RaftSnapshotMeta}.
Implicit Types (s : DurableRaftStorage D) (es : list (RaftLogEntry D)).

(** ** Frames of entries *)

(** [x] serializes to a payload whose length fits the 32-bit length field. *)
Definition framable {T} `{!Bincode T} (x : T) : Prop :=
  ∃ payload, serialize x = Ok payload ∧ (lenN payload < u32_modulus)%N.

Lemma decode_encoded {T} `{!Bincode T} `{!BincodeLaws T} (x : T) frame rest :
  framable x → encode_framed_record x = Ok frame →
  decode_framed_record (frame ++ rest) = Ok (x, length frame).
Proof.
  intros (p & Hp & Hlen) (p' & Hp' & ->)%encode_framed_inv. rewrite Hp in Hp'.
  injection Hp' as <-. rewrite decode_frame_of_payload by done.
  by rewrite (bincode_roundtrip x p).
Qed.

Lemma encode_all_app es1 es2 bs1 bs2 :
  encode_all es1 = Ok bs1 → encode_all es2 = Ok bs2 → encode_all (es1 ++ es2) = Ok (bs1 ++ bs2).
Proof.
  revert bs1. induction es1 as [|e es1 IH]; intros bs1; cbn [encode_all app]; [by intros [= <-]|].
  destruct (encode_framed_record e) as [f|]; [|done].
  destruct (encode_all es1) as [r|]; [|done]. intros [= <-] H2.
  by rewrite (IH r), <- app_assoc.
Qed.

Lemma encode_all_framable es : Forall framable es → ∃ bs, encode_all es = Ok bs.
Proof.
  induction 1 as [|e es (p & Hp & _) _ [bs IH]]; cbn [encode_all]; [eauto|].
  unfold encode_framed_record. rewrite Hp, IH. eauto.
Qed.

(** The decoding loop reads back the frames and stops where they end. *)
Lemma scan_frames_encoded es pre bs rest fuel :
  Forall framable es → encode_all es = Ok bs → length es ≤ fuel →
  scan_frames fuel (pre ++ bs ++ rest) (length pre) =
    let '(es', last, err) := scan_frames (fuel - length es) (pre ++ bs ++ rest)
                               (length pre + length bs) in
    (es ++ es', last, err).
Proof.
  revert pre bs fuel. induction es as [|e es IH]; intros pre bs fuel Hf.
  { intros [= <-] _. cbn. rewrite Nat.sub_0_r, Nat.add_0_r. by destruct (scan_frames _ _ _) as [[]]. }
  apply Forall_cons in Hf as [He Hf]. cbn [encode_all].
  destruct (encode_framed_record e) as [f|] eqn:Ef; [|done].
  destruct (encode_all es) as [r|] eqn:Er; [|done]. intros [= <-] Hfuel.
  destruct fuel as [|fuel]; cbn [length] in Hfuel; [lia|]. cbn [scan_frames length].
  assert (0 < length f) as Hpos.
  { apply encode_framed_inv in Ef as (p & _ & ->). rewrite length_frame_of_payload.
    unfold RAFT_FRAME_HEADER_SIZE. lia. }
  rewrite bool_decide_eq_false_2 by (rewrite !length_app; lia).
  rewrite drop_app_length, <- app_assoc, (decode_encoded e f) by done.
  assert (length pre + length f = length (pre ++ f)) as -> by (by rewrite length_app).
  rewrite (app_assoc pre f), (IH (pre ++ f) r fuel Hf) by (done || lia).
  rewrite !length_app, Nat.add_assoc. cbn [Nat.sub].
  by destruct (scan_frames _ _ _) as [[es' l] err].
Qed.

Lemma length_encode_all es bs : encode_all es = Ok bs → length es ≤ length bs.
Proof.
  revert bs. induction es as [|e es IH]; intros bs; cbn [encode_all]; [intros [= <-]; cbn; lia|].
  destruct (encode_framed_record e) as [f|] eqn:Ef; [|done].
  destruct (encode_all es) as [r|]; [|done]. intros [= <-].
  apply encode_framed_inv in Ef as (p & _ & ->). specialize (IH r eq_refl).
  rewrite length_app, length_frame_of_payload. cbn. lia.
Qed.

(** A whole file of frames. *)
Lemma scan_file es bs :
  Forall framable es → encode_all es = Ok bs →
  scan_frames (length bs) bs 0 = (es, length bs, None).
Proof.
  intros Hf He. pose proof (length_encode_all _ _ He) as Hlen.
  pose proof (scan_frames_encoded es [] bs [] (length bs) Hf He Hlen) as Hs.
  rewrite app_nil_r in Hs. cbn [app length] in Hs. rewrite Hs. cbn [Nat.add].
  destruct (length bs - length es) as [|k]; cbn [scan_frames]; [by rewrite app_nil_r|].
  rewrite bool_decide_eq_true_2 by lia. by rewrite app_nil_r.
Qed.

Lemma on_disk_eq {A} (c : IO A) s r d :
  c (disk s) = (r, d) → on_disk c s = (r, s <| disk := d |>).
Proof. unfold on_disk. by intros ->. Qed.

(** ** The invariant *)

Definition numbered_from (start : N) es : Prop :=
  ∀ k e, es !! k = Some e → e_index e = (start + N.of_nat k)%N.

(** Segment [g] holds the entries [es] in its file. *)
Record seg_holds (fs : gmap path (list byte)) (g : LogSegmentMeta) es : Prop := {
  seg_nonempty : es ≠ [];
  seg_numbered : numbered_from (start_index g) es;
  seg_path : file_path g = Rlog (start_index g);
  seg_end : end_index g = (start_index g + lenN es - 1)%N;
  seg_file : ∃ bs, encode_all es = Ok bs ∧ fs !! file_path g = Some bs
}.

(** The segments hold, in order, the entries [rest], and there are no other
    segment files. *)
Record files_hold (gs : list LogSegmentMeta) (fs : gmap path (list byte)) 
    (rest : list (RaftLogEntry D)) : Prop := {
  fh_segments : ∃ ess, Forall2 (seg_holds fs) gs ess ∧ concat ess = rest;
  fh_only i : is_Some (fs !! Rlog i) → ∃ g, g ∈ gs ∧ file_path g = Rlog i;
  fh_legacy : fs !! legacy_log_file = None
}.

(** The files hold the log of the cache without its sentinel. *)
Record disk_inv s : Prop := {
  di_log : numbered_from 0 (mem_log (memory_cache s));
  di_sentinel : mem_log (memory_cache s) ≠ [];
  di_framable : Forall framable (tail (mem_log (memory_cache s)));
  di_flags : fail_before_log_persist (memory_cache s) = false ∧
    fail_after_log_persist (memory_cache s) = false;
  di_files : files_hold (segments s) (files (disk s)) (tail (mem_log (memory_cache s)))
}.

Lemma numbered_from_app start es1 es2 :
  numbered_from start (es1 ++ es2) ↔
  numbered_from start es1 ∧ numbered_from (start + lenN es1) es2.
Proof.
  unfold numbered_from, lenN. split.
  - intros Hn. split; intros k e Hk.
    + apply Hn. by apply lookup_app_l_Some.
    + rewrite (Hn (length es1 + k) e); [lia|].
      rewrite lookup_app_r by lia. by replace (_ - _) with k by lia.
  - intros [H1 H2] k e [Hk|[Hle Hk]]%lookup_app_Some; [by apply H1|].
    rewrite (H2 _ _ Hk). lia.
Qed.

(** Where the segments start: in increasing order, inside the log. *)
Lemma seg_starts fs gs ess k :
  Forall2 (seg_holds fs) gs ess → numbered_from k (concat ess) →
  StronglySorted N.lt (start_index <$> gs) ∧
  Forall (λ g, (k ≤ start_index g < k + lenN (concat ess))%N) gs.
Proof.
  intros Hf. revert k. induction Hf as [|g es gs ess Hg Hf IH]; intros k Hn; [by repeat constructor|].
  cbn [concat fmap list_fmap] in *. apply numbered_from_app in Hn as [Hn1 Hn2].
  destruct (IH _ Hn2) as [Hs Hb]. destruct Hg as [Hne Hnum _ _ _].
  destruct es as [|e es]; [done|].
  assert (start_index g = k) as Hk.
  { pose proof (Hn1 0 e eq_refl). pose proof (Hnum 0 e eq_refl). lia. }
  rewrite lenN_app. split.
  - constructor; [done|]. apply Forall_fmap. eapply Forall_impl; [exact Hb|].
    cbn. intros g' Hg'. unfold lenN in *. cbn in Hg'. lia.
  - constructor; [unfold lenN; cbn; lia|]. eapply Forall_impl; [exact Hb|]. cbn. lia.
Qed.

Lemma disk_inv_tail s :
  disk_inv s → numbered_from 1 (tail (mem_log (memory_cache s))) ∧
  lenN (mem_log (memory_cache s)) = (1 + lenN (tail (mem_log (memory_cache s))))%N.
Proof.
  intros [Hn Hne _ _ _]. destruct (mem_log (memory_cache s)) as [|e0 lg]; [done|]. cbn.
  change (e0 :: lg) with ([e0] ++ lg) in Hn. apply numbered_from_app in Hn as [_ Hn].
  split; [done|]. unfold lenN. cbn. lia.
Qed.

(** Writing a file of another name leaves a segment alone. *)
Lemma seg_holds_insert fs g es i bs :
  seg_holds fs g es → start_index g ≠ i → seg_holds (<[Rlog i := bs]> fs) g es.
Proof.
  intros [Hne Hnum Hp He (bs' & Hen & Hf)] Hi. split; [done..|]. exists bs'. split; [done|].
  rewrite lookup_insert_ne; [done|]. rewrite Hp. by intros [= ->].
Qed.

Lemma seg_holds_delete fs g es p :
  seg_holds fs g es → file_path g ≠ p → seg_holds (delete p fs) g es.
Proof.
  intros [Hne Hnum Hp He (bs' & Hen & Hf)] Hi. split; [done..|]. exists bs'. split; [done|].
  by rewrite lookup_delete_ne.
Qed.

(** The cache after an append that continues the log. *)
Lemma mem_append_ok es (c : MemoryRaftStorage D) :
  fail_before_log_persist c = false → fail_after_log_persist c = false →
  numbered_from (lenN (mem_log c)) es →
  mem_append_entries es c = (Ok tt, c <| mem_log ::= λ l, l ++ es |>).
Proof.
  intros H1 H2 Hn. unfold mem_append_entries. rewrite H1. cbn. rewrite H2.
  f_equal. unfold update. cbn. f_equal. by apply mem_append_contiguous.
Qed.

(** ** Appending *)

(** A new segment behind the others. *)
Lemma files_hold_rotate gs fs rest es bs g :
  files_hold gs fs rest → numbered_from 1 (rest ++ es) → es ≠ [] → encode_all es = Ok bs →
  start_index g = (1 + lenN rest)%N → end_index g = (start_index g + lenN es - 1)%N →
  file_path g = Rlog (start_index g) →
  files_hold (gs ++ [g]) (<[file_path g := bs]> fs) (rest ++ es).
Proof.
  intros [(ess & Hf & <-) Honly Hleg] Hn Hne Henc Hst Hend Hp.
  apply numbered_from_app in Hn as [Hn1 Hn2].
  destruct (seg_starts _ _ _ _ Hf Hn1) as [_ Hb]. rewrite Hp. split.
  - exists (ess ++ [es]). rewrite concat_app. cbn. rewrite app_nil_r. split; [|done].
    apply Forall2_app.
    + eapply Forall2_impl_l; [exact Hb|exact Hf|]. cbn. intros g' es' Hg' Hs.
      apply seg_holds_insert; [done|lia].
    + constructor; [|constructor]. split; [done|by rewrite Hst|done|done|].
      exists bs. by rewrite Hp, lookup_insert_eq.
  - intros i. destruct (decide (i = start_index g)) as [->|Hi].
    + intros _. exists g. split; [set_solver|done].
    + rewrite lookup_insert_ne by congruence. intros (g' & Hg' & ?)%Honly. exists g'. set_solver.
  - by rewrite lookup_insert_ne.
Qed.

(** The last segment holds the end of the log, and may be rewritten. *)
Lemma files_hold_last gs fs rest g :
  files_hold gs fs rest → numbered_from 1 rest → last gs = Some g →
  ∃ pre old, rest = pre ++ old ∧ seg_holds fs g old ∧
    start_index g = (1 + lenN pre)%N ∧
    ∀ g' es bs, start_index g' = start_index g → file_path g' = file_path g →
      end_index g' = (start_index g + lenN es - 1)%N → es ≠ [] →
      numbered_from (start_index g) es → encode_all es = Ok bs →
      files_hold (removelast gs ++ [g']) (<[file_path g := bs]> fs) (pre ++ es).
Proof.
  intros [(ess & Hf & <-) Honly Hleg] Hn Hl.
  destruct (seg_starts _ _ _ _ Hf Hn) as [Hsort _].
  destruct (Forall2_last_inv _ _ _ _ Hf Hl) as (gs' & ess' & old & -> & -> & Hf' & Hg).
  exists (concat ess'), old. rewrite concat_app in *. cbn in *. rewrite app_nil_r in *.
  apply numbered_from_app in Hn as [Hn1 Hn2].
  assert (start_index g = 1 + lenN (concat ess'))%N as Hst.
  { destruct old as [|e old]; [by destruct Hg|].
    pose proof (Hn2 0 e eq_refl). pose proof (seg_numbered _ _ _ Hg 0 e eq_refl). lia. }
  split_and!; [done|done|done|]. intros g' es bs Hs' Hp' He' Hne Hnum Henc.
  destruct (seg_starts _ _ _ _ Hf' Hn1) as [_ Hb]. rewrite removelast_last.
  pose proof (seg_path _ _ _ Hg) as Hp. split.
  - exists (ess' ++ [es]). rewrite concat_app. cbn. rewrite app_nil_r. split; [|done].
    apply Forall2_app.
    + eapply Forall2_impl_l; [exact Hb|exact Hf'|]. cbn. intros g2 es2 Hg2 Hs2.
      rewrite Hp. apply seg_holds_insert; [done|lia].
    + constructor; [|constructor]. split; [done|by rewrite Hs'|congruence|by rewrite Hs'|].
      exists bs. by rewrite Hp', lookup_insert_eq.
  - intros i. destruct (decide (Rlog i = file_path g)) as [Hi|Hi].
    + intros _. exists g'. split; [set_solver|congruence].
    + rewrite lookup_insert_ne by done. intros (g2 & Hg2 & ?)%Honly.
      apply elem_of_app in Hg2 as [?|?%list_elem_of_singleton]; [|congruence].
      exists g2. set_solver.
  - rewrite Hp. by rewrite lookup_insert_ne.
Qed.

(** Appending entries that continue the log reaches the files. *)
(** The metadata files are left alone. *)
Definition same_meta (fs fs' : gmap path (list byte)) : Prop :=
  ∀ name, fs' !! Meta name = fs !! Meta name.

Lemma same_meta_insert fs i bs : same_meta fs (<[Rlog i := bs]> fs).
Proof. intros name. by rewrite lookup_insert_ne. Qed.

Lemma append_segmented_holds es s :
  disk_inv s → healthy (disk s) → es ≠ [] → Forall framable es →
  numbered_from (lenN (mem_log (memory_cache s))) es →
  ∃ gs fs, append_entries_segmented es s =
      (Ok tt, s <| segments := gs |> <| disk := mkDisk fs [] |>) ∧
    files_hold gs fs (tail (mem_log (memory_cache s)) ++ es) ∧
    same_meta (files (disk s)) fs.
Proof.
  intros Hinv Hd Hne Hfr Hn. destruct (disk_inv_tail s Hinv) as [Ht Hlen].
  rewrite Hlen in Hn. destruct Hinv as [_ _ _ _ Hfh].
  set (rest := tail (mem_log (memory_cache s))) in *. clearbody rest.
  assert (numbered_from 1 (rest ++ es)) as Hall by by apply numbered_from_app.
  destruct (encode_all_framable es Hfr) as [bs Hbs].
  assert (∃ e0, head es = Some e0 ∧ e_index e0 = (1 + lenN rest)%N) as (e0 & Hhd & Hi0).
  { destruct es as [|e es]; [done|]. exists e. split; [done|]. rewrite (Hn 0 e) by done. lia. }
  assert (∃ el, last es = Some el ∧ e_index el = (1 + lenN rest + lenN es - 1)%N) as (el & Hla & Hil).
  { destruct (last es) as [el|] eqn:El; [|by apply last_None in El].
    exists el. split; [done|]. rewrite last_lookup in El. rewrite (Hn _ _ El).
    unfold lenN. destruct es; [done|]. cbn. lia. }
  unfold append_entries_segmented. rewrite Hhd, Hla, Hbs. destruct (need_rotation s) eqn:Hr.
  - rewrite (on_disk_eq _ _ _ _ (open_write_healthy _ bs _ Hd)). cbv iota beta zeta.
    erewrite on_disk_eq by (apply sync_dir_healthy; reflexivity).
    eexists _, _. split; [reflexivity|]. split; [|apply same_meta_insert].
    apply (files_hold_rotate _ _ _ _ _
      (mkLogSegmentMeta (e_index e0) (e_index el) (lenN es) (lenN bs) (Rlog (e_index e0))));
      cbn; by rewrite ?Hi0, ?Hil.
  - unfold need_rotation in Hr. destruct (last (segments s)) as [g|] eqn:Hlast; [|done].
    destruct (files_hold_last _ _ _ _ Hfh Ht Hlast) as (pre & old & -> & Hg & Hst & Hrw).
    pose proof Hg as [Hone Hnum Hpath _ (bo & Hbo & Hfile)].
    rewrite (on_disk_eq _ _ _ _ (append_write_healthy _ bo bs _ Hd Hfile)). cbv iota beta zeta.
    erewrite on_disk_eq by (apply sync_dir_healthy; reflexivity).
    eexists _, _. split; [reflexivity|]. split; [|rewrite Hpath; apply same_meta_insert].
    rewrite <- app_assoc. apply Hrw; cbn; [done|done| | | |].
    + rewrite Hil, Hst, !lenN_app. lia.
    + by destruct old.
    + apply numbered_from_app. split; [done|]. rewrite lenN_app in Hn.
      rewrite Hst. by rewrite N.add_assoc in Hn.
    + by apply encode_all_app.
Qed.

(** The whole operation: files and cache move together. *)
Lemma durable_append_inv es s :
  disk_inv s → healthy (disk s) → es ≠ [] → Forall framable es →
  numbered_from (lenN (mem_log (memory_cache s))) es →
  ∃ s', durable_append_entries es s = (Ok tt, s') ∧ disk_inv s' ∧ healthy (disk s') ∧
    memory_cache s' = (memory_cache s) <| mem_log ::= λ l, l ++ es |> ∧
    same_meta (files (disk s)) (files (disk s')).
Proof.
  intros Hinv Hd Hne Hfr Hn.
  destruct (append_segmented_holds es s Hinv Hd Hne Hfr Hn) as (gs & fs & Ea & Hfh & Hsm).
  destruct Hinv as [Hlog Hs Hf [Hf1 Hf2] _].
  unfold durable_append_entries. rewrite Ea. unfold then_cache. cbv iota.
  rewrite mem_append_ok by done. eexists. split; [reflexivity|]. cbn.
  assert (tail (mem_log (memory_cache s) ++ es) = tail (mem_log (memory_cache s)) ++ es) as Ht
    by (by destruct (mem_log (memory_cache s))).
  split_and!; [|done|done|done]. split; cbn; [|by intros [? _]%app_eq_nil| |done|by rewrite Ht].
  - apply numbered_from_app. by rewrite N.add_0_l.
  - rewrite Ht. by apply Forall_app.
Qed.

(** ** Truncating *)

Lemma sorted_split (gs : list LogSegmentMeta) i :
  StronglySorted N.lt (start_index <$> gs) →
  ∃ gs1 gs2, gs = gs1 ++ gs2 ∧ Forall (λ g, (start_index g < i)%N) gs1 ∧
    Forall (λ g, (i ≤ start_index g)%N) gs2.
Proof.
  induction gs as [|g gs IH]; intros Hs; [by exists [], []|]. cbn in Hs.
  apply StronglySorted_inv in Hs as [Hs Hb]. destruct (N.lt_ge_cases (start_index g) i).
  - destruct (IH Hs) as (gs1 & gs2 & -> & Hy & Hz). exists (g :: gs1), gs2. auto.
  - exists [], (g :: gs). split_and!; [done|done|]. constructor; [done|].
    rewrite Forall_fmap in Hb. eapply Forall_impl; [exact Hb|]. cbn. lia.
Qed.

Lemma retain_none keep gs d :
  healthy d → Forall (λ g, keep g = false) gs →
  retain_segments keep gs d =
    ([], mkDisk (foldl (λ fs g, delete (file_path g) fs) (files d) gs) []).
Proof.
  intros Hd Hf. revert d Hd. induction Hf as [|g gs Hg Hf IH]; intros d Hd; cbn [retain_segments].
  { destruct d as [fs fl]. unfold healthy in Hd. cbn in *. by subst. }
  rewrite Hg, IH; unfold remove_file, syscall_files; by rewrite next_fault_healthy.
Qed.

Lemma retain_split keep gs1 gs2 d :
  healthy d → Forall (λ g, keep g = true) gs1 → Forall (λ g, keep g = false) gs2 →
  retain_segments keep (gs1 ++ gs2) d =
    (gs1, mkDisk (foldl (λ fs g, delete (file_path g) fs) (files d) gs2) []).
Proof.
  intros Hd Hy Hz. induction Hy as [|g gs1 Hg Hy IH]; cbn [retain_segments app].
  - by apply retain_none.
  - by rewrite Hg, IH.
Qed.

Lemma foldl_delete_lookup (gs : list LogSegmentMeta) (fs : gmap path (list byte)) p :
  foldl (λ fs g, delete (file_path g) fs) fs gs !! p =
  if bool_decide (p ∈ file_path <$> gs) then None else fs !! p.
Proof.
  revert fs. induction gs as [|g gs IH]; intros fs; cbn [foldl fmap list_fmap].
  { rewrite bool_decide_eq_false_2; [done|]. apply not_elem_of_nil. }
  rewrite IH. destruct (decide (p = file_path g)) as [->|Hne].
  - rewrite lookup_delete_eq. rewrite (bool_decide_eq_true_2 (_ ∈ _ :: _)) by set_solver.
    by case_bool_decide.
  - rewrite lookup_delete_ne by done. by repeat case_bool_decide; set_solver.
Qed.

(** Dropping the segments from some point on. *)
Lemma files_hold_prefix gs1 gs2 fs rest :
  files_hold (gs1 ++ gs2) fs rest → numbered_from 1 rest →
  ∃ rest1 rest2, rest = rest1 ++ rest2 ∧
    files_hold gs1 (foldl (λ fs g, delete (file_path g) fs) fs gs2) rest1 ∧
    (∀ g, head gs2 = Some g → start_index g = (1 + lenN rest1)%N) ∧ (gs2 = [] → rest2 = []).
Proof.
  intros [(ess & Hf & <-) Honly Hleg] Hn.
  destruct (seg_starts _ _ _ _ Hf Hn) as [Hsort _].
  apply Forall2_app_inv_l in Hf as (ess1 & ess2 & Hf1 & Hf2 & ->).
  rewrite concat_app in *. apply numbered_from_app in Hn as [Hn1 Hn2].
  destruct (seg_starts _ _ _ _ Hf1 Hn1) as [_ Hb1].
  destruct (seg_starts _ _ _ _ Hf2 Hn2) as [_ Hb2].
  assert (∀ g, g ∈ gs2 → file_path g = Rlog (start_index g)) as Hpath.
  { intros g [k Hk]%list_elem_of_lookup. by destruct (Forall2_lookup_l _ _ _ _ _ Hf2 Hk) as (? & _ & []). }
  exists (concat ess1), (concat ess2). split_and!; [done| | |].
  - split.
    + exists ess1. split; [|done]. eapply Forall2_impl_l; [exact Hb1|exact Hf1|]. cbn.
      intros g es Hg [Hne Hnum Hp He (bs & Hen & Hfl)]. split; [done..|]. exists bs. split; [done|].
      rewrite foldl_delete_lookup, bool_decide_eq_false_2; [done|].
      intros (g2 & Heq & Hg2)%list_elem_of_fmap. rewrite Hp, (Hpath g2 Hg2) in Heq.
      injection Heq as Heq. rewrite Forall_forall in Hb2. specialize (Hb2 g2 Hg2). lia.
    + intros i. rewrite foldl_delete_lookup. case_bool_decide as Hin; [by intros [? [=]]|].
      intros (g & Hg & Hp)%Honly. exists g. split; [|done].
      apply elem_of_app in Hg as [?|Hg]; [done|]. destruct Hin. rewrite <- Hp. by apply list_elem_of_fmap_2.
    + rewrite foldl_delete_lookup. by case_bool_decide.
  - intros g Hg. destruct Hf2 as [|g2 es gs2 ess2 [Hne Hnum _ _ _] Hf2]; [done|].
    injection Hg as ->. destruct es as [|e es]; [done|]. cbn in Hn2.
    pose proof (Hn2 0 e eq_refl). pose proof (Hnum 0 e eq_refl). lia.
  - intros ->. by apply Forall2_nil_inv_l in Hf2 as ->.
Qed.

Lemma kept_entries_all i es : Forall (λ e, (e_index e < i)%N) es → kept_entries i es = es.
Proof.
  induction 1 as [|e es He _ IH]; cbn [kept_entries]; [done|].
  destruct (N.leb_spec i (e_index e)); [lia|]. by rewrite IH.
Qed.

Lemma numbered_from_take start k es : numbered_from start es → numbered_from start (take k es).
Proof. intros Hn j e [Hj _]%lookup_take_Some. by apply Hn. Qed.

Lemma numbered_from_bound start es : numbered_from start es →
  Forall (λ e, (e_index e < start + lenN es)%N) es.
Proof.
  intros Hn. apply Forall_lookup. intros k e Hk. rewrite (Hn k e Hk).
  apply lookup_lt_Some in Hk. unfold lenN. lia.
Qed.

(** What the boundary segment keeps of a log cut at [i]. *)
Lemma kept_boundary i e0 pre old rest2 start :
  start = (1 + lenN pre)%N → (start < i)%N → (i < start + lenN old)%N →
  numbered_from start old →
  kept_entries i (skipN start (take (N.to_nat i) (e0 :: (pre ++ old) ++ rest2))) =
    take (N.to_nat (i - start)) old.
Proof.
  intros -> Hlo Hhi Hn. unfold skipN, lenN in *.
  assert (drop (N.to_nat (1 + N.of_nat (length pre)))
    (take (N.to_nat i) (e0 :: (pre ++ old) ++ rest2)) =
    take (N.to_nat (i - (1 + N.of_nat (length pre)))) old) as ->.
  { replace (N.to_nat (1 + N.of_nat (length pre))) with (S (length pre)) by lia.
    replace (N.to_nat i) with (S (length pre + N.to_nat (i - (1 + N.of_nat (length pre))))) by lia.
    cbn [take drop]. rewrite <- app_assoc, take_app_add, drop_app_length.
    rewrite take_app_le by lia. done. }
  apply kept_entries_all. eapply Forall_impl;
    [apply (numbered_from_bound (1 + N.of_nat (length pre))), numbered_from_take; exact Hn|].
  intros e He. cbn in He. unfold lenN in He. rewrite length_take in He. lia.
Qed.

Lemma prune_boundary_holds i s e0 rest1 rest2 :
  files_hold (segments s) (files (disk s)) rest1 → healthy (disk s) →
  numbered_from 1 rest1 → Forall framable rest1 → (0 < i)%N →
  (∀ g, last (segments s) = Some g → start_index g < i)%N →
  mem_log (memory_cache s) = take (N.to_nat i) (e0 :: rest1 ++ rest2) →
  ∃ gs fs, prune_boundary i s = (Ok tt, s <| segments := gs |> <| disk := mkDisk fs [] |>) ∧
    files_hold gs fs (take (N.to_nat i - 1) rest1) ∧ same_meta (files (disk s)) fs.
Proof.
  intros Hfh Hd Hn Hfr Hi Hst Hmem. unfold prune_boundary.
  assert (∀ s1, s1 = s → take (N.to_nat i - 1) rest1 = rest1 → ∃ gs fs,
    on_disk sync_dir s1 = (Ok tt, s <| segments := gs |> <| disk := mkDisk fs [] |>) ∧
    files_hold gs fs (take (N.to_nat i - 1) rest1) ∧ same_meta (files (disk s)) fs) as Hsame.
  { intros s1 -> Ht. rewrite (on_disk_eq _ _ _ _ (sync_dir_healthy _ Hd)).
    exists (segments s), (files (disk s)). rewrite Ht. split; [|by split].
    destruct s as [? ? ? ? [? ?]]. unfold healthy in Hd. cbn in Hd. by subst. }
  destruct (last (segments s)) as [g|] eqn:Hl.
  2:{ apply last_None in Hl. apply Hsame; [done|]. destruct Hfh as [(ess & Hf & <-) _ _].
      rewrite Hl in Hf. apply Forall2_nil_inv_l in Hf as ->. apply take_nil. }
  specialize (Hst g eq_refl).
  destruct (files_hold_last _ _ _ _ Hfh Hn Hl) as (pre & old & -> & Hg & Hs0 & Hrw).
  pose proof Hg as [Hone Hnum Hpath Hend (bo & _ & Hfile)]. unfold lenN in *.
  destruct (N.leb_spec i (end_index g)) as [Hle|Hgt].
  2:{ apply Hsame; [done|]. apply take_ge. rewrite length_app. lia. }
  assert (0 < length old) by (destruct old; [done|cbn; lia]).
  rewrite Hmem, (kept_boundary i e0 pre old rest2 (start_index g)) by (unfold lenN; done || lia).
  set (kept := take (N.to_nat (i - start_index g)) old).
  assert (length kept = N.to_nat (i - start_index g)) as Hlk
    by (unfold kept; rewrite length_take; lia).
  assert (Forall framable kept) as Hfk.
  { apply Forall_app in Hfr as [_ Hfr]. by apply Forall_take. }
  destruct (encode_all_framable kept Hfk) as [bs Hbs]. cbv zeta. rewrite Hbs.
  rewrite (on_disk_eq _ _ _ _ (existing_write_healthy _ bo bs _ Hd Hfile)). cbv iota beta zeta.
  erewrite on_disk_eq by (apply sync_dir_healthy; reflexivity).
  eexists _, _. split; [reflexivity|]. split; [|rewrite Hpath; apply same_meta_insert].
  replace (take (N.to_nat i - 1) (pre ++ old)) with (pre ++ kept).
  2:{ unfold kept. rewrite take_app_ge by lia. f_equal. f_equal. lia. }
  assert (numbered_from (start_index g) kept) as Hnk by by apply numbered_from_take.
  apply Hrw; cbn; [done|done| | |done|done].
  - destruct (last kept) as [el|] eqn:El; cbn.
    + rewrite last_lookup in El. rewrite (Hnk _ _ El). unfold lenN. lia.
    + apply last_None in El. rewrite El in Hlk. cbn in Hlk. lia.
  - intros Hk. rewrite Hk in Hlk. cbn in Hlk. lia.
Qed.

Lemma mem_truncate_log i (c : MemoryRaftStorage D) :
  ∃ c', mem_truncate_suffix i c = (Ok tt, c') ∧
    mem_log c' = take (N.to_nat i) (mem_log c) ∧
    mem_hard_state c' = mem_hard_state c ∧ mem_progress c' = mem_progress c ∧
    mem_snapshot_meta c' = mem_snapshot_meta c ∧
    fail_before_log_persist c' = fail_before_log_persist c ∧
    fail_after_log_persist c' = fail_after_log_persist c.
Proof.
  unfold mem_truncate_suffix. eexists. split; [done|].
  destruct (N.ltb_spec i (lenN (mem_log c))) as [|Hge]; [by split_and!|].
  split_and!; [|done..]. rewrite take_ge; [done|]. unfold lenN in Hge. lia.
Qed.

Lemma durable_truncate_inv i s :
  disk_inv s → healthy (disk s) → (0 < i)%N →
  ∃ s', durable_truncate_suffix i s = (Ok tt, s') ∧ disk_inv s' ∧ healthy (disk s') ∧
    memory_cache s' = (mem_truncate_suffix i (memory_cache s)).2 ∧
    same_meta (files (disk s)) (files (disk s')).
Proof.
  intros Hinv Hd Hi. destruct (disk_inv_tail s Hinv) as [Ht _].
  destruct Hinv as [Hlog Hsent Hfr [Hf1 Hf2] Hfh].
  destruct (mem_truncate_log i (memory_cache s)) as (c & Ec & Hc & _ & _ & _ & Hb & Ha).
  destruct (mem_log (memory_cache s)) as [|e0 rest] eqn:Hlg; [done|]. cbn [tail] in *.
  assert (StronglySorted N.lt (start_index <$> segments s)) as Hsort.
  { pose proof Hfh as [(ess & Hf & He) _ _]. eapply seg_starts; [exact Hf|]. by rewrite He. }
  destruct (sorted_split _ i Hsort) as (gs1 & gs2 & Hgs & Hlt & Hge).
  rewrite Hgs in Hfh.
  destruct (files_hold_prefix _ _ _ _ Hfh Ht) as (rest1 & rest2 & -> & Hfh1 & Hhead & Hnil).
  unfold durable_truncate_suffix. rewrite Ec. unfold truncate_suffix_segmented, retain. cbn.
  rewrite Hgs, retain_split; [|done| |].
  2:{ eapply Forall_impl; [exact Hlt|]. cbn. intros g ?.
      by rewrite (proj2 (N.leb_gt _ _)). }
  2:{ eapply Forall_impl; [exact Hge|]. cbn. intros g ?.
      by rewrite (proj2 (N.leb_le _ _)). }
  apply numbered_from_app in Ht as [Ht1 _]. apply Forall_app in Hfr as Hfr12.
  match goal with |- context [prune_boundary i ?x] => set (s1 := x) end.
  destruct (prune_boundary_holds i s1 e0 rest1 rest2) as (gs & fs & Ep & Hfhp & Hsm); try done.
  { apply Hfr12. }
  { intros g Hg. change (last gs1 = Some g) in Hg. rewrite Forall_forall in Hlt.
    apply Hlt. rewrite last_lookup in Hg. by eapply list_elem_of_lookup_2. }
  rewrite Ep. eexists. split; [reflexivity|]. unfold s1. cbn.
  assert (tail (take (N.to_nat i) (e0 :: rest1 ++ rest2)) = take (N.to_nat i - 1) rest1) as Htail.
  { destruct (N.to_nat i) as [|k] eqn:Hk; [lia|]. cbn [take tail Nat.sub]. rewrite Nat.sub_0_r.
    destruct gs2 as [|g gs2]; [by rewrite Hnil, app_nil_r|].
    specialize (Hhead g eq_refl). apply Forall_cons in Hge as [Hge _]. unfold lenN in Hhead.
    apply take_app_le. lia. }
  split_and!; [|done|done|].
  2:{ intros name. rewrite (Hsm name). unfold s1. cbn. rewrite foldl_delete_lookup.
      rewrite bool_decide_eq_false_2; [done|]. intros (g & Hg & Hin)%list_elem_of_fmap.
      destruct Hfh as [(ess & Hf & _) _ _].
      assert (g ∈ gs1 ++ gs2) as [k Hk]%list_elem_of_lookup by (apply elem_of_app; by right).
      destruct (Forall2_lookup_l _ _ _ _ _ Hf Hk) as (es & _ & [_ _ Hp _ _]). congruence. }
  split; cbn; rewrite ?Hc.
  - by apply numbered_from_take.
  - destruct (N.to_nat i) as [|k] eqn:Hk; [lia|]. done.
  - rewrite Htail. apply Forall_take, Hfr12.
  - by rewrite Hb, Ha.
  - by rewrite Htail.
Qed.

(** ** Recovery *)

(** The metadata files hold the cached records, or are absent while the cached
    records are the defaults. *)
Definition meta_holds {T} `{!Bincode T} (fs : gmap path (list byte)) (p : path) (dflt x : T) : Prop :=
  (fs !! p = None ∧ x = dflt) ∨
  (framable x ∧ ∃ frame, encode_framed_record x = Ok frame ∧ fs !! p = Some frame).

Lemma recover_meta_holds {T} `{!Bincode T} `{!BincodeLaws T} p (dflt x : T) d :
  healthy d → meta_holds (files d) p dflt x → recover_meta p dflt d = (Ok x, d).
Proof.
  intros Hd [[Hn ->]|(Hfr & frame & He & Hp)]; unfold recover_meta; [by rewrite Hn|].
  rewrite Hp. unfold io_bind. rewrite (read_file_healthy _ _ frame) by done.
  assert (0 < length frame) as Hpos.
  { apply encode_framed_inv in He as (q & _ & ->). rewrite length_frame_of_payload.
    unfold RAFT_FRAME_HEADER_SIZE. lia. }
  rewrite bool_decide_eq_false_2 by (intros ->; cbn in Hpos; lia). unfold io_lift.
  pose proof (decode_encoded x frame [] Hfr He) as Hdec. rewrite app_nil_r in Hdec.
  by rewrite Hdec.
Qed.

(** The directory listing finds the segments in order. *)
Lemma rlog_starts_spec fs gs rest :
  files_hold gs fs rest → numbered_from 1 rest →
  merge_sort N.le (rlog_starts fs) = start_index <$> gs.
Proof.
  intros [(ess & Hf & <-) Honly Hleg] Hn. destruct (seg_starts _ _ _ _ Hf Hn) as [Hsort _].
  assert (∀ i, i ∈ rlog_starts fs ↔ is_Some (fs !! Rlog i)) as Hin.
  { intros i. unfold rlog_starts. rewrite list_elem_of_omap. rewrite <- elem_of_dom. split.
    - intros ([|j|] & Hp%elem_of_elements & Heq); [done| |done]. by injection Heq as ->.
    - intros Hi. exists (Rlog i). by rewrite elem_of_elements. }
  apply (StronglySorted_unique N.le).
  - apply StronglySorted_merge_sort; apply _.
  - by apply sorted_lt_le.
  - rewrite merge_sort_Permutation. apply NoDup_Permutation.
    + apply NoDup_omap_inj; [|apply NoDup_elements]. by intros [| |] [| |] ? [= ->] [= ->].
    + by apply sorted_lt_NoDup.
    + intros i. rewrite Hin. split.
      * intros (g & Hg & Hp)%Honly. apply list_elem_of_fmap. exists g. split; [|done].
        apply list_elem_of_lookup in Hg as [k Hk].
        destruct (Forall2_lookup_l _ _ _ _ _ Hf Hk) as (es & _ & []). congruence.
      * intros (g & -> & Hg)%list_elem_of_fmap. apply list_elem_of_lookup in Hg as [k Hk].
        destruct (Forall2_lookup_l _ _ _ _ _ Hf Hk) as (es & _ & [_ _ Hp _ (bs & _ & Hfl)]).
        rewrite <- Hp. eauto.
Qed.

(** Segment by segment, everything is read back. *)
Lemma recover_segments_holds fs gs ess :
  Forall2 (seg_holds fs) gs ess → Forall (Forall framable) ess →
  ∃ gs', recover_segments (start_index <$> gs) (mkDisk fs []) =
      (Ok (gs', concat ess), mkDisk fs []) ∧
    Forall2 (seg_holds fs) gs' ess ∧ start_index <$> gs' = start_index <$> gs.
Proof.
  intros Hf Hfr. induction Hf as [|g es gs ess Hg Hf IH]; [by exists []|].
  apply Forall_cons in Hfr as [Hfe Hfr]. destruct (IH Hfr) as (gs' & Hrec & Hh & Hst).
  pose proof Hg as [Hne Hnum Hp Hend (bs & Hbs & Hfile)]. rewrite Hp in Hfile.
  destruct es as [|e es]; [done|]. destruct (last (e :: es)) as [el|] eqn:Hl.
  2:{ by apply last_None in Hl. }
  exists (mkLogSegmentMeta (e_index e) (e_index el) (lenN (e :: es)) (N.of_nat (length bs))
    (Rlog (start_index g)) :: gs').
  assert (e_index e = start_index g) as He by (rewrite (Hnum 0 e eq_refl); lia).
  cbn [fmap list_fmap recover_segments concat]. split_and!.
  - unfold io_bind at 1. unfold recover_segment, io_bind at 1.
    rewrite (read_file_healthy _ _ bs) by done. rewrite (scan_file _ _ Hfe Hbs).
    unfold io_bind at 1. unfold io_ret at 1. unfold io_ret at 1. cbn [head]. rewrite Hl.
    unfold io_bind. change (list_fmap _ _ start_index gs) with (start_index <$> gs).
    rewrite Hrec. done.
  - constructor; [|done]. split; cbn; [done|by rewrite He|by rewrite He| |].
    + rewrite He. rewrite last_lookup in Hl. rewrite (Hnum _ _ Hl). unfold lenN. cbn. lia.
    + by exists bs.
  - by f_equal.
Qed.

(** The metadata on disk is the metadata in the cache. *)
Record meta_inv s : Prop := {
  mi_hard : meta_holds (files (disk s)) state_file RaftHardState_default
              (mem_hard_state (memory_cache s));
  mi_progress : meta_holds (files (disk s)) progress_file RaftPersistentProgress_default
                  (mem_progress (memory_cache s));
  mi_snapshot : meta_holds (files (disk s)) snapshot_file RaftSnapshotMeta_default
                  (mem_snapshot_meta (memory_cache s))
}.

Lemma list_segments_healthy d gs rest :
  healthy d → files_hold gs (files d) rest → numbered_from 1 rest →
  list_segments d = (Ok (start_index <$> gs), d).
Proof.
  intros Hd Hfh Hn. unfold list_segments, io_bind. rewrite syscall_healthy by done.
  rewrite syscalls_healthy by done. unfold io_ret. by rewrite (rlog_starts_spec _ gs rest).
Qed.

(** What a restart makes of the cached state: the three records as saved, and
    the log without the sentinel (unless nothing was ever appended). *)
Definition reopened (c : MemoryRaftStorage D) : MemoryRaftStorage D :=
  mkMemoryRaftStorage (mem_hard_state c) (mem_progress c) (mem_snapshot_meta c)
    (match tail (mem_log c) with [] => [sentinel] | es => es end) false false false false.

Lemma open_recovers s :
  disk_inv s → meta_inv s → healthy (disk s) →
  ∃ s', durable_open (disk s) = (Ok s', disk s) ∧
    memory_cache s' = reopened (memory_cache s) ∧
    files_hold (segments s') (files (disk s')) (tail (mem_log (memory_cache s))) ∧
    disk s' = disk s.
Proof.
  intros Hinv [Mh Mp Ms] Hd. destruct (disk_inv_tail s Hinv) as [Ht _].
  destruct Hinv as [_ _ Hfr _ Hfh]. set (rest := tail (mem_log (memory_cache s))) in *.
  pose proof Hfh as [(ess & Hf & Hc) Honly Hleg].
  assert (Forall (Forall framable) ess) as Hfe by (apply Forall_concat; by rewrite Hc).
  destruct (disk s) as [fs fl] eqn:Hdisk. unfold healthy in Hd. cbn in Hd. subst fl. cbn in *.
  destruct (recover_segments_holds fs (segments s) ess Hf Hfe) as (gs' & Hrec & Hh & Hst).
  assert (healthy (mkDisk fs [])) as Hd by done.
  unfold durable_open.
  do 2 rewrite (io_bind_ok _ _ _ _ _ (syscall_healthy _ Hd)).
  rewrite (io_bind_ok _ _ _ _ _ (recover_meta_holds _ _ _ _ Hd Mh)).
  rewrite (io_bind_ok _ _ _ _ _ (recover_meta_holds _ _ _ _ Hd Mp)).
  rewrite (io_bind_ok _ _ _ _ _ (recover_meta_holds _ _ _ _ Hd Ms)).
  assert (migrate_legacy (mkDisk fs []) = (Ok tt, mkDisk fs [])) as Hmig
    by (unfold migrate_legacy; cbn; by rewrite Hleg).
  rewrite (io_bind_ok _ _ _ _ _ Hmig).
  rewrite (io_bind_ok _ _ _ _ _ (list_segments_healthy _ _ _ Hd Hfh Ht)).
  rewrite (io_bind_ok _ _ _ _ _ Hrec), Hc. cbv iota beta zeta. unfold io_ret.
  eexists. split; [reflexivity|]. cbn.
  assert (files_hold gs' fs rest) as Hfh'.
  { split; [by exists ess| |done]. intros i (g & Hg & Hp)%Honly.
    assert (start_index g ∈ start_index <$> gs') as (g' & Hg' & Hin)%list_elem_of_fmap
      by (rewrite Hst; by apply list_elem_of_fmap_2).
    exists g'. split; [done|]. apply list_elem_of_lookup in Hg as [k Hk], Hin as [k' Hk'].
    destruct (Forall2_lookup_l _ _ _ _ _ Hf Hk) as (? & _ & [_ _ Hp1 _ _]).
    destruct (Forall2_lookup_l _ _ _ _ _ Hh Hk') as (? & _ & [_ _ Hp2 _ _]). congruence. }
  unfold reopened. fold rest. destruct rest as [|e rest]; cbn; by split_and!.
Qed.

(** ** Torn appends *)

(** A file whose last frame is cut after [k] bytes: the loop stops behind the
    good frames, with an error. *)
Lemma scan_torn es bs e frame k :
  Forall framable es → encode_all es = Ok bs → framable e → encode_framed_record e = Ok frame →
  0 < k < length frame →
  ∃ err, scan_frames (length (bs ++ take k frame)) (bs ++ take k frame) 0 =
    (es, length bs, Some err).
Proof.
  intros Hf He (p & Hp & Hlen) Hfr Hk.
  assert (length (bs ++ take k frame) = length bs + k) as Hl
    by (rewrite length_app, length_take; lia).
  pose proof (length_encode_all _ _ He) as Hle.
  pose proof (scan_frames_encoded es [] bs (take k frame) (length (bs ++ take k frame)) Hf He
    ltac:(lia)) as Hs.
  cbn [app length Nat.add] in Hs. rewrite Hs.
  destruct (length (bs ++ take k frame) - length es) as [|fuel] eqn:Hfuel; [lia|].
  cbn [scan_frames]. rewrite bool_decide_eq_false_2 by lia. rewrite drop_app_length.
  apply encode_framed_inv in Hfr as (p' & Hp' & ->). rewrite Hp in Hp'. injection Hp' as <-.
  pose proof (decode_frame_prefix_err (T := RaftLogEntry D) p k Hlen ltac:(lia)) as Herr.
  destruct (decode_framed_record (take k (frame_of_payload p))) as [|err]; [done|].
  exists err. by rewrite app_nil_r.
Qed.

(** The description of a segment that holds [es] in [size] bytes *)
Definition segment_metas (start : N) (es : list (RaftLogEntry D)) (size : nat) : list LogSegmentMeta :=
  match head es, last es with
  | Some first, Some final => [mkLogSegmentMeta (e_index first) (e_index final) (lenN es) (N.of_nat size) (Rlog start)]
  | _, _ => []
  end.

(** C10: Recovery of the last log segment when a crash cut its final record
    inside the frame header: the torn bytes are truncated from the file, every
    complete entry is recovered in order, and the description of the segment
    gives its first and last index, the number of entries and the size that is
    left. *)
Theorem recover_torn_segment start es bs e frame k d :
  healthy d → files d !! Rlog start = Some (bs ++ take k frame) →
  Forall framable es → encode_all es = Ok bs → framable e → encode_framed_record e = Ok frame →
  0 < k < RAFT_FRAME_HEADER_SIZE → k < length frame →
  recover_segment true start d =
    (Ok (segment_metas start es (length bs), es), mkDisk (<[Rlog start := bs]> (files d)) []).
Proof.
  intros Hd Hfile Hf He Hfe Hfr Hk Hlen.
  destruct (scan_torn es bs e frame k Hf He Hfe Hfr ltac:(lia)) as [err Hs].
  unfold recover_segment. rewrite (io_bind_ok _ _ _ _ _ (read_file_healthy _ _ _ Hd Hfile)), Hs.
  assert (length (bs ++ take k frame) = length bs + k) as Hl
    by (rewrite length_app, length_take; lia).
  rewrite bool_decide_eq_true_2 by lia. cbn [andb].
  unfold io_bind at 1. unfold io_bind at 1. rewrite syscall_healthy by done.
  unfold set_len, syscall_files. rewrite next_fault_healthy by done. unfold io_ret.
  destruct d as [fs fl]. unfold healthy in Hd. cbn in Hd, Hfile. subst fl. unfold update. cbn.
  assert (alter (take (length bs)) (Rlog start) fs = <[Rlog start := bs]> fs) as ->.
  { apply map_eq. intros q. destruct (decide (q = Rlog start)) as [->|].
    - rewrite lookup_alter_eq, lookup_insert_eq, Hfile. cbn. by rewrite take_app_length.
    - by rewrite lookup_alter_ne, lookup_insert_ne. }
  unfold segment_metas. destruct (head es) eqn:Hhd, (last es) eqn:Hla; [done|..].
  - destruct es; [done|]. by apply last_None in Hla.
  - by destruct es.
  - by destruct es.
Qed.
End recovery.

(** The operations of [RaftStorage] that change state. *)
Inductive storage_op (D : Type) :=
  | OpSaveHardState (h : RaftHardState)
  | OpSaveProgress (p : RaftPersistentProgress)
  | OpSaveSnapshotMeta (m : RaftSnapshotMeta)
  | OpAppend (es : list (RaftLogEntry D))
  | OpTruncate (i : N).
Arguments OpSaveHardState {D} _.
Arguments OpSaveProgress {D} _.
Arguments OpSaveSnapshotMeta {D} _.
Arguments OpAppend {D} _.
Arguments OpTruncate {D} _.

Definition run_op {S D} `{!RaftStorage S D} (op : storage_op D) (s : S) : HNSQRResult unit * S :=
  match op with
  | OpSaveHardState h => save_hard_state h s
  | OpSaveProgress p => save_progress p s
  | OpSaveSnapshotMeta m => save_snapshot_meta m s
  | OpAppend es => append_entries es s
  | OpTruncate i => truncate_suffix i s
  end.

(** A sequence of operations, up to the first error. *)
Fixpoint run_ops {S D} `{!RaftStorage S D} (ops : list (storage_op D)) (s : S) :
    HNSQRResult unit * S :=
  match ops with
  | [] => (Ok tt, s)
  | op :: ops =>
      let '(r, s) := run_op op s in
      match r with
      | Err e => (Err e, s)
      | Ok _ => run_ops ops s
      end
  end.

Section reopen.
Context {D : Type} `{!Crc32} `{!Bincode RaftHardState} `{!Bincode RaftPersistentProgress}
  `{!Bincode RaftSnapshotMeta} `{!Bincode (RaftLogEntry D)}.
Context `{!Crc32Laws} `{!BincodeLaws (RaftLogEntry D)} `{!BincodeLaws RaftHardState}
  `{!BincodeLaws RaftPersistentProgress} `{!BincodeLaws RaftSnapshotMeta}.
Implicit Types (s : DurableRaftStorage D) (c : MemoryRaftStorage D).

(** An operation the Raft node may issue on a log: records that serialize, and
    appended entries that continue the log; the sentinel is never cut. *)
Definition op_ok c (op : storage_op D) : Prop :=
  match op with
  | OpSaveHardState h => framable h
  | OpSaveProgress p => framable p
  | OpSaveSnapshotMeta m => framable m
  | OpAppend es => es ≠ [] ∧ Forall framable es ∧ numbered_from (lenN (mem_log c)) es
  | OpTruncate i => (0 < i)%N
  end.

Fixpoint ops_ok c (ops : list (storage_op D)) : Prop :=
  match ops with
  | [] => True
  | op :: ops => op_ok c op ∧ ops_ok (run_op op c).2 ops
  end.

(** No injected crash points are armed. *)
Definition no_crash_points c : Prop :=
  fail_before_vote_persist c = false ∧ fail_after_vote_persist c = false ∧
  fail_before_log_persist c = false ∧ fail_after_log_persist c = false.

Record store_inv s : Prop := {
  sv_disk : disk_inv s;
  sv_meta : meta_inv s;
  sv_healthy : healthy (disk s);
  sv_points : no_crash_points (memory_cache s)
}.

(** ** Metadata *)

Lemma write_atomic_healthy {T} `{!Bincode T} p (x : T) d frame :
  tmp_path p ≠ p → healthy d → encode_framed_record x = Ok frame →
  write_atomic_framed p x d =
    (Ok tt, mkDisk (<[p := frame]> (delete (tmp_path p) (<[tmp_path p := frame]> (files d)))) []).
Proof.
  intros Hne Hd He. unfold write_atomic_framed. set (tmp := tmp_path p) in *.
  unfold io_bind at 1, io_lift. rewrite He.
  assert (∀ k : IO unit, (let! _ := open_truncate tmp in let! _ := write_all tmp frame in
    let! _ := sync_all in k) d =
    (let! _ := (let! _ := open_truncate tmp in let! _ := write_all tmp frame in sync_all) in k) d) as ->.
  { intros k. unfold io_bind. repeat case_match; simplify_eq; done. }
  rewrite (io_bind_ok _ _ _ _ _ (open_write_healthy tmp frame d Hd)).
  unfold io_bind at 1, rename. cbn. by rewrite lookup_insert_eq.
Qed.

Lemma tmp_path_fresh p q :
  p ∈ [state_file; progress_file; snapshot_file] → q ∈ [state_file; progress_file; snapshot_file] →
  tmp_path p ≠ q.
Proof.
  rewrite !elem_of_cons, !elem_of_nil. intros Hp Hq. by destruct Hp as [->|[->|[->|[]]]],
    Hq as [->|[->|[->|[]]]].
Qed.

(** Saving one record replaces its file and leaves the other records and the
    segments alone. *)
Lemma save_meta_files {T} `{!Bincode T} p (x : T) d frame :
  p ∈ [state_file; progress_file; snapshot_file] → healthy d → encode_framed_record x = Ok frame →
  ∃ d', write_atomic_framed p x d = (Ok tt, d') ∧ healthy d' ∧ files d' !! p = Some frame ∧
    (∀ q, q ∈ [state_file; progress_file; snapshot_file] → q ≠ p → files d' !! q = files d !! q) ∧
    (∀ i, files d' !! Rlog i = files d !! Rlog i) ∧
    files d' !! legacy_log_file = files d !! legacy_log_file.
Proof.
  intros Hp Hd He. eexists. split.
  { apply write_atomic_healthy; [|done|done]. by apply tmp_path_fresh. }
  assert (∃ name, tmp_path p = Meta name ∧ tmp_path p ≠ legacy_log_file) as (name & Ht & Hleg).
  { unfold tmp_path. repeat case_bool_decide; by eexists. }
  assert (p ≠ legacy_log_file ∧ ∃ n, p = Meta n) as [Hpl [pn Hpn]].
  { rewrite !elem_of_cons, elem_of_nil in Hp. destruct Hp as [->|[->|[->|[]]]]; by split; [|eexists]. }
  cbn. split_and!.
  - done.
  - apply lookup_insert_eq.
  - intros q Hq Hne. pose proof (tmp_path_fresh p q Hp Hq).
    by rewrite lookup_insert_ne, lookup_delete_ne, lookup_insert_ne.
  - intros i. rewrite lookup_insert_ne, lookup_delete_ne, lookup_insert_ne; congruence.
  - by rewrite lookup_insert_ne, lookup_delete_ne, lookup_insert_ne.
Qed.

Lemma files_hold_frame gs (fs fs' : gmap path (list byte)) (rest : list (RaftLogEntry D)) :
  (∀ i, fs' !! Rlog i = fs !! Rlog i) → fs' !! legacy_log_file = fs !! legacy_log_file →
  files_hold gs fs rest → files_hold gs fs' rest.
Proof.
  intros Hr Hl [(ess & Hf & Hc) Ho Hleg]. split.
  - exists ess. split; [|done]. eapply Forall2_impl; [exact Hf|].
    intros g es [H1 H2 H3 H4 (bs & H5 & H6)]. split; [done..|]. exists bs. split; [done|].
    rewrite H3 in *. by rewrite Hr.
  - intros i. rewrite Hr. apply Ho.
  - by rewrite Hl.
Qed.

Lemma meta_holds_frame {T} `{!Bincode T} (fs fs' : gmap path (list byte)) p (dflt x : T) :
  fs' !! p = fs !! p → meta_holds fs p dflt x → meta_holds fs' p dflt x.
Proof. unfold meta_holds. by intros ->. Qed.

Lemma meta_holds_saved {T} `{!Bincode T} (fs : gmap path (list byte)) p (dflt x : T) frame :
  framable x → encode_framed_record x = Ok frame → fs !! p = Some frame → meta_holds fs p dflt x.
Proof. intros. right. eauto. Qed.

Lemma framable_frame {T} `{!Bincode T} (x : T) : framable x → ∃ frame, encode_framed_record x = Ok frame.
Proof. intros (p & Hp & _). unfold encode_framed_record. rewrite Hp. eauto. Qed.

(** ** One operation *)

Lemma store_inv_meta s s' :
  store_inv s → healthy (disk s') → segments s' = segments s →
  mem_log (memory_cache s') = mem_log (memory_cache s) → no_crash_points (memory_cache s') →
  (∀ i, files (disk s') !! Rlog i = files (disk s) !! Rlog i) →
  files (disk s') !! legacy_log_file = files (disk s) !! legacy_log_file →
  meta_inv s' → store_inv s'.
Proof.
  intros [[Hn Hs Hf Hfl Hh] _ _ _] Hd Hseg Hlog Hpts Hr Hl Hm. split; [|done|done|done].
  split; rewrite ?Hseg, ?Hlog; [done|done|done| |by eapply files_hold_frame].
  by destruct Hpts as (_ & _ & ? & ?).
Qed.

(** The record [x] goes to the file [f]; then what is left to show of the
    resulting storage. *)
Ltac save_record f x Hfr Hd :=
  destruct (framable_frame x Hfr) as [frame He];
  destruct (save_meta_files f x _ frame ltac:(set_solver) Hd He)
    as (d' & Ew & Hd' & Hf & Ho & Hr & Hl); cbn.

Ltac finish_save Hinv :=
  unfold then_cache; cbn; eexists; split; [reflexivity|]; split; [|done];
  eapply store_inv_meta; [exact Hinv|done..|]; split; cbn;
  first [by eapply meta_holds_saved
        |match goal with Ho : ∀ q, _ → q ≠ _ → _ |- _ =>
           eapply meta_holds_frame; [apply Ho; [set_solver|done]|done] end].

Lemma run_op_inv op s :
  store_inv s → op_ok (memory_cache s) op →
  ∃ s', run_op op s = (Ok tt, s') ∧ store_inv s' ∧
    memory_cache s' = (run_op op (memory_cache s)).2.
Proof.
  intros Hinv. pose proof Hinv as [Hdi [Mh Mp Ms] Hd Hpts].
  pose proof Hpts as (Hp1 & Hp2 & Hp3 & Hp4).
  destruct op as [h|p|m|es|i]; cbn [op_ok run_op].
  - intros Hfr. save_record state_file h Hfr Hd.
    unfold durable_save_hard_state, mem_save_hard_state. rewrite (on_disk_eq _ _ _ _ Ew).
    unfold then_cache, mem_save_hard_state. cbn. rewrite Hp1, Hp2. finish_save Hinv.
  - intros Hfr. save_record progress_file p Hfr Hd.
    unfold durable_save_progress, mem_save_progress. rewrite (on_disk_eq _ _ _ _ Ew).
    finish_save Hinv.
  - intros Hfr. save_record snapshot_file m Hfr Hd.
    unfold durable_save_snapshot_meta, mem_save_snapshot_meta. rewrite (on_disk_eq _ _ _ _ Ew).
    finish_save Hinv.
  - intros (Hne & Hfr & Hn).
    destruct (durable_append_inv es s Hdi Hd Hne Hfr Hn) as (s' & Ea & Hdi' & Hd' & Hc & Hsm).
    exists s'. split; [exact Ea|].
    assert ((mem_append_entries es (memory_cache s)).2 = memory_cache s') as Hmem.
    { rewrite mem_append_ok by done. by rewrite Hc. }
    split; [|done]. split; [done| |done|by rewrite Hc].
    split; rewrite ?Hc; cbn; (eapply meta_holds_frame; [apply Hsm|done]).
  - intros Hi. destruct (durable_truncate_inv i s Hdi Hd Hi) as (s' & Et & Hdi' & Hd' & Hc & Hsm).
    exists s'. split; [exact Et|]. split; [|done].
    destruct (mem_truncate_log i (memory_cache s)) as (c & Ec & _ & H1 & H2 & H3 & _).
    rewrite Ec in Hc. cbn in Hc.
    assert (no_crash_points c) as Hpc.
    { unfold mem_truncate_suffix in Ec. injection Ec as <-. by case_match. }
    split; [done| |done|by rewrite Hc].
    split; rewrite Hc, ?H1, ?H2, ?H3; (eapply meta_holds_frame; [apply Hsm|done]).
Qed.

Lemma run_ops_inv ops s :
  store_inv s → ops_ok (memory_cache s) ops →
  ∃ s', run_ops ops s = (Ok tt, s') ∧ store_inv s' ∧
    memory_cache s' = (run_ops ops (memory_cache s)).2.
Proof.
  revert s. induction ops as [|op ops IH]; intros s Hinv Hok; cbn [run_ops ops_ok] in *.
  { by exists s. }
  destruct Hok as [Hop Hok]. destruct (run_op_inv op s Hinv Hop) as (s1 & E1 & Hinv1 & Hc1).
  assert ((run_op op (memory_cache s)).1 = Ok tt) as Hr.
  { destruct Hinv as [_ _ _ (H1 & H2 & H3 & H4)]. destruct op; cbn; [|done|done| |done].
    - unfold mem_save_hard_state. cbn. by rewrite H1, H2.
    - unfold mem_append_entries. cbn. by rewrite H3, H4. }
  rewrite E1. destruct (run_op op (memory_cache s)) as [r c]. cbn in *. subst r c.
  destruct (IH s1 Hinv1 Hok) as (s' & E' & Hinv' & Hc'). by exists s'.
Qed.

(** ** A new directory *)

Definition empty_directory (d : Disk) : Prop :=
  healthy d ∧ (∀ i, files d !! Rlog i = None) ∧ files d !! legacy_log_file = None ∧
  ∀ p, p ∈ [state_file; progress_file; snapshot_file] → files d !! p = None.

Lemma open_empty d :
  empty_directory d → ∃ s, durable_open d = (Ok s, d) ∧ store_inv s ∧ memory_cache s = mem_new.
Proof.
  intros (Hd & Hr & Hl & Hm).
  set (s0 := mkDurableRaftStorage [] 0 0 (mem_new (D := D)) d).
  assert (disk_inv s0) as Hdi.
  { split; cbn; [|done|done|done|].
    - intros [|k] e Hk; cbn in Hk; [by injection Hk as <-|done].
    - split; [by exists []| |done]. intros i [? Hi]. by rewrite Hr in Hi. }
  assert (meta_inv s0) as Hmi by (split; left; (split; [apply Hm; set_solver|done])).
  destruct (open_recovers s0 Hdi Hmi Hd) as (s & Ho & Hc & Hfh & Hdisk).
  exists s. split; [exact Ho|]. assert (memory_cache s = mem_new) as Hcache by by rewrite Hc.
  split; [|done]. cbn in Hdisk. split; rewrite ?Hdisk, ?Hcache; [| |done|done].
  - split; rewrite ?Hcache; cbn; [by apply Hdi|done|done|done|exact Hfh].
  - split; rewrite Hcache, Hdisk; left; (split; [apply Hm; set_solver|done]).
Qed.

(** C9: Durable storage opened on an empty directory refines the in-memory
    reference over any sequence of saves, appends of consecutive entries and
    truncations without disk faults: every call succeeds, the cache equals the
    reference's state, and reopening the resulting directory succeeds, leaves
    the disk alone and yields the same hard state, progress, snapshot metadata
    and entries (the in-memory sentinel at index 0 excepted, which recovery
    keeps only for an empty log). *)
Theorem durable_reopen d ops :
  empty_directory d → ops_ok mem_new ops →
  ∃ s0 s s', durable_open d = (Ok s0, d) ∧ run_ops ops s0 = (Ok tt, s) ∧
    memory_cache s = (run_ops ops (mem_new (D := D))).2 ∧
    durable_open (disk s) = (Ok s', disk s) ∧
    memory_cache s' = reopened (memory_cache s).
Proof.
  intros Hd Hok. destruct (open_empty d Hd) as (s0 & Ho & Hinv & Hc).
  rewrite <- Hc in Hok. destruct (run_ops_inv ops s0 Hinv Hok) as (s & Er & [Hdi Hmi Hh _] & Hcs).
  destruct (open_recovers s Hdi Hmi Hh) as (s' & Ho' & Hc' & _).
  exists s0, s, s'. rewrite <- Hc at 1. by split_and!.
Qed.
End reopen.
