(* ===== verification/Wal.v ===== *)
(** The write-ahead log of src/storage/wal.rs: record headers, appending with
    rotation and durability barriers, replay and truncation.  Read errors during
    replay and truncation are not modelled; writes may fail (FileSystem.v). *)

From Stdlib Require Import Strings.Byte.
From S2P Require Import Prelude Codec FileSystem.
From stdpp Require Import base gmap strings numbers list sorting fin_maps.

(** [*b"HWAL"] *)
Definition WAL_MAGIC : list byte := [x48; x57; x41; x4c].
Definition WAL_VERSION : N := 1.
Definition WAL_HEADER_SIZE : nat := 36.
Definition DEFAULT_MAX_SEGMENT_BYTES : N := 64 * 1024 * 1024.

Inductive WalRecordType := TUpsert | TDelete | TMetadataUpdate | TCheckpoint | TClusterState.

(** The [repr(u16)] discriminants. *)
Definition record_type_u16 (t : WalRecordType) : N :=
  match t with
  | TUpsert => 1 | TDelete => 2 | TMetadataUpdate => 3 | TCheckpoint => 4 | TClusterState => 5
  end.

Definition from_u16 (val : N) : option WalRecordType :=
  match val with
  | 1 => Some TUpsert | 2 => Some TDelete | 3 => Some TMetadataUpdate
  | 4 => Some TCheckpoint | 5 => Some TClusterState | _ => None
  end%N.

Record WalFrameHeader := mkWalFrameHeader {
  h_magic : list byte;
  h_version : N;
  h_record_type : N;
  h_lsn : N;
  h_prev_lsn : N;
  h_payload_len : N;
  h_crc32c : N
}.

Definition header_encode (h : WalFrameHeader) : list byte :=
  h_magic h ++ le_bytes 2 (h_version h) ++ le_bytes 2 (h_record_type h) ++
  le_bytes 8 (h_lsn h) ++ le_bytes 8 (h_prev_lsn h) ++ le_bytes 4 (h_payload_len h) ++
  le_bytes 4 (h_crc32c h) ++ replicate 4 x00.

Definition header_decode (buf : list byte) : HNSQRResult WalFrameHeader :=
  let magic := slice 0 4 buf in
  if negb (bool_decide (magic = WAL_MAGIC))
  then Err (CorruptedSnapshot "Invalid WAL frame magic identifier") else
  let version := le_num (slice 4 6 buf) in
  if negb (version =? WAL_VERSION)%N
  then Err (CorruptedSnapshot "Unsupported WAL version") else
  let record_type_raw := le_num (slice 6 8 buf) in
  match from_u16 record_type_raw with
  | None => Err (CorruptedSnapshot "Unknown WAL record type")
  | Some _ =>
      Ok (mkWalFrameHeader magic version record_type_raw (le_num (slice 8 16 buf))
            (le_num (slice 16 24 buf)) (le_num (slice 24 28 buf)) (le_num (slice 28 32 buf)))
  end.

(** [V] is the type of vectors, [K] of metadata maps. *)
Inductive WalMutation (V K : Type) :=
  | WUpsert (external_id : string) (vector : V) (metadata : option K)
  | WDelete (external_id : string)
  | WMetadataUpdate (external_id : string) (metadata : K)
  | WCheckpoint (committed_lsn manifest_generation : N)
  | WClusterState (epoch : N) (state_data : list byte).
Arguments WUpsert {V K}.
Arguments WDelete {V K}.
Arguments WMetadataUpdate {V K}.
Arguments WCheckpoint {V K}.
Arguments WClusterState {V K}.

Definition record_type {V K} (m : WalMutation V K) : WalRecordType :=
  match m with
  | WUpsert _ _ _ => TUpsert
  | WDelete _ => TDelete
  | WMetadataUpdate _ _ => TMetadataUpdate
  | WCheckpoint _ _ => TCheckpoint
  | WClusterState _ _ => TClusterState
  end.

Inductive DurabilityPolicy := PMemory | PWalSync | PWalGroupCommit | PQuorum.

#[export] Instance DurabilityPolicy_eq_dec : EqDecision DurabilityPolicy.
Proof. solve_decision. Defined.

Record WalMetrics := mkWalMetrics {
  appends_total : N;
  wm_bytes_written : N;
  fsync_count : N;
  fsync_total_micros : N;
  backpressure_events : N;
  recovered_records : N
}.
#[export] Instance eta_WalMetrics : Eta WalMetrics := λ m,
  mkWalMetrics (appends_total m) (wm_bytes_written m) (fsync_count m) (fsync_total_micros m)
    (backpressure_events m) (recovered_records m).
Definition WalMetrics_default := mkWalMetrics 0 0 0 0 0 0.

Record WalRecoverySummary := mkWalRecoverySummary {
  start_lsn : N;
  last_applied_lsn : N;
  total_replayed : N;
  torn_records_skipped : N;
  active_segment_count : N
}.
#[export] Instance eta_WalRecoverySummary : Eta WalRecoverySummary := λ s,
  mkWalRecoverySummary (start_lsn s) (last_applied_lsn s) (total_replayed s)
    (torn_records_skipped s) (active_segment_count s).

(** The open segment: its file is [WalSeg (segment_id w)]. *)
Record WalActiveWriter := mkWalActiveWriter {
  segment_id : N;
  bytes_written : N
}.
#[export] Instance eta_WalActiveWriter : Eta WalActiveWriter := λ w,
  mkWalActiveWriter (segment_id w) (bytes_written w).

Record WalManager := mkWalManager {
  wal_max_segment_bytes : N;
  current_lsn : N;
  last_synced_lsn : N;
  last_checkpoint_lsn : N;
  writer : option WalActiveWriter;
  metrics : WalMetrics;
  wal_disk : Disk
}.
#[export] Instance eta_WalManager : Eta WalManager := λ w,
  mkWalManager (wal_max_segment_bytes w) (current_lsn w) (last_synced_lsn w)
    (last_checkpoint_lsn w) (writer w) (metrics w) (wal_disk w).

Definition wal_segment_ids (fs : gmap path (list byte)) : list N :=
  omap (λ p, match p with WalSeg i => Some i | _ => None end) (elements (dom fs)).

(** Running a disk action of the manager. *)
Definition on_wal {A} (c : IO A) (w : WalManager) : HNSQRResult A * WalManager :=
  let '(r, d) := c (wal_disk w) in (r, w <| wal_disk := d |>).

(** ** Opening *)

Definition init_active_segment (w : WalManager) : HNSQRResult unit * WalManager :=
  match writer w with
  | Some _ => (Ok tt, w)
  | None =>
      let highest_seg_id := foldr N.max 0%N (wal_segment_ids (files (wal_disk w))) in
      let highest_lsn := 0%N in
      let seg_id := N.max highest_seg_id 1 in
      let '(r, w) := on_wal (let! _ := open_append (WalSeg seg_id) in syscall) w in
      match r with
      | Err e => (Err e, w)
      | Ok _ =>
          let len := lenN (default [] (files (wal_disk w) !! WalSeg seg_id)) in
          (Ok tt, w <| writer := Some (mkWalActiveWriter seg_id len) |>
                    <| current_lsn := highest_lsn |>
                    <| last_synced_lsn := highest_lsn |>)
      end
  end.

Definition wal_open (d : Disk) : HNSQRResult WalManager * Disk :=
  match syscall d with (* create_dir_all *)
  | (Err e, d) => (Err e, d)
  | (Ok _, d) =>
      let '(r, w) := init_active_segment
        (mkWalManager DEFAULT_MAX_SEGMENT_BYTES 0 0 0 None WalMetrics_default d) in
      (let? _ := r in Ok w, wal_disk w)
  end.

Definition with_max_segment_bytes (max_bytes : N) (w : WalManager) : WalManager :=
  w <| wal_max_segment_bytes := N.max max_bytes (1024 * 1024) |>.

(** ** Appending *)

(** [sync_target_lsn]; [dur_us] is the measured time of the [fsync]. *)
Definition sync_target_lsn (dur_us target_lsn : N) (w : WalManager) :
    HNSQRResult unit * WalManager :=
  if (target_lsn <=? last_synced_lsn w)%N then (Ok tt, w) else
  let '(r, w) := (match writer w with
                  | Some _ => on_wal sync_all w
                  | None => (Ok tt, w)
                  end) in
  match r with
  | Err e => (Err e, w)
  | Ok _ =>
      (Ok tt, w <| metrics ::= λ m, m <| fsync_count ::= λ c, u64_add c 1 |>
                                      <| fsync_total_micros ::= λ c, u64_add c dur_us |> |>
                <| last_synced_lsn := current_lsn w |>)
  end.

Section wal.
Context {V K : Type} `{!Crc32} `{!Bincode (WalMutation V K)}.
Abbreviation Mutation := (WalMutation V K).

(** The record [append] writes for a serialized mutation. *)
Definition wal_header (prev_lsn : N) (m : Mutation) (payload : list byte) : WalFrameHeader :=
  mkWalFrameHeader WAL_MAGIC WAL_VERSION (record_type_u16 (record_type m))
    (u64_add prev_lsn 1) prev_lsn (lenN payload `mod` u32_modulus) (crc32 payload).

(** Rotation: a full segment is synced (best effort) and the next one opened. *)
Definition rotate_segment (wr : WalActiveWriter) (w : WalManager) :
    HNSQRResult WalActiveWriter * WalManager :=
  if (wal_max_segment_bytes w <=? bytes_written wr)%N then
    let next_seg_id := u64_add (segment_id wr) 1 in
    let '(r, w) := on_wal (let! _ := io_try sync_all in open_append (WalSeg next_seg_id)) w in
    match r with
    | Err e => (Err e, w)
    | Ok _ =>
        let wr := mkWalActiveWriter next_seg_id 0 in
        (Ok wr, w <| writer := Some wr |>)
    end
  else (Ok wr, w).

(** [append]; [None] is the [unwrap] of a missing writer. *)
Definition append (dur_us : N) (m : Mutation) (policy : DurabilityPolicy) (w : WalManager) :
    option (HNSQRResult N * WalManager) :=
  if bool_decide (policy = PMemory) then
    let lsn := u64_add (current_lsn w) 1 in
    Some (Ok lsn, w <| current_lsn := lsn |>)
  else
  match serialize m with
  | Err _ => Some (Err (CorruptedSnapshot "Serialization error"), w)
  | Ok payload =>
      wr ← writer w;
      let '(r, w) := rotate_segment wr w in
      match r with
      | Err e => Some (Err e, w)
      | Ok wr =>
          let header := wal_header (current_lsn w) m payload in
          let seg := WalSeg (segment_id wr) in
          let '(r, w) := on_wal (let! _ := write_all seg (header_encode header) in
                                 write_all seg payload) w in
          match r with
          | Err e => Some (Err e, w)
          | Ok _ =>
              let written := (N.of_nat WAL_HEADER_SIZE + lenN payload)%N in
              let w := w <| writer := Some (wr <| bytes_written ::= λ b, u64_add b written |>) |>
                         <| current_lsn := h_lsn header |>
                         <| metrics ::= λ x, x <| wm_bytes_written ::= λ c, u64_add c written |>
                                               <| appends_total ::= λ c, u64_add c 1 |> |> in
              let '(r, w) := sync_target_lsn dur_us (h_lsn header) w in
              Some (let? _ := r in Ok (h_lsn header), w)
          end
      end
  end.

(** ** Replay *)

Context {St : Type}.

(** What the replay loop carries: the summary, [highest_lsn] and the state the
    callback works on. *)
Record Replay := mkReplay {
  rp_summary : WalRecoverySummary;
  rp_highest : N;
  rp_state : St
}.
#[export] Instance eta_Replay : Eta Replay := λ r,
  mkReplay (rp_summary r) (rp_highest r) (rp_state r).

Definition torn (r : Replay) : Replay :=
  r <| rp_summary ::= λ s, s <| torn_records_skipped ::= λ c, (c + 1)%N |> |>.

Context (apply_fn : N → Mutation → St → HNSQRResult unit * St) (snapshot_lsn : N).

(** A record that passed all checks. *)
Definition replay_record (h : WalFrameHeader) (payload : list byte) (r : Replay) :
    HNSQRResult unit * Replay :=
  if (snapshot_lsn <? h_lsn h)%N then
    match deserialize payload with
    | Err _ => (Err (CorruptedSnapshot "Payload deserialize error"), r)
    | Ok m =>
        let '(res, st) := apply_fn (h_lsn h) m (rp_state r) in
        let r := r <| rp_state := st |> in
        match res with
        | Err e => (Err e, r)
        | Ok _ =>
            (Ok tt, r <| rp_summary ::= λ s, s <| total_replayed ::= λ c, (c + 1)%N |>
                                               <| last_applied_lsn := h_lsn h |> |>
                      <| rp_highest ::= N.max (h_lsn h) |>)
        end
    end
  else (Ok tt, r).

(** The loop over one file: the final offset or the error.  Every pass moves
    on by a header at least, so [length buf] passes are enough. *)
Fixpoint replay_file (fuel : nat) (buf : list byte) (offset : nat) (r : Replay) :
    HNSQRResult nat * Replay :=
  match fuel with
  | O => (Ok offset, r)
  | S fuel =>
      if bool_decide (length buf < offset + WAL_HEADER_SIZE) then (Ok offset, r) else
      match header_decode (slice offset (offset + WAL_HEADER_SIZE) buf) with
      | Err _ =>
          if bool_decide (offset + WAL_HEADER_SIZE = length buf) then (Ok offset, torn r)
          else (Err (CorruptedSnapshot "Corrupted WAL header frame"), r)
      | Ok h =>
          let payload_len := N.to_nat (h_payload_len h) in
          let frame_end := offset + WAL_HEADER_SIZE + payload_len in
          if bool_decide (length buf < frame_end) then (Ok offset, torn r) else
          let payload := slice (offset + WAL_HEADER_SIZE) frame_end buf in
          if negb (crc32 payload =? h_crc32c h)%N then
            if bool_decide (frame_end = length buf) then (Ok offset, torn r)
            else (Err (CorruptedSnapshot "CRC32C mismatch"), r)
          else
            match replay_record h payload r with
            | (Err e, r) => (Err e, r)
            | (Ok _, r) => replay_file fuel buf frame_end r
            end
      end
  end.

Fixpoint replay_files (fs : gmap path (list byte)) (ids : list N) (r : Replay) :
    HNSQRResult unit * Replay :=
  match ids with
  | [] => (Ok tt, r)
  | i :: ids =>
      match fs !! WalSeg i with
      | None => replay_files fs ids r
      | Some buf =>
          match replay_file (length buf) buf 0 r with
          | (Err e, r) => (Err e, r)
          | (Ok offset, r) =>
              replay_files fs ids (if bool_decide (offset < length buf) then torn r else r)
          end
      end
  end.

Definition replay (st : St) (w : WalManager) :
    HNSQRResult WalRecoverySummary * WalManager * St :=
  let ids := merge_sort N.le (wal_segment_ids (files (wal_disk w))) in
  let summary := mkWalRecoverySummary snapshot_lsn snapshot_lsn 0 0 (lenN ids) in
  match replay_files (files (wal_disk w)) ids (mkReplay summary snapshot_lsn st) with
  | (Err e, r) => (Err e, w, rp_state r)
  | (Ok _, r) =>
      (Ok (rp_summary r),
       w <| current_lsn := rp_highest r |> <| last_synced_lsn := rp_highest r |>
         <| metrics ::= λ m, m <| recovered_records := total_replayed (rp_summary r) |> |>,
       rp_state r)
  end.
End wal.

(** ** Truncation *)

(** The greatest LSN in a segment, following the headers. *)
Fixpoint max_segment_lsn (fuel : nat) (buf : list byte) (offset : nat) (acc : N) : N :=
  match fuel with
  | O => acc
  | S fuel =>
      if bool_decide (length buf < offset + WAL_HEADER_SIZE) then acc else
      match header_decode (slice offset (offset + WAL_HEADER_SIZE) buf) with
      | Ok h => max_segment_lsn fuel buf (offset + WAL_HEADER_SIZE + N.to_nat (h_payload_len h))
                  (N.max acc (h_lsn h))
      | Err _ => acc
      end
  end.

Definition deletable (safe_lsn active_seg_id : N) (fs : gmap path (list byte)) (i : N) : bool :=
  (i <? active_seg_id)%N &&
  match fs !! WalSeg i with
  | None => false
  | Some buf =>
      let m := max_segment_lsn (length buf) buf 0 0 in
      (0 <? m)%N && (m <=? safe_lsn)%N
  end.

(** The loop over the sorted segments. *)
Fixpoint delete_segments (safe_lsn active_seg_id : N) (ids : list N) (deleted : N) (d : Disk) :
    N * Disk :=
  match ids with
  | [] => (deleted, d)
  | i :: ids =>
      if deletable safe_lsn active_seg_id (files d) i
      then delete_segments safe_lsn active_seg_id ids (deleted + 1) (remove_file (WalSeg i) d).2
      else delete_segments safe_lsn active_seg_id ids deleted d
  end.

Definition truncate_before (safe_lsn : N) (w : WalManager) : N * WalManager :=
  let ids := merge_sort N.le (wal_segment_ids (files (wal_disk w))) in
  let active_seg_id := match writer w with Some wr => segment_id wr | None => u64_max end in
  let '(n, d) := delete_segments safe_lsn active_seg_id ids 0 (wal_disk w) in
  (n, w <| wal_disk := d |> <| last_checkpoint_lsn := safe_lsn |>).
