(* ===== verification/WalFacts.v ===== *)
(** What the write-ahead log guarantees: headers round-trip, replay applies the
    appended records in order and survives a torn tail, truncation loses nothing
    above the safe LSN, and the barrier of [append]. *)

From Stdlib Require Import Strings.Byte.
From S2P Require Import Prelude Codec FileSystem Wal.
From stdpp Require Import base gmap strings numbers list sorting fin_maps.

(** ** Headers *)

Definition header_ok (h : WalFrameHeader) : Prop :=
  h_magic h = WAL_MAGIC ∧ h_version h = WAL_VERSION ∧ is_Some (from_u16 (h_record_type h)) ∧
  (h_lsn h < u64_modulus)%N ∧ (h_prev_lsn h < u64_modulus)%N ∧
  (h_payload_len h < u32_modulus)%N ∧ (h_crc32c h < u32_modulus)%N.

Lemma from_u16_type t : from_u16 (record_type_u16 t) = Some t.
Proof. by destruct t. Qed.

Lemma from_u16_small v t : from_u16 v = Some t → (v < 256 ^ N.of_nat 2)%N.
Proof.
  unfold from_u16. destruct v as [|p]; [done|]. intros Hv.
  assert (N.pos p ≤ 5)%N; [|cbn; lia].
  do 3 (destruct p as [p|p|]; try done; try lia).
Qed.

Lemma length_header_encode h : h_magic h = WAL_MAGIC → length (header_encode h) = WAL_HEADER_SIZE.
Proof. unfold header_encode. by intros ->. Qed.

(** A header is read back as it was written, whatever follows it. *)
Lemma header_decode_encode h rest :
  header_ok h → header_decode (header_encode h ++ rest) = Ok h.
Proof.
  destruct h as [mg v t l p n c]. intros (Hm & Hv & [ty Ht] & Hl & Hp & Hn & Hc). cbn in *. subst.
  unfold header_decode, header_encode. cbn [h_magic h_version h_record_type h_lsn h_prev_lsn
    h_payload_len h_crc32c].
  change (slice 0 4 _) with WAL_MAGIC. change (slice 4 6 _) with (le_bytes 2 WAL_VERSION).
  change (slice 6 8 _) with (le_bytes 2 t). change (slice 8 16 _) with (le_bytes 8 l).
  change (slice 16 24 _) with (le_bytes 8 p). change (slice 24 28 _) with (le_bytes 4 n).
  change (slice 28 32 _) with (le_bytes 4 c).
  rewrite bool_decide_eq_true_2 by done. cbn [negb].
  rewrite !le_num_le_bytes_small by first [done | by eapply from_u16_small]. by rewrite Ht.
Qed.

Section facts.
Context {V K : Type} `{!Crc32} `{!Bincode (WalMutation V K)}.
Context `{!Crc32Laws} `{!BincodeLaws (WalMutation V K)}.
Abbreviation Mutation := (WalMutation V K).
Implicit Types (rs : list (N * Mutation)).

(** ** Records *)

(** A record with its LSN, as [append] writes it. *)
Definition encode_record (x : N * Mutation) : HNSQRResult (list byte) :=
  match serialize x.2 with
  | Err _ => Err (CorruptedSnapshot "Serialization error")
  | Ok payload => Ok (header_encode (wal_header (x.1 - 1) x.2 payload) ++ payload)
  end.

Fixpoint encode_records rs : HNSQRResult (list byte) :=
  match rs with
  | [] => Ok []
  | x :: rs => let? b := encode_record x in let? bs := encode_records rs in Ok (b ++ bs)
  end.

(** LSNs start at 1 and the payload length fits its 32-bit field. *)
Definition record_ok (x : N * Mutation) : Prop :=
  (0 < x.1 < u64_modulus)%N ∧
  ∃ payload, serialize x.2 = Ok payload ∧ (lenN payload < u32_modulus)%N.

Lemma wal_header_ok lsn (m : Mutation) payload :
  (0 < lsn < u64_modulus)%N →
  header_ok (wal_header (lsn - 1) m payload) ∧ h_lsn (wal_header (lsn - 1) m payload) = lsn.
Proof.
  intros Hl. assert (u64_add (lsn - 1) 1 = lsn) as He.
  { unfold u64_add, u64_wrap. rewrite N.mod_small; lia. }
  unfold header_ok, wal_header. cbn. rewrite He, from_u16_type.
  split_and!; first [done | lia | by apply N.mod_lt | apply crc32_range].
Qed.

Lemma payload_len_header prev (m : Mutation) payload :
  (lenN payload < u32_modulus)%N →
  N.to_nat (h_payload_len (wal_header prev m payload)) = length payload.
Proof. intros Hl. cbn [h_payload_len wal_header]. rewrite N.mod_small by done. unfold lenN. lia. Qed.

Lemma encode_records_app rs1 rs2 b1 b2 :
  encode_records rs1 = Ok b1 → encode_records rs2 = Ok b2 →
  encode_records (rs1 ++ rs2) = Ok (b1 ++ b2).
Proof.
  revert b1. induction rs1 as [|x rs1 IH]; intros b1; cbn [encode_records app]; [by intros [= <-]|].
  destruct (encode_record x); [|done]. destruct (encode_records rs1) as [b|]; [|done].
  intros [= <-] Hr. by rewrite (IH b), <- app_assoc.
Qed.

Lemma length_encode_records rs bs : encode_records rs = Ok bs → length rs ≤ length bs.
Proof.
  revert bs. induction rs as [|x rs IH]; intros bs; cbn [encode_records]; [intros [= <-]; cbn; lia|].
  unfold encode_record. destruct (serialize x.2) as [p|]; [|done].
  destruct (encode_records rs) as [b|]; [|done]. intros <-%Ok_inj. specialize (IH b eq_refl).
  rewrite !length_app, length_header_encode by done. unfold WAL_HEADER_SIZE. cbn. lia.
Qed.

(** ** Replay *)

Section replay_facts.
Context {St : Type} (apply_fn : N → Mutation → St → HNSQRResult unit * St) (snapshot_lsn : N).
Abbreviation Rp := (Replay (St := St)).

(** The reference: the callback on every record above the snapshot, in order,
    up to the first error. *)
Fixpoint apply_records rs (r : Rp) : HNSQRResult unit * Rp :=
  match rs with
  | [] => (Ok tt, r)
  | (lsn, m) :: rs =>
      if (snapshot_lsn <? lsn)%N then
        let '(res, st) := apply_fn lsn m (rp_state r) in
        let r := r <| rp_state := st |> in
        match res with
        | Err e => (Err e, r)
        | Ok _ =>
            apply_records rs
              (r <| rp_summary ::= λ s, s <| total_replayed ::= λ c, (c + 1)%N |>
                                          <| last_applied_lsn := lsn |> |>
                 <| rp_highest ::= N.max lsn |>)
        end
      else apply_records rs r
  end.

(** One pass of the loop on an intact record. *)
Lemma replay_file_record x b pre rest fuel r :
  record_ok x → encode_record x = Ok b →
  replay_file apply_fn snapshot_lsn (S fuel) (pre ++ b ++ rest) (length pre) r =
    match apply_records [x] r with
    | (Err e, r) => (Err e, r)
    | (Ok _, r) => replay_file apply_fn snapshot_lsn fuel (pre ++ b ++ rest) (length pre + length b) r
    end.
Proof.
  destruct x as [lsn m]. intros [Hl (p & Hp & Hlen)]. unfold encode_record. cbn [fst snd] in *.
  rewrite Hp. intros <-%Ok_inj. destruct (wal_header_ok lsn m p Hl) as [Hok Hlsn].
  set (h := wal_header (lsn - 1) m p) in *.
  assert (length (header_encode h) = WAL_HEADER_SIZE) as Hlh by by apply length_header_encode.
  pose proof (payload_len_header (lsn - 1) m p Hlen) as Hpl. fold h in Hpl.
  cbn [replay_file]. rewrite <- app_assoc.
  rewrite bool_decide_eq_false_2 by (rewrite !length_app, Hlh; lia).
  assert (slice (length pre) (length pre + WAL_HEADER_SIZE) (pre ++ header_encode h ++ p ++ rest) =
    header_encode h) as ->.
  { rewrite <- Hlh. apply slice_app_here. }
  rewrite <- (app_nil_r (header_encode h)) at 1. rewrite header_decode_encode by done.
  rewrite Hpl, bool_decide_eq_false_2 by (rewrite !length_app, Hlh; lia).
  assert (slice (length pre + WAL_HEADER_SIZE) (length pre + WAL_HEADER_SIZE + length p)
    (pre ++ header_encode h ++ p ++ rest) = p) as ->.
  { rewrite <- Hlh, <- length_app, app_assoc. apply slice_app_here. }
  change (h_crc32c h) with (crc32 p). rewrite N.eqb_refl. cbn [negb].
  rewrite length_app, Hlh, Nat.add_assoc. unfold replay_record. rewrite Hlsn.
  cbn [apply_records]. destruct (snapshot_lsn <? lsn)%N; [|done].
  rewrite (bincode_roundtrip m p Hp). by destruct (apply_fn lsn m (rp_state r)) as [[]].
Qed.

Lemma apply_records_cons x rs r :
  apply_records (x :: rs) r =
    match apply_records [x] r with
    | (Err e, r) => (Err e, r)
    | (Ok _, r) => apply_records rs r
    end.
Proof.
  destruct x as [lsn m]. cbn [apply_records]. destruct (snapshot_lsn <? lsn)%N; [|done].
  by destruct (apply_fn lsn m (rp_state r)) as [[]].
Qed.

(** Intact records are applied, then the loop goes on behind them. *)
Lemma replay_file_records rs bs pre rest fuel r :
  Forall record_ok rs → encode_records rs = Ok bs → length rs ≤ fuel →
  replay_file apply_fn snapshot_lsn fuel (pre ++ bs ++ rest) (length pre) r =
    match apply_records rs r with
    | (Err e, r) => (Err e, r)
    | (Ok _, r) => replay_file apply_fn snapshot_lsn (fuel - length rs) (pre ++ bs ++ rest)
                     (length pre + length bs) r
    end.
Proof.
  revert pre bs fuel r. induction rs as [|x rs IH]; intros pre bs fuel r Hok.
  { intros [= <-] _. cbn. by rewrite Nat.sub_0_r, Nat.add_0_r. }
  apply Forall_cons in Hok as [Hx Hok]. cbn [encode_records].
  destruct (encode_record x) as [b|] eqn:Eb; [|done].
  destruct (encode_records rs) as [bs'|] eqn:Er; [|done]. intros [= <-] Hfuel.
  destruct fuel as [|fuel]; cbn [length] in *; [lia|].
  rewrite <- app_assoc, (replay_file_record x b), (apply_records_cons x rs) by done.
  destruct (apply_records [x] r) as [[u|e] r1]; [|done].
  assert (length pre + length b = length (pre ++ b)) as -> by (by rewrite length_app).
  rewrite (app_assoc pre b), (IH (pre ++ b) bs' fuel) by (done || lia).
  destruct (apply_records rs r1) as [[u2|e2] r2]; [|done].
  by rewrite !length_app, Nat.add_assoc, <- !app_assoc.
Qed.

Lemma replay_file_end fuel (buf : list byte) r :
  replay_file apply_fn snapshot_lsn fuel buf (length buf) r = (Ok (length buf), r).
Proof.
  destruct fuel; cbn [replay_file]; [done|].
  rewrite bool_decide_eq_true_2; [done|]. unfold WAL_HEADER_SIZE. lia.
Qed.

(** A file of intact records. *)
Lemma replay_file_whole rs bs r :
  Forall record_ok rs → encode_records rs = Ok bs →
  replay_file apply_fn snapshot_lsn (length bs) bs 0 r =
    match apply_records rs r with
    | (Err e, r) => (Err e, r)
    | (Ok _, r) => (Ok (length bs), r)
    end.
Proof.
  intros Hok He. pose proof (replay_file_records rs bs [] [] (length bs) r Hok He
    (length_encode_records _ _ He)) as Hr.
  rewrite app_nil_r in Hr. cbn [app length Nat.add] in Hr. rewrite Hr.
  destruct (apply_records rs r) as [[u|e] r1]; [|done]. apply replay_file_end.
Qed.

(** Replaying a segment file whose last record was cut after k bytes
    applies all complete records before it in order, stops at the torn one
    without an error, and counts it as torn there exactly when its header is
    complete. *)
Lemma replay_file_torn rs bs x b k r :
  Forall record_ok rs → encode_records rs = Ok bs → record_ok x → encode_record x = Ok b →
  0 < k < length b →
  replay_file apply_fn snapshot_lsn (length (bs ++ take k b)) (bs ++ take k b) 0 r =
    match apply_records rs r with
    | (Err e, r) => (Err e, r)
    | (Ok _, r) =>
        (Ok (length bs), if bool_decide (k < WAL_HEADER_SIZE) then r else torn r)
    end.
Proof.
  intros Hok He [Hl (p & Hp & Hlen)] Hb Hk. destruct x as [lsn m]. cbn [fst snd] in *.
  assert (length (bs ++ take k b) = length bs + k) as Hlb by (rewrite length_app, length_take; lia).
  pose proof (length_encode_records _ _ He) as Hle.
  pose proof (replay_file_records rs bs [] (take k b) (length (bs ++ take k b)) r Hok He
    ltac:(lia)) as Hr.
  cbn [app length Nat.add] in Hr. rewrite Hr. clear Hr.
  destruct (apply_records rs r) as [[u|e] r1]; [|done].
  destruct (length (bs ++ take k b) - length rs) as [|fuel] eqn:Hfuel; [lia|]. cbn [replay_file].
  case_bool_decide as Hh; [rewrite bool_decide_eq_true_2; [done|lia]|].
  rewrite (bool_decide_eq_false_2 (k < _)) by lia.
  unfold encode_record in Hb. cbn [fst snd] in Hb. rewrite Hp in Hb. apply Ok_inj in Hb as <-.
  destruct (wal_header_ok lsn m p Hl) as [Hhok _]. set (h := wal_header (lsn - 1) m p) in *.
  assert (length (header_encode h) = WAL_HEADER_SIZE) as Hlh by by apply length_header_encode.
  assert (slice (length bs) (length bs + WAL_HEADER_SIZE) (bs ++ take k (header_encode h ++ p)) =
    header_encode h) as ->.
  { unfold slice. rewrite drop_app_length, Nat.add_comm, Nat.add_sub, take_take, Nat.min_l by lia.
    rewrite <- Hlh. apply take_app_length. }
  rewrite <- (app_nil_r (header_encode h)) at 1. rewrite header_decode_encode by done.
  rewrite bool_decide_eq_true_2; [done|]. rewrite length_app, Hlh in Hk.
  pose proof (payload_len_header (lsn - 1) m p Hlen) as Hpl. fold h in Hpl. lia.
Qed.

Lemma apply_records_app rs1 rs2 r :
  apply_records (rs1 ++ rs2) r =
    match apply_records rs1 r with
    | (Err e, r) => (Err e, r)
    | (Ok _, r) => apply_records rs2 r
    end.
Proof.
  revert r. induction rs1 as [|x rs1 IH]; intros r; cbn [app]; [done|].
  rewrite (apply_records_cons x (rs1 ++ rs2)), (apply_records_cons x rs1).
  destruct (apply_records [x] r) as [[u|e] r1]; [|done]. apply IH.
Qed.

End replay_facts.

(** ** The files of a log *)

(** The segments with the records they hold, in the order of their ids. *)
Abbreviation segs_t := (list (N * list (N * Mutation))) (only parsing).
Definition records (segs : segs_t) : list (N * Mutation) := concat (snd <$> segs).

Record wal_inv (w : WalManager) (segs : segs_t) : Prop := {
  wi_writer : ∃ wr pre rs, writer w = Some wr ∧ segs = pre ++ [(segment_id wr, rs)];
  wi_ids : StronglySorted N.lt (fst <$> segs);
  wi_files i bs : files (wal_disk w) !! WalSeg i = Some bs ↔
    ∃ rs, (i, rs) ∈ segs ∧ encode_records rs = Ok bs;
  wi_ok : Forall record_ok (records segs);
  wi_lsns : StronglySorted N.lt (fst <$> records segs);
  wi_current : Forall (λ x, (x.1 ≤ current_lsn w)%N) (records segs)
}.

Lemma records_app segs1 segs2 : records (segs1 ++ segs2) = records segs1 ++ records segs2.
Proof. unfold records. by rewrite fmap_app, concat_app. Qed.

Lemma encode_records_ok rs : Forall record_ok rs → ∃ bs, encode_records rs = Ok bs.
Proof.
  induction 1 as [|x rs [_ (p & Hp & _)] _ [bs IH]]; cbn [encode_records]; [eauto|].
  unfold encode_record. rewrite Hp, IH. eauto.
Qed.

Lemma wal_inv_segment w segs i rs :
  wal_inv w segs → (i, rs) ∈ segs → ∃ bs, encode_records rs = Ok bs ∧
    files (wal_disk w) !! WalSeg i = Some bs ∧ Forall record_ok rs.
Proof.
  intros Hinv Hin. assert (Forall record_ok rs) as Hok.
  { pose proof (wi_ok _ _ Hinv) as Hall. unfold records in Hall.
    rewrite Forall_concat, Forall_fmap, Forall_forall in Hall. exact (Hall _ Hin). }
  destruct (encode_records_ok rs Hok) as [bs Hbs]. exists bs. split_and!; [done| |done].
  apply (wi_files _ _ Hinv). eauto.
Qed.

(** The listing finds the segments in order. *)
Lemma wal_ids_spec w segs :
  wal_inv w segs → merge_sort N.le (wal_segment_ids (files (wal_disk w))) = fst <$> segs.
Proof.
  intros Hinv. pose proof (wi_ids _ _ Hinv) as Hsort.
  apply (StronglySorted_unique N.le).
  - apply StronglySorted_merge_sort; apply _.
  - by apply sorted_lt_le.
  - rewrite merge_sort_Permutation. apply NoDup_Permutation.
    + apply NoDup_omap_inj; [|apply NoDup_elements]. by intros [| |] [| |] ? [= ->] [= ->].
    + by apply sorted_lt_NoDup.
    + intros i. unfold wal_segment_ids. rewrite list_elem_of_omap, list_elem_of_fmap. split.
      * intros (p & Hp & Heq). destruct p as [| |j]; try done. injection Heq as ->.
        apply elem_of_elements, elem_of_dom in Hp as [bs Hbs].
        apply (wi_files _ _ Hinv) in Hbs as (rs & Hin & _). by exists (i, rs).
      * intros ([j rs] & -> & Hin). destruct (wal_inv_segment _ _ _ _ Hinv Hin) as (bs & _ & Hf & _).
        exists (WalSeg j). split; [|done]. apply elem_of_elements, elem_of_dom. eauto.
Qed.

(** ** Appending *)

Lemma wal_rotate_inv w segs wr :
  wal_inv w segs → healthy (wal_disk w) → writer w = Some wr →
  (segment_id wr + 1 < u64_modulus)%N →
  ∃ wr' w' segs', rotate_segment wr w = (Ok wr', w') ∧ wal_inv w' segs' ∧ healthy (wal_disk w') ∧
    records segs' = records segs ∧ writer w' = Some wr' ∧ current_lsn w' = current_lsn w ∧
    (segment_id wr ≤ segment_id wr' ≤ segment_id wr + 1)%N.
Proof.
  intros Hinv Hd Hw Hid. unfold rotate_segment. case_match.
  2:{ exists wr, w, segs. split_and!; try done; lia. }
  assert (u64_add (segment_id wr) 1 = segment_id wr + 1)%N as ->
    by (unfold u64_add, u64_wrap; by rewrite N.mod_small).
  pose proof Hinv as [(wr' & pre & rs & Hw' & Hsegs) Hids Hfiles Hok Hlsn Hcur].
  rewrite Hw in Hw'. injection Hw' as <-.
  assert (Forall (λ i, (i < segment_id wr + 1)%N) (fst <$> segs)) as Hmax.
  { subst segs. rewrite fmap_app in *. cbn in *. apply StronglySorted_app in Hids as (Hlt & _ & _).
    apply Forall_app. split; [|repeat constructor; lia].
    apply Forall_forall. intros i Hi. specialize (Hlt i (segment_id wr) Hi ltac:(set_solver)). lia. }
  assert (files (wal_disk w) !! WalSeg (segment_id wr + 1) = None) as Hnone.
  { destruct (files (wal_disk w) !! WalSeg (segment_id wr + 1)) as [bs|] eqn:Hf; [|done].
    apply Hfiles in Hf as (rs' & Hin & _). rewrite Forall_fmap, Forall_forall in Hmax.
    specialize (Hmax _ Hin). cbn in Hmax. lia. }
  destruct w as [mb cl sl ckl wrt mt d]. cbn in *. subst wrt.
  destruct d as [fs fl]. unfold healthy in Hd. cbn in *. subst fl.
  unfold on_wal, io_bind, io_try, open_append, syscall_files, next_fault, update. cbn. rewrite Hnone.
  eexists _, _, (segs ++ [(segment_id wr + 1, [])])%N. split; [reflexivity|].
  assert (records (segs ++ [(segment_id wr + 1, [])])%N = records segs) as Hrec
    by (rewrite records_app; cbn; by rewrite app_nil_r).
  split_and!; [|done|done|done|done|cbn; lia..]. split; cbn.
  - eexists _, segs, []. by split.
  - rewrite fmap_app. apply StronglySorted_app_2; [|done|repeat constructor]. cbn.
    intros x y Hx ->%list_elem_of_singleton. by rewrite Forall_forall in Hmax; apply Hmax.
  - intros i bs. rewrite lookup_insert. case_decide as Hi.
    + injection Hi as <-. split.
      * intros [= <-]. exists []. split; [set_solver|done].
      * intros (rs' & Hin & He). apply elem_of_app in Hin as [Hin|Hin%list_elem_of_singleton].
        -- rewrite Forall_fmap, Forall_forall in Hmax. specialize (Hmax _ Hin). cbn in Hmax. lia.
        -- injection Hin as ->. cbn in He. by injection He as <-.
    + rewrite Hfiles. split; intros (rs' & Hin & He); exists rs'; (split; [|done]); [set_solver|].
      apply elem_of_app in Hin as [?|[= -> ->]%list_elem_of_singleton]; [done|]. done.
  - by rewrite Hrec.
  - by rewrite Hrec.
  - by rewrite Hrec.
Qed.

(** Extending the open segment by one record. *)
Lemma wal_extend_inv w w' segs wr pre rs x b old :
  wal_inv w segs → segs = pre ++ [(segment_id wr, rs)] →
  encode_record x = Ok b → record_ok x → (current_lsn w < x.1)%N →
  files (wal_disk w) !! WalSeg (segment_id wr) = Some old →
  files (wal_disk w') = <[WalSeg (segment_id wr) := old ++ b]> (files (wal_disk w)) →
  (∃ wr', writer w' = Some wr' ∧ segment_id wr' = segment_id wr) → current_lsn w' = x.1 →
  wal_inv w' (pre ++ [(segment_id wr, rs ++ [x])]).
Proof.
  intros [_ Hids Hfiles Hok Hlsn Hcur] -> Hb Hx Hlt Hold Hf' (wr' & Hw' & Hid') Hc'.
  assert (records (pre ++ [(segment_id wr, rs ++ [x])]) =
    records (pre ++ [(segment_id wr, rs)]) ++ [x]) as Hrec.
  { rewrite !records_app. unfold records. cbn. by rewrite !app_nil_r, app_assoc. }
  assert (encode_records rs = Ok old) as Hrs.
  { apply Hfiles in Hold as (rs' & Hin & He). apply elem_of_app in Hin as [Hin|[= ->]%list_elem_of_singleton]; [|done].
    rewrite fmap_app in Hids. apply StronglySorted_app in Hids as (Hd & _ & _).
    assert (segment_id wr < segment_id wr)%N; [|lia]. apply Hd; [|set_solver].
    by apply (list_elem_of_fmap_2 fst) in Hin. }
  split.
  - exists wr', pre, (rs ++ [x]). by rewrite Hid'.
  - by rewrite fmap_app in *.
  - intros i bs. rewrite Hf', lookup_insert. case_decide as Hi.
    + injection Hi as <-. split.
      * intros [= <-]. exists (rs ++ [x]). split; [set_solver|].
        apply encode_records_app; [done|]. cbn [encode_records]. by rewrite Hb, app_nil_r.
      * intros (rs' & Hin & He). f_equal. apply elem_of_app in Hin as [Hin|[= ->]%list_elem_of_singleton].
        -- rewrite fmap_app in Hids. apply StronglySorted_app in Hids as (Hd & _ & _).
           assert (segment_id wr < segment_id wr)%N; [|lia]. apply Hd; [|set_solver].
           by apply (list_elem_of_fmap_2 fst) in Hin.
        -- apply (Ok_inj (E := HNSQRError)). rewrite <- He. symmetry.
           apply encode_records_app; [done|]. cbn [encode_records]. by rewrite Hb, app_nil_r.
    + rewrite Hfiles. split; intros (rs' & Hin & He); exists rs'; (split; [|done]);
        apply elem_of_app in Hin as [Hin|[= -> ->]%list_elem_of_singleton]; set_solver.
  - rewrite Hrec. apply Forall_app. split; [done|by constructor].
  - rewrite Hrec, fmap_app. apply StronglySorted_app_2; [|done|repeat constructor]. cbn.
    intros l1 l2 (y & -> & Hy)%list_elem_of_fmap ->%list_elem_of_singleton.
    rewrite Forall_forall in Hcur. specialize (Hcur y Hy). cbn in Hcur. lia.
  - rewrite Hrec, Hc'. apply Forall_app. split; [|by constructor].
    eapply Forall_impl; [exact Hcur|]. cbn. lia.
Qed.

Lemma two_writes_healthy p old b1 b2 d :
  healthy d → files d !! p = Some old →
  (let! _ := write_all p b1 in write_all p b2) d =
    (Ok tt, mkDisk (<[p := old ++ b1 ++ b2]> (files d)) []).
Proof.
  destruct d as [fs fl]. unfold healthy. cbn. intros -> Hp.
  unfold io_bind, write_all, next_fault, update. cbn. do 2 f_equal. apply map_eq. intros q.
  destruct (decide (p = q)) as [<-|Hne].
  - rewrite !lookup_alter_eq, lookup_insert_eq, Hp. cbn. by rewrite app_assoc.
  - by rewrite !lookup_alter_ne, lookup_insert_ne by done.
Qed.

(** The sync at the end of an append succeeds and covers what is written. *)
Lemma sync_target_healthy dur target w wr :
  healthy (wal_disk w) → writer w = Some wr → current_lsn w = target →
  ∃ w', sync_target_lsn dur target w = (Ok tt, w') ∧ writer w' = writer w ∧
    wal_disk w' = wal_disk w ∧ current_lsn w' = current_lsn w ∧
    (current_lsn w' ≤ last_synced_lsn w')%N.
Proof.
  intros Hd Hw Hc. unfold sync_target_lsn. rewrite Hw.
  destruct (N.leb_spec target (last_synced_lsn w)).
  { exists w. split_and!; try done. by subst. }
  unfold on_wal, sync_all. rewrite syscall_healthy by done. cbv iota beta zeta.
  eexists. split; [reflexivity|]. by split_and!.
Qed.

(** The number of the open segment. *)
Definition open_segment (w : WalManager) : N := from_option segment_id 0%N (writer w).

(** A durable append puts exactly one record with the next LSN behind the
    others and returns with everything written so far synced. *)
Lemma append_inv dur m policy w segs :
  wal_inv w segs → healthy (wal_disk w) → policy ≠ PMemory →
  (current_lsn w + 1 < u64_modulus)%N →
  (open_segment w + 1 < u64_modulus)%N →
  (∃ payload, serialize m = Ok payload ∧ lenN payload < u32_modulus)%N →
  ∃ w' segs', append dur m policy w = Some (Ok (current_lsn w + 1)%N, w') ∧
    wal_inv w' segs' ∧ healthy (wal_disk w') ∧
    records segs' = records segs ++ [((current_lsn w + 1)%N, m)] ∧
    current_lsn w' = (current_lsn w + 1)%N ∧ (current_lsn w' ≤ last_synced_lsn w')%N ∧
    (open_segment w ≤ open_segment w' ≤ open_segment w + 1)%N.
Proof.
  intros Hinv Hd Hpol Hlsn Hid (p & Hp & Hlen). unfold append.
  rewrite bool_decide_eq_false_2 by done. rewrite Hp.
  destruct (wi_writer _ _ Hinv) as (wr & _ & _ & Hw & _).
  unfold open_segment in *. rewrite Hw in *. cbn [mbind option_bind from_option] in *.
  destruct (wal_rotate_inv w segs wr Hinv Hd Hw Hid)
    as (wr1 & w1 & segs1 & Er & Hinv1 & Hd1 & Hrec1 & Hw1 & Hcur1 & Hid1).
  rewrite Er. cbv iota beta zeta. rewrite Hcur1.
  destruct (wi_writer _ _ Hinv1) as (wr2 & pre & rs & Hw2 & Hsegs1).
  rewrite Hw1 in Hw2. injection Hw2 as <-.
  destruct (wal_inv_segment w1 segs1 (segment_id wr1) rs) as (old & _ & Hfile & _);
    [done|subst; set_solver|].
  unfold on_wal at 1. rewrite (two_writes_healthy _ old _ _ _ Hd1 Hfile). cbv iota beta zeta.
  set (x := ((current_lsn w + 1)%N, m)).
  assert (record_ok x) as Hx by (split; [cbn; lia|by exists p]).
  assert (wal_header (current_lsn w) m p = wal_header (x.1 - 1) m p) as -> by (cbn; f_equal; lia).
  destruct (wal_header_ok x.1 m p (proj1 Hx)) as [_ Hl].
  set (h := wal_header (x.1 - 1) m p) in *. rewrite Hl. cbn [fst snd x].
  match goal with |- context [sync_target_lsn dur _ ?a] => set (w2 := a) end.
  assert (wal_inv w2 (pre ++ [(segment_id wr1, rs ++ [x])])) as Hinv2.
  { eapply (wal_extend_inv w1 w2 segs1 wr1 pre rs x (header_encode h ++ p) old); try done.
    - unfold encode_record. cbn [fst snd x]. by rewrite Hp.
    - rewrite Hcur1. cbn. lia.
    - eexists. split; [reflexivity|done]. }
  destruct (sync_target_healthy dur (current_lsn w + 1) w2
    (wr1 <| bytes_written ::= λ b, u64_add b (N.of_nat WAL_HEADER_SIZE + lenN p) |>))
    as (w3 & Es & Hw3 & Hdisk3 & Hc3 & Hsync); [done..|].
  rewrite Es. exists w3, (pre ++ [(segment_id wr1, rs ++ [x])]). split; [reflexivity|].
  split_and!.
  - destruct Hinv2 as [Ha Hb Hc Hdd He Hf]. split; rewrite ?Hw3, ?Hdisk3, ?Hc3; done.
  - by rewrite Hdisk3.
  - rewrite <- Hrec1, Hsegs1, !records_app. unfold records. cbn. by rewrite !app_nil_r, app_assoc.
  - by rewrite Hc3.
  - done.
  - rewrite Hw3. cbn. lia.
  - rewrite Hw3. cbn. lia.
Qed.

(** ** Truncation *)

(** Following the headers of intact records finds their greatest LSN. *)
Lemma max_segment_lsn_records rs bs pre fuel acc :
  Forall record_ok rs → encode_records rs = Ok bs → length rs ≤ fuel →
  max_segment_lsn fuel (pre ++ bs) (length pre) acc = foldl N.max acc (fst <$> rs).
Proof.
  revert pre bs fuel acc. induction rs as [|x rs IH]; intros pre bs fuel acc Hok.
  { intros [= <-] _. rewrite app_nil_r. destruct fuel; cbn [max_segment_lsn]; [done|].
    rewrite bool_decide_eq_true_2; [done|]. unfold WAL_HEADER_SIZE. lia. }
  apply Forall_cons in Hok as [[Hl (p & Hp & Hlen)] Hok]. destruct x as [lsn m]. cbn [fst snd] in *.
  cbn [encode_records]. unfold encode_record. cbn [fst snd]. rewrite Hp.
  destruct (encode_records rs) as [bs'|] eqn:Er; [|done]. intros <-%Ok_inj Hfuel.
  destruct fuel as [|fuel]; cbn [length] in Hfuel; [lia|].
  destruct (wal_header_ok lsn m p Hl) as [Hhok Hlsn].
  pose proof (payload_len_header (lsn - 1) m p Hlen) as Hpl.
  set (h := wal_header (lsn - 1) m p) in *.
  assert (length (header_encode h) = WAL_HEADER_SIZE) as Hlh by by apply length_header_encode.
  cbn [max_segment_lsn]. rewrite <- app_assoc.
  rewrite bool_decide_eq_false_2 by (rewrite !length_app, Hlh; lia).
  assert (slice (length pre) (length pre + WAL_HEADER_SIZE) (pre ++ header_encode h ++ p ++ bs') =
    header_encode h) as -> by (rewrite <- Hlh; apply slice_app_here).
  rewrite <- (app_nil_r (header_encode h)) at 1. rewrite header_decode_encode by done.
  rewrite Hlsn, Hpl. cbn [fmap list_fmap foldl fst].
  assert (length pre + WAL_HEADER_SIZE + length p = length (pre ++ header_encode h ++ p)) as ->
    by (rewrite !length_app, Hlh; lia).
  rewrite !(app_assoc _ p), (app_assoc pre). rewrite <- (IH (pre ++ header_encode h ++ p) bs' fuel); [|done|done|lia].
  by rewrite <- !app_assoc.
Qed.

Lemma foldl_max_ge l acc :
  (acc ≤ foldl N.max acc l)%N ∧ ∀ x, x ∈ l → (x ≤ foldl N.max acc l)%N.
Proof.
  revert acc. induction l as [|y l IH]; intros acc; cbn [foldl]; [split; [done|by intros x ?%not_elem_of_nil]|].
  destruct (IH (N.max acc y)) as [Ha Hl]. split; [lia|]. intros x [->|Hx]%elem_of_cons; [lia|auto].
Qed.

(** Only segments without a record above [safe_lsn] are deleted. *)
Lemma deletable_safe safe act w segs i rs :
  wal_inv w segs → (i, rs) ∈ segs → deletable safe act (files (wal_disk w)) i = true →
  (i < act)%N ∧ Forall (λ x, (x.1 ≤ safe)%N) rs.
Proof.
  intros Hinv Hin Hdel. destruct (wal_inv_segment _ _ _ _ Hinv Hin) as (bs & He & Hf & Hok).
  unfold deletable in Hdel. rewrite Hf in Hdel.
  apply andb_prop in Hdel as [Hlt%N.ltb_lt [_ Hle%N.leb_le]%andb_prop]. split; [done|].
  pose proof (max_segment_lsn_records rs bs [] (length bs) 0 Hok He
    (length_encode_records _ _ He)) as Hmax.
  cbn [app length] in Hmax. rewrite Hmax in Hle. apply Forall_forall. intros x Hx.
  etrans; [|exact Hle]. apply foldl_max_ge. by apply list_elem_of_fmap_2.
Qed.

(** The deletion loop removes the deletable segments and nothing else. *)
Lemma delete_segments_files safe act ids n d :
  healthy d → NoDup ids →
  let d' := (delete_segments safe act ids n d).2 in
  healthy d' ∧
  (∀ i, i ∈ ids → deletable safe act (files d) i = true → files d' !! WalSeg i = None) ∧
  (∀ p, (∀ i, p = WalSeg i → i ∈ ids → deletable safe act (files d) i = false) →
     files d' !! p = files d !! p).
Proof.
  cbv zeta. intros Hd Hnd. revert n d Hd.
  induction Hnd as [|i ids Hi Hnd IH]; intros n d Hd; cbn [delete_segments].
  { split_and!; [done|by intros i ?%not_elem_of_nil|done]. }
  destruct (deletable safe act (files d) i) eqn:Hdel.
  - set (d1 := (remove_file (WalSeg i) d).2).
    assert (files d1 = delete (WalSeg i) (files d) ∧ healthy d1) as [Hf1 Hd1].
    { unfold d1, remove_file, syscall_files. by rewrite next_fault_healthy. }
    assert (∀ j, j ≠ i → deletable safe act (files d1) j = deletable safe act (files d) j) as Hsame.
    { intros j Hj. unfold deletable. rewrite Hf1, lookup_delete_ne by congruence. done. }
    destruct (IH (n + 1)%N d1 Hd1) as (Hh & Hgone & Hkeep). split_and!; [done| |].
    + intros j [->|Hj]%elem_of_cons Hdj.
      * rewrite Hkeep; [rewrite Hf1; apply lookup_delete_eq|]. intros j [= <-] ?. done.
      * apply Hgone; [done|]. rewrite Hsame; [done|]. by intros ->.
    + intros p Hp. assert (p ≠ WalSeg i) as Hne.
      { intros ->. rewrite (Hp i) in Hdel; [done|done|set_solver]. }
      rewrite Hkeep; [by rewrite Hf1, lookup_delete_ne|]. intros j -> Hj.
      rewrite Hsame by congruence. apply Hp; [done|set_solver].
  - destruct (IH n d Hd) as (Hh & Hgone & Hkeep). split_and!; [done| |].
    + intros j [->|Hj]%elem_of_cons Hdj; [congruence|by apply Hgone].
    + intros p Hp. apply Hkeep. intros j -> Hj. apply Hp; [done|set_solver].
Qed.

(** The segments that stay. *)
Definition surviving safe act (fs : gmap path (list byte)) (segs : segs_t) : segs_t :=
  filter (λ s, deletable safe act fs s.1 = false) segs.

Lemma surviving_sublist safe act fs segs :
  surviving safe act fs segs `sublist_of` segs ∧
  records (surviving safe act fs segs) `sublist_of` records segs.
Proof.
  unfold surviving, records. induction segs as [|[i rs] segs [IH1 IH2]]; [done|].
  rewrite filter_cons. case_decide; cbn; split.
  - by apply sublist_skip.
  - by apply sublist_app.
  - by apply sublist_cons.
  - by apply sublist_inserts_l.
Qed.

Lemma truncate_inv safe w segs :
  wal_inv w segs → healthy (wal_disk w) →
  ∃ act, writer w = Some act ∧
    wal_inv (truncate_before safe w).2 (surviving safe (segment_id act) (files (wal_disk w)) segs) ∧
    healthy (wal_disk (truncate_before safe w).2).
Proof.
  intros Hinv Hd. destruct (wi_writer _ _ Hinv) as (wr & pre & rs & Hw & Hsegs).
  exists wr. split; [done|]. unfold truncate_before. rewrite Hw, (wal_ids_spec w segs Hinv).
  pose proof (sorted_lt_NoDup _ (wi_ids _ _ Hinv)) as Hnd.
  destruct (delete_segments_files safe (segment_id wr) (fst <$> segs) 0 (wal_disk w) Hd Hnd)
    as (Hh & Hgone & Hkeep).
  destruct (delete_segments _ _ _ _ _) as [cnt d']. cbn in *.
  set (fs := files (wal_disk w)) in *.
  destruct (surviving_sublist safe (segment_id wr) fs segs) as [Hsub Hsubr].
  pose proof Hinv as [_ Hids Hfiles Hok Hlsn Hcur]. split; [|done]. split; cbn.
  - exists wr, (surviving safe (segment_id wr) fs pre), rs. split; [done|]. subst segs.
    unfold surviving. rewrite filter_app. f_equal. rewrite filter_cons. cbn [fst].
    rewrite decide_True; [done|]. unfold deletable. by rewrite N.ltb_irrefl.
  - eapply sublist_sorted; [|exact Hids]. by apply fmap_sublist.
  - intros i bs. unfold surviving. setoid_rewrite list_elem_of_filter. cbn [fst]. split.
    + intros Hb. destruct (deletable safe (segment_id wr) fs i) eqn:Hdel.
      * exfalso. assert (is_Some (fs !! WalSeg i)) as [b Hfb].
        { unfold deletable in Hdel. destruct (fs !! WalSeg i); [eauto|]. by rewrite andb_false_r in Hdel. }
        apply Hfiles in Hfb as (rs' & Hin & _). apply (list_elem_of_fmap_2 fst) in Hin.
        rewrite (Hgone i Hin Hdel) in Hb. done.
      * rewrite Hkeep in Hb by (by intros j [= <-] _). apply Hfiles in Hb as (rs' & ? & ?). eauto.
    + intros (rs' & [Hdel Hin] & He). rewrite Hkeep by (by intros j [= <-] _). apply Hfiles. eauto.
  - by eapply sublist_Forall.
  - eapply sublist_sorted; [|exact Hlsn]. by apply fmap_sublist.
  - by eapply sublist_Forall.
Qed.

(** ** Replay of the whole log *)

Section whole_replay.
Context {St : Type} (apply_fn : N → Mutation → St → HNSQRResult unit * St) (snapshot_lsn : N).

(** Replaying intact segments applies their records in order. *)
Lemma replay_files_records fs segs r :
  (∀ i rs, (i, rs) ∈ segs → ∃ bs, encode_records rs = Ok bs ∧ fs !! WalSeg i = Some bs ∧
     Forall record_ok rs) →
  replay_files apply_fn snapshot_lsn fs (fst <$> segs) r = apply_records apply_fn snapshot_lsn (records segs) r.
Proof.
  revert r. induction segs as [|[i rs] segs IH]; intros r Hs; cbn [fmap list_fmap replay_files fst]; [done|].
  destruct (Hs i rs) as (bs & He & Hf & Hok); [apply list_elem_of_here|]. rewrite Hf.
  rewrite (replay_file_whole apply_fn snapshot_lsn rs bs) by done.
  change (records ((i, rs) :: segs)) with (rs ++ records segs). rewrite apply_records_app.
  destruct (apply_records apply_fn snapshot_lsn rs r) as [[u|e] r1]; [|done].
  rewrite bool_decide_eq_false_2 by lia. apply IH. intros j rs' Hin. apply Hs.
  by apply list_elem_of_further.
Qed.

(** Records at or below the snapshot are skipped. *)
Lemma apply_records_skip rs r :
  Forall (λ x, (x.1 ≤ snapshot_lsn)%N) rs → apply_records apply_fn snapshot_lsn rs r = (Ok tt, r).
Proof.
  induction 1 as [|[lsn m] rs Hx _ IH]; cbn [apply_records]; [done|]. cbn in Hx.
  by rewrite (proj2 (N.ltb_ge _ _)).
Qed.

(** Truncating below the snapshot does not change what replay applies. *)
Lemma apply_records_surviving safe act w segs r :
  wal_inv w segs → (safe ≤ snapshot_lsn)%N →
  apply_records apply_fn snapshot_lsn (records (surviving safe act (files (wal_disk w)) segs)) r =
    apply_records apply_fn snapshot_lsn (records segs) r.
Proof.
  intros Hinv Hsafe. set (fs := files (wal_disk w)).
  assert (∀ i rs, (i, rs) ∈ segs → deletable safe act fs i = true →
    Forall (λ x, (x.1 ≤ snapshot_lsn)%N) rs) as Hdel.
  { intros i rs Hin Hd. destruct (deletable_safe safe act w segs i rs Hinv Hin Hd) as [_ Hrs].
    eapply Forall_impl; [exact Hrs|]. cbn. lia. }
  clear Hinv. revert r. induction segs as [|[i rs] segs IH]; intros r; [done|].
  change (records ((i, rs) :: segs)) with (rs ++ records segs). unfold surviving.
  rewrite filter_cons. cbn [fst]. rewrite apply_records_app.
  assert (∀ r, apply_records apply_fn snapshot_lsn (records (surviving safe act fs segs)) r =
    apply_records apply_fn snapshot_lsn (records segs) r) as IH'.
  { apply IH. intros j rs' Hin. apply Hdel. by apply list_elem_of_further. }
  case_decide as Hd.
  - change (records ((i, rs) :: ?l)) with (rs ++ records l). rewrite apply_records_app.
    destruct (apply_records apply_fn snapshot_lsn rs r) as [[u|e] r1]; [|done]. apply IH'.
  - rewrite (apply_records_skip rs); [apply IH'|]. apply (Hdel i); [apply list_elem_of_here|].
    by apply not_false_iff_true.
Qed.

(** ** The whole replay *)

(** [replay] on a log without torn tail is the reference over all records. *)
Lemma replay_spec st w segs :
  wal_inv w segs →
  let r0 := mkReplay (mkWalRecoverySummary snapshot_lsn snapshot_lsn 0 0 (lenN segs)) snapshot_lsn st in
  replay apply_fn snapshot_lsn st w =
    match apply_records apply_fn snapshot_lsn (records segs) r0 with
    | (Err e, r) => (Err e, w, rp_state r)
    | (Ok _, r) =>
       (Ok (rp_summary r),
        w <| current_lsn := rp_highest r |> <| last_synced_lsn := rp_highest r |>
          <| metrics ::= λ m, m <| recovered_records := total_replayed (rp_summary r) |> |>,
        rp_state r)
    end.
Proof.
  intros Hinv. cbv zeta. unfold replay. rewrite (wal_ids_spec w segs Hinv).
  assert (lenN (fst <$> segs) = lenN segs) as -> by (unfold lenN; by rewrite length_fmap).
  rewrite replay_files_records; [done|]. intros i rs Hin. by eapply wal_inv_segment.
Qed.
End whole_replay.
End facts.
