(* ===== verification/WalProperties.v ===== *)
(** What a client of the write-ahead log can rely on: everything appended to a
    new log is replayed, in order and numbered from 1, after any number of
    segment rotations; truncation below a snapshot does not change what replay
    applies; and the group-commit barrier.

    Then group commit under concurrency: [append] and [sync_target_lsn] of
    src/storage/wal.rs as interleaved atomic steps.  A thread appends one record
    (its writer-lock section), then goes through [sync_target_lsn]: test
    [last_synced_lsn], take [sync_lock], test again, fsync, load [current_lsn],
    store it to [last_synced_lsn] and return.  An append may run under [Memory], may
    rotate the segment first, and a sync may fail; the model keeps the set of
    records that have reached the disk. *)

From Stdlib Require Import Strings.Byte.
From stdpp Require Import base gmap strings numbers list sorting fin_maps.
From S2P Require Import Prelude.
From S2P Require Import Codec.
From S2P Require Import FileSystem.
From S2P Require Import Wal.
From S2P Require Import WalFacts.

Section properties.
Context {V K : Type} `{!Crc32} `{!Bincode (WalMutation V K)}.
Context `{!Crc32Laws} `{!BincodeLaws (WalMutation V K)}.
Abbreviation Mutation := (WalMutation V K).

(** A client's sequence of durable appends, up to the first error. *)
Fixpoint append_all (ms : list (Mutation * DurabilityPolicy)) (w : WalManager) :
    option (HNSQRResult unit * WalManager) :=
  match ms with
  | [] => Some (Ok tt, w)
  | (m, policy) :: ms =>
      '(r, w) ← append 0 m policy w;
      match r with
      | Err e => Some (Err e, w)
      | Ok _ => append_all ms w
      end
  end.

(** The LSNs the mutations get when the log stands at [lsn]. *)
Fixpoint number_from (lsn : N) (ms : list Mutation) : list (N * Mutation) :=
  match ms with
  | [] => []
  | m :: ms => ((lsn + 1)%N, m) :: number_from (lsn + 1) ms
  end.

(** A mutation that can be logged durably. *)
Definition loggable (x : Mutation * DurabilityPolicy) : Prop :=
  x.2 ≠ PMemory ∧ ∃ payload, serialize x.1 = Ok payload ∧ (lenN payload < u32_modulus)%N.

Lemma wal_open_fresh d :
  healthy d → (∀ i, files d !! WalSeg i = None) →
  ∃ w, wal_open d = (Ok w, wal_disk w) ∧ wal_inv (V := V) (K := K) w [(1%N, [])] ∧
    healthy (wal_disk w) ∧ current_lsn w = 0%N ∧ open_segment w = 1%N.
Proof.
  intros Hd Hnone. destruct d as [fs fl]. unfold healthy in Hd. cbn in *. subst fl.
  assert (wal_segment_ids fs = []) as Hids.
  { unfold wal_segment_ids. destruct (omap _ _) as [|i l] eqn:Ho; [done|].
    assert (i ∈ i :: l) as Hi by left. rewrite <- Ho in Hi.
    apply list_elem_of_omap in Hi as (p & Hp & Heq). destruct p as [|?|j]; simplify_eq.
    apply elem_of_elements, elem_of_dom in Hp as [? Hp]. by rewrite Hnone in Hp. }
  unfold wal_open, syscall, next_fault. cbn. unfold init_active_segment. cbn. rewrite Hids. cbn.
  unfold on_wal, io_bind, open_append, syscall_files, syscall, next_fault, update. cbn.
  change (0 `max` 1)%N with 1%N. rewrite Hnone. cbn. rewrite lookup_insert_eq. cbn.
  eexists (mkWalManager _ _ _ _ _ _ _). split; [reflexivity|]. split_and!; [|done|done|done]. split; cbn.
  - by eexists _, [], [].
  - repeat constructor.
  - intros i bs. rewrite lookup_insert. case_decide as Hi.
    + injection Hi as <-. split.
      * intros [= <-]. exists []. split; [set_solver|done].
      * intros (rs & Hin%list_elem_of_singleton & He). injection Hin as ->. cbn in He. congruence.
    + rewrite Hnone. split; [done|]. intros (rs & Hin%list_elem_of_singleton & _). congruence.
  - constructor.
  - constructor.
  - constructor.
Qed.

Lemma append_all_inv ms w segs :
  wal_inv w segs → healthy (wal_disk w) → Forall loggable ms →
  (current_lsn w + lenN ms < u64_modulus)%N → (open_segment w + lenN ms < u64_modulus)%N →
  ∃ w' segs', append_all ms w = Some (Ok tt, w') ∧ wal_inv w' segs' ∧ healthy (wal_disk w') ∧
    records segs' = records segs ++ number_from (current_lsn w) ms.*1 ∧
    current_lsn w' = (current_lsn w + lenN ms)%N ∧
    (ms ≠ [] → (current_lsn w' ≤ last_synced_lsn w')%N).
Proof.
  revert w segs. induction ms as [|[m policy] ms IH]; intros w segs Hinv Hd Hok Hl Hs; cbn [append_all].
  { exists w, segs. rewrite app_nil_r. unfold lenN. cbn. by rewrite N.add_0_r. }
  apply Forall_cons in Hok as [[Hpol Hp] Hok].
  assert (lenN ((m, policy) :: ms) = lenN ms + 1)%N as Hlen by (unfold lenN; cbn [length]; lia).
  rewrite Hlen in *.
  destruct (append_inv 0 m policy w segs) as (w1 & segs1 & Ea & Hinv1 & Hd1 & Hrec & Hc & Hsync & Hid);
    [done..|lia|lia|done|].
  rewrite Ea. cbn [mbind option_bind].
  destruct (IH w1 segs1 Hinv1 Hd1 Hok) as (w2 & segs2 & Ea2 & Hinv2 & Hd2 & Hrec2 & Hc2 & Hsync2);
    [lia|lia|].
  exists w2, segs2. split_and!; [done|done|done| |lia|].
  - rewrite Hrec2, Hrec, Hc, <- app_assoc. done.
  - intros _. destruct ms as [|x ms]; [|by apply Hsync2].
    cbn in Ea2. injection Ea2 as <-. done.
Qed.

Section replaying.
Context {St : Type} (f : N → Mutation → St → St).
(** A callback that does not fail. *)
Definition total_fn (lsn : N) (m : Mutation) (st : St) : HNSQRResult unit * St := (Ok tt, f lsn m st).

Definition beyond (snapshot_lsn : N) (rs : list (N * Mutation)) : list (N * Mutation) :=
  filter (λ x, (snapshot_lsn < x.1)%N) rs.

Lemma apply_records_total snapshot_lsn rs r :
  ∃ r', apply_records total_fn snapshot_lsn rs r = (Ok tt, r') ∧
    rp_state r' = foldl (λ st x, f x.1 x.2 st) (rp_state r) (beyond snapshot_lsn rs) ∧
    rp_highest r' = foldl N.max (rp_highest r) (fst <$> beyond snapshot_lsn rs) ∧
    total_replayed (rp_summary r') =
      (total_replayed (rp_summary r) + lenN (beyond snapshot_lsn rs))%N ∧
    torn_records_skipped (rp_summary r') = torn_records_skipped (rp_summary r).
Proof.
  revert r. induction rs as [|[lsn m] rs IH]; intros r; cbn [apply_records].
  { exists r. unfold lenN. cbn. by rewrite N.add_0_r. }
  unfold beyond. destruct (N.ltb_spec snapshot_lsn lsn) as [Hlt|Hge].
  - cbn [total_fn]. rewrite filter_cons_True by done.
    match goal with |- context [apply_records _ _ rs ?r1] => destruct (IH r1) as (r' & E & H1 & H2 & H3 & H4) end.
    exists r'. rewrite E, H1, H2, H3, H4. cbn. split_and!; [done|done| | |done].
    + by rewrite (N.max_comm lsn).
    + unfold lenN, beyond. cbn [length]. lia.
  - rewrite filter_cons_False by (cbn; lia). apply IH.
Qed.

Lemma beyond_highest snapshot_lsn lsn ms :
  foldl N.max (N.max snapshot_lsn lsn) (fst <$> beyond snapshot_lsn (number_from lsn ms)) =
  N.max snapshot_lsn (lsn + lenN ms).
Proof.
  revert lsn. induction ms as [|m ms IH]; intros lsn; cbn [number_from].
  { unfold lenN. cbn. by rewrite N.add_0_r. }
  unfold beyond. replace (lsn + lenN (m :: ms))%N with (lsn + 1 + lenN ms)%N
    by (unfold lenN; cbn [length]; lia).
  rewrite <- IH. destruct (decide (snapshot_lsn < lsn + 1)%N).
  - rewrite filter_cons_True by done. cbn [fmap list_fmap foldl fst]. f_equal. lia.
  - rewrite filter_cons_False by done. f_equal. lia.
Qed.

(** C12: Every mutation appended to a fresh write-ahead log, across segment
    rotations and whatever durability policy other than Memory each uses, is
    synced by the time the appends return and is replayed in order with its LSN
    from any snapshot LSN on, with nothing reported torn and the LSN counter
    restored. *)
Theorem wal_round_trip d ms snapshot_lsn st :
  healthy d → (∀ i, files d !! WalSeg i = None) → Forall loggable ms →
  (lenN ms + 1 < u64_modulus)%N →
  ∃ w0 w1 summary w2,
    wal_open d = (Ok w0, wal_disk w0) ∧
    append_all ms w0 = Some (Ok tt, w1) ∧ (ms ≠ [] → (lenN ms ≤ last_synced_lsn w1)%N) ∧
    replay total_fn snapshot_lsn st w1 =
      (Ok summary, w2,
       foldl (λ st x, f x.1 x.2 st) st (beyond snapshot_lsn (number_from 0 ms.*1))) ∧
    torn_records_skipped summary = 0%N ∧
    total_replayed summary = lenN (beyond snapshot_lsn (number_from 0 ms.*1)) ∧
    current_lsn w2 = N.max snapshot_lsn (lenN ms).
Proof.
  intros Hd Hnone Hok Hlen.
  destruct (wal_open_fresh d Hd Hnone) as (w0 & Ho & Hinv & Hd0 & Hc & Hs).
  destruct (append_all_inv ms w0 _ Hinv Hd0 Hok) as (w1 & segs & Ea & Hinv1 & _ & Hrec & Hc1 & Hsync);
    [rewrite ?Hc, ?Hs; lia..|]. cbn [records] in Hrec. rewrite Hc in Hrec, Hc1. cbn in Hrec.
  pose proof (replay_spec total_fn snapshot_lsn st w1 segs Hinv1) as Hr. cbv zeta in Hr.
  rewrite Hrec in Hr.
  match type of Hr with context [apply_records _ _ ?rs ?r0] =>
    destruct (apply_records_total snapshot_lsn rs r0) as (r' & E & H1 & H2 & H3 & H4) end.
  rewrite E in Hr. cbn in H1, H2, H3, H4. rewrite H1 in Hr.
  eexists w0, w1, _, _. split; [exact Ho|]. split; [exact Ea|]. split_and!.
  - intros Hne. specialize (Hsync Hne). lia.
  - exact Hr.
  - exact H4.
  - exact H3.
  - cbn. rewrite H2. replace snapshot_lsn with (N.max snapshot_lsn 0) at 1 by lia.
    rewrite beyond_highest. unfold lenN. by rewrite length_fmap.
Qed.
End replaying.

(** ** Truncation *)

(** Result and final state of the reference replay do not depend on the
    counters. *)
Lemma apply_records_state {St} (apply_fn : N → Mutation → St → HNSQRResult unit * St)
    snapshot_lsn rs r1 r2 :
  rp_state r1 = rp_state r2 →
  (apply_records apply_fn snapshot_lsn rs r1).1 = (apply_records apply_fn snapshot_lsn rs r2).1 ∧
  rp_state (apply_records apply_fn snapshot_lsn rs r1).2 =
    rp_state (apply_records apply_fn snapshot_lsn rs r2).2.
Proof.
  revert r1 r2. induction rs as [|[lsn m] rs IH]; intros r1 r2 Heq; cbn [apply_records]; [done|].
  case_match; [|by apply IH]. rewrite Heq. destruct (apply_fn lsn m (rp_state r2)) as [[] st]; [|done].
  by apply IH.
Qed.

(** C13: truncate_before never loses a record past the safe LSN: the log stays
    well formed, every record with a greater LSN is still in it, and replaying
    from any snapshot at or past the safe LSN applies exactly what it would have
    applied before the truncation. *)
Theorem wal_truncate_safe {St} (apply_fn : N → Mutation → St → HNSQRResult unit * St)
    safe_lsn snapshot_lsn st w segs :
  wal_inv w segs → healthy (wal_disk w) → (safe_lsn ≤ snapshot_lsn)%N →
  let w' := (truncate_before safe_lsn w).2 in
  (∃ segs', wal_inv w' segs' ∧
     ∀ x, x ∈ records segs → (safe_lsn < x.1)%N → x ∈ records segs') ∧
  is_ok (replay apply_fn snapshot_lsn st w').1.1 = is_ok (replay apply_fn snapshot_lsn st w).1.1 ∧
  (replay apply_fn snapshot_lsn st w').2 = (replay apply_fn snapshot_lsn st w).2.
Proof.
  intros Hinv Hd Hle. cbv zeta.
  destruct (truncate_inv safe_lsn w segs Hinv Hd) as (act & Hw & Hinv' & _). split.
  { eexists. split; [exact Hinv'|]. intros x Hx Hlt. unfold records in *.
    apply list_elem_of_In, in_concat in Hx as (rs & Hrs & Hx).
    apply list_elem_of_In, list_elem_of_fmap in Hrs as ([i rs'] & -> & Hin).
    apply list_elem_of_In, in_concat. exists rs'. split; [|done].
    apply list_elem_of_In, (list_elem_of_fmap_2 snd _ (i, rs')). unfold surviving.
    apply list_elem_of_filter. split; [|done]. cbn.
    destruct (deletable _ _ _ i) eqn:Hdel; [|done].
    destruct (deletable_safe _ _ w segs i rs' Hinv Hin Hdel) as [_ Hall].
    rewrite Forall_forall in Hall. apply list_elem_of_In in Hx. specialize (Hall x Hx). cbn in Hall. lia. }
  rewrite (replay_spec apply_fn snapshot_lsn st _ _ Hinv'), (replay_spec apply_fn snapshot_lsn st w segs Hinv).
  rewrite (apply_records_surviving apply_fn snapshot_lsn safe_lsn (segment_id act) w segs _ Hinv Hle).
  match goal with |- context [apply_records _ _ (records segs) ?r1] =>
    match goal with |- context [apply_records _ _ (records segs) ?r2] =>
      assert_fails (constr_eq r1 r2);
      destruct (apply_records_state apply_fn snapshot_lsn (records segs) r1 r2 eq_refl) as [He Hs];
      destruct (apply_records _ _ _ r1) as [[] q1], (apply_records _ _ _ r2) as [[] q2] end end;
  cbn in *; by rewrite ?Hs.
Qed.
End properties.

(** ** Concurrent appends *)

(** Where a thread is inside [append] and [sync_target_lsn] *)
Inductive Pc :=
  | Idle
  | Appended (target : N)   (* record written, before the first test *)
  | Locking (target : N)    (* first test failed *)
  | Locked (target : N)     (* holds [sync_lock] *)
  | Rechecked (target : N)  (* second test failed *)
  | Fsynced (target : N)    (* [sync_data] returned *)
  | Loaded (target cur : N) (* [current_lsn] read *)
  | Done (target : N)       (* [append] returned [Ok target] *)
  | DoneMemory (lsn : N)    (* the same, under the policy [Memory] *)
  | Refused.                (* [append] returned an error *)
#[export] Instance Pc_eq_dec : EqDecision Pc.
Proof. solve_decision. Defined.

(** The records of the active segment that are not known to be on disk are in
    [sh_unsynced]; those of earlier segments are on disk or lost. *)
Record Shared := mkShared {
  sh_current_lsn : N;
  sh_unsynced : gset N;
  sh_disk : gset N;
  sh_last_synced : N;
  sh_sync_lock : option N;
  sh_pcs : gmap N Pc
}.
#[export] Instance eta_Shared : Eta Shared := λ s,
  mkShared (sh_current_lsn s) (sh_unsynced s) (sh_disk s) (sh_last_synced s) (sh_sync_lock s) (sh_pcs s).

Definition goto (t : N) (pc : Pc) (s : Shared) : Shared := s <| sh_pcs ::= <[t := pc]> |>.

(** What is not decided by the threads: the policy of an append, whether the
    active segment is full, and what the file system answers.  A failed sync leaves
    the records of its file as they are; those of a file that is closed then are
    never synced. *)
Inductive Choice :=
  | Go                          (* write to the active segment; the sync succeeds *)
  | GoMemory                    (* append under [Memory] *)
  | GoRotate (synced : bool)    (* rotate first: does [sync_all], whose error is dropped, succeed? *)
  | GoNoSegment (synced : bool) (* rotate, but the next segment cannot be opened *)
  | GoFail.                     (* [sync_data] fails *)
#[export] Instance Choice_eq_dec : EqDecision Choice.
Proof. solve_decision. Defined.

Definition fsync (s : Shared) : Shared := s <| sh_disk ::= λ d, d ∪ sh_unsynced s |> <| sh_unsynced := ∅ |>.

(** The record goes to the active segment. *)
Definition write_record (t : N) (s : Shared) : Shared :=
  let lsn := (sh_current_lsn s + 1)%N in
  goto t (Appended lsn) (s <| sh_current_lsn := lsn |> <| sh_unsynced ::= λ u, {[lsn]} ∪ u |>).

(** The next atomic step of thread [t]; [None]: it is blocked or has returned. *)
Definition thread_step (t : N) (c : Choice) (s : Shared) : option Shared :=
  match default Idle (sh_pcs s !! t), c with
  | Idle, GoMemory =>
      let lsn := (sh_current_lsn s + 1)%N in Some (goto t (DoneMemory lsn) (s <| sh_current_lsn := lsn |>))
  | Idle, GoRotate synced =>
      Some (write_record t ((if synced then fsync s else s) <| sh_unsynced := ∅ |>))
  | Idle, GoNoSegment synced => Some (goto t Refused (if synced then fsync s else s))
  | Idle, _ => Some (write_record t s)
  | Appended g, _ =>
      Some (goto t (if (g <=? sh_last_synced s)%N then Done g else Locking g) s)
  | Locking g, _ =>
      match sh_sync_lock s with
      | None => Some (goto t (Locked g) (s <| sh_sync_lock := Some t |>))
      | Some _ => None
      end
  | Locked g, _ =>
      Some (if (g <=? sh_last_synced s)%N
            then goto t (Done g) (s <| sh_sync_lock := None |>)
            else goto t (Rechecked g) s)
  | Rechecked g, GoFail => Some (goto t Refused (s <| sh_sync_lock := None |>))
  | Rechecked g, _ => Some (goto t (Fsynced g) (fsync s))
  | Fsynced g, _ => Some (goto t (Loaded g (sh_current_lsn s)) s)
  | Loaded g cur, _ =>
      Some (goto t (Done g) (s <| sh_last_synced := cur |> <| sh_sync_lock := None |>))
  | (Done _ | DoneMemory _ | Refused), _ => None
  end.

(** A schedule: the threads in the order in which they take steps. *)
Fixpoint run (ts : list (N * Choice)) (s : Shared) : option Shared :=
  match ts with
  | [] => Some s
  | (t, c) :: ts => s ← thread_step t c s; run ts s
  end.

Definition fresh_log : Shared := mkShared 0 ∅ ∅ 0 None ∅.

(** No record is appended between a sync and the load that follows it, and the
    sync of a segment that is rotated out does not fail. *)
Definition between_sync_and_load (pc : Pc) : bool := match pc with Fsynced _ => true | _ => false end.
Definition quiet_step (t : N) (c : Choice) (s : Shared) : bool :=
  negb (bool_decide (c = GoRotate false)) &&
  (negb (bool_decide (default Idle (sh_pcs s !! t) = Idle)) || bool_decide (c = GoMemory) ||
   bool_decide (map_Forall (λ _ pc, between_sync_and_load pc = false) (sh_pcs s))).

Fixpoint quiet (ts : list (N * Choice)) (s : Shared) : bool :=
  match ts with
  | [] => true
  | (t, c) :: ts => quiet_step t c s && match thread_step t c s with Some s' => quiet ts s' | None => true end
  end.

Lemma quiet_step_spec t c s : quiet_step t c s = true →
  (default Idle (sh_pcs s !! t) = Idle → c ≠ GoMemory → ∀ t' g, sh_pcs s !! t' ≠ Some (Fsynced g)) ∧ c ≠ GoRotate false.
Proof.
  unfold quiet_step. intros [H1 H2]%andb_true_iff. split; [|by intros ->].
  intros Hidle Hc t' g Ht. rewrite (bool_decide_true _ Hidle), (bool_decide_false _ Hc) in H2.
  apply bool_decide_eq_true in H2. by specialize (H2 t' _ Ht).
Qed.

(** What each program point knows. *)
Definition pc_ok (s : Shared) (pc : Pc) : Prop :=
  match pc with
  | Idle | DoneMemory _ | Refused => True
  | Appended g | Locking g | Locked g | Rechecked g => g ∈ sh_disk s ∪ sh_unsynced s
  | Fsynced g => g ∈ sh_disk s ∧ sh_unsynced s = ∅
  | Loaded g cur => g ∈ sh_disk s ∧ (cur ≤ sh_current_lsn s)%N ∧ ∀ r, r ∈ sh_unsynced s → (cur < r)%N
  | Done g => g ∈ sh_disk s
  end.

Record sync_inv (s : Shared) : Prop := {
  si_order : (sh_last_synced s ≤ sh_current_lsn s)%N;
  si_unsynced r : r ∈ sh_unsynced s → (sh_last_synced s < r)%N;
  si_pcs t pc : sh_pcs s !! t = Some pc → pc_ok s pc
}.

Lemma sync_inv_goto t pc s :
  sync_inv s → pc_ok s pc → sync_inv (goto t pc s).
Proof.
  intros [Ho Hu Hp] Hpc. split; [done|done|]. cbn. intros t' pc'. rewrite lookup_insert.
  case_decide; [intros [= <-]; by destruct pc|]. intros Ht. specialize (Hp _ _ Ht). by destruct pc'.
Qed.

(** A change of the shared state that every program point survives. *)
Lemma sync_inv_shared s s' :
  sync_inv s → sh_pcs s' = sh_pcs s → (sh_last_synced s' ≤ sh_current_lsn s')%N →
  (∀ r, r ∈ sh_unsynced s' → (sh_last_synced s' < r)%N) →
  (∀ t pc, sh_pcs s !! t = Some pc → pc_ok s pc → pc_ok s' pc) → sync_inv s'.
Proof. intros [Ho Hu Hp] Heq Ho' Hu' Hmono. split; [done|done|]. rewrite Heq. eauto. Qed.

Lemma sync_inv_fsync s : sync_inv s → sync_inv (fsync s).
Proof.
  intros Hinv. apply (sync_inv_shared s); [done|done|apply Hinv|cbn; set_solver|].
  intros t [] _; cbn; set_solver.
Qed.

Lemma sync_inv_write t s :
  sync_inv s → (∀ t' g, sh_pcs s !! t' ≠ Some (Fsynced g)) → sync_inv (write_record t s).
Proof.
  intros Hinv Hno. pose proof Hinv as [Ho Hu Hp]. apply sync_inv_goto; [|cbn; set_solver].
  apply (sync_inv_shared s); cbn; [done|done|lia| |].
  - intros r [->%elem_of_singleton|Hr]%elem_of_union; [lia|]. by apply Hu.
  - intros t' [] Ht' Hok; cbn in *; try set_solver.
    destruct Hok as (H1 & H2 & H3). split_and!; [done|lia|].
    intros r [->%elem_of_singleton|Hr]%elem_of_union; [lia|]. by apply H3.
Qed.

Lemma on_disk g s : sync_inv s → g ∈ sh_disk s ∪ sh_unsynced s → (g ≤ sh_last_synced s)%N → g ∈ sh_disk s.
Proof. intros [_ Hu _] [?|Hg%Hu]%elem_of_union Hle; [done|lia]. Qed.

Lemma default_pc s t : default Idle (sh_pcs s !! t) ≠ Idle →
  sh_pcs s !! t = Some (default Idle (sh_pcs s !! t)).
Proof. by destruct (sh_pcs s !! t). Qed.

Lemma sync_inv_idle t c s s' :
  sync_inv s → quiet_step t c s = true → default Idle (sh_pcs s !! t) = Idle → thread_step t c s = Some s' → sync_inv s'.
Proof.
  intros Hinv [Hq Hrot]%quiet_step_spec Hidle. specialize (Hq Hidle). unfold thread_step. rewrite Hidle.
  destruct c as [| |synced|synced|]; intros [= <-].
  - apply sync_inv_write; [done|by apply Hq].
  - apply sync_inv_goto; [|done]. apply (sync_inv_shared s); cbn; [done|done| |apply Hinv|].
    + pose proof (si_order _ Hinv). lia.
    + intros t' [] _; cbn; try done. intros (? & ? & ?). split_and!; [done|lia|done].
  - destruct synced; [|done]. apply sync_inv_write; [by apply sync_inv_fsync|by apply Hq].
  - apply sync_inv_goto; [|done]. destruct synced; [by apply sync_inv_fsync|done].
  - apply sync_inv_write; [done|by apply Hq].
Qed.

Lemma sync_inv_step t c s s' :
  sync_inv s → quiet_step t c s = true → thread_step t c s = Some s' → sync_inv s'.
Proof.
  intros Hinv Hq. destruct (decide (default Idle (sh_pcs s !! t) = Idle)) as [Hi|Hi]; [by eapply sync_inv_idle|].
  pose proof Hinv as [Ho Hu Hp]. specialize (Hp t _ (default_pc s t Hi)). clear Hq. unfold thread_step.
  destruct (default Idle (sh_pcs s !! t)) as [|g|g|g|g|g|g cur|g|g|]; try done; cbn in Hp.
  - intros [= <-]. apply sync_inv_goto; [done|]. destruct (N.leb_spec g (sh_last_synced s)); cbn; [by apply on_disk|done].
  - destruct (sh_sync_lock s); [done|]. intros [= <-]. apply sync_inv_goto; [|done]. by apply (sync_inv_shared s).
  - intros [= <-]. destruct (N.leb_spec g (sh_last_synced s)); apply sync_inv_goto; try done.
    + by apply (sync_inv_shared s).
    + cbn. by apply on_disk.
  - destruct c; intros [= <-].
    all: (apply sync_inv_goto; [by apply sync_inv_fsync|split; [done|done]]) ||
         (apply sync_inv_goto; [by apply (sync_inv_shared s)|done]).
  - intros [= <-]. apply sync_inv_goto; [done|]. destruct Hp as [Hg Hempty]. cbn. rewrite Hempty. set_solver by lia.
  - intros [= <-]. destruct Hp as (Hg & Hc & Hlt). apply sync_inv_goto; [|done]. by apply (sync_inv_shared s).
Qed.

Lemma sync_inv_run ts : ∀ s s', sync_inv s → quiet ts s = true → run ts s = Some s' → sync_inv s'.
Proof.
  induction ts as [|[t c] ts IH]; intros s s' Hinv; cbn [quiet run]; [by intros _ [= <-]|].
  intros [Hq Hrest]%andb_true_iff. destruct (thread_step t c s) as [s1|] eqn:Es; [|done]. cbn.
  apply IH; [|done]. by eapply sync_inv_step.
Qed.

Lemma sync_inv_fresh : sync_inv fresh_log.
Proof. split; cbn; [lia|set_solver|]. intros t pc. by rewrite lookup_empty. Qed.


(** Thread 1 writes a record; thread 2's append rotates the segment and thread 3
    appends under [Memory] before thread 1 syncs. *)
Definition rotating : list (N * Choice) :=
  [(1, Go); (2, GoRotate true); (1, Go); (1, Go); (1, Go); (3, GoMemory); (1, GoFail); (2, Go); (2, Go); (2, Go); (2, Go);
   (2, Go); (2, Go)]%N.


(** Without the first assumption the barrier does not hold: thread 2 appends right
    after thread 1's fsync and before thread 1 loads [current_lsn]; its [append] has
    returned for LSN 2 while the disk has LSN 1 only. *)
Definition race : list (N * Choice) := (λ t, (t, Go)) <$> [1; 1; 1; 1; 1; 2; 1; 1; 2]%N.
Theorem group_commit_race :
  match run race fresh_log with
  | Some s => sh_pcs s !! 2%N = Some (Done 2) ∧ sh_disk s = {[1%N]} ∧ sh_last_synced s = 2%N
  | None => False
  end.
Proof. vm_compute. by split_and!. Qed.

(** Nor without the second: the segment of thread 1's record is rotated out by
    thread 2, the error of its sync is dropped, and thread 1 syncs the new segment. *)
Example rotation_error_dropped :
  match run [(1, Go); (2, GoRotate false); (1, Go); (1, Go); (1, Go); (1, Go); (1, Go); (1, Go)]%N fresh_log with
  | Some s => sh_pcs s !! 1%N = Some (Done 1) ∧ sh_disk s = {[2%N]}
  | None => False
  end.
Proof. vm_compute. by split_and!. Qed.
