(* ===== verification/Pending.v ===== *)
(** The bounded registry of in-flight proposals (src/consensus/pending.rs).

    A [tokio::sync::oneshot] channel is a cell of the table [channels]: it is
    [Waiting] until its sender resolves it or is dropped.  The registry's
    invariant [wf] says that the waiting cells are exactly those whose sender
    is stored in a pending entry, and that no two entries share a sender: no
    proposal is lost, and none is resolved twice. *)

From S2P Require Import Prelude RaftTypes.
From stdpp Require Import base gmap strings numbers list fin_maps.

Inductive Oneshot := Waiting | Resolved (r : ProposalOutcome) | Dropped.

Record PendingEntry := mkPendingEntry {
  sender : N;
  pe_mutation_id : MutationId;
  created_at : N
}.

Record PendingProposals := mkPendingProposals {
  entries : gmap ProposalId PendingEntry;
  max_capacity : N;
  channels : gmap N Oneshot;
  next_channel : N
}.

#[export] Instance eta_PendingProposals : Eta PendingProposals := λ p,
  mkPendingProposals (entries p) (max_capacity p) (channels p) (next_channel p).

Implicit Types (p : PendingProposals) (pid : ProposalId).

(** [PendingProposals::new] and its [Default]. *)
Definition pending_new (max_cap : N) : PendingProposals :=
  mkPendingProposals ∅ max_cap ∅ 0.
Definition pending_default : PendingProposals := pending_new 65536.

Definition pending_len p : N := N.of_nat (size (entries p)).
Definition pending_is_empty p : bool := bool_decide (entries p = ∅).

(** [oneshot::channel()] *)
Definition channel p : N * PendingProposals :=
  (next_channel p,
   p <| channels ::= <[next_channel p := Waiting]> |>
     <| next_channel ::= N.succ |>).

(** [Sender::send] consumes the sender. *)
Definition send (ch : N) (r : ProposalOutcome) p : PendingProposals :=
  p <| channels ::= <[ch := Resolved r]> |>.

(** Dropping an entry drops its sender. *)
Definition drop_entry (old : option PendingEntry) p : PendingProposals :=
  match old with
  | Some e => p <| channels ::= <[sender e := Dropped]> |>
  | None => p
  end.

(** [register]: at time [now]; [HashMap::insert] replaces (and drops) an entry
    already stored under the same id. *)
Definition register pid (m : MutationId) (now : N) p :
    HNSQRResult N * PendingProposals :=
  if (max_capacity p <=? pending_len p)%N
  then (Err (Internal "Pending proposals queue saturated"), p) else
  let '(ch, p) := channel p in
  let old := entries p !! pid in
  let p := p <| entries ::= <[pid := mkPendingEntry ch m now]> |> in
  (Ok ch, drop_entry old p).

(** [complete_applied]; [None] is the failed assertion of [new_verified]. *)
Definition complete_applied pid (term applied_index topology_epoch : N)
    (durability : DurabilityLevel) p : option (bool * PendingProposals) :=
  match entries p !! pid with
  | Some e =>
      let p := p <| entries ::= delete pid |> in
      receipt ← new_verified (pe_mutation_id e) term (p_log_index pid)
                  applied_index topology_epoch durability;
      Some (true, send (sender e) (Ok receipt) p)
  | None => Some (false, p)
  end.

Definition fail_proposal pid (error : ApplyError) p : bool * PendingProposals :=
  match entries p !! pid with
  | Some e => (true, send (sender e) (Err error) (p <| entries ::= delete pid |>))
  | None => (false, p)
  end.

Definition leadership_lost (current_term : N) (d : ProposalId * PendingEntry) :
    ApplyError :=
  LeadershipLost (pe_mutation_id d.2) current_term (p_log_index d.1) Unknown.

(** Resolving a list of removed entries outside the lock. *)
Definition send_all (f : ProposalId * PendingEntry → ApplyError)
    (ds : list (ProposalId * PendingEntry)) p : PendingProposals :=
  foldl (λ p d, send (sender d.2) (Err (f d)) p) p ds.

Definition cancel_all_leadership_lost (current_term : N) p : N * PendingProposals :=
  let drained := map_to_list (entries p) in
  let p := p <| entries := ∅ |> in
  (lenN drained, send_all (leadership_lost current_term) drained p).

(** [now.duration_since(entry.created_at) > timeout]; [duration_since]
    saturates at zero. *)
Definition timed_out (now timeout : N) (e : PendingEntry) : bool :=
  (timeout <? now - created_at e)%N.

Definition prune_timeouts (now timeout : N) p : N * PendingProposals :=
  let expired := filter (λ d, timed_out now timeout d.2 = true) (map_to_list (entries p)) in
  let p := foldl (λ p d, p <| entries ::= delete d.1 |>) p expired in
  (lenN expired, send_all (λ d, ProposalTimedOut d.1) expired p).

(** ** Invariant *)

Record wf p : Prop := {
  wf_waiting ch : channels p !! ch = Some Waiting ↔
    ∃ pid e, entries p !! pid = Some e ∧ sender e = ch;
  wf_inj pid1 pid2 e1 e2 : entries p !! pid1 = Some e1 → entries p !! pid2 = Some e2 →
    sender e1 = sender e2 → pid1 = pid2;
  wf_fresh ch : is_Some (channels p !! ch) → (ch < next_channel p)%N;
  wf_bound : (pending_len p ≤ max_capacity p)%N
}.

Lemma wf_new c : wf (pending_new c).
Proof.
  split; cbn.
  - intros ch. rewrite lookup_empty. split; [done|]. intros (?&?&?&?). simplify_map_eq.
  - intros. simplify_map_eq.
  - intros ch [? Hl]. simplify_map_eq.
  - unfold pending_len. cbn. rewrite map_size_empty. lia.
Qed.

(** Removing an entry and resolving or dropping its channel keeps the invariant. *)
Lemma wf_remove p pid e v :
  wf p → entries p !! pid = Some e → v ≠ Waiting →
  wf (p <| entries ::= delete pid |> <| channels ::= <[sender e := v]> |>).
Proof.
  intros [Hw Hi Hf Hb] He Hv. split; cbn.
  - intros ch. destruct (decide (sender e = ch)) as [<-|Hne].
    + rewrite lookup_insert_eq. split; [congruence|].
      intros (pid' & e' & Hl & Hs). apply lookup_delete_Some in Hl as [Hne Hl].
      destruct Hne. by eapply Hi.
    + rewrite lookup_insert_ne by done. rewrite Hw. split.
      * intros (pid' & e' & Hl & Hs). exists pid', e'. split; [|done].
        rewrite lookup_delete_ne; [done|]. intros ->. congruence.
      * intros (pid' & e' & [_ Hl]%lookup_delete_Some & Hs). eauto.
  - intros pid1 pid2 e1 e2 [_ H1]%lookup_delete_Some [_ H2]%lookup_delete_Some. by apply Hi.
  - intros ch. destruct (decide (sender e = ch)) as [<-|Hne]; intros Hs.
    + apply Hf. eexists. apply Hw. eauto.
    + rewrite lookup_insert_ne in Hs by done. by apply Hf.
  - revert Hb. unfold pending_len. cbn. rewrite map_size_delete_Some by eauto. lia.
Qed.

(** The fresh channel of a new entry. *)
Lemma wf_sender_fresh p pid e :
  wf p → entries p !! pid = Some e → sender e ≠ next_channel p.
Proof.
  intros [Hw _ Hf _] He Heq. assert (is_Some (channels p !! sender e)) as Hs.
  { eexists. apply Hw. eauto. }
  apply Hf in Hs. lia.
Qed.

Lemma wf_insert_fresh p pid m now :
  wf p → entries p !! pid = None → (pending_len p < max_capacity p)%N →
  wf (p <| channels ::= <[next_channel p := Waiting]> |>
        <| next_channel ::= N.succ |>
        <| entries ::= <[pid := mkPendingEntry (next_channel p) m now]> |>).
Proof.
  intros Hwf Hnone Hcap. pose proof Hwf as [Hw Hi Hf Hb]. split; cbn.
  - intros ch. rewrite lookup_insert. case_decide; subst.
    { split; [|done]. intros _. eexists pid, _. by rewrite lookup_insert_eq. }
    rewrite Hw. split.
    + intros (i & e & Hl & Hs). exists i, e. rewrite lookup_insert_ne; [done|]. intros ->. congruence.
    + intros (i & e & [[<- <-]|[Hne Hl]]%lookup_insert_Some & Hs); [done|eauto].
  - intros i j e1 e2 H1 H2 Hs.
    apply lookup_insert_Some in H1 as [[<- <-]|[? H1]];
      apply lookup_insert_Some in H2 as [[<- <-]|[? H2]]; cbn in *; try done.
    + by apply (wf_sender_fresh p) in H2.
    + by apply (wf_sender_fresh p) in H1.
    + by eapply Hi.
  - intros ch. rewrite lookup_insert. case_decide; intros Hs; [lia|].
    specialize (Hf ch Hs). lia.
  - unfold pending_len in *. cbn. rewrite map_size_insert_None by done. lia.
Qed.

Lemma wf_register pid m now p r p' : wf p → register pid m now p = (r, p') → wf p'.
Proof.
  intros Hwf. unfold register.
  destruct (N.leb_spec (max_capacity p) (pending_len p)) as [|Hcap]; [congruence|].
  cbn. intros [= <- <-].
  destruct (entries p !! pid) as [old|] eqn:Eold; [|by apply wf_insert_fresh].
  pose proof (wf_sender_fresh _ _ _ Hwf Eold) as Hne.
  pose proof (wf_remove p pid old Dropped Hwf Eold ltac:(done)) as Hrm.
  apply (wf_insert_fresh _ pid m now) in Hrm; cbn in *.
  - unfold drop_entry, update in *. cbn in *.
    by rewrite insert_delete_eq, insert_insert_ne in Hrm by done.
  - apply lookup_delete_eq.
  - unfold pending_len in *. cbn. rewrite map_size_delete_Some by eauto. lia.
Qed.

Lemma wf_complete_applied pid t a ep d p b p' :
  wf p → complete_applied pid t a ep d p = Some (b, p') → wf p'.
Proof.
  unfold complete_applied. intros Hwf. destruct (entries p !! pid) as [e|] eqn:He; [|congruence].
  destruct (new_verified _ _ _ _ _ _); [|done]. intros [= <- <-]. by apply wf_remove.
Qed.

Lemma wf_fail_proposal pid err p : wf p → wf (fail_proposal pid err p).2.
Proof.
  unfold fail_proposal. intros Hwf. destruct (entries p !! pid) as [e|] eqn:He; [|done].
  by apply wf_remove.
Qed.

(** Removing a batch of entries one at a time. *)
Definition remove_all (f : ProposalId * PendingEntry → ApplyError)
    (ds : list (ProposalId * PendingEntry)) p : PendingProposals :=
  foldl (λ p d, p <| entries ::= delete d.1 |>
                  <| channels ::= <[sender d.2 := Resolved (Err (f d))]> |>) p ds.

Lemma send_all_entries f ds p g :
  send_all f ds (p <| entries ::= g |>) = (send_all f ds p) <| entries ::= g |>.
Proof.
  revert p. induction ds as [|d ds IH]; intros p; [done|].
  exact (IH (send (sender d.2) (Err (f d)) p)).
Qed.

(** Deleting all keys first and resolving afterwards is the same. *)
Lemma remove_all_split f ds p :
  send_all f ds (foldl (λ p d, p <| entries ::= delete d.1 |>) p ds) = remove_all f ds p.
Proof.
  revert p. induction ds as [|d ds IH]; intros p; [done|].
  cbn [foldl remove_all]. unfold remove_all in *. cbn [foldl]. rewrite <- IH.
  change (send_all f (d :: ds) ?q) with (send_all f ds (send (sender d.2) (Err (f d)) q)).
  f_equal. generalize (p <| entries ::= delete d.1 |>). clear IH p.
  induction ds as [|d' ds IHds]; intros p; [done|].
  exact (IHds (p <| entries ::= delete d'.1 |>)).
Qed.

Definition drained_from (ds : list (ProposalId * PendingEntry)) p : Prop :=
  NoDup ds.*1 ∧ ∀ d, d ∈ ds → entries p !! d.1 = Some d.2.

Lemma drained_all p : drained_from (map_to_list (entries p)) p.
Proof.
  split; [apply NoDup_fst_map_to_list|]. intros [i e] Hd. by apply elem_of_map_to_list.
Qed.

Lemma drained_filter (P : ProposalId * PendingEntry → Prop) `{!∀ d, Decision (P d)} ds p :
  drained_from ds p → drained_from (filter P ds) p.
Proof.
  intros [Hnd Hin]. split.
  - eapply sublist_NoDup; [done|]. apply fmap_sublist, sublist_filter.
  - intros d [_ Hd]%list_elem_of_filter. auto.
Qed.

Lemma remove_all_spec f ds p :
  wf p → drained_from ds p →
  wf (remove_all f ds p) ∧
  (∀ i, entries (remove_all f ds p) !! i =
     if decide (i ∈ ds.*1) then None else entries p !! i) ∧
  (∀ d, d ∈ ds → channels (remove_all f ds p) !! sender d.2 = Some (Resolved (Err (f d)))) ∧
  (∀ ch, (∀ d, d ∈ ds → sender d.2 ≠ ch) →
     channels (remove_all f ds p) !! ch = channels p !! ch).
Proof.
  revert p. induction ds as [|d ds IH]; intros p Hwf [Hnd Hin].
  { split_and!; [done|done|by intros ? ?%elem_of_nil|done]. }
  apply NoDup_cons in Hnd as [Hd Hnd].
  assert (entries p !! d.1 = Some d.2) as Hd1 by (apply Hin; left).
  assert (∀ d', d' ∈ ds → sender d'.2 ≠ sender d.2) as Hsd.
  { intros d' Hd' Heq. apply Hd.
    rewrite (wf_inj p Hwf d.1 d'.1 d.2 d'.2); [by apply list_elem_of_fmap_2|done| |done].
    apply Hin. by right. }
  destruct (IH (p <| entries ::= delete d.1 |>
                  <| channels ::= <[sender d.2 := Resolved (Err (f d))]> |>)) as (H1 & H2 & H3 & H4).
  { by apply wf_remove. }
  { split; [done|]. intros d' Hd'. cbn. rewrite lookup_delete_ne; [apply Hin; by right|].
    intros Heq. apply Hd. rewrite Heq. by apply list_elem_of_fmap_2. }
  split_and!; [done|..].
  - intros i. cbn [foldl remove_all]. rewrite H2. cbn. rewrite lookup_delete.
    repeat case_decide; set_solver.
  - intros d' [->|Hd']%elem_of_cons; [|by apply H3].
    rewrite H4 by done. cbn. apply lookup_insert_eq.
  - intros ch Hch. rewrite H4 by (intros; apply Hch; by right). cbn.
    rewrite lookup_insert_ne; [done|]. apply Hch. left.
Qed.

(** Deleting every key of a map empties it. *)
Lemma delete_all_empty (m : gmap ProposalId PendingEntry) :
  foldl (λ m (d : ProposalId * PendingEntry), delete d.1 m) m (map_to_list m) = ∅.
Proof.
  assert (∀ i (ds : list (ProposalId * PendingEntry)) (m : gmap ProposalId PendingEntry),
    i ∈ ds.*1 ∨ m !! i = None →
    foldl (λ m (d : ProposalId * PendingEntry), delete d.1 m) m ds !! i = None) as Hdel.
  { intros i. induction ds as [|d ds IH]; intros m' Hm; cbn in *; [set_solver|].
    apply IH. rewrite lookup_delete. case_decide; set_solver. }
  apply map_eq. intros i. rewrite lookup_empty. apply Hdel.
  destruct (m !! i) as [e|] eqn:Hi; [left|by right].
  apply (list_elem_of_fmap_2 fst _ (i, e)). by apply elem_of_map_to_list.
Qed.

Lemma delete_all_frame (ds : list (ProposalId * PendingEntry)) p :
  foldl (λ p d, p <| entries ::= delete d.1 |>) p ds =
  p <| entries := foldl (λ m (d : ProposalId * PendingEntry), delete d.1 m) (entries p) ds |>.
Proof.
  revert p. induction ds as [|d ds IH]; intros p; [by destruct p|]. cbn [foldl]. by rewrite IH.
Qed.

Lemma cancel_all_as_removal t p :
  (cancel_all_leadership_lost t p).2 =
  remove_all (leadership_lost t) (map_to_list (entries p)) p.
Proof.
  unfold cancel_all_leadership_lost. cbn [snd].
  by rewrite <- remove_all_split, delete_all_frame, delete_all_empty.
Qed.

Lemma prune_as_removal now timeout p :
  (prune_timeouts now timeout p).2 =
  remove_all (λ d, ProposalTimedOut d.1)
    (filter (λ d, timed_out now timeout d.2 = true) (map_to_list (entries p))) p.
Proof. unfold prune_timeouts. cbn [snd]. apply remove_all_split. Qed.

(** ** Every operation of the registry as a step *)

Inductive pending_step : PendingProposals → PendingProposals → Prop :=
  | step_register p p' pid m now r :
      register pid m now p = (r, p') → pending_step p p'
  | step_complete p p' pid t a ep d b :
      complete_applied pid t a ep d p = Some (b, p') → pending_step p p'
  | step_fail p pid err : pending_step p (fail_proposal pid err p).2
  | step_cancel p t : pending_step p (cancel_all_leadership_lost t p).2
  | step_prune p now timeout : pending_step p (prune_timeouts now timeout p).2.

Lemma wf_step p p' : wf p → pending_step p p' → wf p'.
Proof.
  intros Hwf. destruct 1 as [| | |? t|? now timeout].
  - by eapply wf_register.
  - by eapply wf_complete_applied.
  - by apply wf_fail_proposal.
  - rewrite cancel_all_as_removal. by apply remove_all_spec, drained_all.
  - rewrite prune_as_removal. by apply remove_all_spec, drained_filter, drained_all.
Qed.

(** Resolving entry [pid] leaves a channel that is not waiting alone. *)
Lemma settled_remove p pid e v ch w :
  wf p → entries p !! pid = Some e → channels p !! ch = Some w → w ≠ Waiting →
  <[sender e := v]> (channels p) !! ch = Some w.
Proof.
  intros Hwf He Hch Hw. rewrite lookup_insert_ne; [done|]. intros <-.
  assert (channels p !! sender e = Some Waiting) by (apply Hwf; eauto). congruence.
Qed.

Lemma settled_step p p' ch w :
  wf p → pending_step p p' → channels p !! ch = Some w → w ≠ Waiting →
  channels p' !! ch = Some w.
Proof.
  intros Hwf Hs Hch Hw. destruct Hs as [p p' pid m now r Hr|p p' pid t a ep d b Hc|p pid err|p t|p now timeout].
  - unfold register in Hr. destruct (_ <=? _)%N; [congruence|]. cbn in Hr. injection Hr as <- <-.
    assert (ch ≠ next_channel p) as Hne.
    { intros ->. assert (is_Some (channels p !! next_channel p)) as Hl%Hwf by eauto. lia. }
    destruct (entries p !! pid) as [old|] eqn:Eold; cbn.
    + rewrite lookup_insert_ne; [by rewrite lookup_insert_ne|].
      intros <-. assert (channels p !! sender old = Some Waiting) by (apply Hwf; eauto). congruence.
    + by rewrite lookup_insert_ne.
  - unfold complete_applied in Hc. destruct (entries p !! pid) eqn:He; [|congruence].
    destruct (new_verified _ _ _ _ _ _); [|done]. injection Hc as <- <-. cbn. by eapply settled_remove.
  - unfold fail_proposal. destruct (entries p !! pid) eqn:He; cbn; [|done]. by eapply settled_remove.
  - rewrite cancel_all_as_removal.
    destruct (remove_all_spec (leadership_lost t) _ p Hwf (drained_all p)) as (_ & _ & _ & ->); [done|].
    intros d Hd <-. apply drained_all in Hd.
    assert (channels p !! sender d.2 = Some Waiting) by (apply Hwf; eauto). congruence.
  - rewrite prune_as_removal.
    pose proof (drained_filter (λ d, timed_out now timeout d.2 = true) _ p (drained_all p)) as Hdr.
    destruct (remove_all_spec (λ d, ProposalTimedOut d.1) _ p Hwf Hdr) as (_ & _ & _ & ->); [done|].
    intros d Hd <-. apply Hdr in Hd.
    assert (channels p !! sender d.2 = Some Waiting) by (apply Hwf; eauto). congruence.
Qed.

Lemma wf_run p p' : wf p → rtc pending_step p p' → wf p'.
Proof. intros Hwf Hr. induction Hr; eauto using wf_step. Qed.

Lemma settled_run p p' ch w :
  wf p → rtc pending_step p p' → channels p !! ch = Some w → w ≠ Waiting →
  channels p' !! ch = Some w.
Proof.
  intros Hwf Hr. induction Hr as [|p1 p2 p3 Hs Hr IH]; [done|]. intros Hch Hw.
  apply IH; [by eapply wf_step|by eapply settled_step|done].
Qed.

Lemma remove_all_capacity f ds p : max_capacity (remove_all f ds p) = max_capacity p.
Proof.
  revert p. induction ds as [|d ds IH]; intros p; [done|]. unfold remove_all in *. cbn. by rewrite IH.
Qed.

Lemma capacity_step p p' : pending_step p p' → max_capacity p' = max_capacity p.
Proof.
  intros Hs. destruct Hs as [p p' pid m now r E|p p' pid t a ep d b E|p pid err|p t|p now timeout].
  - unfold register in E. destruct (_ <=? _)%N; [congruence|]. cbn in E. injection E as <- <-.
    by destruct (entries p !! pid).
  - unfold complete_applied in E. destruct (entries p !! pid); [|congruence].
    destruct (new_verified _ _ _ _ _ _); [|done]. by injection E as <- <-.
  - unfold fail_proposal. by destruct (entries p !! pid).
  - by rewrite cancel_all_as_removal, remove_all_capacity.
  - by rewrite prune_as_removal, remove_all_capacity.
Qed.

Lemma capacity_run p p' : rtc pending_step p p' → max_capacity p' = max_capacity p.
Proof. induction 1 as [|p1 p2 p3 Hs _ IH]; [done|]. by rewrite IH, (capacity_step _ _ Hs). Qed.

(** C8: Over any sequence of registry operations: the registry never exceeds its
    capacity, a client channel is waiting exactly when one pending entry holds
    its sender, no two entries share a channel, and a channel once resolved or
    dropped never changes again. *)
Theorem registry_exactly_once c p :
  rtc pending_step (pending_new c) p →
  (pending_len p ≤ c)%N ∧
  (∀ ch, channels p !! ch = Some Waiting ↔
     ∃ pid e, entries p !! pid = Some e ∧ sender e = ch) ∧
  (∀ pid1 pid2 e1 e2, entries p !! pid1 = Some e1 → entries p !! pid2 = Some e2 →
     sender e1 = sender e2 → pid1 = pid2) ∧
  (∀ p' ch w, rtc pending_step p p' → channels p !! ch = Some w → w ≠ Waiting →
     channels p' !! ch = Some w).
Proof.
  intros Hr. pose proof (wf_run _ _ (wf_new c) Hr) as Hwf.
  assert (max_capacity p = c) as Hc by exact (capacity_run _ _ Hr).
  split_and!; [rewrite <- Hc; apply Hwf|apply Hwf|apply Hwf|].
  intros p' ch w Hr' Hch Hw. by eapply settled_run.
Qed.

(** Losing leadership answers every pending proposal with LeadershipLost
    carrying its own mutation id, log index and an unknown commit status,
    empties the registry, leaves no client waiting and returns the number of
    entries drained. *)
Lemma cancel_all_resolves t p n p' :
  wf p → cancel_all_leadership_lost t p = (n, p') →
  n = pending_len p ∧ entries p' = ∅ ∧
  (∀ ch, channels p' !! ch ≠ Some Waiting) ∧
  (∀ pid e, entries p !! pid = Some e →
     channels p' !! sender e =
       Some (Resolved (Err (LeadershipLost (pe_mutation_id e) t (p_log_index pid) Unknown)))).
Proof.
  intros Hwf E. assert (n = pending_len p) as ->.
  { unfold cancel_all_leadership_lost in E. injection E as <- _. unfold lenN, pending_len.
    by rewrite length_map_to_list. }
  assert (p' = remove_all (leadership_lost t) (map_to_list (entries p)) p) as ->.
  { rewrite <- cancel_all_as_removal. by rewrite E. }
  destruct (remove_all_spec (leadership_lost t) _ p Hwf (drained_all p)) as (Hwf' & He & Hr & _).
  assert (entries (remove_all (leadership_lost t) (map_to_list (entries p)) p) = ∅) as Hemp.
  { apply map_eq. intros i. rewrite lookup_empty, He. case_decide as Hi; [done|].
    destruct (entries p !! i) as [e|] eqn:Hie; [|done]. destruct Hi.
    apply (list_elem_of_fmap_2 fst _ (i, e)). by apply elem_of_map_to_list. }
  split_and!; [done|done| |].
  - intros ch Hch. apply (wf_waiting _ Hwf') in Hch as (pid & e & Hpe & _).
    by rewrite Hemp, lookup_empty in Hpe.
  - intros pid e Hpe. apply elem_of_map_to_list in Hpe. by apply (Hr (pid, e)).
Qed.

(** prune_timeouts removes exactly the entries older than the timeout and
    answers each of them with ProposalTimedOut, and leaves every other entry
    pending with its client still waiting. *)
Lemma prune_timeouts_spec now timeout p n p' :
  wf p → prune_timeouts now timeout p = (n, p') →
  (∀ pid e, entries p' !! pid = Some e ↔
     entries p !! pid = Some e ∧ timed_out now timeout e = false) ∧
  (∀ pid e, entries p !! pid = Some e →
     channels p' !! sender e =
       Some (if timed_out now timeout e then Resolved (Err (ProposalTimedOut pid)) else Waiting)).
Proof.
  intros Hwf E.
  assert (p' = remove_all (λ d, ProposalTimedOut d.1)
    (filter (λ d, timed_out now timeout d.2 = true) (map_to_list (entries p))) p) as ->.
  { rewrite <- prune_as_removal. by rewrite E. }
  set (ds := filter _ _).
  assert (drained_from ds p) as Hdr by apply drained_filter, drained_all.
  assert (∀ pid e, entries p !! pid = Some e → (pid, e) ∈ ds ↔ timed_out now timeout e = true) as Hds.
  { intros pid e He. unfold ds. rewrite list_elem_of_filter, elem_of_map_to_list. naive_solver. }
  destruct (remove_all_spec (λ d, ProposalTimedOut d.1) ds p Hwf Hdr) as (Hwf' & He & Hr & Hk).
  assert (∀ pid e, entries p !! pid = Some e →
    pid ∈ ds.*1 ↔ timed_out now timeout e = true) as Hfst.
  { intros pid e Hpe. rewrite list_elem_of_fmap, <- (Hds pid e Hpe). split.
    - intros ([i e'] & -> & Hin). cbn in *. apply Hdr in Hin as Hl. cbn in Hl. congruence.
    - intros Hin. by exists (pid, e). }
  split.
  - intros pid e. rewrite He. case_decide as Hi.
    + split; [done|]. intros [Hpe Hto]. apply (Hfst pid e Hpe) in Hi. congruence.
    + split; [|naive_solver]. intros Hpe. split; [done|]. rewrite (Hfst pid e Hpe) in Hi.
      by apply not_true_iff_false.
  - intros pid e Hpe. destruct (timed_out now timeout e) eqn:Hto.
    + apply (Hr (pid, e)). by apply Hds.
    + rewrite Hk; [apply (wf_waiting _ Hwf); eauto|]. intros [i e'] Hin Hs. cbn in Hs.
      apply Hdr in Hin as Hl. cbn in Hl. assert (i = pid) as -> by by apply (wf_inj p Hwf i pid e' e).
      simplify_eq. apply Hds in Hin; congruence.
Qed.
