(* ===== verification/ReadIndex.v ===== *)
(** Linearizable reads (src/consensus/read_index.rs): quorum-confirmed
    ReadIndex rounds, clock-bound leases, and the wait for the state machine.

    Instants are nanoseconds of a monotonic clock and durations are nanosecond
    counts; the clock reading and the fresh context id of a round are arguments
    of the operations that take them. *)

From S2P Require Import Prelude RaftTypes.
From stdpp Require Import base gmap sets strings numbers list fin_maps.

Abbreviation ReadContextId := N (only parsing).

(** [ReadContextId::generate]: the static counter and a random 32-bit salt.
    Returns the id and the incremented counter. *)
Definition generate (counter salt : N) : ReadContextId * N :=
  (N.lxor counter (u64_shl salt 32), u64_add counter 1).

Record ReadIndexRequest := mkReadIndexRequest {
  rq_context : ReadContextId;
  rq_term : N
}.

Record ReadIndexConfirmation := mkReadIndexConfirmation {
  cf_context : ReadContextId;
  cf_term : N;
  cf_node_id : RaftNodeId;
  cf_success : bool
}.

Inductive LinearizableReadMode :=
  | ReadIndexMode
  | LeaseRead (lease_duration_ms max_clock_drift_ms : N).

Inductive ReadConsistency :=
  | Linearizable
  | LinearizableWithMode (m : LinearizableReadMode)
  | CommittedRead
  | BoundedStaleness (max_lag_entries max_age_ms : N).

Record ReadIndexRoundState := mkRound {
  rr_term : N;
  confirmations : gset RaftNodeId;
  rr_created_at : N
}.

#[export] Instance eta_ReadIndexRoundState : Eta ReadIndexRoundState := λ r,
  mkRound (rr_term r) (confirmations r) (rr_created_at r).

Record ReadIndexEngine := mkReadIndexEngine {
  last_quorum_check : Z;
  lease_duration : N;
  lease_term : N;
  pending_rounds : gmap ReadContextId ReadIndexRoundState;
  readindex_requests_total : N;
  readindex_quorum_latency_us : N;
  readindex_term_invalidations : N;
  lease_reads_total : N;
  lease_read_rejections : N;
  lease_remaining_us : N
}.

#[export] Instance eta_ReadIndexEngine : Eta ReadIndexEngine := λ e,
  mkReadIndexEngine (last_quorum_check e) (lease_duration e) (lease_term e)
    (pending_rounds e) (readindex_requests_total e) (readindex_quorum_latency_us e)
    (readindex_term_invalidations e) (lease_reads_total e) (lease_read_rejections e)
    (lease_remaining_us e).

Implicit Types e : ReadIndexEngine.

(** [Duration::from_millis], [as_micros() as u64] and [Instant::elapsed]. *)
Definition from_millis (ms : N) : N := ms * 1000000.
Definition as_micros (ns : N) : N := u64_wrap (ns / 1000).
Definition elapsed (now : N) (t : Z) : N := Z.to_N (Z.of_N now - t).

(** [AtomicU64::fetch_add(1)] wraps. *)
Definition incr : N → N := λ n, u64_add n 1.

(** [ReadIndexEngine::new], started at [now], and its [Default]. *)
Definition engine_new (now lease : N) : ReadIndexEngine :=
  mkReadIndexEngine (Z.of_N now - Z.of_N (lease * 2)) lease 0 ∅ 0 0 0 0 0 0.
Definition engine_default (now : N) : ReadIndexEngine := engine_new now (from_millis 250).

Definition start_read_index_round (ctx : ReadContextId) (now term : N)
    (leader_id : RaftNodeId) e : ReadIndexRequest * ReadIndexEngine :=
  (mkReadIndexRequest ctx term,
   e <| readindex_requests_total ::= incr |>
     <| pending_rounds ::= <[ctx := mkRound term {[leader_id]} now]> |>).

Definition handle_confirmation (conf : ReadIndexConfirmation) (now current_term : N)
    (quorum_size : N) e : HNSQRResult bool * ReadIndexEngine :=
  if negb (cf_term conf =? current_term)%N
  then (Err (Internal "ReadIndex confirmation term mismatch"),
        e <| readindex_term_invalidations ::= incr |>) else
  match pending_rounds e !! cf_context conf with
  | None => (Ok false, e)
  | Some st =>
      if negb (rr_term st =? current_term)%N
      then (Err (Internal "ReadIndex round invalidated due to term change"),
            e <| pending_rounds ::= delete (cf_context conf) |>
              <| readindex_term_invalidations ::= incr |>) else
      let st := if cf_success conf
                then st <| confirmations ::= λ c, {[cf_node_id conf]} ∪ c |> else st in
      let e := e <| pending_rounds ::= <[cf_context conf := st]> |> in
      if (quorum_size <=? N.of_nat (size (confirmations st)))%N
      then (Ok true,
            e <| readindex_quorum_latency_us :=
                   as_micros (now - rr_created_at st) |>
              <| pending_rounds ::= delete (cf_context conf) |>)
      else (Ok false, e)
  end.

Definition validate_lease_contract (lease_duration_ms max_clock_drift_ms
    election_timeout_ms : N) : HNSQRResult unit :=
  if (lease_duration_ms =? 0)%N
  then Err (InvalidConfig "Lease duration must be greater than 0 ms") else
  let total_safety_window := u64_saturating_add lease_duration_ms max_clock_drift_ms in
  if (election_timeout_ms <=? total_safety_window)%N
  then Err (InvalidConfig "Unsafe LeaseRead configuration")
  else Ok tt.

Definition verify_lease_read (now current_term lease : N) e :
    HNSQRResult unit * ReadIndexEngine :=
  let e := e <| lease_reads_total ::= incr |> in
  if negb (lease_term e =? current_term)%N
  then (Err (Internal "LeaseRead rejected: lease term differs from current term"),
        e <| lease_read_rejections ::= incr |>) else
  let el := elapsed now (last_quorum_check e) in
  if (lease <=? el)%N
  then (Err (Internal "LeaseRead expired"), e <| lease_read_rejections ::= incr |>)
  else (Ok tt, e <| lease_remaining_us := as_micros (lease - el) |>).

Definition record_quorum_success (now term : N) e : ReadIndexEngine :=
  e <| lease_term := term |> <| last_quorum_check := Z.of_N now |>.

Definition has_valid_lease (now current_term : N) e : bool :=
  if negb (lease_term e =? current_term)%N then false
  else (elapsed now (last_quorum_check e) <? lease_duration e)%N.

(** [wait_applied]: the [i]-th pass of the polling loop reads
    [last_applied = (poll i).1] and then the clock, [(poll i).2] after the
    start.  [None]: still polling after [fuel] passes. *)
Fixpoint wait_applied (fuel i : nat) (poll : nat → N * N) (target timeout : N) :
    option (HNSQRResult N) :=
  match fuel with
  | O => None
  | S fuel =>
      let '(cur, el) := poll i in
      if (target <=? cur)%N then Some (Ok cur)
      else if (timeout <? el)%N
      then Some (Err (Internal "Timed out waiting for applied index"))
      else wait_applied fuel (S i) poll target timeout
  end.

(** ** Rounds *)

(** The successful confirmations of a list that belong to round [ctx]. *)
Definition confirmers (ctx : ReadContextId) (confs : list ReadIndexConfirmation) :
    gset RaftNodeId :=
  list_to_set (cf_node_id <$>
    filter (λ c, cf_context c = ctx ∧ cf_success c = true) confs).

(** Feeding confirmations to the engine, collecting the results in order. *)
Fixpoint confirm_all (confs : list ReadIndexConfirmation) (now term quorum : N) e :
    list (HNSQRResult bool) * ReadIndexEngine :=
  match confs with
  | [] => ([], e)
  | c :: confs =>
      let '(r, e) := handle_confirmation c now term quorum e in
      let '(rs, e) := confirm_all confs now term quorum e in (r :: rs, e)
  end.

Lemma confirmers_snoc ctx confs c :
  cf_context c = ctx → cf_success c = true →
  confirmers ctx (confs ++ [c]) = {[cf_node_id c]} ∪ confirmers ctx confs.
Proof.
  intros Hc Hs. unfold confirmers. rewrite filter_app, fmap_app, list_to_set_app_L.
  rewrite filter_cons_True by done. cbn. set_solver.
Qed.

Lemma confirmers_snoc_other ctx confs c :
  ¬ (cf_context c = ctx ∧ cf_success c = true) →
  confirmers ctx (confs ++ [c]) = confirmers ctx confs.
Proof.
  intros Hc. unfold confirmers. rewrite filter_app, filter_cons_False by done.
  by rewrite app_nil_r.
Qed.

(** The state of round [ctx] after some confirmations is the leader's own vote
    plus the confirmers seen so far. *)
Definition round_at (ctx : ReadContextId) (term : N) (leader : RaftNodeId)
    (seen : list ReadIndexConfirmation) e : Prop :=
  ∃ t0, pending_rounds e !! ctx = Some (mkRound term ({[leader]} ∪ confirmers ctx seen) t0).

Lemma round_at_start ctx now term leader e :
  round_at ctx term leader [] (start_read_index_round ctx now term leader e).2.
Proof.
  exists now. cbn. rewrite lookup_insert_eq. unfold confirmers. cbn.
  by rewrite union_empty_r_L.
Qed.

Lemma handle_confirmation_round ctx term leader seen c now quorum e r e' :
  round_at ctx term leader seen e →
  (N.of_nat (size ({[leader]} ∪ confirmers ctx seen)) < quorum)%N →
  handle_confirmation c now term quorum e = (r, e') →
  (cf_context c = ctx → r = Ok true →
     cf_term c = term ∧ cf_success c = true ∧
     (quorum ≤ N.of_nat (size ({[leader]} ∪ confirmers ctx (seen ++ [c]))))%N) ∧
  (r = Ok false → round_at ctx term leader (seen ++ [c]) e' ∧
     (N.of_nat (size ({[leader]} ∪ confirmers ctx (seen ++ [c]))) < quorum)%N).
Proof.
  unfold round_at. intros [t0 Hr] Hq. unfold handle_confirmation.
  destruct (N.eqb_spec (cf_term c) term) as [Ht|]; cbn [negb]; [|by intros [= <- <-]].
  destruct (decide (cf_context c = ctx)) as [Hctx|Hctx].
  - rewrite Hctx, Hr. cbn [rr_term]. rewrite N.eqb_refl. cbn [negb].
    destruct (cf_success c) eqn:Hs; cbn [confirmations update].
    + assert ({[cf_node_id c]} ∪ ({[leader]} ∪ confirmers ctx seen) =
        {[leader]} ∪ confirmers ctx (seen ++ [c])) as Heq
        by (rewrite confirmers_snoc by done; set_solver).
      unfold update. cbn. rewrite Heq.
      destruct (N.leb_spec quorum (N.of_nat (size ({[leader]} ∪ confirmers ctx (seen ++ [c])))));
        intros [= <- <-]; split; try done.
      intros _. split; [|done]. exists t0. cbn. by rewrite lookup_insert_eq.
    + rewrite !confirmers_snoc_other by (intros [? ?]; congruence). cbn.
      destruct (N.leb_spec quorum (N.of_nat (size ({[leader]} ∪ confirmers ctx seen)))); [lia|].
      intros [= <- <-]. split; [done|]. intros _. split; [|done]. exists t0. cbn.
      by rewrite lookup_insert_eq.
  - rewrite !confirmers_snoc_other by (intros [? ?]; congruence).
    destruct (pending_rounds e !! cf_context c) as [st|] eqn:Hst.
    2:{ intros [= <- <-]. split; [done|]. intros _. split; [|done]. by exists t0. }
    destruct (N.eqb_spec (rr_term st) term); cbn [negb]; [|by intros [= <- <-]].
    case_match; intros [= <- <-]; (split; [done|]); intros Hf; [done|].
    split; [|done]. exists t0. cbn. by rewrite lookup_insert_ne.
Qed.

Lemma confirm_all_round ctx term leader seen confs now quorum e rs e' :
  round_at ctx term leader seen e →
  (N.of_nat (size ({[leader]} ∪ confirmers ctx seen)) < quorum)%N →
  confirm_all confs now term quorum e = (rs, e') →
  Forall (λ r, r = Ok false) rs →
  round_at ctx term leader (seen ++ confs) e' ∧
  (N.of_nat (size ({[leader]} ∪ confirmers ctx (seen ++ confs))) < quorum)%N.
Proof.
  revert seen e rs. induction confs as [|c confs IH]; intros seen e rs Hr Hq.
  { cbn. rewrite app_nil_r. by intros [= <- <-] _. }
  cbn [confirm_all]. destruct (handle_confirmation c now term quorum e) as [r e1] eqn:Eh.
  destruct (confirm_all confs now term quorum e1) as [rs1 e2] eqn:Ec.
  intros [= <- <-] [-> Hrs]%Forall_cons.
  destruct (handle_confirmation_round _ _ _ _ _ _ _ _ _ _ Hr Hq Eh) as [_ Hstep].
  destruct (Hstep eq_refl) as [Hr1 Hq1].
  rewrite (cons_middle c seen confs), app_assoc. by eapply IH.
Qed.

(** Context ids of rounds started before the counter reaches [2^32] differ. *)
Lemma generate_low counter salt :
  ((generate counter salt).1 `mod` u32_modulus = counter `mod` u32_modulus)%N.
Proof.
  unfold generate, u64_shl, u64_wrap, u32_modulus, u64_modulus. cbn [fst].
  change 4294967296%N with (2 ^ 32)%N. change 18446744073709551616%N with (2 ^ 64)%N.
  apply N.bits_inj. intros i.
  destruct (N.lt_ge_cases i 32).
  - rewrite !N.mod_pow2_bits_low, N.lxor_spec by done.
    rewrite N.mod_pow2_bits_low by lia. rewrite N.shiftl_spec_low by done.
    by rewrite xorb_false_r.
  - by rewrite !N.mod_pow2_bits_high by done.
Qed.
