(* ===== verification/Floats.v ===== *)
(** [f64] and [f32] as IEEE binary64 and binary32 ([SpecFloat]): the operations
    the sources use, and the order that [<] and [partial_cmp] decide. *)

From Stdlib Require Import ZArith SpecFloat.
From S2P Require Import Prelude.
From stdpp Require Import base strings numbers.

(** ** [f64] *)

Abbreviation f64 := spec_float.
Definition f64_add : f64 → f64 → f64 := SFadd 53 1024.
Definition f64_sub : f64 → f64 → f64 := SFsub 53 1024.
Definition f64_mul : f64 → f64 → f64 := SFmul 53 1024.
Definition f64_div : f64 → f64 → f64 := SFdiv 53 1024.
(** [n as f64] (round to nearest) *)
Definition f64_of_Z (z : Z) : f64 := binary_normalize 53 1024 z 0 false.
Definition f64_of_u64 (n : N) : f64 := f64_of_Z (Z.of_N n).

(** [x.round()] as an integer, for finite [x]: half away from zero *)
Definition f64_round (x : f64) : Z :=
  match x with
  | S754_finite s m e =>
      let n := if (0 <=? e)%Z then Z.shiftl (Zpos m) e
               else ((2 * Zpos m + Z.shiftl 1 (- e)) / Z.shiftl 1 (1 - e))%Z in
      if s then (- n)%Z else n
  | _ => 0%Z
  end.
(** The literal nearest to [n / d] *)
Definition f64_ratio (n d : Z) : f64 := f64_div (f64_of_Z n) (f64_of_Z d).

(** [a < b] and [a > b]: false on NaN *)
Definition f64_lt (a b : f64) : bool :=
  match SFcompare a b with Some Lt => true | _ => false end.
Definition f64_gt (a b : f64) : bool := f64_lt b a.
Definition f64_is_nan (a : f64) : bool := match a with S754_nan => true | _ => false end.
(** [f64::min], [f64::max] ignore a NaN operand; [f64::clamp] keeps NaN. *)
Definition f64_min (a b : f64) : f64 :=
  if f64_is_nan a then b else if f64_is_nan b then a else if f64_lt b a then b else a.
Definition f64_max (a b : f64) : f64 :=
  if f64_is_nan a then b else if f64_is_nan b then a else if f64_lt a b then b else a.
Definition f64_clamp (x lo hi : f64) : f64 :=
  if f64_lt x lo then lo else if f64_gt x hi then hi else x.
(** [x as usize]: truncate toward zero, saturate, NaN to 0. *)
Definition f64_as_usize (x : f64) : N :=
  match x with
  | S754_zero _ | S754_nan => 0
  | S754_infinity s => if s then 0 else u64_max
  | S754_finite s m ex =>
      if s then 0
      else N.min (if (0 <=? ex)%Z then N.shiftl (Npos m) (Z.to_N ex)
                  else N.shiftr (Npos m) (Z.to_N (- ex))) u64_max
  end.

(** ** [f32] *)

Abbreviation b32 := spec_float.
Definition f32_add : b32 → b32 → b32 := SFadd 24 128.
Definition f32_mul : b32 → b32 → b32 := SFmul 24 128.
Definition f32_div : b32 → b32 → b32 := SFdiv 24 128.
Definition f32_of_Z (z : Z) : b32 := binary_normalize 24 128 z 0 false.
Definition f32_of_N (n : N) : b32 := f32_of_Z (Z.of_N n).

(** [a >= b] on floats *)
Definition f32_ge (a b : b32) : bool :=
  match SFcompare a b with Some Gt | Some Eq => true | _ => false end.

(** ** The order of floats

    [a < b] compares a class, the exponent and the mantissa. *)

Definition float_key (x : f64) : option (Z * Z * Z) :=
  match x with
  | S754_nan => None
  | S754_infinity s => Some (if s then -2 else 2, 0, 0)%Z
  | S754_zero _ => Some (0, 0, 0)%Z
  | S754_finite s m e => Some (if s then (-1, -e, Z.neg m) else (1, e, Z.pos m))%Z
  end.

Definition key_compare (k k' : Z * Z * Z) : comparison :=
  match (k.1.1 ?= k'.1.1)%Z with
  | Eq => match (k.1.2 ?= k'.1.2)%Z with Eq => (k.2 ?= k'.2)%Z | c => c end
  | c => c
  end.

Lemma SFcompare_key a b :
  SFcompare a b =
  match float_key a, float_key b with
  | Some k, Some k' => Some (key_compare k k')
  | _, _ => None
  end.
Proof.
  destruct a as [[]|[]| |[] m e], b as [[]|[]| |[] m' e']; try reflexivity.
  cbn [SFcompare float_key]. unfold key_compare. cbn [fst snd].
  rewrite Z.compare_opp, (Z.compare_antisym e e'). cbn [Z.compare].
  by destruct (e ?= e')%Z.
Qed.

Lemma key_lt_spec k k' : key_compare k k' = Lt ↔
  (k.1.1 < k'.1.1 ∨ k.1.1 = k'.1.1 ∧ (k.1.2 < k'.1.2 ∨ k.1.2 = k'.1.2 ∧ k.2 < k'.2))%Z.
Proof.
  unfold key_compare. destruct (Z.compare_spec k.1.1 k'.1.1); [|split; auto|split; [done|lia]].
  destruct (Z.compare_spec k.1.2 k'.1.2); [|split; auto with lia|split; [done|lia]].
  destruct (Z.compare_spec k.2 k'.2); split; auto with lia; try done; lia.
Qed.

Lemma f64_lt_iff a b :
  f64_lt a b = true ↔ ∃ k k', float_key a = Some k ∧ float_key b = Some k' ∧ key_compare k k' = Lt.
Proof.
  unfold f64_lt. rewrite SFcompare_key. destruct (float_key a) as [k|]; [|naive_solver].
  destruct (float_key b) as [k'|]; [|naive_solver].
  destruct (key_compare k k') eqn:E; split; try done; [|eauto|];
    intros (? & ? & [= <-] & [= <-] & ?); congruence.
Qed.

Lemma f64_lt_trans a b c : f64_lt a b = true → f64_lt b c = true → f64_lt a c = true.
Proof.
  rewrite !f64_lt_iff. intros (k1 & k2 & H1 & H2 & H12%key_lt_spec) (k2' & k3 & H2' & H3 & H23%key_lt_spec).
  rewrite H2 in H2'. injection H2' as <-. exists k1, k3. split_and!; [done..|]. apply key_lt_spec. lia.
Qed.

Lemma f64_lt_irrefl a : f64_lt a a = false.
Proof.
  apply not_true_iff_false. rewrite f64_lt_iff. intros (k & k' & Hk & Hk' & Hlt%key_lt_spec).
  rewrite Hk in Hk'. injection Hk' as <-. lia.
Qed.
