(* ===== verification/Durability.v ===== *)
(** Batching and health: [DurabilityController]
    (src/consensus/durability_controller.rs), and [AdaptiveMicrobatcher],
    [StorageHealthMetrics] and [RaftPipelineTelemetry] of
    src/consensus/raft.rs.  [f64] is the IEEE binary64 format of
    [SpecFloat]. *)

From Stdlib Require Import ZArith SpecFloat.
From S2P Require Import Prelude.
From S2P Require Import Floats.
From stdpp Require Import base strings numbers.

(** [Ord::clamp] on [usize]; [None] is its panic when [hi < lo]. *)
Definition usize_clamp (x lo hi : N) : option N :=
  if (hi <? lo)%N then None else Some (N.max lo (N.min x hi)).

(** ** src/consensus/raft.rs *)

Record AdaptiveMicrobatcher := mkAdaptiveMicrobatcher {
  min_batch_size : N;
  mb_max_batch_size : N;
  target_commit_latency_us : N
}.

Definition AdaptiveMicrobatcher_default := mkAdaptiveMicrobatcher 1 512 10000.

Definition compute_optimal_batch_size (b : AdaptiveMicrobatcher)
    (incoming_rate_wps : f64) (fsync_latency_us rtt_us queue_depth
     durability_sla_us : N) : option N :=
  let base_delay := N.max fsync_latency_us rtt_us in
  let headroom := (durability_sla_us - base_delay)%N in
  let rate_multiplier :=
    f64_clamp (f64_div incoming_rate_wps (f64_of_Z 1000)) (f64_of_Z 1) (f64_of_Z 32) in
  queue_factor ← usize_clamp (queue_depth / 8) 1 64;
  if (5000 <? headroom)%N
  then usize_clamp
         (u64_wrapping_mul (u64_wrapping_mul (min_batch_size b) queue_factor)
            (f64_as_usize rate_multiplier))
         (min_batch_size b) (mb_max_batch_size b)
  else Some (min_batch_size b).

Record StorageHealthMetrics := mkStorageHealthMetrics {
  fsync_latency_p99_us : N;
  disk_write_stall_count : N;
  io_error_count : N;
  free_disk_bytes : N;
  is_read_only : bool
}.

#[export] Instance eta_StorageHealthMetrics : Eta StorageHealthMetrics := λ h,
  mkStorageHealthMetrics (fsync_latency_p99_us h) (disk_write_stall_count h)
    (io_error_count h) (free_disk_bytes h) (is_read_only h).

Definition StorageHealthMetrics_default :=
  mkStorageHealthMetrics 200 0 0 1000000000000 false.

Definition suitability_score (h : StorageHealthMetrics) : f64 :=
  if is_read_only h || (0 <? io_error_count h)%N || (free_disk_bytes h <? 100000000)%N
  then f64_of_Z (-1) else
  let latency_penalty :=
    f64_min (f64_div (f64_of_u64 (fsync_latency_p99_us h)) (f64_of_Z 1000)) (f64_of_Z 50) in
  let stall_penalty :=
    f64_min (f64_mul (f64_of_u64 (disk_write_stall_count h)) (f64_of_Z 5)) (f64_of_Z 50) in
  f64_max (f64_sub (f64_sub (f64_of_Z 100) latency_penalty) stall_penalty) (f64_of_Z 0).

(** [record_error] *)
Definition record_error (_ : HNSQRError) (h : StorageHealthMetrics) : StorageHealthMetrics :=
  h <| io_error_count ::= λ n, u64_add n 1 |>.

Record RaftPipelineTelemetry := mkRaftPipelineTelemetry {
  microbatch_size_last : N;
  inflight_proposals : N;
  fsync_ops_total : N;
  leader_wal_p99_us : N;
  quorum_commit_p99_us : N;
  replication_rtt_us : N;
  serialization_cpu_us : N;
  queue_delay_us : N;
  apply_delay_us : N;
  leadership_transfers_total : N
}.

#[export] Instance eta_RaftPipelineTelemetry : Eta RaftPipelineTelemetry := λ t,
  mkRaftPipelineTelemetry (microbatch_size_last t) (inflight_proposals t)
    (fsync_ops_total t) (leader_wal_p99_us t) (quorum_commit_p99_us t)
    (replication_rtt_us t) (serialization_cpu_us t) (queue_delay_us t)
    (apply_delay_us t) (leadership_transfers_total t).

Definition RaftPipelineTelemetry_default := mkRaftPipelineTelemetry 0 0 0 0 0 0 0 0 0 0.

(** ** src/consensus/durability_controller.rs *)

(** [OperatorIntent] of src/planning/autoforge.rs *)
Inductive OperatorIntent :=
  | CertifiedExact
  | HighRecall (target_recall : f64)
  | LatencyBudget (max_micros : N)
  | ResourceBudget (max_memory_mb : N).

Record StorageTelemetry := mkStorageTelemetry {
  p50_fsync_micros : N;
  p99_fsync_micros : N;
  mutation_arrival_rate_per_sec : N;
  outstanding_wal_bytes : N;
  replication_rtt_micros : N
}.

Definition StorageTelemetry_default := mkStorageTelemetry 0 0 0 0 0.

Record DurabilityBatchPlan := mkDurabilityBatchPlan {
  max_batch_size : N;
  max_batch_delay_micros : N;
  flush_cadence_micros : N;
  pipeline_window_depth : N;
  is_direct_io : bool
}.

Record DurabilityController := mkDurabilityController {
  dc_intent : OperatorIntent;
  dc_telemetry : StorageTelemetry;
  max_commit_sla_micros : N;
  current_plan : DurabilityBatchPlan
}.

#[export] Instance eta_DurabilityController : Eta DurabilityController := λ c,
  mkDurabilityController (dc_intent c) (dc_telemetry c) (max_commit_sla_micros c)
    (current_plan c).

Definition recalculate_plan (c : DurabilityController) : DurabilityController :=
  let telemetry := dc_telemetry c in
  let sla_micros := max_commit_sla_micros c in
  let '(max_batch, max_delay, cadence, depth) :=
    match dc_intent c with
    | LatencyBudget max_micros =>
        let target_micros := N.min max_micros sla_micros in
        let delay := N.max (target_micros / 4) 200 in
        (32, delay, delay / 2, 2)%N
    | ResourceBudget _ => (512, N.min 10000 sla_micros, 5000, 8)%N
    | _ =>
        if (10000 <? p99_fsync_micros telemetry)%N
        then (256, N.max (sla_micros / 2) 1000, 2000, 6)%N
        else if (10000 <? mutation_arrival_rate_per_sec telemetry)%N
        then (128, 1000, 500, 4)%N
        else (64, 2000, 1000, 4)%N
    end in
  c <| current_plan :=
    mkDurabilityBatchPlan max_batch max_delay cadence depth
      (67108864 <? outstanding_wal_bytes telemetry)%N |>.

Definition controller_new (intent : OperatorIntent) (sla : N) : DurabilityController :=
  recalculate_plan (mkDurabilityController intent StorageTelemetry_default sla
    (mkDurabilityBatchPlan 64 2000 1000 4 false)).
Definition controller_default : DurabilityController := controller_new CertifiedExact 20000.

Definition record_telemetry (t : StorageTelemetry) (c : DurabilityController) :
    DurabilityController :=
  recalculate_plan (c <| dc_telemetry := t |>).

Definition set_operator_intent (i : OperatorIntent) (c : DurabilityController) :
    DurabilityController :=
  recalculate_plan (c <| dc_intent := i |>).

(** ** Facts *)

(** An unhealthy store scores exactly [-1.0], which no candidate search prefers. *)
Lemma unhealthy_score h :
  is_read_only h = true ∨ (0 < io_error_count h)%N ∨ (free_disk_bytes h < 100000000)%N →
  suitability_score h = f64_of_Z (-1).
Proof.
  intros Hh. unfold suitability_score.
  assert (is_read_only h || (0 <? io_error_count h)%N || (free_disk_bytes h <? 100000000)%N = true)
    as ->; [|done].
  rewrite !orb_true_iff, !N.ltb_lt. tauto.
Qed.

(** An idle, healthy store scores [100 - 200/1000 = 99.8]. *)
Example default_score_positive :
  f64_gt (suitability_score StorageHealthMetrics_default) (f64_of_Z 99) = true.
Proof. vm_compute. reflexivity. Qed.

Example batch_size_loaded :
  compute_optimal_batch_size AdaptiveMicrobatcher_default (f64_of_Z 8000) 200 350 64 20000
  = Some 64%N.
Proof. vm_compute. reflexivity. Qed.

Lemma usize_clamp_bounds x lo hi r : usize_clamp x lo hi = Some r → (lo ≤ r ≤ hi)%N.
Proof. unfold usize_clamp. case_match; bool_to_N; intros [= <-]. lia. Qed.
