(* ===== verification/RaftNode.v ===== *)
(** A Raft replica ([RaftNode] of src/consensus/raft.rs), generic in its
    storage engine [S], its state machine [M] and the mutation type [D].

    An operation maps the node to its result and the updated node; the outer
    [option] is [None] where the Rust code panics (an index out of bounds, an
    [unwrap] of [None], a failed assertion) or does not return.  [now] is the
    reading of [Instant::now()]. *)

From S2P Require Import Prelude RaftTypes MemoryStorage Pending ReadIndex Durability.
From S2P Require Import Floats.
From stdpp Require Import base gmap sets strings numbers list fin_maps.

Record RaftNode (S M D : Type) := mkRaftNode {
  id : RaftNodeId;
  voting_peers : gset RaftNodeId;
  learners : gset RaftNodeId;
  role : RaftRole;
  current_term : N;
  voted_for : option RaftNodeId;
  log : list (RaftLogEntry D);
  commit_index : N;
  last_applied : N;
  leader_id : option RaftNodeId;
  next_index : gmap RaftNodeId N;
  match_index : gmap RaftNodeId N;
  shard_owners : gmap ShardId RaftNodeId;
  topology_epoch : N;
  last_heartbeat_received : N;
  warm_proof_shards : gset ShardId;
  replicated_sm : option M;
  storage_health : StorageHealthMetrics;
  pipeline_telemetry : RaftPipelineTelemetry;
  microbatcher : AdaptiveMicrobatcher;
  pending_proposals : PendingProposals;
  read_index_engine : ReadIndexEngine;
  durability_controller : DurabilityController;
  storage : S
}.
Arguments mkRaftNode {S M D}.
Arguments id {S M D} _.
Arguments voting_peers {S M D} _.
Arguments learners {S M D} _.
Arguments role {S M D} _.
Arguments current_term {S M D} _.
Arguments voted_for {S M D} _.
Arguments log {S M D} _.
Arguments commit_index {S M D} _.
Arguments last_applied {S M D} _.
Arguments leader_id {S M D} _.
Arguments next_index {S M D} _.
Arguments match_index {S M D} _.
Arguments shard_owners {S M D} _.
Arguments topology_epoch {S M D} _.
Arguments last_heartbeat_received {S M D} _.
Arguments warm_proof_shards {S M D} _.
Arguments replicated_sm {S M D} _.
Arguments storage_health {S M D} _.
Arguments pipeline_telemetry {S M D} _.
Arguments microbatcher {S M D} _.
Arguments pending_proposals {S M D} _.
Arguments read_index_engine {S M D} _.
Arguments durability_controller {S M D} _.
Arguments storage {S M D} _.

#[export] Instance eta_RaftNode S M D : Eta (RaftNode S M D) := λ n,
  mkRaftNode (id n) (voting_peers n) (learners n) (role n) (current_term n)
    (voted_for n) (log n) (commit_index n) (last_applied n) (leader_id n)
    (next_index n) (match_index n) (shard_owners n) (topology_epoch n)
    (last_heartbeat_received n) (warm_proof_shards n) (replicated_sm n)
    (storage_health n) (pipeline_telemetry n) (microbatcher n)
    (pending_proposals n) (read_index_engine n) (durability_controller n)
    (storage n).

Section node.
Context {S M D : Type} `{!RaftStorage S D} `{!ReplicatedStateMachine M D} `{!Mutation D}.
Abbreviation Node := (RaftNode S M D).
Implicit Types n : RaftNode S M D.

(** ** Construction and recovery *)

(** The record [try_with_storage] builds once the log, the hard state and the
    progress are loaded. *)
Definition initial_node (now : N) (nid : RaftNodeId) (peers : list RaftNodeId)
    (initial_log : list (RaftLogEntry D)) (hs : RaftHardState)
    (progress : RaftPersistentProgress) (s : S) : Node :=
  mkRaftNode nid ({[nid]} ∪ list_to_set peers) ∅ Follower (hs_current_term hs)
    (hs_voted_for hs) initial_log (pp_commit_index progress) (pp_last_applied progress)
    None ∅ ∅ ∅ 1 now ∅ None StorageHealthMetrics_default RaftPipelineTelemetry_default
    AdaptiveMicrobatcher_default pending_default (engine_default now)
    controller_default s.

Definition try_with_storage (now : N) (nid : RaftNodeId) (peers : list RaftNodeId)
    (s : S) : HNSQRResult Node :=
  let? loaded := load_log_entries 0 s in
  let? initial := (match loaded with
                   | [] =>
                       let '(r, s') := append_entries [sentinel] s in
                       let? _ := r in Ok ([sentinel], s')
                   | _ :: _ => Ok (loaded, s)
                   end) in
  let '(initial_log, s) := initial in
  let? hard_state := load_hard_state s in
  let? progress := load_progress s in
  Ok (initial_node now nid peers initial_log hard_state progress s).

(** [with_storage]: the [expect] panics on an error. *)
Definition with_storage (now : N) (nid : RaftNodeId) (peers : list RaftNodeId)
    (s : S) : option Node :=
  match try_with_storage now nid peers s with Ok n => Some n | Err _ => None end.

(** The loop of [recover_node_state] over the loaded entries. *)
Fixpoint recover_entries (commit : N) (es : list (RaftLogEntry D)) (m : M)
    (applied_count : N) : HNSQRResult N * M :=
  match es with
  | [] => (Ok applied_count, m)
  | e :: es =>
      if (e_index e <=? commit)%N then
        match e_command e with
        | Data d =>
            match rsm_apply (e_index e) d m with
            | (Ok _, m) => recover_entries commit es m (applied_count + 1)
            | (Err err, m) => (Err err, m)
            end
        | _ => recover_entries commit es m applied_count
        end
      else recover_entries commit es m applied_count
  end.

Definition recover_node_state n (m : M) : HNSQRResult N * Node * M :=
  match load_progress (storage n) with
  | Err err => (Err err, n, m)
  | Ok progress =>
      match load_log_entries (pp_snapshot_index progress + 1) (storage n) with
      | Err err => (Err err, n, m)
      | Ok es =>
          match recover_entries (pp_commit_index progress) es m 0 with
          | (Err err, m) => (Err err, n, m)
          | (Ok c, m) =>
              (Ok c, n <| last_applied := pp_commit_index progress |>
                       <| commit_index := pp_commit_index progress |>, m)
          end
      end
  end.

Definition set_replicated_sm (m : M) n : Node := n <| replicated_sm := Some m |>.

Definition is_leader n : bool := bool_decide (role n = Leader).
Definition is_learner n : bool := bool_decide (role n = Learner).

Definition validate_read_consistency (c : ReadConsistency) n : HNSQRResult unit :=
  match c with
  | Linearizable | LinearizableWithMode _ =>
      if negb (is_leader n)
      then Err (Internal "Linearizable read must be routed to leader") else Ok tt
  | CommittedRead => Ok tt
  | BoundedStaleness max_lag_entries _ =>
      let lag := (commit_index n - last_applied n)%N in
      if (max_lag_entries <? lag)%N
      then Err (Internal "Learner lag exceeds bounded staleness limit") else Ok tt
  end.

(** ** RequestVote *)

(** The branch for a newer term; [inl] is the early return after a failed
    write of the hard state. *)
Definition vote_adopt_term (args : RequestVoteArgs) n : RequestVoteReply * Node + Node :=
  if (current_term n <? rv_term args)%N then
    let '(r, s) := save_hard_state (mkRaftHardState (rv_term args) None) (storage n) in
    let n := n <| storage := s |> in
    if is_err r then inl (mkRequestVoteReply (current_term n) false, n)
    else inr (n <| current_term := rv_term args |>
                <| role ::= λ ro, if bool_decide (ro = Learner) then ro else Follower |>
                <| voted_for := None |>
                <| leader_id := None |>
                <| pending_proposals ::=
                     λ p, (cancel_all_leadership_lost (rv_term args) p).2 |>)
  else inr n.

Definition log_up_to_date (args : RequestVoteArgs) (last_term last_index : N) : bool :=
  (last_term <? rv_last_log_term args)%N ||
  ((rv_last_log_term args =? last_term)%N && (last_index <=? rv_last_log_index args)%N).

Definition handle_request_vote (now : N) (args : RequestVoteArgs) n :
    option (RequestVoteReply * Node) :=
  if is_learner n then Some (mkRequestVoteReply (current_term n) false, n) else
  match vote_adopt_term args n with
  | inl early => Some early
  | inr n =>
      last_entry ← last (log n);
      let can_vote :=
        (bool_decide (voted_for n = None) ||
         bool_decide (voted_for n = Some (rv_candidate_id args))) &&
        (rv_term args =? current_term n)%N &&
        log_up_to_date args (e_term last_entry) (e_index last_entry) in
      if can_vote then
        let '(r, s) := save_hard_state
          (mkRaftHardState (current_term n) (Some (rv_candidate_id args))) (storage n) in
        let n := n <| storage := s |> in
        if is_err r then Some (mkRequestVoteReply (current_term n) false, n)
        else Some (mkRequestVoteReply (current_term n) true,
                   n <| voted_for := Some (rv_candidate_id args) |>
                     <| last_heartbeat_received := now |>)
      else Some (mkRequestVoteReply (current_term n) false, n)
  end.

(** ** Applying committed entries *)

(** What the loop collects for the time after it: the completions and the
    failures of proposals. *)
Record Completions := mkCompletions {
  to_complete : list (ProposalId * N * N * N * DurabilityLevel);
  to_fail : list (ProposalId * ApplyError)
}.

(** One entry: [(apply_ok, node, collected)]. *)
Definition apply_entry (epoch : N) (e : RaftLogEntry D) n (c : Completions) :
    bool * Node * Completions :=
  match e_command e with
  | Topology top =>
      (true, n <| topology_epoch := tm_epoch top |>
               <| shard_owners ::= λ o, tm_shard_owners top ∪ o |>, c)
  | Membership mem => (true, n <| voting_peers := list_to_set (mm_new_peers mem) |>, c)
  | Data d =>
      let pid := mkProposalId (e_term e) (e_index e) in
      match replicated_sm n with
      | Some sm =>
          match rsm_apply (e_index e) d sm with
          | (Ok receipt, sm) =>
              (true, n <| replicated_sm := Some sm |>,
               mkCompletions
                 (to_complete c ++ [(pid, e_term e, ar_applied_index receipt, epoch,
                                     QuorumReplicated)])
                 (to_fail c))
          | (Err err, sm) =>
              (false, n <| replicated_sm := Some sm |>,
               mkCompletions (to_complete c)
                 (to_fail c ++ [(pid, StateApplyFailed (mutation_id d) err (e_index e))]))
          end
      | None =>
          (false, n, mkCompletions (to_complete c)
             (to_fail c ++ [(pid, StateMachineUnavailable (e_index e))]))
      end
  | NoOp => (true, n, c)
  end.

(** The [while applied < target_commit] loop.  A log whose entries carry an
    index at or below their position makes no progress; [None] is a loop that
    has not ended within [fuel] passes. *)
Fixpoint apply_loop (fuel : nat) (epoch : N) (lg : list (RaftLogEntry D)) (target : N)
    (applied : N) n (c : Completions) : option (N * Node * Completions) :=
  if (target <=? applied)%N then Some (applied, n, c) else
  match fuel with
  | O => None
  | Datatypes.S fuel =>
      match nth_u64 lg (applied + 1) with
      | None => Some (applied, n, c)
      | Some e =>
          let '(ok, n, c) := apply_entry epoch e n c in
          if ok
          then apply_loop fuel epoch lg target (e_index e)
                 (n <| last_applied := e_index e |>) c
          else Some (applied, n, c)
      end
  end.

(** Completing and failing the collected proposals, after the loop. *)
Definition complete_all (l : list (ProposalId * N * N * N * DurabilityLevel))
    (p : PendingProposals) : option PendingProposals :=
  foldl (λ op x,
    let '(pid, term, idx, ep, d) := x in
    p ← op; r ← complete_applied pid term idx ep d p; Some r.2) (Some p) l.

Definition fail_all (l : list (ProposalId * ApplyError)) (p : PendingProposals) :
    PendingProposals :=
  foldl (λ p x, (fail_proposal x.1 x.2 p).2) p l.

(** [storage.save_progress(..)] with the error counted in the health metrics. *)
Definition persist_progress (commit applied : N) n : Node :=
  let '(r, s) := save_progress (mkRaftPersistentProgress commit applied 0 0) (storage n) in
  let n := n <| storage := s |> in
  match r with
  | Ok _ => n
  | Err err => n <| storage_health ::= record_error err |>
  end.

Definition apply_committed_entries (lg : list (RaftLogEntry D)) (target_commit : N) n :
    option Node :=
  '(applied, n, c) ← apply_loop (Datatypes.S (length lg)) (topology_epoch n) lg target_commit
                       (last_applied n) n (mkCompletions [] []);
  let n := persist_progress target_commit applied n in
  p ← complete_all (to_complete c) (pending_proposals n);
  Some (n <| pending_proposals := fail_all (to_fail c) p |>).

(** ** AppendEntries *)

Definition append_adopt_term (args : AppendEntriesArgs D) n :
    AppendEntriesReply * Node + Node :=
  if (current_term n <? ae_term args)%N then
    let '(r, s) := save_hard_state (mkRaftHardState (ae_term args) None) (storage n) in
    let n := n <| storage := s |> in
    if is_err r then inl (mkAppendEntriesReply (current_term n) false 0, n)
    else inr (n <| current_term := ae_term args |>
                <| role ::= λ ro, if bool_decide (ro = Learner) then ro else Follower |>
                <| voted_for := None |>
                <| pending_proposals ::=
                     λ p, (cancel_all_leadership_lost (ae_term args) p).2 |>)
  else inr n.

(** The loop over the entries of the message, from position [idx] on:
    [(no storage error, log, storage)].  Entries already present with the same
    term are kept; a conflicting one truncates the log behind it. *)
Fixpoint merge_entries (es : list (RaftLogEntry D)) (idx : nat)
    (lg : list (RaftLogEntry D)) (s : S) : bool * list (RaftLogEntry D) * S :=
  match es with
  | [] => (true, lg, s)
  | e :: es =>
      match lg !! idx with
      | Some old =>
          if (e_term old =? e_term e)%N
          then merge_entries es (Datatypes.S idx) lg s else
          let '(r, s) := truncate_suffix (N.of_nat idx) s in
          if is_err r then (false, lg, s) else
          let '(r, s) := append_entries [e] s in
          if is_err r then (false, lg, s)
          else merge_entries es (Datatypes.S idx) (take idx lg ++ [e]) s
      | None =>
          let '(r, s) := append_entries [e] s in
          if is_err r then (false, lg, s)
          else merge_entries es (Datatypes.S idx) (lg ++ [e]) s
      end
  end.

(** The leader's commit index, bounded by what this log holds. *)
Definition advance_commit (leader_commit matched : N) n : option Node :=
  if (commit_index n <? leader_commit)%N then
    let new_commit := N.min leader_commit matched in
    let n := n <| commit_index := new_commit |> in
    apply_committed_entries (log n) new_commit n
  else Some n.

(** [args.prev_log_index < log_len && log[prev].term == prev_log_term] *)
Definition prev_matches (args : AppendEntriesArgs D) (lg : list (RaftLogEntry D)) : bool :=
  match nth_u64 lg (ae_prev_log_index args) with
  | Some e => (e_term e =? ae_prev_log_term args)%N
  | None => false
  end.

Definition handle_append_entries (now : N) (args : AppendEntriesArgs D) n :
    option (AppendEntriesReply * Node) :=
  match append_adopt_term args n with
  | inl early => Some early
  | inr n =>
      let t := current_term n in
      if (ae_term args <? t)%N then Some (mkAppendEntriesReply t false 0, n) else
      let n := n <| role ::= λ ro, if bool_decide (ro = Learner) then ro else Follower |>
                 <| leader_id := Some (ae_leader_id args) |>
                 <| last_heartbeat_received := now |> in
      if ae_is_heartbeat args && bool_decide (ae_entries args = []) then
        let cur_match := (lenN (log n) - 1)%N in
        if negb (prev_matches args (log n))
        then Some (mkAppendEntriesReply t false cur_match, n) else
        n ← advance_commit (ae_leader_commit args) cur_match n;
        Some (mkAppendEntriesReply t true cur_match, n)
      else if negb (prev_matches args (log n)) then
        (* [log.len() as u64 - 1] underflows on an empty log *)
        (if bool_decide (log n = []) then None
         else Some (mkAppendEntriesReply t false (lenN (log n) - 1)%N, n))
      else
        let '(ok, lg, s) := merge_entries (ae_entries args)
          (N.to_nat (ae_prev_log_index args + 1)) (log n) (storage n) in
        let n := n <| log := lg |> <| storage := s |> in
        if negb ok then Some (mkAppendEntriesReply t false 0, n) else
        let new_match := (lenN lg - 1)%N in
        n ← advance_commit (ae_leader_commit args) new_match n;
        Some (mkAppendEntriesReply t true new_match, n)
  end.

(** ** Proposals *)

(** The new entries, numbered from [start] on. *)
Fixpoint number_entries (term start : N) (cmds : list (RaftCommand D)) :
    list (RaftLogEntry D) :=
  match cmds with
  | [] => []
  | cmd :: cmds => mkEntry term start cmd :: number_entries term (start + 1) cmds
  end.

Definition batch_telemetry (cmds : list (RaftCommand D)) n : StorageTelemetry :=
  let f := fsync_latency_p99_us (storage_health n) in
  mkStorageTelemetry (f / 2) f (u64_wrapping_mul (lenN cmds) 1000)
    (u64_wrapping_mul (lenN cmds) 128) 350.

(** [propose_batch]; an empty batch panics at [indices.last().unwrap()]. *)
Definition propose_batch (cmds : list (RaftCommand D)) n :
    option (HNSQRResult (list N) * Node) :=
  if negb (is_leader n) then Some (Err (Internal "Node is not leader"), n) else
  let n := n <| pipeline_telemetry ::=
                  λ t, t <| microbatch_size_last :=
                    N.min (lenN cmds) (max_batch_size (current_plan (durability_controller n))) |> |>
             <| durability_controller ::= record_telemetry (batch_telemetry cmds n) |> in
  let new_entries := number_entries (current_term n) (lenN (log n)) cmds in
  let '(r, s) := append_entries new_entries (storage n) in
  let n := n <| storage := s |> in
  match r with
  | Err err => Some (Err err, n)
  | Ok _ =>
      last_entry ← last new_entries;
      Some (Ok (e_index <$> new_entries),
            n <| log ::= λ l, l ++ new_entries |>
              <| match_index ::= <[id n := e_index last_entry]> |>)
  end.

Definition propose (cmd : RaftCommand D) n : option (HNSQRResult N * Node) :=
  '(r, n) ← propose_batch [cmd] n;
  match r with
  | Err err => Some (Err err, n)
  | Ok indices => i ← head indices; Some (Ok i, n)
  end.

Definition propose_data_mutation (now : N) (m : D) n : option (HNSQRResult N * Node) :=
  if negb (is_leader n) then Some (Err (Internal "Node is not leader"), n) else
  let term := current_term n in
  '(r, n) ← propose (Data m) n;
  match r with
  | Err err => Some (Err err, n)
  | Ok index =>
      let '(r, p) := register (mkProposalId term index) (mutation_id m) now
                       (pending_proposals n) in
      Some (r, n <| pending_proposals := p |>)
  end.

(** ** Commit *)

(** A voting peer is known to hold entry [i]; the node itself counts even
    without an entry in [match_index]. *)
Definition holds_entry (i : N) n (peer : RaftNodeId) : bool :=
  match match_index n !! peer with
  | Some matched => (i <=? matched)%N
  | None => (peer =? id n)%N
  end.

Definition replica_count (i : N) n : N :=
  lenN (filter (λ peer, holds_entry i n peer = true) (elements (voting_peers n))).

Definition quorum_size n : N := N.of_nat (size (voting_peers n)) / 2 + 1.

Definition commit_candidate n (i : N) : bool :=
  match nth_u64 (log n) i with
  | Some e => (e_term e =? current_term n)%N && (quorum_size n <=? replica_count i n)%N
  | None => false
  end.

(** [((current_commit + 1)..=len - 1).rev()] up to the first hit. *)
Fixpoint find_commit n (top : nat) : option N :=
  match top with
  | O => None
  | Datatypes.S k =>
      if (N.of_nat top <=? commit_index n)%N then None
      else if commit_candidate n (N.of_nat top) then Some (N.of_nat top)
      else find_commit n k
  end.

Definition check_quorum_commit n : option (bool * Node) :=
  if negb (is_leader n) then Some (false, n) else
  if bool_decide (log n = []) then None else
  match find_commit n (length (log n) - 1) with
  | None => Some (false, n)
  | Some i =>
      let n := n <| commit_index := i |> in
      let n := persist_progress i (last_applied n) n in
      n ← apply_committed_entries (log n) i n;
      Some (true, n)
  end.

(** ** Reads *)

Definition handle_read_index_request (now : N) (req : ReadIndexRequest) n :
    ReadIndexConfirmation * Node :=
  if (rq_term req <? current_term n)%N
  then (mkReadIndexConfirmation (rq_context req) (current_term n) (id n) false, n)
  else (mkReadIndexConfirmation (rq_context req) (rq_term req) (id n) true,
        n <| last_heartbeat_received := now |>).

(** The end of both read paths: wait until the state machine has reached
    [commit_index].  [poll] is what the polling loop observes (see
    [wait_applied]). *)
Definition await_read_index (fuel : nat) (poll : nat → N * N) n :
    option (HNSQRResult N) :=
  let read_idx := commit_index n in
  if (last_applied n <? read_idx)%N then
    match wait_applied fuel 0 poll read_idx (from_millis 500) with
    | None => None
    | Some (Err err) => Some (Err err)
    | Some (Ok _) => Some (Ok read_idx)
    end
  else Some (Ok read_idx).

Definition linearizable_read_index_with_mode (ctx : ReadContextId) (now : N)
    (fuel : nat) (poll : nat → N * N) (mode : LinearizableReadMode) n :
    option (HNSQRResult N * Node) :=
  if negb (is_leader n)
  then Some (Err (Internal "Node cannot serve linearizable read: not leader"), n) else
  let term := current_term n in
  match mode with
  | ReadIndexMode =>
      let n := n <| read_index_engine ::=
                      λ e, (start_read_index_round ctx now term (id n) e).2 |> in
      r ← await_read_index fuel poll n; Some (r, n)
  | LeaseRead lease_duration_ms max_clock_drift_ms =>
      match validate_lease_contract lease_duration_ms max_clock_drift_ms 1000 with
      | Err err => Some (Err err, n)
      | Ok _ =>
          let '(r, e) := verify_lease_read now term (from_millis lease_duration_ms)
                           (read_index_engine n) in
          let n := n <| read_index_engine := e |> in
          match r with
          | Err err => Some (Err err, n)
          | Ok _ => r ← await_read_index fuel poll n; Some (r, n)
          end
      end
  end.
End node.

(** [RaftNode::new] and [RaftNode::new_learner] run on [MemoryRaftStorage]. *)
Definition node_new {M D} (now : N) (nid : RaftNodeId) (peers : list RaftNodeId) :
    option (RaftNode (MemoryRaftStorage D) M D) :=
  with_storage now nid peers mem_new.

Definition new_learner {M D} (now : N) (nid : RaftNodeId) :
    option (RaftNode (MemoryRaftStorage D) M D) :=
  n ← node_new now nid []; Some (n <| role := Learner |>).
