(* ===== verification/RaftCluster.v ===== *)
(** The in-process cluster ([RaftCluster] of src/consensus/raft.rs): elections,
    replication, leadership transfer, proposals and linearizable reads over the
    map of nodes.

    [HashMap] and [HashSet] iteration orders are unspecified: the class
    [HashOrder] supplies some enumeration of the keys, and everything proved
    holds for each of them.  One operation takes one clock reading [now]. *)

From S2P Require Import Prelude RaftTypes MemoryStorage Pending ReadIndex Durability.
From S2P Require Import Floats.
From S2P Require Import RaftNode.
From stdpp Require Import base gmap sets strings numbers list fin_maps.

Section cluster.
Context {S M D : Type} `{!RaftStorage S D} `{!ReplicatedStateMachine M D} `{!Mutation D}.
Context `{!HashOrder}.
Abbreviation Node := (RaftNode S M D).
Abbreviation Nodes := (gmap RaftNodeId (RaftNode S M D)).
Implicit Types (n : RaftNode S M D) (ns : gmap RaftNodeId (RaftNode S M D)).

Definition node_ids ns : list RaftNodeId := iter_order (dom ns).

(** ** Construction *)

(** [with_storages]: one node per storage, all voting for all. *)
Definition with_storages (now : N) (storages : gmap RaftNodeId S) : option Nodes :=
  let ids := iter_order (dom storages) in
  foldl (λ ons nid,
    ns ← ons; s ← storages !! nid; n ← with_storage now nid ids s;
    Some (<[nid := n]> ns)) (Some ∅) ids.

(** ** Elections *)

(** The loop that asks every peer for its vote. *)
Fixpoint request_votes (now : N) (args : RequestVoteArgs) (self : RaftNodeId)
    (peers : list RaftNodeId) (votes : N) ns : option (N * Nodes) :=
  match peers with
  | [] => Some (votes, ns)
  | peer :: peers =>
      if (peer =? self)%N then request_votes now args self peers votes ns else
      match ns !! peer with
      | None => request_votes now args self peers votes ns
      | Some pn =>
          '(reply, pn) ← handle_request_vote now args pn;
          let votes := if rvr_vote_granted reply && (rvr_term reply =? rv_term args)%N
                       then (votes + 1)%N else votes in
          request_votes now args self peers votes (<[peer := pn]> ns)
      end
  end.

(** ** Replication *)

(** The message [broadcast_heartbeats] sends to [peer], from the leader's
    snapshot of its term, commit index and log; [None] is the panic of
    [log[prev_log_idx]] on an empty log. *)
Definition heartbeat_args (leader : RaftNodeId) (term commit : N)
    (lg : list (RaftLogEntry D)) (next_idx : N) : option (AppendEntriesArgs D) :=
  let prev_log_idx := N.min (u64_sub next_idx 1) (u64_sub (lenN lg) 1) in
  prev ← nth_u64 lg prev_log_idx;
  let es := if (next_idx <? lenN lg)%N then skipN next_idx lg else [] in
  Some (mkAppendEntriesArgs term leader prev_log_idx (e_term prev) es commit
          (bool_decide (es = []))).

(** [leader.next_index] and [leader.match_index] after a successful reply. *)
Definition record_match (peer : RaftNodeId) (matched : N) n : Node :=
  n <| next_index ::= <[peer := u64_add matched 1]> |>
    <| match_index ::= <[peer := matched]> |>.

Fixpoint send_heartbeats (now : N) (leader : RaftNodeId) (term commit : N)
    (lg : list (RaftLogEntry D)) (targets : list RaftNodeId) (successes : N) ns :
    option (N * Nodes) :=
  match targets with
  | [] => Some (successes, ns)
  | peer :: targets =>
      if (peer =? leader)%N
      then send_heartbeats now leader term commit lg targets successes ns else
      match ns !! peer, ns !! leader with
      | Some pn, Some ln =>
          args ← heartbeat_args leader term commit lg (default 1%N (next_index ln !! peer));
          '(reply, pn) ← handle_append_entries now args pn;
          let ns := <[peer := pn]> ns in
          if aer_success reply
          then send_heartbeats now leader term commit lg targets (successes + 1)
                 (<[leader := record_match peer (aer_match_index reply) ln]> ns)
          else send_heartbeats now leader term commit lg targets successes ns
      | _, _ => send_heartbeats now leader term commit lg targets successes ns
      end
  end.

Definition broadcast_heartbeats (now : N) (leader : RaftNodeId) ns : option Nodes :=
  match ns !! leader with
  | None => Some ns
  | Some ln =>
      if negb (is_leader ln) then Some ns else
      let term := current_term ln in
      '(successes, ns) ← send_heartbeats now leader term (commit_index ln) (log ln)
                           (node_ids ns) 1 ns;
      ln ← ns !! leader;
      let ln := if (quorum_size ln <=? successes)%N
                then ln <| read_index_engine ::= record_quorum_success now term |>
                else ln in
      '(_, ln) ← check_quorum_commit ln;
      Some (<[leader := ln]> ns)
  end.

(** The state a candidate takes on when it has won: leader of [term], with the
    replication maps reset for every node of the cluster. *)
Definition become_leader (now term : N) (nid : RaftNodeId) (all : list RaftNodeId) n : Node :=
  let last_log_len := lenN (log n) in
  n <| role := Leader |>
    <| leader_id := Some nid |>
    <| read_index_engine ::= record_quorum_success now term |>
    <| next_index ::= λ m, foldl (λ m p, <[p := last_log_len]> m) m all |>
    <| match_index ::= λ m, <[nid := u64_sub last_log_len 1]>
                              (foldl (λ m p, <[p := 0%N]> m) m all) |>.

Definition start_candidacy (new_term : N) (nid : RaftNodeId) n : Node :=
  n <| current_term := new_term |> <| role := Candidate |>
    <| voted_for := Some nid |>.

Definition trigger_election (now : N) (nid : RaftNodeId) ns : option (bool * Nodes) :=
  match ns !! nid with
  | None => Some (false, ns)
  | Some cand =>
      if is_learner cand then Some (false, ns) else
      let new_term := u64_add (current_term cand) 1 in
      let '(r, s) := save_hard_state (mkRaftHardState new_term (Some nid)) (storage cand) in
      let cand := cand <| storage := s |> in
      if is_err r then Some (false, <[nid := cand]> ns) else
      let cand := start_candidacy new_term nid cand in
      last_entry ← last (log cand);
      let args := mkRequestVoteArgs new_term nid (e_index last_entry) (e_term last_entry) in
      let peers := iter_order (voting_peers cand) in
      '(votes, ns) ← request_votes now args nid peers 1 (<[nid := cand]> ns);
      if (lenN peers / 2 + 1 <=? votes)%N then
        let cand := become_leader now new_term nid (node_ids ns) cand in
        '(_, cand) ← propose NoOp cand;
        ns ← broadcast_heartbeats now nid (<[nid := cand]> ns);
        Some (true, ns)
      else Some (false, <[nid := cand <| role := Follower |>]> ns)
  end.

(** ** Routing *)

(** [get_leader]: the first leader in iteration order. *)
Definition get_leader ns : option RaftNodeId :=
  find_first (λ i, bool_decide (role <$> ns !! i = Some Leader)) (node_ids ns).

(** [route_read_locality] *)
Definition route_step (shard : ShardId) ns (best : option RaftNodeId * N)
    (i : RaftNodeId) : option RaftNodeId * N :=
  match ns !! i with
  | Some n =>
      let lag := (commit_index n - last_applied n)%N in
      if bool_decide (shard ∈ warm_proof_shards n) && (lag <? best.2)%N
      then (Some i, lag) else best
  | None => best
  end.

Definition route_read_locality (shard : ShardId) ns : option RaftNodeId :=
  match (foldl (route_step shard ns) (None, u64_max) (node_ids ns)).1 with
  | Some i => Some i
  | None => head (node_ids ns)
  end.

(** [get_healthiest_candidate] *)
Definition health_step (current_leader : RaftNodeId) ns (best : option RaftNodeId * f64)
    (i : RaftNodeId) : option RaftNodeId * f64 :=
  match ns !! i with
  | Some n =>
      if (i =? current_leader)%N || is_learner n then best else
      let score := suitability_score (storage_health n) in
      if f64_gt score best.2 then (Some i, score) else best
  | None => best
  end.

Definition get_healthiest_candidate (current_leader : RaftNodeId) ns : option RaftNodeId :=
  (foldl (health_step current_leader ns) (None, f64_of_Z (-1)) (node_ids ns)).1.

Definition transfer_leadership_to_healthiest (now : N) (current : RaftNodeId) ns :
    option (HNSQRResult (option RaftNodeId) * Nodes) :=
  match ns !! current with
  | Some ln =>
      if negb (is_leader ln) then Some (Err (Internal "Node is not leader"), ns) else
      match get_healthiest_candidate current ns with
      | None => Some (Ok None, ns)
      | Some target =>
          ns ← broadcast_heartbeats now current ns;
          '(won, ns) ← trigger_election now target ns;
          if (won : bool)
          then Some (Ok (Some target),
                 alter (λ n, n <| pipeline_telemetry ::=
                   λ t, t <| leadership_transfers_total ::= λ c, u64_add c 1 |> |>) current ns)
          else Some (Err (Internal "Leadership transfer failed quorum election"), ns)
      end
  | None => Some (Err (Internal "Node is not leader"), ns)
  end.

(** ** Proposals and reads *)

Definition cluster_propose (now : N) (m : D) ns : option (HNSQRResult N * Nodes) :=
  '(leader, ns) ← (match get_leader ns with
                   | Some l => Some (l, ns)
                   | None =>
                       first ← head (node_ids ns);
                       '(_, ns) ← trigger_election now first ns; Some (first, ns)
                   end);
  ln ← ns !! leader;
  '(r, ln) ← propose_data_mutation now m ln;
  let ns := <[leader := ln]> ns in
  match r with
  | Err err => Some (Err err, ns)
  | Ok rx => ns ← broadcast_heartbeats now leader ns; Some (Ok rx, ns)
  end.

(** The confirmation loop of a ReadIndex round; [Err] is the early return of
    [handle_confirmation(..)?]. *)
Fixpoint confirm_round (now : N) (req : ReadIndexRequest) (leader : RaftNodeId)
    (term quorum : N) (peers : list RaftNodeId) (reached : bool) ns :
    HNSQRResult bool * Nodes :=
  match peers with
  | [] => (Ok reached, ns)
  | peer :: peers =>
      if (peer =? leader)%N then confirm_round now req leader term quorum peers reached ns else
      match ns !! peer, ns !! leader with
      | Some pn, Some ln =>
          let '(conf, pn) := handle_read_index_request now req pn in
          let '(r, e) := handle_confirmation conf now term quorum (read_index_engine ln) in
          let ns := <[leader := ln <| read_index_engine := e |>]> (<[peer := pn]> ns) in
          match r with
          | Err err => (Err err, ns)
          | Ok ok => confirm_round now req leader term quorum peers (ok || reached) ns
          end
      | _, _ => confirm_round now req leader term quorum peers reached ns
      end
  end.

Definition cluster_read_index (ctx : ReadContextId) (now : N) (fuel : nat)
    (poll : nat → N * N) (mode : LinearizableReadMode) ns :
    option (HNSQRResult N * Nodes) :=
  match get_leader ns with
  | None => Some (Err (Internal "No active Raft leader to coordinate ReadIndex"), ns)
  | Some leader =>
      ln ← ns !! leader;
      let term := current_term ln in
      match mode with
      | ReadIndexMode =>
          let '(req, e) := start_read_index_round ctx now term leader (read_index_engine ln) in
          let ns := <[leader := ln <| read_index_engine := e |>]> ns in
          let peers := iter_order (voting_peers ln) in
          let quorum_required := (lenN peers / 2 + 1)%N in
          match confirm_round now req leader term quorum_required peers
                  (quorum_required <=? 1)%N ns with
          | (Err err, ns) => Some (Err err, ns)
          | (Ok false, ns) =>
              Some (Err (Internal "ReadIndex round failed to achieve voting quorum confirmation"), ns)
          | (Ok true, ns) =>
              ln ← ns !! leader;
              if negb (current_term ln =? term)%N
              then Some (Err (Internal "ReadIndex round invalidated: term changed"),
                     <[leader := ln <| read_index_engine ::=
                         λ e, e <| readindex_term_invalidations ::= incr |> |>]> ns)
              else r ← await_read_index fuel poll ln; Some (r, ns)
          end
      | LeaseRead lease_duration_ms max_clock_drift_ms =>
          match validate_lease_contract lease_duration_ms max_clock_drift_ms 1000 with
          | Err err => Some (Err err, ns)
          | Ok _ =>
              ns ← broadcast_heartbeats now leader ns;
              ln ← ns !! leader;
              let '(r, e) := verify_lease_read now (current_term ln)
                               (from_millis lease_duration_ms) (read_index_engine ln) in
              let ln := ln <| read_index_engine := e |> in
              let ns := <[leader := ln]> ns in
              match r with
              | Err err => Some (Err err, ns)
              | Ok _ => r ← await_read_index fuel poll ln; Some (r, ns)
              end
          end
      end
  end.
End cluster.

(** [RaftCluster::new] and [add_learner] run on [MemoryRaftStorage]. *)
Definition cluster_new {M D} `{!HashOrder} (now : N) (ids : list RaftNodeId) :
    option (gmap RaftNodeId (RaftNode (MemoryRaftStorage D) M D)) :=
  foldl (λ ons nid, ns ← ons; n ← node_new now nid ids; Some (<[nid := n]> ns))
    (Some ∅) ids.

Definition add_learner {M D} (now : N) (nid : RaftNodeId)
    (ns : gmap RaftNodeId (RaftNode (MemoryRaftStorage D) M D)) :
    option (gmap RaftNodeId (RaftNode (MemoryRaftStorage D) M D)) :=
  n ← new_learner now nid; Some (<[nid := n]> ns).
