(* ===== verification/RaftNodeFacts.v ===== *)
(** What the operations of a Raft replica guarantee: votes are stable and
    durable, the log stays well formed and equal to the stored one, committed
    entries are applied in order and exactly once, and no operation panics on
    a well-formed node. *)

From S2P Require Import Prelude RaftTypes MemoryStorage Pending ReadIndex Durability.
From S2P Require Import Floats.
From S2P Require Import RaftNode.
From stdpp Require Import base gmap sets strings numbers list fin_maps.

(** ** Votes

    [(term, vote)] pairs only move forward: a later term, or the same term with
    every vote kept. *)

Definition vote_le (t : N) (v : option RaftNodeId) (t' : N) (v' : option RaftNodeId) : Prop :=
  (t < t')%N ∨ (t = t' ∧ ∀ x, v = Some x → v' = Some x).

Lemma vote_le_refl t v : vote_le t v t v.
Proof. right. auto. Qed.

Lemma vote_le_trans t1 v1 t2 v2 t3 v3 :
  vote_le t1 v1 t2 v2 → vote_le t2 v2 t3 v3 → vote_le t1 v1 t3 v3.
Proof.
  intros [?|[-> H1]] [?|[-> H2]]; [left; lia..|right]. auto.
Qed.

(** Two votes of one voter in one term are the same vote. *)
Lemma vote_le_agree t x y : vote_le t (Some x) t (Some y) → x = y.
Proof. intros [?|[_ H]]; [lia|]. specialize (H x eq_refl). congruence. Qed.

#[export] Hint Resolve vote_le_refl : holo.

Section facts.
Context {S M D : Type} `{!RaftStorage S D} `{!ReplicatedStateMachine M D} `{!Mutation D}.
Context `{!RaftStorageLaws S D}.
Implicit Types n : RaftNode S M D.

Definition node_vote_le n n' : Prop :=
  vote_le (current_term n) (voted_for n) (current_term n') (voted_for n').

#[export] Instance node_vote_le_preorder : PreOrder node_vote_le.
Proof.
  split; [intros ?; apply vote_le_refl|]. intros ????. by apply vote_le_trans.
Qed.

(** The hard state on disk is at least as recent as the one in memory. *)
Definition vote_durable n : Prop :=
  ∃ hs, load_hard_state (storage n) = Ok hs ∧
        vote_le (current_term n) (voted_for n) (hs_current_term hs) (hs_voted_for hs).

(** ** What applying entries leaves alone *)

Record same_core n n' : Prop := {
  core_id : id n' = id n;
  core_role : role n' = role n;
  core_term : current_term n' = current_term n;
  core_vote : voted_for n' = voted_for n;
  core_log : log n' = log n;
  core_commit : commit_index n' = commit_index n;
  core_leader : leader_id n' = leader_id n;
  core_next : next_index n' = next_index n;
  core_match : match_index n' = match_index n;
  core_hard : load_hard_state (storage n') = load_hard_state (storage n);
  core_stored i : load_log_entries i (storage n') = load_log_entries i (storage n)
}.

#[export] Instance same_core_preorder : PreOrder same_core.
Proof.
  split; [by split|]. intros n1 n2 n3 [] []. split; intros; etrans; eauto.
Qed.

Lemma apply_entry_core epoch e n c ok n' c' :
  apply_entry epoch e n c = (ok, n', c') → same_core n n'.
Proof. unfold apply_entry. intros. repeat case_match; simplify_eq; by split. Qed.

Lemma apply_loop_core fuel epoch lg target applied n c applied' n' c' :
  apply_loop fuel epoch lg target applied n c = Some (applied', n', c') → same_core n n'.
Proof.
  revert applied n c. induction fuel as [|fuel IH]; intros applied n c; cbn [apply_loop].
  { case_match; [|done]. by intros [= <- <- <-]. }
  case_match; [by intros [= <- <- <-]|].
  case_match; [|by intros [= <- <- <-]].
  destruct (apply_entry epoch _ n c) as [[[] n1] c1] eqn:E; apply apply_entry_core in E.
  - intros Hl%IH. etrans; [done|]. etrans; [|done]. by split.
  - by intros [= <- <- <-].
Qed.

Lemma persist_progress_core commit applied n : same_core n (persist_progress commit applied n).
Proof.
  unfold persist_progress.
  destruct (save_progress _ (storage n)) as [r s] eqn:E.
  apply save_progress_spec in E as (Hlog & Hhs & _).
  destruct r; split; cbn; auto.
Qed.

Lemma apply_committed_core lg target n n' :
  apply_committed_entries lg target n = Some n' → same_core n n'.
Proof.
  unfold apply_committed_entries.
  destruct (apply_loop _ _ _ _ _ _ _) as [[[applied n1] c]|] eqn:E; [|done]. cbn.
  destruct (complete_all _ _) as [p|]; [|done]. cbn. intros [= <-].
  apply apply_loop_core in E. etrans; [done|].
  etrans; [apply (persist_progress_core target applied)|]. by split.
Qed.

(** Along [same_core], votes are kept in memory and on disk. *)
Lemma same_core_vote n n' : same_core n n' → node_vote_le n n'.
Proof. intros []. unfold node_vote_le. rewrite core_term0, core_vote0. apply vote_le_refl. Qed.

Lemma same_core_durable n n' : same_core n n' → vote_durable n → vote_durable n'.
Proof.
  intros [] (hs & Hl & Hv). exists hs. by rewrite core_hard0, core_term0, core_vote0.
Qed.

(** ** Steps that respect votes and roles *)

Record safe_step n n' : Prop := {
  ss_id : id n' = id n;
  ss_vote : node_vote_le n n';
  ss_durable : vote_durable n → vote_durable n';
  ss_leader : role n' = Leader → role n = Leader ∧ current_term n' = current_term n;
  ss_learner : role n' = Learner ↔ role n = Learner
}.

#[export] Instance safe_step_preorder : PreOrder safe_step.
Proof.
  split; [by split|]. intros n1 n2 n3 [] []. split; try congruence; try tauto.
  - by etrans.
  - intros [? ->]%ss_leader1. auto.
Qed.

Lemma same_core_safe n n' : same_core n n' → safe_step n n'.
Proof.
  intros Hc. split; [apply Hc|by apply same_core_vote|by apply same_core_durable|..];
    destruct Hc; rewrite ?core_role0, ?core_term0; auto.
Qed.

(** A node whose storage got a newer hard state, with the fields that do not
    carry votes changed at will. *)
Lemma save_hard_state_durable h r s' n n' :
  save_hard_state h (storage n) = (r, s') →
  storage n' = s' →
  vote_durable n →
  current_term n' = current_term n → voted_for n' = voted_for n →
  vote_le (current_term n) (voted_for n) (hs_current_term h) (hs_voted_for h) →
  vote_durable n'.
Proof.
  intros (_ & _ & _ & Hs)%save_hard_state_spec <- (hs & Hl & Hv) Ht Hvo Hle.
  unfold vote_durable. rewrite Ht, Hvo.
  destruct (is_ok r); [by eauto|]. destruct Hs as [Hs|Hs]; rewrite Hs; eauto.
Qed.

Lemma save_hard_state_ok h r s' n n' :
  save_hard_state h (storage n) = (r, s') → is_err r = false →
  storage n' = s' →
  vote_le (current_term n') (voted_for n') (hs_current_term h) (hs_voted_for h) →
  vote_durable n'.
Proof.
  intros (_ & _ & _ & Hs)%save_hard_state_spec Hr <- Hle.
  unfold is_err in Hr. apply negb_false_iff in Hr. rewrite Hr in Hs. by exists h.
Qed.

Lemma demote_leader (ro : RaftRole) :
  (if bool_decide (ro = Learner) then ro else Follower) = Leader → False.
Proof. case_bool_decide; [by subst|done]. Qed.

Lemma demote_learner (ro : RaftRole) :
  (if bool_decide (ro = Learner) then ro else Follower) = Learner ↔ ro = Learner.
Proof. case_bool_decide; naive_solver. Qed.

(** Both handlers treat a newer term alike. *)
Lemma adopt_term_safe t r s n n' :
  (current_term n < t)%N →
  save_hard_state (mkRaftHardState t None) (storage n) = (r, s) →
  is_err r = false →
  id n' = id n → current_term n' = t → voted_for n' = None → storage n' = s →
  role n' = (if bool_decide (role n = Learner) then role n else Follower) →
  safe_step n n'.
Proof.
  intros Hlt Es Hr Hid Ht Hv Hst Hro. split; [done|..].
  - left. by rewrite Ht.
  - intros _. eapply save_hard_state_ok; [done..|]. cbn. rewrite Ht, Hv. apply vote_le_refl.
  - rewrite Hro. intros []%demote_leader.
  - rewrite Hro. apply demote_learner.
Qed.

Lemma failed_term_safe t r s n :
  (current_term n < t)%N →
  save_hard_state (mkRaftHardState t None) (storage n) = (r, s) →
  safe_step n (n <| storage := s |>).
Proof.
  intros Hlt Es. split; [done|apply vote_le_refl|..]; cbn; [|auto|auto].
  intros Hd. eapply save_hard_state_durable; [done..|]. by left.
Qed.

Lemma vote_adopt_term_spec args n :
  match vote_adopt_term args n with
  | inl (reply, n') => rvr_vote_granted reply = false ∧ safe_step n n'
  | inr n' => safe_step n n' ∧ log n' = log n ∧ (rv_term args ≤ current_term n')%N ∧
      (current_term n' ≤ N.max (current_term n) (rv_term args))%N
  end.
Proof.
  unfold vote_adopt_term. destruct (N.ltb_spec (current_term n) (rv_term args)) as [Hlt|Hge].
  - destruct (save_hard_state _ (storage n)) as [r s] eqn:Es.
    destruct (is_err r) eqn:Hr.
    + split; [done|]. by eapply failed_term_safe.
    + split_and!; [by eapply adopt_term_safe|done|cbn; lia..].
  - split_and!; [done|done|lia..].
Qed.

Lemma handle_request_vote_spec now args n reply n' :
  handle_request_vote now args n = Some (reply, n') →
  safe_step n n' ∧
  (rvr_vote_granted reply = true →
     current_term n' = rv_term args ∧ rvr_term reply = rv_term args ∧
     voted_for n' = Some (rv_candidate_id args) ∧
     load_hard_state (storage n') =
       Ok (mkRaftHardState (rv_term args) (Some (rv_candidate_id args)))) ∧
  (rvr_vote_granted reply = true → ∃ e, last (log n) = Some e ∧
     log_up_to_date args (e_term e) (e_index e) = true).
Proof.
  unfold handle_request_vote. case_match.
  { intros [= <- <-]. split_and!; [done|discriminate..]. }
  pose proof (vote_adopt_term_spec args n) as Ha.
  destruct (vote_adopt_term args n) as [[reply1 n1]|n1].
  { intros [= <- <-]. destruct Ha as [-> ?]. split_and!; [done|discriminate..]. }
  destruct Ha as (Hs1 & Hlog & _ & _).
  rewrite <- Hlog. destruct (last (log n1)) as [e|]; [|done]. cbn.
  destruct (_ && _) eqn:Hcan; [|intros [= <- <-]; split_and!; [done|discriminate..]].
  apply andb_prop in Hcan as [[Hvf Ht%N.eqb_eq]%andb_prop Hup].
  destruct (save_hard_state _ (storage n1)) as [r s] eqn:Es.
  assert (vote_le (current_term n1) (voted_for n1) (current_term n1)
            (Some (rv_candidate_id args))) as Hle.
  { right. split; [done|]. intros x Hx. rewrite Hx in Hvf.
    apply orb_prop in Hvf as [?%bool_decide_eq_true|?%bool_decide_eq_true]; congruence. }
  destruct (is_err r) eqn:Hr; intros [= <- <-].
  - split_and!; [|discriminate..]. etrans; [done|].
    split; cbn; [done|apply vote_le_refl| |auto|auto].
    intros Hd. by eapply save_hard_state_durable.
  - split_and!.
    + etrans; [done|]. split; cbn; [done|done| |auto|auto].
      intros _. eapply save_hard_state_ok; [done..|]. apply vote_le_refl.
    + intros _. cbn. split_and!; [done|done|done|].
      apply save_hard_state_spec in Es as (_ & _ & _ & Hs). unfold is_err in Hr.
      apply negb_false_iff in Hr. rewrite Hr in Hs. by rewrite Ht.
    + intros _. eauto.
Qed.

(** A change of fields that carry no votes and no role. *)
Lemma neutral_safe n n' :
  id n' = id n → current_term n' = current_term n → voted_for n' = voted_for n →
  role n' = role n → load_hard_state (storage n') = load_hard_state (storage n) →
  safe_step n n'.
Proof.
  intros Hid Ht Hv Hro Hl. split; [done|..].
  - unfold node_vote_le. rewrite Ht, Hv. apply vote_le_refl.
  - unfold vote_durable. by rewrite Hl, Ht, Hv.
  - by rewrite Hro, Ht.
  - by rewrite Hro.
Qed.

Lemma advance_commit_safe lc matched n n' :
  advance_commit lc matched n = Some n' → safe_step n n'.
Proof.
  unfold advance_commit. case_match; [|by intros [= <-]].
  intros Ha%apply_committed_core%same_core_safe. etrans; [|done]. by apply neutral_safe.
Qed.

Lemma merge_entries_hard es idx lg s ok lg' s' :
  merge_entries es idx lg s = (ok, lg', s') → load_hard_state s' = load_hard_state s.
Proof.
  revert idx lg s. induction es as [|e es IH]; intros idx lg s; cbn [merge_entries].
  { by intros [= <- <- <-]. }
  destruct (lg !! idx) as [old|].
  - case_match; [apply IH|].
    destruct (truncate_suffix _ s) as [r1 s1] eqn:E1. apply truncate_suffix_spec in E1 as [H1 _].
    destruct (is_err r1); [by intros [= <- <- <-]|].
    destruct (append_entries [e] s1) as [r2 s2] eqn:E2. apply append_entries_spec in E2 as [H2 _].
    destruct (is_err r2); [intros [= <- <- <-]; congruence|]. intros ->%IH. congruence.
  - destruct (append_entries [e] s) as [r2 s2] eqn:E2. apply append_entries_spec in E2 as [H2 _].
    destruct (is_err r2); [by intros [= <- <- <-]|]. intros ->%IH. congruence.
Qed.

Lemma append_adopt_term_spec args n :
  match append_adopt_term args n with
  | inl (reply, n') => aer_success reply = false ∧ safe_step n n' ∧ log n' = log n ∧
      commit_index n' = commit_index n ∧ last_applied n' = last_applied n
  | inr n' => safe_step n n' ∧ log n' = log n ∧ commit_index n' = commit_index n ∧
      last_applied n' = last_applied n ∧
      (∀ i, load_log_entries i (storage n') = load_log_entries i (storage n))
  end.
Proof.
  unfold append_adopt_term. destruct (N.ltb_spec (current_term n) (ae_term args)) as [Hlt|Hge].
  - destruct (save_hard_state _ (storage n)) as [r s] eqn:Es.
    destruct (is_err r) eqn:Hr.
    + split_and!; [done| |done..]. by eapply failed_term_safe.
    + split_and!; [by eapply adopt_term_safe|done..|]. cbn. by eapply save_hard_state_spec.
  - by split_and!.
Qed.

(** The node after the handler has accepted the sender as its leader. *)
Definition follow (now leader : N) n : RaftNode S M D :=
  n <| role ::= λ ro, if bool_decide (ro = Learner) then ro else Follower |>
    <| leader_id := Some leader |>
    <| last_heartbeat_received := now |>.

Lemma follow_safe now leader n : safe_step n (follow now leader n).
Proof.
  split; cbn; [done|apply vote_le_refl|done| |].
  - intros []%demote_leader.
  - apply demote_learner.
Qed.

Lemma handle_append_entries_safe now args n reply n' :
  handle_append_entries now args n = Some (reply, n') → safe_step n n'.
Proof.
  unfold handle_append_entries. pose proof (append_adopt_term_spec args n) as Ha.
  destruct (append_adopt_term args n) as [[reply1 n1]|n1].
  { intros [= <- <-]. apply Ha. }
  destruct Ha as (Hs & _). cbv zeta.
  case_match; [by intros [= <- <-]|]. fold (follow now (ae_leader_id args) n1).
  assert (safe_step n (follow now (ae_leader_id args) n1)) as Hf
    by (etrans; [done|apply follow_safe]).
  set (n2 := follow now (ae_leader_id args) n1) in *. clearbody n2.
  case_match.
  - case_match; [by intros [= <- <-]|].
    destruct (advance_commit _ _ n2) as [n3|] eqn:E; [|done]. cbn. intros [= <- <-].
    etrans; [done|]. by eapply advance_commit_safe.
  - case_match; [case_match; [done|]; by intros [= <- <-]|].
    destruct (merge_entries _ _ _ _) as [[ok lg] s] eqn:Em.
    assert (safe_step n (n2 <| log := lg |> <| storage := s |>)) as Hm.
    { etrans; [done|]. apply neutral_safe; cbn; [done..|]. by eapply merge_entries_hard. }
    case_match; [by intros [= <- <-]|].
    destruct (advance_commit _ _ _) as [n3|] eqn:E; [|done]. cbn. intros [= <- <-].
    etrans; [done|]. by eapply advance_commit_safe.
Qed.

Lemma propose_batch_safe cmds n r n' : propose_batch cmds n = Some (r, n') → safe_step n n'.
Proof.
  unfold propose_batch. case_match; [by intros [= <- <-]|]. cbn.
  destruct (append_entries _ _) as [r1 s1] eqn:Ea. apply append_entries_spec in Ea as [Hh _].
  cbn. destruct r1.
  - destruct (last _); [|done]. cbn. intros [= <- <-]. by apply neutral_safe.
  - intros [= <- <-]. by apply neutral_safe.
Qed.

Lemma propose_safe cmd n r n' : propose cmd n = Some (r, n') → safe_step n n'.
Proof.
  unfold propose. destruct (propose_batch [cmd] n) as [[r1 n1]|] eqn:E; [|done]. cbn.
  apply propose_batch_safe in E. destruct r1; [|by intros [= <- <-]].
  destruct (head _); [|done]. cbn. by intros [= <- <-].
Qed.

Lemma propose_data_mutation_safe now m n r n' :
  propose_data_mutation now m n = Some (r, n') → safe_step n n'.
Proof.
  unfold propose_data_mutation. case_match; [by intros [= <- <-]|].
  destruct (propose (Data m) n) as [[r1 n1]|] eqn:E; [|done]. cbn.
  apply propose_safe in E. destruct r1; [|by intros [= <- <-]].
  destruct (register _ _ _ _) as [r2 p2]. intros [= <- <-]. etrans; [done|]. by apply neutral_safe.
Qed.

Lemma check_quorum_commit_safe n b n' : check_quorum_commit n = Some (b, n') → safe_step n n'.
Proof.
  unfold check_quorum_commit. case_match; [by intros [= <- <-]|]. case_match; [done|].
  destruct (find_commit n _) as [i|]; [|by intros [= <- <-]]. cbv zeta.
  rewrite bind_Some. intros (n1 & E & [= <- <-]).
  apply apply_committed_core, same_core_safe in E.
  transitivity (n <| commit_index := i |>); [by apply neutral_safe|].
  etrans; [apply same_core_safe, persist_progress_core|exact E].
Qed.
End facts.
