(* ===== verification/ElectionSafety.v ===== *)
(** Election safety: however elections, heartbeats, peer messages, proposals,
    reads, crashes and restarts interleave, one term has at most one leader. *)

From S2P Require Import Prelude RaftTypes MemoryStorage Pending ReadIndex Durability.
From S2P Require Import Floats.
From S2P Require Import RaftNode RaftCluster RaftNodeFacts.
From stdpp Require Import base gmap sets strings numbers list fin_maps.

Section safety.
Context {S M D : Type} `{!RaftStorage S D} `{!ReplicatedStateMachine M D} `{!Mutation D}.
Context `{!RaftStorageLaws S D} `{!HashOrder}.
Implicit Types (n : RaftNode S M D) (ns : gmap RaftNodeId (RaftNode S M D)).

(** ** Node-wise steps *)

(** Every node of the cluster takes a safe step. *)
Definition all_safe ns ns' : Prop :=
  ∀ i, option_Forall2 safe_step (ns !! i) (ns' !! i).

#[export] Instance all_safe_preorder : PreOrder all_safe.
Proof.
  split.
  - intros ns i. destruct (ns !! i); constructor. reflexivity.
  - intros ns1 ns2 ns3 H12 H23 i. specialize (H12 i). specialize (H23 i).
    destruct H12; inversion H23; constructor. by etrans.
Qed.

Lemma all_safe_insert ns i n n' :
  ns !! i = Some n → safe_step n n' → all_safe ns (<[i := n']> ns).
Proof.
  intros Hi Hs j. destruct (decide (i = j)) as [<-|Hne].
  - rewrite Hi, lookup_insert_eq. by constructor.
  - rewrite lookup_insert_ne by done. destruct (ns !! j); constructor. reflexivity.
Qed.

Lemma all_safe_lookup ns ns' i n' :
  all_safe ns ns' → ns' !! i = Some n' → ∃ n, ns !! i = Some n ∧ safe_step n n'.
Proof. intros Ha Hi. specialize (Ha i). rewrite Hi in Ha. inversion Ha; eauto. Qed.

Lemma all_safe_lookup_fwd ns ns' i n :
  all_safe ns ns' → ns !! i = Some n → ∃ n', ns' !! i = Some n' ∧ safe_step n n'.
Proof. intros Ha Hi. specialize (Ha i). rewrite Hi in Ha. inversion Ha; eauto. Qed.

(** ** Counting votes *)

Lemma request_votes_spec now args self peers votes ns votes' ns' :
  NoDup peers →
  request_votes now args self peers votes ns = Some (votes', ns') →
  all_safe ns ns' ∧ (∀ i, i ∉ peers ∨ i = self → ns' !! i = ns !! i) ∧
  ∃ Q : gset N, (∀ q, q ∈ Q → q ∈ peers ∧ q ≠ self) ∧
    votes' = (votes + N.of_nat (size Q))%N ∧
    ∀ q, q ∈ Q → ∃ nq, ns' !! q = Some nq ∧ current_term nq = rv_term args ∧
      voted_for nq = Some (rv_candidate_id args).
Proof.
  revert votes ns. induction peers as [|p peers IH]; intros votes ns Hnd; cbn [request_votes].
  { intros [= <- <-]. split_and!; [done|done|]. exists ∅. rewrite size_empty.
    split_and!; [set_solver|lia|set_solver]. }
  apply NoDup_cons in Hnd as [Hp Hnd].
  destruct (N.eqb_spec p self) as [->|Hself].
  { intros (Hs & Hf & Q & HQ & Hv & Hq)%IH; [|done]. split_and!; [done|set_solver|].
    exists Q. split_and!; [set_solver|done|done]. }
  destruct (ns !! p) as [pn|] eqn:Hpn.
  2:{ intros (Hs & Hf & Q & HQ & Hv & Hq)%IH; [|done]. split_and!; [done|set_solver|].
      exists Q. split_and!; [set_solver|done|done]. }
  rewrite bind_Some. intros ([reply pn'] & Eh & Hrest).
  apply handle_request_vote_spec in Eh as (Hsafe & Hgrant & _).
  apply IH in Hrest as (Hs & Hf & Q & HQ & Hv & Hq); [|done].
  assert (all_safe ns (<[p:=pn']> ns)) as Hins by by eapply all_safe_insert.
  split_and!.
  - by etrans.
  - intros i Hi. rewrite Hf by set_solver. rewrite lookup_insert_ne; [done|set_solver].
  - destruct (rvr_vote_granted reply && (rvr_term reply =? rv_term args)%N) eqn:Hg.
    + apply andb_prop in Hg as [Hg _]. destruct (Hgrant Hg) as (Ht & _ & Hvf & _).
      exists ({[p]} ∪ Q). split_and!.
      * set_solver.
      * rewrite size_union, size_singleton by set_solver. lia.
      * intros q [->%elem_of_singleton|Hin]%elem_of_union; [|by apply Hq].
        exists pn'. rewrite Hf by auto. by rewrite lookup_insert_eq.
    + exists Q. split_and!; [set_solver|done|done].
Qed.

(** ** Replication is safe for every node *)

Lemma record_match_safe p m n : safe_step n (record_match p m n).
Proof. by apply neutral_safe. Qed.

Lemma send_heartbeats_safe now leader term commit lg targets k ns k' ns' :
  send_heartbeats now leader term commit lg targets k ns = Some (k', ns') → all_safe ns ns'.
Proof.
  revert k ns. induction targets as [|p targets IH]; intros k ns; cbn [send_heartbeats].
  { by intros [= <- <-]. }
  destruct (N.eqb_spec p leader) as [|Hne]; [apply IH|].
  destruct (ns !! p) as [pn|] eqn:Hp; [|apply IH].
  destruct (ns !! leader) as [ln|] eqn:Hl; [|apply IH].
  rewrite bind_Some. intros (args & _ & Hr). revert Hr.
  rewrite bind_Some. intros ([reply pn'] & Eh%handle_append_entries_safe & Hrest).
  assert (all_safe ns (<[p:=pn']> ns)) as Hins by by eapply all_safe_insert.
  destruct (aer_success reply); apply IH in Hrest; [|by etrans].
  etrans; [exact Hins|]. etrans; [|done]. eapply all_safe_insert; [|apply record_match_safe].
  by rewrite lookup_insert_ne.
Qed.

Lemma broadcast_heartbeats_safe now leader ns ns' :
  broadcast_heartbeats now leader ns = Some ns' → all_safe ns ns'.
Proof.
  unfold broadcast_heartbeats. destruct (ns !! leader) as [ln|]; [|by intros [= <-]].
  case_match; [by intros [= <-]|]. cbv zeta.
  rewrite bind_Some. intros ([k ns1] & Eh%send_heartbeats_safe & Hr). revert Hr.
  rewrite bind_Some. intros (ln1 & Hl1 & Hr). revert Hr.
  rewrite bind_Some. intros ([b ln2] & Ec%check_quorum_commit_safe & [= <-]).
  etrans; [done|]. eapply all_safe_insert; [done|]. etrans; [|done].
  case_match; [by apply neutral_safe|done].
Qed.

(** ** Elections *)

(** Node [nid] has just won term [term] with the votes of [Q]; the other nodes
    took safe steps. *)
Record won (nid : RaftNodeId) (term : N) (Q : gset N) ns ns' : Prop := {
  won_others i : i ≠ nid → option_Forall2 safe_step (ns !! i) (ns' !! i);
  won_self : ∃ n n', ns !! nid = Some n ∧ ns' !! nid = Some n' ∧ id n' = id n ∧
    role n ≠ Learner ∧ role n' = Leader ∧ (current_term n < term)%N ∧
    current_term n' = term ∧ voted_for n' = Some nid ∧ vote_durable n';
  won_votes q : q ∈ Q → ∃ nq, ns' !! q = Some nq ∧ current_term nq = term ∧
    voted_for nq = Some nid;
  won_quorum : ∃ n, ns !! nid = Some n ∧ Q ⊆ {[nid]} ∪ voting_peers n ∧ nid ∈ Q ∧
    (N.of_nat (size (voting_peers n)) / 2 + 1 ≤ N.of_nat (size Q))%N
}.

Lemma iter_order_NoDup X : NoDup (iter_order X).
Proof. rewrite iter_order_perm. apply NoDup_elements. Qed.

Lemma elem_of_iter_order X i : i ∈ iter_order X ↔ i ∈ X.
Proof. rewrite iter_order_perm. apply elem_of_elements. Qed.

Lemma lenN_iter_order X : lenN (iter_order X) = N.of_nat (size X).
Proof. unfold lenN. by rewrite iter_order_perm. Qed.

Lemma u64_succ_lt t : (t < u64_max)%N → u64_add t 1 = (t + 1)%N.
Proof.
  intros. unfold u64_add, u64_wrap. apply N.mod_small. unfold u64_max, u64_modulus in *. lia.
Qed.

Lemma become_leader_won now term nid all n :
  role (become_leader now term nid all n) = Leader ∧
  id (become_leader now term nid all n) = id n ∧
  current_term (become_leader now term nid all n) = current_term n ∧
  voted_for (become_leader now term nid all n) = voted_for n ∧
  storage (become_leader now term nid all n) = storage n.
Proof. by split_and!. Qed.

(** A leader that proposes stays leader of its term. *)
Lemma propose_keeps_leader cmd n r n' :
  propose cmd n = Some (r, n') → role n' = role n ∧ current_term n' = current_term n ∧
  voted_for n' = voted_for n.
Proof.
  unfold propose, propose_batch. destruct (negb (is_leader n)).
  { cbn. by intros [= <- <-]. }
  cbn. destruct (append_entries _ _) as [[] s1]; cbn; by intros [= <- <-].
Qed.

Lemma trigger_election_spec now nid ns b ns' :
  (∀ n, ns !! nid = Some n → (current_term n < u64_max)%N) →
  trigger_election now nid ns = Some (b, ns') →
  (b = false ∧ all_safe ns ns') ∨
  (b = true ∧ ∃ term Q ns1, won nid term Q ns ns1 ∧ all_safe ns1 ns').
Proof.
  intros Hbound. unfold trigger_election. destruct (ns !! nid) as [n|] eqn:Hn.
  2:{ intros [= <- <-]. by left. }
  specialize (Hbound n eq_refl). destruct (is_learner n) eqn:Hlearn.
  { intros [= <- <-]. by left. }
  apply bool_decide_eq_false in Hlearn. cbv zeta. rewrite u64_succ_lt by done.
  destruct (save_hard_state _ (storage n)) as [r s] eqn:Es.
  destruct (is_err r) eqn:Hr.
  { intros [= <- <-]. left. split; [done|]. eapply all_safe_insert; [done|].
    split; cbn; [done|apply vote_le_refl| |auto|auto].
    intros Hd. eapply save_hard_state_durable; [done..|]. left. cbn. lia. }
  rewrite bind_Some. intros (e & _ & Hrest). revert Hrest.
  rewrite bind_Some. intros ([votes ns1] & Ev & Hrest).
  set (cand := start_candidacy (current_term n + 1) nid (n <| storage := s |>)) in *.
  assert (vote_durable cand) as Hdur.
  { eapply save_hard_state_ok; [exact Es|done|done|]. apply vote_le_refl. }
  apply request_votes_spec in Ev as (Hsafe & Hframe & Q & HQ & Hv & Hq); [|apply iter_order_NoDup].
  assert (∀ i, i ≠ nid → option_Forall2 safe_step (ns !! i) (ns1 !! i)) as Hothers.
  { intros i Hi. specialize (Hsafe i). by rewrite lookup_insert_ne in Hsafe. }
  revert Hrest. rewrite lenN_iter_order. case_match eqn:Hwin.
  2:{ intros [= <- <-]. left. split; [done|]. intros i.
      destruct (decide (nid = i)) as [<-|Hi]; [|rewrite lookup_insert_ne; auto].
      rewrite Hn, lookup_insert_eq. constructor. split; cbn; [done| |done|done|naive_solver].
      left. cbn. lia. }
  apply N.leb_le in Hwin. rewrite bind_Some. intros ([pr leader] & Ep & Hrest). revert Hrest.
  rewrite bind_Some. intros (ns2 & Hb%broadcast_heartbeats_safe & [= <- <-]).
  right. split; [done|].
  pose proof (propose_safe _ _ _ _ Ep) as Hps.
  apply propose_keeps_leader in Ep as (Hro & Ht & Hvo).
  exists (current_term n + 1)%N, ({[nid]} ∪ Q), (<[nid := leader]> ns1). split; [|done]. split.
  - intros i Hi. rewrite lookup_insert_ne by done. auto.
  - exists n, leader. rewrite lookup_insert_eq. split_and!; try done.
    + by rewrite (ss_id _ _ Hps).
    + lia.
    + by apply (ss_durable _ _ Hps).
  - intros q [->%elem_of_singleton|Hin]%elem_of_union.
    + exists leader. by rewrite lookup_insert_eq.
    + rewrite lookup_insert_ne; [by apply Hq|]. by destruct (HQ q Hin).
  - exists n. split_and!; [done| |set_solver|].
    + intros q. rewrite !elem_of_union. intros [?|[Hin _]%HQ]; [by left|right].
      by apply elem_of_iter_order in Hin.
    + rewrite size_union, size_singleton; [cbn in *; lia|].
      intros x ->%elem_of_singleton []%HQ. done.
Qed.

(** ** The vote record

    [V i t] is the candidate node [i] is on record as having voted for in term
    [t].  Records are never revised. *)

Abbreviation votes := (RaftNodeId → N → option RaftNodeId) (only parsing).

Definition votes_le (V V' : votes) : Prop := ∀ i t x, V i t = Some x → V' i t = Some x.

#[export] Instance votes_le_preorder : PreOrder votes_le.
Proof. split; [by intros ????|]. intros V1 V2 V3 H1 H2 i t x Hx. auto. Qed.

(** A majority of [P] is on record for [c] in term [t]. *)
Definition elected (P : gset N) (V : votes) (c : RaftNodeId) (t : N) : Prop :=
  ∃ Q : gset N, Q ⊆ P ∧ (size P < 2 * size Q)%nat ∧ ∀ q, q ∈ Q → V q t = Some c.

Lemma elected_mono P V V' c t : votes_le V V' → elected P V c t → elected P V' c t.
Proof. intros HV (Q & ? & ? & HQ). exists Q. split_and!; auto. Qed.

(** Two majorities share a voter, and a voter votes once per term. *)
Lemma elected_unique P V a b t : elected P V a t → elected P V b t → a = b.
Proof.
  intros (Q1 & HP1 & Hs1 & H1) (Q2 & HP2 & Hs2 & H2).
  destruct (decide (Q1 ∩ Q2 = ∅)) as [Hdisj|(q & Hq)%set_choose_L].
  - assert (size (Q1 ∪ Q2) ≤ size P)%nat as Hle by (apply subseteq_size; set_solver).
    rewrite size_union in Hle by set_solver. lia.
  - apply elem_of_intersection in Hq as [Hq1 Hq2]. specialize (H1 q Hq1).
    specialize (H2 q Hq2). congruence.
Qed.

(** The votes in memory are on record, the record never runs ahead of the
    nodes, and every leader was elected in its term. *)
Record inv (P : gset N) (V : votes) ns : Prop := {
  inv_recorded i n x : ns !! i = Some n → voted_for n = Some x →
    V i (current_term n) = Some x;
  inv_past i n t x : ns !! i = Some n → V i t = Some x →
    vote_le t (Some x) (current_term n) (voted_for n);
  inv_leader i n : ns !! i = Some n → role n = Leader → elected P V i (current_term n);
  inv_durable i n : ns !! i = Some n → vote_durable n;
  inv_known i t x : V i t = Some x → is_Some (ns !! i)
}.

(** Recording the votes of a state. *)
Definition record_votes ns (V : votes) : votes := λ i t,
  match ns !! i with
  | Some n => if bool_decide (current_term n = t ∧ is_Some (voted_for n))
              then voted_for n else V i t
  | None => V i t
  end.

(** The part of the invariant about votes survives when every node's vote
    moves forward. *)
Lemma record_votes_spec P V ns ns' :
  inv P V ns →
  (∀ i n', ns' !! i = Some n' →
     ∃ n, ns !! i = Some n ∧ node_vote_le n n') →
  (∀ i, is_Some (ns !! i) → is_Some (ns' !! i)) →
  let V' := record_votes ns' V in
  votes_le V V' ∧
  (∀ i n x, ns' !! i = Some n → voted_for n = Some x → V' i (current_term n) = Some x) ∧
  (∀ i n t x, ns' !! i = Some n → V' i t = Some x →
     vote_le t (Some x) (current_term n) (voted_for n)) ∧
  (∀ i t x, V' i t = Some x → is_Some (ns' !! i)).
Proof.
  intros Hinv Hfwd Hdom V'.
  assert (∀ i n' t x, ns' !! i = Some n' → V i t = Some x →
    vote_le t (Some x) (current_term n') (voted_for n')) as Hpast.
  { intros i n' t x Hi Hx. destruct (Hfwd i n' Hi) as (n & Hn & Hle).
    eapply vote_le_trans; [|exact Hle]. by eapply inv_past. }
  split_and!.
  - intros i t x Hx. unfold V', record_votes. destruct (ns' !! i) as [n'|] eqn:Hi; [|done].
    case_bool_decide as Hc; [|done]. destruct Hc as [<- [y Hy]].
    pose proof (Hpast i n' _ x Hi Hx) as Hle. rewrite Hy in Hle |- *.
    by apply vote_le_agree in Hle as ->.
  - intros i n x Hi Hx. unfold V', record_votes. rewrite Hi.
    by rewrite bool_decide_eq_true_2 by eauto.
  - intros i n t x Hi. unfold V', record_votes. rewrite Hi. case_bool_decide as Hc.
    + destruct Hc as [<- _]. intros ->. apply vote_le_refl.
    + by apply Hpast.
  - intros i t x. unfold V', record_votes. destruct (ns' !! i) as [n'|] eqn:Hi; [eauto|].
    intros Hx. rewrite <- Hi. eapply Hdom, inv_known; eauto.
Qed.

Lemma inv_all_safe P V ns ns' :
  inv P V ns → all_safe ns ns' → ∃ V', votes_le V V' ∧ inv P V' ns'.
Proof.
  intros Hinv Hs. exists (record_votes ns' V).
  destruct (record_votes_spec P V ns ns') as (Hle & Hrec & Hpast & Hkn); [done|..].
  { intros i n' Hi. destruct (all_safe_lookup _ _ _ _ Hs Hi) as (n & Hn & []). eauto. }
  { intros i [n Hn]. destruct (all_safe_lookup_fwd _ _ _ _ Hs Hn) as (? & ? & _). eauto. }
  split; [done|]. split; [done|done|..|done].
  - intros i n' Hi Hlead. destruct (all_safe_lookup _ _ _ _ Hs Hi) as (n & Hn & Hsn).
    destruct (ss_leader _ _ Hsn Hlead) as [Hlead' ->]. eapply elected_mono; [done|]. by eapply inv_leader.
  - intros i n' Hi. destruct (all_safe_lookup _ _ _ _ Hs Hi) as (n & Hn & Hsn).
    eapply ss_durable; [done|]. by eapply inv_durable.
Qed.

Lemma inv_won P V ns nid term Q ns' :
  inv P V ns → won nid term Q ns ns' →
  (∀ n, ns !! nid = Some n → voting_peers n = P ∧ nid ∈ P) →
  ∃ V', votes_le V V' ∧ inv P V' ns'.
Proof.
  intros Hinv Hwon HP. exists (record_votes ns' V).
  destruct (won_self _ _ _ _ _ Hwon) as (n0 & n0' & Hn0 & Hn0' & _ & _ & _ & Hlt & Ht & Hv & Hd).
  assert (∀ i n', i ≠ nid → ns' !! i = Some n' → ∃ n, ns !! i = Some n ∧ safe_step n n') as Hother.
  { intros i n' Hne Hi. pose proof (won_others _ _ _ _ _ Hwon i Hne) as Ho.
    rewrite Hi in Ho. inversion Ho; eauto. }
  destruct (record_votes_spec P V ns ns') as (Hle & Hrec & Hpast & Hkn); [done|..].
  { intros i n' Hi. destruct (decide (i = nid)) as [->|Hne].
    - exists n0. split; [done|]. left. simplify_eq. lia.
    - destruct (Hother i n' Hne Hi) as (n & Hn & []). eauto. }
  { intros i Hi. destruct (decide (i = nid)) as [->|Hne]; [eauto|].
    pose proof (won_others _ _ _ _ _ Hwon i Hne) as Ho. by destruct Ho. }
  split; [done|]. split; [done|done|..|done].
  - intros i n' Hi Hlead. destruct (decide (i = nid)) as [->|Hne].
    + simplify_eq. destruct (won_quorum _ _ _ _ _ Hwon) as (n1 & Hn1 & HQ & _ & Hsz).
      destruct (HP n1 Hn1) as [HPe HPn]. rewrite HPe in *. exists Q. split_and!.
      * set_solver.
      * pose proof (N.div_mod (N.of_nat (size P)) 2 ltac:(done)).
        pose proof (N.mod_lt (N.of_nat (size P)) 2 ltac:(done)). lia.
      * intros q Hq. destruct (won_votes _ _ _ _ _ Hwon q Hq) as (nq & Hnq & <- & Hvq). eauto.
    + destruct (Hother i n' Hne Hi) as (n & Hn & Hsn).
      destruct (ss_leader _ _ Hsn Hlead) as [Hlead' ->]. eapply elected_mono; [done|]. by eapply inv_leader.
  - intros i n' Hi. destruct (decide (i = nid)) as [->|Hne]; [by simplify_eq|].
    destruct (Hother i n' Hne Hi) as (n & Hn & Hsn). eapply ss_durable; [done|].
    by eapply inv_durable.
Qed.

(** ** Runs *)

Definition stepped_down n : RaftNode S M D := n <| role := Follower |>.

(** The atomic operations of a cluster.  Peer messages are arbitrary: nothing
    is assumed about where they come from. *)
Inductive cluster_step : gmap RaftNodeId (RaftNode S M D) →
    gmap RaftNodeId (RaftNode S M D) → Prop :=
  | cs_election now nid b ns ns' :
      trigger_election now nid ns = Some (b, ns') → cluster_step ns ns'
  | cs_heartbeats now nid ns ns' :
      broadcast_heartbeats now nid ns = Some ns' → cluster_step ns ns'
  | cs_request_vote now args nid n reply n' ns :
      ns !! nid = Some n → handle_request_vote now args n = Some (reply, n') →
      cluster_step ns (<[nid := n']> ns)
  | cs_append_entries now args nid n reply n' ns :
      ns !! nid = Some n → handle_append_entries now args n = Some (reply, n') →
      cluster_step ns (<[nid := n']> ns)
  | cs_propose cmds nid n r n' ns :
      ns !! nid = Some n → propose_batch cmds n = Some (r, n') →
      cluster_step ns (<[nid := n']> ns)
  | cs_propose_data now m nid n r n' ns :
      ns !! nid = Some n → propose_data_mutation now m n = Some (r, n') →
      cluster_step ns (<[nid := n']> ns)
  | cs_quorum_commit nid n b n' ns :
      ns !! nid = Some n → check_quorum_commit n = Some (b, n') →
      cluster_step ns (<[nid := n']> ns)
  | cs_step_down nid n ns :
      ns !! nid = Some n → role n = Leader → cluster_step ns (<[nid := stepped_down n]> ns)
  | cs_crash_restart now peers nid n n' ns :
      ns !! nid = Some n → role n ≠ Learner →
      try_with_storage now nid peers (storage n) = Ok n' →
      cluster_step ns (<[nid := n']> ns)
  | cs_join_learner nid n ns :
      ns !! nid = None → id n = nid → role n = Learner → vote_durable n → voted_for n = None →
      cluster_step ns (<[nid := n]> ns).

(** States of a run without membership change: every voter uses the voter set
    [P], and no term has reached the end of [u64]. *)
Definition stable (P : gset N) ns : Prop :=
  ∀ i n, ns !! i = Some n → (current_term n < u64_max)%N ∧
    (role n ≠ Learner → voting_peers n = P ∧ i ∈ P).

Definition stable_step (P : gset N) ns ns' : Prop := stable P ns ∧ cluster_step ns ns'.

(** A restart reloads the hard state, which is at least as recent as the one
    the node crashed with. *)
Lemma try_with_storage_safe now nid peers n n' :
  role n ≠ Learner → vote_durable n →
  try_with_storage now nid peers (storage n) = Ok n' →
  node_vote_le n n' ∧ vote_durable n' ∧ role n' = Follower.
Proof.
  intros Hro (hs & Hhs & Hle). unfold try_with_storage.
  assert (∀ s lg, load_hard_state s = load_hard_state (storage n) →
    (let? hard_state := load_hard_state s in
     let? progress := load_progress s in
     Ok (initial_node now nid peers lg hard_state progress s)) = Ok n' →
    node_vote_le n n' ∧ vote_durable n' ∧ role n' = Follower) as Hgen.
  { intros s lg Hs. rewrite Hs, Hhs. destruct (load_progress s); [|done]. intros [= <-].
    split_and!; [done| |done]. exists hs. cbn. rewrite Hs, Hhs. split; [done|apply vote_le_refl]. }
  destruct (load_log_entries 0 (storage n)) as [[|e lg]|]; [|by apply Hgen|done].
  destruct (append_entries _ (storage n)) as [r s'] eqn:Ea.
  apply append_entries_spec in Ea as [Hl _]. destruct r; [|done]. by apply Hgen.
Qed.

Lemma inv_restart P V ns nid n n' :
  inv P V ns → ns !! nid = Some n →
  node_vote_le n n' → vote_durable n' → role n' = Follower →
  ∃ V', votes_le V V' ∧ inv P V' (<[nid := n']> ns).
Proof.
  intros Hinv Hn Hle Hd Hro. exists (record_votes (<[nid := n']> ns) V).
  destruct (record_votes_spec P V ns (<[nid := n']> ns)) as (HV & Hrec & Hpast & Hkn); [done|..].
  { intros i m [[<- <-]|[Hne Hi]]%lookup_insert_Some; [eauto|]. exists m. split; [done|reflexivity]. }
  { intros i Hi. rewrite lookup_insert. case_decide; [eauto|done]. }
  split; [done|]. split; [done|done|..|done].
  - intros i m [[<- <-]|[Hne Hi]]%lookup_insert_Some Hlead; [congruence|].
    eapply elected_mono; [done|]. by eapply inv_leader.
  - intros i m [[<- <-]|[Hne Hi]]%lookup_insert_Some; [done|]. by eapply inv_durable.
Qed.

Lemma inv_join P V ns nid n :
  inv P V ns → ns !! nid = None → role n = Learner → vote_durable n → voted_for n = None →
  inv P V (<[nid := n]> ns).
Proof.
  intros Hinv Hnone Hro Hd Hv. split.
  - intros i m x [[<- <-]|[Hne Hi]]%lookup_insert_Some; [congruence|]. by eapply inv_recorded.
  - intros i m t x [[<- <-]|[Hne Hi]]%lookup_insert_Some Hx; [|by eapply inv_past].
    apply (inv_known _ _ _ Hinv) in Hx as [? Hx]. congruence.
  - intros i m [[<- <-]|[Hne Hi]]%lookup_insert_Some Hl; [congruence|]. by eapply inv_leader.
  - intros i m [[<- <-]|[Hne Hi]]%lookup_insert_Some; [done|]. by eapply inv_durable.
  - intros i t x Hx. apply (inv_known _ _ _ Hinv) in Hx. rewrite lookup_insert. case_decide; eauto.
Qed.

Lemma inv_step P V ns ns' :
  inv P V ns → stable_step P ns ns' → ∃ V', votes_le V V' ∧ inv P V' ns'.
Proof.
  intros Hinv [Hst Hstep]. destruct Hstep.
  - destruct (trigger_election_spec now nid ns b ns') as [[_ Hs]|(_ & term & Q & ns1 & Hw & Hs)];
      [intros n Hn; by apply (Hst nid n)|done|by eapply inv_all_safe|].
    destruct (inv_won P V ns nid term Q ns1) as (V1 & HV1 & Hinv1); [done|done|..].
    { intros n Hn. destruct (won_self _ _ _ _ _ Hw) as (n0 & ? & Hn0 & _ & _ & Hl & _).
      simplify_eq. by apply (Hst nid n). }
    destruct (inv_all_safe P V1 ns1 ns') as (V2 & HV2 & Hinv2); [done|done|].
    exists V2. split; [by etrans|done].
  - eapply inv_all_safe; [done|]. by eapply broadcast_heartbeats_safe.
  - eapply inv_all_safe; [done|]. eapply all_safe_insert; [done|].
    by eapply handle_request_vote_spec.
  - eapply inv_all_safe; [done|]. eapply all_safe_insert; [done|].
    by eapply handle_append_entries_safe.
  - eapply inv_all_safe; [done|]. eapply all_safe_insert; [done|]. by eapply propose_batch_safe.
  - eapply inv_all_safe; [done|]. eapply all_safe_insert; [done|].
    by eapply propose_data_mutation_safe.
  - eapply inv_all_safe; [done|]. eapply all_safe_insert; [done|].
    by eapply check_quorum_commit_safe.
  - eapply inv_restart; [done|done|apply vote_le_refl| |done]. by apply (inv_durable _ _ _ Hinv nid n).
  - edestruct (try_with_storage_safe now nid peers n n') as (? & ? & ?);
      [done|by eapply inv_durable|done|]. by eapply inv_restart.
  - exists V. split; [done|]. by apply inv_join.
Qed.

Lemma inv_run P V ns ns' :
  inv P V ns → rtc (stable_step P) ns ns' → ∃ V', votes_le V V' ∧ inv P V' ns'.
Proof.
  intros Hinv Hrun. revert V Hinv. induction Hrun as [ns|ns ns1 ns2 Hs Hrun IH]; intros V Hinv.
  { by exists V. }
  destruct (inv_step P V ns ns1) as (V1 & HV1 & Hinv1); [done|done|].
  destruct (IH V1 Hinv1) as (V2 & HV2 & Hinv2). exists V2. split; [by etrans|done].
Qed.

(** A cluster just started: nobody leads, and the nodes' votes are on disk. *)
Definition started ns : Prop :=
  ∀ i n, ns !! i = Some n → role n ≠ Leader ∧ vote_durable n.

Lemma inv_started P ns : started ns → inv P (record_votes ns (λ _ _, None)) ns.
Proof.
  intros Hst. split.
  - intros i n x Hi Hx. unfold record_votes. rewrite Hi. by rewrite bool_decide_eq_true_2 by eauto.
  - intros i n t x Hi. unfold record_votes. rewrite Hi. case_bool_decide as Hc; [|done].
    destruct Hc as [<- _]. intros ->. apply vote_le_refl.
  - intros i n Hi Hl. by destruct (Hst i n Hi).
  - intros i n Hi. by destruct (Hst i n Hi).
  - intros i t x. unfold record_votes. destruct (ns !! i); [eauto|done].
Qed.

(** A step of a stable run puts what every node has voted on record. *)
Lemma inv_vote_recorded P V ns nid n n' now args reply :
  inv P V ns → stable P ns → ns !! nid = Some n →
  handle_request_vote now args n = Some (reply, n') → rvr_vote_granted reply = true →
  ∃ V', votes_le V V' ∧ inv P V' (<[nid := n']> ns) ∧
    V' nid (rv_term args) = Some (rv_candidate_id args).
Proof.
  intros Hinv Hst Hn Eh Hg.
  destruct (inv_step P V ns (<[nid := n']> ns) Hinv) as (V' & HV & Hinv').
  { split; [done|]. by eapply cs_request_vote. }
  exists V'. split_and!; [done|done|].
  apply handle_request_vote_spec in Eh as (_ & Hgrant & _).
  destruct (Hgrant Hg) as (<- & _ & Hv & _).
  apply (inv_recorded _ _ _ Hinv' nid n'); [apply lookup_insert_eq|done].
Qed.


(** Every node sits under its own id, in every state of a run. *)
Definition keyed ns : Prop := ∀ i n, ns !! i = Some n → id n = i.

Lemma all_safe_keyed ns ns' : all_safe ns ns' → keyed ns → keyed ns'.
Proof.
  intros Ha Hk i n' Hi. destruct (all_safe_lookup _ _ _ _ Ha Hi) as (n & Hn & Hs).
  rewrite (ss_id _ _ Hs). by apply Hk.
Qed.

Lemma keyed_insert ns nid n : keyed ns → id n = nid → keyed (<[nid := n]> ns).
Proof. intros Hk Hid i m [[<- <-]|[_ Hi]]%lookup_insert_Some; auto. Qed.

Lemma try_with_storage_id now nid peers (s : S) (n : RaftNode S M D) :
  try_with_storage now nid peers s = Ok n → id n = nid.
Proof.
  unfold try_with_storage. destruct (load_log_entries 0 s) as [[|e l]|]; [| |done].
  - destruct (append_entries _ s) as [[] s']; [|done].
    destruct (load_hard_state s'); [|done]. destruct (load_progress s'); [|done]. by intros [= <-].
  - destruct (load_hard_state s); [|done]. destruct (load_progress s); [|done]. by intros [= <-].
Qed.

Lemma keyed_step P ns ns' : keyed ns → stable_step P ns ns' → keyed ns'.
Proof.
  intros Hk [Hst Hstep]. destruct Hstep as
    [now nid b ns ns' E|now nid ns ns' E|now args nid n reply n' ns Hn E|now args nid n reply n' ns Hn E
    |cmds nid n r n' ns Hn E|now m nid n r n' ns Hn E|nid n b n' ns Hn E|nid n ns Hn _
    |now peers nid n n' ns Hn _ E|nid n ns _ Hid _ _ _].
  - destruct (trigger_election_spec now nid ns b ns') as [[_ Hs]|(_ & term & Q & ns1 & Hw & Hs)];
      [intros n Hn; by apply (Hst nid n)|done|by eapply all_safe_keyed|].
    eapply all_safe_keyed; [done|]. intros i n' Hi. destruct (decide (i = nid)) as [->|Hne].
    + destruct (won_self _ _ _ _ _ Hw) as (n0 & n0' & Hn0 & Hn0' & Hid & _). simplify_eq.
      rewrite Hid. by apply Hk.
    + pose proof (won_others _ _ _ _ _ Hw i Hne) as Ho. rewrite Hi in Ho.
      inversion Ho as [n ? Hs1 Hn|]; subst. rewrite (ss_id _ _ Hs1). by apply Hk.
  - eapply all_safe_keyed; [by eapply broadcast_heartbeats_safe|done].
  - apply keyed_insert; [done|]. apply handle_request_vote_spec in E as [Hs _].
    rewrite (ss_id _ _ Hs). by apply Hk.
  - apply keyed_insert; [done|]. rewrite (ss_id _ _ (handle_append_entries_safe _ _ _ _ _ E)). by apply Hk.
  - apply keyed_insert; [done|]. rewrite (ss_id _ _ (propose_batch_safe _ _ _ _ E)). by apply Hk.
  - apply keyed_insert; [done|]. rewrite (ss_id _ _ (propose_data_mutation_safe _ _ _ _ _ E)). by apply Hk.
  - apply keyed_insert; [done|]. rewrite (ss_id _ _ (check_quorum_commit_safe _ _ _ E)). by apply Hk.
  - apply keyed_insert; [done|]. by apply (Hk nid n).
  - apply keyed_insert; [done|]. by eapply try_with_storage_id.
  - by apply keyed_insert.
Qed.

Lemma keyed_run P ns ns' : keyed ns → rtc (stable_step P) ns ns' → keyed ns'.
Proof. intros Hk Hr. induction Hr; [done|]. eauto using keyed_step. Qed.

(** C1: At most one leader per term over a whole run of the cluster without
    membership change: if one node leads term t in some reachable state and a
    node leads t in that or any later state, they are the same node, whatever
    elections, messages, proposals, storage failures, crashes and restarts
    happen in between. *)
Theorem election_safety P ns0 ns1 ns2 i j ni nj :
  started ns0 →
  rtc (stable_step P) ns0 ns1 → rtc (stable_step P) ns1 ns2 →
  ns1 !! i = Some ni → role ni = Leader →
  ns2 !! j = Some nj → role nj = Leader →
  current_term ni = current_term nj → i = j.
Proof.
  intros Hst Hr1 Hr2 Hi Hli Hj Hlj Ht.
  destruct (inv_run P _ ns0 ns1 (inv_started P ns0 Hst) Hr1) as (V1 & _ & Hinv1).
  destruct (inv_run P V1 ns1 ns2 Hinv1 Hr2) as (V2 & HV & Hinv2).
  pose proof (inv_leader _ _ _ Hinv1 i ni Hi Hli) as He1.
  pose proof (inv_leader _ _ _ Hinv2 j nj Hj Hlj) as He2.
  eapply elected_unique; [eapply elected_mono; [exact HV|exact He1]|]. by rewrite Ht.
Qed.
End safety.
