(* ===== verification/ReadSafety.v ===== *)
(** Linearizable reads: a ReadIndex round that succeeds was confirmed by a
    majority whose terms do not exceed the leader's, so no later term has a
    leader when the read index is handed out; the polling loop for the applied
    index ends with the clock. *)

From S2P Require Import Prelude RaftTypes MemoryStorage Pending ReadIndex Durability.
From S2P Require Import Floats.
From S2P Require Import RaftNode RaftCluster RaftNodeFacts ElectionSafety.
From stdpp Require Import base gmap sets strings numbers list fin_maps.

(** ** Waiting for the state machine *)

Lemma wait_applied_total_from fuel i poll target timeout k :
  i ≤ k → k < fuel + i → (timeout < (poll k).2)%N →
  ∃ j r, i ≤ j ≤ k ∧ wait_applied fuel i poll target timeout = Some r ∧
    (∀ l, i ≤ l < j → ((poll l).1 < target)%N) ∧
    if is_ok r then r = Ok (poll j).1 ∧ (target ≤ (poll j).1)%N
    else ((poll j).1 < target)%N ∧ (timeout < (poll j).2)%N.
Proof.
  revert i. induction fuel as [|fuel IH]; intros i Hik Hf Ht; [lia|]. cbn [wait_applied].
  destruct (poll i) as [cur el] eqn:Hp. destruct (N.leb_spec target cur) as [Hle|Hlt].
  { exists i, (Ok cur). cbn. rewrite Hp. split_and!; [lia|lia|done|lia|done|done]. }
  destruct (N.ltb_spec timeout el) as [Hto|Hto].
  { eexists i, _. split_and!; [lia|lia|done|lia|]. cbn. by rewrite Hp. }
  assert (i ≠ k) as Hne by (intros ->; rewrite Hp in Ht; cbn in Ht; lia).
  destruct (IH (S i)) as (j & r & Hj & Hw & Hb & Hr); [lia|lia|done|].
  exists j, r. split_and!; [lia|lia|done| |done]. intros l Hl.
  destruct (decide (l = i)) as [->|]; [by rewrite Hp|apply Hb; lia].
Qed.

(** wait_applied returns as soon as one poll is past the timeout: it stops
    at the first poll that has either reached the target (Ok with that index) or
    run past the timeout (Err), and never earlier. *)
Lemma wait_applied_total poll target timeout k :
  (timeout < (poll k).2)%N →
  ∃ j r, j ≤ k ∧ (∀ fuel, k < fuel → wait_applied fuel 0 poll target timeout = Some r) ∧
    (∀ l, l < j → ((poll l).1 < target)%N) ∧
    if is_ok r then r = Ok (poll j).1 ∧ (target ≤ (poll j).1)%N
    else ((poll j).1 < target)%N ∧ (timeout < (poll j).2)%N.
Proof.
  intros Ht. destruct (wait_applied_total_from (S k) 0 poll target timeout k)
    as (j & r & Hj & Hw & Hb & Hr); [lia..|done|].
  exists j, r. split_and!; [lia| |intros; apply Hb; lia|done].
  intros fuel Hf. assert (∀ f g i, f ≤ g → ∀ r, wait_applied f i poll target timeout = Some r →
    wait_applied g i poll target timeout = Some r) as Hmono.
  { clear. induction f as [|f IH]; intros [|g] i Hle r; cbn; try done; [lia|].
    destruct (poll i) as [cur el]. do 2 (case_match; [done|]). apply IH. lia. }
  eapply Hmono; [|exact Hw]. lia.
Qed.

Section reads.
Context {S M D : Type} `{!RaftStorage S D} `{!ReplicatedStateMachine M D} `{!Mutation D}.
Context `{!RaftStorageLaws S D} `{!HashOrder}.
Implicit Types (n : RaftNode S M D) (ns : gmap RaftNodeId (RaftNode S M D)).

Lemma size_mono (X Y : gset RaftNodeId) : X ⊆ Y → (N.of_nat (size X) ≤ N.of_nat (size Y))%N.
Proof. intros ?%subseteq_size. lia. Qed.

(** ** What a read leaves alone *)

Definition read_frame n n' : Prop :=
  id n' = id n ∧ current_term n' = current_term n ∧ commit_index n' = commit_index n ∧
  last_applied n' = last_applied n.

Definition reads_frame ns ns' : Prop := ∀ i, option_Forall2 read_frame (ns !! i) (ns' !! i).

Lemma reads_frame_refl ns : reads_frame ns ns.
Proof. intros i. destruct (ns !! i); constructor. by split_and!. Qed.

Lemma reads_frame_insert ns0 ns i n n' :
  reads_frame ns0 ns → ns !! i = Some n → read_frame n n' → reads_frame ns0 (<[i := n']> ns).
Proof.
  intros Hf Hi Hr j. rewrite lookup_insert. case_decide; [|apply Hf]. subst j.
  specialize (Hf i). rewrite Hi in Hf. inversion Hf as [m ? Hm|]; subst. constructor.
  destruct Hm as (?&?&?&?), Hr as (?&?&?&?). split_and!; congruence.
Qed.

Lemma reads_frame_lookup ns0 ns i n :
  reads_frame ns0 ns → ns !! i = Some n → ∃ n0, ns0 !! i = Some n0 ∧ read_frame n0 n.
Proof. intros Hf Hi. specialize (Hf i). rewrite Hi in Hf. inversion Hf; eauto. Qed.

(** ** Confirmations *)

(** The confirmations of round [ctx] come from [X]. *)
Definition round_within (ctx : ReadContextId) (X : gset RaftNodeId) (e : ReadIndexEngine) : Prop :=
  ∀ st, pending_rounds e !! ctx = Some st → confirmations st ⊆ X.

Lemma handle_confirmation_within ctx X conf now term quorum e r e' :
  round_within ctx X e → cf_context conf = ctx →
  handle_confirmation conf now term quorum e = (Ok r, e') →
  cf_term conf = term ∧ round_within ctx ({[cf_node_id conf]} ∪ X) e' ∧
  (r = true → quorum ≤ N.of_nat (size ({[cf_node_id conf]} ∪ X)))%N.
Proof.
  intros Hw Hctx. unfold handle_confirmation.
  destruct (N.eqb_spec (cf_term conf) term) as [Ht|]; cbn [negb]; [|done]. rewrite Hctx.
  destruct (pending_rounds e !! ctx) as [st|] eqn:Hst.
  2:{ intros [= <- <-]. split_and!; [done| |done]. intros st. congruence. }
  destruct (negb _); [done|]. specialize (Hw st Hst).
  set (st' := if cf_success conf then _ else _).
  assert (confirmations st' ⊆ {[cf_node_id conf]} ∪ X) as Hsub.
  { unfold st'. destruct (cf_success conf); cbn; set_solver. }
  destruct (N.leb_spec quorum (N.of_nat (size (confirmations st')))) as [Hq|Hq]; intros [= <- <-];
    split_and!; try done.
  - intros x. cbn. by rewrite lookup_delete_eq.
  - intros _. apply subseteq_size in Hsub. lia.
  - intros x. cbn. rewrite lookup_insert_eq. by intros [= <-].
Qed.

(** The peers of the list, other than the leader, that the cluster has. *)
Definition reachable (leader : RaftNodeId) ns (peers : list RaftNodeId) : gset RaftNodeId :=
  list_to_set (filter (λ p, p ≠ leader ∧ is_Some (ns !! p)) peers).

Lemma reachable_frame leader ns0 ns peers :
  reads_frame ns0 ns → reachable leader ns peers = reachable leader ns0 peers.
Proof.
  intros Hf. unfold reachable. f_equal. apply list_filter_iff. intros p. specialize (Hf p).
  rewrite !is_Some_alt. destruct Hf; done.
Qed.

Lemma confirm_round_spec now req leader term quorum peers reached ns0 ns X b ns' ln :
  keyed ns0 → reads_frame ns0 ns → rq_term req = term →
  ns !! leader = Some ln → round_within (rq_context req) X (read_index_engine ln) →
  confirm_round now req leader term quorum peers reached ns = (Ok b, ns') →
  reads_frame ns0 ns' ∧
  (∀ p n0, p ∈ peers → p ≠ leader → ns0 !! p = Some n0 → (current_term n0 ≤ term)%N) ∧
  (b = true → reached = true ∨ quorum ≤ N.of_nat (size (X ∪ reachable leader ns0 peers)))%N.
Proof.
  intros Hk Hf0 Hreq. revert reached X ns ln Hf0.
  induction peers as [|p peers IH]; intros reached X ns ln Hf Hln Hw; cbn [confirm_round].
  { intros [= <- <-]. split_and!; [done|by intros ?? ?%elem_of_nil|by left]. }
  destruct (N.eqb_spec p leader) as [->|Hne].
  { intros (Hf' & Ht & Hb)%(IH _ X _ ln); [|done..]. split_and!; [done| |].
    - intros q n0 [->|Hq]%elem_of_cons Hql; [done|by eapply Ht].
    - intros [?|Hq]%Hb; [by left|right]. unfold reachable in *. rewrite filter_cons_False; [done|].
      by intros [? _]. }
  destruct (ns !! p) as [pn|] eqn:Hp.
  2:{ intros (Hf' & Ht & Hb)%(IH _ X _ ln); [|done..].
      assert (ns0 !! p = None) as Hp0 by (specialize (Hf p); rewrite Hp in Hf; by inversion Hf).
      split_and!; [done| |].
      - intros q n0 [->|Hq]%elem_of_cons Hql; [congruence|by eapply Ht].
      - intros [?|Hq]%Hb; [by left|right]. unfold reachable in *. rewrite filter_cons_False; [done|].
        intros [_ [? ?]]. congruence. }
  rewrite Hln. destruct (handle_read_index_request now req pn) as [conf pn'] eqn:Er.
  destruct (handle_confirmation _ _ _ _ _) as [r e] eqn:Ec. destruct r as [ok|err]; [|done].
  destruct (reads_frame_lookup _ _ _ _ Hf Hp) as (n0 & Hn0 & Hid & Hterm & _).
  assert (cf_context conf = rq_context req ∧ cf_node_id conf = p ∧ read_frame pn pn' ∧
    (cf_term conf = term → current_term pn ≤ term)%N) as (Hctx & Hnode & Hfr & Hle).
  { unfold handle_read_index_request in Er. rewrite (Hk p n0 Hn0) in Hid.
    destruct (N.ltb_spec (rq_term req) (current_term pn)); injection Er as <- <-;
      cbn; split_and!; try done; lia. }
  destruct (handle_confirmation_within _ X _ _ _ _ _ _ _ Hw Hctx Ec) as (Ht1 & Hw' & Hq).
  rewrite Hnode in *.
  set (ns1 := <[leader := _]> (<[p := pn']> ns)).
  intros (Hf' & Ht & Hb)%(IH _ ({[p]} ∪ X) _ (ln <| read_index_engine := e |>)).
  - split_and!; [done| |].
    + intros q m [->|Hin]%elem_of_cons Hql Hm; [|by eapply Ht]. simplify_eq.
      rewrite <- Hterm. auto.
    + unfold reachable. rewrite filter_cons_True by eauto.
      intros [Hor|Hq2]%Hb; [apply orb_true_iff in Hor as [Hok|?]; [|by left]|].
      * right. etrans; [by apply Hq|]. apply size_mono. cbn. set_solver.
      * right. etrans; [exact Hq2|]. apply size_mono. unfold reachable. cbn. set_solver.
  - eapply reads_frame_insert; [eapply reads_frame_insert; [done|exact Hp|done]| |].
    + rewrite lookup_insert_ne; [exact Hln|done].
    + by split_and!.
  - apply lookup_insert_eq.
  - done.
Qed.

Lemma get_leader_dom ns l :
  get_leader ns = Some l → ∃ n, ns !! l = Some n ∧ role n = Leader.
Proof.
  unfold get_leader. induction (node_ids ns) as [|i ids IH]; cbn [find_first]; [done|].
  case_bool_decide as Hr; [|done]. intros [= ->].
  destruct (ns !! l) as [n|]; [|done]. exists n. cbn in Hr. by injection Hr as ->.
Qed.

(** A successful ReadIndex round: a majority of the voters, the leader among
    them, was in no later term, and the index is the leader's commit index. *)
Lemma cluster_read_index_majority ctx now fuel poll ns idx ns' :
  keyed ns → cluster_read_index ctx now fuel poll ReadIndexMode ns = Some (Ok idx, ns') →
  ∃ leader ln, ns !! leader = Some ln ∧ role ln = Leader ∧ idx = commit_index ln ∧
    ((idx ≤ last_applied ln)%N ∨ ∃ k, (idx ≤ (poll k).1)%N) ∧
    ∃ Q : gset N, Q ⊆ {[leader]} ∪ voting_peers ln ∧ size (voting_peers ln) < 2 * size Q ∧
      ∀ q, q ∈ Q → ∃ nq, ns !! q = Some nq ∧ (current_term nq ≤ current_term ln)%N.
Proof.
  intros Hk. unfold cluster_read_index. destruct (get_leader ns) as [leader|] eqn:Hg; [|done].
  apply get_leader_dom in Hg as (ln & Hln & Hrole).
  rewrite Hln. cbn [mbind option_bind].
  destruct (start_read_index_round ctx now (current_term ln) leader (read_index_engine ln))
    as [req e] eqn:Es.
  destruct (confirm_round _ _ _ _ _ _ _ _) as [[[]|err] ns1] eqn:Ec; [|done|done].
  unfold start_read_index_round in Es. injection Es as <- <-.
  eapply (confirm_round_spec _ _ _ _ _ _ _ ns _ {[leader]}) in Ec as (Hf & Ht & Hq);
    [|done|eapply reads_frame_insert; [apply reads_frame_refl|exact Hln|by split_and!]
     |done|apply lookup_insert_eq|].
  2:{ intros st. cbn. rewrite lookup_insert_eq. by intros [= <-]. }
  rewrite bind_Some. intros (ln1 & Hln1 & Hr).
  destruct (reads_frame_lookup _ _ _ _ Hf Hln1) as (ln0 & Hln0 & _ & Hterm & Hcom & Hla). simplify_eq.
  destruct (negb _); [done|]. revert Hr. rewrite bind_Some. intros (r & Ha & [= -> <-]).
  exists leader, ln. split_and!; [done|done|..].
  - unfold await_read_index in Ha. repeat case_match; congruence.
  - unfold await_read_index in Ha. destruct (N.ltb_spec (last_applied ln1) (commit_index ln1)).
    + destruct (wait_applied _ _ _ _ _) as [[cur|]|] eqn:Ew; simplify_eq. right. revert Ew.
      generalize 0 as i. clear. induction fuel as [|fuel IH]; intros i; cbn [wait_applied]; [done|].
      destruct (poll i) as [c el] eqn:Hp. destruct (N.leb_spec (commit_index ln1) c).
      * intros _. exists i. by rewrite Hp.
      * case_match; [done|]. apply IH.
    + left. simplify_eq. by rewrite <- Hla.
  - exists ({[leader]} ∪ reachable leader ns (iter_order (voting_peers ln))).
    assert (∀ q, q ∈ reachable leader ns (iter_order (voting_peers ln)) →
      q ∈ iter_order (voting_peers ln) ∧ q ≠ leader ∧ is_Some (ns !! q)) as Hreach.
    { intros q. unfold reachable. rewrite elem_of_list_to_set, list_elem_of_filter. tauto. }
    split_and!.
    + intros q. rewrite !elem_of_union. intros [?|[Hq1 _]%Hreach]; [by left|right].
      by apply elem_of_iter_order.
    + specialize (Hq eq_refl). rewrite lenN_iter_order in Hq.
      set (v := size (voting_peers ln)) in *.
      pose proof (N.div_mod (N.of_nat v) 2 ltac:(done)) as Hdm.
      pose proof (N.mod_lt (N.of_nat v) 2 ltac:(done)) as Hmod.
      assert (1 ≤ size ({[leader]} ∪ reachable leader ns (iter_order (voting_peers ln)))) as H1.
      { rewrite <- (size_singleton (C := gset N) leader). apply subseteq_size. set_solver. }
      destruct Hq as [Hq%N.leb_le|Hq]; lia.
    + intros q [->%elem_of_singleton|(Hin & Hne & [nq Hnq])%Hreach]%elem_of_union; [by exists ln|].
      exists nq. split; [done|]. by eapply Ht.
Qed.

End reads.
