(* ===== verification/Routing.v ===== *)
(** Leadership transfer of [RaftCluster]: the node chosen to take over is
    another voter with usable storage, and none of them scores higher. *)

From Stdlib Require Import ZArith SpecFloat.
From S2P Require Import Prelude RaftTypes MemoryStorage Pending ReadIndex Durability.
From S2P Require Import Floats.
From S2P Require Import RaftNode RaftCluster.
From stdpp Require Import base gmap sets strings numbers list fin_maps.

(** ** Scores *)

(** A store in working order: writable, without I/O errors, with disk space. *)
Definition storage_usable (h : StorageHealthMetrics) : Prop :=
  is_read_only h = false ∧ io_error_count h = 0%N ∧ (100000000 ≤ free_disk_bytes h)%N.

Lemma f64_max_zero_above a : f64_gt (f64_max a (f64_of_Z 0)) (f64_of_Z (-1)) = true.
Proof. destruct a as [[]|[]| |[] m e]; reflexivity. Qed.

(** Exactly the usable stores score more than the [-1.0] the search starts from. *)
Lemma score_usable h :
  f64_gt (suitability_score h) (f64_of_Z (-1)) = true ↔ storage_usable h.
Proof.
  unfold storage_usable, suitability_score.
  destruct (is_read_only h); [cbn; split; [done|naive_solver]|].
  destruct (N.ltb_spec 0 (io_error_count h)); [cbn; split; [done|lia]|].
  destruct (N.ltb_spec (free_disk_bytes h) 100000000); [cbn; split; [done|lia]|].
  cbn [orb]. split; [intros _; split_and!; [done|lia|lia]|intros _; apply f64_max_zero_above].
Qed.

Section routing.
Context {S M D : Type} `{!RaftStorage S D} `{!ReplicatedStateMachine M D} `{!Mutation D}.
Context `{!HashOrder}.
Implicit Types (n : RaftNode S M D) (ns : gmap RaftNodeId (RaftNode S M D)).

(** A node that may take over from [current]. *)
Definition eligible (current : RaftNodeId) ns (i : RaftNodeId) n : Prop :=
  ns !! i = Some n ∧ i ≠ current ∧ role n ≠ Learner ∧ storage_usable (storage_health n).

Definition score n : f64 := suitability_score (storage_health n).

(** What the search keeps while it goes through the nodes. *)
Record best_so_far (current : RaftNodeId) ns (seen : list RaftNodeId)
    (best : option RaftNodeId * f64) : Prop := {
  bs_node : match best.1 with
            | Some i => ∃ n, eligible current ns i n ∧ best.2 = score n
            | None => best.2 = f64_of_Z (-1)
            end;
  bs_max i n : i ∈ seen → eligible current ns i n → f64_gt (score n) best.2 = false
}.

Lemma best_above current ns seen best :
  best_so_far current ns seen best → ∀ x, f64_gt x best.2 = true → f64_gt x (f64_of_Z (-1)) = true.
Proof.
  intros [Hb _] x Hx. destruct best as [[i|] b]; cbn in *; [|by subst].
  destruct Hb as (n & (_ & _ & _ & Hu) & ->). apply score_usable in Hu. unfold f64_gt in *.
  by eapply f64_lt_trans.
Qed.

Lemma health_step_best current ns seen best i :
  best_so_far current ns seen best →
  best_so_far current ns (seen ++ [i]) (health_step current ns best i).
Proof.
  intros Hbest. pose proof Hbest as [Hb Hmax]. unfold health_step.
  assert ((∀ n, eligible current ns i n → f64_gt (score n) best.2 = false) →
    best_so_far current ns (seen ++ [i]) best) as Hskip.
  { intros Hi. split; [done|]. intros j n [Hj| ->%list_elem_of_singleton]%elem_of_app; eauto. }
  destruct (ns !! i) as [n|] eqn:Hi; [|apply Hskip; intros n (Hn & _); congruence].
  destruct (N.eqb_spec i current) as [->|Hne]; [by apply Hskip; intros m (_ & ? & _)|]. cbn [orb].
  unfold is_learner. case_bool_decide as Hl; [apply Hskip; intros m (Hm & _ & ? & _); by simplify_eq|].
  destruct (f64_gt (suitability_score (storage_health n)) best.2) eqn:Hgt.
  2:{ apply Hskip. intros m (Hm & _). by simplify_eq. }
  split.
  - exists n. split; [|done]. split_and!; [done..|]. apply score_usable. by eapply best_above.
  - intros j m Hj He. cbn. apply not_true_iff_false. intros Hx.
    apply elem_of_app in Hj as [Hj| ->%list_elem_of_singleton].
    + specialize (Hmax j m Hj He). unfold f64_gt in *.
      rewrite (f64_lt_trans _ _ _ Hgt Hx) in Hmax. done.
    + destruct He as (Hm & _). simplify_eq. unfold f64_gt, score in Hx. by rewrite f64_lt_irrefl in Hx.
Qed.

(** get_healthiest_candidate returns an eligible node (a non-learner other
    than the current leader whose storage is writable, error-free and has space)
    such that no eligible node has a greater suitability score, under binary64
    arithmetic and any hash-map order, and returns None only when no node is
    eligible. *)
Lemma healthiest_candidate_spec current ns :
  match get_healthiest_candidate current ns with
  | Some i => ∃ n, eligible current ns i n ∧
      ∀ j m, eligible current ns j m → f64_gt (score m) (score n) = false
  | None => ∀ j m, ¬ eligible current ns j m
  end.
Proof.
  assert (∀ l seen best, best_so_far current ns seen best →
    best_so_far current ns (seen ++ l) (foldl (health_step current ns) best l)) as Hfold.
  { induction l as [|i l IH]; intros seen best Hb; cbn [foldl]; [by rewrite app_nil_r|].
    rewrite (cons_middle i seen l), app_assoc. by apply IH, health_step_best. }
  destruct (Hfold (node_ids ns) [] (None, f64_of_Z (-1))) as [Hb Hmax].
  { split; [done|]. by intros ?? ?%elem_of_nil. }
  assert (∀ j m, eligible current ns j m → j ∈ node_ids ns) as Hin.
  { intros j m (Hj & _). unfold node_ids. rewrite iter_order_perm.
    apply elem_of_elements, elem_of_dom. eauto. }
  unfold get_healthiest_candidate. destruct (foldl _ _ _) as [[i|] b]; cbn in *.
  - destruct Hb as (n & He & ->). exists n. split; [done|]. intros j m Hm. by eapply Hmax; eauto.
  - subst b. intros j m Hm. pose proof Hm as (_ & _ & _ & Hu). apply score_usable in Hu.
    specialize (Hmax j m (Hin j m Hm) Hm). change (f64_gt (score m) (f64_of_Z (-1)) = true) in Hu.
    cbn in Hu. congruence.
Qed.
End routing.
