(* ===== verification/RaftLogFacts.v ===== *)
(** The log of a replica: merging a leader's entries, proposing, choosing the
    commit index, and applying committed entries in order. *)

From S2P Require Import Prelude RaftTypes MemoryStorage Pending ReadIndex Durability.
From S2P Require Import Floats.
From S2P Require Import RaftNode RaftNodeFacts.
From stdpp Require Import base gmap sets strings numbers list fin_maps.

(** ** Well-formed logs *)

(** Entries numbered consecutively from [start] on. *)
Definition numbered {D} (start : nat) (es : list (RaftLogEntry D)) : Prop :=
  ∀ k e, es !! k = Some e → e_index e = N.of_nat (start + k).

(** The log of a replica: the entry at position [k] carries index [k], and the
    sentinel is there. *)
Definition wf_log {D} (lg : list (RaftLogEntry D)) : Prop := numbered 0 lg ∧ lg ≠ [].

(** What merging the entries [es] of a message at position [idx] should give:
    keep the longest prefix that agrees on terms; if it is all of [es] the log
    stays (even when it is longer), otherwise the rest is replaced. *)
Fixpoint agree_len {D} (es lg : list (RaftLogEntry D)) : nat :=
  match es, lg with
  | e :: es, o :: lg => if (e_term o =? e_term e)%N then S (agree_len es lg) else 0
  | _, _ => 0
  end.

Definition merge_ref {D} (idx : nat) (es lg : list (RaftLogEntry D)) : list (RaftLogEntry D) :=
  let c := agree_len es (drop idx lg) in
  if bool_decide (c = length es) then lg else take (idx + c) lg ++ drop c es.

Section numbered.
Context {D : Type}.
Implicit Types (lg es : list (RaftLogEntry D)).

Lemma numbered_nil start : numbered start ([] : list (RaftLogEntry D)).
Proof. intros k e. by rewrite lookup_nil. Qed.

Lemma numbered_cons start e es :
  numbered start (e :: es) ↔ e_index e = N.of_nat start ∧ numbered (S start) es.
Proof.
  split.
  - intros Hn. split; [by rewrite (Hn 0 e), Nat.add_0_r|].
    intros k e' Hk. rewrite (Hn (S k) e' Hk). f_equal. lia.
  - intros [He Hn] [|k] e'; cbn; [intros [= <-]; by rewrite Nat.add_0_r|].
    intros Hk. rewrite (Hn k e' Hk). f_equal. lia.
Qed.

Lemma numbered_app start es1 es2 :
  numbered start (es1 ++ es2) ↔ numbered start es1 ∧ numbered (start + length es1) es2.
Proof.
  revert start. induction es1 as [|e es1 IH]; intros start; cbn [app length].
  { rewrite Nat.add_0_r. split; [auto using numbered_nil|by intros [_ ?]]. }
  rewrite !numbered_cons, IH, Nat.add_succ_r. tauto.
Qed.

Lemma numbered_take start n es : numbered start es → numbered start (take n es).
Proof. intros Hn k e [Hk _]%lookup_take_Some. by apply Hn. Qed.

Lemma numbered_drop start n es : numbered start es → numbered (start + n) (drop n es).
Proof. intros Hn k e. rewrite lookup_drop. intros Hk. rewrite (Hn _ _ Hk). f_equal. lia. Qed.

Lemma agree_len_le es lg : agree_len es lg ≤ length es ∧ agree_len es lg ≤ length lg.
Proof.
  revert lg. induction es as [|e es IH]; intros [|o lg]; cbn; try lia.
  destruct (e_term o =? e_term e)%N; [|lia]. specialize (IH lg). lia.
Qed.

Lemma agree_len_terms es lg k e :
  k < agree_len es lg → es !! k = Some e → ∃ o, lg !! k = Some o ∧ e_term o = e_term e.
Proof.
  revert lg k. induction es as [|e0 es IH]; intros [|o lg] k; cbn; try lia.
  destruct (N.eqb_spec (e_term o) (e_term e0)); [|lia].
  destruct k as [|k]; cbn; [intros _ [= <-]; eauto|]. intros Hk. apply IH. lia.
Qed.

Lemma merge_ref_wf idx es lg :
  0 < idx ≤ length lg → wf_log lg → numbered idx es → wf_log (merge_ref idx es lg).
Proof.
  intros Hidx [Hlg Hne] Hes. unfold merge_ref. case_bool_decide as Hc; [done|].
  destruct (agree_len_le es (drop idx lg)) as [Hle1 Hle2]. rewrite length_drop in Hle2. split.
  - apply numbered_app. split; [by apply numbered_take|]. rewrite length_take_le by lia.
    by apply (numbered_drop idx).
  - intros [Ht _]%app_eq_nil. apply (f_equal length) in Ht. rewrite length_take in Ht. cbn in Ht. lia.
Qed.

(** The merged log keeps the prefix and holds every entry's term. *)
Lemma merge_ref_prefix idx es lg k :
  idx ≤ length lg → k < idx → merge_ref idx es lg !! k = lg !! k.
Proof.
  intros Hl Hk. unfold merge_ref. case_bool_decide; [done|].
  rewrite lookup_app_l by (rewrite length_take; lia). apply lookup_take_lt. lia.
Qed.

Lemma merge_ref_terms idx es lg k e :
  idx ≤ length lg → es !! k = Some e →
  ∃ e', merge_ref idx es lg !! (idx + k) = Some e' ∧ e_term e' = e_term e.
Proof.
  intros Hidx He. set (c := agree_len es (drop idx lg)).
  destruct (agree_len_le es (drop idx lg)) as [Hle1 Hle2]. rewrite length_drop in Hle2. fold c in Hle1, Hle2.
  destruct (decide (k < c)) as [Hk|Hk].
  - destruct (agree_len_terms _ _ _ _ Hk He) as (o & Ho & Ht). rewrite lookup_drop in Ho.
    exists o. split; [|done]. unfold merge_ref. fold c. case_bool_decide; [done|].
    rewrite lookup_app_l by (rewrite length_take; lia). rewrite lookup_take_lt by lia. done.
  - exists e. split; [|done]. unfold merge_ref. fold c.
    rewrite bool_decide_eq_false_2 by (apply lookup_lt_Some in He; lia).
    rewrite lookup_app_r; rewrite length_take_le by lia; [|lia].
    rewrite lookup_drop. rewrite <- He. f_equal. lia.
Qed.

(** At the end of the log the entries are appended. *)
Lemma merge_ref_end idx es lg : length lg = idx → merge_ref idx es lg = lg ++ es.
Proof.
  intros <-. unfold merge_ref. rewrite drop_all. destruct es as [|e es]; cbn [agree_len length].
  { by rewrite bool_decide_eq_true_2, app_nil_r. }
  rewrite bool_decide_eq_false_2 by lia. by rewrite Nat.add_0_r, take_ge.
Qed.

(** Where the agreement stops, the log ends or has another term. *)
Lemma agree_len_stop es lg o :
  agree_len es lg < length es → lg !! agree_len es lg = Some o →
  ∃ e, es !! agree_len es lg = Some e ∧ e_term o ≠ e_term e.
Proof.
  revert lg. induction es as [|e es IH]; intros [|o' lg]; cbn; try lia; [done|].
  destruct (N.eqb_spec (e_term o') (e_term e)); cbn; [|intros _ [= ->]; eauto].
  intros ?. apply IH. lia.
Qed.

(** A prefix of length [c] that the entries do not contradict is never cut. *)
Lemma merge_ref_keeps idx es lg c :
  idx ≤ length lg → c ≤ length lg →
  (∀ k e o, es !! k = Some e → lg !! (idx + k) = Some o → idx + k < c → e_term o = e_term e) →
  c ≤ length (merge_ref idx es lg) ∧ take c (merge_ref idx es lg) = take c lg.
Proof.
  intros Hidx Hc Hcon. unfold merge_ref. case_bool_decide as Hall; [done|].
  destruct (agree_len_le es (drop idx lg)) as [Hle1 Hle]. rewrite length_drop in Hle.
  assert (c ≤ idx + agree_len es (drop idx lg)) as Hag.
  { destruct (decide (c ≤ idx + agree_len es (drop idx lg))) as [|Hn]; [done|].
    destruct (lookup_lt_is_Some_2 lg (idx + agree_len es (drop idx lg))) as [o Ho]; [lia|].
    destruct (agree_len_stop es (drop idx lg) o) as (e & He & Hne); [lia|by rewrite lookup_drop|].
    destruct Hne. eapply Hcon; [done..|lia]. }
  rewrite length_app, length_take_le by lia. split; [lia|].
  rewrite take_app_le by (rewrite length_take_le; lia). rewrite take_take. f_equal. lia.
Qed.
End numbered.

Section log_facts.
Context {S M D : Type} `{!RaftStorage S D} `{!ReplicatedStateMachine M D} `{!Mutation D}.
Implicit Types (n : RaftNode S M D) (lg es : list (RaftLogEntry D)).

Lemma agree_len_snoc_prefix es lg idx e old :
  lg !! idx = Some old →
  agree_len (e :: es) (drop idx lg) =
  if (e_term old =? e_term e)%N then Datatypes.S (agree_len es (drop (Datatypes.S idx) lg)) else 0.
Proof. intros Ho. by rewrite (drop_S lg old idx) by done. Qed.

(** The loop of [handle_append_entries] computes the reference merge, of all
    entries or of those before the first storage error. *)
Lemma merge_entries_ref es idx lg s ok lg' s' :
  idx ≤ length lg → merge_entries es idx lg s = (ok, lg', s') →
  ∃ j, lg' = merge_ref idx (take j es) lg ∧ (ok = true → take j es = es).
Proof.
  revert idx lg s. induction es as [|e es IH]; intros idx lg s Hidx; cbn [merge_entries].
  { intros [= <- <- <-]. by exists 0. }
  assert (∀ o, lg !! idx = Some o ∨ idx = length lg ∧ o = e → e_term o ≠ e_term e ∨ idx = length lg →
    ∀ s2, merge_entries es (Datatypes.S idx) (take idx lg ++ [e]) s2 = (ok, lg', s') →
    ∃ j, lg' = merge_ref idx (take j (e :: es)) lg ∧ (ok = true → take j (e :: es) = e :: es)) as Hpush.
  { intros o Ho Hne s2 Hm.
    apply IH in Hm as (j & -> & Hj); [|rewrite length_app, length_take; cbn; lia].
    exists (Datatypes.S j). cbn [take]. split; [|intros ?; f_equal; auto].
    rewrite merge_ref_end by (rewrite length_app, length_take; cbn; lia).
    rewrite <- app_assoc. cbn. destruct (decide (idx = length lg)) as [->|Hlt].
    - by rewrite merge_ref_end, firstn_all by done.
    - destruct Ho as [Ho|[? _]]; [|done]. unfold merge_ref.
      rewrite (agree_len_snoc_prefix (take j es) lg idx e o Ho).
      destruct (N.eqb_spec (e_term o) (e_term e)); [tauto|].
      cbn [length]. rewrite bool_decide_eq_false_2 by lia. by rewrite Nat.add_0_r. }
  destruct (lg !! idx) as [old|] eqn:Ho.
  - pose proof (lookup_lt_Some _ _ _ Ho) as Hlt. destruct (N.eqb_spec (e_term old) (e_term e)).
    + intros (j & -> & Hj)%IH; [|lia]. exists (Datatypes.S j). cbn [take].
      split; [|intros ?; f_equal; auto]. unfold merge_ref.
      rewrite (agree_len_snoc_prefix (take j es) lg idx e old Ho). rewrite (proj2 (N.eqb_eq _ _)) by done.
      cbn [length]. repeat case_bool_decide; try lia; try done. by rewrite Nat.add_succ_r.
    + destruct (truncate_suffix _ s) as [r1 s1].
      destruct (is_err r1); [intros [= <- <- <-]; by exists 0|].
      destruct (append_entries [e] s1) as [r2 s2].
      destruct (is_err r2); [intros [= <- <- <-]; by exists 0|].
      intros Hm. eapply Hpush; [by left|by left|exact Hm].
  - apply lookup_ge_None in Ho. assert (idx = length lg) as Heq by lia.
    destruct (append_entries [e] s) as [r2 s2].
    destruct (is_err r2); [intros [= <- <- <-]; by exists 0|].
    intros Hm. apply (Hpush e ltac:(auto) ltac:(auto) s2). by rewrite Heq, firstn_all, <- Heq.
Qed.

(** ** The stored log *)

(** What is on disk is the log in memory. *)
Definition synced n : Prop := load_log_entries 0 (storage n) = Ok (log n).

Context `{!RaftStorageLaws S D}.

Lemma append_one_synced e s s' r lg :
  load_log_entries 0 s = Ok lg → e_index e = lenN lg →
  append_entries [e] s = (r, s') → is_err r = false → load_log_entries 0 s' = Ok (lg ++ [e]).
Proof.
  intros Hl He (_ & _ & _ & Ha)%append_entries_spec Hr. specialize (Ha lg Hl).
  destruct r; [|done]. apply Ha. intros [|k] e'; [|by rewrite lookup_cons, lookup_nil].
  intros [= <-]. rewrite He. lia.
Qed.

Lemma merge_entries_synced es idx lg s lg' s' :
  idx ≤ length lg → numbered idx es → load_log_entries 0 s = Ok lg →
  merge_entries es idx lg s = (true, lg', s') → load_log_entries 0 s' = Ok lg'.
Proof.
  revert idx lg s. induction es as [|e es IH]; intros idx lg s Hidx Hnum Hl; cbn [merge_entries].
  { by intros [= <- <-]. }
  apply numbered_cons in Hnum as [He Hnum].
  destruct (lg !! idx) as [old|] eqn:Ho.
  - apply lookup_lt_Some in Ho as Hlt. case_match; [apply IH; [lia|done..]|].
    destruct (truncate_suffix _ s) as [r1 s1] eqn:E1. destruct (is_err r1) eqn:Hr1; [done|].
    destruct (append_entries [e] s1) as [r2 s2] eqn:E2. destruct (is_err r2) eqn:Hr2; [done|].
    apply IH; [rewrite length_app, length_take; cbn; lia|done|].
    apply truncate_suffix_spec in E1 as (_ & _ & _ & Ht). specialize (Ht lg Hl).
    destruct r1; [|done]. cbn in Ht. unfold truncateN in Ht. rewrite Nat2N.id in Ht.
    eapply append_one_synced; [done| |done..].
    rewrite He. unfold lenN. rewrite length_take. f_equal. lia.
  - apply lookup_ge_None in Ho.
    destruct (append_entries [e] s) as [r2 s2] eqn:E2. destruct (is_err r2) eqn:Hr2; [done|].
    apply IH; [rewrite length_app; cbn; lia|done|].
    eapply append_one_synced; [done| |done..]. rewrite He. unfold lenN. f_equal. lia.
Qed.

(** ** AppendEntries *)

(** How the commit index of a follower moves on a success. *)
Definition new_commit (leader_commit matched commit : N) : N :=
  if (commit <? leader_commit)%N then N.min leader_commit matched else commit.

Lemma advance_commit_spec lc matched n n' :
  advance_commit lc matched n = Some n' →
  commit_index n' = new_commit lc matched (commit_index n) ∧ log n' = log n ∧
  (∀ i, load_log_entries i (storage n') = load_log_entries i (storage n)).
Proof.
  unfold advance_commit, new_commit. case_match; [|by intros [= <-]].
  intros []%apply_committed_core. cbn in *. auto.
Qed.

Lemma prev_matches_spec args lg :
  prev_matches args lg = true →
  ∃ e, nth_u64 lg (ae_prev_log_index args) = Some e ∧ e_term e = ae_prev_log_term args.
Proof. unfold prev_matches. case_match; [|done]. intros ?%N.eqb_eq. eauto. Qed.

(** The message's entries start right behind [prev_log_index] and are numbered. *)
Definition wf_message (args : AppendEntriesArgs D) : Prop :=
  numbered (N.to_nat (ae_prev_log_index args + 1)) (ae_entries args).

(** A successful AppendEntries reply means the entry before the batch
    matched in index and term, the log is the old one with the batch merged in
    after it (kept up to the first conflicting term, extended from there),
    match_index is the last index of that log, the commit index follows the
    leader's, and the stored log mirrors the one in memory if it did before. *)
Lemma append_entries_accepted now args n reply n' :
  handle_append_entries now args n = Some (reply, n') → aer_success reply = true →
  ∃ ep, nth_u64 (log n) (ae_prev_log_index args) = Some ep ∧
    e_term ep = ae_prev_log_term args ∧
    log n' = merge_ref (N.to_nat (ae_prev_log_index args + 1)) (ae_entries args) (log n) ∧
    aer_match_index reply = (lenN (log n') - 1)%N ∧
    commit_index n' = new_commit (ae_leader_commit args) (lenN (log n') - 1) (commit_index n) ∧
    (wf_message args → synced n → synced n').
Proof.
  unfold handle_append_entries, synced. pose proof (append_adopt_term_spec args n) as Ha.
  destruct (append_adopt_term args n) as [[reply1 n1]|n1].
  { intros [= <- <-]. destruct Ha as [-> _]. done. }
  destruct Ha as (_ & <- & <- & _ & Hst). rewrite <- (Hst 0%N). cbv zeta.
  case_match; [by intros [= <- <-]|]. fold (follow now (ae_leader_id args) n1).
  change (log n1) with (log (follow now (ae_leader_id args) n1)).
  change (commit_index n1) with (commit_index (follow now (ae_leader_id args) n1)).
  change (storage n1) with (storage (follow now (ae_leader_id args) n1)).
  generalize (follow now (ae_leader_id args) n1) as n2. intros n2.
  destruct (prev_matches args (log n2)) eqn:Hp; cbn [negb].
  2:{ case_match; [by intros [= <- <-]|]. case_match; [done|]. by intros [= <- <-]. }
  apply prev_matches_spec in Hp as (ep & Hep & Htep).
  apply lookup_lt_Some in Hep as Hlt. case_match eqn:Hhb.
  - apply andb_prop in Hhb as [_ Hnil%bool_decide_eq_true]. rewrite Hnil.
    rewrite bind_Some. intros (n3 & (Hc & Hl & Hs)%advance_commit_spec & [= <- <-]) _.
    exists ep. rewrite Hl, Hs. split_and!; done.
  - destruct (merge_entries _ _ _ _) as [[ok lg] s] eqn:Em.
    destruct ok; cbn [negb]; [|by intros [= <- <-]].
    rewrite bind_Some. intros (n3 & (Hc & Hl & Hs)%advance_commit_spec & [= <- <-]) _.
    exists ep. cbn in Hc, Hl, Hs. rewrite Hl, Hs. split_and!; [done|done| |done|done|].
    + apply merge_entries_ref in Em as (j & -> & Hj); [by rewrite Hj|lia].
    + intros Hw Hsy. eapply merge_entries_synced; [|exact Hw|exact Hsy|exact Em]. lia.
Qed.
End log_facts.
