(* ===== verification/RaftApply.v ===== *)
(** Applying committed entries: the loop of [apply_committed_entries] against
    an abstract executor that consumes the log in order, termination of the
    loop, and the receipts handed to the waiting clients. *)

From S2P Require Import Prelude RaftTypes MemoryStorage Pending ReadIndex Durability.
From S2P Require Import Floats.
From S2P Require Import RaftNode RaftNodeFacts RaftLogFacts.
From stdpp Require Import base gmap sets strings numbers list fin_maps.

(** ** The abstract executor *)

(** The part of a replica that log entries act on. *)
Record AppState (M : Type) := mkAppState {
  as_sm : option M;
  as_epoch : N;
  as_owners : gmap ShardId RaftNodeId;
  as_peers : gset RaftNodeId
}.
Arguments mkAppState {M}.
Arguments as_sm {M} _.
Arguments as_epoch {M} _.
Arguments as_owners {M} _.
Arguments as_peers {M} _.

(** What a state machine promises to the replica that drives it: the receipts
    of its states carry positive indices. *)
Class RsmLaws (M D : Type) `{ReplicatedStateMachine M D} := {
  rsm_inv : M → Prop;
  rsm_apply_inv i d m r m' : rsm_inv m → (0 < i)%N → rsm_apply i d m = (r, m') →
    rsm_inv m' ∧ ∀ rc, r = Ok rc → (0 < ar_applied_index rc)%N
}.

Section exec.
Context {M D : Type} `{!ReplicatedStateMachine M D}.
Implicit Types a : AppState M.

Definition exec_entry (e : RaftLogEntry D) a : bool * AppState M :=
  match e_command e with
  | NoOp => (true, a)
  | Topology top =>
      (true, mkAppState (as_sm a) (tm_epoch top) (tm_shard_owners top ∪ as_owners a) (as_peers a))
  | Membership mem =>
      (true, mkAppState (as_sm a) (as_epoch a) (as_owners a) (list_to_set (mm_new_peers mem)))
  | Data d =>
      match as_sm a with
      | None => (false, a)
      | Some m =>
          let '(r, m') := rsm_apply (e_index e) d m in
          (is_ok r, mkAppState (Some m') (as_epoch a) (as_owners a) (as_peers a))
      end
  end.

(** Entries in order up to the first failure: how many took effect, and the
    state reached. *)
Fixpoint exec_entries (es : list (RaftLogEntry D)) a : nat * AppState M :=
  match es with
  | [] => (0, a)
  | e :: es =>
      let '(ok, a') := exec_entry e a in
      if ok then (S (exec_entries es a').1, (exec_entries es a').2) else (0, a')
  end.

Lemma exec_entries_le es a : (exec_entries es a).1 ≤ length es.
Proof.
  revert a. induction es as [|e es IH]; intros a; cbn [exec_entries length]; [done|].
  destruct (exec_entry e a) as [[] a']; cbn; [|lia]. specialize (IH a'). lia.
Qed.

(** The state machine has run [k] of the entries, in order: an entry that fails
    may leave effects and is tried again before any entry after it, an entry that
    has succeeded is not applied again, and nothing else is applied. *)
Inductive ran (es : list (RaftLogEntry D)) (a0 : AppState M) : nat → AppState M → Prop :=
  | ran_start : ran es a0 0 a0
  | ran_retry k a a' e : ran es a0 k a → es !! k = Some e → exec_entry e a = (false, a') → ran es a0 k a'
  | ran_next k a a' e : ran es a0 k a → es !! k = Some e → exec_entry e a = (true, a') → ran es a0 (S k) a'.

Lemma ran_mono es es' a0 k a : es `prefix_of` es' → ran es a0 k a → ran es' a0 k a.
Proof.
  intros Hp. assert (∀ j e, es !! j = Some e → es' !! j = Some e) as Hl by (intros; by eapply prefix_lookup_Some).
  induction 1; [constructor|eapply ran_retry; eauto|eapply ran_next; eauto].
Qed.

(** Executing what is left goes on with the run, to the end or to an entry that
    fails. *)
Lemma ran_exec es a0 w : ∀ k a, ran es a0 k a → drop k es = w →
  let '(j, a') := exec_entries w a in
  ran es a0 (k + j) a' ∧ (j = length w ∨ ∃ e a1, w !! j = Some e ∧ exec_entry e a1 = (false, a')).
Proof.
  induction w as [|e w IH]; intros k a Hr Hd; cbn [exec_entries].
  { rewrite Nat.add_0_r. auto. }
  assert (es !! k = Some e) as He by (rewrite <- (Nat.add_0_r k), <- lookup_drop, Hd; done).
  destruct (exec_entry e a) as [[] a1] eqn:Ee.
  - specialize (IH (S k) a1 (ran_next _ _ _ _ _ _ Hr He Ee)).
    destruct (exec_entries w a1) as [j a2]. destruct IH as [H1 H2]; [by rewrite (drop_S _ _ _ He) in Hd; injection Hd|].
    cbn. split; [by replace (k + S j) with (S k + j) by lia|]. destruct H2 as [->|H2]; [by left|by right].
  - rewrite Nat.add_0_r. split; [by eapply ran_retry|]. right. by exists e, a.
Qed.
End exec.

Section apply.
Context {S M D : Type} `{!RaftStorage S D} `{!ReplicatedStateMachine M D} `{!Mutation D}.
Implicit Types (n : RaftNode S M D) (lg es : list (RaftLogEntry D)).

Definition app_state n : AppState M :=
  mkAppState (replicated_sm n) (topology_epoch n) (shard_owners n) (voting_peers n).

(** The entries still to apply: positions [applied + 1 .. target]. *)
Definition window (applied target : N) lg : list (RaftLogEntry D) :=
  take (N.to_nat target - N.to_nat applied) (drop (Datatypes.S (N.to_nat applied)) lg).

Lemma apply_entry_exec epoch e n c ok n' c' :
  apply_entry epoch e n c = (ok, n', c') →
  exec_entry e (app_state n) = (ok, app_state n') ∧ last_applied n' = last_applied n ∧
  pending_proposals n' = pending_proposals n.
Proof.
  unfold apply_entry, exec_entry. destruct (e_command e); cbn [as_sm app_state];
    try (by intros [= <- <- <-]).
  destruct (replicated_sm n) as [m|] eqn:Hm; [|by intros [= <- <- <-]].
  destruct (rsm_apply (e_index e) d m) as [[rc|err] m']; by intros [= <- <- <-].
Qed.

Lemma window_done applied target lg : (target ≤ applied)%N → window applied target lg = [].
Proof. intros. unfold window. by replace (_ - _) with 0 by lia. Qed.

Lemma window_end applied target lg :
  nth_u64 lg (applied + 1) = None → window applied target lg = [].
Proof.
  intros Hn%lookup_ge_None. unfold window. rewrite drop_ge by lia. apply take_nil.
Qed.

Lemma window_cons applied target lg e :
  (applied < target)%N → nth_u64 lg (applied + 1) = Some e →
  window applied target lg = e :: window (applied + 1) target lg.
Proof.
  intros Hlt He. unfold window, nth_u64 in *.
  replace (N.to_nat (applied + 1)) with (Datatypes.S (N.to_nat applied)) in * by lia.
  rewrite (drop_S lg e) by done.
  by replace (N.to_nat target - N.to_nat applied)
    with (Datatypes.S (N.to_nat target - Datatypes.S (N.to_nat applied))) by lia.
Qed.

(** With enough fuel the loop ends, and it ends where the executor does. *)
Lemma apply_loop_exec fuel epoch lg target n c :
  numbered 0 lg → length lg < fuel + Datatypes.S (N.to_nat (last_applied n)) → 0 < fuel →
  ∃ n' c', apply_loop fuel epoch lg target (last_applied n) n c =
             Some (last_applied n', n', c') ∧
    pending_proposals n' = pending_proposals n ∧
    exec_entries (window (last_applied n) target lg) (app_state n) =
      (N.to_nat (last_applied n' - last_applied n), app_state n') ∧
    (last_applied n ≤ last_applied n')%N.
Proof.
  intros Hnum. revert n c. induction fuel as [|fuel IH]; intros n c Hlen Hfuel; [lia|].
  cbn [apply_loop]. destruct (N.leb_spec target (last_applied n)) as [Hle|Hlt].
  { exists n, c. rewrite window_done by done. rewrite N.sub_diag. by split_and!. }
  destruct (nth_u64 lg (last_applied n + 1)) as [e|] eqn:He.
  2:{ exists n, c. rewrite window_end by done. rewrite N.sub_diag. by split_and!. }
  apply lookup_lt_Some in He as Hl.
  destruct (apply_entry epoch e n c) as [[ok n1] c1] eqn:Ea.
  apply apply_entry_exec in Ea as (Hx & Hla & Hpend).
  rewrite (window_cons _ _ _ e) by done. cbn [exec_entries]. rewrite Hx.
  destruct ok.
  - assert (e_index e = last_applied n + 1)%N as Hi by (rewrite (Hnum _ _ He); lia).
    destruct (IH (n1 <| last_applied := e_index e |>) c1) as (n' & c' & El & Hp & Hw & Hmono);
      [cbn; lia..|].
    exists n', c'. cbn in *. rewrite El, Hp, Hi in *. split_and!; [done|done| |lia].
    change (app_state (n1 <| last_applied := _ |>)) with (app_state n1) in Hw. rewrite Hw.
    cbn [fst snd]. f_equal. lia.
  - exists n1, c1. rewrite Hla, N.sub_diag. by split_and!.
Qed.

(** ** Receipts *)

(** A completion the loop collected belongs to an entry of the log that it has
    just applied. *)
Definition completion_of lg (lo hi : N)
    (x : ProposalId * N * N * N * DurabilityLevel) : Prop :=
  ∃ e d, nth_u64 lg (e_index e) = Some e ∧ e_command e = Data d ∧
    x.1.1.1.1 = mkProposalId (e_term e) (e_index e) ∧ x.1.1.1.2 = e_term e ∧
    (lo < e_index e ≤ hi)%N.

Lemma completion_of_mono lg lo hi lo' hi' x :
  (lo' ≤ lo)%N → (hi ≤ hi')%N → completion_of lg lo hi x → completion_of lg lo' hi' x.
Proof. intros ?? (e & d & ? & ? & ? & ? & ?). exists e, d. split_and!; [done..|lia|lia]. Qed.

Lemma apply_entry_complete epoch e n c ok n' c' :
  apply_entry epoch e n c = (ok, n', c') →
  to_complete c' = to_complete c ∨
  ∃ d m rc m' x, e_command e = Data d ∧ ok = true ∧ replicated_sm n = Some m ∧
    rsm_apply (e_index e) d m = (Ok rc, m') ∧ to_complete c' = to_complete c ++ [x] ∧
    x = (mkProposalId (e_term e) (e_index e), e_term e, ar_applied_index rc, epoch,
         QuorumReplicated).
Proof.
  unfold apply_entry. destruct (e_command e) eqn:Ec; try (intros [= <- <- <-]; by left).
  destruct (replicated_sm n) as [m|]; [|intros [= <- <- <-]; by left].
  destruct (rsm_apply (e_index e) d m) as [[rc|err] m'] eqn:Er; intros [= <- <- <-]; [|by left].
  right. exists d, m, rc, m'. eexists. by split_and!.
Qed.

Lemma apply_loop_receipts fuel epoch lg target n c applied n' c' :
  numbered 0 lg →
  apply_loop fuel epoch lg target (last_applied n) n c = Some (applied, n', c') →
  ∃ xs, to_complete c' = to_complete c ++ xs ∧
    Forall (completion_of lg (last_applied n) applied) xs ∧ (last_applied n ≤ applied)%N.
Proof.
  intros Hnum. revert n c. induction fuel as [|fuel IH]; intros n c; cbn [apply_loop].
  { case_match; [|done]. intros [= <- <- <-]. exists []. by rewrite app_nil_r. }
  destruct (N.leb_spec target (last_applied n)).
  { intros [= <- <- <-]. exists []. by rewrite app_nil_r. }
  destruct (nth_u64 lg (last_applied n + 1)) as [e|] eqn:He.
  2:{ intros [= <- <- <-]. exists []. by rewrite app_nil_r. }
  assert (e_index e = last_applied n + 1)%N as Hi by (rewrite (Hnum _ _ He); lia).
  destruct (apply_entry epoch e n c) as [[ok n1] c1] eqn:Ea.
  apply apply_entry_complete in Ea. destruct ok.
  2:{ intros [= <- <- <-]. exists []. rewrite app_nil_r.
      destruct Ea as [->|(?&?&?&?&?&?&?&_)]; done. }
  intros El. specialize (IH (n1 <| last_applied := e_index e |>) c1). cbn in IH.
  destruct (IH El) as (xs & Hc & Hxs & Hle).
  assert (Forall (completion_of lg (last_applied n) applied) xs) as Hxs'.
  { eapply Forall_impl; [exact Hxs|]. intros x. apply completion_of_mono; lia. }
  destruct Ea as [Hc1|(d & m & rc & m' & x & Hd & _ & _ & _ & Hc1 & Hx)].
  - exists xs. rewrite Hc, Hc1. split_and!; [done|done|lia].
  - exists (x :: xs). rewrite Hc, Hc1, <- app_assoc. split_and!; [done| |lia].
    constructor; [|done]. exists e, d. subst x. cbn. rewrite Hi at 1. split_and!; [done..|lia|lia].
Qed.

(** The completions carry positive indices, so no assertion fails. *)
Lemma apply_loop_positive `{!RsmLaws M D} fuel epoch lg target n c applied n' c' :
  numbered 0 lg → (∀ m, replicated_sm n = Some m → rsm_inv m) →
  Forall (λ x, (0 < x.1.1.2)%N) (to_complete c) →
  apply_loop fuel epoch lg target (last_applied n) n c = Some (applied, n', c') →
  Forall (λ x, (0 < x.1.1.2)%N) (to_complete c') ∧ (∀ m, replicated_sm n' = Some m → rsm_inv m).
Proof.
  intros Hnum. revert n c. induction fuel as [|fuel IH]; intros n c Hm Hpos; cbn [apply_loop].
  { case_match; [|done]. by intros [= <- <- <-]. }
  case_match; [by intros [= <- <- <-]|].
  destruct (nth_u64 lg (last_applied n + 1)) as [e|] eqn:He; [|by intros [= <- <- <-]].
  assert (e_index e = last_applied n + 1)%N as Hi by (rewrite (Hnum _ _ He); lia).
  destruct (apply_entry epoch e n c) as [[ok n1] c1] eqn:Ea.
  assert (Forall (λ x, (0 < x.1.1.2)%N) (to_complete c1) ∧
          (∀ m, replicated_sm n1 = Some m → rsm_inv m)) as [Hpos1 Hm1].
  { unfold apply_entry in Ea. destruct (e_command e); try (by injection Ea as <- <- <-).
    destruct (replicated_sm n) as [m|] eqn:Hsm; [|injection Ea as <- <- <-; by rewrite Hsm].
    destruct (rsm_apply (e_index e) d m) as [r m'] eqn:Er.
    apply rsm_apply_inv in Er as [Hm' Hrc]; [|by apply Hm|lia].
    destruct r as [rc|err]; injection Ea as <- <- <-; cbn.
    - split; [|by intros ? [= <-]]. apply Forall_app. split; [done|].
      constructor; [|done]. cbn. by apply Hrc.
    - by split; [|intros ? [= <-]]. }
  destruct ok; [|by intros [= <- <- <-]].
  intros El. specialize (IH (n1 <| last_applied := e_index e |>) c1). cbn in IH.
  by apply IH.
Qed.

Lemma complete_all_Some l p :
  Forall (λ x, (0 < x.1.1.2)%N) l → is_Some (complete_all l p).
Proof.
  unfold complete_all. revert p. induction l as [|[[[[pid t] i] ep] d] l IH]; intros p Hl.
  { by eexists. }
  apply Forall_cons in Hl as [Hi Hl]. cbn [foldl]. cbn in Hi |- *.
  assert (∃ b p', complete_applied pid t i ep d p = Some (b, p')) as (b & p' & E).
  { unfold complete_applied, new_verified. destruct (entries p !! pid); [|eauto].
    apply N.ltb_lt in Hi as ->. cbn. eauto. }
  rewrite E. cbn. by apply IH.
Qed.

(** A success on a channel comes from one of the completions. *)
Lemma complete_all_ok l p p' ch r :
  complete_all l p = Some p' → channels p' !! ch = Some (Resolved (Ok r)) →
  channels p !! ch = Some (Resolved (Ok r)) ∨
  ∃ x, x ∈ l ∧ cr_log_index r = p_log_index x.1.1.1.1 ∧ cr_term r = x.1.1.1.2 ∧
    cr_applied_index r = x.1.1.2 ∧ cr_state_machine_applied r = true.
Proof.
  unfold complete_all. revert p.
  induction l as [|[[[[pid t] i] ep] d] l IH]; intros p; cbn [foldl].
  { intros [= <-]. by left. }
  cbn. destruct (complete_applied pid t i ep d p) as [[b p1]|] eqn:E; cbn.
  2:{ intros Hf. exfalso. clear -Hf. induction l as [|[[[[??]?]?]?] l IH]; [done|]. auto. }
  intros Hf Hch. destruct (IH p1 Hf Hch) as [H1|(x & Hx & ?)].
  - unfold complete_applied, new_verified in E.
    destruct (entries p !! pid) as [en|]; [|injection E as <- <-; by left].
    destruct (0 <? i)%N; [|done]. cbn in E. injection E as <- <-. cbn in H1.
    apply lookup_insert_Some in H1 as [[_ [= <-]]|[_ H1]]; [|by left].
    right. eexists. split; [apply elem_of_cons; by left|]. by split_and!.
  - right. exists x. split; [apply elem_of_cons; by right|done].
Qed.

Lemma fail_all_ok l p ch r :
  channels (fail_all l p) !! ch = Some (Resolved (Ok r)) →
  channels p !! ch = Some (Resolved (Ok r)).
Proof.
  unfold fail_all. revert p. induction l as [|[pid err] l IH]; intros p; cbn [foldl]; [done|].
  intros Hch%IH. unfold fail_proposal in Hch. cbn in Hch.
  destruct (entries p !! pid) as [en|]; [|done]. cbn in Hch.
  by apply lookup_insert_Some in Hch as [[_ [=]]|[_ Hch]].
Qed.

(** ** [apply_committed_entries] *)

Context `{!RaftStorageLaws S D}.

Lemma persist_progress_frame commit applied n :
  app_state (persist_progress commit applied n) = app_state n ∧
  last_applied (persist_progress commit applied n) = last_applied n ∧
  pending_proposals (persist_progress commit applied n) = pending_proposals n.
Proof. unfold persist_progress. by destruct (save_progress _ (storage n)) as [[] s]. Qed.

(** The whole call returns and does what the executor does on the window. *)
Lemma apply_committed_exec `{!RsmLaws M D} lg target n :
  numbered 0 lg → (∀ m, replicated_sm n = Some m → rsm_inv m) →
  ∃ n', apply_committed_entries lg target n = Some n' ∧
    exec_entries (window (last_applied n) target lg) (app_state n) =
      (N.to_nat (last_applied n' - last_applied n), app_state n') ∧
    (last_applied n ≤ last_applied n')%N ∧
    (∀ m, replicated_sm n' = Some m → rsm_inv m).
Proof.
  intros Hnum Hm. unfold apply_committed_entries.
  destruct (apply_loop_exec (Datatypes.S (length lg)) (topology_epoch n) lg target n
              (mkCompletions [] [])) as (n1 & c & El & _ & Hx & Hle); [done|lia..|].
  destruct (apply_loop_positive _ _ _ _ _ (mkCompletions [] []) _ _ _ Hnum Hm
    (Forall_nil_2 _) El) as [Hpos Hm1].
  rewrite El. cbn. destruct (persist_progress_frame target (last_applied n1) n1) as (Ha & Hl & _).
  destruct (complete_all_Some (to_complete c)
    (pending_proposals (persist_progress target (last_applied n1) n1)) Hpos) as [p Hp].
  rewrite Hp. cbn. eexists. split; [done|]. cbn. rewrite Hl. split_and!; [|done|].
  - rewrite Hx. f_equal. rewrite <- Ha. done.
  - intros m. change (replicated_sm (persist_progress target (last_applied n1) n1))
      with (as_sm (app_state (persist_progress target (last_applied n1) n1))).
    rewrite Ha. apply Hm1.
Qed.

(** C5: A proposal's channel is resolved with success by apply_committed_entries
    only for a data entry of the log at the receipt's index and term that this
    very call applied. *)
Theorem apply_committed_receipts lg target n n' ch r :
  numbered 0 lg → apply_committed_entries lg target n = Some n' →
  channels (pending_proposals n) !! ch ≠ Some (Resolved (Ok r)) →
  channels (pending_proposals n') !! ch = Some (Resolved (Ok r)) →
  ∃ e d, nth_u64 lg (cr_log_index r) = Some e ∧ e_command e = Data d ∧
    e_term e = cr_term r ∧ (last_applied n < cr_log_index r ≤ last_applied n')%N.
Proof.
  intros Hnum. unfold apply_committed_entries.
  destruct (apply_loop_exec (Datatypes.S (length lg)) (topology_epoch n) lg target n
              (mkCompletions [] [])) as (n1 & c & El & Hp & _); [done|lia..|].
  rewrite El. destruct (apply_loop_receipts _ _ _ _ _ _ _ _ _ Hnum El) as (xs & Hc & Hxs & _).
  cbn in Hc |- *. destruct (persist_progress_frame target (last_applied n1) n1) as (_ & Hl & Hpp).
  rewrite Hpp, Hp, Hc. rewrite bind_Some. intros (p & Hcomp & [= <-]) Hold Hnew. cbn in Hnew |- *.
  apply fail_all_ok in Hnew.
  destruct (complete_all_ok _ _ _ _ _ Hcomp Hnew) as [?|(x & Hx & Hi & Ht & _)]; [done|].
  rewrite Forall_forall in Hxs. destruct (Hxs x Hx) as (e & d & He & Hd & Hpid & Hterm & Hr).
  exists e, d. rewrite Hi, Hpid, Hl. cbn. by rewrite <- Hterm, Ht.
Qed.
End apply.
