(* ===== verification/RaftReplica.v ===== *)
(** The invariant of a replica: its log is well formed, commit and applied
    indices lie inside it, and its application state is reached by running the
    applied prefix in order.  Every operation returns (no panic, no endless loop)
    and keeps it; recovery replays the stored prefix. *)

From S2P Require Import Prelude RaftTypes MemoryStorage Pending ReadIndex Durability.
From S2P Require Import Floats.
From S2P Require Import RaftNode RaftNodeFacts RaftLogFacts RaftApply.
From stdpp Require Import base gmap sets strings numbers list fin_maps.

Section replica.
Context {S M D : Type} `{!RaftStorage S D} `{!ReplicatedStateMachine M D} `{!Mutation D}.
Context `{!RaftStorageLaws S D} `{!RsmLaws M D}.
Implicit Types (n : RaftNode S M D) (lg es : list (RaftLogEntry D)) (a : AppState M).

(** [n] has run exactly the first [last_applied n] entries of its log, in order
    and starting from [a0]; only committed entries have been tried. *)
Record replica_wf (a0 : AppState M) n : Prop := {
  rw_log : wf_log (log n);
  rw_applied : (last_applied n ≤ commit_index n)%N;
  rw_commit : (commit_index n < lenN (log n))%N;
  rw_sm m : replicated_sm n = Some m → rsm_inv m;
  rw_exec : ran (window 0 (commit_index n) (log n)) a0 (N.to_nat (last_applied n)) (app_state n)
}.

Lemma replica_wf_frame a0 n n' :
  log n' = log n → commit_index n' = commit_index n → last_applied n' = last_applied n →
  app_state n' = app_state n → replica_wf a0 n → replica_wf a0 n'.
Proof.
  intros Hl Hc Ha Hs []. split; rewrite ?Hl, ?Hc, ?Ha, ?Hs; try done.
  intros m. change (replicated_sm n') with (as_sm (app_state n')). rewrite Hs. apply rw_sm0.
Qed.

(** ** Windows *)

Lemma length_window applied target lg :
  (applied ≤ target)%N → (target < lenN lg)%N →
  length (window applied target lg) = N.to_nat (target - applied).
Proof.
  intros. unfold window, lenN in *. rewrite length_take, length_drop. lia.
Qed.

Lemma window_split lo mid hi lg :
  (lo ≤ mid ≤ hi)%N → (mid < lenN lg)%N →
  window lo hi lg = window lo mid lg ++ window mid hi lg.
Proof.
  intros. unfold window, lenN in *.
  replace (N.to_nat hi - N.to_nat lo)
    with ((N.to_nat mid - N.to_nat lo) + (N.to_nat hi - N.to_nat mid)) by lia.
  rewrite <- take_take_drop, drop_drop. f_equal. f_equal. f_equal. lia.
Qed.

Lemma window_prefix lo mid hi lg :
  (lo ≤ mid ≤ hi)%N → window lo mid lg = take (N.to_nat (mid - lo)) (window lo hi lg).
Proof. intros. unfold window. rewrite take_take. f_equal. lia. Qed.

Lemma window_agree lo hi lg lg' :
  take (Datatypes.S (N.to_nat hi)) lg = take (Datatypes.S (N.to_nat hi)) lg' →
  window lo hi lg = window lo hi lg'.
Proof.
  intros Heq. unfold window.
  destruct (N.le_gt_cases hi lo); [by replace (N.to_nat hi - N.to_nat lo) with 0 by lia|].
  rewrite !take_drop_commute.
  replace (Datatypes.S (N.to_nat lo) + (N.to_nat hi - N.to_nat lo))
    with (Datatypes.S (N.to_nat hi)) by lia.
  by rewrite Heq.
Qed.

(** ** Applying *)

(** All committed entries are applied, or the state is that in which the next
    one has just failed. *)
Definition caught_up n : Prop :=
  last_applied n = commit_index n ∨
  ∃ e a, nth_u64 (log n) (last_applied n + 1) = Some e ∧ exec_entry e a = (false, app_state n).

Lemma drop_window lo mid hi lg :
  (lo ≤ mid ≤ hi)%N → drop (N.to_nat (mid - lo)) (window lo hi lg) = window mid hi lg.
Proof.
  intros. unfold window. rewrite skipn_firstn_comm, drop_drop. f_equal; [lia|]. f_equal. lia.
Qed.

(** What [apply_committed_entries] gives when the commit index has just moved. *)
Lemma apply_committed_wf a0 target n :
  wf_log (log n) → (∀ m, replicated_sm n = Some m → rsm_inv m) →
  ran (window 0 target (log n)) a0 (N.to_nat (last_applied n)) (app_state n) →
  commit_index n = target → (last_applied n ≤ target < lenN (log n))%N →
  ∃ n', apply_committed_entries (log n) target n = Some n' ∧ replica_wf a0 n' ∧ caught_up n' ∧
    log n' = log n ∧ commit_index n' = target ∧ (last_applied n ≤ last_applied n')%N.
Proof.
  intros [Hnum Hne] Hm Hex Hc [Hlo Hhi].
  destruct (apply_committed_exec (log n) target n Hnum Hm) as (n' & Ea & Hx & Hle & Hm').
  exists n'. pose proof (apply_committed_core _ _ _ _ Ea) as Hcore.
  destruct Hcore as [_ _ _ _ Hlog Hcom _ _ _ _ _].
  pose proof (exec_entries_le (window (last_applied n) target (log n)) (app_state n)) as Hk.
  rewrite Hx, length_window in Hk by done. cbn in Hk.
  pose proof (ran_exec _ _ (window (last_applied n) target (log n)) _ _ Hex) as Hrun. rewrite Hx in Hrun.
  destruct Hrun as [Hrun Hend].
  { rewrite <- (drop_window 0 (last_applied n) target) by lia. f_equal. lia. }
  replace (N.to_nat (last_applied n) + N.to_nat (last_applied n' - last_applied n))
    with (N.to_nat (last_applied n')) in Hrun by lia.
  split_and!; [done| | |done|congruence|done].
  - split; [by rewrite Hlog|rewrite Hcom, Hc; lia|by rewrite Hcom, Hlog, Hc|done|by rewrite Hcom, Hlog, Hc].
  - unfold caught_up. rewrite Hcom, Hlog, Hc. rewrite length_window in Hend by done.
    destruct Hend as [Hj|(e & a1 & He & Hf)]; [left; lia|right]. exists e, a1. split; [|done].
    unfold window in He. apply lookup_take_Some in He as [He _]. rewrite lookup_drop in He.
    unfold nth_u64. rewrite <- He. f_equal. lia.
Qed.

Lemma window_extend lo hi hi' lg : (hi ≤ hi')%N → window lo hi lg `prefix_of` window lo hi' lg.
Proof.
  intros. unfold window. replace (N.to_nat hi - N.to_nat lo) with
    ((N.to_nat hi - N.to_nat lo) `min` (N.to_nat hi' - N.to_nat lo)) by lia.
  rewrite <- take_take. apply prefix_take.
Qed.

Lemma advance_commit_wf a0 lc n :
  replica_wf a0 n →
  ∃ n', advance_commit lc (lenN (log n) - 1) n = Some n' ∧ replica_wf a0 n' ∧
    log n' = log n ∧ (commit_index n ≤ commit_index n')%N ∧ (last_applied n ≤ last_applied n')%N ∧
    (commit_index n' = commit_index n ∨ caught_up n').
Proof.
  intros Hwf. pose proof Hwf as [Hlog Happ Hcom Hm Hex]. unfold advance_commit.
  destruct (N.ltb_spec (commit_index n) lc) as [Hlt|Hge]; [|by exists n; split_and!; auto].
  cbn. destruct (apply_committed_wf a0 (N.min lc (lenN (log n) - 1))
    (n <| commit_index := N.min lc (lenN (log n) - 1) |>)) as (n' & Ea & Hwf' & Hup & Hl & Hc & Hla).
  - done.
  - done.
  - cbn. eapply ran_mono; [|exact Hex]. apply window_extend. lia.
  - done.
  - cbn. lia.
  - exists n'. cbn in *. split_and!; [done|done|done|lia|done|by right].
Qed.

(** Replacing the log by one that agrees up to the commit index. *)
Lemma replica_wf_log a0 n lg s :
  replica_wf a0 n → wf_log lg → N.to_nat (commit_index n) < length lg →
  take (Datatypes.S (N.to_nat (commit_index n))) lg =
    take (Datatypes.S (N.to_nat (commit_index n))) (log n) →
  replica_wf a0 (n <| log := lg |> <| storage := s |>).
Proof.
  intros [Hlog Happ Hcom Hm Hex] Hlg Hlen Hag. split; cbn; [done|done|unfold lenN; lia|done|].
  change (app_state _) with (app_state n). by rewrite (window_agree 0 (commit_index n) _ (log n)).
Qed.

(** ** AppendEntries *)

(** The message does not contradict an entry the replica has committed. *)
Definition agrees_committed (args : AppendEntriesArgs D) n : Prop :=
  ∀ k e o, ae_entries args !! k = Some e →
    log n !! (N.to_nat (ae_prev_log_index args + 1) + k) = Some o →
    N.to_nat (ae_prev_log_index args + 1) + k ≤ N.to_nat (commit_index n) →
    e_term o = e_term e.

Lemma merge_wf a0 args n ok lg s :
  replica_wf a0 n → wf_message args → agrees_committed args n →
  prev_matches args (log n) = true →
  merge_entries (ae_entries args) (N.to_nat (ae_prev_log_index args + 1)) (log n) (storage n) =
    (ok, lg, s) →
  replica_wf a0 (n <| log := lg |> <| storage := s |>) ∧
  take (Datatypes.S (N.to_nat (commit_index n))) lg =
    take (Datatypes.S (N.to_nat (commit_index n))) (log n).
Proof.
  intros Hwf Hmsg Hag (ep & Hep%lookup_lt_Some & _)%prev_matches_spec Hm.
  apply merge_entries_ref in Hm as (j & -> & _); [|lia].
  pose proof (rw_commit _ _ Hwf) as Hc. unfold lenN in Hc.
  destruct (merge_ref_keeps (N.to_nat (ae_prev_log_index args + 1)) (take j (ae_entries args))
    (log n) (Datatypes.S (N.to_nat (commit_index n)))) as [Hlen Htake]; [lia|lia| |].
  { intros k e o [He _]%lookup_take_Some Ho Hk. eapply Hag; [done..|lia]. }
  split; [|done]. apply replica_wf_log; [done| |lia|done].
  apply merge_ref_wf; [lia|apply Hwf|by apply numbered_take].
Qed.

Lemma append_adopt_term_frame args n :
  match append_adopt_term args n with
  | inl (_, n') | inr n' => log n' = log n ∧ commit_index n' = commit_index n ∧
      last_applied n' = last_applied n ∧ app_state n' = app_state n
  end.
Proof.
  unfold append_adopt_term. destruct (_ <? _)%N; [|by split_and!].
  destruct (save_hard_state _ (storage n)) as [r s]. destruct (is_err r); by split_and!.
Qed.

(** C3: Handling any well-formed AppendEntries message that does not contradict
    the follower's committed prefix returns, keeps every committed entry, moves
    the commit and applied indices only forward and preserves the replica
    invariant: the machine has run exactly the first last_applied entries in
    order, an entry whose application fails (and may leave effects) being
    retried before the next. When the commit index moves, everything up to it is
    applied, or the state is the one in which the next entry has just failed.
    Any state machine whose receipts carry positive indices will do; the message
    and the invariant's log start at index 0. *)
Theorem append_entries_wf a0 now args n :
  replica_wf a0 n → wf_message args → agrees_committed args n →
  ∃ reply n', handle_append_entries now args n = Some (reply, n') ∧ replica_wf a0 n' ∧
    (commit_index n ≤ commit_index n')%N ∧ (last_applied n ≤ last_applied n')%N ∧
    (commit_index n' = commit_index n ∨ caught_up n') ∧
    take (Datatypes.S (N.to_nat (commit_index n))) (log n') =
      take (Datatypes.S (N.to_nat (commit_index n))) (log n).
Proof.
  intros Hwf Hmsg Hag. unfold handle_append_entries.
  pose proof (append_adopt_term_frame args n) as Hf.
  destruct (append_adopt_term args n) as [[reply1 n1]|n1]; destruct Hf as (Hl & Hc & Ha & Hs).
  { exists reply1, n1. rewrite Hl, Hc, Ha. split_and!; [done|by eapply replica_wf_frame|done|done|by left|done]. }
  cbv zeta. rewrite <- Hl, <- Hc, <- Ha. case_match.
  { eexists _, n1. split_and!; [done|by eapply replica_wf_frame|done|done|by left|done]. }
  fold (follow now (ae_leader_id args) n1).
  assert (replica_wf a0 (follow now (ae_leader_id args) n1)) as Hwf2
    by by apply (replica_wf_frame a0 n).
  assert (agrees_committed args (follow now (ae_leader_id args) n1)) as Hag2.
  { unfold agrees_committed in *. cbn. by rewrite Hl, Hc. }
  change (log n1) with (log (follow now (ae_leader_id args) n1)).
  change (commit_index n1) with (commit_index (follow now (ae_leader_id args) n1)).
  change (last_applied n1) with (last_applied (follow now (ae_leader_id args) n1)).
  revert Hwf2 Hag2. generalize (follow now (ae_leader_id args) n1) as n2. intros n2 Hwf2 Hag2.
  case_match.
  - destruct (prev_matches args (log n2)); cbn [negb]; [|by eexists _, n2; split_and!; auto].
    destruct (advance_commit_wf a0 (ae_leader_commit args) n2 Hwf2)
      as (n3 & E3 & Hwf3 & Hl3 & Hc3 & Ha3 & Hu3).
    rewrite E3. cbn. eexists _, n3. split_and!; [done..|by rewrite Hl3].
  - destruct (prev_matches args (log n2)) eqn:Hpm; cbn [negb].
    2:{ destruct (rw_log _ _ Hwf2) as [_ Hne].
        rewrite bool_decide_eq_false_2 by done. by eexists _, n2; split_and!; auto. }
    destruct (merge_entries _ _ _ _) as [[ok lg] s] eqn:Em.
    destruct (merge_wf a0 args n2 ok lg s) as [Hwf3 Hk]; [done..|].
    destruct ok; cbn [negb]; [|eexists _, _; split_and!; [done|exact Hwf3|done|done|by left|done]].
    destruct (advance_commit_wf a0 (ae_leader_commit args) _ Hwf3)
      as (n4 & E4 & Hwf4 & Hl4 & Hc4 & Ha4 & Hu4).
    cbn in E4. rewrite E4. cbn. eexists _, n4. split_and!; [done..|by rewrite Hl4].
Qed.

(** ** Votes and proposals *)

Lemma request_vote_wf a0 now args n :
  replica_wf a0 n →
  ∃ reply n', handle_request_vote now args n = Some (reply, n') ∧ replica_wf a0 n' ∧
    log n' = log n ∧ commit_index n' = commit_index n ∧ last_applied n' = last_applied n.
Proof.
  intros Hwf. unfold handle_request_vote. case_match; [by eexists _, n|].
  assert (∀ reply n1, log n1 = log n → commit_index n1 = commit_index n →
    last_applied n1 = last_applied n → app_state n1 = app_state n →
    ∃ reply' n', Some (reply, n1) = Some (reply' : RequestVoteReply, n') ∧ replica_wf a0 n' ∧
    log n' = log n ∧ commit_index n' = commit_index n ∧ last_applied n' = last_applied n) as Hret.
  { intros reply n1 ????. exists reply, n1. split_and!; [done|by eapply replica_wf_frame|done..]. }
  destruct (rw_log _ _ Hwf) as [_ Hne]. destruct (last (log n)) as [e|] eqn:He.
  2:{ by apply last_None in He. }
  unfold vote_adopt_term. destruct (current_term n <? rv_term args)%N.
  - destruct (save_hard_state _ (storage n)) as [r s]. destruct (is_err r); [by apply Hret|].
    cbn. rewrite He. cbn. case_match; [|by apply Hret].
    destruct (save_hard_state _ s) as [r2 s2]. destruct (is_err r2); by apply Hret.
  - rewrite He. cbn. case_match; [|by apply Hret].
    destruct (save_hard_state _ (storage n)) as [r2 s2]. destruct (is_err r2); by apply Hret.
Qed.

Lemma number_entries_numbered term start (cmds : list (RaftCommand D)) :
  numbered (N.to_nat start) (number_entries term start cmds).
Proof.
  revert start. induction cmds as [|cmd cmds IH]; intros start; cbn [number_entries].
  { apply numbered_nil. }
  apply numbered_cons. split; [cbn; lia|].
  replace (Datatypes.S (N.to_nat start)) with (N.to_nat (start + 1)) by lia. apply IH.
Qed.

Lemma length_number_entries term start (cmds : list (RaftCommand D)) :
  length (number_entries term start cmds) = length cmds.
Proof. revert start. induction cmds as [|cmd cmds IH]; intros start; cbn; auto. Qed.

Lemma wf_log_app lg es : wf_log lg → numbered (length lg) es → wf_log (lg ++ es).
Proof.
  intros [Hn Hne] He. split; [by apply numbered_app|]. by intros [? _]%app_eq_nil.
Qed.

Lemma replica_wf_extend a0 n n' es :
  replica_wf a0 n → numbered (length (log n)) es → log n' = log n ++ es →
  commit_index n' = commit_index n → last_applied n' = last_applied n →
  app_state n' = app_state n → replica_wf a0 n'.
Proof.
  intros [Hlog Happ Hcom Hm Hex] Hnum Hl Hc Ha Hs.
  split; rewrite ?Hl, ?Hc, ?Ha, ?Hs; [by apply wf_log_app|done|rewrite lenN_app; lia| |].
  - intros m. change (replicated_sm n') with (as_sm (app_state n')). rewrite Hs. apply Hm.
  - rewrite (window_agree 0 (commit_index n) _ (log n)); [done|]. unfold lenN in Hcom. by rewrite take_app_le by lia.
Qed.

(** A leader's propose_batch appends the commands, numbered consecutively in
    its term, to the log in memory and in storage and returns their indices, or
    fails with the log as it was; the replica invariant holds either way. *)
Lemma propose_batch_wf a0 cmds n :
  replica_wf a0 n → role n = Leader → cmds ≠ [] →
  ∃ r n', propose_batch cmds n = Some (r, n') ∧ replica_wf a0 n' ∧
    commit_index n' = commit_index n ∧
    match r with
    | Ok indices => log n' = log n ++ number_entries (current_term n) (lenN (log n)) cmds ∧
        indices = e_index <$> number_entries (current_term n) (lenN (log n)) cmds ∧
        (synced n → synced n') ∧
        match_index n' !! id n = Some (lenN (log n') - 1)%N
    | Err _ => log n' = log n
    end.
Proof.
  intros Hwf Hlead Hne. unfold propose_batch, is_leader. rewrite bool_decide_eq_true_2 by done.
  cbn. set (es := number_entries (current_term n) (lenN (log n)) cmds).
  assert (numbered (length (log n)) es) as Hnum.
  { unfold es, lenN. pose proof (number_entries_numbered (current_term n)
      (N.of_nat (length (log n))) cmds) as Hn. by rewrite Nat2N.id in Hn. }
  assert (0 < length es) as Hlen.
  { unfold es. rewrite length_number_entries. destruct cmds; [done|cbn; lia]. }
  clearbody es.
  destruct (append_entries es (storage n)) as [r s] eqn:Ea. cbn. destruct r as [[]|err].
  2:{ eexists _, _. split_and!; [done| |done|done]. by apply (replica_wf_frame a0 n). }
  destruct (last es) as [el|] eqn:Hl.
  2:{ apply last_None in Hl. rewrite Hl in Hlen. cbn in Hlen. lia. }
  cbn. eexists _, _. split; [reflexivity|]. cbv iota beta. split_and!; [|done|done|done| |].
  - by apply (replica_wf_extend a0 n _ es).
  - unfold synced. cbn. intros Hsy. apply append_entries_spec in Ea as (_ & _ & _ & Ha).
    apply (Ha _ Hsy). intros k e Hk. rewrite (Hnum _ _ Hk). unfold lenN. lia.
  - cbn. rewrite lookup_insert_eq. f_equal. rewrite last_lookup in Hl.
    rewrite (Hnum _ _ Hl). rewrite lenN_app. unfold lenN. lia.
Qed.

(** ** Commit *)

(** The voting peers known to hold entry [i]. *)
Definition holders (i : N) n : gset RaftNodeId :=
  filter (λ peer, holds_entry i n peer = true) (voting_peers n).

Lemma replica_count_holders i n : replica_count i n = N.of_nat (size (holders i n)).
Proof.
  unfold replica_count, holders, lenN. f_equal. unfold size, set_size. cbn.
  apply Permutation_length. symmetry. apply NoDup_Permutation.
  - apply NoDup_elements.
  - apply NoDup_filter, NoDup_elements.
  - intros x. rewrite elem_of_elements, elem_of_filter, list_elem_of_filter, elem_of_elements. done.
Qed.

(** An entry the leader may commit: of its own term and on a majority. *)
Definition committable n (i : N) : Prop :=
  ∃ e, nth_u64 (log n) i = Some e ∧ e_term e = current_term n ∧
    size (voting_peers n) < 2 * size (holders i n).

Lemma commit_candidate_spec n i : commit_candidate n i = true ↔ committable n i.
Proof.
  unfold commit_candidate, committable, quorum_size.
  assert (∀ v h : nat, (N.of_nat v / 2 + 1 ≤ N.of_nat h)%N ↔ v < 2 * h) as Hq.
  { intros v h. pose proof (N.div_mod (N.of_nat v) 2 ltac:(done)) as Hdm.
    pose proof (N.mod_lt (N.of_nat v) 2 ltac:(done)) as Hm. revert Hdm Hm.
    generalize (N.of_nat v / 2)%N (N.of_nat v `mod` 2)%N. intros q r ??. lia. }
  destruct (nth_u64 (log n) i) as [e|]; [|split; [done|by intros (?&?&_)]].
  rewrite andb_true_iff, N.eqb_eq, N.leb_le, replica_count_holders, Hq.
  split; [intros [??]; eauto|by intros (e' & [= <-] & ?)].
Qed.

(** The search from the top finds the greatest committable index. *)
Lemma find_commit_spec n top :
  match find_commit n top with
  | Some i => (commit_index n < i ≤ N.of_nat top)%N ∧ committable n i ∧
      ∀ j, (i < j ≤ N.of_nat top)%N → ¬ committable n j
  | None => ∀ j, (commit_index n < j ≤ N.of_nat top)%N → ¬ committable n j
  end.
Proof.
  induction top as [|k IH]; cbn [find_commit]; [intros j; lia|].
  destruct (N.leb_spec (N.of_nat (Datatypes.S k)) (commit_index n)) as [|Hlt]; [intros j; lia|].
  destruct (commit_candidate n (N.of_nat (Datatypes.S k))) eqn:Hc.
  { apply commit_candidate_spec in Hc. split_and!; [lia|lia|done|intros; lia]. }
  assert (¬ committable n (N.of_nat (Datatypes.S k))) as Hno
    by (rewrite <- commit_candidate_spec; congruence).
  destruct (find_commit n k) as [i|].
  - destruct IH as (? & ? & IH). split_and!; [lia|lia|done|]. intros j Hj.
    destruct (decide (j = N.of_nat (Datatypes.S k))) as [->|]; [done|]. apply IH. lia.
  - intros j Hj. destruct (decide (j = N.of_nat (Datatypes.S k))) as [->|]; [done|]. apply IH. lia.
Qed.

(** C4: check_quorum_commit returns; on a leader it moves the commit index to
    the greatest index of the current term that a majority holds and applies the
    entries up to it, so that last_applied equals the new commit index unless
    the application of the next entry has just failed; or it changes nothing,
    exactly when no index beyond the commit index is committable. The replica
    invariant (the machine has run the first last_applied entries in order, a
    failed one being retried) is preserved. *)
Theorem check_quorum_commit_wf a0 n :
  replica_wf a0 n → role n = Leader →
  ∃ b n', check_quorum_commit n = Some (b, n') ∧ replica_wf a0 n' ∧ log n' = log n ∧
    (last_applied n ≤ last_applied n')%N ∧
    if b then (commit_index n < commit_index n')%N ∧ committable n (commit_index n') ∧ caught_up n' ∧
                ∀ j, (commit_index n' < j)%N → ¬ committable n j
    else n' = n ∧ ∀ j, (commit_index n < j)%N → ¬ committable n j.
Proof.
  intros Hwf Hlead. unfold check_quorum_commit, is_leader. rewrite bool_decide_eq_true_2 by done.
  pose proof Hwf as [[Hnum Hne] Happ Hcom Hm Hex]. cbn [negb].
  rewrite bool_decide_eq_false_2 by done.
  assert (∀ j, (N.of_nat (length (log n) - 1) < j)%N → ¬ committable n j) as Hout.
  { intros j Hj (e & He%lookup_lt_Some & _). lia. }
  pose proof (find_commit_spec n (length (log n) - 1)) as Hf.
  destruct (find_commit n (length (log n) - 1)) as [i|].
  2:{ exists false, n. split_and!; [done..|]. intros j Hj.
      destruct (N.le_gt_cases j (N.of_nat (length (log n) - 1))); [|by apply Hout].
      apply Hf. lia. }
  destruct Hf as ([Hi1 Hi2] & Hci & Hmax). cbv zeta.
  change (last_applied (n <| commit_index := i |>)) with (last_applied n).
  set (n1 := persist_progress i (last_applied n) (n <| commit_index := i |>)).
  destruct (persist_progress_frame i (last_applied n) (n <| commit_index := i |>)) as (Hs & Hla & _).
  fold n1 in Hs, Hla.
  destruct (persist_progress_core i (last_applied n) (n <| commit_index := i |>))
    as [_ _ _ _ Hl Hc _ _ _ _ _]. fold n1 in Hl, Hc. cbn in Hl, Hc, Hla.
  change (app_state (n <| commit_index := i |>)) with (app_state n) in Hs.
  destruct (apply_committed_wf a0 i n1) as (n2 & E2 & Hwf2 & Hup2 & Hl2 & Hc2 & Hla2).
  - by rewrite Hl.
  - intros m. change (replicated_sm n1) with (as_sm (app_state n1)). rewrite Hs. apply Hm.
  - rewrite Hl, Hla, Hs. eapply ran_mono; [|exact Hex]. apply window_extend. lia.
  - done.
  - rewrite Hl, Hla. unfold lenN in *. lia.
  - rewrite E2. cbn. exists true, n2. split_and!; [done|done|congruence|lia|lia|by rewrite Hc2|done|].
    rewrite Hc2. intros j Hj. destruct (N.le_gt_cases j (N.of_nat (length (log n) - 1)));
      [apply Hmax; lia|by apply Hout].
Qed.

(** ** Recovery *)

(** Replaying the stored entries into a fresh state machine gives the state the
    executor reaches on the committed prefix, when no apply fails. *)
Lemma recover_entries_exec commit es start m cnt c m' a :
  numbered start es → recover_entries commit es m cnt = (Ok c, m') → as_sm a = Some m →
  let w := take (Datatypes.S (N.to_nat commit) - start) es in
  (exec_entries w a).1 = length w ∧ as_sm (exec_entries w a).2 = Some m'.
Proof.
  cbv zeta. revert start m cnt a.
  induction es as [|e es IH]; intros start m cnt a Hnum Hr Hsm; cbn [recover_entries] in Hr.
  { injection Hr as <- <-. by rewrite take_nil. }
  apply numbered_cons in Hnum as [He Hnum].
  destruct (N.leb_spec (e_index e) commit) as [Hle|Hgt].
  - replace (Datatypes.S (N.to_nat commit) - start)
      with (Datatypes.S (Datatypes.S (N.to_nat commit) - Datatypes.S start)) by lia.
    cbn [take exec_entries length]. unfold exec_entry.
    destruct (e_command e) as [d| | |]; rewrite ?Hsm.
    1: { destruct (rsm_apply (e_index e) d m) as [[rc|err] m1]; [|done].
         cbn [is_ok]. eapply IH in Hr as [H1 H2]; [by rewrite H1|done|done]. }
    all: eapply IH in Hr as [H1 H2]; [by rewrite H1|done|done].
  - eapply IH in Hr as Hi; [|done..].
    replace (Datatypes.S (N.to_nat commit) - Datatypes.S start) with 0 in Hi by lia.
    by replace (Datatypes.S (N.to_nat commit) - start) with 0 by lia.
Qed.

(** And it succeeds whenever the executor gets through. *)
Lemma recover_entries_complete commit es start m cnt a :
  numbered start es → as_sm a = Some m →
  let w := take (Datatypes.S (N.to_nat commit) - start) es in
  (exec_entries w a).1 = length w → ∃ c m', recover_entries commit es m cnt = (Ok c, m').
Proof.
  cbv zeta. revert start m cnt a.
  induction es as [|e es IH]; intros start m cnt a Hnum Hsm; cbn [recover_entries]; [by eauto|].
  apply numbered_cons in Hnum as [He Hnum].
  destruct (N.leb_spec (e_index e) commit) as [Hle|Hgt].
  2:{ intros _. apply (IH (Datatypes.S start) m cnt a Hnum Hsm).
      replace (Datatypes.S (N.to_nat commit) - Datatypes.S start) with 0 by lia. done. }
  replace (Datatypes.S (N.to_nat commit) - start)
    with (Datatypes.S (Datatypes.S (N.to_nat commit) - Datatypes.S start)) by lia.
  cbn [take exec_entries length]. destruct (exec_entry e a) as [ok a1] eqn:Ee. destruct ok; [|done].
  cbn [fst]. intros [= Hk].
  unfold exec_entry in Ee. destruct (e_command e) as [d| | |]; rewrite ?Hsm in Ee.
  1: destruct (rsm_apply (e_index e) d m) as [[rc|err] m1]; [|done].
  all: cbn in Ee; injection Ee as <-; eapply IH; [done| |exact Hk]; done.
Qed.

(** C6: recover_node_state replays into the state machine exactly the stored
    entries after the snapshot index up to the stored commit index, whatever the
    node's log in memory holds: on success the machine is in the state these
    entries execute to and both indices equal the stored commit index; on
    failure the node is unchanged and some of these entries did not apply. The
    only assumption on the storage is that the entries it returns are numbered
    consecutively from the index after the snapshot. *)
Theorem recover_node_state_spec n m a progress es :
  load_progress (storage n) = Ok progress →
  load_log_entries (pp_snapshot_index progress + 1) (storage n) = Ok es →
  numbered (N.to_nat (pp_snapshot_index progress + 1)) es → as_sm a = Some m →
  let w := take (N.to_nat (pp_commit_index progress - pp_snapshot_index progress)) es in
  match recover_node_state n m with
  | (Ok _, n', m') =>
      (exec_entries w a).1 = length w ∧ as_sm (exec_entries w a).2 = Some m' ∧
      last_applied n' = pp_commit_index progress ∧ commit_index n' = pp_commit_index progress ∧
      log n' = log n
  | (Err _, n', _) => n' = n ∧ (exec_entries w a).1 < length w
  end.
Proof.
  intros Hp Hload Hnum Hsm. cbv zeta. unfold recover_node_state. rewrite Hp, Hload.
  replace (N.to_nat (pp_commit_index progress - pp_snapshot_index progress)) with
    (Datatypes.S (N.to_nat (pp_commit_index progress)) - N.to_nat (pp_snapshot_index progress + 1)) by lia.
  destruct (recover_entries _ _ _ _) as [[c|err] m'] eqn:Er.
  - eapply recover_entries_exec in Er as [H1 H2]; [|done..]. by split_and!.
  - split; [done|]. set (w := take _ _).
    pose proof (exec_entries_le w a) as Hle.
    destruct (decide ((exec_entries w a).1 = length w)) as [Heq|]; [|lia].
    eapply recover_entries_complete in Heq as (c & m2 & Er2); [|done..].
    rewrite Er in Er2. done.
Qed.
End replica.
