(* ===== verification/RaftDriver.v ===== *)
(** The actor runtime of src/consensus/driver.rs: the event loop that drives
    the cluster, the election jitter, the bounded queues and the WAL worker.

    The three threads communicate through channels only; [handle_event] is one
    pass of the event loop, [worker_group] one pass of the WAL worker.  [now] is
    the clock; times are nanoseconds. *)

From Stdlib Require Import Strings.Byte.
From S2P Require Import Prelude Codec FileSystem RaftTypes MemoryStorage Wal Pending.
From S2P Require Import Floats.
From S2P Require Import ReadIndex Durability RaftNode RaftCluster.
From stdpp Require Import base gmap sets strings numbers list fin_maps.

(** ** Channels *)

(** [try_send] on a bounded channel. *)
Definition try_send {A} (capacity : N) (x : A) (q : list A) : bool * list A :=
  if (lenN q <? capacity)%N then (true, q ++ [x]) else (false, q).

Definition EVENT_CAPACITY : N := 10000.
Definition WAL_CAPACITY : N := 1000.

(** [DriverEvent]; [response] identifies the one-shot channel of a client. *)
Inductive DriverEvent (D : Type) :=
  | Tick
  | PeerMessage (target_node : RaftNodeId) (message : RaftMessage D)
  | Propose (mutation : D) (response : N)
  | WalFlushed (lsn : N)
  | Shutdown.
Arguments Tick {D}.
Arguments PeerMessage {D} _ _.
Arguments Propose {D} _ _.
Arguments WalFlushed {D} _.
Arguments Shutdown {D}.

Record ClusterLiveness := mkClusterLiveness {
  flushed_lsn : N;
  committed_index : N;
  last_known_leader : option RaftNodeId;
  is_storage_healthy : bool
}.
#[export] Instance eta_ClusterLiveness : Eta ClusterLiveness := λ l,
  mkClusterLiveness (flushed_lsn l) (committed_index l) (last_known_leader l)
    (is_storage_healthy l).
Definition ClusterLiveness_default := mkClusterLiveness 0 0 None true.

(** A client's answer: given at once, or forwarded from the proposal channel of
    a node by the spawned task. *)
Inductive ClientResponse :=
  | Answered (r : ProposalOutcome)
  | Forwarded (node : RaftNodeId) (ch : N).

Inductive RaftDriverError := ChannelFull.

(** ** Election jitter *)

Definition jitter_seed (local_node_id : RaftNodeId) : N :=
  u64_add (u64_wrapping_mul local_node_id 0x9e3779b97f4a7c15) 0x6c62272e07bb0142.

Definition xorshift (state : N) : N :=
  let state := N.lxor state (u64_shl state 13) in
  let state := N.lxor state (N.shiftr state 7) in
  N.lxor state (u64_shl state 17).

(** [next_election_timeout]: the timeout and the new generator state. *)
Definition next_election_timeout (base_ns : N) (state : N) : N * N :=
  let state := xorshift state in
  let frac := (N.shiftr state 33 `mod` u32_modulus)%N in
  let jitter_ns := N.shiftr (u64_wrapping_mul frac (u64_wrap base_ns)) 31 in
  ((base_ns + jitter_ns)%N, state).

(** The payload of a cluster-state record: epoch, then term. *)
Definition cluster_state_payload (epoch term : N) : list byte :=
  le_bytes 8 epoch ++ le_bytes 8 term.

Section driver.
Context {S M D V K : Type} `{!RaftStorage S D} `{!ReplicatedStateMachine M D} `{!Mutation D}.
Context `{!HashOrder}.
Abbreviation Nodes := (gmap RaftNodeId (RaftNode S M D)).

Record Driver := mkDriver {
  cluster : gmap RaftNodeId (RaftNode S M D);
  local_node_id : RaftNodeId;
  election_timeout_base : N;
  jitter_state : N;
  current_election_timeout : N;
  liveness : ClusterLiveness;
  wal_queue : list (WalMutation V K);
  responses : gmap N ClientResponse
}.
#[export] Instance eta_Driver : Eta Driver := λ d,
  mkDriver (cluster d) (local_node_id d) (election_timeout_base d) (jitter_state d)
    (current_election_timeout d) (liveness d) (wal_queue d) (responses d).

(** The state in which the event loop starts. *)
Definition driver_new (ns : Nodes) (local : RaftNodeId) (base_ns : N) : Driver :=
  let '(timeout, st) := next_election_timeout base_ns (jitter_seed local) in
  mkDriver ns local base_ns st timeout ClusterLiveness_default [] ∅.

Definition queue_cluster_state_wal (n : RaftNode S M D) (d : Driver) : Driver :=
  let m := WClusterState (topology_epoch n)
             (cluster_state_payload (topology_epoch n) (current_term n)) in
  d <| wal_queue ::= λ q, (try_send WAL_CAPACITY m q).2 |>.

Definition dispatch_peer_message (now : N) (target : RaftNodeId) (n : RaftNode S M D)
    (message : RaftMessage D) (d : Driver) : option Driver :=
  match message with
  | MRequestVote args =>
      '(reply, n) ← handle_request_vote now args n;
      let d := d <| cluster ::= <[target := n]> |> in
      let d := queue_cluster_state_wal n d in
      if rvr_vote_granted reply then
        match get_leader (cluster d) with
        | Some leader =>
            ns ← broadcast_heartbeats now leader (cluster d);
            Some (d <| cluster := ns |>)
        | None => Some d
        end
      else Some d
  | MRequestVoteReply _ => Some d
  | MAppendEntries args =>
      '(_, n) ← handle_append_entries now args n;
      Some (queue_cluster_state_wal n (d <| cluster ::= <[target := n]> |>))
  | MAppendEntriesReply _ => Some d
  end.

Definition respond (response : N) (r : ClientResponse) (d : Driver) : Driver :=
  d <| responses ::= <[response := r]> |>.

(** The leader's part of [Tick]: heartbeats if the local node leads. *)
Definition tick_leader (now : N) (d : Driver) : option Driver :=
  match get_leader (cluster d) with
  | Some leader =>
      d ← (if (leader =? local_node_id d)%N then
             ns ← broadcast_heartbeats now (local_node_id d) (cluster d);
             Some (d <| cluster := ns |>)
           else Some d);
      Some (d <| liveness ::= λ l, l <| last_known_leader := Some leader |> |>)
  | None => Some d
  end.

(** The election watchdog of [Tick]. *)
Definition tick_election (now : N) (d : Driver) : option Driver :=
  match cluster d !! local_node_id d with
  | Some n =>
      if negb (is_leader n) && negb (is_learner n) &&
         (current_election_timeout d <=? now - last_heartbeat_received n)%N
      then
        '(_, ns) ← trigger_election now (local_node_id d) (cluster d);
        let '(timeout, st) := next_election_timeout (election_timeout_base d) (jitter_state d) in
        Some (d <| cluster := ns |> <| current_election_timeout := timeout |>
                <| jitter_state := st |>)
      else Some d
  | None => Some d
  end.

Definition handle_propose (now : N) (m : D) (response : N) (d : Driver) : option Driver :=
  match get_leader (cluster d) with
  | Some leader =>
      if (leader =? local_node_id d)%N then
        match cluster d !! local_node_id d with
        | Some n =>
            '(r, n) ← propose_data_mutation now m n;
            let d := d <| cluster ::= <[local_node_id d := n]> |> in
            Some (match r with
                  | Ok ch => respond response (Forwarded (local_node_id d) ch) d
                  | Err e => respond response
                      (Answered (Err (StateApplyFailed "proposal-failed" e 0))) d
                  end)
        | None => Some d
        end
      else Some (respond response
             (Answered (Err (StateApplyFailed "not-leader" (Internal "redirect to leader") 0))) d)
  | None => Some (respond response (Answered (Err (StateMachineUnavailable 0))) d)
  end.

(** [WalFlushed]; the flag is [false] when the loop ends. *)
Definition handle_wal_flushed (lsn : N) (d : Driver) : option (bool * Driver) :=
  let d := d <| liveness ::= λ l, l <| flushed_lsn ::= N.max lsn |> |> in
  if negb (is_storage_healthy (liveness d)) then
    Some (false,
      match cluster d !! local_node_id d with
      | Some n => if is_leader n
                  then d <| cluster ::= <[local_node_id d := n <| role := Follower |>]> |>
                  else d
      | None => d
      end)
  else
    match get_leader (cluster d) with
    | Some leader =>
        match cluster d !! leader with
        | Some n =>
            '(b, n) ← check_quorum_commit n;
            let d := d <| cluster ::= <[leader := n]> |> in
            Some (true, if (b : bool)
                        then d <| liveness ::= λ l, l <| committed_index ::= N.max (commit_index n) |> |>
                        else d)
        | None => Some (true, d)
        end
    | None => Some (true, d)
    end.

(** One pass of the event loop: whether it goes on, and the new state. *)
Definition handle_event (now : N) (ev : DriverEvent D) (d : Driver) : option (bool * Driver) :=
  match ev with
  | Tick => d ← tick_leader now d; d ← tick_election now d; Some (true, d)
  | PeerMessage target message =>
      match cluster d !! target with
      | None => Some (true, d)
      | Some n => d ← dispatch_peer_message now target n message d; Some (true, d)
      end
  | Propose m response => d ← handle_propose now m response d; Some (true, d)
  | WalFlushed lsn => handle_wal_flushed lsn d
  | Shutdown => Some (false, d)
  end.

(** The loop over received events, with the clock at each of them. *)
Fixpoint event_loop (evs : list (N * DriverEvent D)) (d : Driver) : option Driver :=
  match evs with
  | [] => Some d
  | (now, ev) :: evs =>
      '(continue, d) ← handle_event now ev d;
      if (continue : bool) then event_loop evs d else Some d
  end.

(** What the client of [response] has received. *)
Definition client_view (response : N) (d : Driver) : option ProposalOutcome :=
  match responses d !! response with
  | None => None
  | Some (Answered r) => Some r
  | Some (Forwarded nid ch) =>
      match cluster d !! nid with
      | None => None
      | Some n =>
          match channels (pending_proposals n) !! ch with
          | Some (Resolved r) => Some r
          | Some Dropped => Some (Err (StateMachineUnavailable 0))
          | _ => None
          end
      end
  end.

(** ** Client entry points *)

(** [RaftDriver::propose] and [ingest_peer_message] on the event queue. *)
Definition driver_propose (m : D) (response : N) (q : list (DriverEvent D)) :
    Result N RaftDriverError * list (DriverEvent D) :=
  let '(sent, q) := try_send EVENT_CAPACITY (Propose m response) q in
  (if sent then Ok response else Err ChannelFull, q).

Definition ingest_peer_message (target : RaftNodeId) (message : RaftMessage D)
    (q : list (DriverEvent D)) : bool * list (DriverEvent D) :=
  try_send EVENT_CAPACITY (PeerMessage target message) q.
End driver.
Arguments Driver : clear implicits.

(** ** The WAL worker *)

Section worker.
Context {V K : Type} `{!Crc32} `{!Bincode (WalMutation V K)}.

(** The appends of one group; [inl] stops the worker. *)
Fixpoint worker_appends (dur_us : N) (batches : list (WalMutation V K)) (w : WalManager) :
    option (HNSQRResult unit * WalManager) :=
  match batches with
  | [] => Some (Ok tt, w)
  | m :: batches =>
      '(r, w) ← append dur_us m PWalGroupCommit w;
      match r with
      | Err e => Some (Err e, w)
      | Ok _ => worker_appends dur_us batches w
      end
  end.

(** One pass of the worker over the batches it drained: [Ok lsn] posts
    [WalFlushed], an error poisons the health flag and posts [Shutdown]. *)
Definition worker_group (dur_us : N) (batches : list (WalMutation V K)) (w : WalManager) :
    option (HNSQRResult N * WalManager) :=
  '(r, w) ← worker_appends dur_us batches w;
  match r with
  | Err e => Some (Err e, w)
  | Ok _ =>
      let target_lsn := current_lsn w in
      let '(r, w) := sync_target_lsn dur_us target_lsn w in
      Some (match r with Err e => Err e | Ok _ => Ok target_lsn end, w)
  end.

(** What the worker posts to the event loop. *)
Definition worker_post {D} (r : HNSQRResult N) (l : ClusterLiveness) :
    DriverEvent D * ClusterLiveness :=
  match r with
  | Ok lsn => (WalFlushed lsn, l)
  | Err _ => (Shutdown, l <| is_storage_healthy := false |>)
  end.
End worker.
