(* ===== verification/RaftDriverFacts.v ===== *)
(** What the driver guarantees: every pass of the event loop is a sequence of
    cluster operations, the liveness markers only grow, every proposal is
    answered or registered, and the election timeout stays between one and two bases. *)

From Stdlib Require Import Strings.Byte.
From S2P Require Import Prelude Codec FileSystem RaftTypes MemoryStorage Wal Pending.
From S2P Require Import Floats.
From S2P Require Import ReadIndex Durability RaftNode RaftCluster RaftNodeFacts.
From S2P Require Import ElectionSafety ReadSafety RaftDriver.
From stdpp Require Import base gmap sets strings numbers list fin_maps.

(** ** Jitter *)

Lemma lxor_lt a b k : (a < 2 ^ k)%N → (b < 2 ^ k)%N → (N.lxor a b < 2 ^ k)%N.
Proof.
  intros Ha Hb. destruct (decide (N.lxor a b = 0%N)) as [->|Hne].
  { by apply N.neq_0_lt_0, N.pow_nonzero. }
  apply N.log2_lt_pow2; [lia|].
  eapply N.le_lt_trans; [apply N.log2_lxor|]. destruct (decide (k = 0%N)) as [->|Hk].
  { cbn in *. assert (a = 0 ∧ b = 0)%N as [-> ->] by lia. done. }
  apply N.max_lub_lt; [destruct (decide (a = 0%N)) as [->|]|destruct (decide (b = 0%N)) as [->|]];
    cbn; try lia; apply N.log2_lt_pow2; lia.
Qed.

(** [x ^ (x << k)] keeps the lowest set bit, [x ^ (x >> k)] the highest. *)
Lemma lxor_shl_nonzero x k : (0 < k)%N → (x < u64_modulus)%N → x ≠ 0%N →
  N.lxor x (u64_shl x k) ≠ 0%N.
Proof.
  intros Hk Hx Hne Hz. apply N.lxor_eq in Hz.
  assert (∀ i : nat, N.testbit x (N.of_nat i) = false) as Hall.
  { intros i. induction (lt_wf i) as [i _ IH]. rewrite Hz. unfold u64_shl, u64_wrap.
    destruct (decide (N.of_nat i < 64)%N) as [Hi|Hi].
    - change u64_modulus with (2 ^ 64)%N. rewrite N.mod_pow2_bits_low by done.
      destruct (decide (k ≤ N.of_nat i)%N) as [Hki|Hki].
      + rewrite N.shiftl_spec_high' by done.
        replace (N.of_nat i - k)%N with (N.of_nat (i - N.to_nat k)) by lia. apply IH. lia.
      + apply N.shiftl_spec_low. lia.
    - change u64_modulus with (2 ^ 64)%N. apply N.mod_pow2_bits_high. lia. }
  apply Hne, N.bits_inj_0. intros j. rewrite <- (N2Nat.id j). apply Hall.
Qed.

Lemma lxor_shr_nonzero x k : (0 < k)%N → x ≠ 0%N → N.lxor x (N.shiftr x k) ≠ 0%N.
Proof.
  intros Hk Hne Hz. apply N.lxor_eq in Hz. apply (f_equal (λ y, N.testbit y (N.log2 x))) in Hz.
  rewrite N.bit_log2, N.shiftr_spec' in Hz by done. rewrite N.bits_above_log2 in Hz by lia. done.
Qed.

Lemma u64_shl_lt x k : (u64_shl x k < u64_modulus)%N.
Proof. by apply N.mod_lt. Qed.

Lemma shiftr_lt x k m : (x < m)%N → (N.shiftr x k < m)%N.
Proof.
  intros Hx. rewrite N.shiftr_div_pow2. eapply N.le_lt_trans; [|exact Hx].
  apply N.Div0.div_le_upper_bound. pose proof (N.pow_nonzero 2 k ltac:(done)). nia.
Qed.

Lemma xorshift_range x : (x < u64_modulus)%N → x ≠ 0%N →
  (xorshift x < u64_modulus)%N ∧ xorshift x ≠ 0%N.
Proof.
  intros Hx Hne. unfold xorshift. cbv zeta.
  set (a := N.lxor x (u64_shl x 13)).
  assert (a < u64_modulus)%N as Ha by (apply (lxor_lt _ _ 64); [done|apply u64_shl_lt]).
  assert (a ≠ 0)%N as Ha0 by by apply lxor_shl_nonzero.
  set (b := N.lxor a (N.shiftr a 7)).
  assert (b < u64_modulus)%N as Hb by (apply (lxor_lt _ _ 64); [done|by apply shiftr_lt]).
  assert (b ≠ 0)%N as Hb0 by by apply lxor_shr_nonzero.
  split; [apply (lxor_lt _ _ 64); [done|apply u64_shl_lt]|by apply lxor_shl_nonzero].
Qed.

(** The randomised election timeout lies in [base, 2*base) nanoseconds and
    the xorshift state stays a non-zero 64-bit word, for every base below 2^33
    ns. *)
Lemma timeout_bounds base st :
  (st < u64_modulus)%N → st ≠ 0%N → (0 < base < 2 ^ 33)%N →
  let '(t, st') := next_election_timeout base st in
  (base ≤ t < 2 * base)%N ∧ (st' < u64_modulus)%N ∧ st' ≠ 0%N.
Proof.
  intros Hst Hne Hb. destruct (xorshift_range st Hst Hne) as [Hr Hn].
  unfold next_election_timeout. cbv zeta. set (st' := xorshift st) in *.
  assert (N.shiftr st' 33 < 2 ^ 31)%N as Hf.
  { rewrite N.shiftr_div_pow2. apply N.Div0.div_lt_upper_bound. exact Hr. }
  rewrite (N.mod_small (N.shiftr st' 33)) by (unfold u32_modulus; lia).
  set (f := N.shiftr st' 33) in *. clearbody f.
  unfold u64_wrapping_mul, u64_wrap.
  rewrite (N.mod_small base) by (unfold u64_modulus; lia).
  assert (f * base < u64_modulus)%N as Hm.
  { change u64_modulus with (2 ^ 31 * 2 ^ 33)%N. apply N.mul_lt_mono; [exact Hf|apply Hb]. }
  rewrite N.mod_small by done. rewrite N.shiftr_div_pow2.
  assert (f * base / 2 ^ 31 < base)%N as Hq.
  2:{ revert Hq. generalize (f * base / 2 ^ 31)%N. intros q Hq. split_and!; [lia|lia|done|done]. }
  apply N.Div0.div_lt_upper_bound. apply N.mul_lt_mono_pos_r; [apply Hb|exact Hf].
Qed.

Section driver_facts.
Context {S M D V K : Type} `{!RaftStorage S D} `{!ReplicatedStateMachine M D} `{!Mutation D}.
Context `{!RaftStorageLaws S D} `{!HashOrder}.
Abbreviation Drv := (Driver S M D V K).
Implicit Types d : Drv.

(** ** The event loop performs cluster operations *)

Lemma tick_leader_steps now d d' :
  tick_leader now d = Some d' → rtc cluster_step (cluster d) (cluster d').
Proof.
  unfold tick_leader. destruct (get_leader _) as [l|]; [|by intros [= <-]]. case_match.
  - rewrite bind_Some. intros (d1 & Hd1 & [= <-]). revert Hd1. rewrite bind_Some.
    intros (ns & Hb & [= <-]). cbn. apply rtc_once. by eapply cs_heartbeats.
  - by intros [= <-].
Qed.

Lemma tick_election_steps now d d' :
  tick_election now d = Some d' → rtc cluster_step (cluster d) (cluster d').
Proof.
  unfold tick_election. destruct (_ !! _) as [n|]; [|by intros [= <-]].
  case_match; [|by intros [= <-]]. rewrite bind_Some. intros ([b ns] & Ht & Hd).
  destruct (next_election_timeout _ _) as [t st]. injection Hd as <-. cbn.
  apply rtc_once. by eapply cs_election.
Qed.

Lemma dispatch_steps now target n message d d' :
  cluster d !! target = Some n → dispatch_peer_message now target n message d = Some d' →
  rtc cluster_step (cluster d) (cluster d').
Proof.
  intros Hn. destruct message as [args|reply|args|reply]; cbn [dispatch_peer_message].
  - rewrite bind_Some. intros ([reply n'] & Hv & Hd).
    assert (cluster_step (cluster d) (<[target := n']> (cluster d))) as Hstep
      by by eapply cs_request_vote.
    destruct (rvr_vote_granted reply); [|injection Hd as <-; by apply rtc_once].
    destruct (get_leader _) as [l|]; [|injection Hd as <-; by apply rtc_once].
    revert Hd. rewrite bind_Some. intros (ns & Hb & [= <-]).
    eapply rtc_l; [exact Hstep|]. apply rtc_once. by eapply cs_heartbeats.
  - by intros [= <-].
  - rewrite bind_Some. intros ([reply n'] & Hv & [= <-]). apply rtc_once. by eapply cs_append_entries.
  - by intros [= <-].
Qed.

Lemma handle_propose_steps now m response d d' :
  handle_propose now m response d = Some d' → rtc cluster_step (cluster d) (cluster d').
Proof.
  unfold handle_propose. destruct (get_leader _) as [l|]; [|by intros [= <-]].
  case_match; [|by intros [= <-]].
  destruct (cluster d !! local_node_id d) as [n|] eqn:Hn; [|by intros [= <-]].
  rewrite bind_Some. intros ([r n'] & Hp & [= <-]). apply rtc_once.
  destruct r; by eapply cs_propose_data.
Qed.

Lemma handle_wal_flushed_steps lsn d b d' :
  handle_wal_flushed lsn d = Some (b, d') → rtc cluster_step (cluster d) (cluster d').
Proof.
  unfold handle_wal_flushed. cbn. destruct (negb _).
  - intros [= <- <-]. destruct (cluster d !! local_node_id d) as [n|] eqn:Hn; [|done].
    destruct (is_leader n) eqn:Hl; [|done]. apply bool_decide_eq_true in Hl.
    cbn. apply rtc_once. by eapply cs_step_down.
  - destruct (get_leader _) as [l|]; [|by intros [= <- <-]].
    destruct (cluster d !! l) as [n|] eqn:Hn; [|by intros [= <- <-]].
    rewrite bind_Some. intros ([c n'] & Hq & [= <- <-]). apply rtc_once.
    destruct c; by eapply cs_quorum_commit.
Qed.

Lemma handle_event_steps now ev d b d' :
  handle_event now ev d = Some (b, d') → rtc cluster_step (cluster d) (cluster d').
Proof.
  destruct ev as [|target message|m response|lsn|]; cbn [handle_event].
  - rewrite bind_Some. intros (d1 & H1%tick_leader_steps & Hr). revert Hr.
    rewrite bind_Some. intros (d2 & H2%tick_election_steps & [= <- <-]). by etrans.
  - destruct (cluster d !! target) as [n|] eqn:Hn; [|by intros [= <- <-]].
    rewrite bind_Some. intros (d1 & H1 & [= <- <-]). by eapply dispatch_steps.
  - rewrite bind_Some. intros (d1 & H1%handle_propose_steps & [= <- <-]). done.
  - apply handle_wal_flushed_steps.
  - by intros [= <- <-].
Qed.

(** Whatever events the driver's loop processes, timer ticks, peer
    messages, proposals, WAL completions and shutdown, the cluster it owns moves
    only by steps of the verified cluster transition relation. *)
Lemma event_loop_steps evs d d' :
  event_loop evs d = Some d' → rtc cluster_step (cluster d) (cluster d').
Proof.
  revert d. induction evs as [|[now ev] evs IH]; intros d; cbn [event_loop]; [by intros [= <-]|].
  rewrite bind_Some. intros ([[] d1] & H1%handle_event_steps & Hd).
  - etrans; [done|]. by apply IH.
  - by injection Hd as <-.
Qed.

(** ** Liveness markers *)

Definition liveness_le (l l' : ClusterLiveness) : Prop :=
  (flushed_lsn l ≤ flushed_lsn l')%N ∧ (committed_index l ≤ committed_index l')%N.

#[export] Instance liveness_le_preorder : PreOrder liveness_le.
Proof. split; [by split|]. intros ??? [??] [??]. split; lia. Qed.

(** The liveness report the driver publishes is monotone: no event ever
    lowers the flushed LSN or the committed index it reports. *)
Lemma handle_event_liveness now ev d b d' :
  handle_event now ev d = Some (b, d') → liveness_le (liveness d) (liveness d').
Proof.
  destruct ev as [|target message|m response|lsn|]; cbn [handle_event].
  - rewrite bind_Some. intros (d1 & H1 & Hr). revert Hr.
    rewrite bind_Some. intros (d2 & H2 & [= <- <-]).
    assert (liveness_le (liveness d) (liveness d1)) as Hl1.
    { revert H1. unfold tick_leader. destruct (get_leader _); [|by intros [= <-]]. case_match.
      - rewrite bind_Some. intros (? & Hx & [= <-]). revert Hx. rewrite bind_Some.
        by intros (? & _ & [= <-]).
      - by intros [= <-]. }
    etrans; [exact Hl1|]. revert H2. unfold tick_election.
    destruct (_ !! _); [|by intros [= <-]]. case_match; [|by intros [= <-]].
    rewrite bind_Some. intros ([? ?] & _ & Hx). by destruct (next_election_timeout _ _); injection Hx as <-.
  - destruct (cluster d !! target) as [n|]; [|by intros [= <- <-]].
    rewrite bind_Some. intros (d1 & H1 & [= <- <-]). revert H1.
    destruct message; cbn [dispatch_peer_message]; [| by intros [= <-]| |by intros [= <-]].
    + rewrite bind_Some. intros ([? ?] & _ & Hx). repeat case_match; try (by injection Hx as <-).
      revert Hx. rewrite bind_Some. by intros (? & _ & [= <-]).
    + rewrite bind_Some. by intros ([? ?] & _ & [= <-]).
  - rewrite bind_Some. intros (d1 & H1 & [= <- <-]). revert H1. unfold handle_propose.
    repeat case_match; try (by intros [= <-]). rewrite bind_Some. intros ([rr ?] & _ & [= <-]).
    by destruct rr.
  - unfold handle_wal_flushed. cbn. destruct (negb _).
    + intros [= <- <-]. repeat case_match; split; cbn; lia.
    + repeat case_match; try (by intros [= <- <-]; split; cbn; lia).
      rewrite bind_Some. intros ([c ?] & _ & [= <- <-]). destruct c; split; cbn; lia.
  - by intros [= <- <-].
Qed.

(** ** Proposals are answered *)

Lemma propose_data_mutation_registers now m (n : RaftNode S M D) ch n' :
  wf (pending_proposals n) → propose_data_mutation now m n = Some (Ok ch, n') →
  log n' = log n ++ [mkEntry (current_term n) (lenN (log n)) (Data m)] ∧
  entries (pending_proposals n') !! mkProposalId (current_term n) (lenN (log n)) =
    Some (mkPendingEntry ch (mutation_id m) now) ∧
  channels (pending_proposals n') !! ch = Some Waiting.
Proof.
  intros Hwf. unfold propose_data_mutation, propose, propose_batch. destruct (negb (is_leader n)); [done|].
  cbn [number_entries]. destruct (append_entries _ _) as [[|e] s]; [|done].
  cbn [mbind option_bind last fmap list_fmap head]. destruct (register _ _ _ _) as [r p] eqn:Hreg. intros [= -> <-].
  cbn [log pending_proposals] in *. split; [done|].
  pose proof (wf_register _ _ _ _ _ _ Hwf Hreg) as Hwf'. revert Hreg. unfold register.
  case_match; [done|]. cbn. intros [= <- <-].
  assert (∀ old q, entries (drop_entry old q) = entries q) as He by (by intros []).
  rewrite He in *. cbn. split; [apply lookup_insert_eq|]. apply (wf_waiting _ Hwf').
  eexists _, _. rewrite He. split; [apply lookup_insert_eq|done].
Qed.

(** C15: A proposal the driver handles is answered or registered: the client
    gets an error, and when the local node is not the leader nothing of the
    cluster changes; or the local leader has appended the mutation to its log as
    the next entry of its term, its registry holds a pending entry for exactly
    that index and term, with the mutation's identifier, whose channel is
    waiting, and the client is attached to that channel. The leader's registry
    is assumed consistent, as every sequence of its operations leaves it. *)
Theorem handle_propose_answers now m response d d' :
  (∀ n, cluster d !! local_node_id d = Some n → wf (pending_proposals n)) →
  handle_propose now m response d = Some d' →
  (∃ e, responses d' !! response = Some (Answered (Err e)) ∧
     (get_leader (cluster d) ≠ Some (local_node_id d) → cluster d' = cluster d)) ∨
  (∃ n n' ch, get_leader (cluster d) = Some (local_node_id d) ∧
     cluster d !! local_node_id d = Some n ∧ cluster d' !! local_node_id d = Some n' ∧
     log n' = log n ++ [mkEntry (current_term n) (lenN (log n)) (Data m)] ∧
     entries (pending_proposals n') !! mkProposalId (current_term n) (lenN (log n)) =
       Some (mkPendingEntry ch (mutation_id m) now) ∧
     channels (pending_proposals n') !! ch = Some Waiting ∧
     responses d' !! response = Some (Forwarded (local_node_id d) ch)).
Proof.
  intros Hwf. unfold handle_propose. destruct (get_leader (cluster d)) as [l|] eqn:Hg.
  2:{ intros [= <-]. left. eexists. cbn. split; [apply lookup_insert_eq|done]. }
  apply get_leader_dom in Hg as (n & Hn & Hr). destruct (N.eqb_spec l (local_node_id d)) as [->|].
  2:{ intros [= <-]. left. eexists. cbn. split; [apply lookup_insert_eq|done]. }
  rewrite Hn, bind_Some. intros ([r n'] & Hp & [= <-]). destruct r as [ch|e].
  - right. destruct (propose_data_mutation_registers now m n ch n' (Hwf n Hn) Hp) as (H1 & H2 & H3).
    exists n, n', ch. cbn. rewrite !lookup_insert_eq. by split_and!.
  - left. eexists. cbn. split; [apply lookup_insert_eq|done].
Qed.
End driver_facts.
