(* ===== verification/RaftSamples.v ===== *)
(** A concrete instance of the consensus layer: mutations are strings, the
    state machine records what it applies and refuses one poisoned mutation,
    storage is [MemoryRaftStorage].  The theorems of the consensus files are
    applied to it here, on a three-node cluster that elects a leader, accepts a
    proposal and commits it.  Then runs that end in states Raft is meant to
    exclude: a follower acknowledges more than it shares with the leader, and a
    rejected follower is never retried further back.  Last, the driver over the
    same cluster. *)

From Stdlib Require Import Strings.Byte.
From stdpp Require Import base gmap sets strings numbers list fin_maps.
From S2P Require Import Prelude.
From S2P Require Import RaftTypes.
From S2P Require Import MemoryStorage.
From S2P Require Import Pending.
From S2P Require Import ReadIndex.
From S2P Require Import Durability.
From S2P Require Import Floats.
From S2P Require Import RaftNode.
From S2P Require Import RaftCluster.
From S2P Require Import RaftNodeFacts.
From S2P Require Import ElectionSafety.
From S2P Require Import ReadSafety.
From S2P Require Import Routing.
From S2P Require Import RaftLogFacts.
From S2P Require Import RaftApply.
From S2P Require Import RaftReplica.
From S2P Require Import Codec.
From S2P Require Import FileSystem.
From S2P Require Import Wal.
From S2P Require Import RaftDriver.
From S2P Require Import RaftDriverFacts.

(** ** The instance *)

#[export] Instance sample_mutation : Mutation string := λ d, d.

Definition sample_apply (i : N) (d : string) (m : list (N * string)) :
    HNSQRResult ApplyReceipt * list (N * string) :=
  if bool_decide (d = "poison") then (Err (InvalidRequest "poisoned mutation"), m)
  else (Ok (mkApplyReceipt d i i i), m ++ [(i, d)]).

#[export] Instance sample_sm : ReplicatedStateMachine (list (N * string)) string := {
  rsm_apply := sample_apply;
  rsm_last_applied_index m := default 0%N (fst <$> last m);
  rsm_applied_generation m := lenN m
}.

#[export] Instance sample_laws : RsmLaws (list (N * string)) string.
Proof.
  refine {| rsm_inv := λ _, True |}. intros i d m r m' _ Hi. cbn. unfold sample_apply.
  case_bool_decide; intros [= <- <-]; split; try done. by intros rc [= <-].
Defined.

Abbreviation SampleNode := (RaftNode (MemoryRaftStorage string) (list (N * string)) string).
Abbreviation SampleCluster := (gmap N (RaftNode (MemoryRaftStorage string) (list (N * string)) string)).

#[local] Existing Instance canonical_order.

(** Three voters with empty state machines. *)
Definition sample_cluster : SampleCluster :=
  set_replicated_sm [] <$> default ∅ (cluster_new 0 [1; 2; 3]%N).

(** Node 1 wins the election of term 1; its [NoOp] is replicated and committed. *)
Definition sample_led : SampleCluster :=
  (default (false, ∅) (trigger_election 5 1 sample_cluster)).2.

(** A client proposes [put]. *)
Definition sample_proposed : SampleCluster :=
  (default (Err (Internal "none"), ∅) (cluster_propose 6 "put" sample_led)).2.

Definition sample_blank : SampleNode :=
  initial_node 0 0 [] [sentinel] RaftHardState_default RaftPersistentProgress_default mem_new.
Definition get_node (i : N) (ns : SampleCluster) : SampleNode := default sample_blank (ns !! i).

Definition sample_voters : gset N := {[1%N; 2%N; 3%N]}.

(** The application state all three start from. *)
Definition sample_start : AppState (list (N * string)) :=
  mkAppState (Some []) 1 ∅ sample_voters.

(** ** Deciding the hypotheses by computation *)

Lemma numbered_seq {D} start (es : list (RaftLogEntry D)) :
  e_index <$> es = N.of_nat <$> seq start (length es) → numbered start es.
Proof.
  intros Heq k e Hk. apply (f_equal (.!! k)) in Heq. apply lookup_lt_Some in Hk as Hl.
  rewrite !list_lookup_fmap, Hk, lookup_seq_lt in Heq by done. cbn in Heq. congruence.
Qed.

(** [replica_wf] of a sample node, as closed equations. *)
Lemma sample_replica_wf (n : SampleNode) :
  e_index <$> log n = N.of_nat <$> seq 0 (length (log n)) →
  bool_decide (log n ≠ []) && (last_applied n <=? commit_index n)%N &&
    (commit_index n <? lenN (log n))%N = true →
  exec_entries (window 0 (last_applied n) (log n)) sample_start =
    (N.to_nat (last_applied n), app_state n) →
  replica_wf sample_start n.
Proof.
  intros Hn Hb He. apply andb_true_iff in Hb as [[H1 H2]%andb_true_iff H3].
  apply bool_decide_eq_true in H1. apply N.leb_le in H2. apply N.ltb_lt in H3.
  split; [split; [by apply numbered_seq|done]|done|done|done|].
  apply (ran_mono (window 0 (last_applied n) (log n))); [by apply window_extend|].
  pose proof (ran_exec (window 0 (last_applied n) (log n)) sample_start (window 0 (last_applied n) (log n)) 0 sample_start (ran_start _ _)) as Hr.
  rewrite He in Hr. by apply Hr.
Qed.

(** [stable] and [started] of a sample cluster. *)
Lemma sample_stable (P : gset N) (ns : SampleCluster) :
  bool_decide (map_Forall (λ i n, (current_term n < u64_max)%N ∧
    (role n ≠ Learner → voting_peers n = P ∧ i ∈ P)) ns) = true → stable P ns.
Proof. intros H%bool_decide_eq_true i n Hi. by apply (H i n). Qed.

Lemma sample_vote_durable (n : SampleNode) :
  current_term n = hs_current_term (mem_hard_state (storage n)) →
  voted_for n = hs_voted_for (mem_hard_state (storage n)) → vote_durable n.
Proof. intros Ht Hv. eexists. split; [done|]. right. by rewrite Ht, Hv. Qed.

Lemma sample_started (ns : SampleCluster) :
  bool_decide (map_Forall (λ _ n, role n ≠ Leader ∧
    current_term n = hs_current_term (mem_hard_state (storage n)) ∧
    voted_for n = hs_voted_for (mem_hard_state (storage n))) ns) = true → started ns.
Proof.
  intros H%bool_decide_eq_true i n Hi. destruct (H i n Hi) as (? & ? & ?).
  split; [done|]. by apply sample_vote_durable.
Qed.

Lemma sample_election : stable_step sample_voters sample_cluster sample_led.
Proof.
  split; [apply sample_stable; vm_compute; reflexivity|].
  apply (cs_election 5 1 true). vm_compute. reflexivity.
Qed.

(** ** Elections *)

Lemma election_safety_witness :
  role (get_node 1 sample_led) = Leader ∧
  ¬ (∃ n2, sample_led !! 2%N = Some n2 ∧ role n2 = Leader ∧ current_term n2 = 1%N).
Proof.
  split; [vm_compute; reflexivity|]. intros (n2 & Hn2 & Hr & Ht).
  assert (1%N = 2%N) as Heq; [|done].
  apply (election_safety sample_voters sample_cluster sample_led sample_led 1 2
           (get_node 1 sample_led) n2).
  - apply sample_started. vm_compute. reflexivity.
  - apply rtc_once, sample_election.
  - apply rtc_refl.
  - vm_compute. reflexivity.
  - vm_compute. reflexivity.
  - exact Hn2.
  - exact Hr.
  - rewrite Ht. vm_compute. reflexivity.
Defined.

Definition sample_vote (candidate : N) : RequestVoteArgs := mkRequestVoteArgs 1 candidate 0 0.
Definition sample_voted : SampleNode :=
  (default (mkRequestVoteReply 0 false, sample_blank)
     (handle_request_vote 4 (sample_vote 1) (get_node 2 sample_cluster))).2.


(** ** Reads *)

Lemma wait_applied_total_witness :
  ∃ j r, j ≤ 6 ∧ (∀ fuel, 6 < fuel →
      wait_applied fuel 0 (λ i, (N.of_nat i, (100 * N.of_nat i)%N)) 9 500 = Some r) ∧
    (∀ l, l < j → (N.of_nat l < 9)%N) ∧
    if is_ok r then r = Ok (N.of_nat j) ∧ (9 ≤ N.of_nat j)%N
    else (N.of_nat j < 9)%N ∧ (500 < 100 * N.of_nat j)%N.
Proof.
  apply (wait_applied_total (λ i, (N.of_nat i, (100 * N.of_nat i)%N)) 9 500 6).
  vm_compute. reflexivity.
Defined.

Definition sample_poll (_ : nat) : N * N := (2, 0)%N.
Definition sample_read : SampleCluster :=
  (default (Err (Internal "none"), ∅)
     (cluster_read_index 77 9 3 sample_poll ReadIndexMode sample_led)).2.


(** ** Replication *)

Definition sample_put : RaftLogEntry string := mkEntry 1 2 (Data "put").
Definition sample_append : AppendEntriesArgs string :=
  mkAppendEntriesArgs 1 1 1 1 [sample_put] 2 false.
Definition sample_follower : SampleNode := get_node 2 sample_led.
Definition sample_appended : SampleNode :=
  (default (mkAppendEntriesReply 0 false 0, sample_blank)
     (handle_append_entries 8 sample_append sample_follower)).2.

Lemma append_entries_accepted_witness :
  ∃ ep, nth_u64 (log sample_follower) 1 = Some ep ∧ e_term ep = 1%N ∧
    log sample_appended = merge_ref 2 [sample_put] (log sample_follower) ∧
    2%N = (lenN (log sample_appended) - 1)%N ∧
    commit_index sample_appended = new_commit 2 (lenN (log sample_appended) - 1) (commit_index sample_follower) ∧
    (wf_message sample_append → synced sample_follower → synced sample_appended).
Proof.
  apply (append_entries_accepted 8 sample_append sample_follower (mkAppendEntriesReply 1 true 2)
           sample_appended); vm_compute; reflexivity.
Defined.

Lemma sample_follower_wf : replica_wf sample_start sample_follower.
Proof. apply sample_replica_wf; vm_compute; reflexivity. Qed.

Lemma append_entries_wf_witness :
  ∃ reply n', handle_append_entries 8 sample_append sample_follower = Some (reply, n') ∧
    replica_wf sample_start n' ∧
    (commit_index sample_follower ≤ commit_index n')%N ∧
    (last_applied sample_follower ≤ last_applied n')%N ∧
    (commit_index n' = commit_index sample_follower ∨ caught_up n') ∧
    take 1 (log n') = take 1 (log sample_follower).
Proof.
  apply (append_entries_wf sample_start 8 sample_append sample_follower).
  - apply sample_follower_wf.
  - apply numbered_seq. reflexivity.
  - intros k e o _ _. change (commit_index sample_follower) with 0%N. cbn. lia.
Defined.

(** The leader after its client's proposal, before any replica has it. *)
Definition sample_leader : SampleNode := get_node 1 sample_led.
Definition sample_proposer : SampleNode :=
  (default (Err (Internal "none"), sample_blank) (propose_batch [Data "put"] sample_leader)).2.

Lemma sample_leader_wf : replica_wf sample_start sample_leader.
Proof. apply sample_replica_wf; vm_compute; reflexivity. Qed.

Lemma propose_batch_wf_witness :
  ∃ r n', propose_batch [Data "put"] sample_leader = Some (r, n') ∧ replica_wf sample_start n' ∧
    commit_index n' = commit_index sample_leader ∧
    match r with
    | Ok indices => log n' = log sample_leader ++ number_entries 1 2 [Data "put"] ∧
        indices = e_index <$> number_entries 1 2 [Data "put" : RaftCommand string] ∧
        (synced sample_leader → synced n') ∧ match_index n' !! 1%N = Some (lenN (log n') - 1)%N
    | Err _ => log n' = log sample_leader
    end.
Proof.
  apply (propose_batch_wf sample_start [Data "put"] sample_leader).
  - apply sample_leader_wf.
  - vm_compute. reflexivity.
  - discriminate.
Defined.

(** The same leader once follower 2 has acknowledged. *)
Definition sample_acked : SampleNode := record_match 2 2 sample_proposer.

Lemma check_quorum_commit_wf_witness :
  ∃ b n', check_quorum_commit sample_acked = Some (b, n') ∧ replica_wf sample_start n' ∧
    log n' = log sample_acked ∧ (last_applied sample_acked ≤ last_applied n')%N ∧
    if b then (commit_index sample_acked < commit_index n')%N ∧
              committable sample_acked (commit_index n') ∧ caught_up n' ∧
              ∀ j, (commit_index n' < j)%N → ¬ committable sample_acked j
    else n' = sample_acked ∧ ∀ j, (commit_index sample_acked < j)%N → ¬ committable sample_acked j.
Proof.
  apply (check_quorum_commit_wf sample_start sample_acked).
  - apply sample_replica_wf; vm_compute; reflexivity.
  - vm_compute. reflexivity.
Defined.

(** A client waits for the proposal, and the commit resolves its channel. *)
Definition sample_waiting : SampleNode :=
  record_match 2 2
    (default (Err (Internal "none"), sample_blank) (propose_data_mutation 6 "put" sample_leader)).2
    <| commit_index := 2%N |>.
Definition sample_committed : SampleNode :=
  default sample_blank (apply_committed_entries (log sample_waiting) 2 sample_waiting).
Definition sample_receipt : CommitReceipt :=
  mkCommitReceipt "put" 1 2 true true 2 1 QuorumReplicated.

Lemma apply_committed_receipts_witness :
  ∃ e d, nth_u64 (log sample_waiting) 2 = Some e ∧ e_command e = Data d ∧ e_term e = 1%N ∧
    (last_applied sample_waiting < 2 ≤ last_applied sample_committed)%N.
Proof.
  apply (apply_committed_receipts (log sample_waiting) 2 sample_waiting sample_committed 0
           sample_receipt).
  - apply numbered_seq. vm_compute. reflexivity.
  - vm_compute. reflexivity.
  - vm_compute. discriminate.
  - vm_compute. reflexivity.
Defined.

(** A node restarted from the storage of the committed leader. *)
Definition sample_restarted : SampleNode :=
  match try_with_storage 20 1 [1; 2; 3]%N (storage sample_committed) with
  | Ok n => n
  | Err _ => sample_blank
  end.

Definition restarted_entries : list (RaftLogEntry string) := tail (log sample_restarted).

Lemma recover_node_state_spec_witness :
  match recover_node_state sample_restarted [] with
  | (Ok _, n', m') =>
      (exec_entries (take 2 restarted_entries) sample_start).1 = 2 ∧
      as_sm (exec_entries (take 2 restarted_entries) sample_start).2 = Some m' ∧
      last_applied n' = 2%N ∧ commit_index n' = 2%N ∧ log n' = log sample_restarted
  | (Err _, n', _) => n' = sample_restarted ∧ (exec_entries (take 2 restarted_entries) sample_start).1 < 2
  end.
Proof.
  apply (recover_node_state_spec sample_restarted [] sample_start (mkRaftPersistentProgress 2 2 0 0) restarted_entries).
  - vm_compute. reflexivity.
  - vm_compute. reflexivity.
  - apply numbered_seq. vm_compute. reflexivity.
  - reflexivity.
Defined.

(** ** The registry of proposals *)

Definition sample_registry : PendingProposals :=
  (register (mkProposalId 1 2) "put" 10 (pending_new 4)).2.

Lemma sample_registry_run : rtc pending_step (pending_new 4) sample_registry.
Proof. apply rtc_once. by eapply step_register, surjective_pairing. Qed.

Lemma registry_exactly_once_witness :
  (pending_len sample_registry ≤ 4)%N ∧
  (∀ ch, channels sample_registry !! ch = Some Waiting ↔
     ∃ pid e, entries sample_registry !! pid = Some e ∧ sender e = ch) ∧
  (∀ pid1 pid2 e1 e2, entries sample_registry !! pid1 = Some e1 →
     entries sample_registry !! pid2 = Some e2 → sender e1 = sender e2 → pid1 = pid2) ∧
  (∀ p' ch w, rtc pending_step sample_registry p' → channels sample_registry !! ch = Some w →
     w ≠ Waiting → channels p' !! ch = Some w).
Proof. apply (registry_exactly_once 4 sample_registry). apply sample_registry_run. Defined.

Lemma sample_registry_wf : wf sample_registry.
Proof. eapply wf_run; [apply wf_new|apply sample_registry_run]. Qed.

Lemma cancel_all_resolves_witness :
  1%N = pending_len sample_registry ∧
  channels (cancel_all_leadership_lost 2 sample_registry).2 !! 0%N =
    Some (Resolved (Err (LeadershipLost "put" 2 2 Unknown))).
Proof.
  destruct (cancel_all_resolves 2 sample_registry 1 (cancel_all_leadership_lost 2 sample_registry).2)
    as (Hn & _ & _ & Hch).
  - apply sample_registry_wf.
  - vm_compute. reflexivity.
  - split; [exact Hn|]. apply (Hch (mkProposalId 1 2) (mkPendingEntry 0 "put" 10)).
    vm_compute. reflexivity.
Defined.

Lemma prune_timeouts_spec_witness :
  channels (prune_timeouts 100 50 sample_registry).2 !! 0%N =
    Some (Resolved (Err (ProposalTimedOut (mkProposalId 1 2)))).
Proof.
  destruct (prune_timeouts_spec 100 50 sample_registry 1 (prune_timeouts 100 50 sample_registry).2)
    as (_ & Hch).
  - apply sample_registry_wf.
  - vm_compute. reflexivity.
  - apply (Hch (mkProposalId 1 2) (mkPendingEntry 0 "put" 10)). vm_compute. reflexivity.
Defined.

(** The disk of a node refuses, or accepts again, log writes (an injected
    crash point of [MemoryRaftStorage]). *)
Definition log_writes_fail (b : bool) (i : N) (ns : SampleCluster) : SampleCluster :=
  alter (λ n, n <| storage ::= λ s, s <| fail_before_log_persist := b |> |>) i ns.

Definition propose_at (i : N) (d : string) (ns : SampleCluster) : SampleCluster :=
  alter (λ n, (default (Err (Internal "none"), n) (propose_batch [Data d] n)).2) i ns.

Definition elect (now i : N) (ns : SampleCluster) : SampleCluster :=
  (default (false, ns) (trigger_election now i ns)).2.

Definition commit_at (i : N) (ns : SampleCluster) : SampleCluster :=
  alter (λ n, (default (false, n) (check_quorum_commit n)).2) i ns.

(** Leader 1 logs [x] and loses contact.  Node 2 wins term 2 while its disk
    refuses the [NoOp]; its heartbeat carries no entries, so node 1 answers with
    the length of its own log.  Node 2 then logs [y] at the index where node 1
    has [x], and counts node 1 as a holder of [y]. *)
Definition lost_commit : SampleCluster :=
  let ns := propose_at 1 "x" sample_led in
  let ns := elect 20 2 (log_writes_fail true 2 ns) in
  let ns := propose_at 2 "y" (log_writes_fail false 2 ns) in
  commit_at 2 ns.

(** Node 1 wins term 3 against it. *)
Definition lost_entry : SampleCluster := elect 40 1 lost_commit.

(** A committed, applied and acknowledged entry is held by its leader only, and
    the leader of a later term has another entry in its place. *)
Theorem committed_entry_lost :
  let n1 := get_node 1 lost_entry in
  let n2 := get_node 2 lost_entry in
  let n3 := get_node 3 lost_entry in
  role (get_node 2 lost_commit) = Leader ∧ current_term (get_node 2 lost_commit) = 2%N ∧
  commit_index n2 = 2%N ∧ nth_u64 (log n2) 2 = Some (mkEntry 2 2 (Data "y")) ∧
  replicated_sm n2 = Some [(2%N, "y")] ∧
  nth_u64 (log n3) 2 = None ∧
  role n1 = Leader ∧ current_term n1 = 3%N ∧
  nth_u64 (log n1) 2 = Some (mkEntry 1 2 (Data "x")).
Proof. vm_compute. repeat split. Qed.

(** A rejected AppendEntries does not move [next_index]: broadcasting again, any
    number of times, changes nothing, and the follower stays behind. *)
Theorem lagging_follower_stuck k :
  let ns := default ∅ (broadcast_heartbeats 50 1 lost_entry) in
  Nat.iter k (λ ns, default ∅ (broadcast_heartbeats 50 1 ns)) ns = ns ∧
  length (log (get_node 1 ns)) = 4 ∧ length (log (get_node 3 ns)) = 2.
Proof.
  cbv zeta. split; [|vm_compute; by split]. induction k as [|k IH]; [done|].
  rewrite Nat.iter_succ, IH. vm_compute. reflexivity.
Qed.

(** [RaftNode::linearizable_read_index_with_mode] in ReadIndex mode starts a
    round but confirms nothing: cut off from nodes 1 and 3, which have elected
    node 1 for a later term, node 2 still serves reads. *)
Theorem node_read_without_quorum :
  let n1 := get_node 1 (elect 40 1 (delete 2%N lost_commit)) in
  let n2 := get_node 2 lost_commit in
  match linearizable_read_index_with_mode 5 60 1 sample_poll ReadIndexMode n2 with
  | Some (r, n') => r = Ok 2%N ∧ size (pending_rounds (read_index_engine n')) = 1
  | None => False
  end ∧ role n1 = Leader ∧ (current_term n2 < current_term n1)%N.
Proof. vm_compute. repeat split. Qed.

Abbreviation SampleDriver := (Driver (MemoryRaftStorage string) (list (N * string)) string string string).

Definition sample_driver : SampleDriver := driver_new sample_cluster 1 1000000.

(** The election timeout passes, the node wins, and a client proposes. *)
Definition sample_events : list (N * DriverEvent string) :=
  [(3000000%N, Tick); (3000001%N, Propose "put" 5); (3000002%N, Tick); (3000003%N, WalFlushed 1)].
Definition sample_driven : SampleDriver :=
  default sample_driver (event_loop sample_events sample_driver).

(** The client of response channel 5 holds a receipt. *)
Example sample_receipt_delivered :
  client_view 5 sample_driven = Some (Ok (mkCommitReceipt "put" 1 2 true true 2 1 QuorumReplicated)).
Proof. vm_compute. reflexivity. Qed.

Lemma event_loop_steps_witness : rtc cluster_step (cluster sample_driver) (cluster sample_driven).
Proof.
  apply (event_loop_steps sample_events sample_driver sample_driven). vm_compute. reflexivity.
Defined.

Lemma timeout_bounds_witness :
  let '(t, st') := next_election_timeout 1000000 (jitter_seed 1) in
  (1000000 ≤ t < 2 * 1000000)%N ∧ (st' < u64_modulus)%N ∧ st' ≠ 0%N.
Proof.
  apply (timeout_bounds 1000000 (jitter_seed 1)).
  - vm_compute. reflexivity.
  - vm_compute. discriminate.
  - vm_compute. split; reflexivity.
Defined.

(** The node has won its election and a client proposes. *)
Definition elected_driver : SampleDriver :=
  default sample_driver (event_loop [(3000000%N, Tick)] sample_driver).
Definition proposed_driver : SampleDriver :=
  default elected_driver (handle_propose 4 "put" 5 elected_driver).

Lemma handle_propose_answers_witness :
  ∃ n n' ch, cluster elected_driver !! 1%N = Some n ∧ cluster proposed_driver !! 1%N = Some n' ∧
    log n' = log n ++ [mkEntry (current_term n) (lenN (log n)) (Data "put")] ∧
    channels (pending_proposals n') !! ch = Some Waiting ∧
    responses proposed_driver !! 5%N = Some (Forwarded 1 ch).
Proof.
  destruct (handle_propose_answers 4 "put" 5 elected_driver proposed_driver) as [(e & He & _)|(n & n' & ch & Hr)].
  - intros n Hn. assert (pending_proposals n = pending_new (max_capacity (pending_proposals n))) as ->; [|apply wf_new].
    vm_compute in Hn. injection Hn as <-. vm_compute. reflexivity.
  - vm_compute. reflexivity.
  - vm_compute in He. discriminate He.
  - exists n, n', ch. destruct Hr as (_ & H1 & H2 & H3 & _ & H4 & H5). repeat split; assumption.
Defined.

Lemma handle_event_liveness_witness :
  liveness_le (liveness sample_driver)
    (liveness (default (false, sample_driver) (handle_event 9 (WalFlushed 4) sample_driver)).2).
Proof.
  apply (handle_event_liveness 9 (WalFlushed 4) sample_driver true). vm_compute. reflexivity.
Defined.
