(* ===== verification/StorageSamples.v ===== *)
(** Concrete codecs and a concrete checksum, and the theorems on framed records,
    the durable Raft storage and the write-ahead log applied to them; runs of both
    that lose or renumber what they stored. *)

From Stdlib Require Import Strings.Byte.
From stdpp Require Import base gmap strings numbers list sorting fin_maps.
From S2P Require Import Prelude.
From S2P Require Import Codec.
From S2P Require Import FileSystem.
From S2P Require Import RaftTypes.
From S2P Require Import MemoryStorage.
From S2P Require Import DurableStorage.
From S2P Require Import DurableRecovery.
From S2P Require Import Wal.
From S2P Require Import WalFacts.
From S2P Require Import WalProperties.
From S2P Require Import Floats.
From S2P Require Import Pending.
From S2P Require Import ReadIndex.
From S2P Require Import Durability.
From S2P Require Import RaftNode.
From S2P Require Import RaftSamples.

(** ** Codecs *)

Definition sum_bytes (bs : list byte) : N := foldr (λ b s, Byte.to_N b + s)%N 0%N bs.
#[export] Instance sample_crc : Crc32 := λ bs, (sum_bytes bs `mod` u32_modulus)%N.
#[export] Instance sample_crc_laws : Crc32Laws.
Proof. intros bs. by apply N.mod_lt. Defined.

(** Fixed-width fields: [None] when a value does not fit. *)
Definition put_u64 (x : N) : option (list byte) :=
  if (x <? 256 ^ 8)%N then Some (le_bytes 8 x) else None.
Definition get_u64 (bs : list byte) : N * list byte := (le_num (take 8 bs), drop 8 bs).

Lemma get_put_u64 x bs rest : put_u64 x = Some bs → get_u64 (bs ++ rest) = (x, rest).
Proof.
  unfold put_u64. case_match eqn:Hx; [|done]. apply N.ltb_lt in Hx.
  intros Hb%(inj Some). subst bs. unfold get_u64. rewrite take_app_length', drop_app_length' by by rewrite length_le_bytes.
  by rewrite le_num_le_bytes_small.
Qed.

Definition of_option {A} (o : option A) : Result A string :=
  match o with Some x => Ok x | None => Err "value out of range" end.

Lemma of_option_Ok {A} (o : option A) x : of_option o = Ok x → o = Some x.
Proof. destruct o; [|done]. by intros [= ->]. Qed.

Definition put_hard_state (h : RaftHardState) : option (list byte) :=
  t ← put_u64 (hs_current_term h);
  match hs_voted_for h with
  | None => Some (t ++ [x00])
  | Some v => b ← put_u64 v; Some (t ++ x01 :: b)
  end.
Definition get_hard_state (bs : list byte) : RaftHardState :=
  let '(t, bs) := get_u64 bs in
  mkRaftHardState t (match bs with x01 :: b => Some (get_u64 b).1 | _ => None end).
#[export] Instance sample_hard_state : Bincode RaftHardState :=
  {| serialize h := of_option (put_hard_state h); deserialize bs := Ok (get_hard_state bs) |}.

#[export] Instance sample_hard_state_laws : BincodeLaws RaftHardState.
Proof.
  intros [t v] bs Hs. apply of_option_Ok in Hs. refine (f_equal Ok (_ : get_hard_state bs = _)). unfold put_hard_state in Hs.
  apply bind_Some in Hs as (bt & Ht & Hs). cbn in Ht, Hs. unfold get_hard_state.
  destruct v as [v|].
  - apply bind_Some in Hs as (bv & Hv & [= <-]). rewrite (get_put_u64 _ _ _ Ht).
    rewrite <- (app_nil_r bv), (get_put_u64 _ _ _ Hv). done.
  - injection Hs as <-. by rewrite (get_put_u64 _ _ _ Ht).
Defined.

Definition put_progress (p : RaftPersistentProgress) : option (list byte) :=
  a ← put_u64 (pp_commit_index p); b ← put_u64 (pp_last_applied p);
  c ← put_u64 (pp_snapshot_index p); d ← put_u64 (pp_snapshot_term p);
  Some (a ++ b ++ c ++ d).
Definition get_progress (bs : list byte) : RaftPersistentProgress :=
  let '(a, bs) := get_u64 bs in let '(b, bs) := get_u64 bs in
  let '(c, bs) := get_u64 bs in mkRaftPersistentProgress a b c (get_u64 bs).1.
#[export] Instance sample_progress : Bincode RaftPersistentProgress :=
  {| serialize p := of_option (put_progress p); deserialize bs := Ok (get_progress bs) |}.

#[export] Instance sample_progress_laws : BincodeLaws RaftPersistentProgress.
Proof.
  intros [a b c d] bs Hs. apply of_option_Ok in Hs. refine (f_equal Ok (_ : get_progress bs = _)). unfold put_progress in Hs.
  apply bind_Some in Hs as (ba & Ha & Hs). apply bind_Some in Hs as (bb & Hb & Hs).
  apply bind_Some in Hs as (bc & Hc & Hs). apply bind_Some in Hs as (bd & Hd & [= <-]).
  unfold get_progress. rewrite (get_put_u64 _ _ _ Ha), (get_put_u64 _ _ _ Hb).
  rewrite (get_put_u64 _ _ _ Hc). by rewrite <- (app_nil_r bd), (get_put_u64 _ _ _ Hd).
Defined.

Definition put_snapshot_meta (m : RaftSnapshotMeta) : option (list byte) :=
  a ← put_u64 (sm_last_included_index m); b ← put_u64 (sm_last_included_term m);
  c ← put_u64 (sm_topology_epoch m); Some (a ++ b ++ c).
Definition get_snapshot_meta (bs : list byte) : RaftSnapshotMeta :=
  let '(a, bs) := get_u64 bs in let '(b, bs) := get_u64 bs in
  mkRaftSnapshotMeta a b (get_u64 bs).1.
#[export] Instance sample_snapshot_meta : Bincode RaftSnapshotMeta :=
  {| serialize m := of_option (put_snapshot_meta m); deserialize bs := Ok (get_snapshot_meta bs) |}.

#[export] Instance sample_snapshot_meta_laws : BincodeLaws RaftSnapshotMeta.
Proof.
  intros [a b c] bs Hs. apply of_option_Ok in Hs. refine (f_equal Ok (_ : get_snapshot_meta bs = _)). unfold put_snapshot_meta in Hs.
  apply bind_Some in Hs as (ba & Ha & Hs). apply bind_Some in Hs as (bb & Hb & Hs).
  apply bind_Some in Hs as (bc & Hc & [= <-]). unfold get_snapshot_meta.
  rewrite (get_put_u64 _ _ _ Ha), (get_put_u64 _ _ _ Hb).
  by rewrite <- (app_nil_r bc), (get_put_u64 _ _ _ Hc).
Defined.

(** Log entries with [NoOp] or string data. *)
Definition put_entry (e : RaftLogEntry string) : option (list byte) :=
  a ← put_u64 (e_term e); b ← put_u64 (e_index e);
  match e_command e with
  | NoOp => Some (a ++ b ++ [x00])
  | Data d => Some (a ++ b ++ x01 :: String.list_byte_of_string d)
  | _ => None
  end.
Definition get_entry (bs : list byte) : RaftLogEntry string :=
  let '(a, bs) := get_u64 bs in let '(b, bs) := get_u64 bs in
  mkEntry a b (match bs with x01 :: d => Data (String.string_of_list_byte d) | _ => NoOp end).
#[export] Instance sample_entry : Bincode (RaftLogEntry string) :=
  {| serialize e := of_option (put_entry e); deserialize bs := Ok (get_entry bs) |}.

#[export] Instance sample_entry_laws : BincodeLaws (RaftLogEntry string).
Proof.
  intros [t i cmd] bs Hs. apply of_option_Ok in Hs. refine (f_equal Ok (_ : get_entry bs = _)). unfold put_entry in Hs.
  apply bind_Some in Hs as (ba & Ha & Hs). apply bind_Some in Hs as (bb & Hb & Hs).
  unfold get_entry. destruct cmd as [d| | |]; [|done|done|]; injection Hs as <-;
    rewrite (get_put_u64 _ _ _ Ha), (get_put_u64 _ _ _ Hb); [|done].
  by rewrite String.string_of_list_byte_of_string.
Defined.

(** WAL mutations: deletions by id. *)
#[export] Instance sample_wal : Bincode (WalMutation string string) := {|
  serialize m := match m with
                 | WDelete i => Ok (String.list_byte_of_string i)
                 | _ => Err "unsupported"
                 end;
  deserialize bs := Ok (WDelete (String.string_of_list_byte bs))
|}.

#[export] Instance sample_wal_laws : BincodeLaws (WalMutation string string).
Proof.
  intros m bs Hs. cbn in Hs |- *. destruct m; simplify_eq.
  by rewrite String.string_of_list_byte_of_string.
Defined.

(** ** Framed records *)

Definition sample_state : RaftHardState := mkRaftHardState 3 (Some 2%N).
Definition ok_bytes {E} (r : Result (list byte) E) : list byte :=
  match r with Ok bs => bs | Err _ => [] end.
Definition sample_frame : list byte := ok_bytes (encode_framed_record sample_state).

Lemma framed_record_codec_witness :
  decode_framed_record (sample_frame ++ [x07]) = Ok (sample_state, length sample_frame) ∧
  ∀ k, k < length sample_frame →
    is_err (decode_framed_record (T := RaftHardState) (take k sample_frame)) = true.
Proof.
  apply (framed_record_codec sample_state (ok_bytes (serialize sample_state)) sample_frame [x07]);
    vm_compute; reflexivity.
Defined.

(** ** The durable Raft storage *)

Definition empty_disk : Disk := mkDisk ∅ [].

(** The second file operation fails after three bytes. *)
Definition faulty_disk : Disk := mkDisk ∅ [None; Some 3].

Lemma write_atomic_spec_witness :
  files (write_atomic_framed state_file sample_state faulty_disk).2 !! state_file = None ∧
  is_err (write_atomic_framed state_file sample_state faulty_disk).1 = true.
Proof.
  destruct (write_atomic_spec state_file sample_state faulty_disk
    (write_atomic_framed state_file sample_state faulty_disk).1
    (write_atomic_framed state_file sample_state faulty_disk).2) as [_ Hr].
  - vm_compute. discriminate.
  - apply surjective_pairing.
  - split; [|vm_compute; reflexivity].
    change (write_atomic_framed state_file sample_state faulty_disk).1
      with (@Err unit HNSQRError disk_error) in Hr. exact Hr.
Defined.

Definition sample_entries : list (RaftLogEntry string) :=
  [mkEntry 1 1 NoOp; mkEntry 1 2 (Data "a"); mkEntry 1 3 (Data "b")].
Definition sample_ops : list (storage_op string) :=
  [OpSaveHardState sample_state; OpAppend sample_entries; OpTruncate 3;
   OpSaveProgress (mkRaftPersistentProgress 2 2 0 0)].

Lemma sample_framable {T} `{!Bincode T} (x : T) :
  is_ok (serialize x) && (lenN (ok_bytes (serialize x)) <? u32_modulus)%N = true → framable x.
Proof.
  intros [Hok Hl%N.ltb_lt]%andb_true_iff. destruct (serialize x) as [bs|] eqn:Hs; [|done].
  exists bs. by split.
Qed.

Lemma sample_numbered start (es : list (RaftLogEntry string)) :
  e_index <$> es = (λ k, (start + N.of_nat k)%N) <$> seq 0 (length es) → numbered_from start es.
Proof.
  intros Heq k e Hk. apply (f_equal (.!! k)) in Heq. apply lookup_lt_Some in Hk as Hl.
  rewrite !list_lookup_fmap, Hk, lookup_seq_lt in Heq by done. cbn in Heq. congruence.
Qed.

Lemma sample_empty : empty_directory empty_disk.
Proof. split_and!; intros; by vm_compute. Qed.

Lemma sample_entries_framable : Forall framable sample_entries.
Proof. repeat constructor; (apply sample_framable; vm_compute; reflexivity). Qed.

Lemma durable_reopen_witness :
  ∃ s0 s s', durable_open (D := string) empty_disk = (Ok s0, empty_disk) ∧
    run_ops sample_ops s0 = (Ok tt, s) ∧
    memory_cache s = (run_ops sample_ops (mem_new (D := string))).2 ∧
    durable_open (disk s) = (Ok s', disk s) ∧ memory_cache s' = reopened (memory_cache s).
Proof.
  apply (durable_reopen empty_disk sample_ops).
  - apply sample_empty.
  - split; [apply sample_framable; vm_compute; reflexivity|]. split; [split_and!|].
    + discriminate.
    + apply sample_entries_framable.
    + apply sample_numbered. vm_compute. reflexivity.
    + split; [vm_compute; reflexivity|]. split; [|exact I].
      apply sample_framable; vm_compute; reflexivity.
Defined.

(** A segment whose last frame is cut after five bytes. *)
Definition sample_segment : list byte := ok_bytes (encode_all sample_entries).
Definition next_entry : RaftLogEntry string := mkEntry 2 4 (Data "c").
Definition next_frame : list byte := ok_bytes (encode_framed_record next_entry).
Definition torn_disk (k : nat) : Disk :=
  mkDisk {[Rlog 1 := sample_segment ++ take k next_frame]} [].

Lemma recover_torn_segment_witness :
  recover_segment true 1 (torn_disk 5) =
    (Ok (segment_metas 1 sample_entries (length sample_segment), sample_entries),
     mkDisk (<[Rlog 1 := sample_segment]> {[Rlog 1 := sample_segment ++ take 5 next_frame]}) []).
Proof.
  apply (recover_torn_segment 1 sample_entries sample_segment next_entry next_frame 5 (torn_disk 5)).
  - reflexivity.
  - vm_compute. reflexivity.
  - apply sample_entries_framable.
  - vm_compute. reflexivity.
  - apply sample_framable; vm_compute; reflexivity.
  - vm_compute. reflexivity.
  - vm_compute. lia.
  - vm_compute. lia.
Defined.

(** ** The write-ahead log *)

Definition sample_mutations : list (WalMutation string string * DurabilityPolicy) :=
  [(WDelete "a", PWalSync); (WDelete "b", PWalGroupCommit); (WDelete "c", PQuorum)].
Definition log_ids (lsn : N) (m : WalMutation string string) (st : list (N * string)) :
    list (N * string) :=
  match m with WDelete i => st ++ [(lsn, i)] | _ => st end.

Lemma wal_round_trip_witness :
  ∃ w0 w1 summary w2,
    wal_open empty_disk = (Ok w0, wal_disk w0) ∧
    append_all sample_mutations w0 = Some (Ok tt, w1) ∧
    (sample_mutations ≠ [] → (lenN sample_mutations ≤ last_synced_lsn w1)%N) ∧
    replay (total_fn log_ids) 1 [] w1 = (Ok summary, w2, [(2%N, "b"); (3%N, "c")]) ∧
    torn_records_skipped summary = 0%N ∧
    total_replayed summary = lenN (beyond 1 (number_from 0 sample_mutations.*1)) ∧
    current_lsn w2 = N.max 1 (lenN sample_mutations).
Proof.
  apply (wal_round_trip log_ids empty_disk sample_mutations 1 []).
  - reflexivity.
  - intros i. reflexivity.
  - repeat constructor; try discriminate; (eexists; split; [reflexivity|vm_compute; reflexivity]).
  - vm_compute. reflexivity.
Defined.

Definition sample_record : N * WalMutation string string := (1%N, WDelete "a").
Definition sample_wal_bytes : list byte := ok_bytes (encode_record sample_record).
Definition sample_replay : Replay (St := list (N * string)) :=
  mkReplay (mkWalRecoverySummary 0 0 0 0 1) 0 [].

Lemma sample_record_ok : record_ok sample_record.
Proof. split; [by vm_compute|]. eexists. split; [reflexivity|by vm_compute]. Qed.

Lemma replay_file_torn_witness :
  replay_file (total_fn log_ids) 0 (length (sample_wal_bytes ++ take 10 sample_wal_bytes))
    (sample_wal_bytes ++ take 10 sample_wal_bytes) 0 sample_replay =
  match apply_records (total_fn log_ids) 0 [sample_record] sample_replay with
  | (Err e, r) => (Err e, r)
  | (Ok _, r) => (Ok (length sample_wal_bytes), r)
  end.
Proof.
  apply (replay_file_torn (total_fn log_ids) 0 [sample_record] sample_wal_bytes sample_record
           sample_wal_bytes 10 sample_replay).
  - constructor; [apply sample_record_ok|constructor].
  - vm_compute. reflexivity.
  - apply sample_record_ok.
  - vm_compute. reflexivity.
  - vm_compute. lia.
Defined.

(** The log after the three appends, as a manager. *)
Definition sample_wal_manager : WalManager :=
  match wal_open empty_disk with
  | (Ok w, _) => (default (Ok tt, w) (append_all sample_mutations w)).2
  | (Err _, d) => mkWalManager 0 0 0 0 None WalMetrics_default d
  end.

Lemma sample_wal_inv :
  ∃ segs, wal_inv (V := string) (K := string) sample_wal_manager segs ∧
    healthy (wal_disk sample_wal_manager).
Proof.
  destruct (wal_open_fresh (V := string) (K := string) empty_disk) as (w & Ho & Hinv & Hd & Hc & Hs);
    [done|done|].
  destruct (append_all_inv sample_mutations w _ Hinv Hd) as (w' & segs & Ea & Hinv' & Hd' & _).
  - repeat constructor; try discriminate; (eexists; split; [reflexivity|vm_compute; reflexivity]).
  - rewrite Hc. by vm_compute.
  - rewrite Hs. by vm_compute.
  - exists segs. unfold sample_wal_manager. rewrite Ho, Ea. by split.
Qed.

Lemma wal_truncate_safe_witness :
  (replay (total_fn log_ids) 2 [] (truncate_before 1 sample_wal_manager).2).2 = [(3%N, "c")].
Proof.
  destruct sample_wal_inv as (segs & Hinv & Hd).
  destruct (wal_truncate_safe (total_fn log_ids) 1 2 [] sample_wal_manager segs) as (_ & _ & Hst).
  - exact Hinv.
  - exact Hd.
  - lia.
  - rewrite Hst. vm_compute. reflexivity.
Defined.

(** ** The Raft log after a restart *)

Definition fresh_store : DurableRaftStorage string :=
  mkDurableRaftStorage [] 10000 (16 * 1024 * 1024) mem_new empty_disk.
Definition reopen (s : DurableRaftStorage string) : DurableRaftStorage string :=
  match (durable_open (D := string) (disk s)).1 with Ok s' => s' | Err _ => fresh_store end.

(** A node that has stored entries 1 to 3 restarts, and leads. *)
Definition stored : DurableRaftStorage string := (run_ops [OpAppend sample_entries] (reopen fresh_store)).2.
Definition restarted_leader : RaftNode (DurableRaftStorage string) (list (N * string)) string :=
  match try_with_storage 0 1 [1%N] (reopen stored) with
  | Ok n => n <| role := Leader |>
  | Err _ => initial_node 0 0 [] [] RaftHardState_default RaftPersistentProgress_default fresh_store
  end.

(** Position [k] of the log then holds the entry with index [k + 1], and the
    next proposal is given an index that is taken. *)
Theorem restart_reuses_index :
  e_index <$> log restarted_leader = [1; 2; 3]%N ∧
  match propose (Data "new") restarted_leader with
  | Some (Ok i, n) => i = 3%N ∧ e_index <$> log n = [1; 2; 3; 3]%N
  | _ => False
  end.
Proof. vm_compute. by split_and!. Qed.

(** A truncation after the restart removes an entry below the index it was
    asked for from the segment file. *)
Theorem restart_truncation_loses_entry :
  let s := (truncate_suffix 3 (reopen stored)).2 in
  e_index <$> mem_log (memory_cache (reopen stored)) = [1; 2; 3]%N ∧
  e_index <$> mem_log (memory_cache s) = [1; 2; 3]%N ∧
  e_index <$> mem_log (memory_cache (reopen s)) = [2]%N.
Proof. vm_compute. by split_and!. Qed.

(** A crash in the middle of a payload, behind intact entries, makes the
    directory unusable. *)
Theorem torn_payload_refused :
  (durable_open (D := string) (torn_disk 20)).1 =
    Err (Internal "Corrupted Raft log frame in segment").
Proof. vm_compute. reflexivity. Qed.

(** ** The write-ahead log after a restart *)

Definition wal_reopen (d : Disk) : WalManager :=
  match wal_open d with
  | (Ok w, _) => w
  | (Err _, d) => mkWalManager 0 0 0 0 None WalMetrics_default d
  end.
Definition wal_append (i : string) (w : WalManager) : WalManager :=
  (default (Ok 0%N, w) (append (V := string) (K := string) 0 (WDelete i) PWalSync w)).2.

(** Opened without a replay, as the driver's worker does, the log numbers from
    1 again. *)
Theorem reopen_reuses_lsn :
  current_lsn sample_wal_manager = 3%N ∧
  (replay (total_fn log_ids) 0 [] (wal_append "d" (wal_reopen (wal_disk sample_wal_manager)))).2 =
    [(1%N, "a"); (2%N, "b"); (3%N, "c"); (1%N, "d")].
Proof. vm_compute. by split_and!. Qed.

(** A crash tears the last record; replay skips it, but leaves it in the file.
    A record appended behind it is acknowledged as durable, and the next replay
    drops it silently. *)
Definition torn_wal : WalManager :=
  wal_reopen (mkDisk {[WalSeg 1 := sample_wal_bytes ++ take 10 sample_wal_bytes]} []).

Theorem append_after_torn_tail :
  let '(r, w, st) := replay (total_fn log_ids) 0 [] torn_wal in
  is_ok r = true ∧ st = [(1%N, "a")] ∧
  match append (V := string) (K := string) 0 (WDelete "e") PWalSync w with
  | Some (Ok lsn, w') =>
      lsn = 2%N ∧ last_synced_lsn w' = 2%N ∧
      is_ok (replay (total_fn log_ids) 0 [] w').1.1 = true ∧
      (replay (total_fn log_ids) 0 [] w').2 = [(1%N, "a")]
  | _ => False
  end.
Proof. vm_compute. by split_and!. Qed.
