(* ===== verification/Relational.v ===== *)
(** The relational engine of src/storage/relational_acid.rs: typed column
    vectors, columnar tables with a primary-key index and per-column value
    indexes, transactions, foreign keys, row-level security and snapshots. *)

From S2P Require Import Prelude Durability.
From S2P Require Import Floats.
From stdpp Require Import base gmap sets strings numbers list pretty fin_maps.

(** ** Values, schemas and rows *)

Inductive SqlType := TInteger | TText | TFloat | TBoolean | TTimestamp.

Inductive SqlValue :=
  | VNull
  | VInteger (i : Z)
  | VText (s : string)
  | VFloat (f : f64)
  | VBoolean (b : bool).

Record ColumnDefinition := mkColumn {
  cd_name : string;
  data_type : SqlType;
  is_primary_key : bool;
  is_nullable : bool;
  foreign_key_target : option (string * string)
}.

Record TableSchema := mkSchema {
  ts_name : string;
  ts_columns : list ColumnDefinition;
  primary_key_column : string
}.

(** [RelationalRow] *)
Abbreviation Row := (gmap string SqlValue).

Record RowLevelSecurityPolicy := mkPolicy {
  tenant_column : string;
  allowed_tenant_id : string
}.

Definition allows (p : RowLevelSecurityPolicy) (row : Row) : bool :=
  match row !! tenant_column p with
  | Some (VText val) => bool_decide (val = allowed_tenant_id p)
  | _ => false
  end.

(** ** Typed column vectors *)

Inductive TypedColumnVector :=
  | CInteger (v : list Z)
  | CText (v : list string)
  | CFloat (v : list f64)
  | CBoolean (v : list bool).

Definition column_new (t : SqlType) : TypedColumnVector :=
  match t with
  | TInteger | TTimestamp => CInteger []
  | TText => CText []
  | TFloat => CFloat []
  | TBoolean => CBoolean []
  end.

Definition column_len (c : TypedColumnVector) : nat :=
  match c with
  | CInteger v => length v
  | CText v => length v
  | CFloat v => length v
  | CBoolean v => length v
  end.

(** A value of another type is stored as the zero of the column's type. *)
Definition push_value (val : SqlValue) (c : TypedColumnVector) : TypedColumnVector :=
  match c, val with
  | CInteger v, VInteger i => CInteger (v ++ [i])
  | CInteger v, _ => CInteger (v ++ [0%Z])
  | CText v, VText s => CText (v ++ [s])
  | CText v, _ => CText (v ++ [EmptyString])
  | CFloat v, VFloat f => CFloat (v ++ [f])
  | CFloat v, _ => CFloat (v ++ [f64_of_Z 0])
  | CBoolean v, VBoolean b => CBoolean (v ++ [b])
  | CBoolean v, _ => CBoolean (v ++ [false])
  end.

Definition get_value (idx : nat) (c : TypedColumnVector) : SqlValue :=
  match c with
  | CInteger v => from_option VInteger VNull (v !! idx)
  | CText v => from_option VText VNull (v !! idx)
  | CFloat v => from_option VFloat VNull (v !! idx)
  | CBoolean v => from_option VBoolean VNull (v !! idx)
  end.

(** A value of another type leaves the cell alone, and so does an index out of
    range (as [list_insert] does). *)
Definition set_value (idx : nat) (val : SqlValue) (c : TypedColumnVector) : TypedColumnVector :=
  match c, val with
  | CInteger v, VInteger i => CInteger (<[idx := i]> v)
  | CText v, VText s => CText (<[idx := s]> v)
  | CFloat v, VFloat f => CFloat (<[idx := f]> v)
  | CBoolean v, VBoolean b => CBoolean (<[idx := b]> v)
  | _, _ => c
  end.

Definition sql_value_index_key (val : SqlValue) : option string :=
  match val with
  | VInteger i => Some ("i:" +:+ pretty i)
  | VText s => Some ("t:" +:+ s)
  | VBoolean b => Some ("b:" +:+ (if b then "true" else "false"))
  | VFloat _ | VNull => None
  end.

(** ** Columnar tables *)

Record ColumnarTable := mkTable {
  schema : TableSchema;
  columns : gmap string TypedColumnVector;
  pk_index : gmap string nat;
  col_indexes : gmap string (gmap string (list nat));
  is_deleted : list bool;
  row_versions : list N
}.
#[export] Instance eta_ColumnarTable : Eta ColumnarTable := λ t,
  mkTable (schema t) (columns t) (pk_index t) (col_indexes t) (is_deleted t) (row_versions t).

Definition table_new (s : TableSchema) : ColumnarTable :=
  mkTable s (foldl (λ m col, <[cd_name col := column_new (data_type col)]> m) ∅ (ts_columns s))
    ∅ ∅ [] [].

(** The slots of a value in a column's index. *)
Definition slots (col key : string) (t : ColumnarTable) : list nat :=
  default [] (col_indexes t !! col ≫= (.!! key)).

(** [slots.retain(|&s| s != row_idx)] where the entry exists. *)
Definition index_remove (col : string) (val : SqlValue) (row_idx : nat) (t : ColumnarTable) :
    ColumnarTable :=
  match sql_value_index_key val with
  | Some key =>
      t <| col_indexes ::= alter (alter (filter (λ s, s ≠ row_idx)) key) col |>
  | None => t
  end.

(** [entry(..).or_default().entry(..).or_default().push(row_idx)] *)
Definition index_add (col : string) (val : SqlValue) (row_idx : nat) (t : ColumnarTable) :
    ColumnarTable :=
  match sql_value_index_key val with
  | Some key =>
      t <| col_indexes ::=
             partial_alter (λ m, Some (partial_alter (λ l, Some (default [] l ++ [row_idx])) key
                                         (default ∅ m))) col |>
  | None => t
  end.

Definition row_value (row : Row) (col : ColumnDefinition) : SqlValue :=
  default VNull (row !! cd_name col).

(** One column of an in-place update. *)
Definition update_column (row_idx : nat) (row : Row) (t : ColumnarTable) (col : ColumnDefinition) :
    ColumnarTable :=
  match columns t !! cd_name col with
  | Some vec =>
      let new_val := row_value row col in
      let t := index_remove (cd_name col) (get_value row_idx vec) row_idx t in
      let t := t <| columns ::= <[cd_name col := set_value row_idx new_val vec]> |> in
      index_add (cd_name col) new_val row_idx t
  | None => t
  end.

(** One column of an append. *)
Definition append_column (row_idx : nat) (row : Row) (t : ColumnarTable) (col : ColumnDefinition) :
    ColumnarTable :=
  match columns t !! cd_name col with
  | Some vec =>
      let val := row_value row col in
      let t := t <| columns ::= <[cd_name col := push_value val vec]> |> in
      index_add (cd_name col) val row_idx t
  | None => t
  end.

(** [v[i] = x]; [None] is the out-of-bounds panic. *)
Definition set_index {A} (i : nat) (x : A) (l : list A) : option (list A) :=
  if bool_decide (i < length l) then Some (<[i := x]> l) else None.

Definition insert_or_update (pk : string) (row : Row) (version : N) (t : ColumnarTable) :
    option ColumnarTable :=
  match pk_index t !! pk with
  | Some row_idx =>
      let t := foldl (update_column row_idx row) t (ts_columns (schema t)) in
      del ← set_index row_idx false (is_deleted t);
      ver ← set_index row_idx version (row_versions t);
      Some (t <| is_deleted := del |> <| row_versions := ver |>)
  | None =>
      let row_idx := length (is_deleted t) in
      let t := foldl (append_column row_idx row) t (ts_columns (schema t)) in
      Some (t <| is_deleted ::= λ l, l ++ [false] |>
              <| row_versions ::= λ l, l ++ [version] |>
              <| pk_index ::= <[pk := row_idx]> |>)
  end.

(** One column of a deletion. *)
Definition unindex_column (row_idx : nat) (t : ColumnarTable) (col : ColumnDefinition) :
    ColumnarTable :=
  match columns t !! cd_name col with
  | Some vec => index_remove (cd_name col) (get_value row_idx vec) row_idx t
  | None => t
  end.

Definition table_delete (pk : string) (t : ColumnarTable) : option ColumnarTable :=
  match pk_index t !! pk with
  | Some row_idx =>
      del ← set_index row_idx true (is_deleted t);
      Some (foldl (unindex_column row_idx) (t <| is_deleted := del |>) (ts_columns (schema t)))
  | None => Some t
  end.

Definition get_row (row_idx : nat) (t : ColumnarTable) : option Row :=
  match is_deleted t !! row_idx with
  | None | Some true => None
  | Some false =>
      Some (foldl (λ m col,
        match columns t !! cd_name col with
        | Some vec => <[cd_name col := get_value row_idx vec]> m
        | None => m
        end) ∅ (ts_columns (schema t)))
  end.

Definition iter_rows (t : ColumnarTable) : list Row :=
  omap (λ i, get_row i t) (seq 0 (length (is_deleted t))).

(** ** The engine *)

(** [AcidTransaction]: a write of [None] is a deletion. *)
Inductive TransactionState := TxActive | TxCommitted | TxAborted.

Record AcidTransaction := mkTransaction {
  transaction_id : N;
  tx_state : TransactionState;
  read_snapshot_version : N;
  locked_keys : gset (string * string);
  uncommitted_writes : list (string * string * option Row)
}.
#[export] Instance eta_AcidTransaction : Eta AcidTransaction := λ x,
  mkTransaction (transaction_id x) (tx_state x) (read_snapshot_version x) (locked_keys x)
    (uncommitted_writes x).

Record RelationalSqlEngine := mkEngine {
  tables : gmap string TableSchema;
  storage_tables : gmap string ColumnarTable;
  active_transactions : gmap N AcidTransaction;
  next_tx_id : N;
  current_version : N
}.
#[export] Instance eta_RelationalSqlEngine : Eta RelationalSqlEngine := λ e,
  mkEngine (tables e) (storage_tables e) (active_transactions e) (next_tx_id e) (current_version e).

Definition sql_new : RelationalSqlEngine := mkEngine ∅ ∅ ∅ 1 1.

Definition create_table (s : TableSchema) (e : RelationalSqlEngine) :
    HNSQRResult unit * RelationalSqlEngine :=
  match tables e !! ts_name s with
  | Some _ => (Err (InvalidRequest "Table already exists"), e)
  | None =>
      (Ok tt, e <| storage_tables ::= <[ts_name s := table_new s]> |>
                <| tables ::= <[ts_name s := s]> |>)
  end.

Definition begin_transaction (e : RelationalSqlEngine) : N * RelationalSqlEngine :=
  let tx_id := next_tx_id e in
  (tx_id, e <| next_tx_id ::= λ i, u64_add i 1 |>
            <| active_transactions ::=
                 <[tx_id := mkTransaction tx_id TxActive (current_version e) ∅ []]> |>).

(** The primary key of a row as a string. *)
Definition primary_key (s : TableSchema) (row : Row) : HNSQRResult string :=
  match row !! primary_key_column s with
  | None => Err (InvalidRequest "Missing primary key column")
  | Some (VText t) => Ok t
  | Some (VInteger i) => Ok (pretty i)
  | Some _ => Err (InvalidRequest "Primary key must be Text or Integer")
  end.

(** A live row holds the value, according to the index. *)
Definition target_exists (target_col : string) (val : SqlValue) (t : ColumnarTable) : bool :=
  match sql_value_index_key val with
  | Some key =>
      existsb (λ s, negb (default true (is_deleted t !! s))) (slots target_col key t)
  | None => false
  end.

Definition is_null (v : SqlValue) : bool := match v with VNull => true | _ => false end.

(** The foreign-key check of one column. *)
Definition check_fk (row : Row) (e : RelationalSqlEngine) (col : ColumnDefinition) :
    HNSQRResult unit :=
  match foreign_key_target col, row !! cd_name col with
  | Some (target_table, target_col), Some val =>
      if is_null val then Ok tt else
      match storage_tables e !! target_table with
      | None => Err (InvalidRequest "Target table not found")
      | Some t => if target_exists target_col val t then Ok tt
                  else Err (InvalidRequest "Foreign key violation")
      end
  | _, _ => Ok tt
  end.

Fixpoint check_fks (row : Row) (e : RelationalSqlEngine) (cols : list ColumnDefinition) :
    HNSQRResult unit :=
  match cols with
  | [] => Ok tt
  | col :: cols => let? _ := check_fk row e col in check_fks row e cols
  end.

Definition sql_insert (tx_id : N) (table : string) (row : Row) (e : RelationalSqlEngine) :
    HNSQRResult unit * RelationalSqlEngine :=
  match tables e !! table with
  | None => (Err (InvalidRequest "Table not found"), e)
  | Some s =>
      match primary_key s row with
      | Err err => (Err err, e)
      | Ok pk =>
          match check_fks row e (ts_columns s) with
          | Err err => (Err err, e)
          | Ok _ =>
              match active_transactions e !! tx_id with
              | None => (Err (InvalidRequest "Transaction not active"), e)
              | Some tx =>
                  let tx := tx <| locked_keys ::= λ k, {[(table, pk)]} ∪ k |>
                               <| uncommitted_writes ::= λ w, w ++ [(table, pk, Some row)] |> in
                  (Ok tt, e <| active_transactions ::= <[tx_id := tx]> |>)
              end
          end
      end
  end.

(** One write of a committing transaction. *)
Definition apply_write (version : N) (st : option (gmap string ColumnarTable))
    (w : string * string * option Row) : option (gmap string ColumnarTable) :=
  st ← st;
  let '(table, pk, maybe_row) := w in
  match st !! table with
  | None => Some st
  | Some t =>
      t' ← match maybe_row with
           | Some row => insert_or_update pk row version t
           | None => table_delete pk t
           end;
      Some (<[table := t']> st)
  end.

(** [commit]; the outer [option] is a panic inside a table.  The write lock on the
    active transactions is held throughout, so no other commit, rollback or insert
    comes between two writes; a reader or a replicated row may, which is left out. *)
Definition sql_commit (tx_id : N) (e : RelationalSqlEngine) :
    option (HNSQRResult unit * RelationalSqlEngine) :=
  match active_transactions e !! tx_id with
  | None => Some (Err (InvalidRequest "Transaction not active"), e)
  | Some tx =>
      let version := u64_add (current_version e) 1 in
      let e := e <| active_transactions ::= delete tx_id |>
                 <| current_version := version |> in
      st ← foldl (apply_write version) (Some (storage_tables e)) (uncommitted_writes tx);
      Some (Ok tt, e <| storage_tables := st |>)
  end.

Definition sql_rollback (tx_id : N) (e : RelationalSqlEngine) :
    HNSQRResult unit * RelationalSqlEngine :=
  match active_transactions e !! tx_id with
  | Some _ => (Ok tt, e <| active_transactions ::= delete tx_id |>)
  | None => (Err (InvalidRequest "Transaction not active"), e)
  end.

(** The filter both [execute_select]s apply to the rows. *)
Definition selected (predicate : option (Row → bool)) (rls : option RowLevelSecurityPolicy)
    (row : Row) : bool :=
  from_option (λ p, allows p row) true rls && from_option (λ f, f row) true predicate.

Definition select_rows (predicate : option (Row → bool)) (rls : option RowLevelSecurityPolicy)
    (t : ColumnarTable) : list Row :=
  filter (λ row, selected predicate rls row = true) (iter_rows t).

Definition execute_select (table : string) (predicate : option (Row → bool))
    (rls : option RowLevelSecurityPolicy) (e : RelationalSqlEngine) : HNSQRResult (list Row) :=
  match storage_tables e !! table with
  | None => Err (InvalidRequest "Table not found")
  | Some t => Ok (select_rows predicate rls t)
  end.

Definition apply_committed_row_mutation (table : string) (row : Row) (is_delete : bool)
    (e : RelationalSqlEngine) : option (HNSQRResult unit * RelationalSqlEngine) :=
  match tables e !! table with
  | None => Some (Err (InvalidRequest "Table does not exist"), e)
  | Some s =>
      match primary_key s row with
      | Err err => Some (Err err, e)
      | Ok pk =>
          let version := u64_add (current_version e) 1 in
          let t := default (table_new s) (storage_tables e !! table) in
          t' ← (if is_delete then table_delete pk t else insert_or_update pk row version t);
          Some (Ok tt, e <| current_version := version |>
                         <| storage_tables ::= <[table := t']> |>)
      end
  end.

Definition get_table_schema (table : string) (e : RelationalSqlEngine) : option TableSchema :=
  tables e !! table.

Record RelationalSqlSnapshot := mkSqlSnapshot {
  sn_tables : gmap string TableSchema;
  sn_storage : gmap string ColumnarTable;
  sn_version : N
}.

Definition sql_snapshot (e : RelationalSqlEngine) : RelationalSqlSnapshot :=
  mkSqlSnapshot (tables e) (storage_tables e) (current_version e).

Definition snapshot_select (table : string) (where_clause : option (Row → bool))
    (rls : option RowLevelSecurityPolicy) (sn : RelationalSqlSnapshot) : HNSQRResult (list Row) :=
  match sn_storage sn !! table with
  | None => Err (InvalidRequest "Table not found in snapshot")
  | Some t => Ok (select_rows where_clause rls t)
  end.
