(* ===== verification/RelationalFacts.v ===== *)
(** What the relational engine guarantees: tables stay well formed and refine a
    map from primary keys to rows, the value indexes agree with a scan of the
    live rows, commits are atomic, rollbacks leave no trace and selections
    respect the row-level policy. *)

From S2P Require Import Prelude Durability Relational.
From S2P Require Import Floats.
From stdpp Require Import base gmap sets strings numbers list pretty fin_maps.

(** ** Cells *)

(** The column's element type fits the declared type. *)
Definition column_kind (c : TypedColumnVector) (t : SqlType) : Prop :=
  match c, t with
  | CInteger _, (TInteger | TTimestamp) | CText _, TText | CFloat _, TFloat
  | CBoolean _, TBoolean => True
  | _, _ => False
  end.

Definition typed (t : SqlType) (v : SqlValue) : Prop :=
  match v, t with
  | VInteger _, (TInteger | TTimestamp) | VText _, TText | VFloat _, TFloat
  | VBoolean _, TBoolean => True
  | _, _ => False
  end.

Lemma column_kind_new t : column_kind (column_new t) t.
Proof. by destruct t. Qed.

Lemma push_value_spec ty v c :
  column_kind c ty → typed ty v →
  column_kind (push_value v c) ty ∧ column_len (push_value v c) = S (column_len c) ∧
  get_value (column_len c) (push_value v c) = v ∧
  ∀ i, i < column_len c → get_value i (push_value v c) = get_value i c.
Proof.
  destruct c as [l|l|l|l], ty, v as [|z|str|fl|bo]; try done; cbn; intros _ _;
    (split_and!; [done|rewrite length_app; cbn; lia
      |by rewrite list_lookup_middle|intros i Hi; by rewrite lookup_app_l]).
Qed.

Lemma set_value_spec ty v c i :
  column_kind c ty → typed ty v → i < column_len c →
  column_kind (set_value i v c) ty ∧ column_len (set_value i v c) = column_len c ∧
  get_value i (set_value i v c) = v ∧
  ∀ j, j ≠ i → get_value j (set_value i v c) = get_value j c.
Proof.
  destruct c as [l|l|l|l], ty, v as [|z|str|fl|bo]; try done; cbn; intros _ _ Hi;
    (split_and!; [done|by rewrite length_insert|by rewrite list_lookup_insert_eq
      |intros j Hj; by rewrite list_lookup_insert_ne]).
Qed.

(** Index keys identify values. *)
Lemma sql_value_index_key_inj v w k :
  sql_value_index_key v = Some k → sql_value_index_key w = Some k → v = w.
Proof.
  destruct v as [|i|s|f|b], w as [|j|t|g|c]; cbn [sql_value_index_key];
    try done; intros [= <-] Hk; try done.
  - injection Hk as Hk. apply pretty_Z_inj in Hk. by rewrite Hk.
  - injection Hk as Hk. change (t = s) in Hk. congruence.
  - by destruct b, c.
Qed.

(** ** Indexes *)

Lemma slots_index_remove col val idx t name key s :
  s ∈ slots name key (index_remove col val idx t) ↔
  s ∈ slots name key t ∧ ¬ (name = col ∧ sql_value_index_key val = Some key ∧ s = idx).
Proof.
  unfold index_remove. destruct (sql_value_index_key val) as [k|]; [|naive_solver].
  unfold slots. cbn. destruct (decide (name = col)) as [->|Hne].
  2:{ rewrite lookup_alter_ne by done. naive_solver. }
  rewrite lookup_alter_eq. destruct (col_indexes t !! col) as [m|]; cbn; [|set_solver].
  destruct (decide (key = k)) as [->|Hk].
  - rewrite lookup_alter_eq. destruct (m !! k) as [l|]; cbn; [|set_solver].
    rewrite list_elem_of_filter. naive_solver.
  - rewrite lookup_alter_ne by done. naive_solver.
Qed.

Lemma slots_index_add col val idx t name key s :
  s ∈ slots name key (index_add col val idx t) ↔
  s ∈ slots name key t ∨ (name = col ∧ sql_value_index_key val = Some key ∧ s = idx).
Proof.
  unfold index_add. destruct (sql_value_index_key val) as [k|]; [|naive_solver].
  unfold slots. cbn. destruct (decide (name = col)) as [->|Hne].
  2:{ rewrite lookup_partial_alter_ne by done. naive_solver. }
  rewrite lookup_partial_alter_eq. cbn. destruct (decide (key = k)) as [->|Hk].
  - rewrite lookup_partial_alter_eq. cbn. rewrite elem_of_app, list_elem_of_singleton.
    destruct (col_indexes t !! col); cbn; [naive_solver|].
    rewrite lookup_empty. cbn. set_solver.
  - rewrite lookup_partial_alter_ne by done. destruct (col_indexes t !! col); cbn; [naive_solver|].
    rewrite lookup_empty. cbn. set_solver.
Qed.

(** ** Loops over the columns *)

(** The two tables agree on column [name]: its cells and its index. *)
Definition same_column (name : string) (t t' : ColumnarTable) : Prop :=
  columns t' !! name = columns t !! name ∧
  ∀ key s, s ∈ slots name key t' ↔ s ∈ slots name key t.

(** Everything but cells and indexes. *)
Definition same_shape (t t' : ColumnarTable) : Prop :=
  schema t' = schema t ∧ pk_index t' = pk_index t ∧ is_deleted t' = is_deleted t ∧
  row_versions t' = row_versions t.

#[export] Instance same_column_preorder name : PreOrder (same_column name).
Proof.
  split; [by split|]. intros t1 t2 t3 [H1 H2] [H3 H4]. split; [congruence|].
  intros. by rewrite H4, H2.
Qed.

#[export] Instance same_shape_preorder : PreOrder same_shape.
Proof.
  unfold same_shape. split; [by repeat split|].
  intros t1 t2 t3 (?&?&?&?) (?&?&?&?). split_and!; congruence.
Qed.

(** A step that works on one column. *)
Record column_step (step : ColumnarTable → ColumnDefinition → ColumnarTable) : Prop := {
  cst_shape t col : same_shape t (step t col);
  cst_local t col name : name ≠ cd_name col → same_column name t (step t col)
}.

(** Folding such a step over distinct columns: each column is changed once, by
    a step that sees it as it was. *)
Lemma foldl_columns step cols t :
  column_step step → NoDup (cd_name <$> cols) →
  let t' := foldl step t cols in
  same_shape t t' ∧
  (∀ name, name ∉ cd_name <$> cols → same_column name t t') ∧
  (∀ col, col ∈ cols → ∃ t1, same_shape t t1 ∧ same_column (cd_name col) t t1 ∧
     same_column (cd_name col) (step t1 col) t').
Proof.
  intros Hst. cbv zeta. revert t. induction cols as [|c cols IH]; intros t Hnd; cbn [foldl].
  { split_and!; [done|done|by intros col ?%not_elem_of_nil]. }
  cbn in Hnd. apply NoDup_cons in Hnd as [Hc Hnd].
  destruct (IH (step t c) Hnd) as (Hsh & Hout & Hin). pose proof (cst_shape _ Hst t c) as Hsh1.
  split_and!.
  - by etrans.
  - cbn. intros name [Hn1 Hn2]%not_elem_of_cons. etrans; [by apply (cst_local _ Hst)|]. by apply Hout.
  - intros col [->|Hcol]%elem_of_cons.
    + exists t. split_and!; [done|done|]. by apply Hout.
    + destruct (Hin col Hcol) as (t1 & Hs1 & Hc1 & Hf). exists t1. split_and!; [by etrans| |done].
      etrans; [|exact Hc1]. apply (cst_local _ Hst). intros Heq. destruct Hc. rewrite <- Heq.
      by apply list_elem_of_fmap_2.
Qed.

Lemma index_remove_shape col val idx t :
  same_shape t (index_remove col val idx t) ∧ columns (index_remove col val idx t) = columns t.
Proof. unfold index_remove. by destruct (sql_value_index_key val). Qed.

Lemma index_add_shape col val idx t :
  same_shape t (index_add col val idx t) ∧ columns (index_add col val idx t) = columns t.
Proof. unfold index_add. by destruct (sql_value_index_key val). Qed.

Lemma unindex_column_step idx : column_step (unindex_column idx).
Proof.
  split.
  - intros t col. unfold unindex_column. case_match; [|done]. by apply index_remove_shape.
  - intros t col name Hn. unfold unindex_column. case_match; [|done]. split.
    + by rewrite (proj2 (index_remove_shape _ _ _ _)).
    + intros key s. rewrite slots_index_remove. naive_solver.
Qed.

Lemma append_column_step idx row : column_step (append_column idx row).
Proof.
  split.
  - intros t col. unfold append_column. case_match; [|done].
    etrans; [|apply index_add_shape]. by repeat split.
  - intros t col name Hn. unfold append_column. case_match; [|done]. split.
    + rewrite (proj2 (index_add_shape _ _ _ _)). cbn. by rewrite lookup_insert_ne.
    + intros key s. rewrite slots_index_add. split; [|by left]. intros [?|(? & _)]; done.
Qed.

Lemma update_column_step idx row : column_step (update_column idx row).
Proof.
  split.
  - intros t col. unfold update_column. case_match; [|done].
    etrans; [apply index_remove_shape|]. etrans; [|apply index_add_shape]. by repeat split.
  - intros t col name Hn. unfold update_column. case_match; [|done]. split.
    + rewrite (proj2 (index_add_shape _ _ _ _)). cbn.
      rewrite lookup_insert_ne by done. by rewrite (proj2 (index_remove_shape _ _ _ _)).
    + intros key s. rewrite slots_index_add.
      change (slots name key (?x <| columns ::= ?f |>)) with (slots name key x).
      rewrite slots_index_remove. naive_solver.
Qed.

(** ** Well-formed tables *)

(** A row with a value of the declared type in every column. *)
Definition typed_row (s : TableSchema) (row : Row) : Prop :=
  ∀ col, col ∈ ts_columns s → typed (data_type col) (row_value row col).

(** Cells and index of one column, for the rows marked in [del]. *)
Record column_wf (del : list bool) (col : ColumnDefinition) (t : ColumnarTable)
    (vec : TypedColumnVector) : Prop := {
  cw_vec : columns t !! cd_name col = Some vec;
  cw_len : column_len vec = length del;
  cw_kind : column_kind vec (data_type col);
  cw_index key s : s ∈ slots (cd_name col) key t ↔
    del !! s = Some false ∧ sql_value_index_key (get_value s vec) = Some key
}.

Record table_wf (t : ColumnarTable) : Prop := {
  tw_names : NoDup (cd_name <$> ts_columns (schema t));
  tw_cols col : col ∈ ts_columns (schema t) → ∃ vec, column_wf (is_deleted t) col t vec;
  tw_versions : length (row_versions t) = length (is_deleted t);
  tw_range pk i : pk_index t !! pk = Some i → i < length (is_deleted t);
  tw_inj pk1 pk2 i : pk_index t !! pk1 = Some i → pk_index t !! pk2 = Some i → pk1 = pk2;
  tw_onto i : i < length (is_deleted t) → ∃ pk, pk_index t !! pk = Some i
}.

Lemma foldl_new_lookup cols (m : gmap string TypedColumnVector) col :
  NoDup (cd_name <$> cols) → col ∈ cols →
  foldl (λ m c, <[cd_name c := column_new (data_type c)]> m) m cols !! cd_name col =
    Some (column_new (data_type col)).
Proof.
  revert m. induction cols as [|c cols IH]; intros m Hnd; cbn [foldl]; [by intros ?%not_elem_of_nil|].
  cbn in Hnd. apply NoDup_cons in Hnd as [Hc Hnd]. intros [->|Hin]%elem_of_cons; [|by apply IH].
  clear IH. assert (∀ m : gmap string TypedColumnVector, m !! cd_name c = Some (column_new (data_type c)) →
    foldl (λ m c, <[cd_name c := column_new (data_type c)]> m) m cols !! cd_name c =
      Some (column_new (data_type c))) as Hkeep; [|apply Hkeep, lookup_insert_eq].
  clear Hnd. induction cols as [|c' cols IH]; intros m' Hm; cbn [foldl]; [done|].
  cbn in Hc. apply not_elem_of_cons in Hc as [Hne Hc]. apply IH; [done|]. by rewrite lookup_insert_ne.
Qed.

Lemma table_new_wf s : NoDup (cd_name <$> ts_columns s) → table_wf (table_new s).
Proof.
  intros Hnd. split; cbn; [done| |done|intros pk i Hl; simplify_map_eq|intros p q i Hl; simplify_map_eq|intros; lia].
  intros col Hc. exists (column_new (data_type col)). split; cbn.
  - by apply foldl_new_lookup.
  - by destruct (data_type col).
  - apply column_kind_new.
  - intros key i. unfold slots. cbn. rewrite lookup_empty. cbn. rewrite lookup_nil. set_solver.
Qed.

(** ** Rows *)

Lemma get_row_lookup t i row name :
  get_row i t = Some row →
  is_deleted t !! i = Some false ∧
  row !! name = (if bool_decide (name ∈ cd_name <$> ts_columns (schema t))
                 then get_value i <$> columns t !! name else None).
Proof.
  unfold get_row. destruct (is_deleted t !! i) as [[]|]; [done| |done]. intros [= <-]. split; [done|].
  assert (∀ cols (m : Row), foldl (λ m col,
      match columns t !! cd_name col with
      | Some vec => <[cd_name col := get_value i vec]> m
      | None => m
      end) m cols !! name =
    match columns t !! name with
    | Some vec => if bool_decide (name ∈ cd_name <$> cols) then Some (get_value i vec) else m !! name
    | None => m !! name
    end) as Hgen.
  { induction cols as [|c cols IH]; intros m; cbn [foldl]; [by destruct (columns t !! name)|].
    rewrite IH. destruct (decide (name = cd_name c)) as [->|Hne].
    - destruct (columns t !! cd_name c) as [vec|] eqn:Hv; [|done].
      rewrite (bool_decide_eq_true_2 (_ ∈ cd_name <$> _ :: _)) by (cbn; set_solver).
      case_bool_decide; [done|]. apply lookup_insert_eq.
    - assert (bool_decide (name ∈ cd_name <$> c :: cols) = bool_decide (name ∈ cd_name <$> cols)) as ->
        by (apply bool_decide_ext; cbn; set_solver).
      destruct (columns t !! name); [case_bool_decide; [done|]|];
        destruct (columns t !! cd_name c); by rewrite ?lookup_insert_ne. }
  rewrite Hgen, lookup_empty. destruct (columns t !! name); cbn; by case_bool_decide.
Qed.

Lemma get_row_live t i : is_deleted t !! i = Some false ↔ is_Some (get_row i t).
Proof.
  unfold get_row. split; [intros ->; eauto|]. destruct (is_deleted t !! i) as [[]|]; [|done|]; by intros [? ?].
Qed.

(** Rows of two tables with the same cells and marks are equal. *)
Lemma get_row_ext t t' i :
  schema t' = schema t → is_deleted t' !! i = is_deleted t !! i →
  (∀ col, col ∈ ts_columns (schema t) →
     get_value i <$> columns t' !! cd_name col = get_value i <$> columns t !! cd_name col) →
  get_row i t' = get_row i t.
Proof.
  intros Hs Hd Hc. destruct (get_row i t) as [r|] eqn:Hr, (get_row i t') as [r'|] eqn:Hr'; [| | |done].
  - f_equal. apply map_eq. intros name.
    destruct (get_row_lookup _ _ _ name Hr) as [_ ->], (get_row_lookup _ _ _ name Hr') as [_ ->].
    rewrite Hs. case_bool_decide as Hn; [|done].
    apply list_elem_of_fmap in Hn as (col & -> & Hcol). by rewrite Hc.
  - exfalso. destruct (proj1 (get_row_live t' i)) as [? ?]; [|congruence].
    rewrite Hd. apply get_row_live. eauto.
  - exfalso. destruct (proj1 (get_row_live t i)) as [? ?]; [|congruence].
    rewrite <- Hd. apply get_row_live. eauto.
Qed.

(** What a table means: a map from primary keys to rows. *)
Definition contents (t : ColumnarTable) : gmap string Row := omap (λ i, get_row i t) (pk_index t).

(** The part of a row that the table stores. *)
Definition project (s : TableSchema) (row : Row) : Row :=
  filter (λ kv, kv.1 ∈ cd_name <$> ts_columns s) row.

Lemma get_row_project t i row :
  typed_row (schema t) row → is_deleted t !! i = Some false →
  (∀ col, col ∈ ts_columns (schema t) →
     get_value i <$> columns t !! cd_name col = Some (row_value row col)) →
  get_row i t = Some (project (schema t) row).
Proof.
  intros Hty Hd Hc. destruct (proj1 (get_row_live t i) Hd) as [r Hr]. rewrite Hr. f_equal.
  apply map_eq. intros name. destruct (get_row_lookup _ _ _ name Hr) as [_ ->].
  unfold project. rewrite map_lookup_filter. case_bool_decide as Hn.
  - apply list_elem_of_fmap in Hn as (col & -> & Hcol). rewrite (Hc col Hcol).
    specialize (Hty col Hcol). unfold row_value in *. destruct (row !! cd_name col) as [v|] eqn:Hv.
    + cbn. rewrite option_guard_True; [done|]. by apply list_elem_of_fmap_2.
    + cbn in Hty. by destruct (data_type col).
  - destruct (row !! name) as [v|]; [|done]. cbn. by rewrite option_guard_False.
Qed.

(** ** Deleting *)

Lemma set_index_lt {A} i (x : A) l : i < length l → set_index i x l = Some (<[i := x]> l).
Proof. intros. unfold set_index. by rewrite bool_decide_eq_true_2. Qed.

(** Transporting the facts on a column along [same_column]. *)
Lemma column_wf_same del col t t' vec :
  same_column (cd_name col) t t' → column_wf del col t vec → column_wf del col t' vec.
Proof.
  intros [Hc Hs] [Hv Hl Hk Hi]. split; [congruence|done|done|]. intros key s. by rewrite Hs.
Qed.

Lemma unindex_column_wf del col t vec i :
  column_wf del col t vec → i < length del →
  column_wf (<[i := true]> del) col (unindex_column i t col) vec.
Proof.
  intros [Hv Hl Hk Hi] Hlt. unfold unindex_column. rewrite Hv.
  split; [by rewrite (proj2 (index_remove_shape _ _ _ _))|by rewrite length_insert|done|].
  intros key s. rewrite slots_index_remove, Hi. destruct (decide (s = i)) as [->|Hne].
  - rewrite list_lookup_insert_eq by done. split; [|by intros [[=] _]].
    intros [[_ Hkey] Hno]. destruct Hno. done.
  - rewrite list_lookup_insert_ne by done. naive_solver.
Qed.

Lemma table_delete_spec pk t :
  table_wf t → ∃ t', table_delete pk t = Some t' ∧ table_wf t' ∧
    contents t' = delete pk (contents t) ∧ schema t' = schema t ∧ pk_index t' = pk_index t.
Proof.
  intros Hwf. pose proof Hwf as [Hnm Hcols Hver Hrange Hinj Honto]. unfold table_delete.
  destruct (pk_index t !! pk) as [i|] eqn:Hpk.
  2:{ exists t. split_and!; [done|done| |done|done]. rewrite delete_id; [done|].
      unfold contents. rewrite lookup_omap, Hpk. done. }
  pose proof (Hrange pk i Hpk) as Hi. rewrite set_index_lt by done. cbn.
  set (t0 := t <| is_deleted := <[i := true]> (is_deleted t) |>).
  destruct (foldl_columns (unindex_column i) (ts_columns (schema t)) t0
    (unindex_column_step i) Hnm) as ((Hs & Hp & Hd & Hv) & _ & Hin).
  set (t' := foldl (unindex_column i) t0 (ts_columns (schema t))) in *. cbn in Hs, Hp, Hd, Hv.
  assert (∀ col, col ∈ ts_columns (schema t) → ∃ vec, column_wf (is_deleted t) col t vec ∧
    column_wf (is_deleted t') col t' vec) as Hcw.
  { intros col Hc. destruct (Hcols col Hc) as [vec Hw]. exists vec. split; [done|].
    destruct (Hin col Hc) as (t1 & _ & Hc1 & Hf). rewrite Hd.
    eapply column_wf_same; [exact Hf|]. apply unindex_column_wf; [|done].
    eapply column_wf_same; [exact Hc1|]. by destruct Hw. }
  exists t'. split_and!; [done| | |done|done].
  - split; rewrite ?Hs, ?Hp; [done| | | |done|].
    + intros col Hc. destruct (Hcw col Hc) as (vec & _ & ?). eauto.
    + by rewrite Hv, Hd, length_insert.
    + rewrite Hd, length_insert. done.
    + rewrite Hd, length_insert. done.
  - apply map_eq. intros q. unfold contents. rewrite lookup_delete, !lookup_omap, Hp.
    case_decide as Hq.
    + subst q. rewrite Hpk. cbn. unfold get_row. by rewrite Hd, list_lookup_insert_eq.
    + destruct (pk_index t !! q) as [j|] eqn:Hj; cbn; [|done].
      assert (j ≠ i) as Hji by (intros ->; by destruct Hq; eapply Hinj).
      apply get_row_ext; [done|by rewrite Hd, list_lookup_insert_ne|].
      intros col Hc. destruct (Hcw col Hc) as (vec & [-> _ _ _] & [-> _ _ _]). done.
Qed.

(** ** Inserting *)

Lemma update_column_wf del col t vec i row :
  column_wf del col t vec → i < length del → typed (data_type col) (row_value row col) →
  column_wf (<[i := false]> del) col (update_column i row t col)
    (set_value i (row_value row col) vec).
Proof.
  intros [Hv Hl Hk Hi] Hlt Hty.
  destruct (set_value_spec (data_type col) (row_value row col) vec i Hk Hty) as (Hk' & Hl' & Hg & Ho);
    [lia|]. unfold update_column. rewrite Hv.
  split; [|by rewrite length_insert, Hl'|done|].
  { rewrite (proj2 (index_add_shape _ _ _ _)). cbn. by rewrite lookup_insert_eq. }
  intros key s. rewrite slots_index_add.
  change (slots (cd_name col) key (?x <| columns ::= ?f |>)) with (slots (cd_name col) key x).
  rewrite slots_index_remove, Hi. destruct (decide (s = i)) as [->|Hne].
  - rewrite list_lookup_insert_eq, Hg by done. naive_solver.
  - rewrite list_lookup_insert_ne, Ho by done. naive_solver.
Qed.

Lemma append_column_wf del col t vec row :
  column_wf del col t vec → typed (data_type col) (row_value row col) →
  column_wf (del ++ [false]) col (append_column (length del) row t col)
    (push_value (row_value row col) vec).
Proof.
  intros [Hv Hl Hk Hi] Hty.
  destruct (push_value_spec (data_type col) (row_value row col) vec Hk Hty) as (Hk' & Hl' & Hg & Ho).
  unfold append_column. rewrite Hv. split; [|rewrite length_app, Hl', Hl; cbn; lia|done|].
  { rewrite (proj2 (index_add_shape _ _ _ _)). cbn. by rewrite lookup_insert_eq. }
  intros key s. rewrite slots_index_add.
  change (slots (cd_name col) key (?x <| columns ::= ?f |>)) with (slots (cd_name col) key x).
  rewrite Hi. rewrite Hl in Hg, Ho. destruct (decide (s = length del)) as [->|Hne].
  - rewrite list_lookup_middle, Hg by done. rewrite lookup_ge_None_2 by lia. naive_solver.
  - destruct (decide (s < length del)) as [Hlt|Hge].
    + rewrite lookup_app_l, Ho by done. naive_solver.
    + rewrite (lookup_ge_None_2 del), (lookup_ge_None_2 (del ++ _)) by (rewrite ?length_app; cbn; lia).
      naive_solver.
Qed.

(** Replacing the row of a known key. *)
Lemma update_row_spec pk row v t i :
  table_wf t → typed_row (schema t) row → pk_index t !! pk = Some i →
  ∃ t', insert_or_update pk row v t = Some t' ∧ table_wf t' ∧ schema t' = schema t ∧
    contents t' = <[pk := project (schema t) row]> (contents t).
Proof.
  intros [Hnm Hcols Hver Hrange Hinj Honto] Hty Hpk. pose proof (Hrange pk i Hpk) as Hi.
  unfold insert_or_update. rewrite Hpk.
  destruct (foldl_columns (update_column i row) (ts_columns (schema t)) t
    (update_column_step i row) Hnm) as ((Hs & Hp & Hd & Hv) & _ & Hin).
  set (t1 := foldl (update_column i row) t (ts_columns (schema t))) in *.
  rewrite Hd, (set_index_lt i false) by done. cbn.
  rewrite Hv, (set_index_lt i v) by (by rewrite Hver). cbn.
  set (t' := t1 <| is_deleted := _ |> <| row_versions := _ |>).
  assert (∀ col, col ∈ ts_columns (schema t) → ∃ vec, column_wf (is_deleted t) col t vec ∧
    column_wf (<[i := false]> (is_deleted t)) col t' (set_value i (row_value row col) vec)) as Hcw.
  { intros col Hc. destruct (Hcols col Hc) as [vec Hw]. exists vec. split; [done|].
    destruct (Hin col Hc) as (t2 & _ & Hc1 & Hf).
    assert (column_wf (<[i := false]> (is_deleted t)) col t1 (set_value i (row_value row col) vec))
      as [Ha Hb Hcc Hdd]; [|by split].
    eapply column_wf_same; [exact Hf|]. apply update_column_wf; [|done|by apply Hty].
    by eapply column_wf_same. }
  exists t'. split_and!; [done| |done|].
  - split; unfold t'; cbn; rewrite ?Hs, ?Hp; [done| | | |done|].
    + intros col Hc. destruct (Hcw col Hc) as (vec & _ & ?). eauto.
    + by rewrite !length_insert.
    + by rewrite length_insert.
    + by rewrite length_insert.
  - apply map_eq. intros q. unfold contents. rewrite lookup_insert, !lookup_omap.
    change (pk_index t') with (pk_index t1). rewrite Hp. case_decide as Hq.
    + subst q. rewrite Hpk. cbn.
      rewrite (get_row_project t' i row); change (schema t') with (schema t1); rewrite ?Hs.
      * done.
      * done.
      * unfold t'. cbn. by rewrite list_lookup_insert_eq.
      * intros col Hc. destruct (Hcw col Hc) as (vec & [_ Hl Hk _] & [-> _ _ _]). cbn. f_equal.
        eapply set_value_spec; [done|by apply Hty|lia].
    + destruct (pk_index t !! q) as [j|] eqn:Hj; cbn; [|done].
      assert (j ≠ i) as Hji by (intros ->; by destruct Hq; eapply Hinj).
      apply get_row_ext; [done|cbn; by rewrite list_lookup_insert_ne|].
      intros col Hc. destruct (Hcw col Hc) as (vec & [-> Hl Hk _] & [-> _ _ _]). cbn. f_equal.
      eapply set_value_spec; [done|by apply Hty|lia|done].
Qed.

(** Appending the row of a new key. *)
Lemma append_row_spec pk row v t :
  table_wf t → typed_row (schema t) row → pk_index t !! pk = None →
  ∃ t', insert_or_update pk row v t = Some t' ∧ table_wf t' ∧ schema t' = schema t ∧
    contents t' = <[pk := project (schema t) row]> (contents t).
Proof.
  intros [Hnm Hcols Hver Hrange Hinj Honto] Hty Hpk. unfold insert_or_update. rewrite Hpk.
  set (i := length (is_deleted t)).
  destruct (foldl_columns (append_column i row) (ts_columns (schema t)) t
    (append_column_step i row) Hnm) as ((Hs & Hp & Hd & Hv) & _ & Hin).
  set (t1 := foldl (append_column i row) t (ts_columns (schema t))) in *.
  set (t' := t1 <| is_deleted ::= _ |> <| row_versions ::= _ |> <| pk_index ::= _ |>).
  assert (is_deleted t' = is_deleted t ++ [false]) as Hdel by (unfold t'; cbn; by rewrite Hd).
  assert (pk_index t' = <[pk := i]> (pk_index t)) as Hpki by (unfold t'; cbn; by rewrite Hp).
  assert (∀ col, col ∈ ts_columns (schema t) → ∃ vec, column_wf (is_deleted t) col t vec ∧
    column_wf (is_deleted t') col t' (push_value (row_value row col) vec)) as Hcw.
  { intros col Hc. destruct (Hcols col Hc) as [vec Hw]. exists vec. split; [done|].
    destruct (Hin col Hc) as (t2 & _ & Hc1 & Hf). rewrite Hdel.
    assert (column_wf (is_deleted t ++ [false]) col t1 (push_value (row_value row col) vec))
      as [Ha Hb Hcc Hdd]; [|by split].
    eapply column_wf_same; [exact Hf|]. apply append_column_wf; [|by apply Hty].
    by eapply column_wf_same. }
  exists t'. split_and!; [done| |done|].
  - split; [by change (schema t') with (schema t1); rewrite Hs| | | | |].
    + change (schema t') with (schema t1). rewrite Hs. intros col Hc.
      destruct (Hcw col Hc) as (vec & _ & ?). eauto.
    + rewrite Hdel. unfold t'. cbn. rewrite Hv, !length_app. cbn. lia.
    + rewrite Hpki, Hdel, length_app. cbn. intros q j [[_ <-]|[_ Hj%Hrange]]%lookup_insert_Some;
        unfold i; lia.
    + rewrite Hpki. intros q1 q2 j [[<- <-]|[Hq1 H1]]%lookup_insert_Some
        [[<- Hj]|[Hq2 H2]]%lookup_insert_Some; [done| | |by eapply Hinj].
      * apply Hrange in H2. unfold i in H2. lia.
      * subst j. apply Hrange in H1. unfold i in H1. lia.
    + rewrite Hdel, Hpki, length_app. cbn. intros j Hj. destruct (decide (j = i)) as [->|Hne].
      * exists pk. apply lookup_insert_eq.
      * destruct (Honto j) as [q Hq]; [unfold i in Hne; lia|]. exists q.
        rewrite lookup_insert_ne; [done|]. intros ->. congruence.
  - apply map_eq. intros q. unfold contents. rewrite lookup_insert, !lookup_omap, Hpki.
    rewrite lookup_insert. case_decide as Hq.
    + cbn. rewrite (get_row_project t' i row); change (schema t') with (schema t1); rewrite ?Hs.
      * done.
      * done.
      * rewrite Hdel. by apply list_lookup_middle.
      * intros col Hc. destruct (Hcw col Hc) as (vec & [_ Hl Hk _] & [-> _ _ _]). cbn. f_equal.
        unfold i. rewrite <- Hl. eapply push_value_spec; [done|by apply Hty].
    + destruct (pk_index t !! q) as [j|] eqn:Hj; cbn; [|done]. apply Hrange in Hj.
      apply get_row_ext; [done|rewrite Hdel; by apply lookup_app_l|].
      intros col Hc. destruct (Hcw col Hc) as (vec & [-> Hl Hk _] & [-> _ _ _]). cbn. f_equal.
      eapply push_value_spec; [done|by apply Hty|lia].
Qed.

Lemma insert_or_update_spec pk row v t :
  table_wf t → typed_row (schema t) row →
  ∃ t', insert_or_update pk row v t = Some t' ∧ table_wf t' ∧ schema t' = schema t ∧
    contents t' = <[pk := project (schema t) row]> (contents t).
Proof.
  intros Hwf Hty. destruct (pk_index t !! pk) as [i|] eqn:Hpk;
    [by eapply update_row_spec|by apply append_row_spec].
Qed.

(** ** Scans and indexes *)

Lemma elem_of_iter_rows t row : row ∈ iter_rows t ↔ ∃ i, get_row i t = Some row.
Proof.
  unfold iter_rows. rewrite list_elem_of_omap. split; [intros (i & _ & ?); eauto|].
  intros [i Hi]. exists i. split; [|done]. apply elem_of_seq.
  destruct (get_row_lookup _ _ _ EmptyString Hi) as [Hd _]. apply lookup_lt_Some in Hd. lia.
Qed.

(** The rows a scan yields are the rows of the map. *)
Lemma iter_rows_contents t row :
  table_wf t → row ∈ iter_rows t ↔ ∃ pk, contents t !! pk = Some row.
Proof.
  intros Hwf. rewrite elem_of_iter_rows. unfold contents. setoid_rewrite lookup_omap. split.
  - intros [i Hi]. destruct (get_row_lookup _ _ _ EmptyString Hi) as [Hd%lookup_lt_Some _].
    destruct (tw_onto _ Hwf i Hd) as [pk Hpk]. exists pk. by rewrite Hpk.
  - intros [pk Hpk]. destruct (pk_index t !! pk) as [i|]; [|done]. eauto.
Qed.

(** The index lookup finds a value iff a scan of the live rows does. *)
Lemma target_exists_scan t col v :
  table_wf t → col ∈ ts_columns (schema t) →
  target_exists (cd_name col) v t = true ↔
  is_Some (sql_value_index_key v) ∧ ∃ row, row ∈ iter_rows t ∧ row !! cd_name col = Some v.
Proof.
  intros Hwf Hc. destruct (tw_cols _ Hwf col Hc) as [vec [Hv Hl Hk Hi]].
  assert (∀ i row, get_row i t = Some row → row !! cd_name col = Some (get_value i vec)) as Hcell.
  { intros i row Hr. destruct (get_row_lookup _ _ _ (cd_name col) Hr) as [_ ->].
    rewrite bool_decide_eq_true_2 by (by apply list_elem_of_fmap_2). by rewrite Hv. }
  unfold target_exists. destruct (sql_value_index_key v) as [key|] eqn:Hkey.
  2:{ split; [done|]. by intros [[? [=]] _]. }
  rewrite existsb_exists. setoid_rewrite <- list_elem_of_In. setoid_rewrite Hi. split.
  - intros (s & [Hd Hs] & _). split; [eauto|]. destruct (proj1 (get_row_live t s) Hd) as [row Hrow].
    exists row. split; [by apply elem_of_iter_rows; exists s|]. rewrite (Hcell s row Hrow). f_equal.
    by eapply sql_value_index_key_inj.
  - intros [_ (row & [i Hr]%elem_of_iter_rows & Hval)]. rewrite (Hcell i row Hr) in Hval.
    injection Hval as Hval. destruct (get_row_lookup _ _ _ EmptyString Hr) as [Hd _].
    exists i. rewrite Hd, Hval. by split_and!.
Qed.

(** ** The engine *)

(** Every stored table is well formed and has the schema the catalog names. *)
Definition engine_wf (e : RelationalSqlEngine) : Prop :=
  ∀ name t, storage_tables e !! name = Some t → table_wf t ∧ tables e !! name = Some (schema t).

(** The database as a map of maps. *)
Definition database (e : RelationalSqlEngine) : gmap string (gmap string Row) :=
  contents <$> storage_tables e.

(** One write on it. *)
Definition db_write (schemas : gmap string TableSchema) (db : gmap string (gmap string Row))
    (w : string * string * option Row) : gmap string (gmap string Row) :=
  let '(table, pk, maybe_row) := w in
  match schemas !! table, maybe_row with
  | Some s, Some row => alter <[pk := project s row]> table db
  | Some _, None => alter (delete pk) table db
  | None, _ => db
  end.

(** The rows of the writes have the types of their tables. *)
Definition typed_writes (schemas : gmap string TableSchema)
    (ws : list (string * string * option Row)) : Prop :=
  ∀ table pk row s, (table, pk, Some row) ∈ ws → schemas !! table = Some s → typed_row s row.

Lemma fmap_insert_alter {A B} (f : A → B) (g : B → B) (m : gmap string A) k x y :
  m !! k = Some x → f y = g (f x) → f <$> <[k := y]> m = alter g k (f <$> m).
Proof.
  intros Hk Hf. apply map_eq. intros j. rewrite lookup_fmap. destruct (decide (j = k)) as [->|Hne].
  - by rewrite lookup_insert_eq, lookup_alter_eq, lookup_fmap, Hk; cbn; rewrite Hf.
  - by rewrite lookup_insert_ne, lookup_alter_ne, lookup_fmap by done.
Qed.

Lemma apply_writes_spec schemas version ws st :
  (∀ name t, st !! name = Some t → table_wf t ∧ schemas !! name = Some (schema t)) →
  typed_writes schemas ws →
  ∃ st', foldl (apply_write version) (Some st) ws = Some st' ∧
    (∀ name t, st' !! name = Some t → table_wf t ∧ schemas !! name = Some (schema t)) ∧
    contents <$> st' = foldl (db_write schemas) (contents <$> st) ws.
Proof.
  revert st. induction ws as [|[[table pk] mrow] ws IH]; intros st Hst Hty; [by exists st|].
  assert (typed_writes schemas ws) as Hty'.
  { intros t p r s Hin. apply (Hty t p r s). by apply list_elem_of_further. }
  cbn [foldl]. unfold apply_write at 2. cbn [mbind option_bind].
  assert (∃ st1, (match st !! table with
      | None => Some st
      | Some t => t' ← match mrow with Some row => insert_or_update pk row version t
                       | None => table_delete pk t end; Some (<[table := t']> st) end) = Some st1 ∧
    (∀ name t, st1 !! name = Some t → table_wf t ∧ schemas !! name = Some (schema t)) ∧
    contents <$> st1 = db_write schemas (contents <$> st) (table, pk, mrow)) as (st1 & -> & Hst1 & Hdb).
  { destruct (st !! table) as [t|] eqn:Ht.
    2:{ exists st. split_and!; [done|done|]. unfold db_write.
        destruct (schemas !! table); [|done]. apply map_eq. intros j.
        destruct mrow; (destruct (decide (j = table)) as [->|Hne];
          [rewrite lookup_alter_eq, lookup_fmap, Ht; done|by rewrite lookup_alter_ne]). }
    destruct (Hst table t Ht) as [Hwf Hsch].
    assert (∃ t', match mrow with Some row => insert_or_update pk row version t
        | None => table_delete pk t end = Some t' ∧ table_wf t' ∧ schema t' = schema t ∧
      contents t' = match mrow with Some row => <[pk := project (schema t) row]> (contents t)
        | None => delete pk (contents t) end) as (t' & -> & Hwf' & Hs' & Hc').
    { destruct mrow as [row|].
      - apply insert_or_update_spec; [done|]. eapply Hty; [apply list_elem_of_here|done].
      - destruct (table_delete_spec pk t Hwf) as (t' & ? & ? & ? & ? & _). eauto. }
    cbn. exists (<[table := t']> st). split_and!; [done| |].
    - intros name t0 [[<- <-]|[Hne Hl]]%lookup_insert_Some; [by rewrite Hs'|by apply Hst].
    - unfold db_write. rewrite Hsch. destruct mrow; by eapply fmap_insert_alter. }
  rewrite <- Hdb. by apply IH.
Qed.

(** Committing performs the staged writes, in order, on the database. *)
Lemma commit_spec tx_id tx e :
  engine_wf e → active_transactions e !! tx_id = Some tx →
  typed_writes (tables e) (uncommitted_writes tx) →
  ∃ e', sql_commit tx_id e = Some (Ok tt, e') ∧ engine_wf e' ∧ tables e' = tables e ∧
    database e' = foldl (db_write (tables e)) (database e) (uncommitted_writes tx) ∧
    active_transactions e' = delete tx_id (active_transactions e).
Proof.
  intros Hwf Htx Hty. unfold sql_commit. rewrite Htx. cbn.
  destruct (apply_writes_spec (tables e) (u64_add (current_version e) 1) (uncommitted_writes tx)
    (storage_tables e) Hwf Hty) as (st & -> & Hst & Hdb).
  cbn. eexists. split; [done|]. by split_and!.
Qed.

(** ** Reading *)

(** execute_select on a well-formed engine returns exactly the rows of the
    table's contents that the row-level-security policy admits and the predicate
    accepts. *)
Lemma execute_select_spec e name t predicate rls :
  engine_wf e → storage_tables e !! name = Some t →
  ∃ rows, execute_select name predicate rls e = Ok rows ∧
    ∀ row, row ∈ rows ↔
      (∃ pk, contents t !! pk = Some row) ∧
      (∀ p, rls = Some p → row !! tenant_column p = Some (VText (allowed_tenant_id p))) ∧
      (∀ f, predicate = Some f → f row = true).
Proof.
  intros Hwf Ht. destruct (Hwf name t Ht) as [Htw _]. unfold execute_select. rewrite Ht.
  eexists. split; [done|]. intros row. unfold select_rows. rewrite list_elem_of_filter.
  rewrite (iter_rows_contents t row Htw). unfold selected. rewrite andb_true_iff.
  assert (from_option (λ p, allows p row) true rls = true ↔
    ∀ p, rls = Some p → row !! tenant_column p = Some (VText (allowed_tenant_id p))) as ->.
  { destruct rls as [p|]; cbn; [|naive_solver]. unfold allows.
    split.
    - intros Ha q [= <-]. destruct (row !! tenant_column p) as [[| |v| |]|]; try done.
      by apply bool_decide_eq_true in Ha as ->.
    - intros Hp. rewrite (Hp p eq_refl). by apply bool_decide_eq_true. }
  assert (from_option (λ f, f row) true predicate = true ↔
    ∀ f, predicate = Some f → f row = true) as -> by (destruct predicate; cbn; naive_solver).
  tauto.
Qed.

(** ** Foreign keys *)

Lemma check_fks_ok row e cols col :
  check_fks row e cols = Ok tt → col ∈ cols → check_fk row e col = Ok tt.
Proof.
  induction cols as [|c cols IH]; cbn [check_fks]; [by intros _ ?%elem_of_nil|].
  destruct (check_fk row e c) as [[]|] eqn:Hc; [|done]. intros Hr [->|Hin]%elem_of_cons; auto.
Qed.

(** An accepted insert of a non-null value into a foreign-key column of an
    existing target table found a row of that table with this value in the
    referenced column. *)
Lemma insert_checks_foreign_keys tx table row e e' s col target tcol t v :
  engine_wf e → sql_insert tx table row e = (Ok tt, e') →
  tables e !! table = Some s → col ∈ ts_columns s →
  foreign_key_target col = Some (target, cd_name tcol) → row !! cd_name col = Some v → v ≠ VNull →
  storage_tables e !! target = Some t → tcol ∈ ts_columns (schema t) →
  ∃ trow, (∃ pk, contents t !! pk = Some trow) ∧ trow !! cd_name tcol = Some v.
Proof.
  intros Hwf Hins Hs Hcol Hfk Hv Hnn Ht Htc. unfold sql_insert in Hins. rewrite Hs in Hins.
  destruct (primary_key s row) as [pk|]; [|done].
  destruct (check_fks row e (ts_columns s)) as [[]|] eqn:Hc; [|done].
  apply check_fks_ok with (col := col) in Hc; [|done]. unfold check_fk in Hc.
  rewrite Hfk, Hv, Ht in Hc. destruct (is_null v) eqn:Hn; [by destruct v|].
  destruct (target_exists (cd_name tcol) v t) eqn:Hex; [|done].
  destruct (Hwf target t Ht) as [Htw _].
  apply (target_exists_scan t tcol v Htw Htc) in Hex as (_ & trow & Hin & Hval).
  exists trow. split; [|done]. by apply iter_rows_contents.
Qed.

(** ** Transactions *)

(** A client's inserts within one transaction, up to the first error. *)
Fixpoint insert_all (tx : N) (ws : list (string * Row)) (e : RelationalSqlEngine) :
    HNSQRResult unit * RelationalSqlEngine :=
  match ws with
  | [] => (Ok tt, e)
  | (table, row) :: ws =>
      let '(r, e) := sql_insert tx table row e in
      match r with
      | Err err => (Err err, e)
      | Ok _ => insert_all tx ws e
      end
  end.

(** The buffered write an insert stands for. *)
Definition keyed_write (schemas : gmap string TableSchema) (w : string * Row)
    (x : string * string * option Row) : Prop :=
  ∃ s pk, schemas !! w.1 = Some s ∧ primary_key s w.2 = Ok pk ∧ x = (w.1, pk, Some w.2).

Lemma sql_insert_buffers tx table row e e' t0 :
  sql_insert tx table row e = (Ok tt, e') → active_transactions e !! tx = Some t0 →
  tables e' = tables e ∧ storage_tables e' = storage_tables e ∧
  ∃ t1 x, keyed_write (tables e) (table, row) x ∧ active_transactions e' !! tx = Some t1 ∧
    uncommitted_writes t1 = uncommitted_writes t0 ++ [x].
Proof.
  unfold sql_insert. destruct (tables e !! table) as [s|] eqn:Hs; [|done].
  destruct (primary_key s row) as [pk|] eqn:Hp; [|done].
  destruct (check_fks _ _ _); [|done]. intros E Ht. rewrite Ht in E. injection E as <-.
  split_and!; [done|done|]. eexists _, (table, pk, Some row). split_and!; [by exists s, pk| |].
  - cbn. apply lookup_insert_eq.
  - done.
Qed.

Lemma insert_all_buffers tx ws e e' t0 :
  insert_all tx ws e = (Ok tt, e') → active_transactions e !! tx = Some t0 →
  tables e' = tables e ∧ storage_tables e' = storage_tables e ∧
  ∃ t1 xs, Forall2 (keyed_write (tables e)) ws xs ∧ active_transactions e' !! tx = Some t1 ∧
    uncommitted_writes t1 = uncommitted_writes t0 ++ xs.
Proof.
  revert e t0. induction ws as [|[table row] ws IH]; intros e t0; cbn [insert_all].
  { intros [= <-] Ht. split_and!; [done|done|]. exists t0, []. by rewrite app_nil_r. }
  destruct (sql_insert tx table row e) as [[[]|] e1] eqn:E1; [|done]. intros E Ht.
  destruct (sql_insert_buffers _ _ _ _ _ _ E1 Ht) as (Htb & Hst & t1 & x & Hx & Ht1 & Hw).
  destruct (IH e1 t1 E Ht1) as (Htb2 & Hst2 & t2 & xs & Hxs & Ht2 & Hw2).
  split_and!; [congruence|congruence|]. exists t2, (x :: xs). split_and!; [|done|].
  - constructor; [done|]. by rewrite <- Htb.
  - by rewrite Hw2, Hw, <- app_assoc.
Qed.


(** ** Rows that arrive through the replicated log *)

(** Applying a replicated row mutation to a well-formed engine succeeds, bumps
    the version and writes (or deletes) precisely the row at its primary key, for
    every well-typed row. *)
Lemma apply_committed_row_spec table row is_delete e s t pk :
  engine_wf e → tables e !! table = Some s → storage_tables e !! table = Some t →
  primary_key s row = Ok pk → typed_row s row →
  ∃ e', apply_committed_row_mutation table row is_delete e = Some (Ok tt, e') ∧ engine_wf e' ∧
    tables e' = tables e ∧ current_version e' = u64_add (current_version e) 1 ∧
    database e' = db_write (tables e) (database e) (table, pk, if is_delete then None else Some row).
Proof.
  intros Hwf Hs Ht Hpk Hty. destruct (Hwf table t Ht) as [Htw Hsch]. rewrite Hs in Hsch.
  injection Hsch as Hsch. unfold apply_committed_row_mutation. rewrite Hs, Hpk, Ht. cbn [from_option id].
  assert (∃ t', (if is_delete then table_delete pk t
      else insert_or_update pk row (u64_add (current_version e) 1) t) = Some t' ∧
    table_wf t' ∧ schema t' = s ∧
    contents t' = (if is_delete then delete pk else <[pk := project s row]>) (contents t))
    as (t' & Et & Htw' & Hsch' & Hc).
  { destruct is_delete.
    - destruct (table_delete_spec pk t Htw) as (t' & E & Hw & Hc & Hsc & _). exists t'.
      split_and!; [done|done|congruence|done].
    - destruct (insert_or_update_spec pk row (u64_add (current_version e) 1) t Htw) as (t' & E & Hw & Hsc & Hc);
        [by rewrite <- Hsch|]. exists t'. split_and!; [done|done|congruence|]. by rewrite Hc, <- Hsch. }
  rewrite Et. cbn [mbind option_bind]. eexists. split; [reflexivity|]. split_and!; [|done|done|].
  - intros name t2. cbn. intros [[<- <-]|[_ Hl]]%lookup_insert_Some; [|by apply Hwf].
    by rewrite Hs, Hsch'.
  - unfold database, db_write. cbn [storage_tables update]. rewrite Hs.
    destruct is_delete; by apply (fmap_insert_alter contents _ _ _ t).
Qed.
