(* ===== verification/Hypercube.v ===== *)
(** [src/vector/hypercube.rs]: the sparse N-dimensional tensor space.  Voxels
    live in tiles of edge 16; a tile is found by the Morton (Z-order) code of its
    origin, a voxel inside it by the Morton code of its local offset.

    Coordinates are [usize] values as [N]; an [f32] is its 32-bit pattern, which
    the code only copies.  [RoaringBitmap] is a third-party container: a class of
    operations with the set laws it documents.  A partial operation returns
    [None] where the source would panic on an index. *)

From S2P Require Import Prelude.
From stdpp Require Import base gmap sets strings numbers list fin_maps.

Abbreviation CoordinateND := (list N).
Abbreviation f32 := N.

Class Roaring (B : Type) := {
  roaring_new : B;
  roaring_insert : N → B → B;
  roaring_contains : N → B → bool;
  roaring_iter : B → list N
}.
Class RoaringLaws (B : Type) `{!Roaring B} : Prop := {
  contains_new i : roaring_contains i roaring_new = false;
  contains_insert i j b :
    roaring_contains i (roaring_insert j b) = bool_decide (i = j) || roaring_contains i b;
  elem_of_roaring_iter i b : i ∈ roaring_iter b ↔ roaring_contains i b = true;
  roaring_iter_NoDup b : NoDup (roaring_iter b)
}.

(** ** Bounding boxes *)

Record HypercubeBoundingBox := mkBox { min_coords : CoordinateND; max_coords : CoordinateND }.

Definition box_new (mins maxs : CoordinateND) : option HypercubeBoundingBox :=
  if negb (lenN mins =? lenN maxs)%N || (lenN mins =? 0)%N then None
  else if forallb (λ '(mn, mx), (mn <=? mx)%N) (zip mins maxs) then Some (mkBox mins maxs)
  else None.

Definition box_dimensions (b : HypercubeBoundingBox) : nat := length (min_coords b).

Fixpoint contains_from (b : HypercubeBoundingBox) (i : nat) (cs : CoordinateND) : option bool :=
  match cs with
  | [] => Some true
  | c :: cs =>
      mn ← min_coords b !! i;
      if (c <? mn)%N then Some false else
      mx ← max_coords b !! i;
      if (mx <? c)%N then Some false else contains_from b (S i) cs
  end.

Definition contains (b : HypercubeBoundingBox) (coords : CoordinateND) : option bool :=
  if negb (length coords =? length (min_coords b)) then Some false else contains_from b 0 coords.

(** ** Morton codes *)

Record MortonEncoderND := mkEncoder { dimensions : N; bits_per_dim : N }.

Definition encoder_new (dims : N) : MortonEncoderND :=
  mkEncoder dims (if (0 <? dims)%N then N.max (N.min (64 / dims) 21) 1 else 1).

(** Shifts of a [u64]: release builds take the amount modulo 64. *)
Definition shl64 (x k : N) : N := u64_shl x (k `mod` 64).
Definition shr64 (x k : N) : N := N.shiftr x (k `mod` 64).

(** [0..n] *)
Definition range (n : N) : list N := N.of_nat <$> seq 0 (N.to_nat n).

Definition morton_encode (e : MortonEncoderND) (coords : CoordinateND) : N :=
  foldl (λ morton bit,
    foldl (λ morton '(dim_idx, coord),
      let bit_val := N.land (N.shiftr coord bit) 1 in
      N.lor morton (shl64 bit_val (bit * dimensions e + dim_idx)))
    morton (imap (λ i c, (N.of_nat i, c)) (take (N.to_nat (dimensions e)) coords)))
  0%N (range (bits_per_dim e)).

(** [morton_decode] writes the first [dimensions] cells of the buffer [out]. *)
Definition morton_decode (e : MortonEncoderND) (morton : N) (out : CoordinateND) : CoordinateND :=
  foldl (λ out bit,
    imap (λ i v,
      if (N.of_nat i <? dimensions e)%N then
        let bit_pos := (bit * dimensions e + N.of_nat i)%N in
        let bit_val := N.land (shr64 morton bit_pos) 1 in
        N.lor v (N.shiftl bit_val bit)
      else v) out)
  (imap (λ i v, if (N.of_nat i <? dimensions e)%N then 0%N else v) out)
  (range (bits_per_dim e)).

(** ** Tiles *)

Definition TILE_EDGE : N := 16.
Definition TILE_SHIFT : N := 4.
Definition TILE_MASK : N := 15.

Section hypercube.
Context {B : Type} `{!Roaring B} `{!HashOrder}.

Record HyperTile := mkTile {
  tile_origin : CoordinateND;
  dense_buffer : list f32;
  occupancy : B
}.

Definition tile_new (origin : CoordinateND) (capacity : N) : HyperTile :=
  mkTile origin (replicate (N.to_nat capacity) 0%N) roaring_new.

Definition tile_set (local_morton : N) (value : f32) (t : HyperTile) : HyperTile :=
  let idx := N.to_nat local_morton in
  let buffer :=
    if bool_decide (length (dense_buffer t) ≤ idx)
    then dense_buffer t ++ replicate (S idx - length (dense_buffer t)) 0%N
    else dense_buffer t in
  mkTile (tile_origin t) (<[idx := value]> buffer) (roaring_insert local_morton (occupancy t)).

Definition tile_get (local_morton : N) (t : HyperTile) : option f32 :=
  if roaring_contains local_morton (occupancy t)
  then dense_buffer t !! N.to_nat local_morton else None.

(** ** The tensor space *)

Record HypercubeTensorSpace := mkSpace {
  shape : CoordinateND;
  strides : list N;
  encoder : MortonEncoderND;
  tile_capacity : N;
  tiles : gmap N HyperTile
}.

(** The loop from the last dimension to the first. *)
Fixpoint row_major_strides (shape : CoordinateND) : list N :=
  match shape with
  | [] => []
  | _ :: rest =>
      let s := row_major_strides rest in
      match s, rest with
      | next :: _, d :: _ => u64_wrapping_mul next d :: s
      | _, _ => 1%N :: s
      end
  end.

Definition space_new (shape : CoordinateND) : HypercubeTensorSpace :=
  mkSpace shape (row_major_strides shape) (encoder_new (lenN shape))
    (TILE_EDGE ^ N.min (lenN shape) 5) ∅.

Definition space_dimensions (s : HypercubeTensorSpace) : nat := length (shape s).

Definition split_tile_coord (s : HypercubeTensorSpace) (coords : CoordinateND) :
    CoordinateND * N :=
  let origin := (λ c, N.shiftl (N.shiftr c TILE_SHIFT) TILE_SHIFT) <$> coords in
  let local := (λ c, N.land c TILE_MASK) <$> coords in
  (origin, (morton_encode (encoder s) local `mod` u32_modulus)%N).

(** The loop over the coordinates with its early return. *)
Definition in_shape (shape coords : CoordinateND) : bool :=
  forallb (λ '(c, d), (c <? d)%N) (zip coords shape).

Definition set_voxel (coords : CoordinateND) (value : f32) (s : HypercubeTensorSpace) :
    HNSQRResult unit * HypercubeTensorSpace :=
  if negb (length coords =? length (shape s))
  then (Err (InvalidRequest "Dimension mismatch"), s) else
  if negb (in_shape (shape s) coords)
  then (Err (InvalidRequest "Coordinate index out of bounds"), s) else
  let '(origin, local_offset) := split_tile_coord s coords in
  let tile_morton := morton_encode (encoder s) origin in
  let tile := default (tile_new origin (tile_capacity s)) (tiles s !! tile_morton) in
  (Ok tt, mkSpace (shape s) (strides s) (encoder s) (tile_capacity s)
            (<[tile_morton := tile_set local_offset value tile]> (tiles s))).

Definition get_voxel (coords : CoordinateND) (s : HypercubeTensorSpace) : option f32 :=
  if negb (length coords =? length (shape s)) then None else
  if negb (in_shape (shape s) coords) then None else
  let '(origin, local_offset) := split_tile_coord s coords in
  tile ← tiles s !! morton_encode (encoder s) origin;
  tile_get local_offset tile.

(** Does a tile touch the box?  The loop over the dimensions stops at the first
    one in which it does not. *)
Fixpoint overlaps (origin : CoordinateND) (b : HypercubeBoundingBox) (ds : list nat) :
    option bool :=
  match ds with
  | [] => Some true
  | d :: ds =>
      tile_min ← origin !! d;
      mn ← min_coords b !! d;
      if (tile_min + TILE_EDGE - 1 <? mn)%N then Some false else
      mx ← max_coords b !! d;
      if (mx <? tile_min)%N then Some false else overlaps origin b ds
  end.

(** The voxels of one tile; [local_coords] is the buffer shared by all of them. *)
Fixpoint slice_tile (e : MortonEncoderND) (b : HypercubeBoundingBox) (t : HyperTile)
    (dims : nat) (ms : list N) (local_coords : CoordinateND)
    (results : list (CoordinateND * f32)) :
    option (CoordinateND * list (CoordinateND * f32)) :=
  match ms with
  | [] => Some (local_coords, results)
  | m :: ms =>
      match tile_get m t with
      | None => slice_tile e b t dims ms local_coords results
      | Some val =>
          let local_coords := morton_decode e m local_coords in
          global_coords ← mapM (λ d, o ← tile_origin t !! d; l ← local_coords !! d; Some (o + l)%N)
                            (seq 0 dims);
          inside ← contains b global_coords;
          slice_tile e b t dims ms local_coords
            (if (inside : bool) then results ++ [(global_coords, val)] else results)
      end
  end.

Fixpoint slice_tiles (e : MortonEncoderND) (b : HypercubeBoundingBox) (dims : nat)
    (ts : list HyperTile) (local_coords : CoordinateND) (results : list (CoordinateND * f32)) :
    option (list (CoordinateND * f32)) :=
  match ts with
  | [] => Some results
  | t :: ts =>
      touched ← overlaps (tile_origin t) b (seq 0 dims);
      if negb touched then slice_tiles e b dims ts local_coords results else
      '(local_coords, results) ←
        slice_tile e b t dims (roaring_iter (occupancy t)) local_coords results;
      slice_tiles e b dims ts local_coords results
  end.

Definition slice_subvolume (b : HypercubeBoundingBox) (s : HypercubeTensorSpace) :
    option (HNSQRResult (list (CoordinateND * f32))) :=
  if negb (box_dimensions b =? length (shape s))
  then Some (Err (InvalidRequest "Bounding box dimensions do not match tensor dimensions")) else
  results ← slice_tiles (encoder s) b (length (shape s))
              (omap (λ k, tiles s !! k) (iter_order (dom (tiles s))))
              (replicate (length (shape s)) 0%N) [];
  Some (Ok results).

Definition total_volume (s : HypercubeTensorSpace) : N := foldl u64_wrapping_mul 1%N (shape s).

(** ** Snapshots *)

Record HypercubeSnapshot := mkSnapshot {
  snap_shape : CoordinateND;
  snap_strides : list N;
  snap_tiles : gmap N HyperTile
}.

Definition space_snapshot (s : HypercubeTensorSpace) : HypercubeSnapshot :=
  mkSnapshot (shape s) (strides s) (tiles s).

Definition snapshot_get_voxel (coords : CoordinateND) (s : HypercubeSnapshot) : option f32 :=
  if negb (length coords =? length (snap_shape s)) then None else
  if negb (in_shape (snap_shape s) coords) then None else
  let origin := (λ c, c / TILE_EDGE * TILE_EDGE)%N <$> coords in
  let local := (λ c, c `mod` TILE_EDGE)%N <$> coords in
  let e := encoder_new (lenN (snap_shape s)) in
  let local_morton := (morton_encode e local `mod` u32_modulus)%N in
  tile ← snap_tiles s !! morton_encode e origin;
  tile_get local_morton tile.
End hypercube.
Arguments HyperTile : clear implicits.
Arguments HypercubeTensorSpace : clear implicits.
Arguments HypercubeSnapshot : clear implicits.
