(* ===== verification/HypercubeFacts.v ===== *)
(** The tensor space works as a finite map from coordinates to values, as long
    as it has at most eight dimensions and no extent exceeds what a Morton code
    holds per dimension: codes are then injective and decodable, voxels written
    are read back, slices are exact and snapshots agree with the live space. *)

From S2P Require Import Prelude Hypercube.
From stdpp Require Import base gmap sets strings numbers list fin_maps.

(** ** Bits *)

Lemma testbit_bit x i k : N.testbit (N.land (N.shiftr x i) 1) k = (k =? 0)%N && N.testbit x i.
Proof.
  rewrite N.land_spec, N.shiftr_spec'. change 1%N with (2 ^ 0)%N.
  rewrite N.pow2_bits_eqb. destruct (N.eqb_spec 0 k) as [<-|]; [by rewrite andb_true_r|].
  destruct (N.eqb_spec k 0); [lia|]. by rewrite andb_false_r.
Qed.

Lemma testbit_shiftl_bit x i p k :
  N.testbit (N.shiftl (N.land (N.shiftr x i) 1) p) k = (k =? p)%N && N.testbit x i.
Proof.
  destruct (N.lt_ge_cases k p).
  - rewrite N.shiftl_spec_low by done. by destruct (N.eqb_spec k p); [lia|].
  - rewrite N.shiftl_spec_high', testbit_bit by done. f_equal.
    by destruct (N.eqb_spec (k - p) 0), (N.eqb_spec k p); try lia.
Qed.

Lemma testbit_shl64_bit x i p k : (p < 64)%N →
  N.testbit (shl64 (N.land (N.shiftr x i) 1) p) k = (k =? p)%N && N.testbit x i.
Proof.
  intros Hp. unfold shl64, u64_shl, u64_wrap. rewrite (N.mod_small p 64) by done.
  change u64_modulus with (2 ^ 64)%N. rewrite <- testbit_shiftl_bit.
  destruct (N.lt_ge_cases k 64); [by rewrite N.mod_pow2_bits_low|].
  rewrite N.mod_pow2_bits_high, testbit_shiftl_bit by done.
  by destruct (N.eqb_spec k p); [lia|].
Qed.

(** A fold that ors one bit per element. *)
Lemma testbit_foldl {A} (f : N → A → N) (b : A → bool) k a l :
  (∀ acc x, x ∈ l → N.testbit (f acc x) k = N.testbit acc k || b x) →
  N.testbit (foldl f a l) k = N.testbit a k || existsb b l.
Proof.
  revert a. induction l as [|x l IH]; intros a Hf; cbn [foldl existsb]; [by rewrite orb_false_r|].
  rewrite IH by (intros; apply Hf; by right). rewrite Hf by left. by rewrite orb_assoc.
Qed.

Lemma small_bits x n : (x < 2 ^ n)%N ↔ ∀ k, (n ≤ k)%N → N.testbit x k = false.
Proof.
  split.
  - intros Hx k Hk. destruct (decide (x = 0%N)) as [->|Hne]; [done|].
    apply N.bits_above_log2. apply N.log2_lt_pow2 in Hx; lia.
  - intros Hk. assert (x = x `mod` 2 ^ n)%N as ->; [|by apply N.mod_lt, N.pow_nonzero].
    apply N.bits_inj. intros k. destruct (N.lt_ge_cases k n).
    + by rewrite N.mod_pow2_bits_low.
    + by rewrite N.mod_pow2_bits_high, Hk.
Qed.

Lemma elem_of_range x n : x ∈ range n ↔ (x < n)%N.
Proof.
  unfold range. rewrite list_elem_of_fmap. setoid_rewrite elem_of_seq. split; [intros (i & -> & ?); lia|].
  intros. exists (N.to_nat x). lia.
Qed.

(** ** Morton codes *)

Section morton.
Variable dims : N.
Hypothesis Hdims : (0 < dims ≤ 64)%N.
Abbreviation e := (encoder_new dims).
Abbreviation bits := (bits_per_dim (encoder_new dims)).

Lemma bits_fit : (bits * dims ≤ 64)%N.
Proof.
  cbn [bits_per_dim encoder_new]. destruct (N.ltb_spec 0 dims); [|lia].
  pose proof (N.Div0.mul_div_le 64 dims). assert (1 ≤ 64 / dims)%N by (apply N.div_le_lower_bound; lia).
  nia.
Qed.

Lemma code_pos bit i : (bit < bits)%N → (i < dims)%N → (bit * dims + i < 64)%N.
Proof. intros. pose proof bits_fit. nia. Qed.

Lemma testbit_encode coords k : lenN coords = dims →
  N.testbit (morton_encode e coords) k =
    match coords !! N.to_nat (k `mod` dims) with
    | Some c => (k / dims <? bits)%N && N.testbit c (k / dims)
    | None => false
    end.
Proof.
  intros Hlen. unfold morton_encode. cbn [dimensions encoder_new].
  rewrite (take_ge coords) by (unfold lenN in Hlen; lia).
  rewrite (testbit_foldl _ (λ bit, existsb (λ '(i, c), (k =? bit * dims + i)%N && N.testbit c bit)
    (imap (λ i c, (N.of_nat i, c)) coords))).
  2:{ intros acc bit Hbit%elem_of_range.
      apply testbit_foldl. intros a [i c] (j & c' & [= -> <-] & Hj)%elem_of_lookup_imap.
      apply lookup_lt_Some in Hj. rewrite N.lor_spec, testbit_shl64_bit; [done|].
      apply code_pos; [done|]. unfold lenN in Hlen. lia. }
  rewrite N.bits_0. cbn [orb]. pose proof (N.Div0.div_mod k dims) as Hk.
  pose proof (N.mod_lt k dims ltac:(lia)) as Hm.
  destruct (lookup_lt_is_Some_2 coords (N.to_nat (k `mod` dims))) as [c Hc];
    [unfold lenN in Hlen; lia|]. rewrite Hc.
  apply eq_true_iff_eq. rewrite existsb_exists, andb_true_iff, N.ltb_lt. split.
  - intros (bit & Hbit%list_elem_of_In%elem_of_range & Hex). rewrite existsb_exists in Hex.
    destruct Hex as ([i c'] & (j & c'' & [= -> <-] & Hj)%list_elem_of_In%elem_of_lookup_imap & Hb).
    bool_to_N. pose proof (lookup_lt_Some _ _ _ Hj).
    assert (k / dims = bit ∧ k `mod` dims = N.of_nat j)%N as [Hq Hr].
    { unfold lenN in Hlen. split; symmetry; [eapply N.div_unique|eapply N.mod_unique];
        [|rewrite N.mul_comm; eassumption| |rewrite N.mul_comm; eassumption]; lia. }
    rewrite Hr, Nat2N.id in Hc. simplify_eq. by rewrite Hq.
  - intros [Hlt Hb]. exists (k / dims)%N. split; [by apply list_elem_of_In, elem_of_range|].
    apply existsb_exists. exists ((k `mod` dims)%N, c). split.
    + apply list_elem_of_In, elem_of_lookup_imap. exists (N.to_nat (k `mod` dims)), c.
      by rewrite N2Nat.id.
    + rewrite Hb, andb_true_r. apply N.eqb_eq. lia.
Qed.

(** The bit of coordinate [i] at weight [bit] sits at [bit * dims + i]. *)
Lemma testbit_encode_at coords bit i c : lenN coords = dims →
  coords !! N.to_nat i = Some c →
  N.testbit (morton_encode e coords) (bit * dims + i) = (bit <? bits)%N && N.testbit c bit.
Proof.
  intros Hlen Hc. pose proof (lookup_lt_Some _ _ _ Hc) as Hi. unfold lenN in Hlen.
  rewrite testbit_encode by done.
  assert ((bit * dims + i) / dims = bit ∧ (bit * dims + i) `mod` dims = i)%N as [-> ->].
  { split; symmetry; [apply N.div_unique with i|apply N.mod_unique with bit]; lia. }
  by rewrite Hc.
Qed.

Lemma encode_inj coords coords' : lenN coords = dims → lenN coords' = dims →
  Forall (λ c, c < 2 ^ bits)%N coords → Forall (λ c, c < 2 ^ bits)%N coords' →
  morton_encode e coords = morton_encode e coords' → coords = coords'.
Proof.
  intros Hl Hl' Hs Hs' Heq. apply list_eq_same_length with (length coords); [unfold lenN in *; lia|done|].
  intros i c c' Hi Hc Hc'. apply N.bits_inj. intros k.
  pose proof (Forall_lookup_1 _ _ _ _ Hs Hc) as Hb. pose proof (Forall_lookup_1 _ _ _ _ Hs' Hc') as Hb'.
  destruct (N.lt_ge_cases k bits) as [Hk|Hk].
  - rewrite <- (Nat2N.id i) in Hc, Hc'.
    pose proof (testbit_encode_at coords k (N.of_nat i) c Hl Hc) as H1.
    pose proof (testbit_encode_at coords' k (N.of_nat i) c' Hl' Hc') as H2.
    rewrite Heq, H2 in H1. apply N.ltb_lt in Hk. by rewrite Hk in H1.
  - cbn beta in Hb, Hb'. rewrite small_bits in Hb, Hb'. by rewrite Hb, Hb'.
Qed.

(** Coordinates of [j] bits need [j * dims] bits of the code. *)
Lemma encode_bound coords j : lenN coords = dims → Forall (λ c, c < 2 ^ j)%N coords →
  (morton_encode e coords < 2 ^ (j * dims))%N.
Proof.
  intros Hl Hs. apply small_bits. intros k Hk. rewrite testbit_encode by done.
  destruct (coords !! _) as [c|] eqn:Hc; [|done].
  pose proof (Forall_lookup_1 _ _ _ _ Hs Hc) as Hb. cbn beta in Hb. rewrite small_bits in Hb.
  rewrite Hb, andb_false_r; [done|]. apply N.div_le_lower_bound; lia.
Qed.

Lemma lookup_foldl_imap {A} (g : A → nat → N → N) l (out : list N) i :
  foldl (λ out x, imap (g x) out) out l !! i = (λ v, foldl (λ v x, g x i v) v l) <$> out !! i.
Proof.
  revert out. induction l as [|x l IH]; intros out; cbn; [by destruct (out !! i)|].
  rewrite IH, list_lookup_imap. by destruct (out !! i).
Qed.

Lemma length_decode m out : length (morton_decode e m out) = length out.
Proof.
  unfold morton_decode. rewrite <- (length_imap (λ i v, if (N.of_nat i <? dimensions e)%N then 0%N else v) out).
  generalize (imap (λ i v, if (N.of_nat i <? dimensions e)%N then 0%N else v) out). induction (range _) as [|x l IH]; intros out'; [done|].
  cbn [foldl]. by rewrite IH, length_imap.
Qed.

Lemma decode_lookup m out i : lenN out = dims → i < length out →
  ∃ c, morton_decode e m out !! i = Some c ∧
    ∀ k, N.testbit c k = (k <? bits)%N && N.testbit m (k * dims + N.of_nat i).
Proof.
  intros Hl Hi. unfold morton_decode. rewrite lookup_foldl_imap, list_lookup_imap.
  destruct (lookup_lt_is_Some_2 out i Hi) as [v ->]. cbn [fmap option_fmap option_map dimensions encoder_new].
  unfold lenN in Hl. replace (N.of_nat i <? dims)%N with true by (symmetry; apply N.ltb_lt; lia).
  eexists. split; [done|]. intros k.
  rewrite (testbit_foldl _ (λ bit, (k =? bit)%N && N.testbit m (bit * dims + N.of_nat i))).
  2:{ intros acc bit Hbit%elem_of_range. rewrite N.lor_spec. f_equal. unfold shr64.
      rewrite N.mod_small by (apply code_pos; lia). apply testbit_shiftl_bit. }
  rewrite N.bits_0. cbn [orb]. apply eq_true_iff_eq. rewrite existsb_exists, andb_true_iff, N.ltb_lt.
  split.
  - intros (b & Hb%list_elem_of_In%elem_of_range & Ht). bool_to_N. by subst.
  - intros [Hk Ht]. exists k. split; [by apply list_elem_of_In, elem_of_range|]. by rewrite N.eqb_refl.
Qed.

(** Whatever the buffer held before. *)
Lemma decode_encode coords out : lenN coords = dims → lenN out = dims →
  Forall (λ c, c < 2 ^ bits)%N coords → morton_decode e (morton_encode e coords) out = coords.
Proof.
  intros Hl Ho Hs. apply list_eq_same_length with (length coords);
    [done|rewrite length_decode; unfold lenN in *; lia|].
  intros i c c' Hi Hc Hc'. destruct (decode_lookup (morton_encode e coords) out i) as (c'' & Hd & Hb);
    [done|unfold lenN in *; lia|]. pose proof (eq_trans (eq_sym Hc) Hd) as [= <-].
  apply N.bits_inj. intros k. rewrite Hb. rewrite <- (Nat2N.id i) in Hc'.
  rewrite (testbit_encode_at coords k (N.of_nat i) c') by done.
  rewrite Nat2N.id in Hc'. pose proof (Forall_lookup_1 _ _ _ _ Hs Hc') as Hsm. cbn beta in Hsm.
  rewrite small_bits in Hsm. destruct (N.ltb_spec k bits); [done|]. by rewrite Hsm.
Qed.
End morton.

(** For one to 64 dimensions and coordinates below 2^bits_per_dim, the
    Morton code fits in 64 bits and decoding it gives the coordinates back
    whatever the output buffer held. *)
Lemma morton_round_trip coords out :
  (0 < lenN coords ≤ 64)%N → lenN out = lenN coords →
  Forall (λ c, c < 2 ^ bits_per_dim (encoder_new (lenN coords)))%N coords →
  let e := encoder_new (lenN coords) in
  (morton_encode e coords < u64_modulus)%N ∧
  morton_decode e (morton_encode e coords) out = coords.
Proof.
  intros Hd Ho Hs. cbv zeta. split; [|by apply decode_encode].
  eapply N.lt_le_trans; [by apply encode_bound|]. change u64_modulus with (2 ^ 64)%N.
  apply N.pow_le_mono_r; [done|]. by apply bits_fit.
Qed.

(** ** Tiles *)

Lemma cell_origin c : N.shiftl (N.shiftr c TILE_SHIFT) TILE_SHIFT = (c / TILE_EDGE * TILE_EDGE)%N.
Proof. by rewrite N.shiftr_div_pow2, N.shiftl_mul_pow2. Qed.

Lemma cell_local c : N.land c TILE_MASK = (c `mod` TILE_EDGE)%N.
Proof. apply (N.land_ones c 4). Qed.

Section space.
Context {B : Type} `{roaring : !Roaring B} `{laws : !RoaringLaws B} `{order : !HashOrder}.
Implicit Types (t : HyperTile B) (s : HypercubeTensorSpace B) (c : CoordinateND).

(** Every occupied cell of a tile has its slot in the buffer. *)
Definition tile_ok t : Prop :=
  ∀ m, roaring_contains m (occupancy t) = true → N.to_nat m < length (dense_buffer t).

Lemma tile_new_get m o cap : tile_get m (tile_new (B := B) o cap) = None.
Proof. unfold tile_get. cbn. by rewrite contains_new. Qed.

Lemma tile_set_ok m v t : tile_ok t → tile_ok (tile_set m v t).
Proof.
  intros Ht m'. cbn [tile_set occupancy dense_buffer]. rewrite contains_insert, length_insert, orb_true_iff.
  intros [->%bool_decide_eq_true|Hm%Ht]; case_bool_decide;
    rewrite ?length_app, ?length_replicate; lia.
Qed.

Lemma tile_set_get m m' v t : tile_ok t →
  tile_get m' (tile_set m v t) = if decide (m' = m) then Some v else tile_get m' t.
Proof.
  intros Ht. unfold tile_get. cbn [tile_set occupancy dense_buffer]. rewrite contains_insert.
  case_decide as Hm; [subst m'|]; [rewrite bool_decide_true by done|rewrite bool_decide_false by done];
    cbn [orb].
  - apply list_lookup_insert_eq. case_bool_decide; rewrite ?length_app, ?length_replicate; lia.
  - destruct (roaring_contains m' _) eqn:Hc; [|done]. specialize (Ht m' Hc).
    rewrite list_lookup_insert_ne by (intros ?%N2Nat.inj; done).
    case_bool_decide; [by rewrite lookup_app_l|done].
Qed.

(** ** The space *)

Definition in_space s c : Prop := length c = length (shape s) ∧ in_shape (shape s) c = true.
Definition tile_key s c : N := morton_encode (encoder s) (split_tile_coord s c).1.

Record tile_wf s (k : N) t : Prop := {
  tw_ok : tile_ok t;
  tw_key : ∃ c, in_space s c ∧ (split_tile_coord s c).1 = tile_origin t ∧ tile_key s c = k;
  tw_cells m : roaring_contains m (occupancy t) = true →
    ∃ c, in_space s c ∧ split_tile_coord s c = (tile_origin t, m)
}.

Record space_wf s : Prop := {
  sw_dims : (0 < lenN (shape s) ≤ 8)%N;
  sw_encoder : encoder s = encoder_new (lenN (shape s));
  sw_extent : Forall (λ d, d ≤ 2 ^ bits_per_dim (encoder_new (lenN (shape s))))%N (shape s);
  sw_tiles k t : tiles s !! k = Some t → tile_wf s k t
}.

(** Tiles depend on the shape and the encoder only. *)
Lemma tile_wf_frame s s' k t :
  shape s' = shape s → encoder s' = encoder s → tile_wf s k t → tile_wf s' k t.
Proof.
  destruct s as [sh st en cap ts], s' as [sh' st' en' cap' ts']. cbn. intros -> -> [H1 H2 H3].
  by split.
Qed.

Lemma space_new_wf sh :
  (0 < lenN sh ≤ 8)%N → Forall (λ d, d ≤ 2 ^ bits_per_dim (encoder_new (lenN sh)))%N sh →
  space_wf (space_new sh).
Proof. by split. Qed.

Lemma in_space_lookup s c i x d :
  in_space s c → c !! i = Some x → shape s !! i = Some d → (x < d)%N.
Proof.
  intros [Hl Hin] Hx Hd. unfold in_shape in Hin. rewrite forallb_forall in Hin.
  specialize (Hin (x, d)). cbn in Hin. apply N.ltb_lt, Hin, list_elem_of_In, list_elem_of_lookup.
  exists i. apply lookup_zip_Some. done.
Qed.

Lemma in_space_small s c : space_wf s → in_space s c →
  Forall (λ x, x < 2 ^ bits_per_dim (encoder_new (lenN (shape s))))%N c.
Proof.
  intros Hwf Hc. apply Forall_lookup. intros i x Hx.
  destruct (lookup_lt_is_Some_2 (shape s) i) as [d Hd].
  { destruct Hc as [<- _]. by eapply lookup_lt_Some. }
  pose proof (in_space_lookup s c i x d Hc Hx Hd).
  pose proof (Forall_lookup_1 _ _ _ _ (sw_extent s Hwf) Hd) as Hle. cbn beta in Hle. lia.
Qed.

Lemma enough_bits s : space_wf s → (4 ≤ bits_per_dim (encoder_new (lenN (shape s))))%N.
Proof.
  intros [Hd _ _ _]. cbn [bits_per_dim encoder_new]. destruct (N.ltb_spec 0 (lenN (shape s))); [|lia].
  assert (4 ≤ 64 / lenN (shape s))%N by (apply N.div_le_lower_bound; lia). lia.
Qed.

Lemma split_origin s c : (split_tile_coord s c).1 = (λ x, x / TILE_EDGE * TILE_EDGE)%N <$> c.
Proof. cbn. apply list_fmap_ext. intros i x _. apply cell_origin. Qed.

Lemma split_local s c :
  (split_tile_coord s c).2 =
    (morton_encode (encoder s) ((λ x, x `mod` TILE_EDGE)%N <$> c) `mod` u32_modulus)%N.
Proof. cbn. do 2 f_equal. apply list_fmap_ext. intros i x _. apply cell_local. Qed.

Lemma local_small s c : space_wf s →
  Forall (λ x, x < 2 ^ bits_per_dim (encoder_new (lenN (shape s))))%N
    ((λ x, x `mod` TILE_EDGE)%N <$> c).
Proof.
  intros Hwf. apply Forall_fmap, Forall_true. intros x. cbn.
  eapply N.lt_le_trans; [by apply N.mod_lt|]. change TILE_EDGE with (2 ^ 4)%N.
  apply N.pow_le_mono_r; [done|]. by apply enough_bits.
Qed.

(** The local code of a voxel fits in the [u32]. *)
Lemma local_code s c : space_wf s → in_space s c →
  (split_tile_coord s c).2 = morton_encode (encoder s) ((λ x, x `mod` TILE_EDGE)%N <$> c).
Proof.
  intros Hwf [Hl _]. rewrite split_local. apply N.mod_small.
  pose proof (sw_dims s Hwf) as Hd. rewrite (sw_encoder s Hwf).
  eapply N.lt_le_trans; [apply (encode_bound (lenN (shape s)) ltac:(lia) _ 4)|].
  - unfold lenN. by rewrite length_fmap, Hl.
  - apply Forall_fmap, Forall_true. intros x. by apply N.mod_lt.
  - change u32_modulus with (2 ^ 32)%N. apply N.pow_le_mono_r; [done|lia].
Qed.

Lemma lenN_mapped s c (f : N → N) : in_space s c → lenN (f <$> c) = lenN (shape s).
Proof. intros [Hl _]. unfold lenN. by rewrite length_fmap, Hl. Qed.

Lemma tile_key_inj s c c' : space_wf s → in_space s c → in_space s c' →
  tile_key s c = tile_key s c' → (split_tile_coord s c).1 = (split_tile_coord s c').1.
Proof.
  intros Hwf Hc Hc' Hk. pose proof (sw_dims s Hwf). unfold tile_key in Hk.
  rewrite !split_origin, (sw_encoder s Hwf) in *.
  assert (∀ c, in_space s c → Forall (λ x, x < 2 ^ bits_per_dim (encoder_new (lenN (shape s))))%N
    ((λ x, x / TILE_EDGE * TILE_EDGE)%N <$> c)) as Hsmall.
  { intros c0 Hc0. apply Forall_fmap. eapply Forall_impl; [by apply in_space_small|]. cbn. intros x Hx.
    pose proof (N.Div0.mul_div_le x TILE_EDGE). lia. }
  apply (encode_inj (lenN (shape s)) ltac:(lia)); [by apply lenN_mapped..|by apply Hsmall|by apply Hsmall|exact Hk].
Qed.

Lemma split_inj s c c' : space_wf s → in_space s c → in_space s c' →
  split_tile_coord s c = split_tile_coord s c' → c = c'.
Proof.
  intros Hwf Hc Hc' Heq. pose proof (sw_dims s Hwf). pose proof (f_equal fst Heq) as Ho.
  pose proof (f_equal snd Heq) as Hm. rewrite !split_origin in Ho.
  rewrite !local_code, (sw_encoder s Hwf) in Hm by done.
  apply (encode_inj (lenN (shape s)) ltac:(lia)) in Hm;
    [|by apply lenN_mapped..|by apply local_small|by apply local_small].
  apply list_eq_same_length with (length c'); [done|by rewrite (proj1 Hc), (proj1 Hc')|].
  intros i x y _ Hx Hy. apply (f_equal (.!! i)) in Ho, Hm.
  rewrite !list_lookup_fmap, Hx, Hy in Ho, Hm. cbn in Ho, Hm. injection Ho as Ho. injection Hm as Hm.
  pose proof (N.Div0.div_mod x TILE_EDGE). pose proof (N.Div0.div_mod y TILE_EDGE). lia.
Qed.

(** A voxel is put together again from its tile and its local code. *)
Lemma join_split s c out : space_wf s → in_space s c → lenN out = lenN (shape s) →
  zip_with N.add (split_tile_coord s c).1 (morton_decode (encoder s) (split_tile_coord s c).2 out) = c.
Proof.
  intros Hwf Hc Ho. pose proof (sw_dims s Hwf).
  rewrite local_code, split_origin, (sw_encoder s Hwf) by done.
  rewrite decode_encode; [|lia|by apply lenN_mapped|done|by apply local_small].
  rewrite zip_with_fmap_l, zip_with_fmap_r. clear. induction c as [|x c IH]; [done|]. cbn.
  f_equal; [|done]. pose proof (N.Div0.div_mod x TILE_EDGE). lia.
Qed.

Lemma in_space_test s c :
  (length c =? length (shape s)) && in_shape (shape s) c = true ↔ in_space s c.
Proof. unfold in_space. by rewrite andb_true_iff, Nat.eqb_eq. Qed.

#[export] Instance in_space_dec s c : Decision (in_space s c).
Proof. apply _. Defined.

Lemma get_voxel_in s c : in_space s c →
  get_voxel c s = tiles s !! tile_key s c ≫= tile_get (split_tile_coord s c).2.
Proof. unfold get_voxel. by intros [-> ->]%in_space_test%andb_true_iff. Qed.

Lemma get_voxel_out s c : ¬ in_space s c → get_voxel c s = None.
Proof.
  intros Hc. unfold get_voxel. destruct (length c =? length (shape s)) eqn:Hl; [|done]. cbn [negb].
  destruct (in_shape (shape s) c) eqn:Hi; [|done]. destruct Hc. apply in_space_test. by rewrite Hl, Hi.
Qed.

Lemma set_tile_wf s c v : space_wf s → in_space s c →
  tile_wf s (tile_key s c) (tile_set (split_tile_coord s c).2 v
    (default (tile_new (split_tile_coord s c).1 (tile_capacity s)) (tiles s !! tile_key s c))).
Proof.
  intros Hwf Hc. destruct (tiles s !! tile_key s c) as [t|] eqn:Ht; cbn [default from_option id].
  - destruct (sw_tiles s Hwf _ _ Ht) as [Hok (c' & Hc' & Ho & Hk) Hcells].
    assert ((split_tile_coord s c).1 = tile_origin t) as Hoc.
    { rewrite <- Ho. by apply tile_key_inj. }
    split; [by apply tile_set_ok|by exists c|].
    intros m. cbn [tile_set occupancy tile_origin]. rewrite contains_insert, orb_true_iff.
    intros [->%bool_decide_eq_true|Hm]; [|by apply Hcells].
    exists c. split; [done|]. rewrite <- Hoc. by destruct (split_tile_coord s c).
  - split.
    + apply tile_set_ok. intros m. cbn. by rewrite contains_new.
    + by exists c.
    + intros m. cbn [tile_set tile_new occupancy tile_origin].
      rewrite contains_insert, contains_new, orb_false_r. intros ->%bool_decide_eq_true.
      exists c. split; [done|]. by destruct (split_tile_coord s c).
Qed.

Lemma set_tile_get s c c' v : space_wf s → in_space s c → in_space s c' →
  tile_key s c' = tile_key s c →
  tile_get (split_tile_coord s c').2 (tile_set (split_tile_coord s c).2 v
    (default (tile_new (split_tile_coord s c).1 (tile_capacity s)) (tiles s !! tile_key s c))) =
  if decide (c' = c) then Some v
  else tiles s !! tile_key s c ≫= tile_get (split_tile_coord s c').2.
Proof.
  intros Hwf Hc Hc' Hk. rewrite tile_set_get.
  2:{ destruct (tiles s !! tile_key s c) as [t|] eqn:Ht; [by apply (sw_tiles s Hwf _ _ Ht)|].
      intros m. cbn. by rewrite contains_new. }
  assert ((split_tile_coord s c').2 = (split_tile_coord s c).2 → c' = c) as Hinj.
  { intros Hm. apply (split_inj s); [done..|]. apply tile_key_inj in Hk; [|done..].
    destruct (split_tile_coord s c), (split_tile_coord s c'). cbn in *. by subst. }
  case_decide as Hm; case_decide as He; [done|by destruct He; auto|by subst|].
  destruct (tiles s !! tile_key s c); [done|]. apply tile_new_get.
Qed.

Lemma set_voxel_spec c v s r s' :
  space_wf s → set_voxel c v s = (r, s') →
  space_wf s' ∧
  if is_ok r then in_space s c ∧
    ∀ c', get_voxel c' s' = if decide (c' = c) then Some v else get_voxel c' s
  else s' = s ∧ ~ in_space s c.
Proof.
  intros Hwf. unfold set_voxel. destruct (decide (in_space s c)) as [Hc|Hc].
  - pose proof Hc as Hc0. apply in_space_test, andb_true_iff in Hc0 as [-> ->]. cbn [negb].
    pose proof (set_tile_wf s c v Hwf Hc) as Ht. pose proof (set_tile_get s c) as Hget.
    destruct (split_tile_coord s c) as [o l] eqn:Hs.
    assert (tile_key s c = morton_encode (encoder s) o) as Hkey by (unfold tile_key; by rewrite Hs).
    cbn [fst snd] in *. rewrite Hkey in *. intros [= <- <-]. split.
    { destruct Hwf as [H1 H2 H3 H4]. split; [done..|]. cbn [tiles]. intros k t.
      rewrite lookup_insert. case_decide as Hk; [intros [= <-]; subst k|intros Hx%H4]; by apply (tile_wf_frame s). }
    split; [done|]. intros c'. destruct (decide (in_space s c')) as [Hc'|Hc'].
    2:{ rewrite !get_voxel_out by done. case_decide; [by subst c'|done]. }
    rewrite !get_voxel_in by done. cbn [tiles].
    change (tile_key (mkSpace _ _ _ _ _) c') with (tile_key s c').
    change (split_tile_coord (mkSpace _ _ _ _ _) c') with (split_tile_coord s c').
    rewrite lookup_insert. case_decide as Hk; cbn [mbind option_bind].
    + rewrite Hget by done. by rewrite Hk.
    + case_decide; [|done]. subst c'. by rewrite Hkey in Hk.
  - destruct (length c =? length (shape s)) eqn:Hl; cbn [negb]; [|by intros [= <- <-]].
    destruct (in_shape (shape s) c) eqn:Hi; cbn [negb]; [|by intros [= <- <-]].
    destruct Hc. apply in_space_test. by rewrite Hl, Hi.
Qed.

Lemma set_voxel_frame c v s : shape (set_voxel c v s).2 = shape s.
Proof. unfold set_voxel. do 2 (case_match; [done|]). by destruct (split_tile_coord s c). Qed.

(** A client's writes, each of which may be refused. *)
Definition write_all_voxels (ws : list (CoordinateND * f32)) s : HypercubeTensorSpace B :=
  foldl (λ s w, (set_voxel w.1 w.2 s).2) s ws.

(** What they do to the map of voxels. *)
Definition map_writes (sh : CoordinateND) (ws : list (CoordinateND * f32))
    (m : gmap CoordinateND f32) : gmap CoordinateND f32 :=
  foldl (λ m w, if (length w.1 =? length sh) && in_shape sh w.1 then <[w.1 := w.2]> m else m) m ws.

Lemma writes_refine ws s m : space_wf s → (∀ c, get_voxel c s = m !! c) →
  space_wf (write_all_voxels ws s) ∧
  ∀ c, get_voxel c (write_all_voxels ws s) = map_writes (shape s) ws m !! c.
Proof.
  revert s m. induction ws as [|[c v] ws IH]; intros s m Hwf Hm; [done|].
  change (write_all_voxels ((c, v) :: ws) s) with (write_all_voxels ws (set_voxel c v s).2).
  change (map_writes (shape s) ((c, v) :: ws) m) with (map_writes (shape s) ws
    (if (length c =? length (shape s)) && in_shape (shape s) c then <[c := v]> m else m)).
  pose proof (set_voxel_frame c v s) as Hsh. destruct (set_voxel c v s) as [r s'] eqn:Hset.
  destruct (set_voxel_spec c v s r s' Hwf Hset) as [Hwf' Hr]. cbn [snd] in *.
  assert (∀ c', get_voxel c' s' =
    (if (length c =? length (shape s)) && in_shape (shape s) c then <[c := v]> m else m) !! c') as Hm'.
  2:{ destruct (IH s' _ Hwf' Hm') as [Hw Hg]. by rewrite Hsh in Hg. }
  intros c'.
  destruct (is_ok r).
  - destruct Hr as [Hin%in_space_test Hr]. rewrite Hin, Hr, lookup_insert.
    case_decide; case_decide; naive_solver.
  - destruct Hr as [-> Hout]. destruct (_ && _) eqn:Ht; [|done]. by apply in_space_test in Ht.
Qed.

(** C17: A tensor space of one to eight dimensions whose extents fit the Morton
    code refines a finite map from coordinates to values: after any sequence of
    writes, refused ones included, get_voxel reads what a map reads in which the
    writes inside the shape were inserted in order. *)
Theorem voxels_refine_map sh ws c :
  (0 < lenN sh ≤ 8)%N → Forall (λ d, d ≤ 2 ^ bits_per_dim (encoder_new (lenN sh)))%N sh →
  get_voxel c (write_all_voxels ws (space_new sh)) = map_writes sh ws ∅ !! c.
Proof.
  intros Hd He. apply (writes_refine ws (space_new sh) ∅); [by apply space_new_wf|].
  intros c'. rewrite lookup_empty. unfold get_voxel. by repeat case_match.
Qed.

(** A snapshot, which recomputes tile and offset by division and remainder,
    reads every coordinate exactly as the live space does with its shifts and
    masks. *)
Lemma snapshot_reads c s : space_wf s →
  snapshot_get_voxel c (space_snapshot s) = get_voxel c s.
Proof.
  intros Hwf. unfold snapshot_get_voxel, get_voxel. cbn [space_snapshot snap_shape snap_tiles].
  rewrite <- (sw_encoder s Hwf), <- split_origin with (s := s), <- split_local.
  by destruct (split_tile_coord s c).
Qed.

(** ** Slices *)

Definition box_ok (b : HypercubeBoundingBox) (dims : nat) : Prop :=
  length (min_coords b) = dims ∧ length (max_coords b) = dims.

(** [x] lies between the bounds of dimension [i]. *)
Definition within (b : HypercubeBoundingBox) (i : nat) (lo hi : N) : Prop :=
  ∀ mn mx, min_coords b !! i = Some mn → max_coords b !! i = Some mx → (mn ≤ hi ∧ lo ≤ mx)%N.

Lemma box_bounds b dims i : box_ok b dims → i < dims →
  ∃ mn mx, min_coords b !! i = Some mn ∧ max_coords b !! i = Some mx ∧
    ∀ lo hi, within b i lo hi ↔ (mn ≤ hi ∧ lo ≤ mx)%N.
Proof.
  intros [Hmn Hmx] Hi. destruct (lookup_lt_is_Some_2 (min_coords b) i) as [mn Emn]; [lia|].
  destruct (lookup_lt_is_Some_2 (max_coords b) i) as [mx Emx]; [lia|].
  exists mn, mx. split_and!; [done..|]. intros lo hi. split; [intros H; by apply H|].
  intros ? ????. by simplify_eq.
Qed.

Lemma contains_from_spec b dims cs i : box_ok b dims → i + length cs ≤ dims →
  ∃ r, contains_from b i cs = Some r ∧
    (r = true ↔ ∀ j x, cs !! j = Some x → within b (i + j) x x).
Proof.
  intros Hb. revert i. induction cs as [|c cs IH]; intros i Hi; cbn [contains_from length] in *.
  { exists true. split; [done|]. split; [intros _ j x; by rewrite lookup_nil|done]. }
  destruct (box_bounds b dims i Hb) as (mn & mx & Emn & Emx & Hw); [lia|].
  rewrite Emn. cbn [mbind option_bind].
  destruct (IH (S i)) as (r & Hr & Hiff); [lia|].
  destruct (N.ltb_spec c mn) as [Hlo|Hlo].
  { exists false. split; [done|]. split; [done|]. intros H. specialize (H 0 c eq_refl).
    rewrite Nat.add_0_r, Hw in H. lia. }
  rewrite Emx. cbn [mbind option_bind]. destruct (N.ltb_spec mx c) as [Hhi|Hhi].
  { exists false. split; [done|]. split; [done|]. intros H. specialize (H 0 c eq_refl).
    rewrite Nat.add_0_r, Hw in H. lia. }
  exists r. split; [done|]. rewrite Hiff. split.
  - intros H [|j] x; cbn; [intros [= <-]; rewrite Nat.add_0_r; by apply Hw|].
    rewrite <- Nat.add_succ_comm. apply H.
  - intros H j x Hx. rewrite Nat.add_succ_comm. by apply (H (S j)).
Qed.

Lemma contains_spec b dims c : box_ok b dims → length c = dims →
  ∃ r, contains b c = Some r ∧ (r = true ↔ ∀ j x, c !! j = Some x → within b j x x).
Proof.
  intros Hb Hl. unfold contains. rewrite Hl, (proj1 Hb), Nat.eqb_refl. cbn [negb].
  apply (contains_from_spec b dims c 0 Hb). lia.
Qed.

Lemma overlaps_spec b dims o ds : box_ok b dims → length o = dims → Forall (λ d, d < dims) ds →
  ∃ r, overlaps o b ds = Some r ∧
    (r = true ↔ ∀ d x, d ∈ ds → o !! d = Some x → within b d x (x + TILE_EDGE - 1)).
Proof.
  intros Hb Hl Hds. induction Hds as [|d ds Hd Hds (r & Hr & Hiff)]; cbn [overlaps].
  { exists true. split; [done|]. split; [by intros _ d x ?%not_elem_of_nil|done]. }
  destruct (lookup_lt_is_Some_2 o d) as [x Ex]; [lia|].
  destruct (box_bounds b dims d Hb) as (mn & mx & Emn & Emx & Hw); [lia|].
  rewrite Ex, Emn. cbn [mbind option_bind].
  destruct (N.ltb_spec (x + TILE_EDGE - 1) mn) as [Hlo|Hlo].
  { exists false. split; [done|]. split; [done|]. intros H.
    specialize (H d x (list_elem_of_here _ _) Ex). rewrite Hw in H. lia. }
  rewrite Emx. cbn [mbind option_bind]. destruct (N.ltb_spec mx x) as [Hhi|Hhi].
  { exists false. split; [done|]. split; [done|]. intros H.
    specialize (H d x (list_elem_of_here _ _) Ex). rewrite Hw in H. lia. }
  exists r. split; [done|]. rewrite Hiff. split.
  - intros H d' x' [->|Hd']%elem_of_cons Hx'; [simplify_eq; by apply Hw|by apply H].
  - intros H d' x' Hd' Hx'. apply H; [by right|done].
Qed.

(** The tile of a voxel inside the box touches the box. *)
Lemma inside_overlaps s b c : box_ok b (length (shape s)) → in_space s c →
  contains b c = Some true →
  overlaps (split_tile_coord s c).1 b (seq 0 (length (shape s))) = Some true.
Proof.
  intros Hb Hc Hin. destruct (contains_spec b _ c Hb (proj1 Hc)) as (r & Hr & Hiff).
  rewrite Hin in Hr. injection Hr as <-. pose proof (proj1 Hiff eq_refl) as Hx.
  destruct (overlaps_spec b (length (shape s)) (split_tile_coord s c).1 (seq 0 (length (shape s))))
    as (r & -> & Hr); [done| | |f_equal; apply Hr].
  - rewrite split_origin, length_fmap. apply Hc.
  - apply Forall_forall. intros d Hd%elem_of_seq. lia.
  - rewrite split_origin. intros d o _ Ho. rewrite list_lookup_fmap in Ho.
    destruct (c !! d) as [x|] eqn:Ex; [|done]. injection Ho as <-. specialize (Hx d x Ex).
    intros mn mx Emn Emx. specialize (Hx mn mx Emn Emx).
    pose proof (N.Div0.div_mod x TILE_EDGE). pose proof (N.mod_lt x TILE_EDGE ltac:(done)).
    cbn beta. unfold TILE_EDGE in *. generalize dependent (x `div` 16)%N. generalize dependent (x `mod` 16)%N. intros; lia.
Qed.

(** The voxel of a tile at local code [m], if it is in the box. *)
Definition slice_cell s (b : HypercubeBoundingBox) t (m : N) : option (CoordinateND * f32) :=
  v ← tile_get m t;
  let c := zip_with N.add (tile_origin t) (morton_decode (encoder s) m (replicate (length (shape s)) 0%N)) in
  if decide (contains b c = Some true) then Some (c, v) else None.

(** In a well-formed tile it is the coordinate that was written. *)
Lemma slice_cell_spec s b k t m c v : space_wf s → tiles s !! k = Some t →
  slice_cell s b t m = Some (c, v) ↔
    in_space s c ∧ split_tile_coord s c = (tile_origin t, m) ∧ get_voxel c s = Some v ∧
    contains b c = Some true.
Proof.
  intros Hwf Ht. pose proof (sw_tiles s Hwf k t Ht) as [Hok (c0 & Hc0 & Ho0 & Hk0) Hcells].
  assert (∀ c, in_space s c → split_tile_coord s c = (tile_origin t, m) →
    get_voxel c s = tile_get m t ∧ zip_with N.add (tile_origin t)
      (morton_decode (encoder s) m (replicate (length (shape s)) 0%N)) = c) as Hjoin.
  { intros c' Hc' Hs. assert (tile_key s c' = k) as Hk.
    { rewrite <- Hk0. unfold tile_key. by rewrite Hs, Ho0. }
    rewrite get_voxel_in, Hk, Ht, Hs by done. split; [done|].
    pose proof (join_split s c' (replicate (length (shape s)) 0%N) Hwf Hc') as Hj.
    rewrite Hs in Hj. apply Hj. unfold lenN. by rewrite length_replicate. }
  unfold slice_cell. rewrite bind_Some. split.
  - intros (v' & Hv & Hx). cbv zeta in Hx. assert (roaring_contains m (occupancy t) = true) as Hm.
    { unfold tile_get in Hv. by destruct (roaring_contains m _). }
    destruct (Hcells m Hm) as (c' & Hc' & Hs). destruct (Hjoin c' Hc' Hs) as [Hg Hz].
    rewrite Hz in Hx. case_decide; [|done]. injection Hx as <- <-. by rewrite Hg.
  - intros (Hc & Hs & Hg & Hb). destruct (Hjoin c Hc Hs) as [Hg' Hz]. exists v.
    rewrite <- Hg'. split; [done|]. cbv zeta. rewrite Hz. by rewrite decide_True.
Qed.

Lemma zip_add_mapM (o l : list N) dims : length o = dims → length l = dims →
  mapM (λ d, x ← o !! d; y ← l !! d; Some (x + y)%N) (seq 0 dims) = Some (zip_with N.add o l).
Proof.
  intros Ho Hl. apply mapM_Some, Forall2_same_length_lookup. split.
  { rewrite length_seq, length_zip_with. lia. }
  intros i d z [-> Hi]%lookup_seq Hz. rewrite lookup_zip_with in Hz. cbn in Hz |- *.
  destruct (o !! i), (l !! i); done.
Qed.

(** Decoding overwrites the whole buffer. *)
Lemma decode_buffer s m out out' : space_wf s → lenN out = lenN (shape s) → lenN out' = lenN (shape s) →
  morton_decode (encoder s) m out = morton_decode (encoder s) m out'.
Proof.
  intros Hwf Ho Ho'. pose proof (sw_dims s Hwf). rewrite (sw_encoder s Hwf).
  assert (length out = length out') as Hl by (unfold lenN in *; lia).
  apply list_eq_same_length with (length out); [by rewrite length_decode|by rewrite length_decode|].
  intros i x y Hi Hx Hy.
  destruct (decode_lookup (lenN (shape s)) ltac:(lia) m out i) as (x' & Ex & Hbx); [done|lia|].
  destruct (decode_lookup (lenN (shape s)) ltac:(lia) m out' i) as (y' & Ey & Hby); [done|lia|].
  rewrite Ex in Hx. rewrite Ey in Hy. simplify_eq. apply N.bits_inj. intros k. by rewrite Hbx, Hby.
Qed.

Lemma slice_tile_spec s b k t ms buf res : space_wf s → tiles s !! k = Some t →
  box_ok b (length (shape s)) → length buf = length (shape s) →
  ∃ buf', length buf' = length (shape s) ∧
    slice_tile (encoder s) b t (length (shape s)) ms buf res =
      Some (buf', res ++ omap (slice_cell s b t) ms).
Proof.
  intros Hwf Ht Hb. pose proof (sw_tiles s Hwf k t Ht) as [Hok (c0 & Hc0 & Ho0 & _) _].
  assert (length (tile_origin t) = length (shape s)) as Hol.
  { rewrite <- Ho0, split_origin, length_fmap. apply Hc0. }
  revert buf res. induction ms as [|m ms IH]; intros buf res Hl; cbn [slice_tile omap list_omap].
  { exists buf. by rewrite app_nil_r. }
  unfold slice_cell at 1. destruct (tile_get m t) as [v|]; cbn [mbind option_bind]; [|by apply IH].
  cbv zeta. rewrite (decode_buffer s m buf (replicate (length (shape s)) 0%N));
    [|done|unfold lenN; by rewrite ?Hl, ?length_replicate..].
  set (l := morton_decode (encoder s) m (replicate (length (shape s)) 0%N)).
  assert (length l = length (shape s)) as Hll.
  { unfold l. by rewrite (sw_encoder s Hwf), length_decode, length_replicate. }
  rewrite zip_add_mapM by done. cbn [mbind option_bind].
  destruct (contains_spec b (length (shape s)) (zip_with N.add (tile_origin t) l)) as (r & -> & _);
    [done|rewrite length_zip_with; lia|]. cbn [mbind option_bind].
  destruct (IH l (if r then res ++ [(zip_with N.add (tile_origin t) l, v)] else res) Hll) as (buf' & Hbuf & ->).
  exists buf'. split; [done|]. destruct r; cbn.
  - rewrite decide_True by done. cbn. by rewrite <- app_assoc.
  - by rewrite decide_False by done.
Qed.

Definition slice_key s (b : HypercubeBoundingBox) (k : N) : list (CoordinateND * f32) :=
  match tiles s !! k with
  | Some t => omap (slice_cell s b t) (roaring_iter (occupancy t))
  | None => []
  end.

(** Skipping a tile that does not touch the box loses nothing. *)
Lemma untouched_empty s b k t : space_wf s → tiles s !! k = Some t → box_ok b (length (shape s)) →
  overlaps (tile_origin t) b (seq 0 (length (shape s))) = Some false → slice_key s b k = [].
Proof.
  intros Hwf Ht Hb Hno. unfold slice_key. rewrite Ht. apply elem_of_nil_inv.
  intros [c v] (m & _ & Hm)%list_elem_of_omap.
  apply (slice_cell_spec s b k t) in Hm as (Hc & Hs & _ & Hin); [|done..].
  pose proof (inside_overlaps s b c Hb Hc Hin) as Ho. rewrite Hs in Ho. cbn in Ho. congruence.
Qed.

Lemma slice_tiles_spec s b ks buf res : space_wf s → box_ok b (length (shape s)) →
  length buf = length (shape s) →
  slice_tiles (encoder s) b (length (shape s)) (omap (λ k, tiles s !! k) ks) buf res =
    Some (res ++ (ks ≫= slice_key s b)).
Proof.
  intros Hwf Hb. revert buf res. induction ks as [|k ks IH]; intros buf res Hl; cbn [omap list_omap].
  { cbn. by rewrite app_nil_r. }
  destruct (tiles s !! k) as [t|] eqn:Ht.
  2:{ rewrite IH by done. cbn. unfold slice_key at 2. by rewrite Ht. }
  cbn [slice_tiles]. destruct (sw_tiles s Hwf k t Ht) as [_ (c0 & Hc0 & Ho0 & _) _].
  destruct (overlaps_spec b (length (shape s)) (tile_origin t) (seq 0 (length (shape s))))
    as (r & Hr & _); [done|rewrite <- Ho0, split_origin, length_fmap; apply Hc0| |].
  { apply Forall_forall. intros d Hd%elem_of_seq. lia. }
  rewrite Hr. cbn [mbind option_bind]. destruct r; cbn [negb].
  - destruct (slice_tile_spec s b k t (roaring_iter (occupancy t)) buf res) as (buf' & Hl' & ->); [done..|].
    cbn [mbind option_bind]. rewrite IH by done. rewrite <- app_assoc. cbn [mbind list_bind].
    unfold slice_key at 2. by rewrite Ht.
  - rewrite IH by done. cbn [mbind list_bind]. by rewrite (untouched_empty s b k t).
Qed.

Lemma slice_key_spec s b k c v : space_wf s →
  (c, v) ∈ slice_key s b k ↔
    in_space s c ∧ tile_key s c = k ∧ get_voxel c s = Some v ∧ contains b c = Some true.
Proof.
  intros Hwf. unfold slice_key. destruct (tiles s !! k) as [t|] eqn:Ht.
  2:{ rewrite elem_of_nil. split; [done|]. intros (Hc & Hk & Hg & _).
      rewrite get_voxel_in, Hk, Ht in Hg by done. done. }
  rewrite list_elem_of_omap. split.
  - intros (m & _ & Hm). pose proof (sw_tiles s Hwf k t Ht) as [_ (c0 & _ & Ho & Hk) _].
    apply (slice_cell_spec s b k t) in Hm as (Hc & Hs & Hg & Hin); [|done..]. split_and!; [done| |done..].
    rewrite <- Hk. unfold tile_key. by rewrite Hs, Ho.
  - intros (Hc & Hk & Hg & Hin). exists (split_tile_coord s c).2.
    pose proof (sw_tiles s Hwf k t Ht) as [_ (c0 & Hc0 & Ho & Hk0) _]. split.
    + apply elem_of_roaring_iter. rewrite get_voxel_in, Hk, Ht in Hg by done. cbn in Hg.
      unfold tile_get in Hg. by destruct (roaring_contains _ (occupancy t)).
    + apply (slice_cell_spec s b k t); [done..|]. split_and!; [done| |done..].
      rewrite <- Ho, <- (tile_key_inj s c c0) by congruence. by destruct (split_tile_coord s c).
Qed.

Lemma slice_key_NoDup s b k : space_wf s → NoDup (slice_key s b k).*1.
Proof.
  intros Hwf. unfold slice_key. destruct (tiles s !! k) as [t|] eqn:Ht; [|constructor].
  pose proof (roaring_iter_NoDup (occupancy t)) as Hnd.
  induction (roaring_iter (occupancy t)) as [|m ms IH]; [constructor|].
  apply NoDup_cons in Hnd as [Hm Hnd]. cbn [omap list_omap].
  destruct (slice_cell s b t m) as [[c v]|] eqn:Hc; [|by apply IH].
  cbn. constructor; [|by apply IH].
  intros ([c' v'] & -> & (m' & Hm' & Hc')%list_elem_of_omap)%list_elem_of_fmap. cbn in Hc.
  apply (slice_cell_spec s b k t) in Hc as (_ & Hs & _), Hc' as (_ & Hs' & _); [|done..].
  cbn in *. congruence.
Qed.

(** slice_subvolume over a box made by HypercubeBoundingBox::new returns
    each stored voxel inside the box exactly once, with its coordinates and
    value, and nothing else, for any iteration order of the tiles; skipping
    tiles that do not overlap loses nothing. *)
Lemma slice_subvolume_spec mins maxs b s :
  space_wf s → box_new mins maxs = Some b → length mins = length (shape s) →
  ∃ res, slice_subvolume b s = Some (Ok res) ∧ NoDup res.*1 ∧
    ∀ c v, (c, v) ∈ res ↔ get_voxel c s = Some v ∧ contains b c = Some true.
Proof.
  intros Hwf Hb Hl. assert (box_ok b (length (shape s))) as Hbox.
  { unfold box_new in Hb. destruct (N.eqb_spec (lenN mins) (lenN maxs)) as [Heq|]; [|done].
    cbn [negb orb] in Hb. destruct (lenN mins =? 0)%N; [done|].
    destruct (forallb _ _); [|done]. injection Hb as <-. split; cbn; [done|].
    unfold lenN in Heq. lia. }
  unfold slice_subvolume, box_dimensions. rewrite (proj1 Hbox), Nat.eqb_refl. cbn [negb].
  rewrite slice_tiles_spec by (try apply length_replicate; done). cbn [mbind option_bind app].
  eexists. split; [done|]. split.
  - rewrite fmap_list_bind. apply NoDup_bind.
    + intros k k' c _ _ ([? v] & -> & Hx)%list_elem_of_fmap ([? v'] & He & Hx')%list_elem_of_fmap.
      cbn in *. subst. apply slice_key_spec in Hx as (_ & <- & _), Hx' as (_ & <- & _); done.
    + intros k _. by apply slice_key_NoDup.
    + rewrite iter_order_perm. apply NoDup_elements.
  - intros c v. rewrite list_elem_of_bind. setoid_rewrite slice_key_spec; [|done]. split; [naive_solver|].
    intros [Hg Hin]. destruct (decide (in_space s c)) as [Hc|Hc];
      [|by rewrite (get_voxel_out s c Hc) in Hg].
    exists (tile_key s c). split; [done|]. rewrite iter_order_perm, elem_of_elements, elem_of_dom.
    rewrite get_voxel_in in Hg by done. destruct (tiles s !! tile_key s c); [done|done].
Qed.
End space.
