(* ===== verification/MetadataIndex.v ===== *)
(** The metadata subsystem (src/metadata): the inverted index and its filter
    language (index.rs), points and polygons (geo.rs), the interned store with its
    quota (store.rs) and the cardinality guard (cardinality.rs).

    [None] is a panic ([BTreeMap::range] with its start past its end).  A roaring
    bitmap is the interface [Roaring] of Hypercube.v with the set operations used
    here.  Locks are held for a whole call, so a call is one step; the counters of
    a quota are modelled without the race between their check and their update.
    A number inside a JSON document comes with the text serde_json prints for it.
    [str::trim] is modelled on ASCII blanks. *)

From Stdlib Require Import Ascii ZArith SpecFloat.
From stdpp Require Import base gmap sets strings numbers list pretty sorting fin_maps.
From S2P Require Import Prelude.
From S2P Require Import Floats.
From S2P Require Import Hypercube.

#[local] Set Warnings "-register-all".

(** ** Numbers and text *)

(** [x as i64]: truncate toward zero, saturate, NaN to 0. *)
Definition i64_clamp (z : Z) : Z := Z.max (-9223372036854775808) (Z.min z 9223372036854775807).
Definition f64_as_i64 (x : f64) : Z :=
  match x with
  | S754_zero _ | S754_nan => 0
  | S754_infinity s => if s then -9223372036854775808 else 9223372036854775807
  | S754_finite s m e =>
      let n := if (0 <=? e)%Z then Z.shiftl (Zpos m) e else Z.shiftr (Zpos m) (- e) in
      i64_clamp (if s then - n else n)
  end%Z.

Definition i32_clamp (z : Z) : Z := Z.max (-2147483648) (Z.min z 2147483647).

Definition f64_le (a b : f64) : bool := match SFcompare a b with Some Lt | Some Eq => true | _ => false end.

(** [n / d] to the nearest integer, ties to even *)
Definition div_half_even (n d : N) : N :=
  let q := (n / d)%N in
  match (2 * (n mod d) ?= d)%N with
  | Lt => q
  | Gt => q + 1
  | Eq => if N.even q then q else q + 1
  end%N.

Fixpoint pad_zeros (k : nat) (s : string) : string :=
  match k with O => s | S k => ("0" +:+ pad_zeros k s)%string end.

(** [format!("{x:.6}")] *)
Definition f64_fixed6 (x : f64) : string :=
  let unsigned n :=
    let frac := pretty (n mod 1000000)%N in
    (pretty (n / 1000000)%N +:+ "." +:+ pad_zeros (6 - String.length frac) frac)%string in
  let signed (s : bool) t := if s then ("-" +:+ t)%string else t in
  match x with
  | S754_nan => "NaN"
  | S754_infinity s => signed s "inf"
  | S754_zero s => signed s (unsigned 0%N)
  | S754_finite s m e =>
      signed s (unsigned (if (0 <=? e)%Z then (N.shiftl (Npos m) (Z.to_N e) * 1000000)%N
                          else div_half_even (Npos m * 1000000) (N.shiftl 1 (Z.to_N (- e)))))
  end.

(** *** [str::parse::<f64>] *)

Definition digit_of (c : ascii) : option N :=
  let n := N_of_ascii c in if (48 <=? n)%N && (n <=? 57)%N then Some (n - 48)%N else None.
Fixpoint take_digits (l : list ascii) : list N * list ascii :=
  match l with
  | c :: l' => match digit_of c with Some d => let '(ds, r) := take_digits l' in (d :: ds, r) | None => ([], l) end
  | [] => ([], [])
  end.
Definition value_of (ds : list N) : N := foldl (λ n d, 10 * n + d)%N 0%N ds.
Definition take_sign (l : list ascii) : bool * list ascii :=
  match l with
  | "+"%char :: l => (false, l)
  | "-"%char :: l => (true, l)
  | _ => (false, l)
  end.
Definition lower_ascii (c : ascii) : ascii :=
  let n := N_of_ascii c in if (65 <=? n)%N && (n <=? 90)%N then ascii_of_N (n + 32) else c.

(** The nearest [f64] to [n * 10^e] *)
Definition f64_of_decimal (s : bool) (n : N) (e : Z) : f64 :=
  match n with
  | N0 => S754_zero s
  | Npos p =>
      let pow k := match (10 ^ k)%Z with Zpos q => q | _ => 1%positive end in
      let '(m, ex, loc) := SFdiv_core_binary 53 1024 (Zpos (if (0 <=? e)%Z then p * pow e else p)%positive) 0
                             (Zpos (if (0 <=? e)%Z then 1 else pow (- e)%Z)%positive) 0 in
      binary_round_aux 53 1024 s m ex loc
  end.

Definition parse_exponent (l : list ascii) : option Z :=
  match l with
  | [] => Some 0%Z
  | c :: l =>
      if bool_decide (lower_ascii c = "e"%char) then
        let '(neg, l) := take_sign l in
        match take_digits l with
        | ([], _) | (_, _ :: _) => None
        | (ds, []) => let n := Z.of_N (value_of ds) in Some (if neg : bool then (- n)%Z else n)
        end
      else None
  end.

Definition f64_parse (s : string) : option f64 :=
  let '(neg, l) := take_sign (String.list_ascii_of_string s) in
  let word := String.string_of_list_ascii (lower_ascii <$> l) in
  if bool_decide (word = "inf"%string) || bool_decide (word = "infinity"%string) then Some (S754_infinity neg)
  else if bool_decide (word = "nan"%string) then Some S754_nan
  else
    let '(ints, l) := take_digits l in
    let '(frac, l) := match l with "."%char :: l => take_digits l | _ => ([], l) end in
    match ints ++ frac with
    | [] => None
    | ds => e ← parse_exponent l; Some (f64_of_decimal neg (value_of ds) (e - Z.of_nat (length frac)))
    end.

Definition is_blank (c : ascii) : bool :=
  let n := N_of_ascii c in (n =? 32)%N || ((9 <=? n)%N && (n <=? 13)%N).
Fixpoint drop_blanks (l : list ascii) : list ascii :=
  match l with c :: l' => if is_blank c then drop_blanks l' else l | [] => [] end.
Definition trim (s : string) : string :=
  String.string_of_list_ascii (reverse (drop_blanks (reverse (drop_blanks (String.list_ascii_of_string s))))).

(** [split_once(',')] *)
Fixpoint split_comma (l : list ascii) : option (list ascii * list ascii) :=
  match l with
  | [] => None
  | c :: l => if Ascii.eqb c "," then Some ([], l) else '(a, b) ← split_comma l; Some (c :: a, b)
  end.

(** ** Points and polygons (geo.rs) *)

(** Functions of the platform's math library *)
Class GeoMath := {
  f64_sin : f64 → f64;
  f64_cos : f64 → f64;
  f64_atan2 : f64 → f64 → f64;
  f64_square : f64 → f64
}.

Record GeoPoint := mkPoint { lat : f64; lon : f64 }.
Record BoundingBox2D := mkBox2D { min_lat : f64; max_lat : f64; min_lon : f64; max_lon : f64 }.
Record GeoPolygon := mkPolygon { exterior_ring : list GeoPoint; bounding_box : BoundingBox2D }.

(** [PI / 180.0] *)
Definition radians_per_degree : f64 := f64_div (S754_finite false 7074237752028440 (-51)) (f64_of_Z 180).
Definition to_radians (x : f64) : f64 := f64_mul x radians_per_degree.

Definition haversine_distance_km `{GeoMath} (self other : GeoPoint) : f64 :=
  let d_lat := to_radians (f64_sub (lat other) (lat self)) in
  let d_lon := to_radians (f64_sub (lon other) (lon self)) in
  let a := f64_add (f64_square (f64_sin (f64_div d_lat (f64_of_Z 2))))
             (f64_mul (f64_mul (f64_cos (to_radians (lat self))) (f64_cos (to_radians (lat other))))
                (f64_square (f64_sin (f64_div d_lon (f64_of_Z 2))))) in
  let c := f64_mul (f64_of_Z 2) (f64_atan2 (SFsqrt 53 1024 a) (SFsqrt 53 1024 (f64_sub (f64_of_Z 1) a))) in
  f64_mul (f64_of_Z 6371) c.

Definition box2d_contains (b : BoundingBox2D) (p : GeoPoint) : bool :=
  f64_le (min_lat b) (lat p) && f64_le (lat p) (max_lat b) && f64_le (min_lon b) (lon p) && f64_le (lon p) (max_lon b).

Definition F64_MAX : f64 := S754_finite false 9007199254740991 971.
Definition F64_MIN : f64 := S754_finite true 9007199254740991 971.

Definition polygon_new (ring : list GeoPoint) : option GeoPolygon :=
  if (length ring <? 3)%nat then None
  else Some (mkPolygon ring
    (foldl (λ b p, mkBox2D (f64_min (min_lat b) (lat p)) (f64_max (max_lat b) (lat p))
                           (f64_min (min_lon b) (lon p)) (f64_max (max_lon b) (lon p)))
       (mkBox2D F64_MAX F64_MIN F64_MAX F64_MIN) ring)).

(** The edge from [pj] to [pi] and the ray from the point *)
Definition crosses (p pi pj : GeoPoint) : bool :=
  negb (Bool.eqb (f64_gt (lon pi) (lon p)) (f64_gt (lon pj) (lon p))) &&
  f64_lt (lat p)
    (f64_add (f64_div (f64_mul (f64_sub (lat pj) (lat pi)) (f64_sub (lon p) (lon pi))) (f64_sub (lon pj) (lon pi))) (lat pi)).

(** The loop over the ring; [pj] is the vertex before. *)
Fixpoint ray_cast (p pj : GeoPoint) (ring : list GeoPoint) (inside : bool) : bool :=
  match ring with
  | [] => inside
  | pi :: ring => ray_cast p pi ring (xorb inside (crosses p pi pj))
  end.

(** [exterior_ring[n - 1]] panics on an empty ring, which [polygon_new] refuses. *)
Definition contains_point (poly : GeoPolygon) (p : GeoPoint) : option bool :=
  if box2d_contains (bounding_box poly) p
  then pj ← last (exterior_ring poly); Some (ray_cast p pj (exterior_ring poly) false)
  else Some false.

(** ** Values and filters *)

Inductive MetadataValue :=
  | MString (s : string)
  | MInteger (i : Z)
  | MFloat (x : f64)
  | MBoolean (b : bool).

Definition bool_text (b : bool) : string := if b then "true" else "false".
Definition to_string_key (v : MetadataValue) : string :=
  match v with
  | MString s => s
  | MInteger i => pretty i
  | MFloat x => f64_fixed6 x
  | MBoolean b => bool_text b
  end.

Definition MILLION : f64 := f64_of_Z 1000000.
Definition scale (x : f64) : Z := f64_as_i64 (f64_mul x MILLION).
Definition to_i64_scaled (v : MetadataValue) : option Z :=
  match v with
  | MInteger i => Some i
  | MFloat x => Some (scale x)
  | _ => None
  end.

Definition in_degrees (bound : Z) (x : f64) : bool := f64_le (f64_of_Z (- bound)) x && f64_le x (f64_of_Z bound).
Definition u32_of_i32 (z : Z) : N := Z.to_N (z `mod` 4294967296).
Definition packed_geo_str (raw : string) : option N :=
  '(a, b) ← split_comma (String.list_ascii_of_string raw);
  lat ← f64_parse (trim (String.string_of_list_ascii a));
  lon ← f64_parse (trim (String.string_of_list_ascii b));
  if in_degrees 90 lat && in_degrees 180 lon then
    let lat_e6 := i32_clamp (f64_round (f64_mul lat MILLION)) in
    let lon_e6 := i32_clamp (f64_round (f64_mul lon MILLION)) in
    Some (N.lor (N.shiftl (u32_of_i32 lat_e6) 32) (u32_of_i32 lon_e6))
  else None.
Definition packed_geo_value (v : MetadataValue) : option N :=
  match v with MString raw => packed_geo_str raw | _ => None end.

Definition i32_of_u32 (n : N) : Z := if (n <? 2147483648)%N then Z.of_N n else (Z.of_N n - 4294967296)%Z.
Definition unpack_geo_point (packed : N) : GeoPoint :=
  mkPoint (f64_div (f64_of_Z (i32_of_u32 (N.shiftr packed 32 `mod` u32_modulus))) MILLION)
          (f64_div (f64_of_Z (i32_of_u32 (packed `mod` u32_modulus))) MILLION).

Inductive FilterExpr :=
  | F_Eq (field : string) (v : MetadataValue)
  | F_In (field : string) (vs : list MetadataValue)
  | F_Range (field : string) (lo hi : f64)
  | F_GeoWithin (field : string) (poly : GeoPolygon)
  | F_GeoRadius (field : string) (center : GeoPoint) (max_km : f64)
  | F_And (fs : list FilterExpr)
  | F_Or (fs : list FilterExpr)
  | F_Not (f : FilterExpr).

(** ** Bitmaps *)

(** The operations of the roaring crate beyond insertion and membership. *)
Class RoaringSets (B : Type) := {
  roaring_remove : N → B → B;
  roaring_or : B → B → B;
  roaring_and : B → B → B;
  roaring_sub : B → B → B;
  roaring_range : N → N → B;
  roaring_is_empty : B → bool;
  serialized_size : B → N
}.
Class RoaringSetsLaws (B : Type) `{!Roaring B, !RoaringSets B} : Prop := {
  contains_remove i j b : roaring_contains i (roaring_remove j b) = negb (bool_decide (i = j)) && roaring_contains i b;
  contains_or i a b : roaring_contains i (roaring_or a b) = roaring_contains i a || roaring_contains i b;
  contains_and i a b : roaring_contains i (roaring_and a b) = roaring_contains i a && roaring_contains i b;
  contains_sub i a b : roaring_contains i (roaring_sub a b) = roaring_contains i a && negb (roaring_contains i b);
  contains_range i lo hi : roaring_contains i (roaring_range lo hi) = (lo <=? i)%N && (i <? hi)%N;
  is_empty_spec b : roaring_is_empty b = true ↔ ∀ i, roaring_contains i b = false
}.

(** ** The inverted index *)

(** [HashMap<String, HashMap<K, RoaringBitmap>>] *)
Abbreviation Postings K B := (gmap string (gmap K B)).

Record MetadataInvertedIndex (B : Type) := mkIndex {
  categorical : Postings string B;
  numeric : Postings Z B;
  spatial : Postings N B
}.
Arguments mkIndex {B} _ _ _.
Arguments categorical {B} _.
Arguments numeric {B} _.
Arguments spatial {B} _.

(** A JSON value in a document; a number is its text. *)
Inductive JsonField := J_String (s : string) | J_Number (text : string) | J_Bool (b : bool) | J_Other.

Section index.
Context {B : Type} `{!Roaring B, !RoaringSets B} `{!HashOrderOf string, !HashOrderOf N, !GeoMath}.
Abbreviation Index := (MetadataInvertedIndex B).

Definition index_new : Index := mkIndex ∅ ∅ ∅.

(** [entry(field).or_default().entry(key).or_default().insert(node)] *)
Definition posting_insert {K} `{Countable K} (field : string) (key : K) (node : N) (p : Postings K B) : Postings K B :=
  let m := default ∅ (p !! field) in
  <[field := <[key := roaring_insert node (default roaring_new (m !! key))]> m]> p.
Definition posting_insert_opt {K} `{Countable K} (field : string) (key : option K) (node : N) (p : Postings K B) :=
  match key with Some key => posting_insert field key node p | None => p end.

(** [get_mut(field)], [get_mut(key)], [remove(node)] *)
Definition posting_remove {K} `{Countable K} (field : string) (key : K) (node : N) (p : Postings K B) : Postings K B :=
  alter (alter (roaring_remove node) key) field p.
Definition posting_remove_opt {K} `{Countable K} (field : string) (key : option K) (node : N) (p : Postings K B) :=
  match key with Some key => posting_remove field key node p | None => p end.

(** [retain] with the bitmaps changed by [f]; empty ones go. *)
Definition retain_postings {K} `{Countable K} (f : B → B) (p : Postings K B) : Postings K B :=
  let keep b := let b := f b in if roaring_is_empty b then None else Some b in
  omap (λ m : gmap K B, let m := omap keep m in if bool_decide (m = ∅) then None else Some m) p.

Definition index_pair (node : N) (i : Index) (e : string * MetadataValue) : Index :=
  let '(field, v) := e in
  mkIndex (posting_insert field (to_string_key v) node (categorical i))
          (posting_insert_opt field (to_i64_scaled v) node (numeric i))
          (posting_insert_opt field (packed_geo_value v) node (spatial i)).

(** The entries of a [HashMap] in its iteration order *)
Definition hash_entries {V} (m : gmap string V) : list (string * V) :=
  omap (λ k, pair k <$> m !! k) (iter_order (dom m)).

Definition index_node (node : N) (metadata : gmap string MetadataValue) (i : Index) : Index :=
  foldl (index_pair node) i (hash_entries metadata).
Definition index_nodes_batch (batch : list (N * gmap string MetadataValue)) (i : Index) : Index :=
  foldl (λ i e, index_node e.1 e.2 i) i batch.

Definition remove_pair (node : N) (i : Index) (e : string * MetadataValue) : Index :=
  let '(field, v) := e in
  mkIndex (posting_remove field (to_string_key v) node (categorical i))
          (posting_remove_opt field (to_i64_scaled v) node (numeric i))
          (posting_remove_opt field (packed_geo_value v) node (spatial i)).
Definition remove_node (node : N) (metadata : gmap string MetadataValue) (i : Index) : Index :=
  foldl (remove_pair node) i (hash_entries metadata).

Definition remove_node_index (node : N) (i : Index) : Index :=
  mkIndex (retain_postings (roaring_remove node) (categorical i))
          (retain_postings (roaring_remove node) (numeric i))
          (retain_postings (roaring_remove node) (spatial i)).

(** The spatial postings are left as they are. *)
Definition index_clear (i : Index) : Index := mkIndex ∅ ∅ (spatial i).

Definition json_text (v : JsonField) : option string :=
  match v with J_String s | J_Number s => Some s | J_Bool b => Some (bool_text b) | J_Other => None end.
Definition insert_json_field (node : N) (i : Index) (e : string * JsonField) : Index :=
  match json_text e.2 with
  | None => i
  | Some s => mkIndex (posting_insert e.1 s node (categorical i)) (numeric i)
                (posting_insert_opt e.1 (packed_geo_str s) node (spatial i))
  end.
(** The fields of a JSON object in the order of its map *)
Definition insert_metadata (node : N) (object : list (string * JsonField)) (i : Index) : Index :=
  foldl (insert_json_field node) i object.

(** *** Export and import *)

Definition export_postings (i : Index) : Postings string B * Postings Z B := (categorical i, numeric i).

Definition add_spatial (field : string) (s : Postings N B) (e : string * B) : Postings N B :=
  match packed_geo_str e.1 with
  | Some point =>
      let m := default ∅ (s !! field) in
      <[field := <[point := roaring_or (default roaring_new (m !! point)) e.2]> m]> s
  | None => s
  end.
Definition spatial_postings_from_categorical (c : Postings string B) : Postings N B :=
  foldl (λ s e, foldl (add_spatial e.1) s (hash_entries e.2)) ∅ (hash_entries c).
Definition import_postings (c : Postings string B) (n : Postings Z B) (i : Index) : Index :=
  mkIndex c n (spatial_postings_from_categorical c).

(** *** Queries *)

(** [iter().fold(new(), |a, b| a | b)] *)
Definition union_all (bs : list B) : B := foldl roaring_or roaring_new bs.

Definition lookup_categorical (m : gmap string B) (v : MetadataValue) : option B := m !! to_string_key v.

(** [btree.range(lo..=hi)]: in key order; a panic if [lo > hi] *)
Definition btree_entries (m : gmap Z B) : list (Z * B) :=
  omap (λ k, pair k <$> m !! k) (merge_sort Z.le (elements (dom m))).
Definition btree_range (lo hi : Z) (m : gmap Z B) : option (list (Z * B)) :=
  if (hi <? lo)%Z then None else Some (filter (λ e, (lo ≤ e.1 ≤ hi)%Z) (btree_entries m)).

(** The points of a field that pass a test *)
Definition points_where (test : GeoPoint → option bool) (m : gmap N B) : option (list B) :=
  bs ← mapM (λ k, r ← test (unpack_geo_point k); Some (if r : bool then m !! k else None)) (iter_order (dom m));
  Some (omap id bs).

(** The loops over conjuncts, which stops at an empty result, and disjuncts *)
Definition conj_loop (eval : FilterExpr → option B) : B → list FilterExpr → option B :=
  fix go r fs :=
    match fs with
    | [] => Some r
    | f :: fs => if roaring_is_empty r then Some r else b ← eval f; go (roaring_and r b) fs
    end.
Definition disj_loop (eval : FilterExpr → option B) : B → list FilterExpr → option B :=
  fix go r fs :=
    match fs with
    | [] => Some r
    | f :: fs => b ← eval f; go (roaring_or r b) fs
    end.

Fixpoint eval_internal (total_nodes : N) (i : Index) (expr : FilterExpr) {struct expr} : option B :=
  match expr with
  | F_Eq field v => Some (default roaring_new (m ← categorical i !! field; lookup_categorical m v))
  | F_In field vs =>
      Some (match categorical i !! field with
            | Some m => union_all (omap (lookup_categorical m) vs)
            | None => roaring_new end)
  | F_Range field lo hi =>
      match numeric i !! field with
      | Some m => es ← btree_range (scale lo) (scale hi) m; Some (union_all es.*2)
      | None => Some roaring_new
      end
  | F_GeoWithin field poly =>
      match spatial i !! field with
      | Some m => bs ← points_where (contains_point poly) m; Some (union_all bs)
      | None => Some roaring_new
      end
  | F_GeoRadius field center max_km =>
      match spatial i !! field with
      | Some m => bs ← points_where (λ p, Some (f64_le (haversine_distance_km center p) max_km)) m; Some (union_all bs)
      | None => Some roaring_new
      end
  | F_And [] => Some roaring_new
  | F_And (f :: fs) =>
      r ← eval_internal total_nodes i f;
      conj_loop (eval_internal total_nodes i) r fs
  | F_Or fs =>
      disj_loop (eval_internal total_nodes i) roaring_new fs
  | F_Not f =>
      b ← eval_internal total_nodes i f;
      Some (roaring_sub (roaring_range 0 (total_nodes `mod` u32_modulus)) b)
  end.
Definition evaluate_filter (expr : FilterExpr) (total_nodes : N) (i : Index) : option B :=
  eval_internal total_nodes i expr.

Definition mask_step (i : Index) (mask : option B) (e : string * string) : option B :=
  let b := default roaring_new (m ← categorical i !! e.1; m !! e.2) in
  Some (match mask with Some mask => roaring_and mask b | None => b end).
Definition compile_filter_mask (exact : gmap string string) (i : Index) : option B :=
  if bool_decide (exact = ∅) then None else foldl (mask_step i) None (hash_entries exact).
End index.

(** ** The interned store (store.rs) *)

Record MetadataQuotaConfig := mkQuota {
  max_memory_bytes : N;
  max_distinct_terms : N;
  soft_pressure_ratio : b32
}.
Record QuotaTracker := mkTracker { qt_config : MetadataQuotaConfig; current_bytes : N; current_terms : N }.
Definition tracker_new (c : MetadataQuotaConfig) : QuotaTracker := mkTracker c 0 0.

Definition try_admit (bytes terms : N) (t : QuotaTracker) : HNSQRResult unit * QuotaTracker :=
  if (max_memory_bytes (qt_config t) <? u64_add (current_bytes t) bytes)%N
  then (Err (Internal "Metadata quota exceeded"), t)
  else if (max_distinct_terms (qt_config t) <? u64_add (current_terms t) terms)%N
  then (Err (Internal "Metadata distinct term limit exceeded"), t)
  else (Ok tt, mkTracker (qt_config t) (u64_add (current_bytes t) bytes) (u64_add (current_terms t) terms)).
(** [fetch_sub] wraps. *)
Definition quota_release (bytes terms : N) (t : QuotaTracker) : QuotaTracker :=
  mkTracker (qt_config t) (u64_sub (current_bytes t) bytes) (u64_sub (current_terms t) terms).

Record StringInterner := mkInterner { to_id : gmap string N; to_str : list string }.
Definition interner_new : StringInterner := mkInterner ∅ [].

(** [size_of::<Arc<str>>()] is 16. *)
Definition term_bytes (s : string) : N := N.of_nat (String.length s) + 16 + 32.
Definition intern_term (s : string) (i : StringInterner) (t : QuotaTracker) :
    HNSQRResult N * StringInterner * QuotaTracker :=
  match to_id i !! s with
  | Some id => (Ok id, i, t)
  | None =>
      match try_admit (term_bytes s) 1 t with
      | (Err e, t) => (Err e, i, t)
      | (Ok _, t) =>
          let id := (lenN (to_str i) `mod` u32_modulus)%N in
          (Ok id, mkInterner (<[s := id]> (to_id i)) (to_str i ++ [s]), t)
      end
  end.
Definition resolve_term (id : N) (i : StringInterner) : option string := to_str i !! N.to_nat id.

Record MetadataStore (B : Type) := mkStore {
  ms_tracker : QuotaTracker;
  ms_interner : StringInterner;
  categorical_postings : Postings N B;
  numeric_postings : Postings Z B
}.
Arguments mkStore {B} _ _ _ _.
Arguments ms_tracker {B} _.
Arguments ms_interner {B} _.
Arguments categorical_postings {B} _.
Arguments numeric_postings {B} _.

(** [f.to_bits() as i64]; every NaN is the one Rust produces. *)
Definition f64_bits (x : f64) : Z :=
  let sign (s : bool) := if s then (-9223372036854775808)%Z else 0%Z in
  match x with
  | S754_zero s => sign s
  | S754_infinity s => sign s + Z.shiftl 2047 52
  | S754_nan => Z.shiftl 4095 51
  | S754_finite s m e =>
      sign s + (if (Zpos m <? Z.shiftl 1 52)%Z then Zpos m
                else Z.shiftl (e + 1075) 52 + (Zpos m - Z.shiftl 1 52))
  end%Z.

Section store.
Context {B : Type} `{!Roaring B, !RoaringSets B} `{!HashOrderOf string}.
Abbreviation Store := (MetadataStore B).

Definition store_new (c : MetadataQuotaConfig) : Store := mkStore (tracker_new c) interner_new ∅ ∅.

(** The growth of one bitmap by a slot *)
Definition posting_growth {K} `{Countable K} (field : string) (key : K) (slot : N) (p : Postings K B) : N :=
  let b := default roaring_new (m ← p !! field; m !! key) in
  (serialized_size (roaring_insert slot b) - serialized_size b)%N.
(** Admission after the fact: the posting is kept when it is refused. *)
Definition admit_growth (growth : N) (s : Store) : HNSQRResult unit * Store :=
  if (0 <? growth)%N then
    let '(r, t) := try_admit growth 0 (ms_tracker s) in
    (r, mkStore t (ms_interner s) (categorical_postings s) (numeric_postings s))
  else (Ok tt, s).

Definition index_term (slot : N) (field text : string) (counted : bool) (s : Store) : HNSQRResult unit * Store :=
  let '(r, i, t) := intern_term text (ms_interner s) (ms_tracker s) in
  match r with
  | Err e => (Err e, mkStore t i (categorical_postings s) (numeric_postings s))
  | Ok id =>
      let growth := posting_growth field id slot (categorical_postings s) in
      let s := mkStore t i (posting_insert field id slot (categorical_postings s)) (numeric_postings s) in
      if counted then admit_growth growth s else (Ok tt, s)
  end.
Definition index_number (slot : N) (field : string) (n : Z) (counted : bool) (s : Store) : HNSQRResult unit * Store :=
  let growth := posting_growth field n slot (numeric_postings s) in
  let s := mkStore (ms_tracker s) (ms_interner s) (categorical_postings s)
             (posting_insert field n slot (numeric_postings s)) in
  if counted then admit_growth growth s else (Ok tt, s).

Definition index_value (slot : N) (field : string) (v : MetadataValue) (s : Store) : HNSQRResult unit * Store :=
  match v with
  | MString t => index_term slot field t true s
  | MInteger i => index_number slot field i true s
  | MFloat x => index_number slot field (f64_bits x) false s
  | MBoolean b => index_term slot field (bool_text b) false s
  end.

(** Stops at the first refusal. *)
Fixpoint index_values (slot : N) (es : list (string * MetadataValue)) (s : Store) : HNSQRResult unit * Store :=
  match es with
  | [] => (Ok tt, s)
  | (field, v) :: es =>
      match index_value slot field v s with
      | (Ok _, s) => index_values slot es s
      | (Err e, s) => (Err e, s)
      end
  end.
Definition index_slot (slot : N) (metadata : gmap string MetadataValue) (s : Store) : HNSQRResult unit * Store :=
  index_values slot (hash_entries metadata) s.

Definition match_categorical (key value : string) (s : Store) : option B :=
  id ← to_id (ms_interner s) !! value; m ← categorical_postings s !! key; m !! id.
(** A panic if [lo > hi] *)
Definition match_integer_range (key : string) (lo hi : Z) (s : Store) : option B :=
  match numeric_postings s !! key with
  | Some m => es ← btree_range lo hi m; Some (union_all es.*2)
  | None => Some roaring_new
  end.
Definition compact_and_reclaim (live : B) (s : Store) : Store :=
  mkStore (ms_tracker s) (ms_interner s) (retain_postings (λ b, roaring_and b live) (categorical_postings s))
    (retain_postings (λ b, roaring_and b live) (numeric_postings s)).
Definition total_memory_bytes (s : Store) : N := current_bytes (ms_tracker s).
Definition total_distinct_terms (s : Store) : N := lenN (to_str (ms_interner s)).
End store.

(** ** Cardinality (cardinality.rs) *)

Inductive PostingRepresentation := SortedPostings | RoaringBitmapRep | DenseBitmap | CompactDictionary.

Record CardinalityBudget := mkBudget {
  cb_max_distinct_terms : N;
  cb_max_fields : N;
  cb_max_dictionary_bytes : N;
  cb_max_bitmap_bytes : N
}.
Record TenantCardinalityTracker := mkTenantTracker {
  term_count : N; field_count : N; dictionary_bytes : N; bitmap_bytes : N
}.
Record CardinalityGuard := mkGuard {
  budgets : gmap string CardinalityBudget;
  trackers : gmap string TenantCardinalityTracker;
  default_budget : CardinalityBudget
}.
Definition guard_new (b : CardinalityBudget) : CardinalityGuard := mkGuard ∅ ∅ b.

Definition check_admission (tenant : string) (is_new_term : bool) (bytes : N) (g : CardinalityGuard) :
    HNSQRResult unit * CardinalityGuard :=
  let budget := default (default_budget g) (budgets g !! tenant) in
  let t := default (mkTenantTracker 0 0 0 0) (trackers g !! tenant) in
  let put t := mkGuard (budgets g) (<[tenant := t]> (trackers g)) (default_budget g) in
  if is_new_term then
    if (cb_max_distinct_terms budget <? u64_add (term_count t) 1)%N
    then (Err (Internal "Tenant exceeded maximum distinct metadata terms"), put t)
    else (Ok tt, put (mkTenantTracker (u64_add (term_count t) 1) (field_count t)
                        (u64_add (dictionary_bytes t) bytes) (bitmap_bytes t)))
  else (Ok tt, put t).

(** The thresholds are 0.01 and 0.30. *)
Definition select_representation (total_docs matching_docs distinct_values : N) : PostingRepresentation :=
  if (total_docs =? 0)%N then SortedPostings
  else if (0 <? distinct_values)%N && (distinct_values <=? 256)%N then CompactDictionary
  else
    let density := f64_div (f64_of_u64 matching_docs) (f64_of_u64 total_docs) in
    if f64_lt density (f64_ratio 1 100) then SortedPostings
    else if f64_gt density (f64_ratio 3 10) then DenseBitmap
    else RoaringBitmapRep.
