(* ===== verification/MetadataFacts.v ===== *)
(** The inverted index evaluates a filter to the nodes whose metadata satisfies
    it, after any sequence of operations, and the interned store finds what it was
    given, keeping terms apart within its quota. *)

From Stdlib Require Import Ascii ZArith SpecFloat.
From stdpp Require Import base gmap sets strings numbers list pretty sorting fin_maps.
From S2P Require Import Prelude.
From S2P Require Import Floats.
From S2P Require Import Hypercube.
From S2P Require Import MetadataIndex.

(** ** Postings *)

Section postings.
Context {B : Type} `{!Roaring B, !RoaringLaws B, !RoaringSets B, !RoaringSetsLaws B}.
Context {K : Type} `{Countable K}.
Implicit Types p : Postings K B.

(** Node [v] is posted under [key] of [field]. *)
Definition posted p (field : string) (key : K) (v : N) : bool :=
  roaring_contains v (default roaring_new (m ← p !! field; m !! key)).

Lemma posted_insert p field key n f k v :
  posted (posting_insert field key n p) f k v =
    bool_decide (field = f ∧ key = k ∧ n = v) || posted p f k v.
Proof.
  unfold posted, posting_insert. destruct (decide (field = f)) as [->|Hf].
  - rewrite lookup_insert_eq. cbn [mbind option_bind].
    set (m := default ∅ (p !! f)).
    assert (default roaring_new (p !! f ≫= λ m, m !! k) = default roaring_new (m !! k)) as ->.
    { unfold m. destruct (p !! f); cbn [mbind option_bind default]; unfold id; [done|]. by rewrite lookup_empty. }
    destruct (decide (key = k)) as [->|Hk].
    + rewrite lookup_insert_eq. unfold default at 1, id at 1. rewrite contains_insert.
      f_equal. apply bool_decide_ext. naive_solver.
    + rewrite lookup_insert_ne by done. by rewrite bool_decide_false by naive_solver.
  - rewrite lookup_insert_ne by done. by rewrite bool_decide_false by naive_solver.
Qed.

Lemma posted_remove p field key n f k v :
  posted (posting_remove field key n p) f k v =
    negb (bool_decide (field = f ∧ key = k ∧ n = v)) && posted p f k v.
Proof.
  unfold posted, posting_remove. destruct (decide (field = f)) as [->|Hf].
  - rewrite lookup_alter_eq. destruct (p !! f) as [m|]; cbn [fmap option_fmap option_map mbind option_bind].
    + destruct (decide (key = k)) as [->|Hk].
      * rewrite lookup_alter_eq. destruct (m !! k) as [b|]; cbn [fmap option_fmap option_map default]; unfold id.
        -- rewrite contains_remove. f_equal. f_equal. apply bool_decide_ext. naive_solver.
        -- by rewrite contains_new, andb_false_r.
      * rewrite lookup_alter_ne by done. by rewrite bool_decide_false by naive_solver.
    + cbn [default]. unfold id. by rewrite contains_new, andb_false_r.
  - rewrite lookup_alter_ne by done. by rewrite bool_decide_false by naive_solver.
Qed.

(** Keeping the nodes that satisfy [keep] *)
Lemma posted_retain (g : B → B) (keep : N → bool) p f k v :
  (∀ i b, roaring_contains i (g b) = keep i && roaring_contains i b) →
  posted (retain_postings g p) f k v = keep v && posted p f k v.
Proof.
  intros Hg. unfold posted, retain_postings. rewrite lookup_omap. destruct (p !! f) as [m|]; cbn [mbind option_bind].
  2: { cbn. unfold id. by rewrite contains_new, andb_false_r. }
  set (m' := omap _ m).
  assert (roaring_contains v (default roaring_new (m' !! k)) = keep v && roaring_contains v (default roaring_new (m !! k))) as Hm.
  { unfold m'. rewrite lookup_omap. destruct (m !! k) as [b|]; cbn [mbind option_bind default]; unfold id.
    - destruct (roaring_is_empty (g b)) eqn:E; cbn [default]; unfold id; [|apply Hg].
      rewrite <- Hg. rewrite contains_new. symmetry. by apply is_empty_spec.
    - by rewrite contains_new, andb_false_r. }
  case_bool_decide as Hemp; cbn [default mbind option_bind]; [|done]. rewrite <- Hm, Hemp, lookup_empty. done.
Qed.
End postings.

(** ** Facts

    What was indexed: node, field and value. *)

Abbreviation Facts := (list (N * string * MetadataValue)).

Lemma hash_entries_spec `{!HashOrderOf string} {V} (m : gmap string V) f x :
  (f, x) ∈ hash_entries m ↔ m !! f = Some x.
Proof.
  unfold hash_entries. rewrite list_elem_of_omap. split.
  - intros (k & _ & Hk). destruct (m !! k) eqn:E; [|done]. cbn in Hk. congruence.
  - intros Hx. exists f. rewrite Hx. split; [|done]. rewrite iter_order_perm. apply elem_of_elements, elem_of_dom. eauto.
Qed.

Section facts.
Context {B : Type} `{!Roaring B, !RoaringLaws B, !RoaringSets B, !RoaringSetsLaws B}.
Context {K : Type} `{Countable K} (key : MetadataValue → option K).
Implicit Types (p : Postings K B) (facts : Facts).

(** The postings of one kind hold the facts, by the key of the value. *)
Definition posts p facts : Prop :=
  ∀ f k v, posted p f k v = true ↔ ∃ x, (v, f, x) ∈ facts ∧ key x = Some k.

Lemma posts_insert p facts n f x :
  posts p facts → posts (posting_insert_opt f (key x) n p) (facts ++ [(n, f, x)]).
Proof.
  intros Hp f' k v. assert (posted (posting_insert_opt f (key x) n p) f' k v = true ↔
    (f = f' ∧ key x = Some k ∧ n = v) ∨ posted p f' k v = true) as ->.
  { destruct (key x) as [k0|]; cbn [posting_insert_opt]; [|naive_solver].
    rewrite posted_insert, orb_true_iff, bool_decide_eq_true. naive_solver. }
  rewrite (Hp f' k v). setoid_rewrite elem_of_app. setoid_rewrite list_elem_of_singleton. naive_solver.
Qed.

Lemma posts_purge p facts n :
  posts p facts → posts (retain_postings (roaring_remove n) p) (filter (λ e, e.1.1 ≠ n) facts).
Proof.
  intros Hp f k v. rewrite (posted_retain _ (λ i, negb (bool_decide (i = n)))) by (intros; apply contains_remove).
  rewrite andb_true_iff, negb_true_iff, bool_decide_eq_false, (Hp f k v).
  setoid_rewrite list_elem_of_filter. cbn. naive_solver.
Qed.

(** Removing a list of pairs removes exactly the facts of [n] whose field and key
    are in it. *)
Lemma posts_remove_all n es : ∀ p f k v,
  posted (foldl (λ p e, posting_remove_opt e.1 (key e.2) n p) p es) f k v = true ↔
    posted p f k v = true ∧ ¬ (v = n ∧ ∃ x, (f, x) ∈ es ∧ key x = Some k).
Proof.
  induction es as [|[f0 x0] es IH]; intros p f k v; cbn [foldl].
  { split; [|tauto]. intros Hp. split; [done|]. intros (_ & x & Hx & _). by apply elem_of_nil in Hx. }
  rewrite IH. cbn [fst snd].
  assert (posted (posting_remove_opt f0 (key x0) n p) f k v = true ↔ posted p f k v = true ∧ ¬ (f0 = f ∧ key x0 = Some k ∧ n = v)) as ->.
  { destruct (key x0) as [k0|]; cbn [posting_remove_opt]; [|naive_solver].
    rewrite posted_remove, andb_true_iff, negb_true_iff, bool_decide_eq_false. naive_solver. }
  setoid_rewrite elem_of_cons. naive_solver.
Qed.
End facts.

(** Some fact of node [v] on field [f] passes the test. *)
Definition has (facts : Facts) (v : N) (f : string) (test : MetadataValue → bool) : bool :=
  existsb (λ e, (e.1.1 =? v)%N && bool_decide (e.1.2 = f) && test e.2) facts.

Lemma has_spec facts v f test :
  has facts v f test = true ↔ ∃ x, (v, f, x) ∈ facts ∧ test x = true.
Proof.
  unfold has. rewrite existsb_exists. setoid_rewrite list_elem_of_In. split.
  - intros ([[n f'] x] & Hin & Ht). cbn in Ht. apply andb_true_iff in Ht as [[->%N.eqb_eq Hf]%andb_true_iff Ht].
    apply bool_decide_eq_true in Hf as ->. eauto.
  - intros (x & Hin & Ht). exists (v, f, x). split; [done|]. cbn. by rewrite N.eqb_refl, bool_decide_true, Ht.
Qed.

(** ** Evaluation *)

(** Filters that do not panic: no range is upside down, no polygon is empty. *)
Fixpoint filter_ok (expr : FilterExpr) : bool :=
  match expr with
  | F_Range _ lo hi => (scale lo <=? scale hi)%Z
  | F_GeoWithin _ poly => negb (bool_decide (length (exterior_ring poly) = 0))
  | F_And fs | F_Or fs => forallb filter_ok fs
  | F_Not f => filter_ok f
  | _ => true
  end.

Section filter_expr_ind.
Variable P : FilterExpr → Prop.
Hypotheses (HEq : ∀ f v, P (F_Eq f v)) (HIn : ∀ f vs, P (F_In f vs)) (HRange : ∀ f lo hi, P (F_Range f lo hi))
  (HWithin : ∀ f poly, P (F_GeoWithin f poly)) (HRadius : ∀ f c km, P (F_GeoRadius f c km))
  (HAnd : ∀ fs, Forall P fs → P (F_And fs)) (HOr : ∀ fs, Forall P fs → P (F_Or fs)) (HNot : ∀ f, P f → P (F_Not f)).
(** Induction through the lists of conjuncts and disjuncts *)
Fixpoint filter_expr_induction (e : FilterExpr) : P e :=
  let each := fix each (fs : list FilterExpr) : Forall P fs :=
    match fs with
    | [] => Forall_nil_2 P
    | f :: fs => Forall_cons_2 P f fs (filter_expr_induction f) (each fs)
    end in
  match e with
  | F_Eq f v => HEq f v
  | F_In f vs => HIn f vs
  | F_Range f lo hi => HRange f lo hi
  | F_GeoWithin f poly => HWithin f poly
  | F_GeoRadius f c km => HRadius f c km
  | F_And fs => HAnd fs (each fs)
  | F_Or fs => HOr fs (each fs)
  | F_Not f => HNot f (filter_expr_induction f)
  end.
End filter_expr_ind.

(** The meaning of a filter over the facts *)
Definition key_test {K} (key : MetadataValue → option K) (test : K → bool) (x : MetadataValue) : bool :=
  match key x with Some k => test k | None => false end.
Definition in_polygon (poly : GeoPolygon) (point : N) : bool := default false (contains_point poly (unpack_geo_point point)).
Definition in_radius `{!GeoMath} (center : GeoPoint) (km : f64) (point : N) : bool :=
  f64_le (haversine_distance_km center (unpack_geo_point point)) km.

Fixpoint matches `{!GeoMath} (facts : Facts) (total v : N) (expr : FilterExpr) : bool :=
  match expr with
  | F_Eq f x => has facts v f (λ y, bool_decide (to_string_key y = to_string_key x))
  | F_In f xs => has facts v f (λ y, existsb (λ x, bool_decide (to_string_key y = to_string_key x)) xs)
  | F_Range f lo hi => has facts v f (key_test to_i64_scaled (λ k, (scale lo <=? k)%Z && (k <=? scale hi)%Z))
  | F_GeoWithin f poly => has facts v f (key_test packed_geo_value (in_polygon poly))
  | F_GeoRadius f c km => has facts v f (key_test packed_geo_value (in_radius c km))
  | F_And [] => false
  | F_And fs => forallb (matches facts total v) fs
  | F_Or fs => existsb (matches facts total v) fs
  | F_Not e => (v <? total `mod` u32_modulus)%N && negb (matches facts total v e)
  end.

(** The filters and values for which evaluation agrees with what [FilterExpr]
    says: no conjunction is empty, and the field of a range holds only floats that
    are numbers and, in millionths, like the bounds, inside [i64].  (Integers are
    compared unscaled, an empty conjunction matches nothing.) *)
Definition measured (x : f64) : bool := negb (f64_is_nan x) && (- 2 ^ 63 <? scale x)%Z && (scale x <? 2 ^ 63 - 1)%Z.
Definition float_field (facts : Facts) (f : string) : bool :=
  forallb (λ e, negb (bool_decide (e.1.2 = f)) || match e.2 with MFloat x => measured x | _ => false end) facts.
Fixpoint filter_plain (facts : Facts) (expr : FilterExpr) : bool :=
  match expr with
  | F_Range f lo hi => measured lo && measured hi && float_field facts f
  | F_And fs => negb (bool_decide (fs = [])) && forallb (filter_plain facts) fs
  | F_Or fs => forallb (filter_plain facts) fs
  | F_Not e => filter_plain facts e
  | _ => true
  end.

(** The documented meaning: values are compared by their text, floats of a range
    in whole millionths. *)
Fixpoint satisfies `{!GeoMath} (facts : Facts) (total v : N) (expr : FilterExpr) : bool :=
  match expr with
  | F_Eq f x => has facts v f (λ y, bool_decide (to_string_key y = to_string_key x))
  | F_In f xs => has facts v f (λ y, existsb (λ x, bool_decide (to_string_key y = to_string_key x)) xs)
  | F_Range f lo hi =>
      has facts v f (λ y, match y with MFloat x => (scale lo <=? scale x)%Z && (scale x <=? scale hi)%Z | _ => false end)
  | F_GeoWithin f poly => has facts v f (key_test packed_geo_value (in_polygon poly))
  | F_GeoRadius f c km => has facts v f (key_test packed_geo_value (in_radius c km))
  | F_And fs => forallb (satisfies facts total v) fs
  | F_Or fs => existsb (satisfies facts total v) fs
  | F_Not e => (v <? total `mod` u32_modulus)%N && negb (satisfies facts total v e)
  end.

Lemma has_ext (facts : Facts) v f test test' :
  (∀ x, (v, f, x) ∈ facts → test x = test' x) → has facts v f test = has facts v f test'.
Proof.
  intros Hx. apply eq_bool_prop_intro. rewrite !Is_true_true, !has_spec. split; intros (x & Hin & Ht); exists x;
    (split; [done|]); [by rewrite <- Hx|by rewrite Hx].
Qed.

Lemma float_field_spec facts v f x : float_field facts f = true → (v, f, x) ∈ facts → ∃ y, x = MFloat y.
Proof.
  intros Hf Hin. unfold float_field in Hf. rewrite forallb_forall in Hf. apply list_elem_of_In in Hin.
  specialize (Hf _ Hin). cbn in Hf. rewrite bool_decide_true in Hf by done. destruct x; naive_solver.
Qed.

Lemma matches_satisfies `{!GeoMath} facts total v expr :
  filter_plain facts expr = true → matches facts total v expr = satisfies facts total v expr.
Proof.
  induction expr as [| |f lo hi| | |fs IH|fs IH|e IH] using filter_expr_induction; intros Hp; cbn in *; try done.
  - apply has_ext. intros x Hin. apply andb_true_iff in Hp as [_ Hf].
    by destruct (float_field_spec facts v f x Hf Hin) as [y ->].
  - apply andb_true_iff in Hp as [Hne Hp]. destruct fs as [|e fs]; [done|].
    change (forallb (matches facts total v) (e :: fs) = forallb (satisfies facts total v) (e :: fs)).
    apply eq_bool_prop_intro. rewrite !Is_true_true, !forallb_forall. rewrite forallb_forall in Hp. rewrite Forall_forall in IH.
    split; intros Hm e' Hin; [rewrite <- IH|rewrite IH]; auto; by apply list_elem_of_In.
  - apply eq_bool_prop_intro. rewrite !Is_true_true, !existsb_exists. rewrite forallb_forall in Hp. rewrite Forall_forall in IH.
    split; intros (e & Hin & He); exists e; (split; [done|]); [rewrite <- IH|rewrite IH]; auto; by apply list_elem_of_In.
  - by rewrite IH.
Qed.

Section keyed.
Context {B : Type} `{!Roaring B, !RoaringLaws B, !RoaringSets B, !RoaringSetsLaws B}.
Context {K : Type} `{Countable K} (key : MetadataValue → option K).
Implicit Types (p : Postings K B) (facts : Facts).

Lemma posts_test p facts v f test :
  posts key p facts →
  has facts v f (key_test key test) = true ↔ ∃ k, posted p f k v = true ∧ test k = true.
Proof.
  intros Hp. rewrite has_spec. unfold key_test. split.
  - intros (x & Hin & Ht). destruct (key x) as [k|] eqn:E; [|done]. exists k. split; [|done]. apply Hp. eauto.
  - intros (k & (x & Hin & Hx)%Hp & Ht). exists x. by rewrite Hx.
Qed.

Lemma foldl_or bs b v : roaring_contains v (foldl roaring_or b bs) = roaring_contains v b || existsb (roaring_contains v) bs.
Proof.
  revert b. induction bs as [|b' bs IH]; intros b; cbn; [by rewrite orb_false_r|].
  by rewrite IH, contains_or, orb_assoc.
Qed.

Lemma union_all_spec bs v : roaring_contains v (union_all bs) = existsb (roaring_contains v) bs.
Proof. unfold union_all. by rewrite foldl_or, contains_new. Qed.

(** The union of the bitmaps a test selects, over a list of keys that holds those
    of the map *)
Lemma union_keys (m : gmap K B) (ks : list K) (test : K → bool) p f v :
  (∀ k, is_Some (m !! k) → test k = true → k ∈ ks) → p !! f = Some m →
  roaring_contains v (union_all (omap (λ k, if test k then m !! k else None) ks)) = true ↔
    ∃ k, posted p f k v = true ∧ test k = true.
Proof.
  intros Hks Hm. rewrite union_all_spec, existsb_exists. setoid_rewrite <- list_elem_of_In.
  unfold posted. rewrite Hm. cbn [mbind option_bind]. split.
  - intros (b & (k & _ & Hb)%list_elem_of_omap & Hv). exists k. destruct (test k); [|done]. by rewrite Hb.
  - intros (k & Hv & Ht). destruct (m !! k) as [b|] eqn:Hk; cbn in Hv; unfold id in Hv; [|by rewrite contains_new in Hv].
    exists b. split; [|done]. apply list_elem_of_omap. exists k. rewrite Ht. eauto.
Qed.

Lemma unposted p f k v : p !! f = None → posted p f k v = false.
Proof. intros Hp. unfold posted. rewrite Hp. cbn. unfold id. apply contains_new. Qed.
End keyed.

Section evaluation.
Context {B : Type} `{!Roaring B, !RoaringLaws B, !RoaringSets B, !RoaringSetsLaws B}.
Context `{!HashOrderOf string, !HashOrderOf N, !GeoMath}.
Implicit Types (i : MetadataInvertedIndex B) (facts : Facts).

Definition text_key (x : MetadataValue) : option string := Some (to_string_key x).

(** The index holds the facts. *)
Definition indexed i facts : Prop :=
  posts text_key (categorical i) facts ∧ posts to_i64_scaled (numeric i) facts ∧ posts packed_geo_value (spatial i) facts.

Lemma lookup_omap_entries {K} `{Countable K} (m : gmap K B) ks (P : K → bool) :
  (filter (λ e, P e.1) (omap (λ k, pair k <$> m !! k) ks)).*2 = omap (λ k, if P k then m !! k else None) ks.
Proof.
  induction ks as [|k ks IH]; [done|]. cbn [omap list_omap]. destruct (m !! k) as [b|]; cbn [fmap option_fmap option_map].
  - destruct (P k) eqn:E.
    + rewrite filter_cons_True by (cbn; by rewrite E). cbn [fmap list_fmap snd]. by f_equal.
    + rewrite filter_cons_False by (cbn; rewrite E; by intros []). apply IH.
  - destruct (P k); apply IH.
Qed.

Lemma points_where_total (m : gmap N B) test t :
  (∀ p, test p = Some (t p)) →
  points_where test m = Some (omap (λ k, if t (unpack_geo_point k) then m !! k else None) (iter_order (dom m))).
Proof.
  intros Ht. unfold points_where. generalize (iter_order (dom m)) as ks. intros ks.
  assert (mapM (λ k, r ← test (unpack_geo_point k); Some (if r : bool then m !! k else None)) ks =
    Some ((λ k, if t (unpack_geo_point k) then m !! k else None) <$> ks)) as ->.
  { apply mapM_Some, Forall2_fmap_r, Forall_Forall2_diag, Forall_true. intros k. by rewrite Ht. }
  cbn [mbind option_bind]. f_equal. induction ks as [|k ks IH]; [done|]. cbn.
  destruct (if t _ then _ else _); cbn; by rewrite IH.
Qed.

Lemma dom_keys (m : gmap N B) k : is_Some (m !! k) → k ∈ iter_order (dom m).
Proof. intros Hk. rewrite iter_order_perm. by apply elem_of_elements, elem_of_dom. Qed.

(** A spatial query is the union of the points that pass the test. *)
Lemma points_spec p facts f test t :
  posts packed_geo_value p facts → (∀ q, test q = Some (t q)) →
  ∃ b, match p !! f with
       | Some m => bs ← points_where test m; Some (union_all bs)
       | None => Some roaring_new
       end = Some b ∧
    ∀ v, roaring_contains v b = has facts v f (key_test packed_geo_value (λ k, t (unpack_geo_point k))).
Proof.
  intros Hp Ht. destruct (p !! f) as [m|] eqn:Hm.
  - rewrite (points_where_total m test t Ht). eexists. split; [done|]. intros v. apply eq_true_iff_eq.
    rewrite (posts_test _ p) by done. eapply union_keys; [|done]. intros. by apply dom_keys.
  - eexists. split; [done|]. intros v. rewrite contains_new. symmetry. apply not_true_iff_false.
    rewrite (posts_test _ p) by done. intros (k & Hk & _). by rewrite unposted in Hk.
Qed.

Lemma conj_loop_spec (eval : FilterExpr → option B) (sat : N → FilterExpr → bool) fs : ∀ r,
  Forall (λ f, ∃ b, eval f = Some b ∧ ∀ v, roaring_contains v b = sat v f) fs →
  ∃ b, conj_loop eval r fs = Some b ∧ ∀ v, roaring_contains v b = roaring_contains v r && forallb (sat v) fs.
Proof.
  induction fs as [|f fs IH]; intros r Hfs; cbn.
  { eexists. split; [done|]. intros v. by rewrite andb_true_r. }
  apply Forall_cons in Hfs as [(b & -> & Hb) Hfs]. destruct (roaring_is_empty r) eqn:E.
  - exists r. split; [done|]. intros v. by rewrite (proj1 (is_empty_spec r) E v).
  - destruct (IH (roaring_and r b) Hfs) as (b' & Hb' & Hv). exists b'. split; [done|]. intros v.
    by rewrite Hv, contains_and, Hb, andb_assoc.
Qed.

Lemma disj_loop_spec (eval : FilterExpr → option B) (sat : N → FilterExpr → bool) fs : ∀ r,
  Forall (λ f, ∃ b, eval f = Some b ∧ ∀ v, roaring_contains v b = sat v f) fs →
  ∃ b, disj_loop eval r fs = Some b ∧ ∀ v, roaring_contains v b = roaring_contains v r || existsb (sat v) fs.
Proof.
  induction fs as [|f fs IH]; intros r Hfs; cbn.
  { eexists. split; [done|]. intros v. by rewrite orb_false_r. }
  apply Forall_cons in Hfs as [(b & -> & Hb) Hfs].
  destruct (IH (roaring_or r b) Hfs) as (b' & Hb' & Hv). exists b'. split; [done|]. intros v.
  by rewrite Hv, contains_or, Hb, orb_assoc.
Qed.

Lemma eq_spec i facts f x v : indexed i facts →
  roaring_contains v (default roaring_new (m ← categorical i !! f; lookup_categorical m x)) =
    has facts v f (λ y, bool_decide (to_string_key y = to_string_key x)).
Proof.
  intros (Hc & _). apply eq_true_iff_eq. etrans; [apply (Hc f (to_string_key x) v)|]. rewrite has_spec.
  setoid_rewrite bool_decide_eq_true. unfold text_key.
  split; intros (y & Hy & He); exists y; split; try done; [by injection He|by f_equal].
Qed.

Lemma in_spec i facts f xs v : indexed i facts →
  roaring_contains v (match categorical i !! f with
    | Some m => union_all (omap (lookup_categorical m) xs) | None => roaring_new end) =
    has facts v f (λ y, existsb (λ x, bool_decide (to_string_key y = to_string_key x)) xs).
Proof.
  intros Hi. transitivity (existsb (λ x, has facts v f (λ y, bool_decide (to_string_key y = to_string_key x))) xs).
  - destruct (categorical i !! f) as [m|] eqn:Hm.
    + rewrite union_all_spec. induction xs as [|x xs IH]; [done|]. cbn [omap list_omap existsb].
      rewrite <- (eq_spec i facts f x v Hi), Hm, <- IH. cbn [mbind option_bind].
      destruct (lookup_categorical m x); cbn; unfold id; [done|]. by rewrite contains_new.
    + rewrite contains_new. symmetry. apply not_true_iff_false. rewrite existsb_exists. intros (x & _ & Hx).
      rewrite <- (eq_spec i facts f x v Hi), Hm in Hx. cbn in Hx. unfold id in Hx. by rewrite contains_new in Hx.
  - apply eq_true_iff_eq. rewrite existsb_exists, has_spec. split.
    + intros (x & Hx & (y & Hy & He)%has_spec). exists y. split; [done|]. apply existsb_exists. eauto.
    + intros (y & Hy & (x & Hx & He)%existsb_exists). exists x. split; [done|]. apply has_spec. eauto.
Qed.

Lemma range_spec (p : Postings Z B) key facts f lo hi : posts key p facts → (lo <=? hi)%Z = true →
  ∃ b, match p !! f with
       | Some m => es ← btree_range lo hi m; Some (union_all es.*2)
       | None => Some roaring_new
       end = Some b ∧
    ∀ v, roaring_contains v b = has facts v f (key_test key (λ k, (lo <=? k)%Z && (k <=? hi)%Z)).
Proof.
  intros Hn Hle%Z.leb_le. destruct (p !! f) as [m|] eqn:Hm.
  - unfold btree_range. rewrite (proj2 (Z.ltb_ge hi lo) Hle). cbn [mbind option_bind]. eexists. split; [done|]. intros v.
    apply eq_true_iff_eq. rewrite (posts_test _ p) by done. rewrite <- union_keys; [|..|done].
    + unfold btree_entries. rewrite <- (lookup_omap_entries m (merge_sort Z.le (elements (dom m))) (λ k, (lo <=? k)%Z && (k <=? hi)%Z)).
      f_equiv. f_equal. f_equal. f_equal. apply list_filter_iff. intros [k b]. cbn.
      rewrite Is_true_true, andb_true_iff, !Z.leb_le. done.
    + intros k Hk _. rewrite merge_sort_Permutation. by apply elem_of_elements, elem_of_dom.
  - eexists. split; [done|]. intros v. rewrite contains_new. symmetry. apply not_true_iff_false.
    rewrite (posts_test _ p) by done. intros (k & Hk & _). by rewrite unposted in Hk.
Qed.

(** The bitmap of a filter holds the nodes it matches. *)
Lemma eval_internal_spec i facts total expr : indexed i facts → filter_ok expr = true →
  ∃ b, eval_internal total i expr = Some b ∧ ∀ v, roaring_contains v b = matches facts total v expr.
Proof.
  intros Hi. induction expr as [f x|f xs|f lo hi|f poly|f c km|fs IH|fs IH|e IH] using filter_expr_induction;
    cbn [filter_ok eval_internal matches]; intros Hok.
  - eexists. split; [done|]. intros v. by apply eq_spec.
  - eexists. split; [done|]. intros v. by apply in_spec.
  - apply range_spec; [apply Hi|done].
  - destruct (points_spec (spatial i) facts f (contains_point poly) (λ p, default false (contains_point poly p)))
      as (b & Hb & Hv); [apply Hi|..|by exists b].
    intros p. apply negb_true_iff, bool_decide_eq_false in Hok. unfold contains_point.
    destruct (box2d_contains _ _); [|done]. destruct (last (exterior_ring poly)) eqn:E; [done|].
    by apply last_None in E; rewrite E in Hok.
  - destruct (points_spec (spatial i) facts f (λ p, Some (f64_le (haversine_distance_km c p) km))
      (λ p, f64_le (haversine_distance_km c p) km)) as (b & Hb & Hv); [apply Hi|done|by exists b].
  - assert (Forall (λ f, ∃ b, eval_internal total i f = Some b ∧ ∀ v, roaring_contains v b = matches facts total v f) fs) as Hfs.
    { apply Forall_forall. intros f Hf. rewrite Forall_forall in IH. apply (IH f Hf).
      by apply (proj1 (forallb_forall _ _) Hok), list_elem_of_In. }
    destruct fs as [|f fs]; [exists roaring_new; split; [done|]; intros; apply contains_new|].
    apply Forall_cons in Hfs as [(b & -> & Hb) Hfs].
    destruct (conj_loop_spec (eval_internal total i) (λ v, matches facts total v) fs b Hfs) as (b' & Hb' & Hv).
    exists b'. split; [done|]. intros v. by rewrite Hv, Hb.
  - destruct (disj_loop_spec (eval_internal total i) (λ v, matches facts total v) fs roaring_new) as (b & Hb & Hv).
    + apply Forall_forall. intros f Hf. rewrite Forall_forall in IH. apply (IH f Hf).
      by apply (proj1 (forallb_forall _ _) Hok), list_elem_of_In.
    + exists b. split; [done|]. intros v. by rewrite Hv, contains_new.
  - destruct (IH Hok) as (b & -> & Hb). eexists. split; [done|]. intros v.
    rewrite contains_sub, contains_range, Hb, (proj2 (N.leb_le 0 v)) by lia. done.
Qed.

(** The compiled mask of exact texts holds the nodes that have all of them. *)
Definition has_text facts v (e : string * string) : bool := has facts v e.1 (λ y, bool_decide (to_string_key y = e.2)).

Lemma mask_steps i facts es : indexed i facts → ∀ b,
  ∃ b', foldl (mask_step i) (Some b) es = Some b' ∧
    ∀ v, roaring_contains v b' = roaring_contains v b && forallb (has_text facts v) es.
Proof.
  intros Hi. induction es as [|[f t] es IH]; intros b; cbn [foldl forallb].
  { exists b. split; [done|]. intros v. by rewrite andb_true_r. }
  destruct (IH (roaring_and b (default roaring_new (m ← categorical i !! f; m !! t)))) as (b' & Hb' & Hv).
  exists b'. split; [done|]. intros v. rewrite Hv, contains_and, <- andb_assoc. f_equal. f_equal.
  apply (eq_spec i facts f (MString t) v Hi).
Qed.

Lemma compile_filter_mask_spec i facts exact : indexed i facts → exact ≠ ∅ →
  ∃ b, compile_filter_mask exact i = Some b ∧ ∀ v, roaring_contains v b = forallb (has_text facts v) (hash_entries exact).
Proof.
  intros Hi Hne. unfold compile_filter_mask. rewrite bool_decide_false by done.
  destruct (hash_entries exact) as [|[f t] es] eqn:E.
  { exfalso. apply Hne, map_empty. intros f. destruct (exact !! f) eqn:Hf; [|done].
    apply hash_entries_spec in Hf. rewrite E in Hf. by apply elem_of_nil in Hf. }
  destruct (mask_steps i facts es Hi (default roaring_new (m ← categorical i !! f; m !! t))) as (b & Hb & Hv).
  exists b. split; [done|]. intros v. rewrite Hv. cbn [forallb]. f_equal. apply (eq_spec i facts f (MString t) v Hi).
Qed.
End evaluation.

(** ** Operations

    Indexing, indexing a batch, indexing a JSON document, removing a node with its
    metadata, removing it from every posting, and reloading exported postings. *)

Lemma split_comma_none l : Forall (λ c, c ≠ ","%char) l → split_comma l = None.
Proof.
  induction 1 as [|c l Hc _ IH]; [done|]. cbn. rewrite (proj2 (Ascii.eqb_neq _ _) Hc). by rewrite IH.
Qed.

(** The text has no comma. *)
Fixpoint plain (s : string) : Prop := match s with "" => True | String c s => c ≠ ","%char ∧ plain s end.

Lemma plain_app s t : plain s → plain t → plain (s +:+ t).
Proof. induction s as [|c s IH]; [done|]. cbn. naive_solver. Qed.

Lemma plain_geo s : plain s → packed_geo_str s = None.
Proof.
  intros Hs. unfold packed_geo_str. rewrite split_comma_none; [done|].
  induction s as [|c s IH]; cbn in *; constructor; naive_solver.
Qed.

Lemma plain_digit x : (x < 10)%N → pretty_N_char x ≠ ","%char.
Proof.
  intros Hx. assert (x = 0 ∨ x = 1 ∨ x = 2 ∨ x = 3 ∨ x = 4 ∨ x = 5 ∨ x = 6 ∨ x = 7 ∨ x = 8 ∨ x = 9)%N as H by lia.
  repeat destruct H as [->|H]; [done..|]. by subst.
Qed.

Lemma plain_go x s : plain s → plain (pretty_N_go x s).
Proof.
  revert s. induction (N.lt_wf_0 x) as [x _ IH]. intros s Hs. destruct (decide (x = 0%N)) as [->|Hx]; [done|].
  rewrite pretty_N_go_step by lia. apply IH; [by apply N.div_lt; lia|]. cbn. split; [|done].
  apply plain_digit, N.mod_lt. lia.
Qed.

Lemma plain_N (x : N) : plain (pretty x).
Proof. unfold pretty, pretty_N. case_decide; [by cbn|]. by apply plain_go. Qed.

Lemma plain_Z (x : Z) : plain (pretty x).
Proof.
  destruct x as [|p|p]; [by cbn|apply (plain_N (Npos p))|]. apply (plain_app "-"); [by cbn|]. apply (plain_N (Npos p)).
Qed.

Lemma plain_pad k s : plain s → plain (pad_zeros k s).
Proof. induction k; [done|]. intros Hs. apply (plain_app "0"); [by cbn|by apply IHk]. Qed.

Lemma plain_fixed6 x : plain (f64_fixed6 x).
Proof.
  assert (∀ n, plain (pretty (n / 1000000)%N +:+ "." +:+
    pad_zeros (6 - String.length (pretty (n mod 1000000)%N)) (pretty (n mod 1000000)%N))) as Hu.
  { intros n. apply plain_app; [apply plain_N|]. apply (plain_app "."); [by cbn|]. apply plain_pad, plain_N. }
  destruct x as [s|s| |s m e]; unfold f64_fixed6; [| |by cbn|]; destruct s; try apply Hu; try by cbn.
  apply (plain_app "-"); [by cbn|apply Hu].
Qed.

(** The point of a value is the point of its text. *)
Lemma geo_of_text x : packed_geo_str (to_string_key x) = packed_geo_value x.
Proof. destruct x as [s|i|y|b]; [done|apply plain_geo, plain_Z|apply plain_geo, plain_fixed6|destruct b; by vm_compute]. Qed.

Inductive IndexOp :=
  | O_Index (node : N) (metadata : gmap string MetadataValue)
  | O_Batch (batch : list (N * gmap string MetadataValue))
  | O_Json (node : N) (object : list (string * JsonField))
  | O_Remove (node : N) (metadata : gmap string MetadataValue)
  | O_Purge (node : N)
  | O_Reload.

Section operations.
Context {B : Type} `{!Roaring B, !RoaringLaws B, !RoaringSets B, !RoaringSetsLaws B}.
Context `{order : !HashOrderOf string, !HashOrderOf N, !GeoMath}.
Abbreviation Index := (MetadataInvertedIndex B).
Implicit Types (i : Index) (facts : Facts).

Definition run_op (o : IndexOp) (i : Index) : Index :=
  match o with
  | O_Index n m => index_node n m i
  | O_Batch b => index_nodes_batch b i
  | O_Json n obj => insert_metadata n obj i
  | O_Remove n m => remove_node n m i
  | O_Purge n => remove_node_index n i
  | O_Reload => import_postings (export_postings i).1 (export_postings i).2 index_new
  end.

(** What each operation states of the nodes: a number of a JSON document counts as
    its text, and a removal lists what the node was indexed with. *)
Definition node_facts (n : N) (es : list (string * MetadataValue)) : Facts := (λ e, (n, e.1, e.2)) <$> es.
Definition json_facts (n : N) (obj : list (string * JsonField)) : Facts :=
  omap (λ e, (λ s, (n, e.1, MString s)) <$> json_text e.2) obj.
Definition op_facts (o : IndexOp) (facts : Facts) : Facts :=
  match o with
  | O_Index n m => facts ++ node_facts n (hash_entries m)
  | O_Batch b => facts ++ (b ≫= λ e, node_facts e.1 (hash_entries e.2))
  | O_Json n obj => facts ++ json_facts n obj
  | O_Remove n _ | O_Purge n => filter (λ e, e.1.1 ≠ n) facts
  | O_Reload => facts
  end.
Definition op_ok (o : IndexOp) (facts : Facts) : bool :=
  match o with
  | O_Remove n m => forallb (λ e, negb (e.1.1 =? n)%N || existsb (λ e', bool_decide (e'.1 = e.1.2) &&
      bool_decide (to_string_key e'.2 = to_string_key e.2) && bool_decide (to_i64_scaled e'.2 = to_i64_scaled e.2)) (hash_entries m)) facts
  | _ => true
  end.
Fixpoint ops_ok (os : list IndexOp) (facts : Facts) : bool :=
  match os with [] => true | o :: os => op_ok o facts && ops_ok os (op_facts o facts) end.
Definition run_ops (os : list IndexOp) (i : Index) : Index := foldl (λ i o, run_op o i) i os.
Definition ops_facts (os : list IndexOp) : Facts := foldl (λ facts o, op_facts o facts) [] os.

Lemma indexed_pair n i facts e : indexed i facts → indexed (index_pair n i e) (facts ++ [(n, e.1, e.2)]).
Proof.
  destruct e as [f x]. intros (Hc & Hn & Hs).
  split_and!; [exact (posts_insert text_key _ facts n f x Hc)|by apply posts_insert..].
Qed.

Lemma indexed_pairs n es : ∀ i facts, indexed i facts → indexed (foldl (index_pair n) i es) (facts ++ node_facts n es).
Proof.
  induction es as [|e es IH]; intros i facts Hi; cbn; [by rewrite app_nil_r|].
  rewrite (cons_middle _ facts), app_assoc. apply IH. by apply indexed_pair.
Qed.

Lemma indexed_batch b : ∀ i facts, indexed i facts →
  indexed (index_nodes_batch b i) (facts ++ (b ≫= λ e, node_facts e.1 (hash_entries e.2))).
Proof.
  induction b as [|e b IH]; intros i facts Hi; [by rewrite app_nil_r|].
  rewrite bind_cons, app_assoc. apply (IH (index_node e.1 e.2 i)). by apply indexed_pairs.
Qed.

Lemma indexed_json n obj : ∀ i facts, indexed i facts → indexed (insert_metadata n obj i) (facts ++ json_facts n obj).
Proof.
  unfold insert_metadata, json_facts. induction obj as [|[f j] obj IH]; intros i facts Hi; cbn; [by rewrite app_nil_r|].
  unfold insert_json_field at 2. cbn [snd fst]. destruct (json_text j) as [s|]; cbn; [|by apply IH].
  rewrite (cons_middle _ facts), app_assoc. apply IH. exact (indexed_pair n i facts (f, MString s) Hi).
Qed.

Lemma op_ok_remove n m facts f x : op_ok (O_Remove n m) facts = true → (n, f, x) ∈ facts →
  ∃ y, (f, y) ∈ hash_entries m ∧ to_string_key y = to_string_key x ∧ to_i64_scaled y = to_i64_scaled x.
Proof.
  intros Hok Hin. cbn in Hok. rewrite forallb_forall in Hok. apply list_elem_of_In, Hok in Hin. cbn in Hin.
  rewrite N.eqb_refl in Hin. apply existsb_exists in Hin as ([f' y] & Hy & Ht). cbn in Ht.
  rewrite !andb_true_iff, !bool_decide_eq_true in Ht. destruct Ht as [[-> Ht] Hs].
  exists y. by rewrite list_elem_of_In.
Qed.

(** Removing what a node was indexed with *)
Lemma posts_remove_node {K} `{Countable K} (key : MetadataValue → option K) (p : Postings K B) facts n es :
  posts key p facts →
  (∀ f x, (n, f, x) ∈ facts → ∃ y, (f, y) ∈ es ∧ key y = key x) →
  posts key (foldl (λ p e, posting_remove_opt e.1 (key e.2) n p) p es) (filter (λ e, e.1.1 ≠ n) facts).
Proof.
  intros Hp Hes f k v. rewrite posts_remove_all, (Hp f k v). setoid_rewrite list_elem_of_filter. cbn. split.
  - intros [(x & Hin & Hk) Hno]. exists x. split_and!; try done. intros ->. apply Hno. split; [done|].
    destruct (Hes f x Hin) as (y & Hy & He). exists y. by rewrite He.
  - intros (x & [Hne Hin] & Hk). split; [by exists x|]. intros [-> _]. done.
Qed.

Lemma remove_node_split n es : ∀ i, foldl (remove_pair n) i es =
  mkIndex (foldl (λ p e, posting_remove_opt e.1 (text_key e.2) n p) (categorical i) es)
          (foldl (λ p e, posting_remove_opt e.1 (to_i64_scaled e.2) n p) (numeric i) es)
          (foldl (λ p e, posting_remove_opt e.1 (packed_geo_value e.2) n p) (spatial i) es).
Proof. induction es as [|[f x] es IH]; intros i; cbn [foldl]; [by destruct i|]. by rewrite IH. Qed.

Lemma indexed_remove n m i facts : indexed i facts → op_ok (O_Remove n m) facts = true →
  indexed (remove_node n m i) (filter (λ e, e.1.1 ≠ n) facts).
Proof.
  intros (Hc & Hn & Hs) Hok. unfold remove_node. rewrite remove_node_split.
  split_and!; apply posts_remove_node; try done; intros f x Hin;
    destruct (op_ok_remove n m facts f x Hok Hin) as (y & Hy & Ht & Hi); exists y; split; try done.
  - unfold text_key. by rewrite Ht.
  - by rewrite <- !geo_of_text, Ht.
Qed.

(** *** Rebuilding the spatial postings from the texts *)

Lemma posted_add_spatial (s : Postings N B) field e f k v :
  posted (add_spatial field s e) f k v = true ↔
    posted s f k v = true ∨ (field = f ∧ packed_geo_str e.1 = Some k ∧ roaring_contains v e.2 = true).
Proof.
  unfold add_spatial. destruct (packed_geo_str e.1) as [pt|]; [|naive_solver].
  unfold posted. destruct (decide (field = f)) as [->|Hf]; [|rewrite lookup_insert_ne by done; naive_solver].
  rewrite lookup_insert_eq. cbn [mbind option_bind]. set (m := default ∅ (s !! f)).
  assert (default roaring_new (s !! f ≫= λ m, m !! k) = default roaring_new (m !! k)) as ->.
  { unfold m. destruct (s !! f); cbn [mbind option_bind default]; unfold id; [done|]. by rewrite lookup_empty. }
  destruct (decide (pt = k)) as [->|Hk]; [|rewrite lookup_insert_ne by done; naive_solver].
  rewrite lookup_insert_eq. unfold default at 1, id at 1. rewrite contains_or, orb_true_iff. naive_solver.
Qed.

Lemma posted_add_spatials field es : ∀ (s : Postings N B) f k v,
  posted (foldl (add_spatial field) s es) f k v = true ↔
    posted s f k v = true ∨ (field = f ∧ ∃ e, e ∈ es ∧ packed_geo_str e.1 = Some k ∧ roaring_contains v e.2 = true).
Proof.
  induction es as [|e es IH]; intros s f k v; cbn [foldl].
  - split; [by left|]. intros [|(_ & e & He & _)]; [done|]. by apply elem_of_nil in He.
  - rewrite IH, posted_add_spatial. split.
    + intros [[?|(-> & ? & ?)]|(-> & e' & ? & ?)]; [by left|right..]; (split; [done|]).
      * exists e. split; [by apply elem_of_cons; left|done].
      * exists e'. split; [by apply elem_of_cons; right|done].
    + intros [?|(-> & e' & [->|?]%elem_of_cons & ? & ?)]; [by left; left|by left; right|].
      right. split; [done|]. by exists e'.
Qed.

Lemma posted_fields (c : list (string * gmap string B)) : ∀ (s : Postings N B) f k v,
  posted (foldl (λ s e, foldl (add_spatial e.1) s (hash_entries e.2)) s c) f k v = true ↔
    posted s f k v = true ∨ ∃ m t b, (f, m) ∈ c ∧ m !! t = Some b ∧ packed_geo_str t = Some k ∧ roaring_contains v b = true.
Proof.
  induction c as [|[f0 m0] c IH]; intros s f k v; cbn [foldl].
  { split; [by left|]. intros [|(m & t & b & Hm & _)]; [done|]. by apply elem_of_nil in Hm. }
  rewrite IH, posted_add_spatials. cbn [fst snd]. split.
  - intros [[?|(-> & [t b] & He%hash_entries_spec & Hg & Hv)]|(m & t & b & Hm & ?)]; [by left|right..].
    + exists m0, t, b. split_and!; try done. apply elem_of_cons. by left.
    + exists m, t, b. split; [|done]. apply elem_of_cons. by right.
  - intros [?|(m & t & b & [[= -> ->]|Hm]%elem_of_cons & Hb & Hg & Hv)]; [by left; left|left; right|right].
    + split; [done|]. exists (t, b). split_and!; try done. by apply hash_entries_spec.
    + exists m, t, b. done.
Qed.

Lemma indexed_reload i facts : indexed i facts → indexed (run_op O_Reload i) facts.
Proof.
  intros (Hc & Hn & Hs). split_and!; [done..|]. cbn. intros f k v. unfold spatial_postings_from_categorical.
  rewrite posted_fields. rewrite unposted by apply lookup_empty. split.
  - intros [?|(m & t & b & Hm%hash_entries_spec & Hb & Hg & Hv)]; [done|].
    assert (posted (categorical i) f t v = true) as (x & Hx & [= <-])%Hc.
    { unfold posted. rewrite Hm. cbn [mbind option_bind]. rewrite Hb. done. }
    exists x. split; [done|]. by rewrite <- geo_of_text.
  - intros (x & Hx & Hg). right. assert (posted (categorical i) f (to_string_key x) v = true) as Hp by (apply Hc; eauto).
    unfold posted in Hp. destruct (categorical i !! f) as [m|] eqn:Hm.
    2: { cbn in Hp. unfold id in Hp. by rewrite contains_new in Hp. }
    cbn [mbind option_bind] in Hp. destruct (m !! to_string_key x) as [b|] eqn:Hb.
    2: { cbn in Hp. unfold id in Hp. by rewrite contains_new in Hp. }
    exists m, (to_string_key x), b. rewrite geo_of_text. split_and!; try done. by apply hash_entries_spec.
Qed.

Lemma indexed_op o i facts : indexed i facts → op_ok o facts = true → indexed (run_op o i) (op_facts o facts).
Proof.
  intros Hi Hok. destruct o as [n m|b|n obj|n m|n|]; cbn [run_op op_facts].
  - by apply indexed_pairs.
  - by apply indexed_batch.
  - by apply indexed_json.
  - by apply indexed_remove.
  - destruct Hi as (? & ? & ?). split_and!; by apply posts_purge.
  - by apply indexed_reload.
Qed.

Lemma indexed_ops os : ∀ i facts, indexed i facts → ops_ok os facts = true →
  indexed (run_ops os i) (foldl (λ facts o, op_facts o facts) facts os).
Proof.
  induction os as [|o os IH]; intros i facts Hi Hok; [done|]. cbn in Hok. apply andb_true_iff in Hok as [Ho Hok].
  apply IH; [|done]. by apply indexed_op.
Qed.

Lemma indexed_new : indexed index_new [].
Proof.
  assert (∀ K `{Countable K} (key : MetadataValue → option K), posts key (∅ : Postings K B) []) as Hall.
  { intros K ? ? key f k v. rewrite unposted by apply lookup_empty. split; [done|]. intros (x & Hx & _). by apply elem_of_nil in Hx. }
  split_and!; apply Hall.
Qed.

(** C33: The metadata index evaluates filters as FilterExpr documents them, over
    what was stated of the nodes: after any sequence of indexing calls, batches,
    JSON documents, removals with a node's metadata, removals of a node from
    every posting, and reloads of exported postings (which rebuild the spatial
    ones from their texts), a filter of equalities, memberships, ranges,
    polygons, radii, conjunctions, disjunctions and negations returns a bitmap
    that holds exactly the nodes that satisfy it. The filter has no empty
    conjunction, no empty polygon and no range upside down, and the fields of
    its ranges hold only floats, finite in millionths of an i64; ranges are
    decided to a millionth, equality by the text of the values. *)
Theorem filter_correct os expr total :
  ops_ok os [] = true → filter_ok expr = true → filter_plain (ops_facts os) expr = true →
  ∃ b, evaluate_filter expr total (run_ops os index_new) = Some b ∧
    ∀ v, roaring_contains v b = satisfies (ops_facts os) total v expr.
Proof.
  intros Hos Hok Hp. destruct (eval_internal_spec (run_ops os index_new) (ops_facts os) total expr) as (b & E & Hb);
    [apply indexed_ops; [apply indexed_new|done]|done|].
  exists b. split; [done|]. intros v. by rewrite Hb, matches_satisfies.
Qed.
End operations.

(** ** The interned store *)

(** Ids and terms correspond, there are as many as the tracker counts, and no more
    than the quota admits. *)
Definition interner_ok (i : StringInterner) (t : QuotaTracker) : Prop :=
  (∀ s id, to_id i !! s = Some id ↔ to_str i !! N.to_nat id = Some s) ∧
  current_terms t = lenN (to_str i) ∧ (current_terms t ≤ max_distinct_terms (qt_config t))%N.

Definition small_quota (c : MetadataQuotaConfig) : Prop := (max_distinct_terms c ≤ u32_modulus)%N.

Lemma try_admit_terms bytes terms t : (current_terms t + terms < u64_modulus)%N →
  (current_terms t ≤ max_distinct_terms (qt_config t))%N →
  let '(r, t') := try_admit bytes terms t in
  qt_config t' = qt_config t ∧ (current_terms t' ≤ max_distinct_terms (qt_config t))%N ∧
  match r with Ok _ => current_terms t' = (current_terms t + terms)%N | Err _ => t' = t end.
Proof.
  intros Hsmall Hle. unfold try_admit. assert (u64_add (current_terms t) terms = current_terms t + terms)%N as ->.
  { unfold u64_add, u64_wrap. by rewrite N.mod_small. }
  destruct (_ <? _)%N; [done|]. destruct (_ <? _)%N eqn:E; [done|]. apply N.ltb_ge in E. done.
Qed.

(** Interning is a bijection: a term keeps its id, and the id resolves to it. *)
Lemma intern_term_ok s i t : interner_ok i t → small_quota (qt_config t) →
  let '(r, i', t') := intern_term s i t in
  interner_ok i' t' ∧ qt_config t' = qt_config t ∧ (∀ s' id, to_id i !! s' = Some id → to_id i' !! s' = Some id) ∧
  match r with Ok id => to_id i' !! s = Some id ∧ resolve_term id i' = Some s | Err _ => i' = i end.
Proof.
  intros (Hi & Hn & Hle) Hq. unfold small_quota, u32_modulus in Hq. unfold intern_term.
  destruct (to_id i !! s) as [id|] eqn:E. { unfold resolve_term. pose proof (proj1 (Hi s id) E). done. }
  pose proof (try_admit_terms (term_bytes s) 1 t) as Ht. unfold u64_modulus in Ht. specialize (Ht ltac:(lia) Hle).
  destruct (try_admit _ 1 t) as [[[]|e] t']; destruct Ht as (Hc & Hle' & Ht'); [|by subst].
  unfold u32_modulus. assert (lenN (to_str i) `mod` 4294967296 = lenN (to_str i))%N as -> by (apply N.mod_small; lia).
  assert (N.to_nat (lenN (to_str i)) = length (to_str i)) as Hlen by (unfold lenN; lia).
  unfold interner_ok, resolve_term. cbn. rewrite Hlen, lookup_app_r, Nat.sub_diag, lookup_insert_eq by lia.
  rewrite Hc, Hn in *. split_and!; try done.
  - intros s' id. destruct (decide (s = s')) as [<-|Hne].
    + rewrite lookup_insert_eq, lookup_app_Some. split; [intros [= <-]; right; by rewrite Hlen, Nat.sub_diag|].
      intros [Hs%Hi|[Hge Hs]]; [congruence|]. apply list_lookup_singleton_Some in Hs as [Hz _]. f_equal. lia.
    + rewrite lookup_insert_ne by done. rewrite Hi, lookup_app_Some. split; [by left|].
      intros [?|[_ Hs]]; [done|]. by apply list_lookup_singleton_Some in Hs as [_ ?].
  - rewrite Ht'. unfold lenN. rewrite length_app. cbn. lia.
  - intros s' id Hs'. rewrite lookup_insert_ne; [done|congruence].
Qed.

Definition store_text (x : MetadataValue) : option string :=
  match x with MString s => Some s | MBoolean b => Some (bool_text b) | _ => None end.
Definition store_number (x : MetadataValue) : option Z :=
  match x with MInteger i => Some i | MFloat x => Some (f64_bits x) | _ => None end.

Inductive StoreOp (B : Type) :=
  | S_Index (slot : N) (metadata : gmap string MetadataValue)
  | S_Compact (live : B).
Arguments S_Index {B} _ _.
Arguments S_Compact {B} _.

Section store.
Context {B : Type} `{!Roaring B, !RoaringLaws B, !RoaringSets B, !RoaringSetsLaws B} `{!HashOrderOf string}.
Implicit Types (s : MetadataStore B) (facts : Facts).

Definition term_key (i : StringInterner) (x : MetadataValue) : option N := t ← store_text x; to_id i !! t.

Definition store_ok s : Prop := interner_ok (ms_interner s) (ms_tracker s) ∧ small_quota (qt_config (ms_tracker s)).

(** The store holds the facts: their terms are interned and their postings there. *)
Definition stored s facts : Prop :=
  store_ok s ∧ (∀ e t, e ∈ facts → store_text e.2 = Some t → is_Some (to_id (ms_interner s) !! t)) ∧
  posts (term_key (ms_interner s)) (categorical_postings s) facts ∧ posts store_number (numeric_postings s) facts.

Lemma posts_ext {K} `{Countable K} (key key' : MetadataValue → option K) (p : Postings K B) facts :
  (∀ e, e ∈ facts → key e.2 = key' e.2) → posts key p facts → posts key' p facts.
Proof.
  intros Hk Hp f k v. rewrite (Hp f k v). split; intros (x & Hin & Hx); exists x; (split; [done|]); pose proof (Hk _ Hin) as E; cbn in E; congruence.
Qed.

(** A larger interner keeps the keys of the facts. *)
Lemma term_key_grows i i' facts (p : Postings N B) :
  (∀ t id, to_id i !! t = Some id → to_id i' !! t = Some id) →
  (∀ e t, e ∈ facts → store_text e.2 = Some t → is_Some (to_id i !! t)) →
  posts (term_key i) p facts → posts (term_key i') p facts.
Proof.
  intros Hg Hf. apply posts_ext. intros e He. unfold term_key. destruct (store_text e.2) as [t|] eqn:E; [|done]. cbn.
  destruct (Hf e t He E) as [id Hid]. by rewrite Hid, (Hg t id Hid).
Qed.

Lemma admit_growth_ok g s facts : stored s facts → stored (admit_growth g s).2 facts.
Proof.
  intros ([(Hi & Hn & Hle) Hq] & Hf & Hc & Hz). unfold admit_growth. destruct (0 <? g)%N; [|done].
  pose proof (try_admit_terms g 0 (ms_tracker s)) as Ht. unfold small_quota, u32_modulus, u64_modulus in *.
  specialize (Ht ltac:(lia) Hle). destruct (try_admit g 0 (ms_tracker s)) as [[[]|e] t'];
    destruct Ht as (Hcfg & Hle' & Ht').
  - cbn. split; [|done]. split; [split_and!|]; cbn; rewrite ?Hcfg; try done. rewrite Ht'. lia.
  - subst t'. cbn. done.
Qed.

Lemma posts_insert_none {K} `{Countable K} (key : MetadataValue → option K) (p : Postings K B) facts n f x :
  key x = None → posts key p facts → posts key p (facts ++ [(n, f, x)]).
Proof. intros Hx Hp. pose proof (posts_insert key p facts n f x Hp) as Hq. by rewrite Hx in Hq. Qed.

Lemma index_number_ok slot f x n counted s facts : store_text x = None → store_number x = Some n → stored s facts →
  stored (index_number slot f n counted s).2 (facts ++ [(slot, f, x)]).
Proof.
  intros Ht Hn (Hok & Hf & Hc & Hz). unfold index_number.
  match goal with |- context [admit_growth _ ?s'] => assert (stored s' (facts ++ [(slot, f, x)])) as Hst end.
  { split_and!; cbn; try done.
    - intros e t [He|He%list_elem_of_singleton]%elem_of_app; [by apply Hf|]. subst e. cbn. congruence.
    - apply posts_insert_none; [|done]. unfold term_key. by rewrite Ht.
    - pose proof (posts_insert store_number _ facts slot f x Hz) as Hp. by rewrite Hn in Hp. }
  destruct counted; [by apply admit_growth_ok|done].
Qed.

Lemma index_term_ok slot f x t counted s facts : store_text x = Some t → store_number x = None → stored s facts →
  let r := index_term slot f t counted s in
  stored r.2 (facts ++ [(slot, f, x)]) ∨ stored r.2 facts ∧ r.1 ≠ Ok tt.
Proof.
  intros Ht Hn ([Hi Hq] & Hf & Hc & Hz). unfold index_term.
  pose proof (intern_term_ok t (ms_interner s) (ms_tracker s) Hi Hq) as Hin.
  destruct (intern_term t _ _) as [[[id|e] i'] t']; destruct Hin as (Hi' & Hcfg & Hg & Hr).
  2: { right. subst i'. split; [|done]. split_and!; try done. unfold store_ok. cbn. by rewrite Hcfg. }
  match goal with |- context [admit_growth _ ?s'] => assert (stored s' (facts ++ [(slot, f, x)])) as Hst end.
  { destruct Hr as [Hid _]. split_and!; cbn; try done.
    - unfold store_ok. cbn. by rewrite Hcfg.
    - intros e u [He|He%list_elem_of_singleton]%elem_of_app Hu.
      + destruct (Hf e u He Hu) as [id' Hid']. eauto.
      + subst e. cbn in Hu. rewrite Ht in Hu. injection Hu as <-. eauto.
    - pose proof (posts_insert (term_key i') _ facts slot f x (term_key_grows _ _ _ _ Hg Hf Hc)) as Hp.
      assert (term_key i' x = Some id) as E by (unfold term_key; rewrite Ht; exact Hid). by rewrite E in Hp.
    - by apply posts_insert_none. }
  left. destruct counted; [by apply admit_growth_ok|done].
Qed.

(** An indexed value is posted, whether or not the growth of its posting is
    admitted; only a refused term is not. *)
Lemma index_value_ok slot f x s facts : stored s facts →
  let r := index_value slot f x s in
  stored r.2 (facts ++ [(slot, f, x)]) ∨ stored r.2 facts ∧ r.1 ≠ Ok tt.
Proof.
  intros Hs. destruct x as [t|n|y|b]; cbn [index_value].
  - by apply index_term_ok.
  - left. by apply index_number_ok.
  - left. by apply index_number_ok.
  - by apply index_term_ok.
Qed.

(** A call indexes its entries up to some point, and all of them if it succeeds. *)
Lemma index_values_ok slot es : ∀ s facts, stored s facts →
  ∃ k, let r := index_values slot es s in
    stored r.2 (facts ++ node_facts slot (take k es)) ∧ (r.1 = Ok tt → (length es ≤ k)%nat).
Proof.
  induction es as [|[f x] es IH]; intros s facts Hs; cbn [index_values].
  { exists 0%nat. cbn. by rewrite app_nil_r. }
  pose proof (index_value_ok slot f x s facts Hs) as Hv. destruct (index_value slot f x s) as [[[]|e] s']; cbn in Hv.
  - destruct Hv as [Hv|[_ ?]]; [|done]. destruct (IH s' _ Hv) as (k & Hk & Hall). exists (S k). cbn.
    rewrite <- app_assoc in Hk. cbn in Hk. split; [done|]. intros Hr. specialize (Hall Hr). lia.
  - destruct Hv as [Hv|[Hv _]]; [exists 1%nat|exists 0%nat]; cbn; rewrite ?app_nil_r; done.
Qed.

(** *** Sequences of calls *)

Definition store_step (s : MetadataStore B) (o : StoreOp B) : HNSQRResult unit * MetadataStore B :=
  match o with
  | S_Index slot m => index_slot slot m s
  | S_Compact live => (Ok tt, compact_and_reclaim live s)
  end.

Fixpoint store_calls (os : list (StoreOp B)) (s : MetadataStore B) : list (HNSQRResult unit) * MetadataStore B :=
  match os with
  | [] => ([], s)
  | o :: os => let '(r, s) := store_step s o in let '(rs, s) := store_calls os s in (r :: rs, s)
  end.

(** What a sequence of calls with these results leaves: a failed call may have
    indexed some of its entries, a compaction keeps the facts of live slots. *)
Inductive history : list (StoreOp B) → list (HNSQRResult unit) → Facts → Facts → Prop :=
  | history_nil facts : history [] [] facts facts
  | history_ok slot m os rs facts facts' :
      history os rs (facts ++ node_facts slot (hash_entries m)) facts' →
      history (S_Index slot m :: os) (Ok tt :: rs) facts facts'
  | history_err slot m k e os rs facts facts' :
      history os rs (facts ++ node_facts slot (take k (hash_entries m))) facts' →
      history (S_Index slot m :: os) (Err e :: rs) facts facts'
  | history_compact live os rs facts facts' :
      history os rs (filter (λ e, roaring_contains e.1.1 live) facts) facts' →
      history (S_Compact live :: os) (Ok tt :: rs) facts facts'.

Lemma posts_live {K} `{Countable K} (key : MetadataValue → option K) (p : Postings K B) facts live :
  posts key p facts →
  posts key (retain_postings (λ b, roaring_and b live) p) (filter (λ e, roaring_contains e.1.1 live) facts).
Proof.
  intros Hp f k v. rewrite (posted_retain _ (λ i, roaring_contains i live)).
  2: { intros i b. rewrite contains_and. apply andb_comm. }
  rewrite andb_true_iff, (Hp f k v). setoid_rewrite list_elem_of_filter. cbn. rewrite <- Is_true_true. naive_solver.
Qed.

Lemma reclaim_ok live s facts : stored s facts →
  stored (compact_and_reclaim live s) (filter (λ e, roaring_contains e.1.1 live) facts).
Proof.
  intros (Hok & Hf & Hc & Hz). split_and!; [done| |by apply posts_live..].
  intros e t [_ He]%list_elem_of_filter. by apply Hf.
Qed.

Lemma store_calls_ok os : ∀ s facts, stored s facts →
  ∃ facts', history os (store_calls os s).1 facts facts' ∧ stored (store_calls os s).2 facts'.
Proof.
  induction os as [|[slot m|live] os IH]; intros s facts Hs; cbn [store_calls store_step].
  - exists facts. split; [constructor|done].
  - destruct (index_values_ok slot (hash_entries m) s facts Hs) as (k & Hk & Hall). unfold index_slot.
    destruct (index_values slot (hash_entries m) s) as [[[]|e] s']; cbn in Hk, Hall.
    + rewrite take_ge in Hk by auto. destruct (IH s' _ Hk) as (facts' & Hh & Hst).
      destruct (store_calls os s') as [rs s'']. exists facts'. split; [by constructor|done].
    + destruct (IH s' _ Hk) as (facts' & Hh & Hst). destruct (store_calls os s') as [rs s''].
      exists facts'. split; [by eapply history_err|done].
  - destruct (IH _ _ (reclaim_ok live s facts Hs)) as (facts' & Hh & Hst).
    destruct (store_calls os _) as [rs s'']. exists facts'. split; [by constructor|done].
Qed.

Lemma stored_new c : small_quota c → stored (store_new c) [].
Proof.
  intros Hc. split_and!; try done.
  - split; [|done]. split_and!; cbn; [|done|lia]. intros s id. by rewrite lookup_empty, lookup_nil.
  - intros e t He. by apply elem_of_nil in He.
  - intros f k v. rewrite unposted by apply lookup_empty. split; [done|]. intros (x & Hx & _). by apply elem_of_nil in Hx.
  - intros f k v. rewrite unposted by apply lookup_empty. split; [done|]. intros (x & Hx & _). by apply elem_of_nil in Hx.
Qed.

Lemma match_categorical_spec s facts f t v : stored s facts →
  roaring_contains v (default roaring_new (match_categorical f t s)) =
    has facts v f (λ x, bool_decide (store_text x = Some t)).
Proof.
  intros ([[Hi _] _] & Hf & Hc & _). unfold match_categorical. apply eq_true_iff_eq. rewrite has_spec.
  setoid_rewrite bool_decide_eq_true. destruct (to_id (ms_interner s) !! t) as [id|] eqn:E; cbn [mbind option_bind].
  - etrans; [apply (Hc f id v)|]. unfold term_key. split.
    + intros (x & Hin & Hx). exists x. split; [done|]. destruct (store_text x) as [t'|]; [|done]. cbn in Hx.
      apply Hi in Hx, E. congruence.
    + intros (x & Hin & Hx). exists x. split; [done|]. by rewrite Hx.
  - cbn. unfold id. rewrite contains_new. split; [done|]. intros (x & Hin & Hx).
    destruct (Hf _ t Hin Hx) as [? ?]. congruence.
Qed.

Lemma try_admit_config bytes terms t : qt_config (try_admit bytes terms t).2 = qt_config t.
Proof. unfold try_admit. by repeat destruct (_ <? _)%N. Qed.

Lemma admit_growth_config g s : qt_config (ms_tracker (admit_growth g s).2) = qt_config (ms_tracker s).
Proof.
  unfold admit_growth. destruct (0 <? g)%N; [|done]. pose proof (try_admit_config g 0 (ms_tracker s)).
  by destruct (try_admit g 0 (ms_tracker s)).
Qed.

Lemma index_value_config slot f x s : qt_config (ms_tracker (index_value slot f x s).2) = qt_config (ms_tracker s).
Proof.
  assert (∀ t counted, qt_config (ms_tracker (index_term slot f t counted s).2) = qt_config (ms_tracker s)) as Ht.
  { intros t counted. unfold index_term, intern_term. destruct (_ !! t).
    - destruct counted; [by rewrite admit_growth_config|done].
    - pose proof (try_admit_config (term_bytes t) 1 (ms_tracker s)) as Hc.
      destruct (try_admit (term_bytes t) 1 (ms_tracker s)) as [[[]|e] t']; [|done].
      destruct counted; [by rewrite admit_growth_config|done]. }
  destruct x; cbn [index_value]; try apply Ht; [unfold index_number; by rewrite admit_growth_config|done].
Qed.

Lemma store_calls_config os : ∀ s, qt_config (ms_tracker (store_calls os s).2) = qt_config (ms_tracker s).
Proof.
  induction os as [|o os IH]; intros s; cbn [store_calls]; [done|].
  assert (qt_config (ms_tracker (store_step s o).2) = qt_config (ms_tracker s)) as Ho.
  { destruct o as [slot m|live]; [|done]. cbn [store_step]. unfold index_slot. generalize (hash_entries m) as es. intros es.
    revert s. induction es as [|[f x] es IHes]; intros s; [done|]. cbn [index_values].
    pose proof (index_value_config slot f x s) as Hv. destruct (index_value slot f x s) as [[[]|e] s']; [|done].
    by rewrite IHes. }
  destruct (store_step s o) as [r s']. pose proof (IH s') as Hs. destruct (store_calls os s') as [rs s'']. cbn in *. congruence.
Qed.

(** The interned store finds what it was given and stays in its term quota:
    after any sequence of index_slot calls and compactions, each with its
    result, lookups by text and by integer range return exactly the slots of the
    facts left (all entries of a call that succeeded, the entries a refused call
    had already reached, and of those only the live slots after a compaction);
    terms and identifiers correspond one to one, and there are at most as many
    as the quota admits (for a quota of at most 2^32 terms). *)
Lemma store_correct c os :
  small_quota c →
  let '(rs, s) := store_calls os (store_new c) in
  ∃ facts, history os rs [] facts ∧
    (∀ f t v, roaring_contains v (default roaring_new (match_categorical f t s)) =
       has facts v f (λ x, bool_decide (store_text x = Some t))) ∧
    (∀ f lo hi, (lo <=? hi)%Z = true → ∃ b, match_integer_range f lo hi s = Some b ∧
       ∀ v, roaring_contains v b = has facts v f (key_test store_number (λ k, (lo <=? k)%Z && (k <=? hi)%Z))) ∧
    (total_distinct_terms s ≤ max_distinct_terms c)%N ∧
    (∀ t id, to_id (ms_interner s) !! t = Some id ↔ resolve_term id (ms_interner s) = Some t).
Proof.
  intros Hc. destruct (store_calls_ok os (store_new c) [] (stored_new c Hc)) as (facts & Hh & Hst).
  pose proof (store_calls_config os (store_new c)) as Hcfg.
  destruct (store_calls os (store_new c)) as [rs s]. cbn [fst snd] in Hst, Hcfg. exists facts. split; [done|]. split_and!.
  - intros. by apply match_categorical_spec.
  - intros f lo hi Hle. apply range_spec; [apply Hst|done].
  - destruct Hst as ([(_ & Hn & Hle) _] & _). unfold total_distinct_terms. rewrite Hcfg in Hle. cbn in Hle. lia.
  - apply Hst.
Qed.
End store.
