(* ===== verification/AgentMemory.v ===== *)
(** The agent memory of src/ecosystem/agent_memory.rs: facts about a user,
    superseded by subject and predicate, and forgotten on an exponential curve
    whose expiry times are kept in a min-heap.

    [f32] arithmetic is IEEE binary32 ([SpecFloat]); [ln] and [exp], which the
    platform's mathematical library provides, are parameters.  A [BinaryHeap] is
    the list of its elements, [pop] taking the least record. *)

From Stdlib Require Import ZArith SpecFloat.
From S2P Require Import Prelude Durability.
From S2P Require Import Floats.
From stdpp Require Import base gmap sets strings numbers list fin_maps.

(** ** The mathematical library *)

Class Libm := { f32_ln : b32 → b32; f32_exp : b32 → b32 }.

(** ** Facts *)

Inductive FactCategory :=
  | UserPreference | BiographicalData | SystemInstruction | WorldKnowledge | TemporalEvent.
#[export] Instance FactCategory_eq_dec : EqDecision FactCategory.
Proof. solve_decision. Defined.

Record EpisodicFact := mkFact {
  fact_id : string;
  subject : string;
  predicate : string;
  object : string;
  category : FactCategory;
  confidence : b32;
  emotional_salience : b32;
  recall_count : N;
  last_accessed_secs : N;
  created_at_secs : N
}.

Record ExpirationRecord := mkExpiration { t_expire : N; er_fact_id : string }.

(** The derived [Ord]: the time, then the identifier. *)
Definition expiration_leb (a b : ExpirationRecord) : bool :=
  (t_expire a <? t_expire b)%N ||
  ((t_expire a =? t_expire b)%N && String.leb (er_fact_id a) (er_fact_id b)).

Fixpoint heap_pop (h : list ExpirationRecord) : option (ExpirationRecord * list ExpirationRecord) :=
  match h with
  | [] => None
  | r :: h =>
      match heap_pop h with
      | None => Some (r, [])
      | Some (least, rest) =>
          if expiration_leb r least then Some (r, h) else Some (least, r :: rest)
      end
  end.

Definition memory_strength (fact : EpisodicFact) : b32 :=
  f32_mul (f32_add (f32_of_N (recall_count fact)) (f32_of_Z 1))
    (f32_add (f32_of_Z 1) (f32_mul (emotional_salience fact) (f32_of_Z 2))).

Section memory.
Context `{!Libm}.

Definition compute_expiry_secs (fact : EpisodicFact) (r_prune : b32) : N :=
  let lifetime_secs :=
    f32_mul (f32_mul (SFopp (f32_ln r_prune)) (memory_strength fact)) (f32_of_Z 86400) in
  u64_saturating_add (last_accessed_secs fact) (f64_as_usize lifetime_secs).

(** [evaluate_retention] and [retention_pure]: the same text twice. *)
Definition retention_pure (fact : EpisodicFact) (current_time_secs : N) : b32 :=
  let delta_t := f32_of_N (current_time_secs - last_accessed_secs fact) in
  let decay_rate := f32_div delta_t (f32_mul (memory_strength fact) (f32_of_Z 86400)) in
  f32_exp (SFopp decay_rate).

(** ** Profiles *)

Record UserPersonaProfile := mkProfile {
  up_user_id : string;
  preferences : gmap string string;
  consolidated_facts : list EpisodicFact;
  total_interactions : N;
  expiry_heap : list ExpirationRecord
}.
#[export] Instance eta_Profile : Eta UserPersonaProfile := λ p,
  mkProfile (up_user_id p) (preferences p) (consolidated_facts p) (total_interactions p)
    (expiry_heap p).

Definition rebuild_expiry_heap (r_prune : b32) (p : UserPersonaProfile) : UserPersonaProfile :=
  p <| expiry_heap := (λ f, mkExpiration (compute_expiry_secs f r_prune) (fact_id f))
                        <$> consolidated_facts p |>.

Record AutonomousMemoryConsolidator := mkMemory {
  profiles : gmap string UserPersonaProfile;
  total_consolidations : N;
  total_conflicts_resolved : N
}.

Definition memory_new : AutonomousMemoryConsolidator := mkMemory ∅ 0 0.

(** [0.05_f32] *)
Definition DEFAULT_R_PRUNE : b32 := S754_finite false 13421773 (-28).

(** The search loop for a fact on the same subject and predicate. *)
Fixpoint conflict_idx (fact : EpisodicFact) (i : nat) (facts : list EpisodicFact) : option nat :=
  match facts with
  | [] => None
  | existing :: facts =>
      if bool_decide (subject existing = subject fact) &&
         bool_decide (predicate existing = predicate fact)
      then Some i else conflict_idx fact (S i) facts
  end.

Definition ingest_profile (fact : EpisodicFact) (p : UserPersonaProfile) :
    bool * UserPersonaProfile :=
  let p := p <| total_interactions ::= λ n, u64_add n 1 |> in
  let '(conflict, p) :=
    match conflict_idx fact 0 (consolidated_facts p) with
    | Some idx => (true, p <| consolidated_facts ::= <[idx := fact]> |>)
    | None => (false, p <| consolidated_facts ::= λ fs, fs ++ [fact] |>)
    end in
  let p := p <| expiry_heap ::= cons (mkExpiration (compute_expiry_secs fact DEFAULT_R_PRUNE)
                                        (fact_id fact)) |> in
  (conflict,
   if bool_decide (category fact = UserPreference)
   then p <| preferences ::= <[predicate fact := object fact]> |> else p).

Definition ingest_fact (user_id : string) (fact : EpisodicFact) (m : AutonomousMemoryConsolidator) :
    HNSQRResult unit * AutonomousMemoryConsolidator :=
  let '(conflict, p) :=
    ingest_profile fact (default (mkProfile user_id ∅ [] 0 []) (profiles m !! user_id)) in
  (Ok tt, mkMemory (<[user_id := p]> (profiles m)) (u64_add (total_consolidations m) 1)
            (if conflict then u64_add (total_conflicts_resolved m) 1
             else total_conflicts_resolved m)).

Definition get_profile (user_id : string) (m : AutonomousMemoryConsolidator) :
    option UserPersonaProfile := profiles m !! user_id.

Definition get_active_persona (user_id : string) (current_time_secs : N) (min_retention : b32)
    (m : AutonomousMemoryConsolidator) : option UserPersonaProfile :=
  p ← profiles m !! user_id;
  Some (mkProfile (up_user_id p) (preferences p)
          (filter (λ f, f32_ge (retention_pure f current_time_secs) min_retention = true)
             (consolidated_facts p))
          (total_interactions p) []).

(** ** Forgetting *)

Definition fact_index (facts : list EpisodicFact) : gmap string nat :=
  foldl (λ m x, <[fact_id x.2 := x.1]> m) ∅ (imap pair facts).

(** The [while let] loop over the heap: the heap left, the identifiers to
    expire and the records to put back.  Every turn pops one record. *)
Fixpoint sweep (fuel : nat) (now : N) (min_retention : b32) (facts : list EpisodicFact)
    (h : list ExpirationRecord) (expired_ids : list string) (stale : list ExpirationRecord) :
    option (list ExpirationRecord * list string * list ExpirationRecord) :=
  match heap_pop h with
  | None => Some ([], expired_ids, stale)
  | Some (rec, h) =>
      if (now <? t_expire rec)%N then Some (h, expired_ids, stale ++ [rec]) else
      match fuel with
      | O => None
      | S fuel =>
          match fact_index facts !! er_fact_id rec with
          | None => sweep fuel now min_retention facts h expired_ids stale
          | Some idx =>
              fact ← facts !! idx;
              if f64_lt (retention_pure fact now) min_retention
              then sweep fuel now min_retention facts h (expired_ids ++ [er_fact_id rec]) stale
              else sweep fuel now min_retention facts h expired_ids
                     (stale ++ [mkExpiration (compute_expiry_secs fact min_retention)
                                  (er_fact_id rec)])
          end
      end
  end.

Definition derive_preferences (facts : list EpisodicFact) : gmap string string :=
  foldl (λ prefs f, if bool_decide (category f = UserPreference)
                    then <[predicate f := object f]> prefs else prefs) ∅ facts.

Definition prune_profile (now : N) (min_retention : b32) (p : UserPersonaProfile) :
    option (N * UserPersonaProfile) :=
  '(h, expired_ids, stale) ←
    sweep (length (expiry_heap p)) now min_retention (consolidated_facts p) (expiry_heap p) [] [];
  let p := p <| expiry_heap := h ++ stale |> in
  match expired_ids with
  | [] => Some (0%N, p)
  | _ =>
      let kept := filter (λ f, fact_id f ∉ expired_ids) (consolidated_facts p) in
      Some ((lenN (consolidated_facts p) - lenN kept)%N,
            p <| consolidated_facts := kept |> <| preferences := derive_preferences kept |>)
  end.

(** The loop over the profiles, in the order of the map. *)
Definition prune_user (now : N) (min_retention : b32)
    (acc : option (N * AutonomousMemoryConsolidator)) (u : string) :
    option (N * AutonomousMemoryConsolidator) :=
  '(removed, m) ← acc;
  p ← profiles m !! u;
  '(n, p) ← prune_profile now min_retention p;
  Some ((removed + n)%N, mkMemory (<[u := p]> (profiles m)) (total_consolidations m)
                           (total_conflicts_resolved m)).

Definition prune_decayed_facts `{!HashOrderOf string} (now : N) (min_retention : b32)
    (m : AutonomousMemoryConsolidator) : option (N * AutonomousMemoryConsolidator) :=
  foldl (prune_user now min_retention) (Some (0%N, m)) (iter_order (dom (profiles m))).

Record AutonomousMemorySnapshot := mkMemorySnapshot { ms_profiles : gmap string UserPersonaProfile }.

Definition memory_snapshot (m : AutonomousMemoryConsolidator) : AutonomousMemorySnapshot :=
  mkMemorySnapshot (profiles m).
Definition snapshot_get_profile (user_id : string) (s : AutonomousMemorySnapshot) :
    option UserPersonaProfile := ms_profiles s !! user_id.
End memory.
