(* ===== verification/AgentMemoryFacts.v ===== *)
(** What the agent memory guarantees: a profile is a finite map from subject and
    predicate to the latest fact, every fact keeps an expiry record, and a prune
    removes exactly the facts that are due and whose retention is below the
    threshold. *)

From stdpp Require Import base gmap sets strings numbers list fin_maps.
From S2P Require Import Prelude Durability AgentMemory.
From S2P Require Import Floats.

Section facts.
Context `{libm : !Libm}.
Implicit Types (f : EpisodicFact) (p : UserPersonaProfile) (h : list ExpirationRecord).

(** ** The heap *)

Lemma heap_pop_None h : heap_pop h = None → h = [].
Proof. destruct h as [|r h]; [done|]. cbn. destruct (heap_pop h) as [[]|]; [by case_match|done]. Qed.

Lemma heap_pop_Some h r h' : heap_pop h = Some (r, h') →
  h ≡ₚ r :: h' ∧ ∀ x, x ∈ h' → (t_expire r ≤ t_expire x)%N.
Proof.
  revert r h'. induction h as [|x h IH]; intros r h'; cbn; [done|].
  destruct (heap_pop h) as [[least rest]|] eqn:Hp.
  2:{ apply heap_pop_None in Hp as ->. intros [= <- <-]. split; [done|]. by intros ? ?%not_elem_of_nil. }
  destruct (IH least rest eq_refl) as [Hperm Hmin].
  unfold expiration_leb. destruct (_ || _) eqn:Hle; intros [= <- <-].
  - split; [done|]. intros y. rewrite Hperm. apply orb_true_iff in Hle.
    assert (t_expire x ≤ t_expire least)%N as Hx.
    { destruct Hle as [Hlt|Heq]; bool_to_N; lia. }
    intros [->|Hy]%elem_of_cons; [done|]. specialize (Hmin y Hy). lia.
  - split; [rewrite Hperm; apply Permutation_swap|]. intros y [->|Hy]%elem_of_cons; [|by apply Hmin].
    bool_to_N. lia.
Qed.

(** ** The index of the facts *)

Lemma fact_index_snoc fs f : fact_index (fs ++ [f]) = <[fact_id f := length fs]> (fact_index fs).
Proof. unfold fact_index. rewrite imap_app, foldl_app. cbn. by rewrite Nat.add_0_r. Qed.

Lemma fact_index_spec fs i id : NoDup (fact_id <$> fs) →
  fact_index fs !! id = Some i ↔ ∃ f, fs !! i = Some f ∧ fact_id f = id.
Proof.
  induction fs as [|f fs IH] using rev_ind; intros Hnd.
  { cbn. rewrite lookup_empty. split; [done|]. intros (f & Hf & _). by rewrite lookup_nil in Hf. }
  rewrite fmap_app in Hnd. apply NoDup_app in Hnd as (Hnd & Hdis & _).
  rewrite fact_index_snoc, lookup_insert. case_decide as Hid.
  - subst id. split.
    + intros [= <-]. exists f. split; [|done]. by rewrite list_lookup_middle.
    + intros (g & Hg & Hid). f_equal.
      apply lookup_snoc_Some in Hg as [[_ Hi]|[-> _]]; [|done].
      destruct (Hdis (fact_id g)); [by eapply list_elem_of_fmap_2, list_elem_of_lookup_2|].
      cbn. rewrite Hid. left.
  - rewrite IH by done. split; intros (g & Hg & Hgid); exists g; (split; [|done]).
    + by apply lookup_app_l_Some.
    + apply lookup_snoc_Some in Hg as [[_ Hg]|[_ ->]]; done.
Qed.

(** ** One prune *)

Definition decayed (now : N) (min_retention : b32) f : bool :=
  f64_lt (retention_pure f now) min_retention.

(** Some record of the fact is due. *)
Definition due (now : N) h f : Prop :=
  ∃ r, r ∈ h ∧ er_fact_id r = fact_id f ∧ (t_expire r ≤ now)%N.

#[export] Instance due_dec now h f : Decision (due now h f).
Proof.
  refine (cast_if (decide (Exists (λ r, er_fact_id r = fact_id f ∧ (t_expire r ≤ now)%N) h)));
    unfold due; by rewrite <- Exists_exists.
Defined.

(** Some record of the fact is in the heap. *)
Definition scheduled h f : Prop := ∃ r, r ∈ h ∧ er_fact_id r = fact_id f.

Lemma scheduled_perm h h' f : h ≡ₚ h' → scheduled h f → scheduled h' f.
Proof. unfold scheduled. intros Hp (r & Hr & He). exists r. by rewrite <- Hp. Qed.

Lemma due_perm now h r h' f : h ≡ₚ r :: h' → (t_expire r ≤ now)%N →
  due now h f ↔ er_fact_id r = fact_id f ∨ due now h' f.
Proof.
  intros Hp Hr. unfold due. setoid_rewrite Hp. setoid_rewrite elem_of_cons. naive_solver.
Qed.

Lemma due_later now h r h' f : h ≡ₚ r :: h' → (now < t_expire r)%N →
  (∀ x, x ∈ h' → (t_expire r ≤ t_expire x)%N) → ¬ due now h f.
Proof.
  intros Hp Hr Hmin (x & Hx & _ & Ht). rewrite Hp in Hx.
  apply elem_of_cons in Hx as [->|Hx]; [lia|]. specialize (Hmin x Hx). lia.
Qed.

(** What a sweep of [h] reports, given what was collected before. *)
Definition sweep_result now min (facts : list EpisodicFact) h (ex : list string) st
    (res : list ExpirationRecord * list string * list ExpirationRecord) : Prop :=
  let '(h', ex', st') := res in
  (∀ id, id ∈ ex' ↔ id ∈ ex ∨
     ∃ f, f ∈ facts ∧ fact_id f = id ∧ due now h f ∧ decayed now min f = true) ∧
  (∀ f, f ∈ facts → scheduled (h ++ st) f →
     (due now h f ∧ decayed now min f = true) ∨ scheduled (h' ++ st') f).

(** A due record without a fact is dropped. *)
Lemma sweep_drop now min facts h r h' ex st res : h ≡ₚ r :: h' → (t_expire r ≤ now)%N →
  (∀ f, f ∈ facts → er_fact_id r ≠ fact_id f) →
  sweep_result now min facts h' ex st res → sweep_result now min facts h ex st res.
Proof.
  destruct res as [[hr exr] str]. intros Hp Hr Hno [He Hs]. split.
  - intros id. rewrite He. setoid_rewrite (due_perm now h r h'); [|done..]. naive_solver.
  - intros f Hf (x & Hx & Hid). rewrite (due_perm now h r h') by done.
    assert (scheduled (h' ++ st) f) as Hsf;
      [|destruct (Hs f Hf Hsf) as [[Hd Hx']|Hsc]; [left; split; [by right|done]|by right]].
    exists x. split; [|done]. rewrite Hp in Hx. apply elem_of_cons in Hx as [->|Hx]; [|done].
    by destruct (Hno f).
Qed.

(** A due record of a decayed fact expires it. *)
Lemma sweep_expire now min facts h r h' g ex st res : h ≡ₚ r :: h' → (t_expire r ≤ now)%N →
  (∀ f, f ∈ facts → er_fact_id r = fact_id f → f = g) → g ∈ facts → er_fact_id r = fact_id g →
  decayed now min g = true →
  sweep_result now min facts h' (ex ++ [er_fact_id r]) st res → sweep_result now min facts h ex st res.
Proof.
  destruct res as [[hr exr] str]. intros Hp Hr Huniq Hg Hid Hdec [He Hs]. split.
  - intros id. rewrite He, elem_of_app, list_elem_of_singleton.
    setoid_rewrite (due_perm now h r h'); [|done..]. split; [|naive_solver].
    intros [[?|Heq]|?]; [by left|right|naive_solver]. exists g. rewrite <- Heq in Hid. naive_solver.
  - intros f Hf (x & Hx & Hxid). rewrite (due_perm now h r h') by done.
    destruct (decide (er_fact_id r = fact_id f)) as [Heq|Hne].
    { left. rewrite (Huniq f Hf Heq). by split; [left|]. }
    assert (scheduled (h' ++ st) f) as Hsf;
      [|destruct (Hs f Hf Hsf) as [[Hd Hx']|Hsc]; [left; split; [by right|done]|by right]].
    exists x. split; [|done]. rewrite Hp in Hx. apply elem_of_cons in Hx as [->|Hx]; done.
Qed.

(** A due record of a fact that is still remembered is put back, corrected. *)
Lemma sweep_keep now min facts h r h' g ex st t res : h ≡ₚ r :: h' → (t_expire r ≤ now)%N →
  (∀ f, f ∈ facts → er_fact_id r = fact_id f → f = g) →
  decayed now min g = false →
  sweep_result now min facts h' ex (st ++ [mkExpiration t (er_fact_id r)]) res →
  sweep_result now min facts h ex st res.
Proof.
  destruct res as [[hr exr] str]. intros Hp Hr Huniq Hdec [He Hs]. split.
  - intros id. rewrite He. setoid_rewrite (due_perm now h r h'); [|done..]. split; [naive_solver|].
    intros [?|(f & Hf & <- & [Heq|Hd] & Hdf)]; [by left| |naive_solver].
    rewrite (Huniq f Hf Heq) in Hdf. congruence.
  - intros f Hf (x & Hx & Hxid). rewrite (due_perm now h r h') by done.
    assert (scheduled (h' ++ st ++ [mkExpiration t (er_fact_id r)]) f) as Hsf;
      [|destruct (Hs f Hf Hsf) as [[Hd Hx']|Hsc]; [left; split; [by right|done]|by right]].
    rewrite Hp in Hx. apply elem_of_cons in Hx as [->|Hx].
    + exists (mkExpiration t (er_fact_id r)). split; [set_solver|done].
    + exists x. split; [set_solver|done].
Qed.

Lemma sweep_spec now min facts fuel h ex st : NoDup (fact_id <$> facts) → length h ≤ fuel →
  ∃ res, sweep fuel now min facts h ex st = Some res ∧ sweep_result now min facts h ex st res.
Proof.
  intros Hnd. revert h ex st. induction fuel as [|fuel IH]; intros h ex st Hfuel.
  all: cbn [sweep]; destruct (heap_pop h) as [[r h']|] eqn:Hp.
  2,4: apply heap_pop_None in Hp as ->; eexists; split; [done|]; split;
    [intros id; split; [by left|]; intros [?|(f & _ & _ & (? & ?%not_elem_of_nil & _) & _)]; done|by right].
  all: apply heap_pop_Some in Hp as [Hperm Hmin]; pose proof (Permutation_length Hperm) as Hlen;
    cbn in Hlen.
  { lia. }
  destruct (N.ltb_spec now (t_expire r)) as [Hlt|Hle].
  { eexists. split; [done|]. split.
    - intros id. split; [by left|]. intros [?|(f & _ & _ & Hd & _)]; [done|].
      by apply (due_later now h r h') in Hd.
    - intros f Hf Hs. right. eapply scheduled_perm; [|exact Hs]. rewrite Hperm. cbn. rewrite app_assoc.
      apply Permutation_cons_append. }
  destruct (fact_index facts !! er_fact_id r) as [i|] eqn:Hi.
  - apply fact_index_spec in Hi as (g & Hg & Hid); [|done]. rewrite Hg. cbn [mbind option_bind].
    assert (∀ f, f ∈ facts → er_fact_id r = fact_id f → f = g) as Huniq.
    { intros f [j Hj]%list_elem_of_lookup Heq. assert (j = i) as ->; [|congruence].
      apply (NoDup_lookup _ _ _ (fact_id g) Hnd); rewrite list_lookup_fmap, ?Hj, ?Hg; cbn; congruence. }
    apply list_elem_of_lookup_2 in Hg. fold (decayed now min g). destruct (decayed now min g) eqn:Hdec.
    + destruct (IH h' (ex ++ [er_fact_id r]) st) as (res & Hres & Hr); [lia|].
      exists res. split; [done|]. by eapply sweep_expire.
    + destruct (IH h' ex (st ++ [mkExpiration (compute_expiry_secs g min) (er_fact_id r)]))
        as (res & Hres & Hr); [lia|].
      exists res. split; [done|]. by eapply sweep_keep.
  - destruct (IH h' ex st) as (res & Hres & Hr); [lia|]. exists res. split; [done|].
    eapply sweep_drop; [done..| |done]. intros f [j Hj]%list_elem_of_lookup Heq.
    assert (fact_index facts !! er_fact_id r = Some j) as Hx; [|congruence].
    apply fact_index_spec; [done|]. by exists f.
Qed.

(** The facts a prune forgets. *)
Definition forgotten (now : N) (min_retention : b32) h f : Prop :=
  due now h f ∧ decayed now min_retention f = true.

#[export] Instance forgotten_dec now min_retention h f : Decision (forgotten now min_retention h f).
Proof. apply _. Defined.

(** What one prune makes of a profile. *)
Record pruned (now : N) (min_retention : b32) p (n : N) p' : Prop := {
  pr_facts : consolidated_facts p' =
    filter (λ f, ¬ forgotten now min_retention (expiry_heap p) f) (consolidated_facts p);
  pr_count : lenN (consolidated_facts p) = (lenN (consolidated_facts p') + n)%N;
  pr_scheduled f : f ∈ consolidated_facts p' → scheduled (expiry_heap p) f →
    scheduled (expiry_heap p') f;
  pr_preferences : preferences p' =
    if (n =? 0)%N then preferences p else derive_preferences (consolidated_facts p')
}.

Lemma prune_profile_spec now min p : NoDup (fact_id <$> consolidated_facts p) →
  ∃ n p', prune_profile now min p = Some (n, p') ∧ pruned now min p n p'.
Proof.
  intros Hnd. unfold prune_profile.
  destruct (sweep_spec now min (consolidated_facts p) (length (expiry_heap p)) (expiry_heap p) [] [])
    as ([[h' ex'] st'] & -> & He & Hs); [done|done|]. cbn [mbind option_bind].
  assert (∀ f, f ∈ consolidated_facts p →
    fact_id f ∉ ex' ↔ ¬ forgotten now min (expiry_heap p) f) as Hf.
  { intros f Hf. rewrite He. apply not_iff_compat. split; [|intros [??]; right; by exists f].
    intros [?%not_elem_of_nil|(g & Hg & Hid & Hd)]; [done|].
    assert (f = g) as ->; [|done]. apply list_elem_of_lookup in Hf as [i Hi], Hg as [j Hj].
    assert (i = j) as ->; [|congruence].
    apply (NoDup_lookup _ _ _ (fact_id f) Hnd); rewrite list_lookup_fmap, ?Hi, ?Hj; cbn; congruence. }
  assert (∀ f, f ∈ consolidated_facts p → ¬ forgotten now min (expiry_heap p) f →
    scheduled (expiry_heap p) f → scheduled (h' ++ st') f) as Hsched.
  { intros f Hin Hk Hsc. destruct (Hs f Hin) as [?|?]; [by rewrite app_nil_r|done|done]. }
  assert (filter (λ f, fact_id f ∉ ex') (consolidated_facts p) =
    filter (λ f, ¬ forgotten now min (expiry_heap p) f) (consolidated_facts p)) as Hfilter.
  { by apply filter_agree. }
  destruct ex' as [|id ex'].
  - eexists _, _. split; [done|]. split; cbn; [|lia| |done].
    + rewrite <- Hfilter. clear. induction (consolidated_facts p) as [|f fs IH]; [done|].
      rewrite filter_cons_True by apply not_elem_of_nil. by rewrite <- IH.
    + intros f Hin. apply Hsched; [done|]. apply Hf; [done|]. apply not_elem_of_nil.
  - eexists _, _. split; [done|]. split; cbn [consolidated_facts expiry_heap preferences update];
      [done| | |].
    all: cbn [consolidated_facts update] in *.
    + pose proof (length_filter (λ f, fact_id f ∉ id :: ex') (consolidated_facts p)). unfold lenN. cbn. lia.
    + intros f [Hk Hin]%list_elem_of_filter. apply Hsched; [done|]. by apply Hf.
    + assert (∃ f, f ∈ consolidated_facts p ∧ ¬ (fact_id f ∉ id :: ex')) as (f & Hin & Hid).
      { destruct (proj1 (He id) (list_elem_of_here _ _)) as [?%not_elem_of_nil|(f & Hin & Hid & _)]; [done|].
        exists f. split; [done|]. rewrite Hid. intros []. left. }
      pose proof (length_filter_lt (λ f, fact_id f ∉ id :: ex') _ _ Hin Hid).
      replace (_ =? 0)%N with false; [done|]. symmetry. apply N.eqb_neq. unfold lenN. cbn. lia.
Qed.

(** ** All profiles *)

Definition unique_ids m : Prop :=
  map_Forall (λ _ p, NoDup (fact_id <$> consolidated_facts p)) (profiles m).

(** The number of facts a user has lost. *)
Definition lost m m' (u : string) : N :=
  (lenN (default [] (consolidated_facts <$> profiles m !! u)) -
   lenN (default [] (consolidated_facts <$> profiles m' !! u)))%N.
Definition total_lost m m' (us : list string) : N := foldr (λ u n, (lost m m' u + n)%N) 0%N us.

Lemma prune_users_spec now min us n0 m0 : NoDup us → unique_ids m0 →
  (∀ u, u ∈ us → is_Some (profiles m0 !! u)) →
  ∃ m', foldl (prune_user now min) (Some (n0, m0)) us = Some ((n0 + total_lost m0 m' us)%N, m') ∧
    ∀ u, if decide (u ∈ us)
         then ∃ p p' k, profiles m0 !! u = Some p ∧ profiles m' !! u = Some p' ∧ pruned now min p k p'
         else profiles m' !! u = profiles m0 !! u.
Proof.
  revert n0 m0. induction us as [|u us IH]; intros n0 m0 Hnd Hids Hus.
  { exists m0. cbn. rewrite N.add_0_r. split; [done|]. intros u. by rewrite decide_False by apply not_elem_of_nil. }
  apply NoDup_cons in Hnd as [Hu Hnd]. destruct (Hus u (list_elem_of_here _ _)) as [p Hp].
  destruct (prune_profile_spec now min p (Hids _ _ Hp)) as (n & p' & Hpr & Hpruned).
  set (m1 := mkMemory (<[u := p']> (profiles m0)) (total_consolidations m0) (total_conflicts_resolved m0)).
  cbn [foldl]. unfold prune_user at 2. cbn [mbind option_bind]. rewrite Hp. cbn [mbind option_bind].
  rewrite Hpr. cbn [mbind option_bind]. fold m1.
  destruct (IH (n0 + n)%N m1 Hnd) as (m' & -> & Hm').
  { apply map_Forall_insert_2; [|done]. cbn. rewrite (pr_facts _ _ _ _ _ Hpruned).
    eapply sublist_NoDup; [by apply (Hids _ _ Hp)|]. apply fmap_sublist, sublist_filter. }
  { intros v Hv. cbn. rewrite lookup_insert. case_decide; [done|]. apply Hus. by right. }
  exists m'. assert (profiles m' !! u = Some p') as Hu'.
  { specialize (Hm' u). rewrite decide_False in Hm' by done. rewrite Hm'. cbn. apply lookup_insert_eq. }
  split.
  - f_equal. f_equal.
    change (total_lost m0 m' (u :: us)) with (lost m0 m' u + total_lost m0 m' us)%N.
    assert (total_lost m1 m' us = total_lost m0 m' us) as ->.
    { unfold total_lost. clear - Hu. induction us as [|v us IH]; [done|].
      apply not_elem_of_cons in Hu as [Hne Hu]. cbn. rewrite IH by done. f_equal. unfold lost. cbn.
      by rewrite lookup_insert_ne by congruence. }
    assert (lost m0 m' u = n) as ->; [|lia]. unfold lost. rewrite Hp, Hu'. cbn.
    rewrite (pr_count _ _ _ _ _ Hpruned). lia.
  - intros v. specialize (Hm' v). destruct (decide (v = u)) as [->|Hne].
    { rewrite decide_True by left. by exists p, p', n. }
    cbn in Hm'. rewrite lookup_insert_ne in Hm' by congruence.
    rewrite (decide_ext _ (v ∈ us)); [exact Hm'|]. rewrite elem_of_cons. naive_solver.
Qed.

(** With unique fact identifiers, prune_decayed_facts terminates and
    removes from each profile exactly the facts that have a due record in the
    heap and whose retention is below the threshold; every surviving fact keeps
    a record, the preferences are rebuilt from the survivors, and the returned
    count is the number removed. *)
Lemma prune_decayed_facts_spec `{order : !HashOrderOf string} now min_retention m :
  unique_ids m →
  ∃ m', prune_decayed_facts now min_retention m =
      Some (total_lost m m' (iter_order (dom (profiles m))), m') ∧
    ∀ u, match profiles m !! u, profiles m' !! u with
         | Some p, Some p' => ∃ k, pruned now min_retention p k p'
         | None, None => True
         | _, _ => False
         end.
Proof.
  intros Hids. destruct (prune_users_spec now min_retention (iter_order (dom (profiles m))) 0 m)
    as (m' & Hf & Hm').
  - rewrite iter_order_perm. apply NoDup_elements.
  - done.
  - intros u. rewrite iter_order_perm, elem_of_elements. by rewrite elem_of_dom.
  - exists m'. split; [exact Hf|]. intros u. specialize (Hm' u).
    rewrite (decide_ext _ (is_Some (profiles m !! u))) in Hm'
      by (by rewrite iter_order_perm, elem_of_elements, elem_of_dom).
    case_decide as Hu.
    + destruct Hm' as (p & p' & k & -> & -> & Hk). by exists k.
    + apply eq_None_not_Some in Hu. by rewrite Hm', Hu.
Qed.

(** ** Ingestion *)

Definition fact_key f : string * string := (subject f, predicate f).

(** A profile as a map from what a fact is about to the fact. *)
Definition fact_map (fs : list EpisodicFact) : gmap (string * string) EpisodicFact :=
  list_to_map ((λ f, (fact_key f, f)) <$> fs).

Record persona_wf p : Prop := {
  pw_keys : NoDup (fact_key <$> consolidated_facts p);
  pw_scheduled f : f ∈ consolidated_facts p → scheduled (expiry_heap p) f
}.

Lemma conflict_idx_Some f i fs j : conflict_idx f i fs = Some j →
  ∃ k e, j = i + k ∧ fs !! k = Some e ∧ fact_key e = fact_key f.
Proof.
  revert i. induction fs as [|e fs IH]; intros i; cbn; [done|].
  destruct (_ && _) eqn:Ht.
  - intros [= <-]. bool_to_N. exists 0, e. rewrite Nat.add_0_r. split_and!; [done..|].
    unfold fact_key. congruence.
  - intros (k & e' & -> & Hk & He)%IH. exists (S k), e'. split; [lia|done].
Qed.

Lemma conflict_idx_None f i fs : conflict_idx f i fs = None →
  ∀ e, e ∈ fs → fact_key e ≠ fact_key f.
Proof.
  revert i. induction fs as [|e fs IH]; intros i; cbn; [by intros _ ? ?%not_elem_of_nil|].
  destruct (_ && _) eqn:Ht; [done|]. intros Hn e' [->|He]%elem_of_cons; [|by eapply IH].
  unfold fact_key. intros [= H1 H2]. by rewrite !bool_decide_true in Ht.
Qed.

Lemma lookup_fact_map fs k f : NoDup (fact_key <$> fs) →
  fact_map fs !! k = Some f ↔ f ∈ fs ∧ fact_key f = k.
Proof.
  intros Hnd. unfold fact_map. rewrite <- elem_of_list_to_map.
  - rewrite list_elem_of_fmap. split; [by intros (g & [= -> ->] & Hg)|]. intros [Hf <-]. by exists f.
  - rewrite <- list_fmap_compose. exact Hnd.
Qed.

(** Superseding a fact in place, or adding one, inserts it in the map. *)
Lemma fact_map_insert fs k e f : NoDup (fact_key <$> fs) → fs !! k = Some e →
  fact_key e = fact_key f →
  NoDup (fact_key <$> <[k := f]> fs) ∧ fact_map (<[k := f]> fs) = <[fact_key f := f]> (fact_map fs).
Proof.
  intros Hnd Hk He. assert (fact_key <$> <[k := f]> fs = fact_key <$> fs) as Hkeys.
  { rewrite list_fmap_insert, <- He. apply list_insert_id. by rewrite list_lookup_fmap, Hk. }
  split; [by rewrite Hkeys|]. apply map_eq. intros key. apply option_eq. intros g.
  rewrite lookup_fact_map, lookup_insert by (by rewrite Hkeys).
  pose proof (lookup_lt_Some _ _ _ Hk) as Hlt. split.
  - intros [[j Hj]%list_elem_of_lookup <-]. apply list_lookup_insert_Some in Hj as [(-> & -> & _)|[Hne Hj]].
    + by rewrite decide_True.
    + rewrite decide_False; [apply lookup_fact_map; [done|]; split; [|done]; by eapply list_elem_of_lookup_2|].
      rewrite <- He. intros Heq. apply Hne. apply (NoDup_lookup _ _ _ (fact_key e) Hnd);
        rewrite list_lookup_fmap, ?Hk, ?Hj; cbn; congruence.
  - case_decide as Hkey.
    + intros [= <-]. split; [|done]. eapply list_elem_of_lookup_2. by apply list_lookup_insert_eq.
    + intros [[j Hj]%list_elem_of_lookup Hg]%lookup_fact_map; [|done]. split; [|done].
      apply list_elem_of_lookup_2 with j. rewrite list_lookup_insert_ne; [done|]. intros ->.
      apply Hkey. congruence.
Qed.

Lemma fact_map_app fs f : NoDup (fact_key <$> fs) → (∀ e, e ∈ fs → fact_key e ≠ fact_key f) →
  NoDup (fact_key <$> fs ++ [f]) ∧ fact_map (fs ++ [f]) = <[fact_key f := f]> (fact_map fs).
Proof.
  intros Hnd Hno. assert (NoDup (fact_key <$> fs ++ [f])) as Hnd'.
  { rewrite fmap_app. apply NoDup_app. split_and!; [done| |apply NoDup_singleton].
    intros k (e & Hk & He)%list_elem_of_fmap Hf%list_elem_of_singleton. apply (Hno e He). congruence. }
  split; [done|]. apply map_eq. intros key. apply option_eq. intros g.
  rewrite lookup_fact_map, lookup_insert, elem_of_app, list_elem_of_singleton by done.
  case_decide as Hk.
  - subst key. split; [|intros [= <-]; by split; [right|]].
    intros [[Hg| ->] Hkey]; [by destruct (Hno g)|done].
  - rewrite lookup_fact_map by done. split; [|naive_solver].
    intros [[Hg| ->] Hkey]; [done|congruence].
Qed.

Lemma ingest_profile_spec f p : persona_wf p →
  let '(conflict, p') := ingest_profile f p in
  persona_wf p' ∧
  fact_map (consolidated_facts p') = <[fact_key f := f]> (fact_map (consolidated_facts p)) ∧
  (conflict = true ↔ is_Some (fact_map (consolidated_facts p) !! fact_key f)) ∧
  preferences p' = (if bool_decide (category f = UserPreference)
                    then <[predicate f := object f]> (preferences p) else preferences p).
Proof.
  intros [Hk Hs]. unfold ingest_profile. cbn [update].
  assert (∀ fs', fact_map fs' = <[fact_key f := f]> (fact_map (consolidated_facts p)) →
    NoDup (fact_key <$> fs') → ∀ g, g ∈ fs' → g = f ∨ g ∈ consolidated_facts p) as Hold.
  { intros fs' Hm Hnd g Hg. assert (fact_map fs' !! fact_key g = Some g) as Hl by (by apply lookup_fact_map).
    rewrite Hm, lookup_insert in Hl. destruct (decide (fact_key f = fact_key g)); [left; congruence|right].
    by apply lookup_fact_map in Hl as [? _]. }
  set (r := mkExpiration (compute_expiry_secs f DEFAULT_R_PRUNE) (fact_id f)).
  assert (∀ fs' : list EpisodicFact, (∀ g, g ∈ fs' → g = f ∨ g ∈ consolidated_facts p) →
    ∀ g, g ∈ fs' → scheduled (r :: expiry_heap p) g) as Hsched.
  { intros fs' Hin g [->|Hg]%Hin; [exists r; split; [left|done]|].
    destruct (Hs g Hg) as (x & Hx & Hid). exists x. split; [by right|done]. }
  cbn. destruct (conflict_idx f 0 (consolidated_facts p)) as [idx|] eqn:Hc.
  - apply conflict_idx_Some in Hc as (k & e & -> & Hke & He). cbn.
    destruct (fact_map_insert _ k e f Hk Hke He) as [Hnd Hm].
    split_and!; [split| | |]; try case_bool_decide; cbn; try done; try by eapply Hsched, Hold.
    all: split; [|done]; intros _; exists e; apply lookup_fact_map; [done|]; split; [|done];
      by eapply list_elem_of_lookup_2.
  - pose proof (conflict_idx_None _ _ _ Hc) as Hno.
    destruct (fact_map_app _ f Hk Hno) as [Hnd Hm].
    split_and!; [split| | |]; try case_bool_decide; cbn; try done; try by eapply Hsched, Hold.
    all: split; [done|]; intros [e [He Hke]%lookup_fact_map]; [by destruct (Hno e)|done].
Qed.

(** ** The whole memory *)

Definition memory_wf m : Prop := map_Forall (λ _ p, persona_wf p) (profiles m).

(** The facts known about a user. *)
Definition facts_of (u : string) (m : AutonomousMemoryConsolidator) : gmap (string * string) EpisodicFact :=
  fact_map (default [] (consolidated_facts <$> profiles m !! u)).

(** Ingesting a fact succeeds and inserts it into the user's map from
    (subject, predicate) to the latest fact, superseding at most one older fact
    and touching no other user; profiles keep one fact per key, each with an
    expiry record. *)
Lemma ingest_fact_spec u f m r m' :
  memory_wf m → ingest_fact u f m = (r, m') →
  r = Ok tt ∧ memory_wf m' ∧
  ∀ u', facts_of u' m' = if decide (u' = u) then <[fact_key f := f]> (facts_of u m) else facts_of u' m.
Proof.
  intros Hwf. unfold ingest_fact.
  set (p := default (mkProfile u ∅ [] 0 []) (profiles m !! u)).
  assert (persona_wf p ∧ fact_map (consolidated_facts p) = facts_of u m) as [Hp Hfm].
  { unfold p, facts_of. destruct (profiles m !! u) as [q|] eqn:Hq; cbn; [by split; [apply (Hwf _ _ Hq)|]|].
    split; [|done]. split; cbn; [constructor|]. by intros g ?%not_elem_of_nil. }
  pose proof (ingest_profile_spec f p Hp) as Hi. destruct (ingest_profile f p) as [c p'].
  destruct Hi as (Hp' & Hm & _). intros [= <- <-]. split; [done|]. split.
  - apply map_Forall_insert_2; done.
  - intros u'. unfold facts_of at 1. cbn [profiles]. case_decide as Hu.
    + subst u'. rewrite lookup_insert_eq, <- Hfm. exact Hm.
    + by rewrite lookup_insert_ne by congruence.
Qed.
End facts.
