(* ===== verification/StateMachine.v ===== *)
(** The shard state machine of src/cluster/state_machine.rs, which applies the
    committed entries of the Raft log: the mutation model, the deduplication
    horizon, staged validation and publication over the engines of a shard.

    The relational engine, the agent memory and the hypercube are the models of
    the other files.  The vector engine, the graph, the discovery catalog and the
    relation catalog appear through the class [ShardBackends]: their types and
    the calls the state machine makes.  [None] stands for a panic of the
    relational engine's column access. *)

From stdpp Require Import base gmap sets strings numbers list pretty fin_maps.
From S2P Require Import Prelude RaftTypes Durability Relational Hypercube AgentMemory.
From S2P Require Import Floats.

(** ** Retries *)

Inductive RetrySemantics :=
  | AtLeastOnce
  | Idempotent
  | ExactlyOnceWithinWindow (max_sequence_gap : N).

Record ClientIdentity := mkClient { tenant_id : string; client_id : string }.
#[export] Instance ClientIdentity_eq_dec : EqDecision ClientIdentity.
Proof. solve_decision. Defined.
#[export] Instance ClientIdentity_countable : Countable ClientIdentity.
Proof.
  refine (inj_countable' (λ c, (tenant_id c, client_id c)) (λ p, mkClient p.1 p.2) _). by intros [].
Defined.

Record DeduplicationHorizon := mkHorizon {
  seen : gmap MutationId ApplyReceipt;
  client_sequences : gmap ClientIdentity N;
  client_receipts : gmap ClientIdentity ApplyReceipt;
  order : list MutationId;
  max_capacity : N
}.

Definition horizon_new (max_capacity : N) : DeduplicationHorizon :=
  mkHorizon ∅ ∅ ∅ [] max_capacity.

Definition horizon_check (id : MutationId) (client : option ClientIdentity) (client_seq : N)
    (retry : RetrySemantics) (h : DeduplicationHorizon) : Result (option ApplyReceipt) ApplyError :=
  match retry with
  | AtLeastOnce => Ok None
  | Idempotent => Ok (seen h !! id)
  | ExactlyOnceWithinWindow max_sequence_gap =>
      match client with
      | None => Err (SequenceViolation "ClientIdentity is required for ExactlyOnceWithinWindow")
      | Some c =>
          match client_sequences h !! c with
          | None => Ok None
          | Some last_seq =>
              if (client_seq =? last_seq)%N then
                Ok (match client_receipts h !! c with Some r => Some r | None => seen h !! id end)
              else if (client_seq <? last_seq)%N then
                Err (SequenceViolation "Stale client sequence")
              else if (u64_add last_seq max_sequence_gap <? client_seq)%N then
                Err (SequenceViolation "Client sequence gap exceeded window limit")
              else Ok None
          end
      end
  end.

Definition horizon_insert (receipt : ApplyReceipt) (client : option ClientIdentity)
    (client_seq : N) (h : DeduplicationHorizon) : DeduplicationHorizon :=
  let '(seqs, receipts) :=
    match client with
    | Some c => (<[c := client_seq]> (client_sequences h), <[c := receipt]> (client_receipts h))
    | None => (client_sequences h, client_receipts h)
    end in
  let '(seen', order') :=
    if (max_capacity h <=? N.of_nat (size (seen h)))%N then
      match order h with
      | oldest :: rest => (delete oldest (seen h), rest)
      | [] => (seen h, order h)
      end
    else (seen h, order h) in
  mkHorizon (<[ar_mutation_id receipt := receipt]> seen') seqs receipts
    (order' ++ [ar_mutation_id receipt]) (max_capacity h).

(** [impl From<ApplyError> for HNSQRError] *)
Definition apply_error_from (e : ApplyError) : HNSQRError :=
  match e with
  | LeadershipLost _ _ _ _ => Internal "Leadership lost"
  | StateApplyFailed _ _ _ => Internal "State apply failed"
  | StateMachineUnavailable _ => Internal "State machine unavailable"
  | SequenceViolation reason => Internal ("Sequence violation: " +:+ reason)
  | QuorumUnavailable _ => Internal "Quorum unavailable"
  | ProposalTimedOut _ => Internal "Proposal timed out"
  | Deduplicated _ => Internal "Idempotent replay for mutation"
  end.

(** ** The engines of a shard *)

Class ShardTypes := mkShardTypes {
  VectorEmbedding : Type;
  MetadataValue : Type;
  GraphMutation : Type;
  DeclarativeOperator : Type;
  OperatorLifecycle : Type;
  DiscoveryStateMutation : Type;
  RelationType : Type;
  SegmentedEngine : Type;
  GraphMutationApplier : Type;
  LearningSegment : Type;
  RelationSegment : Type
}.

(** [Err] strings are the errors the calls convert with [to_string]. *)
Class ShardBackends `{types : ShardTypes} := {
  vector_dimension : VectorEmbedding → N;
  engine_dimension : SegmentedEngine → N;
  apply_committed_upsert : string → VectorEmbedding → option (gmap string MetadataValue) →
    SegmentedEngine → HNSQRResult unit * SegmentedEngine;
  apply_delete_unlogged : string → SegmentedEngine → SegmentedEngine;
  apply_committed_metadata_patch : string → gmap string MetadataValue →
    SegmentedEngine → HNSQRResult unit * SegmentedEngine;
  graph_prevalidate : GraphMutation → GraphMutationApplier → HNSQRResult unit;
  graph_apply : GraphMutation → GraphMutationApplier → HNSQRResult unit * GraphMutationApplier;
  operator_id : DeclarativeOperator → N;
  verify_kernel_installed : LearningSegment → Result unit string;
  discovery_prevalidate : DeclarativeOperator → option OperatorLifecycle → N →
    LearningSegment → Result unit string;
  discovery_apply : DeclarativeOperator → option OperatorLifecycle → N →
    LearningSegment → Result unit string * LearningSegment;
  conflict_key : DiscoveryStateMutation → string;
  governed_prevalidate : DiscoveryStateMutation → N → LearningSegment → Result unit string;
  governed_apply : DiscoveryStateMutation → N → LearningSegment →
    Result unit string * LearningSegment;
  materialized_relation_type : DiscoveryStateMutation → option RelationType;
  prevalidate_evolved_type : RelationType → RelationSegment → Result unit string;
  synchronize_evolved_type : RelationType → RelationSegment → RelationSegment
}.

Definition invalid_request {A} (r : Result A string) : HNSQRResult A :=
  match r with Ok a => Ok a | Err e => Err (InvalidRequest e) end.

Section shard.
Context `{types : ShardTypes} `{backends : !ShardBackends}.
Context {B : Type} `{roaring : !Roaring B} `{libm : !Libm}.

(** ** Mutations *)

#[local] Unset Elimination Schemes.
Inductive DataMutation :=
  | Upsert (mutation_id : MutationId) (key : string) (vector : VectorEmbedding)
      (metadata : option (gmap string MetadataValue)) (client : option ClientIdentity)
      (client_seq : N) (retry_semantics : RetrySemantics)
  | Delete (mutation_id : MutationId) (key : string) (client : option ClientIdentity)
      (client_seq : N) (retry_semantics : RetrySemantics)
  | MetadataPatch (mutation_id : MutationId) (key : string) (metadata : gmap string MetadataValue)
  | Batch (mutation_id : MutationId) (mutations : list DataMutation)
  | FaultTolerantBatch (mutation_id : MutationId) (mutations : list DataMutation)
  | MGraph (mutation_id : MutationId) (mutation : GraphMutation)
  | MSql (mutation_id : MutationId) (table : string) (row : Row) (is_delete : bool)
  | MAgentMemory (mutation_id : MutationId) (user_id : string) (fact : EpisodicFact)
  | MHypercube (mutation_id : MutationId) (coords : list N) (value : N)
  | MDiscoveryOperator (mutation_id : MutationId) (operator : DeclarativeOperator)
      (expected_previous : option OperatorLifecycle)
  | MDiscoveryState (mutation_id : MutationId) (mutation : DiscoveryStateMutation).

Definition data_mutation_id (m : DataMutation) : MutationId :=
  match m with
  | Upsert id _ _ _ _ _ _ | Delete id _ _ _ _ | MetadataPatch id _ _ | Batch id _
  | FaultTolerantBatch id _ | MGraph id _ | MSql id _ _ _ | MAgentMemory id _ _
  | MHypercube id _ _ | MDiscoveryOperator id _ _ | MDiscoveryState id _ => id
  end.
#[export] Instance DataMutation_mutation : Mutation DataMutation := data_mutation_id.

(** The constructors; [id] is the identifier [MutationId::generate] draws. *)
Definition new_upsert (id : MutationId) (key : string) (vector : VectorEmbedding) : DataMutation :=
  Upsert id key vector None None 0 Idempotent.
Definition new_upsert_with_metadata (id : MutationId) (key : string) (vector : VectorEmbedding)
    (metadata : option (gmap string MetadataValue)) : DataMutation :=
  Upsert id key vector metadata None 0 Idempotent.
Definition new_delete (id : MutationId) (key : string) : DataMutation :=
  Delete id key None 0 Idempotent.
Definition new_graph (id : MutationId) (mutation : GraphMutation) : DataMutation := MGraph id mutation.
Definition new_sql_insert (id : MutationId) (table : string) (row : Row) : DataMutation :=
  MSql id table row false.
Definition new_agent_memory (id : MutationId) (user_id : string) (fact : EpisodicFact) : DataMutation :=
  MAgentMemory id user_id fact.
Definition new_hypercube_voxel (id : MutationId) (coords : list N) (value : N) : DataMutation :=
  MHypercube id coords value.
Definition new_discovery_operator_transition (id : MutationId) (operator : DeclarativeOperator)
    (expected_previous : option OperatorLifecycle) : DataMutation :=
  MDiscoveryOperator id operator expected_previous.
Definition new_discovery_state_mutation (id : MutationId) (mutation : DiscoveryStateMutation) :
    DataMutation := MDiscoveryState id mutation.
Definition new_batch (id : MutationId) (mutations : list DataMutation) : DataMutation :=
  Batch id mutations.
Definition new_fault_tolerant_batch (id : MutationId) (mutations : list DataMutation) : DataMutation :=
  FaultTolerantBatch id mutations.

Inductive PreparedDelta :=
  | VectorUpsert (key : string) (vector : VectorEmbedding)
      (metadata : option (gmap string MetadataValue))
  | VectorDelete (key : string)
  | VectorMetadataPatch (key : string) (metadata : gmap string MetadataValue)
  | DGraph (mutation : GraphMutation)
  | DSql (table pk : string) (row : Row) (is_delete : bool)
  | DAgentMemory (user_id : string) (fact : EpisodicFact)
  | DHypercube (coords : list N) (value : N)
  | DDiscoveryOperator (operator : DeclarativeOperator)
      (expected_previous : option OperatorLifecycle) (commit_lsn : N)
  | DDiscoveryState (mutation : DiscoveryStateMutation) (commit_lsn : N)
      (evolved_relation_type : option RelationType).

Record ShardStateMachine := mkShard {
  shard_id : N;
  engine : SegmentedEngine;
  sm_last_applied_index : N;
  sm_applied_generation : N;
  dedup_horizon : DeduplicationHorizon;
  sm_graph : option GraphMutationApplier;
  sm_sql : option RelationalSqlEngine;
  sm_memory : option AutonomousMemoryConsolidator;
  sm_hypercube : option (HypercubeTensorSpace B);
  sm_learning : option LearningSegment;
  sm_relations : option RelationSegment
}.
#[export] Instance eta_Shard : Eta ShardStateMachine := λ s,
  mkShard (shard_id s) (engine s) (sm_last_applied_index s) (sm_applied_generation s)
    (dedup_horizon s) (sm_graph s) (sm_sql s) (sm_memory s) (sm_hypercube s) (sm_learning s)
    (sm_relations s).

Definition shard_new (id : N) (e : SegmentedEngine) : ShardStateMachine :=
  mkShard id e 0 1 (horizon_new 65536) None None None None None None.

Definition with_all_paradigms (id : N) (e : SegmentedEngine) (graph : option GraphMutationApplier)
    (sql : option RelationalSqlEngine) (memory : option AutonomousMemoryConsolidator)
    (hypercube : option (HypercubeTensorSpace B)) : ShardStateMachine :=
  mkShard id e 0 1 (horizon_new 65536) graph sql memory hypercube None None.

Definition with_learning_discovery (l : LearningSegment) (s : ShardStateMachine) :
    ShardStateMachine := s <| sm_learning := Some l |>.
Definition with_evolved_relation_catalog (r : RelationSegment) (s : ShardStateMachine) :
    ShardStateMachine := s <| sm_relations := Some r |>.

(** ** Staging *)

Definition prepare_sql (table : string) (row : Row) (is_delete : bool) (s : ShardStateMachine) :
    HNSQRResult PreparedDelta :=
  match sm_sql s with
  | None => Err (InvalidRequest "SQL backend not enabled on this shard")
  | Some sql =>
      match get_table_schema table sql with
      | None => Err (InvalidRequest "Table does not exist")
      | Some schema =>
          match row !! primary_key_column schema with
          | None => Err (InvalidRequest "Row missing primary key")
          | Some pk_val =>
              let? pk_str := match pk_val with
                             | VText t => Ok t
                             | VInteger i => Ok (pretty i)
                             | _ => Err (InvalidRequest "Primary key must be Text or Integer")
                             end in
              if negb is_delete &&
                 existsb (λ col, negb (is_nullable col) && bool_decide (row !! cd_name col = None))
                   (ts_columns schema)
              then Err (InvalidRequest "Non-nullable column missing in row")
              else Ok (DSql table pk_str row is_delete)
          end
      end
  end.

(** Outside [0, 1] *)
Definition out_of_unit (x : b32) : bool := f64_lt x (f32_of_Z 0) || f64_gt x (f32_of_Z 1).

Definition prepare_memory (user_id : string) (fact : EpisodicFact) (s : ShardStateMachine) :
    HNSQRResult PreparedDelta :=
  match sm_memory s with
  | None => Err (InvalidRequest "Agent memory backend not enabled on this shard")
  | Some _ =>
      if out_of_unit (confidence fact) then Err (InvalidRequest "Invalid fact confidence")
      else if out_of_unit (emotional_salience fact)
      then Err (InvalidRequest "Invalid emotional salience")
      else Ok (DAgentMemory user_id fact)
  end.

Definition prepare_hypercube (coords : list N) (value : N) (s : ShardStateMachine) :
    HNSQRResult PreparedDelta :=
  match sm_hypercube s with
  | None => Err (InvalidRequest "Hypercube backend not enabled on this shard")
  | Some h =>
      if negb (length coords =? space_dimensions h)
      then Err (DimensionMismatch (N.of_nat (space_dimensions h)) (lenN coords))
      else if negb (in_shape (shape h) coords)
      then Err (InvalidRequest "Coordinate index out of bounds on dimension")
      else Ok (DHypercube coords value)
  end.

Definition staged_operator (id : N) (d : PreparedDelta) : bool :=
  match d with DDiscoveryOperator staged _ _ => (operator_id staged =? id)%N | _ => false end.
Definition staged_state (key : string) (d : PreparedDelta) : bool :=
  match d with DDiscoveryState staged _ _ => bool_decide (conflict_key staged = key) | _ => false end.

Definition prepare_operator (op : DeclarativeOperator) (prev : option OperatorLifecycle)
    (deltas : list PreparedDelta) (commit_lsn : N) (s : ShardStateMachine) :
    HNSQRResult PreparedDelta :=
  if existsb (staged_operator (operator_id op)) deltas
  then Err (InvalidRequest "Only one lifecycle transition per discovered operator is allowed in a committed LSN")
  else match sm_learning s with
  | None => Err (InvalidRequest "Learning discovery backend not enabled on this shard")
  | Some l =>
      let? _ := invalid_request (verify_kernel_installed l) in
      let? _ := invalid_request (discovery_prevalidate op prev commit_lsn l) in
      Ok (DDiscoveryOperator op prev commit_lsn)
  end.

Definition prepare_state (m : DiscoveryStateMutation) (deltas : list PreparedDelta)
    (commit_lsn : N) (s : ShardStateMachine) : HNSQRResult PreparedDelta :=
  if existsb (staged_state (conflict_key m)) deltas
  then Err (InvalidRequest "Only one mutation per governed discovery key is allowed in a committed LSN")
  else match sm_learning s with
  | None => Err (InvalidRequest "Learning discovery backend not enabled on this shard")
  | Some l =>
      let? _ := invalid_request (governed_prevalidate m commit_lsn l) in
      let evolved := materialized_relation_type m in
      let? _ := match sm_relations s, evolved with
                | Some relations, Some rtype => invalid_request (prevalidate_evolved_type rtype relations)
                | _, _ => Ok tt
                end in
      Ok (DDiscoveryState m commit_lsn evolved)
  end.

(** Every leaf stages one delta or fails. *)
Definition stage (deltas : list PreparedDelta) (r : HNSQRResult PreparedDelta) :
    HNSQRResult unit * list PreparedDelta :=
  match r with Ok d => (Ok tt, deltas ++ [d]) | Err e => (Err e, deltas) end.

(** [prepare_mutation]: the deltas staged so far are an in-out parameter, and
    what a failing call has pushed stays there. *)
Fixpoint prepare_mutation (s : ShardStateMachine) (commit_lsn : N) (m : DataMutation)
    (deltas : list PreparedDelta) : HNSQRResult unit * list PreparedDelta :=
  match m with
  | Upsert _ key vector metadata _ _ _ =>
      stage deltas
        (if negb (vector_dimension vector =? engine_dimension (engine s))%N
         then Err (DimensionMismatch (engine_dimension (engine s)) (vector_dimension vector))
         else Ok (VectorUpsert key vector metadata))
  | Delete _ key _ _ _ => stage deltas (Ok (VectorDelete key))
  | MetadataPatch _ key metadata => stage deltas (Ok (VectorMetadataPatch key metadata))
  | MGraph _ mutation =>
      stage deltas
        (match sm_graph s with
         | None => Err (InvalidRequest "Graph backend not enabled on this shard")
         | Some g => let? _ := graph_prevalidate mutation g in Ok (DGraph mutation)
         end)
  | MSql _ table row is_delete => stage deltas (prepare_sql table row is_delete s)
  | MAgentMemory _ user_id fact => stage deltas (prepare_memory user_id fact s)
  | MHypercube _ coords value => stage deltas (prepare_hypercube coords value s)
  | MDiscoveryOperator _ op prev => stage deltas (prepare_operator op prev deltas commit_lsn s)
  | MDiscoveryState _ mutation => stage deltas (prepare_state mutation deltas commit_lsn s)
  | Batch _ mutations =>
      (fix go (ms : list DataMutation) (deltas : list PreparedDelta) :=
         match ms with
         | [] => (Ok tt, deltas)
         | m :: ms =>
             match prepare_mutation s commit_lsn m deltas with
             | (Err e, deltas) => (Err e, deltas)
             | (Ok _, deltas) => go ms deltas
             end
         end) mutations deltas
  | FaultTolerantBatch _ mutations =>
      (fix go (ms : list DataMutation) (deltas : list PreparedDelta) :=
         match ms with
         | [] => (Ok tt, deltas)
         | m :: ms => go ms (prepare_mutation s commit_lsn m deltas).2
         end) mutations deltas
  end.

(** ** Publication *)

Definition publish_delta (d : PreparedDelta) (s : ShardStateMachine) :
    option (HNSQRResult unit * ShardStateMachine) :=
  match d with
  | VectorUpsert key vector metadata =>
      let '(r, e) := apply_committed_upsert key vector metadata (engine s) in
      Some (r, s <| engine := e |>)
  | VectorDelete key => Some (Ok tt, s <| engine ::= apply_delete_unlogged key |>)
  | VectorMetadataPatch key metadata =>
      let '(r, e) := apply_committed_metadata_patch key metadata (engine s) in
      Some (r, s <| engine := e |>)
  | DGraph m =>
      match sm_graph s with
      | None => Some (Ok tt, s)
      | Some g => let '(r, g) := graph_apply m g in Some (r, s <| sm_graph := Some g |>)
      end
  | DSql table _ row is_delete =>
      match sm_sql s with
      | None => Some (Ok tt, s)
      | Some sql =>
          '(r, sql) ← apply_committed_row_mutation table row is_delete sql;
          Some (r, s <| sm_sql := Some sql |>)
      end
  | DAgentMemory user_id fact =>
      match sm_memory s with
      | None => Some (Ok tt, s)
      | Some m => let '(r, m) := ingest_fact user_id fact m in Some (r, s <| sm_memory := Some m |>)
      end
  | DHypercube coords value =>
      match sm_hypercube s with
      | None => Some (Ok tt, s)
      | Some h => let '(r, h) := set_voxel coords value h in Some (r, s <| sm_hypercube := Some h |>)
      end
  | DDiscoveryOperator op prev commit_lsn =>
      match sm_learning s with
      | None => Some (Ok tt, s)
      | Some l =>
          let '(r, l) := discovery_apply op prev commit_lsn l in
          Some (invalid_request r, s <| sm_learning := Some l |>)
      end
  | DDiscoveryState m commit_lsn evolved =>
      let '(r, s) :=
        match sm_learning s with
        | None => (Ok tt, s)
        | Some l =>
            let '(r, l) := governed_apply m commit_lsn l in
            (invalid_request r, s <| sm_learning := Some l |>)
        end in
      match r with
      | Err e => Some (Err e, s)
      | Ok _ =>
          Some (Ok tt, match sm_relations s, evolved with
                       | Some relations, Some rtype =>
                           s <| sm_relations := Some (synchronize_evolved_type rtype relations) |>
                       | _, _ => s
                       end)
      end
  end.

Fixpoint publish_deltas (ds : list PreparedDelta) (s : ShardStateMachine) :
    option (HNSQRResult unit * ShardStateMachine) :=
  match ds with
  | [] => Some (Ok tt, s)
  | d :: ds =>
      '(r, s) ← publish_delta d s;
      match r with
      | Err e => Some (Err e, s)
      | Ok _ => publish_deltas ds s
      end
  end.

(** ** Application *)

Definition retry_contract (m : DataMutation) : option ClientIdentity * N * RetrySemantics :=
  match m with
  | Upsert _ _ _ _ client client_seq retry => (client, client_seq, retry)
  | Delete _ _ client client_seq retry => (client, client_seq, retry)
  | _ => (None, 0%N, Idempotent)
  end.

Definition shard_apply (entry_index : N) (m : DataMutation) (s : ShardStateMachine) :
    option (HNSQRResult ApplyReceipt * ShardStateMachine) :=
  let mutation_id := data_mutation_id m in
  let '(client, seq, retry) := retry_contract m in
  match horizon_check mutation_id client seq retry (dedup_horizon s) with
  | Err e => Some (Err (apply_error_from e), s)
  | Ok (Some cached) => Some (Ok cached, s)
  | Ok None =>
      match prepare_mutation s entry_index m [] with
      | (Err e, _) => Some (Err e, s)
      | (Ok _, deltas) =>
          '(r, s) ← publish_deltas deltas s;
          match r with
          | Err e => Some (Err e, s)
          | Ok _ =>
              let cur_gen := u64_add (sm_applied_generation s) 1 in
              let receipt := mkApplyReceipt mutation_id entry_index cur_gen entry_index in
              Some (Ok receipt,
                    s <| sm_last_applied_index := entry_index |>
                      <| sm_applied_generation := cur_gen |>
                      <| dedup_horizon ::= horizon_insert receipt client seq |>)
          end
      end
  end.

(** [pin_universal_snapshot] *)
Record UniversalSnapshotHandle := mkHandle { uh_generation : N; uh_lsn : N }.
Definition pin_universal_snapshot (s : ShardStateMachine) : UniversalSnapshotHandle :=
  mkHandle (sm_applied_generation s) (sm_last_applied_index s).
End shard.
