(* ===== verification/StateMachineFacts.v ===== *)
(** What the shard state machine guarantees to its clients: a mutation retried
    within the deduplication horizon is answered with its first receipt and not
    applied again, a client's sequence numbers only move forward, and a batch
    over the relational, memory, tensor and deletion paths is applied whole or
    not at all.  And what it guarantees to the Raft node: it satisfies the laws the
    node's theorems assume of a state machine. *)

From stdpp Require Import base gmap sets strings numbers list pretty fin_maps.
From S2P Require Import Prelude.
From S2P Require Import Pending.
From S2P Require Import ReadIndex.
From S2P Require Import RaftTypes.
From S2P Require Import Durability.
From S2P Require Import RaftNode.
From S2P Require Import RaftApply.
From S2P Require Import Relational.
From S2P Require Import RelationalFacts.
From S2P Require Import Hypercube.
From S2P Require Import Floats.
From S2P Require Import HypercubeFacts.
From S2P Require Import AgentMemory.
From S2P Require Import AgentMemoryFacts.
From S2P Require Import StateMachine.

(** ** The horizon *)

Record horizon_wf (h : DeduplicationHorizon) : Prop := {
  hw_order : NoDup (order h);
  hw_seen id : id ∈ order h ↔ is_Some (seen h !! id);
  hw_bound : (lenN (order h) ≤ N.max 1 (max_capacity h))%N
}.

Lemma horizon_new_wf cap : horizon_wf (horizon_new cap).
Proof.
  split; cbn; [constructor| |unfold lenN; cbn; lia].
  intros id. rewrite lookup_empty, elem_of_nil. split; [done|]. by intros [? ?].
Qed.

Lemma seen_size h : horizon_wf h → size (seen h) = length (order h).
Proof.
  intros [Hnd Hs _]. rewrite <- size_dom. rewrite <- (size_list_to_set (C := gset MutationId) _ Hnd).
  f_equal. apply set_eq. intros id. by rewrite elem_of_dom, elem_of_list_to_set, Hs.
Qed.

(** The front of the queue that an insertion evicts. *)
Definition evicted (h : DeduplicationHorizon) : list MutationId :=
  if (max_capacity h <=? lenN (order h))%N then take 1 (order h) else [].

Lemma horizon_insert_order r c q h : horizon_wf h →
  let h' := horizon_insert r c q h in
  evicted h ++ order h' = order h ++ [ar_mutation_id r] ∧
  seen h' = <[ar_mutation_id r := r]> (foldr delete (seen h) (evicted h)) ∧
  max_capacity h' = max_capacity h.
Proof.
  intros Hwf. unfold horizon_insert, evicted. rewrite (seen_size h Hwf). fold (lenN (order h)).
  destruct c; destruct (max_capacity h <=? lenN (order h))%N; destruct (order h) as [|o rest]; done.
Qed.

Lemma horizon_insert_wf r c q h : horizon_wf h → seen h !! ar_mutation_id r = None →
  horizon_wf (horizon_insert r c q h).
Proof.
  intros Hwf Hfresh. destruct (horizon_insert_order r c q h Hwf) as (Ho & Hs & Hc).
  pose proof Hwf as [Hnd Hseen Hb].
  assert (ar_mutation_id r ∉ order h) as Hni.
  { rewrite Hseen, Hfresh. by intros [? ?]. }
  assert (NoDup (evicted h ++ order (horizon_insert r c q h))) as Hnd'.
  { rewrite Ho. apply NoDup_app. split_and!; [done| |apply NoDup_singleton].
    intros x Hx ->%list_elem_of_singleton. done. }
  apply NoDup_app in Hnd' as (_ & Hdis & Hnd').
  split; [done| |].
  - intros id. rewrite Hs, lookup_insert. case_decide as Hid.
    + subst id. split; [done|]. intros _.
      assert (ar_mutation_id r ∈ evicted h ++ order (horizon_insert r c q h)) as [Hin|?]%elem_of_app;
        [rewrite Ho; set_solver| |done].
      destruct Hni. unfold evicted in Hin. destruct (_ <=? _)%N; [|by apply not_elem_of_nil in Hin].
      destruct (order h); [by apply not_elem_of_nil in Hin|]. cbn in Hin. apply list_elem_of_singleton in Hin. subst. left.
    + assert (is_Some (foldr delete (seen h) (evicted h) !! id) ↔ (id ∉ evicted h) ∧ id ∈ order h) as ->.
      { rewrite Hseen. unfold evicted. destruct (_ <=? _)%N; cbn; [|set_solver].
        destruct (order h) as [|o rest]; cbn; [set_solver|].
        rewrite lookup_delete, list_elem_of_singleton. case_decide; subst; [|naive_solver].
        split; [by intros [? ?]|naive_solver]. }
      assert (id ∈ evicted h ++ order (horizon_insert r c q h) ↔ id ∈ order h) as Hiff.
      { rewrite Ho, elem_of_app, list_elem_of_singleton. naive_solver. }
      rewrite elem_of_app in Hiff. specialize (Hdis id). naive_solver.
  - rewrite Hc. apply (f_equal lenN) in Ho. rewrite !lenN_app in Ho. change (lenN [_]) with 1%N in Ho.
    unfold evicted in Ho. destruct (N.leb_spec (max_capacity h) (lenN (order h))); [|cbn in Ho; lia].
    destruct (order h) as [|o rest]; cbn in Ho |- *; unfold lenN in *; cbn in *; lia.
Qed.

(** Where an identifier stands in the queue: at most [k] others came after it. *)
Definition recent (id : MutationId) (k : N) (r : ApplyReceipt) (h : DeduplicationHorizon) : Prop :=
  seen h !! id = Some r ∧ ∃ pre post, order h = pre ++ id :: post ∧ (lenN post ≤ k)%N.

Lemma recent_insert_new r c q h : horizon_wf h → seen h !! ar_mutation_id r = None →
  recent (ar_mutation_id r) 0 r (horizon_insert r c q h).
Proof.
  intros Hwf Hf. destruct (horizon_insert_order r c q h Hwf) as (Ho & Hs & _). split.
  - rewrite Hs. apply lookup_insert_eq.
  - assert (∃ pre, order (horizon_insert r c q h) = pre ++ [ar_mutation_id r]) as [pre ->].
    { unfold evicted in Ho. destruct (_ <=? _)%N; [|by exists (order h)].
      destruct (order h) as [|o rest]; cbn in Ho; [by exists []|]. injection Ho as ->. by exists rest. }
    by exists pre, [].
Qed.

Lemma recent_insert id k r r' c q h : horizon_wf h → recent id k r h →
  seen h !! ar_mutation_id r' = None → (k + 1 < max_capacity h)%N →
  recent id (k + 1) r (horizon_insert r' c q h).
Proof.
  intros Hwf (Hid & pre & post & Hord & Hk) Hf Hcap.
  destruct (horizon_insert_order r' c q h Hwf) as (Ho & Hs & _). unfold evicted in *. rewrite Hord in *.
  assert (id ≠ ar_mutation_id r') as Hne by congruence.
  destruct (N.leb_spec (max_capacity h) (lenN (pre ++ id :: post))) as [Hfull|_].
  2:{ split; [rewrite Hs; cbn; by rewrite lookup_insert_ne|].
      exists pre, (post ++ [ar_mutation_id r']). cbn in Ho. rewrite Ho, <- app_assoc. split; [done|].
      rewrite lenN_snoc. lia. }
  destruct pre as [|o pre]; [unfold lenN in *; cbn in *; lia|]. cbn in Ho, Hs. injection Ho as Ho. split.
  - rewrite Hs, lookup_insert_ne, lookup_delete_ne; [done| |done]. intros ->.
    destruct Hwf as [Hnd _ _]. rewrite Hord in Hnd. cbn in Hnd. apply NoDup_cons in Hnd as [Hnd _]. set_solver.
  - exists pre, (post ++ [ar_mutation_id r']). rewrite Ho, <- app_assoc. split; [done|].
    rewrite lenN_snoc. lia.
Qed.

Section shard_facts.
Context `{types : ShardTypes} `{backends : !ShardBackends}.
Context {B : Type} `{roaring : !Roaring B} `{libm : !Libm}.
Abbreviation SM := (ShardStateMachine (B := B)).
Implicit Types (s : ShardStateMachine (B := B)) (m : DataMutation).

(** Publishing leaves the bookkeeping alone. *)
Definition same_books s s' : Prop :=
  dedup_horizon s' = dedup_horizon s ∧ sm_applied_generation s' = sm_applied_generation s ∧
  sm_last_applied_index s' = sm_last_applied_index s.

Lemma publish_delta_books d s r s' : publish_delta d s = Some (r, s') → same_books s s'.
Proof.
  destruct d; cbn; intros Hp; repeat case_match; simplify_eq; try done.
  all: try (apply bind_Some in Hp as ([? ?] & _ & Hp)); by simplify_eq.
Qed.

Lemma publish_deltas_books ds s r s' : publish_deltas ds s = Some (r, s') → same_books s s'.
Proof.
  revert s. induction ds as [|d ds IH]; intros s; cbn [publish_deltas]; [by intros [= <- <-]|].
  rewrite bind_Some. intros ([r1 s1] & Hd%publish_delta_books & Hp).
  destruct r1; [|by injection Hp as <- <-]. destruct Hd as (H1 & H2 & H3), (IH s1 Hp) as (H4 & H5 & H6).
  split_and!; congruence.
Qed.

(** The three ways an entry can go. *)
Inductive applied (i : N) m s : HNSQRResult ApplyReceipt → SM → Prop :=
  | ap_cached r client seq retry : retry_contract m = (client, seq, retry) →
      horizon_check (data_mutation_id m) client seq retry (dedup_horizon s) = Ok (Some r) →
      applied i m s (Ok r) s
  | ap_failed e s' : dedup_horizon s' = dedup_horizon s → applied i m s (Err e) s'
  | ap_done client seq retry deltas s1 s' r :
      retry_contract m = (client, seq, retry) →
      horizon_check (data_mutation_id m) client seq retry (dedup_horizon s) = Ok None →
      prepare_mutation s i m [] = (Ok tt, deltas) → publish_deltas deltas s = Some (Ok tt, s1) →
      r = mkApplyReceipt (data_mutation_id m) i (u64_add (sm_applied_generation s) 1) i →
      s' = s1 <| sm_last_applied_index := i |>
              <| sm_applied_generation := u64_add (sm_applied_generation s) 1 |>
              <| dedup_horizon := horizon_insert r client seq (dedup_horizon s) |> →
      applied i m s (Ok r) s'.

Lemma shard_apply_inv i m s r s' : shard_apply i m s = Some (r, s') → applied i m s r s'.
Proof.
  unfold shard_apply. destruct (retry_contract m) as [[client seq] retry] eqn:Hr.
  destruct (horizon_check _ _ _ _ _) as [[cached|]|e] eqn:Hc; [| |by intros [= <- <-]; constructor].
  { intros [= <- <-]. by econstructor. }
  destruct (prepare_mutation s i m []) as [[[]|e] deltas] eqn:Hp; [|by intros [= <- <-]; constructor].
  rewrite bind_Some. intros ([r1 s1] & Hd & Hx).
  destruct (publish_deltas_books _ _ _ _ Hd) as (Hh & Hg & Hl).
  destruct r1 as [[]|e]; injection Hx as <- <-; [|by constructor].
  eapply ap_done; [done..|by rewrite Hg|]. rewrite Hg. unfold update. cbn. by rewrite Hh.
Qed.

(** ** Retries *)

Definition idempotent m : Prop := (retry_contract m).2 = Idempotent.

Lemma apply_horizon_wf i m s r s' : idempotent m → horizon_wf (dedup_horizon s) →
  shard_apply i m s = Some (r, s') →
  horizon_wf (dedup_horizon s') ∧
  max_capacity (dedup_horizon s') = max_capacity (dedup_horizon s) ∧
  ∀ id k r0, (k + 1 < max_capacity (dedup_horizon s))%N → recent id k r0 (dedup_horizon s) →
    recent id (k + 1) r0 (dedup_horizon s').
Proof.
  intros Hm Hwf Ha%shard_apply_inv.
  assert (∀ id k r0, recent id k r0 (dedup_horizon s) → recent id (k + 1) r0 (dedup_horizon s)) as Hmono.
  { intros id k r0 (Hs & pre & post & Ho & Hl). split; [done|]. exists pre, post. split; [done|lia]. }
  destruct Ha as [r client seq retry Hr Hc|e s' Hh|client seq retry deltas s1 s' r Hr Hc Hp Hd -> ->].
  - split_and!; [done..|]. intros. by apply Hmono.
  - rewrite Hh. split_and!; [done..|]. intros. by apply Hmono.
  - unfold idempotent in Hm. rewrite Hr in Hm. cbn in Hm. subst retry. cbn in Hc. injection Hc as Hc.
    cbn [dedup_horizon update]. split_and!.
    + by apply horizon_insert_wf.
    + by destruct (horizon_insert_order (mkApplyReceipt (data_mutation_id m) i
        (u64_add (sm_applied_generation s) 1) i) client seq _ Hwf) as (_ & _ & ?).
    + intros id k r0 Hk Hrec. by apply recent_insert.
Qed.

(** A run of the state machine over consecutive entries, whatever each returns. *)
Fixpoint shard_run (es : list (N * DataMutation)) s : option SM :=
  match es with
  | [] => Some s
  | (i, m) :: es => '(_, s) ← shard_apply i m s; shard_run es s
  end.

Lemma run_recent es s s' id k r :
  Forall (λ x, idempotent x.2) es → horizon_wf (dedup_horizon s) → recent id k r (dedup_horizon s) →
  (k + lenN es < max_capacity (dedup_horizon s))%N → shard_run es s = Some s' →
  seen (dedup_horizon s') !! id = Some r.
Proof.
  revert s k. induction es as [|[i m] es IH]; intros s k Hes Hwf Hrec Hk; cbn [shard_run].
  { intros [= <-]. apply Hrec. }
  apply Forall_cons in Hes as [Hm Hes]. rewrite bind_Some. intros ([r1 s1] & Ha & Hrun).
  assert (lenN ((i, m) :: es) = lenN es + 1)%N as Hl by (unfold lenN; cbn; lia). rewrite Hl in Hk.
  destruct (apply_horizon_wf i m s r1 s1 Hm Hwf Ha) as (Hwf1 & Hc1 & Hr1).
  eapply (IH s1 (k + 1)%N); [done..| | |done]; [apply Hr1; [lia|done]|lia].
Qed.

(** C18: A retried idempotent mutation is not applied twice: once it has been
    applied and acknowledged, applying it again after fewer than max_capacity
    further idempotent entries returns the first receipt and leaves the shard
    unchanged. *)
Theorem retry_deduplicated i j m s r s1 es s2 :
  idempotent m → horizon_wf (dedup_horizon s) → seen (dedup_horizon s) !! data_mutation_id m = None →
  shard_apply i m s = Some (Ok r, s1) →
  Forall (λ x, idempotent x.2) es → (lenN es < max_capacity (dedup_horizon s))%N →
  shard_run es s1 = Some s2 →
  shard_apply j m s2 = Some (Ok r, s2) ∧ ar_applied_index r = i.
Proof.
  intros Hm Hwf Hfresh Ha Hes Hlen Hrun. pose proof (apply_horizon_wf i m s _ s1 Hm Hwf Ha) as (Hwf1 & Hc1 & _).
  apply shard_apply_inv in Ha.
  inversion Ha as [r0 client seq retry Hr Hc| |client seq retry deltas s0 s' r0 Hr Hc Hp Hd -> ->]; subst.
  { unfold idempotent in Hm. rewrite Hr in Hm. cbn in Hm. subst retry. cbn in Hc. congruence. }
  split; [|done].
  assert (seen (dedup_horizon s2) !! data_mutation_id m =
    Some (mkApplyReceipt (data_mutation_id m) i (u64_add (sm_applied_generation s) 1) i)) as Hseen.
  { eapply (run_recent es _ s2 _ 0); [done|done| |rewrite Hc1; lia|done]. by apply (recent_insert_new
      (mkApplyReceipt (data_mutation_id m) i (u64_add (sm_applied_generation s) 1) i)). }
  unfold shard_apply. unfold idempotent in Hm. rewrite Hr in *. cbn in Hm. subst retry. cbn.
  by rewrite Hseen.
Qed.

(** ** Client sequences *)

Definition from_client (c : ClientIdentity) m : Prop := (retry_contract m).1.1 = Some c.

Lemma apply_keeps_client c i m s r s' : ¬ from_client c m → shard_apply i m s = Some (r, s') →
  client_sequences (dedup_horizon s') !! c = client_sequences (dedup_horizon s) !! c ∧
  client_receipts (dedup_horizon s') !! c = client_receipts (dedup_horizon s) !! c.
Proof.
  intros Hc Ha%shard_apply_inv. destruct Ha as [|e s' Hh|client seq retry deltas s1 s' r Hr _ _ _ _ ->];
    [done|by rewrite Hh|]. cbn [dedup_horizon update]. unfold from_client in Hc. rewrite Hr in Hc. cbn in Hc.
  unfold horizon_insert. destruct client as [c'|].
  - case_match; cbn; rewrite !lookup_insert_ne by congruence; done.
  - by case_match.
Qed.

Lemma run_keeps_client c es s s' : Forall (λ x, ¬ from_client c x.2) es → shard_run es s = Some s' →
  client_sequences (dedup_horizon s') !! c = client_sequences (dedup_horizon s) !! c ∧
  client_receipts (dedup_horizon s') !! c = client_receipts (dedup_horizon s) !! c.
Proof.
  revert s. induction es as [|[i m] es IH]; intros s Hes; cbn [shard_run]; [by intros [= <-]|].
  apply Forall_cons in Hes as [Hm Hes]. rewrite bind_Some. intros ([r1 s1] & Ha & Hrun).
  destruct (apply_keeps_client c i m s r1 s1 Hm Ha) as [<- <-]. by apply IH.
Qed.

(** A client under ExactlyOnceWithinWindow cannot replay or skip: after its
    sequence number q was applied, and whatever other clients did since, q again
    returns the recorded receipt and a smaller number or one beyond the gap is
    refused, both without touching the shard. *)
Lemma client_sequence_window c i j m m' s r s1 es s2 q q' gap gap' :
  retry_contract m = (Some c, q, ExactlyOnceWithinWindow gap) →
  retry_contract m' = (Some c, q', ExactlyOnceWithinWindow gap') →
  client_sequences (dedup_horizon s) !! c ≠ Some q →
  shard_apply i m s = Some (Ok r, s1) →
  Forall (λ x, ¬ from_client c x.2) es → shard_run es s1 = Some s2 →
  (q' = q → shard_apply j m' s2 = Some (Ok r, s2)) ∧
  ((q' < q)%N ∨ (u64_add q gap' < q')%N ∧ q ≠ q' → ∃ e, shard_apply j m' s2 = Some (Err e, s2)).
Proof.
  intros Hm Hm' Hnew Ha%shard_apply_inv Hes Hrun.
  inversion Ha as [r0 client seq retry Hr Hc| |client seq retry deltas s0 s' r0 Hr Hc Hp Hd -> ->]; subst;
    rewrite Hm in Hr; injection Hr as <- <- <-.
  { cbn in Hc. destruct (client_sequences _ !! c) as [l|]; [|done].
    destruct (N.eqb_spec q l) as [->|_]; [done|]. by repeat case_match. }
  destruct (run_keeps_client c es _ s2 Hes Hrun) as [Hseq Hrec]. clear Hrun.
  assert (∀ r h, client_sequences (horizon_insert r (Some c) q h) !! c = Some q ∧
    client_receipts (horizon_insert r (Some c) q h) !! c = Some r) as Hins.
  { intros r0 h. unfold horizon_insert. case_match. cbn. by rewrite !lookup_insert_eq. }
  cbn [dedup_horizon update] in Hseq, Hrec. rewrite (proj1 (Hins _ _)) in Hseq.
  rewrite (proj2 (Hins _ _)) in Hrec. unfold shard_apply. rewrite Hm'. cbn [horizon_check]. rewrite Hseq, Hrec. split.
  - intros ->. by rewrite N.eqb_refl.
  - intros Hbad. destruct (N.eqb_spec q' q); [lia|]. destruct (N.ltb_spec q' q); [by eexists|].
    destruct (N.ltb_spec (u64_add q gap') q'); [by eexists|lia].
Qed.

(** ** Batches *)

Section mutation_ind.
Variable P : DataMutation → Prop.
Hypothesis Hleaf : ∀ m, match m with Batch _ _ | FaultTolerantBatch _ _ => True | _ => P m end.
Hypothesis Hbatch : ∀ id ms, Forall P ms → P (Batch id ms).
Hypothesis Hft : ∀ id ms, Forall P ms → P (FaultTolerantBatch id ms).

Fixpoint mutation_ind m : P m :=
  let all := fix go ms : Forall P ms :=
    match ms with [] => @List.Forall_nil _ P | m :: ms => @List.Forall_cons _ P m ms (mutation_ind m) (go ms) end in
  match m as m0 return match m0 with Batch _ _ | FaultTolerantBatch _ _ => True | _ => P m0 end → P m0 with
  | Batch id ms => λ _, Hbatch id ms (all ms)
  | FaultTolerantBatch id ms => λ _, Hft id ms (all ms)
  | _ => λ H, H
  end (Hleaf m).
End mutation_ind.

(** The single mutations of a batch, in order. *)
Fixpoint leaves m : list DataMutation :=
  match m with
  | Batch _ ms | FaultTolerantBatch _ ms => concat (map leaves ms)
  | _ => [m]
  end.

(** No part of it may fail silently. *)
Fixpoint strict m : bool :=
  match m with
  | FaultTolerantBatch _ _ => false
  | Batch _ ms => forallb strict ms
  | _ => true
  end.

(** The paths whose staging decides whether publication succeeds. *)
Definition decided_leaf m : Prop :=
  match m with
  | Delete _ _ _ _ _ | MSql _ _ _ _ | MAgentMemory _ _ _ | MHypercube _ _ _ => True
  | _ => False
  end.

(** The rows of a mutation have the declared types. *)
Definition typed_leaf s m : Prop :=
  match m with
  | MSql _ table row _ =>
      ∀ e sch, sm_sql s = Some e → tables e !! table = Some sch → typed_row sch row
  | _ => True
  end.

(** The delta a leaf turns into. *)
Definition leaf_delta m (d : PreparedDelta) : Prop :=
  match m, d with
  | Delete _ key _ _ _, VectorDelete key' => key' = key
  | MSql _ table row del, DSql table' _ row' del' => table' = table ∧ row' = row ∧ del' = del
  | MAgentMemory _ u f, DAgentMemory u' f' => u' = u ∧ f' = f
  | MHypercube _ c v, DHypercube c' v' => c' = c ∧ v' = v
  | _, _ => False
  end.

(** Tables that exist have storage, and the storage is consistent. *)
Definition shard_ok s : Prop :=
  ∀ e, sm_sql s = Some e → engine_wf e ∧
    ∀ table sch, tables e !! table = Some sch → is_Some (storage_tables e !! table).

(** A staged delta the engines will accept. *)
Definition publishable s (d : PreparedDelta) : Prop :=
  match d with
  | VectorDelete _ => True
  | DSql table _ row _ => ∃ e sch pk, sm_sql s = Some e ∧ tables e !! table = Some sch ∧
      primary_key sch row = Ok pk ∧ typed_row sch row
  | DAgentMemory _ _ => True
  | DHypercube c _ => ∃ h, sm_hypercube s = Some h ∧ in_space h c
  | _ => False
  end.

(** What staging a mutation adds to the deltas. *)
Definition staged s (ls : list DataMutation) (ok : bool) (complete : bool) (new : list PreparedDelta) : Prop :=
  Forall (publishable s) new ∧ (ok = true → complete = true → Forall2 leaf_delta ls new).

Lemma prepare_leaf s i m ds : decided_leaf m → typed_leaf s m →
  ∃ r new, prepare_mutation s i m ds = (r, ds ++ new) ∧ staged s [m] (is_ok r) true new.
Proof.
  intros Hd Ht. assert (∀ d, publishable s d → leaf_delta m d → staged s [m] true true [d]) as Hone.
  { intros d Hp Hl. split; [by constructor|]. intros _ _. by repeat constructor. }
  assert (∀ R (e : HNSQRError), R = Err e →
    ∃ r new, stage ds R = (r, ds ++ new) ∧ staged s [m] (is_ok r) true new) as Herr.
  { intros R e ->. exists (Err e), []. rewrite app_nil_r. split; [done|]. by split. }
  assert (∀ d, publishable s d → leaf_delta m d →
    ∃ r new, stage ds (Ok d) = (r, ds ++ new) ∧ staged s [m] (is_ok r) true new) as Hok.
  { intros d Hp Hl. exists (Ok tt), [d]. split; [done|]. by apply Hone. }
  destruct m; try done; cbn [prepare_mutation].
  - by apply Hok.
  - cbn in Ht. unfold prepare_sql. destruct (sm_sql s) as [e|] eqn:He; [|by eapply Herr].
    unfold get_table_schema. destruct (tables e !! table) as [sch|] eqn:Hs; [|by eapply Herr].
    destruct (row !! primary_key_column sch) as [v|] eqn:Hv; [|by eapply Herr].
    assert (∀ pk, (v = VText pk ∨ ∃ z, v = VInteger z ∧ pk = pretty z) →
      publishable s (DSql table pk row is_delete)) as Hpub.
    { intros pk Hpk. exists e, sch, pk. split_and!; [done|done| |by eapply Ht].
      unfold primary_key. rewrite Hv. by destruct Hpk as [->|(z & -> & ->)]. }
    destruct v as [|z|t| |]; [by eapply Herr| | |by eapply Herr|by eapply Herr].
    + destruct (negb is_delete && _); [by eapply Herr|]. apply Hok; [apply Hpub; eauto|done].
    + destruct (negb is_delete && _); [by eapply Herr|]. apply Hok; [apply Hpub; eauto|done].
  - unfold prepare_memory. destruct (sm_memory s); [|by eapply Herr].
    destruct (out_of_unit (confidence fact)); [by eapply Herr|].
    destruct (out_of_unit (emotional_salience fact)); [by eapply Herr|]. by apply Hok.
  - unfold prepare_hypercube. destruct (sm_hypercube s) as [h|] eqn:Hh; [|by eapply Herr].
    destruct (length coords =? space_dimensions h) eqn:Hl; [|by eapply Herr]. cbn [negb].
    destruct (in_shape (shape h) coords) eqn:Hi; [|by eapply Herr]. cbn [negb].
    apply Hok; [|done]. exists h. split; [done|]. split; [by apply Nat.eqb_eq in Hl|done].
Qed.

Lemma staged_app s ls1 ls2 ok c1 c2 new1 new2 :
  staged s ls1 true c1 new1 → staged s ls2 ok c2 new2 →
  staged s (ls1 ++ ls2) ok (c1 && c2) (new1 ++ new2).
Proof.
  intros [Hp1 Hd1] [Hp2 Hd2]. split; [by apply Forall_app|]. intros Hok [-> ->]%andb_true_iff.
  apply Forall2_app; auto.
Qed.

Lemma prepare_staged s i m ds : Forall decided_leaf (leaves m) → Forall (typed_leaf s) (leaves m) →
  ∃ r new, prepare_mutation s i m ds = (r, ds ++ new) ∧ staged s (leaves m) (is_ok r) (strict m) new.
Proof.
  intros Hd Ht. revert ds Hd Ht. pattern m. apply mutation_ind; clear m.
  - intros m0. destruct m0; try done. all: intros ds Hd Ht; cbn [leaves] in Hd, Ht; apply Forall_cons in Hd as [Hd _], Ht as [Ht _]; by apply prepare_leaf.
  - intros id ms IH ds Hd Ht. cbn [prepare_mutation leaves strict] in *. revert ds.
    induction IH as [|m ms Hm IH IHms]; intros ds; cbn [map concat forallb] in *.
    { exists (Ok tt), []. rewrite app_nil_r. split; [done|]. by split. }
    apply Forall_app in Hd as [Hd1 Hd2], Ht as [Ht1 Ht2].
    destruct (Hm ds Hd1 Ht1) as ([[]|e] & new & -> & Hs).
    2:{ exists (Err e), new. split; [done|]. destruct Hs as [Hp _]. by split. }
    destruct (IHms Hd2 Ht2 (ds ++ new)) as (r & new' & -> & Hs'). exists r, (new ++ new').
    rewrite app_assoc. split; [done|]. by apply staged_app.
  - intros id ms IH ds Hd Ht. cbn [prepare_mutation leaves strict] in *. revert ds.
    assert (∀ ds, ∃ r new, (fix go (ms : list DataMutation) (deltas : list PreparedDelta) :
           HNSQRResult unit * list PreparedDelta :=
       match ms with
       | [] => (Ok tt, deltas)
       | m :: ms => go ms (prepare_mutation s i m deltas).2
       end) ms ds = (r, ds ++ new) ∧ Forall (publishable s) new) as Hall.
    { induction IH as [|m ms Hm IH IHms]; intros ds; cbn [map concat] in *.
      { exists (Ok tt), []. by rewrite app_nil_r. }
      apply Forall_app in Hd as [Hd1 Hd2], Ht as [Ht1 Ht2].
      destruct (Hm ds Hd1 Ht1) as (r1 & new & -> & Hp & _).
      destruct (IHms Hd2 Ht2 (ds ++ new)) as (r & new' & Heq & Hp'). exists r, (new ++ new').
      cbn [snd]. rewrite Heq, app_assoc. split; [done|]. by apply Forall_app. }
    intros ds. destruct (Hall ds) as (r & new & -> & Hp). exists r, new. split; [done|]. by split.
Qed.

Lemma publish_delta_ok d s : shard_ok s → publishable s d →
  ∃ s', publish_delta d s = Some (Ok tt, s') ∧ shard_ok s' ∧ ∀ d', publishable s d' → publishable s' d'.
Proof.
  intros Hok Hp. destruct d; try done; cbn [publish_delta].
  - by eexists.
  - destruct Hp as (e & sch & pk' & He & Hs & Hpk & Hty). rewrite He.
    destruct (Hok e He) as [Hwf Hst]. destruct (Hst table sch Hs) as [t Ht].
    destruct (apply_committed_row_spec table row is_delete e sch t pk' Hwf Hs Ht Hpk Hty)
      as (e' & Ha & Hwf' & Htb & _ & _).
    rewrite Ha. cbn [mbind option_bind]. eexists. split; [done|]. split.
    + intros e2 [= <-]. split; [done|]. rewrite Htb. intros tbl sch' Hsch'.
      unfold apply_committed_row_mutation in Ha. rewrite Hs, Hpk in Ha. cbn in Ha.
      apply bind_Some in Ha as (t' & _ & [= <-]). cbn. rewrite lookup_insert.
      case_decide; [done|]. by eapply Hst.
    + intros [] Hp'; try done. destruct Hp' as (e2 & sch2 & pk2 & He2 & Hs2 & Hx).
      rewrite He in He2. injection He2 as <-. exists e', sch2, pk2. by rewrite Htb.
  - destruct (sm_memory s) as [m|]; [|by eexists].
    destruct (ingest_fact user_id fact m) as [r m'] eqn:Hi. assert (r = Ok tt) as ->.
    { unfold ingest_fact in Hi. case_match. congruence. }
    by eexists.
  - destruct Hp as (h & Hh & Hc). rewrite Hh.
    assert ((set_voxel coords value h).1 = Ok tt) as Hr.
    { unfold set_voxel. apply in_space_test, andb_true_iff in Hc as [-> ->]. cbn.
      by destruct (split_tile_coord h coords). }
    pose proof (set_voxel_frame coords value h) as Hsh.
    destruct (set_voxel coords value h) as [r h']. cbn in Hr, Hsh. subst r.
    eexists. split; [done|]. split; [done|]. intros [] Hp'; try done.
    destruct Hp' as (h2 & Hh2 & Hc2). rewrite Hh in Hh2. injection Hh2 as <-.
    exists h'. split; [done|]. unfold in_space. by rewrite Hsh.
Qed.

Lemma publish_deltas_ok ds s : shard_ok s → Forall (publishable s) ds →
  ∃ s', publish_deltas ds s = Some (Ok tt, s') ∧ shard_ok s'.
Proof.
  revert s. induction ds as [|d ds IH]; intros s Hok Hp; cbn [publish_deltas]; [by exists s|].
  apply Forall_cons in Hp as [Hd Hds]. destruct (publish_delta_ok d s Hok Hd) as (s1 & -> & Hok1 & Hmono).
  cbn [mbind option_bind]. apply IH; [done|]. eapply Forall_impl; [exact Hds|]. apply Hmono.
Qed.

(** What the deduplication horizon answers for a mutation. *)
Definition deduplicated m s : Result (option ApplyReceipt) ApplyError :=
  let '(client, seq, retry) := retry_contract m in horizon_check (data_mutation_id m) client seq retry (dedup_horizon s).

(** C19: A mutation or a batch all of whose nested batches are strict is atomic
    over the deletion, relational, agent-memory and tensor paths: on a
    consistent shard, applying well-typed mutations never panics and an error
    leaves the whole shard unchanged; success means either that the
    deduplication horizon already held the receipt that is returned, and the
    shard is unchanged, or that it held none and every mutation of the batch has
    been published, in order, with the entry's index recorded. Batches that
    contain a fault-tolerant one are not covered. *)
Theorem batch_all_or_nothing i m s :
  shard_ok s → strict m = true → Forall decided_leaf (leaves m) → Forall (typed_leaf s) (leaves m) →
  ∃ r s', shard_apply i m s = Some (r, s') ∧ shard_ok s' ∧
    match r with
    | Err _ => s' = s
    | Ok rc =>
        (deduplicated m s = Ok (Some rc) ∧ s' = s) ∨
        (deduplicated m s = Ok None ∧
         ∃ deltas s1, publish_deltas deltas s = Some (Ok tt, s1) ∧ Forall2 leaf_delta (leaves m) deltas ∧
           engine s' = engine s1 ∧ sm_sql s' = sm_sql s1 ∧ sm_memory s' = sm_memory s1 ∧
           sm_hypercube s' = sm_hypercube s1 ∧ sm_last_applied_index s' = i ∧
           ar_applied_index rc = i)
    end.
Proof.
  intros Hok Hst Hd Ht. unfold shard_apply, deduplicated. destruct (retry_contract m) as [[client seq] retry].
  destruct (horizon_check _ _ _ _ _) as [[cached|]|e]; [by eexists _, _; split; [done|]; split; [|left]| |].
  2:{ by eexists _, _. }
  destruct (prepare_staged s i m [] Hd Ht) as ([[]|e] & new & -> & Hp & Hleaf); [|by eexists _, _].
  destruct (publish_deltas_ok new s Hok Hp) as (s1 & Hpub & Hok1). cbn [app]. rewrite Hpub.
  cbn [mbind option_bind]. eexists _, _. split; [done|]. split; [exact Hok1|]. right. split; [done|]. exists new, s1.
  split_and!; [done| |done..]. by apply Hleaf.
Qed.
End shard_facts.

Section replica.
Context `{types : ShardTypes} `{backends : !ShardBackends}.
Context {B : Type} `{roaring : !Roaring B} `{libm : !Libm}.
Abbreviation SM := (ShardStateMachine (B := B)).

(** A panic of the relational engine's column access ends the applying thread:
    the entry is not acknowledged and the machine keeps its state. *)
#[export] Instance shard_rsm : ReplicatedStateMachine SM DataMutation := {|
  rsm_apply i m s := default (Err (Internal "panicked"), s) (shard_apply i m s);
  rsm_last_applied_index := sm_last_applied_index;
  rsm_applied_generation := sm_applied_generation
|}.

Definition positive_receipts (h : DeduplicationHorizon) : Prop :=
  map_Forall (λ _ r, 0 < ar_applied_index r)%N (seen h) ∧
  map_Forall (λ _ r, 0 < ar_applied_index r)%N (client_receipts h).

Lemma check_positive id c q retry h r : positive_receipts h →
  horizon_check id c q retry h = Ok (Some r) → (0 < ar_applied_index r)%N.
Proof.
  intros [Hs Hc] Hk. unfold horizon_check in Hk. repeat case_match; simplify_eq; try by eapply Hs.
  by eapply Hc.
Qed.

Lemma insert_positive r c q h : positive_receipts h → (0 < ar_applied_index r)%N →
  positive_receipts (horizon_insert r c q h).
Proof.
  intros [Hs Hc] Hr. unfold horizon_insert. destruct c as [c|].
  all: destruct (_ <=? _)%N; [destruct (order h)|]; split; cbn; try done.
  all: try (apply map_Forall_insert_2; [done|]); try done; by apply map_Forall_delete.
Qed.

#[export] Instance shard_rsm_laws : RsmLaws SM DataMutation.
Proof.
  refine {| rsm_inv s := positive_receipts (dedup_horizon s) |}.
  intros i m s r s' Hinv Hi. cbn [rsm_apply shard_rsm].
  destruct (shard_apply i m s) as [[r0 s0]|] eqn:Ha; cbn [default from_option id];
    [|by intros [= <- <-]].
  intros [= <- <-]. apply shard_apply_inv in Ha.
  destruct Ha as [r client seq retry Hr Hc|e s' Hh|client seq retry deltas s1 s' r Hr Hc Hp Hd -> ->].
  - split; [done|]. intros rc [= <-]. by eapply check_positive.
  - by rewrite Hh.
  - split; [by apply insert_positive|]. by intros rc [= <-].
Defined.
End replica.
