(* ===== verification/EngineSamples.v ===== *)
(** Concrete engines and a concrete shard over them: a two-table database with a
    foreign key, tensor spaces, the memory of one user (with simple decreasing
    approximations for the logarithm and the exponential) and a shard of vectors
    in a map, one table and a tensor.  The theorems of the engines and of the
    state machine are applied to them; some runs show values that typed columns
    lose, voxels mixed up past the Morton range and a batch applied in part.
    Finite sets as the bitmaps of the metadata index: its theorems applied to small
    indexes. *)

From Stdlib Require Import ZArith SpecFloat.
From stdpp Require Import base gmap sets strings numbers list pretty fin_maps.
From S2P Require Import Prelude.
From S2P Require Import Durability.
From S2P Require Import Relational.
From S2P Require Import RelationalFacts.
From S2P Require Import Floats.
From S2P Require Import Hypercube.
From S2P Require Import HypercubeFacts.
From S2P Require Import AgentMemory.
From S2P Require Import AgentMemoryFacts.
From S2P Require Import RaftTypes.
From S2P Require Import StateMachine.
From S2P Require Import StateMachineFacts.
From S2P Require Import MetadataIndex.
From S2P Require Import MetadataFacts.

Definition users : TableSchema :=
  mkSchema "users" [mkColumn "id" TInteger true false None;
                    mkColumn "tenant" TText false false None] "id".
Definition orders : TableSchema :=
  mkSchema "orders" [mkColumn "oid" TText true false None;
                     mkColumn "user" TInteger false true (Some ("users", "id"))] "oid".

Definition sample_db : RelationalSqlEngine :=
  (create_table orders (create_table users sql_new).2).2.

Definition user_row (i : Z) (tenant : string) : Row :=
  {["id" := VInteger i; "tenant" := VText tenant]}.
Definition order_row (o : string) (u : Z) : Row :=
  {["oid" := VText o; "user" := VInteger u]}.

Lemma sample_db_wf : engine_wf sample_db.
Proof.
  intros name t. change (storage_tables sample_db) with
    (<["orders" := table_new orders]> (<["users" := table_new users]> ∅) : gmap string ColumnarTable).
  intros [[<- <-]|[_ Hl]]%lookup_insert_Some.
  { split; [|done]. apply table_new_wf. repeat constructor; set_solver. }
  apply lookup_insert_Some in Hl as [[<- <-]|[_ Hl]]; [|by rewrite lookup_empty in Hl].
  split; [|done]. apply table_new_wf. repeat constructor; set_solver.
Qed.

(** Rows of the declared types. *)
Lemma user_row_typed i tenant : typed_row users (user_row i tenant).
Proof.
  intros col Hc. cbn in Hc. rewrite !elem_of_cons, elem_of_nil in Hc.
  destruct Hc as [->|[->|[]]]; by vm_compute.
Qed.

Lemma order_row_typed o u : typed_row orders (order_row o u).
Proof.
  intros col Hc. cbn in Hc. rewrite !elem_of_cons, elem_of_nil in Hc.
  destruct Hc as [->|[->|[]]]; by vm_compute.
Qed.

Lemma sample_row_applied :
  ∃ e', apply_committed_row_mutation "users" (user_row 7 "acme") false sample_db = Some (Ok tt, e') ∧
    engine_wf e' ∧ tables e' = tables sample_db ∧ current_version e' = 2%N ∧
    database e' = db_write (tables sample_db) (database sample_db)
                    ("users", "7", Some (user_row 7 "acme")).
Proof.
  apply (apply_committed_row_spec "users" (user_row 7 "acme") false sample_db users (table_new users) "7").
  - apply sample_db_wf.
  - reflexivity.
  - reflexivity.
  - reflexivity.
  - apply user_row_typed.
Defined.

(** One committed user, then an open transaction with an order. *)
Definition buffered : RelationalSqlEngine :=
  let '(tx, e) := begin_transaction sample_db in (sql_insert tx "users" (user_row 7 "acme") e).2.
Definition with_user : RelationalSqlEngine :=
  match sql_commit 1 buffered with Some (_, e) => e | None => sample_db end.

Lemma with_user_wf : engine_wf with_user.
Proof.
  assert (∃ tx, active_transactions buffered !! 1%N = Some tx ∧
    uncommitted_writes tx = [("users", "7", Some (user_row 7 "acme"))]) as (tx & Htx & Hw)
    by (eexists; split; vm_compute; reflexivity).
  destruct (commit_spec 1 tx buffered) as (e' & He & Hwf & _).
  - exact sample_db_wf.
  - exact Htx.
  - rewrite Hw. intros table pk row s Hin%list_elem_of_singleton Hs. injection Hin as -> -> ->.
    assert (s = users) as -> by (vm_compute in Hs; injection Hs as <-; reflexivity). apply user_row_typed.
  - unfold with_user. by rewrite He.
Qed.

Definition opened : N * RelationalSqlEngine := begin_transaction with_user.
Definition ordered : RelationalSqlEngine := (insert_all opened.1 [("orders", order_row "o1" 7)] opened.2).2.


Definition stored_users : ColumnarTable := default (table_new users) (storage_tables with_user !! "users").

Lemma insert_checks_foreign_keys_witness :
  ∃ trow, (∃ pk, contents stored_users !! pk = Some trow) ∧ trow !! "id" = Some (VInteger 7).
Proof.
  apply (insert_checks_foreign_keys opened.1 "orders" (order_row "o1" 7) opened.2 ordered orders
           (mkColumn "user" TInteger false true (Some ("users", "id"))) "users"
           (mkColumn "id" TInteger true false None) stored_users (VInteger 7)).
  - exact with_user_wf.
  - vm_compute. reflexivity.
  - reflexivity.
  - vm_compute. set_solver.
  - reflexivity.
  - reflexivity.
  - discriminate.
  - vm_compute. reflexivity.
  - vm_compute. set_solver.
Defined.

Lemma execute_select_spec_witness :
  ∃ rows, execute_select "users" None (Some (mkPolicy "tenant" "acme")) with_user = Ok rows ∧
    ∀ row, row ∈ rows ↔
      (∃ pk, contents stored_users !! pk = Some row) ∧
      (∀ p, Some (mkPolicy "tenant" "acme") = Some p →
         row !! tenant_column p = Some (VText (allowed_tenant_id p))) ∧
      (∀ f, (None : option (Row → bool)) = Some f → f row = true).
Proof.
  apply (execute_select_spec with_user "users" stored_users None (Some (mkPolicy "tenant" "acme"))).
  - apply with_user_wf.
  - vm_compute. reflexivity.
Defined.

(** ** What the typed columns lose *)

(** A [NULL] reads back as the zero of the column's type, and the reference it
    stands for is then taken literally by the value index. *)
Theorem null_reads_back_as_zero :
  match insert_or_update "o2" {["oid" := VText "o2"; "user" := VNull]} 1 (table_new orders) with
  | Some t => (get_row 0 t ≫= (.!! "user")) = Some (VInteger 0)
  | None => False
  end.
Proof. vm_compute. reflexivity. Qed.

(** An update with a value of another type changes the index but not the cell:
    the index finds a value no row has. *)
Theorem mistyped_update_corrupts_index :
  match insert_or_update "1" (user_row 1 "acme") 1 (table_new users)
          ≫= insert_or_update "1" {["id" := VText "1"; "tenant" := VText "acme"]} 2 with
  | Some t => target_exists "id" (VText "1") t = true ∧ target_exists "id" (VInteger 1) t = false ∧
              (get_row 0 t ≫= (.!! "id")) = Some (VInteger 1)
  | None => False
  end.
Proof. vm_compute. by split_and!. Qed.

(** Two transactions write the same row; both commit, and the first write is
    lost without an error. *)
Theorem write_write_conflict_unnoticed :
  let '(t1, e) := begin_transaction with_user in
  let '(t2, e) := begin_transaction e in
  let '(r1, e) := sql_insert t1 "users" (user_row 9 "first") e in
  let '(r2, e) := sql_insert t2 "users" (user_row 9 "second") e in
  match sql_commit t1 e with
  | Some (r3, e) =>
      match sql_commit t2 e with
      | Some (r4, e) => r1 = Ok tt ∧ r2 = Ok tt ∧ r3 = Ok tt ∧ r4 = Ok tt ∧
          ((database e !! "users" ≫= (.!! "9")) ≫= (.!! "tenant")) = Some (VText "second")
      | None => False
      end
  | None => False
  end.
Proof. vm_compute. repeat (split; [reflexivity|]). reflexivity. Qed.

(** Finite sets implement the bitmap interface. *)
#[export] Instance set_roaring : Roaring (gset N) := {|
  roaring_new := ∅;
  roaring_insert i b := {[i]} ∪ b;
  roaring_contains i b := bool_decide (i ∈ b);
  roaring_iter b := elements b
|}.

#[export] Instance set_roaring_laws : RoaringLaws (gset N).
Proof.
  split; cbn.
  - intros i. by apply bool_decide_eq_false.
  - intros i j b. apply eq_true_iff_eq. rewrite orb_true_iff, !bool_decide_eq_true. set_solver.
  - intros i b. rewrite bool_decide_eq_true. apply elem_of_elements.
  - intros b. apply NoDup_elements.
Qed.

#[local] Existing Instance canonical_order.

Definition sample_writes : list (CoordinateND * f32) :=
  [([2; 40], 7); ([33; 100], 8); ([2; 40], 9); ([200; 0], 5)]%N.
Definition sample_space : HypercubeTensorSpace (gset N) :=
  write_all_voxels sample_writes (space_new [100; 128]%N).

Lemma sample_space_wf : space_wf sample_space.
Proof.
  apply (writes_refine sample_writes (space_new [100; 128]%N) ∅).
  - apply space_new_wf; [by cbn|]. repeat constructor; vm_compute; discriminate.
  - intros c. rewrite lookup_empty. unfold get_voxel. by repeat case_match.
Qed.

Lemma morton_round_trip_witness :
  let e := encoder_new 3 in
  (morton_encode e [5; 12; 30] < u64_modulus)%N ∧
  morton_decode e (morton_encode e [5; 12; 30]%N) [1; 1; 1]%N = [5; 12; 30]%N.
Proof.
  apply (morton_round_trip [5; 12; 30]%N [1; 1; 1]%N); [by cbn|done|].
  repeat constructor.
Defined.

Lemma voxels_refine_map_witness :
  get_voxel [2; 40]%N sample_space = Some 9%N ∧ get_voxel [200; 0]%N sample_space = None.
Proof.
  assert (∀ c, get_voxel c sample_space = map_writes [100; 128]%N sample_writes ∅ !! c) as H.
  { intros c. apply voxels_refine_map; [by cbn|]. repeat constructor; vm_compute; discriminate. }
  rewrite !H. split; vm_compute; reflexivity.
Defined.

Lemma slice_subvolume_spec_witness : ∃ res,
  slice_subvolume (mkBox [0; 30]%N [5; 50]%N) sample_space = Some (Ok res) ∧
  ([2; 40]%N, 9%N) ∈ res ∧ ([33; 100]%N, 8%N) ∉ res.
Proof.
  destruct (slice_subvolume_spec [0; 30]%N [5; 50]%N (mkBox [0; 30]%N [5; 50]%N) sample_space)
    as (res & Hs & _ & Hin); [apply sample_space_wf|reflexivity|reflexivity|].
  exists res. split; [exact Hs|]. rewrite !Hin. split.
  - split; vm_compute; reflexivity.
  - intros [_ Hc]. vm_compute in Hc. discriminate.
Defined.

Lemma snapshot_reads_witness :
  snapshot_get_voxel [33; 100]%N (space_snapshot sample_space) = Some 8%N.
Proof. rewrite snapshot_reads; [vm_compute; reflexivity|apply sample_space_wf]. Defined.

(** Four dimensions leave 16 bits each: in a space of 70000 planes, a voxel
    written in plane 65536 is read in plane 0, where nothing was written. *)
Lemma far_planes_alias :
  let '(r, s) := set_voxel [65536; 0; 0; 0]%N 1%N
    (space_new (B := gset N) [70000; 1; 1; 1]%N) in
  r = Ok tt ∧ get_voxel [0; 0; 0; 0]%N s = Some 1%N.
Proof. vm_compute. done. Qed.

#[export] Instance sample_libm : Libm := {|
  f32_ln _ := f32_of_Z (-3);
  f32_exp x := f32_div (f32_of_Z 1) (f32_add (f32_of_Z 1) (SFopp x))
|}.

Definition likes (id what : string) (at_secs : N) : EpisodicFact :=
  mkFact id "user" "language" what UserPreference (f32_of_Z 1) (f32_of_Z 0) 0 at_secs at_secs.
Definition met (id : string) (at_secs : N) : EpisodicFact :=
  mkFact id "user" "met" "Ada" TemporalEvent (f32_of_Z 1) (f32_of_Z 0) 0 at_secs at_secs.

Definition sample_memory : AutonomousMemoryConsolidator :=
  (ingest_fact "u1" (met "f2" 2000)
    (ingest_fact "u1" (likes "f1" "Python" 1000) memory_new).2).2.

Lemma sample_memory_wf : memory_wf sample_memory.
Proof.
  apply (map_Forall_insert_2 (λ _ p, persona_wf p)).
  2:{ apply (map_Forall_insert_2 (λ _ p, persona_wf p)); [|apply map_Forall_empty].
      split; cbn; [repeat constructor; set_solver|].
      intros f ->%list_elem_of_singleton. eexists. split; [left|done]. }
  split; cbn.
  - repeat constructor; set_solver.
  - intros f [->|[->|?%not_elem_of_nil]%elem_of_cons]%elem_of_cons; [| |done].
    + eexists. split; [right; left|done].
    + eexists. split; [left|done].
Qed.

Lemma ingest_fact_spec_witness :
  facts_of "u1" (ingest_fact "u1" (likes "f3" "Rust" 3000) sample_memory).2
    !! ("user", "language") = Some (likes "f3" "Rust" 3000).
Proof.
  destruct (ingest_fact "u1" (likes "f3" "Rust" 3000) sample_memory) as [r m'] eqn:E.
  destruct (ingest_fact_spec "u1" (likes "f3" "Rust" 3000) sample_memory r m') as (_ & _ & Hf);
    [apply sample_memory_wf|exact E|].
  cbn [snd]. rewrite Hf, decide_True by reflexivity. apply lookup_insert_eq.
Defined.

(** Ten years later both facts are below one half. *)
Lemma prune_decayed_facts_spec_witness :
  let half := f32_div (f32_of_Z 1) (f32_of_Z 2) in
  fst <$> prune_decayed_facts 315360000 half sample_memory = Some 2%N ∧
  ∃ m' p k, snd <$> prune_decayed_facts 315360000 half sample_memory = Some m' ∧
    profiles m' !! "u1" = Some p ∧
    ∀ q, profiles sample_memory !! "u1" = Some q → pruned 315360000 half q k p.
Proof.
  cbv zeta. split; [vm_compute; reflexivity|].
  destruct (prune_decayed_facts_spec 315360000 (f32_div (f32_of_Z 1) (f32_of_Z 2)) sample_memory)
    as (m' & Hp & Hall).
  - apply (map_Forall_insert_2 (λ _ p, NoDup (fact_id <$> consolidated_facts p)));
      [cbn; repeat constructor; set_solver|].
    apply (map_Forall_insert_2 (λ _ p, NoDup (fact_id <$> consolidated_facts p)));
      [cbn; repeat constructor; set_solver|apply map_Forall_empty].
  - specialize (Hall "u1"). destruct (profiles sample_memory !! "u1") as [q|] eqn:E;
      [|vm_compute in E; discriminate E].
    destruct (profiles m' !! "u1") as [p|] eqn:E'; [|destruct Hall].
    destruct Hall as [k Hk]. exists m', p, k.
    split; [rewrite Hp; reflexivity|]. split; [exact E'|]. intros ? [= <-]. exact Hk.
Defined.

#[export] Instance sample_types : ShardTypes :=
  mkShardTypes (list N) string unit N unit string unit (gmap string (list N)) unit unit unit.

#[export] Instance sample_backends : ShardBackends := {|
  vector_dimension := lenN;
  engine_dimension _ := 2%N;
  apply_committed_upsert key v _ e := (Ok tt, <[key := v]> e);
  apply_delete_unlogged key e := delete key e;
  apply_committed_metadata_patch _ _ e := (Ok tt, e);
  graph_prevalidate _ _ := Ok tt;
  graph_apply _ g := (Ok tt, g);
  operator_id op := op;
  verify_kernel_installed _ := Ok tt;
  discovery_prevalidate _ _ _ _ := Ok tt;
  discovery_apply _ _ _ l := (Ok tt, l);
  conflict_key m := m;
  governed_prevalidate _ _ _ := Ok tt;
  governed_apply _ _ l := (Ok tt, l);
  materialized_relation_type _ := None;
  prevalidate_evolved_type _ _ := Ok tt;
  synchronize_evolved_type _ r := r
|}.

Definition sample_shard : ShardStateMachine (B := gset N) :=
  with_all_paradigms 1 {[ "v1" := [1; 2]%N ]} None (Some sample_db) (Some sample_memory)
    (Some sample_space).

Lemma sample_shard_ok : shard_ok sample_shard.
Proof.
  intros e [= <-]. split; [apply sample_db_wf|]. intros table sch.
  change (storage_tables sample_db) with
    (<["orders" := table_new orders]> (<["users" := table_new users]> ∅) : gmap string ColumnarTable).
  change (tables sample_db) with (<["orders" := orders]> (<["users" := users]> ∅) : gmap string TableSchema).
  rewrite !lookup_insert. by repeat case_decide.
Qed.

(** Vectors only. *)
Definition plain_shard : ShardStateMachine (B := gset N) :=
  shard_new 1 {[ "v1" := [1; 2]%N ]}.

Definition upsert_v2 : DataMutation := Upsert "m1" "v2" [3; 4]%N None None 0 Idempotent.
Definition others : list (N * DataMutation) :=
  [(6, Upsert "m2" "v3" [5; 6] None None 0 Idempotent); (7, Delete "m3" "v1" None 0 Idempotent)]%N.

Lemma retry_deduplicated_witness : ∃ r s1 s2,
  shard_apply 5 upsert_v2 plain_shard = Some (Ok r, s1) ∧ shard_run others s1 = Some s2 ∧
  shard_apply 8 upsert_v2 s2 = Some (Ok r, s2) ∧ ar_applied_index r = 5%N.
Proof.
  destruct (shard_apply 5 upsert_v2 plain_shard) as [[[r|e] s1]|] eqn:Ha;
    [|vm_compute in Ha; discriminate Ha|vm_compute in Ha; discriminate Ha].
  destruct (shard_run others s1) as [s2|] eqn:Hr.
  - exists r, s1, s2. split; [reflexivity|]. split; [exact Hr|].
    apply (retry_deduplicated 5 8 upsert_v2 plain_shard r s1 others s2).
    + reflexivity.
    + apply horizon_new_wf.
    + reflexivity.
    + exact Ha.
    + repeat constructor.
    + vm_compute. reflexivity.
    + exact Hr.
  - exfalso. injection Ha as _ <-. vm_compute in Hr. discriminate Hr.
Defined.

Definition sample_batch : DataMutation :=
  Batch "b1" [MSql "b1-1" "users" (user_row 7 "acme") false; MHypercube "b1-2" [3; 4]%N 11;
              Delete "b1-3" "v1" None 0 Idempotent].

Lemma batch_all_or_nothing_witness : ∃ s',
  shard_apply 9 sample_batch sample_shard =
    Some (Ok (mkApplyReceipt "b1" 9 2 9), s') ∧ shard_ok s' ∧ sm_last_applied_index s' = 9%N.
Proof.
  destruct (batch_all_or_nothing 9 sample_batch sample_shard) as (r & s' & Ha & Hok & Hr).
  - apply sample_shard_ok.
  - reflexivity.
  - repeat constructor.
  - constructor; [|repeat constructor]. intros e sch [= <-] [= <-]. apply user_row_typed.
  - assert (fst <$> shard_apply 9 sample_batch sample_shard =
      Some (Ok (mkApplyReceipt "b1" 9 2 9))) as Hfst by (vm_compute; reflexivity).
    rewrite Ha in Hfst. injection Hfst as ->. exists s'. split; [exact Ha|]. split; [exact Hok|].
    destruct Hr as [[Hd _]|(_ & deltas & s1 & _ & _ & _ & _ & _ & _ & Hi & _)]; [|exact Hi].
    vm_compute in Hd. discriminate Hd.
Defined.

Definition alice : ClientIdentity := mkClient "acme" "alice".
Definition alice_puts (id : string) (seq : N) : DataMutation :=
  Upsert id "v9" [7; 8]%N None (Some alice) seq (ExactlyOnceWithinWindow 10).

Lemma client_sequence_window_witness : ∃ r s1 s2,
  shard_apply 5 (alice_puts "a4" 4) plain_shard = Some (Ok r, s1) ∧ shard_run others s1 = Some s2 ∧
  shard_apply 8 (alice_puts "a4-again" 4) s2 = Some (Ok r, s2) ∧
  ∃ e, shard_apply 8 (alice_puts "a3" 3) s2 = Some (Err e, s2).
Proof.
  destruct (shard_apply 5 (alice_puts "a4" 4) plain_shard) as [[[r|e] s1]|] eqn:Ha;
    [|vm_compute in Ha; discriminate Ha|vm_compute in Ha; discriminate Ha].
  destruct (shard_run others s1) as [s2|] eqn:Hr.
  - exists r, s1, s2. split; [reflexivity|]. split; [exact Hr|].
    assert (Forall (λ x, ¬ from_client alice x.2) others) as Ho
      by (repeat constructor; intros Hc; discriminate Hc).
    split.
    + apply (client_sequence_window alice 5 8 (alice_puts "a4" 4) (alice_puts "a4-again" 4) plain_shard
        r s1 others s2 4 4 10 10); try reflexivity; [vm_compute; discriminate|exact Ha|exact Ho|exact Hr].
    + apply (client_sequence_window alice 5 8 (alice_puts "a4" 4) (alice_puts "a3" 3) plain_shard
        r s1 others s2 4 3 10 10); try reflexivity; [vm_compute; discriminate|exact Ha|exact Ho|exact Hr|].
      left. reflexivity.
  - exfalso. injection Ha as _ <-. vm_compute in Hr. discriminate Hr.
Defined.

(** The strict batch fails, yet its first row is applied. *)
Definition nested_batch : DataMutation :=
  FaultTolerantBatch "b2" [Batch "b3" [MHypercube "b3-1" [3; 4]%N 11; MHypercube "b3-2" [999; 0]%N 12]].

Lemma nested_batch_partial :
  is_err (prepare_mutation sample_shard 9
    (Batch "b3" [MHypercube "b3-1" [3; 4]%N 11; MHypercube "b3-2" [999; 0]%N 12]) []).1 = true ∧
  (s' ← snd <$> shard_apply 9 nested_batch sample_shard;
   h ← sm_hypercube s'; get_voxel [3; 4]%N h) = Some 11%N.
Proof. vm_compute. done. Qed.

#[export] Instance set_roaring_sets : RoaringSets (gset N) := {|
  roaring_remove i b := b ∖ {[i]};
  roaring_or := (∪);
  roaring_and := (∩);
  roaring_sub := (∖);
  roaring_range lo hi := list_to_set ((λ k, lo + N.of_nat k)%N <$> seq 0 (N.to_nat (hi - lo)));
  roaring_is_empty b := bool_decide (b = ∅);
  serialized_size b := (8 + 2 * N.of_nat (size b))%N
|}.

#[export] Instance set_roaring_sets_laws : RoaringSetsLaws (gset N).
Proof.
  split; cbn.
  - intros i j b. apply eq_true_iff_eq. rewrite andb_true_iff, negb_true_iff, bool_decide_eq_false, !bool_decide_eq_true. set_solver.
  - intros i a b. apply eq_true_iff_eq. rewrite orb_true_iff, !bool_decide_eq_true. set_solver.
  - intros i a b. apply eq_true_iff_eq. rewrite andb_true_iff, !bool_decide_eq_true. set_solver.
  - intros i a b. apply eq_true_iff_eq. rewrite andb_true_iff, negb_true_iff, bool_decide_eq_false, !bool_decide_eq_true. set_solver.
  - intros i lo hi. apply eq_true_iff_eq. rewrite andb_true_iff, bool_decide_eq_true, N.leb_le, N.ltb_lt.
    rewrite elem_of_list_to_set, list_elem_of_fmap. setoid_rewrite elem_of_seq. split.
    + intros (k & -> & Hk). lia.
    + intros Hi. exists (N.to_nat (i - lo)). lia.
  - intros b. rewrite bool_decide_eq_true. setoid_rewrite bool_decide_eq_false. set_solver.
Qed.

(** A flat earth, for distances *)
#[local] Instance flat_math : GeoMath := {|
  f64_sin x := x;
  f64_cos _ := f64_of_Z 1;
  f64_atan2 y _ := y;
  f64_square x := f64_mul x x
|}.

Definition item (category : string) (price : f64) (place : string) : gmap string MetadataValue :=
  {["category" := MString category; "price" := MFloat price; "place" := MString place]}.
Definition item_ops : list IndexOp :=
  [O_Index 0 (item "gpu" (f64_of_Z 30) "40.75,-73.97");
   O_Batch [(1%N, item "gpu" (f64_of_Z 70) "48.85, 2.35"); (2%N, item "cpu" (f64_of_Z 40) "40.72,-73.95")];
   O_Json 3 [("category", J_String "cpu"); ("level", J_Number "5"); ("tags", J_Other)];
   O_Reload;
   O_Remove 1 (item "gpu" (f64_of_Z 70) "48.85, 2.35");
   O_Index 4 (item "gpu" (f64_of_Z 50) "nowhere");
   O_Purge 4].

Definition manhattan : GeoPolygon :=
  default (mkPolygon [] (mkBox2D S754_nan S754_nan S754_nan S754_nan))
    (polygon_new [mkPoint (f64_ratio 4070 100) (f64_ratio (-7402) 100); mkPoint (f64_ratio 4080 100) (f64_ratio (-7402) 100);
                  mkPoint (f64_ratio 4080 100) (f64_ratio (-7392) 100); mkPoint (f64_ratio 4070 100) (f64_ratio (-7392) 100)]).
Definition cheap_in_manhattan : FilterExpr :=
  F_And [F_GeoWithin "place" manhattan; F_Range "price" (f64_of_Z 0) (f64_of_Z 35);
         F_Not (F_In "category" [MString "cpu"; MBoolean true])].

Lemma filter_correct_witness :
  ∃ b : gset N, evaluate_filter cheap_in_manhattan 5 (run_ops item_ops index_new) = Some b ∧
    ∀ v, roaring_contains v b = satisfies (ops_facts item_ops) 5 v cheap_in_manhattan.
Proof. apply (filter_correct item_ops cheap_in_manhattan 5); vm_compute; reflexivity. Defined.

Example cheap_in_manhattan_found :
  elements <$> evaluate_filter (B := gset N) cheap_in_manhattan 5 (run_ops item_ops index_new) = Some [0%N].
Proof. vm_compute. reflexivity. Qed.

(** An index of one node *)
Definition one_node (v : MetadataValue) : MetadataInvertedIndex (gset N) := index_node 7 {["x" := v]} index_new.
Definition found (e : FilterExpr) (i : MetadataInvertedIndex (gset N)) : option (list N) := elements <$> evaluate_filter e 10 i.

(** A range over integers compares the value itself with bounds times a million. *)
Example integer_range_scaled :
  found (F_Range "x" (f64_of_Z 1) (f64_of_Z 9)) (one_node (MInteger 5)) = Some [] ∧
  found (F_Range "x" (f64_of_Z 1) (f64_of_Z 9)) (one_node (MInteger 5000000)) = Some [7%N] ∧
  found (F_Range "x" (f64_of_Z 1) (f64_of_Z 9)) (one_node (MFloat (f64_of_Z 5))) = Some [7%N].
Proof. vm_compute. done. Qed.

(** A range upside down panics if the field has numbers. *)
Example empty_range_panics : found (F_Range "x" (f64_of_Z 9) (f64_of_Z 1)) (one_node (MInteger 5)) = None.
Proof. vm_compute. reflexivity. Qed.

(** No condition at all matches nothing, as a conjunction. *)
Example empty_conjunction : found (F_And []) (one_node (MInteger 5)) = Some [].
Proof. vm_compute. reflexivity. Qed.

(** Clearing leaves the points. *)
Example clear_leaves_points :
  found (F_GeoWithin "x" manhattan) (index_clear (one_node (MString "40.75,-73.97"))) = Some [7%N].
Proof. vm_compute. reflexivity. Qed.

(** A number of a JSON document is text: a range never sees it, and equality with
    the float it denotes looks for six decimals. *)
Example json_number_is_text :
  let i := insert_metadata 7 [("x", J_Number "1.5")] (index_new (B := gset N)) in
  found (F_Range "x" (f64_of_Z 1) (f64_of_Z 2)) i = Some [] ∧
  found (F_Eq "x" (MFloat (f64_ratio 3 2))) i = Some [] ∧
  found (F_Eq "x" (MFloat (f64_ratio 3 2))) (one_node (MFloat (f64_ratio 3 2))) = Some [7%N].
Proof. vm_compute. done. Qed.

Definition tight_quota : MetadataQuotaConfig := mkQuota 60 2 (f64_ratio 1 2).
Definition store_ops : list (StoreOp (gset N)) :=
  [S_Index 1 {["x" := MInteger 0]}; S_Index 2 {["k" := MString "a"]}; S_Index 3 {["k" := MString "b"; "x" := MInteger 1]};
   S_Compact {[2%N]}].

Lemma store_correct_witness :
  small_quota tight_quota ∧
  let '(rs, s) := store_calls store_ops (store_new tight_quota) in
  ∃ facts, history store_ops rs [] facts ∧
    (∀ f t v, roaring_contains v (default roaring_new (match_categorical f t s)) =
       has facts v f (λ x, bool_decide (store_text x = Some t))) ∧
    (∀ f lo hi, (lo <=? hi)%Z = true → ∃ b, match_integer_range f lo hi s = Some b ∧
       ∀ v, roaring_contains v b = has facts v f (key_test store_number (λ k, (lo <=? k)%Z && (k <=? hi)%Z))) ∧
    (total_distinct_terms s ≤ max_distinct_terms tight_quota)%N ∧
    (∀ t id, to_id (ms_interner s) !! t = Some id ↔ resolve_term id (ms_interner s) = Some t).
Proof.
  assert (small_quota tight_quota) as Hq by (vm_compute; discriminate).
  split; [exact Hq|]. exact (store_correct tight_quota store_ops Hq).
Defined.

(** A refused growth leaves its posting, and entries already read stay. *)
Example refused_call_leaves_postings :
  let '(r, s) := index_slot 2 {["k" := MString "a"]} (store_new (B := gset N) (mkQuota 49 2 (f64_ratio 1 2))) in
  is_err r = true ∧ elements <$> match_categorical "k" "a" s = Some [2%N] ∧ total_memory_bytes s = 49%N.
Proof. vm_compute. done. Qed.

(** Compaction frees the postings but neither the terms nor the bytes. *)
Example reclaim_keeps_quota :
  let s := (index_slot 2 {["k" := MString "a"]} (store_new (B := gset N) (mkQuota 90 1 (f64_ratio 1 2)))).2 in
  let s := compact_and_reclaim ∅ s in
  match_categorical "k" "a" s = None ∧ total_distinct_terms s = 1%N ∧ total_memory_bytes s = 51%N ∧
  is_err (index_slot 2 {["k" := MString "b"]} s).1 = true.
Proof. vm_compute. done. Qed.

(** A float shares the postings of the integer its bits spell. *)
Example float_zero_is_integer_zero :
  elements <$> match_integer_range "x" 0 0 (index_slot 2 {["x" := MFloat (f64_of_Z 0)]} (store_new (B := gset N) tight_quota)).2
    = Some [2%N] ∧
  elements <$> match_integer_range "x" 0 9 (index_slot 2 {["x" := MFloat (f64_of_Z 5)]} (store_new (B := gset N) tight_quota)).2
    = Some [].
Proof. vm_compute. done. Qed.
