(* ===== verification/Order.v ===== *)
(** Comparisons as Rust's [Ord] gives them, and the slice and iterator functions
    of the standard library that take one: [sort_unstable_by], [min_by],
    [binary_search_by_key]. *)

From stdpp Require Import base sets strings numbers list sorting.
From S2P Require Import Prelude.

(** [Ordering::then_with] *)
Definition then_with (c d : comparison) : comparison :=
  match c with Eq => d | _ => c end.

(** ** Total orders *)

Lemma string_compare_refl s : String.compare s s = Eq.
Proof.
  pose proof (String.compare_antisym s s) as H. by destruct (String.compare s s).
Qed.

Lemma string_compare_trans s1 s2 s3 :
  String.compare s1 s2 = Lt → String.compare s2 s3 = Lt → String.compare s1 s3 = Lt.
Proof.
  revert s2 s3. induction s1 as [|c1 s1 IH]; intros [|c2 s2] [|c3 s3]; cbn; try done.
  unfold Ascii.compare.
  destruct (N.compare_spec (Ascii.N_of_ascii c1) (Ascii.N_of_ascii c2)),
    (N.compare_spec (Ascii.N_of_ascii c2) (Ascii.N_of_ascii c3)),
    (N.compare_spec (Ascii.N_of_ascii c1) (Ascii.N_of_ascii c3)); try done; try lia.
  apply IH.
Qed.

(** A comparison function that decides a strict total order. *)
Record total_cmp {A} (cmp : A → A → comparison) : Prop := {
  cmp_eq x y : cmp x y = Eq ↔ x = y;
  cmp_antisym x y : cmp x y = CompOpp (cmp y x);
  cmp_trans x y z : cmp x y = Lt → cmp y z = Lt → cmp x z = Lt
}.

Lemma total_cmp_string : total_cmp String.compare.
Proof.
  split.
  - intros x y. split; [apply String.compare_eq_iff|]. intros ->. apply string_compare_refl.
  - apply String.compare_antisym.
  - apply string_compare_trans.
Qed.

Lemma total_cmp_N : total_cmp N.compare.
Proof.
  split; [apply N.compare_eq_iff|intros; by rewrite N.compare_antisym|].
  intros x y z. rewrite !N.compare_lt_iff. lia.
Qed.

(** Lexicographic composition of two keys that together determine the value. *)
Lemma total_cmp_then {A B C} (f : A → B) (g : A → C) cmpB cmpC :
  total_cmp cmpB → total_cmp cmpC → (∀ x y, f x = f y → g x = g y → x = y) →
  total_cmp (λ x y, then_with (cmpB (f x) (f y)) (cmpC (g x) (g y))).
Proof.
  intros [Eb Ab Tb] [Ec Ac Tc] Hinj. unfold then_with. split.
  - intros x y. split.
    + destruct (cmpB (f x) (f y)) eqn:Hf; try done. intros Hg. apply Hinj; [by apply Eb|by apply Ec].
    + intros ->. by rewrite (proj2 (Eb _ _) eq_refl), (proj2 (Ec _ _) eq_refl).
  - intros x y. rewrite (Ab (f x)), (Ac (g x)). by destruct (cmpB (f y) (f x)).
  - intros x y z. destruct (cmpB (f x) (f y)) eqn:H1, (cmpB (f y) (f z)) eqn:H2; try done; intros Hx Hy.
    + apply Eb in H1 as ->. apply Eb in H2 as ->.
      rewrite (proj2 (Eb _ _) eq_refl). eauto.
    + apply Eb in H1 as ->. by rewrite H2.
    + apply Eb in H2 as <-. by rewrite H1.
    + by rewrite (Tb _ _ _ H1 H2).
Qed.

(** A comparison that may identify different values. *)
Record cmp_preorder {A} (cmp : A → A → comparison) : Prop := {
  pre_antisym x y : cmp x y = CompOpp (cmp y x);
  pre_trans x y z : cmp x y ≠ Gt → cmp y z ≠ Gt → cmp x z ≠ Gt
}.

Lemma total_cmp_preorder {A} (cmp : A → A → comparison) : total_cmp cmp → cmp_preorder cmp.
Proof.
  intros [E S T]. split; [done|]. intros x y z.
  destruct (cmp x y) eqn:H1, (cmp y z) eqn:H2; try done; intros _ _.
  - apply E in H1 as ->. congruence.
  - apply E in H1 as ->. congruence.
  - apply E in H2 as <-. congruence.
  - rewrite (T _ _ _ H1 H2). done.
Qed.

Lemma cmp_preorder_key {A B} (f : A → B) cmp : cmp_preorder cmp → cmp_preorder (λ x y, cmp (f x) (f y)).
Proof. intros [S T]. split; eauto. Qed.

Lemma cmp_preorder_rev {A} (cmp : A → A → comparison) :
  cmp_preorder cmp → cmp_preorder (λ x y, cmp y x).
Proof. intros [S T]. split; eauto. Qed.

Lemma cmp_preorder_then {A} (c1 c2 : A → A → comparison) :
  cmp_preorder c1 → cmp_preorder c2 → cmp_preorder (λ x y, then_with (c1 x y) (c2 x y)).
Proof.
  intros [S1 T1] [S2 T2]. unfold then_with. split.
  - intros x y. rewrite (S1 x y), (S2 x y). by destruct (c1 y x).
  - intros x y z. pose proof (T1 x y z) as Txyz. pose proof (T1 y z x) as Tyzx.
    pose proof (T1 z x y) as Tzxy. pose proof (T2 x y z).
    rewrite (S1 z x), (S1 y x) in *. rewrite (S1 z y) in *.
    destruct (c1 x y), (c1 y z), (c1 x z); cbn in *; naive_solver.
Qed.

Definition N_key_cmp {A} (key : A → N) (x y : A) : comparison := (key x ?= key y)%N.

Lemma N_key_cmp_preorder {A} (key : A → N) : cmp_preorder (N_key_cmp key).
Proof. apply (cmp_preorder_key key), total_cmp_preorder, total_cmp_N. Qed.

(** ** [sort_unstable_by]

    A permutation of the slice in the order of the comparison.  The order of
    elements that compare equal is not specified. *)

Class SortUnstable := {
  sort_by {A} (cmp : A → A → comparison) (l : list A) : list A;
  sort_by_perm {A} (cmp : A → A → comparison) (l : list A) : sort_by cmp l ≡ₚ l;
  sort_by_sorted {A} (cmp : A → A → comparison) (l : list A) :
    cmp_preorder cmp → StronglySorted (λ x y, cmp x y ≠ Gt) (sort_by cmp l)
}.

Definition sort_by_key `{SortUnstable} {A} (key : A → N) (l : list A) : list A :=
  sort_by (N_key_cmp key) l.

Lemma sort_by_key_perm `{SortUnstable} {A} (key : A → N) (l : list A) : sort_by_key key l ≡ₚ l.
Proof. apply sort_by_perm. Qed.

Lemma sort_by_key_sorted `{SortUnstable} {A} (key : A → N) (l : list A) :
  StronglySorted (λ x y, (key x ≤ key y)%N) (sort_by_key key l).
Proof. exact (sort_by_sorted _ l (N_key_cmp_preorder key)). Qed.

(** One possible sort. *)
Program Definition stable_sort : SortUnstable := {|
  sort_by A cmp l := merge_sort (λ x y, cmp x y ≠ Gt) l
|}.
Next Obligation. intros. apply merge_sort_Permutation. Qed.
Next Obligation.
  intros A cmp l [S T]. apply StronglySorted_merge_sort.
  - intros x y z. apply T.
  - intros x y. destruct (cmp x y) eqn:E; [by left|by left|right]. rewrite S, E. done.
Qed.

(** ** [min_by] *)

(** [Iterator::min_by]: the first of the least elements. *)
Definition min_by {A} (cmp : A → A → comparison) (l : list A) : option A :=
  match l with
  | [] => None
  | x :: l => Some (foldl (λ m y, match cmp m y with Gt => y | _ => m end) x l)
  end.

Section min_by.
Context {A : Type} (cmp : A → A → comparison) (P : A → Prop).
Hypothesis cmp_refl : ∀ x, P x → cmp x x ≠ Gt.
Hypothesis cmp_le_trans : ∀ x y z, P x → P y → P z → cmp x y ≠ Gt → cmp y z ≠ Gt → cmp x z ≠ Gt.
Hypothesis cmp_gt : ∀ x y, P x → P y → cmp x y = Gt → cmp y x ≠ Gt.

Lemma min_by_spec l :
  Forall P l →
  match min_by cmp l with
  | None => l = []
  | Some m => m ∈ l ∧ ∀ x, x ∈ l → cmp m x ≠ Gt
  end.
Proof using Type*.
  destruct l as [|x l]; [done|]. intros [Hx Hl]%Forall_cons. cbn.
  revert x Hx. induction l as [|y l IH]; intros x Hx; cbn.
  { split; [by left|]. intros y ->%list_elem_of_singleton. auto. }
  apply Forall_cons in Hl as [Hy Hl]. specialize (IH Hl).
  assert (∀ m, P m → m = x ∨ m = y → cmp m x ≠ Gt → cmp m y ≠ Gt →
    let w := foldl (λ m y, match cmp m y with Gt => y | _ => m end) m l in
    w ∈ x :: y :: l ∧ ∀ z, z ∈ x :: y :: l → cmp w z ≠ Gt) as Hm.
  { intros m Hpm Hor Hmx Hmy w. destruct (IH m Hpm) as [Hin Hall]. fold w in Hin, Hall.
    assert (P w) as Hw.
    { apply elem_of_cons in Hin as [->|Hin]; [done|]. rewrite Forall_forall in Hl. auto. }
    assert (cmp w m ≠ Gt) as Hwm by (apply Hall; by left).
    split; [set_solver|]. intros z [->|[->|Hz]%elem_of_cons]%elem_of_cons; [eauto..|].
    apply Hall. by right. }
  destruct (cmp x y) eqn:Hc; apply Hm; auto; congruence.
Qed.
End min_by.

(** ** std: [<[T]>::binary_search_by_key]

    The halving search of the standard library: [base] is kept at or before the
    last element whose key is not greater than [b]. *)

Fixpoint binary_search_loop {A} (key : A → N) (b : N) (l : list A)
    (fuel base size : nat) : option nat :=
  if (size <=? 1)%nat then Some base
  else match fuel with
  | O => None
  | S fuel =>
      let half := Nat.div2 size in
      let mid := (base + half)%nat in
      match l !! mid with
      | Some x =>
          binary_search_loop key b l fuel (if (b <? key x)%N then base else mid) (size - half)
      | None => None
      end
  end.

Definition binary_search_by_key {A} (key : A → N) (b : N) (l : list A) :
    option (Result nat nat) :=
  match l with
  | [] => Some (Err 0%nat)
  | _ =>
      base ← binary_search_loop key b l (length l) 0 (length l);
      x ← l !! base;
      Some (if (key x =? b)%N then Ok base
            else Err (base + if (key x <? b)%N then 1 else 0)%nat)
  end.

(** ** Binary search *)

Section search.
Context {A : Type} (key : A → N) (b : N).
Implicit Types l : list A.

Abbreviation sorted l := (StronglySorted (λ x y, (key x ≤ key y)%N) l).

(** The window keeps everything before it not above [b], everything behind it
    above [b]. *)
Definition window l base size :=
  (0 < size)%nat ∧ (base + size ≤ length l)%nat ∧
  (∀ i x, (i < base)%nat → l !! i = Some x → (key x ≤ b)%N) ∧
  (∀ i x, (base + size ≤ i)%nat → l !! i = Some x → (b < key x)%N).

Lemma sorted_lookup l i j x y :
  sorted l → (i ≤ j)%nat → l !! i = Some x → l !! j = Some y → (key x ≤ key y)%N.
Proof.
  intros Hs. revert i j. induction Hs as [|z l Hs IH Hz]; intros i j Hij Hx Hy; [done|].
  destruct i as [|i], j as [|j]; cbn in Hx, Hy; simplify_eq; try lia.
  - rewrite Forall_lookup in Hz. eauto.
  - apply (IH i j); [lia|done..].
Qed.

Lemma binary_search_loop_spec l fuel base size :
  sorted l → (size ≤ fuel)%nat → window l base size →
  ∃ base', binary_search_loop key b l fuel base size = Some base' ∧ window l base' 1 ∧
    (base ≤ base')%nat ∧ (∀ x, (base < base')%nat → l !! base' = Some x → (key x ≤ b)%N).
Proof.
  intros Hs. revert base size.
  induction fuel as [|fuel IH]; intros base size Hf (Hpos & Hlen & Hlo & Hhi); [lia|].
  cbn [binary_search_loop]. destruct (size <=? 1)%nat eqn:Hsize.
  - apply Nat.leb_le in Hsize. exists base. assert (size = 1%nat) as -> by lia.
    repeat split; auto with lia.
  - apply Nat.leb_gt in Hsize.
    pose proof (Nat.div2_odd size) as Hodd. assert (Nat.b2n (Nat.odd size) ≤ 1)%nat
      by (destruct (Nat.odd size); cbn; lia).
    set (half := Nat.div2 size) in *.
    destruct (lookup_lt_is_Some_2 l (base + half)) as [x Hx]; [lia|]. rewrite Hx.
    destruct (b <? key x)%N eqn:Hb; bool_to_N.
    + apply IH; [lia|]. split_and!; [lia|lia|done|].
      intros i y Hi Hy. eapply N.lt_le_trans; [exact Hb|].
      eapply sorted_lookup; [done| |done..]. lia.
    + destruct (IH (base + half)%nat (size - half)%nat) as (base' & Hr & Hw & Hle & Hx').
      * lia.
      * split_and!; [lia|lia| |].
        -- intros i y Hi Hy. etrans; [|exact Hb]. eapply sorted_lookup; [done| |done..]. lia.
        -- intros i y Hi. apply Hhi. lia.
      * exists base'. split_and!; [done|done|lia|].
        intros y Hy Hly. destruct (decide (base' = base + half)%nat) as [->|]; [naive_solver|].
        apply Hx'; [lia|done].
Qed.

(** The documented contract of [binary_search_by_key] on a sorted slice: a found
    index holds the key, and otherwise the insertion point separates the smaller
    keys from the greater ones. *)
Lemma binary_search_spec l :
  sorted l →
  ∃ r, binary_search_by_key key b l = Some r ∧
    match r with
    | Ok i => ∃ x, l !! i = Some x ∧ key x = b
    | Err i =>
        (∀ j x, (j < i)%nat → l !! j = Some x → (key x < b)%N) ∧
        (∀ j x, (i ≤ j)%nat → l !! j = Some x → (b < key x)%N)
    end.
Proof.
  intros Hs. destruct (decide (l = [])) as [->|Hne]; [by exists (Err 0%nat)|].
  assert (0 < length l)%nat as Hlen by (destruct l; cbn; [done|lia]).
  replace (binary_search_by_key key b l) with
    (base ← binary_search_loop key b l (length l) 0 (length l);
     x ← l !! base;
     Some (if (key x =? b)%N then Ok base
           else Err (base + if (key x <? b)%N then 1 else 0)%nat)) by by destruct l.
  destruct (binary_search_loop_spec l (length l) 0 (length l)) as (base & -> & Hw & _ & Hx);
    [done|lia|repeat split; try lia|].
  { intros i x Hi Hl%lookup_lt_Some. lia. }
  destruct Hw as (_ & Hb & Hlo & Hhi). cbn [mbind option_bind].
  destruct (lookup_lt_is_Some_2 l base) as [x Hlx]; [lia|]. rewrite Hlx. cbn.
  eexists; split; [done|]. destruct (key x =? b)%N eqn:He; bool_to_N; [eauto|].
  destruct (key x <? b)%N eqn:Hc; bool_to_N.
  - split; intros j y Hj Hy; [|apply (Hhi j y); [lia|done]].
    eapply N.le_lt_trans; [|exact Hc]. eapply sorted_lookup; [done| |done..]. lia.
  - assert (base = 0)%nat as ->.
    { destruct (decide (base = 0)%nat); [done|]. pose proof (Hx x ltac:(lia) Hlx). lia. }
    split; intros j y Hj Hy; [lia|].
    pose proof (sorted_lookup l 0 j x y Hs ltac:(lia) Hlx Hy). lia.
Qed.
End search.
