(* ===== verification/Ring.v ===== *)
(** The consistent hash ring of src/cluster/ring.rs: FNV-1a/SplitMix64 tokens,
    virtual nodes, and the lookup by the standard library's binary search. *)

From stdpp Require Import base gmap sets strings numbers list pretty sorting.
From S2P Require Import Prelude.
From S2P Require Import Order.

(** ** [ConsistentHashRing] *)

Definition ShardId := N.

Record ConsistentHashRing := mkRing {
  vnodes_per_shard : N;
  ring : list (N * ShardId)
}.

Definition DEFAULT_VNODES_PER_SHARD : N := 256.

Definition ring_new (vnodes : N) : ConsistentHashRing := mkRing (N.max vnodes 1) [].

(** [str::as_bytes] *)
Fixpoint as_bytes (s : string) : list N :=
  match s with
  | EmptyString => []
  | String c s => Ascii.N_of_ascii c :: as_bytes s
  end.

Definition fnv_step (hash byte : N) : N :=
  u64_wrapping_mul (N.lxor hash byte) 0x100000001b3.

Definition hash_key (key : list N) : N :=
  let hash := foldl fnv_step 0xcbf29ce484222325%N key in
  let z := u64_add hash 0x9e3779b97f4a7c15 in
  let z := u64_wrapping_mul (N.lxor z (N.shiftr z 30)) 0xbf58476d1ce4e5b9 in
  let z := u64_wrapping_mul (N.lxor z (N.shiftr z 27)) 0x94d049bb133111eb in
  N.lxor z (N.shiftr z 31).

Definition vnode_key (shard_id v : N) : string :=
  "shard_" +:+ pretty shard_id +:+ "_vnode_" +:+ pretty v.

(** The entries [add_shard] pushes, in the order of the loop. *)
Definition shard_vnodes (vnodes : N) (shard_id : ShardId) : list (N * ShardId) :=
  (λ v, (hash_key (as_bytes (vnode_key shard_id (N.of_nat v))), shard_id)) <$>
    seq 0 (N.to_nat vnodes).

Section ring.
Context `{SortUnstable}.

Definition ring_add_shard (shard_id : ShardId) (r : ConsistentHashRing) : ConsistentHashRing :=
  mkRing (vnodes_per_shard r)
    (sort_by_key fst (ring r ++ shard_vnodes (vnodes_per_shard r) shard_id)).

Definition ring_remove_shard (shard_id : ShardId) (r : ConsistentHashRing) : ConsistentHashRing :=
  mkRing (vnodes_per_shard r) (filter (λ e, e.2 ≠ shard_id) (ring r)).

(** [None] outside is an index out of bounds, which [ring_lookup_owns] excludes. *)
Definition ring_shard_for_key (key : string) (r : ConsistentHashRing) : option (option ShardId) :=
  match ring r with
  | [] => Some None
  | _ =>
      let token := hash_key (as_bytes key) in
      res ← binary_search_by_key fst token (ring r);
      match res with
      | Ok idx => e ← ring r !! idx; Some (Some e.2)
      | Err idx =>
          if bool_decide (idx < length (ring r))%nat
          then e ← ring r !! idx; Some (Some e.2)
          else e ← ring r !! 0%nat; Some (Some e.2)
      end
  end.
End ring.

(** ** Placement *)

(** Going clockwise from [from], how far the token [to] is away. *)
Definition clockwise (from to : N) : N := u64_sub to from.

(** [s] owns [token]: one of its tokens is met first going clockwise. *)
Definition owns (entries : list (N * ShardId)) (token : N) (s : ShardId) : Prop :=
  ∃ t, (t, s) ∈ entries ∧
    ∀ t' s', (t', s') ∈ entries → (clockwise token t ≤ clockwise token t')%N.

Definition ring_wf (r : ConsistentHashRing) : Prop :=
  StronglySorted (λ x y, (x.1 ≤ y.1)%N) (ring r) ∧ Forall (λ e, (e.1 < u64_modulus)%N) (ring r).

Lemma u64_wrap_lt x : (u64_wrap x < u64_modulus)%N.
Proof. apply N.mod_lt. done. Qed.

Lemma lxor_lt_pow2 x y n : (x < 2 ^ n → y < 2 ^ n → N.lxor x y < 2 ^ n)%N.
Proof.
  intros Hx Hy. destruct (decide (N.lxor x y = 0)%N) as [->|Hne]; [lia|].
  apply N.log2_lt_pow2; [lia|]. eapply N.le_lt_trans; [apply N.log2_lxor|].
  apply N.max_lub_lt.
  - destruct (decide (x = 0)%N) as [->|]; [|by apply N.log2_lt_pow2; lia].
    destruct (decide (y = 0)%N) as [->|]; [done|].
    eapply N.le_lt_trans; [apply N.le_0_l|]. apply (N.log2_lt_pow2 y); lia.
  - destruct (decide (y = 0)%N) as [->|]; [|by apply N.log2_lt_pow2; lia].
    destruct (decide (x = 0)%N) as [->|]; [done|].
    eapply N.le_lt_trans; [apply N.le_0_l|]. apply (N.log2_lt_pow2 x); lia.
Qed.

Lemma hash_key_lt key : (hash_key key < u64_modulus)%N.
Proof.
  unfold hash_key. cbv zeta.
  match goal with |- context [N.lxor ?z (N.shiftr ?z 31)] =>
    assert (z < u64_modulus)%N as Hz by apply u64_wrap_lt; generalize dependent z end.
  intros z Hz. change u64_modulus with (2 ^ 64)%N in *. apply lxor_lt_pow2; [done|].
  eapply N.le_lt_trans; [|exact Hz]. rewrite N.shiftr_div_pow2.
  apply N.Div0.div_le_upper_bound. change (2 ^ 31)%N with 2147483648%N. lia.
Qed.

Lemma clockwise_cases from to :
  (from < u64_modulus → to < u64_modulus →
   clockwise from to = if from <=? to then to - from else to + u64_modulus - from)%N.
Proof.
  intros Hf Ht. unfold clockwise, u64_sub, u64_wrap. destruct (from <=? to)%N eqn:Hc; bool_to_N.
  - replace (to + u64_modulus - from)%N with (to - from + 1 * u64_modulus)%N by lia.
    rewrite N.Div0.mod_add. apply N.mod_small. lia.
  - apply N.mod_small. lia.
Qed.

(** A lookup in a well-formed ring never goes out of bounds, and answers with the
    shard whose token is met first going clockwise from the key's hash. *)
Lemma ring_lookup_owns r key :
  ring_wf r →
  match ring_shard_for_key key r with
  | Some None => ring r = []
  | Some (Some s) => owns (ring r) (hash_key (as_bytes key)) s
  | None => False
  end.
Proof.
  intros [Hs Hlt]. unfold ring_shard_for_key.
  pose proof (hash_key_lt (as_bytes key)) as Htok.
  set (token := hash_key (as_bytes key)) in *. clearbody token.
  destruct (decide (ring r = [])) as [->|Hne]; [done|].
  destruct (ring r) as [|e0 l] eqn:El; [done|]. rewrite <- El in *.
  assert (ring r !! 0%nat = Some e0) as H0 by by rewrite El.
  rewrite Forall_lookup in Hlt.
  destruct (binary_search_spec fst token (ring r) Hs) as (res & -> & Hres). cbn [mbind option_bind].
  destruct res as [i|i].
  - destruct Hres as ([t s] & Hi & Ht). rewrite Hi. cbn in Ht |- *. subst t.
    exists token. split; [by eapply list_elem_of_lookup_2|]. intros t' s' [j Hj]%list_elem_of_lookup.
    pose proof (Hlt j _ Hj). rewrite !clockwise_cases by done. repeat split_match; bool_to_N; lia.
  - destruct Hres as [Hlo Hhi]. case_bool_decide as Hlen.
    + destruct (lookup_lt_is_Some_2 _ _ Hlen) as [[t s] Hi]. rewrite Hi. cbn.
      exists t. split; [by eapply list_elem_of_lookup_2|].
      intros t' s' [j Hj]%list_elem_of_lookup.
      pose proof (Hlt i _ Hi). pose proof (Hlt j _ Hj). cbn in *.
      pose proof (Hhi i (t, s) ltac:(lia) Hi) as Hgt. cbn in Hgt.
      rewrite !clockwise_cases by done.
      destruct (decide (j < i)%nat) as [Hji|Hji].
      * pose proof (Hlo j _ Hji Hj) as Hjlo. cbn in Hjlo. repeat split_match; bool_to_N; lia.
      * pose proof (sorted_lookup fst (ring r) i j (t, s) (t', s') Hs ltac:(lia) Hi Hj). cbn in *.
        repeat split_match; bool_to_N; lia.
    + rewrite H0. destruct e0 as [t s]. cbn. exists t. split; [by eapply list_elem_of_lookup_2|].
      intros t' s' [j Hj]%list_elem_of_lookup.
      pose proof (Hlt 0%nat _ H0). pose proof (Hlt j _ Hj). cbn in *.
      pose proof (lookup_lt_Some _ _ _ Hj).
      pose proof (Hlo j _ ltac:(lia) Hj). pose proof (Hlo 0%nat _ ltac:(lia) H0). cbn in *.
      pose proof (sorted_lookup fst (ring r) 0 j (t, s) (t', s') Hs ltac:(lia) H0 Hj). cbn in *.
      rewrite !clockwise_cases by done. repeat split_match; bool_to_N; lia.
Qed.

(** With distinct tokens the owner is unique. *)
Lemma owns_unique entries token s1 s2 :
  (token < u64_modulus)%N → Forall (λ e, (e.1 < u64_modulus)%N) entries → NoDup entries.*1 →
  owns entries token s1 → owns entries token s2 → s1 = s2.
Proof.
  intros Htok Hlt Hnd (t1 & H1 & Hm1) (t2 & H2 & Hm2).
  pose proof (Hm1 _ _ H2) as Hle1. pose proof (Hm2 _ _ H1) as Hle2.
  rewrite Forall_forall in Hlt.
  pose proof (Hlt _ H1) as Hl1. pose proof (Hlt _ H2) as Hl2. cbn in *.
  assert (t1 = t2) as <-.
  { rewrite !clockwise_cases in * by done. repeat split_match; bool_to_N; lia. }
  apply list_elem_of_lookup in H1 as [i Hi]. apply list_elem_of_lookup in H2 as [j Hj].
  assert (i = j) as <-; [|congruence].
  eapply NoDup_lookup; [exact Hnd|rewrite list_lookup_fmap, Hi; done|rewrite list_lookup_fmap, Hj; done].
Qed.

(** Owning a token is kept when entries that do not include one's own go away. *)
Lemma owns_subset es es' token s :
  owns es token s → (∀ t s', (t, s') ∈ es' → (t, s') ∈ es) → (∀ t, (t, s) ∈ es → (t, s) ∈ es') →
  owns es' token s.
Proof. intros (t & Ht & Hmin) Hsub Hs. exists t. split; [auto|]. eauto. Qed.

Lemma ring_new_wf v : ring_wf (ring_new v).
Proof. split; constructor. Qed.

Lemma ring_remove_wf s r : ring_wf r → ring_wf (ring_remove_shard s r).
Proof.
  intros [Hs Hlt]. split; cbn.
  - eapply sublist_sorted; [|exact Hs]. apply sublist_filter.
  - eapply sublist_Forall; [|exact Hlt]. apply sublist_filter.
Qed.

Section placement.
Context `{SortUnstable}.

Lemma ring_add_elem s r e :
  e ∈ ring (ring_add_shard s r) ↔ e ∈ ring r ∨ e ∈ shard_vnodes (vnodes_per_shard r) s.
Proof. cbn. rewrite sort_by_key_perm. apply elem_of_app. Qed.

Lemma shard_vnodes_elem v s e : e ∈ shard_vnodes v s → e.2 = s ∧ (e.1 < u64_modulus)%N.
Proof. intros (? & -> & _)%list_elem_of_fmap. split; [done|]. apply hash_key_lt. Qed.

Lemma ring_add_wf s r : ring_wf r → ring_wf (ring_add_shard s r).
Proof.
  intros [Hs Hlt]. split; [apply sort_by_key_sorted|].
  rewrite Forall_forall in *. intros e [He|He]%ring_add_elem; [auto|].
  by apply shard_vnodes_elem in He as [_ ?].
Qed.

(** The membership operations, in any order. *)
Inductive RingOp := AddShard (s : ShardId) | RemoveShard (s : ShardId).

Definition ring_step (r : ConsistentHashRing) (op : RingOp) : ConsistentHashRing :=
  match op with
  | AddShard s => ring_add_shard s r
  | RemoveShard s => ring_remove_shard s r
  end.

Lemma ring_steps_wf ops r : ring_wf r → ring_wf (foldl ring_step r ops).
Proof.
  revert r. induction ops as [|op ops IH]; intros r Hr; [done|]. apply IH.
  destruct op; [by apply ring_add_wf|by apply ring_remove_wf].
Qed.

(** Whatever shards were added and removed, the ring's binary search
    returns, and it places a key on the shard that has the first token clockwise
    from the key's hash; no shard is returned only when the ring is empty. *)
Lemma ring_placement v ops key :
  let r := foldl ring_step (ring_new v) ops in
  match ring_shard_for_key key r with
  | Some None => ring r = []
  | Some (Some s) => owns (ring r) (hash_key (as_bytes key)) s
  | None => False
  end.
Proof. apply ring_lookup_owns, ring_steps_wf, ring_new_wf. Qed.

(** Scaling moves the minimum: when no two tokens collide, adding a shard
    moves keys only to the new shard, and removing a shard moves only the keys
    it held. *)
Lemma ring_minimal_movement v ops s key a b :
  let r := foldl ring_step (ring_new v) ops in
  (NoDup (ring (ring_add_shard s r)).*1 →
   ring_shard_for_key key r = Some (Some a) →
   ring_shard_for_key key (ring_add_shard s r) = Some (Some b) → b = a ∨ b = s) ∧
  (NoDup (ring r).*1 →
   ring_shard_for_key key r = Some (Some a) →
   ring_shard_for_key key (ring_remove_shard s r) = Some (Some b) → a = s ∨ b = a).
Proof.
  intros r. assert (ring_wf r) as Hr by apply ring_steps_wf, ring_new_wf. clearbody r.
  pose proof (hash_key_lt (as_bytes key)) as Htok.
  pose proof (ring_lookup_owns r key Hr) as Ho.
  split; intros Hnd Ha Hb; rewrite Ha in Ho.
  - pose proof (ring_add_wf s r Hr) as Hr'. pose proof (ring_lookup_owns _ key Hr') as Ho'.
    rewrite Hb in Ho'. destruct Ho' as (t & [Hin|Hin]%ring_add_elem & Hmin).
    2: { right. by apply shard_vnodes_elem in Hin as [? _]. }
    left. eapply owns_unique; [done|apply Hr| | |exact Ho].
    + revert Hnd. cbn. rewrite sort_by_key_perm, fmap_app. by intros [? _]%NoDup_app.
    + exists t. split; [done|]. intros t' s' ?. apply (Hmin t' s'), ring_add_elem. by left.
  - destruct (decide (a = s)) as [->|Hne]; [by left|right].
    pose proof (ring_remove_wf s r Hr) as Hr'. pose proof (ring_lookup_owns _ key Hr') as Ho'.
    rewrite Hb in Ho'. eapply owns_unique; [done|apply Hr'| |exact Ho'|].
    + eapply sublist_NoDup; [exact Hnd|]. apply fmap_sublist, sublist_filter.
    + eapply owns_subset; [exact Ho|..]; cbn.
      * by intros t s' [_ ?]%list_elem_of_filter.
      * intros t Ht. by apply list_elem_of_filter.
Qed.
End placement.
