(* ===== verification/Topology.v ===== *)
(** Cluster topology: the partition map of src/cluster/topology.rs over the hash
    ring, the world-state digest of src/cluster/world_digest.rs and the heartbeat
    handler that compares digests, and the migration data of
    src/cluster/migration.rs. *)

From Stdlib Require Import Strings.Byte.
From stdpp Require Import base gmap sets strings numbers list pretty sorting fin_maps.
From S2P Require Import Prelude.
From S2P Require Import Codec.
From S2P Require Import Order.
From S2P Require Import Ring.

(** ** Migration data *)

Inductive MigrationPhase := Prepare | SnapshotTransfer | WalCatchup | OwnershipCommit | Cleanup.
#[export] Instance MigrationPhase_eq_dec : EqDecision MigrationPhase.
Proof. solve_decision. Defined.

Record MigrationTask := mkMigrationTask {
  migration_id : N;
  source_shard : ShardId;
  dest_shard : ShardId;
  phase : MigrationPhase;
  snapshot_lsn : N;
  committed_lsn : N;
  bytes_transferred : N
}.

(** ** World-state digest

    SHA-256 is a third-party crate: a function from the hashed bytes to the
    digest. *)

Class Sha256 := sha256 : list byte → list byte.

Record WorldStateDigest := mkDigest {
  wd_lsn : N;
  entity_digest : list byte;
  relation_digest : list byte;
  experience_digest : list byte;
  learning_digest : list byte;
  schema_digest : list byte;
  combined_digest : list byte
}.

Definition digest_input (lsn : N) (entity relation experience learning schema : list byte) :
    list byte :=
  String.list_byte_of_string "HOLOSPHERE_WORLD_STATE_DIGEST_V1" ++ le_bytes 8 lsn ++
  entity ++ relation ++ experience ++ learning ++ schema.

Definition digest_compute `{Sha256} (lsn : N)
    (entity relation experience learning schema : list byte) : WorldStateDigest :=
  mkDigest lsn entity relation experience learning schema
    (sha256 (digest_input lsn entity relation experience learning schema)).

(** ** [ClusterTopology] *)

Inductive ShardRole := ShardLeader | ShardFollower.
#[export] Instance ShardRole_eq_dec : EqDecision ShardRole.
Proof. solve_decision. Defined.

Record ShardReplica := mkShardReplica {
  sr_shard_id : ShardId;
  sr_node_addr : string;
  sr_role : ShardRole
}.

Record ClusterTopology := mkTopology {
  topo_epoch : N;
  num_shards : N;
  topo_ring : ConsistentHashRing;
  shard_replicas : gmap ShardId (list ShardReplica)
}.

Definition local_replica (s : ShardId) : ShardReplica :=
  mkShardReplica s "127.0.0.1:8080" ShardLeader.

Section topology.
Context `{SortUnstable}.

(** One turn of the loop in [new]. *)
Definition topology_place (st : ConsistentHashRing * gmap ShardId (list ShardReplica)) (s : ShardId) :=
  (ring_add_shard s st.1, <[s := [local_replica s]]> st.2).

Definition topology_new (n : N) : ClusterTopology :=
  let st := foldl topology_place (ring_new DEFAULT_VNODES_PER_SHARD, ∅) (N.of_nat <$> seq 0 (N.to_nat n)) in
  mkTopology 1 n st.1 st.2.

Definition topology_shard_for_key (key : string) (t : ClusterTopology) : option ShardId :=
  default 0%N <$> ring_shard_for_key key (topo_ring t).

Definition topology_add_shard (shard_id : ShardId) (replicas : list ShardReplica)
    (t : ClusterTopology) : ClusterTopology :=
  let shards := <[shard_id := replicas]> (shard_replicas t) in
  mkTopology (u64_add (topo_epoch t) 1) (N.of_nat (size shards) `mod` u32_modulus)
    (ring_add_shard shard_id (topo_ring t)) shards.
End topology.

(** ** Heartbeats *)

Inductive NodeLiveness := Healthy | Degraded | Dead.

Record ClusterHeartbeat := mkHeartbeat {
  hb_node_id : string;
  hb_term : N;
  world_digest : option WorldStateDigest
}.

Record TopologyManager := mkTopologyManager {
  topology : ClusterTopology;
  local_digest : option WorldStateDigest;
  anti_entropy_triggers : N
}.

Definition topology_manager_new `{SortUnstable} (n : N) : TopologyManager :=
  mkTopologyManager (topology_new n) None 0.

Definition update_local_digest (d : WorldStateDigest) (m : TopologyManager) : TopologyManager :=
  mkTopologyManager (topology m) (Some d) (anti_entropy_triggers m).

Definition trigger_anti_entropy_reconciliation (m : TopologyManager) : TopologyManager :=
  mkTopologyManager (topology m) (local_digest m) (u64_add (anti_entropy_triggers m) 1).

Definition handle_heartbeat (hb : ClusterHeartbeat) (m : TopologyManager) :
    bool * TopologyManager :=
  match world_digest hb, local_digest m with
  | Some remote, Some local =>
      if bool_decide (combined_digest local = combined_digest remote) then (true, m)
      else (false, trigger_anti_entropy_reconciliation m)
  | _, _ => (true, m)
  end.

(** ** Facts *)

Lemma le_bytes_inj n x y :
  (x < 256 ^ N.of_nat n)%N → (y < 256 ^ N.of_nat n)%N → le_bytes n x = le_bytes n y → x = y.
Proof.
  intros Hx Hy Heq. apply (f_equal le_num) in Heq. by rewrite !le_num_le_bytes_small in Heq.
Qed.

(** The hashed bytes determine the fields of a digest: no two states with digests
    of the same lengths have the same hash input. *)
Lemma digest_input_inj l1 l2 e1 e2 r1 r2 x1 x2 n1 n2 s1 s2 :
  (l1 < u64_modulus)%N → (l2 < u64_modulus)%N →
  length e1 = length e2 → length r1 = length r2 → length x1 = length x2 → length n1 = length n2 →
  digest_input l1 e1 r1 x1 n1 s1 = digest_input l2 e2 r2 x2 n2 s2 →
  l1 = l2 ∧ e1 = e2 ∧ r1 = r2 ∧ x1 = x2 ∧ n1 = n2 ∧ s1 = s2.
Proof.
  intros H1 H2 He Hr Hx Hn Heq. unfold digest_input in Heq.
  apply app_inv_head in Heq.
  apply app_inj_1 in Heq as [Hl Heq]; [|by rewrite !length_le_bytes].
  apply app_inj_1 in Heq as [-> Heq]; [|done]. apply app_inj_1 in Heq as [-> Heq]; [|done].
  apply app_inj_1 in Heq as [-> Heq]; [|done]. apply app_inj_1 in Heq as [-> ->]; [|done].
  apply le_bytes_inj in Hl as ->; done.
Qed.

(** Two nodes that computed their world digests compare equal on a heartbeat
    exactly when their world states agree in log position and every subsystem
    digest, provided SHA-256 does not collide on the two; a disagreement answers
    [false] and counts one anti-entropy run. *)
Lemma heartbeat_detects_divergence `{Sha256} m hb l1 e1 r1 x1 n1 s1 l2 e2 r2 x2 n2 s2 :
  local_digest m = Some (digest_compute l1 e1 r1 x1 n1 s1) →
  world_digest hb = Some (digest_compute l2 e2 r2 x2 n2 s2) →
  (l1 < u64_modulus)%N → (l2 < u64_modulus)%N →
  length e1 = length e2 → length r1 = length r2 → length x1 = length x2 → length n1 = length n2 →
  (sha256 (digest_input l1 e1 r1 x1 n1 s1) = sha256 (digest_input l2 e2 r2 x2 n2 s2) →
   digest_input l1 e1 r1 x1 n1 s1 = digest_input l2 e2 r2 x2 n2 s2) →
  let '(in_sync, m') := handle_heartbeat hb m in
  (in_sync = true ↔ (l1, e1, r1, x1, n1, s1) = (l2, e2, r2, x2, n2, s2)) ∧
  topology m' = topology m ∧ local_digest m' = local_digest m ∧
  anti_entropy_triggers m' =
    if in_sync then anti_entropy_triggers m else u64_add (anti_entropy_triggers m) 1.
Proof.
  intros Hl Hr H1 H2 He Hrr Hx Hn Hsha. unfold handle_heartbeat. rewrite Hl, Hr. cbn.
  case_bool_decide as Heq; cbn.
  - split; [|done]. apply Hsha, digest_input_inj in Heq; naive_solver.
  - split; [|done]. split; [done|]. intros [=]. subst. by destruct Heq.
Qed.

Section routing.
Context `{SortUnstable}.

(** The ring and the replica map agree on the shards. *)
Definition placed (r : ConsistentHashRing) (m : gmap ShardId (list ShardReplica)) : Prop :=
  ring_wf r ∧ vnodes_per_shard r = DEFAULT_VNODES_PER_SHARD ∧
  ∀ e, e ∈ ring r → is_Some (m !! e.2).

Lemma placed_add s reps r m : placed r m → placed (ring_add_shard s r) (<[s := reps]> m).
Proof.
  intros (Hwf & Hv & Hm). split_and!; [by apply ring_add_wf|done|].
  intros e [He|He]%ring_add_elem.
  - destruct (decide (e.2 = s)) as [->|]; simplify_map_eq; [done|]. by apply Hm.
  - apply shard_vnodes_elem in He as [-> _]. by simplify_map_eq.
Qed.

Lemma ring_add_nonempty s r :
  vnodes_per_shard r = DEFAULT_VNODES_PER_SHARD → ring (ring_add_shard s r) ≠ [].
Proof.
  intros Hv Hnil. pose proof (sort_by_key_perm fst (ring r ++ shard_vnodes (vnodes_per_shard r) s)) as Hp.
  cbn in Hnil. rewrite Hnil in Hp. apply Permutation_nil, app_nil in Hp as [_ Hp].
  apply (f_equal length) in Hp. revert Hp. unfold shard_vnodes. rewrite Hv, length_fmap, length_seq.
  done.
Qed.

Lemma topology_place_spec l r m :
  placed r m → NoDup l → (∀ s, s ∈ l → m !! s = None) →
  let st := foldl topology_place (r, m) l in
  placed st.1 st.2 ∧ size st.2 = (length l + size m)%nat ∧ (l ≠ [] ∨ ring r ≠ [] → ring st.1 ≠ []).
Proof.
  revert r m. induction l as [|s l IH]; intros r m Hp Hnd Hfresh; cbn [foldl].
  { split_and!; [done..|]. by intros [?|?]. }
  apply NoDup_cons in Hnd as [Hs Hnd].
  change (topology_place (r, m) s) with (ring_add_shard s r, <[s := [local_replica s]]> m).
  destruct (IH (ring_add_shard s r) (<[s := [local_replica s]]> m)) as (Hp' & Hsz & Hne).
  - by apply placed_add.
  - done.
  - intros s' Hs'. rewrite lookup_insert_ne by congruence. apply Hfresh. by right.
  - split_and!; [done| |].
    + rewrite Hsz, map_size_insert_None; [cbn; lia|]. apply Hfresh. by left.
    + intros _. apply Hne. right. apply ring_add_nonempty, Hp.
Qed.

Definition topology_wf (t : ClusterTopology) : Prop :=
  placed (topo_ring t) (shard_replicas t) ∧
  num_shards t = (N.of_nat (size (shard_replicas t)) `mod` u32_modulus)%N.

Lemma topology_new_wf n :
  (n < u32_modulus)%N →
  topology_wf (topology_new n) ∧ ((0 < n)%N → ring (topo_ring (topology_new n)) ≠ []).
Proof.
  intros Hn. unfold topology_wf, topology_new. cbn.
  destruct (topology_place_spec (N.of_nat <$> seq 0 (N.to_nat n)) (ring_new DEFAULT_VNODES_PER_SHARD) ∅)
    as (Hp & Hsz & Hne); cbn in *.
  - split_and!; [apply ring_new_wf|done|]. intros e. by intros ?%elem_of_nil.
  - apply NoDup_fmap_2; [apply _|apply NoDup_seq].
  - done.
  - rewrite length_fmap, length_seq, map_size_empty, Nat.add_0_r in Hsz. split; [split; [done|]|].
    + rewrite Hsz, N2Nat.id. by rewrite N.mod_small.
    + intros Hpos. apply Hne. left. intros Hnil%(f_equal length). rewrite length_fmap, length_seq in Hnil.
      cbn in Hnil. lia.
Qed.

Definition topology_adds (adds : list (ShardId * list ShardReplica)) (t : ClusterTopology) :=
  foldl (λ t a, topology_add_shard a.1 a.2 t) t adds.

Lemma topology_adds_wf adds t :
  topology_wf t → ring (topo_ring t) ≠ [] →
  topology_wf (topology_adds adds t) ∧ ring (topo_ring (topology_adds adds t)) ≠ [].
Proof.
  revert t. induction adds as [|[s reps] adds IH]; intros t Hwf Hne; [done|]. cbn. apply IH.
  - destruct Hwf as [Hp _]. split; [by apply placed_add|done].
  - apply ring_add_nonempty, Hwf.
Qed.

Lemma topology_adds_epoch adds t :
  topo_epoch (topology_adds adds t) = if adds is [] then topo_epoch t else
    u64_wrap (topo_epoch t + N.of_nat (length adds)).
Proof.
  revert t. induction adds as [|[s reps] adds IH]; intros t; [done|].
  change (topology_adds ((s, reps) :: adds) t)
    with (topology_adds adds (topology_add_shard s reps t)). rewrite IH. cbn.
  unfold u64_add, u64_wrap. destruct adds; cbn [length].
  - done.
  - rewrite N.Div0.add_mod_idemp_l. f_equal. lia.
Qed.

(** A topology of at least one shard always routes: after any additions every key
    is mapped to a shard that has a replica set, the shard count is the number of
    replica sets, and the epoch has advanced once per addition. *)
Lemma topology_routes n adds key :
  (0 < n < u32_modulus)%N →
  let t := topology_adds adds (topology_new n) in
  (∃ s, topology_shard_for_key key t = Some s ∧ is_Some (shard_replicas t !! s)) ∧
  num_shards t = (N.of_nat (size (shard_replicas t)) `mod` u32_modulus)%N ∧
  topo_epoch t = u64_wrap (1 + N.of_nat (length adds)).
Proof.
  intros [Hpos Hn] t. destruct (topology_new_wf n Hn) as [Hwf Hne].
  destruct (topology_adds_wf adds _ Hwf (Hne Hpos)) as [Hwf' Hne']. fold t in Hwf', Hne'.
  split_and!; [|apply Hwf'|by unfold t; rewrite topology_adds_epoch; destruct adds].
  destruct Hwf' as [(Hr & _ & Hm) _]. pose proof (ring_lookup_owns (topo_ring t) key Hr) as Ho.
  unfold topology_shard_for_key. destruct (ring_shard_for_key key (topo_ring t)) as [[s|]|]; [|done..].
  exists s. split; [done|]. destruct Ho as (tok & Hin & _). exact (Hm _ Hin).
Qed.
End routing.
