(* ===== verification/Federation.v ===== *)
(** Active-active federation of regions (src/cluster/federation.rs): the
    last-writer-wins replicator and the geo-routing table. *)

From Stdlib Require Import SpecFloat.
From stdpp Require Import base gmap sets strings numbers list fin_maps.
From S2P Require Import Prelude.
From S2P Require Import Floats.
From S2P Require Import Order.

(** ** Data *)

Record VectorClockTimestamp := mkClock {
  clock_region_id : string;
  clock_generation : N;
  clock_lsn : N;
  wall_time_ms : N
}.
#[export] Instance VectorClockTimestamp_eq_dec : EqDecision VectorClockTimestamp.
Proof. solve_decision. Defined.

(** The derived [Ord]: the fields in order of declaration. *)
Definition clock_compare (a b : VectorClockTimestamp) : comparison :=
  then_with (String.compare (clock_region_id a) (clock_region_id b))
    (then_with (clock_generation a ?= clock_generation b)%N
      (then_with (clock_lsn a ?= clock_lsn b)%N (wall_time_ms a ?= wall_time_ms b)%N)).

Definition clock_leb (a b : VectorClockTimestamp) : bool :=
  match clock_compare a b with Gt => false | _ => true end.

(** [V] is the embedding type. *)
Record FederatedMutationEvent (V : Type) := mkEvent {
  event_id : string;
  origin_region : string;
  doc_id : string;
  ev_vector : option V;
  ev_metadata : option (gmap string string);
  is_tombstone : bool;
  clock : VectorClockTimestamp
}.
Arguments mkEvent {V} _ _ _ _ _ _ _.
Arguments event_id {V} _.
Arguments origin_region {V} _.
Arguments doc_id {V} _.
Arguments ev_vector {V} _.
Arguments ev_metadata {V} _.
Arguments is_tombstone {V} _.
Arguments clock {V} _.

Record RegionEndpointStatus := mkRegion {
  rg_region_id : string;
  endpoint_url : string;
  is_healthy : bool;
  p50_latency_ms : b32;
  replication_lag_lsn : N
}.

(** ** Geo routing *)

Record GeoRoutingTable := mkGeoRoutingTable { regions : gmap string RegionEndpointStatus }.

Definition geo_new : GeoRoutingTable := mkGeoRoutingTable ∅.

Definition register_region (status : RegionEndpointStatus) (t : GeoRoutingTable) :
    GeoRoutingTable :=
  mkGeoRoutingTable (<[rg_region_id status := status]> (regions t)).

(** [partial_cmp(..).unwrap_or(Equal)] *)
Definition latency_cmp (a b : RegionEndpointStatus) : comparison :=
  default Eq (SFcompare (p50_latency_ms a) (p50_latency_ms b)).

Definition select_nearest_region `{!HashOrderOf string} (preferred : string)
    (t : GeoRoutingTable) : option RegionEndpointStatus :=
  let fallback :=
    min_by latency_cmp
      (filter (λ r, is_healthy r = true) (omap (λ k, regions t !! k) (iter_order (dom (regions t))))) in
  match regions t !! preferred with
  | Some p => if is_healthy p then Some p else fallback
  | None => fallback
  end.

(** ** The replicator *)

Record CrossRegionReplicator (V : Type) := mkReplicator {
  local_region_id : string;
  replicated_events : list (FederatedMutationEvent V);
  latest_clocks : gmap string VectorClockTimestamp
}.
Arguments mkReplicator {V} _ _ _.
Arguments local_region_id {V} _.
Arguments replicated_events {V} _.
Arguments latest_clocks {V} _.

Section replicator.
Context {V : Type}.
Implicit Types (ev : FederatedMutationEvent V) (r : CrossRegionReplicator V).

Definition replicator_new (region : string) : CrossRegionReplicator V := mkReplicator region [] ∅.

Definition ingest_federated_event ev r : HNSQRResult bool * CrossRegionReplicator V :=
  if bool_decide (origin_region ev = local_region_id r) then (Ok false, r)
  else
    let accept :=
      (Ok true, mkReplicator (local_region_id r) (replicated_events r ++ [ev])
                  (<[doc_id ev := clock ev]> (latest_clocks r))) in
    match latest_clocks r !! doc_id ev with
    | Some existing => if clock_leb (clock ev) existing then (Ok false, r) else accept
    | None => accept
    end.

Definition applied_count r : nat := length (replicated_events r).
End replicator.

Record FederatedRegionManager (V : Type) := mkRegionManager {
  routing : GeoRoutingTable;
  replicator : CrossRegionReplicator V
}.
Arguments mkRegionManager {V} _ _.

Definition region_manager_new {V} (region : string) : FederatedRegionManager V :=
  mkRegionManager geo_new (replicator_new region).

(** ** The order of clocks *)

Lemma total_cmp_clock : total_cmp clock_compare.
Proof.
  apply (total_cmp_then clock_region_id (λ c, (clock_generation c, (clock_lsn c, wall_time_ms c)))
           String.compare
           (λ x y, then_with (x.1 ?= y.1)%N (then_with (x.2.1 ?= y.2.1)%N (x.2.2 ?= y.2.2)%N))).
  - apply total_cmp_string.
  - apply (total_cmp_then fst snd N.compare
             (λ x y, then_with (x.1 ?= y.1)%N (x.2 ?= y.2)%N)).
    + apply total_cmp_N.
    + apply (total_cmp_then fst snd N.compare N.compare); [apply total_cmp_N..|]. by intros [] [] ? ?; simplify_eq/=.
    + by intros [] [] ? ?; simplify_eq/=.
  - by intros [] [] ? ?; simplify_eq/=.
Qed.

Lemma clock_leb_refl c : clock_leb c c = true.
Proof. unfold clock_leb. by rewrite (proj2 (cmp_eq _ total_cmp_clock c c) eq_refl). Qed.

Lemma clock_leb_antisym a b : clock_leb a b = true → clock_leb b a = true → a = b.
Proof.
  unfold clock_leb. rewrite (cmp_antisym _ total_cmp_clock b a).
  destruct (clock_compare a b) eqn:H; try done. intros _ _. by apply (cmp_eq _ total_cmp_clock).
Qed.

Lemma clock_leb_trans a b c : clock_leb a b = true → clock_leb b c = true → clock_leb a c = true.
Proof.
  unfold clock_leb. destruct (clock_compare a b) eqn:H1; try done;
    destruct (clock_compare b c) eqn:H2; try done; intros _ _.
  - apply (cmp_eq _ total_cmp_clock) in H1 as ->. by rewrite H2.
  - apply (cmp_eq _ total_cmp_clock) in H1 as ->. by rewrite H2.
  - apply (cmp_eq _ total_cmp_clock) in H2 as <-. by rewrite H1.
  - by rewrite (cmp_trans _ total_cmp_clock _ _ _ H1 H2).
Qed.

Lemma clock_leb_false a b : clock_leb a b = false → clock_leb b a = true.
Proof.
  unfold clock_leb. rewrite (cmp_antisym _ total_cmp_clock b a). by destruct (clock_compare a b).
Qed.

(** ** Convergence *)

Section convergence.
Context {V : Type}.
Implicit Types (ev : FederatedMutationEvent V) (r : CrossRegionReplicator V).

Definition deliver (r : CrossRegionReplicator V) (evs : list (FederatedMutationEvent V)) :
    CrossRegionReplicator V :=
  foldl (λ r ev, (ingest_federated_event ev r).2) r evs.

(** The event that determines a document's contents: the last one applied. *)
Definition winner (d : string) r : option (FederatedMutationEvent V) :=
  last (filter (λ ev, doc_id ev = d) (replicated_events r)).

Definition concerns (d region : string) ev : Prop := doc_id ev = d ∧ origin_region ev ≠ region.

(** [w] is the newest of the remote events about [d] among [evs]. *)
Definition newest (d region : string) (evs : list (FederatedMutationEvent V))
    (w : option (FederatedMutationEvent V)) : Prop :=
  match w with
  | None => ∀ ev, ev ∈ evs → ¬ concerns d region ev
  | Some w => w ∈ evs ∧ concerns d region w ∧
      ∀ ev, ev ∈ evs → concerns d region ev → clock_leb (clock ev) (clock w) = true
  end.

Lemma deliver_region evs region : local_region_id (deliver (replicator_new region) evs) = region.
Proof.
  unfold deliver. induction evs as [|ev evs IH] using rev_ind; [done|]. rewrite foldl_snoc.
  unfold ingest_federated_event. repeat case_match; done.
Qed.

Lemma deliver_newest d region evs :
  let r := deliver (replicator_new region) evs in
  latest_clocks r !! d = clock <$> winner d r ∧ newest d region evs (winner d r).
Proof.
  cbv zeta. induction evs as [|ev evs [IHc IHn]] using rev_ind.
  { split; [done|]. by intros ev ?%elem_of_nil. }
  unfold deliver in *. rewrite foldl_snoc. pose proof (deliver_region evs region) as Hreg.
  unfold deliver in Hreg. set (r := foldl _ _ evs) in *. clearbody r.
  unfold ingest_federated_event. rewrite Hreg.
  assert (concerns d region ev → newest d region (evs ++ [ev]) (Some ev) ∨
    ∃ w, winner d r = Some w ∧ clock_leb (clock ev) (clock w) = true) as Hmax.
  { intros Hc. destruct (winner d r) as [w|]; cbn in IHn.
    - destruct (clock_leb (clock ev) (clock w)) eqn:Hle; [eauto|left].
      apply clock_leb_false in Hle. cbn. split_and!; [apply elem_of_app; right; by left|done|].
      intros e [He| ->%list_elem_of_singleton]%elem_of_app Hce; [|apply clock_leb_refl].
      eapply clock_leb_trans; [|exact Hle]. apply IHn; done.
    - left. split_and!; [apply elem_of_app; right; by left|done|].
      intros e [He| ->%list_elem_of_singleton]%elem_of_app Hce; [by destruct (IHn e He)|apply clock_leb_refl]. }
  assert ((∃ w, winner d r = Some w ∧ clock_leb (clock ev) (clock w) = true) ∨ ¬ concerns d region ev →
          newest d region (evs ++ [ev]) (winner d r)) as Hkeep.
  { intros Hor. unfold newest in *. destruct (winner d r) as [w|].
    - destruct IHn as (Hw & Hcw & Hall). split_and!; [apply elem_of_app; by left|done|].
      intros e [He| ->%list_elem_of_singleton]%elem_of_app Hce; [by apply Hall|].
      destruct Hor as [(w' & [= <-] & ?)|?]; done.
    - intros e [He| ->%list_elem_of_singleton]%elem_of_app; [by apply IHn|].
      destruct Hor as [(w' & [=] & _)|?]; done. }
  case_bool_decide as Hor; [split; [done|]; apply Hkeep; right; by intros [_ ?]|].
  destruct (decide (doc_id ev = d)) as [Hd|Hd].
  - rewrite Hd, IHc. destruct (winner d r) as [w|] eqn:Hw; cbn [fmap option_fmap option_map].
    + destruct (clock_leb (clock ev) (clock w)) eqn:Hle; cbn [snd]; [rewrite Hw; split; [done|]; apply Hkeep; eauto|].
      unfold winner. cbn. rewrite filter_app, filter_cons_True, filter_nil, last_snoc by done.
      rewrite lookup_insert_eq. split; [done|]. destruct Hmax as [?|(w' & [= <-] & ?)]; [done|done|congruence].
    + unfold winner. cbn. rewrite filter_app, filter_cons_True, filter_nil, last_snoc by done.
      rewrite lookup_insert_eq. split; [done|]. destruct Hmax as [?|(w' & [=] & ?)]; done.
  - assert (¬ concerns d region ev) by by intros [? _].
    assert (∀ res, latest_clocks (mkReplicator res (replicated_events r ++ [ev])
              (<[doc_id ev := clock ev]> (latest_clocks r))) !! d = latest_clocks r !! d) as Hl
      by (intros; cbn; by rewrite lookup_insert_ne).
    assert (∀ res, winner d (mkReplicator res (replicated_events r ++ [ev])
              (<[doc_id ev := clock ev]> (latest_clocks r))) = winner d r) as Hwin.
    { intros. unfold winner. cbn. by rewrite filter_app, filter_cons_False, filter_nil, app_nil_r. }
    repeat case_match; cbn [snd]; rewrite ?Hl, ?Hwin; split; auto.
Qed.

(** C23: Delivery order and repetition do not matter: two replicas of a region
    that received the same set of events hold the same clocks and the same
    winning event for every document, if no two different events about a
    document carry the same clock. *)
Theorem replicas_converge region evs1 evs2 :
  (∀ ev, ev ∈ evs1 ↔ ev ∈ evs2) →
  (∀ e1 e2, e1 ∈ evs1 → e2 ∈ evs1 → doc_id e1 = doc_id e2 → clock e1 = clock e2 → e1 = e2) →
  let r1 := deliver (replicator_new region) evs1 in
  let r2 := deliver (replicator_new region) evs2 in
  latest_clocks r1 = latest_clocks r2 ∧ ∀ d, winner d r1 = winner d r2.
Proof.
  intros Hset Huniq r1 r2. assert (∀ d, winner d r1 = winner d r2) as Hw.
  { intros d. destruct (deliver_newest d region evs1) as [_ H1].
    destruct (deliver_newest d region evs2) as [_ H2]. fold r1 r2 in H1, H2.
    destruct (winner d r1) as [w1|], (winner d r2) as [w2|]; cbn in H1, H2.
    - destruct H1 as (Hi1 & Hc1 & Hm1), H2 as (Hi2 & Hc2 & Hm2). f_equal.
      apply Huniq; [done|by apply Hset|by rewrite (proj1 Hc1), (proj1 Hc2)|].
      apply clock_leb_antisym; [apply Hm2|apply Hm1]; try done; by apply Hset.
    - destruct H1 as (Hi1 & Hc1 & _). by destruct (H2 w1 (proj1 (Hset _) Hi1)).
    - destruct H2 as (Hi2 & Hc2 & _). by destruct (H1 w2 (proj2 (Hset _) Hi2)).
    - done. }
  split; [|done]. apply map_eq. intros d.
  unfold r1, r2. rewrite !(proj1 (deliver_newest d region _)). f_equal. apply Hw.
Qed.
End convergence.

(** ** Geo routing *)

(** The latency of a region as an ordered key. *)
Definition measured (r : RegionEndpointStatus) : Prop := is_Some (float_key (p50_latency_ms r)).

Lemma latency_cmp_gt a b : measured a → measured b →
  latency_cmp a b = Gt ↔ ∃ k k', float_key (p50_latency_ms a) = Some k ∧
    float_key (p50_latency_ms b) = Some k' ∧ key_compare k' k = Lt.
Proof.
  intros [k Hk] [k' Hk']. unfold latency_cmp. rewrite SFcompare_key, Hk, Hk'. cbn.
  assert (key_compare k k' = Gt ↔ key_compare k' k = Lt) as Hc.
  { unfold key_compare. rewrite (Z.compare_antisym k'.1.1), (Z.compare_antisym k'.1.2), (Z.compare_antisym k'.2).
    by destruct (k'.1.1 ?= k.1.1)%Z, (k'.1.2 ?= k.1.2)%Z, (k'.2 ?= k.2)%Z. }
  rewrite Hc. naive_solver.
Qed.

(** The preferred region is used while it is healthy; otherwise the request goes
    to a healthy region of least latency, and nowhere only when no region is
    healthy. *)
Lemma select_nearest_region_spec `{!HashOrderOf string} preferred t :
  map_Forall (λ _ r, is_healthy r = true → measured r) (regions t) →
  match select_nearest_region preferred t with
  | None => ∀ k r, regions t !! k = Some r → is_healthy r = false
  | Some s => is_healthy s = true ∧
      (regions t !! preferred = Some s ∨
       (∃ k, regions t !! k = Some s) ∧
       ∀ k r, regions t !! k = Some r → is_healthy r = true → latency_cmp s r ≠ Gt)
  end.
Proof.
  intros Hmeas.
  set (healthy := filter (λ r, is_healthy r = true) (omap (λ k, regions t !! k) (iter_order (dom (regions t))))).
  assert (∀ r, r ∈ healthy ↔ is_healthy r = true ∧ ∃ k, regions t !! k = Some r) as Hin.
  { intros r. unfold healthy. rewrite list_elem_of_filter, list_elem_of_omap. split.
    - intros (? & k & _ & ?). eauto.
    - intros (? & k & Hk). split; [done|]. exists k. split; [|done].
      rewrite iter_order_perm, elem_of_elements. by eapply elem_of_dom_2. }
  pose proof (min_by_spec latency_cmp measured) as Hmin.
  assert (match min_by latency_cmp healthy with
    | None => healthy = []
    | Some m => m ∈ healthy ∧ ∀ x, x ∈ healthy → latency_cmp m x ≠ Gt
    end) as Hfb.
  { apply Hmin.
    - intros x Hx. rewrite latency_cmp_gt by done. intros (k & k' & Hk & Hk' & Hlt%key_lt_spec).
      simplify_eq. lia.
    - intros x y z Hx Hy Hz. rewrite !latency_cmp_gt by done.
      destruct Hx as [kx Hkx], Hy as [ky Hky], Hz as [kz Hkz]. intros H1 H2 (? & ? & ? & ? & H3).
      simplify_eq. apply key_lt_spec in H3.
      assert (¬ key_compare ky kx = Lt) as N1 by naive_solver.
      assert (¬ key_compare kz ky = Lt) as N2 by naive_solver.
      rewrite key_lt_spec in N1, N2. lia.
    - intros x y Hx Hy. rewrite !latency_cmp_gt by done.
      intros (k & k' & Hk & Hk' & Hlt%key_lt_spec) (? & ? & ? & ? & Hlt'%key_lt_spec). simplify_eq. lia.
    - apply Forall_forall. intros r [Hh [k Hk]]%Hin. exact (Hmeas k r Hk Hh). }
  assert (match min_by latency_cmp healthy with
    | None => ∀ k r, regions t !! k = Some r → is_healthy r = false
    | Some s => is_healthy s = true ∧
        (regions t !! preferred = Some s ∨
         (∃ k, regions t !! k = Some s) ∧
         ∀ k r, regions t !! k = Some r → is_healthy r = true → latency_cmp s r ≠ Gt)
    end) as Hres.
  { destruct (min_by latency_cmp healthy) as [m|].
    - destruct Hfb as [[Hm Hk]%Hin Hall]. split; [done|right]. split; [done|].
      intros k r Hr Hh. apply Hall, Hin. eauto.
    - intros k r Hr. destruct (is_healthy r) eqn:Hh; [|done].
      assert (r ∈ healthy) as Hbad by (apply Hin; eauto). rewrite Hfb in Hbad. by apply elem_of_nil in Hbad. }
  unfold select_nearest_region. fold healthy.
  destruct (regions t !! preferred) as [p|] eqn:Hp; [|exact Hres].
  destruct (is_healthy p) eqn:Hh; [|exact Hres]. split; [done|]. by left.
Qed.
