(* ===== verification/StreamIngest.v ===== *)
(** The streaming ingestor of src/cluster/stream_ingest.rs: sixteen striped
    queues behind one length counter.  Each call is one atomic step; [Instant]s
    are an argument. *)

From Stdlib Require Import SpecFloat.
From stdpp Require Import base gmap sets strings numbers list fin_maps.
From S2P Require Import Prelude.
From S2P Require Import Floats.

Section ingest.
Context {D : Type}.

Record QueuedMutation := mkQueued {
  q_tenant_id : string;
  q_mutation_id : N;
  q_mutation : D;
  submitted_at : N
}.

Definition NUM_INGEST_SHARDS : N := 16.

Record AsyncLogStreamIngestor := mkIngestor {
  stripes : list (list QueuedMutation);
  queue_len : N;
  max_queue_capacity : N;
  batch_flush_size : N;
  flush_timeout : N;
  total_ingested : N;
  total_flushes : N;
  is_shutting_down : bool;
  drain_cursor : N
}.

Definition ingestor_new (capacity batch_size timeout : N) : AsyncLogStreamIngestor :=
  mkIngestor (replicate (N.to_nat NUM_INGEST_SHARDS) []) 0 capacity batch_size timeout 0 0 false 0.

Definition submit_mutation (now : N) (tenant_id : string) (id : N) (m : D)
    (s : AsyncLogStreamIngestor) : HNSQRResult bool * AsyncLogStreamIngestor :=
  if (max_queue_capacity s <=? queue_len s)%N then (Ok false, s)
  else
    let shard_idx := N.to_nat (id `mod` NUM_INGEST_SHARDS) in
    (Ok true,
     mkIngestor (alter (λ q, q ++ [mkQueued tenant_id id m now]) shard_idx (stripes s))
       (u64_add (queue_len s) 1) (max_queue_capacity s) (batch_flush_size s) (flush_timeout s)
       (u64_add (total_ingested s) 1) (total_flushes s) (is_shutting_down s) (drain_cursor s)).

(** The inner loop: pop from the front while the batch has room. *)
Fixpoint pop_while (size : N) (q batch : list QueuedMutation) :
    list QueuedMutation * list QueuedMutation :=
  match q with
  | [] => (q, batch)
  | item :: q' => if (lenN batch <? size)%N then pop_while size q' (batch ++ [item]) else (q, batch)
  end.

(** The loop over the stripes, starting at the cursor. *)
Fixpoint drain_stripes (size start : N) (offsets : list N) (qs : list (list QueuedMutation))
    (batch : list QueuedMutation) : list (list QueuedMutation) * list QueuedMutation :=
  match offsets with
  | [] => (qs, batch)
  | offset :: offsets =>
      if (size <=? lenN batch)%N then (qs, batch)
      else
        let shard_idx := N.to_nat ((start + offset) `mod` NUM_INGEST_SHARDS) in
        let '(q, batch) := pop_while size (qs !!! shard_idx) batch in
        drain_stripes size start offsets (<[shard_idx := q]> qs) batch
  end.

Definition stripe_offsets : list N := N.of_nat <$> seq 0 (N.to_nat NUM_INGEST_SHARDS).

Definition drain_batch (s : AsyncLogStreamIngestor) :
    list QueuedMutation * AsyncLogStreamIngestor :=
  let start := (drain_cursor s `mod` NUM_INGEST_SHARDS)%N in
  let '(qs, batch) := drain_stripes (batch_flush_size s) start stripe_offsets (stripes s) [] in
  (batch,
   mkIngestor qs
     (if bool_decide (batch = []) then queue_len s else u64_sub (queue_len s) (lenN batch))
     (max_queue_capacity s) (batch_flush_size s) (flush_timeout s) (total_ingested s)
     (if bool_decide (batch = []) then total_flushes s else u64_add (total_flushes s) 1)
     (is_shutting_down s) (u64_add (drain_cursor s) 1)).

Record StreamIngestStats := mkStats {
  total_ingested_mutations : N;
  total_flushed_batches : N;
  current_queue_depth : N;
  st_max_queue_capacity : N;
  average_batch_size : f64
}.

Definition ingest_stats (s : AsyncLogStreamIngestor) : StreamIngestStats :=
  mkStats (total_ingested s) (total_flushes s) (queue_len s) (max_queue_capacity s)
    (if (0 <? total_flushes s)%N
     then f64_div (f64_of_u64 (total_ingested s)) (f64_of_u64 (total_flushes s))
     else f64_of_Z 0).

(** ** Sequences of calls *)

Inductive IngestOp := Submit (now : N) (tenant : string) (id : N) (m : D) | Drain.

Record IngestRun := mkRun {
  run_state : AsyncLogStreamIngestor;
  accepted : list QueuedMutation;
  batches : list (list QueuedMutation)
}.

Definition ingest_step (r : IngestRun) (op : IngestOp) : IngestRun :=
  match op with
  | Submit now tenant id m =>
      match submit_mutation now tenant id m (run_state r) with
      | (Ok true, s) => mkRun s (accepted r ++ [mkQueued tenant id m now]) (batches r)
      | (_, s) => mkRun s (accepted r) (batches r)
      end
  | Drain => let '(batch, s) := drain_batch (run_state r) in
             mkRun s (accepted r) (batches r ++ [batch])
  end.

Definition ingest_run (capacity size timeout : N) (ops : list IngestOp) : IngestRun :=
  foldl ingest_step (mkRun (ingestor_new capacity size timeout) [] []) ops.

(** The mutations of stripe [i]. *)
Definition in_stripe (i : nat) (x : QueuedMutation) : Prop :=
  N.to_nat (q_mutation_id x `mod` NUM_INGEST_SHARDS) = i.
#[global] Instance in_stripe_dec i x : Decision (in_stripe i x).
Proof. unfold in_stripe. apply _. Defined.

Definition queued (qs : list (list QueuedMutation)) : nat := length (concat qs).

Lemma list_alter_as_insert {A} (f : A → A) (i : nat) (l : list A) x :
  l !! i = Some x → alter f i l = <[i := f x]> l.
Proof.
  revert i. induction l as [|y l IH]; intros [|i] Hi; cbn in *; simplify_eq; [done|].
  f_equal. by apply IH.
Qed.

(** ** Draining *)

Lemma pop_while_spec size q batch :
  ∃ popped rest, q = popped ++ rest ∧ pop_while size q batch = (rest, batch ++ popped) ∧
    ((lenN batch ≤ size)%N → (lenN (batch ++ popped) ≤ size)%N) ∧
    (rest = [] ∨ (size ≤ lenN (batch ++ popped))%N).
Proof.
  revert batch. induction q as [|x q IH]; intros batch; cbn.
  { exists [], []. rewrite !app_nil_r. split_and!; auto. }
  destruct (lenN batch <? size)%N eqn:Hc; bool_to_N.
  - destruct (IH (batch ++ [x])) as (popped & rest & -> & -> & Hle & Hr).
    exists (x :: popped), rest. rewrite <- app_assoc in *. cbn in *. split_and!; try done.
    intros _. apply Hle. rewrite lenN_snoc. lia.
  - exists [], (x :: q). rewrite !app_nil_r. split_and!; auto.
Qed.

(** Every queue holds mutations of its own stripe only. *)
Definition striped (qs : list (list QueuedMutation)) : Prop :=
  length qs = N.to_nat NUM_INGEST_SHARDS ∧
  ∀ i q, qs !! i = Some q → Forall (in_stripe i) q.

Lemma filter_stripe_same i q : Forall (in_stripe i) q → filter (in_stripe i) q = q.
Proof. induction 1; [done|]. by rewrite filter_cons_True; [f_equal|]. Qed.

Lemma filter_stripe_other i j q : i ≠ j → Forall (in_stripe i) q → filter (in_stripe j) q = [].
Proof.
  intros Hij. induction 1 as [|x q Hx Hq IH]; [done|]. rewrite filter_cons_False; [done|].
  unfold in_stripe in *. congruence.
Qed.

Lemma queued_insert i q q' qs :
  qs !! i = Some q → (queued (<[i := q']> qs) + length q = queued qs + length q')%nat.
Proof.
  unfold queued. revert i. induction qs as [|x qs IH]; intros [|i] Hi; try done.
  - injection Hi as <-. cbn. rewrite !length_app. lia.
  - specialize (IH i Hi). change (<[S i := q']> (x :: qs)) with (x :: <[i := q']> qs).
    cbn [concat]. rewrite !length_app. lia.
Qed.

Lemma shard_idx_lt x : (N.to_nat (x `mod` NUM_INGEST_SHARDS) < N.to_nat NUM_INGEST_SHARDS)%nat.
Proof. pose proof (N.mod_lt x NUM_INGEST_SHARDS ltac:(done)). lia. Qed.

Lemma drain_stripes_spec size start offsets qs batch :
  striped qs → (lenN batch ≤ size)%N →
  ∃ qs' popped, drain_stripes size start offsets qs batch = (qs', batch ++ popped) ∧ striped qs' ∧
    (∀ i q, qs !! i = Some q → ∃ q', qs' !! i = Some q' ∧ q = filter (in_stripe i) popped ++ q') ∧
    queued qs = (length popped + queued qs')%nat ∧ (lenN (batch ++ popped) ≤ size)%N ∧
    ((size ≤ lenN (batch ++ popped))%N ∨
     ∀ o, o ∈ offsets → qs' !! N.to_nat ((start + o) `mod` NUM_INGEST_SHARDS) = Some []).
Proof.
  revert qs batch. induction offsets as [|o offsets IH]; intros qs batch Hs Hle; cbn [drain_stripes].
  { exists qs, []. rewrite app_nil_r. split_and!; try done; [eauto|]. right. by intros o ?%elem_of_nil. }
  destruct (size <=? lenN batch)%N eqn:Hc; bool_to_N.
  { exists qs, []. rewrite app_nil_r. split_and!; try done; eauto. }
  set (idx := N.to_nat ((start + o) `mod` NUM_INGEST_SHARDS)) in *.
  destruct Hs as [Hlen Hall].
  destruct (lookup_lt_is_Some_2 qs idx) as [q Hq]; [rewrite Hlen; apply shard_idx_lt|].
  rewrite (list_lookup_total_correct _ _ _ Hq).
  destruct (pop_while_spec size q batch) as (popped & rest & -> & -> & Hle' & Hrest).
  pose proof (Hall _ _ Hq) as [Hpop Hres]%Forall_app.
  assert (striped (<[idx := rest]> qs)) as Hs'.
  { split; [by rewrite length_insert|]. intros i q Hi.
    apply list_lookup_insert_Some in Hi as [(<- & <- & _)|[_ Hi]]; eauto. }
  destruct (IH (<[idx := rest]> qs) (batch ++ popped) Hs' (Hle' Hle)) as
    (qs' & popped' & -> & Hs'' & Hf & Hsum & Hsz & Hend).
  exists qs', (popped ++ popped'). rewrite <- app_assoc in *. split_and!; try done.
  - intros i q Hi. rewrite filter_app. destruct (decide (i = idx)) as [->|Hne].
    + assert (q = popped ++ rest) as -> by congruence.
      destruct (Hf idx rest) as (q' & Hq' & ->); [by eapply list_lookup_insert_eq, lookup_lt_Some|].
      exists q'. split; [done|]. by rewrite (filter_stripe_same _ popped), app_assoc.
    + destruct (Hf i q) as (q' & Hq' & ->); [by rewrite list_lookup_insert_ne|].
      exists q'. split; [done|]. by rewrite (filter_stripe_other idx i popped).
  - pose proof (queued_insert idx _ rest _ Hq) as Hqi. rewrite length_app in *. lia.
  - destruct Hend as [?|Hend]; [by left|].
    destruct Hrest as [->|Hfull]; [right|left].
    + intros o' [->|Ho]%elem_of_cons; [|by apply Hend]. fold idx.
      destruct (Hf idx []) as (q' & Hq' & Hnil).
      { apply list_lookup_insert_eq. by eapply lookup_lt_Some. }
      symmetry in Hnil. apply app_nil in Hnil as [_ ->]. done.
    + rewrite !lenN_app in *. lia.
Qed.

(** A batch smaller than the flush size leaves nothing queued. *)
Lemma stripe_offsets_all start i :
  (i < N.to_nat NUM_INGEST_SHARDS)%nat →
  ∃ o, o ∈ stripe_offsets ∧
    N.to_nat ((start `mod` NUM_INGEST_SHARDS + o) `mod` NUM_INGEST_SHARDS) = i.
Proof.
  intros Hi. unfold NUM_INGEST_SHARDS in *. pose proof (N.mod_lt start 16 ltac:(done)) as Hs.
  exists ((N.of_nat i + 16 - start `mod` 16) `mod` 16)%N. split.
  - pose proof (N.mod_lt (N.of_nat i + 16 - start `mod` 16) 16 ltac:(done)) as Hm.
    apply list_elem_of_fmap. exists (N.to_nat ((N.of_nat i + 16 - start `mod` 16) `mod` 16)).
    rewrite N2Nat.id. split; [done|]. apply elem_of_seq. unfold NUM_INGEST_SHARDS.
    revert Hm. generalize ((N.of_nat i + 16 - start `mod` 16) `mod` 16)%N. cbn. lia.
  - rewrite N.Div0.add_mod_idemp_r.
    replace (start `mod` 16 + (N.of_nat i + 16 - start `mod` 16))%N with (N.of_nat i + 1 * 16)%N by lia.
    rewrite N.Div0.mod_add, N.mod_small by lia. lia.
Qed.

(** ** The invariant *)

Definition run_ok (r : IngestRun) : Prop :=
  striped (stripes (run_state r)) ∧
  (∀ i q, stripes (run_state r) !! i = Some q →
     filter (in_stripe i) (accepted r) = filter (in_stripe i) (concat (batches r)) ++ q) ∧
  queue_len (run_state r) = N.of_nat (queued (stripes (run_state r))) ∧
  (queue_len (run_state r) ≤ max_queue_capacity (run_state r) < u64_modulus)%N ∧
  Forall (λ b, (lenN b ≤ batch_flush_size (run_state r))%N) (batches r).

Lemma submit_ok now tenant id m r : run_ok r → run_ok (ingest_step r (Submit now tenant id m)).
Proof.
  intros (Hs & Hf & Hlen & Hcap & Hb). cbn. unfold submit_mutation.
  destruct (max_queue_capacity (run_state r) <=? queue_len (run_state r))%N eqn:Hc; [done|]. bool_to_N.
  set (x := mkQueued tenant id m now). set (idx := N.to_nat (id `mod` NUM_INGEST_SHARDS)).
  assert (in_stripe idx x) as Hx by done. destruct Hs as [Hl Hall].
  destruct (lookup_lt_is_Some_2 (stripes (run_state r)) idx) as [q Hq]; [rewrite Hl; apply shard_idx_lt|].
  rewrite (list_alter_as_insert _ _ _ _ Hq).
  split_and!; cbn [run_state stripes queue_len accepted batches max_queue_capacity batch_flush_size].
  - split; [by rewrite length_insert|]. intros i q' Hi.
    apply list_lookup_insert_Some in Hi as [(<- & <- & _)|[_ Hi]]; [|eauto].
    apply Forall_app. split; [eauto|]. by apply Forall_singleton.
  - intros i q' Hi. rewrite filter_app.
    apply list_lookup_insert_Some in Hi as [(<- & <- & _)|[Hne Hi]].
    + rewrite (Hf idx q Hq), filter_cons_True, filter_nil, app_assoc; done.
    + rewrite (Hf i q' Hi), filter_cons_False, filter_nil, app_nil_r; [done|].
      unfold in_stripe in *. congruence.
  - pose proof (queued_insert idx q (q ++ [x]) _ Hq) as Hqi. rewrite length_app in Hqi. cbn in Hqi.
    unfold u64_add, u64_wrap. rewrite N.mod_small; lia.
  - unfold u64_add, u64_wrap. rewrite N.mod_small; lia.
  - lia.
  - done.
Qed.

Lemma drain_ok r :
  run_ok r →
  run_ok (ingest_step r Drain) ∧
  ∃ b, batches (ingest_step r Drain) = batches r ++ [b] ∧
    ((lenN b < batch_flush_size (run_state r))%N →
     queue_len (run_state (ingest_step r Drain)) = 0%N).
Proof.
  intros (Hs & Hf & Hlen & Hcap & Hb). cbn. unfold drain_batch.
  set (start := (drain_cursor (run_state r) `mod` NUM_INGEST_SHARDS)%N).
  destruct (drain_stripes_spec (batch_flush_size (run_state r)) start stripe_offsets
              (stripes (run_state r)) []) as (qs' & b & -> & Hs' & Hq & Hsum & Hsz & Hend);
    [done|unfold lenN; cbn; lia|]. cbn [app] in *.
  assert ((if bool_decide (b = []) then queue_len (run_state r)
           else u64_sub (queue_len (run_state r)) (lenN b)) = N.of_nat (queued qs')) as Hql.
  { case_bool_decide as Hnil; [subst b; cbn in Hsum; lia|].
    unfold u64_sub, u64_wrap, lenN. rewrite Hlen in *.
    replace (N.of_nat (queued (stripes (run_state r))) + u64_modulus - N.of_nat (length b))%N
      with (N.of_nat (queued qs') + 1 * u64_modulus)%N by lia.
    rewrite N.Div0.mod_add. apply N.mod_small. lia. }
  split.
  - split_and!; cbn; [done| | |rewrite Hql; lia|lia|].
    + intros i q Hi. destruct (lookup_lt_is_Some_2 (stripes (run_state r)) i) as [q0 Hq0].
      { rewrite (proj1 Hs), <- (proj1 Hs'). by eapply lookup_lt_Some. }
      destruct (Hq i q0 Hq0) as (q' & Hq' & ->). assert (q' = q) as -> by congruence.
      rewrite (Hf _ _ Hq0), concat_app, filter_app. cbn. by rewrite app_nil_r, app_assoc.
    + exact Hql.
    + apply Forall_app. split; [done|]. by apply Forall_singleton.
  - exists b. split; [done|]. cbn. intros Hlt. rewrite Hql.
    destruct Hend as [?|Hend]; [lia|].
    assert (Forall (λ q, q = []) qs') as Hnil.
    { apply Forall_lookup. intros i q Hi. pose proof (lookup_lt_Some _ _ _ Hi) as Hlt'.
      rewrite (proj1 Hs') in Hlt'.
      destruct (stripe_offsets_all (drain_cursor (run_state r)) i Hlt') as (o & Ho & <-).
      specialize (Hend o Ho). fold start in Hi. congruence. }
    clear -Hnil. induction Hnil as [|q qs -> _ IH]; [done|]. done.
Qed.

Lemma ingest_run_ok capacity size timeout ops :
  (capacity < u64_modulus)%N → run_ok (ingest_run capacity size timeout ops).
Proof.
  intros Hcap. unfold ingest_run. induction ops as [|op ops IH] using rev_ind.
  - split_and!; cbn.
    + split; [done|]. intros i q [-> _]%lookup_replicate. constructor.
    + by intros i q [-> _]%lookup_replicate.
    + done.
    + lia.
    + done.
    + constructor.
  - rewrite foldl_snoc. destruct op; [by apply submit_ok|by apply drain_ok].
Qed.

(** The ingestor loses, invents and reorders nothing within a stripe: over
    any sequence of calls, what was accepted for a stripe is what the batches
    delivered of it followed by what it still queues; the depth counter is the
    number of queued mutations and never exceeds the capacity; no batch exceeds
    the flush size; and a further drain that returns less than the flush size
    leaves the ingestor empty. *)
Lemma stream_fifo capacity size timeout ops :
  (capacity < u64_modulus)%N →
  let r := ingest_run capacity size timeout ops in
  (∀ i q, stripes (run_state r) !! i = Some q →
     filter (in_stripe i) (accepted r) = filter (in_stripe i) (concat (batches r)) ++ q) ∧
  queue_len (run_state r) = N.of_nat (queued (stripes (run_state r))) ∧
  (queue_len (run_state r) ≤ max_queue_capacity (run_state r))%N ∧
  Forall (λ b, (lenN b ≤ batch_flush_size (run_state r))%N) (batches r) ∧
  ∃ b, batches (ingest_step r Drain) = batches r ++ [b] ∧
    ((lenN b < batch_flush_size (run_state r))%N →
     queue_len (run_state (ingest_step r Drain)) = 0%N).
Proof.
  intros Hcap r. pose proof (ingest_run_ok capacity size timeout ops Hcap) as Hok. fold r in Hok.
  destruct (drain_ok r Hok) as [_ Hd]. destruct Hok as (_ & Hf & Hq & Hc & Hb).
  split_and!; try done. lia.
Qed.

End ingest.
Arguments QueuedMutation : clear implicits.
Arguments AsyncLogStreamIngestor : clear implicits.
Arguments IngestOp : clear implicits.
Arguments IngestRun : clear implicits.
