(* ===== verification/TopK.v ===== *)
(** Top-k merging of scored candidates, as src/storage/segment.rs does it across
    segments and src/cluster/coordinator.rs across shards: sort all candidates by
    score, keep the first of every identifier, stop at [k]. *)

From stdpp Require Import base gmap sets strings numbers list sorting fin_maps.
From S2P Require Import Prelude.
From S2P Require Import Order.

(** ** Scores

    A [SimilarityScore] is an [f32], given by its bit pattern. *)

Abbreviation SimilarityScore := N (only parsing).
Abbreviation Candidate := (string * N)%type.

(** [f32::total_cmp] compares the patterns as sign-magnitude integers. *)
Definition total_key (bits : N) : Z :=
  if (bits <? 2147483648)%N then Z.of_N bits else (2147483647 - Z.of_N bits)%Z.
Definition f32_total_cmp (a b : N) : comparison := (total_key a ?= total_key b)%Z.

(** [|a, b| b.1.total_cmp(&a.1).then_with(|| a.0.cmp(&b.0))] *)
Definition candidate_cmp (a b : Candidate) : comparison :=
  then_with (f32_total_cmp b.2 a.2) (String.compare a.1 b.1).

(** The same comparison on slots. *)
Definition slot_cmp (a b : N * N) : comparison :=
  then_with (f32_total_cmp b.2 a.2) (a.1 ?= b.1)%N.

(** The deduplicating loop. *)
Fixpoint unique_loop (k : N) (seen : gset string) (unique l : list Candidate) : list Candidate :=
  match l with
  | [] => unique
  | (id, score) :: l =>
      if bool_decide (id ∈ seen) then unique_loop k seen unique l
      else
        let unique := unique ++ [(id, score)] in
        if (k <=? lenN unique)%N then unique else unique_loop k ({[id]} ∪ seen) unique l
  end.

Definition merge_topk `{SortUnstable} (k : N) (results : list Candidate) : list Candidate :=
  unique_loop k ∅ [] (sort_by candidate_cmp results).

(** ** Orders *)

Definition score_ge (a b : Candidate) : Prop := (total_key b.2 ≤ total_key a.2)%Z.

Lemma f32_total_preorder : cmp_preorder f32_total_cmp.
Proof.
  unfold f32_total_cmp. split; [intros; by rewrite Z.compare_antisym|].
  intros x y z. rewrite !Z.compare_gt_iff. lia.
Qed.

Lemma candidate_cmp_preorder : cmp_preorder candidate_cmp.
Proof.
  apply cmp_preorder_then.
  - apply (cmp_preorder_rev (λ a b : Candidate, f32_total_cmp a.2 b.2)), (cmp_preorder_key snd), f32_total_preorder.
  - apply (cmp_preorder_key fst), total_cmp_preorder, total_cmp_string.
Qed.

Lemma slot_cmp_preorder : cmp_preorder slot_cmp.
Proof.
  apply cmp_preorder_then.
  - apply (cmp_preorder_rev (λ a b : N * N, f32_total_cmp a.2 b.2)), (cmp_preorder_key snd), f32_total_preorder.
  - apply N_key_cmp_preorder.
Qed.

Lemma then_score_ge x y c :
  then_with (f32_total_cmp y x) c ≠ Gt → (total_key y ≤ total_key x)%Z.
Proof. unfold f32_total_cmp. by destruct (Z.compare_spec (total_key y) (total_key x)); cbn; [lia..|]. Qed.

Lemma sort_candidates_sorted `{SortUnstable} l : StronglySorted score_ge (sort_by candidate_cmp l).
Proof.
  eapply sorted_weaken; [|apply sort_by_sorted, candidate_cmp_preorder].
  intros x y. apply then_score_ge.
Qed.

(** ** The deduplicating loop *)

Lemma unique_loop_spec k seen acc l :
  StronglySorted score_ge l → (∀ a x, a ∈ acc → x ∈ l → score_ge a x) →
  (∀ id, id ∈ seen ↔ id ∈ acc.*1) → NoDup acc.*1 → (lenN acc < k)%N →
  ∃ new, unique_loop k seen acc l = acc ++ new ∧ new `sublist_of` l ∧ NoDup (acc ++ new).*1 ∧
    (lenN (acc ++ new) ≤ k)%N ∧
    ∀ x, x ∈ l →
      (∃ e, e ∈ acc ++ new ∧ e.1 = x.1 ∧ score_ge e x) ∨
      (lenN (acc ++ new) = k ∧ ∀ e, e ∈ acc ++ new → score_ge e x).
Proof.
  revert seen acc. induction l as [|[id s] l IH]; intros seen acc Hs Hacc Hseen Hnd Hk; cbn [unique_loop].
  { exists []. rewrite app_nil_r. split_and!; try done; [lia|]. by intros x ?%elem_of_nil. }
  apply StronglySorted_inv in Hs as [Hs Hall].
  assert (∀ a x, a ∈ acc → x ∈ l → score_ge a x) as Hacc' by (intros; apply Hacc; [done|by right]).
  case_bool_decide as Hin.
  - destruct (IH seen acc) as (new & -> & Hsub & Hnd' & Hle & Hx); try done.
    exists new. split_and!; try done; [by apply sublist_cons|].
    intros x [->|Hin']%elem_of_cons; [|by apply Hx]. left. apply Hseen, list_elem_of_fmap in Hin as (a & -> & Ha).
    exists a. split_and!; [apply elem_of_app; by left|done|apply Hacc; [done|by left]].
  - assert (∀ a x, a ∈ acc ++ [(id, s)] → x ∈ l → score_ge a x) as Hacc2.
    { intros a x [Ha| ->%list_elem_of_singleton]%elem_of_app Hxl; [by apply Hacc'|].
      rewrite Forall_forall in Hall. by apply Hall. }
    assert (NoDup (acc ++ [(id, s)]).*1) as Hnd2.
    { rewrite fmap_app. apply NoDup_app. split_and!; [done| |apply NoDup_singleton].
      intros y Hy ->%list_elem_of_singleton. by apply Hin, Hseen. }
    destruct (k <=? lenN (acc ++ [(id, s)]))%N eqn:Hc; bool_to_N.
    + exists [(id, s)]. rewrite lenN_snoc in *.
      split_and!; try done; [by apply sublist_skip, sublist_nil_l|lia|].
      intros x [->|Hxl]%elem_of_cons.
      * left. exists (id, s). split_and!; [apply elem_of_app; right; by left|done|]. unfold score_ge. lia.
      * right. split; [lia|]. intros e He. by apply Hacc2.
    + destruct (IH ({[id]} ∪ seen) (acc ++ [(id, s)])) as (new & -> & Hsub & Hnd' & Hle & Hx); try done.
      { intros id'. rewrite fmap_app, elem_of_app, elem_of_union, elem_of_singleton, Hseen.
        cbn. rewrite list_elem_of_singleton. tauto. }
      exists ((id, s) :: new). rewrite <- app_assoc in *. cbn in *.
      split_and!; try done; [by apply sublist_skip|].
      intros x [->|Hxl]%elem_of_cons; [|by apply Hx].
      left. exists (id, s). split_and!; [apply elem_of_app; right; by left|done|]. unfold score_ge. lia.
Qed.

Section merge.
Context `{SortUnstable}.

Lemma merge_topk_spec k results :
  (0 < k)%N →
  let r := merge_topk k results in
  NoDup r.*1 ∧ StronglySorted score_ge r ∧ (lenN r ≤ k)%N ∧ (∀ e, e ∈ r → e ∈ results) ∧
  ∀ x, x ∈ results →
    (∃ e, e ∈ r ∧ e.1 = x.1 ∧ score_ge e x) ∨ (lenN r = k ∧ ∀ e, e ∈ r → score_ge e x).
Proof.
  intros Hk. unfold merge_topk. pose proof (sort_candidates_sorted results) as Hs.
  destruct (unique_loop_spec k ∅ [] (sort_by candidate_cmp results)) as (r & -> & Hsub & Hnd & Hle & Hx);
    try done; cbn [app] in *.
  { by intros a x ?%elem_of_nil. }
  { intros id. set_solver. }
  { constructor. }
  split_and!; [done|by eapply sublist_sorted|done| |].
  - intros e He. rewrite <- (sort_by_perm candidate_cmp results).
    eapply sublist_Forall in Hsub; [|apply Forall_forall; intros y Hy; exact Hy].
    rewrite Forall_forall in Hsub. by apply Hsub.
  - intros x Hin. apply Hx. by rewrite sort_by_perm.
Qed.

(** [l] is a best-[k] selection of [c]. *)
Definition local_top (k : N) (c l : list Candidate) : Prop :=
  l ⊆+ c ∧ NoDup c.*1 ∧ lenN l = N.min k (lenN c) ∧
  ∀ x y, x ∈ c → (x ∉ l) → y ∈ l → score_ge y x.

Lemma elem_of_concat {A} (x : A) ls : x ∈ concat ls ↔ ∃ l, l ∈ ls ∧ x ∈ l.
Proof. induction ls; cbn; set_solver. Qed.

Lemma elem_of_or_split {A} (P Q : A → Prop) (l : list A) :
  (∀ x, x ∈ l → P x ∨ Q x) → (∃ x, x ∈ l ∧ Q x) ∨ ∀ x, x ∈ l → P x.
Proof.
  induction l as [|y l IH]; intros Hl; [right; by intros x ?%elem_of_nil|].
  destruct IH as [(x & Hx & HQ)|HP]; [intros; apply Hl; by right|left; exists x; split; [by right|done]|].
  destruct (Hl y) as [Hy|Hy]; [by left|right|left; exists y; split; [by left|done]].
  by intros x [->|Hx]%elem_of_cons; auto.
Qed.

Lemma NoDup_same_length (l1 l2 : list string) :
  NoDup l1 → NoDup l2 → length l1 = length l2 → (∀ x, x ∈ l1 → x ∈ l2) → l1 ≡ₚ l2.
Proof.
  intros H1 H2 Hlen Hsub. apply submseteq_length_Permutation; [|lia]. by apply NoDup_submseteq.
Qed.

(** Merging the best [k] of each part gives the best [k] of the whole: the result
    is sorted, free of duplicates and at most [k] long; every entry comes from
    some part and is the best one for its identifier; and a candidate that is
    missing is outscored by [k] entries. *)
Lemma merge_local_tops k (parts : list (list Candidate * list Candidate)) :
  (0 < k)%N → Forall (λ p, local_top k p.1 p.2) parts →
  let r := merge_topk k (concat parts.*2) in
  NoDup r.*1 ∧ StronglySorted score_ge r ∧ (lenN r ≤ k)%N ∧
  (∀ e, e ∈ r → e ∈ concat parts.*1) ∧
  ∀ x, x ∈ concat parts.*1 →
    (∃ e, e ∈ r ∧ e.1 = x.1 ∧ score_ge e x) ∨ (lenN r = k ∧ ∀ e, e ∈ r → score_ge e x).
Proof.
  intros Hk Hparts r.
  destruct (merge_topk_spec k (concat parts.*2) Hk) as (Hnd & Hs & Hle & Hin & Hall). fold r in Hnd, Hs, Hle, Hin, Hall.
  assert (∀ y, y ∈ concat parts.*2 → y ∈ concat parts.*1) as Hsub.
  { clear -Hparts. induction Hparts as [|[c l] ps (Hl & _) _ IH]; [done|]. cbn. intros y.
    rewrite !elem_of_app. intros [Hy|Hy]; [left|right; auto]. by eapply elem_of_submseteq. }
  split_and!; [done..|by intros; apply Hsub, Hin|].
  intros x (c & (p & -> & Hp)%list_elem_of_fmap & Hxc)%elem_of_concat.
  rewrite Forall_forall in Hparts. destruct (Hparts p Hp) as (Hlc & Hcnd & Hlen & Htop).
  assert (∀ y, y ∈ p.2 → y ∈ concat parts.*2) as Hpl.
  { intros y Hy. apply elem_of_concat. exists p.2. split; [by apply list_elem_of_fmap_2|done]. }
  destruct (decide (x ∈ p.2)) as [Hxl|Hxl]; [by apply Hall, Hpl|].
  assert (lenN p.2 = k) as Hfull.
  { destruct (decide (lenN p.2 = k)); [done|]. exfalso. apply Hxl.
    assert (p.2 ≡ₚ p.1) as ->; [|done]. apply submseteq_length_Permutation; [done|]. unfold lenN in *. lia. }
  right. destruct (elem_of_or_split _ _ p.2 (λ y Hy, Hall y (Hpl y Hy))) as [(y & Hy & Hr & He)|Hcov].
  { split; [done|]. intros e Hin'. specialize (He e Hin'). specialize (Htop x y Hxc Hxl Hy).
    unfold score_ge in *. lia. }
  assert (NoDup p.2.*1) as Hlnd.
  { assert (p.2.*1 ⊆+ p.1.*1) as Hm by by apply fmap_submseteq.
    apply submseteq_Permutation in Hm as [rest Hrest]. rewrite Hrest in Hcnd. by apply NoDup_app in Hcnd as [? _]. }
  assert (∀ id, id ∈ p.2.*1 → id ∈ r.*1) as Hids.
  { intros id (y & -> & Hy)%list_elem_of_fmap. destruct (Hcov y Hy) as (e & He & <- & _).
    by apply list_elem_of_fmap_2. }
  assert (length p.2.*1 = length r.*1) as Hlen'.
  { pose proof (submseteq_length _ _ (NoDup_submseteq _ _ Hlnd Hids)). rewrite !length_fmap in *.
    unfold lenN in *. lia. }
  split; [unfold lenN in *; rewrite !length_fmap in Hlen'; lia|]. intros e He.
  pose proof (NoDup_same_length _ _ Hlnd Hnd Hlen' Hids) as Hperm.
  assert (e.1 ∈ p.2.*1) as (y & Hey & Hy)%list_elem_of_fmap by (rewrite Hperm; by apply list_elem_of_fmap_2).
  destruct (Hcov y Hy) as (e' & He' & Hid & Hge). specialize (Htop x y Hxc Hxl Hy).
  assert (e' = e) as ->; [|unfold score_ge in *; lia].
  apply list_elem_of_lookup in He as [i Hi]. apply list_elem_of_lookup in He' as [j Hj].
  assert (i = j) as <-; [|congruence].
  eapply NoDup_lookup; [exact Hnd|rewrite list_lookup_fmap, Hi; done|].
  rewrite list_lookup_fmap, Hj. cbn. congruence.
Qed.

(** Sorting by score and truncating selects a best [k]. *)
Lemma take_sorted_top {A} (cmp : A → A → comparison) (f : A → Candidate) k (c : list A) :
  cmp_preorder cmp → (∀ x y, cmp x y ≠ Gt → score_ge (f x) (f y)) → NoDup (f <$> c).*1 →
  local_top k (f <$> c) (f <$> truncateN k (sort_by cmp c)).
Proof.
  intros Hcmp Hge Hnd. pose proof (sort_by_sorted cmp c Hcmp) as Hs. pose proof (sort_by_perm cmp c) as Hp.
  set (l := sort_by cmp c) in *. clearbody l. split_and!.
  - apply fmap_submseteq. rewrite <- Hp. apply sublist_submseteq, sublist_take.
  - done.
  - unfold lenN, truncateN. rewrite !length_fmap, length_take, (Permutation_length Hp). lia.
  - intros x y Hx Hnx (y' & -> & Hy)%list_elem_of_fmap.
    rewrite <- Hp in Hx. apply list_elem_of_fmap in Hx as (x' & -> & Hx').
    rewrite <- (take_drop (N.to_nat k) l) in Hx', Hs.
    apply elem_of_app in Hx' as [Hx'|Hx']; [destruct Hnx; by apply list_elem_of_fmap_2|].
    apply Hge. unfold truncateN in Hy. clear -Hs Hx' Hy.
    induction (take (N.to_nat k) l) as [|z t IH]; [by apply elem_of_nil in Hy|].
    cbn in Hs. apply StronglySorted_inv in Hs as [Hs Hz]. apply elem_of_cons in Hy as [->|Hy]; [|auto].
    rewrite Forall_forall in Hz. apply Hz, elem_of_app. by right.
Qed.
End merge.
