(* ===== verification/StoragePolicies.v ===== *)
(** Small concurrency policies of src/storage: the maintenance I/O budget
    (io_budget.rs), the admission controller (backpressure.rs) and the striped
    map (sharded_map.rs).  Every call is one atomic step. *)

From Stdlib Require Import ZArith SpecFloat.
From stdpp Require Import base gmap sets strings numbers list fin_maps.
From S2P Require Import Prelude.
From S2P Require Import Floats.

(** ** [IoBudgetManager] *)

Inductive IoMaintenanceClass :=
  | Compaction | SnapshotGeneration | BackupUpload | ShardMigration | ColdFetch.

Record IoBudgetManager := mkIoBudget {
  max_bandwidth_bytes_per_sec : N;
  available_tokens : N;
  is_throttled : bool;
  p95_latency_threshold_micros : N;
  p95_recovery_threshold_micros : N
}.

Definition io_budget_new (max_bytes_per_sec : N) : IoBudgetManager :=
  mkIoBudget max_bytes_per_sec max_bytes_per_sec false 5000 2000.
Definition io_budget_default : IoBudgetManager := io_budget_new (100 * 1024 * 1024).

Definition set_throttled (b : bool) (m : IoBudgetManager) : IoBudgetManager :=
  mkIoBudget (max_bandwidth_bytes_per_sec m) (available_tokens m) b
    (p95_latency_threshold_micros m) (p95_recovery_threshold_micros m).

Definition set_tokens (t : N) (m : IoBudgetManager) : IoBudgetManager :=
  mkIoBudget (max_bandwidth_bytes_per_sec m) t (is_throttled m)
    (p95_latency_threshold_micros m) (p95_recovery_threshold_micros m).

Definition report_foreground_latency (p95_micros : N) (m : IoBudgetManager) : IoBudgetManager :=
  if (p95_latency_threshold_micros m <? p95_micros)%N then set_throttled true m
  else if (p95_micros <? p95_recovery_threshold_micros m)%N then set_throttled false m
  else m.

(** [0.1] as the compiler reads it. *)
Definition refill_interval : f64 := f64_div (f64_of_Z 1) (f64_of_Z 10).

(** [elapsed] is the time in seconds since the last refill. *)
Definition acquire_maintenance_budget (elapsed : f64) (bytes : N) (m : IoBudgetManager) :
    N * IoBudgetManager :=
  if is_throttled m then (N.max (bytes / 10) 1, m)
  else
    let m :=
      if negb (f64_lt elapsed refill_interval) && negb (f64_is_nan elapsed) then
        set_tokens (u64_add (available_tokens m)
          (f64_as_usize (f64_mul elapsed (f64_of_u64 (max_bandwidth_bytes_per_sec m))))) m
      else m in
    let granted := N.max (N.min bytes (available_tokens m)) 1 in
    (granted, set_tokens (u64_sub (available_tokens m) granted) m).

(** ** [BackpressureController] *)

Record BackpressureConfig := mkBackpressureConfig {
  max_inflight_mutations : N;
  min_disk_headroom_bytes : N
}.
Definition BackpressureConfig_default := mkBackpressureConfig 10000 (1024 * 1024 * 1024).

Record BackpressureController := mkBackpressure {
  bp_config : BackpressureConfig;
  current_inflight : N;
  read_only_mode : bool
}.

Definition backpressure_new (c : BackpressureConfig) : BackpressureController :=
  mkBackpressure c 0 false.

Definition try_admit_mutation (b : BackpressureController) :
    HNSQRResult unit * BackpressureController :=
  if read_only_mode b then
    (Err (Internal "Engine is in read-only fail-safe mode due to storage resource pressure"), b)
  else if (max_inflight_mutations (bp_config b) <=? current_inflight b)%N then
    (Err (Internal "Backpressure limit reached"), b)
  else (Ok tt, mkBackpressure (bp_config b) (u64_add (current_inflight b) 1) (read_only_mode b)).

Definition set_read_only (enable : bool) (b : BackpressureController) : BackpressureController :=
  mkBackpressure (bp_config b) (current_inflight b) enable.

(** [Drop for MutationPermit] *)
Definition permit_drop (b : BackpressureController) : BackpressureController :=
  mkBackpressure (bp_config b) (u64_sub (current_inflight b) 1) (read_only_mode b).

(** ** [ShardedConcurrentMap]

    [hash] is the standard library's hasher. *)

Definition NUM_SHARDS : N := 64.

Section sharded_map.
Context {K V : Type} `{Countable K} (hash : K → N).

Record ShardedConcurrentMap := mkShardedMap {
  map_shards : list (gmap K V);
  map_count : N
}.

Definition sharded_new : ShardedConcurrentMap :=
  mkShardedMap (replicate (N.to_nat NUM_SHARDS) ∅) 0.

Definition shard_index (key : K) : nat := N.to_nat (hash key `mod` NUM_SHARDS).

(** [None] outside is the index panic. *)
Definition sharded_get (key : K) (m : ShardedConcurrentMap) : option (option V) :=
  shard ← map_shards m !! shard_index key; Some (shard !! key).

Definition sharded_contains_key (key : K) (m : ShardedConcurrentMap) : option bool :=
  shard ← map_shards m !! shard_index key; Some (bool_decide (is_Some (shard !! key))).

Definition sharded_insert (key : K) (value : V) (m : ShardedConcurrentMap) :
    option (option V * ShardedConcurrentMap) :=
  let idx := shard_index key in
  shard ← map_shards m !! idx;
  let prev := shard !! key in
  Some (prev, mkShardedMap (<[idx := <[key := value]> shard]> (map_shards m))
                (if prev is None then u64_add (map_count m) 1 else map_count m)).

Definition sharded_remove (key : K) (m : ShardedConcurrentMap) :
    option (option V * ShardedConcurrentMap) :=
  let idx := shard_index key in
  shard ← map_shards m !! idx;
  let prev := shard !! key in
  Some (prev, mkShardedMap (<[idx := delete key shard]> (map_shards m))
                (if prev is Some _ then u64_sub (map_count m) 1 else map_count m)).

Definition sharded_len (m : ShardedConcurrentMap) : N := map_count m.
Definition sharded_is_empty (m : ShardedConcurrentMap) : bool := (sharded_len m =? 0)%N.

Definition sharded_clear (m : ShardedConcurrentMap) : ShardedConcurrentMap :=
  mkShardedMap ((λ _, ∅) <$> map_shards m) 0.

Definition sharded_to_vec (m : ShardedConcurrentMap) : list (K * V) :=
  map_shards m ≫= map_to_list.

(** ** Refinement of a map *)

Inductive MapOp := MapInsert (k : K) (v : V) | MapRemove (k : K) | MapClear.

Definition sharded_step (op : MapOp) (m : ShardedConcurrentMap) :
    option (option V * ShardedConcurrentMap) :=
  match op with
  | MapInsert k v => sharded_insert k v m
  | MapRemove k => sharded_remove k m
  | MapClear => Some (None, sharded_clear m)
  end.

Definition map_step (op : MapOp) (m : gmap K V) : option V * gmap K V :=
  match op with
  | MapInsert k v => (m !! k, <[k := v]> m)
  | MapRemove k => (m !! k, delete k m)
  | MapClear => (None, ∅)
  end.

Record sharded_rep (s : ShardedConcurrentMap) (m : gmap K V) : Prop := {
  rep_len : length (map_shards s) = N.to_nat NUM_SHARDS;
  rep_own i shard k v : map_shards s !! i = Some shard → shard !! k = Some v → shard_index k = i;
  rep_get k : sharded_get k s = Some (m !! k);
  rep_count : map_count s = u64_wrap (N.of_nat (size m))
}.

Lemma shard_index_lt k : (shard_index k < N.to_nat NUM_SHARDS)%nat.
Proof. unfold shard_index. pose proof (N.mod_lt (hash k) NUM_SHARDS ltac:(done)). lia. Qed.

Lemma sharded_rep_shard s m k :
  sharded_rep s m → ∃ shard, map_shards s !! shard_index k = Some shard ∧ shard !! k = m !! k.
Proof.
  intros [Hl Ho Hg Hc]. destruct (lookup_lt_is_Some_2 (map_shards s) (shard_index k)) as [shard Hs].
  { rewrite Hl. apply shard_index_lt. }
  exists shard. split; [done|]. specialize (Hg k). unfold sharded_get in Hg. rewrite Hs in Hg. by injection Hg.
Qed.

(** Replacing the value of one key in its shard. *)
Lemma sharded_rep_update s m k shard (ov : option V) n :
  sharded_rep s m → map_shards s !! shard_index k = Some shard →
  n = u64_wrap (N.of_nat (size (partial_alter (λ _, ov) k m))) →
  sharded_rep (mkShardedMap (<[shard_index k := partial_alter (λ _, ov) k shard]> (map_shards s)) n)
    (partial_alter (λ _, ov) k m).
Proof.
  intros [Hl Ho Hg Hc] Hs Hn. split; cbn.
  - by rewrite length_insert.
  - intros i sh k' v Hi Hk'. apply list_lookup_insert_Some in Hi as [(<- & <- & _)|[_ Hi]]; [|eauto].
    destruct (decide (k' = k)) as [->|]; [done|]. rewrite lookup_partial_alter_ne in Hk' by done. eauto.
  - intros k'. unfold sharded_get. cbn. specialize (Hg k'). unfold sharded_get in Hg.
    rewrite list_lookup_insert. case_decide as Hi.
    + destruct Hi as [Hi _]. cbn. destruct (decide (k' = k)) as [->|].
      * by rewrite !lookup_partial_alter_eq.
      * rewrite !lookup_partial_alter_ne by done. rewrite <- Hi, Hs in Hg. done.
    + destruct (decide (k' = k)) as [->|]; [|by rewrite lookup_partial_alter_ne].
      destruct Hi. split; [done|]. by eapply lookup_lt_Some.
  - done.
Qed.

Lemma u64_sub_wrap_pred n : u64_sub (u64_wrap (N.of_nat (S n))) 1 = u64_wrap (N.of_nat n).
Proof.
  unfold u64_sub, u64_wrap. pose proof (N.mod_lt (N.of_nat (S n)) u64_modulus ltac:(done)).
  rewrite <- N.add_sub_assoc by done. rewrite N.Div0.add_mod_idemp_l.
  replace (N.of_nat (S n) + (u64_modulus - 1))%N with (N.of_nat n + 1 * u64_modulus)%N by (unfold u64_modulus; lia).
  by rewrite N.Div0.mod_add.
Qed.

Lemma sharded_step_rep op s m :
  sharded_rep s m →
  ∃ s', sharded_step op s = Some ((map_step op m).1, s') ∧ sharded_rep s' (map_step op m).2.
Proof.
  intros Hr. destruct op as [k v|k|]; cbn.
  - unfold sharded_insert. destruct (sharded_rep_shard s m k Hr) as (shard & Hs & Hk).
    rewrite Hs. cbn. rewrite Hk. eexists; split; [done|].
    apply (sharded_rep_update s m k shard (Some v)); [done..|]. change (partial_alter (λ _, Some v) k m) with (<[k:=v]> m).
    rewrite map_size_insert, (rep_count _ _ Hr). destruct (m !! k); [done|].
    unfold u64_add, u64_wrap. rewrite N.Div0.add_mod_idemp_l. f_equal. lia.
  - unfold sharded_remove. destruct (sharded_rep_shard s m k Hr) as (shard & Hs & Hk).
    rewrite Hs. cbn. rewrite Hk. eexists; split; [done|].
    apply (sharded_rep_update s m k shard None); [done..|]. change (partial_alter (λ _, None) k m) with (delete k m).
    rewrite map_size_delete, (rep_count _ _ Hr). destruct (m !! k) as [v|] eqn:Hm; [|done].
    destruct (size m) as [|n] eqn:Hsz; [|by rewrite u64_sub_wrap_pred].
    apply map_size_empty_inv in Hsz. by rewrite Hsz in Hm.
  - eexists; split; [done|]. split; cbn.
    + rewrite length_fmap. apply Hr.
    + intros i shard k v Hi. rewrite list_lookup_fmap in Hi.
      destruct (map_shards s !! i); simplify_eq/=. by rewrite lookup_empty.
    + intros k. unfold sharded_get. cbn. rewrite list_lookup_fmap.
      destruct (sharded_rep_shard s m k Hr) as (shard & -> & _). done.
    + done.
Qed.

(** Running the operations on the striped map and on one map. *)
Fixpoint sharded_run (ops : list MapOp) (s : ShardedConcurrentMap) :
    option (list (option V) * ShardedConcurrentMap) :=
  match ops with
  | [] => Some ([], s)
  | op :: ops =>
      '(r, s) ← sharded_step op s; '(rs, s) ← sharded_run ops s; Some (r :: rs, s)
  end.

Fixpoint map_run (ops : list MapOp) (m : gmap K V) : list (option V) * gmap K V :=
  match ops with
  | [] => ([], m)
  | op :: ops => let '(r, m) := map_step op m in let '(rs, m) := map_run ops m in (r :: rs, m)
  end.

(** The striped concurrent map refines one map: over any sequence of
    inserts, removals and clears it never panics, every call returns what the
    map returns, afterwards every key reads as in the map, and the length is the
    map's size modulo 2^64. *)
Lemma sharded_map_refines ops :
  ∃ s, sharded_run ops sharded_new = Some ((map_run ops ∅).1, s) ∧
    (∀ k, sharded_get k s = Some ((map_run ops ∅).2 !! k)) ∧
    sharded_len s = u64_wrap (N.of_nat (size (map_run ops ∅).2)).
Proof.
  assert (sharded_rep sharded_new ∅) as Hr.
  { split; cbn.
    - done.
    - intros i shard k v [-> _]%lookup_replicate. by rewrite lookup_empty.
    - intros k. unfold sharded_get. cbn. rewrite lookup_replicate_2 by apply shard_index_lt. done.
    - done. }
  revert Hr. generalize sharded_new (∅ : gmap K V). induction ops as [|op ops IH]; intros s m Hr; cbn.
  { exists s. split_and!; [done|apply Hr|apply Hr]. }
  destruct (sharded_step_rep op s m Hr) as (s1 & Hs & Hr1). rewrite Hs. cbn.
  destruct (map_step op m) as [r m1] eqn:Hm. cbn in *.
  destruct (IH s1 m1 Hr1) as (s2 & Hs2 & Hg & Hl). exists s2. rewrite Hs2. cbn.
  by destruct (map_run ops m1).
Qed.
End sharded_map.
