(* ===== verification/Segment.v ===== *)
(** The segmented vector engine of src/storage/segment.rs: one mutable segment
    that takes the writes, frozen segments behind it, tombstones, rotation and
    compaction, the write-ahead log in front of [insert] and [delete], and
    scatter-gather search over the segments.

    Immutable segments are shared ([Arc]) between the engine and the snapshots
    taken of it, and their tombstones are written in place: they live in a heap
    indexed by segment id, and the engine and a snapshot hold ids.

    The SIMD kernels, the Rivero territory index (src/rivero) and the certified
    proof search (src/proof) appear through the class [VectorKernels]: the calls
    the engine makes.  [None] is a panic on an index. *)

From Stdlib Require Import Strings.Byte.
From stdpp Require Import base gmap sets strings numbers list sorting fin_maps.
From S2P Require Import Prelude.
From S2P Require Import Codec.
From S2P Require Import FileSystem.
From S2P Require Import Wal.
From S2P Require Import Floats.
From S2P Require Import Order.
From S2P Require Import TopK.
From S2P Require Import Hypercube.
From S2P Require Import StoragePolicies.

Abbreviation SegmentId := N (only parsing).

Inductive SegmentState := ActiveMutable | FlushedImmutable | Compacted.

Record SegmentStats := mkSegmentStats {
  st_segment_id : SegmentId;
  st_state : SegmentState;
  live_vectors : N;
  deleted_vectors : N;
  st_capacity : N;
  memory_bytes : N
}.

Inductive RetrievalContract :=
  | Exact
  | Certified
  | PacRelaxed (epsilon delta : N)
  | HighRecall (recall : N)
  | Budget (nanos : N)
  | MultiVectorMaxSim (token_dim top_k_centroids : N).

(** Embeddings [V], addresses [A], territory indices [T], proof trees [P], and the
    tombstone bitmaps [B] a proof search consults. *)
Class VectorKernels (V A T P B : Type) := {
  vec_dimension : V → N;
  (** [query.dot_product_complex(v).re], as the bits of an [f32] *)
  dot_re : V → V → N;
  into_normalized : V → V;
  compile : N → V → A;
  territories_new : T;
  territories_insert : A → N → T → T;
  (** [with_candidates_config] under the strict profile *)
  strict_candidates : A → T → list N;
  proof_tree_build : list V → list N → N → P;
  (** [GlobalExactProofSearch::search] over one segment *)
  proof_search : V → N → P → list V → B → list N → list (N * N)
}.

Section segment.
Context {V A T P B MV : Type} `{!VectorKernels V A T P B} `{!Roaring B} `{!SortUnstable}.

(** ** Scoring *)

(** The scores of the slots; [vectors[slot]]. *)
Definition score_slots (q : V) (vectors : list V) (slots : list N) : option (list (N * N)) :=
  mapM (λ slot, v ← nth_u64 vectors slot; Some (slot, dot_re q v)) slots.

(** [slot_to_id[slot]] for every result. *)
Definition name_slots (slot_to_id : list string) (l : list (N * N)) : option (list Candidate) :=
  mapM (λ '(slot, s), id ← nth_u64 slot_to_id slot; Some (id, s)) l.

(** Score, sort by descending score and ascending slot, truncate, name. *)
Definition rank_slots (q : V) (k : N) (vectors : list V) (slot_to_id : list string)
    (slots : list N) : option (list Candidate) :=
  scored ← score_slots q vectors slots;
  name_slots slot_to_id (truncateN k (sort_by slot_cmp scored)).

(** [0..len as u32] *)
Definition slots_upto (len : nat) : list N :=
  N.of_nat <$> seq 0 (N.to_nat (N.of_nat len `mod` u32_modulus)).

(** Those without a tombstone. *)
Definition live_slots (len : nat) (tombstones : B) : list N :=
  filter (λ slot, roaring_contains slot tombstones = false) (slots_upto len).

(** ** [MutableSegment] *)

Record MutableSegment := mkMutable {
  ms_id : SegmentId;
  ms_dimension : N;
  ms_max_capacity : N;
  ms_vectors : list V;
  ms_id_to_slot : gmap string N;
  ms_slot_to_id : list string;
  ms_tombstones : B;
  ms_territories : T
}.

Definition mutable_new (id dimension max_capacity : N) : MutableSegment :=
  mkMutable id dimension max_capacity [] ∅ [] roaring_new territories_new.

Definition mutable_insert (id : string) (v : V) (s : MutableSegment) :
    HNSQRResult N * MutableSegment :=
  if negb (vec_dimension v =? ms_dimension s)%N then
    (Err (DimensionMismatch (ms_dimension s) (vec_dimension v)), s)
  else if (ms_max_capacity s <=? lenN (ms_vectors s))%N then
    (Err (IndexFull (ms_max_capacity s)), s)
  else
    let tombstones :=
      match ms_id_to_slot s !! id with
      | Some old_slot => roaring_insert old_slot (ms_tombstones s)
      | None => ms_tombstones s
      end in
    let slot := (lenN (ms_vectors s) `mod` u32_modulus)%N in
    (Ok slot,
     mkMutable (ms_id s) (ms_dimension s) (ms_max_capacity s) (ms_vectors s ++ [v])
       (<[id := slot]> (ms_id_to_slot s)) (ms_slot_to_id s ++ [id]) tombstones
       (territories_insert (compile (ms_dimension s) v) slot (ms_territories s))).

Definition mutable_delete (id : string) (s : MutableSegment) : bool * MutableSegment :=
  match ms_id_to_slot s !! id with
  | Some slot =>
      (true, mkMutable (ms_id s) (ms_dimension s) (ms_max_capacity s) (ms_vectors s)
               (ms_id_to_slot s) (ms_slot_to_id s) (roaring_insert slot (ms_tombstones s))
               (ms_territories s))
  | None => (false, s)
  end.

Definition mutable_is_full (s : MutableSegment) : bool :=
  (ms_max_capacity s <=? lenN (ms_vectors s))%N.

(** [stats()] of either kind of segment. *)
Definition segment_stats (id : N) (state : SegmentState) (capacity dimension : N) (total : N)
    (tombstones : B) : SegmentStats :=
  let deleted := lenN (roaring_iter tombstones) in
  mkSegmentStats id state (total - deleted) deleted capacity
    (u64_wrap (total * (dimension * 8 + 64))).

Definition mutable_stats (s : MutableSegment) : SegmentStats :=
  segment_stats (ms_id s) ActiveMutable (ms_max_capacity s) (ms_dimension s)
    (lenN (ms_vectors s)) (ms_tombstones s).

Definition mutable_search (q : V) (k : N) (s : MutableSegment) : option (list Candidate) :=
  if (k =? 0)%N then Some [] else
  let total := lenN (ms_vectors s) in
  if (total =? 0)%N then Some [] else
  let candidate_slots :=
    filter (λ slot, (slot < total)%N ∧ roaring_contains slot (ms_tombstones s) = false)
      (strict_candidates (compile (ms_dimension s) q) (ms_territories s)) in
  if bool_decide (candidate_slots = []) then Some []
  else rank_slots q k (ms_vectors s) (ms_slot_to_id s) candidate_slots.

Definition mutable_search_with_contract (q : V) (k : N) (contract : RetrievalContract)
    (s : MutableSegment) : option (list Candidate) :=
  if (k =? 0)%N then Some [] else
  if (lenN (ms_vectors s) =? 0)%N then Some [] else
  match contract with
  | Exact | Certified =>
      rank_slots q k (ms_vectors s) (ms_slot_to_id s)
        (live_slots (length (ms_vectors s)) (ms_tombstones s))
  | _ => mutable_search q k s
  end.

(** ** [ImmutableSegment] *)

Record ImmutableSegment := mkImmutable {
  is_id : SegmentId;
  is_dimension : N;
  is_vectors : list V;
  is_id_to_slot : gmap string N;
  is_slot_to_id : list string;
  is_tombstones : B;
  is_territories : T;
  proof_tree : P
}.

(** The indexing loop over the live slots of [freeze]; [vectors[slot]]. *)
Definition index_slots (dimension : N) (vectors : list V) (slots : list N) : option T :=
  foldl (λ ot slot, t ← ot; v ← nth_u64 vectors slot;
                    Some (territories_insert (compile dimension v) slot t))
    (Some territories_new) slots.

Definition freeze (s : MutableSegment) : option ImmutableSegment :=
  let slots := live_slots (length (ms_vectors s)) (ms_tombstones s) in
  t ← index_slots (ms_dimension s) (ms_vectors s) slots;
  Some (mkImmutable (ms_id s) (ms_dimension s) (ms_vectors s) (ms_id_to_slot s) (ms_slot_to_id s)
          (ms_tombstones s) t (proof_tree_build (ms_vectors s) slots (ms_dimension s))).

Definition immutable_delete (id : string) (s : ImmutableSegment) : bool * ImmutableSegment :=
  match is_id_to_slot s !! id with
  | Some slot =>
      (true, mkImmutable (is_id s) (is_dimension s) (is_vectors s) (is_id_to_slot s)
               (is_slot_to_id s) (roaring_insert slot (is_tombstones s)) (is_territories s)
               (proof_tree s))
  | None => (false, s)
  end.

Definition immutable_stats (s : ImmutableSegment) : SegmentStats :=
  segment_stats (is_id s) FlushedImmutable (lenN (is_vectors s)) (is_dimension s)
    (lenN (is_vectors s)) (is_tombstones s).

Definition immutable_candidates (q : V) (s : ImmutableSegment) : list N :=
  filter (λ slot, roaring_contains slot (is_tombstones s) = false)
    (strict_candidates (compile (is_dimension s) q) (is_territories s)).

Definition immutable_search (q : V) (k : N) (s : ImmutableSegment) : option (list Candidate) :=
  if (k =? 0)%N || bool_decide (is_vectors s = []) then Some [] else
  let candidate_slots := immutable_candidates q s in
  if bool_decide (candidate_slots = []) then Some []
  else rank_slots q k (is_vectors s) (is_slot_to_id s) candidate_slots.

Definition immutable_search_with_contract (q : V) (k : N) (contract : RetrievalContract)
    (s : ImmutableSegment) : option (list Candidate) :=
  if (k =? 0)%N || bool_decide (is_vectors s = []) then Some [] else
  match contract with
  | Exact =>
      rank_slots q k (is_vectors s) (is_slot_to_id s)
        (live_slots (length (is_vectors s)) (is_tombstones s))
  | Certified =>
      let q_norm := into_normalized q in
      let seeds := immutable_candidates q_norm s in
      name_slots (is_slot_to_id s)
        (proof_search q_norm k (proof_tree s) (is_vectors s) (is_tombstones s) seeds)
  | _ => immutable_search q k s
  end.

(** ** [SegmentedEngine] *)

Record SegmentedEngine := mkEngine {
  dimension : N;
  max_mutable_capacity : N;
  next_segment_id : N;
  generation : N;
  active_mutable : MutableSegment;
  segment_heap : gmap SegmentId ImmutableSegment;
  immutable_segments : list SegmentId;
  metadata_store : gmap string (gmap string MV);
  io_budget : IoBudgetManager;
  wal : option WalManager;
  wal_durability : DurabilityPolicy
}.
#[global] Instance eta_SegmentedEngine : Eta SegmentedEngine := λ e,
  mkEngine (dimension e) (max_mutable_capacity e) (next_segment_id e) (generation e)
    (active_mutable e) (segment_heap e) (immutable_segments e) (metadata_store e) (io_budget e)
    (wal e) (wal_durability e).

Definition engine_new (dimension max_mutable_capacity : N) : SegmentedEngine :=
  mkEngine dimension max_mutable_capacity 2 1 (mutable_new 1 dimension max_mutable_capacity) ∅ [] ∅
    io_budget_default None PWalSync.

Definition active_generation (e : SegmentedEngine) : N := generation e.

Definition set_wal (w : WalManager) (durability : DurabilityPolicy) (e : SegmentedEngine) :
    SegmentedEngine := e <| wal := Some w |> <| wal_durability := durability |>.

(** The segments the engine currently lists. *)
Definition listed (e : SegmentedEngine) : list ImmutableSegment :=
  omap (λ i, segment_heap e !! i) (immutable_segments e).

(** [delete_internal]: the tombstone is set in every segment that knows the id. *)
Definition delete_listed (id : string) (st : bool * gmap SegmentId ImmutableSegment)
    (i : SegmentId) : bool * gmap SegmentId ImmutableSegment :=
  match st.2 !! i with
  | Some seg => let '(f, seg) := immutable_delete id seg in (st.1 || f, <[i := seg]> st.2)
  | None => st
  end.

Definition delete_internal (id : string) (e : SegmentedEngine) : bool * SegmentedEngine :=
  let '(f, active) := mutable_delete id (active_mutable e) in
  let '(f, heap) := foldl (delete_listed id) (f, segment_heap e) (immutable_segments e) in
  (f, e <| active_mutable := active |> <| segment_heap := heap |>).

Definition rotate_active (e : SegmentedEngine) : option (HNSQRResult unit * SegmentedEngine) :=
  frozen ← freeze (active_mutable e);
  Some (Ok tt,
    e <| segment_heap ::= <[is_id frozen := frozen]> |>
      <| immutable_segments ::= λ l, l ++ [is_id frozen] |>
      <| next_segment_id ::= λ n, u64_add n 1 |>
      <| active_mutable := mutable_new (next_segment_id e) (dimension e) (max_mutable_capacity e) |>).

(** The in-memory part of [insert] and all of [apply_upsert_unlogged]. *)
Definition apply_upsert_unlogged (id : string) (v : V) (e : SegmentedEngine) :
    option (HNSQRResult unit * SegmentedEngine) :=
  let e := (delete_internal id e).2 in
  let '(r, active) := mutable_insert id v (active_mutable e) in
  let e := e <| active_mutable := active |> in
  match r with
  | Ok _ => Some (Ok tt, e)
  | Err (IndexFull _) =>
      '(r, e) ← rotate_active e;
      match r with
      | Err er => Some (Err er, e)
      | Ok _ =>
          let '(r, active) := mutable_insert id v (active_mutable e) in
          Some (let? _ := r in Ok tt, e <| active_mutable := active |>)
      end
  | Err er => Some (Err er, e)
  end.

Definition engine_apply_delete_unlogged (id : string) (e : SegmentedEngine) : bool * SegmentedEngine :=
  delete_internal id (e <| metadata_store ::= delete id |>).

Definition engine_apply_committed_upsert (id : string) (v : V) (metadata : option (gmap string MV))
    (e : SegmentedEngine) : option (HNSQRResult unit * SegmentedEngine) :=
  '(r, e) ← apply_upsert_unlogged id v e;
  match r, metadata with
  | Err er, _ => Some (Err er, e)
  | Ok _, Some meta => Some (Ok tt, e <| metadata_store ::= <[id := meta]> |>)
  | Ok _, None => Some (Ok tt, e)
  end.

Definition engine_apply_committed_metadata_patch (id : string) (patch : gmap string MV)
    (e : SegmentedEngine) : HNSQRResult unit * SegmentedEngine :=
  (Ok tt, e <| metadata_store ::= λ s, <[id := patch ∪ default ∅ (s !! id)]> s |>).

Definition get_metadata (id : string) (e : SegmentedEngine) : option (gmap string MV) :=
  metadata_store e !! id.

Definition apply_wal_mutation (m : WalMutation V (gmap string MV)) (e : SegmentedEngine) :
    option (HNSQRResult unit * SegmentedEngine) :=
  match m with
  | WUpsert id v metadata => engine_apply_committed_upsert id v metadata e
  | WDelete id => Some (Ok tt, (engine_apply_delete_unlogged id e).2)
  | _ => Some (Ok tt, e)
  end.

(** *** Logged operations *)

Section logged.
Context `{!Crc32} `{!Bincode (WalMutation V (gmap string MV))}.

Definition engine_insert (dur_us : N) (id : string) (v : V) (e : SegmentedEngine) :
    option (HNSQRResult unit * SegmentedEngine) :=
  '(r, e) ← (match wal e with
             | None => Some (Ok tt, e)
             | Some w =>
                 '(r, w) ← append dur_us (WUpsert id v None) (wal_durability e) w;
                 Some (let? _ := r in Ok tt, e <| wal := Some w |>)
             end : option (HNSQRResult unit * SegmentedEngine));
  match r with
  | Err er => Some (Err er, e)
  | Ok _ => apply_upsert_unlogged id v e
  end.

(** The result of the append is ignored. *)
Definition engine_delete (dur_us : N) (id : string) (e : SegmentedEngine) :
    option (bool * SegmentedEngine) :=
  e ← (match wal e with
       | None => Some e
       | Some w =>
           '(_, w) ← append dur_us (WDelete id) (wal_durability e) w;
           Some (e <| wal := Some w |>)
       end);
  Some (delete_internal id e).

(** The callback of [recover_from_wal]; a panic of the engine is an error of the
    model only ([SegmentRecovery.recovery_restores] shows there is none). *)
Definition recovery_fn (_ : N) (m : WalMutation V (gmap string MV))
    (st : N * option SegmentedEngine) : HNSQRResult unit * (N * option SegmentedEngine) :=
  match st.2 with
  | None => (Err (Internal "panic"), st)
  | Some e =>
      match apply_wal_mutation m e with
      | None => (Err (Internal "panic"), (st.1, None))
      | Some (Err er, e) => (Err er, (st.1, Some e))
      | Some (Ok _, e) => (Ok tt, (u64_add st.1 1, Some e))
      end
  end.

Definition recover_from_wal (e : SegmentedEngine) : option (HNSQRResult N * SegmentedEngine) :=
  match wal e with
  | None => Some (Ok 0%N, e)
  | Some w =>
      let '(r, w, st) := replay recovery_fn 0 (0%N, Some e) w in
      e ← st.2;
      Some (let? _ := r in Ok st.1, e <| wal := Some w |>)
  end.
End logged.

(** *** Search *)

(** [extend] over the segments, in order. *)
Definition gather {S} (f : S → option (list Candidate)) (segs : list S) : option (list Candidate) :=
  @concat _ <$> mapM f segs.

Definition engine_search (q : V) (k : N) (e : SegmentedEngine) : option (list Candidate) :=
  if (k =? 0)%N then Some [] else
  active ← mutable_search q k (active_mutable e);
  rest ← gather (immutable_search q k) (listed e);
  Some (merge_topk k (active ++ rest)).

Definition engine_search_with_contract (q : V) (k : N) (contract : RetrievalContract)
    (e : SegmentedEngine) : option (list Candidate) :=
  if (k =? 0)%N then Some [] else
  active ← mutable_search_with_contract q k contract (active_mutable e);
  rest ← gather (immutable_search_with_contract q k contract) (listed e);
  Some (merge_topk k (active ++ rest)).

Definition engine_stats (e : SegmentedEngine) : list SegmentStats :=
  mutable_stats (active_mutable e) :: (immutable_stats <$> listed e).

(** *** Snapshots *)

Record ImmutableVectorSnapshot := mkVectorSnapshot {
  vs_dimension : N;
  vs_segments : list SegmentId;
  vs_active : ImmutableSegment
}.

Definition engine_snapshot (e : SegmentedEngine) : option ImmutableVectorSnapshot :=
  frozen ← freeze (active_mutable e);
  Some (mkVectorSnapshot (dimension e) (immutable_segments e) frozen).

(** A snapshot reads the shared segments of the heap as they are now. *)
Definition snapshot_search_with_contract (heap : gmap SegmentId ImmutableSegment) (q : V) (k : N)
    (contract : RetrievalContract) (s : ImmutableVectorSnapshot) : option (list Candidate) :=
  if (k =? 0)%N then Some [] else
  rest ← gather (immutable_search_with_contract q k contract) (omap (λ i, heap !! i) (vs_segments s));
  active ← immutable_search_with_contract q k contract (vs_active s);
  Some (merge_topk k (rest ++ active)).

(** *** Compaction *)

(** The slots of a segment with their ids and vectors; [slot_to_id[slot]]. *)
Definition segment_rows (s : ImmutableSegment) : option (list (N * string * V)) :=
  mapM (λ '(slot, v), id ← is_slot_to_id s !! slot; Some (N.of_nat slot, id, v))
    (imap pair (is_vectors s)).

(** [tombstones.contains(slot as u32)] *)
Definition dead (s : ImmutableSegment) (slot : N) : bool :=
  roaring_contains (slot `mod` u32_modulus) (is_tombstones s).

(** Phase 1: ids seen, live count, purged count. *)
Definition count_row (s : ImmutableSegment) (st : gset string * N * N) (row : N * string * V) :=
  let '(seen, live, purged) := st in
  let '(slot, id, _) := row in
  if dead s slot then (seen, live, purged + 1)%N
  else if bool_decide (id ∈ seen) then (seen, live, purged + 1)%N
  else ({[id]} ∪ seen, live + 1, purged)%N.

(** Phase 2: what the merged segment is built from. *)
Record Merged := mkMerged {
  mg_vectors : list V;
  mg_id_to_slot : gmap string N;
  mg_slot_to_id : list string;
  mg_territories : T;
  mg_inserted : gset string;
  mg_budget : IoBudgetManager
}.

Definition merge_row (dim : N) (elapsed : N → f64) (s : ImmutableSegment) (m : Merged)
    (row : N * string * V) : Merged :=
  let '(slot, id, v) := row in
  if dead s slot then m
  else if bool_decide (id ∈ mg_inserted m) then m
  else
    let new_slot := (lenN (mg_vectors m) `mod` u32_modulus)%N in
    mkMerged (mg_vectors m ++ [v]) (<[id := new_slot]> (mg_id_to_slot m)) (mg_slot_to_id m ++ [id])
      (territories_insert (compile dim v) new_slot (mg_territories m)) ({[id]} ∪ mg_inserted m)
      (acquire_maintenance_budget (elapsed new_slot) (u64_wrap (dim * 8)) (mg_budget m)).2.

(** The rows of the segments, newest segment first. *)
Definition compaction_rows (segs : list ImmutableSegment) :
    option (list (ImmutableSegment * list (N * string * V))) :=
  mapM (λ s, rows ← segment_rows s; Some (s, rows)) (rev segs).

Definition compact (elapsed : N → f64) (e : SegmentedEngine) :
    option (HNSQRResult N * SegmentedEngine) :=
  let immutables := listed e in
  if (length immutables <? 2)%nat then Some (Ok 0%N, e) else
  rows ← compaction_rows immutables;
  let '(_, _, total_purged) :=
    foldl (λ st '(s, rs), foldl (count_row s) st rs) (∅, 0%N, 0%N) rows in
  let m := foldl (λ m '(s, rs), foldl (merge_row (dimension e) elapsed s) m rs)
             (mkMerged [] ∅ [] territories_new ∅ (io_budget e)) rows in
  let slots := slots_upto (length (mg_vectors m)) in
  let new_compact_id := next_segment_id e in
  let seg := mkImmutable new_compact_id (dimension e) (mg_vectors m) (mg_id_to_slot m)
               (mg_slot_to_id m) roaring_new (mg_territories m)
               (proof_tree_build (mg_vectors m) slots (dimension e)) in
  Some (Ok total_purged,
    e <| next_segment_id ::= λ n, u64_add n 1 |>
      <| io_budget := mg_budget m |>
      <| segment_heap ::= <[new_compact_id := seg]> |>
      <| immutable_segments := [new_compact_id] |>).
End segment.
Arguments MutableSegment : clear implicits.
Arguments ImmutableSegment : clear implicits.
Arguments SegmentedEngine : clear implicits.
Arguments ImmutableVectorSnapshot : clear implicits.
Arguments Merged : clear implicits.
