(* ===== verification/SegmentCompaction.v ===== *)
(** Compaction of the segmented engine keeps what it holds. *)

From stdpp Require Import base gmap sets strings numbers list sorting fin_maps.
From S2P Require Import Prelude.
From S2P Require Import Floats.
From S2P Require Import Wal.
From S2P Require Import Order.
From S2P Require Import TopK.
From S2P Require Import Hypercube.
From S2P Require Import StoragePolicies.
From S2P Require Import Segment.
From S2P Require Import SegmentFacts.

Section compaction.
Context {V A T P B MV : Type} `{kern : !VectorKernels V A T P B} `{ro : !Roaring B}
  `{laws : !RoaringLaws B} `{sort : !SortUnstable}.
Abbreviation Engine := (SegmentedEngine V T P B MV).
Abbreviation Row := (N * string * V)%type.

(** ** The rows of a segment *)

Definition row_of (r : Row) : string * V := (r.1.2, r.2).

Lemma rows_from (s : ImmutableSegment V T P B) i vs :
  core_ok (immutable_core s) → drop i (is_vectors s) = vs →
  ∃ rows, mapM (λ '(slot, v), id ← is_slot_to_id s !! slot; Some (N.of_nat slot, id, v))
      (imap (λ j v, ((i + j)%nat, v)) vs) = Some rows ∧
    length rows = length vs ∧
    row_of <$> filter (λ r, dead s r.1.1 = false) rows =
      omap (row_at (immutable_core s))
        (filter (λ slot, roaring_contains slot (is_tombstones s) = false) (N.of_nat <$> seq i (length vs))).
Proof.
  intros [Hlen Hb _ _ _]. revert i. induction vs as [|v vs IH]; intros i Hd.
  { exists []. done. }
  assert (is_vectors s !! i = Some v) as Hv by (rewrite <- (Nat.add_0_r i), <- lookup_drop, Hd; done).
  assert (drop (S i) (is_vectors s) = vs) as Hd' by (rewrite (drop_S _ v) in Hd by done; congruence).
  destruct (IH (S i) Hd') as (rows & Hrows & Hl & Hlive).
  destruct (lookup_lt_is_Some_2 (is_slot_to_id s) i) as [id Hid].
  { cbn in Hlen. rewrite Hlen. by eapply lookup_lt_Some. }
  exists ((N.of_nat i, id, v) :: rows). split_and!.
  - rewrite imap_cons. cbn [mapM]. rewrite Nat.add_0_r, Hid. cbn.
    rewrite (imap_ext _ (λ j v, (S i + j, v)%nat) vs) by (intros; cbn; do 2 f_equal; lia).
    by rewrite Hrows.
  - cbn. by rewrite Hl.
  - assert (N.of_nat i < u32_modulus)%N as Hi by (apply lookup_lt_Some in Hv; unfold lenN in Hb; cbn in Hb; lia).
    cbn [length seq fmap list_fmap]. rewrite !filter_cons. cbn [fst snd].
    assert (dead s (N.of_nat i) = roaring_contains (N.of_nat i) (is_tombstones s)) as ->
      by (unfold dead; by rewrite N.mod_small).
    case_decide as Hdead; cbn; [|exact Hlive].
    assert (row_at (immutable_core s) (N.of_nat i) = Some (id, v)) as ->; [|by rewrite <- Hlive].
    unfold row_at, nth_u64. cbn. by rewrite !Nat2N.id, Hid, Hv.
Qed.

Lemma segment_rows_live (s : ImmutableSegment V T P B) :
  core_ok (immutable_core s) →
  ∃ rows, segment_rows s = Some rows ∧ length rows = length (is_vectors s) ∧
    row_of <$> filter (λ r, dead s r.1.1 = false) rows = live_list (immutable_core s).
Proof.
  intros Hok. destruct (rows_from s 0 (is_vectors s) Hok (drop_0 _)) as (rows & Hrows & Hl & Hlive).
  exists rows. split_and!; [|done|].
  - unfold segment_rows. by rewrite (imap_ext _ (λ j v, (0 + j, v)%nat)).
  - rewrite Hlive. unfold live_list, live_slots. by rewrite slots_upto_small by apply (core_bound _ Hok).
Qed.

Lemma compaction_rows_live (segs : list (ImmutableSegment V T P B)) :
  Forall (λ s, core_ok (immutable_core s)) segs →
  ∃ rows, compaction_rows segs = Some rows ∧
    Forall (λ p : ImmutableSegment V T P B * list Row,
      row_of <$> filter (λ r, dead p.1 r.1.1 = false) p.2 = live_list (immutable_core p.1)) rows ∧
    rows.*1 = rev segs.
Proof.
  unfold compaction_rows. intros Hok. apply Forall_rev in Hok. revert Hok. generalize (rev segs). clear segs.
  intros segs. induction 1 as [|s segs Hs Hsegs IH]; [by exists []|].
  destruct IH as (rows & Hrows & Hall & Hfst).
  destruct (segment_rows_live s Hs) as (rs & Hrs & _ & Hlive).
  exists ((s, rs) :: rows). cbn [mapM]. rewrite Hrs. cbn. rewrite Hrows. cbn.
  split_and!; [done|by apply List.Forall_cons|by rewrite Hfst].
Qed.

(** ** The merge *)

Context (dim : N) (elapsed : N → f64).

(** The merge of one live row. *)
Definition merge_live (m : Merged V T) (r : string * V) : Merged V T :=
  if bool_decide (r.1 ∈ mg_inserted m) then m
  else
    let new_slot := (lenN (mg_vectors m) `mod` u32_modulus)%N in
    mkMerged (mg_vectors m ++ [r.2]) (<[r.1 := new_slot]> (mg_id_to_slot m)) (mg_slot_to_id m ++ [r.1])
      (territories_insert (compile dim r.2) new_slot (mg_territories m)) ({[r.1]} ∪ mg_inserted m)
      (acquire_maintenance_budget (elapsed new_slot) (u64_wrap (dim * 8)) (mg_budget m)).2.

Lemma merge_rows_live s rows m :
  foldl (merge_row dim elapsed s) m rows =
  foldl merge_live m (row_of <$> filter (λ r, dead s r.1.1 = false) rows).
Proof.
  revert m. induction rows as [|[[slot id] v] rows IH]; intros m; [done|]. cbn [foldl].
  rewrite filter_cons, IH. cbn [merge_row fst snd]. case_decide as Hd.
  - rewrite Hd. done.
  - apply not_false_is_true in Hd. by rewrite Hd.
Qed.

Lemma merge_all_live (rows : list (ImmutableSegment V T P B * list Row)) m :
  Forall (λ p : ImmutableSegment V T P B * list Row,
    row_of <$> filter (λ r, dead p.1 r.1.1 = false) p.2 = live_list (immutable_core p.1)) rows →
  foldl (λ m '(s, rs), foldl (merge_row dim elapsed s) m rs) m rows =
  foldl merge_live m (concat (live_list ∘ immutable_core <$> rows.*1)).
Proof.
  intros Hall. revert m. induction Hall as [|[s rs] rows Hs _ IH]; intros m; [done|]. cbn in *.
  by rewrite foldl_app, IH, merge_rows_live, Hs.
Qed.

Definition merged_core (m : Merged V T) : Core V B :=
  mkCore (mg_vectors m) (mg_id_to_slot m) (mg_slot_to_id m) roaring_new.

(** The merged segment holds the rows in order, all of them live. *)
Lemma merge_live_spec l t b :
  NoDup l.*1 → (lenN l < u32_modulus)%N →
  let m := foldl merge_live (mkMerged [] ∅ [] t ∅ b) l in
  core_ok (merged_core m) ∧ mg_vectors m = l.*2 ∧ mg_slot_to_id m = l.*1 ∧
  (∀ id, id ∈ mg_inserted m ↔ id ∈ l.*1).
Proof.
  induction l as [|[id v] l IH] using rev_ind; intros Hnd Hlen.
  { cbn. split_and!; try done; [|set_solver]. split; cbn.
    - done.
    - done.
    - intros ? ?. by rewrite lookup_empty.
    - unfold nth_u64. by intros ? ? ?.
    - intros slot Hs. destruct Hs. apply contains_new. }
  rewrite fmap_app in Hnd. apply NoDup_app in Hnd as (Hnd & Hni & _). rewrite lenN_snoc in Hlen.
  destruct (IH Hnd ltac:(lia)) as (Hok & Hv & Hs & Hin). rewrite foldl_snoc.
  set (m := foldl merge_live _ l) in *. clearbody m. cbv zeta. unfold merge_live. cbn [fst snd].
  assert (id ∉ l.*1) as Hnew by (intros Hx; apply (Hni _ Hx); by left).
  rewrite bool_decide_false by by rewrite Hin. cbn.
  assert (lenN (mg_vectors m) = lenN l) as Hlv by (rewrite Hv; unfold lenN; by rewrite length_fmap).
  rewrite Hlv, N.mod_small by lia. split_and!.
  - destruct Hok as [Hl Hb Hi Hc Ht]. cbn in *. split; cbn.
    + rewrite !length_app. cbn. lia.
    + rewrite lenN_snoc. lia.
    + intros id' slot. rewrite lookup_insert. case_decide as Hd.
      * intros [= <-]. subst id'. rewrite <- Hlv. replace (lenN (mg_vectors m)) with (lenN (mg_slot_to_id m))
          by (unfold lenN; lia). apply nth_u64_snoc_here.
      * intros H0. apply Hi in H0. rewrite nth_u64_app_l; [done|]. by eapply nth_u64_lt.
    + intros id' slot Hn _. rewrite lookup_insert. apply nth_u64_snoc_inv in Hn as [Hn|[-> ->]].
      * case_decide as Hd; [|apply Hc; [done|apply contains_new]]. subst id'. destruct Hnew.
        rewrite <- Hs. by eapply list_elem_of_lookup_2.
      * rewrite decide_True by done. f_equal. unfold lenN in *. lia.
    + intros slot Hs'. destruct Hs'. apply contains_new.
  - by rewrite Hv, fmap_app.
  - by rewrite Hs, fmap_app.
  - intros id'. rewrite fmap_app, elem_of_app, elem_of_union, elem_of_singleton, Hin. cbn.
    rewrite list_elem_of_singleton. tauto.
Qed.

Lemma merged_live_list m l :
  core_ok (merged_core m) → mg_vectors m = l.*2 → mg_slot_to_id m = l.*1 → NoDup l.*1 →
  live_list (merged_core m) ≡ₚ l.
Proof.
  intros Hok Hv Hs Hnd. apply NoDup_Permutation.
  - eapply NoDup_fmap_1. by apply live_list_NoDup.
  - by eapply NoDup_fmap_1.
  - intros [id v]. rewrite elem_of_live_list by done. split.
    + intros (slot & Hi & _ & Hn). apply (core_index _ Hok) in Hi. unfold nth_u64 in *. cbn in *.
      rewrite Hs, list_lookup_fmap in Hi. rewrite Hv, list_lookup_fmap in Hn.
      destruct (l !! N.to_nat slot) as [[id' v']|] eqn:Hl; simplify_eq/=. by eapply list_elem_of_lookup_2.
    + intros [i Hi]%list_elem_of_lookup. exists (N.of_nat i).
      assert (is_live (merged_core m) (N.of_nat i)) as Hlive by apply contains_new. split_and!; [|done|].
      * apply (core_current _ Hok); [|done]. unfold nth_u64. cbn. by rewrite Nat2N.id, Hs, list_lookup_fmap, Hi.
      * unfold nth_u64. cbn. by rewrite Nat2N.id, Hv, list_lookup_fmap, Hi.
Qed.
End compaction.

Section compact.
Context {V A T P B MV : Type} `{kern : !VectorKernels V A T P B} `{ro : !Roaring B}
  `{laws : !RoaringLaws B} `{sort : !SortUnstable}.
Abbreviation Engine := (SegmentedEngine V T P B MV).

Lemma engine_ok_size (e : Engine) m : engine_ok e m → size m = length (all_live e).
Proof.
  intros Hok. rewrite <- length_map_to_list. apply Permutation_length, NoDup_Permutation.
  - apply NoDup_map_to_list.
  - eapply NoDup_fmap_1. apply (eo_unique _ _ Hok).
  - intros [id v]. by rewrite elem_of_map_to_list, (eo_rep _ _ Hok).
Qed.

(** Compaction succeeds and keeps every live vector, in one immutable segment. *)
Lemma compact_ok elapsed (e : Engine) m :
  engine_ok e m → (next_segment_id e + 1 < u64_modulus)%N → (N.of_nat (size m) < u32_modulus)%N →
  ∃ n e', compact elapsed e = Some (Ok n, e') ∧ engine_ok e' m ∧ same_setup e e' ∧
    (next_segment_id e' ≤ next_segment_id e + 1)%N ∧ (length (immutable_segments e') < 2)%nat.
Proof.
  intros Hok Hn Hsz. pose proof Hok as [Hc Hd Hcap Hb (Hnd & Hin & Hlt & Hact) Hrep Hun].
  assert (length (listed e) = length (immutable_segments e)) as Hll.
  { unfold listed. clear -Hin. induction (immutable_segments e) as [|i l IH]; [done|]. cbn.
    destruct (Hin i) as [x Hx]; [by left|]. rewrite Hx. cbn. f_equal. apply IH. intros; apply Hin. by right. }
  unfold compact. destruct (Nat.ltb_spec (length (listed e)) 2) as [Hlt2|Hge].
  { exists 0%N, e. split_and!; try done; lia. }
  apply Forall_cons in Hc as [Hc0 Hc]. rewrite Forall_fmap in Hc.
  destruct (compaction_rows_live (listed e) Hc) as (rows & -> & Hrows & Hfst). cbn [mbind option_bind].
  destruct (foldl _ (∅, 0%N, 0%N) rows) as [[? ?] purged].
  rewrite (merge_all_live (dimension e) elapsed rows _ Hrows), Hfst.
  set (l := concat (live_list ∘ immutable_core <$> rev (listed e))).
  assert (l ≡ₚ concat (live_list <$> (immutable_core <$> listed e))) as Hl.
  { unfold l. rewrite <- list_fmap_compose, <- !flat_map_concat_map. by rewrite <- Permutation_rev. }
  assert (NoDup l.*1) as Hlnd.
  { rewrite Hl. unfold all_live, cores in Hun. cbn in Hun. rewrite fmap_app in Hun.
    by apply NoDup_app in Hun as (_ & _ & ?). }
  assert (lenN l < u32_modulus)%N as Hlen.
  { rewrite (engine_ok_size e m Hok) in Hsz. unfold lenN. rewrite Hl. revert Hsz.
    unfold all_live, cores. cbn. rewrite length_app. lia. }
  destruct (merge_live_spec (dimension e) elapsed l territories_new (io_budget e) Hlnd Hlen)
    as (Hok' & Hv & Hs & _).
  set (mg := foldl (merge_live _ _) _ l) in *. clearbody mg.
  eexists purged, _; split; [done|].
  match goal with |- engine_ok ?e1 _ ∧ _ => set (e' := e1) end.
  assert (∃ seg, segment_heap e' = <[next_segment_id e := seg]> (segment_heap e) ∧
    immutable_core seg = merged_core mg) as (seg & Eheap & Eseg) by by eexists.
  assert (immutable_segments e' = [next_segment_id e]) as Eids by done.
  assert (next_segment_id e' = (next_segment_id e + 1)%N) as Enext.
  { unfold e', update. cbn. unfold u64_add, u64_wrap. by rewrite N.mod_small. }
  assert (cores e' = [mutable_core (active_mutable e); merged_core mg]) as Ecores.
  { unfold cores, listed. rewrite Eids, Eheap. cbn. rewrite lookup_insert_eq. cbn. by rewrite Eseg. }
  assert (all_live e' ≡ₚ all_live e) as Hperm.
  { unfold all_live at 1. rewrite Ecores. cbn. rewrite app_nil_r, (merged_live_list mg l), Hl by done. done. }
  split_and!; [|done| |by rewrite Eids; cbn; lia].
  2: { rewrite Enext. lia. }
  split; try done.
  - rewrite Ecores. repeat (apply List.Forall_cons; [done|]). constructor.
  - split_and!; rewrite ?Eids, ?Eheap, ?Enext.
    + apply NoDup_singleton.
    + intros i ->%list_elem_of_singleton. by rewrite lookup_insert_eq.
    + intros i Hi. destruct (decide (i = next_segment_id e)) as [->|Hne].
      * split; [lia|]. change (active_mutable e') with (active_mutable e). lia.
      * rewrite lookup_insert_ne in Hi by done. destruct (Hlt i Hi). split; [lia|done].
    + change (active_mutable e') with (active_mutable e). lia.
  - intros id v. by rewrite Hperm.
  - by rewrite Hperm.
Qed.
End compact.
