(* ===== verification/SegmentSearch.v ===== *)
(** What clients of the segmented engine see: any sequence of committed upserts,
    deletions, metadata patches, rotations and compactions behaves as operations
    on one map, and an exact search returns the best vectors of that map. *)

From stdpp Require Import base gmap sets strings numbers list sorting fin_maps.
From S2P Require Import Prelude.
From S2P Require Import Floats.
From S2P Require Import Wal.
From S2P Require Import Order.
From S2P Require Import TopK.
From S2P Require Import Hypercube.
From S2P Require Import StoragePolicies.
From S2P Require Import Segment.
From S2P Require Import SegmentFacts.
From S2P Require Import SegmentCompaction.

Section search.
Context {V A T P B MV : Type} `{kern : !VectorKernels V A T P B} `{ro : !Roaring B}
  `{laws : !RoaringLaws B} `{sort : !SortUnstable}.
Abbreviation Engine := (SegmentedEngine V T P B MV).

(** ** One segment *)

Definition scored (q : V) (r : string * V) : Candidate := (r.1, dot_re q r.2).

Definition slot_name (ids : list string) (x : N * N) : Candidate :=
  (default EmptyString (nth_u64 ids x.1), x.2).

Lemma name_slots_Some ids l :
  Forall (λ x : N * N, is_Some (nth_u64 ids x.1)) l → name_slots ids l = Some (slot_name ids <$> l).
Proof.
  unfold name_slots. induction 1 as [|[slot s] l [id Hid] _ IH]; [done|]. cbn [mapM].
  cbn in Hid. rewrite Hid. cbn. rewrite IH. cbn. unfold slot_name at 2. cbn. by rewrite Hid.
Qed.

Lemma score_slots_rows q c slots :
  core_ok c → Forall (λ i, (i < lenN (c_vectors c))%N) slots →
  ∃ l, score_slots q (c_vectors c) slots = Some l ∧
    Forall (λ x : N * N, is_Some (nth_u64 (c_ids c) x.1)) l ∧
    slot_name (c_ids c) <$> l = scored q <$> omap (row_at c) slots.
Proof.
  intros Hok. unfold score_slots. induction 1 as [|i slots Hi _ (l & Hl & Hn & Heq)]; [by exists []|].
  destruct (nth_u64_is_Some _ _ Hi) as [v Hv].
  destruct (nth_u64_is_Some (c_ids c) i) as [id Hid]; [unfold lenN in *; by rewrite (core_len _ Hok)|].
  exists ((i, dot_re q v) :: l). cbn [mapM]. rewrite Hv. cbn. rewrite Hl. cbn. split_and!; [done| |].
  - apply List.Forall_cons; [by eexists|done].
  - unfold row_at at 1. rewrite Hid, Hv. cbn. rewrite Heq. unfold slot_name at 1. cbn. by rewrite Hid.
Qed.

(** Ranking the live slots of a segment selects a best [k] of its rows. *)
Lemma rank_live_top q k c :
  core_ok c →
  ∃ l, rank_slots q k (c_vectors c) (c_ids c) (live_slots (length (c_vectors c)) (c_tombs c)) = Some l ∧
    local_top k (scored q <$> live_list c) l.
Proof.
  intros Hok. unfold rank_slots.
  destruct (score_slots_rows q c (live_slots (length (c_vectors c)) (c_tombs c)) Hok) as (l & -> & Hn & Heq).
  { apply Forall_forall. intros i Hi. by apply elem_of_live_slots in Hi as [_ ?]. }
  cbn [mbind option_bind]. rewrite name_slots_Some.
  2: { apply Forall_forall. intros x Hx. rewrite Forall_forall in Hn. apply Hn.
       rewrite <- (sort_by_perm slot_cmp l). eapply elem_of_submseteq; [exact Hx|].
       apply sublist_submseteq, sublist_take. }
  eexists; split; [done|].
  assert (scored q <$> live_list c = slot_name (c_ids c) <$> l) as -> by by rewrite Heq.
  apply take_sorted_top; [apply slot_cmp_preorder| |].
  - intros x y. apply then_score_ge.
  - rewrite Heq, <- list_fmap_compose. by apply live_list_NoDup.
Qed.

Lemma empty_top q k c :
  c_vectors c = [] → local_top k (scored q <$> live_list c) [].
Proof.
  intros Hv. assert (live_list c = []) as ->.
  { unfold live_list, live_slots. by rewrite Hv. }
  split_and!; [done|cbn; constructor|unfold lenN; cbn; lia|]. by intros x y _ _ ?%elem_of_nil.
Qed.

Lemma mutable_exact_top q k (s : MutableSegment V T B) :
  core_ok (mutable_core s) → (0 < k)%N →
  ∃ l, mutable_search_with_contract q k Exact s = Some l ∧
    local_top k (scored q <$> live_list (mutable_core s)) l.
Proof.
  intros Hok Hk. unfold mutable_search_with_contract.
  destruct (k =? 0)%N eqn:E; bool_to_N; [lia|]. clear E.
  destruct (lenN (ms_vectors s) =? 0)%N eqn:E; bool_to_N.
  - exists []. split; [done|]. apply empty_top. cbn. destruct (ms_vectors s); [done|]. unfold lenN in E. cbn in E. lia.
  - exact (rank_live_top q k _ Hok).
Qed.

Lemma immutable_exact_top q k (s : ImmutableSegment V T P B) :
  core_ok (immutable_core s) → (0 < k)%N →
  ∃ l, immutable_search_with_contract q k Exact s = Some l ∧
    local_top k (scored q <$> live_list (immutable_core s)) l.
Proof.
  intros Hok Hk. unfold immutable_search_with_contract.
  destruct (k =? 0)%N eqn:E; bool_to_N; [lia|]. clear E. cbn [orb].
  case_bool_decide as Hnil.
  - exists []. split; [done|]. by apply empty_top.
  - exact (rank_live_top q k _ Hok).
Qed.

(** ** The engine *)

Lemma keys_length {X} (l : list string) (m : gmap string X) :
  NoDup l → (∀ k, k ∈ l → is_Some (m !! k)) → (length l ≤ size m)%nat.
Proof.
  intros Hnd Hl. rewrite <- (size_list_to_set (C := gset string) l Hnd), <- size_dom.
  apply subseteq_size. intros k Hk%elem_of_list_to_set. by apply elem_of_dom, Hl.
Qed.

Lemma keys_cover {X} (l : list string) (m : gmap string X) :
  NoDup l → (∀ k x, m !! k = Some x → k ∈ l) → (size m ≤ length l)%nat.
Proof.
  intros Hnd Hl. rewrite <- (size_list_to_set (C := gset string) l Hnd), <- size_dom.
  apply subseteq_size. intros k [x Hx]%elem_of_dom. apply elem_of_list_to_set. eauto.
Qed.

(** [r] is a correct answer to an exact search for the best [k] of [m]. *)
Definition exact_answer (q : V) (k : N) (m : gmap string V) (r : list Candidate) : Prop :=
  NoDup r.*1 ∧ StronglySorted score_ge r ∧ lenN r = N.min k (N.of_nat (size m)) ∧
  (∀ id s, (id, s) ∈ r → ∃ v, m !! id = Some v ∧ s = dot_re q v) ∧
  (∀ id v, m !! id = Some v → id ∈ r.*1 ∨ ∀ x, x ∈ r → score_ge x (id, dot_re q v)).

Lemma gather_tops q k (segs : list (ImmutableSegment V T P B)) :
  Forall (λ s, core_ok (immutable_core s)) segs → (0 < k)%N →
  ∃ parts, gather (immutable_search_with_contract q k Exact) segs = Some (concat parts.*2) ∧
    Forall (λ p, local_top k p.1 p.2) parts ∧
    concat parts.*1 = scored q <$> concat (live_list ∘ immutable_core <$> segs).
Proof.
  intros Hok Hk. unfold gather. induction Hok as [|s segs Hs _ (parts & Hp & Htop & Heq)]; [by exists []|].
  destruct (immutable_exact_top q k s Hs Hk) as (l & Hl & Ht).
  exists ((scored q <$> live_list (immutable_core s), l) :: parts). cbn [mapM]. rewrite Hl. cbn.
  destruct (mapM (immutable_search_with_contract q k Exact) segs) as [ls|]; [|done].
  cbn in Hp |- *. injection Hp as Hp. split_and!; [by rewrite Hp|by apply List.Forall_cons|].
  by rewrite fmap_app, Heq.
Qed.

Lemma exact_search_ok q k (e : Engine) m :
  engine_ok e m → (0 < k)%N →
  ∃ r, engine_search_with_contract q k Exact e = Some r ∧ exact_answer q k m r.
Proof.
  intros Hok Hk. pose proof (eo_cores _ _ Hok) as [Hc0 Hc]%Forall_cons. rewrite Forall_fmap in Hc.
  unfold engine_search_with_contract. destruct (k =? 0)%N eqn:E; bool_to_N; [lia|]. clear E.
  destruct (mutable_exact_top q k _ Hc0 Hk) as (l & -> & Htop). cbn [mbind option_bind].
  destruct (gather_tops q k _ Hc Hk) as (parts & -> & Htops & Heq). cbn [mbind option_bind].
  eexists; split; [done|].
  destruct (merge_local_tops k ((scored q <$> live_list (mutable_core (active_mutable e)), l) :: parts) Hk)
    as (Hnd & Hs & Hle & Hin & Hall); [by apply List.Forall_cons|]. cbn [fmap list_fmap concat fst snd] in *.
  set (r := merge_topk k (l ++ concat parts.*2)) in *. clearbody r.
  assert ((scored q <$> live_list (mutable_core (active_mutable e))) ++ concat parts.*1 =
    scored q <$> all_live e) as Huniv.
  { unfold all_live, cores. cbn. by rewrite Heq, fmap_app, <- list_fmap_compose. }
  rewrite Huniv in *.
  assert (∀ id s, (id, s) ∈ r → ∃ v, m !! id = Some v ∧ s = dot_re q v) as Hsound.
  { intros id s ([id' v] & [= -> ->] & Hv)%Hin%list_elem_of_fmap. exists v. split; [|done].
    by apply (eo_rep _ _ Hok). }
  assert (∀ id v, m !! id = Some v → id ∈ r.*1 ∨ (lenN r = k ∧ ∀ x, x ∈ r → score_ge x (id, dot_re q v))) as Hcomp.
  { intros id v Hm%(eo_rep _ _ Hok). destruct (Hall (id, dot_re q v)) as [(e0 & He & Hid & _)|Hfull].
    - by apply (list_elem_of_fmap_2 (scored q)) in Hm.
    - left. cbn in Hid. rewrite <- Hid. by apply list_elem_of_fmap_2.
    - by right. }
  split_and!; [done..| |done|].
  - assert (length r.*1 ≤ size m)%nat as Hle2.
    { apply keys_length; [done|]. intros id ([id' s] & -> & Hi)%list_elem_of_fmap.
      destruct (Hsound _ _ Hi) as (v & Hv & _). eauto. }
    rewrite length_fmap in Hle2. destruct (decide (lenN r = k)) as [<-|Hne]; [unfold lenN; lia|].
    assert (size m ≤ length r.*1)%nat as Hge2.
    { apply keys_cover; [done|]. intros id v Hv. destruct (Hcomp id v Hv) as [?|[? _]]; done. }
    rewrite length_fmap in Hge2. unfold lenN in *. lia.
  - intros id v Hm. destruct (Hcomp id v Hm) as [?|[_ ?]]; auto.
Qed.

(** ** Sequences of operations *)

Inductive EngineOp :=
  | OpUpsert (id : string) (v : V) (metadata : option (gmap string MV))
  | OpDelete (id : string)
  | OpPatch (id : string) (patch : gmap string MV)
  | OpRotate
  | OpCompact (elapsed : N → f64).

Definition engine_step (op : EngineOp) (e : Engine) : option (HNSQRResult unit * Engine) :=
  match op with
  | OpUpsert id v metadata => engine_apply_committed_upsert id v metadata e
  | OpDelete id => Some (Ok tt, (engine_apply_delete_unlogged id e).2)
  | OpPatch id patch => Some (engine_apply_committed_metadata_patch id patch e)
  | OpRotate => rotate_active e
  | OpCompact elapsed => '(r, e) ← compact elapsed e; Some (let? _ := r in Ok tt, e)
  end.

Fixpoint engine_run (ops : list EngineOp) (e : Engine) : option (HNSQRResult unit * Engine) :=
  match ops with
  | [] => Some (Ok tt, e)
  | op :: ops =>
      '(r, e) ← engine_step op e;
      match r with Ok _ => engine_run ops e | Err er => Some (Err er, e) end
  end.

(** The specification: a map of vectors and a map of metadata. *)
Abbreviation Spec := (gmap string V * gmap string (gmap string MV))%type.

Definition spec_step (op : EngineOp) (s : Spec) : Spec :=
  match op with
  | OpUpsert id v (Some meta) => (<[id := v]> s.1, <[id := meta]> s.2)
  | OpUpsert id v None => (<[id := v]> s.1, s.2)
  | OpDelete id => (delete id s.1, delete id s.2)
  | OpPatch id patch => (s.1, <[id := patch ∪ default ∅ (s.2 !! id)]> s.2)
  | OpRotate | OpCompact _ => s
  end.

Definition spec_run (ops : list EngineOp) (s : Spec) : Spec := foldl (λ s op, spec_step op s) s ops.

Definition right_dimension (dim : N) (op : EngineOp) : Prop :=
  match op with OpUpsert _ v _ => vec_dimension v = dim | _ => True end.

Lemma spec_step_size op s : (size (spec_step op s).1 ≤ S (size s.1))%nat.
Proof.
  destruct op as [id v [meta|]|id|id patch| |]; cbn; try lia.
  - rewrite map_size_insert. destruct (s.1 !! id); cbn; lia.
  - rewrite map_size_insert. destruct (s.1 !! id); cbn; lia.
  - rewrite map_size_delete. destruct (s.1 !! id); cbn; lia.
Qed.

Lemma engine_ok_metadata (e : Engine) f m : engine_ok e m → engine_ok (e <| metadata_store ::= f |>) m.
Proof. by intros []. Qed.

Lemma engine_step_ok op e s :
  engine_ok e s.1 → metadata_store e = s.2 → right_dimension (dimension e) op →
  (next_segment_id e + 1 < u64_modulus)%N → (N.of_nat (size s.1) < u32_modulus)%N →
  ∃ e', engine_step op e = Some (Ok tt, e') ∧ engine_ok e' (spec_step op s).1 ∧
    metadata_store e' = (spec_step op s).2 ∧ dimension e' = dimension e ∧
    (next_segment_id e' ≤ next_segment_id e + 1)%N.
Proof.
  intros Hok Hm Hd Hn Hsz. destruct op as [id v meta|id|id patch| |elapsed]; cbn [engine_step].
  - unfold engine_apply_committed_upsert.
    destruct (apply_upsert_ok id v e _ Hok Hd Hn) as (e1 & -> & Hok1 & (Ed & _ & Em & _) & Hn1).
    cbn [mbind option_bind]. destruct meta as [meta|].
    + eexists; split; [done|]. split_and!; [by apply engine_ok_metadata|unfold update; cbn; congruence|done|done].
    + eexists; split; [done|]. split_and!; [done|cbn; congruence|done|done].
  - unfold engine_apply_delete_unlogged. eexists; split; [done|].
    pose proof (engine_ok_metadata e (delete id) _ Hok) as Hok1.
    destruct (delete_internal_ok id _ _ Hok1) as [Hok2 _].
    destruct (delete_internal_frame id (e <| metadata_store ::= delete id |>)) as (Ed & _ & En & _ & Em & _).
    split_and!; [done| |done|].
    + rewrite Em. unfold update. cbn. by rewrite Hm.
    + rewrite En. unfold update. cbn. lia.
  - eexists; split; [done|]. split_and!; [by apply engine_ok_metadata| |done|unfold update; cbn; lia].
    unfold update. cbn. by rewrite Hm.
  - destruct (rotate_active_spec e _ Hok Hn) as (e1 & -> & Hok1 & (Ed & _ & Em & _) & Hn1 & _).
    eexists; split; [done|]. split_and!; [done|cbn; congruence|done|lia].
  - destruct (compact_ok elapsed e _ Hok Hn Hsz) as (n & e1 & -> & Hok1 & (Ed & _ & Em & _) & Hn1 & _).
    eexists; split; [done|]. split_and!; [done|cbn; congruence|done|lia].
Qed.

Lemma engine_run_ok ops e s :
  engine_ok e s.1 → metadata_store e = s.2 → Forall (right_dimension (dimension e)) ops →
  (next_segment_id e + lenN ops < u32_modulus)%N → (N.of_nat (size s.1) + lenN ops < u32_modulus)%N →
  ∃ e', engine_run ops e = Some (Ok tt, e') ∧ engine_ok e' (spec_run ops s).1 ∧
    metadata_store e' = (spec_run ops s).2.
Proof.
  revert e s. induction ops as [|op ops IH]; intros e s Hok Hm Hd Hn Hsz; cbn [engine_run].
  { by exists e. }
  apply Forall_cons in Hd as [Hd0 Hd].
  assert (lenN (op :: ops) = lenN ops + 1)%N as Hl by (unfold lenN; cbn; lia). rewrite Hl in *.
  assert (u32_modulus < u64_modulus)%N as Hu by done.
  destruct (engine_step_ok op e s) as (e1 & -> & Hok1 & Hm1 & Ed & Hn1); [done..|lia|lia|].
  cbn [mbind option_bind]. pose proof (spec_step_size op s).
  apply (IH e1 (spec_step op s)); [done|done|by rewrite Ed|lia|lia].
Qed.

Lemma engine_new_ok dim cap :
  (0 < cap < u32_modulus)%N → engine_ok (engine_new (V := V) (T := T) (P := P) (B := B) (MV := MV) dim cap) ∅.
Proof.
  intros Hcap. destruct (mutable_new_core (V := V) (T := T) (B := B) 1 dim cap) as [Hok Hnone]. split; try done.
  - by apply List.Forall_cons; [|constructor].
  - split_and!; cbn; try done; [constructor| |]; intros i; [by intros ?%elem_of_nil|].
    rewrite lookup_empty. by intros [? ?].
  - intros id v. rewrite lookup_empty. split; [done|]. unfold all_live. cbn. by intros ?%elem_of_nil.
  - constructor.
Qed.

(** C20: The segmented engine refines a map: any sequence of fewer than 2^32 - 2
    committed upserts of the engine's dimension, deletions, metadata patches,
    rotations and compactions succeeds without a panic; afterwards the metadata
    are those of the specification, and an exact search for the best k answers
    from the specification's vectors: distinct ids with their scores, by
    descending score, as many as there are up to k, none of the others scoring
    higher. *)
Theorem segments_refine_map dim cap ops :
  (0 < cap < u32_modulus)%N → (lenN ops + 2 < u32_modulus)%N → Forall (right_dimension dim) ops →
  ∃ e, engine_run ops (engine_new dim cap) = Some (Ok tt, e) ∧
    metadata_store e = (spec_run ops (∅, ∅)).2 ∧
    ∀ q k, (0 < k)%N → ∃ r, engine_search_with_contract q k Exact e = Some r ∧
      exact_answer q k (spec_run ops (∅, ∅)).1 r.
Proof.
  intros Hcap Hlen Hdim.
  destruct (engine_run_ok ops (engine_new dim cap) (∅, ∅)) as (e & Hrun & Hok & Hm).
  - by apply engine_new_ok.
  - done.
  - done.
  - change (2 + lenN ops < u32_modulus)%N. lia.
  - cbn [fst]. rewrite map_size_empty. lia.
  - exists e. split_and!; [done..|]. intros q k Hk. by apply exact_search_ok.
Qed.
End search.
Arguments EngineOp : clear implicits.
