(* ===== verification/SegmentRecovery.v ===== *)
(** Crash recovery of the segmented engine: replaying the write-ahead log into a
    fresh engine restores what the logged operations had built. *)

From Stdlib Require Import Strings.Byte.
From stdpp Require Import base gmap sets strings numbers list sorting fin_maps.
From S2P Require Import Prelude.
From S2P Require Import Codec.
From S2P Require Import FileSystem.
From S2P Require Import Floats.
From S2P Require Import Wal.
From S2P Require Import WalFacts.
From S2P Require Import WalProperties.
From S2P Require Import Order.
From S2P Require Import TopK.
From S2P Require Import Hypercube.
From S2P Require Import StoragePolicies.
From S2P Require Import Segment.
From S2P Require Import SegmentFacts.
From S2P Require Import SegmentSearch.

Section recovery.
Context {V A T P B MV : Type} `{kern : !VectorKernels V A T P B} `{ro : !Roaring B}
  `{laws : !RoaringLaws B} `{sort : !SortUnstable}.
Context `{!Crc32} `{!Bincode (WalMutation V (gmap string MV))}.
Context `{!Crc32Laws} `{!BincodeLaws (WalMutation V (gmap string MV))}.
Abbreviation Engine := (SegmentedEngine V T P B MV).
Abbreviation WMutation := (WalMutation V (gmap string MV)).

(** ** Reopening the log *)

Lemma elem_of_foldr_max (l : list N) i : i ∈ l → (i ≤ foldr N.max 0 l)%N.
Proof. induction l as [|j l IH]; [by intros ?%elem_of_nil|]. intros [->|Hi]%elem_of_cons; cbn; [lia|]. specialize (IH Hi). lia. Qed.

Lemma foldr_max_elem (l : list N) : l ≠ [] → foldr N.max 0%N l ∈ l.
Proof.
  induction l as [|j l IH]; [done|]. intros _. cbn. destruct (decide (l = [])) as [->|Hne].
  - cbn. rewrite N.max_0_r. by left.
  - destruct (N.max_spec j (foldr N.max 0%N l)) as [[_ ->]|[_ ->]]; [right; auto|by left].
Qed.

(** The greatest segment id on disk is the open segment's. *)
Lemma wal_highest_segment w (segs : list (N * list (N * WMutation))) :
  wal_inv w segs → foldr N.max 0%N (wal_segment_ids (files (wal_disk w))) = open_segment w.
Proof.
  intros Hinv. pose proof (wal_ids_spec w segs Hinv) as Hids.
  destruct (wi_writer _ _ Hinv) as (wr & pre & rs & Hw & Hsegs).
  assert (wal_segment_ids (files (wal_disk w)) ≡ₚ pre.*1 ++ [segment_id wr]) as Hperm.
  { rewrite <- (merge_sort_Permutation N.le), Hids, Hsegs, fmap_app. done. }
  unfold open_segment. rewrite Hw. cbn. apply N.le_antisymm.
  - assert (foldr N.max 0%N (wal_segment_ids (files (wal_disk w))) ∈ pre.*1 ++ [segment_id wr]) as Hin.
    { rewrite <- Hperm. apply foldr_max_elem. intros Hnil. rewrite Hnil in Hperm.
      apply Permutation_nil_l in Hperm. by destruct (pre.*1). }
    apply elem_of_app in Hin as [Hin| ->%list_elem_of_singleton]; [|done].
    pose proof (wi_ids _ _ Hinv) as Hs. rewrite Hsegs, fmap_app in Hs.
    apply StronglySorted_app in Hs as (Hlt & _ & _).
    apply N.lt_le_incl, Hlt; [exact Hin|by left].
  - apply elem_of_foldr_max. rewrite Hperm. apply elem_of_app. right. by left.
Qed.

(** Opening the directory of a running log again finds its files. *)
Lemma wal_reopen w (segs : list (N * list (N * WMutation))) :
  wal_inv w segs → healthy (wal_disk w) → (0 < open_segment w)%N →
  ∃ w2, wal_open (wal_disk w) = (Ok w2, wal_disk w2) ∧ files (wal_disk w2) = files (wal_disk w) ∧
    healthy (wal_disk w2).
Proof.
  intros Hinv Hd Hpos. pose proof (wal_highest_segment w segs Hinv) as Hhi.
  destruct (wi_writer _ _ Hinv) as (wr & pre & rs & Hw & Hsegs).
  assert (is_Some (files (wal_disk w) !! WalSeg (open_segment w))) as [bs Hbs].
  { unfold open_segment. rewrite Hw. cbn.
    destruct (wal_inv_segment w segs (segment_id wr) rs) as (bs & _ & Hf & _); [done|subst; set_solver|eauto]. }
  destruct (wal_disk w) as [fs fl]. unfold healthy in Hd. cbn in *. subst fl.
  unfold wal_open, syscall, next_fault. cbn. unfold init_active_segment. cbn. rewrite Hhi.
  rewrite N.max_l by lia. unfold on_wal, io_bind, open_append, syscall_files, syscall, next_fault, update.
  cbn. rewrite Hbs. eexists (mkWalManager _ _ _ _ _ _ _). split; [reflexivity|]. done.
Qed.

Lemma replay_same_files {St} (fn : N → WMutation → St → HNSQRResult unit * St) snap st w w2 :
  files (wal_disk w2) = files (wal_disk w) →
  let '(r, _, st1) := replay fn snap st w in
  let '(r2, _, st2) := replay fn snap st w2 in r2 = r ∧ st2 = st1.
Proof.
  intros Hf. unfold replay. rewrite Hf. by destruct (replay_files _ _ _ _ _) as [[] ?].
Qed.

(** ** Logged operations *)

Inductive LoggedOp := LInsert (id : string) (v : V) | LDelete (id : string).

Definition logged_step (op : LoggedOp) (e : Engine) : option (HNSQRResult unit * Engine) :=
  match op with
  | LInsert id v => engine_insert 0 id v e
  | LDelete id => '(_, e) ← engine_delete 0 id e; Some (Ok tt, e)
  end.

Fixpoint logged_run (ops : list LoggedOp) (e : Engine) : option (HNSQRResult unit * Engine) :=
  match ops with
  | [] => Some (Ok tt, e)
  | op :: ops =>
      '(r, e) ← logged_step op e;
      match r with Ok _ => logged_run ops e | Err er => Some (Err er, e) end
  end.

(** The record an operation leaves in the log, and what it means. *)
Definition log_of (op : LoggedOp) : WMutation :=
  match op with LInsert id v => WUpsert id v None | LDelete id => WDelete id end.
Definition op_of (op : LoggedOp) : EngineOp V MV :=
  match op with LInsert id v => OpUpsert id v None | LDelete id => OpDelete id end.

Lemma apply_wal_mutation_op op (e : Engine) : apply_wal_mutation (log_of op) e = engine_step (op_of op) e.
Proof. by destruct op. Qed.

(** Replaying the records of [ops] runs them. *)
Lemma replay_runs ops e e' lsn n r :
  engine_run (op_of <$> ops) e = Some (Ok tt, e') → rp_state r = (n, Some e) →
  (n + lenN ops < u64_modulus)%N →
  ∃ r', apply_records recovery_fn 0 (number_from lsn (log_of <$> ops)) r = (Ok tt, r') ∧
    rp_state r' = ((n + lenN ops)%N, Some e').
Proof.
  revert e lsn n r. induction ops as [|op ops IH]; intros e lsn n r Hrun Hst Hn; cbn [number_from fmap list_fmap].
  { exists r. cbn in Hrun. injection Hrun as <-. split; [done|]. unfold lenN. cbn. by rewrite N.add_0_r. }
  assert (lenN (op :: ops) = lenN ops + 1)%N as Hl by (unfold lenN; cbn; lia). rewrite Hl in *.
  cbn [engine_run fmap list_fmap] in Hrun. rewrite <- apply_wal_mutation_op in Hrun.
  destruct (apply_wal_mutation (log_of op) e) as [[[u|er] e1]|] eqn:Hstep; [|done..].
  cbn [mbind option_bind] in Hrun. cbn [apply_records].
  rewrite (proj2 (N.ltb_lt 0 (lsn + 1))) by lia.
  unfold recovery_fn at 1. rewrite Hst. cbn [snd]. rewrite Hstep.
  match goal with |- context [apply_records _ _ _ ?r1] =>
    destruct (IH e1 (lsn + 1)%N (n + 1)%N r1) as (r' & Hr' & Hst'); [exact Hrun| |lia|] end.
  { unfold update. cbn. unfold u64_add, u64_wrap. rewrite N.mod_small by lia. done. }
  exists r'. split; [exact Hr'|]. rewrite Hst'. f_equal. lia.
Qed.

(** ** Running with a log *)

Definition op_ok (dim : N) (op : LoggedOp) : Prop :=
  right_dimension dim (op_of op) ∧
  ∃ payload, serialize (log_of op) = Ok payload ∧ (lenN payload < u32_modulus)%N.

Lemma engine_ok_wal (e : Engine) w m : engine_ok e m → engine_ok (e <| wal := w |>) m.
Proof. by intros []. Qed.

Lemma logged_step_ok op e m w segs :
  engine_ok e m → wal e = Some w → wal_inv w segs → healthy (wal_disk w) → wal_durability e ≠ PMemory →
  op_ok (dimension e) op → (next_segment_id e + 1 < u64_modulus)%N →
  (current_lsn w + 1 < u64_modulus)%N → (open_segment w + 1 < u64_modulus)%N →
  ∃ e' w' segs', logged_step op e = Some (Ok tt, e') ∧
    engine_ok e' (spec_step (op_of op) (m, ∅ : gmap string (gmap string MV))).1 ∧ wal e' = Some w' ∧
    wal_inv w' segs' ∧ healthy (wal_disk w') ∧ wal_durability e' = wal_durability e ∧
    dimension e' = dimension e ∧ (next_segment_id e' ≤ next_segment_id e + 1)%N ∧
    records segs' = records segs ++ [((current_lsn w + 1)%N, log_of op)] ∧
    current_lsn w' = (current_lsn w + 1)%N ∧
    (open_segment w ≤ open_segment w' ≤ open_segment w + 1)%N.
Proof.
  intros Hok Hw Hinv Hd Hpol [Hdim Hser] Hn Hl Hs.
  destruct (append_inv 0 (log_of op) (wal_durability e) w segs) as
    (w' & segs' & Happ & Hinv' & Hd' & Hrec & Hcur & _ & Hopen); [done..|].
  exists (match op with LInsert id v => default e (snd <$> apply_upsert_unlogged id v (e <| wal := Some w' |>))
          | LDelete id => (delete_internal id (e <| wal := Some w' |>)).2 end), w', segs'.
  pose proof (engine_ok_wal e (Some w') m Hok) as Hok1. destruct op as [id v|id]; cbn [logged_step log_of] in *.
  - unfold engine_insert. rewrite Hw, Happ. cbn [mbind option_bind].
    destruct (apply_upsert_ok id v (e <| wal := Some w' |>) m Hok1 Hdim Hn) as
      (e1 & -> & Hok2 & (Ed & _ & _ & Ew & Edur) & Hn2). cbn [fmap option_fmap option_map snd default].
    split_and!; try done; lia.
  - unfold engine_delete. rewrite Hw, Happ. cbn [mbind option_bind].
    destruct (delete_internal_ok id (e <| wal := Some w' |>) m Hok1) as [Hok2 _].
    destruct (delete_internal_frame id (e <| wal := Some w' |>)) as (Ed & _ & En & _ & _ & Ew & Edur & _).
    destruct (delete_internal id (e <| wal := Some w' |>)) as [f e1]. cbn [snd mbind option_bind] in *.
    split_and!; try done; [|lia..]. rewrite En. unfold update. cbn. lia.
Qed.

Lemma spec_run_vectors (ops : list (EngineOp V MV)) m a b :
  (spec_run ops (m, a)).1 = (spec_run ops (m, b)).1.
Proof.
  unfold spec_run. revert m a b. induction ops as [|op ops IH]; intros m a b; [done|]. cbn.
  destruct op as [id v [meta|]|id|id patch| |]; cbn; apply IH.
Qed.

Lemma logged_run_ok ops e m w segs :
  engine_ok e m → wal e = Some w → wal_inv w segs → healthy (wal_disk w) → wal_durability e ≠ PMemory →
  Forall (op_ok (dimension e)) ops → (next_segment_id e + lenN ops < u64_modulus)%N →
  (current_lsn w + lenN ops < u64_modulus)%N → (open_segment w + lenN ops < u64_modulus)%N →
  (0 < open_segment w)%N →
  ∃ e' w' segs', logged_run ops e = Some (Ok tt, e') ∧
    engine_ok e' (spec_run (op_of <$> ops) (m, ∅ : gmap string (gmap string MV))).1 ∧
    wal e' = Some w' ∧ wal_inv w' segs' ∧ healthy (wal_disk w') ∧ (0 < open_segment w')%N ∧
    records segs' = records segs ++ number_from (current_lsn w) (log_of <$> ops).
Proof.
  revert e m w segs. induction ops as [|op ops IH];
    intros e m w segs Hok Hw Hinv Hd Hpol Hops Hn Hl Hs Hpos; cbn [logged_run].
  { exists e, w, segs. cbn. rewrite app_nil_r. done. }
  assert (lenN (op :: ops) = lenN ops + 1)%N as Hlen by (unfold lenN; cbn; lia). rewrite Hlen in *.
  apply Forall_cons in Hops as [Hop Hops].
  destruct (logged_step_ok op e m w segs) as
    (e1 & w1 & segs1 & -> & Hok1 & Hw1 & Hinv1 & Hd1 & Edur & Ed & Hn1 & Hrec & Hcur & Hopen); [done..|lia|lia|lia|].
  cbn [mbind option_bind].
  destruct (IH e1 _ w1 segs1 Hok1 Hw1 Hinv1 Hd1) as (e2 & w2 & segs2 & Hrun & Hok2 & Hw2 & Hinv2 & Hd2 & Hpos2 & Hrec2);
    [by rewrite Edur|by rewrite Ed|lia|lia|lia|lia|].
  exists e2, w2, segs2. split_and!; try done.
  - cbn [fmap list_fmap]. unfold spec_run in *. cbn [foldl].
    destruct (spec_step (op_of op) (m, ∅)) as [m1 a1]. cbn [fst] in *.
    fold (spec_run (op_of <$> ops) (m1, a1)). rewrite (spec_run_vectors _ m1 a1 ∅). exact Hok2.
  - rewrite Hrec2, Hrec, Hcur, <- app_assoc. done.
Qed.

Lemma set_wal_ok (e : Engine) w pol m : engine_ok e m → engine_ok (set_wal w pol e) m.
Proof. by intros []. Qed.

(** C21: After any sequence of logged inserts of the engine's dimension and
    deletions on a healthy disk, under a durable policy, opening the write-ahead
    log again and replaying it into a new engine succeeds, replays one record
    per operation, and the recovered engine answers every exact search from the
    same vectors as the one that ran. *)
Theorem recovery_restores d dim cap pol ops :
  healthy d → (∀ i, files d !! WalSeg i = None) → (0 < cap < u32_modulus)%N → pol ≠ PMemory →
  Forall (op_ok dim) ops → (lenN ops + 2 < u32_modulus)%N →
  ∃ w0 e w w1 e', wal_open d = (Ok w0, wal_disk w0) ∧
    logged_run ops (set_wal w0 pol (engine_new dim cap)) = Some (Ok tt, e) ∧ wal e = Some w ∧
    wal_open (wal_disk w) = (Ok w1, wal_disk w1) ∧
    recover_from_wal (set_wal w1 pol (engine_new dim cap)) = Some (Ok (lenN ops), e') ∧
    ∀ q k, (0 < k)%N → ∃ r r',
      engine_search_with_contract q k Exact e = Some r ∧
      engine_search_with_contract q k Exact e' = Some r' ∧
      exact_answer q k (spec_run (op_of <$> ops) (∅, ∅)).1 r ∧
      exact_answer q k (spec_run (op_of <$> ops) (∅, ∅)).1 r'.
Proof.
  intros Hd Hnone Hcap Hpol Hops Hlen. assert (u32_modulus < u64_modulus)%N as Hu by done.
  destruct (wal_open_fresh (V := V) (K := gmap string MV) d Hd Hnone) as (w0 & Ho & Hinv & Hd0 & Hc0 & Hs0).
  pose proof (engine_new_ok (V := V) (T := T) (P := P) (B := B) (MV := MV) dim cap Hcap) as Hnew.
  destruct (logged_run_ok ops (set_wal w0 pol (engine_new dim cap)) ∅ w0 _ (set_wal_ok _ w0 pol _ Hnew) eq_refl Hinv Hd0)
    as (e & w & segs & Hrun & Hok & Hw & Hinv1 & Hd1 & Hpos & Hrec); try done.
  { change (2 + lenN ops < u64_modulus)%N. lia. }
  { rewrite Hc0. lia. }
  { rewrite Hs0. lia. }
  { rewrite Hs0. lia. }
  cbn [records concat fmap list_fmap snd app] in Hrec. rewrite Hc0 in Hrec. cbn in Hrec.
  destruct (wal_reopen w segs Hinv1 Hd1 Hpos) as (w1 & Ho1 & Hf1 & _).
  destruct (engine_run_ok (op_of <$> ops) (set_wal w1 pol (engine_new dim cap)) (∅, ∅)) as (e1 & Hrun1 & Hok1 & _).
  { by apply set_wal_ok. }
  { done. }
  { rewrite Forall_fmap. eapply Forall_impl; [exact Hops|]. by intros op [? _]. }
  { unfold lenN. rewrite length_fmap. change (2 + lenN ops < u32_modulus)%N. lia. }
  { unfold lenN. rewrite length_fmap. cbn [fst]. rewrite map_size_empty. unfold lenN in *. lia. }
  pose proof (replay_spec recovery_fn 0 (0%N, Some (set_wal w1 pol (engine_new dim cap))) w segs Hinv1) as Hr.
  cbv zeta in Hr. rewrite Hrec in Hr.
  match type of Hr with context [apply_records _ _ _ ?r0] =>
    destruct (replay_runs ops _ e1 0 0 r0 Hrun1 eq_refl) as (r' & Hr' & Hst'); [lia|] end.
  rewrite Hr' in Hr. pose proof (replay_same_files recovery_fn 0
    (0%N, Some (set_wal w1 pol (engine_new dim cap))) w w1 Hf1) as Hsame.
  rewrite Hr in Hsame.
  destruct (replay recovery_fn 0 (0%N, Some (set_wal w1 pol (engine_new dim cap))) w1) as [[r2 w2] st2] eqn:Hr2.
  destruct Hsame as [-> ->].
  eexists w0, e, w, w1, _. split_and!; [done..| |].
  - unfold recover_from_wal. cbn [wal set_wal]. unfold set_wal, update in Hr2 |- *. cbn in Hr2 |- *.
    rewrite Hr2, Hst'. cbn. reflexivity.
  - intros q k Hk. destruct (exact_search_ok q k _ _ Hok Hk) as (r & Hr1 & Hx).
    destruct (exact_search_ok q k _ _ (engine_ok_wal e1 (Some w2) _ Hok1) Hk) as (r3 & Hr3 & Hx3).
    exists r, r3. done.
Qed.
End recovery.
