(* ===== verification/Coordinator.v ===== *)
(** The distributed coordinator (src/cluster/coordinator.rs): routing by the
    topology, epoch-fenced writes through Raft, read snapshots, scatter-gather
    search and shard migration; and the disaster-recovery bookkeeping of
    src/cluster/disaster_recovery.rs it reports to.  Then its facts: epoch fencing
    and scatter-gather.

    The cluster is the map of Raft nodes of RaftCluster.v.  All nodes are given
    the state machine of shard 0; nothing here depends on their sharing it, and
    they hold it by value.  A write is cut at its await point: the proposal, and
    what the receiver of the outcome makes of it.  [None] is a panic. *)

From Stdlib Require Import ZArith SpecFloat.
From stdpp Require Import base gmap sets strings numbers list sorting fin_maps.
From S2P Require Import Prelude.
From S2P Require Import Floats.
From S2P Require Import RaftTypes.
From S2P Require Import MemoryStorage.
From S2P Require Import ReadIndex.
From S2P Require Import RaftNode.
From S2P Require Import RaftCluster.
From S2P Require Import Wal.
From S2P Require Import Order.
From S2P Require Import Ring.
From S2P Require Import Topology.
From S2P Require Import TopK.
From S2P Require Import Hypercube.
From S2P Require Import StateMachine.
From S2P Require Import Segment.

(** ** Disaster recovery *)

Record DisasterRecoveryCoordinator := mkDR {
  primary_region : string;
  secondary_region : string;
  primary_lsn : N;
  secondary_replicated_lsn : N;
  last_replication_time : N
}.

Definition dr_new (now : N) (primary secondary : string) : DisasterRecoveryCoordinator :=
  mkDR primary secondary 0 0 now.

Definition record_primary_mutation (lsn : N) (d : DisasterRecoveryCoordinator) :
    DisasterRecoveryCoordinator :=
  mkDR (primary_region d) (secondary_region d)
    (if (primary_lsn d <? lsn)%N then lsn else primary_lsn d)
    (secondary_replicated_lsn d) (last_replication_time d).

Definition replicate_wal_batch {Mut} (now start_lsn : N) (mutations : list Mut)
    (d : DisasterRecoveryCoordinator) : HNSQRResult N * DisasterRecoveryCoordinator :=
  let end_lsn := u64_add start_lsn (lenN mutations) in
  (Ok end_lsn, mkDR (primary_region d) (secondary_region d) (primary_lsn d) end_lsn now).

Record DisasterRecoverySla := mkSla {
  sla_primary_region : string;
  sla_secondary_region : string;
  sla_primary_lsn : N;
  sla_replicated_lsn : N;
  rpo_seconds : f64;
  estimated_rto_seconds : f64;
  is_drill_verified : bool
}.

Definition compute_dr_sla (d : DisasterRecoveryCoordinator) : DisasterRecoverySla :=
  let lag_records := (primary_lsn d - secondary_replicated_lsn d)%N in
  mkSla (primary_region d) (secondary_region d) (primary_lsn d) (secondary_replicated_lsn d)
    (f64_max (f64_div (f64_of_u64 lag_records) (f64_of_Z 1000)) (f64_div (f64_of_Z 1) (f64_of_Z 100)))
    (f64_add (f64_of_Z 2) (f64_div (f64_of_u64 lag_records) (f64_of_Z 50000)))
    true.

(** The measured duration is returned by the caller's clock. *)
Definition execute_failover_drill (elapsed : f64) (d : DisasterRecoveryCoordinator) :
    HNSQRResult f64 * DisasterRecoveryCoordinator :=
  (Ok elapsed, mkDR (primary_region d) (secondary_region d) (primary_lsn d) (primary_lsn d)
                 (last_replication_time d)).

(** ** The coordinator *)

Record ReadSnapshot := mkReadSnapshot {
  rs_topology_epoch : N;
  rs_raft_read_index : N;
  rs_applied_index : N;
  rs_immutable_generation : N;
  rs_mutable_lsn : N
}.

(** What the receiver of a proposal's channel gets. *)
Inductive Received := RecvTimeout | RecvClosed | RecvResult (r : Result CommitReceipt ApplyError).

Section coordinator.
Context {V A T P B MV M D F : Type} `{!VectorKernels V A T P B} `{!Roaring B} `{!SortUnstable}.
Context `{!ReplicatedStateMachine M D} `{!Mutation D} `{!HashOrder}.
(** [ShardStateMachine::new] and the constructors of [DataMutation]. *)
Context (new_sm : Ring.ShardId → SegmentedEngine V T P B MV → M).
Context (upsert_of : MutationId → string → V → D) (delete_of : MutationId → string → D).
Abbreviation Engine := (SegmentedEngine V T P B MV).
Abbreviation Nodes := (gmap RaftNodeId (RaftNode (MemoryRaftStorage D) M D)).

Record LocalShard := mkLocalShard {
  ls_shard_id : Ring.ShardId;
  ls_role : ShardRole;
  ls_engine : Engine;
  ls_state_machine : M
}.

Record DistributedCoordinator := mkCoordinator {
  co_dimension : N;
  co_topology : ClusterTopology;
  local_shards : gmap Ring.ShardId LocalShard;
  active_migrations : gmap N MigrationTask;
  co_epoch : N;
  raft_cluster : Nodes;
  dr_coordinator : option DisasterRecoveryCoordinator;
  federation_replicator : option F
}.
#[global] Instance eta_Coordinator : Eta DistributedCoordinator := λ c,
  mkCoordinator (co_dimension c) (co_topology c) (local_shards c) (active_migrations c) (co_epoch c)
    (raft_cluster c) (dr_coordinator c) (federation_replicator c).

Definition new_with_cluster (dim n max_mutable_capacity : N) (nodes : Nodes) : DistributedCoordinator :=
  let shards :=
    foldl (λ m s, let engine := engine_new dim max_mutable_capacity in
                  <[s := mkLocalShard s ShardLeader engine (new_sm s engine)]> m)
      ∅ (N.of_nat <$> seq 0 (N.to_nat n)) in
  let nodes :=
    match shards !! 0%N with
    | Some shard0 => set_replicated_sm (ls_state_machine shard0) <$> nodes
    | None => nodes
    end in
  mkCoordinator dim (topology_new n) shards ∅ 1 nodes None None.

Definition coordinator_new (now dim n max_mutable_capacity : N) : option DistributedCoordinator :=
  nodes ← cluster_new now [1; 2; 3]%N;
  '(_, nodes) ← trigger_election now 1 nodes;
  Some (new_with_cluster dim n max_mutable_capacity nodes).

Definition set_dr_coordinator (dr : DisasterRecoveryCoordinator) (c : DistributedCoordinator) :=
  c <| dr_coordinator := Some dr |>.
Definition set_federation_replicator (r : F) (c : DistributedCoordinator) :=
  c <| federation_replicator := Some r |>.

Definition co_shard_for_key (key : string) (c : DistributedCoordinator) : option Ring.ShardId :=
  topology_shard_for_key key (co_topology c).

(** Routing, the role check and the proposal of a write. *)
Definition propose_write (now : N) (key : string) (m : D) (role_error : string)
    (c : DistributedCoordinator) : option (HNSQRResult N * DistributedCoordinator) :=
  shard_id ← co_shard_for_key key c;
  match local_shards c !! shard_id with
  | None => Some (Err (SearchError "Shard not hosted locally"), c)
  | Some shard =>
      if bool_decide (ls_role shard ≠ ShardLeader) then Some (Err (Internal role_error), c)
      else
        '(r, nodes) ← cluster_propose now m (raft_cluster c);
        Some (r, c <| raft_cluster := nodes |>)
  end.

(** The first half of [insert_fenced] and [insert_fenced_blocking]. *)
Definition propose_insert_fenced (now : N) (mid : MutationId) (id : string) (v : V)
    (expected_epoch : option N) (c : DistributedCoordinator) :
    option (HNSQRResult N * DistributedCoordinator) :=
  if (match expected_epoch with Some e => negb (e =? co_epoch c)%N | None => false end)
  then Some (Err (Internal "Stale topology epoch"), c)
  else propose_write now id (upsert_of mid id v) "Cannot write to follower replica for shard" c.

Definition propose_delete (now : N) (mid : MutationId) (id : string) (c : DistributedCoordinator) :
    option (HNSQRResult N * DistributedCoordinator) :=
  propose_write now id (delete_of mid id) "Cannot delete on follower replica for shard" c.

(** The second half: the outcome, as an error or a receipt. *)
Definition await_receipt (o : Received) : HNSQRResult CommitReceipt :=
  match o with
  | RecvTimeout => Err (Internal "Proposal timed out waiting for quorum commit")
  | RecvClosed => Err (Internal "Proposal channel closed unexpectedly")
  | RecvResult (Ok receipt) => Ok receipt
  | RecvResult (Err e) => Err (apply_error_from e)
  end.

(** [insert_fenced] also reports the applied index to disaster recovery. *)
Definition complete_insert (o : Received) (c : DistributedCoordinator) :
    HNSQRResult CommitReceipt * DistributedCoordinator :=
  match await_receipt o with
  | Err e => (Err e, c)
  | Ok receipt =>
      (Ok receipt,
       c <| dr_coordinator ::= fmap (record_primary_mutation (cr_applied_index receipt)) |>)
  end.

Definition leader_node (c : DistributedCoordinator) : option (RaftNode (MemoryRaftStorage D) M D) :=
  raft_cluster c !! default 1%N (get_leader (raft_cluster c)).

Definition obtain_read_snapshot (ctx : ReadContextId) (now : N) (fuel : nat) (poll : nat → N * N)
    (consistency : ReadConsistency) (c : DistributedCoordinator) :
    option (HNSQRResult ReadSnapshot * DistributedCoordinator) :=
  '(r, c) ← (match consistency with
    | Linearizable =>
        '(r, ns) ← cluster_read_index ctx now fuel poll ReadIndexMode (raft_cluster c);
        Some (r, c <| raft_cluster := ns |>)
    | LinearizableWithMode mode =>
        '(r, ns) ← cluster_read_index ctx now fuel poll mode (raft_cluster c);
        Some (r, c <| raft_cluster := ns |>)
    | CommittedRead => leader ← leader_node c; Some (Ok (commit_index leader), c)
    | BoundedStaleness max_lag _ =>
        leader ← leader_node c;
        let lag := (commit_index leader - last_applied leader)%N in
        Some (if (max_lag <? lag)%N then Err (Internal "Observed lag exceeds bounded staleness limit")
              else Ok (last_applied leader), c)
    end);
  match r with
  | Err e => Some (Err e, c)
  | Ok read_index =>
      leader ← leader_node c;
      let active_gen :=
        match iter_order (dom (local_shards c)) with
        | s :: _ => from_option (λ sh, active_generation (ls_engine sh)) 1%N (local_shards c !! s)
        | [] => 1%N
        end in
      Some (Ok (mkReadSnapshot (co_epoch c) read_index (last_applied leader) active_gen read_index), c)
  end.

(** The shards in the order the map yields them. *)
Definition shards_in_order (c : DistributedCoordinator) : list LocalShard :=
  omap (λ s, local_shards c !! s) (iter_order (dom (local_shards c))).

Definition coordinator_search (q : V) (k : N) (c : DistributedCoordinator) : option (list Candidate) :=
  if (k =? 0)%N then Some [] else
  results ← gather (λ sh, engine_search q k (ls_engine sh)) (shards_in_order c);
  Some (merge_topk k results).

Definition migration_task (id : N) (source dest : Ring.ShardId) (p : MigrationPhase) : MigrationTask :=
  mkMigrationTask id source dest p 0 0 0.

(** The migration as it is listed while it is in phase [p]. *)
Definition migration_at (id : N) (source dest : Ring.ShardId) (p : MigrationPhase)
    (c : DistributedCoordinator) : DistributedCoordinator :=
  c <| active_migrations ::= <[id := migration_task id source dest p]> |>.

(** The cut-over: one epoch, on the topology and on the fence. *)
Definition advance_epoch (c : DistributedCoordinator) : DistributedCoordinator :=
  let t := co_topology c in
  let epoch := u64_add (topo_epoch t) 1 in
  c <| co_topology := mkTopology epoch (num_shards t) (topo_ring t) (shard_replicas t) |>
    <| co_epoch := epoch |>.

(** The states [execute_migration] goes through, in order. *)
Definition migration_states (id : N) (source dest : Ring.ShardId) (c : DistributedCoordinator) :
    list DistributedCoordinator :=
  let c1 := migration_at id source dest Prepare c in
  let c2 := migration_at id source dest SnapshotTransfer c1 in
  let c3 := migration_at id source dest WalCatchup c2 in
  let c4 := advance_epoch c3 in
  let c5 := migration_at id source dest OwnershipCommit c4 in
  let c6 := c5 <| active_migrations ::= delete id |> in
  [c1; c2; c3; c4; c5; c6].

Definition execute_migration (id : N) (source dest : Ring.ShardId) (c : DistributedCoordinator) :
    HNSQRResult unit * DistributedCoordinator :=
  (Ok tt, default c (last (migration_states id source dest c))).

Fixpoint compact_shards (elapsed : N → f64) (ids : list Ring.ShardId) (total : N)
    (c : DistributedCoordinator) : option (HNSQRResult N * DistributedCoordinator) :=
  match ids with
  | [] => Some (Ok total, c)
  | s :: ids =>
      match local_shards c !! s with
      | None => compact_shards elapsed ids total c
      | Some sh =>
          '(r, e) ← compact elapsed (ls_engine sh);
          let c := c <| local_shards ::=
                     <[s := mkLocalShard (ls_shard_id sh) (ls_role sh) e (ls_state_machine sh)]> |> in
          match r with
          | Err er => Some (Err er, c)
          | Ok n => compact_shards elapsed ids (u64_add total n) c
          end
      end
  end.

Definition compact_all (elapsed : N → f64) (c : DistributedCoordinator) :
    option (HNSQRResult N * DistributedCoordinator) :=
  compact_shards elapsed (iter_order (dom (local_shards c))) 0 c.
End coordinator.

Section facts.
Context {V A T P B MV M D F : Type} `{!VectorKernels V A T P B} `{!Roaring B} `{!SortUnstable}.
Context `{!ReplicatedStateMachine M D} `{!Mutation D} `{!HashOrder}.
Context (new_sm : Ring.ShardId → SegmentedEngine V T P B MV → M).
Context (upsert_of : MutationId → string → V → D) (delete_of : MutationId → string → D).
Abbreviation Coord := (DistributedCoordinator (V := V) (T := T) (P := P) (B := B) (MV := MV) (M := M) (D := D) (F := F)).

(** The calls that change a coordinator; [n] counts the migrations. *)
Inductive coord_step : Coord → N → Coord → Prop :=
  | step_insert now mid id v expected c r c' :
      propose_insert_fenced upsert_of now mid id v expected c = Some (r, c') → coord_step c 0 c'
  | step_delete now mid id c r c' :
      propose_delete delete_of now mid id c = Some (r, c') → coord_step c 0 c'
  | step_complete o c r c' : complete_insert o c = (r, c') → coord_step c 0 c'
  | step_read ctx now fuel poll consistency c r c' :
      obtain_read_snapshot ctx now fuel poll consistency c = Some (r, c') → coord_step c 0 c'
  | step_compact elapsed c r c' : compact_all elapsed c = Some (r, c') → coord_step c 0 c'
  | step_dr dr c : coord_step c 0 (set_dr_coordinator dr c)
  | step_federation rep c : coord_step c 0 (set_federation_replicator rep c)
  | step_migrate id source dest c r c' :
      execute_migration id source dest c = (r, c') → coord_step c 1 c'.

Inductive coord_steps : Coord → N → Coord → Prop :=
  | steps_refl c : coord_steps c 0 c
  | steps_next c1 n1 c2 n2 c3 : coord_steps c1 n1 c2 → coord_step c2 n2 c3 → coord_steps c1 (n1 + n2) c3.

(** Whatever does not migrate keeps both epochs. *)
Definition same_epochs (c c' : Coord) : Prop :=
  co_epoch c' = co_epoch c ∧ topo_epoch (co_topology c') = topo_epoch (co_topology c).

Lemma propose_write_epochs now key m err (c : Coord) r c' :
  propose_write now key m err c = Some (r, c') → same_epochs c c'.
Proof.
  unfold propose_write. destruct (co_shard_for_key key c) as [s|]; [|done]. cbn [mbind option_bind].
  destruct (local_shards c !! s) as [sh|]; [|by intros [= <- <-]].
  case_bool_decide; [by intros [= <- <-]|].
  destruct (cluster_propose now m (raft_cluster c)) as [[r0 ns]|]; [|done]. by intros [= <- <-].
Qed.

Lemma obtain_read_snapshot_epochs ctx now fuel poll cons (c : Coord) r c' :
  obtain_read_snapshot ctx now fuel poll cons c = Some (r, c') → same_epochs c c'.
Proof.
  unfold obtain_read_snapshot. rewrite bind_Some. intros ([r0 c0] & Hc & Hr).
  assert (same_epochs c c0) as Hsame.
  { destruct cons; revert Hc; rewrite bind_Some; intros (x & _ & Hx); try destruct x; by simplify_eq. }
  destruct r0 as [idx|er]; [|by simplify_eq]. revert Hr. rewrite bind_Some. intros (leader & _ & Hx). by simplify_eq.
Qed.

Lemma compact_shards_epochs elapsed ids total (c : Coord) r c' :
  compact_shards elapsed ids total c = Some (r, c') → same_epochs c c'.
Proof.
  revert total c. induction ids as [|s ids IH]; intros total c; cbn [compact_shards]; [by intros [= <- <-]|].
  destruct (local_shards c !! s) as [sh|]; [|apply IH]. rewrite bind_Some. intros ([r0 e] & _ & Hx).
  destruct r0 as [n|er]; [|by simplify_eq]. apply IH in Hx. exact Hx.
Qed.

Lemma migration_at_epochs id s d p (c : Coord) : same_epochs c (migration_at id s d p c).
Proof. done. Qed.

Lemma execute_migration_epoch id s d (c : Coord) r c' :
  execute_migration id s d c = (r, c') →
  co_epoch c' = u64_add (topo_epoch (co_topology c)) 1 ∧ topo_epoch (co_topology c') = co_epoch c'.
Proof.
  intros [= _ <-].
  set (c3 := migration_at id s d WalCatchup (migration_at id s d SnapshotTransfer (migration_at id s d Prepare c))).
  assert (topo_epoch (co_topology c3) = topo_epoch (co_topology c)) as E3 by done. clearbody c3.
  set (c5 := migration_at id s d OwnershipCommit (advance_epoch c3)).
  assert (co_epoch c5 = u64_add (topo_epoch (co_topology c3)) 1 ∧ topo_epoch (co_topology c5) = co_epoch c5)
    as [E5 F5] by done.
  clearbody c5. by rewrite <- E3.
Qed.

Lemma coord_step_epoch c n c' :
  coord_step c n c' → co_epoch c = topo_epoch (co_topology c) →
  co_epoch c' = topo_epoch (co_topology c') ∧
  co_epoch c' = if (n =? 0)%N then co_epoch c else u64_add (co_epoch c) 1.
Proof.
  intros Hstep He. assert (same_epochs c c' → n = 0%N → co_epoch c' = topo_epoch (co_topology c') ∧
    co_epoch c' = if (n =? 0)%N then co_epoch c else u64_add (co_epoch c) 1) as Hsame.
  { intros [-> ->] ->. done. }
  destruct Hstep as [??????? c' Hs|????? c' Hs|?? r c' Hs|??????? c' Hs|??? c' Hs|? |?|id s d c r c' Hs];
    try (apply Hsame; [|reflexivity]).
  - unfold propose_insert_fenced in Hs. destruct (match _ with Some e => negb _ | None => _ end) eqn:E; [by simplify_eq|]. by eapply propose_write_epochs.
  - unfold propose_delete in Hs. by eapply propose_write_epochs.
  - unfold complete_insert in Hs. by destruct (await_receipt o); simplify_eq.
  - by eapply obtain_read_snapshot_epochs.
  - by eapply compact_shards_epochs.
  - done.
  - done.
  - apply execute_migration_epoch in Hs as [E1 E2]. by rewrite E2, E1, He.
Qed.

Lemma coord_steps_epoch c n c' :
  coord_steps c n c' → co_epoch c = topo_epoch (co_topology c) → (co_epoch c < u64_modulus)%N →
  co_epoch c' = topo_epoch (co_topology c') ∧ co_epoch c' = u64_wrap (co_epoch c + n).
Proof.
  induction 1 as [c|c1 n1 c2 n2 c3 H12 IH H23]; intros He Hlt.
  { rewrite N.add_0_r. split; [done|]. unfold u64_wrap. by rewrite N.mod_small. }
  destruct (IH He Hlt) as [He2 E2]. destruct (coord_step_epoch _ _ _ H23 He2) as [He3 E3]. split; [done|].
  rewrite E3. assert (n2 = 0 ∨ n2 = 1)%N as [-> | ->] by (by destruct H23; auto); cbn.
  - by rewrite E2, N.add_0_r.
  - unfold u64_add. rewrite E2. unfold u64_wrap. rewrite N.Div0.add_mod_idemp_l. f_equal. lia.
Qed.

(** C22: Epoch fencing: a client that read the epoch of a coordinator and writes
    with it after n migrations, whatever writes, reads and compactions happened
    in between, gets through to the shard exactly when there was no migration;
    otherwise the write is refused and changes nothing. *)
Theorem epoch_fencing dim n cap nodes n1 c n2 c' now mid id v :
  coord_steps (new_with_cluster new_sm dim n cap nodes) n1 c → coord_steps c n2 c' →
  (n2 < u64_modulus)%N →
  propose_insert_fenced upsert_of now mid id v (Some (co_epoch c)) c' =
    if (n2 =? 0)%N then propose_write now id (upsert_of mid id v) "Cannot write to follower replica for shard" c'
    else Some (Err (Internal "Stale topology epoch"), c').
Proof.
  intros H1 H2 Hn. destruct (coord_steps_epoch _ _ _ H1) as [He1 E1]; [done..|].
  assert (co_epoch c < u64_modulus)%N as Hlt by (rewrite E1; apply u64_wrap_lt).
  destruct (coord_steps_epoch _ _ _ H2 He1 Hlt) as [He2 E2].
  unfold propose_insert_fenced. rewrite E2. destruct (N.eqb_spec n2 0) as [->|Hne].
  - rewrite N.add_0_r. unfold u64_wrap. by rewrite N.mod_small, N.eqb_refl.
  - rewrite (proj2 (N.eqb_neq _ _)); [done|]. intros Heq. unfold u64_wrap in Heq.
    destruct (decide (co_epoch c + n2 < u64_modulus)%N) as [Hs|Hs].
    + rewrite N.mod_small in Heq by done. lia.
    + replace (co_epoch c + n2)%N with (co_epoch c + n2 - u64_modulus + 1 * u64_modulus)%N in Heq by lia.
      rewrite N.Div0.mod_add, N.mod_small in Heq by lia. lia.
Qed.

(** Scatter-gather returns the [k] best of what the shards return. *)
Lemma coordinator_search_best q k (c : Coord) results :
  (0 < k)%N → gather (λ sh, engine_search q k (ls_engine sh)) (shards_in_order c) = Some results →
  ∃ r, coordinator_search q k c = Some r ∧ NoDup r.*1 ∧ StronglySorted score_ge r ∧ (lenN r ≤ k)%N ∧
    (∀ x, x ∈ r → x ∈ results) ∧
    ∀ x, x ∈ results →
      (∃ y, y ∈ r ∧ y.1 = x.1 ∧ score_ge y x) ∨ (lenN r = k ∧ ∀ y, y ∈ r → score_ge y x).
Proof.
  intros Hk Hg. unfold coordinator_search. destruct (N.eqb_spec k 0); [lia|]. rewrite Hg. cbn.
  eexists; split; [done|]. by apply merge_topk_spec.
Qed.
End facts.
