(* ===== verification/ClusterSamples.v ===== *)
(** Small clusters: witnesses for the theorems on the ring, the topology, the
    federation, the stream ingestor and the coordinator, and runs that show
    surprises.  The segmented engine at work on small inputs: there a vector is a
    list of small numbers, scored by the dot product, and the territory index is the
    list of the inserted slots. *)

From Stdlib Require Import Strings.Byte.
From stdpp Require Import base gmap sets strings numbers list pretty sorting fin_maps.
From S2P Require Import Prelude.
From S2P Require Import Codec.
From S2P Require Import Order.
From S2P Require Import Ring.
From S2P Require Import Topology.
From S2P Require Import Federation.
From S2P Require Import StreamIngest.
From S2P Require Import RaftTypes.
From S2P Require Import MemoryStorage.
From S2P Require Import RaftNode.
From S2P Require Import RaftCluster.
From S2P Require Import RaftSamples.
From S2P Require Import Hypercube.
From S2P Require Import EngineSamples.
From S2P Require Import Segment.
From S2P Require Import Coordinator.
From S2P Require Import FileSystem.
From S2P Require Import Floats.
From S2P Require Import Wal.
From S2P Require Import WalProperties.
From S2P Require Import StorageSamples.
From S2P Require Import TopK.
From S2P Require Import StoragePolicies.
From S2P Require Import SegmentFacts.
From S2P Require Import SegmentSearch.
From S2P Require Import SegmentRecovery.

#[export] Instance sample_sort : SortUnstable := stable_sort.

Definition dot (q v : list N) : N := foldr N.add 0%N (zip_with N.mul q v).

#[export] Instance sample_kernels : VectorKernels (list N) unit (list N) unit (gset N) := {|
  vec_dimension v := lenN v;
  dot_re := dot;
  into_normalized v := v;
  compile _ _ := tt;
  territories_new := [];
  territories_insert _ slot t := slot :: t;
  strict_candidates _ t := t;
  proof_tree_build _ _ _ := tt;
  proof_search _ _ _ _ _ _ := []
|}.

Abbreviation SampleEngine := (SegmentedEngine (list N) (list N) unit (gset N) N).

(** Two vectors per segment: three documents, one of them replaced, one deleted,
    a compaction in between. *)
Definition sample_engine_ops : list (EngineOp (list N) N) :=
  [OpUpsert "a" [1; 0]%N (Some {["lang" := 1%N]}); OpUpsert "b" [2; 0]%N None; OpUpsert "c" [3; 1]%N None;
   OpUpsert "a" [9; 0]%N None; OpUpsert "d" [5; 5]%N None; OpCompact (λ _, f64_of_Z 0);
   OpDelete "c"; OpPatch "a" {["lang" := 2%N]}; OpRotate].

Lemma segments_refine_map_witness :
  ∃ e : SampleEngine, engine_run sample_engine_ops (engine_new 2 2) = Some (Ok tt, e) ∧
    metadata_store e = {["a" := {["lang" := 2%N]}]} ∧
    ∃ r, engine_search_with_contract [1; 0]%N 2 Exact e = Some r ∧
      exact_answer [1; 0]%N 2 {["a" := [9; 0]%N; "b" := [2; 0]%N; "d" := [5; 5]%N]} r.
Proof.
  destruct (segments_refine_map 2 2 sample_engine_ops) as (e & Hrun & Hm & Hs).
  - split; vm_compute; reflexivity.
  - vm_compute. reflexivity.
  - repeat (apply List.Forall_cons; [vm_compute; first [exact I|reflexivity]|]). constructor.
  - exists e. split; [exact Hrun|]. split; [exact Hm|]. exact (Hs [1; 0]%N 2%N eq_refl).
Defined.

(** ** Recovery *)

(** A codec for the mutations of the sample: upserts of byte vectors without
    metadata, and deletions. *)
Definition put_logged (m : WalMutation (list N) (gmap string N)) : option (list byte) :=
  match m with
  | WUpsert id v None =>
      if forallb (λ x, (x <? 256)%N) v && (lenN (String.list_byte_of_string id) <? 256)%N
      then Some (x01 :: byte_of_N (lenN (String.list_byte_of_string id)) ::
                 String.list_byte_of_string id ++ (byte_of_N <$> v))
      else None
  | WDelete id => Some (x02 :: String.list_byte_of_string id)
  | _ => None
  end.

Definition get_logged (bs : list byte) : option (WalMutation (list N) (gmap string N)) :=
  match bs with
  | x01 :: n :: bs =>
      let k := N.to_nat (Byte.to_N n) in
      Some (WUpsert (String.string_of_list_byte (take k bs)) (Byte.to_N <$> drop k bs) None)
  | x02 :: bs => Some (WDelete (String.string_of_list_byte bs))
  | _ => None
  end.

#[export] Instance sample_logged : Bincode (WalMutation (list N) (gmap string N)) :=
  {| serialize m := of_option (put_logged m); deserialize bs := of_option (get_logged bs) |}.

#[export] Instance sample_logged_laws : BincodeLaws (WalMutation (list N) (gmap string N)).
Proof.
  intros m bs Hs. cbn in *. destruct m as [id v [meta|]|id| | |]; cbn in Hs; try discriminate Hs.
  - destruct (forallb (λ x, (x <? 256)%N) v) eqn:Hv; cbn in Hs; [|discriminate Hs].
    destruct (_ <? 256)%N eqn:Hn in Hs; [|discriminate Hs]. cbn in Hs. injection Hs as <-.
    unfold get_logged, of_option. rewrite to_N_byte_of_N, N.mod_small by by apply N.ltb_lt.
    unfold lenN. rewrite Nat2N.id, take_app_length, drop_app_length.
    rewrite String.string_of_list_byte_of_string. do 2 f_equal.
    rewrite <- list_fmap_compose. rewrite <- (list_fmap_id v) at 2. apply list_fmap_ext.
    intros i x Hx. cbn. rewrite to_N_byte_of_N. apply N.mod_small.
    apply list_elem_of_lookup_2 in Hx. rewrite forallb_forall in Hv. apply N.ltb_lt, Hv. by apply list_elem_of_In.
  - injection Hs as <-. cbn. by rewrite String.string_of_list_byte_of_string.
Defined.

Definition sample_logged_ops : list (LoggedOp (V := list N)) :=
  [LInsert "a" [1; 0]%N; LInsert "b" [2; 0]%N; LInsert "c" [3; 1]%N; LDelete "b"; LInsert "a" [9; 9]%N].

Lemma recovery_restores_witness :
  ∃ w0 (e : SampleEngine) w w1 e', wal_open empty_disk = (Ok w0, wal_disk w0) ∧
    logged_run sample_logged_ops (set_wal w0 PWalSync (engine_new 2 2)) = Some (Ok tt, e) ∧
    wal e = Some w ∧ wal_open (wal_disk w) = (Ok w1, wal_disk w1) ∧
    recover_from_wal (set_wal w1 PWalSync (engine_new 2 2)) = Some (Ok 5%N, e') ∧
    ∃ r r', engine_search_with_contract [1; 0]%N 3 Exact e = Some r ∧
      engine_search_with_contract [1; 0]%N 3 Exact e' = Some r' ∧
      exact_answer [1; 0]%N 3 {["a" := [9; 9]%N; "c" := [3; 1]%N]} r ∧
      exact_answer [1; 0]%N 3 {["a" := [9; 9]%N; "c" := [3; 1]%N]} r'.
Proof.
  destruct (recovery_restores (MV := N) empty_disk 2 2 PWalSync sample_logged_ops)
    as (w0 & e & w & w1 & e' & H0 & H1 & H2 & H3 & H4 & H5).
  - reflexivity.
  - intros i. reflexivity.
  - split; vm_compute; reflexivity.
  - discriminate.
  - repeat (apply List.Forall_cons;
      [split; [vm_compute; first [exact I|reflexivity]|eexists; split; [reflexivity|vm_compute; reflexivity]]|]).
    constructor.
  - vm_compute. reflexivity.
  - exists w0, e, w, w1, e'. split; [exact H0|]. split; [exact H1|]. split; [exact H2|].
    split; [exact H3|]. split; [exact H4|]. exact (H5 [1; 0]%N 3%N eq_refl).
Defined.

(** ** Where the engine departs from its documentation *)

Definition answer (q : list N) (k : N) (oe : option (HNSQRResult unit * SampleEngine)) :
    option (list Candidate) :=
  '(_, e) ← oe; engine_search_with_contract q k Exact e.

(** An insert refused for its dimension has already deleted the old vector. *)
Definition refused_ops : list (EngineOp (list N) N) :=
  [OpUpsert "a" [1; 0]%N None; OpUpsert "a" [1]%N None].

Lemma refused_insert_deletes :
  fst <$> engine_run refused_ops (engine_new 2 2 : SampleEngine) = Some (Err (DimensionMismatch 2 1)) ∧
  answer [1; 0]%N 1 (engine_run refused_ops (engine_new 2 2)) = Some [].
Proof. split; vm_compute; reflexivity. Qed.

(** A refused insert is in the log all the same, and recovery stops at it. *)
Definition poisoned_log : option (HNSQRResult unit * HNSQRResult N) :=
  match wal_open empty_disk with
  | (Ok w0, _) =>
      '(r, e) ← logged_run [LInsert "a" [1]%N] (set_wal w0 PWalSync (engine_new 2 2 : SampleEngine));
      w ← wal e;
      '(rr, _) ← recover_from_wal (set_wal w PWalSync (engine_new 2 2 : SampleEngine));
      Some (r, rr)
  | _ => None
  end.

Lemma refused_insert_blocks_recovery :
  poisoned_log = Some (Err (DimensionMismatch 2 1), Err (DimensionMismatch 2 1)).
Proof. vm_compute. reflexivity. Qed.

(** A deletion after the snapshot is visible in the snapshot. *)
Definition snapshot_sample : option (list Candidate * list Candidate) :=
  '(_, e) ← engine_run [OpUpsert "a" [1; 0]%N None; OpRotate] (engine_new 2 2 : SampleEngine);
  s ← engine_snapshot e;
  before ← snapshot_search_with_contract (segment_heap e) [1; 0]%N 1 Exact s;
  let e := (engine_apply_delete_unlogged "a" e).2 in
  after ← snapshot_search_with_contract (segment_heap e) [1; 0]%N 1 Exact s;
  Some (before, after).

Lemma snapshot_not_isolated : snapshot_sample = Some ([("a", 1%N)], []).
Proof. vm_compute. reflexivity. Qed.

(** The swap that ends a compaction, on an engine that has moved on since the
    compaction read the list of segments. *)
Definition swap_segments (compacted e : SampleEngine) : SampleEngine :=
  e <| segment_heap ::= λ h, segment_heap compacted ∪ h |>
    <| immutable_segments := immutable_segments compacted |>.

Definition compaction_race : option (list Candidate * list Candidate) :=
  '(_, e) ← engine_run [OpUpsert "a" [1; 0]%N None; OpRotate; OpUpsert "b" [2; 0]%N None; OpRotate;
                        OpUpsert "c" [3; 0]%N None] (engine_new 2 2 : SampleEngine);
  '(_, compacted) ← compact (λ _, f64_of_Z 0) e;
  '(_, moved) ← rotate_active e;
  before ← engine_search_with_contract [1; 0]%N 3 Exact moved;
  after ← engine_search_with_contract [1; 0]%N 3 Exact (swap_segments compacted moved);
  Some (before, after).

Lemma compaction_drops_segment :
  compaction_race = Some ([("c", 3%N); ("b", 2%N); ("a", 1%N)], [("b", 2%N); ("a", 1%N)]).
Proof. vm_compute. reflexivity. Qed.

(** An empty token bucket grants one byte and becomes practically infinite. *)
Lemma budget_underflow :
  acquire_maintenance_budget (f64_of_Z 0) 8 (set_tokens 0 io_budget_default) =
    (1%N, set_tokens u64_max io_budget_default).
Proof. vm_compute. reflexivity. Qed.

(** Deleting twice reports success twice. *)
Lemma delete_reports_tombstone :
  ('(_, e) ← engine_run [OpUpsert "a" [1; 0]%N None; OpDelete "a"] (engine_new 2 2 : SampleEngine);
   Some (delete_internal "a" e).1) = Some true.
Proof. vm_compute. reflexivity. Qed.

(** ** Ring *)

Definition three_shards : list RingOp := [AddShard 0%N; AddShard 1%N; AddShard 2%N].

(** "user-1" moves to the shard that is added, "user-3" stays; when shard 2 goes,
    its keys move. *)
Lemma ring_minimal_movement_witness :
  let r := foldl ring_step (ring_new 2%N) three_shards in
  ∃ a b c, ring_shard_for_key "user-1" r = Some (Some a) ∧
    ring_shard_for_key "user-1" (ring_add_shard 3%N r) = Some (Some b) ∧ (b = a ∨ b = 3%N) ∧
    ring_shard_for_key "user-1" (ring_remove_shard 2%N r) = Some (Some c) ∧ (a = 2%N ∨ c = a).
Proof.
  cbv zeta.
  destruct (ring_shard_for_key "user-1" (foldl ring_step (ring_new 2%N) three_shards)) as [[a|]|] eqn:Ha;
    [|vm_compute in Ha; discriminate Ha..].
  destruct (ring_shard_for_key "user-1" (ring_add_shard 3%N (foldl ring_step (ring_new 2%N) three_shards)))
    as [[b|]|] eqn:Hb; [|vm_compute in Hb; discriminate Hb..].
  destruct (ring_shard_for_key "user-1" (ring_remove_shard 2%N (foldl ring_step (ring_new 2%N) three_shards)))
    as [[c|]|] eqn:Hc; [|vm_compute in Hc; discriminate Hc..].
  exists a, b, c. split; [reflexivity|]. split; [reflexivity|]. split.
  - apply (proj1 (ring_minimal_movement 2%N three_shards 3%N "user-1" a b)); [|exact Ha|exact Hb].
    apply (bool_decide_unpack _). vm_compute. exact I.
  - split; [reflexivity|].
    apply (proj2 (ring_minimal_movement 2%N three_shards 2%N "user-1" a c)); [|exact Ha|exact Hc].
    apply (bool_decide_unpack _). vm_compute. exact I.
Defined.

(** ** Topology *)

Lemma topology_routes_witness :
  let t := topology_adds [(7%N, [local_replica 7%N])] (topology_new 1) in
  (∃ s, topology_shard_for_key "k" t = Some s ∧ is_Some (shard_replicas t !! s)) ∧
  num_shards t = (N.of_nat (size (shard_replicas t)) `mod` u32_modulus)%N ∧ topo_epoch t = 2%N.
Proof. apply (topology_routes 1 [(7%N, [local_replica 7%N])] "k"). split; reflexivity. Defined.

#[export] Instance sample_sha : Sha256 := λ bs, bs.

Definition zeros : list byte := replicate 32 x00.
Definition ones : list byte := replicate 32 x01.
Definition sample_manager : TopologyManager :=
  update_local_digest (digest_compute 5 zeros zeros zeros zeros zeros)
    (mkTopologyManager (mkTopology 1 0 (ring_new 1) ∅) None 0).
Definition sample_heartbeat : ClusterHeartbeat :=
  mkHeartbeat "n2" 1 (Some (digest_compute 5 zeros ones zeros zeros zeros)).

Lemma heartbeat_detects_divergence_witness :
  let '(in_sync, m') := handle_heartbeat sample_heartbeat sample_manager in
  (in_sync = true ↔ (5%N, zeros, zeros, zeros, zeros, zeros) = (5%N, zeros, ones, zeros, zeros, zeros)) ∧
  topology m' = topology sample_manager ∧ local_digest m' = local_digest sample_manager ∧
  anti_entropy_triggers m' =
    if in_sync then anti_entropy_triggers sample_manager
    else u64_add (anti_entropy_triggers sample_manager) 1.
Proof.
  apply (heartbeat_detects_divergence sample_manager sample_heartbeat); try reflexivity.
  exact (λ H, H).
Defined.

(** ** Federation *)

Definition event (region doc id : string) (generation : N) : FederatedMutationEvent N :=
  mkEvent id region doc (Some generation) None false (mkClock region generation 0 0).

Definition sample_events : list (FederatedMutationEvent N) :=
  [event "eu" "d" "e1" 1; event "eu" "d" "e2" 2; event "ap" "d" "e3" 7].

Lemma replicas_converge_witness :
  let r1 := deliver (replicator_new "us") sample_events in
  let r2 := deliver (replicator_new "us") (rev sample_events ++ sample_events) in
  latest_clocks r1 = latest_clocks r2 ∧ ∀ d, winner d r1 = winner d r2.
Proof.
  apply (replicas_converge "us").
  - intros ev. rewrite elem_of_app, !list_elem_of_In, <- in_rev. tauto.
  - intros e1 e2 H1 H2 _ Hc. unfold sample_events in *.
    repeat (apply elem_of_cons in H1 as [->|H1]); try (by apply elem_of_nil in H1);
    repeat (apply elem_of_cons in H2 as [->|H2]); try (by apply elem_of_nil in H2);
    first [reflexivity|discriminate Hc].
Defined.

(** The clocks are compared by region name first: a later write of a region that
    sorts lower is dropped for ever. *)
Lemma region_name_wins :
  winner "d" (deliver (replicator_new "us") sample_events) = Some (event "eu" "d" "e2" 2).
Proof. vm_compute. reflexivity. Qed.

(** ** Stream ingestion *)

Definition sample_stream : list (IngestOp N) :=
  [Submit 0 "t" 1 10%N; Submit 1 "t" 17 11%N; Submit 2 "t" 2 12%N; Drain; Submit 3 "t" 33 13%N].

Lemma stream_fifo_witness :
  let r := ingest_run 4 2 0 sample_stream in
  (∀ i q, stripes (run_state r) !! i = Some q →
     filter (in_stripe i) (accepted r) = filter (in_stripe i) (concat (batches r)) ++ q) ∧
  queue_len (run_state r) = N.of_nat (queued (stripes (run_state r))) ∧
  (queue_len (run_state r) ≤ max_queue_capacity (run_state r))%N ∧
  Forall (λ b, (lenN b ≤ batch_flush_size (run_state r))%N) (batches r) ∧
  ∃ b, batches (ingest_step r Drain) = batches r ++ [b] ∧
    ((lenN b < batch_flush_size (run_state r))%N →
     queue_len (run_state (ingest_step r Drain)) = 0%N).
Proof. apply (stream_fifo 4 2 0 sample_stream). vm_compute. reflexivity. Defined.

#[local] Existing Instance canonical_order.

Definition sample_upsert (mid : MutationId) (id : string) (v : list N) : string := id.
Definition sample_delete (mid : MutationId) (id : string) : string := id.
Definition sample_machine (s : Ring.ShardId) (e : SampleEngine) : list (N * string) := [].

Abbreviation SampleCoordinator := (DistributedCoordinator (V := list N) (T := list N) (P := unit)
  (B := gset N) (MV := N) (M := list (N * string)) (D := string) (F := unit)).

Definition sample_coordinator : SampleCoordinator := new_with_cluster sample_machine 2 1 8 ∅.
Definition migrated_coordinator : SampleCoordinator := (execute_migration 1 0%N 1%N sample_coordinator).2.

Lemma epoch_fencing_witness :
  propose_insert_fenced sample_upsert 0 "m" "doc" [1; 2]%N (Some 1%N) migrated_coordinator =
    Some (Err (Internal "Stale topology epoch"), migrated_coordinator).
Proof.
  refine (epoch_fencing sample_machine sample_upsert sample_delete 2 1 8 ∅ 0 sample_coordinator 1 migrated_coordinator
            0 "m" "doc" [1; 2]%N _ _ _).
  - apply steps_refl.
  - eapply (steps_next _ _ _ 0%N _ 1%N); [apply steps_refl|].
    apply (step_migrate _ _ 1%N 0%N 1%N _ (Ok tt)). reflexivity.
  - reflexivity.
Defined.
