(* ===== verification/Incidence.v ===== *)
(** The incidence index of the hypergraph (src/relation/incidence.rs): postings of
    relations by type, role and entity, and their intersection by a leapfrog join
    over cursors with galloping search.

    A panic is [None] of the outer [option]; the loops carry fuel, and the theorems
    show that the fuel given is enough. *)

From Stdlib Require Import ZArith.
From stdpp Require Import base gmap sets numbers list sorting fin_maps.
From S2P Require Import Prelude.
From S2P Require Import Order.

(** ** Postings *)

Record IncidenceKey := mkIncidence { ik_type : N; ik_role : N; ik_entity : N }.
#[export] Instance IncidenceKey_eq_dec : EqDecision IncidenceKey.
Proof. solve_decision. Defined.
#[export] Instance IncidenceKey_countable : Countable IncidenceKey.
Proof.
  refine (inj_countable' (λ k, (ik_type k, ik_role k, ik_entity k)) (λ '(t, r, e), mkIncidence t r e) _). by intros [].
Defined.

Abbreviation IncidenceIndex := (gmap IncidenceKey (list N)).
(** [list.binary_search(&relation)], then [list.insert(pos, relation)] *)
Definition incidence_posting_insert (relation : N) (l : list N) : option (list N) :=
  r ← binary_search_by_key (λ x, x) relation l;
  Some match r with Ok _ => l | Err pos => take pos l ++ relation :: drop pos l end.
Definition incidence_insert (type_id role_id entity relation : N) (i : IncidenceIndex) : option IncidenceIndex :=
  let key := mkIncidence type_id role_id entity in
  l ← incidence_posting_insert relation (default [] (i !! key));
  Some (<[key := l]> i).
Definition incidence_lookup (type_id role_id entity : N) (i : IncidenceIndex) : list N :=
  default [] (i !! mkIncidence type_id role_id entity).

(** ** Cursors *)

Record IncidencePostingCursor := mkCursor { cursor_slice : list N; cursor_pos : nat }.
Definition at_end (c : IncidencePostingCursor) : bool := (length (cursor_slice c) <=? cursor_pos c)%nat.
Definition cursor_key (c : IncidencePostingCursor) : option N := cursor_slice c !! cursor_pos c.
Definition cursor_next (c : IncidencePostingCursor) : IncidencePostingCursor :=
  mkCursor (cursor_slice c) (S (cursor_pos c)).

(** [while curr < len && slice[curr] < target]; [pos], and [prev] and [curr] *)
Fixpoint cursor_gallop (fuel : nat) (s : list N) (target : N) (pos jump prev curr : nat) : option (nat * nat) :=
  match fuel with
  | O => None
  | S fuel =>
      match s !! curr with
      | Some x => if (x <? target)%N then cursor_gallop fuel s target pos (jump * 2) curr (pos + jump * 2) else Some (prev, curr)
      | None => Some (prev, curr)
      end
  end.
Definition seek (target : N) (c : IncidencePostingCursor) : option IncidencePostingCursor :=
  if at_end c then Some c
  else
    k ← cursor_key c;
    if (target <=? k)%N then Some c
    else
      let s := cursor_slice c in
      '(prev, curr) ← cursor_gallop (S (length s)) s target (cursor_pos c) 1 (cursor_pos c) (cursor_pos c + 1);
      let high := (curr `min` length s)%nat in
      r ← binary_search_by_key (λ x, x) target (take (high - prev) (drop prev s));
      Some (mkCursor s (prev + match r with Ok i => i | Err i => i end)).

(** ** The join *)

Record LeapfrogIncidenceIterator := mkLeapfrog {
  iterators : list IncidencePostingCursor;
  lf_p : nat;
  max_key : N;
  initialized : bool
}.

Definition key_le (a b : IncidencePostingCursor) : Prop := (default 0 (cursor_key a) ≤ default 0 (cursor_key b))%N.
#[export] Instance key_le_dec : RelDecision key_le.
Proof. intros a b. unfold key_le. apply _. Defined.

(** [Some None]: a posting is empty.  The cursors are sorted by their first key. *)
Definition leapfrog_new (postings : list (list N)) : option (option LeapfrogIncidenceIterator) :=
  if bool_decide (postings = []) || existsb (λ p, bool_decide (p = [])) postings then Some None
  else
    let cursors := merge_sort key_le ((λ s, mkCursor s 0) <$> postings) in
    l ← last cursors;
    k ← cursor_key l;
    Some (Some (mkLeapfrog cursors 0 k false)).

(** One round of the loop: a match, the end, or another round *)
Definition leapfrog_round (it : LeapfrogIncidenceIterator) : option (option (option N) * LeapfrogIncidenceIterator) :=
  let k := length (iterators it) in
  c ← iterators it !! lf_p it;
  cur ← cursor_key c;
  if (cur =? max_key it)%N then Some (Some (Some (max_key it)), it)
  else
    c' ← seek (max_key it) c;
    let its := <[lf_p it := c']> (iterators it) in
    if at_end c' then Some (Some None, mkLeapfrog its (lf_p it) (max_key it) (initialized it))
    else
      m ← cursor_key c';
      Some (None, mkLeapfrog its ((lf_p it + 1) mod k) m (initialized it)).
Fixpoint leapfrog_search (fuel : nat) (it : LeapfrogIncidenceIterator) : option (option N * LeapfrogIncidenceIterator) :=
  match fuel with
  | O => None
  | S fuel =>
      '(r, it) ← leapfrog_round it;
      match r with Some r => Some (r, it) | None => leapfrog_search fuel it end
  end.

(** The keys that the cursors have left: every round that goes on consumes one. *)
Definition keys_left (it : LeapfrogIncidenceIterator) : nat :=
  sum_list ((λ c, length (cursor_slice c) - cursor_pos c)%nat <$> iterators it).

Definition leapfrog_next (it : LeapfrogIncidenceIterator) : option (option N * LeapfrogIncidenceIterator) :=
  let k := length (iterators it) in
  if bool_decide (k = 0%nat) then Some (None, it)
  else if negb (initialized it) then
    let it := mkLeapfrog (iterators it) (lf_p it) (max_key it) true in
    leapfrog_search (S (keys_left it)) it
  else
    c ← iterators it !! lf_p it;
    let c := cursor_next c in
    let its := <[lf_p it := c]> (iterators it) in
    if at_end c then Some (None, mkLeapfrog its (lf_p it) (max_key it) true)
    else
      m ← cursor_key c;
      let it := mkLeapfrog its ((lf_p it + 1) mod k) m true in
      leapfrog_search (S (keys_left it)) it.

(** [while let Some(matched) = leapfrog_next() { results.push(matched) }] *)
Fixpoint leapfrog_collect (fuel : nat) (it : LeapfrogIncidenceIterator) : option (list N) :=
  match fuel with
  | O => None
  | S fuel =>
      '(r, it) ← leapfrog_next it;
      match r with
      | Some x => xs ← leapfrog_collect fuel it; Some (x :: xs)
      | None => Some []
      end
  end.
Definition leapfrog_intersect (postings : list (list N)) : option (list N) :=
  match postings with
  | [] => Some []
  | [p] => Some p
  | _ =>
      it ← leapfrog_new postings;
      match it with
      | None => Some []
      | Some it => leapfrog_collect (S (S (keys_left it))) it
      end
  end.
Definition intersect_postings (postings : list (list N)) : option (list N) :=
  match postings with
  | [] => Some []
  | [p] => Some p
  | _ => if existsb (λ p, bool_decide (p = [])) postings then Some [] else leapfrog_intersect postings
  end.

Definition leapfrog_join (type_id : N) (bindings : list (N * N)) (i : IncidenceIndex) : option (list N) :=
  match bindings with
  | [] => Some []
  | _ => intersect_postings ((λ '(role, entity), incidence_lookup type_id role entity i) <$> bindings)
  end.

Example gallops : (cursor_key <$> seek 25 (mkCursor [10; 20; 30; 100; 500] 0))%N = Some (Some 30%N).
Proof. vm_compute. reflexivity. Qed.
Example three_way : intersect_postings [[1; 5; 10; 20; 50]; [2; 5; 10; 30; 50]; [5; 10; 15; 50; 99]]%N = Some [5; 10; 50]%N.
Proof. vm_compute. reflexivity. Qed.

(** ** Seeking *)

Abbreviation increasing l := (StronglySorted N.lt l).

Lemma increasing_le l : increasing l → StronglySorted (λ x y, (x ≤ y)%N) l.
Proof. induction 1 as [|x l _ IH Hx]; constructor; [done|]. apply (Forall_impl _ _ _ Hx). intros. lia. Qed.

Lemma increasing_lookup l i j x y : increasing l → (i < j)%nat → l !! i = Some x → l !! j = Some y → (x < y)%N.
Proof.
  intros Hs. revert i j. induction Hs as [|z l _ IH Hz]; intros i j Hij Hx Hy; [done|].
  destruct j as [|j]; [lia|]. destruct i as [|i]; cbn in Hx, Hy; simplify_eq.
  - rewrite Forall_lookup in Hz. eauto.
  - apply (IH i j); [lia|done..].
Qed.

Lemma increasing_le_lookup l i j x y : increasing l → (i ≤ j)%nat → l !! i = Some x → l !! j = Some y → (x ≤ y)%N.
Proof.
  intros Hs Hij Hx Hy. destruct (decide (i = j)) as [->|]; [simplify_eq; lia|].
  pose proof (increasing_lookup l i j x y Hs ltac:(lia) Hx Hy). lia.
Qed.

Lemma increasing_drop n l : increasing l → increasing (drop n l).
Proof. revert l. induction n as [|n IH]; intros l Hl; [done|]. destruct Hl; [constructor|]. by apply IH. Qed.

Lemma binary_search_bound b (l : list N) i : binary_search_by_key (λ x, x) b l = Some (Err i) → (i ≤ length l)%nat.
Proof.
  unfold binary_search_by_key. destruct l as [|x l]; [intros [= <-]; lia|].
  destruct (binary_search_loop _ _ _ _ _ _) as [base|]; [|done]. cbn [mbind option_bind].
  destruct ((x :: l) !! base) as [y|] eqn:E; [|done]. apply lookup_lt_Some in E. cbn.
  destruct (y =? b)%N; [done|]. intros [= <-]. cbn in E. destruct (y <? b)%N; lia.
Qed.

Lemma gallop_spec s target pos fuel : ∀ jump prev, (0 < jump)%nat → (pos ≤ prev < pos + jump)%nat →
  (length s - (pos + jump) < fuel)%nat → (∃ y, s !! prev = Some y ∧ (y < target)%N) →
  ∃ prev' curr', cursor_gallop fuel s target pos jump prev (pos + jump) = Some (prev', curr') ∧ (pos ≤ prev' < curr')%nat ∧
    (∃ y, s !! prev' = Some y ∧ (y < target)%N) ∧ (∀ y, s !! curr' = Some y → (target ≤ y)%N).
Proof.
  induction fuel as [|fuel IH]; intros jump prev Hj Hp Hf Hy; [lia|]. cbn [cursor_gallop].
  destruct (s !! (pos + jump)%nat) as [x|] eqn:E.
  2: { exists prev, (pos + jump)%nat. split_and!; [done|lia|lia|done|]. intros y. by rewrite E. }
  destruct (N.ltb_spec x target).
  - pose proof (lookup_lt_Some _ _ _ E). apply (IH (jump * 2)%nat (pos + jump)%nat); [lia|lia|lia|eauto].
  - exists prev, (pos + jump)%nat. split_and!; [done|lia|lia|done|]. intros y. rewrite E. by intros [= <-].
Qed.

Definition rem (c : IncidencePostingCursor) : list N := drop (cursor_pos c) (cursor_slice c).

Lemma filter_split target (l : list N) k :
  (∀ i x, (i < k)%nat → l !! i = Some x → (x < target)%N) → (∀ i x, (k ≤ i)%nat → l !! i = Some x → (target ≤ x)%N) →
  filter (λ x, (target ≤ x)%N) l = drop k l.
Proof.
  intros Hlo Hhi. rewrite <- (take_drop k l) at 1. rewrite filter_app.
  rewrite filter_nil_all, filter_all; [done| |]; intros x [i Hx]%list_elem_of_lookup.
  - rewrite lookup_drop in Hx. apply (Hhi (k + i)%nat); [lia|done].
  - pose proof (lookup_lt_Some _ _ _ Hx) as Hi. rewrite length_take in Hi.
    rewrite lookup_take_lt in Hx by lia. pose proof (Hlo i x ltac:(lia) Hx). lia.
Qed.

(** A cursor that seeks is left with the keys that are not below the target. *)
Lemma seek_spec target c : increasing (cursor_slice c) →
  ∃ c', seek target c = Some c' ∧ cursor_slice c' = cursor_slice c ∧ rem c' = filter (λ x, (target ≤ x)%N) (rem c).
Proof.
  intros Hs. destruct c as [s pos]. unfold seek, at_end, cursor_key, rem. cbn [cursor_slice cursor_pos] in *.
  assert (∀ new, (pos ≤ new)%nat → (∀ i x, (pos ≤ i < new)%nat → s !! i = Some x → (x < target)%N) →
    (∀ i x, (new ≤ i)%nat → s !! i = Some x → (target ≤ x)%N) →
    drop new s = filter (λ x, (target ≤ x)%N) (drop pos s)) as Hnew.
  { intros new Hle Hlo Hhi. rewrite (filter_split target _ (new - pos)).
    - rewrite drop_drop. f_equal. lia.
    - intros i x Hi Hx. rewrite lookup_drop in Hx. apply (Hlo (pos + i)%nat); [lia|done].
    - intros i x Hi Hx. rewrite lookup_drop in Hx. apply (Hhi (pos + i)%nat); [lia|done]. }
  destruct (Nat.leb_spec (length s) pos) as [Hend|Hend].
  { eexists. split; [done|]. cbn. split; [done|]. apply Hnew; [done|lia|]. intros i x Hi Hx%lookup_lt_Some. lia. }
  destruct (lookup_lt_is_Some_2 s pos Hend) as [k Hk]. rewrite Hk. cbn [mbind option_bind].
  destruct (N.leb_spec target k) as [Htk|Htk].
  { eexists. split; [done|]. cbn. split; [done|]. apply Hnew; [done|lia|]. intros i x Hi Hx.
    pose proof (increasing_le_lookup s pos i k x Hs Hi Hk Hx). lia. }
  destruct (gallop_spec s target pos (S (length s)) 1 pos) as (prev & curr & -> & Hle & (y & Hy & Hyt) & Hc);
    [lia|lia|lia|eauto|]. cbn [mbind option_bind].
  set (high := (curr `min` length s)%nat). set (w := take (high - prev) (drop prev s)).
  assert (∀ j, (j < high - prev)%nat → w !! j = s !! (prev + j)%nat) as Hw.
  { intros j Hj. unfold w. rewrite lookup_take_lt by done. by rewrite lookup_drop. }
  assert (length w = high - prev)%nat as Hlw by (unfold w; rewrite length_take, length_drop; lia).
  assert (∀ i x, (high ≤ i)%nat → s !! i = Some x → (target ≤ x)%N) as Hafter.
  { intros i x Hi Hx. pose proof (lookup_lt_Some _ _ _ Hx) as Hlt. destruct (lookup_lt_is_Some_2 s curr) as [z Hz]; [lia|].
    pose proof (Hc z Hz). pose proof (increasing_le_lookup s curr i z x Hs ltac:(lia) Hz Hx). lia. }
  assert (∀ i x, (i ≤ prev)%nat → s !! i = Some x → (x < target)%N) as Hbefore.
  { intros i x Hi Hx. pose proof (increasing_le_lookup s i prev x y Hs Hi Hx Hy). lia. }
  assert (increasing w) as Hsw.
  { apply (increasing_drop prev) in Hs. rewrite <- (take_drop (high - prev) (drop prev s)) in Hs.
    by apply StronglySorted_app_1_l in Hs. }
  destruct (binary_search_spec (λ x, x) target w (increasing_le w Hsw)) as (r & Er & Hr). rewrite Er. cbn [mbind option_bind].
  eexists. split; [reflexivity|]. cbn [cursor_slice cursor_pos]. split; [done|]. destruct r as [i|i].
  - destruct Hr as (x & Hx & ->). pose proof (lookup_lt_Some _ _ _ Hx) as Hi. rewrite Hw in Hx by lia. apply Hnew; [lia| |].
    + intros j z Hj Hz. apply (increasing_lookup s j (prev + i)%nat z target); [done|lia|done|done].
    + intros j z Hj Hz. exact (increasing_le_lookup s (prev + i)%nat j target z Hs Hj Hx Hz).
  - pose proof (binary_search_bound _ _ _ Er) as Hi. destruct Hr as [Hlo Hhi]. apply Hnew; [lia| |].
    + intros j z Hj Hz. destruct (decide (j ≤ prev)%nat); [eauto|]. apply (Hlo (j - prev)%nat); [lia|].
      rewrite Hw by lia. rewrite <- Hz. f_equal. lia.
    + intros j z Hj Hz. destruct (decide (high ≤ j)%nat); [eauto|]. apply N.lt_le_incl. apply (Hhi (j - prev)%nat); [lia|].
      rewrite Hw by lia. rewrite <- Hz. f_equal. lia.
Qed.

(** ** The join finds the common keys *)

Definition rot (it : LeapfrogIncidenceIterator) : list IncidencePostingCursor :=
  drop (lf_p it) (iterators it) ++ take (lf_p it) (iterators it).
(** The cursors in the order of the rounds, from [lf_p] on: their keys increase up to
    [max_key]. *)
Record lf_inv (it : LeapfrogIncidenceIterator) : Prop := {
  lf_bound : (lf_p it < length (iterators it))%nat;
  lf_cursors : ∀ c, c ∈ iterators it → increasing (cursor_slice c) ∧ is_Some (cursor_key c);
  lf_sorted : StronglySorted key_le (rot it);
  lf_last : ∃ c, last (rot it) = Some c ∧ cursor_key c = Some (max_key it)
}.
Definition common (it : LeapfrogIncidenceIterator) (x : N) : Prop := ∀ c, c ∈ iterators it → x ∈ rem c.

Lemma rem_key c k : cursor_key c = Some k → rem c = k :: drop 1 (rem c).
Proof.
  unfold cursor_key, rem. intros Hk. rewrite (drop_S _ _ _ Hk). done.
Qed.

Lemma rem_end c : at_end c = true ↔ rem c = [].
Proof.
  unfold at_end, rem. rewrite Nat.leb_le. split; [apply drop_ge|]. intros E%(f_equal length).
  rewrite length_drop in E. cbn in E. lia.
Qed.

Lemma not_at_end c : at_end c = false → is_Some (cursor_key c).
Proof. unfold at_end, cursor_key. intros H%Nat.leb_gt. by apply lookup_lt_is_Some. Qed.

Lemma key_not_end c k : cursor_key c = Some k → at_end c = false.
Proof. unfold at_end, cursor_key. intros H%lookup_lt_Some. by apply Nat.leb_gt. Qed.

Lemma key_least c k x : increasing (cursor_slice c) → cursor_key c = Some k → x ∈ rem c → (k ≤ x)%N.
Proof.
  intros Hs Hk Hx. pose proof (increasing_drop (cursor_pos c) _ Hs) as Hr. fold (rem c) in Hr.
  rewrite (rem_key c k Hk) in Hr, Hx. apply elem_of_cons in Hx as [->|Hx]; [lia|].
  apply StronglySorted_inv in Hr as [_ Hr]. rewrite Forall_forall in Hr. specialize (Hr x Hx). lia.
Qed.

Lemma key_in_rem c k : cursor_key c = Some k → k ∈ rem c.
Proof. intros Hk. rewrite (rem_key c k Hk). by left. Qed.

Lemma rot_perm it : rot it ≡ₚ iterators it.
Proof. unfold rot. rewrite Permutation_app_comm. by rewrite take_drop. Qed.

Lemma elem_of_rot it c : c ∈ rot it ↔ c ∈ iterators it.
Proof. by rewrite rot_perm. Qed.

Lemma rot_head it c : iterators it !! lf_p it = Some c →
  rot it = c :: drop (S (lf_p it)) (iterators it) ++ take (lf_p it) (iterators it).
Proof. intros Hc. unfold rot. by rewrite (drop_S _ _ _ Hc). Qed.

Lemma rot_step its p c c' m b : its !! p = Some c →
  rot (mkLeapfrog (<[p := c']> its) ((p + 1) mod length its) m b) = (drop (S p) its ++ take p its) ++ [c'].
Proof.
  intros Hc. pose proof (lookup_lt_Some _ _ _ Hc) as Hp. unfold rot. cbn [lf_p iterators].
  destruct (decide (p + 1 = length its)%nat) as [E|].
  - rewrite E, Nat.Div0.mod_same. cbn [take drop]. rewrite app_nil_r, (drop_ge its (S p)) by lia. cbn [app].
    rewrite insert_take_drop by done. by rewrite (drop_ge its (S p)) by lia.
  - rewrite Nat.mod_small, Nat.add_1_r by lia. rewrite drop_insert_lt by lia.
    rewrite (take_S_r _ _ c') by (apply list_lookup_insert_eq; lia). rewrite take_insert_ge by lia. by rewrite app_assoc.
Qed.

Lemma lf_le it c k : lf_inv it → c ∈ iterators it → cursor_key c = Some k → (k ≤ max_key it)%N.
Proof.
  intros [_ _ Hs [l [Hl Hk']]] Hc Hk. apply elem_of_rot in Hc. apply last_Some in Hl as [pre E]. rewrite E in Hs, Hc.
  apply elem_of_app in Hc as [Hc| ->%list_elem_of_singleton]; [|simplify_eq; lia].
  pose proof (StronglySorted_app_1_elem_of _ _ _ c l Hs Hc ltac:(by left)) as H. unfold key_le in H. by rewrite Hk, Hk' in H.
Qed.

Lemma common_ge it x : lf_inv it → common it x → (max_key it ≤ x)%N.
Proof.
  intros [_ Hc _ [l [Hl Hk]]] Hx. apply last_Some in Hl as [pre E].
  assert (l ∈ iterators it) as Hin by (apply elem_of_rot; rewrite E; set_solver).
  apply (key_least l); [by apply Hc|done|by apply Hx].
Qed.

Lemma keys_left_rem it : keys_left it = sum_list ((λ c, length (rem c)) <$> iterators it).
Proof. unfold keys_left, rem. f_equal. apply list_fmap_ext. intros i c _. by rewrite length_drop. Qed.

Lemma sum_insert (f : IncidencePostingCursor → nat) its (p : nat) c c' : its !! p = Some c →
  (sum_list (f <$> <[p := c']> its) + f c = sum_list (f <$> its) + f c')%nat.
Proof.
  revert p. induction its as [|x its IH]; intros [|p] Hc; try done; csimpl in *; [simplify_eq; lia|]. specialize (IH p Hc). lia.
Qed.

Lemma elem_of_insert_cases (its : list IncidencePostingCursor) (p : nat) c d : d ∈ <[p := c]> its → d = c ∨ d ∈ its.
Proof.
  intros [i Hi]%list_elem_of_lookup. destruct (decide (i = p)) as [->|].
  - pose proof (lookup_lt_Some _ _ _ Hi) as Hlt. rewrite length_insert in Hlt. rewrite list_lookup_insert_eq in Hi by done. naive_solver.
  - rewrite list_lookup_insert_ne in Hi by done. right. by apply list_elem_of_lookup_2 in Hi.
Qed.

(** Putting a cursor that moved behind the others *)
Lemma lf_step it c c' m : lf_inv it → iterators it !! lf_p it = Some c → cursor_slice c' = cursor_slice c →
  cursor_key c' = Some m → (max_key it ≤ m)%N →
  lf_inv (mkLeapfrog (<[lf_p it := c']> (iterators it)) ((lf_p it + 1) mod length (iterators it)) m (initialized it)).
Proof.
  intros Hinv Hc Hsl Hm Hle. pose proof Hinv as [Hb Hcs Hs _]. split; cbn [iterators lf_p max_key].
  - rewrite length_insert. apply Nat.mod_upper_bound. lia.
  - intros d [->|Hd]%elem_of_insert_cases; [|by apply Hcs]. rewrite Hsl, Hm. split; [|eauto].
    apply Hcs. by apply list_elem_of_lookup_2 in Hc.
  - rewrite (rot_step _ _ c) by done. rewrite (rot_head it c Hc) in Hs. apply StronglySorted_inv in Hs as [Hs _].
    apply StronglySorted_app. split_and!; [|done|by repeat constructor].
    intros d e Hd ->%list_elem_of_singleton. unfold key_le. rewrite Hm. cbn.
    assert (d ∈ iterators it) as Hin.
    { apply elem_of_rot. rewrite (rot_head it c Hc). by right. }
    destruct (Hcs d Hin) as [_ [k Hk]]. rewrite Hk. cbn. pose proof (lf_le it d k Hinv Hin Hk). lia.
  - exists c'. rewrite (rot_step _ _ c) by done. by rewrite last_snoc.
Qed.

(** What the cursors have in common once one of them has moved *)
Lemma common_moved it c c' p m b x : iterators it !! lf_p it = Some c → (∀ y, y ∈ rem c' → y ∈ rem c) →
  common (mkLeapfrog (<[lf_p it := c']> (iterators it)) p m b) x ↔ common it x ∧ x ∈ rem c'.
Proof.
  intros Hc Hsub. unfold common. cbn [iterators]. split.
  - intros Hx. assert (x ∈ rem c') as Hc'.
    { apply Hx. apply (list_elem_of_lookup_2 _ (lf_p it)). apply list_lookup_insert_eq. by apply lookup_lt_Some in Hc. }
    split; [|done]. intros d [i Hi]%list_elem_of_lookup. destruct (decide (i = lf_p it)) as [->|Hne]; [simplify_eq; by apply Hsub|].
    apply Hx. apply (list_elem_of_lookup_2 _ i). by rewrite list_lookup_insert_ne.
  - intros [Hx Hc'] d [->|Hd]%elem_of_insert_cases; [done|by apply Hx].
Qed.

(** A round finds that all cursors agree, that a cursor has come to its end, or moves
    the least cursor without losing a common key. *)
Lemma round_spec it : lf_inv it → ∃ r it', leapfrog_round it = Some (r, it') ∧
  match r with
  | Some (Some m) => it' = it ∧ m = max_key it ∧ ∀ c, c ∈ iterators it → cursor_key c = Some m
  | Some None => ∀ x, ¬ common it x
  | None => lf_inv it' ∧ (keys_left it' < keys_left it)%nat ∧ initialized it' = initialized it ∧ ∀ x, common it' x ↔ common it x
  end.
Proof.
  intros Hinv. pose proof Hinv as [Hb Hcs Hs _]. destruct (lookup_lt_is_Some_2 _ _ Hb) as [c Hc].
  assert (c ∈ iterators it) as Hin by by apply list_elem_of_lookup_2 in Hc.
  destruct (Hcs c Hin) as [Hinc [cur Hcur]]. unfold leapfrog_round. rewrite Hc. cbn [mbind option_bind]. rewrite Hcur. cbn [mbind option_bind].
  pose proof (lf_le it c cur Hinv Hin Hcur) as Hle. destruct (N.eqb_spec cur (max_key it)) as [->|Hne].
  { eexists _, it. split; [reflexivity|]. cbn. split_and!; [done|done|]. intros d Hd. destruct (Hcs d Hd) as [_ [k Hk]].
    rewrite Hk. f_equal. pose proof (lf_le it d k Hinv Hd Hk). rewrite (rot_head it c Hc) in Hs.
    apply elem_of_rot in Hd. rewrite (rot_head it c Hc) in Hd. apply elem_of_cons in Hd as [->|Hd]; [congruence|].
    apply StronglySorted_inv in Hs as [_ Hs]. rewrite Forall_forall in Hs. specialize (Hs d Hd). unfold key_le in Hs.
    rewrite Hk, Hcur in Hs. cbn in Hs. lia. }
  destruct (seek_spec (max_key it) c Hinc) as (c' & -> & Hsl & Hrem). cbn [mbind option_bind].
  assert (∀ x, common it x → x ∈ rem c') as Hkeep.
  { intros x Hx. rewrite Hrem. apply list_elem_of_filter. split; [by apply common_ge|by apply Hx]. }
  destruct (at_end c') eqn:Eend.
  { eexists _, _. split; [reflexivity|]. cbn. intros x Hx. apply rem_end in Eend. specialize (Hkeep x Hx). rewrite Eend in Hkeep. by apply elem_of_nil in Hkeep. }
  destruct (not_at_end c' Eend) as [m Hm]. rewrite Hm. cbn [mbind option_bind]. eexists _, _. split; [reflexivity|]. cbn beta iota.
  assert (max_key it ≤ m)%N as Hmm.
  { pose proof (key_in_rem c' m Hm) as H. rewrite Hrem in H. by apply list_elem_of_filter in H as [? _]. }
  split_and!; [by apply (lf_step it c)| |done|].
  - rewrite !keys_left_rem. cbn [iterators].
    pose proof (sum_insert (λ c, length (rem c)) (iterators it) (lf_p it) c c' Hc) as E. cbv beta in E.
    assert (length (rem c') < length (rem c))%nat; [|lia].
    rewrite Hrem. rewrite (rem_key c cur Hcur). rewrite filter_cons_False by lia. cbn.
    pose proof (length_filter (λ x, (max_key it ≤ x)%N) (drop 1 (rem c))). lia.
  - intros x. rewrite (common_moved it c c') by (try done; intros y; rewrite Hrem; by intros [_ ?]%list_elem_of_filter).
    split; [by intros [? _]|]. intros Hx. split; [done|by apply Hkeep].
Qed.

Lemma search_spec fuel : ∀ it, lf_inv it → (keys_left it < fuel)%nat →
  ∃ r it', leapfrog_search fuel it = Some (r, it') ∧
  match r with
  | Some m => lf_inv it' ∧ (keys_left it' ≤ keys_left it)%nat ∧ initialized it' = initialized it ∧ m = max_key it' ∧
      (∀ c, c ∈ iterators it' → cursor_key c = Some m) ∧ ∀ x, common it' x ↔ common it x
  | None => ∀ x, ¬ common it x
  end.
Proof.
  induction fuel as [|fuel IH]; intros it Hinv Hf; [lia|]. cbn [leapfrog_search].
  destruct (round_spec it Hinv) as (r & it' & -> & Hr). cbn [mbind option_bind]. destruct r as [[m|]|].
  - destruct Hr as (-> & -> & Hk). eexists _, _. split; [reflexivity|]. by split_and!.
  - by eexists _, _.
  - destruct Hr as (Hinv' & Hlt & Hi & Hc). destruct (IH it' Hinv' ltac:(lia)) as (r & it2 & -> & H2).
    eexists _, _. split; [reflexivity|]. destruct r as [m|].
    + destruct H2 as (? & ? & ? & ? & ? & Hc2). split_and!; [done|lia|congruence|done|done|]. intros x. by rewrite Hc2.
    + intros x Hx. apply (H2 x). by apply Hc.
Qed.

(** After a match, the common keys but that one are left. *)
Lemma next_spec it m : lf_inv it → initialized it = true → m = max_key it → (∀ c, c ∈ iterators it → cursor_key c = Some m) →
  ∃ r it', leapfrog_next it = Some (r, it') ∧
  match r with
  | Some m' => lf_inv it' ∧ (keys_left it' < keys_left it)%nat ∧ initialized it' = true ∧ m' = max_key it' ∧
      (∀ c, c ∈ iterators it' → cursor_key c = Some m') ∧ ∀ x, common it' x ↔ common it x ∧ x ≠ m
  | None => ∀ x, common it x → x = m
  end.
Proof.
  intros Hinv Hi Hm Hk. pose proof Hinv as [Hb Hcs _ _]. destruct (lookup_lt_is_Some_2 _ _ Hb) as [c Hc].
  assert (c ∈ iterators it) as Hin by by apply list_elem_of_lookup_2 in Hc.
  unfold leapfrog_next. rewrite bool_decide_false by lia. rewrite Hi. cbn [negb]. rewrite Hc. cbn [mbind option_bind].
  assert (rem (cursor_next c) = drop 1 (rem c)) as Hrem.
  { unfold rem, cursor_next. cbn [cursor_slice cursor_pos]. rewrite drop_drop. f_equal. lia. }
  pose proof (rem_key c m (Hk c Hin)) as Hkey. destruct (Hcs c Hin) as [Hinc _].
  pose proof (increasing_drop (cursor_pos c) _ Hinc) as Hs. fold (rem c) in Hs. rewrite Hkey in Hs.
  apply StronglySorted_inv in Hs as [_ Hgt]. rewrite Forall_forall in Hgt.
  assert (∀ x, common it x → x = m ∨ x ∈ rem (cursor_next c)) as Hrest.
  { intros x Hx. specialize (Hx c Hin). rewrite Hkey in Hx. rewrite Hrem. by apply elem_of_cons in Hx. }
  destruct (at_end (cursor_next c)) eqn:Eend.
  { eexists _, _. split; [reflexivity|]. cbn beta iota. intros x Hx. apply rem_end in Eend. rewrite Eend in Hrest.
    destruct (Hrest x Hx) as [?|?%elem_of_nil]; [done|done]. }
  destruct (not_at_end _ Eend) as [k Hnk]. rewrite Hnk. cbn [mbind option_bind].
  assert (m < k)%N as Hmk by (apply Hgt; rewrite <- Hrem; by apply key_in_rem).
  pose proof (lf_step it c (cursor_next c) k Hinv Hc eq_refl Hnk ltac:(lia)) as Hinv'. rewrite Hi in Hinv'.
  set (it1 := mkLeapfrog _ _ _ _) in *. destruct (search_spec (S (keys_left it1)) it1 Hinv' ltac:(lia)) as (r & it2 & E & H2).
  exists r, it2. split; [exact E|].
  assert (∀ x, common it1 x ↔ common it x ∧ x ≠ m) as Hcm.
  { intros x. unfold it1. rewrite (common_moved it c) by (try done; intros y; rewrite Hrem, Hkey; intros ?; by right).
    split; intros [Hx Hy]; (split; [done|]).
    - intros ->. rewrite Hrem in Hy. specialize (Hgt m Hy). lia.
    - by destruct (Hrest x Hx). }
  destruct r as [m'|].
  - destruct H2 as (? & ? & ? & ? & ? & Hc2). split_and!; [done| |done|done|done|].
    + enough (keys_left it1 < keys_left it)%nat by lia. rewrite !keys_left_rem. unfold it1. cbn [iterators].
      pose proof (sum_insert (λ c, length (rem c)) (iterators it) (lf_p it) c (cursor_next c) Hc) as Es. cbv beta in Es.
      rewrite Hrem in Es. pose proof (f_equal length Hkey) as El. cbn [length] in El. lia.
    + intros x. by rewrite Hc2, Hcm.
  - intros x Hx. destruct (decide (x = m)); [done|]. exfalso. apply (H2 x). by apply Hcm.
Qed.

Lemma collect_spec fuel : ∀ it m, lf_inv it → initialized it = true → m = max_key it →
  (∀ c, c ∈ iterators it → cursor_key c = Some m) → (keys_left it < fuel)%nat →
  ∃ xs, leapfrog_collect fuel it = Some xs ∧ increasing xs ∧ ∀ x, x ∈ xs ↔ common it x ∧ x ≠ m.
Proof.
  induction fuel as [|fuel IH]; intros it m Hinv Hi Hm Hk Hf; [lia|]. cbn [leapfrog_collect].
  destruct (next_spec it m Hinv Hi Hm Hk) as (r & it' & -> & Hr). cbn [mbind option_bind]. destruct r as [m'|].
  - destruct Hr as (Hinv' & Hlt & Hi' & Hm' & Hk' & Hc).
    destruct (IH it' m' Hinv' Hi' Hm' Hk' ltac:(lia)) as (xs & -> & Hs & Hx). cbn [mbind option_bind].
    assert (common it' m') as Hcm by (intros c Hc'; apply key_in_rem; by apply Hk').
    exists (m' :: xs). split; [done|]. split.
    + constructor; [done|]. apply Forall_forall. intros x [Hx1 Hx2]%Hx. pose proof (common_ge it' x Hinv' Hx1). lia.
    + intros x. rewrite elem_of_cons, Hx, <- Hc. destruct (decide (x = m')) as [->|]; naive_solver.
  - exists []. split; [done|]. split; [constructor|]. intros x. split; [by intros ?%elem_of_nil|].
    intros [Hx Hne]. by destruct Hne; apply Hr.
Qed.

#[local] Instance key_le_total : Total key_le.
Proof. intros a b. unfold key_le. lia. Qed.
#[local] Instance key_le_trans : Transitive key_le.
Proof. intros a b c. unfold key_le. lia. Qed.

Lemma new_spec postings : postings ≠ [] → (∀ p, p ∈ postings → increasing p ∧ p ≠ []) →
  ∃ it, leapfrog_new postings = Some (Some it) ∧ lf_inv it ∧ initialized it = false ∧
    ∀ x, common it x ↔ ∀ p, p ∈ postings → x ∈ p.
Proof.
  intros Hne Hp. unfold leapfrog_new. rewrite bool_decide_false by done. cbn [orb].
  assert (existsb (λ p, bool_decide (p = [])) postings = false) as ->.
  { apply not_true_iff_false. rewrite existsb_exists. intros (p & Hin%list_elem_of_In & E%bool_decide_eq_true). by destruct (Hp p Hin). }
  set (cs := (λ s, mkCursor s 0) <$> postings).
  pose proof (merge_sort_Permutation key_le cs) as Hperm. pose proof (StronglySorted_merge_sort key_le cs) as Hs.
  set (sorted := merge_sort key_le cs) in *.
  assert (∀ c, c ∈ sorted ↔ ∃ p, c = mkCursor p 0 ∧ p ∈ postings) as Hin.
  { intros c. rewrite Hperm. unfold cs. apply list_elem_of_fmap. }
  destruct (last sorted) as [l|] eqn:El.
  2: { exfalso. apply last_None in El. rewrite El in Hperm. apply Permutation_nil_l in Hperm. by destruct postings. }
  assert (∀ c, c ∈ sorted → increasing (cursor_slice c) ∧ is_Some (cursor_key c)) as Hcs.
  { intros c (p & -> & Hpin)%Hin. cbn. destruct (Hp p Hpin) as [? Hn]. split; [done|]. unfold cursor_key. cbn.
    destruct p; [done|]. cbn. eauto. }
  assert (l ∈ sorted) as Hl by (apply last_Some in El as [pre ->]; set_solver).
  destruct (Hcs l Hl) as [_ [k Hk]]. cbn [mbind option_bind]. rewrite Hk. cbn [mbind option_bind].
  eexists. split; [reflexivity|]. split_and!; [split; unfold rot; cbn [lf_p iterators max_key drop take]| done|].
  - destruct sorted; [done|]. cbn. lia.
  - done.
  - by rewrite app_nil_r.
  - exists l. by rewrite app_nil_r.
  - intros x. unfold common. cbn [iterators]. split.
    + intros Hx p Hpin. apply (Hx (mkCursor p 0)). apply Hin. eauto.
    + intros Hx c (p & -> & Hpin)%Hin. unfold rem. cbn. by apply Hx.
Qed.

Lemma leapfrog_intersect_spec postings : (∀ p, p ∈ postings → increasing p ∧ p ≠ []) → (2 ≤ length postings)%nat →
  ∃ xs, leapfrog_intersect postings = Some xs ∧ increasing xs ∧ ∀ x, x ∈ xs ↔ ∀ p, p ∈ postings → x ∈ p.
Proof.
  intros Hp Hlen. assert (leapfrog_intersect postings =
    it ← leapfrog_new postings; match it with None => Some [] | Some it => leapfrog_collect (S (S (keys_left it))) it end) as ->.
  { by destruct postings as [|? [|? ?]]; cbn in Hlen; try lia. }
  destruct (new_spec postings) as (it & -> & Hinv & Hi & Hc); [by intros ->; cbn in Hlen; lia|done|]. cbn [mbind option_bind].
  pose proof Hinv as [Hb _ _ _]. remember (S (keys_left it)) as n eqn:En. cbn [leapfrog_collect]. unfold leapfrog_next. rewrite bool_decide_false by lia. rewrite Hi. cbn [negb].
  set (it0 := mkLeapfrog _ _ _ true). assert (lf_inv it0) as Hinv0 by (destruct Hinv; by split).
  destruct (search_spec (S (keys_left it0)) it0 Hinv0 ltac:(lia)) as (r & it' & -> & Hr). cbn [mbind option_bind].
  assert (∀ x, common it0 x ↔ common it x) as H0 by done. destruct r as [m|].
  - destruct Hr as (Hinv' & Hle & Hi' & Hm & Hk & Hc').
    destruct (collect_spec n it' m Hinv' Hi' Hm Hk) as (xs & -> & Hs & Hx); [change (keys_left it0) with (keys_left it) in Hle; lia|].
    cbn [mbind option_bind]. assert (common it' m) as Hcm by (intros c Hcin; apply key_in_rem; by apply Hk).
    exists (m :: xs). split; [done|]. split.
    + constructor; [done|]. apply Forall_forall. intros x [Hx1 Hx2]%Hx. pose proof (common_ge it' x Hinv' Hx1). lia.
    + intros x. rewrite elem_of_cons, Hx, <- Hc, <- H0, <- Hc'. destruct (decide (x = m)) as [->|]; naive_solver.
  - exists []. split; [done|]. split; [constructor|]. intros x. split; [by intros ?%elem_of_nil|]. intros Hx. exfalso.
    apply (Hr x). by apply Hc.
Qed.

(** The reference: the keys of the first posting that all the others hold *)
Definition common_keys (postings : list (list N)) : list N :=
  match postings with
  | [] => []
  | p :: _ => filter (λ x, Forall (λ q, x ∈ q) postings) p
  end.

Lemma increasing_NoDup l : increasing l → NoDup l.
Proof.
  induction 1 as [|x l _ IH Hx]; constructor; [|done]. intros Hin. rewrite Forall_forall in Hx. specialize (Hx x Hin). lia.
Qed.
Lemma increasing_unique l1 l2 : increasing l1 → increasing l2 → (∀ x, x ∈ l1 ↔ x ∈ l2) → l1 = l2.
Proof.
  intros H1 H2 Hx. assert (AntiSymm (=) N.lt) by (intros x y; lia).
  apply (StronglySorted_unique N.lt); [done|done|]. apply NoDup_Permutation; [by apply increasing_NoDup..|done].
Qed.
Lemma increasing_filter (P : N → Prop) `{!∀ x, Decision (P x)} l : increasing l → increasing (filter P l).
Proof.
  induction 1 as [|x l _ IH Hx]; [constructor|]. destruct (decide (P x)).
  - rewrite filter_cons_True by done. constructor; [done|]. apply Forall_forall. intros y [_ Hy]%list_elem_of_filter.
    rewrite Forall_forall in Hx. by apply Hx.
  - by rewrite filter_cons_False.
Qed.

Lemma common_keys_spec postings x : postings ≠ [] → x ∈ common_keys postings ↔ ∀ p, p ∈ postings → x ∈ p.
Proof.
  destruct postings as [|p ps]; [done|]. intros _. unfold common_keys. rewrite list_elem_of_filter, Forall_forall.
  split; [by intros [? _]|]. intros Hx. split; [done|]. apply Hx. by left.
Qed.

(** The join of sorted postings is their intersection. *)
Lemma intersect_correct postings : Forall (StronglySorted N.lt) postings → intersect_postings postings = Some (common_keys postings).
Proof.
  rewrite Forall_forall. intros Hs. destruct postings as [|p [|q ps]]; [done| |].
  { cbn. f_equal. symmetry. apply filter_all. intros x Hx. apply Forall_forall. intros ? ->%list_elem_of_singleton. done. }
  set (postings := p :: q :: ps) in *. assert (increasing (common_keys postings)) as Hi by (apply increasing_filter, Hs; by left).
  assert (intersect_postings postings = if existsb (λ p, bool_decide (p = [])) postings then Some [] else leapfrog_intersect postings) as -> by done.
  destruct (existsb _ postings) eqn:E.
  - apply existsb_exists in E as (e & Hin%list_elem_of_In & ->%bool_decide_eq_true). f_equal.
    apply increasing_unique; [constructor|done|]. intros x. rewrite common_keys_spec by done. split; [by intros ?%elem_of_nil|].
    intros Hx. by specialize (Hx [] Hin).
  - destruct (leapfrog_intersect_spec postings) as (xs & -> & Hxs & Hx).
    + intros e He. split; [by apply Hs|]. intros ->. assert (existsb (λ p, bool_decide (p = [])) postings = true) as E'; [|congruence].
      apply existsb_exists. exists []. split; [by apply list_elem_of_In|done].
    + cbn. lia.
    + f_equal. apply increasing_unique; [done|done|]. intros x. by rewrite Hx, common_keys_spec.
Qed.

(** ** Postings stay sorted *)

Lemma posting_insert_spec x l : increasing l →
  ∃ l', incidence_posting_insert x l = Some l' ∧ increasing l' ∧ ∀ y, y ∈ l' ↔ y = x ∨ y ∈ l.
Proof.
  intros Hs. unfold incidence_posting_insert. destruct (binary_search_spec (λ x, x) x l (increasing_le l Hs)) as (r & -> & Hr).
  cbn [mbind option_bind]. eexists. split; [reflexivity|]. destruct r as [i|i].
  - destruct Hr as (y & Hy & ->). split; [done|]. intros z. split; [by right|]. intros [->|?]; [|done]. by apply list_elem_of_lookup_2 in Hy.
  - destruct Hr as [Hlo Hhi]. rewrite <- (take_drop i l) in Hs.
    split.
    + apply StronglySorted_app in Hs as (Hlt & Ht & Hd). apply StronglySorted_app. split_and!; [|done|].
      * intros a b Ha [->|Hb]%elem_of_cons; [|by apply Hlt].
        apply list_elem_of_lookup in Ha as [j Hj]. pose proof (lookup_lt_Some _ _ _ Hj) as Hji. rewrite length_take in Hji.
        apply (Hlo j); [lia|]. by rewrite lookup_take_lt in Hj by lia.
      * constructor; [done|]. apply Forall_forall. intros b [j Hj]%list_elem_of_lookup. rewrite lookup_drop in Hj. apply (Hhi (i + j)%nat); [lia|done].
    + intros y. rewrite elem_of_app, elem_of_cons. rewrite <- (take_drop i l) at 3. rewrite elem_of_app. tauto.
Qed.

Definition incidence_wf (i : IncidenceIndex) : Prop := ∀ k l, i !! k = Some l → increasing l.

Lemma incidence_insert_spec t r e x i : incidence_wf i →
  ∃ i', incidence_insert t r e x i = Some i' ∧ incidence_wf i' ∧
    ∀ t' r' e' y, y ∈ incidence_lookup t' r' e' i' ↔ (t' = t ∧ r' = r ∧ e' = e ∧ y = x) ∨ y ∈ incidence_lookup t' r' e' i.
Proof.
  intros Hwf. unfold incidence_insert, incidence_lookup. set (key := mkIncidence t r e).
  destruct (posting_insert_spec x (default [] (i !! key))) as (l & -> & Hl & Hx).
  { destruct (i !! key) as [l|] eqn:E; [by apply (Hwf key)|constructor]. }
  cbn [mbind option_bind]. eexists. split; [reflexivity|]. split.
  - intros k l' [[_ <-]|[_ Hk]]%lookup_insert_Some; [done|by apply (Hwf k)].
  - intros t' r' e' y. destruct (decide (mkIncidence t' r' e' = key)) as [E|E].
    + rewrite E, lookup_insert_eq. cbn. rewrite Hx. injection E as -> -> ->. tauto.
    + rewrite lookup_insert_ne by congruence. split; [by right|]. intros [(-> & -> & -> & _)|?]; [done|done].
Qed.

Lemma incidence_lookup_wf i t r e : incidence_wf i → increasing (incidence_lookup t r e i).
Proof. intros Hwf. unfold incidence_lookup. destruct (i !! _) as [l|] eqn:E; [by apply (Hwf _ l E)|constructor]. Qed.
