(* ===== verification/Entity.v ===== *)
(** The entity kernel (src/entity): epistemic and lifecycle states, the provenance
    arena, the version table, the entity arena and segment, mutations and reads at a
    log position.

    Rows refer to each other by 32-bit indices, [NULL_ROW_REF] standing for none; a
    length is cut to 32 bits where the code casts it.  What a lock guards for the
    length of a call is passed as state.  What reads return is proved in EntityFacts.v and
    RelationFacts.v. *)

From Stdlib Require Import Strings.Byte ZArith SpecFloat.
From stdpp Require Import base gmap sets strings numbers list fin_maps.
From S2P Require Import Prelude.
From S2P Require Import Floats.

Definition NULL_ROW_REF : N := 4294967295.
Definition as_u32 (n : N) : N := n `mod` u32_modulus.

(** ** States *)

Inductive EpistemicStatus := Observed | Asserted | Inferred | Provisional | Contradicted.
Inductive LifecycleStatus := LActive | LSuperseded | LTombstoned.
Inductive VersionRelation := Supersedes | Refines | Reinforces.
#[export] Instance EpistemicStatus_eq_dec : EqDecision EpistemicStatus.
Proof. solve_decision. Defined.
#[export] Instance LifecycleStatus_eq_dec : EqDecision LifecycleStatus.
Proof. solve_decision. Defined.

Definition epistemic_u8 (s : EpistemicStatus) : N :=
  match s with Observed => 0 | Asserted => 1 | Inferred => 2 | Provisional => 3 | Contradicted => 4 end.
Definition lifecycle_u8 (s : LifecycleStatus) : N := match s with LActive => 0 | LSuperseded => 1 | LTombstoned => 2 end.
Definition relation_u8 (k : VersionRelation) : N := match k with Supersedes => 0 | Refines => 1 | Reinforces => 2 end.
Definition epistemic_from_u8 (v : N) : EpistemicStatus :=
  if (v =? 0)%N then Observed else if (v =? 1)%N then Asserted else if (v =? 2)%N then Inferred
  else if (v =? 3)%N then Provisional else if (v =? 4)%N then Contradicted else Provisional.
Definition lifecycle_from_u8 (v : N) : LifecycleStatus :=
  if (v =? 0)%N then LActive else if (v =? 1)%N then LSuperseded else if (v =? 2)%N then LTombstoned else LActive.
(** [EntityHeader::epistemic] and [VersionRow::epistemic] read an unknown state as
    observed. *)
Definition row_epistemic (v : N) : EpistemicStatus :=
  if (v =? 0)%N then Observed else if (v =? 1)%N then Asserted else if (v =? 2)%N then Inferred
  else if (v =? 3)%N then Provisional else if (v =? 4)%N then Contradicted else Observed.
Definition row_relation (v : N) : VersionRelation :=
  if (v =? 0)%N then Supersedes else if (v =? 1)%N then Refines else if (v =? 2)%N then Reinforces else Supersedes.

Inductive EpistemicTransitionError :=
  | CannotMutateToObserved (from to : EpistemicStatus)
  | CannotTransitionFromContradicted (from to : EpistemicStatus)
  | InvalidTransition (from to : EpistemicStatus).
Definition validate_epistemic_transition (from to : EpistemicStatus) : Result unit EpistemicTransitionError :=
  if bool_decide (from = to) then Ok tt
  else if bool_decide (to = Observed) then Err (CannotMutateToObserved from to)
  else match from with
       | Observed | Asserted | Inferred =>
           if bool_decide (to = Contradicted) then Ok tt else Err (InvalidTransition from to)
       | Provisional =>
           if bool_decide (to = Inferred) || bool_decide (to = Contradicted) then Ok tt else Err (InvalidTransition from to)
       | Contradicted => Err (CannotTransitionFromContradicted from to)
       end.

Inductive LifecycleTransitionError :=
  | CannotResurrectTombstone (from to : LifecycleStatus)
  | InvalidLifecycleTransition (from to : LifecycleStatus).
Definition validate_lifecycle_transition (from to : LifecycleStatus) : Result unit LifecycleTransitionError :=
  if bool_decide (from = to) then Ok tt
  else match from with
       | LActive =>
           if bool_decide (to = LSuperseded) || bool_decide (to = LTombstoned) then Ok tt
           else Err (InvalidLifecycleTransition from to)
       | LSuperseded => if bool_decide (to = LTombstoned) then Ok tt else Err (InvalidLifecycleTransition from to)
       | LTombstoned => Err (CannotResurrectTombstone from to)
       end.

(** ** Provenance *)

Inductive DurableEvidenceRef :=
  | EvEntityVersion (entity version : N)
  | EvEntity (entity : N)
  | EvRelation (relation : N)
  | EvAttempt (attempt : N)
  | EvExternalHash (hash : list byte).

Record ProvenanceRow := mkProvenanceRow {
  pw_commit_lsn : N;
  pw_timestamp_ms : N;
  pw_signature_hash : list byte;
  pw_source_uri_id : N;
  pw_actor_id : N;
  pw_extraction_method_id : N;
  pw_evidence_start : N;
  pw_evidence_len : N;
  pw_confidence_q16 : N
}.
Record ProvenanceRecord := mkProvenance {
  source_uri : string;
  actor_id : string;
  extraction_method : string;
  pr_commit_lsn : N;
  timestamp_ms : N;
  confidence : b32;
  evidence : list DurableEvidenceRef;
  signature_hash : list byte
}.

(** [(conf.clamp(0.0, 1.0) * 65536.0).round() as u32], and back *)
Definition set_confidence_f32 (conf : b32) : N :=
  Z.to_N (f64_round (f32_mul (f64_clamp conf (S754_zero false) (f32_of_N 1)) (f32_of_N 65536))).
Definition confidence_f32 (q16 : N) : b32 := f32_div (f32_of_N q16) (f32_of_N 65536).

Record ProvenanceArena := mkProvenanceArena {
  pa_rows : list ProvenanceRow;
  pa_id_to_index : gmap N N;
  pa_index_to_id : list N;
  evidence_pool : list DurableEvidenceRef;
  interned_strings : list string;
  string_to_id : gmap string N;
  pa_next_id : N
}.
Definition provenance_new (start_id : N) : ProvenanceArena := mkProvenanceArena [] ∅ [] [] [] ∅ start_id.

Definition intern_string (s : string) (p : ProvenanceArena) : N * ProvenanceArena :=
  match string_to_id p !! s with
  | Some id => (id, p)
  | None =>
      let id := as_u32 (lenN (interned_strings p)) in
      (id, mkProvenanceArena (pa_rows p) (pa_id_to_index p) (pa_index_to_id p) (evidence_pool p)
             (interned_strings p ++ [s]) (<[s := id]> (string_to_id p)) (pa_next_id p))
  end.
Definition lookup_string (id : N) (p : ProvenanceArena) : option string := nth_u64 (interned_strings p) id.

(** Where the evidence starts in the pool, its length, and the pool *)
Definition store_evidence (ev pool : list DurableEvidenceRef) : N * N * list DurableEvidenceRef :=
  match ev with
  | [] => (0%N, 0%N, pool)
  | _ :: _ => (as_u32 (lenN pool), as_u32 (lenN ev), pool ++ ev)
  end.
Definition provenance_bind (prov_id : N) (r : ProvenanceRecord) (p : ProvenanceArena) : N * ProvenanceArena :=
  let '(source, p) := intern_string (source_uri r) p in
  let '(actor, p) := intern_string (actor_id r) p in
  let '(method, p) := intern_string (extraction_method r) p in
  let '(start, len, pool) := store_evidence (evidence r) (evidence_pool p) in
  let row := mkProvenanceRow (pr_commit_lsn r) (timestamp_ms r) (signature_hash r) source actor method start len
               (set_confidence_f32 (confidence r)) in
  let index := as_u32 (lenN (pa_rows p)) in
  (index, mkProvenanceArena (pa_rows p ++ [row]) (<[prov_id := index]> (pa_id_to_index p)) (pa_index_to_id p ++ [prov_id])
            pool (interned_strings p) (string_to_id p) (pa_next_id p)).
Definition provenance_append (r : ProvenanceRecord) (p : ProvenanceArena) : N * N * ProvenanceArena :=
  let id := pa_next_id p in
  let p := mkProvenanceArena (pa_rows p) (pa_id_to_index p) (pa_index_to_id p) (evidence_pool p) (interned_strings p)
             (string_to_id p) (u64_add id 1) in
  let '(index, p) := provenance_bind id r p in (id, index, p).
Definition resolve_record (row_index : N) (p : ProvenanceArena) : option ProvenanceRecord :=
  row ← nth_u64 (pa_rows p) row_index;
  source ← lookup_string (pw_source_uri_id row) p;
  actor ← lookup_string (pw_actor_id row) p;
  method ← lookup_string (pw_extraction_method_id row) p;
  let ev := if (0 <? pw_evidence_len row)%N then
              if (pw_evidence_start row + pw_evidence_len row <=? lenN (evidence_pool p))%N
              then truncateN (pw_evidence_len row) (skipN (pw_evidence_start row) (evidence_pool p)) else []
            else [] in
  Some (mkProvenance source actor method (pw_commit_lsn row) (pw_timestamp_ms row) (confidence_f32 (pw_confidence_q16 row))
          ev (pw_signature_hash row)).
Definition resolve_record_by_id (id : N) (p : ProvenanceArena) : option ProvenanceRecord :=
  i ← pa_id_to_index p !! id; resolve_record i p.

(** ** Versions *)

Record VersionRow := mkVersionRow {
  vr_entity_id : N;
  vr_version_id : N;
  valid_from_lsn : N;
  valid_until_lsn : N;
  prev_version_row : N;
  vr_provenance_row : N;
  vr_vector_row : N;
  vr_property_row : N;
  vr_epistemic_status : N;
  vr_lifecycle_status : N;
  relation_kind : N;
  confidence_q16 : N
}.
#[export] Instance eta_VersionRow : Eta VersionRow := λ r,
  mkVersionRow (vr_entity_id r) (vr_version_id r) (valid_from_lsn r) (valid_until_lsn r) (prev_version_row r)
    (vr_provenance_row r) (vr_vector_row r) (vr_property_row r) (vr_epistemic_status r) (vr_lifecycle_status r)
    (relation_kind r) (confidence_q16 r).
Definition visible_at (lsn : N) (r : VersionRow) : bool :=
  (valid_from_lsn r <=? lsn)%N && ((valid_until_lsn r =? u64_max)%N || (lsn <? valid_until_lsn r)%N).

Record VersionTable := mkVersionTable {
  vt_rows : list VersionRow;
  vt_id_to_index : gmap N N;
  vt_index_to_id : list N;
  vt_next_id : N
}.
Definition version_table_new (start_id : N) : VersionTable := mkVersionTable [] ∅ [] start_id.
Definition version_bind (version_id : N) (row : VersionRow) (t : VersionTable) : N * VersionTable :=
  let index := as_u32 (lenN (vt_rows t)) in
  (index, mkVersionTable (vt_rows t ++ [row]) (<[version_id := index]> (vt_id_to_index t)) (vt_index_to_id t ++ [version_id])
            (vt_next_id t)).
(** [append] of the table *)
Definition version_append (row : VersionRow) (t : VersionTable) : N * N * VersionTable :=
  let id := vt_next_id t in
  let '(index, t) := version_bind id (row <| vr_version_id := id |>)
                       (mkVersionTable (vt_rows t) (vt_id_to_index t) (vt_index_to_id t) (u64_add id 1)) in
  (id, index, t).
Definition get_version_row (i : N) (t : VersionTable) : option VersionRow := nth_u64 (vt_rows t) i.
(** A closed version is marked as superseded. *)
Definition close_version (i until_lsn : N) (t : VersionTable) : VersionTable :=
  mkVersionTable (alter (λ r, r <| valid_until_lsn := until_lsn |> <| vr_lifecycle_status := lifecycle_u8 LSuperseded |>)
                    (N.to_nat i) (vt_rows t))
    (vt_id_to_index t) (vt_index_to_id t) (vt_next_id t).

(** The loops follow [prev_version_row], which goes to earlier rows: as many rounds as
    there are rows are enough. *)
Fixpoint find_as_of_loop (fuel : nat) (rows : list VersionRow) (lsn curr : N) : option N :=
  match fuel with
  | O => None
  | S fuel =>
      if (curr =? NULL_ROW_REF)%N then None
      else row ← nth_u64 rows curr; if visible_at lsn row then Some curr else find_as_of_loop fuel rows lsn (prev_version_row row)
  end.
Definition find_as_of (head_row lsn : N) (t : VersionTable) : option N :=
  find_as_of_loop (S (length (vt_rows t))) (vt_rows t) lsn head_row.
Fixpoint history_of_loop (fuel : nat) (rows : list VersionRow) (curr : N) : list VersionRow :=
  match fuel with
  | O => []
  | S fuel =>
      if (curr =? NULL_ROW_REF)%N then []
      else match nth_u64 rows curr with
           | Some row => row :: history_of_loop fuel rows (prev_version_row row)
           | None => []
           end
  end.
Definition history_of (head_row : N) (t : VersionTable) : list VersionRow :=
  history_of_loop (S (length (vt_rows t))) (vt_rows t) head_row.

(** ** Entities *)

Definition ENTITY_FLAG_LIVE : N := 1.
Record EntityHeader := mkEntityHeader {
  label_fast_mask : N;
  version_row : N;
  provenance_row : N;
  vector_row : N;
  property_row : N;
  label_overflow_row : N;
  epistemic_status : N;
  eh_flags : N;
  vector_layout_id : N
}.
#[export] Instance eta_EntityHeader : Eta EntityHeader := λ h,
  mkEntityHeader (label_fast_mask h) (version_row h) (provenance_row h) (vector_row h) (property_row h)
    (label_overflow_row h) (epistemic_status h) (eh_flags h) (vector_layout_id h).
Definition header_default : EntityHeader :=
  mkEntityHeader 0 NULL_ROW_REF NULL_ROW_REF NULL_ROW_REF NULL_ROW_REF NULL_ROW_REF (epistemic_u8 Observed) ENTITY_FLAG_LIVE 0.
Definition header_set_live (live : bool) (h : EntityHeader) : EntityHeader :=
  h <| eh_flags ::= if live then N.lor ENTITY_FLAG_LIVE else λ f, N.ldiff f ENTITY_FLAG_LIVE |>.

Record EntityArena := mkEntityArena {
  ea_headers : list EntityHeader;
  ea_id_to_index : gmap N N;
  ea_index_to_id : list N;
  ea_live : list bool;
  ea_next_id : N
}.
Definition entity_arena_new (start_id : N) : EntityArena := mkEntityArena [] ∅ [] [] start_id.
Definition entity_bind (id : N) (h : EntityHeader) (a : EntityArena) : N * EntityArena :=
  let index := as_u32 (lenN (ea_headers a)) in
  (index, mkEntityArena (ea_headers a ++ [h]) (<[id := index]> (ea_id_to_index a)) (ea_index_to_id a ++ [id]) (ea_live a ++ [true])
            (ea_next_id a)).
Definition entity_alloc (h : EntityHeader) (a : EntityArena) : N * N * EntityArena :=
  let id := ea_next_id a in
  let '(i, a) := entity_bind id h (mkEntityArena (ea_headers a) (ea_id_to_index a) (ea_index_to_id a) (ea_live a) (u64_add id 1)) in
  (id, i, a).
Definition entity_is_live (i : N) (a : EntityArena) : bool := default false (nth_u64 (ea_live a) i).
Definition entity_get (i : N) (a : EntityArena) : option EntityHeader :=
  if entity_is_live i a then nth_u64 (ea_headers a) i else None.
Definition entity_get_by_id (id : N) (a : EntityArena) : option (N * EntityHeader) :=
  i ← ea_id_to_index a !! id; h ← entity_get i a; Some (i, h).
Definition entity_index_to_id (i : N) (a : EntityArena) : option N := nth_u64 (ea_index_to_id a) i.
Definition set_headers (f : list EntityHeader → list EntityHeader) (a : EntityArena) : EntityArena :=
  mkEntityArena (f (ea_headers a)) (ea_id_to_index a) (ea_index_to_id a) (ea_live a) (ea_next_id a).
Definition entity_update (i : N) (h : EntityHeader) (a : EntityArena) : EntityArena :=
  if entity_is_live i a then set_headers (alter (λ _, h) (N.to_nat i)) a else a.
(** Only of a live entity *)
Definition publish_version_head (i version provenance property vector : N) (e : EpistemicStatus) (a : EntityArena) : EntityArena :=
  if entity_is_live i a then
    set_headers (alter (λ h,
      let h := h <| version_row := version |> in
      let h := if (provenance =? NULL_ROW_REF)%N then h else h <| provenance_row := provenance |> in
      let h := if (property =? NULL_ROW_REF)%N then h else h <| property_row := property |> in
      let h := if (vector =? NULL_ROW_REF)%N then h else h <| vector_row := vector |> in
      h <| epistemic_status := epistemic_u8 e |>) (N.to_nat i)) a
  else a.
Definition entity_delete (i : N) (a : EntityArena) : EntityArena :=
  if entity_is_live i a then
    mkEntityArena (alter (header_set_live false) (N.to_nat i) (ea_headers a)) (ea_id_to_index a) (ea_index_to_id a)
      (alter (λ _, false) (N.to_nat i) (ea_live a)) (ea_next_id a)
  else a.
Definition entity_live_ids (a : EntityArena) : list N :=
  omap (λ '(b, id), if b : bool then Some id else None) (zip (ea_live a) (ea_index_to_id a)).

(** *** Vectors *)

(** Components are 32-bit patterns. *)
Record VectorArena := mkVectorArena { va_dimension : N; va_data : list N; va_next_row : N }.
Definition vector_append (v : list N) (a : VectorArena) : option N * VectorArena :=
  if negb (lenN v =? va_dimension a)%N then (None, a)
  else (Some (va_next_row a), mkVectorArena (va_dimension a) (va_data a ++ v) (as_u32 (va_next_row a + 1))).
Definition vector_get_row (row : N) (a : VectorArena) : option (list N) :=
  let start := (row * va_dimension a)%N in
  if (start + va_dimension a <=? lenN (va_data a))%N then Some (truncateN (va_dimension a) (skipN start (va_data a))) else None.

(** *** Segments *)

Record EntitySegment := mkEntitySegment {
  es_generation : N;
  es_arena : EntityArena;
  es_provenance : ProvenanceArena;
  es_versions : VersionTable;
  es_vectors : VectorArena
}.
Definition entity_segment_new (generation start_entity_id dimension : N) : EntitySegment :=
  mkEntitySegment generation (entity_arena_new start_entity_id) (provenance_new 1) (version_table_new 1) (mkVectorArena dimension [] 0).

(** Copies all provenance records and versions, and the live entities with their
    vectors. *)
Definition compact_entity (old : EntitySegment) (new : EntitySegment) (id : N) : EntitySegment :=
  match entity_get_by_id id (es_arena old) with
  | None => new
  | Some (_, h) =>
      let '(h, vectors) :=
        if (vector_row h =? NULL_ROW_REF)%N then (h, es_vectors new)
        else match vector_get_row (vector_row h) (es_vectors old) with
             | None => (h, es_vectors new)
             | Some v => match vector_append v (es_vectors new) with
                         | (Some row, vs) => (h <| vector_row := row |>, vs)
                         | (None, vs) => (h, vs)
                         end
             end in
      mkEntitySegment (es_generation new) (entity_bind id h (es_arena new)).2 (es_provenance new) (es_versions new) vectors
  end.
Definition entity_compact (generation : N) (s : EntitySegment) : EntitySegment :=
  let p := foldl (λ p str, (intern_string str p).2) (provenance_new 1) (interned_strings (es_provenance s)) in
  let p := foldl (λ p '(i, id),
             match resolve_record (N.of_nat i) (es_provenance s) with Some r => (provenance_bind id r p).2 | None => p end) p
             (zip (seq 0 (length (pa_rows (es_provenance s)))) (pa_index_to_id (es_provenance s))) in
  let t := foldl (λ t '(row, id), (version_bind id row t).2) (version_table_new 1)
             (zip (vt_rows (es_versions s)) (vt_index_to_id (es_versions s))) in
  foldl (compact_entity s)
    (mkEntitySegment generation (entity_arena_new 1) p t (mkVectorArena (va_dimension (es_vectors s)) [] 0))
    (entity_live_ids (es_arena s)).

(** ** Mutations *)

Inductive MutationApplyError :=
  | EntityAlreadyExists (id : N)
  | EntityNotFound (id : N)
  | VersionHeadNotFound (id : N)
  | EpistemicConflict (expected actual : EpistemicStatus)
  | InvalidEpistemicTransition (e : EpistemicTransitionError).

Inductive EntityMutation :=
  | ECreate (entity_id : N) (header : EntityHeader) (initial_version_id provenance_id : N)
      (record : option ProvenanceRecord) (epistemic : EpistemicStatus)
  | ECreateVersion (entity_id version_id provenance_id : N) (record : option ProvenanceRecord)
      (epistemic : EpistemicStatus) (lifecycle : LifecycleStatus) (kind : VersionRelation) (property vector : N)
  | ETransition (entity_id version_id : N) (expected next : EpistemicStatus) (ev : list DurableEvidenceRef)
      (provenance_id : N) (record : option ProvenanceRecord)
  | ETombstone (entity_id version_id provenance_id : N) (record : option ProvenanceRecord).

(** The record is bound under the given identifier, or that identifier is looked up. *)
Definition bind_provenance (provenance_id : N) (record : option ProvenanceRecord) (p : ProvenanceArena) : N * ProvenanceArena :=
  match record with
  | Some r => provenance_bind provenance_id r p
  | None => (default NULL_ROW_REF (pa_id_to_index p !! provenance_id), p)
  end.

Definition entity_apply (m : EntityMutation) (lsn : N) (s : EntitySegment) : Result unit MutationApplyError * EntitySegment :=
  match m with
  | ECreate id header version_id provenance_id record e =>
      match ea_id_to_index (es_arena s) !! id with
      | Some _ => (Err (EntityAlreadyExists id), s)
      | None =>
          let '(prov, p) := bind_provenance provenance_id record (es_provenance s) in
          let row := mkVersionRow id version_id lsn u64_max NULL_ROW_REF prov (vector_row header) (property_row header)
                       (epistemic_u8 e) (lifecycle_u8 LActive) (relation_u8 Supersedes) 65536 in
          let '(vindex, t) := version_bind version_id row (es_versions s) in
          let header := header <| version_row := vindex |> <| provenance_row := prov |> <| epistemic_status := epistemic_u8 e |> in
          (Ok tt, mkEntitySegment (es_generation s) (entity_bind id header (es_arena s)).2 p t (es_vectors s))
      end
  | ECreateVersion id version_id provenance_id record e lifecycle kind property vector =>
      match entity_get_by_id id (es_arena s) with
      | None => (Err (EntityNotFound id), s)
      | Some (i, header) =>
          if (version_row header =? NULL_ROW_REF)%N then (Err (VersionHeadNotFound id), s)
          else
            let t := close_version (version_row header) lsn (es_versions s) in
            let '(prov, p) := bind_provenance provenance_id record (es_provenance s) in
            let row := mkVersionRow id version_id lsn u64_max (version_row header) prov vector property
                         (epistemic_u8 e) (lifecycle_u8 lifecycle) (relation_u8 kind) 65536 in
            let '(vindex, t) := version_bind version_id row t in
            (Ok tt, mkEntitySegment (es_generation s) (publish_version_head i vindex prov property vector e (es_arena s)) p t
                      (es_vectors s))
      end
  | ETransition id version_id expected next _ provenance_id record =>
      match entity_get_by_id id (es_arena s) with
      | None => (Err (EntityNotFound id), s)
      | Some (i, header) =>
          if (version_row header =? NULL_ROW_REF)%N then (Err (VersionHeadNotFound id), s)
          else match get_version_row (version_row header) (es_versions s) with
               | None => (Err (VersionHeadNotFound id), s)
               | Some current =>
                   let actual := row_epistemic (vr_epistemic_status current) in
                   if bool_decide (actual ≠ expected) then (Err (EpistemicConflict expected actual), s)
                   else match validate_epistemic_transition expected next with
                        | Err e => (Err (InvalidEpistemicTransition e), s)
                        | Ok _ =>
                            let t := close_version (version_row header) lsn (es_versions s) in
                            let '(prov, p) := bind_provenance provenance_id record (es_provenance s) in
                            let row := mkVersionRow id version_id lsn u64_max (version_row header) prov (vr_vector_row current)
                                         (vr_property_row current) (epistemic_u8 next) (vr_lifecycle_status current)
                                         (relation_u8 Refines) (confidence_q16 current) in
                            let '(vindex, t) := version_bind version_id row t in
                            (Ok tt, mkEntitySegment (es_generation s)
                                      (publish_version_head i vindex prov (vr_property_row current) (vr_vector_row current) next
                                         (es_arena s)) p t (es_vectors s))
                        end
               end
      end
  | ETombstone id version_id provenance_id record =>
      match entity_get_by_id id (es_arena s) with
      | None => (Err (EntityNotFound id), s)
      | Some (i, header) =>
          let prev := version_row header in
          let t := if (prev =? NULL_ROW_REF)%N then es_versions s else close_version prev lsn (es_versions s) in
          let '(prov, p) := bind_provenance provenance_id record (es_provenance s) in
          let e := row_epistemic (epistemic_status header) in
          let row := mkVersionRow id version_id lsn u64_max prev prov NULL_ROW_REF NULL_ROW_REF
                       (epistemic_u8 e) (lifecycle_u8 LTombstoned) (relation_u8 Supersedes) 0 in
          let '(vindex, t) := version_bind version_id row t in
          let a := entity_delete i (es_arena s) in
          (Ok tt, mkEntitySegment (es_generation s) (publish_version_head i vindex prov NULL_ROW_REF NULL_ROW_REF e a) p t
                    (es_vectors s))
      end
  end.

(** ** Reads *)

Record ResolvedEntityVersion := mkResolvedEntity {
  re_entity_id : N;
  re_version_id : N;
  re_valid_from_lsn : N;
  re_valid_until_lsn : option N;
  re_epistemic_status : EpistemicStatus;
  re_lifecycle_status : LifecycleStatus;
  re_relation_kind : VersionRelation;
  re_property_row : N;
  re_vector_row : N;
  re_provenance : option ProvenanceRecord
}.
Definition row_provenance (row : N) (p : ProvenanceArena) : option ProvenanceRecord :=
  if (row =? NULL_ROW_REF)%N then None else resolve_record row p.
Definition resolve_row (id : N) (s : EntitySegment) (r : VersionRow) : ResolvedEntityVersion :=
  mkResolvedEntity id (vr_version_id r) (valid_from_lsn r)
    (if (valid_until_lsn r =? u64_max)%N then None else Some (valid_until_lsn r))
    (row_epistemic (vr_epistemic_status r)) (lifecycle_from_u8 (vr_lifecycle_status r)) (row_relation (relation_kind r))
    (vr_property_row r) (vr_vector_row r) (row_provenance (vr_provenance_row r) (es_provenance s)).

Definition resolve_version_at (id lsn : N) (s : EntitySegment) : option ResolvedEntityVersion :=
  '(_, h) ← entity_get_by_id id (es_arena s);
  if (version_row h =? NULL_ROW_REF)%N then None
  else
    i ← find_as_of (version_row h) lsn (es_versions s);
    r ← get_version_row i (es_versions s);
    Some (resolve_row id s r).
(** A snapshot is a segment and a position. *)
Definition entity_current (id : N) (snapshot : N * EntitySegment) : option ResolvedEntityVersion :=
  resolve_version_at id snapshot.1 snapshot.2.
Definition entity_as_of (id lsn : N) (snapshot : N * EntitySegment) : option ResolvedEntityVersion :=
  resolve_version_at id (N.min lsn snapshot.1) snapshot.2.
Definition entity_history (id : N) (s : EntitySegment) : list ResolvedEntityVersion :=
  match entity_get_by_id id (es_arena s) with
  | None => []
  | Some (_, h) =>
      if (version_row h =? NULL_ROW_REF)%N then []
      else resolve_row id s <$> reverse (history_of (version_row h) (es_versions s))
  end.
Definition entity_provenance (id lsn : N) (snapshot : N * EntitySegment) : option ProvenanceRecord :=
  v ← entity_as_of id lsn snapshot; re_provenance v.
Definition entity_epistemic_state (id lsn : N) (snapshot : N * EntitySegment) : option EpistemicStatus :=
  v ← entity_as_of id lsn snapshot; Some (re_epistemic_status v).
