(* ===== verification/Relation.v ===== *)
(** N-ary relations (src/relation): schemas, the relation arena, the version table,
    mutations, reads at a log position, queries, patterns and projections.  The
    incidence index is in Incidence.v, entities are in Entity.v.

    A panic is [None] of the outer [option].  [debug_assert!] evaluates its argument
    in debug builds only; the build is a parameter, [debug]. *)

From Stdlib Require Import ZArith.
From stdpp Require Import base gmap sets strings numbers list sorting fin_maps.
From S2P Require Import Prelude.
From S2P Require Import Floats.
From S2P Require Import Hypercube.
From S2P Require Import MetadataIndex.
From S2P Require Import Order.
From S2P Require Import Incidence.
From S2P Require Import Entity.

Definition u16_modulus : N := 65536.

(** ** Schemas *)

Record DurableRoleBinding := mkBinding { b_entity_id : N; b_role_id : N }.
#[export] Instance DurableRoleBinding_eq_dec : EqDecision DurableRoleBinding.
Proof. solve_decision. Defined.

Inductive RelationTypeState := Proposed | Admitted_ | Deprecated.
#[export] Instance RelationTypeState_eq_dec : EqDecision RelationTypeState.
Proof. solve_decision. Defined.
Inductive ProjectionDirection := Directed | Undirected.
Record BinaryProjectionSpec := mkProjectionSpec { source_role : N; target_role : N; direction : ProjectionDirection }.
Record RoleSchema := mkRole { rs_role_id : N; rs_name : string; min_count : N; max_count : N; required : bool }.
Record RelationType := mkRelationType {
  rt_id : N;
  rt_name : string;
  rt_schema_version : N;
  rt_state : RelationTypeState;
  roles : list RoleSchema;
  binary_projection : option BinaryProjectionSpec;
  rt_provenance_id : N;
  structural_fingerprint : N
}.
#[export] Instance eta_RelationType : Eta RelationType := λ t,
  mkRelationType (rt_id t) (rt_name t) (rt_schema_version t) (rt_state t) (roles t) (binary_projection t)
    (rt_provenance_id t) (structural_fingerprint t).

Inductive SchemaValidationError :=
  | MissingRequiredRole (role_id : N)
  | UnknownRole (role_id : N)
  | CardinalityViolation (role_id count min_count max_count : N).

(** [*role_counts.entry(b.role_id).or_insert(0) += 1] on 16-bit counters *)
Definition role_counts (bs : list DurableRoleBinding) : gmap N N :=
  foldl (λ m b, <[b_role_id b := ((default 0 (m !! b_role_id b) + 1) `mod` u16_modulus)%N]> m) ∅ bs.
Fixpoint check_roles (counts : gmap N N) (rs : list RoleSchema) : Result unit SchemaValidationError :=
  match rs with
  | [] => Ok tt
  | r :: rs =>
      let count := default 0%N (counts !! rs_role_id r) in
      if required r && (count <? 1)%N then Err (MissingRequiredRole (rs_role_id r))
      else if (count <? min_count r)%N || (max_count r <? count)%N
           then Err (CardinalityViolation (rs_role_id r) count (min_count r) (max_count r))
      else check_roles counts rs
  end.
Definition validate_bindings `{!HashOrder} (t : RelationType) (bs : list DurableRoleBinding) : Result unit SchemaValidationError :=
  let counts := role_counts bs in
  match find_first (λ role, negb (existsb (λ r, (rs_role_id r =? role)%N) (roles t))) (iter_order (dom counts)) with
  | Some role => Err (UnknownRole role)
  | None => check_roles counts (roles t)
  end.

(** ** The arena *)

Definition RELATION_FLAG_LIVE : N := 1.
Record SegmentRoleBinding := mkSegmentBinding { sb_entity : N; sb_role_id : N; sb_flags : N }.
Record RelationHeader := mkRelationHeader {
  rh_type_id : N;
  binding_start : N;
  rh_version_row : N;
  rh_provenance_row : N;
  binding_len : N;
  rh_schema_version : N;
  rh_epistemic_status : N;
  rh_lifecycle_status : N;
  rh_flags : N
}.
#[export] Instance eta_RelationHeader : Eta RelationHeader := λ h,
  mkRelationHeader (rh_type_id h) (binding_start h) (rh_version_row h) (rh_provenance_row h) (binding_len h)
    (rh_schema_version h) (rh_epistemic_status h) (rh_lifecycle_status h) (rh_flags h).

Section arena.
Context {B : Type} `{!Roaring B, !RoaringSets B}.

Record RelationArena := mkRelationArena {
  ra_next_id : N;
  ra_headers : list RelationHeader;
  ra_bindings : list SegmentRoleBinding;
  ra_id_to_index : gmap N N;
  ra_index_to_id : list N;
  ra_live : B
}.
Definition relation_arena_new (start : N) : RelationArena := mkRelationArena start [] [] ∅ [] roaring_new.
(** The identifiers given out next stay above every bound one. *)
Definition relation_bind (id : N) (h : RelationHeader) (bs : list SegmentRoleBinding) (a : RelationArena) : N * RelationArena :=
  let index := as_u32 (lenN (ra_headers a)) in
  let h := h <| binding_start := as_u32 (lenN (ra_bindings a)) |> <| binding_len := (lenN bs `mod` u16_modulus)%N |> in
  (index, mkRelationArena (if (ra_next_id a <=? id)%N then u64_add id 1 else ra_next_id a) (ra_headers a ++ [h])
            (ra_bindings a ++ bs) (<[id := index]> (ra_id_to_index a)) (ra_index_to_id a ++ [id]) (roaring_insert index (ra_live a))).
Definition relation_alloc (h : RelationHeader) (bs : list SegmentRoleBinding) (a : RelationArena) : N * N * RelationArena :=
  let id := ra_next_id a in
  let index := as_u32 (lenN (ra_headers a)) in
  let h := h <| binding_start := as_u32 (lenN (ra_bindings a)) |> <| binding_len := (lenN bs `mod` u16_modulus)%N |> in
  (id, index, mkRelationArena (u64_add id 1) (ra_headers a ++ [h]) (ra_bindings a ++ bs) (<[id := index]> (ra_id_to_index a))
                (ra_index_to_id a ++ [id]) (roaring_insert index (ra_live a))).
Definition relation_get_by_id (id : N) (a : RelationArena) : option (N * RelationHeader) :=
  i ← ra_id_to_index a !! id; h ← nth_u64 (ra_headers a) i; Some (i, h).
Definition get_bindings (h : RelationHeader) (a : RelationArena) : list SegmentRoleBinding :=
  if (binding_start h + binding_len h <=? lenN (ra_bindings a))%N
  then truncateN (binding_len h) (skipN (binding_start h) (ra_bindings a)) else [].
Definition set_relation_headers (f : list RelationHeader → list RelationHeader) (live : B) (a : RelationArena) : RelationArena :=
  mkRelationArena (ra_next_id a) (f (ra_headers a)) (ra_bindings a) (ra_id_to_index a) (ra_index_to_id a) live.
Definition update_header (i : N) (h : RelationHeader) (a : RelationArena) : RelationArena :=
  set_relation_headers (alter (λ _, h) (N.to_nat i)) (ra_live a) a.
Definition relation_delete (id : N) (a : RelationArena) : bool * RelationArena :=
  match ra_id_to_index a !! id with
  | Some i =>
      (true, set_relation_headers
               (alter (λ h, h <| rh_flags ::= λ f, N.ldiff f RELATION_FLAG_LIVE |>
                              <| rh_lifecycle_status := lifecycle_u8 LTombstoned |>) (N.to_nat i))
               (roaring_remove i (ra_live a)) a)
  | None => (false, a)
  end.
Definition relation_index_to_id (i : N) (a : RelationArena) : option N := nth_u64 (ra_index_to_id a) i.
Definition relation_live_ids (a : RelationArena) : list N :=
  omap (λ i, nth_u64 (ra_index_to_id a) i) (roaring_iter (ra_live a)).
Definition relation_all_ids (a : RelationArena) : list N := ra_index_to_id a.
End arena.
Arguments RelationArena : clear implicits.

(** ** Versions *)

Record RelationVersionRow := mkRelationVersion {
  rv_relation_id : N;
  rv_version_id : N;
  rv_valid_from : N;
  rv_valid_until : N;
  rv_prev_row : N;
  rv_provenance_row : N;
  rv_epistemic_status : N;
  rv_lifecycle_status : N
}.
#[export] Instance eta_RelationVersionRow : Eta RelationVersionRow := λ r,
  mkRelationVersion (rv_relation_id r) (rv_version_id r) (rv_valid_from r) (rv_valid_until r) (rv_prev_row r)
    (rv_provenance_row r) (rv_epistemic_status r) (rv_lifecycle_status r).
Definition relation_visible_at (lsn : N) (r : RelationVersionRow) : bool :=
  (rv_valid_from r <=? lsn)%N && ((rv_valid_until r =? u64_max)%N || (lsn <? rv_valid_until r)%N).

Record RelationVersionTable := mkRelationVersions {
  rvt_next_id : N;
  rvt_rows : list RelationVersionRow;
  rvt_id_to_row : gmap N N;
  rvt_index_to_id : list N
}.
Definition relation_versions_new (start : N) : RelationVersionTable := mkRelationVersions start [] ∅ [].
Definition relation_version_append (row : RelationVersionRow) (t : RelationVersionTable) : N * N * RelationVersionTable :=
  let vid := rvt_next_id t in
  let i := as_u32 (lenN (rvt_rows t)) in
  (vid, i, mkRelationVersions (u64_add vid 1) (rvt_rows t ++ [row <| rv_version_id := vid |>]) (<[vid := i]> (rvt_id_to_row t))
             (rvt_index_to_id t ++ [vid])).
Definition relation_version_bind (vid : N) (row : RelationVersionRow) (t : RelationVersionTable) : N * RelationVersionTable :=
  let i := as_u32 (lenN (rvt_rows t)) in
  (i, mkRelationVersions (if (rvt_next_id t <=? vid)%N then u64_add vid 1 else rvt_next_id t) (rvt_rows t ++ [row])
        (<[vid := i]> (rvt_id_to_row t)) (rvt_index_to_id t ++ [vid])).
(** The lifecycle of a closed version stays. *)
Definition close_relation_version (i lsn : N) (t : RelationVersionTable) : RelationVersionTable :=
  mkRelationVersions (rvt_next_id t) (alter (λ r, r <| rv_valid_until := lsn |>) (N.to_nat i) (rvt_rows t))
    (rvt_id_to_row t) (rvt_index_to_id t).

(** ** Segments and mutations *)

Section segment.
Context {B : Type} `{!Roaring B, !RoaringSets B} `{!HashOrder}.

Record RelationSegment := mkRelationSegment {
  rsg_generation : N;
  rsg_arena : RelationArena B;
  rsg_versions : RelationVersionTable;
  rsg_incidence : IncidenceIndex;
  rsg_types : list RelationType
}.
Definition relation_segment_new (generation start : N) : RelationSegment :=
  mkRelationSegment generation (relation_arena_new start) (relation_versions_new 1) ∅ [].
Definition set_types (ts : list RelationType) (s : RelationSegment) : RelationSegment :=
  mkRelationSegment (rsg_generation s) (rsg_arena s) (rsg_versions s) (rsg_incidence s) ts.
Definition register_type (t : RelationType) (s : RelationSegment) : RelationSegment := set_types (rsg_types s ++ [t]) s.
Definition get_type_schema (type_id : N) (s : RelationSegment) : option RelationType :=
  find_first (λ t, (rt_id t =? type_id)%N) (rsg_types s).
(** The first type of the identifier *)
Fixpoint update_type (type_id : N) (f : RelationType → RelationType) (ts : list RelationType) : list RelationType :=
  match ts with
  | [] => []
  | t :: ts => if (rt_id t =? type_id)%N then f t :: ts else t :: update_type type_id f ts
  end.
Definition prevalidate_evolved_type (t : RelationType) (s : RelationSegment) : bool :=
  match get_type_schema (rt_id t) s with
  | Some existing => (structural_fingerprint existing =? structural_fingerprint t)%N
  | None => true
  end.
(** Called after [prevalidate_evolved_type]; a debug build asserts that it accepted. *)
Definition synchronize_evolved_type (t : RelationType) (s : RelationSegment) : RelationSegment :=
  match get_type_schema (rt_id t) s with
  | Some _ =>
      set_types (update_type (rt_id t) (λ e, e <| rt_state := rt_state t |> <| rt_provenance_id := rt_provenance_id t |>
                                              <| rt_schema_version := rt_schema_version t |>) (rsg_types s)) s
  | None => register_type t s
  end.

Inductive RelationMutationError :=
  | TypeNotFound (type_id : N)
  | SchemaValidation (e : SchemaValidationError)
  | RelationAlreadyExists (id : N)
  | RelationNotFound (id : N)
  | RelationTombstoned (id : N)
  | BindingEntityNotFound (id : N)
  | EpistemicMismatch (expected actual : EpistemicStatus)
  | EpistemicTransition (e : EpistemicTransitionError)
  | TypeStateConflict (expected actual : RelationTypeState).

Inductive RelationMutation :=
  | RProposeType (schema : RelationType)
  | RAdmitType (type_id : N) (expected_state : RelationTypeState)
  | RDeprecateType (type_id : N) (expected_state : RelationTypeState)
  | RCreate (relation_id type_id : N) (bs : list DurableRoleBinding) (provenance_id : N)
      (record : option ProvenanceRecord) (epistemic : EpistemicStatus)
  | RCreateVersion (relation_id version_id provenance_id : N) (record : option ProvenanceRecord) (epistemic : EpistemicStatus)
  | RTransition (relation_id version_id : N) (expected next : EpistemicStatus) (ev : list DurableEvidenceRef)
      (provenance_id : N) (record : option ProvenanceRecord)
  | RTombstone (relation_id : N).

(** A given record is appended under a new identifier; otherwise the identifier is
    looked up. *)
Definition append_provenance (provenance_id : N) (record : option ProvenanceRecord) (p : ProvenanceArena) : N * ProvenanceArena :=
  match record with
  | Some r => let '(_, i, p) := provenance_append r p in (i, p)
  | None => (default NULL_ROW_REF (pa_id_to_index p !! provenance_id), p)
  end.
Definition add_evidence (ev : list DurableEvidenceRef) (r : ProvenanceRecord) : ProvenanceRecord :=
  mkProvenance (source_uri r) (actor_id r) (extraction_method r) (pr_commit_lsn r) (timestamp_ms r) (confidence r)
    (evidence r ++ ev) (signature_hash r).
Definition with_provenance (p : ProvenanceArena) (e : EntitySegment) : EntitySegment :=
  mkEntitySegment (es_generation e) (es_arena e) p (es_versions e) (es_vectors e).

(** Durable bindings to local ones; the first entity that is missing or deleted *)
Fixpoint localize (bs : list DurableRoleBinding) (a : EntityArena) : Result (list SegmentRoleBinding) N :=
  match bs with
  | [] => Ok []
  | b :: bs =>
      match entity_get_by_id (b_entity_id b) a with
      | None => Err (b_entity_id b)
      | Some (i, _) =>
          match localize bs a with
          | Ok ls => Ok (mkSegmentBinding i (b_role_id b) 0 :: ls)
          | Err e => Err e
          end
      end
  end.
Fixpoint index_bindings (type_id relation : N) (bs : list SegmentRoleBinding) (i : IncidenceIndex) : option IncidenceIndex :=
  match bs with
  | [] => Some i
  | b :: bs => i ← incidence_insert type_id (sb_role_id b) (sb_entity b) relation i; index_bindings type_id relation bs i
  end.

(** The end of [CreateRelationVersion] and [TransitionEpistemic]: the head is closed,
    the new version bound and made the head. *)
Definition advance_relation (id version_id i prov lsn : N) (header : RelationHeader) (e : EpistemicStatus)
    (r : RelationSegment) : RelationSegment :=
  let old := rh_version_row header in
  let t := if (old =? NULL_ROW_REF)%N then rsg_versions r else close_relation_version old lsn (rsg_versions r) in
  let '(row, t) := relation_version_bind version_id
                     (mkRelationVersion id version_id lsn u64_max old prov (epistemic_u8 e) (lifecycle_u8 LActive)) t in
  let header := header <| rh_version_row := row |> <| rh_provenance_row := prov |> <| rh_epistemic_status := epistemic_u8 e |> in
  mkRelationSegment (rsg_generation r) (update_header i header (rsg_arena r)) t (rsg_incidence r) (rsg_types r).

Definition set_type_state (type_id : N) (expected next : RelationTypeState) (r : RelationSegment) :
    Result unit RelationMutationError * RelationSegment :=
  match get_type_schema type_id r with
  | None => (Err (TypeNotFound type_id), r)
  | Some t =>
      if bool_decide (rt_state t ≠ expected) then (Err (TypeStateConflict expected (rt_state t)), r)
      else (Ok tt, set_types (update_type type_id (λ t, t <| rt_state := next |>) (rsg_types r)) r)
  end.

Definition relation_create (id type_id : N) (bs : list DurableRoleBinding) (provenance_id : N) (record : option ProvenanceRecord)
    (e : EpistemicStatus) (lsn : N) (r : RelationSegment) (es : EntitySegment) :
    option (Result unit RelationMutationError * RelationSegment * EntitySegment) :=
  match relation_get_by_id id (rsg_arena r) with
  | Some _ => Some (Err (RelationAlreadyExists id), r, es)
  | None =>
      match get_type_schema type_id r with
      | None => Some (Err (TypeNotFound type_id), r, es)
      | Some schema =>
          match validate_bindings schema bs with
          | Err err => Some (Err (SchemaValidation err), r, es)
          | Ok _ =>
              match localize bs (es_arena es) with
              | Err entity => Some (Err (BindingEntityNotFound entity), r, es)
              | Ok ls =>
                  let '(prov, p) := append_provenance provenance_id record (es_provenance es) in
                  let '(_, row, t) := relation_version_append
                                        (mkRelationVersion id 1 lsn u64_max NULL_ROW_REF prov (epistemic_u8 e) (lifecycle_u8 LActive))
                                        (rsg_versions r) in
                  let header := mkRelationHeader type_id 0 row prov (lenN ls `mod` u16_modulus) (rt_schema_version schema)
                                  (epistemic_u8 e) (lifecycle_u8 LActive) RELATION_FLAG_LIVE in
                  let '(i, a) := relation_bind id header ls (rsg_arena r) in
                  inc ← index_bindings type_id i ls (rsg_incidence r);
                  Some (Ok tt, mkRelationSegment (rsg_generation r) a t inc (rsg_types r), with_provenance p es)
              end
          end
      end
  end.

Context (debug : bool).

Definition relation_tombstone (id lsn : N) (r : RelationSegment) : Result unit RelationMutationError * RelationSegment :=
  match relation_get_by_id id (rsg_arena r) with
  | None => (Err (RelationNotFound id), r)
  | Some (i, header) =>
      if bool_decide (lifecycle_from_u8 (rh_lifecycle_status header) = LTombstoned) then (Err (RelationTombstoned id), r)
      else
        let old := rh_version_row header in
        match nth_u64 (rvt_rows (rsg_versions r)) old with
        | None => (Err (RelationNotFound id), r)
        | Some old_row =>
            let t := close_relation_version old lsn (rsg_versions r) in
            let '(_, row, t) := relation_version_append
                                  (mkRelationVersion id 0 lsn u64_max old (rv_provenance_row old_row)
                                     (rv_epistemic_status old_row) (lifecycle_u8 LTombstoned)) t in
            let header := header <| rh_version_row := row |> <| rh_lifecycle_status := lifecycle_u8 LTombstoned |> in
            let a := update_header i header (rsg_arena r) in
            let a := if debug then (relation_delete id a).2 else a in
            (Ok tt, mkRelationSegment (rsg_generation r) a t (rsg_incidence r) (rsg_types r))
        end
  end.

Definition relation_apply (m : RelationMutation) (lsn : N) (r : RelationSegment) (es : EntitySegment) :
    option (Result unit RelationMutationError * RelationSegment * EntitySegment) :=
  match m with
  | RProposeType schema => Some (Ok tt, register_type (schema <| rt_state := Proposed |>) r, es)
  | RAdmitType type_id expected => let '(x, r) := set_type_state type_id expected Admitted_ r in Some (x, r, es)
  | RDeprecateType type_id expected => let '(x, r) := set_type_state type_id expected Deprecated r in Some (x, r, es)
  | RCreate id type_id bs provenance_id record e => relation_create id type_id bs provenance_id record e lsn r es
  | RCreateVersion id version_id provenance_id record e =>
      match relation_get_by_id id (rsg_arena r) with
      | None => Some (Err (RelationNotFound id), r, es)
      | Some (i, header) =>
          if bool_decide (lifecycle_from_u8 (rh_lifecycle_status header) = LTombstoned) then Some (Err (RelationTombstoned id), r, es)
          else
            let '(prov, p) := append_provenance provenance_id record (es_provenance es) in
            Some (Ok tt, advance_relation id version_id i prov lsn header e r, with_provenance p es)
      end
  | RTransition id version_id expected next ev provenance_id record =>
      match relation_get_by_id id (rsg_arena r) with
      | None => Some (Err (RelationNotFound id), r, es)
      | Some (i, header) =>
          if bool_decide (lifecycle_from_u8 (rh_lifecycle_status header) = LTombstoned) then Some (Err (RelationTombstoned id), r, es)
          else
            let actual := epistemic_from_u8 (rh_epistemic_status header) in
            if bool_decide (actual ≠ expected) then Some (Err (EpistemicMismatch expected actual), r, es)
            else match validate_epistemic_transition expected next with
                 | Err e => Some (Err (EpistemicTransition e), r, es)
                 | Ok _ =>
                     let '(prov, p) := append_provenance provenance_id (add_evidence ev <$> record) (es_provenance es) in
                     Some (Ok tt, advance_relation id version_id i prov lsn header next r, with_provenance p es)
                 end
      end
  | RTombstone id => let '(x, r) := relation_tombstone id lsn r in Some (x, r, es)
  end.
End segment.
Arguments RelationSegment : clear implicits.

(** ** Reads *)

Record ResolvedRelationVersion := mkResolvedRelation {
  rr_relation_id : N;
  rr_version_id : N;
  rr_type_id : N;
  rr_schema_version : N;
  rr_valid_from : N;
  rr_valid_until : option N;
  rr_epistemic : EpistemicStatus;
  rr_lifecycle : LifecycleStatus;
  rr_bindings : list DurableRoleBinding;
  rr_provenance : option ProvenanceRecord
}.
Fixpoint find_relation_version (fuel : nat) (rows : list RelationVersionRow) (lsn curr : N) : option RelationVersionRow :=
  match fuel with
  | O => None
  | S fuel =>
      if (curr =? NULL_ROW_REF)%N then None
      else row ← nth_u64 rows curr;
           if relation_visible_at lsn row then Some row else find_relation_version fuel rows lsn (rv_prev_row row)
  end.

Section read.
Context {B : Type} `{!Roaring B, !RoaringSets B} `{!HashOrder}.

Definition durable_bindings (h : RelationHeader) (r : RelationSegment B) (es : EntitySegment) : list DurableRoleBinding :=
  omap (λ b, id ← entity_index_to_id (sb_entity b) (es_arena es); Some (mkBinding id (sb_role_id b))) (get_bindings h (rsg_arena r)).
Definition resolve_relation_at (id lsn : N) (r : RelationSegment B) (es : EntitySegment) : option ResolvedRelationVersion :=
  '(_, h) ← relation_get_by_id id (rsg_arena r);
  if (rh_version_row h =? NULL_ROW_REF)%N then None
  else
    v ← find_relation_version (S (length (rvt_rows (rsg_versions r)))) (rvt_rows (rsg_versions r)) lsn (rh_version_row h);
    Some (mkResolvedRelation id (rv_version_id v) (rh_type_id h) (rh_schema_version h) (rv_valid_from v)
            (if (rv_valid_until v =? u64_max)%N then None else Some (rv_valid_until v))
            (epistemic_from_u8 (rv_epistemic_status v)) (lifecycle_from_u8 (rv_lifecycle_status v))
            (durable_bindings h r es) (row_provenance (rv_provenance_row v) (es_provenance es))).

(** ** Queries *)

Inductive SchemaScope := AdmittedOnly | IncludeProposed | Historical.
Record RelationQuery := mkRelationQuery {
  q_type_id : option N;
  role_constraints : list (N * N);
  epistemic_in : option (list EpistemicStatus);
  q_scope : SchemaScope;
  as_of_lsn : option N
}.
Fixpoint constraint_postings (type_id : N) (cs : list (N * N)) (r : RelationSegment B) (es : EntitySegment) : option (list (list N)) :=
  match cs with
  | [] => Some []
  | (role, entity) :: cs =>
      '(i, _) ← entity_get_by_id entity (es_arena es);
      ps ← constraint_postings type_id cs r es;
      Some (incidence_lookup type_id role i (rsg_incidence r) :: ps)
  end.
Definition in_scope (scope : SchemaScope) (type_id : N) (r : RelationSegment B) : bool :=
  match get_type_schema type_id r with
  | None => true
  | Some t =>
      match scope with
      | AdmittedOnly => bool_decide (rt_state t = Admitted_)
      | IncludeProposed => bool_decide (rt_state t ≠ Deprecated)
      | Historical => true
      end
  end.
Definition query_accepts (q : RelationQuery) (r : RelationSegment B) (v : ResolvedRelationVersion) : bool :=
  negb (bool_decide (rr_lifecycle v = LTombstoned)) &&
  (match q_type_id q with Some t => (rr_type_id v =? t)%N | None => true end) &&
  in_scope (q_scope q) (rr_type_id v) r &&
  (match epistemic_in q with Some allowed => bool_decide (rr_epistemic v ∈ allowed) | None => true end) &&
  forallb (λ '(role, entity), existsb (λ b, (b_role_id b =? role)%N && (b_entity_id b =? entity)%N) (rr_bindings v)) (role_constraints q).
(** The candidates: [Some None] when a constrained entity does not exist *)
Definition query_candidates (q : RelationQuery) (r : RelationSegment B) (es : EntitySegment) : option (option (list N)) :=
  let scan := match as_of_lsn q with Some _ => relation_all_ids (rsg_arena r) | None => relation_live_ids (rsg_arena r) end in
  match q_type_id q, role_constraints q with
  | Some type_id, (_ :: _) as cs =>
      match constraint_postings type_id cs r es with
      | None => Some None
      | Some postings =>
          match intersect_postings postings with
          | None => None
          | Some found => Some (Some (omap (λ i, relation_index_to_id i (rsg_arena r)) found))
          end
      end
  | _, _ => Some (Some scan)
  end.
Context `{!SortUnstable}.
Definition query_execute (q : RelationQuery) (snapshot_lsn : N) (r : RelationSegment B) (es : EntitySegment) :
    option (list ResolvedRelationVersion) :=
  let lsn := default snapshot_lsn (as_of_lsn q) in
  c ← query_candidates q r es;
  match c with
  | None => Some []
  | Some ids =>
      Some (sort_by_key rr_relation_id
              (filter (λ v, query_accepts q r v = true) (omap (λ id, resolve_relation_at id lsn r es) ids)))
  end.

(** *** Patterns *)

Inductive HyperPatternSemantics := Symmetric | RoleAware.
Record HyperPatternMember := mkMember { alias : string; m_role_id : option N; m_entity_id : option N }.
Record HyperPattern := mkPattern {
  hp_type_id : option N;
  members : list HyperPatternMember;
  semantics : HyperPatternSemantics;
  hp_epistemic_in : option (list EpistemicStatus);
  hp_scope : SchemaScope;
  hp_as_of_lsn : option N
}.
Record HyperPatternMatch := mkMatch { hm_relation : ResolvedRelationVersion; hm_bindings : list (string * DurableRoleBinding) }.
Inductive HyperPatternError :=
  | ArityBelowTwo
  | DuplicateAlias (alias : string)
  | RoleOnSymmetricMember (alias : string)
  | MissingRole (alias : string).

Fixpoint validate_members (sem : HyperPatternSemantics) (aliases : gset string) (ms : list HyperPatternMember) : Result unit HyperPatternError :=
  match ms with
  | [] => Ok tt
  | m :: ms =>
      if bool_decide (alias m ∈ aliases) then Err (DuplicateAlias (alias m))
      else match sem, m_role_id m with
           | Symmetric, Some _ => Err (RoleOnSymmetricMember (alias m))
           | RoleAware, None => Err (MissingRole (alias m))
           | _, _ => validate_members sem ({[alias m]} ∪ aliases) ms
           end
  end.
Definition pattern_validate (p : HyperPattern) : Result unit HyperPatternError :=
  if (length (members p) <? 2)%nat then Err ArityBelowTwo else validate_members (semantics p) ∅ (members p).

(** [remaining.remove(remaining.iter().position(f)?)] *)
Fixpoint remove_first {A} (f : A → bool) (l : list A) : option (A * list A) :=
  match l with
  | [] => None
  | x :: l => if f x then Some (x, l) else '(y, l') ← remove_first f l; Some (y, x :: l')
  end.
Definition member_fits (sem : HyperPatternSemantics) (m : HyperPatternMember) (b : DurableRoleBinding) : bool :=
  (match m_entity_id m with Some id => (id =? b_entity_id b)%N | None => true end) &&
  (match sem with Symmetric => true | RoleAware => bool_decide (m_role_id m = Some (b_role_id b)) end).
Fixpoint assign_members (sem : HyperPatternSemantics) (ms : list (N * HyperPatternMember)) (remaining : list DurableRoleBinding) :
    option (list (N * HyperPatternMember * DurableRoleBinding)) :=
  match ms with
  | [] => Some []
  | (i, m) :: ms =>
      '(b, remaining) ← remove_first (member_fits sem m) remaining;
      rest ← assign_members sem ms remaining;
      Some ((i, m, b) :: rest)
  end.
Definition binding_cmp (sem : HyperPatternSemantics) (a b : DurableRoleBinding) : comparison :=
  match sem with
  | Symmetric => then_with (N.compare (b_entity_id a) (b_entity_id b)) (N.compare (b_role_id a) (b_role_id b))
  | RoleAware => then_with (N.compare (b_role_id a) (b_role_id b)) (N.compare (b_entity_id a) (b_entity_id b))
  end.
(** [order.sort_by_key(|&idx| self.members[idx].entity_id.is_none())] is stable. *)
Definition member_order (ms : list HyperPatternMember) : list (N * HyperPatternMember) :=
  let l := zip (N.of_nat <$> seq 0 (length ms)) ms in
  filter (λ im, is_Some (m_entity_id im.2)) l ++ filter (λ im, ¬ is_Some (m_entity_id im.2)) l.
Definition match_resolved (p : HyperPattern) (v : ResolvedRelationVersion) : Result (option HyperPatternMatch) HyperPatternError :=
  match pattern_validate p with
  | Err e => Err e
  | Ok _ =>
      if (match hp_type_id p with Some t => negb (t =? rr_type_id v)%N | None => false end) ||
         negb (length (rr_bindings v) =? length (members p))%nat then Ok None
      else if match hp_epistemic_in p with Some allowed => negb (bool_decide (rr_epistemic v ∈ allowed)) | None => false end then Ok None
      else
        match assign_members (semantics p) (member_order (members p)) (sort_by (binding_cmp (semantics p)) (rr_bindings v)) with
        | None => Ok None
        | Some found => Ok (Some (mkMatch v ((λ x, (alias x.1.2, x.2)) <$> sort_by_key (λ x, x.1.1) found)))
        end
  end.
Fixpoint match_all (p : HyperPattern) (vs : list ResolvedRelationVersion) : Result (list HyperPatternMatch) HyperPatternError :=
  match vs with
  | [] => Ok []
  | v :: vs =>
      match match_resolved p v with
      | Err e => Err e
      | Ok x => match match_all p vs with Ok ms => Ok (option_list x ++ ms) | Err e => Err e end
      end
  end.
Definition pattern_execute (p : HyperPattern) (snapshot_lsn : N) (r : RelationSegment B) (es : EntitySegment) :
    option (Result (list HyperPatternMatch) HyperPatternError) :=
  match pattern_validate p with
  | Err e => Some (Err e)
  | Ok _ =>
      vs ← query_execute (mkRelationQuery (hp_type_id p) [] (hp_epistemic_in p) (hp_scope p) (hp_as_of_lsn p)) snapshot_lsn r es;
      Some (match_all p vs)
  end.

(** *** Projection to binary edges *)

Record ProjectedBinaryRelationEdge := mkProjectedEdge {
  pe_relation_id : N;
  pe_version_id : N;
  pe_type_id : N;
  pe_schema_version : N;
  pe_source_role : N;
  pe_target_role : N;
  pe_source : N;
  pe_target : N;
  pe_valid_from : N;
  pe_valid_until : option N;
  pe_epistemic : EpistemicStatus;
  pe_lifecycle : LifecycleStatus;
  pe_provenance : option ProvenanceRecord
}.
Definition projected_edge (v : ResolvedRelationVersion) (source_role target_role source target : N) : ProjectedBinaryRelationEdge :=
  mkProjectedEdge (rr_relation_id v) (rr_version_id v) (rr_type_id v) (rr_schema_version v) source_role target_role source target
    (rr_valid_from v) (rr_valid_until v) (rr_epistemic v) (rr_lifecycle v) (rr_provenance v).
Definition role_members (role : N) (v : ResolvedRelationVersion) : list N :=
  merge_sort N.le (remove_dups (b_entity_id <$> filter (λ b, b_role_id b = role) (rr_bindings v))).
Definition project_resolved_relation (v : ResolvedRelationVersion) (spec : BinaryProjectionSpec) : list ProjectedBinaryRelationEdge :=
  role_members (source_role spec) v ≫= λ s, role_members (target_role spec) v ≫= λ t,
    projected_edge v (source_role spec) (target_role spec) s t ::
    match direction spec with
    | Undirected => if (s =? t)%N then [] else [projected_edge v (target_role spec) (source_role spec) t s]
    | Directed => []
    end.
End read.

(** ** Compaction *)

Section compact.
Context {B : Type} `{!Roaring B, !RoaringSets B}.
Definition compact_binding (old new : EntitySegment) (b : SegmentRoleBinding) : option SegmentRoleBinding :=
  id ← entity_index_to_id (sb_entity b) (es_arena old);
  '(i, _) ← entity_get_by_id id (es_arena new);
  Some (mkSegmentBinding i (sb_role_id b) (sb_flags b)).
Definition compact_relation (r : RelationSegment B) (old new : EntitySegment) (acc : option (RelationSegment B)) (id : N) :
    option (RelationSegment B) :=
  c ← acc;
  match relation_get_by_id id (rsg_arena r) with
  | None => Some c
  | Some (_, h) =>
      let bs := omap (compact_binding old new) (get_bindings h (rsg_arena r)) in
      let '(i, a) := relation_bind id h bs (rsg_arena c) in
      inc ← index_bindings (rh_type_id h) i bs (rsg_incidence c);
      Some (mkRelationSegment (rsg_generation c) a (rsg_versions c) inc (rsg_types c))
  end.
Definition relation_compact (generation : N) (r : RelationSegment B) (old new : EntitySegment) : option (RelationSegment B) :=
  let t := foldl (λ t '(row, vid), (relation_version_bind vid row t).2) (relation_versions_new 1)
             (zip (rvt_rows (rsg_versions r)) (rvt_index_to_id (rsg_versions r))) in
  foldl (compact_relation r old new)
    (Some (mkRelationSegment generation (relation_arena_new 1) t ∅ (rsg_types r))) (relation_live_ids (rsg_arena r)).
End compact.
