(* ===== verification/EntityFacts.v ===== *)
(** Entities over time.  The entity segment refines an abstract history: for every
    entity the list of its versions, newest first, and the provenance records by
    identifier.  The chains of version rows, the provenance arena, the abstract
    knowledge that relations share (RelationFacts.v), and the refinement of the
    mutations and reads of entities. *)

From Stdlib Require Import ZArith.
From stdpp Require Import base gmap sets strings numbers list sorting fin_maps.
From S2P Require Import Prelude.
From S2P Require Import Floats.
From S2P Require Import Hypercube.
From S2P Require Import MetadataIndex.
From S2P Require Import Order.
From S2P Require Import Incidence.
From S2P Require Import Entity.
From S2P Require Import Relation.

Lemma as_u32_small n : (n < u32_modulus)%N → as_u32 n = n.
Proof. apply N.mod_small. Qed.

Lemma nth_u64_app_len {A} (l : list A) x : nth_u64 (l ++ [x]) (lenN l) = Some x.
Proof. unfold nth_u64, lenN. rewrite Nat2N.id. by rewrite list_lookup_middle. Qed.

Lemma nth_u64_app_some {A} (l l' : list A) i x : nth_u64 l i = Some x → nth_u64 (l ++ l') i = Some x.
Proof. unfold nth_u64. apply lookup_app_l_Some. Qed.

Lemma nth_u64_app_inv {A} (l : list A) x i y : nth_u64 (l ++ [x]) i = Some y → nth_u64 l i = Some y ∨ i = lenN l ∧ y = x.
Proof.
  unfold nth_u64, lenN. intros [?|[H1 H2]]%lookup_app_Some; [by left|]. right.
  destruct (N.to_nat i - length l)%nat as [|n] eqn:E; [|done]. cbn in H2. simplify_eq. split; [lia|done].
Qed.

(** ** Chains of versions *)

Section chain.
Context {R : Type} (from until prev : R → N).

(** Rows linked from the one at [i] back to the first one, newest first; a link goes to
    an earlier row. *)
Inductive chain (rows : list R) : N → list R → Prop :=
  | chain_nil : chain rows NULL_ROW_REF []
  | chain_cons i r rs : i ≠ NULL_ROW_REF → nth_u64 rows i = Some r → (prev r = NULL_ROW_REF ∨ prev r < i)%N →
      chain rows (prev r) rs → chain rows i (r :: rs).

(** A version ends where the next one begins, and the newest one has no end. *)
Fixpoint in_order (end_ last : N) (rs : list R) : Prop :=
  match rs with
  | [] => True
  | r :: rs => until r = end_ ∧ (from r ≤ last)%N ∧ in_order (from r) (from r) rs
  end.

Definition row_visible (lsn : N) (r : R) : bool :=
  (from r <=? lsn)%N && ((until r =? u64_max)%N || (lsn <? until r)%N).

Lemma chain_app rows rows' i rs : chain rows i rs → chain (rows ++ rows') i rs.
Proof. induction 1; [constructor|]. econstructor; [done|by apply nth_u64_app_some|done|done]. Qed.

Lemma chain_length rows i rs : chain rows i rs → (length rs ≤ length rows)%nat.
Proof.
  intros H. enough (i = NULL_ROW_REF ∧ rs = [] ∨ (length rs ≤ S (N.to_nat i))%nat ∧ (N.to_nat i < length rows)%nat) by (destruct H0 as [[_ ->]|?]; cbn; lia).
  induction H as [|i r rs Hi Hr Hp Hc IH]; [by left|right]. cbn. apply lookup_lt_Some in Hr.
  destruct IH as [[E ->]|[? ?]]; [cbn; lia|]. destruct Hp as [E|Hp]; [|lia]. rewrite E in Hc. inversion Hc; [cbn; lia|done].
Qed.

(** The rows of a chain other than the head keep what they are when the head is
    changed. *)
Lemma chain_agree rows rows' i rs : (∀ j r, nth_u64 rows j = Some r → r ∈ rs → nth_u64 rows' j = Some r) →
  chain rows i rs → chain rows' i rs.
Proof.
  intros Hr H. revert Hr. induction H as [|i r rs Hi Hl Hp _ IH]; intros Hr; [constructor|].
  econstructor; [done|apply Hr; [done|by left]|done|]. apply IH. intros j x Hj Hx. apply Hr; [done|by right].
Qed.

Lemma in_order_from end_ last rs r : in_order end_ last rs → r ∈ rs → (from r ≤ last)%N.
Proof.
  revert end_ last. induction rs as [|x rs IH]; intros end_ last; [by intros _ ?%elem_of_nil|].
  intros (_ & Hf & Ho) [->|Hr]%elem_of_cons; [done|]. specialize (IH _ _ Ho Hr). lia.
Qed.

(** Walking back to the first visible row finds the newest one that had begun. *)
Lemma first_visible lsn rs : ∀ end_ last, in_order end_ last rs → (end_ = u64_max ∨ lsn < end_)%N →
  find_first (row_visible lsn) rs = find_first (λ r, (from r <=? lsn)%N) rs.
Proof.
  induction rs as [|r rs IH]; intros end_ last; [done|]. intros (He & Hf & Ho) Hend. cbn [find_first].
  assert (row_visible lsn r = (from r <=? lsn)%N) as ->.
  { unfold row_visible. rewrite He. destruct Hend as [->|Hlt]; [by rewrite N.eqb_refl, andb_true_r|].
    rewrite (proj2 (N.ltb_lt _ _) Hlt). by rewrite orb_true_r, andb_true_r. }
  destruct (N.leb_spec (from r) lsn); [done|]. apply (IH (from r) (from r)); [done|by right].
Qed.
End chain.

Lemma find_as_of_chain rows i rs lsn : chain prev_version_row rows i rs → ∀ fuel, (length rs < fuel)%nat →
  (j ← find_as_of_loop fuel rows lsn i; nth_u64 rows j) = find_first (visible_at lsn) rs.
Proof.
  induction 1 as [|i r rs Hi Hr Hp _ IH]; intros [|fuel] Hf; try (cbn in Hf; lia); [done|]. cbn [find_as_of_loop find_first].
  rewrite (proj2 (N.eqb_neq _ _) Hi), Hr. cbn [mbind option_bind]. destruct (visible_at lsn r); [done|]. apply IH. cbn in Hf. lia.
Qed.

Lemma history_chain rows i rs : chain prev_version_row rows i rs → ∀ fuel, (length rs < fuel)%nat → history_of_loop fuel rows i = rs.
Proof.
  induction 1 as [|i r rs Hi Hr Hp _ IH]; intros [|fuel] Hf; try (cbn in Hf; lia); [done|]. cbn [history_of_loop].
  rewrite (proj2 (N.eqb_neq _ _) Hi), Hr. f_equal. apply IH. cbn in Hf. lia.
Qed.

Lemma find_relation_chain rows i rs lsn : chain rv_prev_row rows i rs → ∀ fuel, (length rs < fuel)%nat →
  find_relation_version fuel rows lsn i = find_first (relation_visible_at lsn) rs.
Proof.
  induction 1 as [|i r rs Hi Hr Hp _ IH]; intros [|fuel] Hf; try (cbn in Hf; lia); [done|]. cbn [find_relation_version find_first].
  rewrite (proj2 (N.eqb_neq _ _) Hi), Hr. cbn [mbind option_bind]. destruct (relation_visible_at lsn r); [done|]. apply IH. cbn in Hf. lia.
Qed.

(** ** Provenance *)

(** What is read back of a record: the confidence in sixteenths of a bit pattern *)
Definition quantize (r : ProvenanceRecord) : ProvenanceRecord :=
  mkProvenance (source_uri r) (actor_id r) (extraction_method r) (pr_commit_lsn r) (timestamp_ms r)
    (confidence_f32 (set_confidence_f32 (confidence r))) (evidence r) (signature_hash r).

Definition row_ok (p : ProvenanceArena) (w : ProvenanceRow) : Prop :=
  (pw_source_uri_id w < lenN (interned_strings p))%N ∧ (pw_actor_id w < lenN (interned_strings p))%N ∧
  (pw_extraction_method_id w < lenN (interned_strings p))%N ∧
  (pw_evidence_start w + pw_evidence_len w ≤ lenN (evidence_pool p))%N.
Record prov_ok (p : ProvenanceArena) : Prop := {
  prov_rows : ∀ w, w ∈ pa_rows p → row_ok p w;
  prov_strings : ∀ s id, string_to_id p !! s = Some id → nth_u64 (interned_strings p) id = Some s;
  prov_ids : ∀ id i, pa_id_to_index p !! id = Some i → (i < lenN (pa_rows p))%N
}.
(** Everything that is there stays. *)
Definition prov_le (p p' : ProvenanceArena) : Prop :=
  pa_rows p `prefix_of` pa_rows p' ∧ interned_strings p `prefix_of` interned_strings p' ∧ evidence_pool p `prefix_of` evidence_pool p'.
Definition pa_size (p : ProvenanceArena) : N := (lenN (pa_rows p) + lenN (interned_strings p) + lenN (evidence_pool p))%N.

#[local] Instance prov_le_preorder : PreOrder prov_le.
Proof. split; [intros p; by split_and!|]. intros p q r (? & ? & ?) (? & ? & ?). split_and!; by etrans. Qed.

Lemma resolve_some p i : prov_ok p → (i < lenN (pa_rows p))%N → is_Some (resolve_record i p).
Proof.
  intros [Hr _ _] Hi. unfold resolve_record, lookup_string. destruct (nth_u64_is_Some _ _ Hi) as [w Hw]. rewrite Hw. cbn [mbind option_bind].
  destruct (Hr w) as (H1 & H2 & H3 & _); [by apply list_elem_of_lookup_2 in Hw|].
  destruct (nth_u64_is_Some _ _ H1) as [? ->], (nth_u64_is_Some _ _ H2) as [? ->], (nth_u64_is_Some _ _ H3) as [? ->]. cbn. eauto.
Qed.

Lemma nth_prefix {A} (l l' : list A) i : l `prefix_of` l' → (i < lenN l)%N → nth_u64 l' i = nth_u64 l i.
Proof. intros [k ->] Hi. by apply nth_u64_app_l. Qed.

Lemma resolve_mono p p' i : prov_ok p → prov_le p p' → (i < lenN (pa_rows p))%N → resolve_record i p' = resolve_record i p.
Proof.
  intros [Hr _ _] (Hrows & Hstr & Hpool) Hi. unfold resolve_record, lookup_string. rewrite (nth_prefix _ _ i Hrows Hi).
  destruct (nth_u64 (pa_rows p) i) as [w|] eqn:Hw; [|done]. cbn [mbind option_bind].
  destruct (Hr w) as (H1 & H2 & H3 & H4); [by apply list_elem_of_lookup_2 in Hw|].
  rewrite !(nth_prefix _ _ _ Hstr) by done. destruct Hpool as [k E]. rewrite E, lenN_app.
  rewrite (proj2 (N.leb_le _ (lenN (evidence_pool p))) H4), (proj2 (N.leb_le _ (_ + _)%N)) by lia.
  assert (truncateN (pw_evidence_len w) (skipN (pw_evidence_start w) (evidence_pool p ++ k)) =
    truncateN (pw_evidence_len w) (skipN (pw_evidence_start w) (evidence_pool p))) as ->; [|done].
  rewrite skipN_app_le by lia. apply truncateN_app_le. rewrite lenN_skip. lia.
Qed.

Lemma intern_spec s p : prov_ok p → (lenN (interned_strings p) < u32_modulus)%N →
  ∃ id p', intern_string s p = (id, p') ∧ prov_ok p' ∧ prov_le p p' ∧ nth_u64 (interned_strings p') id = Some s ∧
    pa_rows p' = pa_rows p ∧ pa_id_to_index p' = pa_id_to_index p ∧ evidence_pool p' = evidence_pool p ∧
    pa_next_id p' = pa_next_id p ∧ (lenN (interned_strings p') ≤ lenN (interned_strings p) + 1)%N.
Proof.
  intros Hok Hlt. pose proof Hok as [Hr Hs Hi]. unfold intern_string. destruct (string_to_id p !! s) as [id|] eqn:E.
  { eexists id, p. split; [done|]. split_and!; [done|reflexivity|by apply Hs|done..|lia]. }
  rewrite as_u32_small by done. eexists _, _. split; [reflexivity|]. cbn.
  assert (interned_strings p `prefix_of` interned_strings p ++ [s]) as Hp by (by eexists).
  split_and!; try done.
  - split; cbn; [| |done].
    + intros w Hw. destruct (Hr w Hw) as (? & ? & ? & ?). unfold row_ok. cbn. rewrite lenN_snoc. split_and!; (done || lia).
    + intros s' id [[<- <-]|[_ H']]%lookup_insert_Some; [apply nth_u64_app_len|by apply nth_u64_app_some, Hs].
  - apply nth_u64_app_len.
  - rewrite lenN_snoc. lia.
Qed.

Lemma store_spec ev pool : (lenN pool + lenN ev < u32_modulus)%N →
  ∃ start len, store_evidence ev pool = (start, len, pool ++ ev) ∧ (start + len ≤ lenN (pool ++ ev))%N ∧
    (if (0 <? len)%N then if (start + len <=? lenN (pool ++ ev))%N then truncateN len (skipN start (pool ++ ev)) else [] else []) = ev.
Proof.
  intros Hlt. unfold store_evidence. destruct ev as [|e ev].
  - eexists _, _. rewrite app_nil_r. split_and!; [done|lia|done].
  - eexists _, _. split; [reflexivity|]. rewrite !as_u32_small by lia. rewrite lenN_app. split; [lia|].
    rewrite (proj2 (N.ltb_lt _ _)) by (apply lenN_pos; done). rewrite (proj2 (N.leb_le _ _)) by lia.
    rewrite skipN_app by done. unfold truncateN, lenN. apply take_ge. lia.
Qed.

Lemma bind_spec id r p : prov_ok p → (pa_size p + lenN (evidence r) + 4 < NULL_ROW_REF)%N →
  ∃ p', provenance_bind id r p = (lenN (pa_rows p), p') ∧ prov_ok p' ∧ prov_le p p' ∧
    resolve_record (lenN (pa_rows p)) p' = Some (quantize r) ∧ pa_id_to_index p' = <[id := lenN (pa_rows p)]> (pa_id_to_index p) ∧
    lenN (pa_rows p') = (lenN (pa_rows p) + 1)%N ∧ pa_next_id p' = pa_next_id p ∧
    (pa_size p' ≤ pa_size p + lenN (evidence r) + 4)%N.
Proof.
  intros Hok Hsz. unfold pa_size, NULL_ROW_REF in Hsz.
  assert (u32_modulus = 4294967296%N) as Hmod by done. unfold provenance_bind.
  destruct (intern_spec (source_uri r) p Hok) as (i1 & p1 & -> & Hok1 & Hle1 & Hn1 & Er1 & Ei1 & Ee1 & En1 & Hl1); [lia|].
  destruct (intern_spec (actor_id r) p1 Hok1) as (i2 & p2 & -> & Hok2 & Hle2 & Hn2 & Er2 & Ei2 & Ee2 & En2 & Hl2); [lia|].
  destruct (intern_spec (extraction_method r) p2 Hok2) as (i3 & p3 & -> & Hok3 & Hle3 & Hn3 & Er3 & Ei3 & Ee3 & En3 & Hl3); [lia|].
  assert (nth_u64 (interned_strings p3) i1 = Some (source_uri r) ∧ nth_u64 (interned_strings p3) i2 = Some (actor_id r)) as [Hn1' Hn2'].
  { destruct Hle2 as (_ & [k2 E2] & _), Hle3 as (_ & [k3 E3] & _). rewrite E3. split; apply nth_u64_app_some; [rewrite E2; by apply nth_u64_app_some|done]. }
  assert (evidence_pool p3 = evidence_pool p) as Epool by congruence.
  destruct (store_spec (evidence r) (evidence_pool p3)) as (start & len & -> & Hbnd & Hslice); [rewrite Epool; lia|].
  rewrite Epool in *.
  rewrite Er3, Er2, Er1, as_u32_small by lia. eexists. split; [reflexivity|].
  assert (prov_le p p3) as Hle by (etrans; [done|]; by etrans). destruct Hle as (_ & Hstr & _).
  assert (lenN (interned_strings p) ≤ lenN (interned_strings p3))%N as Hls by (destruct Hstr as [k ->]; rewrite lenN_app; lia).
  cbn. split_and!.
  - split; cbn.
    + intros w [Hw| ->%list_elem_of_singleton]%elem_of_app; unfold row_ok; cbn.
      * destruct Hok as [Hr _ _]. destruct (Hr w Hw) as (? & ? & ? & ?). rewrite lenN_app. split_and!; lia.
      * split_and!; [by apply nth_u64_lt in Hn1'|by apply nth_u64_lt in Hn2'|by apply nth_u64_lt in Hn3|done].
    + intros s sid Hs'. by apply Hok3.
    + intros id' i. rewrite Ei3, Ei2, Ei1, lenN_snoc. intros [[_ <-]|[_ H']]%lookup_insert_Some; [lia|].
      destruct Hok as [_ _ Hi]. specialize (Hi _ _ H'). lia.
  - split_and!; cbn; [by eexists|done|by eexists].
  - unfold resolve_record. cbn. rewrite nth_u64_app_len. cbn [mbind option_bind]. unfold lookup_string. cbn.
    rewrite Hn1', Hn2', Hn3. cbn [mbind option_bind]. rewrite Hslice. done.
  - by rewrite Ei3, Ei2, Ei1.
  - apply lenN_snoc.
  - congruence.
  - unfold pa_size. cbn. rewrite lenN_snoc, lenN_app. lia.
Qed.

(** The records by identifier *)
Definition prov_rep (recs : gmap N ProvenanceRecord) (p : ProvenanceArena) : Prop :=
  prov_ok p ∧ ∀ id, recs !! id = (pa_id_to_index p !! id ≫= λ i, resolve_record i p).
Definition record_cost (record : option ProvenanceRecord) : N :=
  match record with Some r => lenN (evidence r) + 4 | None => 0 end.
(** A row that a version may refer to *)
Definition prov_ref (row : N) (p : ProvenanceArena) : Prop := row = NULL_ROW_REF ∨ (row < lenN (pa_rows p))%N.

Lemma prov_ref_mono row p p' : prov_le p p' → prov_ref row p → prov_ref row p'.
Proof. intros ([k E] & _) [->|H]; [by left|right]. rewrite E, lenN_app. lia. Qed.

Lemma row_provenance_mono row p p' : prov_ok p → prov_le p p' → prov_ref row p → row_provenance row p' = row_provenance row p.
Proof.
  intros Hok Hle [->|H]; [done|]. unfold row_provenance. destruct (row =? NULL_ROW_REF)%N; [done|]. by apply resolve_mono.
Qed.

Lemma prov_rep_bind recs p id i p' q : prov_rep recs p → prov_ok p' → prov_le p p' →
  pa_id_to_index p' = <[id := i]> (pa_id_to_index p) → resolve_record i p' = Some q → prov_rep (<[id := q]> recs) p'.
Proof.
  intros [Hok Hr] Hok' Hle Ei Hq. split; [done|]. intros id'. rewrite Ei. destruct (decide (id' = id)) as [->|Hne].
  - by rewrite !lookup_insert_eq.
  - rewrite !lookup_insert_ne by done. rewrite Hr. destruct (pa_id_to_index p !! id') as [j|] eqn:Ej; [|done]. cbn.
    symmetry. apply resolve_mono; [done|done|]. by apply (prov_ids p Hok id').
Qed.

Lemma lookup_provenance recs p id : prov_rep recs p → (pa_size p < NULL_ROW_REF)%N →
  let i := default NULL_ROW_REF (pa_id_to_index p !! id) in prov_ref i p ∧ row_provenance i p = recs !! id.
Proof.
  intros [Hok Hr] Hsz. rewrite Hr. destruct (pa_id_to_index p !! id) as [i|] eqn:Ei; cbn; [|by split; [left|]].
  pose proof (prov_ids p Hok id i Ei) as Hi. split; [by right|]. unfold row_provenance.
  rewrite (proj2 (N.eqb_neq _ _)); [done|]. unfold pa_size in Hsz. lia.
Qed.

(** What [EntityMutation] does with its record, and what [RelationMutation] does *)
Definition bind_record (id : N) (record : option ProvenanceRecord) (recs : gmap N ProvenanceRecord) :
    option ProvenanceRecord * gmap N ProvenanceRecord :=
  match record with
  | Some r => (Some (quantize r), <[id := quantize r]> recs)
  | None => (recs !! id, recs)
  end.

Lemma bind_provenance_spec id record recs p : prov_rep recs p → (pa_size p + record_cost record < NULL_ROW_REF)%N →
  ∃ i p', bind_provenance id record p = (i, p') ∧ prov_rep (bind_record id record recs).2 p' ∧ prov_le p p' ∧ prov_ref i p' ∧
    row_provenance i p' = (bind_record id record recs).1 ∧ pa_next_id p' = pa_next_id p ∧ (pa_size p' ≤ pa_size p + record_cost record)%N.
Proof.
  intros Hrep Hsz. pose proof Hrep as [Hok Hr]. destruct record as [r|]; cbn [record_cost bind_record bind_provenance fst snd] in *.
  - destruct (bind_spec id r p Hok ltac:(lia)) as (p' & -> & Hok' & Hle & Hq & Ei & Hl & En & Hs). eexists _, _. split; [reflexivity|].
    split_and!; [by apply (prov_rep_bind recs p id (lenN (pa_rows p)))|done|right; lia| |done|lia].
    unfold row_provenance. rewrite (proj2 (N.eqb_neq _ _)); [done|]. unfold pa_size in Hsz. lia.
  - destruct (lookup_provenance recs p id Hrep ltac:(lia)) as [Href Hrow]. eexists _, _. split; [reflexivity|].
    split_and!; [done|reflexivity|done|done|done|lia].
Qed.

Definition append_record (id next : N) (record : option ProvenanceRecord) (recs : gmap N ProvenanceRecord) :
    option ProvenanceRecord * gmap N ProvenanceRecord * N :=
  match record with
  | Some r => (Some (quantize r), <[next := quantize r]> recs, u64_add next 1)
  | None => (recs !! id, recs, next)
  end.

Lemma append_provenance_spec id record recs p : prov_rep recs p → (pa_size p + record_cost record < NULL_ROW_REF)%N →
  let '(pr, recs', next) := append_record id (pa_next_id p) record recs in
  ∃ i p', append_provenance id record p = (i, p') ∧ prov_rep recs' p' ∧ prov_le p p' ∧ prov_ref i p' ∧
    row_provenance i p' = pr ∧ pa_next_id p' = next ∧ (pa_size p' ≤ pa_size p + record_cost record)%N.
Proof.
  intros Hrep Hsz. pose proof Hrep as [Hok Hr]. destruct record as [r|]; cbn [record_cost append_record append_provenance] in *.
  - unfold provenance_append. set (p0 := mkProvenanceArena _ _ _ _ _ _ _).
    assert (prov_ok p0) as Hok0 by (destruct Hok; by split). assert (prov_le p p0) as Hle0 by (by split_and!).
    destruct (bind_spec (pa_next_id p) r p0 Hok0 ltac:(unfold p0, pa_size in *; cbn; lia)) as (p' & -> & Hok' & Hle & Hq & Ei & Hl & En & Hs).
    eexists _, _. split; [reflexivity|]. assert (prov_le p p') as Hle' by (by etrans).
    split_and!; [by apply (prov_rep_bind recs p (pa_next_id p) (lenN (pa_rows p0)))|done|right; lia| |exact En|change (pa_size p0) with (pa_size p) in Hs; lia].
    unfold row_provenance. rewrite (proj2 (N.eqb_neq _ _)); [done|]. unfold pa_size in Hsz. unfold p0. cbn. lia.
  - destruct (lookup_provenance recs p id Hrep ltac:(lia)) as [Href Hrow]. eexists _, _. split; [reflexivity|].
    split_and!; [done|reflexivity|done|done|done|lia].
Qed.

Lemma chain_null {R} (prev : R → N) rows rs : chain prev rows NULL_ROW_REF rs → rs = [].
Proof. inversion 1; [done|congruence]. Qed.

Lemma chain_inv {R} (prev : R → N) rows i r rs : chain prev rows i (r :: rs) →
  i ≠ NULL_ROW_REF ∧ nth_u64 rows i = Some r ∧ (prev r = NULL_ROW_REF ∨ prev r < i)%N ∧ chain prev rows (prev r) rs.
Proof. by inversion 1. Qed.

Lemma chain_below {R} (prev : R → N) rows rows' i rs : chain prev rows i rs →
  (∀ j r, (j ≤ i)%N → nth_u64 rows j = Some r → nth_u64 rows' j = Some r) → chain prev rows' i rs.
Proof.
  induction 1 as [|i r rs Hi Hr Hp Hc IH]; intros Hsame; [constructor|].
  econstructor; [done|by apply Hsame|done|]. destruct Hp as [E|Hlt].
  - rewrite E in Hc |- *. apply chain_null in Hc as ->. constructor.
  - apply IH. intros j x Hj. apply Hsame. lia.
Qed.

Lemma chain_lt {R} (prev : R → N) rows i rs : chain prev rows i rs → rs ≠ [] → (i < lenN rows)%N.
Proof. destruct 1 as [|i r rs _ Hr _ _]; [done|]. intros _. by apply nth_u64_lt in Hr. Qed.

Lemma nth_alter_ne {A} (f : A → A) (l : list A) i j : i ≠ j → nth_u64 (alter f (N.to_nat i) l) j = nth_u64 l j.
Proof. intros. unfold nth_u64. rewrite list_lookup_alter_ne by lia. done. Qed.
Lemma nth_alter_eq {A} (f : A → A) (l : list A) i : nth_u64 (alter f (N.to_nat i) l) i = f <$> nth_u64 l i.
Proof. apply list_lookup_alter_eq. Qed.
Lemma lenN_alter {A} (f : A → A) (l : list A) i : lenN (alter f i l) = lenN l.
Proof. unfold lenN. by rewrite length_alter. Qed.

(** The head is closed and a new one put in front of it. *)
Lemma chain_push {R} (prev : R → N) (close : R → R) rows i r0 rs row : chain prev rows i (r0 :: rs) →
  (∀ r, prev (close r) = prev r) → prev row = i → (lenN rows < NULL_ROW_REF)%N →
  chain prev (alter close (N.to_nat i) rows ++ [row]) (lenN rows) (row :: close r0 :: rs).
Proof.
  intros Hc Hclose Ep Hlen. pose proof (chain_lt _ _ _ _ Hc ltac:(done)) as Hlt. apply chain_inv in Hc as (Hi & Hr0 & Hp & Hc).
  econstructor; [lia| |right; by rewrite Ep|].
  { rewrite <- (lenN_alter close rows (N.to_nat i)). apply nth_u64_app_len. }
  rewrite Ep. econstructor; [done| |by rewrite Hclose|].
  { apply nth_u64_app_some. by rewrite nth_alter_eq, Hr0. }
  rewrite Hclose. destruct Hp as [E|Hp]; [rewrite E in Hc |- *; apply chain_null in Hc as ->; constructor|].
  eapply chain_below; [done|]. intros j r Hj Hjr. apply nth_u64_app_some. rewrite nth_alter_ne by lia. done.
Qed.

(** ** The abstract knowledge *)

Record Knowledge := mkKnowledge {
  k_entities : gmap N (bool * list ResolvedEntityVersion);
  k_relations : gmap N (list ResolvedRelationVersion);
  k_records : gmap N ProvenanceRecord;
  k_next_record : N;
  k_next_version : N;
  k_types : list RelationType
}.
Definition nothing : Knowledge := mkKnowledge ∅ ∅ ∅ 1 1 [].
Definition set_entities (ents : gmap N (bool * list ResolvedEntityVersion)) (recs : gmap N ProvenanceRecord) (k : Knowledge) : Knowledge :=
  mkKnowledge ents (k_relations k) recs (k_next_record k) (k_next_version k) (k_types k).

(** A closed entity version has an end, and counts as superseded from then on. *)
Definition close_entity (lsn : N) (v : ResolvedEntityVersion) : ResolvedEntityVersion :=
  mkResolvedEntity (re_entity_id v) (re_version_id v) (re_valid_from_lsn v) (Some lsn) (re_epistemic_status v) LSuperseded
    (re_relation_kind v) (re_property_row v) (re_vector_row v) (re_provenance v).
Definition close_head {A} (f : A → A) (vs : list A) : list A := match vs with v :: vs => f v :: vs | [] => [] end.

Definition entity_step (m : EntityMutation) (lsn : N) (k : Knowledge) : Result unit MutationApplyError * Knowledge :=
  match m with
  | ECreate id header version_id provenance_id record e =>
      match k_entities k !! id with
      | Some _ => (Err (EntityAlreadyExists id), k)
      | None =>
          let '(pr, recs) := bind_record provenance_id record (k_records k) in
          let v := mkResolvedEntity id version_id lsn None e LActive Supersedes (property_row header) (vector_row header) pr in
          (Ok tt, set_entities (<[id := (true, [v])]> (k_entities k)) recs k)
      end
  | ECreateVersion id version_id provenance_id record e lifecycle kind property vector =>
      match k_entities k !! id with
      | Some (true, vs) =>
          let '(pr, recs) := bind_record provenance_id record (k_records k) in
          let v := mkResolvedEntity id version_id lsn None e lifecycle kind property vector pr in
          (Ok tt, set_entities (<[id := (true, v :: close_head (close_entity lsn) vs)]> (k_entities k)) recs k)
      | _ => (Err (EntityNotFound id), k)
      end
  | ETransition id version_id expected next _ provenance_id record =>
      match k_entities k !! id with
      | Some (true, head :: vs) =>
          if bool_decide (re_epistemic_status head ≠ expected) then (Err (EpistemicConflict expected (re_epistemic_status head)), k)
          else match validate_epistemic_transition expected next with
               | Err e => (Err (InvalidEpistemicTransition e), k)
               | Ok _ =>
                   let '(pr, recs) := bind_record provenance_id record (k_records k) in
                   let v := mkResolvedEntity id version_id lsn None next (re_lifecycle_status head) Refines
                              (re_property_row head) (re_vector_row head) pr in
                   (Ok tt, set_entities (<[id := (true, v :: close_entity lsn head :: vs)]> (k_entities k)) recs k)
               end
      | _ => (Err (EntityNotFound id), k)
      end
  | ETombstone id version_id provenance_id record =>
      match k_entities k !! id with
      | Some (true, vs) =>
          let '(pr, recs) := bind_record provenance_id record (k_records k) in
          let e := from_option re_epistemic_status Observed (head vs) in
          let v := mkResolvedEntity id version_id lsn None e LTombstoned Supersedes NULL_ROW_REF NULL_ROW_REF pr in
          (Ok tt, set_entities (<[id := (false, v :: close_head (close_entity lsn) vs)]> (k_entities k)) recs k)
      | _ => (Err (EntityNotFound id), k)
      end
  end.

(** The version that was current at a position: the newest one that had begun *)
Definition known_entity (id lsn : N) (k : Knowledge) : option ResolvedEntityVersion :=
  '(_, vs) ← k_entities k !! id; find_first (λ v, (re_valid_from_lsn v <=? lsn)%N) vs.
(** The flag of an entity is down once a tombstone was applied to it. *)
Definition tombstoned (id : N) (k : Knowledge) : Prop := ∃ vs, k_entities k !! id = Some (false, vs).

(** ** Entities refine it *)

Lemma row_epistemic_u8 e : row_epistemic (epistemic_u8 e) = e.
Proof. by destruct e. Qed.
Lemma lifecycle_from_to l : lifecycle_from_u8 (lifecycle_u8 l) = l.
Proof. by destruct l. Qed.
Lemma row_relation_u8 k : row_relation (relation_u8 k) = k.
Proof. by destruct k. Qed.
Lemma epistemic_from_to e : epistemic_from_u8 (epistemic_u8 e) = e.
Proof. by destruct e. Qed.

(** The versions of a live entity, as a chain of rows *)
Definition ent_chain (last id : N) (es : EntitySegment) (h : EntityHeader) (vs : list ResolvedEntityVersion) : Prop :=
  ∃ rs, chain prev_version_row (vt_rows (es_versions es)) (version_row h) rs ∧ rs ≠ [] ∧
    in_order valid_from_lsn valid_until_lsn u64_max last rs ∧
    (∀ r, r ∈ rs → vr_entity_id r = id ∧ prov_ref (vr_provenance_row r) (es_provenance es)) ∧
    vs = resolve_row id es <$> rs.

Record ent_inv (last : N) (ents : gmap N (bool * list ResolvedEntityVersion)) (es : EntitySegment) : Prop := {
  ei_headers : length (ea_headers (es_arena es)) = length (ea_index_to_id (es_arena es));
  ei_lives : length (ea_live (es_arena es)) = length (ea_index_to_id (es_arena es));
  ei_ids : ∀ id i, ea_id_to_index (es_arena es) !! id = Some i ↔ nth_u64 (ea_index_to_id (es_arena es)) i = Some id;
  ei_dom : ∀ id, ents !! id = None ↔ ea_id_to_index (es_arena es) !! id = None;
  ei_entity : ∀ id live vs i, ents !! id = Some (live, vs) → ea_id_to_index (es_arena es) !! id = Some i →
    nth_u64 (ea_live (es_arena es)) i = Some live ∧
    (live = true → ∃ h, nth_u64 (ea_headers (es_arena es)) i = Some h ∧ ent_chain last id es h vs)
}.

(** Rows of other entities, and records, are still there. *)
Definition ent_frame (id : N) (es es' : EntitySegment) : Prop :=
  prov_ok (es_provenance es) ∧ prov_le (es_provenance es) (es_provenance es') ∧
  ∀ j r, nth_u64 (vt_rows (es_versions es)) j = Some r → vr_entity_id r ≠ id → nth_u64 (vt_rows (es_versions es')) j = Some r.

Lemma resolve_row_mono id es es' r : prov_ok (es_provenance es) → prov_le (es_provenance es) (es_provenance es') →
  prov_ref (vr_provenance_row r) (es_provenance es) → resolve_row id es' r = resolve_row id es r.
Proof. intros Hok Hle Hr. unfold resolve_row. by rewrite (row_provenance_mono _ _ _ Hok Hle Hr). Qed.

Lemma in_order_mono {R} (from until : R → N) end_ last last' rs : in_order from until end_ last rs → (last ≤ last')%N →
  in_order from until end_ last' rs.
Proof. destruct rs as [|r rs]; [done|]. intros (? & ? & ?) ?. split_and!; [done|lia|done]. Qed.

Lemma ent_chain_frame last last' id id' es es' h vs : ent_chain last id' es h vs → id' ≠ id → (last ≤ last')%N → ent_frame id es es' →
  ent_chain last' id' es' h vs.
Proof.
  intros (rs & Hc & Hne & Ho & Hr & ->) Hid Hl (Hok & Hle & Hsame). exists rs. split_and!.
  - apply (chain_agree _ (vt_rows (es_versions es))); [|done]. intros j r Hj Hin. apply Hsame; [done|]. by destruct (Hr r Hin) as [-> _].
  - done.
  - by eapply in_order_mono.
  - intros r Hin. destruct (Hr r Hin). split; [done|]. by eapply prov_ref_mono.
  - apply list_fmap_ext. intros i r Hi. symmetry. apply resolve_row_mono; [done|done|]. apply Hr. by apply list_elem_of_lookup_2 in Hi.
Qed.

(** A new version on top of a chain whose head is closed *)
Lemma ent_chain_push last lsn id es es' h h' row vs :
  ent_chain last id es h vs → (last ≤ lsn)%N → (lsn < u64_max)%N → prov_ok (es_provenance es) →
  prov_le (es_provenance es) (es_provenance es') →
  vt_rows (es_versions es') = vt_rows (close_version (version_row h) lsn (es_versions es)) ++ [row] →
  (lenN (vt_rows (es_versions es)) < NULL_ROW_REF)%N → version_row h' = lenN (vt_rows (es_versions es)) →
  vr_entity_id row = id → valid_from_lsn row = lsn → valid_until_lsn row = u64_max → prev_version_row row = version_row h →
  prov_ref (vr_provenance_row row) (es_provenance es') →
  ent_chain lsn id es' h' (resolve_row id es' row :: close_head (close_entity lsn) vs).
Proof.
  intros (rs & Hc & Hne & Ho & Hr & ->) Hl Hmax Hok Hle Erows Hlen Eh Eid Ef Eu Ep Href.
  destruct rs as [|r0 rs]; [done|]. destruct Ho as (Ho1 & Ho2 & Ho3).
  set (close := λ r, r <| valid_until_lsn := lsn |> <| vr_lifecycle_status := lifecycle_u8 LSuperseded |>).
  exists (row :: close r0 :: rs). split_and!; try done.
  - rewrite Eh, Erows. by apply (chain_push prev_version_row close).
  - split_and!; [done|lia|]. cbn. rewrite Ef. split_and!; [done|lia|done].
  - intros r [->|[->|Hin]%elem_of_cons]%elem_of_cons; [done| |].
    + destruct (Hr r0 ltac:(by left)). split; [done|]. by eapply prov_ref_mono.
    + destruct (Hr r ltac:(by right)). split; [done|]. by eapply prov_ref_mono.
  - csimpl. f_equal. f_equal.
    + destruct (Hr r0 ltac:(by left)) as [_ Href0]. unfold resolve_row, close_entity, close. cbn.
      rewrite (proj2 (N.eqb_neq lsn u64_max)) by lia. by rewrite (row_provenance_mono _ _ _ Hok Hle Href0).
    + apply list_fmap_ext. intros i r Hin%list_elem_of_lookup_2. symmetry. apply resolve_row_mono; [done|done|]. apply Hr. by right.
Qed.

Lemma get_live last ents es id vs : ent_inv last ents es → ents !! id = Some (true, vs) →
  ∃ i h, ea_id_to_index (es_arena es) !! id = Some i ∧ entity_is_live i (es_arena es) = true ∧
    nth_u64 (ea_headers (es_arena es)) i = Some h ∧ entity_get_by_id id (es_arena es) = Some (i, h) ∧ ent_chain last id es h vs.
Proof.
  intros [_ _ _ Hd He] Hid. destruct (ea_id_to_index (es_arena es) !! id) as [i|] eqn:Ei; [|apply Hd in Ei; congruence].
  destruct (He id true vs i Hid Ei) as [Hlive Hch]. destruct (Hch eq_refl) as (h & Hh & Hc). exists i, h.
  assert (entity_is_live i (es_arena es) = true) as Hl by (unfold entity_is_live; by rewrite Hlive).
  split_and!; try done. unfold entity_get_by_id, entity_get. rewrite Ei. cbn [mbind option_bind]. by rewrite Hl, Hh.
Qed.

Lemma get_dead last ents es id : ent_inv last ents es → (∀ vs, ents !! id ≠ Some (true, vs)) → entity_get_by_id id (es_arena es) = None.
Proof.
  intros [_ _ _ Hd He] Hid. unfold entity_get_by_id, entity_get. destruct (ea_id_to_index (es_arena es) !! id) as [i|] eqn:Ei; [|done].
  cbn [mbind option_bind]. destruct (ents !! id) as [[[] vs]|] eqn:E; [by destruct (Hid vs)| |apply Hd in E; congruence].
  destruct (He id false vs i E Ei) as [Hlive _]. unfold entity_is_live. by rewrite Hlive.
Qed.

Lemma head_bound last id es h vs : ent_chain last id es h vs → (version_row h < lenN (vt_rows (es_versions es)))%N ∧
  (lenN (vt_rows (es_versions es)) ≤ NULL_ROW_REF → version_row h ≠ NULL_ROW_REF)%N.
Proof. intros (rs & Hc & Hne & _). pose proof (chain_lt _ _ _ _ Hc Hne). split; [done|lia]. Qed.

Lemma close_frame id lsn es h last vs p t row : ent_chain last id es h vs → prov_ok (es_provenance es) → prov_le (es_provenance es) p →
  vt_rows t = vt_rows (close_version (version_row h) lsn (es_versions es)) ++ [row] →
  ∀ g a v, ent_frame id es (mkEntitySegment g a p t v).
Proof.
  intros (rs & Hc & Hne & _ & Hr & _) Hok Hle Et g a v. split_and!; [done|done|]. cbn. intros j r Hj Hid. rewrite Et.
  apply nth_u64_app_some. cbn. destruct (decide (version_row h = j)) as [<-|]; [|by rewrite nth_alter_ne].
  destruct rs as [|r0 rs]; [done|]. apply chain_inv in Hc as (_ & Hr0 & _ & _). rewrite Hr0 in Hj. simplify_eq.
  by destruct (Hr r ltac:(by left)).
Qed.

(** Headers of other entities, and everything else of the arena, unchanged *)
Lemma inv_update last lsn ents es es' id i vs' (f : EntityHeader → EntityHeader) (live' : bool) :
  ent_inv last ents es → (last ≤ lsn)%N → ea_id_to_index (es_arena es) !! id = Some i → is_Some (ents !! id) →
  ea_headers (es_arena es') = alter f (N.to_nat i) (ea_headers (es_arena es)) →
  ea_live (es_arena es') = alter (λ _, live') (N.to_nat i) (ea_live (es_arena es)) →
  ea_id_to_index (es_arena es') = ea_id_to_index (es_arena es) → ea_index_to_id (es_arena es') = ea_index_to_id (es_arena es) →
  ent_frame id es es' → (live' = true → ∀ h, nth_u64 (ea_headers (es_arena es)) i = Some h → ent_chain lsn id es' (f h) vs') →
  ent_inv lsn (<[id := (live', vs')]> ents) es'.
Proof.
  intros [H1 H2 Hids Hd He] Hl Hi Hsome Eh El Eids Eidx Hfr Hnew. split; rewrite ?Eids, ?Eidx.
  - by rewrite Eh, length_alter.
  - by rewrite El, length_alter.
  - done.
  - intros id'. destruct (decide (id' = id)) as [->|]; [rewrite lookup_insert_eq, Hi; done|]. by rewrite lookup_insert_ne.
  - assert (∃ h, nth_u64 (ea_headers (es_arena es)) i = Some h) as [h Hh].
    { apply nth_u64_is_Some. apply Hids in Hi. apply nth_u64_lt in Hi. unfold lenN in *. lia. }
    assert (∃ l, nth_u64 (ea_live (es_arena es)) i = Some l) as [l Hlv].
    { apply nth_u64_is_Some. apply Hids in Hi. apply nth_u64_lt in Hi. unfold lenN in *. lia. }
    intros id' live vs i' Hent Hi'. rewrite Eh, El. destruct (decide (id' = id)) as [->|Hne].
    + rewrite lookup_insert_eq in Hent. rewrite Hi in Hi'. simplify_eq. rewrite nth_alter_eq, Hlv. split; [done|]. intros ->.
      exists (f h). rewrite nth_alter_eq, Hh. split; [done|]. by apply Hnew.
    + rewrite lookup_insert_ne in Hent by done. destruct (He id' live vs i' Hent Hi') as [Hlive Hch].
      assert (i ≠ i') as Hii. { intros <-. apply Hids in Hi, Hi'. congruence. }
      rewrite !nth_alter_ne by done. split; [done|]. intros Ht. destruct (Hch Ht) as (h' & Hh' & Hc'). exists h'. split; [done|].
      by eapply ent_chain_frame.
Qed.

Definition es_size (es : EntitySegment) : N :=
  (lenN (vt_rows (es_versions es)) + lenN (ea_headers (es_arena es)) + pa_size (es_provenance es))%N.
Definition entity_cost (m : EntityMutation) : N :=
  match m with
  | ECreate _ _ _ _ record _ | ECreateVersion _ _ _ record _ _ _ _ _ | ETransition _ _ _ _ _ _ record | ETombstone _ _ _ record =>
      2 + record_cost record
  end.

(** What a mutation of the entities leaves to the relations *)
Record ent_kept (es es' : EntitySegment) : Prop := {
  kept_prov : prov_le (es_provenance es) (es_provenance es');
  kept_ids : ea_index_to_id (es_arena es) `prefix_of` ea_index_to_id (es_arena es');
  kept_next : pa_next_id (es_provenance es') = pa_next_id (es_provenance es)
}.

Lemma publish_headers i v p pr ve e a : entity_is_live i a = true → ∃ f, (∀ h, version_row (f h) = v) ∧
  publish_version_head i v p pr ve e a = set_headers (alter f (N.to_nat i)) a.
Proof. intros Hl. unfold publish_version_head. rewrite Hl. eexists. split; [|reflexivity]. intros h. cbn. by repeat case_match. Qed.

Lemma alter_same {A} (l : list A) i x : l !! i = Some x → alter (λ _, x) i l = l.
Proof.
  intros H. apply list_eq. intros j. destruct (decide (i = j)) as [<-|]; [by rewrite list_lookup_alter_eq, H|].
  by rewrite list_lookup_alter_ne.
Qed.

(** [CreateVersion] and [TransitionEpistemic]: a new head *)
Lemma advance_entity last lsn k es id i h vs row prov property vector e p recs version_id :
  ent_inv last (k_entities k) es → prov_rep (k_records k) (es_provenance es) → (last ≤ lsn)%N → (lsn < u64_max)%N →
  (es_size es < NULL_ROW_REF)%N → k_entities k !! id = Some (true, vs) → ea_id_to_index (es_arena es) !! id = Some i →
  entity_is_live i (es_arena es) = true → nth_u64 (ea_headers (es_arena es)) i = Some h → ent_chain last id es h vs →
  prov_rep recs p → prov_le (es_provenance es) p → prov_ref prov p → pa_next_id p = pa_next_id (es_provenance es) →
  vr_entity_id row = id → valid_from_lsn row = lsn → valid_until_lsn row = u64_max → prev_version_row row = version_row h →
  vr_provenance_row row = prov →
  let t := (version_bind version_id row (close_version (version_row h) lsn (es_versions es))).2 in
  let es' := mkEntitySegment (es_generation es)
               (publish_version_head i (as_u32 (lenN (vt_rows (es_versions es)))) prov property vector e (es_arena es)) p t (es_vectors es) in
  (version_bind version_id row (close_version (version_row h) lsn (es_versions es))).1 = as_u32 (lenN (vt_rows (es_versions es))) ∧
  ent_inv lsn (<[id := (true, resolve_row id es' row :: close_head (close_entity lsn) vs)]> (k_entities k)) es' ∧
  ent_kept es es' ∧ (es_size es' = es_size es + 1 + pa_size p - pa_size (es_provenance es))%N.
Proof.
  intros Hinv [Hok _] Hl Hmax Hsz Hid Hi Hlive Hh Hc Hrep Hle Href Hnext Eid Ef Eu Ep Epr t es'.
  unfold es_size in Hsz. assert (lenN (vt_rows (es_versions es)) < NULL_ROW_REF)%N as Hrows by (unfold NULL_ROW_REF in *; lia).
  assert (as_u32 (lenN (vt_rows (es_versions es))) = lenN (vt_rows (es_versions es))) as Eidx.
  { apply as_u32_small. unfold NULL_ROW_REF, u32_modulus in *. lia. }
  assert (vt_rows t = vt_rows (close_version (version_row h) lsn (es_versions es)) ++ [row]) as Et by done.
  destruct (publish_headers i (as_u32 (lenN (vt_rows (es_versions es)))) prov property vector e _ Hlive) as (f & Hf & Epub).
  pose proof (close_frame id lsn es h last vs p t row Hc Hok Hle Et) as Hfr.
  assert (ea_live (es_arena es) !! N.to_nat i = Some true) as Hlv.
  { unfold entity_is_live, nth_u64 in Hlive. by destruct (ea_live (es_arena es) !! N.to_nat i) as [[]|]. }
  split_and!.
  - cbn. by rewrite lenN_alter.
  - apply (inv_update last lsn (k_entities k) es es' id i _ f); try done; unfold es'; cbn [es_arena]; rewrite ?Epub; try done.
    + cbn. symmetry. by apply alter_same.
    + intros _ h' Hh'. rewrite Hh in Hh'. simplify_eq. rewrite <- Epub. fold es'.
      apply (ent_chain_push last (valid_from_lsn row) (vr_entity_id row) es es' h'); try done. by rewrite Hf.
  - split; unfold es'; cbn; [done| |done]. by rewrite Epub.
  - unfold es_size, es', t. cbn. rewrite Epub. cbn. rewrite lenN_app, !lenN_alter. cbn.
    assert (pa_size (es_provenance es) ≤ pa_size p)%N; [|change (lenN [row]) with 1%N; lia].
    destruct Hle as ([k1 E1] & [k2 E2] & [k3 E3]). unfold pa_size. rewrite E1, E2, E3, !lenN_app. lia.
Qed.

(** [Create]: a chain of one row *)
Lemma create_entity last lsn ents es id h row p version_id recs recs0 :
  ent_inv last ents es → prov_rep recs0 (es_provenance es) → (last ≤ lsn)%N → (es_size es < NULL_ROW_REF)%N → ents !! id = None →
  prov_rep recs p → prov_le (es_provenance es) p → prov_ref (vr_provenance_row row) p →
  pa_next_id p = pa_next_id (es_provenance es) →
  vr_entity_id row = id → valid_from_lsn row = lsn → valid_until_lsn row = u64_max → prev_version_row row = NULL_ROW_REF →
  let vindex := as_u32 (lenN (vt_rows (es_versions es))) in
  version_row h = vindex →
  let es' := mkEntitySegment (es_generation es) (entity_bind id h (es_arena es)).2 p (version_bind version_id row (es_versions es)).2
               (es_vectors es) in
  ent_inv lsn (<[id := (true, [resolve_row id es' row])]> ents) es' ∧ ent_kept es es' ∧
  (es_size es' = es_size es + 2 + pa_size p - pa_size (es_provenance es))%N.
Proof.
  intros Hinv [Hok _] Hl Hsz Hid Hrep Hle Href Hnext Eid Ef Eu Ep vindex Eh es'.
  pose proof Hinv as [H1 H2 Hids Hd He]. unfold es_size in Hsz.
  assert (u32_modulus = NULL_ROW_REF + 1)%N as Hmod by done.
  assert (vindex = lenN (vt_rows (es_versions es))) as Ev by (apply as_u32_small; lia).
  assert (as_u32 (lenN (ea_headers (es_arena es))) = lenN (ea_headers (es_arena es))) as Ei by (apply as_u32_small; lia).
  assert (lenN (ea_headers (es_arena es)) = lenN (ea_index_to_id (es_arena es))) as Elen by (unfold lenN; by rewrite H1).
  assert (lenN (ea_live (es_arena es)) = lenN (ea_index_to_id (es_arena es))) as Elen' by (unfold lenN; by rewrite H2).
  assert (ent_frame id es es') as Hfr.
  { split_and!; [done|done|]. cbn. intros j r Hj _. by apply nth_u64_app_some. }
  split_and!.
  - split; unfold es'; cbn.
    + rewrite !length_app. cbn. lia.
    + rewrite !length_app. cbn. lia.
    + rewrite Ei, Elen. intros id' i'. destruct (decide (id' = id)) as [->|Hne].
      * rewrite lookup_insert_eq. split; [intros [= <-]; apply nth_u64_app_len|]. intros [H'|[-> _]]%nth_u64_app_inv; [|done].
        apply Hids in H'. apply Hd in Hid. congruence.
      * rewrite lookup_insert_ne by done. rewrite Hids. split; [by apply nth_u64_app_some|]. by intros [?|[_ ?]]%nth_u64_app_inv.
    + intros id'. destruct (decide (id' = id)) as [->|]; [by rewrite !lookup_insert_eq|]. rewrite !lookup_insert_ne by done. apply Hd.
    + rewrite Ei. intros id' live vs i' Hent Hi'. destruct (decide (id' = id)) as [->|Hne].
      * rewrite lookup_insert_eq in Hent. rewrite lookup_insert_eq in Hi'. simplify_eq. rewrite Elen at 1. rewrite <- Elen'. split; [apply nth_u64_app_len|].
        intros _. exists h. split; [apply nth_u64_app_len|]. exists [row]. split_and!; [|done|split_and!; (done || lia)| |done].
        -- rewrite Eh, Ev. econstructor; [lia|apply nth_u64_app_len|by left|]. rewrite Ep. constructor.
        -- intros r ->%list_elem_of_singleton. done.
      * rewrite lookup_insert_ne in Hent by done. rewrite lookup_insert_ne in Hi' by done. destruct (He id' live vs i' Hent Hi') as [Hlive Hch].
        split; [by apply nth_u64_app_some|]. intros Ht. destruct (Hch Ht) as (h' & Hh' & Hc'). exists h'.
        split; [by apply nth_u64_app_some|]. by eapply ent_chain_frame.
  - split; cbn; [done|by eexists|done].
  - unfold es_size, es'. cbn. rewrite !lenN_snoc.
    assert (pa_size (es_provenance es) ≤ pa_size p)%N; [|lia].
    destruct Hle as ([k1 E1] & [k2 E2] & [k3 E3]). unfold pa_size. rewrite E1, E2, E3, !lenN_app. lia.
Qed.

Lemma ent_inv_later last lsn ents es : ent_inv last ents es → (last ≤ lsn)%N → ent_inv lsn ents es.
Proof.
  intros [H1 H2 H3 H4 H5] Hl. split; try done. intros id live vs i Hid Hi. destruct (H5 id live vs i Hid Hi) as [Hv Hc].
  split; [done|]. intros Ht. destruct (Hc Ht) as (h & Hh & rs & ? & ? & Ho & ?). exists h. split; [done|]. exists rs.
  split_and!; try done; [by eapply in_order_mono|naive_solver..].
Qed.

Lemma kept_refl es : ent_kept es es.
Proof. by split. Qed.

(** What a step of the entities has to establish *)
Definition ent_after (lsn cost : N) (es es' : EntitySegment) (k' : Knowledge) : Prop :=
  ent_inv lsn (k_entities k') es' ∧ prov_rep (k_records k') (es_provenance es') ∧ ent_kept es es' ∧ (es_size es' ≤ es_size es + cost)%N.

Lemma entity_step_spec last lsn m k es : ent_inv last (k_entities k) es → prov_rep (k_records k) (es_provenance es) →
  (last ≤ lsn)%N → (lsn < u64_max)%N → (es_size es + entity_cost m < NULL_ROW_REF)%N →
  ∃ es', entity_apply m lsn es = ((entity_step m lsn k).1, es') ∧ ent_after lsn (entity_cost m) es es' (entity_step m lsn k).2.
Proof.
  intros Hinv Hrep Hl Hmax Hsz.
  assert (∀ c, ent_after lsn c es es k) as Hsame.
  { intros c. split_and!; [by eapply ent_inv_later|done|apply kept_refl|lia]. }
  destruct m as [id header vid pid record e|id vid pid record e lc kind prop vec|id vid expected next ev pid record|id vid pid record];
    cbn [entity_cost] in Hsz;
    (destruct (bind_provenance_spec pid record (k_records k) (es_provenance es) Hrep) as (prov & p & Eb & Hrep' & Hle & Href & Hrow & Hnext & Hps);
      [unfold es_size in Hsz; lia|]); cbn [entity_apply entity_step]; rewrite Eb.
  - destruct (k_entities k !! id) as [x|] eqn:Eid.
    { destruct (ea_id_to_index (es_arena es) !! id) as [i|] eqn:Ei; [by eexists|]. apply (ei_dom _ _ _ Hinv) in Ei. congruence. }
    pose proof (proj1 (ei_dom _ _ _ Hinv id) Eid) as Ei. rewrite Ei. cbn [fst snd]. destruct (bind_record pid record (k_records k)) as [pr recs] eqn:Er.
    set (row := mkVersionRow _ _ _ _ _ _ _ _ _ _ _ _). eexists. split; [reflexivity|]. cbn [fst snd] in *.
    edestruct (create_entity last lsn (k_entities k) es id
      (header <| version_row := as_u32 (lenN (vt_rows (es_versions es))) |> <| provenance_row := prov |>
              <| epistemic_status := epistemic_u8 e |>) row p vid) as (Hi' & Hk & Hs); try done; [lia|].
    split_and!; [|done|exact Hk|etrans; [apply N.eq_le_incl, Hs|cbn [entity_cost]; lia]]. cbn [k_entities set_entities].
    revert Hi'. unfold resolve_row. cbn. rewrite Hrow, row_epistemic_u8. done.
  - destruct (k_entities k !! id) as [[[] vs]|] eqn:Eid.
    2,3: rewrite (get_dead _ _ _ id Hinv) by (rewrite Eid; done); by eexists.
    destruct (get_live _ _ _ _ _ Hinv Eid) as (i & h & Ei & Hlive & Hh & -> & Hc).
    rewrite (proj2 (N.eqb_neq _ _)) by (apply (head_bound _ _ _ _ _ Hc); unfold es_size in Hsz; lia).
    destruct (bind_record pid record (k_records k)) as [pr recs] eqn:Er. cbn [fst snd] in *.
    set (row := mkVersionRow id vid lsn _ _ _ _ _ _ _ _ _).
    edestruct (advance_entity last lsn k es id i h vs row prov prop vec e p recs vid) as (Ev & Hi' & Hk & Hs); try done; [lia|].
    destruct (version_bind vid row _) as [vindex t]. cbn [fst snd] in *. subst vindex. eexists. split; [reflexivity|].
    split_and!; [|done|exact Hk|etrans; [apply N.eq_le_incl, Hs|cbn [entity_cost]; lia]]. cbn [k_entities set_entities].
    revert Hi'. unfold resolve_row at 1, row. cbn -[publish_version_head]. rewrite Hrow, row_epistemic_u8, lifecycle_from_to, row_relation_u8. done.
  - destruct (k_entities k !! id) as [[[] vs]|] eqn:Eid.
    2,3: rewrite (get_dead _ _ _ id Hinv) by (rewrite Eid; done); by eexists.
    destruct (get_live _ _ _ _ _ Hinv Eid) as (i & h & Ei & Hlive & Hh & -> & Hc).
    rewrite (proj2 (N.eqb_neq _ _)) by (apply (head_bound _ _ _ _ _ Hc); unfold es_size in Hsz; lia).
    pose proof Hc as (rs & Hch & Hne & _ & _ & Evs). destruct rs as [|r0 rs]; [done|]. apply chain_inv in Hch as (_ & Hr0 & _ & _).
    unfold get_version_row. rewrite Hr0, Evs. change (resolve_row id es <$> r0 :: rs) with (resolve_row id es r0 :: (resolve_row id es <$> rs)) in *.
    cbv iota. cbn [re_epistemic_status resolve_row].
    destruct (bool_decide (row_epistemic (vr_epistemic_status r0) ≠ expected)); [by eexists|].
    destruct (validate_epistemic_transition expected next) as [u|err]; [|by eexists].
    destruct (bind_record pid record (k_records k)) as [pr recs] eqn:Er. cbn [fst snd] in *.
    set (row := mkVersionRow id vid lsn _ _ _ _ _ _ _ _ _).
    edestruct (advance_entity last lsn k es id i h vs row prov (vr_property_row r0) (vr_vector_row r0) next p recs vid) as (Ev & Hi' & Hk & Hs);
      try done; [lia|].
    destruct (version_bind vid row _) as [vindex t]. cbn [fst snd] in *. subst vindex. eexists. split; [reflexivity|].
    split_and!; [|done|exact Hk|etrans; [apply N.eq_le_incl, Hs|cbn [entity_cost]; lia]]. cbn [k_entities set_entities].
    revert Hi'. rewrite Evs. csimpl. unfold resolve_row at 1, row. cbn -[publish_version_head resolve_row].
    rewrite Hrow, row_epistemic_u8. done.
  - destruct (k_entities k !! id) as [[[] vs]|] eqn:Eid.
    2,3: rewrite (get_dead _ _ _ id Hinv) by (rewrite Eid; done); by eexists.
    destruct (get_live _ _ _ _ _ Hinv Eid) as (i & h & Ei & Hlive & Hh & -> & Hc).
    rewrite (proj2 (N.eqb_neq _ _)) by (apply (head_bound _ _ _ _ _ Hc); unfold es_size in Hsz; lia).
    destruct (bind_record pid record (k_records k)) as [pr recs] eqn:Er. cbn [fst snd] in *.
    set (row := mkVersionRow id vid lsn _ _ _ _ _ _ _ _ _).
    destruct (version_bind vid row _) as [vindex t] eqn:Et. eexists. split; [reflexivity|]. cbn [fst snd].
    assert (vt_rows t = vt_rows (close_version (version_row h) lsn (es_versions es)) ++ [row]) as Etr by (by injection Et as _ <-).
    assert (entity_is_live i (entity_delete i (es_arena es)) = false) as Hdead.
    { unfold entity_delete. rewrite Hlive. unfold entity_is_live in *. cbn. rewrite nth_alter_eq. by destruct (nth_u64 (ea_live (es_arena es)) i). }
    unfold publish_version_head. rewrite Hdead. unfold entity_delete. rewrite Hlive.
    split_and!; cbn [k_entities set_entities es_arena es_provenance].
    + eapply (inv_update last lsn (k_entities k) es _ id i _ (header_set_live false) false); try done.
      by apply (close_frame id lsn es h last vs p t row Hc (proj1 Hrep)).
    + done.
    + split; cbn; [done|done|done].
    + unfold es_size. cbn. rewrite Etr, lenN_snoc. cbn. rewrite !lenN_alter. lia.
Qed.

(** ** Reads *)

Lemma find_first_fmap {A B} (f : A → B) (P : B → bool) l : find_first P (f <$> l) = f <$> find_first (λ x, P (f x)) l.
Proof. induction l as [|x l IH]; [done|]. csimpl. by destruct (P (f x)). Qed.

Lemma resolve_version_known last k es id lsn : ent_inv last (k_entities k) es → ¬ tombstoned id k →
  resolve_version_at id lsn es = known_entity id lsn k.
Proof.
  intros Hinv Ht. unfold resolve_version_at, known_entity. destruct (k_entities k !! id) as [[[] vs]|] eqn:Eid.
  2: by destruct Ht; exists vs.
  2: by rewrite (get_dead _ _ _ id Hinv) by (rewrite Eid; done).
  destruct (get_live _ _ _ _ _ Hinv Eid) as (i & h & _ & _ & _ & -> & rs & Hc & Hne & Ho & _ & ->). cbn [mbind option_bind].
  destruct (decide (version_row h = NULL_ROW_REF)) as [E|Hn]; [rewrite E in Hc; by apply chain_null in Hc as ->|].
  rewrite (proj2 (N.eqb_neq _ _) Hn). pose proof (chain_length _ _ _ _ Hc) as Hlen.
  pose proof (find_as_of_chain _ _ _ lsn Hc (S (length (vt_rows (es_versions es)))) ltac:(lia)) as Hf.
  change (visible_at lsn) with (row_visible valid_from_lsn valid_until_lsn lsn) in Hf.
  rewrite (first_visible valid_from_lsn valid_until_lsn lsn rs u64_max last Ho ltac:(by left)) in Hf.
  rewrite find_first_fmap. cbn [re_valid_from_lsn resolve_row]. rewrite <- Hf. unfold find_as_of, get_version_row.
  by destruct (find_as_of_loop _ _ _ _) as [j|]; [|done]; cbn [mbind option_bind]; destruct (nth_u64 _ j).
Qed.

Lemma entity_history_known last ents es id : ent_inv last ents es →
  entity_history id es = match ents !! id with Some (true, vs) => reverse vs | _ => [] end.
Proof.
  intros Hinv. unfold entity_history. destruct (ents !! id) as [[[] vs]|] eqn:Eid.
  2,3: by rewrite (get_dead _ _ _ id Hinv) by (rewrite Eid; done).
  destruct (get_live _ _ _ _ _ Hinv Eid) as (i & h & _ & _ & _ & -> & rs & Hc & Hne & _ & _ & ->).
  destruct (decide (version_row h = NULL_ROW_REF)) as [E|Hn]; [rewrite E in Hc; by apply chain_null in Hc as ->|].
  rewrite (proj2 (N.eqb_neq _ _) Hn). pose proof (chain_length _ _ _ _ Hc) as Hlen. unfold history_of.
  rewrite (history_chain _ _ _ Hc) by lia. apply fmap_reverse.
Qed.
