(* ===== verification/RelationFacts.v ===== *)
(** Relations over time.  Entity and relation segments refine the abstract knowledge
    of EntityFacts.v: after any mutations in log order, a read at any position returns
    the version that was current there, and a query returns the relations whose
    version there matches, in the order of their identifiers. *)

From Stdlib Require Import ZArith.
From stdpp Require Import base gmap sets strings numbers list sorting fin_maps.
From S2P Require Import Prelude.
From S2P Require Import Floats.
From S2P Require Import Hypercube.
From S2P Require Import MetadataIndex.
From S2P Require Import Order.
From S2P Require Import Incidence.
From S2P Require Import Entity.
From S2P Require Import Relation.
From S2P Require Import EntityFacts.

(** ** The abstract steps of relations *)

Definition with_types (ts : list RelationType) (k : Knowledge) : Knowledge :=
  mkKnowledge (k_entities k) (k_relations k) (k_records k) (k_next_record k) (k_next_version k) ts.
Definition type_of (type_id : N) (ts : list RelationType) : option RelationType := find_first (λ t, (rt_id t =? type_id)%N) ts.
Definition entity_known (id : N) (k : Knowledge) : bool := match k_entities k !! id with Some (live, _) => live | None => false end.

Definition close_relation (lsn : N) (v : ResolvedRelationVersion) : ResolvedRelationVersion :=
  mkResolvedRelation (rr_relation_id v) (rr_version_id v) (rr_type_id v) (rr_schema_version v) (rr_valid_from v) (Some lsn)
    (rr_epistemic v) (rr_lifecycle v) (rr_bindings v) (rr_provenance v).
(** A version that follows [head] *)
Definition next_relation (version_id lsn : N) (e : EpistemicStatus) (l : LifecycleStatus) (pr : option ProvenanceRecord)
    (head : ResolvedRelationVersion) : ResolvedRelationVersion :=
  mkResolvedRelation (rr_relation_id head) version_id (rr_type_id head) (rr_schema_version head) lsn None e l (rr_bindings head) pr.
Definition after_version (next version_id : N) : N := if (next <=? version_id)%N then u64_add version_id 1 else next.

Definition type_step (type_id : N) (expected next : RelationTypeState) (k : Knowledge) : Result unit RelationMutationError * Knowledge :=
  match type_of type_id (k_types k) with
  | None => (Err (TypeNotFound type_id), k)
  | Some t =>
      if bool_decide (rt_state t ≠ expected) then (Err (TypeStateConflict expected (rt_state t)), k)
      else (Ok tt, with_types (update_type type_id (λ t, t <| rt_state := next |>) (k_types k)) k)
  end.

Definition version_step (id version_id lsn : N) (e : EpistemicStatus) (provenance_id : N) (record : option ProvenanceRecord)
    (head : ResolvedRelationVersion) (vs : list ResolvedRelationVersion) (k : Knowledge) : Knowledge :=
  let '(pr, recs, next) := append_record provenance_id (k_next_record k) record (k_records k) in
  mkKnowledge (k_entities k)
    (<[id := next_relation version_id lsn e LActive pr head :: close_relation lsn head :: vs]> (k_relations k))
    recs next (after_version (k_next_version k) version_id) (k_types k).

Definition relation_step `{!HashOrder} (m : RelationMutation) (lsn : N) (k : Knowledge) : Result unit RelationMutationError * Knowledge :=
  match m with
  | RProposeType schema => (Ok tt, with_types (k_types k ++ [schema <| rt_state := Proposed |>]) k)
  | RAdmitType type_id expected => type_step type_id expected Admitted_ k
  | RDeprecateType type_id expected => type_step type_id expected Deprecated k
  | RCreate id type_id bs provenance_id record e =>
      match k_relations k !! id with
      | Some _ => (Err (RelationAlreadyExists id), k)
      | None =>
          match type_of type_id (k_types k) with
          | None => (Err (TypeNotFound type_id), k)
          | Some schema =>
              match validate_bindings schema bs with
              | Err err => (Err (SchemaValidation err), k)
              | Ok _ =>
                  match find_first (λ b, negb (entity_known (b_entity_id b) k)) bs with
                  | Some b => (Err (BindingEntityNotFound (b_entity_id b)), k)
                  | None =>
                      let '(pr, recs, next) := append_record provenance_id (k_next_record k) record (k_records k) in
                      let v := mkResolvedRelation id (k_next_version k) type_id (rt_schema_version schema) lsn None e LActive bs pr in
                      (Ok tt, mkKnowledge (k_entities k) (<[id := [v]]> (k_relations k)) recs next (u64_add (k_next_version k) 1)
                                (k_types k))
                  end
              end
          end
      end
  | RCreateVersion id version_id provenance_id record e =>
      match k_relations k !! id with
      | Some (head :: vs) =>
          if bool_decide (rr_lifecycle head = LTombstoned) then (Err (RelationTombstoned id), k)
          else (Ok tt, version_step id version_id lsn e provenance_id record head vs k)
      | _ => (Err (RelationNotFound id), k)
      end
  | RTransition id version_id expected next ev provenance_id record =>
      match k_relations k !! id with
      | Some (head :: vs) =>
          if bool_decide (rr_lifecycle head = LTombstoned) then (Err (RelationTombstoned id), k)
          else if bool_decide (rr_epistemic head ≠ expected) then (Err (EpistemicMismatch expected (rr_epistemic head)), k)
          else match validate_epistemic_transition expected next with
               | Err e => (Err (EpistemicTransition e), k)
               | Ok _ => (Ok tt, version_step id version_id lsn next provenance_id (add_evidence ev <$> record) head vs k)
               end
      | _ => (Err (RelationNotFound id), k)
      end
  | RTombstone id =>
      match k_relations k !! id with
      | Some (head :: vs) =>
          if bool_decide (rr_lifecycle head = LTombstoned) then (Err (RelationTombstoned id), k)
          else
            let v := next_relation (k_next_version k) lsn (rr_epistemic head) LTombstoned (rr_provenance head) head in
            (Ok tt, mkKnowledge (k_entities k) (<[id := v :: close_relation lsn head :: vs]> (k_relations k)) (k_records k)
                      (k_next_record k) (u64_add (k_next_version k) 1) (k_types k))
      | _ => (Err (RelationNotFound id), k)
      end
  end.

(** The version of a relation that was current at a position *)
Definition known_relation (id lsn : N) (k : Knowledge) : option ResolvedRelationVersion :=
  vs ← k_relations k !! id; find_first (λ v, (rr_valid_from v <=? lsn)%N) vs.

(** What a later read may find instead of [o]: the same, or, if the version was still
    open, the version with an end after the position. *)
Definition same_or_closed {A} (open : A → Prop) (close : N → A → A) (lsn : N) (o o' : option A) : Prop :=
  o' = o ∨ ∃ v n, o = Some v ∧ open v ∧ (lsn < n)%N ∧ o' = Some (close n v).
Abbreviation relation_open := (λ v, rr_valid_until v = None).
Abbreviation entity_open := (λ v, re_valid_until_lsn v = None).
Abbreviation same_relation := (same_or_closed relation_open close_relation).
Abbreviation same_entity := (same_or_closed entity_open close_entity).

(** ** The invariant *)

Section refine.
Context {B : Type} `{!Roaring B, !RoaringSets B, !RoaringLaws B, !RoaringSetsLaws B} `{!HashOrder} (debug : bool).
Implicit Types (r : RelationSegment B) (es : EntitySegment) (k : Knowledge).

Definition resolve_relation_row (id : N) (h : RelationHeader) (bs : list DurableRoleBinding) (p : ProvenanceArena)
    (v : RelationVersionRow) : ResolvedRelationVersion :=
  mkResolvedRelation id (rv_version_id v) (rh_type_id h) (rh_schema_version h) (rv_valid_from v)
    (if (rv_valid_until v =? u64_max)%N then None else Some (rv_valid_until v))
    (epistemic_from_u8 (rv_epistemic_status v)) (lifecycle_from_u8 (rv_lifecycle_status v)) bs
    (row_provenance (rv_provenance_row v) p).

(** The local bindings of a header stand for the durable ones. *)
Definition binds (a : EntityArena) (b : SegmentRoleBinding) (d : DurableRoleBinding) : Prop :=
  nth_u64 (ea_index_to_id a) (sb_entity b) = Some (b_entity_id d) ∧ sb_role_id b = b_role_id d.
Definition bindings_ok (h : RelationHeader) (bs : list DurableRoleBinding) r es : Prop :=
  (binding_start h + binding_len h ≤ lenN (ra_bindings (rsg_arena r)))%N ∧
  Forall2 (binds (es_arena es)) (get_bindings h (rsg_arena r)) bs.

(** The lifecycle of a header is that of its head version, and never superseded. *)
Definition same_lifecycle (a b : N) : Prop := lifecycle_from_u8 a = lifecycle_from_u8 b ∧ lifecycle_from_u8 a ≠ LSuperseded.

Definition rel_chain (last id : N) r es (h : RelationHeader) (vs : list ResolvedRelationVersion) : Prop :=
  ∃ x0 xs bs, chain rv_prev_row (rvt_rows (rsg_versions r)) (rh_version_row h) (x0 :: xs) ∧
    in_order rv_valid_from rv_valid_until u64_max last (x0 :: xs) ∧
    (∀ x, x ∈ x0 :: xs → rv_relation_id x = id ∧ prov_ref (rv_provenance_row x) (es_provenance es)) ∧
    bindings_ok h bs r es ∧ rh_epistemic_status h = rv_epistemic_status x0 ∧ same_lifecycle (rh_lifecycle_status h) (rv_lifecycle_status x0) ∧
    vs = resolve_relation_row id h bs (es_provenance es) <$> x0 :: xs.

Record rel_inv (last : N) k r es : Prop := {
  ri_types : rsg_types r = k_types k;
  ri_next : rvt_next_id (rsg_versions r) = k_next_version k;
  ri_record : pa_next_id (es_provenance es) = k_next_record k;
  ri_len : length (ra_headers (rsg_arena r)) = length (ra_index_to_id (rsg_arena r));
  ri_ids : ∀ id i, ra_id_to_index (rsg_arena r) !! id = Some i ↔ nth_u64 (ra_index_to_id (rsg_arena r)) i = Some id;
  ri_dom : ∀ id, k_relations k !! id = None ↔ ra_id_to_index (rsg_arena r) !! id = None;
  ri_relation : ∀ id vs i, k_relations k !! id = Some vs → ra_id_to_index (rsg_arena r) !! id = Some i →
    ∃ h, nth_u64 (ra_headers (rsg_arena r)) i = Some h ∧ rel_chain last id r es h vs;
  ri_wf : incidence_wf (rsg_incidence r);
  ri_incidence : ∀ t role e i, i ∈ incidence_lookup t role e (rsg_incidence r) ↔
    ∃ h b, nth_u64 (ra_headers (rsg_arena r)) i = Some h ∧ rh_type_id h = t ∧ b ∈ get_bindings h (rsg_arena r) ∧
      sb_role_id b = role ∧ sb_entity b = e;
  ri_live : ∀ i, roaring_contains i (ra_live (rsg_arena r)) = true ↔
    ∃ h, nth_u64 (ra_headers (rsg_arena r)) i = Some h ∧ (debug = true → lifecycle_from_u8 (rh_lifecycle_status h) ≠ LTombstoned)
}.

Definition rel_size r : N :=
  (lenN (ra_headers (rsg_arena r)) + lenN (ra_bindings (rsg_arena r)) + lenN (rvt_rows (rsg_versions r)))%N.

(** What other relations keep *)
Definition rel_frame (id : N) r es r' es' : Prop :=
  prov_ok (es_provenance es) ∧ prov_le (es_provenance es) (es_provenance es') ∧
  ea_index_to_id (es_arena es) `prefix_of` ea_index_to_id (es_arena es') ∧
  ra_bindings (rsg_arena r) `prefix_of` ra_bindings (rsg_arena r') ∧
  ∀ j x, nth_u64 (rvt_rows (rsg_versions r)) j = Some x → rv_relation_id x ≠ id → nth_u64 (rvt_rows (rsg_versions r')) j = Some x.

Lemma get_bindings_prefix h (a a' : RelationArena B) : ra_bindings a `prefix_of` ra_bindings a' →
  (binding_start h + binding_len h ≤ lenN (ra_bindings a))%N → get_bindings h a' = get_bindings h a.
Proof.
  intros [l E] Hb. unfold get_bindings. rewrite E, lenN_app. rewrite !(proj2 (N.leb_le _ _)) by lia.
  rewrite skipN_app_le by lia. apply truncateN_app_le. rewrite lenN_skip. lia.
Qed.

Lemma bindings_ok_mono h bs r es r' es' : bindings_ok h bs r es → ra_bindings (rsg_arena r) `prefix_of` ra_bindings (rsg_arena r') →
  ea_index_to_id (es_arena es) `prefix_of` ea_index_to_id (es_arena es') → bindings_ok h bs r' es'.
Proof.
  intros [Hb Hf] Hp [l El]. split; [destruct Hp as [? E]; rewrite E, lenN_app; lia|]. rewrite (get_bindings_prefix _ _ _ Hp Hb).
  eapply Forall2_impl; [done|]. intros b d [H1 H2]. split; [|done]. rewrite El. by apply nth_u64_app_some.
Qed.

Lemma resolve_relation_mono id h bs p p' v : prov_ok p → prov_le p p' → prov_ref (rv_provenance_row v) p →
  resolve_relation_row id h bs p' v = resolve_relation_row id h bs p v.
Proof. intros Hok Hle Hv. unfold resolve_relation_row. by rewrite (row_provenance_mono _ _ _ Hok Hle Hv). Qed.

Lemma rel_chain_frame last last' id id' r es r' es' h vs : rel_chain last id' r es h vs → id' ≠ id → (last ≤ last')%N →
  rel_frame id r es r' es' → rel_chain last' id' r' es' h vs.
Proof.
  intros (x0 & xs & bs & Hc & Ho & Hr & Hb & He & Hl & ->) Hid Hlast (Hok & Hle & Hids & Hbs & Hsame). exists x0, xs, bs. split_and!; try done.
  - apply (chain_agree _ (rvt_rows (rsg_versions r))); [|done]. intros j x Hj Hin. apply Hsame; [done|]. by destruct (Hr x Hin) as [-> _].
  - by eapply in_order_mono.
  - intros x Hx. destruct (Hr x Hx). split; [done|]. by eapply prov_ref_mono.
  - by eapply bindings_ok_mono.
  - apply list_fmap_ext. intros i x Hi%list_elem_of_lookup_2. symmetry. apply resolve_relation_mono; [done|done|]. by apply Hr.
Qed.

(** What mutations of a relation do not touch in its header *)
Definition same_shape (h h' : RelationHeader) : Prop :=
  rh_type_id h' = rh_type_id h ∧ rh_schema_version h' = rh_schema_version h ∧ binding_start h' = binding_start h ∧
  binding_len h' = binding_len h.

Lemma same_shape_bindings h h' (a : RelationArena B) : same_shape h h' → get_bindings h' a = get_bindings h a.
Proof. intros (_ & _ & E1 & E2). unfold get_bindings. by rewrite E1, E2. Qed.

(** A new version on top of the head, which is closed *)
Lemma rel_chain_push last lsn id r es r' es' h h' row head vs :
  rel_chain last id r es h (head :: vs) → (last ≤ lsn)%N → (lsn < u64_max)%N → rel_frame id r es r' es' → same_shape h h' →
  rvt_rows (rsg_versions r') = rvt_rows (close_relation_version (rh_version_row h) lsn (rsg_versions r)) ++ [row] →
  (lenN (rvt_rows (rsg_versions r)) < NULL_ROW_REF)%N → rh_version_row h' = lenN (rvt_rows (rsg_versions r)) →
  rv_relation_id row = id → rv_valid_from row = lsn → rv_valid_until row = u64_max → rv_prev_row row = rh_version_row h →
  prov_ref (rv_provenance_row row) (es_provenance es') → rh_epistemic_status h' = rv_epistemic_status row →
  same_lifecycle (rh_lifecycle_status h') (rv_lifecycle_status row) →
  rel_chain lsn id r' es' h'
    (next_relation (rv_version_id row) lsn (epistemic_from_u8 (rv_epistemic_status row)) (lifecycle_from_u8 (rv_lifecycle_status row))
       (row_provenance (rv_provenance_row row) (es_provenance es')) head :: close_relation lsn head :: vs).
Proof.
  intros (x0 & xs & bs & Hc & (Ho1 & Ho2 & Ho3) & Hr & Hb & _ & _ & Evs) Hl Hmax (Hok & Hle & Hids & Hbs & _) Hsh Erows Hlen Eh Eid Ef Eu Ep Href Ee El.
  injection Evs as -> ->. set (close := λ x : RelationVersionRow, x <| rv_valid_until := lsn |>). pose proof Hsh as (Et & Es & Est & Eln).
  exists row, (close x0 :: xs), bs. split_and!; try done.
  - rewrite Eh, Erows. by apply (chain_push rv_prev_row close).
  - split_and!; [done|lia|]. cbn. rewrite Ef. split_and!; [done|lia|done].
  - intros x [->|[->|Hin]%elem_of_cons]%elem_of_cons; [done| |].
    + destruct (Hr x0 ltac:(by left)). split; [done|]. by eapply prov_ref_mono.
    + destruct (Hr x ltac:(by right)). split; [done|]. by eapply prov_ref_mono.
  - destruct (bindings_ok_mono _ _ _ _ _ _ Hb Hbs Hids) as [Hb1 Hb2]. split; [by rewrite Est, Eln|]. by rewrite (same_shape_bindings _ _ _ Hsh).
  - destruct (Hr x0 ltac:(by left)) as [_ Href0]. csimpl. f_equal; [|f_equal].
    + unfold next_relation, resolve_relation_row. cbn. by rewrite Et, Es, Ef, Eu.
    + unfold close_relation, resolve_relation_row. cbn. rewrite Et, Es, (proj2 (N.eqb_neq lsn u64_max)) by lia.
      by rewrite (row_provenance_mono _ _ _ Hok Hle Href0).
    + apply list_fmap_ext. intros i x Hi%list_elem_of_lookup_2. rewrite <- (resolve_relation_mono id h bs _ _ x Hok Hle) by (apply Hr; by right).
      unfold resolve_relation_row. by rewrite Et, Es.
Qed.

Lemma close_rel_frame id lsn r es h last vs r' es' row : rel_chain last id r es h vs → prov_ok (es_provenance es) →
  prov_le (es_provenance es) (es_provenance es') → ea_index_to_id (es_arena es') = ea_index_to_id (es_arena es) →
  ra_bindings (rsg_arena r') = ra_bindings (rsg_arena r) →
  rvt_rows (rsg_versions r') = rvt_rows (close_relation_version (rh_version_row h) lsn (rsg_versions r)) ++ [row] →
  rel_frame id r es r' es'.
Proof.
  intros (x0 & xs & bs & Hc & _ & Hr & _) Hok Hle Eids Ebs Erows. split_and!; [done|done|by rewrite Eids|by rewrite Ebs|].
  intros j x Hj Hid. rewrite Erows. apply nth_u64_app_some. cbn.
  destruct (decide (rh_version_row h = j)) as [<-|]; [|by rewrite nth_alter_ne].
  apply chain_inv in Hc as (_ & Hx0 & _ & _). rewrite Hx0 in Hj. simplify_eq. by destruct (Hr x ltac:(by left)).
Qed.

Lemma rel_update last lsn k k' r es r' es' id i h h' vs' :
  rel_inv last k r es → (last ≤ lsn)%N → ra_id_to_index (rsg_arena r) !! id = Some i → nth_u64 (ra_headers (rsg_arena r)) i = Some h →
  lifecycle_from_u8 (rh_lifecycle_status h) ≠ LTombstoned → ra_headers (rsg_arena r') = alter (λ _, h') (N.to_nat i) (ra_headers (rsg_arena r)) →
  ra_bindings (rsg_arena r') = ra_bindings (rsg_arena r) → ra_id_to_index (rsg_arena r') = ra_id_to_index (rsg_arena r) →
  ra_index_to_id (rsg_arena r') = ra_index_to_id (rsg_arena r) → rsg_incidence r' = rsg_incidence r → rsg_types r' = k_types k' →
  rvt_next_id (rsg_versions r') = k_next_version k' → pa_next_id (es_provenance es') = k_next_record k' →
  k_relations k' = <[id := vs']> (k_relations k) → rel_frame id r es r' es' → same_shape h h' → rel_chain lsn id r' es' h' vs' →
  (∀ j, roaring_contains j (ra_live (rsg_arena r')) = true ↔ roaring_contains j (ra_live (rsg_arena r)) = true ∧
     (j = i → debug = true → lifecycle_from_u8 (rh_lifecycle_status h') ≠ LTombstoned)) →
  rel_inv lsn k' r' es'.
Proof.
  intros [_ _ _ Hlen Hids Hd Hrel Hwf Hinc Hlive] Hl Hi Hh Hnt Eh Ebs Eids Eidx Einc Ety Enx Erec Ek Hfr Hsh Hc Elive.
  assert (∀ h0, get_bindings h0 (rsg_arena r') = get_bindings h0 (rsg_arena r)) as Hgb by (intros; unfold get_bindings; by rewrite Ebs).
  assert (∀ j h0, nth_u64 (ra_headers (rsg_arena r')) j = Some h0 ↔
    j = i ∧ h0 = h' ∨ j ≠ i ∧ nth_u64 (ra_headers (rsg_arena r)) j = Some h0) as Hhs.
  { intros j h0. rewrite Eh. destruct (decide (j = i)) as [->|]; [rewrite nth_alter_eq, Hh; naive_solver|].
    rewrite nth_alter_ne by done. naive_solver. }
  split; rewrite ?Eids, ?Eidx, ?Einc; try done.
  - by rewrite Eh, length_alter.
  - intros id'. rewrite Ek. destruct (decide (id' = id)) as [->|]; [rewrite lookup_insert_eq, Hi; done|]. by rewrite lookup_insert_ne.
  - intros id' vs i' Hid' Hi'. rewrite Ek in Hid'. destruct (decide (id' = id)) as [->|Hne].
    + rewrite lookup_insert_eq in Hid'. simplify_eq. exists h'. split; [apply Hhs; by left|done].
    + rewrite lookup_insert_ne in Hid' by done. destruct (Hrel id' vs i' Hid' Hi') as (h0 & Hh0 & Hc0).
      assert (i' ≠ i) by (intros ->; apply Hids in Hi, Hi'; congruence). exists h0. split; [apply Hhs; by right|]. by eapply rel_chain_frame.
  - intros t role e j. rewrite Hinc. destruct Hsh as (Et & Hsh'). assert (get_bindings h' (rsg_arena r) = get_bindings h (rsg_arena r)) as Eg by (by apply same_shape_bindings).
    split; intros (h0 & b & Hh0 & Ht & Hb & He).
    + destruct (decide (j = i)) as [->|]; [exists h', b|exists h0, b]; rewrite Hhs, Hgb; [|naive_solver].
      rewrite Hh in Hh0. simplify_eq. rewrite Eg. split_and!; naive_solver.
    + apply Hhs in Hh0 as [[-> ->]|[? ?]]; [exists h, b|exists h0, b]; rewrite Hgb in Hb; [|naive_solver]. rewrite Eg in Hb. naive_solver.
  - intros j. rewrite Elive, Hlive. split.
    + intros [(h0 & Hh0 & Hd0) Hj]. destruct (decide (j = i)) as [->|]; [exists h'|exists h0]; rewrite Hhs; naive_solver.
    + intros (h0 & Hh0 & Hd0). apply Hhs in Hh0 as [[-> ->]|[? ?]]; naive_solver.
Qed.

Lemma localize_spec last k es bs : ent_inv last (k_entities k) es →
  match find_first (λ b, negb (entity_known (b_entity_id b) k)) bs with
  | Some b => localize bs (es_arena es) = Err (b_entity_id b)
  | None => ∃ ls, localize bs (es_arena es) = Ok ls ∧ Forall2 (binds (es_arena es)) ls bs
  end.
Proof.
  intros Hinv. induction bs as [|b bs IH]; [exists []; by split|]. cbn [find_first localize]. unfold entity_known at 1.
  destruct (k_entities k !! b_entity_id b) as [[[] vs]|] eqn:E; cbn [negb].
  2,3: by rewrite (get_dead _ _ _ _ Hinv) by (rewrite E; done).
  destruct (get_live _ _ _ _ _ Hinv E) as (i & h & Hi & _ & _ & -> & _). destruct (find_first _ bs) as [b'|]; [by rewrite IH|].
  destruct IH as (ls & -> & Hf). eexists. split; [done|]. constructor; [|done]. split; [|done]. cbn. by apply (ei_ids _ _ _ Hinv).
Qed.

Lemma index_bindings_spec t x ls : ∀ inc, incidence_wf inc → ∃ inc', index_bindings t x ls inc = Some inc' ∧ incidence_wf inc' ∧
  ∀ t' role e y, y ∈ incidence_lookup t' role e inc' ↔
    (t' = t ∧ y = x ∧ ∃ b, b ∈ ls ∧ sb_role_id b = role ∧ sb_entity b = e) ∨ y ∈ incidence_lookup t' role e inc.
Proof.
  induction ls as [|b ls IH]; intros inc Hwf.
  { exists inc. split_and!; [done|done|]. intros. split; [by right|]. intros [(_ & _ & b & []%elem_of_nil & _)|]; done. }
  cbn [index_bindings]. destruct (incidence_insert_spec t (sb_role_id b) (sb_entity b) x inc Hwf) as (inc1 & -> & Hwf1 & H1).
  cbn [mbind option_bind]. destruct (IH inc1 Hwf1) as (inc2 & -> & Hwf2 & H2). exists inc2. split_and!; [done|done|].
  intros t' role e y. rewrite H2, H1. setoid_rewrite elem_of_cons. naive_solver.
Qed.

(** A relation with one version *)
Lemma rel_create last lsn k k' r es r' es' id h row ls bs v inc :
  rel_inv last k r es → (last ≤ lsn)%N → prov_ok (es_provenance es) → prov_le (es_provenance es) (es_provenance es') →
  ea_index_to_id (es_arena es') = ea_index_to_id (es_arena es) → (rel_size r + lenN ls < NULL_ROW_REF)%N → (lenN ls < u16_modulus)%N →
  k_relations k !! id = None → Forall2 (binds (es_arena es)) ls bs →
  index_bindings (rh_type_id h) (lenN (ra_headers (rsg_arena r))) ls (rsg_incidence r) = Some inc →
  rsg_arena r' = (relation_bind id h ls (rsg_arena r)).2 → rvt_rows (rsg_versions r') = rvt_rows (rsg_versions r) ++ [row] →
  rsg_incidence r' = inc → rsg_types r' = k_types k' → rvt_next_id (rsg_versions r') = k_next_version k' →
  pa_next_id (es_provenance es') = k_next_record k' → k_relations k' = <[id := [v]]> (k_relations k) →
  rh_version_row h = lenN (rvt_rows (rsg_versions r)) → rv_relation_id row = id → rv_valid_from row = lsn → rv_valid_until row = u64_max →
  rv_prev_row row = NULL_ROW_REF → prov_ref (rv_provenance_row row) (es_provenance es') → rh_epistemic_status h = rv_epistemic_status row →
  same_lifecycle (rh_lifecycle_status h) (rv_lifecycle_status row) → lifecycle_from_u8 (rh_lifecycle_status h) ≠ LTombstoned →
  v = resolve_relation_row id h bs (es_provenance es') row →
  rel_inv lsn k' r' es'.
Proof.
  intros Hinv Hl Hok Hle Eids Hsz Hu16 Hid Hbind Hindex Ea Erows Einc Ety Enx Erec Ek Eh Eid Ef Eu Ep Href Ee El Hnt ->.
  pose proof Hinv as [_ _ _ Hlen Hids Hd Hrel Hwf Hinc Hlive]. unfold rel_size in Hsz.
  assert (u32_modulus = NULL_ROW_REF + 1)%N as Hmod by done.
  destruct (index_bindings_spec (rh_type_id h) (lenN (ra_headers (rsg_arena r))) ls _ Hwf) as (inc' & Hindex' & Hwf' & Hinc').
  rewrite Hindex in Hindex'. injection Hindex' as <-. subst inc.
  set (n := lenN (ra_headers (rsg_arena r))) in *. set (m := lenN (ra_bindings (rsg_arena r))) in *.
  set (h' := h <| binding_start := m |> <| binding_len := lenN ls |>).
  assert (lenN (ra_index_to_id (rsg_arena r)) = n) as En by (unfold n, lenN; by rewrite Hlen).
  assert (rsg_arena r' = mkRelationArena (if (ra_next_id (rsg_arena r) <=? id)%N then u64_add id 1 else ra_next_id (rsg_arena r))
            (ra_headers (rsg_arena r) ++ [h']) (ra_bindings (rsg_arena r) ++ ls) (<[id := n]> (ra_id_to_index (rsg_arena r)))
            (ra_index_to_id (rsg_arena r) ++ [id]) (roaring_insert n (ra_live (rsg_arena r)))) as Ea'.
  { rewrite Ea. unfold relation_bind. cbn [snd]. fold n m. rewrite !as_u32_small by lia. by rewrite N.mod_small. }
  assert (rel_frame id r es r' es') as Hfr.
  { split_and!; [done|done|by rewrite Eids|rewrite Ea'; by eexists|]. intros j x Hj _. rewrite Erows. by apply nth_u64_app_some. }
  assert (get_bindings h' (rsg_arena r') = ls) as Egb.
  { rewrite Ea'. unfold get_bindings. cbn. rewrite lenN_app. fold m. rewrite (proj2 (N.leb_le _ _)) by lia. unfold m. rewrite skipN_app by done.
    unfold truncateN, lenN. apply take_ge. lia. }
  assert (∀ j h0, nth_u64 (ra_headers (rsg_arena r)) j = Some h0 → get_bindings h0 (rsg_arena r') = get_bindings h0 (rsg_arena r)) as Hgb.
  { intros j h0 Hj. assert (∃ id0, nth_u64 (ra_index_to_id (rsg_arena r)) j = Some id0) as [id0 Hid0].
    { apply nth_u64_is_Some. rewrite En. by apply nth_u64_lt in Hj. }
    apply Hids in Hid0. destruct (k_relations k !! id0) as [vs|] eqn:E0; [|apply Hd in E0; congruence].
    destruct (Hrel id0 vs j E0 Hid0) as (h1 & Hh1 & x0 & xs & bs0 & _ & _ & _ & [Hb _] & _). rewrite Hj in Hh1. simplify_eq.
    apply get_bindings_prefix; [by rewrite Ea'; eexists|done]. }
  rewrite Ea' in *. split; rewrite ?Ea'; cbn [ra_headers ra_bindings ra_id_to_index ra_index_to_id ra_live]; try done.
  - rewrite !length_app. cbn. lia.
  - intros id' j. destruct (decide (id' = id)) as [->|Hne].
    + rewrite lookup_insert_eq, <- En. split; [intros [= <-]; apply nth_u64_app_len|]. intros [H'|[-> _]]%nth_u64_app_inv; [|done].
      apply Hids in H'. apply Hd in Hid. congruence.
    + rewrite lookup_insert_ne by done. rewrite Hids. split; [by apply nth_u64_app_some|]. by intros [?|[_ ?]]%nth_u64_app_inv.
  - intros id'. rewrite Ek. destruct (decide (id' = id)) as [->|]; [by rewrite !lookup_insert_eq|]. rewrite !lookup_insert_ne by done. apply Hd.
  - intros id' vs i' Hid' Hi'. rewrite Ek in Hid'. destruct (decide (id' = id)) as [->|Hne].
    + rewrite lookup_insert_eq in Hid'. rewrite lookup_insert_eq in Hi'. simplify_eq. exists h'. split; [apply nth_u64_app_len|].
      exists row, [], bs. rewrite Erows. split_and!; try done; [| |split].
      * cbn [rh_version_row h']. change (rh_version_row h') with (rh_version_row h). rewrite Eh.
        econstructor; [lia|apply nth_u64_app_len|by left|]. rewrite Ep. constructor.
      * intros x ->%list_elem_of_singleton. done.
      * rewrite Ea'. cbn. rewrite lenN_app. lia.
      * rewrite Ea', Egb. eapply Forall2_impl; [done|]. intros b d [? ?]. split; [by rewrite Eids|done].
    + rewrite lookup_insert_ne in Hid' by done. rewrite lookup_insert_ne in Hi' by done.
      destruct (Hrel id' vs i' Hid' Hi') as (h0 & Hh0 & Hc0). exists h0. split; [by apply nth_u64_app_some|]. by eapply rel_chain_frame.
  - intros t role e j. rewrite Hinc', Hinc. split.
    + intros [(-> & -> & b & Hb & Hre)|(h0 & b & Hh0 & Ht & Hb & Hre)].
      * exists h', b. split_and!; [apply nth_u64_app_len|done|by rewrite Egb|by destruct Hre..].
      * exists h0, b. rewrite (Hgb j h0 Hh0). split_and!; [by apply nth_u64_app_some|done|done|by destruct Hre..].
    + intros (h0 & b & [Hh0|[-> ->]]%nth_u64_app_inv & Ht & Hb & Hre).
      * rewrite (Hgb j h0 Hh0) in Hb. right. by exists h0, b.
      * rewrite Egb in Hb. left. split_and!; [done|done|]. by exists b.
  - intros j. rewrite contains_insert, orb_true_iff, bool_decide_eq_true, Hlive. split.
    + intros [->|(h0 & Hh0 & Hd0)]; [exists h'; split; [apply nth_u64_app_len|done]|]. exists h0. split; [by apply nth_u64_app_some|done].
    + intros (h0 & [Hh0|[-> ->]]%nth_u64_app_inv & Hd0); [right; by exists h0|by left].
Qed.

(** ** Steps *)

Record kn_inv (last : N) k r es : Prop := {
  kn_ent : ent_inv last (k_entities k) es;
  kn_prov : prov_rep (k_records k) (es_provenance es);
  kn_rel : rel_inv last k r es
}.
Definition kn_size r es : N := (es_size es + rel_size r)%N.

Lemma pa_size_le p p' : prov_le p p' → (pa_size p ≤ pa_size p')%N.
Proof. intros ([k1 E1] & [k2 E2] & [k3 E3]). unfold pa_size. rewrite E1, E2, E3, !lenN_app. lia. Qed.

Lemma ent_inv_provenance last lsn ents es p : ent_inv last ents es → (last ≤ lsn)%N → prov_ok (es_provenance es) →
  prov_le (es_provenance es) p → ent_inv lsn ents (with_provenance p es).
Proof.
  intros [H1 H2 H3 H4 H5] Hl Hok Hle. split; try done. intros id live vs i Hid Hi. destruct (H5 id live vs i Hid Hi) as [Hv Hc].
  split; [done|]. intros Ht. destruct (Hc Ht) as (h & Hh & Hch). exists h. split; [done|].
  apply (ent_chain_frame last lsn (id + 1) id es); [done|lia|done|]. by split_and!.
Qed.

(** Entities change, relations do not. *)
Lemma rel_inv_kept last lsn k k' r es es' : rel_inv last k r es → (last ≤ lsn)%N → prov_ok (es_provenance es) → ent_kept es es' →
  k_relations k' = k_relations k → k_types k' = k_types k → k_next_version k' = k_next_version k → k_next_record k' = k_next_record k →
  rel_inv lsn k' r es'.
Proof.
  intros [] Hl Hok [Hle Hids Hnext] E1 E2 E3 E4. split; rewrite ?E1, ?E2, ?E3, ?E4; try done; [by rewrite Hnext|].
  intros id vs i Hid Hi. destruct (ri_relation0 id vs i Hid Hi) as (h & Hh & Hc). exists h. split; [done|].
  apply (rel_chain_frame last lsn (id + 1) id r es); [done|lia|done|]. by split_and!.
Qed.

Lemma rel_inv_types last lsn k r es ts : rel_inv last k r es → (last ≤ lsn)%N → prov_ok (es_provenance es) →
  rel_inv lsn (with_types ts k) (set_types ts r) es.
Proof.
  intros [] Hl Hok. split; try done. intros id vs i Hid Hi. destruct (ri_relation0 id vs i Hid Hi) as (h & Hh & Hc). exists h. split; [done|].
  apply (rel_chain_frame last lsn (id + 1) id r es); [done|lia|done|]. by split_and!.
Qed.

Lemma kn_later last lsn k r es : kn_inv last k r es → (last ≤ lsn)%N → kn_inv lsn k r es.
Proof.
  intros [He [Hok Hp] Hr] Hl. split; [by eapply ent_inv_later|done|]. by eapply rel_inv_kept.
Qed.

Lemma get_known last k r es id vs : rel_inv last k r es → k_relations k !! id = Some vs →
  ∃ i h head tl, ra_id_to_index (rsg_arena r) !! id = Some i ∧ nth_u64 (ra_headers (rsg_arena r)) i = Some h ∧
    relation_get_by_id id (rsg_arena r) = Some (i, h) ∧ vs = head :: tl ∧ rel_chain last id r es h vs ∧
    rr_epistemic head = epistemic_from_u8 (rh_epistemic_status h) ∧ rr_lifecycle head = lifecycle_from_u8 (rh_lifecycle_status h) ∧
    (rr_lifecycle head ≠ LTombstoned → lifecycle_from_u8 (rh_lifecycle_status h) = LActive).
Proof.
  intros Hinv Hid. destruct (ra_id_to_index (rsg_arena r) !! id) as [i|] eqn:Ei; [|apply (ri_dom _ _ _ _ Hinv) in Ei; congruence].
  destruct (ri_relation _ _ _ _ Hinv id vs i Hid Ei) as (h & Hh & Hc). pose proof Hc as (x0 & xs & bs & _ & _ & _ & _ & Ee & El & ->).
  eexists i, h, _, _. split_and!; try done; [|by rewrite Ee|symmetry; apply El|].
  2:{ intros Ht. assert (lifecycle_from_u8 (rh_lifecycle_status h) ≠ LTombstoned) by (destruct El as [-> _]; exact Ht).
      destruct El as [_ ?]. by destruct (lifecycle_from_u8 (rh_lifecycle_status h)). }
  unfold relation_get_by_id. rewrite Ei. cbn [mbind option_bind]. by rewrite Hh.
Qed.

Lemma get_unknown last k r es id : rel_inv last k r es → k_relations k !! id = None → relation_get_by_id id (rsg_arena r) = None.
Proof. intros Hinv Hid. unfold relation_get_by_id. by rewrite (proj1 (ri_dom _ _ _ _ Hinv id) Hid). Qed.

Lemma chain_head_some last id r es h vs : rel_chain last id r es h vs →
  rh_version_row h ≠ NULL_ROW_REF ∧ ∃ x0 xs bs, nth_u64 (rvt_rows (rsg_versions r)) (rh_version_row h) = Some x0 ∧
    prov_ref (rv_provenance_row x0) (es_provenance es) ∧ vs = resolve_relation_row id h bs (es_provenance es) <$> x0 :: xs.
Proof.
  intros (x0 & xs & bs & Hc & _ & Hr & _ & _ & _ & E). apply chain_inv in Hc as (Hn & Hx0 & _). split; [done|]. exists x0, xs, bs.
  split_and!; [done|apply Hr; by left|done].
Qed.

(** [CreateRelationVersion] and [TransitionEpistemic] *)
Lemma advance_relation_spec last lsn k r es id vid e pid record i h head tl :
  kn_inv last k r es → (last ≤ lsn)%N → (lsn < u64_max)%N → (kn_size r es + 1 + record_cost record < NULL_ROW_REF)%N →
  k_relations k !! id = Some (head :: tl) → ra_id_to_index (rsg_arena r) !! id = Some i →
  nth_u64 (ra_headers (rsg_arena r)) i = Some h → rel_chain last id r es h (head :: tl) →
  lifecycle_from_u8 (rh_lifecycle_status h) = LActive →
  let '(prov, p) := append_provenance pid record (es_provenance es) in
  let r' := advance_relation id vid i prov lsn h e r in
  kn_inv lsn (version_step id vid lsn e pid record head tl k) r' (with_provenance p es) ∧
  (kn_size r' (with_provenance p es) ≤ kn_size r es + 1 + record_cost record)%N.
Proof.
  intros [He Hp Hr] Hl Hmax Hsz Hid Hi Hh Hc Hnt. unfold kn_size, es_size, rel_size in Hsz.
  pose proof (append_provenance_spec pid record (k_records k) (es_provenance es) Hp ltac:(lia)) as Hap.
  rewrite (ri_record _ _ _ _ Hr) in Hap. unfold version_step.
  destruct (append_record pid (k_next_record k) record (k_records k)) as [[pr recs] next] eqn:Er.
  destruct Hap as (prov & p & -> & Hp' & Hle & Href & Hrow & Hnext & Hps).
  destruct (chain_head_some _ _ _ _ _ _ Hc) as (Hnull & _). unfold advance_relation. rewrite (proj2 (N.eqb_neq _ _) Hnull).
  set (row := mkRelationVersion _ _ _ _ _ _ _ _). unfold relation_version_bind. cbn [rvt_rows close_relation_version]. rewrite lenN_alter.
  assert (u32_modulus = NULL_ROW_REF + 1)%N as Hmod by done. rewrite as_u32_small by lia. cbv zeta.
  set (h' := _ <| rh_epistemic_status := _ |>). set (r' := mkRelationSegment _ _ _ _ _).
  assert (rel_frame id r es r' (with_provenance p es)) as Hfr by (apply (close_rel_frame id lsn r es h last (head :: tl) r' _ row); try done; apply Hp).
  split; [split|].
  - apply (ent_inv_provenance last); try done. apply Hp.
  - done.
  - eapply (rel_update last lsn k _ r es r' (with_provenance p es) id i h h'); try done.
    + by rewrite Hnt.
    + apply (ri_types _ _ _ _ Hr).
    + cbn. by rewrite (ri_next _ _ _ _ Hr).
    + pose proof (rel_chain_push last lsn id r es r' (with_provenance p es) h h' row head tl Hc Hl Hmax Hfr) as Hpush.
      cbn -[r'] in Hpush. rewrite Hrow, epistemic_from_to in Hpush. apply Hpush; try done; [lia|]. split; [exact Hnt|by rewrite Hnt].
    + intros j. split; [|by intros [? _]]. intros ?. split; [done|]. intros _ _. change (rh_lifecycle_status h') with (rh_lifecycle_status h). by rewrite Hnt.
  - unfold kn_size, es_size, rel_size. cbn. rewrite lenN_snoc, !lenN_alter. lia.
Qed.

Lemma tombstone_live i h (r : RelationSegment B) id (a : RelationArena B) : ra_id_to_index a !! id = Some i →
  a = update_header i (h <| rh_lifecycle_status := lifecycle_u8 LTombstoned |>) (rsg_arena r) →
  let a' := if debug then (relation_delete id a).2 else a in
  ∃ h', ra_headers a' = alter (λ _, h') (N.to_nat i) (ra_headers (rsg_arena r)) ∧ same_shape h h' ∧ rh_version_row h' = rh_version_row h ∧
    rh_epistemic_status h' = rh_epistemic_status h ∧ lifecycle_from_u8 (rh_lifecycle_status h') = LTombstoned ∧
    ra_bindings a' = ra_bindings (rsg_arena r) ∧ ra_id_to_index a' = ra_id_to_index (rsg_arena r) ∧
    ra_index_to_id a' = ra_index_to_id (rsg_arena r) ∧
    (∀ j, roaring_contains j (ra_live a') = true ↔ roaring_contains j (ra_live (rsg_arena r)) = true ∧ (j = i → debug ≠ true)).
Proof.
  intros Hi -> a'. subst a'. destruct debug.
  - unfold relation_delete. rewrite Hi. cbn. rewrite list_alter_alter_eq.
    exists (h <| rh_flags ::= λ f, N.ldiff f RELATION_FLAG_LIVE |> <| rh_lifecycle_status := lifecycle_u8 LTombstoned |>).
    split_and!; try done.
    intros j. rewrite contains_remove, andb_true_iff, negb_true_iff, bool_decide_eq_false. naive_solver.
  - exists (h <| rh_lifecycle_status := lifecycle_u8 LTombstoned |>). cbn. split_and!; try done. naive_solver.
Qed.

Lemma tombstone_spec last lsn k r es id : kn_inv last k r es → (last ≤ lsn)%N → (lsn < u64_max)%N → (kn_size r es + 1 < NULL_ROW_REF)%N →
  ∃ r', relation_tombstone debug id lsn r = ((relation_step (RTombstone id) lsn k).1, r') ∧
    kn_inv lsn (relation_step (RTombstone id) lsn k).2 r' es ∧ (kn_size r' es ≤ kn_size r es + 1)%N.
Proof.
  intros Hinv Hl Hmax Hsz. pose proof Hinv as [He Hp Hr]. cbn [relation_step]. unfold relation_tombstone.
  destruct (k_relations k !! id) as [vs|] eqn:Eid.
  2:{ rewrite (get_unknown _ _ _ _ _ Hr Eid). eexists. split; [done|]. split; [by eapply kn_later|lia]. }
  destruct (get_known _ _ _ _ _ _ Hr Eid) as (i & h & head & tl & Hi & Hh & -> & -> & Hc & Ee & El & Hact). cbv iota.
  rewrite <- El. case_bool_decide as Ht; [eexists; split; [done|]; split; [by eapply kn_later|cbn; lia]|].
  specialize (Hact Ht). destruct (chain_head_some _ _ _ _ _ _ Hc) as (Hnull & x0 & xs & bs & Hx0 & Href & Evs). rewrite Hx0.
  set (row := mkRelationVersion _ _ _ _ _ _ _ _). unfold relation_version_append. cbn [rvt_rows rvt_next_id close_relation_version].
  unfold kn_size, es_size, rel_size in Hsz. rewrite lenN_alter. assert (u32_modulus = NULL_ROW_REF + 1)%N as Hmod by done.
  rewrite as_u32_small by lia. set (n := lenN (rvt_rows (rsg_versions r))) in *. set (h1 := h <| rh_version_row := n |>).
  destruct (tombstone_live i h1 r id (update_header i (h1 <| rh_lifecycle_status := lifecycle_u8 LTombstoned |>) (rsg_arena r)) Hi eq_refl) as (h' & Eh & Hsh & Ev & Eep & Elc & Ebs & Eids & Eidx & Elive).
  rewrite (ri_next _ _ _ _ Hr). eexists. split; [reflexivity|]. set (r' := mkRelationSegment _ _ _ _ _). cbn [fst snd].
  injection Evs as Ehd Etl.
  assert (rel_frame id r es r' es) as Hfr by (apply (close_rel_frame id lsn r es h last (head :: tl) r' _ (row <| rv_version_id := k_next_version k |>)); try done; apply Hp).
  split; [split|]; cbn [k_entities k_records].
  - by eapply ent_inv_later.
  - done.
  - eapply (rel_update last lsn k _ r es r' es id i h h'); try done.
    + by rewrite Hact.
    + apply (ri_types _ _ _ _ Hr).
    + apply (ri_record _ _ _ _ Hr).
    + pose proof (rel_chain_push last lsn id r es r' es h h' (row <| rv_version_id := k_next_version k |>) head tl Hc Hl Hmax Hfr) as Hpush.
      cbn -[r'] in Hpush.
      assert (rr_epistemic head = epistemic_from_u8 (rv_epistemic_status x0) ∧ rr_provenance head = row_provenance (rv_provenance_row x0) (es_provenance es))
        as [-> ->] by (by rewrite Ehd). apply Hpush; try done; [lia| |].
      * rewrite Eep. destruct Hc as (y0 & ys & bs' & Hch & _ & _ & _ & E' & _). apply chain_inv in Hch as (_ & Hy0 & _). rewrite Hx0 in Hy0. by simplify_eq.
      * split; [by rewrite Elc|by rewrite Elc].
    + intros j. unfold r'. cbn [rsg_arena]. rewrite Elive, Elc. naive_solver.
  - unfold kn_size, es_size, rel_size, r'. cbn [rsg_arena rsg_versions rvt_rows close_relation_version]. rewrite Eh, Ebs, lenN_snoc, !lenN_alter. lia.
Qed.

Definition relation_cost (m : RelationMutation) : N :=
  match m with
  | RCreate _ _ bs _ record _ => 2 + lenN bs + record_cost record
  | RCreateVersion _ _ _ record _ => 1 + record_cost record
  | RTransition _ _ _ _ ev _ record => 1 + record_cost (add_evidence ev <$> record)
  | RTombstone _ => 1
  | RProposeType _ | RAdmitType _ _ | RDeprecateType _ _ => 0
  end.
(** The length of the bindings is kept in 16 bits. *)
Definition relation_fits (m : RelationMutation) : bool :=
  match m with RCreate _ _ bs _ _ _ => (lenN bs <? u16_modulus)%N | _ => true end.

Lemma create_spec last lsn k r es id type_id bs pid record e : kn_inv last k r es → (last ≤ lsn)%N → (lsn < u64_max)%N →
  (lenN bs < u16_modulus)%N → let m := RCreate id type_id bs pid record e in (kn_size r es + relation_cost m < NULL_ROW_REF)%N →
  ∃ r' es', relation_create id type_id bs pid record e lsn r es = Some ((relation_step m lsn k).1, r', es') ∧
    kn_inv lsn (relation_step m lsn k).2 r' es' ∧ (kn_size r' es' ≤ kn_size r es + relation_cost m)%N.
Proof.
  intros Hinv Hl Hmax Hu16 m Hsz. subst m. pose proof Hinv as [He Hp Hr]. cbn [relation_step relation_cost] in *. unfold relation_create.
  assert (∀ x, ∃ r' es', Some (x : Result unit RelationMutationError, r, es) = Some (x, r', es') ∧ kn_inv lsn k r' es' ∧
    (kn_size r' es' ≤ kn_size r es + (2 + lenN bs + record_cost record))%N) as Hsame.
  { intros x. eexists _, _. split; [done|]. split; [by eapply kn_later|lia]. }
  destruct (k_relations k !! id) as [vs|] eqn:Eid.
  { destruct (get_known _ _ _ _ _ _ Hr Eid) as (i & h & head & tl & _ & _ & -> & _). apply Hsame. }
  rewrite (get_unknown _ _ _ _ _ Hr Eid). unfold get_type_schema. rewrite (ri_types _ _ _ _ Hr). fold (type_of type_id (k_types k)).
  destruct (type_of type_id (k_types k)) as [schema|]; [|apply Hsame]. destruct (validate_bindings schema bs) as [u|err]; [|apply Hsame].
  pose proof (localize_spec _ _ _ bs He) as Hloc. destruct (find_first _ bs) as [b|]; [rewrite Hloc; apply Hsame|].
  destruct Hloc as (ls & -> & Hbind). assert (lenN ls = lenN bs) as Els by (unfold lenN; by rewrite (Forall2_length _ _ _ Hbind)).
  unfold kn_size, es_size, rel_size in Hsz. pose proof (append_provenance_spec pid record (k_records k) (es_provenance es) Hp ltac:(lia)) as Hap.
  rewrite (ri_record _ _ _ _ Hr) in Hap. destruct (append_record pid (k_next_record k) record (k_records k)) as [[pr recs] next] eqn:Er.
  destruct Hap as (prov & p & -> & Hp' & Hle & Href & Hrow & Hnext & Hps).
  assert (u32_modulus = NULL_ROW_REF + 1)%N as Hmod by done. unfold relation_version_append. rewrite (as_u32_small (lenN (rvt_rows _))) by lia.
  set (row := mkRelationVersion _ _ _ _ _ _ _ _). set (h := mkRelationHeader _ _ _ _ _ _ _ _ _).
  destruct (index_bindings_spec type_id (lenN (ra_headers (rsg_arena r))) ls _ (ri_wf _ _ _ _ Hr)) as (inc & Hinc & _).
  destruct (relation_bind id h ls (rsg_arena r)) as [i a] eqn:Eb.
  assert (i = lenN (ra_headers (rsg_arena r))) as -> by (injection Eb as <- _; apply as_u32_small; lia).
  rewrite Hinc. cbn [mbind option_bind]. eexists _, _. split; [reflexivity|]. cbn [fst snd]. set (r' := mkRelationSegment _ _ _ _ _). split; [split|].
  - cbn [k_entities]. apply (ent_inv_provenance last); try done. apply Hp.
  - done.
  - eapply (rel_create last lsn k _ r es r' (with_provenance p es) id h (row <| rv_version_id := rvt_next_id (rsg_versions r) |>) ls bs _ inc); try done.
    + apply Hp.
    + unfold rel_size. lia.
    + by rewrite Els.
    + by rewrite Eb.
    + cbn. by rewrite (ri_next _ _ _ _ Hr).
    + unfold resolve_relation_row. cbn. rewrite Hrow, epistemic_from_to, (ri_next _ _ _ _ Hr). done.
  - unfold kn_size, es_size, rel_size, r'. assert (a = (relation_bind id h ls (rsg_arena r)).2) as -> by (by rewrite Eb). cbn. rewrite !lenN_snoc, lenN_app. lia.
Qed.

Lemma relation_step_spec last lsn m k r es : kn_inv last k r es → (last ≤ lsn)%N → (lsn < u64_max)%N → relation_fits m = true →
  (kn_size r es + relation_cost m < NULL_ROW_REF)%N →
  ∃ r' es', relation_apply debug m lsn r es = Some ((relation_step m lsn k).1, r', es') ∧
    kn_inv lsn (relation_step m lsn k).2 r' es' ∧ (kn_size r' es' ≤ kn_size r es + relation_cost m)%N.
Proof.
  intros Hinv Hl Hmax Hfits Hsz. pose proof Hinv as [He Hp Hr].
  assert (∀ x c, ∃ r' es', Some (x : Result unit RelationMutationError, r, es) = Some (x, r', es') ∧ kn_inv lsn k r' es' ∧
    (kn_size r' es' ≤ kn_size r es + c)%N) as Hsame.
  { intros x c. eexists _, _. split; [done|]. split; [by eapply kn_later|lia]. }
  assert (∀ ts, kn_inv lsn (with_types ts k) (set_types ts r) es) as Hty.
  { intros ts. split; [by eapply ent_inv_later|done|]. apply (rel_inv_types last); try done. apply Hp. }
  assert (∀ type_id expected next, ∃ r' es', (let '(x, r) := set_type_state type_id expected next r in Some (x, r, es)) =
    Some ((type_step type_id expected next k).1, r', es') ∧ kn_inv lsn (type_step type_id expected next k).2 r' es' ∧
    (kn_size r' es' ≤ kn_size r es + 0)%N) as Hstate.
  { intros type_id expected next. unfold set_type_state, type_step, get_type_schema. rewrite (ri_types _ _ _ _ Hr). fold (type_of type_id (k_types k)).
    destruct (type_of type_id (k_types k)) as [t|]; [|apply Hsame]. case_bool_decide; [apply Hsame|]. eexists _, _. split; [reflexivity|]. split; [apply Hty|]. unfold kn_size, rel_size. cbn. lia. }
  destruct m as [schema|type_id expected|type_id expected|id type_id bs pid record e|id vid pid record e|id vid expected next ev pid record|id];
    cbn [relation_apply relation_step relation_cost relation_fits] in *.
  - eexists _, _. split; [reflexivity|]. cbn [fst snd]. unfold register_type. rewrite (ri_types _ _ _ _ Hr). split; [apply Hty|]. unfold kn_size, rel_size. cbn. lia.
  - apply Hstate.
  - apply Hstate.
  - apply (create_spec last); try done. by apply N.ltb_lt.
  - destruct (k_relations k !! id) as [vs|] eqn:Eid; [|rewrite (get_unknown _ _ _ _ _ Hr Eid); apply Hsame].
    destruct (get_known _ _ _ _ _ _ Hr Eid) as (i & h & head & tl & Hi & Hh & -> & -> & Hc & Ee & El & Hact). cbv iota.
    rewrite <- El. case_bool_decide as Ht; [apply Hsame|].
    pose proof (advance_relation_spec last lsn k r es id vid e pid record i h head tl Hinv Hl Hmax ltac:(lia) Eid Hi Hh Hc (Hact Ht)) as Hadv.
    destruct (append_provenance pid record (es_provenance es)) as [prov p]. destruct Hadv as [Hk Hs]. eexists _, _. split; [done|]. split; [exact Hk|lia].
  - destruct (k_relations k !! id) as [vs|] eqn:Eid; [|rewrite (get_unknown _ _ _ _ _ Hr Eid); apply Hsame].
    destruct (get_known _ _ _ _ _ _ Hr Eid) as (i & h & head & tl & Hi & Hh & -> & -> & Hc & Ee & El & Hact). cbv iota.
    rewrite <- El. case_bool_decide as Ht; [apply Hsame|]. rewrite <- Ee. case_bool_decide; [apply Hsame|].
    destruct (validate_epistemic_transition expected next) as [u|err]; [|apply Hsame].
    pose proof (advance_relation_spec last lsn k r es id vid next pid (add_evidence ev <$> record) i h head tl Hinv Hl Hmax ltac:(lia) Eid Hi Hh Hc (Hact Ht)) as Hadv.
    destruct (append_provenance pid (add_evidence ev <$> record) (es_provenance es)) as [prov p]. destruct Hadv as [Hk Hs].
    eexists _, _. split; [done|]. split; [exact Hk|lia].
  - destruct (tombstone_spec last lsn k r es id Hinv Hl Hmax Hsz) as (r' & -> & Hk & Hs). eexists _, _. split; [reflexivity|]. split; [exact Hk|exact Hs].
Qed.

(** ** Reads *)

Lemma durable_bindings_ok h bs r es : bindings_ok h bs r es → durable_bindings h r es = bs.
Proof.
  intros [_ Hf]. unfold durable_bindings. induction Hf as [|b d bs' ds [H1 H2] _ IH]; [done|]. csimpl.
  unfold entity_index_to_id at 1. rewrite H1. cbn [mbind option_bind]. f_equal; [rewrite H2; by destruct d|exact IH].
Qed.

Lemma resolve_relation_known last k r es id lsn : rel_inv last k r es → resolve_relation_at id lsn r es = known_relation id lsn k.
Proof.
  intros Hinv. unfold resolve_relation_at, known_relation. destruct (k_relations k !! id) as [vs|] eqn:Eid.
  2: by rewrite (get_unknown _ _ _ _ _ Hinv Eid).
  destruct (get_known _ _ _ _ _ _ Hinv Eid) as (i & h & head & tl & _ & _ & -> & _ & (x0 & xs & bs & Hc & Ho & _ & Hb & _ & _ & ->) & _).
  cbn [mbind option_bind]. pose proof (chain_length _ _ _ _ Hc) as Hlen. pose proof (chain_inv _ _ _ _ _ Hc) as [Hn _].
  rewrite (proj2 (N.eqb_neq _ _) Hn), (find_relation_chain _ _ _ lsn Hc) by lia.
  change (relation_visible_at lsn) with (row_visible rv_valid_from rv_valid_until lsn).
  rewrite (first_visible rv_valid_from rv_valid_until lsn (x0 :: xs) u64_max last Ho ltac:(by left)), find_first_fmap.
  rewrite (durable_bindings_ok _ _ _ _ Hb). by destruct (find_first _ (x0 :: xs)).
Qed.

(** What a query asks of a version *)
Definition scope_admits (scope : SchemaScope) (ts : list RelationType) (type_id : N) : Prop :=
  ∀ t, type_of type_id ts = Some t →
    match scope with AdmittedOnly => rt_state t = Admitted_ | IncludeProposed => rt_state t ≠ Deprecated | Historical => True end.
Definition matches (q : RelationQuery) k (v : ResolvedRelationVersion) : Prop :=
  rr_lifecycle v ≠ LTombstoned ∧ (∀ t, q_type_id q = Some t → rr_type_id v = t) ∧ scope_admits (q_scope q) (k_types k) (rr_type_id v) ∧
  (∀ allowed, epistemic_in q = Some allowed → rr_epistemic v ∈ allowed) ∧
  (∀ role entity, (role, entity) ∈ role_constraints q → mkBinding entity role ∈ rr_bindings v).
(** A query with a type and constraints looks the constrained entities up first. *)
Definition constrained_known (q : RelationQuery) k : Prop :=
  is_Some (q_type_id q) → ∀ role entity, (role, entity) ∈ role_constraints q → entity_known entity k = true.

Lemma query_accepts_spec last k q r es v : rel_inv last k r es → query_accepts q r v = true ↔ matches q k v.
Proof.
  intros Hinv. unfold query_accepts, matches, in_scope, get_type_schema, scope_admits. rewrite (ri_types _ _ _ _ Hinv). fold (type_of (rr_type_id v) (k_types k)).
  rewrite !andb_true_iff, negb_true_iff, bool_decide_eq_false, forallb_forall, !Logic.and_assoc. f_equiv. f_equiv; [|f_equiv; [|f_equiv]].
  - destruct (q_type_id q); [rewrite N.eqb_eq|]; naive_solver.
  - destruct (type_of _ _) as [t|]; [|naive_solver]. destruct (q_scope q); rewrite ?bool_decide_eq_true; naive_solver.
  - destruct (epistemic_in q); rewrite ?bool_decide_eq_true; naive_solver.
  - split.
    + intros Hf role entity Hin. apply list_elem_of_In in Hin. apply Hf in Hin. apply existsb_exists in Hin as (b & Hb%list_elem_of_In & [H1 H2]%andb_true_iff).
      apply N.eqb_eq in H1, H2. destruct b; cbn in *. by subst.
    + intros Hf [role entity] Hin%list_elem_of_In. apply existsb_exists. exists (mkBinding entity role). split; [by apply list_elem_of_In, Hf|].
      cbn. by rewrite !N.eqb_refl.
Qed.

Lemma known_relation_id last k r es id lsn v : rel_inv last k r es → known_relation id lsn k = Some v → rr_relation_id v = id.
Proof.
  intros Hinv. unfold known_relation. destruct (k_relations k !! id) as [vs|] eqn:Eid; [|done]. cbn [mbind option_bind].
  destruct (get_known _ _ _ _ _ _ Hinv Eid) as (i & h & head & tl & _ & _ & _ & _ & (x0 & xs & bs & _ & _ & _ & _ & _ & _ & ->) & _).
  rewrite find_first_fmap. by intros (x & _ & ->)%fmap_Some.
Qed.

(** ** Queries *)

Lemma omap_NoDup {A C} (f : A → option C) l : (∀ x y z, f x = Some z → f y = Some z → x = y) → NoDup l → NoDup (omap f l).
Proof.
  intros Hf. induction 1 as [|x l Hx _ IH]; [constructor|]. csimpl. destruct (f x) as [z|] eqn:E; [|done]. constructor; [|done].
  rewrite list_elem_of_omap. intros (y & Hy & E'). by rewrite (Hf x y z E E') in Hx.
Qed.

Lemma ids_inj last k r es : rel_inv last k r es → ∀ i j id, nth_u64 (ra_index_to_id (rsg_arena r)) i = Some id →
  nth_u64 (ra_index_to_id (rsg_arena r)) j = Some id → i = j.
Proof. intros Hinv i j id Hi Hj. apply (ri_ids _ _ _ _ Hinv) in Hi, Hj. congruence. Qed.

(** The postings of the constraints *)
Lemma constraint_postings_spec last k r es t cs : ent_inv last (k_entities k) es → incidence_wf (rsg_incidence r) →
  match constraint_postings t cs r es with
  | None => ∃ role entity, (role, entity) ∈ cs ∧ entity_known entity k = false
  | Some ps => (∀ role entity, (role, entity) ∈ cs → entity_known entity k = true) ∧ Forall (StronglySorted N.lt) ps ∧
      (cs ≠ [] → ps ≠ []) ∧
      ∀ p, p ∈ ps → ∃ role entity e, (role, entity) ∈ cs ∧ ea_id_to_index (es_arena es) !! entity = Some e ∧
        p = incidence_lookup t role e (rsg_incidence r)
  end.
Proof.
  intros Hinv Hwf. induction cs as [|[role entity] cs IH]; cbn [constraint_postings].
  { split_and!; [by intros ?? ?%elem_of_nil|constructor|done|by intros ? ?%elem_of_nil]. }
  destruct (entity_known entity k) eqn:Ek; unfold entity_known in Ek.
  - destruct (k_entities k !! entity) as [[live vs]|] eqn:E; [subst live|done].
    destruct (get_live _ _ _ _ _ Hinv E) as (i & h & Hi & _ & _ & -> & _). cbn [mbind option_bind].
    destruct (constraint_postings t cs r es) as [ps|]; cbn [mbind option_bind].
    + destruct IH as (Hk & Hs & _ & Hp). split_and!; [| |done|].
      * intros role' entity' [[= -> ->]|Hin]%elem_of_cons; [by unfold entity_known; rewrite E|by apply (Hk role')].
      * constructor; [by apply incidence_lookup_wf|done].
      * intros p [->|Hin]%elem_of_cons; [exists role, entity, i; split_and!; [by left|done|done]|].
        destruct (Hp p Hin) as (role' & entity' & e & ? & ? & ?). exists role', entity', e. split_and!; [by right|done|done].
    + destruct IH as (role' & entity' & ? & ?). exists role', entity'. split; [by right|done].
  - rewrite (get_dead _ _ _ entity Hinv); [exists role, entity; split; [by left|done]|].
    intros vs E. by rewrite E in Ek.
Qed.

(** Where a known relation is *)
Lemma known_relation_at last k r es id lsn v : rel_inv last k r es → known_relation id lsn k = Some v →
  ∃ vs i h, k_relations k !! id = Some vs ∧ ra_id_to_index (rsg_arena r) !! id = Some i ∧
    nth_u64 (ra_index_to_id (rsg_arena r)) i = Some id ∧ nth_u64 (ra_headers (rsg_arena r)) i = Some h ∧ rel_chain last id r es h vs ∧
    find_first (λ v, (rr_valid_from v <=? lsn)%N) vs = Some v.
Proof.
  intros Hr Hv. unfold known_relation in Hv. destruct (k_relations k !! id) as [vs|] eqn:Eid; [|done].
  destruct (get_known _ _ _ _ _ _ Hr Eid) as (i & h & head & tl & Hi & Hh & _ & _ & Hc & _). exists vs, i, h.
  split_and!; try done. by apply (ri_ids _ _ _ _ Hr).
Qed.

Lemma all_ids_spec last k r es : rel_inv last k r es → NoDup (relation_all_ids (rsg_arena r)) ∧
  ∀ id lsn v, known_relation id lsn k = Some v → id ∈ relation_all_ids (rsg_arena r).
Proof.
  intros Hr. split.
  - apply NoDup_alt. intros i j id Hi Hj. rewrite <- (Nat2N.id i) in Hi. rewrite <- (Nat2N.id j) in Hj.
    pose proof (ids_inj _ _ _ _ Hr _ _ _ Hi Hj). lia.
  - intros id lsn v Hv. destruct (known_relation_at _ _ _ _ _ _ _ Hr Hv) as (vs & i & h & _ & _ & Hi & _). by apply list_elem_of_lookup_2 in Hi.
Qed.

(** At or after the last position, the current version of a relation outside the
    bitmap is a tombstone. *)
Lemma live_ids_spec last k r es lsn : rel_inv last k r es → (last ≤ lsn)%N → NoDup (relation_live_ids (rsg_arena r)) ∧
  ∀ id v, known_relation id lsn k = Some v → rr_lifecycle v ≠ LTombstoned → id ∈ relation_live_ids (rsg_arena r).
Proof.
  intros Hr Hl. unfold relation_live_ids. split.
  - apply omap_NoDup; [|apply roaring_iter_NoDup]. intros i j id. apply (ids_inj _ _ _ _ Hr).
  - intros id v Hv Ht. destruct (known_relation_at _ _ _ _ _ _ _ Hr Hv) as (vs & i & h & _ & _ & Hi & Hh & Hc & Hf).
    apply list_elem_of_omap. exists i. split; [|done]. apply elem_of_roaring_iter, (ri_live _ _ _ _ Hr). exists h. split; [done|]. intros _.
    destruct Hc as (x0 & xs & bs & _ & (_ & Hfrom & _) & _ & _ & _ & [El _] & ->). rewrite El. revert Hf. csimpl.
    rewrite (proj2 (N.leb_le _ _)) by lia. by intros [= <-].
Qed.

(** The join of the postings finds every relation of the type that has the
    constrained bindings. *)
Lemma join_spec last k r es t cs ps lsn id v : kn_inv last k r es → constraint_postings t cs r es = Some ps → cs ≠ [] →
  known_relation id lsn k = Some v → rr_type_id v = t → (∀ role entity, (role, entity) ∈ cs → mkBinding entity role ∈ rr_bindings v) →
  id ∈ omap (λ i, relation_index_to_id i (rsg_arena r)) (common_keys ps).
Proof.
  intros [He _ Hr] Eps Hcs Hv Ht Hbs. pose proof (constraint_postings_spec last k r es t cs He (ri_wf _ _ _ _ Hr)) as Hps. rewrite Eps in Hps.
  destruct Hps as (_ & _ & Hne & Hp). destruct (known_relation_at _ _ _ _ _ _ _ Hr Hv) as (vs & i & h & _ & _ & Hi & Hh & Hc & Hf).
  apply list_elem_of_omap. exists i. split; [|done]. apply common_keys_spec; [by apply Hne|]. intros p Hin.
  destruct (Hp p Hin) as (role & entity & e & Hc' & Hent & ->). apply (ri_incidence _ _ _ _ Hr).
  destruct Hc as (x0 & xs & bs & _ & _ & _ & [_ Hb] & _ & _ & ->). rewrite find_first_fmap in Hf.
  apply fmap_Some in Hf as (x & _ & ->). cbn [rr_type_id rr_bindings resolve_relation_row] in Ht, Hbs. specialize (Hbs _ _ Hc').
  apply list_elem_of_lookup in Hbs as [j Hj]. destruct (Forall2_lookup_r _ _ _ _ _ Hb Hj) as (b & Hbj & Hb1 & Hb2).
  exists h, b. split_and!; try done; [by apply list_elem_of_lookup_2 in Hbj|]. apply (ei_ids _ _ _ He) in Hb1. cbn in Hb1. congruence.
Qed.

(** Relations that are not candidates do not match. *)
Lemma candidates_spec last k q r es snap : kn_inv last k r es → (as_of_lsn q = None → last ≤ snap)%N →
  let lsn := default snap (as_of_lsn q) in
  match query_candidates q r es with
  | None => False
  | Some None => ¬ constrained_known q k
  | Some (Some ids) => constrained_known q k ∧ NoDup ids ∧ ∀ id v, known_relation id lsn k = Some v → matches q k v → id ∈ ids
  end.
Proof.
  intros Hkn Hsnap lsn. pose proof Hkn as [He _ Hr]. pose proof (ids_inj _ _ _ _ Hr) as Hinj.
  assert (∀ ids, (NoDup ids ∧ ∀ id v, known_relation id lsn k = Some v → matches q k v → id ∈ ids) →
    (q_type_id q = None ∨ role_constraints q = []) →
    constrained_known q k ∧ NoDup ids ∧ ∀ id v, known_relation id lsn k = Some v → matches q k v → id ∈ ids) as Hfree.
  { intros ids Hids Hq. split; [|done]. intros [t Et] role entity Hin. destruct Hq as [Hq|Hq]; [congruence|]. rewrite Hq in Hin. by apply elem_of_nil in Hin. }
  assert (let scan := match as_of_lsn q with Some _ => relation_all_ids (rsg_arena r) | None => relation_live_ids (rsg_arena r) end in
    NoDup scan ∧ ∀ id v, known_relation id lsn k = Some v → matches q k v → id ∈ scan) as Hscan.
  { subst lsn. destruct (as_of_lsn q) as [n|]; cbn.
    - destruct (all_ids_spec _ _ _ _ Hr) as [Hn Ha]. split; [done|]. intros id v Hv _. by apply (Ha id n v).
    - destruct (live_ids_spec _ _ _ _ snap Hr (Hsnap eq_refl)) as [Hn Ha]. split; [done|]. intros id v Hv [Ht _]. by apply (Ha id v). }
  unfold query_candidates. destruct (q_type_id q) as [t|] eqn:Et; [|apply Hfree; [exact Hscan|by left]].
  destruct (role_constraints q) as [|c cs] eqn:Ecs; [apply Hfree; [exact Hscan|by right]|]. rewrite <- Ecs in *.
  pose proof (constraint_postings_spec last k r es t (role_constraints q) He (ri_wf _ _ _ _ Hr)) as Hps.
  destruct (constraint_postings t (role_constraints q) r es) as [ps|] eqn:Eps.
  2:{ destruct Hps as (role & entity & Hin & Hk). intros Hck. rewrite (Hck ltac:(by eexists) role entity Hin) in Hk. done. }
  destruct Hps as (Hk & Hsorted & Hne & Hp). rewrite (intersect_correct ps Hsorted). split_and!; [by intros _| |].
  - apply omap_NoDup; [intros i j id; apply Hinj|]. destruct ps as [|p ps]; [constructor|].
    apply (NoDup_filter _ p), increasing_NoDup. by inversion Hsorted.
  - intros id v Hv (_ & Hty & _ & _ & Hbs). apply (join_spec last k r es t (role_constraints q) ps lsn id v); try done; [by rewrite Ecs|by apply Hty].
Qed.

Lemma sorted_strict {A} (key : A → N) l : StronglySorted (λ x y, (key x ≤ key y)%N) l → NoDup (key <$> l) → StronglySorted (λ x y, (key x < key y)%N) l.
Proof.
  induction 1 as [|x l _ IH Hx]; [constructor|]. csimpl. intros [Hin Hn]%NoDup_cons. constructor; [by apply IH|].
  rewrite Forall_forall in Hx |- *. intros y Hy. specialize (Hx y Hy). destruct (decide (key x = key y)) as [E|]; [|lia].
  destruct Hin. rewrite E. by apply list_elem_of_fmap_2.
Qed.

Lemma resolved_NoDup last k r es lsn ids : rel_inv last k r es → NoDup ids → NoDup (omap (λ id, resolve_relation_at id lsn r es) ids) ∧
  ∀ v w, v ∈ omap (λ id, resolve_relation_at id lsn r es) ids → w ∈ omap (λ id, resolve_relation_at id lsn r es) ids →
    rr_relation_id v = rr_relation_id w → v = w.
Proof.
  intros Hr Hn. assert (∀ x v, resolve_relation_at x lsn r es = Some v → rr_relation_id v = x) as Hid.
  { intros x v. rewrite (resolve_relation_known _ _ _ _ _ _ Hr). by apply (known_relation_id last k r es). }
  assert (NoDup (omap (λ id, resolve_relation_at id lsn r es) ids)) as Hv.
  { apply omap_NoDup; [|done]. intros x y v Hx Hy. apply Hid in Hx, Hy. congruence. }
  split; [done|]. intros v w Hv1 Hw1 E. apply list_elem_of_omap in Hv1 as (x & _ & Hx), Hw1 as (y & _ & Hy).
  pose proof (Hid _ _ Hx). pose proof (Hid _ _ Hy). congruence.
Qed.

Lemma query_spec `{!SortUnstable} last k q r es snap : kn_inv last k r es → (as_of_lsn q = None → last ≤ snap)%N →
  ∃ found, query_execute q snap r es = Some found ∧ StronglySorted (λ v w, (rr_relation_id v < rr_relation_id w)%N) found ∧
    ∀ v, v ∈ found ↔ known_relation (rr_relation_id v) (default snap (as_of_lsn q)) k = Some v ∧ matches q k v ∧ constrained_known q k.
Proof.
  intros Hkn Hsnap. pose proof Hkn as [_ _ Hr]. pose proof (candidates_spec last k q r es snap Hkn Hsnap) as Hc. unfold query_execute. cbv zeta in *.
  set (lsn := default snap (as_of_lsn q)) in *. destruct (query_candidates q r es) as [[ids|]|]; [| |done]; cbn [mbind option_bind].
  2:{ exists []. split_and!; [done|constructor|]. intros v. split; [by intros ?%elem_of_nil|]. by intros (_ & _ & ?). }
  destruct Hc as (Hck & Hn & Hin). eexists. split; [reflexivity|]. destruct (resolved_NoDup last k r es lsn ids Hr Hn) as [Hv1 Hv2]. split.
  - apply sorted_strict; [apply sort_by_key_sorted|]. rewrite sort_by_key_perm.
    apply NoDup_fmap_2_strong; [|by apply NoDup_filter]. intros v w [_ Hv]%list_elem_of_filter [_ Hw]%list_elem_of_filter. by apply Hv2.
  - intros v. rewrite sort_by_key_perm, list_elem_of_filter, list_elem_of_omap, (query_accepts_spec last k q r es v Hr). split.
    + intros (Hm & id & _ & Hv). rewrite (resolve_relation_known _ _ _ _ _ _ Hr) in Hv. by rewrite (known_relation_id _ _ _ _ _ _ _ Hr Hv).
    + intros (Hv & Hm & _). split; [done|]. exists (rr_relation_id v). split; [by apply (Hin _ v)|]. by rewrite (resolve_relation_known _ _ _ _ _ _ Hr).
Qed.

(** ** Logs *)

Inductive KnowledgeMutation := OnEntities (m : EntityMutation) | OnRelations (m : RelationMutation).
Abbreviation Outcome := (Result unit MutationApplyError + Result unit RelationMutationError)%type.

Fixpoint apply_log (log : list (N * KnowledgeMutation)) r es : option (list Outcome * RelationSegment B * EntitySegment) :=
  match log with
  | [] => Some ([], r, es)
  | (lsn, OnEntities m) :: log =>
      let '(x, es) := entity_apply m lsn es in
      '(xs, r, es) ← apply_log log r es; Some (inl x :: xs, r, es)
  | (lsn, OnRelations m) :: log =>
      '(x, r, es) ← relation_apply debug m lsn r es;
      '(xs, r, es) ← apply_log log r es; Some (inr x :: xs, r, es)
  end.
Fixpoint know_log (log : list (N * KnowledgeMutation)) k : list Outcome * Knowledge :=
  match log with
  | [] => ([], k)
  | (lsn, OnEntities m) :: log => let '(x, k) := entity_step m lsn k in let '(xs, k) := know_log log k in (inl x :: xs, k)
  | (lsn, OnRelations m) :: log => let '(x, k) := relation_step m lsn k in let '(xs, k) := know_log log k in (inr x :: xs, k)
  end.

(** Positions do not decrease. *)
Fixpoint log_ok (last : N) (log : list (N * KnowledgeMutation)) : bool :=
  match log with
  | [] => true
  | (lsn, m) :: log =>
      (last <=? lsn)%N && (lsn <? u64_max)%N && match m with OnRelations m => relation_fits m | _ => true end && log_ok lsn log
  end.
Definition mutation_cost (m : KnowledgeMutation) : N := match m with OnEntities m => entity_cost m | OnRelations m => relation_cost m end.
Definition log_cost (log : list (N * KnowledgeMutation)) : N := foldr (λ '(_, m) c, (mutation_cost m + c)%N) 0%N log.
Definition log_end (last : N) (log : list (N * KnowledgeMutation)) : N := foldl (λ _ '(lsn, _), lsn) last log.

Lemma entity_step_keeps m lsn k : k_relations (entity_step m lsn k).2 = k_relations k ∧ k_types (entity_step m lsn k).2 = k_types k ∧
  k_next_version (entity_step m lsn k).2 = k_next_version k ∧ k_next_record (entity_step m lsn k).2 = k_next_record k.
Proof.
  destruct m as [? ? ? pid record ?|? ? pid record ? ? ? ? ?|? ? ? ? ? pid record|? ? pid record]; cbn; destruct (bind_record pid record (k_records k)) as [pr recs]; by repeat case_match.
Qed.

Lemma apply_log_spec log : ∀ last k r es, kn_inv last k r es → log_ok last log = true → (kn_size r es + log_cost log < NULL_ROW_REF)%N →
  ∃ r' es', apply_log log r es = Some ((know_log log k).1, r', es') ∧ kn_inv (log_end last log) (know_log log k).2 r' es'.
Proof.
  induction log as [|[lsn m] log IH]; intros last k r es Hinv Hok Hsz; [by exists r, es|].
  cbn [log_ok] in Hok. apply andb_true_iff in Hok as [[[Hl%N.leb_le Hmax%N.ltb_lt]%andb_true_iff Hfit]%andb_true_iff Hok].
  change (log_cost ((lsn, m) :: log)) with (mutation_cost m + log_cost log)%N in Hsz. destruct m as [m|m]; cbn [apply_log know_log log_end foldl mutation_cost] in *.
  - pose proof Hinv as [He Hp Hr]. destruct (entity_step_spec last lsn m k es He Hp Hl Hmax ltac:(unfold kn_size in Hsz; lia)) as (es' & -> & He' & Hp' & Hkept & Hs).
    destruct (entity_step_keeps m lsn k) as (E1 & E2 & E3 & E4). assert (kn_inv lsn (entity_step m lsn k).2 r es') as Hinv'.
    { split; [done|done|]. apply (rel_inv_kept last lsn k _ r es); try done. apply Hp. }
    destruct (entity_step m lsn k) as [x k']. cbn [fst snd] in *.
    destruct (IH lsn k' r es' Hinv' Hok) as (r2 & es2 & -> & Hend); [unfold kn_size in *; lia|]. cbn [mbind option_bind].
    destruct (know_log log k') as [xs k2]. by eexists _, _.
  - destruct (relation_step_spec last lsn m k r es Hinv Hl Hmax Hfit ltac:(lia)) as (r1 & es1 & -> & Hinv' & Hs).
    destruct (relation_step m lsn k) as [x k']. cbn [fst snd mbind option_bind] in *.
    destruct (IH lsn k' r1 es1 Hinv' Hok) as (r2 & es2 & -> & Hend); [lia|]. cbn [mbind option_bind].
    destruct (know_log log k') as [xs k2]. by eexists _, _.
Qed.

Lemma kn_inv_new ge gr start_e start_r dim : kn_inv 0 nothing (relation_segment_new gr start_r) (entity_segment_new ge start_e dim) ∧
  kn_size (relation_segment_new gr start_r) (entity_segment_new ge start_e dim) = 0%N.
Proof.
  split; [|done]. split.
  - by split.
  - split; [split; [by intros ? ?%elem_of_nil|done|done]|]. done.
  - split; try done; cbn.
    + intros t role e i. unfold incidence_lookup. rewrite lookup_empty. cbn. split; [by intros ?%elem_of_nil|]. by intros (h & b & ? & _).
    + intros i. rewrite contains_new. split; [done|]. by intros (h & ? & _).
Qed.

(** ** The past *)

Lemma same_trans {A} (open : A → Prop) close lsn (o1 o2 o3 : option A) : (∀ n v, ¬ open (close n v)) →
  same_or_closed open close lsn o1 o2 → same_or_closed open close lsn o2 o3 → same_or_closed open close lsn o1 o3.
Proof.
  intros Hc [->|(v & n & -> & Hv & Hn & ->)] [->|(w & m & Hw & Ho & Hm & ->)]; [by left|right; eauto 10|right; eauto 10|].
  simplify_eq. by destruct (Hc n v).
Qed.

(** The newest version of everything is open. *)
Definition open_heads k : Prop :=
  (∀ id live vs, k_entities k !! id = Some (live, vs) → ∃ v tl, vs = v :: tl ∧ entity_open v) ∧
  (∀ id vs, k_relations k !! id = Some vs → ∃ v tl, vs = v :: tl ∧ relation_open v).

Lemma entity_push_past n lsn v head vs : (lsn < n)%N → re_valid_from_lsn v = n → entity_open head →
  same_entity lsn (find_first (λ v, (re_valid_from_lsn v <=? lsn)%N) (head :: vs))
    (find_first (λ v, (re_valid_from_lsn v <=? lsn)%N) (v :: close_head (close_entity n) (head :: vs))).
Proof.
  intros Hn Ev Ho. cbn. rewrite Ev, (proj2 (N.leb_gt _ _) Hn). destruct (re_valid_from_lsn head <=? lsn)%N; [|by left].
  right. by exists head, n.
Qed.

Lemma relation_push_past n lsn v head vs : (lsn < n)%N → rr_valid_from v = n → relation_open head →
  same_relation lsn (find_first (λ v, (rr_valid_from v <=? lsn)%N) (head :: vs))
    (find_first (λ v, (rr_valid_from v <=? lsn)%N) (v :: close_relation n head :: vs)).
Proof.
  intros Hn Ev Ho. cbn. rewrite Ev, (proj2 (N.leb_gt _ _) Hn). destruct (rr_valid_from head <=? lsn)%N; [|by left].
  right. by exists head, n.
Qed.

Lemma relation_step_entities m n k : k_entities (relation_step m n k).2 = k_entities k.
Proof. destruct m; cbn [relation_step]; unfold type_step, version_step; by repeat case_match. Qed.

(** A step adds one open version in front of an entity or a relation, or none. *)
Lemma entity_step_shape m n k : open_heads k → k_entities (entity_step m n k).2 = k_entities k ∨
  ∃ id live v, entity_open v ∧ re_valid_from_lsn v = n ∧
    (k_entities k !! id = None ∧ k_entities (entity_step m n k).2 = <[id := (live, [v])]> (k_entities k) ∨
     ∃ head vs, k_entities k !! id = Some (true, head :: vs) ∧ entity_open head ∧
       k_entities (entity_step m n k).2 = <[id := (live, v :: close_head (close_entity n) (head :: vs))]> (k_entities k)).
Proof.
  intros [He _]. destruct m as [id header vid pid record e|id vid pid record e lc kind prop vec|id vid expected next ev pid record|id vid pid record];
    cbn [entity_step]; destruct (bind_record pid record (k_records k)) as [pr recs].
  - destruct (k_entities k !! id) as [x|] eqn:E; [by left|]. right. eexists id, _, _. split_and!; [| |left; by split]; done.
  - destruct (k_entities k !! id) as [[[] vs]|] eqn:E; [|by left..]. destruct (He _ _ _ E) as (head & tl & -> & Ho).
    right. eexists id, _, _. split_and!; [| |right; exists head, tl; by split_and!]; done.
  - destruct (k_entities k !! id) as [[[] vs]|] eqn:E; [|by left..]. destruct (He _ _ _ E) as (head & tl & -> & Ho).
    destruct (bool_decide _); [by left|]. destruct (validate_epistemic_transition expected next); [|by left].
    right. eexists id, _, _. split_and!; [| |right; exists head, tl; by split_and!]; done.
  - destruct (k_entities k !! id) as [[[] vs]|] eqn:E; [|by left..]. destruct (He _ _ _ E) as (head & tl & -> & Ho).
    right. eexists id, _, _. split_and!; [| |right; exists head, tl; by split_and!]; done.
Qed.

Lemma relation_step_shape m n k : open_heads k → k_relations (relation_step m n k).2 = k_relations k ∨
  ∃ id v, relation_open v ∧ rr_valid_from v = n ∧
    (k_relations k !! id = None ∧ k_relations (relation_step m n k).2 = <[id := [v]]> (k_relations k) ∨
     ∃ head vs, k_relations k !! id = Some (head :: vs) ∧ relation_open head ∧
       k_relations (relation_step m n k).2 = <[id := v :: close_relation n head :: vs]> (k_relations k)).
Proof.
  intros [_ Hr]. destruct m as [schema|type_id expected|type_id expected|id type_id bs pid record e|id vid pid record e|id vid expected next ev pid record|id];
    cbn [relation_step]; unfold type_step, version_step.
  1-3: left; by repeat case_match.
  - destruct (k_relations k !! id) as [vs|] eqn:E; [by left|]. repeat case_match; try by left. right. eexists id, _. split_and!; [| |left; by split]; done.
  - destruct (k_relations k !! id) as [vs|] eqn:E; [|by left]. destruct (Hr _ _ E) as (head & tl & -> & Ho). repeat case_match; try by left.
    right. eexists id, _. split_and!; [| |right; exists head, tl; by split_and!]; done.
  - destruct (k_relations k !! id) as [vs|] eqn:E; [|by left]. destruct (Hr _ _ E) as (head & tl & -> & Ho). repeat case_match; try by left.
    right. eexists id, _. split_and!; [| |right; exists head, tl; by split_and!]; done.
  - destruct (k_relations k !! id) as [vs|] eqn:E; [|by left]. destruct (Hr _ _ E) as (head & tl & -> & Ho). repeat case_match; try by left.
    right. eexists id, _. split_and!; [| |right; exists head, tl; by split_and!]; done.
Qed.

Lemma entity_step_past m n k id lsn : open_heads k → (lsn < n)%N → same_entity lsn (known_entity id lsn k) (known_entity id lsn (entity_step m n k).2).
Proof.
  intros Hk Hn. unfold known_entity. destruct (entity_step_shape m n k Hk) as [->|(id' & live & v & Hv & Ev & [[E ->]|(head & vs & E & Ho & ->)])]; [by left|..].
  - destruct (decide (id = id')) as [->|]; [|rewrite lookup_insert_ne by done; by left]. rewrite lookup_insert_eq, E. cbn.
    rewrite Ev, (proj2 (N.leb_gt _ _) Hn). by left.
  - destruct (decide (id = id')) as [->|]; [|rewrite lookup_insert_ne by done; by left]. rewrite lookup_insert_eq, E. cbn [mbind option_bind].
    by apply entity_push_past.
Qed.

Lemma relation_step_past m n k id lsn : open_heads k → (lsn < n)%N → same_relation lsn (known_relation id lsn k) (known_relation id lsn (relation_step m n k).2).
Proof.
  intros Hk Hn. unfold known_relation. destruct (relation_step_shape m n k Hk) as [->|(id' & v & Hv & Ev & [[E ->]|(head & vs & E & Ho & ->)])]; [by left|..].
  - destruct (decide (id = id')) as [->|]; [|rewrite lookup_insert_ne by done; by left]. rewrite lookup_insert_eq, E. cbn.
    rewrite Ev, (proj2 (N.leb_gt _ _) Hn). by left.
  - destruct (decide (id = id')) as [->|]; [|rewrite lookup_insert_ne by done; by left]. rewrite lookup_insert_eq, E. cbn [mbind option_bind].
    by apply relation_push_past.
Qed.

Lemma open_heads_entity m n k : open_heads k → open_heads (entity_step m n k).2.
Proof.
  intros Hk. pose proof (entity_step_keeps m n k) as [Er _]. split; [|rewrite Er; apply Hk].
  destruct (entity_step_shape m n k Hk) as [->|(id' & live & v & Hv & _ & [[_ ->]|(head & vs & _ & _ & ->)])]; [apply Hk|..];
    intros id l vs' [[_ [= _ <-]]|[_ Hid]]%lookup_insert_Some; try (by eexists _, _); by eapply Hk.
Qed.

Lemma open_heads_relation m n k : open_heads k → open_heads (relation_step m n k).2.
Proof.
  intros Hk. split; [rewrite relation_step_entities; apply Hk|].
  destruct (relation_step_shape m n k Hk) as [->|(id' & v & Hv & _ & [[_ ->]|(head & vs & _ & _ & ->)])]; [apply Hk|..];
    intros id vs' [[_ <-]|[_ Hid]]%lookup_insert_Some; try (by eexists _, _); by eapply Hk.
Qed.

Lemma open_heads_log log : ∀ k, open_heads k → open_heads (know_log log k).2.
Proof.
  induction log as [|[n [m|m]] log IH]; intros k Hk; [done|..]; cbn [know_log].
  - apply (open_heads_entity m n) in Hk. destruct (entity_step m n k) as [x k']. specialize (IH k' Hk). by destruct (know_log log k').
  - apply (open_heads_relation m n) in Hk. destruct (relation_step m n k) as [x k']. specialize (IH k' Hk). by destruct (know_log log k').
Qed.

(** A tombstoned entity stays one. *)
Lemma tombstoned_entity_step m n k id : tombstoned id k → tombstoned id (entity_step m n k).2.
Proof.
  intros [vs E]. unfold tombstoned.
  destruct m as [id' header vid pid record e|id' vid pid record e lc kind prop vec|id' vid expected next ev pid record|id' vid pid record];
    cbn [entity_step]; destruct (bind_record pid record (k_records k)) as [pr recs];
    (destruct (decide (id = id')) as [->|]; [rewrite E; by eexists|]); repeat case_match; cbn; rewrite ?lookup_insert_ne by done; by eexists.
Qed.

Lemma tombstoned_log log id : ∀ k, tombstoned id k → tombstoned id (know_log log k).2.
Proof.
  induction log as [|[n [m|m]] log IH]; intros k Hb; [done|..]; cbn [know_log].
  - apply (tombstoned_entity_step m n) in Hb. destruct (entity_step m n k) as [x k']. specialize (IH k' Hb). by destruct (know_log log k').
  - pose proof (relation_step_entities m n k) as E. destruct (relation_step m n k) as [x k']. cbn in E.
    assert (tombstoned id k') as Hb' by (unfold tombstoned; by rewrite E). specialize (IH k' Hb'). by destruct (know_log log k').
Qed.

Lemma past_fixed later id lsn : ∀ k, open_heads k → Forall (λ '(n, _), lsn < n)%N later → let k' := (know_log later k).2 in
  same_relation lsn (known_relation id lsn k) (known_relation id lsn k') ∧ same_entity lsn (known_entity id lsn k) (known_entity id lsn k').
Proof.
  induction later as [|[n m] later IH]; intros k Hk Hall; [split; by left|]. apply Forall_cons in Hall as [Hn Hall]. destruct m as [m|m]; cbn [know_log].
  - destruct (entity_step_keeps m n k) as [Erel _]. pose proof (entity_step_past m n k id lsn Hk Hn) as Hp. apply (open_heads_entity m n) in Hk.
    destruct (entity_step m n k) as [x k1]. cbn [snd] in *. destruct (IH k1 Hk Hall) as [Hr He]. destruct (know_log later k1) as [xs k2]. cbn [snd] in *.
    split; [unfold known_relation in Hr at 1; by rewrite Erel in Hr|]. by eapply same_trans.
  - pose proof (relation_step_entities m n k) as Eent. pose proof (relation_step_past m n k id lsn Hk Hn) as Hp. apply (open_heads_relation m n) in Hk.
    destruct (relation_step m n k) as [x k1]. cbn [snd] in *. destruct (IH k1 Hk Hall) as [Hr He]. destruct (know_log later k1) as [xs k2]. cbn [snd] in *.
    split; [by eapply same_trans|]. unfold known_entity in He at 1. by rewrite Eent in He.
Qed.

Lemma know_log_app log later k : (know_log (log ++ later) k).2 = (know_log later (know_log log k).2).2.
Proof.
  revert k. induction log as [|[n [m|m]] log IH]; intros k; [done|..]; cbn [app know_log].
  - destruct (entity_step m n k) as [x k']. specialize (IH k'). by destruct (know_log (log ++ later) k'), (know_log log k').
  - destruct (relation_step m n k) as [x k']. specialize (IH k'). by destruct (know_log (log ++ later) k'), (know_log log k').
Qed.

Lemma log_cost_app log later : log_cost (log ++ later) = (log_cost log + log_cost later)%N.
Proof. unfold log_cost. induction log as [|[n m] log IH]; [done|]. cbn. rewrite IH. lia. Qed.

Lemma log_ok_prefix log later last : log_ok last (log ++ later) = true → log_ok last log = true.
Proof. revert last. induction log as [|[n m] log IH]; intros last; [done|]. cbn [app log_ok]. rewrite !andb_true_iff. naive_solver. Qed.

(** ** Properties *)

Context (ge gr start_e start_r dim : N).
Definition run_log (log : list (N * KnowledgeMutation)) : option (list Outcome * RelationSegment B * EntitySegment) :=
  apply_log log (relation_segment_new gr start_r) (entity_segment_new ge start_e dim).

Lemma run_log_spec log : log_ok 0 log = true → (log_cost log < NULL_ROW_REF)%N →
  ∃ r es, run_log log = Some ((know_log log nothing).1, r, es) ∧ kn_inv (log_end 0 log) (know_log log nothing).2 r es.
Proof.
  intros Hok Hcost. destruct (kn_inv_new ge gr start_e start_r dim) as [Hinv Hsz].
  apply (apply_log_spec log 0 nothing); [done|done|]. rewrite Hsz. lia.
Qed.

(** C37: Entities and relations over time: after any log of entity and relation
    mutations whose positions do not decrease and whose total size fits the
    32-bit row references, every mutation has succeeded or failed, with its
    error, as the abstract history says, without a panic; a read of a relation
    at any position returns the version that was current there, with its
    bindings and provenance; and for every entity that has not been tombstoned
    the history is the list of its versions and a read at any position returns
    the version that was current there. (Reads of tombstoned entities, which the
    code no longer finds at any position, are not covered.) *)
Theorem knowledge_time_travel log : log_ok 0 log = true → (log_cost log < NULL_ROW_REF)%N → let k := (know_log log nothing).2 in
  ∃ r es, run_log log = Some ((know_log log nothing).1, r, es) ∧
    (∀ id lsn, resolve_relation_at id lsn r es = known_relation id lsn k) ∧
    ∀ id, ¬ tombstoned id k →
      (∀ lsn, resolve_version_at id lsn es = known_entity id lsn k) ∧
      entity_history id es = reverse (from_option snd [] (k_entities k !! id)).
Proof.
  intros Hok Hcost k. destruct (run_log_spec log Hok Hcost) as (r & es & Hrun & [He _ Hr]). exists r, es. split_and!; [done| |].
  - intros id lsn. by eapply resolve_relation_known.
  - intros id Ht. split; [intros lsn; by apply (resolve_version_known (log_end 0 log))|]. rewrite (entity_history_known (log_end 0 log) (k_entities k)) by done.
    destruct (k_entities k !! id) as [[[] vs]|] eqn:E; [done| |done]. destruct Ht. by exists vs.
Qed.

(** C40: The past is kept: mutations at later positions do not change what a
    read at an earlier one returns, but for the end of the version found there:
    a version that was open may have been closed, at a later position (an
    entity's is then also marked superseded). Entities that are tombstoned by
    then are not covered. *)
Theorem past_is_kept log later id lsn : log_ok 0 (log ++ later) = true → (log_cost (log ++ later) < NULL_ROW_REF)%N →
  Forall (λ '(n, _), lsn < n)%N later →
  ∃ x1 r1 es1 x2 r2 es2, run_log log = Some (x1, r1, es1) ∧ run_log (log ++ later) = Some (x2, r2, es2) ∧
    same_relation lsn (resolve_relation_at id lsn r1 es1) (resolve_relation_at id lsn r2 es2) ∧
    (¬ tombstoned id (know_log (log ++ later) nothing).2 →
     same_entity lsn (resolve_version_at id lsn es1) (resolve_version_at id lsn es2)).
Proof.
  intros Hok Hcost Hlater. assert (log_cost log ≤ log_cost (log ++ later))%N as Hle by (rewrite log_cost_app; lia).
  destruct (run_log_spec log (log_ok_prefix log later 0 Hok) ltac:(lia)) as (r1 & es1 & Hrun1 & [He1 _ Hr1]).
  destruct (run_log_spec (log ++ later) Hok Hcost) as (r2 & es2 & Hrun2 & [He2 _ Hr2]). eexists _, r1, es1, _, r2, es2. split_and!; [done|done|..].
  all: destruct (past_fixed later id lsn (know_log log nothing).2 (open_heads_log log nothing ltac:(done)) Hlater) as [Hrel Hent];
    rewrite <- know_log_app in Hrel, Hent.
  - by rewrite (resolve_relation_known _ _ _ _ _ _ Hr1), (resolve_relation_known _ _ _ _ _ _ Hr2).
  - intros Ht. assert (¬ tombstoned id (know_log log nothing).2) as Ht1 by (intros Hb; apply Ht; rewrite know_log_app; by apply tombstoned_log).
    by rewrite (resolve_version_known _ _ _ _ _ He1 Ht1), (resolve_version_known _ _ _ _ _ He2 Ht).
Qed.

(** C38: Relation queries are right: after such a log a query with a type, role
    constraints, epistemic states and a schema scope, at a position or at a
    snapshot no older than the log, returns exactly the relations whose version
    current there matches, each once and by increasing identifier, whether
    through the leapfrog join of the incidence postings or a scan; it returns
    nothing when it has a type and constrains a role to an entity that is not
    live. *)
Theorem relation_query_correct `{!SortUnstable} log q snap : log_ok 0 log = true → (log_cost log < NULL_ROW_REF)%N →
  (as_of_lsn q = None → log_end 0 log ≤ snap)%N → let k := (know_log log nothing).2 in
  ∃ x r es found, run_log log = Some (x, r, es) ∧ query_execute q snap r es = Some found ∧
    StronglySorted (λ v w, (rr_relation_id v < rr_relation_id w)%N) found ∧
    ∀ v, v ∈ found ↔ known_relation (rr_relation_id v) (default snap (as_of_lsn q)) k = Some v ∧ matches q k v ∧ constrained_known q k.
Proof.
  intros Hok Hcost Hsnap k. destruct (run_log_spec log Hok Hcost) as (r & es & Hrun & Hinv).
  destruct (query_spec _ k q r es snap Hinv Hsnap) as (found & Hq & Hs & Hf). by exists (know_log log nothing).1, r, es, found.
Qed.
End refine.

(** ** Patterns *)

Section pattern.
Implicit Types (sem : HyperPatternSemantics).

Lemma remove_first_spec {A} (f : A → bool) l :
  match remove_first f l with Some (x, l') => f x = true ∧ l ≡ₚ x :: l' | None => ∀ x, x ∈ l → f x = false end.
Proof.
  induction l as [|y l IH]; cbn [remove_first]; [by intros ? ?%elem_of_nil|]. destruct (f y) eqn:E; [by split|].
  destruct (remove_first f l) as [[x l']|]; cbn [mbind option_bind].
  - destruct IH as [Hf ->]. split; [done|]. apply Permutation_swap.
  - intros x [->|Hx]%elem_of_cons; [done|by apply IH].
Qed.

(** The bindings can be dealt out to the members. *)
Definition assignable sem (ms : list HyperPatternMember) (bs : list DurableRoleBinding) : Prop :=
  ∃ cs, cs ≡ₚ bs ∧ Forall2 (λ m c, member_fits sem m c = true) ms cs.
(** Members with an entity come first. *)
Definition entity_first (m m' : HyperPatternMember) : Prop := is_Some (m_entity_id m) ∨ m_entity_id m' = None.

(** Two bindings that fit a member fit the same members after it. *)
Lemma fits_exchange sem m m' b c : entity_first m m' → member_fits sem m b = true → member_fits sem m c = true →
  member_fits sem m' b = true → member_fits sem m' c = true.
Proof.
  intros Hfirst Hb Hc Hb'. unfold member_fits, entity_first in *. apply andb_true_iff in Hb as [Hb1 Hb2], Hc as [Hc1 Hc2], Hb' as [Hb1' Hb2']. apply andb_true_iff. split.
  - destruct (m_entity_id m') as [id'|]; [|done]. destruct Hfirst as [[id E]|?]; [|done]. rewrite E in Hb1, Hc1.
    apply N.eqb_eq in Hb1, Hc1, Hb1'. apply N.eqb_eq. congruence.
  - destruct sem; [done|]. apply bool_decide_eq_true in Hb2, Hc2, Hb2'. apply bool_decide_eq_true. congruence.
Qed.

Lemma assignable_step sem m ms b bs : Forall (entity_first m) ms → member_fits sem m b = true →
  assignable sem (m :: ms) (b :: bs) → assignable sem ms bs.
Proof.
  intros Hfirst Hb (cs & Hp & Hf). apply Forall2_cons_inv_l in Hf as (c & cs' & Hc & Hf & ->).
  destruct (decide (b = c)) as [->|Hne]; [apply Permutation_cons_inv in Hp; by exists cs'|].
  assert (b ∈ cs') as Hin. { assert (b ∈ c :: cs') as [?|?]%elem_of_cons by (rewrite Hp; by left); [congruence|done]. }
  apply list_elem_of_split in Hin as (l1 & l2 & ->). apply Forall2_app_inv_r in Hf as (ms1 & ms2 & Hf1 & Hf2 & ->).
  apply Forall2_cons_inv_r in Hf2 as (m' & ms3 & Hm' & Hf2 & ->). exists (l1 ++ c :: l2). split.
  - apply (Permutation_cons_inv (a := b)). rewrite <- Hp. rewrite <- !Permutation_middle. apply Permutation_swap.
  - apply Forall2_app; [done|]. constructor; [|done]. apply (fits_exchange sem m m' b c); try done.
    rewrite Forall_forall in Hfirst. apply Hfirst, elem_of_app. right. by left.
Qed.

Lemma assign_spec sem ms : ∀ bs, StronglySorted entity_first ms.*2 → length bs = length ms →
  match assign_members sem ms bs with
  | Some found => found.*1 = ms ∧ found.*2 ≡ₚ bs ∧ Forall (λ x, member_fits sem x.1.2 x.2 = true) found
  | None => ¬ assignable sem ms.*2 bs
  end.
Proof.
  induction ms as [|[i m] ms IH]; intros bs Hs Hlen; cbn [assign_members].
  { destruct bs; [|done]. by split_and!. }
  csimpl. cbn in Hs. apply StronglySorted_inv in Hs as [Hs Hfirst]. pose proof (remove_first_spec (member_fits sem m) bs) as Hr.
  destruct (remove_first (member_fits sem m) bs) as [[b bs']|]; cbn [mbind option_bind].
  2:{ intros (cs & Hp & Hf). apply Forall2_cons_inv_l in Hf as (c & cs' & Hc & _ & ->).
      rewrite (Hr c) in Hc; [done|]. rewrite <- Hp. by left. }
  destruct Hr as [Hb Hp]. assert (length bs' = length ms) as Hlen' by (apply Permutation_length in Hp; cbn in *; lia).
  specialize (IH bs' Hs Hlen'). destruct (assign_members sem ms bs') as [found|]; cbn [mbind option_bind].
  - destruct IH as (E & Hperm & Hf). csimpl. rewrite E, Hperm. split_and!; [done|done|by constructor].
  - intros Ha. apply IH. apply (assignable_step sem m ms.*2 b bs'); [done|done|]. destruct Ha as (cs & Hp' & Hf).
    exists cs. split; [by rewrite Hp'|done].
Qed.

Abbreviation indexed ms := (zip (N.of_nat <$> seq 0 (length ms)) ms).

Lemma indexed_sorted (ms : list HyperPatternMember) : ∀ n, StronglySorted (λ x y, (x.1 < y.1)%N) (zip (N.of_nat <$> seq n (length ms)) ms) ∧
  (zip (N.of_nat <$> seq n (length ms)) ms).*2 = ms ∧ ∀ x, x ∈ zip (N.of_nat <$> seq n (length ms)) ms → (N.of_nat n ≤ x.1)%N.
Proof.
  induction ms as [|m ms IH]; intros n; cbn; [split_and!; [constructor|done|by intros ? ?%elem_of_nil]|].
  destruct (IH (S n)) as (Hs & E & Hn). split_and!.
  - constructor; [done|]. apply Forall_forall. intros x Hx. specialize (Hn x Hx). cbn. lia.
  - f_equal. exact E.
  - intros x [->|Hx]%elem_of_cons; [done|]. specialize (Hn x Hx). lia.
Qed.

Lemma member_order_perm ms : member_order ms ≡ₚ indexed ms.
Proof.
  unfold member_order. generalize (indexed ms). intros l. induction l as [|x l IH]; [done|]. rewrite !filter_cons.
  destruct (decide (is_Some (m_entity_id x.2))) as [H|H].
  - rewrite decide_False by (by intros ?). cbn. by rewrite IH.
  - rewrite decide_True by done. by rewrite <- Permutation_middle, IH.
Qed.

Lemma member_order_first ms : StronglySorted entity_first (member_order ms).*2.
Proof.
  unfold member_order. generalize (indexed ms). intros l. rewrite fmap_app. apply StronglySorted_app. split_and!.
  - intros m m' Hm _. apply list_elem_of_fmap in Hm as (x & -> & [Hx _]%list_elem_of_filter). by left.
  - assert (Forall (λ x, is_Some (m_entity_id x.2)) (filter (λ im : N * HyperPatternMember, is_Some (m_entity_id im.2)) l)) as Hf.
    { apply Forall_forall. by intros x [? _]%list_elem_of_filter. }
    induction Hf as [|x xs Hx _ IH]; cbn; [constructor|]. constructor; [done|]. apply Forall_forall. intros. by left.
  - assert (Forall (λ x, m_entity_id x.2 = None) (filter (λ im : N * HyperPatternMember, ¬ is_Some (m_entity_id im.2)) l)) as Hf.
    { apply Forall_forall. intros x [Hx%eq_None_not_Some _]%list_elem_of_filter. done. }
    induction Hf as [|x xs Hx Hxs IH]; cbn; [constructor|]. constructor; [done|]. apply Forall_fmap. eapply Forall_impl; [done|]. intros y Hy. by right.
Qed.

Lemma assignable_perm sem ms ms' bs bs' : ms ≡ₚ ms' → bs ≡ₚ bs' → assignable sem ms bs → assignable sem ms' bs'.
Proof.
  intros Hm Hb (cs & Hp & Hf). assert (∃ cs', cs' ≡ₚ cs ∧ Forall2 (λ m c, member_fits sem m c = true) ms' cs') as (cs' & Hp' & Hf').
  { clear Hp Hb bs bs'. revert cs Hf. induction Hm as [|m ms ms' _ IH|m1 m2 ms|ms1 ms2 ms3 _ IH1 _ IH2]; intros cs Hf.
    - by exists cs.
    - apply Forall2_cons_inv_l in Hf as (c & cs' & Hc & Hf & ->). destruct (IH cs' Hf) as (cs2 & Hp & Hf2). exists (c :: cs2). split; [by rewrite Hp|by constructor].
    - apply Forall2_cons_inv_l in Hf as (c1 & cs1 & Hc1 & Hf & ->). apply Forall2_cons_inv_l in Hf as (c2 & cs2 & Hc2 & Hf & ->).
      exists (c2 :: c1 :: cs2). split; [apply Permutation_swap|]. by repeat constructor.
    - destruct (IH1 cs Hf) as (cs1 & Hp1 & Hf1). destruct (IH2 cs1 Hf1) as (cs2 & Hp2 & Hf2). exists cs2. split; [by rewrite Hp2|done]. }
  exists cs'. split; [by rewrite Hp', Hp|done].
Qed.

Context `{!SortUnstable}.

(** What a pattern asks of a relation besides the assignment of its bindings *)
Definition admissible (p : HyperPattern) (v : ResolvedRelationVersion) : Prop :=
  (∀ t, hp_type_id p = Some t → rr_type_id v = t) ∧ (∀ allowed, hp_epistemic_in p = Some allowed → rr_epistemic v ∈ allowed).
(** The bindings of a match, in the order of the members *)
Definition match_ok (p : HyperPattern) (x : HyperPatternMatch) : Prop :=
  (hm_bindings x).*1 = alias <$> members p ∧ (hm_bindings x).*2 ≡ₚ rr_bindings (hm_relation x) ∧
  Forall2 (λ m b, member_fits (semantics p) m b = true) (members p) (hm_bindings x).*2.

Lemma assigned_in_order sem ms found : found.*1 = member_order ms → Forall (λ x, member_fits sem x.1.2 x.2 = true) found →
  let sorted := sort_by_key (λ x, x.1.1) found in
  sorted ≡ₚ found ∧ sorted.*1.*2 = ms ∧ Forall2 (λ m b, member_fits sem m b = true) ms sorted.*2.
Proof.
  intros E Hf sorted. pose proof (sort_by_key_perm (λ x : N * HyperPatternMember * DurableRoleBinding, x.1.1) found) as Hp. fold sorted in Hp.
  destruct (indexed_sorted ms 0) as (Hs & Ems & _).
  assert (NoDup (indexed ms).*1) as Hn.
  { clear -Hs. revert Hs. generalize (indexed ms). intros l Hs. induction Hs as [|x xs _ IH Hx]; [constructor|]. cbn. constructor; [|done]. intros (y & Ey & Hy)%list_elem_of_fmap.
    rewrite Forall_forall in Hx. specialize (Hx y Hy). lia. }
  assert (sorted.*1 ≡ₚ indexed ms) as Hperm by (by rewrite Hp, E, member_order_perm).
  assert (sorted.*1 = indexed ms) as Eidx.
  { refine (StronglySorted_unique (λ x y : N * HyperPatternMember, (x.1 < y.1)%N) _ _ _ Hs Hperm).
    - intros x y ? ?. lia.
    - assert (StronglySorted (λ x y : N * HyperPatternMember * DurableRoleBinding, (x.1.1 < y.1.1)%N) sorted) as Hss.
      { apply (sorted_strict (λ x : N * HyperPatternMember * DurableRoleBinding, x.1.1)); [apply sort_by_key_sorted|].
        assert ((λ x : N * HyperPatternMember * DurableRoleBinding, x.1.1) <$> sorted = sorted.*1.*1) as -> by (apply (list_fmap_compose fst fst)).
        by rewrite Hperm. }
      clear -Hss. induction Hss as [|x l _ IH Hx]; cbn; [constructor|]. constructor; [done|]. by apply Forall_fmap. }
  split_and!; [done|by rewrite Eidx|]. assert (sorted.*1.*2 = ms) as <- by (by rewrite Eidx).
  assert (Forall (λ x : N * HyperPatternMember * DurableRoleBinding, member_fits sem x.1.2 x.2 = true) sorted) as Hf' by (by rewrite Hp).
  clear -Hf'. induction Hf'; cbn; by constructor.
Qed.

Lemma match_resolved_spec p v :
  match match_resolved p v with
  | Ok (Some x) => hm_relation x = v ∧ match_ok p x ∧ admissible p v
  | Ok None => ¬ (admissible p v ∧ assignable (semantics p) (members p) (rr_bindings v))
  | Err e => pattern_validate p = Err e
  end.
Proof.
  unfold match_resolved, admissible. destruct (pattern_validate p) as [[]|e]; [|done].
  destruct (match hp_type_id p with Some t => negb (t =? rr_type_id v)%N | None => false end) eqn:Et; cbn [orb].
  { intros [[Ht _] _]. destruct (hp_type_id p) as [t|]; [|done]. by rewrite (Ht t eq_refl), N.eqb_refl in Et. }
  destruct (Nat.eqb_spec (length (rr_bindings v)) (length (members p))) as [Hlen|Hlen]; cbn [negb].
  2:{ intros [_ (cs & Hp & Hf)]. apply Hlen. rewrite <- (Permutation_length Hp). symmetry. by eapply Forall2_length. }
  destruct (match hp_epistemic_in p with Some allowed => negb (bool_decide (rr_epistemic v ∈ allowed)) | None => false end) eqn:Ee.
  { intros [[_ He] _]. destruct (hp_epistemic_in p) as [allowed|]; [|done]. by rewrite bool_decide_eq_true_2 in Ee by (by apply He). }
  assert (length (member_order (members p)) = length (members p)) as Hlo.
  { rewrite (Permutation_length (member_order_perm _)), length_zip_with, length_fmap, length_seq. lia. }
  pose proof (assign_spec (semantics p) (member_order (members p)) (sort_by (binding_cmp (semantics p)) (rr_bindings v))
    (member_order_first _) ltac:(rewrite (Permutation_length (sort_by_perm _ _)); lia)) as Ha.
  destruct (assign_members _ _ _) as [found|].
  - destruct Ha as (E & Hperm & Hf). destruct (assigned_in_order _ _ _ E Hf) as (Hp & Ems & Hfit). cbn [hm_relation]. split; [done|]. split.
    + unfold match_ok. cbn [hm_bindings hm_relation]. rewrite <- !list_fmap_compose. split_and!.
      * rewrite <- Ems. by rewrite <- !list_fmap_compose.
      * change (snd ∘ _) with (@snd (N * HyperPatternMember) DurableRoleBinding). rewrite Hp, Hperm. apply sort_by_perm.
      * exact Hfit.
    + split; [intros t Eq; rewrite Eq in Et; apply negb_false_iff, N.eqb_eq in Et; done|].
      intros allowed Eq. rewrite Eq in Ee. by apply negb_false_iff, bool_decide_eq_true in Ee.
  - intros [_ Has]. apply Ha. revert Has. apply assignable_perm; [|by rewrite sort_by_perm].
    rewrite member_order_perm. by destruct (indexed_sorted (members p) 0) as (_ & -> & _).
Qed.

Lemma match_all_spec p vs : pattern_validate p = Ok tt → StronglySorted (λ v w, (rr_relation_id v < rr_relation_id w)%N) vs →
  ∃ found, match_all p vs = Ok found ∧ Forall (match_ok p) found ∧
    StronglySorted (λ v w, (rr_relation_id v < rr_relation_id w)%N) (hm_relation <$> found) ∧
    ∀ v, v ∈ hm_relation <$> found ↔ v ∈ vs ∧ admissible p v ∧ assignable (semantics p) (members p) (rr_bindings v).
Proof.
  intros Hval. induction 1 as [|v vs Hs IH Hv]; cbn [match_all].
  { exists []. split_and!; [done|constructor|constructor|]. intros v. split; [by intros ?%elem_of_nil|]. by intros [?%elem_of_nil _]. }
  destruct IH as (found & -> & Hok & Hsf & Hf). pose proof (match_resolved_spec p v) as Hm. destruct (match_resolved p v) as [[x|]|e]; [| |congruence].
  - destruct Hm as (Ev & Hx & Ha). exists (x :: found). split_and!; [done|by constructor| |].
    + csimpl. constructor; [done|]. rewrite Forall_forall in Hv |- *. intros w Hw%Hf. rewrite Ev. apply Hv, (proj1 Hw).
    + intros w. csimpl. rewrite !elem_of_cons, Hf, Ev. split; [|naive_solver]. intros [->|?]; [|naive_solver]. split_and!; [by left|done|].
      destruct Hx as (_ & Hp & Hfit). exists (hm_bindings x).*2. by rewrite <- Ev.
  - exists found. split_and!; try done. intros w. rewrite Hf, elem_of_cons. naive_solver.
Qed.
End pattern.

Section pattern_query.
Context {B : Type} `{!Roaring B, !RoaringSets B, !RoaringLaws B, !RoaringSetsLaws B} `{!HashOrder} `{!SortUnstable} (debug : bool).
Context (ge gr start_e start_r dim : N).

(** C39: N-ary patterns are right: after such a log a valid pattern returns
    exactly the relations that match its type, scope and epistemic states and
    whose bindings can be dealt out to its members in some way, each once, by
    increasing identifier, with an assignment that gives every member a fitting
    binding and uses every binding once: the greedy assignment is complete. *)
Theorem pattern_query_correct log p snap : log_ok 0 log = true → (log_cost log < NULL_ROW_REF)%N → pattern_validate p = Ok tt →
  (hp_as_of_lsn p = None → log_end 0 log ≤ snap)%N → let k := (know_log log nothing).2 in
  let q := mkRelationQuery (hp_type_id p) [] (hp_epistemic_in p) (hp_scope p) (hp_as_of_lsn p) in
  ∃ x r es found, run_log (B := B) debug ge gr start_e start_r dim log = Some (x, r, es) ∧ pattern_execute p snap r es = Some (Ok found) ∧
    Forall (match_ok p) found ∧ StronglySorted (λ v w, (rr_relation_id v < rr_relation_id w)%N) (hm_relation <$> found) ∧
    ∀ v, v ∈ hm_relation <$> found ↔ known_relation (rr_relation_id v) (default snap (hp_as_of_lsn p)) k = Some v ∧ matches q k v ∧
      assignable (semantics p) (members p) (rr_bindings v).
Proof.
  intros Hok Hcost Hval Hsnap k q. destruct (run_log_spec debug ge gr start_e start_r dim log Hok Hcost) as (r & es & Hrun & Hinv).
  destruct (query_spec debug _ k q r es snap Hinv Hsnap) as (vs & Hq & Hs & Hvs). destruct (match_all_spec p vs Hval Hs) as (found & Hm & Hall & Hsf & Hf).
  exists (know_log log nothing).1, r, es, found. split_and!; try done; [unfold pattern_execute; rewrite Hval; fold q; rewrite Hq; cbn; by rewrite Hm|].
  intros v. rewrite Hf, Hvs. unfold matches, admissible, constrained_known. cbn. split; [naive_solver|]. intros (? & (? & ? & ? & ? & _) & ?).
  split_and!; try done; intros; exfalso; by eapply not_elem_of_nil.
Qed.
End pattern_query.
