(* ===== verification/KnowledgeSamples.v ===== *)
(** A small log of entities and relations: the theorems of RelationFacts.v applied to
    it, and runs that show surprises. *)

From Stdlib Require Import ZArith SpecFloat.
From stdpp Require Import base gmap sets strings numbers list sorting fin_maps.
From S2P Require Import Prelude.
From S2P Require Import Floats.
From S2P Require Import Hypercube.
From S2P Require Import MetadataIndex.
From S2P Require Import EngineSamples.
From S2P Require Import Order.
From S2P Require Import Incidence.
From S2P Require Import Entity.
From S2P Require Import Relation.
From S2P Require Import EntityFacts.
From S2P Require Import RelationFacts.

#[local] Existing Instance canonical_order.
#[local] Existing Instance stable_sort.

Definition paper : ProvenanceRecord := mkProvenance "doi:1" "ann" "manual" 1 1000 (f32_of_N 1) [EvEntity 10] [].
Definition scan : ProvenanceRecord := mkProvenance "file:2" "bot" "ocr" 5 2000 (S754_zero false) [] [].
(** A directed relation from role 1 to role 2 *)
Definition cites : RelationType :=
  mkRelationType 7 "cites" 3 Proposed [mkRole 1 "from" 1 1 true; mkRole 2 "to" 1 2 true]
    (Some (mkProjectionSpec 1 2 Directed)) 1 77.

Definition sample_log : list (N * KnowledgeMutation) :=
  [(1%N, OnEntities (ECreate 10 header_default 1 1 (Some paper) Asserted));
   (2%N, OnEntities (ECreate 11 header_default 2 1 None Observed));
   (2%N, OnEntities (ECreate 12 header_default 3 9 None Provisional));
   (3%N, OnRelations (RProposeType cites));
   (4%N, OnRelations (RAdmitType 7 Proposed));
   (5%N, OnRelations (RCreate 100 7 [mkBinding 10 1; mkBinding 11 2; mkBinding 12 2] 1 (Some scan) Asserted));
   (5%N, OnRelations (RCreate 90 7 [mkBinding 12 1; mkBinding 11 2] 1 None Inferred));
   (6%N, OnRelations (RCreate 91 7 [mkBinding 12 1; mkBinding 13 2] 1 None Inferred))].
Definition later_log : list (N * KnowledgeMutation) :=
  [(8%N, OnEntities (ECreateVersion 10 4 1 None Asserted LActive Refines 3 4));
   (9%N, OnRelations (RTransition 100 5 Asserted Contradicted [EvAttempt 4] 1 (Some scan)));
   (9%N, OnRelations (RTransition 90 6 Asserted Contradicted [] 1 None));
   (10%N, OnRelations (RTombstone 90));
   (11%N, OnEntities (ETombstone 12 7 1 None))].

Abbreviation sample_run debug := (run_log (B := gset N) debug 1 1 1 1 2).

Lemma knowledge_time_travel_witness : log_ok 0 (sample_log ++ later_log) = true ∧ (log_cost (sample_log ++ later_log) < NULL_ROW_REF)%N ∧
  let k := (know_log (sample_log ++ later_log) nothing).2 in
  (∃ r es, sample_run true (sample_log ++ later_log) = Some ((know_log (sample_log ++ later_log) nothing).1, r, es) ∧
    (∀ id lsn, resolve_relation_at id lsn r es = known_relation id lsn k) ∧
    ∀ id, ¬ tombstoned id k →
      (∀ lsn, resolve_version_at id lsn es = known_entity id lsn k) ∧
      entity_history id es = reverse (from_option snd [] (k_entities k !! id))) ∧
  ¬ tombstoned 10 k ∧ re_version_id <$> known_entity 10 7 k = Some 1%N ∧ re_version_id <$> known_entity 10 8 k = Some 4%N.
Proof.
  split; [vm_compute; reflexivity|]. split; [vm_compute; reflexivity|]. split.
  - apply (knowledge_time_travel true 1 1 1 1 2 (sample_log ++ later_log)); vm_compute; reflexivity.
  - split; [|split; vm_compute; reflexivity]. intros [vs Hvs]. vm_compute in Hvs. discriminate.
Defined.

(** Entity 10 got its second version after 7. *)
Lemma past_is_kept_witness : ∃ x1 r1 es1 x2 r2 es2,
  sample_run true sample_log = Some (x1, r1, es1) ∧ sample_run true (sample_log ++ later_log) = Some (x2, r2, es2) ∧
  same_relation 7 (resolve_relation_at 10 7 r1 es1) (resolve_relation_at 10 7 r2 es2) ∧
  same_entity 7 (resolve_version_at 10 7 es1) (resolve_version_at 10 7 es2).
Proof.
  destruct (past_is_kept true 1 1 1 1 2 sample_log later_log 10 7) as (x1 & r1 & es1 & x2 & r2 & es2 & H1 & H2 & H3 & H4);
    [vm_compute; reflexivity..|repeat constructor|].
  exists x1, r1, es1, x2, r2, es2. split; [exact H1|]. split; [exact H2|]. split; [exact H3|]. apply H4.
  intros [vs Hvs]. vm_compute in Hvs. discriminate.
Defined.

Definition cited_by_11 : RelationQuery := mkRelationQuery (Some 7%N) [(2%N, 11%N)] None AdmittedOnly None.

Lemma relation_query_correct_witness : let k := (know_log sample_log nothing).2 in
  ∃ x r es found, sample_run true sample_log = Some (x, r, es) ∧ query_execute cited_by_11 6 r es = Some found ∧
    StronglySorted (λ v w, (rr_relation_id v < rr_relation_id w)%N) found ∧
    ∀ v, v ∈ found ↔ known_relation (rr_relation_id v) 6 k = Some v ∧ matches cited_by_11 k v ∧ constrained_known cited_by_11 k.
Proof.
  apply (relation_query_correct true 1 1 1 1 2 sample_log cited_by_11 6); [vm_compute; reflexivity..|]. intros _. vm_compute. discriminate.
Defined.

(** Who cites 11, with the role of the citing entity; and any three entities *)
Definition citing_pattern : HyperPattern :=
  mkPattern (Some 7%N) [mkMember "who" (Some 1%N) None; mkMember "what" (Some 2%N) (Some 11%N)] RoleAware None AdmittedOnly None.
Definition any_three : HyperPattern :=
  mkPattern None [mkMember "a" None None; mkMember "b" None (Some 11%N); mkMember "c" None None] Symmetric None Historical (Some 5%N).

Lemma pattern_query_correct_witness : pattern_validate any_three = Ok tt ∧ let k := (know_log sample_log nothing).2 in
  let q := mkRelationQuery None [] None Historical (Some 5%N) in
  ∃ x r es found, sample_run true sample_log = Some (x, r, es) ∧ pattern_execute any_three 6 r es = Some (Ok found) ∧
    Forall (match_ok any_three) found ∧ StronglySorted (λ v w, (rr_relation_id v < rr_relation_id w)%N) (hm_relation <$> found) ∧
    ∀ v, v ∈ hm_relation <$> found ↔ known_relation (rr_relation_id v) 5 k = Some v ∧ matches q k v ∧
      assignable Symmetric (members any_three) (rr_bindings v).
Proof.
  split; [vm_compute; reflexivity|]. apply (pattern_query_correct true 1 1 1 1 2 sample_log any_three 6); [vm_compute; reflexivity..|]. intros [=].
Defined.

Example pattern_matches :
  match sample_run true sample_log with
  | Some (_, r, es) =>
      (λ x, map hm_bindings (match x with Ok l => l | Err _ => [] end)) <$> pattern_execute citing_pattern 6 r es =
        Some [[("who", mkBinding 12 1); ("what", mkBinding 11 2)]] ∧
      (λ x, map hm_bindings (match x with Ok l => l | Err _ => [] end)) <$> pattern_execute any_three 6 r es =
        Some [[("a", mkBinding 10 1); ("b", mkBinding 11 2); ("c", mkBinding 12 2)]]
  | None => False
  end.
Proof. vm_compute. split; reflexivity. Qed.

(** What the mutations answer *)
Example sample_outcomes : (know_log (sample_log ++ later_log) nothing).1 =
  [inl (Ok tt); inl (Ok tt); inl (Ok tt); inr (Ok tt); inr (Ok tt); inr (Ok tt); inr (Ok tt); inr (Err (BindingEntityNotFound 13));
   inl (Ok tt); inr (Ok tt); inr (Err (EpistemicMismatch Asserted Inferred)); inr (Ok tt); inl (Ok tt)].
Proof. vm_compute. reflexivity. Qed.

(** The past of a tombstoned entity is gone: the entity is deleted from the arena
    before its tombstone becomes the head. *)
Example tombstone_hides_the_past :
  match sample_run true (take 3 sample_log), sample_run true (sample_log ++ later_log) with
  | Some (_, _, before), Some (_, _, after) =>
      re_epistemic_status <$> resolve_version_at 12 3 before = Some Provisional ∧ resolve_version_at 12 3 after = None ∧
      entity_history 12 after = [] ∧ length (filter (λ r, vr_entity_id r = 12%N) (vt_rows (es_versions after))) = 2%nat
  | _, _ => False
  end.
Proof. vm_compute. repeat (split; [reflexivity|]). reflexivity. Qed.

(** A release build leaves a tombstoned relation in the bitmap. *)
Example release_keeps_tombstones :
  match sample_run true (sample_log ++ later_log), sample_run false (sample_log ++ later_log) with
  | Some (_, r, _), Some (_, r', _) => relation_live_ids (rsg_arena r) = [100%N] ∧ 90%N ∈ relation_live_ids (rsg_arena r')
  | _, _ => False
  end.
Proof. vm_compute. split; [reflexivity|]. repeat constructor. Qed.

(** Nothing asks that a type was admitted. *)
Example proposed_type_is_used :
  match sample_run true (take 4 sample_log ++ [(5%N, OnRelations (RCreate 1 7 [mkBinding 10 1; mkBinding 11 2] 1 None Asserted))]) with
  | Some (xs, r, es) => last xs = Some (inr (Ok tt)) ∧
      length <$> query_execute (mkRelationQuery None [] None IncludeProposed None) 5 r es = Some 1%nat ∧
      length <$> query_execute (mkRelationQuery None [] None AdmittedOnly None) 5 r es = Some 0%nat
  | None => False
  end.
Proof. vm_compute. repeat (split; [reflexivity|]). reflexivity. Qed.

(** A typed query of the past finds nothing once a constrained entity is tombstoned; the
    same query without the type does. *)
Example typed_query_forgets :
  match sample_run true (sample_log ++ later_log) with
  | Some (_, r, es) =>
      query_execute (mkRelationQuery (Some 7%N) [(2%N, 12%N)] None AdmittedOnly (Some 6%N)) 11 r es = Some [] ∧
      map rr_relation_id <$> query_execute (mkRelationQuery None [(2%N, 12%N)] None AdmittedOnly (Some 6%N)) 11 r es = Some [100%N]
  | None => False
  end.
Proof. vm_compute. split; reflexivity. Qed.

(** Compaction gives vectors new rows but leaves the old ones in the versions, and the
    compacted arena gives identifiers out again from 1. *)
Definition one_vector : EntitySegment :=
  let s := entity_segment_new 1 1 1 in
  let vs := (vector_append [8%N] (vector_append [7%N] (es_vectors s)).2).2 in
  (entity_apply (ECreate 1 (header_default <| vector_row := 1%N |>) 1 1 None Asserted) 1
     (mkEntitySegment 1 (es_arena s) (es_provenance s) (es_versions s) vs)).2.
Example compaction_leaves_vector_rows :
  let s := entity_compact 2 one_vector in
  vector_row <$> entity_get 0 (es_arena s) = Some 0%N ∧ re_vector_row <$> resolve_version_at 1 1 s = Some 1%N ∧
  vector_get_row 0 (es_vectors s) = Some [8%N] ∧ vector_get_row 1 (es_vectors s) = None ∧
  (entity_alloc header_default (es_arena s)).1.1 = 1%N ∧ is_Some (entity_get_by_id 1 (es_arena s)).
Proof. vm_compute. repeat (split; [reflexivity|]). by eexists. Qed.

(** Projections *)
Example projected_edges :
  match sample_run true sample_log with
  | Some (_, r, es) =>
      (λ v, map (λ e, (pe_source e, pe_target e)) (project_resolved_relation v (mkProjectionSpec 1 2 Undirected))) <$>
        resolve_relation_at 100 6 r es = Some [(10, 11); (11, 10); (10, 12); (12, 10)]%N
  | None => False
  end.
Proof. vm_compute. reflexivity. Qed.
