(* ===== verification/Security.v ===== *)
(** Security (src/security): the tamper-evident audit log (audit.rs, siem.rs), API
    keys and roles (auth.rs), tenants, their quotas and namespaces (tenant.rs),
    certificate rotation (cert_manager.rs) and envelope keys (kms.rs).

    SHA-256, AES-256-GCM, CRC-32 and serde_json are third-party crates: parameters
    here.  A clock reading, a random value and the number of bytes a write leaves on
    disk are arguments.  A call holds its locks to the end and is one step; the
    counters of a quota are modelled without the race between check and update.
    Values interpolated in messages are left out of errors. *)

From Stdlib Require Import Strings.Byte Ascii ZArith.
From stdpp Require Import base gmap sets strings numbers list fin_maps.
From S2P Require Import Prelude.
From S2P Require Import Codec.
From S2P Require Import Topology.

(** ** Text *)

Definition hex_digit (n : N) : ascii := ascii_of_N (if (n <? 10)%N then 48 + n else 87 + n)%N.
(** [format!("{b:02x}")] over the bytes of a digest *)
Fixpoint hex (bs : list byte) : string :=
  match bs with
  | [] => ""
  | b :: bs => String (hex_digit (Byte.to_N b / 16)) (String (hex_digit (Byte.to_N b mod 16)) (hex bs))
  end.
Abbreviation bytes_of := String.list_byte_of_string.

(** [prefix.len()] characters off the front, if they are [prefix] *)
Fixpoint strip_prefix (prefix s : string) : option string :=
  match prefix, s with
  | "", _ => Some s
  | String a prefix, String b s => if Ascii.eqb a b then strip_prefix prefix s else None
  | String _ _, "" => None
  end.

(** [str::lines]: split at line feeds, drop a carriage return before one *)
Definition line_feed : ascii := ascii_of_N 10.
Definition carriage_return : ascii := ascii_of_N 13.
Definition strip_cr (l : list ascii) : list ascii :=
  match last l with Some c => if Ascii.eqb c carriage_return then take (length l - 1) l else l | None => l end.
Fixpoint split_lines (acc l : list ascii) : list (list ascii) :=
  match l with
  | [] => match acc with [] => [] | _ => [reverse acc] end
  | c :: l => if Ascii.eqb c line_feed then strip_cr (reverse acc) :: split_lines [] l else split_lines (c :: acc) l
  end.
Definition lines (s : string) : list string :=
  String.string_of_list_ascii <$> split_lines [] (String.list_ascii_of_string s).

(** ** The audit log (audit.rs) *)

Inductive AuditAction :=
  | ClusterMembershipChange (new_membership : list N)
  | CertificateRotation (cert_id : string)
  | BackupRestoreTriggered (backup_id : string) (target_lsn : N)
  | TenantDeletion (tenant_id : string)
  | ApiKeyRevocation (key_id : string).

Record AuditRecord := mkAudit {
  sequence_num : N;
  timestamp_epoch_ms : N;
  actor_id : string;
  action : AuditAction;
  prev_hash_hex : string;
  record_hash_hex : string
}.

(** The file is its content. *)
Record AuditLogger := mkLogger {
  audit_records : list AuditRecord;
  last_hash_hex : string;
  log_file : option string
}.

(** serde_json on a record: a line of text *)
Class AuditJson := {
  json_of_record : AuditRecord → option string;
  record_of_json : string → option AuditRecord
}.

Fixpoint repeat_zero (n : nat) : string := match n with O => "" | S n => String "0" (repeat_zero n) end.
Definition genesis : string := repeat_zero 64.

Definition logger_new : AuditLogger := mkLogger [] genesis None.

Section audit.
Context `{!Sha256, !AuditJson}.

(** What is hashed: sequence number, time, actor and the previous hash. *)
Definition audit_input (seq now : N) (actor prev : string) : list byte :=
  le_bytes 8 seq ++ le_bytes 8 now ++ bytes_of actor ++ bytes_of prev.
Definition audit_hash (seq now : N) (actor prev : string) : string := hex (sha256 (audit_input seq now actor prev)).

Definition string_take (k : nat) (s : string) : string :=
  String.string_of_list_ascii (take k (String.list_ascii_of_string s)).

(** The write to disk: [kept] bytes of the line arrive, none if the file does not
    open; the outcome is not looked at. *)
Definition persist (kept : nat) (r : AuditRecord) (file : string) : string :=
  match json_of_record r with
  | Some json => (file +:+ string_take kept (json +:+ String line_feed ""))%string
  | None => file
  end.

(** [append] and [log] *)
Definition audit_append (now : N) (kept : nat) (actor : string) (a : AuditAction) (l : AuditLogger) :
    HNSQRResult AuditRecord * AuditLogger :=
  let seq := (lenN (audit_records l) + 1)%N in
  let prev := last_hash_hex l in
  let h := audit_hash seq now actor prev in
  let r := mkAudit seq now actor a prev h in
  (Ok r, mkLogger (audit_records l ++ [r]) h (persist kept r <$> log_file l)).

Definition latest_checkpoint_hash (l : AuditLogger) : string := last_hash_hex l.

(** Lines that do not parse are skipped; a file that cannot be read as text counts
    as empty. *)
Definition audit_open (readable : bool) (file : option string) : AuditLogger :=
  let records := if readable then omap record_of_json (lines (default "" file)) else [] in
  mkLogger records (default genesis (record_hash_hex <$> last records)) (Some (default "" file)).

Fixpoint verify_records (expected_prev : string) (rs : list AuditRecord) : bool :=
  match rs with
  | [] => true
  | r :: rs =>
      bool_decide (prev_hash_hex r = expected_prev) &&
      bool_decide (audit_hash (sequence_num r) (timestamp_epoch_ms r) (actor_id r) (prev_hash_hex r) = record_hash_hex r) &&
      verify_records (record_hash_hex r) rs
  end.
Definition verify_integrity (l : AuditLogger) : bool := verify_records genesis (audit_records l).

Definition verify_audit_chain (l : AuditLogger) (expected_last_hash : string) : HNSQRResult bool :=
  Ok (verify_integrity l &&
      (bool_decide (expected_last_hash = "") || bool_decide (latest_checkpoint_hash l = expected_last_hash))).
End audit.

(** ** API keys (auth.rs) *)

Inductive AccessRole := ReadOnly | ReadWrite | Admin.
Definition role_rank (r : AccessRole) : N := match r with ReadOnly => 1 | ReadWrite => 2 | Admin => 3 end.

Record AuthenticatedSubject := mkSubject { as_tenant_id : string; as_role : AccessRole; as_key_id : string }.
Record AuthCredential := mkCredential {
  cred_key_id : string;
  hashed_token : string;
  cred_tenant_id : string;
  cred_role : AccessRole;
  rate_limit_qps : N;
  cred_active : bool
}.
Abbreviation AuthRegistry := (gmap string AuthCredential).

Section auth.
Context `{!Sha256, !Crc32}.

Definition token_hash (raw_token : string) : string := hex (sha256 (bytes_of raw_token)).
(** [format!("key_{:08x}", crc)] *)
Definition key_id_of (raw_token : string) : string := ("key_" +:+ hex (reverse (le_bytes 4 (crc32 (bytes_of raw_token)))))%string.

Definition register_key (raw_token tenant : string) (role : AccessRole) (qps : N) (reg : AuthRegistry) :
    string * AuthRegistry :=
  let key_id := key_id_of raw_token in
  let h := token_hash raw_token in
  (key_id, <[h := mkCredential key_id h tenant role qps true]> reg).

Definition authenticate (raw_token : string) (required : AccessRole) (reg : AuthRegistry) :
    HNSQRResult AuthenticatedSubject :=
  match reg !! token_hash raw_token with
  | None => Err (Unauthorized "Invalid or missing API key")
  | Some cred =>
      if negb (cred_active cred) then Err (Unauthorized "API key has been revoked")
      else if (role_rank (cred_role cred) <? role_rank required)%N then Err (Unauthorized "Permission denied")
      else Ok (mkSubject (cred_tenant_id cred) (cred_role cred) (cred_key_id cred))
  end.
End auth.

(** ** Tenants (tenant.rs) *)

Record TenantQuota := mkTenantQuota { max_vectors : N; tq_max_memory_bytes : N; max_qps : N }.
Record TenantUsage := mkUsage { current_vectors : N; current_memory_bytes : N; queries_processed : N }.
Record TenantNamespace := mkNamespace { ns_tenant_id : string; ns_collection_id : string }.

Definition namespace_prefix (ns : TenantNamespace) : string :=
  (ns_tenant_id ns +:+ ":" +:+ ns_collection_id ns +:+ ":")%string.
Definition qualify_id (ns : TenantNamespace) (local_id : string) : string := (namespace_prefix ns +:+ local_id)%string.
Definition parse_qualified_id (ns : TenantNamespace) (qualified : string) : option string :=
  strip_prefix (namespace_prefix ns) qualified.

Abbreviation TenantManager := (gmap string (TenantQuota * TenantUsage)).
Definition register_tenant (tenant : string) (q : TenantQuota) (m : TenantManager) : TenantManager :=
  <[tenant := (q, mkUsage 0 0 0)]> m.
(** A tenant that was not registered is admitted without limit. *)
Definition tenant_admission (tenant : string) (vectors bytes : N) (m : TenantManager) : HNSQRResult unit * TenantManager :=
  match m !! tenant with
  | None => (Ok tt, m)
  | Some (q, u) =>
      if (max_vectors q <? u64_add (current_vectors u) vectors)%N then (Err (Internal "Tenant vector quota exceeded"), m)
      else if (tq_max_memory_bytes q <? u64_add (current_memory_bytes u) bytes)%N
      then (Err (Internal "Tenant memory quota exceeded"), m)
      else (Ok tt, <[tenant := (q, mkUsage (u64_add (current_vectors u) vectors)
                                    (u64_add (current_memory_bytes u) bytes) (queries_processed u))]> m)
  end.
Definition record_query (tenant : string) (m : TenantManager) : TenantManager :=
  alter (λ '(q, u), (q, mkUsage (current_vectors u) (current_memory_bytes u) (u64_add (queries_processed u) 1))) tenant m.

(** ** Certificates (cert_manager.rs) *)

Record ActiveCertificate := mkCertificate {
  cert_id : string; cert_pem : string; key_pem : string; issued_at_epoch_secs : N; expires_at_epoch_secs : N
}.
Record CertificateManager := mkCertManager {
  active_cert : ActiveCertificate;
  previous_cert : option ActiveCertificate;
  rotation_count : N
}.
Definition cert_manager_new (c : ActiveCertificate) : CertificateManager := mkCertManager c None 0.
Definition rotate_certificate (c : ActiveCertificate) (m : CertificateManager) : HNSQRResult unit * CertificateManager :=
  (Ok tt, mkCertManager c (Some (active_cert m)) (u64_add (rotation_count m) 1)).
Definition is_trusted_peer_cert (id : string) (m : CertificateManager) : bool :=
  bool_decide (cert_id (active_cert m) = id) ||
  match previous_cert m with Some c => bool_decide (cert_id c = id) | None => false end.

(** ** Envelope keys (kms.rs) *)

(** AES-256-GCM: key, nonce, message (or ciphertext) and associated data *)
Class AesGcm := {
  aes_encrypt : list byte → list byte → list byte → list byte → option (list byte);
  aes_decrypt : list byte → list byte → list byte → list byte → option (list byte)
}.
Class AesGcmLaws `{!AesGcm} : Prop := {
  aes_round_trip k n m a c : aes_encrypt k n m a = Some c → aes_decrypt k n c a = Some m;
  aes_length k n m a c : aes_encrypt k n m a = Some c → length c = (length m + 16)%nat
}.

Section kms.
Context `{!Sha256, !AesGcm}.

Definition derive_wrapping_key (master_seed : list byte) (key_id : string) : list byte :=
  sha256 (master_seed ++ bytes_of key_id).

(** The random key and nonce are arguments. *)
Definition generate_data_key (master_seed dek nonce : list byte) (key_id : string) :
    HNSQRResult (list byte * list byte) :=
  let wrapping_key := derive_wrapping_key master_seed key_id in
  if negb (length wrapping_key =? 32)%nat then Err (Internal "invalid local KMS wrapping key")
  else match aes_encrypt wrapping_key nonce dek (bytes_of key_id) with
       | None => Err (Internal "local KMS encryption failed")
       | Some ciphertext => Ok (dek, nonce ++ ciphertext)
       end.

Definition decrypt_data_key (master_seed : list byte) (key_id : string) (encrypted : list byte) :
    HNSQRResult (list byte) :=
  if (length encrypted <? 12 + 16)%nat then Err (Internal "Invalid encrypted DEK length")
  else
    let wrapping_key := derive_wrapping_key master_seed key_id in
    if negb (length wrapping_key =? 32)%nat then Err (Internal "invalid local KMS wrapping key")
    else match aes_decrypt wrapping_key (take 12 encrypted) (drop 12 encrypted) (bytes_of key_id) with
         | None => Err (Unauthorized "local KMS key unwrap authentication failed")
         | Some dek => Ok dek
         end.
End kms.

(** ** Facts on the audit log *)

Class Sha256Laws `{!Sha256} : Prop := sha256_length bs : length (sha256 bs) = 32%nat.
Class AuditJsonLaws `{!AuditJson} : Prop := {
  json_round_trip r s : json_of_record r = Some s → record_of_json s = Some r;
  json_one_line r s : json_of_record r = Some s → Forall (λ c, c ≠ line_feed ∧ c ≠ carriage_return) (String.list_ascii_of_string s)
}.

Lemma hex_digit_inj a b : (a < 16)%N → (b < 16)%N → hex_digit a = hex_digit b → a = b.
Proof.
  intros Ha Hb He. unfold hex_digit in He. apply (f_equal N_of_ascii) in He.
  destruct (a <? 10)%N eqn:Ea, (b <? 10)%N eqn:Eb; rewrite ?N.ltb_lt, ?N.ltb_ge in *;
    rewrite !N_ascii_embedding in He by lia; lia.
Qed.

Lemma hex_inj a b : hex a = hex b → a = b.
Proof.
  revert b. induction a as [|x a IH]; intros [|y b]; try done. cbn [hex]. intros [= H1 H2 H3].
  pose proof (Byte.to_N_bounded x). pose proof (Byte.to_N_bounded y).
  assert (∀ z, (z ≤ 255)%N → (z / 16 < 16)%N) as Hd by (intros z Hz; apply N.Div0.div_lt_upper_bound; lia).
  apply hex_digit_inj in H1; [|by apply Hd..]. apply hex_digit_inj in H2; [|by apply N.mod_lt..].
  f_equal; [|by apply IH]. pose proof (N.div_mod' (Byte.to_N x) 16). pose proof (N.div_mod' (Byte.to_N y) 16).
  assert (Byte.to_N x = Byte.to_N y) as E by lia. apply (f_equal Byte.of_N) in E. rewrite !Byte.of_to_N in E. by injection E.
Qed.

Lemma hex_length bs : String.length (hex bs) = (2 * length bs)%nat.
Proof. induction bs; cbn; lia. Qed.

Lemma bytes_of_inj a b : bytes_of a = bytes_of b → a = b.
Proof. intros E. by rewrite <- (String.string_of_list_byte_of_string a), E, String.string_of_list_byte_of_string. Qed.

Lemma length_bytes_of s : length (bytes_of s) = String.length s.
Proof.
  unfold String.list_byte_of_string. rewrite length_map. induction s; cbn; [done|]. by rewrite IHs.
Qed.

Lemma app_suffix_inj {A} (a b c d : list A) : length b = length d → a ++ b = c ++ d → a = c ∧ b = d.
Proof. intros Hl He. apply app_inj_2; done. Qed.

Section audit_facts.
Context `{!Sha256, !Sha256Laws, !AuditJson, !AuditJsonLaws}.
Implicit Types (r : AuditRecord) (rs : list AuditRecord) (l : AuditLogger).

(** The numbers of a record are 64-bit. *)
Definition record_u64 r : Prop := (sequence_num r < u64_modulus)%N ∧ (timestamp_epoch_ms r < u64_modulus)%N.
Definition record_input r : list byte := audit_input (sequence_num r) (timestamp_epoch_ms r) (actor_id r) (prev_hash_hex r).
(** A record but for its action *)
Definition stamp r : N * N * string * string * string :=
  (sequence_num r, timestamp_epoch_ms r, actor_id r, prev_hash_hex r, record_hash_hex r).

Lemma genesis_length : String.length genesis = 64%nat.
Proof. reflexivity. Qed.

Lemma audit_hash_length s n a p : String.length (audit_hash s n a p) = 64%nat.
Proof. unfold audit_hash. by rewrite hex_length, sha256_length. Qed.

Lemma audit_input_inj r1 r2 :
  record_u64 r1 → record_u64 r2 → String.length (prev_hash_hex r1) = String.length (prev_hash_hex r2) →
  record_input r1 = record_input r2 →
  sequence_num r1 = sequence_num r2 ∧ timestamp_epoch_ms r1 = timestamp_epoch_ms r2 ∧
  actor_id r1 = actor_id r2 ∧ prev_hash_hex r1 = prev_hash_hex r2.
Proof.
  intros [Hs1 Ht1] [Hs2 Ht2] Hl He. unfold record_input, audit_input in He.
  apply app_inj_1 in He as [Hs He]; [|by rewrite !length_le_bytes].
  apply app_inj_1 in He as [Ht He]; [|by rewrite !length_le_bytes].
  apply app_suffix_inj in He as [Ha Hp]; [|by rewrite !length_bytes_of].
  apply (f_equal le_num) in Hs, Ht. rewrite !(le_num_le_bytes_small 8) in Hs, Ht
    by (change (256 ^ N.of_nat 8)%N with u64_modulus; assumption).
  by apply bytes_of_inj in Ha, Hp.
Qed.

(** The hash a chain ends in *)
Definition chain_end rs : string := default genesis (record_hash_hex <$> last rs).

Lemma verify_snoc p rs r :
  verify_records p (rs ++ [r]) = true ↔
    verify_records p rs = true ∧ prev_hash_hex r = default p (record_hash_hex <$> last rs) ∧
    hex (sha256 (record_input r)) = record_hash_hex r.
Proof.
  revert p. induction rs as [|r0 rs IH]; intros p; cbn [app verify_records].
  - rewrite !andb_true_iff, !bool_decide_eq_true. cbn. tauto.
  - rewrite !andb_true_iff, !bool_decide_eq_true, IH, last_cons.
    destruct (last rs); cbn; tauto.
Qed.

Lemma chain_end_snoc rs r : chain_end (rs ++ [r]) = record_hash_hex r.
Proof. unfold chain_end. by rewrite last_snoc. Qed.

(** The records of two logs do not collide, and none hashes to the hash a chain
    starts with. *)
Definition no_collision rs : Prop :=
  (∀ r1 r2, r1 ∈ rs → r2 ∈ rs → sha256 (record_input r1) = sha256 (record_input r2) → record_input r1 = record_input r2) ∧
  (∀ r, r ∈ rs → hex (sha256 (record_input r)) ≠ genesis).

Definition no_collisionb rs : bool :=
  forallb (λ r1, forallb (λ r2, negb (bool_decide (sha256 (record_input r1) = sha256 (record_input r2))) ||
    bool_decide (record_input r1 = record_input r2)) rs && negb (bool_decide (hex (sha256 (record_input r1)) = genesis))) rs.

Lemma no_collisionb_spec rs : no_collisionb rs = true → no_collision rs.
Proof.
  unfold no_collisionb. rewrite forallb_forall. intros Hall. split.
  - intros r1 r2 Hr1 Hr2 He. apply list_elem_of_In, Hall in Hr1. apply andb_true_iff in Hr1 as [Hr1 _].
    rewrite forallb_forall in Hr1. apply list_elem_of_In, Hr1 in Hr2. rewrite bool_decide_true in Hr2 by done.
    by apply bool_decide_eq_true in Hr2.
  - intros r Hr He. apply list_elem_of_In, Hall in Hr. apply andb_true_iff in Hr as [_ Hr].
    by rewrite bool_decide_true in Hr.
Qed.

Lemma chain_end_length rs : verify_records genesis rs = true → String.length (chain_end rs) = 64%nat.
Proof.
  induction rs as [|r rs _] using rev_ind; [done|]. rewrite verify_snoc, chain_end_snoc. intros (_ & _ & <-).
  by rewrite hex_length, sha256_length.
Qed.

(** Two chains that end in the same hash are the same up to their actions. *)
Lemma chain_determined rs1 : ∀ rs2,
  verify_records genesis rs1 = true → verify_records genesis rs2 = true → chain_end rs1 = chain_end rs2 →
  Forall record_u64 (rs1 ++ rs2) → no_collision (rs1 ++ rs2) → stamp <$> rs1 = stamp <$> rs2.
Proof.
  induction rs1 as [|r1 rs1 IH] using rev_ind; intros rs2 Hv1 Hv2 He Hu [Hc Hg];
    destruct rs2 as [|r2 rs2 _] using rev_ind; [done| | |].
  - rewrite chain_end_snoc in He. apply verify_snoc in Hv2 as (_ & _ & Hh). exfalso.
    apply (Hg r2); [apply elem_of_app; right; apply elem_of_app; right; by apply list_elem_of_singleton|]. by rewrite Hh, <- He.
  - rewrite chain_end_snoc in He. apply verify_snoc in Hv1 as (_ & _ & Hh). exfalso.
    apply (Hg r1); [apply elem_of_app; left; apply elem_of_app; right; by apply list_elem_of_singleton|]. by rewrite Hh, He.
  - rewrite !chain_end_snoc in He. apply verify_snoc in Hv1 as (V1 & P1 & E1). apply verify_snoc in Hv2 as (V2 & P2 & E2).
    rewrite !Forall_app, !Forall_singleton in Hu. destruct Hu as [[U1 u1] [U2 u2]].
    assert (record_input r1 = record_input r2) as Hin.
    { apply Hc; [set_solver..|]. apply hex_inj. congruence. }
    pose proof (chain_end_length _ V1). pose proof (chain_end_length _ V2).
    apply audit_input_inj in Hin as (Hs & Ht & Ha & Hp); [|done|done|unfold chain_end in *; congruence].
    rewrite !fmap_app. f_equal.
    + apply IH; [done|done|unfold chain_end; congruence|by apply Forall_app|].
      split; [intros x y Hx Hy; apply Hc; set_solver|intros x Hx; apply Hg; set_solver].
    + cbn. unfold stamp. congruence.
Qed.

(** *** Appending *)

(** A call: the clock, the bytes written to disk, actor and action *)
Definition audit_step l (c : N * nat * string * AuditAction) : AuditLogger :=
  let '(now, kept, actor, a) := c in (audit_append now kept actor a l).2.

Definition logger_ok l : Prop :=
  verify_integrity l = true ∧ last_hash_hex l = chain_end (audit_records l) ∧ Forall record_u64 (audit_records l).

Lemma audit_step_ok l c :
  logger_ok l → (c.1.1.1 < u64_modulus)%N → (lenN (audit_records l) + 1 < u64_modulus)%N → logger_ok (audit_step l c).
Proof.
  destruct c as [[[now kept] actor] a]. intros (Hv & Hl & Hu) Hn Hlen. unfold logger_ok, verify_integrity, audit_step, audit_append.
  cbn [audit_records last_hash_hex snd]. rewrite verify_snoc, chain_end_snoc. cbn. split_and!; try done.
  apply Forall_app. split; [done|]. apply Forall_singleton. by split.
Qed.

(** *** The file *)

Definition clean (t : list ascii) : Prop := Forall (λ c, c ≠ line_feed ∧ c ≠ carriage_return) t.

Lemma strip_cr_clean t : clean t → strip_cr t = t.
Proof.
  intros Ht. unfold strip_cr. destruct (last t) as [c|] eqn:E; [|done].
  assert (c ≠ carriage_return) as Hc.
  { apply last_Some in E as [l' ->]. apply Forall_app in Ht as [_ [_ Ht]%Forall_singleton]. exact Ht. }
  by rewrite (proj2 (Ascii.eqb_neq _ _) Hc).
Qed.

Lemma split_lines_one t : ∀ acc rest, clean (reverse acc ++ t) →
  split_lines acc (t ++ line_feed :: rest) = (reverse acc ++ t) :: split_lines [] rest.
Proof.
  induction t as [|c t IH]; intros acc rest Ht; cbn [app split_lines].
  - rewrite Ascii.eqb_refl. rewrite app_nil_r in *. by rewrite strip_cr_clean.
  - assert (c ≠ line_feed) as Hc.
    { unfold clean in Ht. apply Forall_app in Ht as [_ [[Hc _] _]%Forall_cons]. exact Hc. }
    rewrite (proj2 (Ascii.eqb_neq _ _) Hc), IH; rewrite reverse_cons, <- app_assoc; done.
Qed.

(** A file of whole lines *)
Fixpoint file_of (ts : list string) : string :=
  match ts with [] => "" | t :: ts => (t +:+ String line_feed "" +:+ file_of ts)%string end.

Lemma lines_file_of ts : Forall (λ t, clean (String.list_ascii_of_string t)) ts → lines (file_of ts) = ts.
Proof.
  unfold lines. induction 1 as [|t ts Ht _ IH]; [done|]. cbn [file_of]. rewrite !list_ascii_append. cbn [String.list_ascii_of_string app].
  rewrite (split_lines_one _ []) by done. cbn. rewrite String.string_of_list_ascii_of_string. by f_equal.
Qed.

Lemma file_of_snoc ts t : file_of (ts ++ [t]) = (file_of ts +:+ t +:+ String line_feed "")%string.
Proof.
  induction ts as [|t0 ts IH]; [done|]. cbn [app file_of]. rewrite IH. by rewrite !append_assoc.
Qed.

(** The file holds the records. *)
Definition file_holds l : Prop :=
  ∃ ts, mapM json_of_record (audit_records l) = Some ts ∧ log_file l = Some (file_of ts).

(** The record of a call is written in full. *)
Definition written l (c : N * nat * string * AuditAction) : Prop :=
  let '(now, kept, actor, a) := c in
  ∃ r t, (audit_append now kept actor a l).1 = Ok r ∧ json_of_record r = Some t ∧ (String.length t < kept)%nat.

Lemma file_holds_step l c : file_holds l → written l c → file_holds (audit_step l c).
Proof.
  destruct c as [[[now kept] actor] a]. intros (ts & Hts & Hf) (r & t & Hr & Ht & Hk).
  unfold audit_step, audit_append in *. cbn [fst snd] in *. injection Hr as Hr. rewrite Hr.
  exists (ts ++ [t]). cbn [audit_records log_file]. split.
  - apply mapM_Some. apply mapM_Some in Hts. apply Forall2_app; [done|]. by constructor.
  - rewrite Hf. cbn. f_equal. unfold persist. rewrite Ht, file_of_snoc. f_equal. unfold string_take.
    rewrite take_ge; [apply String.string_of_list_ascii_of_string|].
    assert (∀ s, length (String.list_ascii_of_string s) = String.length s) as Hlen by (induction s; cbn; congruence).
    rewrite list_ascii_append, length_app, Hlen. cbn. lia.
Qed.

Lemma reopen l : file_holds l → last_hash_hex l = chain_end (audit_records l) → audit_open true (log_file l) = l.
Proof.
  intros (ts & Hts & Hf) Hl. unfold audit_open. rewrite Hf. cbn [default]. unfold id. apply mapM_Some in Hts.
  assert (Forall (λ t, clean (String.list_ascii_of_string t)) ts) as Hc.
  { clear Hf Hl. induction Hts as [|r t rs ts Hr _ IH]; constructor; [by apply (json_one_line r)|done]. }
  rewrite (lines_file_of ts Hc).
  assert (omap record_of_json ts = audit_records l) as ->.
  { clear Hf Hc Hl. induction Hts as [|r t rs ts Hr _ IH]; [done|]. cbn. by rewrite (json_round_trip r t Hr), IH. }
  change (mkLogger (audit_records l) (chain_end (audit_records l)) (Some (file_of ts)) = l).
  rewrite <- Hl, <- Hf. by destruct l.
Qed.

(** *** Sequences of calls *)

Definition audit_calls (cs : list (N * nat * string * AuditAction)) l : AuditLogger := foldl audit_step l cs.
Fixpoint calls_written (cs : list (N * nat * string * AuditAction)) l : Prop :=
  match cs with [] => True | c :: cs => written l c ∧ calls_written cs (audit_step l c) end.

Lemma audit_calls_ok cs : ∀ l, logger_ok l → Forall (λ c, c.1.1.1 < u64_modulus)%N cs →
  (lenN (audit_records l) + lenN cs < u64_modulus)%N → logger_ok (audit_calls cs l).
Proof.
  induction cs as [|c cs IH]; intros l Hl Hc Hlen; [done|]. apply Forall_cons in Hc as [Hc Hcs].
  unfold lenN in *. cbn [length] in Hlen. cbn [audit_calls foldl]. apply IH; [|done|].
  - apply audit_step_ok; [done|done|]. unfold lenN. lia.
  - destruct c as [[[now kept] actor] a]. cbn. rewrite length_app. cbn. lia.
Qed.

Lemma file_holds_calls cs : ∀ l, file_holds l → calls_written cs l → file_holds (audit_calls cs l).
Proof. induction cs as [|c cs IH]; intros l Hl; [done|]. intros [Hw Hws]. apply IH; [|done]. by apply file_holds_step. Qed.

Lemma logger_ok_new l : audit_records l = [] → last_hash_hex l = genesis → logger_ok l.
Proof. intros Hr Hh. unfold logger_ok, verify_integrity. rewrite Hr. split_and!; [done|done|constructor]. Qed.

(** C34: The audit log is tamper-evident up to its actions: after any sequence
    of appends the chain verifies; when every record was written in full,
    reopening the file restores the same records and the same chain; and any
    file that parses into records whose chain verifies against the checkpoint
    hash of the original holds the same sequence numbers, times, actors and
    hashes in the same order, as long as SHA-256 does not collide on the records
    of the two logs and does not yield the hash a chain starts with. *)
Theorem audit_tamper_evident cs :
  Forall (λ c, c.1.1.1 < u64_modulus)%N cs → (lenN cs < u64_modulus)%N →
  let l := audit_calls cs (audit_open true None) in
  verify_integrity l = true ∧
  (calls_written cs (audit_open true None) → audit_open true (log_file l) = l) ∧
  ∀ file, let l' := audit_open true file in
    Forall record_u64 (audit_records l') → no_collision (audit_records l ++ audit_records l') →
    verify_audit_chain l' (latest_checkpoint_hash l) = Ok true →
    stamp <$> audit_records l' = stamp <$> audit_records l.
Proof.
  intros Hc Hlen l. assert (logger_ok l) as (Hv & Hl & Hu).
  { apply audit_calls_ok; [by apply logger_ok_new|done|done]. }
  split_and!; [done| |].
  - intros Hw. apply reopen; [|done]. apply file_holds_calls; [|done]. exists []. done.
  - intros file l' Hu' Hno Hver. unfold verify_audit_chain in Hver. injection Hver as Hver.
    apply andb_true_iff in Hver as [Hver Hend]. unfold latest_checkpoint_hash in Hend.
    assert (chain_end (audit_records l) = chain_end (audit_records l')) as He.
    { rewrite <- Hl. apply orb_true_iff in Hend as [Hend|Hend]; apply bool_decide_eq_true in Hend; [|by rewrite <- Hend].
      pose proof (chain_end_length _ Hv) as Hlen'. rewrite <- Hl, Hend in Hlen'. done. }
    symmetry. apply chain_determined; try done. by apply Forall_app.
Qed.
End audit_facts.

(** ** Facts on keys, tenants and envelope keys *)

Section auth_facts.
Context `{!Sha256, !Crc32}.

(** What was registered: token, tenant, role and limit *)
Abbreviation Registration := (string * string * AccessRole * N)%type.
Definition register_all (gs : list Registration) : AuthRegistry :=
  foldl (λ reg '(t, tenant, role, qps), (register_key t tenant role qps reg).2) ∅ gs.

(** A token is worth its last registration, for as long as no other token has its
    hash. *)
Lemma authenticate_spec gs token required :
  (∀ g, g ∈ gs → sha256 (bytes_of g.1.1.1) = sha256 (bytes_of token) → g.1.1.1 = token) →
  authenticate token required (register_all gs) =
    match last (filter (λ g, g.1.1.1 = token) gs) with
    | None => Err (Unauthorized "Invalid or missing API key")
    | Some (_, tenant, role, _) =>
        if (role_rank role <? role_rank required)%N then Err (Unauthorized "Permission denied")
        else Ok (mkSubject tenant role (key_id_of token))
    end.
Proof.
  intros Hc. unfold authenticate. assert (register_all gs !! token_hash token =
    (λ '(t, tenant, role, qps), mkCredential (key_id_of token) (token_hash token) tenant role qps true) <$>
      last (filter (λ g, g.1.1.1 = token) gs)) as ->; [|by destruct (last _) as [[[[t tenant] role] qps]|]].
  induction gs as [|[[[t tenant] role] qps] gs IH] using rev_ind; [done|].
  unfold register_all in *. rewrite foldl_app. cbn [foldl register_key snd]. rewrite filter_app.
  assert (∀ g, g ∈ gs → sha256 (bytes_of g.1.1.1) = sha256 (bytes_of token) → g.1.1.1 = token) as Hc'.
  { intros g Hg. apply Hc. apply elem_of_app. by left. }
  destruct (decide (t = token)) as [->|Hne].
  - rewrite lookup_insert_eq. rewrite filter_cons_True by done. by rewrite filter_nil, last_snoc.
  - rewrite filter_cons_False by done. rewrite filter_nil, app_nil_r, lookup_insert_ne; [by apply IH|].
    intros E. apply Hne. unfold token_hash in E. apply hex_inj in E.
    apply (Hc (t, tenant, role, qps)); [|done]. apply elem_of_app. right. by apply list_elem_of_singleton.
Qed.
End auth_facts.

(** *** Namespaces *)

Fixpoint no_colon (s : string) : Prop := match s with "" => True | String c s => c ≠ ":"%char ∧ no_colon s end.

Lemma strip_prefix_app p s : strip_prefix p (p +:+ s) = Some s.
Proof.
  induction p as [|c p IH]; [done|]. rewrite append_cons. cbn. by rewrite Ascii.eqb_refl.
Qed.

Lemma strip_prefix_some p s t : strip_prefix p s = Some t → s = (p +:+ t)%string.
Proof.
  revert s. induction p as [|a p IH]; intros s; cbn. { by intros [= ->]. }
  destruct s as [|b s]; [done|]. destruct (Ascii.eqb a b) eqn:E; [|done]. apply Ascii.eqb_eq in E as ->.
  intros ->%IH. done.
Qed.

Lemma colon_split a b s t : no_colon a → no_colon b →
  (a +:+ ":" +:+ s = b +:+ ":" +:+ t)%string → a = b ∧ s = t.
Proof.
  revert b. induction a as [|x a IH]; intros [|y b] Ha Hb E.
  - change (String ":" s = String ":" t) in E. by injection E.
  - change (String ":" s = String y (b +:+ ":" +:+ t)) in E. injection E as E _. destruct Hb as [Hb _]. congruence.
  - change (String x (a +:+ ":" +:+ s) = String ":" t) in E. injection E as E _. destruct Ha as [Ha _]. congruence.
  - change (String x (a +:+ ":" +:+ s) = String y (b +:+ ":" +:+ t)) in E. injection E as -> E.
    destruct Ha as [_ Ha], Hb as [_ Hb]. destruct (IH b Ha Hb E) as [-> ->]. done.
Qed.

(** Identifiers of different namespaces are told apart. *)
Lemma namespaces_disjoint ns ns' id :
  no_colon (ns_tenant_id ns) → no_colon (ns_collection_id ns) →
  no_colon (ns_tenant_id ns') → no_colon (ns_collection_id ns') →
  parse_qualified_id ns' (qualify_id ns id) =
    if decide (ns_tenant_id ns = ns_tenant_id ns' ∧ ns_collection_id ns = ns_collection_id ns') then Some id else None.
Proof.
  intros H1 H2 H3 H4. unfold parse_qualified_id, qualify_id.
  assert (∀ n i, namespace_prefix n +:+ i = ns_tenant_id n +:+ ":" +:+ ns_collection_id n +:+ ":" +:+ i)%string as Hp.
  { intros n i. unfold namespace_prefix. by rewrite !append_assoc. }
  case_decide as E.
  - destruct E as [Et Ec]. assert (namespace_prefix ns = namespace_prefix ns') as -> by (unfold namespace_prefix; by rewrite Et, Ec).
    apply strip_prefix_app.
  - destruct (strip_prefix _ _) as [t|] eqn:Es; [|done]. exfalso. apply strip_prefix_some in Es. rewrite !Hp in Es.
    apply colon_split in Es as [Et Es]; [|done..]. apply colon_split in Es as [Ec _]; [|done..]. by apply E.
Qed.

(** *** Quotas *)

Definition within_quota (m : TenantManager) : Prop :=
  map_Forall (λ _ '(q, u), (current_vectors u ≤ max_vectors q)%N ∧ (current_memory_bytes u ≤ tq_max_memory_bytes q)%N) m.

(** Whatever is requested, the counters stay within the quota of the tenant, and a
    refusal changes nothing. *)
Lemma tenant_admission_within tenant vectors bytes m :
  within_quota m →
  within_quota (tenant_admission tenant vectors bytes m).2 ∧
  (is_err (tenant_admission tenant vectors bytes m).1 = true → (tenant_admission tenant vectors bytes m).2 = m).
Proof.
  intros Hm. unfold tenant_admission. destruct (m !! tenant) as [[q u]|]; [|done].
  destruct (max_vectors q <? _)%N eqn:Ev; [done|]. destruct (tq_max_memory_bytes q <? _)%N eqn:Eb; [done|].
  apply N.ltb_ge in Ev, Eb. split; [|done]. by apply map_Forall_insert_2.
Qed.

(** *** Envelope keys *)

Section kms_facts.
Context `{!Sha256, !Sha256Laws, !AesGcm, !AesGcmLaws}.

Lemma data_key_round_trip seed key_id dek nonce plain wrapped :
  length nonce = 12%nat → generate_data_key seed dek nonce key_id = Ok (plain, wrapped) →
  plain = dek ∧ decrypt_data_key seed key_id wrapped = Ok dek.
Proof.
  intros Hn. unfold generate_data_key, decrypt_data_key, derive_wrapping_key. rewrite sha256_length. cbn [Nat.eqb negb].
  destruct (aes_encrypt _ _ _ _) as [c|] eqn:E; [|done]. intros [= <- <-]. split; [done|].
  rewrite length_app, (aes_length _ _ _ _ _ E), Hn.
  assert ((12 + (length dek + 16) <? 12 + 16) = false)%nat as -> by (apply Nat.ltb_ge; lia).
  rewrite <- Hn, take_app_length, drop_app_length. by rewrite (aes_round_trip _ _ _ _ _ E).
Qed.
End kms_facts.

(** ** Samples *)

#[export] Instance AuditAction_eq_dec : EqDecision AuditAction.
Proof. solve_decision. Defined.
#[export] Instance AuditRecord_eq_dec : EqDecision AuditRecord.
Proof. solve_decision. Defined.

(** A digest that keeps the first bytes *)
#[local] Instance toy_sha : Sha256 := λ bs, resize 32 x01 bs.
#[local] Instance toy_sha_laws : Sha256Laws.
Proof. intros bs. apply length_resize. Qed.

Definition sample_entry (seq now : N) (actor : string) (a : AuditAction) (prev : string) : AuditRecord :=
  mkAudit seq now actor a prev (audit_hash seq now actor prev).
Definition entry1 : AuditRecord := sample_entry 1 100 "alice" (TenantDeletion "t1") genesis.
Definition entry2 : AuditRecord := sample_entry 2 200 "bob" (ApiKeyRevocation "k7") (record_hash_hex entry1).
(** The first entry with another action *)
Definition forged1 : AuditRecord := sample_entry 1 100 "alice" (TenantDeletion "t9") genesis.

#[local] Instance table_json : AuditJson := {|
  json_of_record r := if decide (r = entry1) then Some "a" else if decide (r = entry2) then Some "b"
                      else if decide (r = forged1) then Some "c" else None;
  record_of_json s := if decide (s = "a") then Some entry1 else if decide (s = "b") then Some entry2
                      else if decide (s = "c") then Some forged1 else None
|}.
#[local] Instance table_json_laws : AuditJsonLaws.
Proof.
  split; intros r s; cbn; repeat case_decide; intros [= <-]; subst; try reflexivity; by repeat constructor.
Qed.

Definition sample_calls : list (N * nat * string * AuditAction) :=
  [(100%N, 8, "alice", TenantDeletion "t1"); (200%N, 8, "bob", ApiKeyRevocation "k7")]%nat.
Definition sample_log : AuditLogger := audit_calls sample_calls (audit_open true None).

Lemma audit_tamper_evident_witness :
  verify_integrity sample_log = true ∧ audit_open true (log_file sample_log) = sample_log ∧
  stamp <$> audit_records (audit_open true (Some (file_of ["c"; "b"]))) = stamp <$> audit_records sample_log.
Proof.
  assert (Forall (λ c, c.1.1.1 < u64_modulus)%N sample_calls) as Ht by (repeat constructor).
  destruct (audit_tamper_evident sample_calls Ht eq_refl) as (Hv & Hre & Htam).
  split; [exact Hv|]. split.
  - apply Hre. split; [exists entry1, "a"|split; [exists entry2, "b"|exact I]]; vm_compute; auto with arith.
  - apply Htam.
    + assert (audit_records (audit_open true (Some (file_of ["c"; "b"]))) = [forged1; entry2]) as -> by (vm_compute; reflexivity).
      repeat constructor.
    + apply no_collisionb_spec. vm_compute. reflexivity.
    + vm_compute. reflexivity.
Defined.

(** The action is not hashed: a log with another action passes verification
    against the checkpoint of the original. *)
Example changed_action_unnoticed :
  let forged := audit_open true (Some (file_of ["c"; "b"])) in
  verify_audit_chain forged (latest_checkpoint_hash sample_log) = Ok true ∧
  action <$> head (audit_records sample_log) = Some (TenantDeletion "t1") ∧
  action <$> head (audit_records forged) = Some (TenantDeletion "t9").
Proof. vm_compute. done. Qed.

(** A record that does not reach the disk is acknowledged, and the log no longer
    verifies once it is reopened. *)
Example lost_record_acknowledged :
  let calls := [(100%N, 0, "alice", TenantDeletion "t1"); (200%N, 8, "bob", ApiKeyRevocation "k7")]%nat in
  let l := audit_calls calls (audit_open true None) in
  is_ok (audit_append 100 0 "alice" (TenantDeletion "t1") (audit_open true None)).1 = true ∧
  verify_integrity l = true ∧ verify_integrity (audit_open true (log_file l)) = false.
Proof. vm_compute. done. Qed.

(** A colon in a tenant's name reaches into another namespace. *)
Example colon_crosses_tenants :
  parse_qualified_id (mkNamespace "acme" "eu:docs") (qualify_id (mkNamespace "acme:eu" "docs") "7") = Some "7".
Proof. vm_compute. reflexivity. Qed.

(** A tenant nobody registered has no quota. *)
Example unregistered_tenant_unlimited :
  is_ok (tenant_admission "nobody" 1000000000 1000000000000 ∅).1 = true.
Proof. vm_compute. reflexivity. Qed.

(** The certificate before the last rotation stays trusted, whenever it expires. *)
Example previous_certificate_trusted :
  let c id := mkCertificate id "" "" 0 10 in
  is_trusted_peer_cert "old" (rotate_certificate (c "new") (cert_manager_new (c "old"))).2 = true.
Proof. vm_compute. reflexivity. Qed.
