(* ===== verification/Fleet.v ===== *)
(** The managed fleet: the reconciliation of the control plane and its billing meter
    (src/cluster/control_plane.rs) and the pool of serverless query workers
    (src/cluster/serverless.rs).

    [Instant::now().elapsed().as_secs()] is the time since an instant just taken, so
    zero unless the thread was stopped in between: an argument [now].  The counters
    are modelled as the code steps them under the lock of the worker table. *)

From Stdlib Require Import ZArith Ascii SpecFloat.
From stdpp Require Import base gmap sets strings numbers list pretty fin_maps.
From S2P Require Import Prelude.
From S2P Require Import Floats.

(** ** Reconciliation *)

Record DesiredClusterState := mkDesired {
  ds_cluster_id : string;
  org_id : string;
  region : string;
  voting_replicas : N;
  read_learners : N;
  target_image_tag : string;
  max_memory_mb : N;
  auto_backup_enabled : bool
}.
Record ObservedClusterState := mkObserved {
  os_cluster_id : string;
  live_voting_replicas : N;
  live_read_learners : N;
  current_image_tag : string;
  leader_node_id : option N;
  is_healthy : bool;
  last_reconciled_epoch_ms : N
}.
Definition observed_default : ObservedClusterState := mkObserved "" 0 0 "" None false 0.
Record ControlPlaneReconciliationPlan := mkPlan {
  cp_cluster_id : string;
  actions_required : list string;
  is_converged : bool
}.
Record DBaaSControlPlane := mkControlPlane {
  desired_clusters : gmap string DesiredClusterState;
  observed_clusters : gmap string ObservedClusterState
}.
Definition control_plane_new : DBaaSControlPlane := mkControlPlane ∅ ∅.
Definition set_desired_state (d : DesiredClusterState) (c : DBaaSControlPlane) : DBaaSControlPlane :=
  mkControlPlane (<[ds_cluster_id d := d]> (desired_clusters c)) (observed_clusters c).
Definition report_observed_state (o : ObservedClusterState) (c : DBaaSControlPlane) : DBaaSControlPlane :=
  mkControlPlane (desired_clusters c) (<[os_cluster_id o := o]> (observed_clusters c)).

Definition action_text (what : string) (current desired : string) : string :=
  (what +:+ ": current " +:+ current +:+ ", desired " +:+ desired)%string.
Definition reconcile (id : string) (c : DBaaSControlPlane) : HNSQRResult ControlPlaneReconciliationPlan :=
  match desired_clusters c !! id with
  | None => Err (NodeNotFound id)
  | Some d =>
      let o := default observed_default (observed_clusters c !! id) in
      let actions :=
        (if negb (voting_replicas d =? live_voting_replicas o)%N
         then [action_text "Reconcile voting replicas" (pretty (live_voting_replicas o)) (pretty (voting_replicas d))] else []) ++
        (if negb (read_learners d =? live_read_learners o)%N
         then [action_text "Reconcile read learners" (pretty (live_read_learners o)) (pretty (read_learners d))] else []) ++
        (if negb (bool_decide (current_image_tag o = "")) && negb (bool_decide (target_image_tag d = current_image_tag o))
         then [("Upgrade image from " +:+ current_image_tag o +:+ " to " +:+ target_image_tag d)%string] else []) in
      Ok (mkPlan id actions (bool_decide (actions = [])))
  end.

(** ** Billing *)

Record TenantUsageReport := mkReport {
  ur_tenant_id : string;
  total_queries : N;
  storage_gb_hours : f64;
  egress_gb : f64;
  estimated_cost_usd : f64
}.
Record UsageBillingMeter := mkMeter {
  query_counters : gmap string N;
  storage_gb : gmap string f64;
  egress_bytes : gmap string N
}.
Definition meter_new : UsageBillingMeter := mkMeter ∅ ∅ ∅.
(** [*entry.or_insert(0) += n] *)
Definition counter_add (tenant : string) (n : N) (m : gmap string N) : gmap string N :=
  <[tenant := u64_add (default 0%N (m !! tenant)) n]> m.
Definition record_queries (tenant : string) (count : N) (m : UsageBillingMeter) : UsageBillingMeter :=
  mkMeter (counter_add tenant count (query_counters m)) (storage_gb m) (egress_bytes m).
Definition update_storage (tenant : string) (gb : f64) (m : UsageBillingMeter) : UsageBillingMeter :=
  mkMeter (query_counters m) (<[tenant := gb]> (storage_gb m)) (egress_bytes m).
Definition record_egress (tenant : string) (bytes : N) (m : UsageBillingMeter) : UsageBillingMeter :=
  mkMeter (query_counters m) (storage_gb m) (counter_add tenant bytes (egress_bytes m)).

(** [x.round()] *)
Definition round_f64 (x : f64) : f64 :=
  match x with
  | S754_finite s _ _ => if (f64_round x =? 0)%Z then S754_zero s else f64_of_Z (f64_round x)
  | _ => x
  end.
Definition generate_monthly_report (tenant : string) (elapsed_hours : f64) (m : UsageBillingMeter) : TenantUsageReport :=
  let queries := default 0%N (query_counters m !! tenant) in
  let storage := default (f64_of_Z 0) (storage_gb m !! tenant) in
  let egress := default 0%N (egress_bytes m !! tenant) in
  let gb_hours := f64_mul storage elapsed_hours in
  let gb := f64_div (f64_of_u64 egress) (f64_of_Z 1073741824) in
  let query_cost := f64_mul (f64_div (f64_of_u64 queries) (f64_of_Z 1000)) (f64_ratio 5 100) in
  let storage_cost := f64_mul (f64_div gb_hours (f64_of_Z 730)) (f64_ratio 25 100) in
  let egress_cost := f64_mul gb (f64_ratio 8 100) in
  let total_cost := f64_add (f64_add query_cost storage_cost) egress_cost in
  mkReport tenant queries gb_hours gb (f64_div (round_f64 (f64_mul total_cost (f64_of_Z 100))) (f64_of_Z 100)).

(** ** Serverless workers *)

Inductive WorkerState := WIdle | WAttachingSnapshot | WExecuting | WLeaseExpired.
#[export] Instance WorkerState_eq_dec : EqDecision WorkerState.
Proof. solve_decision. Defined.

Record EphemeralWorker := mkWorker {
  worker_id : string;
  w_tenant_id : string;
  w_state : WorkerState;
  attached_generation : N;
  active_queries : N;
  total_queries_served : N;
  lease_expires_at : N
}.
Record ServerlessQueryRouter := mkRouter {
  workers : gmap string EphemeralWorker;
  worker_lease_secs : N;
  total_routed_queries : N;
  total_scale_events : N;
  active_worker_count : N
}.
Definition router_new (lease_secs : N) : ServerlessQueryRouter := mkRouter ∅ lease_secs 0 0 0.

Definition worker_name (tenant : string) (n : N) : string := ("worker-" +:+ tenant +:+ "-" +:+ pretty n)%string.

Section serverless.
Context `{!HashOrderOf string}.

Definition usable (tenant : string) (generation : N) (w : EphemeralWorker) : bool :=
  bool_decide (w_tenant_id w = tenant) && (attached_generation w =? generation)%N && bool_decide (w_state w = WIdle).

Definition acquire_worker_for_query (now : N) (tenant : string) (generation : N) (r : ServerlessQueryRouter) :
    HNSQRResult string * ServerlessQueryRouter :=
  let routed := u64_add (total_routed_queries r) 1 in
  let lease := u64_add now (worker_lease_secs r) in
  match find_first (λ id, default false (usable tenant generation <$> workers r !! id)) (iter_order (dom (workers r))) with
  | Some id =>
      let start w := mkWorker (worker_id w) (w_tenant_id w) WExecuting (attached_generation w)
                       (u64_add (active_queries w) 1) (total_queries_served w) lease in
      (Ok id, mkRouter (alter start id (workers r)) (worker_lease_secs r) routed (total_scale_events r) (active_worker_count r))
  | None =>
      let id := worker_name tenant (active_worker_count r) in
      let w := mkWorker id tenant WExecuting generation 1 0 lease in
      (Ok id, mkRouter (<[id := w]> (workers r)) (worker_lease_secs r) routed (u64_add (total_scale_events r) 1)
                (u64_add (active_worker_count r) 1))
  end.

Definition release_worker (id : string) (r : ServerlessQueryRouter) : ServerlessQueryRouter :=
  let stop w :=
    let active := (active_queries w - 1)%N in
    mkWorker (worker_id w) (w_tenant_id w) (if (active =? 0)%N then WIdle else w_state w) (attached_generation w)
      active (u64_add (total_queries_served w) 1) (lease_expires_at w) in
  mkRouter (alter stop id (workers r)) (worker_lease_secs r) (total_routed_queries r) (total_scale_events r) (active_worker_count r).

Definition reap_expired_workers (now : N) (r : ServerlessQueryRouter) : N * ServerlessQueryRouter :=
  let kept := filter (λ e, (0 < active_queries e.2)%N ∨ (now < lease_expires_at e.2)%N) (workers r) in
  let reaped := (N.of_nat (size (workers r)) - N.of_nat (size kept))%N in
  (reaped, mkRouter kept (worker_lease_secs r) (total_routed_queries r) (total_scale_events r)
             (u64_sub (active_worker_count r) reaped)).
End serverless.

(** ** Facts *)

(** Reconciliation converges: it plans nothing exactly when replicas, learners and
    image are as desired (an image not yet reported is not compared). *)
Lemma reconcile_spec id c d : desired_clusters c !! id = Some d →
  ∃ p, reconcile id c = Ok p ∧
    let o := default observed_default (observed_clusters c !! id) in
    (is_converged p = true ↔ voting_replicas d = live_voting_replicas o ∧ read_learners d = live_read_learners o ∧
      (current_image_tag o = "" ∨ target_image_tag d = current_image_tag o)) ∧
    (is_converged p = true ↔ actions_required p = []).
Proof.
  intros Hd. unfold reconcile. rewrite Hd. eexists. split; [done|]. cbn. rewrite !bool_decide_eq_true. split; [|done].
  set (o := default _ _). destruct (N.eqb_spec (voting_replicas d) (live_voting_replicas o)); cbn; [|by split; [|tauto]].
  destruct (N.eqb_spec (read_learners d) (live_read_learners o)); cbn; [|by split; [|tauto]].
  repeat case_bool_decide; cbn; naive_solver.
Qed.

(** The counters of a tenant add up what was recorded of it. *)
Lemma record_queries_other t t' n m : t ≠ t' → query_counters (record_queries t n m) !! t' = query_counters m !! t'.
Proof. intros Hne. cbn. unfold counter_add. by rewrite lookup_insert_ne. Qed.

(** *** Worker names *)

Definition no_dash (l : list ascii) : Prop := Forall (λ c, c ≠ "-"%char) l.

Lemma digits_no_dash x s : no_dash (String.list_ascii_of_string s) →
  no_dash (String.list_ascii_of_string (pretty_N_go x s)).
Proof.
  revert s. induction (N.lt_wf_0 x) as [x _ IH]. intros s Hs. destruct (decide (x = 0%N)) as [->|Hx]; [done|].
  rewrite pretty_N_go_step by lia. apply IH; [by apply N.div_lt; lia|]. cbn. constructor; [|done].
  pose proof (N.mod_lt x 10 ltac:(done)) as Hlt. revert Hlt. generalize (x `mod` 10)%N as d. clear. intros d Hd.
  assert (d = 0 ∨ d = 1 ∨ d = 2 ∨ d = 3 ∨ d = 4 ∨ d = 5 ∨ d = 6 ∨ d = 7 ∨ d = 8 ∨ d = 9)%N as H by lia.
  by repeat destruct H as [->|H]; subst.
Qed.

Lemma pretty_no_dash (n : N) : no_dash (String.list_ascii_of_string (pretty n)).
Proof. unfold pretty, pretty_N. case_decide; [by repeat constructor|]. apply digits_no_dash. constructor. Qed.

(** What follows the last dash *)
Lemma last_dash (a a' b b' : list ascii) : no_dash b → no_dash b' →
  a ++ "-"%char :: b = a' ++ "-"%char :: b' → b = b'.
Proof.
  assert (∀ k l, ¬ no_dash (k ++ "-"%char :: l)) as Hno.
  { intros k l Hn. by apply Forall_app in Hn as [_ [Hn _]%Forall_cons]. }
  intros Hb Hb' He. apply app_eq_inv in He as [(k & -> & He)|(k & -> & He)]; destruct k as [|c k]; cbn in He;
    injection He; try done; intros -> _; by destruct (Hno k _ ltac:(eassumption)).
Qed.

Lemma worker_name_inj t n t' n' : worker_name t n = worker_name t' n' → n = n'.
Proof.
  unfold worker_name. intros E. apply (f_equal String.list_ascii_of_string) in E. rewrite !list_ascii_append in E.
  apply app_inv_head in E. apply (last_dash _ _ _ _ (pretty_no_dash n) (pretty_no_dash n')) in E.
  apply (inj pretty). by rewrite <- (String.string_of_list_ascii_of_string (pretty n)), E, String.string_of_list_ascii_of_string.
Qed.

(** *** Exclusive workers *)

Inductive FleetOp := F_Acquire (tenant : string) (generation : N) | F_Release (id : string) | F_Reap.

Section exclusive.
Context `{!HashOrderOf string}.

(** The workers handed out and not yet released: identifier, tenant, generation *)
Abbreviation Ledger := (list (string * string * N)).

(** Calls at instant 0, as the clock of the code reads *)
Definition fleet_step (st : ServerlessQueryRouter * Ledger) (o : FleetOp) : ServerlessQueryRouter * Ledger :=
  let '(r, out) := st in
  match o with
  | F_Acquire t g =>
      match acquire_worker_for_query 0 t g r with
      | (Ok id, r) => (r, out ++ [(id, t, g)])
      | (Err _, r) => (r, out)
      end
  | F_Release id => (release_worker id r, filter (λ e, e.1.1 ≠ id) out)
  | F_Reap => ((reap_expired_workers 0 r).2, out)
  end.
Definition fleet_run (lease : N) (os : list FleetOp) : ServerlessQueryRouter * Ledger :=
  foldl fleet_step (router_new lease, []) os.

Definition busy (w : EphemeralWorker) (t : string) (g : N) : Prop :=
  w_tenant_id w = t ∧ attached_generation w = g ∧ w_state w = WExecuting ∧ active_queries w = 1%N.

Definition fleet_inv (lease : N) (r : ServerlessQueryRouter) (out : Ledger) : Prop :=
  NoDup out.*1.*1 ∧ worker_lease_secs r = lease ∧ active_worker_count r = N.of_nat (size (workers r)) ∧
  (∀ id t g, (id, t, g) ∈ out → ∃ w, workers r !! id = Some w ∧ busy w t g) ∧
  (∀ id w, workers r !! id = Some w → (0 < lease_expires_at w)%N ∧
     (∃ t n, id = worker_name t n ∧ (n < active_worker_count r)%N) ∧
     (id ∉ out.*1.*1 → w_state w = WIdle ∧ active_queries w = 0%N)).

Lemma find_first_spec {A} (f : A → bool) l x : find_first f l = Some x → x ∈ l ∧ f x = true.
Proof.
  induction l as [|y l IH]; cbn; [done|]. destruct (f y) eqn:E; [intros [= ->]; by split; [apply elem_of_cons; left|]|].
  intros H%IH. destruct H. split; [by apply elem_of_cons; right|done].
Qed.

Lemma ledger_out (out : Ledger) id t g : (id, t, g) ∈ out → id ∈ out.*1.*1.
Proof. intros Hin. apply list_elem_of_fmap. exists (id, t). split; [done|]. apply list_elem_of_fmap. by exists (id, t, g). Qed.

Lemma out_ledger (out : Ledger) id : id ∈ out.*1.*1 → ∃ t g, (id, t, g) ∈ out.
Proof.
  intros Hin. apply list_elem_of_fmap in Hin as ([i t] & -> & Hin). apply list_elem_of_fmap in Hin as ([[i' t'] g] & [= -> ->] & Hin).
  cbn. eauto.
Qed.

(** Handing out a worker that is not in the ledger *)
Lemma inv_hand_out lease r r' out id w t g :
  fleet_inv lease r out → id ∉ out.*1.*1 → busy w t g → (0 < lease_expires_at w)%N →
  workers r' = <[id := w]> (workers r) → worker_lease_secs r' = lease →
  active_worker_count r' = N.of_nat (size (workers r')) → (active_worker_count r ≤ active_worker_count r')%N →
  (∃ t n, id = worker_name t n ∧ (n < active_worker_count r')%N) →
  fleet_inv lease r' (out ++ [(id, t, g)]).
Proof.
  intros (Hnd & _ & _ & Hout & Hw) Hid Hb Hpos Hr' Hl' Hc' Hle Hname. split_and!; [|done|done|..].
  - rewrite !fmap_app. apply NoDup_app. split_and!; [done|by intros x Hx ->%list_elem_of_singleton|apply NoDup_singleton].
  - intros id' t' g' [Hin|Hin]%elem_of_app.
    + rewrite Hr', lookup_insert_ne; [by apply Hout|]. intros ->. by apply Hid, (ledger_out _ _ t' g').
    + apply list_elem_of_singleton in Hin. injection Hin as -> -> ->. exists w. by rewrite Hr', lookup_insert_eq.
  - intros id' w' Hw'. rewrite Hr' in Hw'. rewrite !fmap_app, elem_of_app. destruct (decide (id = id')) as [<-|Hne].
    + rewrite lookup_insert_eq in Hw'. injection Hw' as <-. split_and!; [done|done|]. intros Hno. destruct Hno. right.
      by apply list_elem_of_singleton.
    + rewrite lookup_insert_ne in Hw' by done. destruct (Hw id' w' Hw') as (? & (tn & n & -> & Hn) & Hidle).
      split_and!; [done|exists tn, n; split; [done|lia]|]. intros Hno. apply Hidle. tauto.
Qed.

Lemma acquire_inv lease t g r out :
  (0 < lease < u64_modulus)%N → (active_worker_count r + 1 < u64_modulus)%N → fleet_inv lease r out →
  let st := fleet_step (r, out) (F_Acquire t g) in
  fleet_inv lease st.1 st.2 ∧ (active_worker_count st.1 ≤ active_worker_count r + 1)%N.
Proof.
  intros Hl Hc Hinv. pose proof Hinv as (Hnd & Hlease & Hcount & Hout & Hw). cbn [fleet_step]. unfold acquire_worker_for_query.
  assert (u64_add 0 (worker_lease_secs r) = lease) as Hadd.
  { rewrite Hlease. unfold u64_add, u64_wrap. rewrite N.add_0_l. apply N.mod_small. lia. }
  assert (u64_add (active_worker_count r) 1 = active_worker_count r + 1)%N as Hsucc.
  { unfold u64_add, u64_wrap. by apply N.mod_small. }
  destruct (find_first _ _) as [id|] eqn:Ef; cbn [fst snd].
  - apply find_first_spec in Ef as [_ Hu]. destruct (workers r !! id) as [w|] eqn:Hid; [|done]. change (usable t g w = true) in Hu. unfold usable in Hu.
    apply andb_true_iff in Hu as [[Ht Hg]%andb_true_iff Hs]. apply bool_decide_eq_true in Ht, Hs. apply N.eqb_eq in Hg.
    assert (id ∉ out.*1.*1) as Hnot.
    { intros (t' & g' & Hin)%out_ledger.
      destruct (Hout _ _ _ Hin) as (w' & Hw' & _ & _ & Hex & _). congruence. }
    destruct (Hw id w Hid) as (_ & Hname & Hidle). destruct (Hidle Hnot) as [_ Hact]. split; [|cbn; lia].
    apply (inv_hand_out lease r _ out id (mkWorker (worker_id w) (w_tenant_id w) WExecuting (attached_generation w)
      (u64_add (active_queries w) 1) (total_queries_served w) lease)); try done; cbn.
    + split_and!; [exact Ht|exact Hg|done|]. cbn. rewrite Hact. reflexivity.
    + lia.
    + rewrite Hadd. apply map_eq. intros i. destruct (decide (id = i)) as [<-|Hne].
      * by rewrite lookup_alter_eq, lookup_insert_eq, Hid.
      * by rewrite lookup_alter_ne, lookup_insert_ne.
    + rewrite Hcount. f_equal. by rewrite <- !size_dom, dom_alter_L.
  - destruct (decide (is_Some (workers r !! worker_name t (active_worker_count r)))) as [[w Hin]|Hnew].
    { destruct (Hw _ _ Hin) as (_ & (t' & n & E%worker_name_inj & Hn) & _). lia. }
    apply eq_None_not_Some in Hnew. rewrite Hsucc. split; [|cbn; lia].
    rewrite Hadd.
    apply (inv_hand_out lease r _ out _ (mkWorker (worker_name t (active_worker_count r)) t WExecuting g 1 0 lease)); try done; cbn.
    + intros (t' & g' & Hin)%out_ledger.
      destruct (Hout _ _ _ Hin) as (w' & Hw' & _). congruence.
    + lia.
    + rewrite map_size_insert_None by done. lia.
    + lia.
    + exists t, (active_worker_count r). split; [done|lia].
Qed.

Lemma release_inv lease id r out : fleet_inv lease r out →
  let st := fleet_step (r, out) (F_Release id) in fleet_inv lease st.1 st.2 ∧ active_worker_count st.1 = active_worker_count r.
Proof.
  intros (Hnd & Hlease & Hcount & Hout & Hw). split; [|done]. cbn [fleet_step fst snd release_worker].
  assert (∀ i, i ∈ (filter (λ e, e.1.1 ≠ id) out).*1.*1 ↔ i ∈ out.*1.*1 ∧ i ≠ id) as Hin.
  { intros i. split.
    - intros (t & g & [Hne Hi]%list_elem_of_filter)%out_ledger. split; [by eapply ledger_out|done].
    - intros [(t & g & Hi)%out_ledger Hne]. apply (ledger_out _ i t g). by apply list_elem_of_filter. }
  split_and!; cbn.
  - clear Hin Hout Hw. induction out as [|[[i t] g] out IH]; [done|]. cbn in Hnd. apply NoDup_cons in Hnd as [Hno Hnd].
    rewrite filter_cons. case_decide; [|by apply IH]. cbn. constructor; [|by apply IH].
    intros (t' & g' & [_ Hi]%list_elem_of_filter)%out_ledger. by apply Hno, (ledger_out _ _ t' g').
  - done.
  - rewrite Hcount. f_equal. by rewrite <- !size_dom, dom_alter_L.
  - intros i t g [Hne Hi]%list_elem_of_filter. cbn in Hne. rewrite lookup_alter_ne by done. by apply Hout.
  - intros i w Hi. rewrite Hin. destruct (decide (id = i)) as [<-|Hne].
    + rewrite lookup_alter_eq in Hi. destruct (workers r !! id) as [w0|] eqn:E; [|done]. injection Hi as <-. cbn.
      destruct (Hw id w0 E) as (Hpos & Hname & Hidle). split_and!; [done|done|]. intros _.
      assert (active_queries w0 ≤ 1)%N as Hle.
      { destruct (decide (id ∈ out.*1.*1)) as [Ho|Ho]; [|destruct (Hidle Ho); lia].
        apply out_ledger in Ho as (t & g & Ho). destruct (Hout _ _ _ Ho) as (w1 & Hw1 & _ & _ & _ & Hone). simplify_eq. lia. }
      assert (active_queries w0 - 1 = 0)%N as -> by lia. done.
    + rewrite lookup_alter_ne in Hi by done. destruct (Hw i w Hi) as (Hpos & Hname & Hidle). split_and!; [done|done|].
      intros Hno. apply Hidle. intros Ho. apply Hno. split; [done|congruence].
Qed.

(** At instant 0 no lease has run out: nothing is ever reaped. *)
Lemma reap_inv lease r out : fleet_inv lease r out → (active_worker_count r < u64_modulus)%N →
  let st := fleet_step (r, out) F_Reap in
  fleet_inv lease st.1 st.2 ∧ workers st.1 = workers r ∧ active_worker_count st.1 = active_worker_count r.
Proof.
  intros Hinv Hlt. pose proof Hinv as (Hnd & Hlease & Hcount & Hout & Hw). cbn [fleet_step fst snd reap_expired_workers].
  assert (filter (λ e : string * EphemeralWorker, (0 < active_queries e.2)%N ∨ (0 < lease_expires_at e.2)%N) (workers r) = workers r) as Hk.
  { apply map_filter_id. intros id w Hid. right. by apply (Hw id w Hid). }
  assert (u64_sub (active_worker_count r) 0 = active_worker_count r) as Hsub.
  { unfold u64_sub, u64_wrap. rewrite N.sub_0_r, <- N.Div0.add_mod_idemp_r, N.Div0.mod_same, N.add_0_r. by apply N.mod_small. }
  unfold fleet_inv. cbn. rewrite Hk, N.sub_diag, Hsub. split_and!; try done.
Qed.

Lemma fleet_run_inv lease os : (0 < lease < u64_modulus)%N → (lenN os < u64_modulus)%N →
  fleet_inv lease (fleet_run lease os).1 (fleet_run lease os).2 ∧ (active_worker_count (fleet_run lease os).1 ≤ lenN os)%N.
Proof.
  intros Hl. unfold fleet_run. induction os as [|o os IH] using rev_ind; intros Hlen.
  { split; [|done]. split_and!; try done; [constructor|]. intros id t g Hin. by apply elem_of_nil in Hin. }
  unfold lenN in *. rewrite length_app in Hlen. cbn in Hlen. destruct IH as [Hinv Hle]; [lia|].
  rewrite foldl_app, length_app. cbn [foldl length]. destruct (foldl _ _ os) as [r out]. cbn [fst snd] in Hinv, Hle.
  destruct o as [t g|id|].
  - destruct (acquire_inv lease t g r out Hl ltac:(lia) Hinv) as [Hi Hc]. split; [done|lia].
  - destruct (release_inv lease id r out Hinv) as [Hi Hc]. split; [done|]. rewrite Hc. lia.
  - destruct (reap_inv lease r out Hinv ltac:(lia)) as (Hi & _ & Hc). split; [done|]. rewrite Hc. lia.
Qed.

(** Serverless workers are exclusive: over any sequence of acquisitions,
    releases and reaps at the instant the clock of the code reads, with a
    positive lease, a worker that was handed out is in the table, attached to
    the tenant and generation it was acquired for, and serves that one query
    until it is released; all other workers are idle; the counter equals the
    number of workers; and reaping removes nothing. *)
Lemma workers_exclusive lease os :
  (0 < lease < u64_modulus)%N → (lenN os < u64_modulus)%N →
  let '(r, out) := fleet_run lease os in
  NoDup out.*1.*1 ∧ active_worker_count r = N.of_nat (size (workers r)) ∧
  (∀ id t g, (id, t, g) ∈ out → ∃ w, workers r !! id = Some w ∧ busy w t g) ∧
  (∀ id w, workers r !! id = Some w → id ∉ out.*1.*1 → w_state w = WIdle ∧ active_queries w = 0%N) ∧
  reap_expired_workers 0 r = (0%N, r).
Proof.
  intros Hl Hlen. destruct (fleet_run_inv lease os Hl Hlen) as [Hinv Hle]. destruct (fleet_run lease os) as [r out].
  cbn [fst snd] in *. pose proof Hinv as (? & ? & ? & ? & Hw). split_and!; try done; [by intros id w Hid; apply (Hw id w Hid)|].
  destruct (reap_inv lease r out Hinv ltac:(lia)) as (_ & Hk & Hc). cbn in Hk, Hc. unfold reap_expired_workers.
  rewrite Hk, N.sub_diag in *. rewrite Hc. by destruct r.
Qed.
End exclusive.

(** ** Samples *)

#[local] Existing Instance canonical_order.

Definition sample_fleet : list FleetOp :=
  [F_Acquire "a" 1; F_Acquire "b" 1; F_Acquire "a" 1; F_Release "worker-a-0"; F_Reap; F_Acquire "a" 1; F_Acquire "a" 2].

Lemma workers_exclusive_witness :
  (0 < 300 < u64_modulus)%N ∧
  let '(r, out) := fleet_run 300 sample_fleet in
  NoDup out.*1.*1 ∧ active_worker_count r = N.of_nat (size (workers r)) ∧
  (∀ id t g, (id, t, g) ∈ out → ∃ w, workers r !! id = Some w ∧ busy w t g) ∧
  (∀ id w, workers r !! id = Some w → id ∉ out.*1.*1 → w_state w = WIdle ∧ active_queries w = 0%N) ∧
  reap_expired_workers 0 r = (0%N, r).
Proof.
  assert (0 < 300 < u64_modulus)%N as Hl by (split; reflexivity).
  split; [exact Hl|]. apply (workers_exclusive 300 sample_fleet Hl). reflexivity.
Defined.

Example fleet_reuses_worker :
  (fleet_run 300 sample_fleet).2.*1.*1 = ["worker-b-1"; "worker-a-2"; "worker-a-0"; "worker-a-3"].
Proof. vm_compute. reflexivity. Qed.

(** If a lease does run out, the number of the next worker repeats: a worker that
    is executing a query is replaced by a new one with its name. *)
Example reaped_number_reused :
  let r := (fleet_run 300 [F_Acquire "a" 1; F_Acquire "a" 1; F_Release "worker-a-0"]).1 in
  let '(reaped, r) := reap_expired_workers 301 r in
  reaped = 1%N ∧ w_state <$> workers r !! "worker-a-1" = Some WExecuting ∧
  (acquire_worker_for_query 301 "a" 1 r).1 = Ok "worker-a-1".
Proof. vm_compute. done. Qed.

(** 100000 queries, 50 GB for a month and 10 GB of egress: 5 + 12.50 + 0.80 *)
Example monthly_report :
  let m := record_egress "t" 10737418240 (update_storage "t" (f64_of_Z 50) (record_queries "t" 100000 meter_new)) in
  estimated_cost_usd (generate_monthly_report "t" (f64_of_Z 730) m) = f64_ratio 1830 100.
Proof. vm_compute. reflexivity. Qed.
