(* ===== verification/Qir0.v ===== *)
(** The QIR0 binary protocol (src/transport/qir0.rs): message headers, the server's
    loop over a connection, the client's requests and how it reads the answers.

    The service behind the server is a trait in the code and a class here.  A
    connection delivers its bytes in pieces of any size, an empty piece or the end
    being the end of the stream.  Vectors are copied between memory and the wire as
    they are: the model is that of a little-endian machine.  Floats are their 32-bit
    patterns, identifiers their bytes.  Memory that cannot be allocated is not
    modelled. *)

From Stdlib Require Import Strings.Byte ZArith.
From stdpp Require Import base strings numbers list pretty.
From S2P Require Import Prelude.
From S2P Require Import RaftTypes.
From S2P Require Import Codec.

Abbreviation bytes_of := String.list_byte_of_string.

(** ** Headers *)

Definition PROTOCOL_MAGIC : N := 1363759664.
Definition HEADER_SIZE : N := 16.

Inductive OpCode := OpPing | OpInsert | OpSearch | OpBatchSearch | OpStats | OpGraphQuery | OpError.
Definition opcode_num (o : OpCode) : N :=
  match o with
  | OpPing => 1 | OpInsert => 2 | OpSearch => 3 | OpBatchSearch => 4 | OpStats => 5 | OpGraphQuery => 6 | OpError => 255
  end.
(** [{:0widthX}], for a number of at most [width] digits *)
Fixpoint hex_upper (width : nat) (v : N) : string :=
  match width with
  | O => ""
  | S width => hex_upper width (v `div` 16) +:+ String.substring (N.to_nat (v `mod` 16)) 1 "0123456789ABCDEF"
  end.
Definition opcode_try_from (v : N) : HNSQRResult OpCode :=
  if (v =? 1)%N then Ok OpPing else if (v =? 2)%N then Ok OpInsert else if (v =? 3)%N then Ok OpSearch
  else if (v =? 4)%N then Ok OpBatchSearch else if (v =? 5)%N then Ok OpStats else if (v =? 6)%N then Ok OpGraphQuery
  else if (v =? 255)%N then Ok OpError else Err (SerializationError ("Unknown opcode: 0x" +:+ hex_upper 4 v)).

Record MessageHeader := mkHeader {
  mh_magic : N;
  mh_opcode : OpCode;
  mh_flags : N;
  mh_request_id : N;
  mh_payload_len : N
}.
Definition qir0_encode (h : MessageHeader) : list byte :=
  be_bytes 4 (mh_magic h) ++ be_bytes 2 (opcode_num (mh_opcode h)) ++ be_bytes 2 (mh_flags h) ++
  be_bytes 4 (mh_request_id h) ++ be_bytes 4 (mh_payload_len h).
(** With what follows the header *)
Definition qir0_decode (src : list byte) : HNSQRResult (option (MessageHeader * list byte)) :=
  if (lenN src <? HEADER_SIZE)%N then Ok None
  else
    let magic := be_num (slice 0 4 src) in
    if negb (magic =? PROTOCOL_MAGIC)%N then Err (SerializationError ("Invalid wire magic: 0x" +:+ hex_upper 8 magic))
    else match opcode_try_from (be_num (slice 4 6 src)) with
         | Err e => Err e
         | Ok opcode => Ok (Some (mkHeader magic opcode (be_num (slice 6 8 src)) (be_num (slice 8 12 src))
                                    (be_num (slice 12 16 src)), skipN HEADER_SIZE src))
         end.

(** [to_string] of an error *)
Definition error_text (e : HNSQRError) : string :=
  match e with
  | DimensionMismatch x a => "Vector dimension mismatch: expected " +:+ pretty x +:+ ", got " +:+ pretty a
  | NodeNotFound s => "Node not found: " +:+ s
  | NodeIndexNotFound i => "Node index out of bounds: " +:+ pretty i
  | NodeAlreadyExists s => "Node already exists: " +:+ s
  | IndexFull c => "Index is full: current capacity " +:+ pretty c
  | SearchError s => "Search error: " +:+ s
  | ConcurrencyError s => "Concurrency error: " +:+ s
  | InvalidConfig s => "Invalid configuration: " +:+ s
  | InvalidRequest s => "Invalid request: " +:+ s
  | SerializationError s => "Serialization error: " +:+ s
  | IoError s => "I/O error: " +:+ s
  | SnapshotIncompatible s => "Snapshot incompatible: " +:+ s
  | CorruptedSnapshot s => "Corrupted snapshot/log: " +:+ s
  | Internal s => "Internal error: " +:+ s
  | StaleEpoch s => "Stale topology epoch: " +:+ s
  | Unauthorized s => "Unauthorized: " +:+ s
  | UnsupportedFeature s => "Unsupported feature: " +:+ s
  | CertifiedDeadlineExceeded el b f r =>
      "Certified search deadline exceeded: elapsed " +:+ pretty el +:+ "µs > budget " +:+ pretty b +:+ "µs (" +:+
      pretty f +:+ " frontier nodes remaining, prune ratio " +:+ pretty r +:+ "/1000000)"
  end%string.

(** ** Vectors and results *)

(** Real and imaginary parts, as 32-bit patterns *)
Abbreviation Vector := (list (N * N)).
Definition encode_vector (v : Vector) : list byte := v ≫= λ '(re, im), le_bytes 4 re ++ le_bytes 4 im.
Fixpoint decode_vector (dim : nat) (p : list byte) : Vector :=
  match dim with
  | O => []
  | S dim => (le_num (take 4 p), le_num (slice 4 8 p)) :: decode_vector dim (drop 8 p)
  end.

Abbreviation Hits := (list (list byte * N)).
Record Qir0SearchResponse := mkResponse { sr_results : Hits; is_certified : bool; proof_upper_bound : option N }.

(** What a mutation returns; the identifiers are the bytes of their text. *)
Record MutationReceipt := mkReceipt {
  mr_id : list byte; mr_shard_id : N; mr_mutation_id : list byte; mr_term : N; mr_log_index : N;
  mr_applied_index : N; mr_applied_generation : N; mr_topology_epoch : N; mr_durability : DurabilityLevel
}.

(** What the server asks of [HNSQRService]; the first argument is the request
    identifier of the context. *)
Class Service (S : Type) := {
  svc_upsert : N → list byte → Vector → S → HNSQRResult MutationReceipt * S;
  svc_search_with_proof : N → Vector → N → S → HNSQRResult Qir0SearchResponse;
  svc_search : N → Vector → N → S → HNSQRResult Hits;
  svc_graph_query : N → list byte → S → HNSQRResult (list byte)
}.

Definition put_hit (h : list byte * N) : list byte := be_bytes 2 (lenN h.1) ++ h.1 ++ be_bytes 4 h.2.
Definition put_hits (hs : Hits) : list byte := hs ≫= put_hit.

(** A message: its header, with the length of the payload cut to 32 bits, and the
    payload *)
Definition message (opcode : OpCode) (flags request_id : N) (payload : list byte) : list byte :=
  qir0_encode (mkHeader PROTOCOL_MAGIC opcode flags request_id (lenN payload)) ++ payload.
Definition write_error (request_id : N) (msg : string) : list byte := message OpError 0 request_id (bytes_of msg).

Definition cert_flags (r : Qir0SearchResponse) : N :=
  N.lor (N.b2n (is_certified r)) (N.shiftl (N.b2n (bool_decide (is_Some (proof_upper_bound r)))) 1).
Definition search_payload (r : Qir0SearchResponse) : list byte :=
  be_bytes 4 (lenN (sr_results r)) ++ match proof_upper_bound r with Some b => be_bytes 4 b | None => [] end ++
  put_hits (sr_results r).
Definition batch_payload (rs : list Hits) : list byte :=
  be_bytes 4 (lenN rs) ++ (rs ≫= λ hs, be_bytes 4 (lenN hs) ++ put_hits hs).

(** ** The server *)

(** What handling a message leads to: bytes to write, a panic ([get_u16] and its
    kin on too few bytes), or a copy that reads past the payload. *)
Inductive Outcome (S : Type) := Replied (out : list byte) (s : S) | Panicked | OutOfBounds.
Arguments Replied {S} _ _.
Arguments Panicked {S}.
Arguments OutOfBounds {S}.

Section server.
Context {S : Type} `{!Service S}.

Definition handle_insert (rid : N) (payload : list byte) (s : S) : Outcome S :=
  if (lenN payload <? 2)%N then Panicked
  else
    let id_len := be_num (take 2 payload) in
    let p := drop 2 payload in
    if (lenN p <? id_len + 4)%N then Replied (write_error rid "Malformed insert payload") s
    else
      let id := truncateN id_len p in
      let p := skipN id_len p in
      if negb (utf8_valid id) then Replied (write_error rid "Invalid UTF-8 ID") s
      else
        let dim := be_num (take 4 p) in
        let p := drop 4 p in
        if (lenN p <? dim * 8)%N then Replied (write_error rid "Truncated vector payload") s
        else
          let '(r, s) := svc_upsert rid id (decode_vector (N.to_nat dim) p) s in
          match r with
          | Ok _receipt => Replied (message OpInsert 0 rid (be_bytes 4 0)) s
          | Err e => Replied (write_error rid (error_text e)) s
          end.

Definition handle_search (rid : N) (payload : list byte) (s : S) : Outcome S :=
  if (lenN payload <? 8)%N then Replied (write_error rid "Malformed search payload") s
  else
    let k := be_num (take 4 payload) in
    let dim := be_num (slice 4 8 payload) in
    let p := drop 8 payload in
    if (lenN p <? dim * 8)%N then Replied (write_error rid "Truncated query payload") s
    else match svc_search_with_proof rid (decode_vector (N.to_nat dim) p) k s with
         | Ok r => Replied (message OpSearch (cert_flags r) rid (search_payload r)) s
         | Err e => Replied (write_error rid (error_text e)) s
         end.

(** The loop over the queries; [None] if a copy reads past the payload.  An offset
    past the end is a panic, but the copy before it has read past the end. *)
Fixpoint read_queries (count : nat) (dim : N) (p : list byte) : option (list Vector) :=
  match count with
  | O => Some []
  | Datatypes.S count =>
      if (lenN p <? dim * 8)%N then None
      else vs ← read_queries count dim (skipN (dim * 8) p); Some (decode_vector (N.to_nat dim) p :: vs)
  end.

(** Stops at the first error. *)
Fixpoint search_all (rid : N) (qs : list Vector) (k : N) (s : S) : HNSQRResult (list Hits) :=
  match qs with
  | [] => Ok []
  | q :: qs =>
      match svc_search rid q k s with
      | Err e => Err e
      | Ok hs => match search_all rid qs k s with Ok rs => Ok (hs :: rs) | Err e => Err e end
      end
  end.

(** The product of count and size wraps. *)
Definition handle_batch (rid : N) (payload : list byte) (s : S) : Outcome S :=
  if (lenN payload <? 12)%N then Replied (write_error rid "Malformed batch search payload") s
  else
    let k := be_num (take 4 payload) in
    let count := be_num (slice 4 8 payload) in
    let dim := be_num (slice 8 12 payload) in
    let p := drop 12 payload in
    if (lenN p <? u64_wrapping_mul count (dim * 8))%N
    then Replied (write_error rid "Truncated batch search vectors") s
    else match read_queries (N.to_nat count) dim p with
         | None => OutOfBounds
         | Some qs =>
             match search_all rid qs k s with
             | Ok rs => Replied (message OpBatchSearch 0 rid (batch_payload rs)) s
             | Err e => Replied (write_error rid (error_text e)) s
             end
         end.

Definition handle_graph_query (rid : N) (payload : list byte) (s : S) : Outcome S :=
  if (lenN payload <? 4)%N then Panicked
  else
    let q_len := be_num (take 4 payload) in
    let p := drop 4 payload in
    if (lenN p <? q_len)%N then Replied (write_error rid "Truncated graph query payload") s
    else
      let q := truncateN q_len p in
      match svc_graph_query rid (if utf8_valid q then q else []) s with
      | Ok json => Replied (message OpGraphQuery 0 rid json) s
      | Err e => Replied (write_error rid (error_text e)) s
      end.

Definition stats_json : list byte :=
  let q := [Byte.x22] in
  [Byte.x7b] ++ q ++ bytes_of "status" ++ q ++ bytes_of ":" ++ q ++ bytes_of "ready" ++ q ++ bytes_of "," ++
  q ++ bytes_of "engine" ++ q ++ bytes_of ":" ++ q ++ bytes_of "hnsqr" ++ q ++ [Byte.x7d].

Definition handle_message (h : MessageHeader) (payload : list byte) (s : S) : Outcome S :=
  let rid := mh_request_id h in
  match mh_opcode h with
  | OpPing => Replied (message OpPing 0 rid (bytes_of "PONG")) s
  | OpInsert => handle_insert rid payload s
  | OpSearch => handle_search rid payload s
  | OpBatchSearch => handle_batch rid payload s
  | OpStats => Replied (message OpStats 0 rid stats_json) s
  | OpGraphQuery => handle_graph_query rid payload s
  | OpError => Replied (write_error rid "Unsupported opcode") s
  end.

(** [while read_buf.len() < need { read_buf(..) }]; [None] at the end of the
    stream *)
Fixpoint fill (need : N) (chunks : list (list byte)) (buf : list byte) : option (list byte * list (list byte)) :=
  if (need <=? lenN buf)%N then Some (buf, chunks)
  else match chunks with
       | [] | [] :: _ => None
       | c :: chunks => fill need chunks (buf ++ c)
       end.

(** How a connection ends: closed by the peer, on an error of the protocol, on a
    panic, or with a read past the payload; with the bytes written *)
Inductive Session :=
  | Closed (out : list byte) (s : S)
  | Failed (e : HNSQRError) (out : list byte) (s : S)
  | Crashed (out : list byte)
  | Overran (out : list byte)
  | NoFuel.

(** Each round of the loop takes a header off the stream. *)
Fixpoint handle_client (fuel : nat) (chunks : list (list byte)) (buf out : list byte) (s : S) : Session :=
  match fuel with
  | O => NoFuel
  | Datatypes.S fuel =>
      match fill HEADER_SIZE chunks buf with
      | None => Closed out s
      | Some (buf, chunks) =>
          let payload_len := be_num (slice 12 16 buf) in
          match fill (HEADER_SIZE + payload_len) chunks buf with
          | None => Closed out s
          | Some (buf, chunks) =>
              match qir0_decode buf with
              | Err e => Failed e out s
              | Ok None => Crashed out
              | Ok (Some (h, rest)) =>
                  match handle_message h (truncateN (mh_payload_len h) rest) s with
                  | Replied w s => handle_client fuel chunks (skipN (mh_payload_len h) rest) (out ++ w) s
                  | Panicked => Crashed out
                  | OutOfBounds => Overran out
                  end
              end
          end
      end
  end.
End server.
Arguments Closed {S} _ _.
Arguments Failed {S} _ _ _.
Arguments Crashed {S} _.
Arguments Overran {S} _.
Arguments NoFuel {S}.

(** ** The client *)

Definition ping_request (rid : N) : list byte := message OpPing 0 rid (bytes_of "PING").
Definition insert_request (rid : N) (id : list byte) (v : Vector) : list byte :=
  message OpInsert 0 rid (be_bytes 2 (lenN id) ++ id ++ be_bytes 4 (lenN v) ++ encode_vector v).
Definition search_request (rid : N) (k : N) (v : Vector) : list byte :=
  message OpSearch 0 rid (be_bytes 4 k ++ be_bytes 4 (lenN v) ++ encode_vector v).

(** [read_exact]: the bytes and what follows *)
Definition read_exact (n : N) (stream : list byte) : HNSQRResult (list byte * list byte) :=
  if (lenN stream <? n)%N then Err (SerializationError "unexpected end of file")
  else Ok (truncateN n stream, skipN n stream).

(** The header and the payload of an answer, and what follows *)
Definition read_answer (stream : list byte) : option (HNSQRResult (MessageHeader * list byte * list byte)) :=
  match read_exact HEADER_SIZE stream with
  | Err e => Some (Err e)
  | Ok (hdr, stream) =>
      match qir0_decode hdr with
      | Err e => Some (Err e)
      | Ok None => None
      | Ok (Some (h, _)) =>
          match read_exact (mh_payload_len h) stream with
          | Err e => Some (Err e)
          | Ok (payload, stream) => Some (Ok (h, payload, stream))
          end
      end
  end.

(** [None] is a panic. *)
Definition client_ping (stream : list byte) : option (HNSQRResult bool) :=
  r ← read_answer stream;
  Some match r with Ok (_, payload, _) => Ok (bool_decide (payload = bytes_of "PONG")) | Err e => Err e end.

(** The answer to an insertion is four bytes, whatever the header says, unless it is
    an error. *)
Definition client_insert (stream : list byte) : option (HNSQRResult N) :=
  match read_exact HEADER_SIZE stream with
  | Err e => Some (Err e)
  | Ok (hdr, stream) =>
      match qir0_decode hdr with
      | Err e => Some (Err e)
      | Ok None => None
      | Ok (Some (h, _)) =>
          match mh_opcode h with
          | OpError =>
              match read_exact (mh_payload_len h) stream with
              | Err e => Some (Err e)
              | Ok (msg, _) => Some (Err (SearchError (String.string_of_list_byte (utf8_lossy msg))))
              end
          | _ => match read_exact 4 stream with Err e => Some (Err e) | Ok (n, _) => Some (Ok (be_num n)) end
          end
      end
  end.

Fixpoint read_hits (count : nat) (p : list byte) : option Hits :=
  match count with
  | O => Some []
  | Datatypes.S count =>
      if (lenN p <? 2)%N then None
      else
        let id_len := be_num (take 2 p) in
        let p := drop 2 p in
        if (lenN p <? id_len)%N then None
        else
          let id := truncateN id_len p in
          let p := skipN id_len p in
          if (lenN p <? 4)%N then None
          else hs ← read_hits count (drop 4 p); Some ((utf8_lossy id, be_num (take 4 p)) :: hs)
  end.

(** [search_with_proof]; the opcode of the answer is not looked at. *)
Definition client_search (stream : list byte) : option (HNSQRResult Qir0SearchResponse) :=
  r ← read_answer stream;
  match r with
  | Err e => Some (Err e)
  | Ok (h, payload, _) =>
      if (lenN payload <? 4)%N then None
      else
        let count := be_num (take 4 payload) in
        let p := drop 4 payload in
        let certified := N.testbit (mh_flags h) 0 in
        if N.testbit (mh_flags h) 1 then
          if (lenN p <? 4)%N
          then Some (Err (SerializationError "QIR0 search response declares a proof bound but omits it"))
          else hs ← read_hits (N.to_nat count) (drop 4 p); Some (Ok (mkResponse hs certified (Some (be_num (take 4 p)))))
        else hs ← read_hits (N.to_nat count) p; Some (Ok (mkResponse hs certified None))
  end.

(** ** Round trips *)

Lemma slice_mid {A} (a b c : list A) i j : length a = i → length b = (j - i)%nat → slice i j (a ++ b ++ c) = b.
Proof. intros <- Hb. unfold slice. by rewrite drop_app_length, <- Hb, take_app_length. Qed.

Definition qir0_header_ok (h : MessageHeader) : Prop :=
  mh_magic h = PROTOCOL_MAGIC ∧ (mh_flags h < 65536)%N ∧ (mh_request_id h < u32_modulus)%N ∧ (mh_payload_len h < u32_modulus)%N.

Lemma opcode_round_trip o : opcode_try_from (opcode_num o) = Ok o.
Proof. by destruct o. Qed.

Lemma be_num_small n x k : k = (256 ^ N.of_nat n)%N → (x < k)%N → be_num (be_bytes n x) = x.
Proof. intros -> Hx. rewrite be_num_be_bytes. by apply N.mod_small. Qed.

Lemma length_header h : length (qir0_encode h) = 16%nat.
Proof. unfold qir0_encode. by rewrite !length_app, !length_be_bytes. Qed.

Lemma header_fields h rest :
  let src := qir0_encode h ++ rest in
  slice 0 4 src = be_bytes 4 (mh_magic h) ∧ slice 4 6 src = be_bytes 2 (opcode_num (mh_opcode h)) ∧
  slice 6 8 src = be_bytes 2 (mh_flags h) ∧ slice 8 12 src = be_bytes 4 (mh_request_id h) ∧
  slice 12 16 src = be_bytes 4 (mh_payload_len h).
Proof.
  unfold qir0_encode. cbv zeta. rewrite <- !app_assoc.
  set (m := be_bytes 4 (mh_magic h)). set (o := be_bytes 2 (opcode_num _)). set (f := be_bytes 2 (mh_flags h)).
  set (i := be_bytes 4 (mh_request_id h)). set (l := be_bytes 4 (mh_payload_len h)).
  assert (length m = 4 ∧ length o = 2 ∧ length f = 2 ∧ length i = 4 ∧ length l = 4)%nat as (Hm & Ho & Hf & Hi & Hl)
    by (split_and!; apply length_be_bytes).
  split_and!.
  - by apply (slice_mid []).
  - by apply slice_mid.
  - rewrite (app_assoc m). apply slice_mid; [rewrite length_app; lia|lia].
  - rewrite (app_assoc m), (app_assoc (m ++ o)). apply slice_mid; [rewrite !length_app; lia|lia].
  - rewrite (app_assoc m), (app_assoc (m ++ o)), (app_assoc ((m ++ o) ++ f)). apply slice_mid; [rewrite !length_app; lia|lia].
Qed.

Lemma header_round_trip h rest : qir0_header_ok h → qir0_decode (qir0_encode h ++ rest) = Ok (Some (h, rest)).
Proof.
  intros (Hm & Hf & Hr & Hp). unfold qir0_decode. destruct (header_fields h rest) as (-> & -> & -> & -> & ->).
  rewrite (be_num_small 4 _ u32_modulus), Hm by (reflexivity || by rewrite Hm).
  rewrite (be_num_small 2 (opcode_num _) 65536) by (reflexivity || by destruct (mh_opcode h)).
  rewrite opcode_round_trip, (be_num_small 2 _ 65536), !(be_num_small 4 _ u32_modulus) by done.
  assert (((lenN (qir0_encode h ++ rest) <? HEADER_SIZE) = false)%N) as ->.
  { apply N.ltb_ge. unfold lenN, HEADER_SIZE. rewrite length_app, length_header. lia. }
  assert (skipN HEADER_SIZE (qir0_encode h ++ rest) = rest) as ->.
  { unfold skipN. change (N.to_nat HEADER_SIZE) with 16%nat. rewrite <- (length_header h). apply drop_app_length. }
  rewrite N.eqb_refl. cbn [negb]. rewrite <- Hm. by destruct h.
Qed.

Lemma ltb_len_app {A} (a b : list A) n : (n ≤ lenN a)%N → (lenN (a ++ b) <? n)%N = false.
Proof. intros Hn. apply N.ltb_ge. rewrite lenN_app. lia. Qed.
Lemma lenN_be_bytes n x : lenN (be_bytes n x) = N.of_nat n.
Proof. unfold lenN. by rewrite length_be_bytes. Qed.
Lemma take_be n x (l : list byte) : take n (be_bytes n x ++ l) = be_bytes n x.
Proof. rewrite <- (length_be_bytes n x) at 1. apply take_app_length. Qed.
Lemma drop_be n x (l : list byte) : drop n (be_bytes n x ++ l) = l.
Proof. rewrite <- (length_be_bytes n x) at 1. apply drop_app_length. Qed.

Lemma slice_app_l {A} (a b : list A) i j : (j ≤ length a)%nat → slice i j (a ++ b) = slice i j a.
Proof.
  intros Hj. unfold slice. destruct (decide (i ≤ j)%nat); [|by replace (j - i)%nat with 0%nat by lia].
  rewrite drop_app_le by lia. rewrite take_app_le; [done|]. rewrite length_drop. lia.
Qed.
Lemma app_longer {A} (a b c d : list A) : a ++ b = c ++ d → (length c ≤ length a)%nat → ∃ q, a = c ++ q ∧ d = q ++ b.
Proof.
  intros He Hl. exists (drop (length c) a). split.
  - rewrite <- (take_drop (length c) a) at 1. f_equal.
    rewrite <- (take_app_le a b), He by done. apply take_app_length.
  - rewrite <- (drop_app_le a b), He by done. by rewrite drop_app_length.
Qed.

(** *** Vectors *)

Definition word_pairs (v : Vector) : Prop := Forall (λ c, (c.1 < u32_modulus)%N ∧ (c.2 < u32_modulus)%N) v.

Lemma lenN_encode_vector v : lenN (encode_vector v) = (lenN v * 8)%N.
Proof.
  unfold encode_vector. induction v as [|[re im] v IH]; [done|]. rewrite bind_cons, !lenN_app, IH. unfold lenN.
  rewrite !length_le_bytes. cbn [length]. lia.
Qed.

Lemma vector_round_trip v rest : word_pairs v → decode_vector (N.to_nat (lenN v)) (encode_vector v ++ rest) = v.
Proof.
  unfold lenN. rewrite Nat2N.id. induction 1 as [|[re im] v [Hre Him] _ IH]; [done|]. cbn [fst snd] in *.
  unfold encode_vector in *. rewrite bind_cons, <- !app_assoc. cbn [length decode_vector]. f_equal.
  - assert (∀ x l, take 4 (le_bytes 4 x ++ l) = le_bytes 4 x) as Ht.
    { intros x l. rewrite <- (length_le_bytes 4 x) at 1. apply take_app_length. }
    rewrite Ht, slice_mid by (by rewrite length_le_bytes). by rewrite !(le_num_le_bytes_small 4).
  - rewrite app_assoc, drop_app_le by (by rewrite length_app, !length_le_bytes).
    rewrite drop_ge by (by rewrite length_app, !length_le_bytes). apply IH.
Qed.

(** *** Results *)

Definition hit_ok (h : list byte * N) : Prop := utf8_valid h.1 = true ∧ (lenN h.1 < 65536)%N ∧ (h.2 < u32_modulus)%N.

Lemma hits_round_trip hs rest : Forall hit_ok hs → read_hits (N.to_nat (lenN hs)) (put_hits hs ++ rest) = Some hs.
Proof.
  unfold lenN at 1. rewrite Nat2N.id. unfold put_hits. induction 1 as [|[id x] hs (Hu & Hl & Hx) _ IH]; [done|]. cbn [fst snd] in *.
  rewrite bind_cons. unfold put_hit at 1. cbn [fst snd]. rewrite <- !app_assoc. cbn [length read_hits].
  rewrite ltb_len_app by (by rewrite lenN_be_bytes). rewrite take_be, drop_be, (be_num_small 2 _ 65536) by done.
  rewrite ltb_len_app, truncateN_app, skipN_app by done. rewrite ltb_len_app by (by rewrite lenN_be_bytes).
  rewrite take_be, drop_be, IH. cbn [mbind option_bind]. by rewrite utf8_lossy_valid, (be_num_small 4 _ u32_modulus).
Qed.

(** ** Sessions *)

Inductive Request :=
  | R_Ping (rid : N)
  | R_Insert (rid : N) (id : list byte) (v : Vector)
  | R_Search (rid : N) (k : N) (v : Vector).
Definition encode_request (r : Request) : list byte :=
  match r with
  | R_Ping rid => ping_request rid
  | R_Insert rid id v => insert_request rid id v
  | R_Search rid k v => search_request rid k v
  end.
(** The numbers fit their fields. *)
Definition request_ok (r : Request) : Prop :=
  match r with
  | R_Ping rid => (rid < u32_modulus)%N
  | R_Insert rid id v => (rid < u32_modulus)%N ∧ utf8_valid id = true ∧ (lenN id < 65536)%N ∧ word_pairs v ∧
      (6 + lenN id + lenN v * 8 < u32_modulus)%N
  | R_Search rid k v => (rid < u32_modulus)%N ∧ (k < u32_modulus)%N ∧ word_pairs v ∧ (8 + lenN v * 8 < u32_modulus)%N
  end.

Section session.
Context {S : Type} `{!Service S}.
Implicit Types (s : S) (chunks : list (list byte)).

(** What the service is asked, and the bytes of the answer *)
Definition answer_request (r : Request) (s : S) : list byte * S :=
  match r with
  | R_Ping rid => (message OpPing 0 rid (bytes_of "PONG"), s)
  | R_Insert rid id v =>
      let '(res, s) := svc_upsert rid id v s in
      (match res with Ok _ => message OpInsert 0 rid (be_bytes 4 0) | Err e => write_error rid (error_text e) end, s)
  | R_Search rid k v =>
      (match svc_search_with_proof rid v k s with
       | Ok res => message OpSearch (cert_flags res) rid (search_payload res)
       | Err e => write_error rid (error_text e)
       end, s)
  end.
Fixpoint answers (rs : list Request) (s : S) : list byte * S :=
  match rs with
  | [] => ([], s)
  | r :: rs => let '(out, s) := answer_request r s in let '(outs, s) := answers rs s in (out ++ outs, s)
  end.

Lemma message_header op fl rid p : message op fl rid p = qir0_encode (mkHeader PROTOCOL_MAGIC op fl rid (lenN p)) ++ p.
Proof. done. Qed.

Definition request_parts (r : Request) : OpCode * N * list byte :=
  match r with
  | R_Ping rid => (OpPing, rid, bytes_of "PING")
  | R_Insert rid id v => (OpInsert, rid, be_bytes 2 (lenN id) ++ id ++ be_bytes 4 (lenN v) ++ encode_vector v)
  | R_Search rid k v => (OpSearch, rid, be_bytes 4 k ++ be_bytes 4 (lenN v) ++ encode_vector v)
  end.
Lemma encode_request_parts r :
  encode_request r = message (request_parts r).1.1 0 (request_parts r).1.2 (request_parts r).2.
Proof. by destruct r. Qed.

Lemma request_parts_ok r : request_ok r →
  ((request_parts r).1.2 < u32_modulus)%N ∧ (lenN (request_parts r).2 < u32_modulus)%N.
Proof.
  destruct r as [rid|rid id v|rid k v]; cbn [request_ok request_parts fst snd]; intros H; [by split| |]; (split; [by apply H|]);
    rewrite !lenN_app, lenN_encode_vector, !lenN_be_bytes; unfold u32_modulus in *; lia.
Qed.

Lemma handle_request r s len : request_ok r →
  handle_message (mkHeader PROTOCOL_MAGIC (request_parts r).1.1 0 (request_parts r).1.2 len) (request_parts r).2 s =
    Replied (answer_request r s).1 (answer_request r s).2.
Proof.
  destruct r as [rid|rid id v|rid k v]; cbn [request_ok request_parts fst snd handle_message mh_opcode mh_request_id answer_request].
  - done.
  - intros (Hr & Hu & Hid & Hv & Hlen). unfold handle_insert.
    rewrite ltb_len_app by (by rewrite lenN_be_bytes). rewrite take_be, drop_be, (be_num_small 2 _ 65536) by done.
    rewrite (app_assoc id), ltb_len_app, <- app_assoc by (rewrite lenN_app, lenN_be_bytes; lia).
    rewrite truncateN_app, skipN_app, Hu by done. cbn [negb]. rewrite take_be, drop_be.
    rewrite (be_num_small 4 _ u32_modulus) by (done || unfold u32_modulus in *; lia).
    assert (((lenN (encode_vector v) <? lenN v * 8) = false)%N) as -> by (apply N.ltb_ge; rewrite lenN_encode_vector; lia).
    rewrite <- (app_nil_r (encode_vector v)), vector_round_trip by done.
    destruct (svc_upsert rid id v s) as [[]]; done.
  - intros (Hr & Hk & Hv & Hlen). unfold handle_search.
    rewrite (app_assoc (be_bytes 4 k)), ltb_len_app, <- app_assoc by (rewrite lenN_app, !lenN_be_bytes; done).
    rewrite take_be, (be_num_small 4 k u32_modulus) by done.
    rewrite slice_mid by (by rewrite length_be_bytes). rewrite (be_num_small 4 _ u32_modulus) by (done || unfold u32_modulus in *; lia).
    assert (drop 8 (be_bytes 4 k ++ be_bytes 4 (lenN v) ++ encode_vector v) = encode_vector v) as ->.
    { rewrite app_assoc, drop_app_le by (by rewrite length_app, !length_be_bytes).
      by rewrite drop_ge by (by rewrite length_app, !length_be_bytes). }
    assert (((lenN (encode_vector v) <? lenN v * 8) = false)%N) as -> by (apply N.ltb_ge; rewrite lenN_encode_vector; lia).
    rewrite <- (app_nil_r (encode_vector v)), vector_round_trip by done.
    by destruct (svc_search_with_proof rid v k s).
Qed.

(** However the stream is cut, [fill] gathers what is there. *)
Definition cut chunks : Prop := Forall (λ c, c ≠ []) chunks.

Lemma fill_enough need chunks : ∀ buf, cut chunks → (need ≤ lenN (buf ++ concat chunks))%N →
  ∃ buf' chunks', fill need chunks buf = Some (buf', chunks') ∧ cut chunks' ∧ (need ≤ lenN buf')%N ∧
    buf' ++ concat chunks' = buf ++ concat chunks.
Proof.
  induction chunks as [|c chunks IH]; intros buf Hc Hn; cbn [fill].
  - cbn in Hn. rewrite app_nil_r in Hn. rewrite (proj2 (N.leb_le _ _) Hn). exists buf, []. done.
  - destruct (need <=? lenN buf)%N eqn:E; [apply N.leb_le in E; by exists buf, (c :: chunks)|].
    apply Forall_cons in Hc as [Hne Hc]. destruct c as [|b c]; [done|].
    destruct (IH (buf ++ b :: c) Hc) as (buf' & chunks' & -> & Hc' & Hn' & He).
    { cbn [concat] in Hn. by rewrite <- app_assoc. }
    exists buf', chunks'. split_and!; try done. rewrite He. cbn [concat]. by rewrite <- app_assoc.
Qed.

Lemma fill_short need chunks : ∀ buf, (lenN (buf ++ concat chunks) < need)%N → fill need chunks buf = None.
Proof.
  induction chunks as [|c chunks IH]; intros buf Hn; cbn [fill].
  - cbn in Hn. rewrite app_nil_r in Hn. by rewrite (proj2 (N.leb_gt _ _) Hn).
  - assert (((need <=? lenN buf) = false)%N) as -> by (apply N.leb_gt; rewrite lenN_app in Hn; lia).
    destruct c as [|b c]; [done|]. apply IH. cbn [concat] in Hn. by rewrite <- app_assoc.
Qed.

(** The bytes of the requests, in any pieces and with a cut header at the end, are
    answered one by one. *)
Lemma session_answers rs : ∀ fuel chunks buf tail out s,
  Forall request_ok rs → cut chunks → (lenN tail < HEADER_SIZE)%N → (length rs < fuel)%nat →
  buf ++ concat chunks = (rs ≫= encode_request) ++ tail →
  handle_client fuel chunks buf out s = Closed (out ++ (answers rs s).1) (answers rs s).2.
Proof.
  induction rs as [|r rs IH]; intros [|fuel] chunks buf tail out s Hrs Hcut Htail Hfuel Hbytes; cbn [length] in Hfuel; try lia;
    cbn [handle_client].
  { rewrite fill_short by (rewrite Hbytes; exact Htail). cbn. by rewrite app_nil_r. }
  apply Forall_cons in Hrs as [Hr Hrs]. rewrite bind_cons, encode_request_parts, message_header in Hbytes.
  destruct (request_parts_ok r Hr) as [Hrid Hlen]. set (h := mkHeader _ _ _ _ _) in Hbytes.
  set (p := (request_parts r).2) in *. assert (lenN (qir0_encode h) = 16)%N as Hh by (unfold lenN; by rewrite length_header).
  destruct (fill_enough HEADER_SIZE chunks buf Hcut) as (buf1 & chunks1 & -> & Hcut1 & Hn1 & He1).
  { rewrite Hbytes, <- !app_assoc, lenN_app, Hh. unfold HEADER_SIZE. lia. }
  rewrite Hbytes, <- !app_assoc in He1.
  assert (be_num (slice 12 16 buf1) = lenN p) as ->.
  { rewrite <- (slice_app_l buf1 (concat chunks1)) by (unfold HEADER_SIZE, lenN in Hn1; lia). rewrite He1.
    destruct (header_fields h (p ++ (rs ≫= encode_request) ++ tail)) as (_ & _ & _ & _ & ->).
    by apply (be_num_small 4 _ u32_modulus). }
  destruct (fill_enough (HEADER_SIZE + lenN p) chunks1 buf1 Hcut1) as (buf2 & chunks2 & -> & Hcut2 & Hn2 & He2).
  { rewrite He1, !lenN_app, Hh. unfold HEADER_SIZE. lia. }
  rewrite He1, (app_assoc (qir0_encode h)) in He2.
  destruct (app_longer _ _ _ _ He2) as (q & -> & Hrest).
  { unfold HEADER_SIZE, lenN in Hn2. rewrite length_app, length_header. lia. }
  rewrite <- app_assoc, header_round_trip by done. cbn [mh_payload_len]. rewrite truncateN_app, skipN_app by done.
  pose proof (handle_request r s (lenN p) Hr) as Hm. fold h p in Hm. rewrite Hm.
  rewrite (IH fuel chunks2 q tail) by (done || lia). cbn [answers].
  destruct (answer_request r s) as [w s']. cbn [fst snd]. destruct (answers rs s') as [ws s'']. cbn [fst snd]. by rewrite <- app_assoc.
Qed.
End session.

(** ** The client reads the answers *)

Section client.
Context {S : Type} `{!Service S}.

Lemma read_exact_app (a b : list byte) n : n = lenN a → read_exact n (a ++ b) = Ok (a, b).
Proof.
  intros ->. unfold read_exact. rewrite ltb_len_app by done. by rewrite truncateN_app, skipN_app.
Qed.

Definition message_ok (flags rid : N) (p : list byte) : Prop :=
  (flags < 65536)%N ∧ (rid < u32_modulus)%N ∧ (lenN p < u32_modulus)%N.

Lemma read_answer_message op fl rid p rest : message_ok fl rid p →
  read_answer (message op fl rid p ++ rest) = Some (Ok (mkHeader PROTOCOL_MAGIC op fl rid (lenN p), p, rest)).
Proof.
  intros (Hf & Hr & Hp). unfold read_answer. rewrite message_header, <- app_assoc.
  rewrite read_exact_app by (unfold lenN; by rewrite length_header).
  rewrite <- (app_nil_r (qir0_encode _)), header_round_trip by done. by rewrite read_exact_app.
Qed.

(** Results the format can carry *)
Definition response_ok (r : Qir0SearchResponse) : Prop :=
  Forall hit_ok (sr_results r) ∧ (lenN (sr_results r) < u32_modulus)%N ∧ (lenN (search_payload r) < u32_modulus)%N ∧
  match proof_upper_bound r with Some b => (b < u32_modulus)%N | None => True end.

Lemma cert_flags_spec r : (cert_flags r < 4)%N ∧ N.testbit (cert_flags r) 0 = is_certified r ∧
  N.testbit (cert_flags r) 1 = bool_decide (is_Some (proof_upper_bound r)).
Proof.
  destruct r as [hs c b]. unfold cert_flags. cbn [is_certified proof_upper_bound].
  destruct (bool_decide _), c; by vm_compute.
Qed.

Lemma client_search_reads rid r rest : (rid < u32_modulus)%N → response_ok r →
  client_search (message OpSearch (cert_flags r) rid (search_payload r) ++ rest) = Some (Ok r).
Proof.
  intros Hrid (Hhits & Hcount & Hlen & Hb). destruct (cert_flags_spec r) as (Hlt & H0 & H1).
  unfold client_search. rewrite read_answer_message by (split_and!; [lia|done|done]). cbn [mbind option_bind mh_flags].
  rewrite H0, H1. unfold search_payload. rewrite ltb_len_app by (by rewrite lenN_be_bytes).
  rewrite take_be, drop_be, (be_num_small 4 _ u32_modulus) by done.
  destruct r as [hs c [b|]]; cbn [sr_results is_certified proof_upper_bound] in *.
  - rewrite bool_decide_true by done. rewrite ltb_len_app by (by rewrite lenN_be_bytes). rewrite take_be, drop_be.
    rewrite <- (app_nil_r (put_hits hs)), hits_round_trip by done. cbn [mbind option_bind].
    by rewrite (be_num_small 4 _ u32_modulus).
  - rewrite bool_decide_false by (by intros []). cbn [app].
    rewrite <- (app_nil_r (put_hits hs)), hits_round_trip by done. done.
Qed.

Lemma client_insert_reads rid (res : HNSQRResult MutationReceipt) rest : (rid < u32_modulus)%N →
  match res with Ok _ => True | Err e => (lenN (bytes_of (error_text e)) < u32_modulus)%N end →
  client_insert (match res with Ok _ => message OpInsert 0 rid (be_bytes 4 0) | Err e => write_error rid (error_text e) end ++ rest) =
    Some (match res with
          | Ok _ => Ok 0%N
          | Err e => Err (SearchError (String.string_of_list_byte (utf8_lossy (bytes_of (error_text e)))))
          end).
Proof.
  intros Hr Hlen. unfold client_insert, write_error. destruct res as [u|e]; rewrite message_header, <- app_assoc;
    rewrite read_exact_app by (unfold lenN; by rewrite length_header);
    rewrite <- (app_nil_r (qir0_encode _)), header_round_trip by done; cbn [mh_opcode mh_payload_len];
    by rewrite read_exact_app.
Qed.

Lemma client_ping_reads rid rest : (rid < u32_modulus)%N →
  client_ping (message OpPing 0 rid (bytes_of "PONG") ++ rest) = Some (Ok true).
Proof. intros Hr. unfold client_ping. by rewrite read_answer_message. Qed.

(** C35: A QIR0 session: whatever pieces the stream arrives in, a connection
    that receives pings, insertions and searches encoded by the client, and at
    the end less than a header, is closed after exactly the answers of the
    service, in order, with the state the service reached; and the client
    decodes the answer to a ping as a pong, the answer to an insertion as a
    success when the service succeeded (its receipt does not travel) and else as
    the text of its error, and the answer to a successful search into the result
    the service returned. *)
Theorem qir0_session rs fuel chunks tail s :
  Forall request_ok rs → Forall (λ c, c ≠ []) chunks → (lenN tail < HEADER_SIZE)%N → (length rs < fuel)%nat →
  concat chunks = (rs ≫= encode_request) ++ tail →
  handle_client fuel chunks [] [] s = Closed (answers rs s).1 (answers rs s).2 ∧
  ∀ r s' rest, r ∈ rs →
    match r with
    | R_Ping _ => client_ping ((answer_request r s').1 ++ rest) = Some (Ok true)
    | R_Insert rid id v =>
        ∀ res, (svc_upsert rid id v s').1 = res →
          match res with Ok _ => True | Err e => (lenN (bytes_of (error_text e)) < u32_modulus)%N end →
          ∃ answer, client_insert ((answer_request r s').1 ++ rest) = Some answer ∧
            match res with
            | Ok _ => ∃ index, answer = Ok index
            | Err e => answer = Err (SearchError (String.string_of_list_byte (utf8_lossy (bytes_of (error_text e)))))
            end
    | R_Search rid k v =>
        ∀ res, svc_search_with_proof rid v k s' = Ok res → response_ok res →
          client_search ((answer_request r s').1 ++ rest) = Some (Ok res)
    end.
Proof.
  intros Hrs Hc Ht Hf Hb. split; [by apply (session_answers rs fuel chunks [] tail [])|].
  intros r s' rest Hin. rewrite Forall_forall in Hrs. specialize (Hrs r Hin).
  destruct r as [rid|rid id v|rid k v]; cbn [answer_request].
  - by apply client_ping_reads.
  - intros res Hres Hlen. destruct (svc_upsert rid id v s') as [res' s1]. cbn in Hres. subst res'.
    eexists. split; [apply client_insert_reads; [apply Hrs|done]|]. destruct res; eauto.
  - intros res -> Hok. apply client_search_reads; [apply Hrs|done].
Qed.

(** The check of a batch compares with a product that wraps: when it wraps to less
    than the payload, the first copy reads past the payload. *)
Lemma batch_reads_past rid payload s :
  (12 ≤ lenN payload)%N → (0 < be_num (slice 4 8 payload))%N →
  (u64_wrapping_mul (be_num (slice 4 8 payload)) (be_num (slice 8 12 payload) * 8) ≤ lenN (drop 12 payload))%N →
  (lenN (drop 12 payload) < be_num (slice 8 12 payload) * 8)%N →
  handle_batch rid payload s = OutOfBounds (S := S).
Proof.
  intros Hl Hc Hw Hd. unfold handle_batch. rewrite (proj2 (N.ltb_ge _ _) Hl), (proj2 (N.ltb_ge _ _) Hw).
  destruct (N.to_nat (be_num (slice 4 8 payload))) as [|n] eqn:E; [lia|]. cbn [read_queries]. by rewrite (proj2 (N.ltb_lt _ _) Hd).
Qed.

(** A batch whose size does not wrap is read inside the payload. *)
Lemma batch_stays_inside rid payload s :
  (be_num (slice 4 8 payload) * (be_num (slice 8 12 payload) * 8) < u64_modulus)%N →
  handle_batch rid payload s ≠ OutOfBounds (S := S).
Proof.
  intros Hw. unfold handle_batch. destruct (lenN payload <? 12)%N; [done|].
  assert (u64_wrapping_mul (be_num (slice 4 8 payload)) (be_num (slice 8 12 payload) * 8) =
    be_num (slice 4 8 payload) * (be_num (slice 8 12 payload) * 8))%N as -> by (by apply N.mod_small).
  set (count := be_num (slice 4 8 payload)) in *. set (dim := be_num (slice 8 12 payload)) in *.
  destruct (lenN (drop 12 payload) <? _)%N eqn:E; [done|]. apply N.ltb_ge in E.
  assert (∀ n p, (N.of_nat n * (dim * 8) ≤ lenN p)%N → is_Some (read_queries n dim p)) as Hread.
  { induction n as [|n IH]; intros p Hp; cbn [read_queries]; [done|].
    rewrite (proj2 (N.ltb_ge _ _)) by nia. destruct (IH (skipN (dim * 8) p)) as [vs ->]; [|done].
    unfold skipN, lenN in *. rewrite length_drop. nia. }
  destruct (Hread (N.to_nat count) (drop 12 payload)) as [qs ->]; [by rewrite N2Nat.id|]. by destruct (search_all _ _ _ _).
Qed.
End client.

(** ** Samples *)

(** A service that keeps what it is given and returns the first few *)
#[local] Instance list_service : Service (list (list byte * Vector)) := {|
  svc_upsert _ id v s := if bool_decide (v = []) then (Err (InvalidRequest "empty"), s) else (Ok (mkReceipt id 0 [] 1 (lenN s) (lenN s) 0 0 QuorumReplicated), s ++ [(id, v)]);
  svc_search_with_proof _ v k s :=
    if bool_decide (v = []) then Err (SearchError "no entry point")
    else Ok (mkResponse ((λ e, (e.1, 1065353216%N)) <$> take (N.to_nat k) s) true (Some 7%N));
  svc_search _ _ k s := Ok ((λ e, (e.1, 0%N)) <$> take (N.to_nat k) s);
  svc_graph_query _ q _ := Ok q
|}.

Definition sample_requests : list Request :=
  [R_Ping 1; R_Insert 2 (bytes_of "doc") [(1, 2); (3, 4)]; R_Search 3 5 [(1, 2)]]%N.
(** The stream in pieces of seven bytes, with half a header at the end *)
Definition sample_tail : list byte := [x51; x49; x52; x30; x00].
Definition qir0_stream : list byte := (sample_requests ≫= encode_request) ++ sample_tail.
Fixpoint pieces (fuel : nat) (l : list byte) : list (list byte) :=
  match fuel, l with S fuel, _ :: _ => take 7 l :: pieces fuel (drop 7 l) | _, _ => [] end.

Lemma qir0_session_witness :
  Forall request_ok sample_requests ∧
  handle_client 4 (pieces 200 qir0_stream) [] [] [] = Closed (answers sample_requests []).1 (answers sample_requests []).2 ∧
  client_search ((answer_request (R_Search 3 5 [(1, 2)]%N) [(bytes_of "doc", [(1, 2); (3, 4)]%N)]).1) =
    Some (Ok (mkResponse [(bytes_of "doc", 1065353216%N)] true (Some 7%N))).
Proof.
  assert (Forall request_ok sample_requests) as Hok.
  { repeat constructor; vm_compute; repeat split; repeat constructor. }
  assert (Forall (λ c, c ≠ []) (pieces 200 qir0_stream)) as Hc by (vm_compute; repeat constructor; discriminate).
  destruct (qir0_session sample_requests 4 (pieces 200 qir0_stream) sample_tail [] Hok Hc) as [Hs Hr].
  - reflexivity.
  - repeat constructor.
  - vm_compute. reflexivity.
  - split; [exact Hok|]. split; [exact Hs|].
    rewrite <- (app_nil_r (answer_request _ _).1).
    apply (Hr (R_Search 3 5 [(1, 2)]%N) [(bytes_of "doc", [(1, 2); (3, 4)]%N)] []).
    + right. right. left.
    + reflexivity.
    + split_and!; [constructor; [split_and!; reflexivity|constructor]|reflexivity..].
Defined.

Definition header_of (op : OpCode) (len : N) : MessageHeader := mkHeader PROTOCOL_MAGIC op 0 9 len.

(** A payload too short for its length field ends the connection in a panic. *)
Example short_payload_panics :
  handle_client 2 [message OpInsert 0 9 [x00]] [] [] [] = Crashed [] ∧
  handle_client 2 [message OpGraphQuery 0 9 []] [] [] [] = Crashed [].
Proof. vm_compute. done. Qed.

(** 2^30 queries of dimension 2^31: the size wraps to 0, and the server reads past
    the twelve bytes it was sent. *)
Example batch_size_wraps :
  handle_batch 9 (be_bytes 4 1 ++ be_bytes 4 1073741824 ++ be_bytes 4 2147483648) [] = OutOfBounds.
Proof. apply batch_reads_past; vm_compute; done || discriminate. Qed.

(** The client takes the text of an error for results, and panics. *)
Example search_error_misread :
  client_search (answer_request (R_Search 3 5 []) []).1 = None.
Proof.
  change (answer_request (R_Search 3 5 []) []).1 with (message OpError 0 3 (bytes_of "Search error: no entry point")).
  rewrite <- (app_nil_r (message _ _ _ _)). unfold client_search. rewrite read_answer_message by (vm_compute; done).
  cbn [mbind option_bind mh_flags]. change (N.testbit 0 1) with false. cbn iota.
  destruct (N.to_nat (be_num (take 4 (bytes_of "Search error: no entry point")))) as [|n] eqn:E; [|by vm_compute].
  apply (f_equal N.of_nat) in E. rewrite N2Nat.id in E. vm_compute in E. discriminate E.
Qed.
