(* ===== verification/Resp.v ===== *)
(** The Redis front end: the in-memory key-value store
    (src/ecosystem/kv_cache.rs) and the RESP protocol with its parser, publish and
    subscribe, streams and commands (src/transport/resp.rs).

    Keys, values and texts are bytes.  The clock is an argument, in ticks; a server
    call takes one reading of it.  A subscriber's channel is a mailbox that may have
    been dropped.  GRAPH.QUERY goes through the interface of a compiled and executed
    query.  Integer overflow of a counter is a panic or wraps, by the build: the
    model wraps. *)

From Stdlib Require Import Strings.Byte ZArith.
From stdpp Require Import base gmap sets strings numbers list pretty fin_maps.
From S2P Require Import Prelude.
From S2P Require Import Codec.

#[local] Set Warnings "-register-all".

Abbreviation text := String.list_byte_of_string.
Abbreviation bytes := (list byte).

#[export] Instance byte_countable : Countable byte.
Proof. refine (inj_countable' Byte.to_N (λ n, default x00 (Byte.of_N n)) _). intros b. by rewrite Byte.of_to_N. Defined.

(** ** The key-value store *)

Inductive KvValue :=
  | KvString (s : bytes)
  | KvBytes (b : bytes)
  | KvInteger (i : Z)
  | KvFloat (x : N)
  | KvHashSet (s : gset bytes)
  | KvHashMap (m : gmap bytes bytes).
Record KvEntry := mkEntry { kv_value : KvValue; expires_at : option N }.
Record MemoryKvStore := mkKv { kv_entries : gmap bytes KvEntry; total_ops : N; kv_hits : N; kv_misses : N }.
Definition kv_new : MemoryKvStore := mkKv ∅ 0 0 0.

Definition set_raw (now : N) (key : bytes) (v : KvValue) (ttl : option N) (k : MemoryKvStore) : MemoryKvStore :=
  mkKv (<[key := mkEntry v ((λ d, now + d)%N <$> ttl)]> (kv_entries k)) (u64_add (total_ops k) 1) (kv_hits k) (kv_misses k).
Definition get_raw (now : N) (key : bytes) (k : MemoryKvStore) : option KvValue * MemoryKvStore :=
  let ops := u64_add (total_ops k) 1 in
  let hit := mkKv (kv_entries k) ops (u64_add (kv_hits k) 1) (kv_misses k) in
  match kv_entries k !! key with
  | Some e =>
      match expires_at e with
      | Some t =>
          if (t <=? now)%N then (None, mkKv (delete key (kv_entries k)) ops (kv_hits k) (u64_add (kv_misses k) 1))
          else (Some (kv_value e), hit)
      | None => (Some (kv_value e), hit)
      end
  | None => (None, mkKv (kv_entries k) ops (kv_hits k) (u64_add (kv_misses k) 1))
  end.
Definition delete_raw (key : bytes) (k : MemoryKvStore) : bool * MemoryKvStore :=
  (bool_decide (is_Some (kv_entries k !! key)),
   mkKv (delete key (kv_entries k)) (u64_add (total_ops k) 1) (kv_hits k) (kv_misses k)).

Definition i64_wrap (z : Z) : Z := ((z + 9223372036854775808) `mod` 18446744073709551616 - 9223372036854775808)%Z.
(** The expiry of an entry stays and is not looked at. *)
Definition incr_by_raw (key : bytes) (delta : Z) (k : MemoryKvStore) : Z * MemoryKvStore :=
  let e := default (mkEntry (KvInteger 0) None) (kv_entries k !! key) in
  let n := match kv_value e with KvInteger i => i64_wrap (i + delta) | _ => delta end in
  (n, mkKv (<[key := mkEntry (KvInteger n) (expires_at e)]> (kv_entries k)) (u64_add (total_ops k) 1) (kv_hits k) (kv_misses k)).

Definition set_add (key member : bytes) (k : MemoryKvStore) : bool * MemoryKvStore :=
  let e := default (mkEntry (KvHashSet ∅) None) (kv_entries k !! key) in
  let '(fresh, s) := match kv_value e with
                     | KvHashSet s => (bool_decide (member ∉ s), {[member]} ∪ s)
                     | _ => (true, {[member]})
                     end in
  (fresh, mkKv (<[key := mkEntry (KvHashSet s) (expires_at e)]> (kv_entries k)) (u64_add (total_ops k) 1) (kv_hits k) (kv_misses k)).
Definition set_is_member (key member : bytes) (k : MemoryKvStore) : bool * MemoryKvStore :=
  (match kv_value <$> kv_entries k !! key with Some (KvHashSet s) => bool_decide (member ∈ s) | _ => false end,
   mkKv (kv_entries k) (u64_add (total_ops k) 1) (kv_hits k) (kv_misses k)).
Definition unexpired (now : N) (e : KvEntry) : bool := match expires_at e with Some t => (now <? t)%N | None => true end.
Definition purge_expired (now : N) (k : MemoryKvStore) : N * MemoryKvStore :=
  let kept := filter (λ e, unexpired now e.2 = true) (kv_entries k) in
  (N.of_nat (size (kv_entries k)) - N.of_nat (size kept), mkKv kept (total_ops k) (kv_hits k) (kv_misses k))%N.

(** *** The attention-sink cache *)

Record AttentionSinkKvCache := mkSink { sink_tokens : N; recent_tokens : N; cached_tokens : list (list N) }.
Definition push_tokens (new_tokens : list (list N)) (c : AttentionSinkKvCache) : AttentionSinkKvCache :=
  let cached := cached_tokens c ++ new_tokens in
  if (sink_tokens c + recent_tokens c <? lenN cached)%N then
    let sink_count := N.min (sink_tokens c) (lenN cached) in
    let recent_start := (lenN cached - recent_tokens c)%N in
    mkSink (sink_tokens c) (recent_tokens c)
      (truncateN sink_count cached ++ if (sink_count <? recent_start)%N then skipN recent_start cached else [])
  else mkSink (sink_tokens c) (recent_tokens c) cached.

(** ** Frames *)

Inductive RespFrame :=
  | SimpleString (s : bytes)
  | RError (e : bytes)
  | RInteger (i : Z)
  | BulkString (b : option bytes)
  | RArray (fs : option (list RespFrame))
  | RNull.

Definition crlf : bytes := [x0d; x0a].
Definition show_int (z : Z) : bytes := text (pretty z).

Fixpoint resp_serialize (f : RespFrame) : bytes :=
  match f with
  | SimpleString s => [x2b] ++ s ++ crlf
  | RError e => [x2d] ++ e ++ crlf
  | RInteger i => [x3a] ++ show_int i ++ crlf
  | BulkString None | RNull => text "$-1" ++ crlf
  | BulkString (Some b) => [x24] ++ show_int (Z.of_N (lenN b)) ++ crlf ++ b ++ crlf
  | RArray None => text "*-1" ++ crlf
  | RArray (Some fs) =>
      [x2a] ++ show_int (Z.of_N (lenN fs)) ++ crlf ++
      (fix all fs := match fs with [] => [] | f :: fs => resp_serialize f ++ all fs end) fs
  end.

(** ** The parser *)

(** Views into the buffer *)
Inductive RespBorrowedFrame :=
  | BSimpleString (s : bytes)
  | BError (e : bytes)
  | BInteger (i : Z)
  | BBulkString (b : option bytes)
  | BArray (count : N)
  | BNull.

(** The line before the first carriage return and line feed, and the bytes consumed *)
Fixpoint read_crlf_line (buf : bytes) : option (bytes * N) :=
  match buf with
  | b :: buf' =>
      if Byte.eqb b x0d && (match buf' with c :: _ => Byte.eqb c x0a | [] => false end) then Some ([], 2%N)
      else '(line, n) ← read_crlf_line buf'; Some (b :: line, (n + 1)%N)
  | [] => None
  end.

(** [s.parse::<i64>()] *)
Fixpoint read_digits (acc : Z) (l : bytes) : option Z :=
  match l with
  | [] => Some acc
  | b :: l => if in_range 48 57 b then read_digits (10 * acc + Z.of_N (Byte.to_N b - 48))%Z l else None
  end.
Definition parse_i64 (l : bytes) : option Z :=
  let '(neg, ds) := match l with
                    | b :: l' => if Byte.eqb b x2b then (false, l') else if Byte.eqb b x2d then (true, l') else (false, l)
                    | [] => (false, [])
                    end in
  match ds with
  | [] => None
  | _ => z ← read_digits 0 ds;
         let z := if neg : bool then (- z)%Z else z in
         if (-9223372036854775808 <=? z)%Z && (z <=? 9223372036854775807)%Z then Some z else None
  end.

Definition line_text (rest : bytes) : option (bytes * N) :=
  '(line, n) ← read_crlf_line rest; if utf8_valid line then Some (line, n) else None.
Definition line_number (rest : bytes) : option (Z * N) :=
  '(line, n) ← line_text rest; z ← parse_i64 line; Some (z, n).

(** The two bytes after the payload of a bulk string are skipped, not compared. *)
Definition parse_frame (buf : bytes) : option (RespBorrowedFrame * N) :=
  match buf with
  | [] => None
  | prefix :: rest =>
      if Byte.eqb prefix x2b then '(s, n) ← line_text rest; Some (BSimpleString s, (n + 1)%N)
      else if Byte.eqb prefix x2d then '(s, n) ← line_text rest; Some (BError s, (n + 1)%N)
      else if Byte.eqb prefix x3a then '(z, n) ← line_number rest; Some (BInteger z, (n + 1)%N)
      else if Byte.eqb prefix x24 then
        '(z, n) ← line_number rest;
        if (z <? 0)%Z then Some (BBulkString None, (n + 1)%N)
        else
          let len := Z.to_N z in
          let start := (1 + n)%N in
          if (lenN buf <? start + len + 2)%N then None
          else Some (BBulkString (Some (truncateN len (skipN start buf))), (start + len + 2)%N)
      else if Byte.eqb prefix x2a then
        '(z, n) ← line_number rest;
        Some (if (z <? 0)%Z then BNull else BArray (Z.to_N z), (n + 1)%N)
      else None
  end.

(** The loop over the arguments *)
Fixpoint parse_args (count : nat) (buf : bytes) (offset : N) : option (list bytes * N) :=
  match count with
  | O => Some ([], offset)
  | S count =>
      '(f, n) ← parse_frame (skipN offset buf);
      match f with
      | BBulkString (Some arg) | BSimpleString arg =>
          '(args, last) ← parse_args count buf (offset + n)%N; Some (arg :: args, last)
      | _ => None
      end
  end.
(** [Vec::with_capacity(count)] comes before the arguments are read: [inr tt] is
    the panic when the capacity overflows ([isize::MAX] bytes of 16-byte slices). *)
Definition parse_command_slices (buf : bytes) : option (list bytes * N) + unit :=
  match parse_frame buf with
  | Some (BArray count, offset) =>
      if (9223372036854775807 <? count * 16)%N then inr tt else inl (parse_args (N.to_nat count) buf offset)
  | _ => inl None
  end.

(** ** Publish and subscribe *)

(** A channel's receiver: whether it is still held, and what was sent to it *)
Record PubSubBroker := mkBroker {
  channels : gmap bytes (list nat);
  mailboxes : list (bool * list bytes);
  total_messages_published : N
}.
Definition broker_new : PubSubBroker := mkBroker ∅ [] 0.
Definition subscribe (channel : bytes) (b : PubSubBroker) : nat * PubSubBroker :=
  let tx := length (mailboxes b) in
  (tx, mkBroker (<[channel := default [] (channels b !! channel) ++ [tx]]> (channels b)) (mailboxes b ++ [(true, [])])
         (total_messages_published b)).
(** [tx.send] fails when the receiver was dropped. *)
Definition sender_send (message : bytes) (st : list nat * list (bool * list bytes)) (tx : nat) : list nat * list (bool * list bytes) :=
  let '(kept, boxes) := st in
  match boxes !! tx with
  | Some (true, received) => (kept ++ [tx], <[tx := (true, received ++ [message])]> boxes)
  | _ => (kept, boxes)
  end.
Definition publish (channel message : bytes) (b : PubSubBroker) : N * PubSubBroker :=
  let total := u64_add (total_messages_published b) 1 in
  match channels b !! channel with
  | Some subscribers =>
      let '(kept, boxes) := foldl (sender_send message) ([], mailboxes b) subscribers in
      (lenN kept, mkBroker (<[channel := kept]> (channels b)) boxes total)
  | None => (0%N, mkBroker (channels b) (mailboxes b) total)
  end.
Definition drop_receiver (tx : nat) (b : PubSubBroker) : PubSubBroker :=
  mkBroker (channels b) (alter (λ m, (false, m.2)) tx (mailboxes b)) (total_messages_published b).

(** ** Streams *)

Record StreamEntry := mkStreamEntry { entry_id : bytes; fields : gmap bytes bytes }.
Abbreviation RedisStreamEngine := (gmap bytes (list StreamEntry)).
Definition xadd (millis : N) (stream : bytes) (fs : gmap bytes bytes) (e : RedisStreamEngine) : bytes * RedisStreamEngine :=
  let queue := default [] (e !! stream) in
  let id := text (pretty millis) ++ text "-" ++ text (pretty (lenN queue)) in
  (id, <[stream := queue ++ [mkStreamEntry id fs]]> e).
Definition xread (stream : bytes) (start count : N) (e : RedisStreamEngine) : list StreamEntry :=
  truncateN count (skipN start (default [] (e !! stream))).

(** ** The server *)

(** A query compiled and run against the bound graph: why it does not compile or
    run, or its columns and rows *)
Inductive GraphAnswer := CompileFailed (why : bytes) | ExecutionFailed (why : bytes) | GraphRows (names : list bytes) (rows : list (list N)).

Record RespServer := mkServer {
  rs_kv : MemoryKvStore;
  rs_pubsub : PubSubBroker;
  rs_streams : RedisStreamEngine
}.
Definition server_new : RespServer := mkServer kv_new broker_new ∅.

Definition to_ascii_lowercase (b : byte) : byte := if in_range 65 90 b then byte_of_N (Byte.to_N b + 32) else b.
Definition eq_ignore_case (a b : bytes) : bool := bool_decide (to_ascii_lowercase <$> a = to_ascii_lowercase <$> b).

(** [parse::<usize>()] *)
Definition parse_usize (l : bytes) : option N :=
  let ds := match l with x2b :: l => l | _ => l end in
  match ds with
  | [] => None
  | _ => z ← read_digits 0 ds; if (z <=? 18446744073709551615)%Z then Some (Z.to_N z) else None
  end.

(** Keys and values alternate; a later value of a key replaces an earlier one. *)
Fixpoint field_pairs (l : list bytes) (m : gmap bytes bytes) : gmap bytes bytes :=
  match l with
  | k :: v :: l => field_pairs l (<[utf8_lossy k := utf8_lossy v]> m)
  | _ => m
  end.

Section server.
Context `{!HashOrderOf bytes}.
(** The graph, if index and graph are bound *)
Context (graph_binding : option (bytes → GraphAnswer)).

Definition bulk (b : bytes) : RespFrame := BulkString (Some b).
Definition array (fs : list RespFrame) : RespFrame := RArray (Some fs).
Definition wrong_arguments (cmd : string) : RespFrame :=
  RError (text "ERR wrong number of arguments for '" ++ text cmd ++ text "' command").

Definition entry_frame (e : StreamEntry) : RespFrame :=
  array [bulk (entry_id e);
         array (iter_order (dom (fields e)) ≫= λ k, [bulk k; bulk (default [] (fields e !! k))])].

Definition get_answer (v : option KvValue) : RespFrame :=
  match v with
  | Some (KvBytes b) => bulk b
  | Some (KvString s) => bulk s
  | Some (KvInteger i) => bulk (show_int i)
  | Some _ => RError (text "WRONGTYPE Operation against a key holding the wrong kind of value")
  | None => RNull
  end.

Definition graph_answer (name query : bytes) : RespFrame :=
  match graph_binding with
  | None => RError (text "ERR GRAPH.QUERY requires a live graph binding (graph '" ++ name ++ text "')")
  | Some run =>
      match run query with
      | CompileFailed why => RError (text "ERR cypher compilation failed: " ++ why)
      | ExecutionFailed why => RError (text "ERR graph execution failed: " ++ why)
      | GraphRows names rows =>
          array (array (bulk <$> names) :: ((λ row, array ((λ n, RInteger (i64_wrap (Z.of_N n))) <$> row)) <$> rows))
      end
  end.

Definition handle_raw_command (now millis : N) (args : list bytes) (s : RespServer) : RespFrame * RespServer :=
  match args with
  | [] => (RError (text "ERR empty command"), s)
  | cmd :: rest =>
      if eq_ignore_case cmd (text "PING") then
        (match rest with a :: _ => bulk a | [] => SimpleString (text "PONG") end, s)
      else if eq_ignore_case cmd (text "SET") then
        match rest with
        | k :: v :: _ => (SimpleString (text "OK"), mkServer (set_raw now k (KvBytes v) None (rs_kv s)) (rs_pubsub s) (rs_streams s))
        | _ => (wrong_arguments "set", s)
        end
      else if eq_ignore_case cmd (text "GET") then
        match rest with
        | k :: _ => let '(v, kv) := get_raw now k (rs_kv s) in (get_answer v, mkServer kv (rs_pubsub s) (rs_streams s))
        | [] => (wrong_arguments "get", s)
        end
      else if eq_ignore_case cmd (text "INCR") then
        match rest with
        | k :: _ => let '(n, kv) := incr_by_raw k 1 (rs_kv s) in (RInteger n, mkServer kv (rs_pubsub s) (rs_streams s))
        | [] => (wrong_arguments "incr", s)
        end
      else if eq_ignore_case cmd (text "DEL") then
        match rest with
        | k :: _ =>
            let '(found, kv) := delete_raw k (rs_kv s) in
            (RInteger (if found : bool then 1 else 0), mkServer kv (rs_pubsub s) (rs_streams s))
        | [] => (wrong_arguments "del", s)
        end
      else if eq_ignore_case cmd (text "PUBLISH") then
        match rest with
        | c :: m :: _ =>
            let '(n, b) := publish (utf8_lossy c) (utf8_lossy m) (rs_pubsub s) in
            (RInteger (i64_wrap (Z.of_N n)), mkServer (rs_kv s) b (rs_streams s))
        | _ => (wrong_arguments "publish", s)
        end
      else if eq_ignore_case cmd (text "XADD") then
        match rest with
        | stream :: ((_ :: _ :: _) as fs) =>
            if Nat.even (length fs) then
              let '(id, e) := xadd millis (utf8_lossy stream) (field_pairs fs ∅) (rs_streams s) in
              (bulk id, mkServer (rs_kv s) (rs_pubsub s) e)
            else (wrong_arguments "xadd", s)
        | _ => (wrong_arguments "xadd", s)
        end
      else if eq_ignore_case cmd (text "XREAD") then
        match rest with
        | stream :: count :: _ =>
            let n := default 10%N (parse_usize (utf8_lossy count)) in
            (array (entry_frame <$> xread (utf8_lossy stream) 0 n (rs_streams s)), s)
        | _ => (wrong_arguments "xread", s)
        end
      else if eq_ignore_case cmd (text "GRAPH.QUERY") then
        match rest with
        | name :: query :: _ => (graph_answer (utf8_lossy name) (utf8_lossy query), s)
        | _ => (wrong_arguments "graph.query", s)
        end
      else if eq_ignore_case cmd (text "FT.SEARCH") then
        match rest with
        | index :: query :: _ =>
            (array [RInteger 1; bulk (utf8_lossy index ++ text ":1"); array [bulk (text "query"); bulk (utf8_lossy query)]], s)
        | _ => (wrong_arguments "ft.search", s)
        end
      else (RError (text "ERR unknown command '" ++ utf8_lossy cmd ++ text "'"), s)
  end.

(** *** A connection *)

(** What is buffered, the server, how many commands were answered and what was
    written to the socket.  [clock] gives the two readings of the [n]th command. *)
Record Connection := mkConnection { byte_buffer : bytes; conn_server : RespServer; answered : nat; written : bytes }.
Context (clock : nat → N * N).

(** The loop over the buffered commands; [inr] is a panic of the task.  Each round
    consumes a byte at least, so the length of the buffer bounds the rounds. *)
Fixpoint answer_buffered (fuel : nat) (c : Connection) : Connection + Connection :=
  match fuel with
  | O => inl c
  | S fuel =>
      match parse_command_slices (byte_buffer c) with
      | inr tt => inr c
      | inl None => inl c
      | inl (Some (args, consumed)) =>
          let '(now, millis) := clock (answered c) in
          let '(response, s) := handle_raw_command now millis args (conn_server c) in
          answer_buffered fuel
            (mkConnection (skipN consumed (byte_buffer c)) s (S (answered c)) (written c ++ resp_serialize response))
      end
  end.
Definition on_read (chunk : bytes) (c : Connection) : Connection + Connection :=
  let buffer := byte_buffer c ++ chunk in
  answer_buffered (S (length buffer)) (mkConnection buffer (conn_server c) (answered c) (written c)).
(** An empty read is the end of the stream. *)
Fixpoint serve (chunks : list bytes) (c : Connection) : Connection + Connection :=
  match chunks with
  | [] => inl c
  | [] :: _ => inl c
  | chunk :: chunks => match on_read chunk c with inl c => serve chunks c | inr c => inr c end
  end.
End server.

(** ** What the parser returns does not depend on what follows *)

Lemma read_crlf_app q p line n : read_crlf_line p = Some (line, n) →
  read_crlf_line (p ++ q) = Some (line, n) ∧ (2 ≤ n ≤ lenN p)%N.
Proof.
  revert line n. induction p as [|b p IH]; intros line n H; [done|]. cbn in *. unfold lenN in *. cbn [length].
  destruct p as [|c p]; [cbn in H; rewrite andb_false_r in H; done|]. cbn [app] in *.
  destruct (Byte.eqb b x0d && Byte.eqb c x0a); [injection H as <- <-; split; [done|cbn [length]; lia]|].
  destruct (read_crlf_line (c :: p)) as [[l m]|]; [|done]. injection H as <- <-.
  destruct (IH l m eq_refl) as [-> ?]. split; [done|lia].
Qed.

Lemma line_text_app q p s n : line_text p = Some (s, n) → line_text (p ++ q) = Some (s, n) ∧ (2 ≤ n ≤ lenN p)%N.
Proof.
  unfold line_text. destruct (read_crlf_line p) as [[l m]|] eqn:E; [|done]. cbn. intros H.
  destruct (read_crlf_app q _ _ _ E) as [-> ?]. cbn. destruct (utf8_valid l); [|done]. by injection H as <- <-.
Qed.

Lemma line_number_app q p z n : line_number p = Some (z, n) → line_number (p ++ q) = Some (z, n) ∧ (2 ≤ n ≤ lenN p)%N.
Proof.
  unfold line_number. destruct (line_text p) as [[l m]|] eqn:E; [|done]. cbn. intros H.
  destruct (line_text_app q _ _ _ E) as [-> ?]. cbn. destruct (parse_i64 l); [|done]. by injection H as <- <-.
Qed.

Lemma parse_frame_app q p f n : parse_frame p = Some (f, n) → parse_frame (p ++ q) = Some (f, n) ∧ (0 < n ≤ lenN p)%N.
Proof.
  destruct p as [|b p]; [done|]. assert (lenN (b :: p) = lenN p + 1)%N as Hl by (unfold lenN; cbn; lia).
  unfold parse_frame. cbn [app]. rewrite Hl. change (b :: p ++ q) with ((b :: p) ++ q). rewrite lenN_app, Hl.
  repeat case_match; try done; intros H'.
  all: match goal with
       | H : context [line_text ?r] |- _ => destruct (line_text r) as [[s m]|] eqn:E; [apply (line_text_app q) in E|done]
       | H : context [line_number ?r] |- _ => destruct (line_number r) as [[s m]|] eqn:E; [apply (line_number_app q) in E|done]
       end; destruct E as [-> ?]; cbn in H' |- *.
  all: try (injection H' as <- <-; split; [done|lia]).
  destruct (Z.ltb_spec s 0); [injection H' as <- <-; split; [done|lia]|].
  destruct (N.ltb_spec (lenN p + 1) (1 + m + Z.to_N s + 2)); [done|]. injection H' as <- <-.
  rewrite (proj2 (N.ltb_ge _ _)) by lia. rewrite app_comm_cons, skipN_app_le by lia.
  rewrite truncateN_app_le by (rewrite lenN_skip; lia). split; [done|lia].
Qed.

Lemma parse_args_app q count : ∀ p offset args last, (offset ≤ lenN p)%N →
  parse_args count p offset = Some (args, last) →
  parse_args count (p ++ q) offset = Some (args, last) ∧ (offset ≤ last ≤ lenN p)%N.
Proof.
  induction count as [|count IH]; intros p offset args last Hle; cbn; [by intros [= <- <-]|].
  rewrite skipN_app_le by done. destruct (parse_frame (skipN offset p)) as [[f n]|] eqn:E; [|done].
  apply (parse_frame_app q) in E as [-> Hn]. rewrite lenN_skip in Hn. cbn.
  destruct f as [s| | |[b|]| |]; try done; (destruct (parse_args count p (offset + n)) as [[as' l]|] eqn:E; [|done]);
    apply IH in E as [-> ?]; try lia; cbn; intros [= <- <-]; (split; [done|lia]).
Qed.

(** A command that was read, and a panic, stay the same when more bytes arrive. *)
Lemma parse_command_app q p args n : parse_command_slices p = inl (Some (args, n)) →
  parse_command_slices (p ++ q) = inl (Some (args, n)) ∧ (0 < n ≤ lenN p)%N.
Proof.
  unfold parse_command_slices. destruct (parse_frame p) as [[f o]|] eqn:E; [|done].
  apply (parse_frame_app q) in E as [-> Ho]. destruct f; try done. case_match; [done|]. intros [= H'].
  apply (parse_args_app q) in H' as [-> ?]; [|lia]. split; [done|lia].
Qed.

Lemma parse_command_panic q p : parse_command_slices p = inr tt → parse_command_slices (p ++ q) = inr tt.
Proof.
  unfold parse_command_slices. destruct (parse_frame p) as [[f o]|] eqn:E; [|done].
  apply (parse_frame_app q) in E as [-> _]. destruct f; try done. by case_match.
Qed.

(** ** Reading back what a client writes *)

Lemma in_range_bounds lo hi b : in_range lo hi b = true ↔ (lo ≤ Byte.to_N b ≤ hi)%N.
Proof. unfold in_range. rewrite andb_true_iff, !N.leb_le. done. Qed.

Definition decimal_digit (b : byte) : Prop := in_range 48 57 b = true.

Lemma digit_char x : (x < 10)%N → ∃ b, Ascii.byte_of_ascii (pretty_N_char x) = b ∧ decimal_digit b ∧ (Byte.to_N b - 48 = x)%N.
Proof.
  intros Hx. assert (x = 0 ∨ x = 1 ∨ x = 2 ∨ x = 3 ∨ x = 4 ∨ x = 5 ∨ x = 6 ∨ x = 7 ∨ x = 8 ∨ x = 9)%N as H by lia.
  repeat destruct H as [->|H]; subst; by eexists.
Qed.

Lemma digits_go x : ∀ s, Forall decimal_digit (text s) →
  Forall decimal_digit (text (pretty_N_go x s)) ∧ read_digits 0 (text (pretty_N_go x s)) = read_digits (Z.of_N x) (text s) ∧
  (x ≠ 0%N ∨ text s ≠ [] → text (pretty_N_go x s) ≠ []).
Proof.
  induction (N.lt_wf_0 x) as [x _ IH]. intros s Hs. destruct (decide (x = 0%N)) as [->|Hx].
  { rewrite pretty_N_go_0. split_and!; [done|done|]. by intros [?|?]. }
  rewrite pretty_N_go_step by lia.
  destruct (digit_char (x `mod` 10)) as (b & Eb & Hb & Hv); [by apply N.mod_lt|].
  assert (text (String (pretty_N_char (x `mod` 10)) s) = b :: text s) as Et by (cbn; by rewrite Eb).
  destruct (IH (x `div` 10)%N) with (s := String (pretty_N_char (x `mod` 10)) s) as (H1 & H2 & H3).
  { by apply N.div_lt; lia. } { rewrite Et. by constructor. }
  rewrite Et in *. split_and!; [done| |intros _; apply H3; by right]. rewrite H2. cbn. rewrite Hb, Hv. f_equal.
  pose proof (N.div_mod x 10 ltac:(done)) as E. lia.
Qed.

Lemma decimal_spec n : Forall decimal_digit (show_int (Z.of_N n)) ∧ read_digits 0 (show_int (Z.of_N n)) = Some (Z.of_N n) ∧
  show_int (Z.of_N n) ≠ [].
Proof.
  unfold show_int. destruct n as [|p]; [by split_and!; [repeat constructor| |]|].
  change (pretty (Z.of_N (N.pos p))) with (pretty_N (N.pos p)). unfold pretty_N. rewrite decide_False by done.
  destruct (digits_go (N.pos p) EmptyString) as (H1 & H2 & H3); [constructor|]. rewrite H2. split_and!; [done|done|apply H3; by left].
Qed.

Lemma parse_i64_decimal n : (n < 9223372036854775808)%N → parse_i64 (show_int (Z.of_N n)) = Some (Z.of_N n).
Proof.
  intros Hn. destruct (decimal_spec n) as (Hd & Hp & Hne). unfold parse_i64.
  destruct (show_int (Z.of_N n)) as [|b l]; [done|]. apply Forall_cons in Hd as [Hb _].
  assert (Byte.eqb b x2b = false ∧ Byte.eqb b x2d = false) as [-> ->] by (by destruct b; try done).
  rewrite Hp. cbn. rewrite (proj2 (Z.leb_le _ _)), (proj2 (Z.leb_le _ _)) by lia. done.
Qed.

Lemma read_crlf_digits l rest : Forall decimal_digit l → read_crlf_line (l ++ crlf ++ rest) = Some (l, (lenN l + 2)%N).
Proof.
  induction 1 as [|b l Hb _ IH]; [done|]. cbn -[crlf]. rewrite IH.
  assert (Byte.eqb b x0d = false) as -> by (by destruct b). cbn. f_equal. f_equal. unfold lenN. cbn [length]. lia.
Qed.

Lemma line_number_decimal n rest : (n < 9223372036854775808)%N →
  line_number (show_int (Z.of_N n) ++ crlf ++ rest) = Some (Z.of_N n, (lenN (show_int (Z.of_N n)) + 2)%N).
Proof.
  intros Hn. destruct (decimal_spec n) as (Hd & _ & _). unfold line_number, line_text. rewrite read_crlf_digits by done. cbn.
  rewrite utf8_ascii by (apply (Forall_impl _ _ _ Hd); intros b Hb%in_range_bounds; lia). cbn. by rewrite parse_i64_decimal.
Qed.

Definition encode_command (args : list bytes) : bytes := resp_serialize (array (bulk <$> args)).
(** What fits the lengths of the protocol and of a vector of slices *)
Definition sendable (args : list bytes) : Prop :=
  (lenN args * 16 ≤ 9223372036854775807)%N ∧ Forall (λ a, lenN a < 9223372036854775808)%N args.

Lemma serialize_array fs :
  resp_serialize (array fs) = [x2a] ++ show_int (Z.of_N (lenN fs)) ++ crlf ++ concat (resp_serialize <$> fs).
Proof. unfold array. cbn [resp_serialize]. do 3 f_equal. induction fs as [|f fs IH]; [done|]. cbn. by rewrite IH. Qed.

Lemma parse_bulk b : (lenN b < 9223372036854775808)%N →
  parse_frame (resp_serialize (bulk b)) = Some (BBulkString (Some b), lenN (resp_serialize (bulk b))).
Proof.
  intros Hb. unfold bulk. cbn [resp_serialize app]. unfold parse_frame. change (Byte.eqb x24 x2b) with false.
  change (Byte.eqb x24 x2d) with false. change (Byte.eqb x24 x3a) with false. change (Byte.eqb x24 x24) with true. cbn iota.
  rewrite line_number_decimal by done. cbn [mbind option_bind]. rewrite (proj2 (Z.ltb_ge _ _)) by lia. rewrite N2Z.id.
  set (d := show_int _).
  assert (lenN (x24 :: d ++ crlf ++ b ++ crlf) = 1 + (lenN d + 2) + lenN b + 2)%N as Hl.
  { change (x24 :: d ++ crlf ++ b ++ crlf) with ([x24] ++ d ++ crlf ++ b ++ crlf). rewrite !lenN_app.
    change (lenN crlf) with 2%N. change (lenN [_]) with 1%N. lia. }
  rewrite Hl, (proj2 (N.ltb_ge _ _)) by lia. do 4 f_equal.
  replace (x24 :: d ++ crlf ++ b ++ crlf) with ((x24 :: d ++ crlf) ++ b ++ crlf) by (cbn; by rewrite <- app_assoc).
  unfold skipN, truncateN, lenN. rewrite drop_app_length' by (cbn; rewrite length_app; cbn; lia).
  by rewrite take_app_length' by lia.
Qed.

Lemma parse_args_bulks args : ∀ pre, Forall (λ a, lenN a < 9223372036854775808)%N args →
  let buf := pre ++ concat (resp_serialize <$> (bulk <$> args)) in
  parse_args (length args) buf (lenN pre) = Some (args, lenN buf).
Proof.
  induction args as [|a args IH]; intros pre Hall; cbn zeta; [cbn; by rewrite app_nil_r|].
  apply Forall_cons in Hall as [Ha Hall]. cbn [length parse_args fmap list_fmap concat].
  rewrite skipN_app_le by lia. replace (skipN (lenN pre) pre) with (@nil byte) by (unfold skipN, lenN; by rewrite drop_ge by lia).
  cbn [app]. destruct (parse_frame_app (concat (resp_serialize <$> (bulk <$> args))) _ _ _ (parse_bulk a Ha)) as [E _].
  change (list_fmap _ _ bulk args) with (bulk <$> args). change (list_fmap _ _ resp_serialize ?x) with (resp_serialize <$> x).
  rewrite E. cbn [mbind option_bind]. rewrite app_assoc, <- lenN_app. rewrite IH by done. done.
Qed.

Lemma parse_encoded args : sendable args →
  parse_command_slices (encode_command args) = inl (Some (args, lenN (encode_command args))).
Proof.
  intros [Hc Hall]. unfold encode_command, parse_command_slices. rewrite serialize_array.
  assert (lenN (bulk <$> args) = lenN args) as -> by (unfold lenN; by rewrite length_fmap).
  set (d := show_int (Z.of_N (lenN args))). set (tl := concat _).
  assert (parse_frame ([x2a] ++ d ++ crlf ++ tl) = Some (BArray (lenN args), lenN ([x2a] ++ d ++ crlf))) as ->.
  { unfold parse_frame. cbn [app]. change (Byte.eqb x2a x2b) with false. change (Byte.eqb x2a x2d) with false.
    change (Byte.eqb x2a x3a) with false. change (Byte.eqb x2a x24) with false. change (Byte.eqb x2a x2a) with true. cbn iota.
    unfold d at 1. rewrite line_number_decimal by lia. fold d. cbn [mbind option_bind]. rewrite (proj2 (Z.ltb_ge _ _)), N2Z.id by lia.
    do 2 f_equal. change (x2a :: d ++ crlf) with ([x2a] ++ d ++ crlf). rewrite !lenN_app.
    change (lenN crlf) with 2%N. change (lenN [_]) with 1%N. lia. }
  rewrite (proj2 (N.ltb_ge _ _)) by done. f_equal. unfold lenN at 1. rewrite Nat2N.id.
  replace ([x2a] ++ d ++ crlf ++ tl) with (([x2a] ++ d ++ crlf) ++ tl) by (by rewrite <- !app_assoc).
  unfold tl. by rewrite parse_args_bulks.
Qed.

Lemma encode_length args : 0 < length (encode_command args).
Proof. unfold encode_command. rewrite serialize_array. apply Nat.lt_0_succ. Qed.

(** Of a command that has not arrived entirely nothing is read. *)
Lemma parse_incomplete args p q : sendable args → p ++ q = encode_command args → q ≠ [] → parse_command_slices p = inl None.
Proof.
  intros Hs E Hq. pose proof (parse_encoded args Hs) as H. rewrite <- E in H.
  destruct (parse_command_slices p) as [[[as' n]|]|[]] eqn:Ep; [|done|by rewrite (parse_command_panic q p Ep) in H].
  destruct (parse_command_app q p as' n Ep) as [E' Hn]. rewrite E' in H. injection H as _ ->. rewrite lenN_app in Hn.
  apply lenN_pos in Hq. lia.
Qed.

(** ** A session *)

Section session.
Context `{!HashOrderOf bytes}.
Context (graph_binding : option (bytes → GraphAnswer)) (clock : nat → N * N).

(** The answers to a sequence of commands, the [n]th one and the following *)
Fixpoint replies (n : nat) (cmds : list (list bytes)) (s : RespServer) : list RespFrame * RespServer :=
  match cmds with
  | [] => ([], s)
  | args :: cmds =>
      let '(r, s) := handle_raw_command graph_binding (clock n).1 (clock n).2 args s in
      let '(rs, s) := replies (S n) cmds s in (r :: rs, s)
  end.
(** The connection that answered [cmds] and holds [buffer] *)
Definition after (cmds : list (list bytes)) (buffer : bytes) (c : Connection) : Connection :=
  let '(rs, s) := replies (answered c) cmds (conn_server c) in
  mkConnection buffer s (answered c + length cmds) (written c ++ concat (resp_serialize <$> rs)).

Lemma after_nil c : after [] (byte_buffer c) c = c.
Proof. destruct c. unfold after. cbn. by rewrite app_nil_r, Nat.add_0_r. Qed.

Lemma after_cons args cmds buffer buffer' c :
  after (args :: cmds) buffer c = after cmds buffer (after [args] buffer' c).
Proof.
  destruct c as [b s n w]. unfold after. cbn. destruct (handle_raw_command _ _ _ _ _) as [r s']. cbn.
  rewrite Nat.add_1_r, app_nil_r. destruct (replies (S n) cmds s') as [rs s'']. cbn. f_equal; [lia|by rewrite <- app_assoc].
Qed.

Lemma after_buffer cmds b c : byte_buffer (after cmds b c) = b.
Proof. unfold after. by destruct (replies _ _ _). Qed.

(** What was buffered before does not matter. *)
Lemma after_any cmds cmds' buffer b1 b2 c : after cmds' buffer (after cmds b1 c) = after cmds' buffer (after cmds b2 c).
Proof. unfold after. by destruct (replies (answered c) cmds _). Qed.

Lemma after_app cmds cmds' buffer b c : after (cmds ++ cmds') buffer c = after cmds' buffer (after cmds b c).
Proof.
  rewrite (after_any _ _ _ b (byte_buffer c)). revert c. induction cmds as [|args cmds IH]; intros c; [by rewrite after_nil|].
  cbn [app]. rewrite (after_cons args (cmds ++ cmds') buffer (byte_buffer c)), IH.
  by rewrite (after_cons args cmds _ (byte_buffer c)), after_buffer.
Qed.

Lemma answer_step args rest fuel c : sendable args → byte_buffer c = encode_command args ++ rest →
  answer_buffered graph_binding clock (S fuel) c = answer_buffered graph_binding clock fuel (after [args] rest c).
Proof.
  intros Hs E. cbn [answer_buffered]. rewrite E.
  destruct (parse_command_app rest _ _ _ (parse_encoded args Hs)) as [-> _].
  generalize (encode_command args). intros e. destruct c as [b s n w]. unfold after. cbn. destruct (clock n) as [now millis]. cbn.
  destruct (handle_raw_command _ _ _ _ _) as [r s']. cbn. rewrite app_nil_r, Nat.add_1_r.
  unfold skipN, lenN. by rewrite drop_app_length' by lia.
Qed.

(** From a prefix of a stream of commands the entire ones are answered, and what is
    left of the buffer is the beginning of the others. *)
Lemma answer_prefix cmds : ∀ rest fuel c, Forall sendable cmds → length (byte_buffer c) < fuel →
  byte_buffer c ++ rest = concat (encode_command <$> cmds) →
  ∃ ready todo b, cmds = ready ++ todo ∧ b ++ rest = concat (encode_command <$> todo) ∧
    answer_buffered graph_binding clock fuel c = inl (after ready b c) ∧ parse_command_slices b = inl None.
Proof.
  induction cmds as [|args cmds IH]; intros rest [|fuel] c Hall Hf E; try lia.
  { apply app_nil in E as [E ->]. exists [], [], []. split_and!; [done|done| |done].
    rewrite <- E, after_nil. cbn. by rewrite E. }
  apply Forall_cons in Hall as [Hs Hall]. rewrite fmap_cons in E. cbn [concat] in E.
  destruct (decide (length (encode_command args) ≤ length (byte_buffer c))) as [Hle|Hlt].
  - pose proof (f_equal (take (length (encode_command args))) E) as E'. rewrite take_app_le, take_app_length in E' by done.
    rewrite <- (take_drop (length (encode_command args)) (byte_buffer c)), E' in E. rewrite <- app_assoc in E.
    apply app_inv_head in E. set (b' := drop _ _) in E.
    assert (byte_buffer c = encode_command args ++ b') as Eb.
    { rewrite <- (take_drop (length (encode_command args)) (byte_buffer c)) at 1. by rewrite E'. }
    rewrite (answer_step args b') by done.
    destruct (IH rest fuel (after [args] b' c)) as (ready & todo & b & -> & Hb & Ha & Hp); [done| |by rewrite after_buffer|].
    { rewrite after_buffer. rewrite Eb, length_app in Hf. pose proof (encode_length args). lia. }
    exists (args :: ready), todo, b. split_and!; [done|done| |done]. rewrite Ha. by rewrite (after_cons args ready b b').
  - exists [], (args :: cmds), (byte_buffer c). rewrite after_nil.
    assert (parse_command_slices (byte_buffer c) = inl None) as Hp.
    { pose proof (f_equal (take (length (byte_buffer c))) E) as E'. rewrite take_app_length, take_app_le in E' by lia.
      apply (parse_incomplete args _ (drop (length (byte_buffer c)) (encode_command args))); [done| |].
      - rewrite E' at 1. apply take_drop.
      - intros Hd%(f_equal length). rewrite length_drop in Hd. cbn [length] in Hd. lia. }
    split_and!; [done|done| |done]. cbn. by rewrite Hp.
Qed.

Lemma serve_commands chunks : ∀ cmds c, Forall sendable cmds → Forall (λ ch, ch ≠ []) chunks →
  parse_command_slices (byte_buffer c) = inl None → byte_buffer c ++ concat chunks = concat (encode_command <$> cmds) →
  serve graph_binding clock chunks c = inl (after cmds [] c).
Proof.
  induction chunks as [|ch chunks IH]; intros cmds c Hall Hne Hp E.
  { cbn [concat] in E. rewrite app_nil_r in E. destruct cmds as [|args cmds].
    - change (byte_buffer c = []) in E. by rewrite <- E, after_nil.
    - apply Forall_cons in Hall as [Hs _]. rewrite E, fmap_cons in Hp. cbn [concat] in Hp.
      destruct (parse_command_app (concat (encode_command <$> cmds)) _ _ _ (parse_encoded args Hs)) as [E' _].
      by rewrite E' in Hp. }
  apply Forall_cons in Hne as [Hch Hne]. cbn [concat] in E. rewrite app_assoc in E.
  set (c0 := mkConnection (byte_buffer c ++ ch) (conn_server c) (answered c) (written c)).
  destruct (answer_prefix cmds (concat chunks) (S (length (byte_buffer c0))) c0) as (ready & todo & b & -> & Hb & Ha & Hp');
    [done|lia|done|].
  apply Forall_app in Hall as [_ Hall].
  assert (serve graph_binding clock (ch :: chunks) c = serve graph_binding clock chunks (after ready b c0)) as ->.
  { destruct ch; [done|]. cbn [serve]. unfold on_read. fold c0. change (byte_buffer c ++ _) with (byte_buffer c0). by rewrite Ha. }
  rewrite (IH todo) by (rewrite ?after_buffer; done). f_equal. by rewrite (after_app ready todo [] b).
Qed.
End session.

(** ** The store of a session as a map *)

Inductive KvCommand := CSet (key value : bytes) | CGet (key : bytes) | CDel (key : bytes) | CIncr (key : bytes).
Definition command_words (c : KvCommand) : list bytes :=
  match c with
  | CSet k v => [text "SET"; k; v]
  | CGet k => [text "GET"; k]
  | CDel k => [text "DEL"; k]
  | CIncr k => [text "INCR"; k]
  end.

(** A value is bytes or a counter.  Counting is an operation on counters: it is
    not specified on a key that holds bytes, nor past the largest counter. *)
Definition kv_step (c : KvCommand) (m : gmap bytes (bytes + N)) : option (RespFrame * gmap bytes (bytes + N)) :=
  match c with
  | CSet k v => Some (SimpleString (text "OK"), <[k := inl v]> m)
  | CGet k =>
      Some (match m !! k with Some (inl b) => bulk b | Some (inr n) => bulk (show_int (Z.of_N n)) | None => RNull end, m)
  | CDel k => Some (RInteger (if bool_decide (is_Some (m !! k)) then 1 else 0), delete k m)
  | CIncr k =>
      n ← match m !! k with
          | Some (inl _) => None
          | Some (inr n) => if (n + 1 <? 2 ^ 63)%N then Some (n + 1)%N else None
          | None => Some 1%N
          end;
      Some (RInteger (Z.of_N n), <[k := inr n]> m)
  end.
Fixpoint kv_run (cs : list KvCommand) (m : gmap bytes (bytes + N)) : option (list RespFrame * gmap bytes (bytes + N)) :=
  match cs with
  | [] => Some ([], m)
  | c :: cs => '(r, m) ← kv_step c m; '(rs, m) ← kv_run cs m; Some (r :: rs, m)
  end.

Definition entry_of (v : bytes + N) : KvEntry :=
  mkEntry (match v with inl b => KvBytes b | inr n => KvInteger (Z.of_N n) end) None.

Section store.
Context `{!HashOrderOf bytes}.
Context (graph_binding : option (bytes → GraphAnswer)) (clock : nat → N * N).

Lemma is_Some_stored (o : option (bytes + N)) : bool_decide (is_Some (entry_of <$> o)) = bool_decide (is_Some o).
Proof. by destruct o. Qed.

Lemma i64_wrap_succ n : (n + 1 < 2 ^ 63)%N → i64_wrap (Z.of_N n + 1) = Z.of_N (n + 1).
Proof. intros. unfold i64_wrap. rewrite Z.mod_small by lia. lia. Qed.

Lemma command_step now millis c m s r m' : kv_entries (rs_kv s) = entry_of <$> m → kv_step c m = Some (r, m') →
  ∃ s', handle_raw_command graph_binding now millis (command_words c) s = (r, s') ∧ kv_entries (rs_kv s') = entry_of <$> m'.
Proof.
  intros E. destruct c as [k v|k|k|k]; unfold handle_raw_command; cbn [command_words kv_step].
  - intros [= <- <-]. eexists. split; [reflexivity|]. cbn. by rewrite E, fmap_insert.
  - intros [= <- <-].
    change (eq_ignore_case (text "GET") (text "GET")) with true. cbn -[get_raw get_answer]. unfold get_raw.
    rewrite E, lookup_fmap. destruct (m !! k) as [[b|i]|]; cbn; (eexists; split; [reflexivity|by cbn]).
  - intros [= <- <-]. eexists. split; [cbn; rewrite E, lookup_fmap, is_Some_stored; reflexivity|]. cbn. by rewrite ?E, fmap_delete.
  - intros (n & En & [= <- <-])%bind_Some. cbn. rewrite E, lookup_fmap.
    destruct (m !! k) as [[b|i]|]; [done| |].
    + destruct (N.ltb_spec (i + 1) (2 ^ 63)); simplify_eq. cbn. rewrite i64_wrap_succ by done.
      eexists. split; [reflexivity|]. cbn. by rewrite ?E, fmap_insert.
    + simplify_eq. eexists. split; [reflexivity|]. cbn. by rewrite ?E, fmap_insert.
Qed.

Lemma replies_kv cs : ∀ n m s rs m', kv_entries (rs_kv s) = entry_of <$> m → kv_run cs m = Some (rs, m') →
  ∃ s', replies graph_binding clock n (command_words <$> cs) s = (rs, s') ∧ kv_entries (rs_kv s') = entry_of <$> m'.
Proof.
  induction cs as [|c cs IH]; intros n m s rs m' E; [intros [= <- <-]; by exists s|]. rewrite fmap_cons. cbn [replies kv_run].
  intros ([r m1] & Ec & ([rs1 m2] & Er & [= <- <-])%bind_Some)%bind_Some.
  destruct (command_step (clock n).1 (clock n).2 c m s _ _ E Ec) as (s' & -> & E').
  destruct (IH (S n) m1 s' _ _ E' Er) as (s'' & -> & E''). by exists s''.
Qed.

(** C36: A client that pipelines SET, GET, DEL and INCR commands over a RESP
    connection, however the stream is cut into reads, gets the serialized
    answers of a map from keys to texts and counters, in order; nothing stays
    buffered, and the store holds exactly that map. The commands count only keys
    that are absent or hold a counter below the largest 64-bit integer; INCR of
    a stored text is not covered. *)
Theorem resp_session cs chunks rs m :
  Forall sendable (command_words <$> cs) → Forall (λ ch, ch ≠ []) chunks →
  concat chunks = concat (encode_command <$> (command_words <$> cs)) →
  kv_run cs ∅ = Some (rs, m) →
  ∃ c, serve graph_binding clock chunks (mkConnection [] server_new 0 []) = inl c ∧ byte_buffer c = [] ∧
    written c = concat (resp_serialize <$> rs) ∧ kv_entries (rs_kv (conn_server c)) = entry_of <$> m.
Proof.
  intros Hs Hne E Er. eexists. split; [by apply serve_commands|]. unfold after. cbn [answered conn_server written].
  destruct (replies_kv cs 0 ∅ server_new rs m) as (s' & -> & Ek); [by rewrite fmap_empty|done|]. done.
Qed.
End store.

(** ** Publish and subscribe, streams, cache *)

(** A receiver that is held *)
Definition live (b : PubSubBroker) (tx : nat) : Prop := ∃ received, mailboxes b !! tx = Some (true, received).
(** Every subscriber of a channel has a mailbox, and a mailbox once only. *)
Definition broker_wf (b : PubSubBroker) : Prop :=
  ∀ ch txs, channels b !! ch = Some txs → NoDup txs ∧ Forall (λ tx, tx < length (mailboxes b)) txs.

Lemma send_loop message txs : ∀ kept boxes, NoDup txs →
  ∃ kept' boxes', foldl (sender_send message) (kept, boxes) txs = (kept ++ kept', boxes') ∧ length boxes' = length boxes ∧
    (∀ tx, tx ∈ kept' ↔ tx ∈ txs ∧ ∃ r, boxes !! tx = Some (true, r)) ∧ NoDup kept' ∧
    ∀ tx, boxes' !! tx = (if decide (tx ∈ kept') then (λ m, (true, m.2 ++ [message])) <$> boxes !! tx else boxes !! tx).
Proof.
  induction txs as [|t txs IH]; intros kept boxes Hnd.
  { exists [], boxes. rewrite app_nil_r. split_and!; [done|done| |constructor|done]. intros tx. split; [by intros ?%elem_of_nil|].
    by intros [?%elem_of_nil _]. }
  apply NoDup_cons in Hnd as [Ht Hnd]. cbn [foldl].
  assert (∀ tx, tx ∈ t :: txs ↔ tx = t ∨ tx ∈ txs) as Hcons by (intros; apply elem_of_cons).
  destruct (boxes !! t) as [[[] r]|] eqn:Eb.
  2,3: destruct (IH kept boxes Hnd) as (kept' & boxes' & Ef & Hl & Hk & Hn & Hb); exists kept', boxes'; unfold sender_send at 2; rewrite Eb;
    split_and!; [done|done| |done|done]; intros tx; rewrite Hk, Hcons; naive_solver.
  destruct (IH (kept ++ [t]) (<[t := (true, r ++ [message])]> boxes) Hnd) as (kept' & boxes' & Ef & Hl & Hk & Hn & Hb).
  assert (t ∉ kept') as Htk by (rewrite Hk; naive_solver).
  assert (t < length boxes) as Hlt by (apply lookup_lt_Some in Eb; done).
  exists (t :: kept'), boxes'. unfold sender_send at 2. rewrite Eb, Ef, <- app_assoc, Hl, length_insert.
  assert (∀ tx, tx ∈ t :: kept' ↔ tx = t ∨ tx ∈ kept') as Hcons' by (intros; apply elem_of_cons).
  split_and!; [done|done| |by constructor|].
  - intros tx. rewrite Hcons, Hcons', Hk. destruct (decide (tx = t)) as [->|Hne]; [naive_solver|].
    rewrite list_lookup_insert_ne by done. naive_solver.
  - intros tx. rewrite Hb. destruct (decide (tx = t)) as [->|Hne].
    + rewrite decide_False by done. rewrite (decide_True _ _) by (by apply Hcons'; left).
      rewrite list_lookup_insert_eq by done. by rewrite Eb.
    + rewrite list_lookup_insert_ne by done. destruct (decide (tx ∈ kept')) as [Hin|Hin].
      * rewrite decide_True; [done|]. apply Hcons'. by right.
      * rewrite decide_False; [done|]. rewrite Hcons'. naive_solver.
Qed.

(** A publication reaches the held receivers of the channel, once each and no
    others, answers their number and forgets the dropped ones. *)
Lemma publish_delivers channel message b subscribers :
  broker_wf b → channels b !! channel = Some subscribers →
  ∃ kept, (publish channel message b).1 = lenN kept ∧ channels (publish channel message b).2 !! channel = Some kept ∧
    NoDup kept ∧ (∀ tx, tx ∈ kept ↔ tx ∈ subscribers ∧ live b tx) ∧
    ∀ tx, mailboxes (publish channel message b).2 !! tx =
      (if decide (tx ∈ kept) then (λ m, (true, m.2 ++ [message])) <$> mailboxes b !! tx else mailboxes b !! tx).
Proof.
  intros Hwf E. destruct (Hwf _ _ E) as [Hnd _]. unfold publish. rewrite E.
  destruct (send_loop message subscribers [] (mailboxes b) Hnd) as (kept & boxes & Ef & _ & Hk & Hn & Hb).
  rewrite Ef. cbn. exists kept. by rewrite lookup_insert_eq.
Qed.

(** The sinks and the recent tokens are all that is kept. *)
Lemma push_tokens_bounded new_tokens c :
  (lenN (cached_tokens (push_tokens new_tokens c)) ≤ sink_tokens c + recent_tokens c)%N.
Proof.
  unfold push_tokens. set (l := cached_tokens c ++ new_tokens). destruct (N.ltb_spec (sink_tokens c + recent_tokens c) (lenN l)); [|done].
  cbn. rewrite lenN_app. rewrite lenN_truncate by lia. case_match; [rewrite lenN_skip; lia|]. change (lenN []) with 0%N. lia.
Qed.

(** ** Concrete sessions *)

Section samples.
#[local] Instance byte_order : HashOrderOf bytes := canonical_order.
Definition no_clock : nat → N * N := λ _, (0%N, 0%N).
Definition sample_commands : list KvCommand :=
  [CSet (text "k") (text "v"); CGet (text "k"); CIncr (text "n"); CIncr (text "n"); CDel (text "k"); CGet (text "k")].
Definition resp_stream : bytes := concat (encode_command <$> (command_words <$> sample_commands)).
Definition sample_chunks : list bytes := [take 7 resp_stream; take 60 (drop 7 resp_stream); drop 67 resp_stream].

Definition sample_answers : list RespFrame :=
  [SimpleString (text "OK"); bulk (text "v"); RInteger 1; RInteger 2; RInteger 1; RNull].

Lemma resp_session_witness :
  Forall sendable (command_words <$> sample_commands) ∧ concat sample_chunks = resp_stream ∧
  ∃ c, serve None no_clock sample_chunks (mkConnection [] server_new 0 []) = inl c ∧ byte_buffer c = [] ∧
    written c = concat (resp_serialize <$> sample_answers) ∧
    kv_entries (rs_kv (conn_server c)) = entry_of <$> {[ text "n" := inr 2%N ]}.
Proof.
  assert (Forall sendable (command_words <$> sample_commands)) as Hs.
  { unfold sendable, sample_commands, lenN. cbn. repeat constructor; cbn; lia. }
  assert (concat sample_chunks = resp_stream) as He by (vm_compute; reflexivity).
  split; [exact Hs|]. split; [exact He|].
  apply (resp_session None no_clock sample_commands sample_chunks); [exact Hs| |exact He|vm_compute; reflexivity].
  repeat constructor; vm_compute; discriminate.
Defined.

(** The two bytes after a bulk string are not looked at. *)
Example bulk_terminator_ignored :
  parse_command_slices (text "*1" ++ crlf ++ text "$4" ++ crlf ++ text "PINGxy") = inl (Some ([text "PING"], 14%N)).
Proof. vm_compute. reflexivity. Qed.

(** One header asks for more memory than there is: the task panics. *)
Example count_overflows_capacity :
  parse_command_slices (text "*9223372036854775807" ++ crlf) = inr tt.
Proof. vm_compute. reflexivity. Qed.

(** A line that is not a command is never consumed: the commands after it are not
    answered, though the connection stays open and goes on buffering. *)
Example inline_command_blocks :
  serve None no_clock [text "PING" ++ crlf; encode_command [text "PING"]; encode_command [text "PING"]]
    (mkConnection [] server_new 0 []) =
  inl (mkConnection (text "PING" ++ crlf ++ encode_command [text "PING"] ++ encode_command [text "PING"]) server_new 0 []).
Proof. vm_compute. reflexivity. Qed.

(** Counting a stored text, even a number, starts again from one. *)
Example incr_discards_text :
  let k := set_raw 0 (text "n") (KvBytes (text "41")) None kv_new in (incr_by_raw (text "n") 1 k).1 = 1%Z.
Proof. vm_compute. reflexivity. Qed.

(** A counter past its expiry counts on, where reading it finds nothing. *)
Example expired_counter_counts :
  let k := set_raw 0 (text "n") (KvInteger 5) (Some 10%N) kv_new in
  (get_raw 20 (text "n") k).1 = None ∧ (incr_by_raw (text "n") 1 k).1 = 6%Z ∧ (delete_raw (text "n") k).1 = true.
Proof. vm_compute. done. Qed.

(** The name of an unknown command is echoed with its line breaks: the client reads
    two replies. *)
Example error_reply_splits :
  resp_serialize (handle_raw_command None 0 0 [text "X" ++ crlf ++ text "+OK"] server_new).1 =
  text "-ERR unknown command 'X" ++ crlf ++ text "+OK'" ++ crlf.
Proof. vm_compute. reflexivity. Qed.

(** FT.SEARCH answers a document that no index holds. *)
Example ft_search_fabricates :
  (handle_raw_command None 0 0 [text "FT.SEARCH"; text "idx"; text "hello"] server_new).1 =
  array [RInteger 1; bulk (text "idx:1"); array [bulk (text "query"); bulk (text "hello")]].
Proof. vm_compute. reflexivity. Qed.
End samples.
