(* ===== verification/Graph.v ===== *)
(** The property graph of src/graph: name catalogs, the node arena, the mutable
    edge delta with its intrusive out- and in-chains, the sealed CSR/CSC
    adjacency, generations and the mutation applier.

    A [NodeIndex], [RelationshipId] or reference is a [u32] as an [N]; positions
    and offsets inside a vector ([usize] or [u64] values bounded by its length)
    are [nat].  The record vector and the liveness vector of an arena grow
    together, so indexing the first below the length of the second does not
    panic ([arena_ok] and [delta_ok] in GraphFacts.v).  The two explicit padding
    fields of [EdgeRecord] are always zero and left out. *)

From stdpp Require Import base gmap sets strings numbers list sorting fin_maps.
From S2P Require Import Prelude.
From S2P Require Import Floats.
From S2P Require Import Order.

Abbreviation NodeIndex := N (only parsing).
Abbreviation LabelId := N (only parsing).
Abbreviation RelTypeId := N (only parsing).
Abbreviation PropertyKey := N (only parsing).

Definition u32_max : N := 4294967295.
Definition u32_saturating_add (x y : N) : N := N.min (x + y) u32_max.
(** [fetch_add] on an [AtomicU32] *)
Definition u32_fetch_add (x y : N) : N := ((x + y) `mod` u32_modulus)%N.

(** ** Catalogs (src/graph/catalog) *)

Record Catalog := mkCatalog { name_to_id : gmap string N; id_to_name : list string }.
Definition catalog_new : Catalog := mkCatalog ∅ [].

Definition catalog_add (name : string) (id : N) (c : Catalog) : Catalog :=
  mkCatalog (<[name := id]> (name_to_id c)) (id_to_name c ++ [name]).

(** [LabelCatalog] and [PropertyKeyCatalog]: [len() as u32]. *)
Definition get_or_register (name : string) (c : Catalog) : N * Catalog :=
  match name_to_id c !! name with
  | Some id => (id, c)
  | None => let id := (lenN (id_to_name c) `mod` u32_modulus)%N in (id, catalog_add name id c)
  end.

(** [RelTypeCatalog]: at most 65536 types. *)
Definition rel_get_or_register (name : string) (c : Catalog) : option N * Catalog :=
  match name_to_id c !! name with
  | Some id => (Some id, c)
  | None =>
      let next := lenN (id_to_name c) in
      if (65535 <? next)%N then (None, c) else (Some next, catalog_add name next c)
  end.

Definition catalog_get (name : string) (c : Catalog) : option N := name_to_id c !! name.
Definition name_of (id : N) (c : Catalog) : option string := id_to_name c !! N.to_nat id.

Definition LABEL_FAST_SLOTS : N := 64.
Inductive LabelResolution := LabelFast (bit : N) | LabelOverflow (index : N) | LabelUnknown.
Definition label_resolve (id : LabelId) : LabelResolution :=
  if (id <? LABEL_FAST_SLOTS)%N then LabelFast id else LabelOverflow id.

(** The snapshot of a catalog is its list of names, and back. *)
Definition catalog_snapshot (c : Catalog) : list string := id_to_name c.
Definition catalog_restore (modulus : N) (entries : list string) : Catalog :=
  mkCatalog
    (foldl (λ m e, <[e.2 := (N.of_nat e.1 `mod` modulus)%N]> m) ∅ (imap pair entries))
    entries.

(** ** Node arena (storage/node_arena.rs) *)

Record GraphNodeRecord := mkNodeRecord {
  label_fast_mask : N;
  out_ref : N;
  in_ref : N;
  out_degree : N;
  in_degree : N;
  vector_slot : N;
  label_overflow_ref : N
}.
#[export] Instance eta_GraphNodeRecord : Eta GraphNodeRecord := λ r,
  mkNodeRecord (label_fast_mask r) (out_ref r) (in_ref r) (out_degree r) (in_degree r)
    (vector_slot r) (label_overflow_ref r).

Definition NULL_OVERFLOW_REF : N := u32_max.

Record NodeArena := mkArena {
  na_records : list GraphNodeRecord;
  na_live : list bool;
  na_next_id : N
}.
Definition arena_new : NodeArena := mkArena [] [] 0.

Definition arena_alloc (r : GraphNodeRecord) (a : NodeArena) : NodeIndex * NodeArena :=
  (na_next_id a, mkArena (na_records a ++ [r]) (na_live a ++ [true]) (u32_fetch_add (na_next_id a) 1)).

Definition arena_is_live (node : NodeIndex) (a : NodeArena) : bool :=
  default false (na_live a !! N.to_nat node).

Definition arena_get (node : NodeIndex) (a : NodeArena) : option GraphNodeRecord :=
  if arena_is_live node a then na_records a !! N.to_nat node else None.

Definition arena_update (node : NodeIndex) (r : GraphNodeRecord) (a : NodeArena) : bool * NodeArena :=
  if arena_is_live node a
  then (true, mkArena (<[N.to_nat node := r]> (na_records a)) (na_live a) (na_next_id a))
  else (false, a).

Definition arena_delete (node : NodeIndex) (a : NodeArena) : bool * NodeArena :=
  if arena_is_live node a
  then (true, mkArena (na_records a) (<[N.to_nat node := false]> (na_live a)) (na_next_id a))
  else (false, a).

Definition arena_node_count (a : NodeArena) : nat := length (filter (λ b, b = true) (na_live a)).
Definition arena_capacity (a : NodeArena) : nat := length (na_records a).
Definition live_nodes (a : NodeArena) : list NodeIndex :=
  omap (λ e, if e.2 : bool then Some (N.of_nat e.1) else None) (imap pair (na_live a)).

(** ** Edge delta (storage/edge_delta.rs) *)

Definition NULL_EDGE : N := u32_max.

Record EdgeRecord := mkEdge {
  rel_type : RelTypeId;
  src_node : NodeIndex;
  dst_node : NodeIndex;
  next_src : N;
  next_dst : N;
  prop_offset : N;
  weight : b32
}.
#[export] Instance eta_EdgeRecord : Eta EdgeRecord := λ r,
  mkEdge (rel_type r) (src_node r) (dst_node r) (next_src r) (next_dst r) (prop_offset r) (weight r).

Definition edge_record_new (t : RelTypeId) (src dst : NodeIndex) (w : b32) (off : N) : EdgeRecord :=
  mkEdge t src dst NULL_EDGE NULL_EDGE off w.

Record EdgeDelta := mkDelta {
  ed_records : list EdgeRecord;
  ed_live : list bool;
  ed_next_id : N
}.
Definition delta_new : EdgeDelta := mkDelta [] [] 0.

Definition delta_append (r : EdgeRecord) (d : EdgeDelta) : N * EdgeDelta :=
  (ed_next_id d, mkDelta (ed_records d ++ [r]) (ed_live d ++ [true]) (u32_fetch_add (ed_next_id d) 1)).

Definition delta_is_live (id : N) (d : EdgeDelta) : bool := default false (ed_live d !! N.to_nat id).

Definition delta_delete (id : N) (d : EdgeDelta) : bool * EdgeDelta :=
  if delta_is_live id d
  then (true, mkDelta (ed_records d) (<[N.to_nat id := false]> (ed_live d)) (ed_next_id d))
  else (false, d).

(** [get] and [update] also reach tombstoned records. *)
Definition delta_update (id : N) (r : EdgeRecord) (d : EdgeDelta) : bool * EdgeDelta :=
  if bool_decide (N.to_nat id < length (ed_live d))%nat
  then (true, mkDelta (<[N.to_nat id := r]> (ed_records d)) (ed_live d) (ed_next_id d))
  else (false, d).

Definition delta_get (id : N) (d : EdgeDelta) : option EdgeRecord :=
  if bool_decide (N.to_nat id < length (ed_live d))%nat then ed_records d !! N.to_nat id else None.

Definition delta_edge_count (d : EdgeDelta) : nat := length (filter (λ b, b = true) (ed_live d)).

Record EdgeDeltaStats := mkDeltaStats {
  total_records : nat;
  live_records : nat;
  tombstone_records : nat
}.
Definition delta_stats (d : EdgeDelta) : EdgeDeltaStats :=
  mkDeltaStats (length (ed_live d)) (delta_edge_count d) (length (ed_live d) - delta_edge_count d).

(** The walk along a chain; what the visitor is called with, in order.  [None]
    says that the fuel ran out, as it would on a cyclic chain. *)
Fixpoint iter_chain (next : EdgeRecord → N) (d : EdgeDelta) (fuel : nat) (cur : N) :
    option (list (N * EdgeRecord)) :=
  if (cur =? NULL_EDGE)%N then Some []
  else match fuel with
  | O => None
  | S fuel =>
      match ed_records d !! N.to_nat cur with
      | None => Some []
      | Some rec =>
          rest ← iter_chain next d fuel (next rec);
          Some (if delta_is_live cur d then (cur, rec) :: rest else rest)
      end
  end.

(** A chain visits no record twice. *)
Definition iter_out_chain (d : EdgeDelta) (head : N) : option (list (N * EdgeRecord)) :=
  iter_chain next_src d (S (length (ed_records d))) head.
Definition iter_in_chain (d : EdgeDelta) (head : N) : option (list (N * EdgeRecord)) :=
  iter_chain next_dst d (S (length (ed_records d))) head.

Definition live_edges (d : EdgeDelta) : list (N * EdgeRecord) :=
  omap (λ e, if e.2 : bool then pair (N.of_nat e.1) <$> ed_records d !! e.1 else None)
    (imap pair (ed_live d)).

(** ** Properties (storage/properties.rs) *)

Inductive GraphPropertyValue :=
  | PBool (b : bool) | PInt (i : Z) | PFloat (x : f64) | PText (s : string)
  | PIntList (l : list Z) | PFloatList (l : list f64) | PTextList (l : list string).

Abbreviation GraphProperties := (gmap PropertyKey GraphPropertyValue).

Record GraphPropertyStore := mkProps {
  node_props : gmap NodeIndex GraphProperties;
  rel_props : gmap N GraphProperties
}.
Definition props_new : GraphPropertyStore := mkProps ∅ ∅.

(** [entry(id).or_default()], then an insert per key of the patch. *)
Definition patch_entry (id : N) (patch : GraphProperties) (m : gmap N GraphProperties) :
    gmap N GraphProperties :=
  <[id := patch ∪ default ∅ (m !! id)]> m.

Definition patch_node_properties (node : NodeIndex) (patch : GraphProperties) (s : GraphPropertyStore) :=
  mkProps (patch_entry node patch (node_props s)) (rel_props s).
Definition patch_rel_properties (rel : N) (patch : GraphProperties) (s : GraphPropertyStore) :=
  mkProps (node_props s) (patch_entry rel patch (rel_props s)).
Definition set_node_property (node : NodeIndex) (k : PropertyKey) (v : GraphPropertyValue) s :=
  patch_node_properties node {[k := v]} s.
Definition set_rel_property (rel : N) (k : PropertyKey) (v : GraphPropertyValue) s :=
  patch_rel_properties rel {[k := v]} s.
Definition get_node_property (node : NodeIndex) (k : PropertyKey) (s : GraphPropertyStore) :
    option GraphPropertyValue := m ← node_props s !! node; m !! k.
Definition get_node_properties (node : NodeIndex) (s : GraphPropertyStore) : GraphProperties :=
  default ∅ (node_props s !! node).
Definition get_rel_property (rel : N) (k : PropertyKey) (s : GraphPropertyStore) :
    option GraphPropertyValue := m ← rel_props s !! rel; m !! k.
Definition delete_node_properties (node : NodeIndex) (s : GraphPropertyStore) :=
  mkProps (delete node (node_props s)) (rel_props s).
Definition delete_rel_properties (rel : N) (s : GraphPropertyStore) :=
  mkProps (node_props s) (delete rel (rel_props s)).

(** ** CSR and CSC adjacency (storage/csr.rs)

    [CsrAdjacency::build] and [CscAdjacency::build] are the same code with source
    and destination exchanged.  The parallel vectors of targets, types and
    weights are filled and sorted in lockstep; the builder keeps them zipped. *)

Abbreviation Slot := (NodeIndex * RelTypeId * b32)%type.

(** [v[i] = x]: a panic out of range. *)
Definition list_set {A} (i : nat) (x : A) (l : list A) : option (list A) :=
  if bool_decide (i < length l)%nat then Some (<[i := x]> l) else None.

Fixpoint prefix_sums (acc : nat) (l : list nat) : list nat :=
  acc :: match l with [] => [] | d :: l => prefix_sums (acc + d) l end.

Section build.
Context `{SortUnstable} (row col : EdgeRecord → NodeIndex) (arena : NodeArena) (node_count : nat).

(** The edges both passes look at. *)
Definition kept (e : EdgeRecord) : bool :=
  arena_is_live (src_node e) arena && arena_is_live (dst_node e) arena &&
  (N.to_nat (row e) <? node_count)%nat.

(** Pass 1 *)
Definition count_edge (deg : option (list nat)) (e : N * EdgeRecord) : option (list nat) :=
  deg ← deg;
  if kept e.2 then d ← deg !! N.to_nat (row e.2); list_set (N.to_nat (row e.2)) (S d) deg
  else Some deg.

(** Pass 3 *)
Definition fill_edge (st : option (list nat * list Slot)) (e : N * EdgeRecord) :
    option (list nat * list Slot) :=
  '(cursors, slots) ← st;
  let e := e.2 in
  if kept e then
    pos ← cursors !! N.to_nat (row e);
    slots ← list_set pos (col e, rel_type e, weight e) slots;
    cursors ← list_set (N.to_nat (row e)) (S pos) cursors;
    Some (cursors, slots)
  else Some (cursors, slots).

Definition slot_key_cmp (a b : Slot) : comparison :=
  then_with (a.1.1 ?= b.1.1)%N (a.1.2 ?= b.1.2)%N.

(** [&v[start..end]]: a panic when out of range or start > end. *)
Definition subslice {A} (start stop : nat) (l : list A) : option (list A) :=
  if bool_decide (start ≤ stop ≤ length l)%nat then Some (take (stop - start) (drop start l)) else None.

(** Sorting one row in place. *)
Definition sort_row (offsets : list nat) (slots : option (list Slot)) (v : nat) : option (list Slot) :=
  slots ← slots;
  start ← offsets !! v;
  stop ← offsets !! S v;
  if (S start <? stop)%nat then
    scratch ← subslice start stop slots;
    Some (take start slots ++ sort_by slot_key_cmp scratch ++ drop stop slots)
  else Some slots.

Definition build_slots (edges : list (N * EdgeRecord)) : option (list nat * list Slot) :=
  deg ← foldl count_edge (Some (replicate node_count 0%nat)) edges;
  let offsets := prefix_sums 0 deg in
  total ← last offsets;
  '(_, slots) ← foldl fill_edge
    (Some (take node_count offsets, replicate total (0%N, 0%N, f32_of_Z 1))) edges;
  slots ← foldl (sort_row offsets) (Some slots) (seq 0 node_count);
  Some (offsets, slots).
End build.

Record CsrAdjacency := mkCsr {
  row_offsets : list nat;
  targets : list NodeIndex;
  csr_rel_types : list RelTypeId;
  csr_weights : list b32;
  csr_node_count : nat
}.

Definition csr_of (n : nat) (r : list nat * list Slot) : CsrAdjacency :=
  mkCsr r.1 (r.2.*1.*1) (r.2.*1.*2) (r.2.*2) n.

Definition csr_build `{SortUnstable} (arena : NodeArena) (d : EdgeDelta) (n : nat) : option CsrAdjacency :=
  csr_of n <$> build_slots src_node dst_node arena n (live_edges d).
(** The columns of a [CscAdjacency] are [sources]; the record is the same. *)
Definition csc_build `{SortUnstable} (arena : NodeArena) (d : EdgeDelta) (n : nat) : option CsrAdjacency :=
  csr_of n <$> build_slots dst_node src_node arena n (live_edges d).

(** The slice of row [v] of one of the parallel vectors. *)
Definition row_slice {A} (field : CsrAdjacency → list A) (node : NodeIndex) (c : CsrAdjacency) :
    option (list A) :=
  let v := N.to_nat node in
  if (csr_node_count c <=? v)%nat then Some []
  else start ← row_offsets c !! v; stop ← row_offsets c !! S v; subslice start stop (field c).

Definition out_neighbors : NodeIndex → CsrAdjacency → option (list NodeIndex) := row_slice targets.
Definition out_weights : NodeIndex → CsrAdjacency → option (list b32) := row_slice csr_weights.

Definition csr_out_degree (node : NodeIndex) (c : CsrAdjacency) : option nat :=
  let v := N.to_nat node in
  if (csr_node_count c <=? v)%nat then Some 0%nat
  else start ← row_offsets c !! v; stop ← row_offsets c !! S v; Some (stop - start)%nat.

(** The chunks of eight and the remainder cover the slice once, in order. *)
Fixpoint filter_chunks (fuel : nat) (t : RelTypeId) (row : list (NodeIndex * RelTypeId)) : list NodeIndex :=
  match fuel with
  | O => []
  | S fuel =>
      let matching l := omap (λ x : NodeIndex * RelTypeId, if (x.2 =? t)%N then Some x.1 else None) l in
      if (8 <=? length row)%nat then matching (take 8 row) ++ filter_chunks fuel t (drop 8 row)
      else matching row
  end.
Definition filter_out_neighbors_simd (node : NodeIndex) (t : RelTypeId) (c : CsrAdjacency) :
    option (list NodeIndex) :=
  ts ← row_slice targets node c;
  rs ← row_slice csr_rel_types node c;
  Some (filter_chunks (S (length ts)) t (zip ts rs)).

(** [*row_offsets.last().unwrap_or(&0)] *)
Definition csr_edge_count (c : CsrAdjacency) : nat := default 0%nat (last (row_offsets c)).

(** *** Intersection of two sorted slices *)

Fixpoint intersect_linear (fuel : nat) (a b : list N) (count : nat) : nat :=
  match fuel, a, b with
  | S fuel, x :: a', y :: b' =>
      match (x ?= y)%N with
      | Eq => intersect_linear fuel a' b' (S count)
      | Lt => intersect_linear fuel a' b count
      | Gt => intersect_linear fuel a b' count
      end
  | _, _, _ => count
  end.

(** [while curr < large.len() && large[curr] < val] *)
Fixpoint gallop (fuel : nat) (large : list N) (val : N) (curr step : nat) : nat * nat :=
  match fuel, large !! curr with
  | S fuel, Some x => if (x <? val)%N then gallop fuel large val (curr + step) (step * 2) else (curr, step)
  | _, _ => (curr, step)
  end.

Definition gallop_step (large : list N) (st : option (nat * nat)) (val : N) : option (nat * nat) :=
  '(count, large_idx) ← st;
  if (length large <=? large_idx)%nat then Some (count, large_idx)
  else
    let '(curr, step) := gallop (length large) large val large_idx 1 in
    let start := Nat.min (Nat.max (curr - Nat.div2 step) large_idx) (length large) in
    let stop := Nat.min curr (length large) in
    if (start <? stop)%nat then
      s ← subslice start stop large;
      r ← binary_search_by_key (λ x, x) val s;
      Some (match r with
            | Ok pos => (S count, start + pos + 1)%nat
            | Err pos => (count, start + pos)%nat
            end)
    else match large !! start with
      | Some x => Some (if (x =? val)%N then (S count, S start) else (count, large_idx))
      | None => Some (count, large_idx)
      end.

Definition intersect_sorted_galloping (a b : list N) : option nat :=
  if bool_decide (a = []) || bool_decide (b = []) then Some 0%nat
  else if (length a <=? length b * 4)%nat && (length b <=? length a * 4)%nat
  then Some (intersect_linear (length a + length b) a b 0)
  else
    let '(small, large) := if (length a <=? length b)%nat then (a, b) else (b, a) in
    fst <$> foldl (gallop_step large) (Some (0, 0))%nat small.

(** ** Generations (storage/generation.rs, storage/adjacency_block.rs) *)

Record GraphGeneration := mkGeneration {
  gg_generation : N;
  gg_nodes : NodeArena;
  edge_delta : option EdgeDelta;
  sealed : option (CsrAdjacency * CsrAdjacency);
  gg_properties : GraphPropertyStore;
  node_count_at_seal : nat
}.
#[export] Instance eta_GraphGeneration : Eta GraphGeneration := λ g,
  mkGeneration (gg_generation g) (gg_nodes g) (edge_delta g) (sealed g) (gg_properties g)
    (node_count_at_seal g).

Definition new_mutable (generation : N) : GraphGeneration :=
  mkGeneration generation arena_new (Some delta_new) None props_new 0.
Definition is_mutable (g : GraphGeneration) : bool := bool_decide (is_Some (edge_delta g)).
Definition gen_node_count (g : GraphGeneration) : nat := arena_node_count (gg_nodes g).
Definition gen_edge_count (g : GraphGeneration) : nat :=
  match edge_delta g with
  | Some d => delta_edge_count d
  | None => from_option (λ s, csr_edge_count s.1) 0%nat (sealed g)
  end.

Definition seal `{SortUnstable} (g : GraphGeneration) : option (Result unit string * GraphGeneration) :=
  match sealed g, edge_delta g with
  | Some _, _ => Some (Err "Generation is already sealed", g)
  | None, None => Some (Err "No edge delta to seal", g)
  | None, Some d =>
      let n := arena_capacity (gg_nodes g) in
      outgoing ← csr_build (gg_nodes g) d n;
      incoming ← csc_build (gg_nodes g) d n;
      Some (Ok tt, g <| edge_delta := None |> <| node_count_at_seal := n |>
                     <| sealed := Some (outgoing, incoming) |>)
  end.

Definition gen_csr (g : GraphGeneration) : option CsrAdjacency := fst <$> sealed g.
Definition gen_csc (g : GraphGeneration) : option CsrAdjacency := snd <$> sealed g.

Inductive AdjacencyBlock :=
  | BlockDelta (nodes : NodeArena) (edges : EdgeDelta)
  | BlockImmutable (outgoing incoming : CsrAdjacency).

(** [expect] panics when there is neither form. *)
Definition adjacency (g : GraphGeneration) : option AdjacencyBlock :=
  match sealed g with
  | Some (outgoing, incoming) => Some (BlockImmutable outgoing incoming)
  | None => BlockDelta (gg_nodes g) <$> edge_delta g
  end.

Definition type_matches (filter : option RelTypeId) (t : RelTypeId) : bool :=
  match filter with None => true | Some f => (f =? t)%N end.

(** What the visitor is called with along a chain and along a row. *)
Definition expand_chain (other : EdgeRecord → NodeIndex) (f : option RelTypeId)
    (chain : list (N * EdgeRecord)) : list (NodeIndex * b32) :=
  omap (λ e, if type_matches f (rel_type e.2) then Some (other e.2, weight e.2) else None) chain.

Definition expand_row (f : option RelTypeId) (node : NodeIndex) (c : CsrAdjacency) :
    option (list (NodeIndex * b32)) :=
  neighbors ← row_slice targets node c;
  weights ← row_slice csr_weights node c;
  let row_start := default 0%nat (row_offsets c !! N.to_nat node) in
  l ← mapM (λ e : nat * NodeIndex,
         if type_matches f (default 0%N (csr_rel_types c !! (row_start + e.1)%nat))
         then w ← weights !! e.1; Some [(e.2, w)] else Some []) (imap pair neighbors);
  Some (concat l).

Definition expand_out (b : AdjacencyBlock) (node : NodeIndex) (f : option RelTypeId) :
    option (list (NodeIndex * b32)) :=
  match b with
  | BlockDelta nodes edges =>
      match arena_get node nodes with
      | Some rec => expand_chain dst_node f <$> iter_out_chain edges (out_ref rec)
      | None => Some []
      end
  | BlockImmutable outgoing _ => expand_row f node outgoing
  end.

Definition expand_in (b : AdjacencyBlock) (node : NodeIndex) (f : option RelTypeId) :
    option (list (NodeIndex * b32)) :=
  match b with
  | BlockDelta nodes edges =>
      match arena_get node nodes with
      | Some rec => expand_chain src_node f <$> iter_in_chain edges (in_ref rec)
      | None => Some []
      end
  | BlockImmutable _ incoming => expand_row f node incoming
  end.

Definition block_out_degree (b : AdjacencyBlock) (node : NodeIndex) : option nat :=
  match b with
  | BlockDelta nodes _ => Some (from_option (λ r, N.to_nat (out_degree r)) 0%nat (arena_get node nodes))
  | BlockImmutable outgoing _ => csr_out_degree node outgoing
  end.
Definition block_in_degree (b : AdjacencyBlock) (node : NodeIndex) : option nat :=
  match b with
  | BlockDelta nodes _ => Some (from_option (λ r, N.to_nat (in_degree r)) 0%nat (arena_get node nodes))
  | BlockImmutable _ incoming => csr_out_degree node incoming
  end.

(** ** Mutations (mutation/command.rs, mutation/apply.rs) *)

#[local] Set Warnings "-register-all".
Inductive GraphMutation :=
  | CreateNode (external_id : string) (labels : list LabelId) (properties : GraphProperties)
      (vector : option NodeIndex)
  | DeleteNode (external_id : string)
  | SetNodeLabels (external_id : string) (labels : list LabelId)
  | RemoveNodeLabels (external_id : string) (labels : list LabelId)
  | PatchNodeProperties (external_id : string) (properties : GraphProperties)
  | CreateRelationship (relationship_id : N) (src_external_id dst_external_id : string)
      (t : RelTypeId) (properties : GraphProperties) (w : b32)
  | DeleteRelationship (relationship_id : N)
  | PatchRelationshipProperties (relationship_id : N) (properties : GraphProperties)
  | GraphBatch (mutations : list GraphMutation).

(** The generation and the catalogs are shared with readers; only the applier
    writes to the generation, and nothing here writes to the catalogs. *)
Record GraphMutationApplier := mkApplier {
  ga_generation : GraphGeneration;
  label_catalog : Catalog;
  rel_catalog : Catalog;
  node_id_map : gmap string NodeIndex;
  rel_id_map : gmap N N
}.
#[export] Instance eta_GraphMutationApplier : Eta GraphMutationApplier := λ a,
  mkApplier (ga_generation a) (label_catalog a) (rel_catalog a) (node_id_map a) (rel_id_map a).

Definition applier_new (g : GraphGeneration) (labels rels : Catalog) : GraphMutationApplier :=
  mkApplier g labels rels ∅ ∅.

Definition with_gen (f : GraphGeneration → GraphGeneration) (a : GraphMutationApplier) :=
  a <| ga_generation ::= f |>.

Definition set_label_bit (add : bool) (mask : N) (label_id : LabelId) : N :=
  if (label_id <? LABEL_FAST_SLOTS)%N
  then if add then N.lor mask (N.shiftl 1 label_id)
       else N.ldiff mask (N.shiftl 1 label_id)
  else mask.

Definition create_node (external_id : string) (labels : list LabelId) (properties : GraphProperties)
    (slot : option NodeIndex) (a : GraphMutationApplier) : HNSQRResult unit * GraphMutationApplier :=
  if bool_decide (is_Some (node_id_map a !! external_id)) then (Ok tt, a)
  else
    let record := mkNodeRecord (foldl (set_label_bit true) 0%N labels) NULL_EDGE NULL_EDGE 0 0
                    (default u32_max slot) NULL_OVERFLOW_REF in
    let '(node_idx, arena) := arena_alloc record (gg_nodes (ga_generation a)) in
    let a := with_gen (λ g, g <| gg_nodes := arena |>) a in
    let a := if bool_decide (properties = ∅) then a
             else with_gen (λ g, g <| gg_properties ::= patch_node_properties node_idx properties |>) a in
    (Ok tt, a <| node_id_map ::= <[external_id := node_idx]> |>).

Definition delete_node (external_id : string) (a : GraphMutationApplier) :
    HNSQRResult unit * GraphMutationApplier :=
  match node_id_map a !! external_id with
  | None => (Ok tt, a)
  | Some node_idx =>
      let a := a <| node_id_map ::= delete external_id |> in
      (Ok tt, with_gen (λ g, g <| gg_nodes := (arena_delete node_idx (gg_nodes g)).2 |>
                               <| gg_properties ::= delete_node_properties node_idx |>) a)
  end.

Definition set_node_labels (external_id : string) (labels : list LabelId) (add : bool)
    (a : GraphMutationApplier) : HNSQRResult unit * GraphMutationApplier :=
  match node_id_map a !! external_id with
  | None => (Err (NodeNotFound external_id), a)
  | Some node_idx =>
      match arena_get node_idx (gg_nodes (ga_generation a)) with
      | None => (Ok tt, a)
      | Some record =>
          let record := record <| label_fast_mask ::= λ m, foldl (set_label_bit add) m labels |> in
          (Ok tt, with_gen (λ g, g <| gg_nodes := (arena_update node_idx record (gg_nodes g)).2 |>) a)
      end
  end.

Definition apply_patch_node (external_id : string) (properties : GraphProperties)
    (a : GraphMutationApplier) : HNSQRResult unit * GraphMutationApplier :=
  match node_id_map a !! external_id with
  | None => (Err (NodeNotFound external_id), a)
  | Some node_idx =>
      (Ok tt, with_gen (λ g, g <| gg_properties ::= patch_node_properties node_idx properties |>) a)
  end.

(** Linking a new edge at the head of both chains; [None] is the [unwrap] of a
    record that is not there. *)
Definition link_edge (edge : EdgeRecord) (src_rec : GraphNodeRecord) (src dst : NodeIndex)
    (nodes : NodeArena) (d : EdgeDelta) : option (N * NodeArena * EdgeDelta) :=
  let '(id, d) := delta_append (edge <| next_src := out_ref src_rec |>) d in
  let src_rec := src_rec <| out_ref := id |> <| out_degree ::= λ n, u32_saturating_add n 1 |> in
  let nodes := (arena_update src src_rec nodes).2 in
  match arena_get dst nodes with
  | None => Some (id, nodes, d)
  | Some dst_rec =>
      committed ← delta_get id d;
      let d := (delta_update id (committed <| next_dst := in_ref dst_rec |>) d).2 in
      let dst_rec := dst_rec <| in_ref := id |> <| in_degree ::= λ n, u32_saturating_add n 1 |> in
      Some (id, (arena_update dst dst_rec nodes).2, d)
  end.

Definition create_relationship (relationship_id : N) (src_id dst_id : string) (t : RelTypeId)
    (properties : GraphProperties) (w : b32) (a : GraphMutationApplier) :
    option (HNSQRResult unit * GraphMutationApplier) :=
  if bool_decide (is_Some (rel_id_map a !! relationship_id)) then Some (Ok tt, a)
  else match node_id_map a !! src_id, node_id_map a !! dst_id with
  | None, _ => Some (Err (NodeNotFound src_id), a)
  | Some _, None => Some (Err (NodeNotFound dst_id), a)
  | Some src, Some dst =>
      match edge_delta (ga_generation a) with
      | None => Some (Err (Internal "Graph generation is sealed; cannot write"), a)
      | Some d =>
          match arena_get src (gg_nodes (ga_generation a)) with
          | None => Some (Err (NodeNotFound src_id), a)
          | Some src_rec =>
              '(id, nodes, d) ← link_edge (edge_record_new t src dst w 0) src_rec src dst
                                  (gg_nodes (ga_generation a)) d;
              let a := with_gen (λ g, g <| gg_nodes := nodes |> <| edge_delta := Some d |>) a in
              let a := if bool_decide (properties = ∅) then a
                       else with_gen (λ g, g <| gg_properties ::= patch_rel_properties id properties |>) a in
              Some (Ok tt, a <| rel_id_map ::= <[relationship_id := id]> |>)
          end
      end
  end.

Definition delete_relationship (relationship_id : N) (a : GraphMutationApplier) :
    HNSQRResult unit * GraphMutationApplier :=
  match rel_id_map a !! relationship_id with
  | None => (Ok tt, a)
  | Some id =>
      let a := a <| rel_id_map ::= delete relationship_id |> in
      match edge_delta (ga_generation a) with
      | None => (Ok tt, a)
      | Some d =>
          (Ok tt, with_gen (λ g, g <| edge_delta := Some (delta_delete id d).2 |>
                                   <| gg_properties ::= delete_rel_properties id |>) a)
      end
  end.

Definition apply_patch_rel (relationship_id : N) (properties : GraphProperties)
    (a : GraphMutationApplier) : HNSQRResult unit * GraphMutationApplier :=
  match rel_id_map a !! relationship_id with
  | None => (Err (Internal "Relationship not found"), a)
  | Some id => (Ok tt, with_gen (λ g, g <| gg_properties ::= patch_rel_properties id properties |>) a)
  end.

Definition require_node (external_id : string) (a : GraphMutationApplier) : HNSQRResult unit :=
  if bool_decide (is_Some (node_id_map a !! external_id)) then Ok tt
  else Err (NodeNotFound external_id).

Fixpoint prevalidate (a : GraphMutationApplier) (m : GraphMutation) : HNSQRResult unit :=
  match m with
  | CreateRelationship _ src dst _ _ _ => let? _ := require_node src a in require_node dst a
  | SetNodeLabels id _ | RemoveNodeLabels id _ | PatchNodeProperties id _ => require_node id a
  | PatchRelationshipProperties rid _ =>
      if bool_decide (is_Some (rel_id_map a !! rid)) then Ok tt
      else Err (InvalidRequest "Relationship not found")
  | GraphBatch inner =>
      (fix go ms := match ms with
        | [] => Ok tt
        | m :: ms => let? _ := prevalidate a m in go ms
        end) inner
  | _ => Ok tt
  end.

Fixpoint graph_apply (m : GraphMutation) (a : GraphMutationApplier) :
    option (HNSQRResult unit * GraphMutationApplier) :=
  match m with
  | CreateNode id labels props slot => Some (create_node id labels props slot a)
  | DeleteNode id => Some (delete_node id a)
  | SetNodeLabels id labels => Some (set_node_labels id labels true a)
  | RemoveNodeLabels id labels => Some (set_node_labels id labels false a)
  | PatchNodeProperties id props => Some (apply_patch_node id props a)
  | CreateRelationship rid src dst t props w => create_relationship rid src dst t props w a
  | DeleteRelationship rid => Some (delete_relationship rid a)
  | PatchRelationshipProperties rid props => Some (apply_patch_rel rid props a)
  | GraphBatch ms =>
      match prevalidate a (GraphBatch ms) with
      | Err e => Some (Err e, a)
      | Ok _ =>
          (fix go ms a := match ms with
            | [] => Some (Ok tt, a)
            | m :: ms =>
                '(r, a) ← graph_apply m a;
                match r with Err e => Some (Err e, a) | Ok _ => go ms a end
            end) ms a
      end
  end.

Definition resolve_node (external_id : string) (a : GraphMutationApplier) : option NodeIndex :=
  node_id_map a !! external_id.

Definition applier_node_count (a : GraphMutationApplier) : nat := gen_node_count (ga_generation a).
Definition applier_edge_count (a : GraphMutationApplier) : nat := gen_edge_count (ga_generation a).

(** [GraphReadGeneration::expand_out] and [expand_in] *)
Definition gen_expand_out (g : GraphGeneration) (node : NodeIndex) (f : option RelTypeId) :
    option (list (NodeIndex * b32)) :=
  b ← adjacency g; expand_out b node f.
Definition gen_expand_in (g : GraphGeneration) (node : NodeIndex) (f : option RelTypeId) :
    option (list (NodeIndex * b32)) :=
  b ← adjacency g; expand_in b node f.

(** ** Snapshots (storage/snapshot.rs)

    The property store is shared with the live generation ([Arc] clone), so it
    is not a field: a snapshot reads the properties of the moment. *)

Record ImmutableGraphSnapshot := mkGraphSnapshot {
  gs_generation : N;
  gs_lsn : N;
  gs_labels : list string;
  gs_rel_types : list string;
  gs_nodes : list GraphNodeRecord;
  gs_live_nodes : list bool;
  gs_edges : list EdgeRecord;
  gs_live_edges : list bool;
  gs_node_ids : gmap string NodeIndex;
  gs_rel_ids : gmap N N
}.

Definition graph_snapshot (lsn : N) (a : GraphMutationApplier) : ImmutableGraphSnapshot :=
  let g := ga_generation a in
  mkGraphSnapshot (gg_generation g) lsn (catalog_snapshot (label_catalog a))
    (catalog_snapshot (rel_catalog a)) (na_records (gg_nodes g)) (na_live (gg_nodes g))
    (from_option ed_records [] (edge_delta g)) (from_option ed_live [] (edge_delta g))
    (node_id_map a) (rel_id_map a).

Definition snapshot_get_node (idx : NodeIndex) (s : ImmutableGraphSnapshot) : option GraphNodeRecord :=
  if bool_decide (N.to_nat idx < length (gs_nodes s))%nat && default false (gs_live_nodes s !! N.to_nat idx)
  then gs_nodes s !! N.to_nat idx else None.
Definition snapshot_get_node_index (external_id : string) (s : ImmutableGraphSnapshot) : option NodeIndex :=
  gs_node_ids s !! external_id.
Definition snapshot_node_count (s : ImmutableGraphSnapshot) : nat :=
  length (filter (λ b, b = true) (gs_live_nodes s)).
Definition snapshot_edge_count (s : ImmutableGraphSnapshot) : nat :=
  length (filter (λ b, b = true) (gs_live_edges s)).
