(* ===== verification/GraphFacts.v ===== *)
(** The mutable graph refines an abstract one: nodes by external id with labels
    and properties, and the list of the relationships that exist, in the order
    of their creation.  The intrusive chains of the edge delta are shown to list
    the relationships of a node, newest first. *)

From stdpp Require Import base gmap sets strings numbers list sorting fin_maps.
From S2P Require Import Prelude.
From S2P Require Import Floats.
From S2P Require Import Order.
From S2P Require Import Graph.

(** ** Lists *)

Lemma omap_imap_seq {A B} (F : nat → A → option B) (l : list A) :
  omap (λ e, F e.1 e.2) (imap pair l) = omap (λ i, x ← l !! i; F i x) (seq 0 (length l)).
Proof.
  induction l as [|x l IH] using rev_ind; [done|].
  rewrite imap_app, omap_app, IH, length_app, seq_app, omap_app. cbn. f_equal.
  - apply list_omap_ext, Forall2_same_length_lookup_2; [done|].
    intros i y z Hy Hz. simplify_eq. apply lookup_seq in Hy as [-> Hlt].
    cbn. by rewrite lookup_app_l.
  - rewrite Nat.add_0_r, lookup_app_r, Nat.sub_diag by done. done.
Qed.

(** ** The walk along a chain *)

Section chain.
Context (sel next : EdgeRecord → N).

(** The newest record before position [k] that selects [v]. *)
Fixpoint newest_before (recs : list EdgeRecord) (k : nat) (v : N) : N :=
  match k with
  | O => NULL_EDGE
  | S k =>
      match recs !! k with
      | Some e => if (sel e =? v)%N then N.of_nat k else newest_before recs k v
      | None => newest_before recs k v
      end
  end.

Definition live_at (d : EdgeDelta) (i : nat) : option (N * EdgeRecord) :=
  b ← ed_live d !! i; if b : bool then pair (N.of_nat i) <$> ed_records d !! i else None.

Definition chain_selected (d : EdgeDelta) (v : N) (k : nat) : list (N * EdgeRecord) :=
  reverse (filter (λ e, sel e.2 = v) (omap (live_at d) (seq 0 k))).

(** Every record points to the next older one of its node. *)
Definition linked (recs : list EdgeRecord) : Prop :=
  ∀ i e, recs !! i = Some e → next e = newest_before recs i (sel e).

Lemma live_edges_seq d : live_edges d = omap (live_at d) (seq 0 (length (ed_live d))).
Proof. apply (omap_imap_seq (λ i (b : bool), if b then pair (N.of_nat i) <$> ed_records d !! i else None)). Qed.

Lemma chain_selected_S d v k :
  chain_selected d v (S k) =
    match live_at d k with
    | Some e => if decide (sel e.2 = v) then e :: chain_selected d v k else chain_selected d v k
    | None => chain_selected d v k
    end.
Proof.
  unfold chain_selected. rewrite seq_S, omap_app, filter_app, reverse_app. cbn.
  destruct (live_at d k) as [e|]; [|done]. cbn. by destruct (decide (sel e.2 = v)).
Qed.

Lemma newest_before_app recs e k v :
  (k ≤ length recs)%nat → newest_before (recs ++ [e]) k v = newest_before recs k v.
Proof.
  induction k as [|k IH]; intros Hk; cbn; [done|]. rewrite lookup_app_l by lia. by rewrite IH by lia.
Qed.

Lemma newest_before_snoc recs e v :
  newest_before (recs ++ [e]) (length (recs ++ [e])) v =
    if (sel e =? v)%N then N.of_nat (length recs) else newest_before recs (length recs) v.
Proof.
  rewrite length_app, Nat.add_comm. cbn. rewrite lookup_app_r, Nat.sub_diag by done. cbn.
  by rewrite newest_before_app.
Qed.

Lemma newest_before_none recs v :
  (∀ e, e ∈ recs → sel e ≠ v) → ∀ k, newest_before recs k v = NULL_EDGE.
Proof.
  intros Hne k. induction k as [|k IH]; cbn; [done|]. destruct (recs !! k) as [e|] eqn:He; [|done].
  apply list_elem_of_lookup_2, Hne in He. by rewrite (proj2 (N.eqb_neq _ _)).
Qed.

Lemma iter_chain_newest d v k fuel :
  linked (ed_records d) → length (ed_live d) = length (ed_records d) →
  (N.of_nat (length (ed_records d)) < u32_max)%N →
  (k ≤ length (ed_records d))%nat → (k < fuel)%nat →
  iter_chain next d fuel (newest_before (ed_records d) k v) = Some (chain_selected d v k).
Proof.
  intros Hl Hlen Hmax. revert v fuel. induction k as [|k IH]; intros v fuel Hk Hf.
  { by destruct fuel. }
  cbn [newest_before]. rewrite chain_selected_S. destruct (lookup_lt_is_Some_2 (ed_records d) k) as [e He]; [lia|].
  destruct (lookup_lt_is_Some_2 (ed_live d) k) as [b Hb]; [lia|].
  unfold live_at. rewrite He, Hb. cbn. destruct (N.eqb_spec (sel e) v) as [<-|Hne].
  - destruct fuel as [|fuel]; [lia|]. cbn [iter_chain].
    rewrite (proj2 (N.eqb_neq _ _)) by (unfold NULL_EDGE; lia).
    rewrite Nat2N.id, He, (Hl k e He), IH by lia. cbn.
    unfold delta_is_live. rewrite Nat2N.id, Hb. cbn.
    destruct b; cbn; [|done]. by rewrite decide_True.
  - rewrite IH by lia. destruct b; cbn; [|done]. by rewrite decide_False.
Qed.

Lemma chain_selected_live d v :
  length (ed_live d) = length (ed_records d) →
  chain_selected d v (length (ed_records d)) = reverse (filter (λ e, sel e.2 = v) (live_edges d)).
Proof. intros Hlen. by rewrite live_edges_seq, Hlen. Qed.
End chain.

(** ** Arenas *)

Record arena_ok (a : NodeArena) : Prop := {
  arena_len : length (na_live a) = length (na_records a);
  arena_next : na_next_id a = (lenN (na_records a) `mod` u32_modulus)%N
}.
Record delta_ok (d : EdgeDelta) : Prop := {
  delta_len : length (ed_live d) = length (ed_records d);
  delta_next : ed_next_id d = (lenN (ed_records d) `mod` u32_modulus)%N
}.

Lemma u32_next n : u32_fetch_add (n `mod` u32_modulus) 1 = ((n + 1) `mod` u32_modulus)%N.
Proof. unfold u32_fetch_add. by rewrite N.Div0.add_mod_idemp_l. Qed.

Lemma arena_alloc_ok r a : arena_ok a → arena_ok (arena_alloc r a).2.
Proof.
  intros [Hl Hn]. split; cbn; [by rewrite !length_app, Hl|]. by rewrite Hn, u32_next, lenN_snoc.
Qed.

Lemma arena_update_ok v r a : arena_ok a → arena_ok (arena_update v r a).2.
Proof.
  intros [Hl Hn]. unfold arena_update. destruct (arena_is_live v a); [|done].
  split; unfold lenN in *; cbn; by rewrite length_insert.
Qed.

Lemma arena_delete_ok v a : arena_ok a → arena_ok (arena_delete v a).2.
Proof.
  intros [Hl Hn]. unfold arena_delete. destruct (arena_is_live v a); [|done].
  split; cbn; by rewrite ?length_insert.
Qed.

Lemma arena_live_lt v a : arena_is_live v a = true → (N.to_nat v < length (na_live a))%nat.
Proof.
  unfold arena_is_live. destruct (na_live a !! N.to_nat v) eqn:E; [|done]. intros _. by eapply lookup_lt_Some.
Qed.

Lemma arena_get_Some v a : arena_ok a → arena_is_live v a = true → ∃ r, arena_get v a = Some r.
Proof.
  intros [Hl _] Hv. unfold arena_get. rewrite Hv. apply lookup_lt_is_Some. rewrite <- Hl. by apply arena_live_lt.
Qed.

Lemma arena_alloc_live r a v :
  arena_ok a → (lenN (na_records a) < u32_modulus)%N →
  arena_is_live v (arena_alloc r a).2 = (arena_is_live v a || (v =? (arena_alloc r a).1)%N).
Proof.
  intros [Hl Hn] Hlt. unfold arena_is_live. cbn. rewrite Hn, N.mod_small by done. unfold lenN.
  destruct (decide (N.to_nat v < length (na_live a))%nat) as [Hv|Hv].
  - rewrite lookup_app_l by done. rewrite (proj2 (N.eqb_neq _ _)) by lia. by rewrite orb_false_r.
  - rewrite lookup_app_r, (lookup_ge_None_2 (na_live a)) by lia. cbn.
    destruct (N.eqb_spec v (N.of_nat (length (na_records a)))) as [->|Hne].
    + by rewrite Nat2N.id, Hl, Nat.sub_diag.
    + rewrite lookup_ge_None_2; [done|]. cbn. lia.
Qed.

Lemma arena_delete_live v a w :
  arena_is_live w (arena_delete v a).2 = arena_is_live w a && negb (w =? v)%N.
Proof.
  unfold arena_delete. destruct (arena_is_live v a) eqn:Hv; cbn.
  - pose proof (arena_live_lt v a Hv) as Hlt. unfold arena_is_live. cbn.
    destruct (N.eqb_spec w v) as [->|Hne].
    + rewrite list_lookup_insert_eq by done. by rewrite andb_false_r.
    + rewrite list_lookup_insert_ne by lia. by rewrite andb_true_r.
  - destruct (N.eqb_spec w v) as [->|Hne]; [by rewrite Hv|by rewrite andb_true_r].
Qed.

(** ** The delta and its live edges *)

Lemma live_at_lt d i x : delta_ok d → live_at d i = Some x → (i < length (ed_records d))%nat.
Proof.
  intros [Hl _]. unfold live_at. destruct (ed_live d !! i) eqn:E; [|done].
  intros _. rewrite <- Hl. by eapply lookup_lt_Some.
Qed.

Lemma live_edges_append d e n :
  delta_ok d →
  live_edges (mkDelta (ed_records d ++ [e]) (ed_live d ++ [true]) n) = live_edges d ++ [(lenN (ed_records d), e)].
Proof.
  intros [Hl _]. rewrite !live_edges_seq. cbn. rewrite length_app. cbn.
  rewrite Nat.add_1_r, seq_S, omap_app. f_equal.
  - apply list_omap_ext, Forall2_same_length_lookup_2; [done|].
    intros i y z Hy Hz. simplify_eq. apply lookup_seq in Hy as [-> Hlt]. unfold live_at. cbn.
    rewrite !lookup_app_l by lia. done.
  - cbn. unfold live_at. cbn. rewrite Hl, (lookup_app_r (ed_live d)), Hl, Nat.sub_diag by lia. cbn.
    by rewrite lookup_app_r, Nat.sub_diag by lia.
Qed.

Lemma omap_filter_id {A B} (f g : A → option B) (P : B → Prop) `{!∀ x, Decision (P x)} (l : list A) :
  (∀ x, x ∈ l → g x = (y ← f x; if decide (P y) then Some y else None)) → omap g l = filter P (omap f l).
Proof.
  induction l as [|x l IH]; intros Hfg; cbn; [done|].
  rewrite (Hfg x) by (by left). rewrite IH by (intros; apply Hfg; by right).
  destruct (f x) as [y|]; cbn; [|done]. by destruct (decide (P y)).
Qed.

Lemma live_edges_delete d id :
  live_edges (delta_delete id d).2 = filter (λ e, e.1 ≠ id) (live_edges d).
Proof.
  unfold delta_delete. destruct (delta_is_live id d) eqn:Hid; cbn [snd].
  - rewrite !live_edges_seq. cbn [ed_live]. rewrite length_insert. apply omap_filter_id.
    intros i [_ Hi]%elem_of_seq. unfold live_at. cbn [ed_live ed_records].
    destruct (decide (i = N.to_nat id)) as [->|Hne].
    + rewrite list_lookup_insert_eq by (cbn in Hi; lia). cbn. destruct (ed_live d !! N.to_nat id) as [[]|]; [|done..].
      destruct (ed_records d !! N.to_nat id); cbn; [|done]. by rewrite decide_False by (rewrite N2Nat.id; naive_solver).
    + rewrite list_lookup_insert_ne by done. destruct (ed_live d !! i) as [[]|]; [|done..].
      destruct (ed_records d !! i); cbn; [|done]. by rewrite decide_True by lia.
  - symmetry. rewrite live_edges_seq. induction (seq 0 (length (ed_live d))) as [|i l IH]; [done|]. cbn.
    destruct (live_at d i) as [[j e]|] eqn:E; [|done]. rewrite filter_cons_True; [by rewrite IH|].
    cbn. intros ->. unfold live_at in E. destruct (ed_live d !! i) as [[]|] eqn:Hb; [|done..].
    destruct (ed_records d !! i); [|done]. cbn in E. simplify_eq.
    unfold delta_is_live in Hid. rewrite Nat2N.id, Hb in Hid. done.
Qed.

Lemma live_edges_lookup d i e : delta_ok d → (i, e) ∈ live_edges d →
  ed_records d !! N.to_nat i = Some e ∧ (i < lenN (ed_records d))%N.
Proof.
  intros Hd. rewrite live_edges_seq, list_elem_of_omap. intros (j & _ & Hj).
  pose proof (live_at_lt d j _ Hd Hj) as Hlt. unfold live_at in Hj.
  destruct (ed_live d !! j) as [[]|]; [|done..]. destruct (ed_records d !! j) eqn:He; [|done].
  cbn in Hj. simplify_eq. rewrite Nat2N.id. split; [done|]. unfold lenN. lia.
Qed.

Lemma live_edges_NoDup d : NoDup (live_edges d).*1.
Proof.
  rewrite live_edges_seq, list_fmap_omap. apply NoDup_omap_inj; [|apply NoDup_seq].
  intros i j x. cbn. unfold live_at.
  destruct (ed_live d !! i) as [[]|], (ed_live d !! j) as [[]|]; cbn; try done.
  destruct (ed_records d !! i), (ed_records d !! j); cbn; try done. intros. simplify_eq. lia.
Qed.

(** ** Linking an edge *)

(** How [link_edge] changes the record of node [v]. *)
Definition relinked (id src dst : N) (v : N) (r r' : GraphNodeRecord) : Prop :=
  label_fast_mask r' = label_fast_mask r ∧
  out_ref r' = (if (v =? src)%N then id else out_ref r) ∧
  in_ref r' = (if (v =? dst)%N then id else in_ref r).

Lemma link_edge_spec edge src_rec src dst nodes d :
  arena_ok nodes → delta_ok d → (lenN (ed_records d) < u32_modulus)%N →
  arena_get src nodes = Some src_rec → arena_is_live dst nodes = true →
  ∃ dst_rec nodes' d', arena_get dst nodes = Some dst_rec ∧
    link_edge edge src_rec src dst nodes d = Some (lenN (ed_records d), nodes', d') ∧
    ed_records d' = ed_records d ++ [edge <| next_src := out_ref src_rec |> <| next_dst := in_ref dst_rec |>] ∧
    ed_live d' = ed_live d ++ [true] ∧ delta_ok d' ∧
    na_live nodes' = na_live nodes ∧ arena_ok nodes' ∧
    ∀ v, match na_records nodes !! N.to_nat v with
         | Some r => ∃ r', na_records nodes' !! N.to_nat v = Some r' ∧
                       relinked (lenN (ed_records d)) src dst v r r'
         | None => na_records nodes' !! N.to_nat v = None
         end.
Proof.
  intros Ha [Hdl Hdn] Hlt Hsrc Hdst.
  destruct (arena_get_Some dst nodes Ha Hdst) as [dst_rec Hdr].
  assert (arena_is_live src nodes = true) as Hsl.
  { unfold arena_get in Hsrc. by destruct (arena_is_live src nodes). }
  assert (na_records nodes !! N.to_nat src = Some src_rec) as Hs.
  { unfold arena_get in Hsrc. by rewrite Hsl in Hsrc. }
  assert (na_records nodes !! N.to_nat dst = Some dst_rec) as Hd.
  { unfold arena_get in Hdr. by rewrite Hdst in Hdr. }
  set (id := lenN (ed_records d)). set (e := edge <| next_src := out_ref src_rec |>).
  set (r1 := src_rec <| out_ref := id |> <| out_degree ::= λ n, u32_saturating_add n 1 |>).
  set (n1 := mkArena (<[N.to_nat src := r1]> (na_records nodes)) (na_live nodes) (na_next_id nodes)).
  assert (arena_ok n1) as Hn1.
  { destruct Ha as [? ?]. split; unfold lenN; cbn [n1 na_live na_records na_next_id];
      rewrite length_insert; done. }
  assert ((arena_update src r1 nodes).2 = n1) as Hup by (unfold arena_update; by rewrite Hsl).
  assert (arena_is_live dst n1 = true) as Hdst1 by done.
  assert (∃ r2, arena_get dst n1 = Some r2 ∧ in_ref r2 = in_ref dst_rec ∧
    label_fast_mask r2 = label_fast_mask dst_rec ∧
    out_ref r2 = if (dst =? src)%N then id else out_ref dst_rec) as (r2 & Hr2 & Hi2 & Hm2 & Ho2).
  { unfold arena_get. rewrite Hdst1. cbn [n1 na_records]. destruct (N.eqb_spec dst src) as [->|Hne].
    - rewrite list_lookup_insert_eq by (by eapply lookup_lt_Some). exists r1. simplify_eq. done.
    - rewrite list_lookup_insert_ne by lia. by exists dst_rec. }
  set (r3 := r2 <| in_ref := id |> <| in_degree ::= λ n, u32_saturating_add n 1 |>).
  exists dst_rec, (mkArena (<[N.to_nat dst := r3]> (na_records n1)) (na_live nodes) (na_next_id nodes)),
    (mkDelta (ed_records d ++ [e <| next_dst := in_ref dst_rec |>]) (ed_live d ++ [true])
       (u32_fetch_add (ed_next_id d) 1)).
  assert (N.to_nat id = length (ed_records d)) as Hid by (unfold id, lenN; lia).
  split_and!; try done.
  - unfold link_edge. cbn [delta_append]. rewrite Hdn, N.mod_small by done. fold id.
    change (src_rec <| out_ref := id |> <| out_degree ::= λ n, u32_saturating_add n 1 |>) with r1.
    rewrite Hup, Hr2. unfold delta_get. cbn [ed_live ed_records].
    rewrite bool_decide_true by (rewrite length_app; cbn; unfold id, lenN; lia).
    rewrite Hid, lookup_app_r, Nat.sub_diag by done. cbn [lookup list_lookup mbind option_bind].
    unfold delta_update. cbn [ed_live ed_records ed_next_id].
    rewrite bool_decide_true by (rewrite length_app; cbn; unfold id, lenN; lia). cbn [snd].
    change (r2 <| in_ref := id |> <| in_degree ::= λ n, u32_saturating_add n 1 |>) with r3.
    unfold arena_update. rewrite Hdst1. cbn [snd n1 na_records na_live na_next_id]. rewrite Hi2.
    rewrite Hid, insert_app_r_alt, Nat.sub_diag by done. done.
  - split; cbn [ed_live ed_records ed_next_id]; [by rewrite !length_app, Hdl|].
    by rewrite Hdn, u32_next, lenN_snoc.
  - destruct Hn1 as [? ?]. split; unfold lenN in *; cbn [na_records na_live na_next_id]; rewrite length_insert; done.
  - intros v. cbn [na_records n1]. unfold relinked.
    destruct (N.eqb_spec v dst) as [->|Hvd].
    + rewrite Hd, list_lookup_insert_eq; [by exists r3|]. rewrite length_insert. by eapply lookup_lt_Some.
    + rewrite list_lookup_insert_ne by lia. destruct (N.eqb_spec v src) as [->|Hvs].
      * rewrite Hs, list_lookup_insert_eq by (by eapply lookup_lt_Some). by exists r1.
      * rewrite list_lookup_insert_ne by lia. destruct (na_records nodes !! N.to_nat v) as [r|]; [|done]. by exists r.
Qed.

(** ** The abstract graph *)

Record SNode := mkSNode { sn_idx : NodeIndex; sn_mask : N; sn_props : GraphProperties }.
Record SRel := mkSRel {
  sr_id : N; sr_src : NodeIndex; sr_dst : NodeIndex; sr_type : RelTypeId; sr_weight : b32;
  sr_props : GraphProperties
}.
(** Nodes by external id, the number of indices handed out, the relationships. *)
Record SGraph := mkSGraph { s_nodes : gmap string SNode; s_allocated : N; s_rels : list SRel }.
Definition s_empty : SGraph := mkSGraph ∅ 0 [].

Definition has_rel (rid : N) (s : SGraph) : bool := bool_decide (rid ∈ sr_id <$> s_rels s).

Definition s_update_node (id : string) (f : SNode → SNode) (s : SGraph) : HNSQRResult unit * SGraph :=
  match s_nodes s !! id with
  | None => (Err (NodeNotFound id), s)
  | Some n => (Ok tt, mkSGraph (<[id := f n]> (s_nodes s)) (s_allocated s) (s_rels s))
  end.

Definition s_relabel (add : bool) (labels : list LabelId) (n : SNode) : SNode :=
  mkSNode (sn_idx n) (foldl (set_label_bit add) (sn_mask n) labels) (sn_props n).
Definition s_patch (p : GraphProperties) (n : SNode) : SNode :=
  mkSNode (sn_idx n) (sn_mask n) (p ∪ sn_props n).
Definition s_patch_rel (rid : N) (p : GraphProperties) (r : SRel) : SRel :=
  if (sr_id r =? rid)%N
  then mkSRel (sr_id r) (sr_src r) (sr_dst r) (sr_type r) (sr_weight r) (p ∪ sr_props r) else r.

Definition s_require (id : string) (s : SGraph) : HNSQRResult unit :=
  if bool_decide (is_Some (s_nodes s !! id)) then Ok tt else Err (NodeNotFound id).

Fixpoint s_prevalidate (s : SGraph) (m : GraphMutation) : HNSQRResult unit :=
  match m with
  | CreateRelationship _ src dst _ _ _ => let? _ := s_require src s in s_require dst s
  | SetNodeLabels id _ | RemoveNodeLabels id _ | PatchNodeProperties id _ => s_require id s
  | PatchRelationshipProperties rid _ =>
      if has_rel rid s then Ok tt else Err (InvalidRequest "Relationship not found")
  | GraphBatch inner =>
      (fix go ms := match ms with
        | [] => Ok tt
        | m :: ms => let? _ := s_prevalidate s m in go ms
        end) inner
  | _ => Ok tt
  end.

Fixpoint s_apply (m : GraphMutation) (s : SGraph) : HNSQRResult unit * SGraph :=
  match m with
  | CreateNode id labels props _ =>
      if bool_decide (is_Some (s_nodes s !! id)) then (Ok tt, s)
      else (Ok tt, mkSGraph
              (<[id := mkSNode (s_allocated s) (foldl (set_label_bit true) 0%N labels) props]> (s_nodes s))
              (s_allocated s + 1) (s_rels s))
  | DeleteNode id => (Ok tt, mkSGraph (delete id (s_nodes s)) (s_allocated s) (s_rels s))
  | SetNodeLabels id labels => s_update_node id (s_relabel true labels) s
  | RemoveNodeLabels id labels => s_update_node id (s_relabel false labels) s
  | PatchNodeProperties id props => s_update_node id (s_patch props) s
  | CreateRelationship rid src dst t props w =>
      if has_rel rid s then (Ok tt, s)
      else match s_nodes s !! src, s_nodes s !! dst with
      | None, _ => (Err (NodeNotFound src), s)
      | Some _, None => (Err (NodeNotFound dst), s)
      | Some x, Some y =>
          (Ok tt, mkSGraph (s_nodes s) (s_allocated s)
                    (s_rels s ++ [mkSRel rid (sn_idx x) (sn_idx y) t w props]))
      end
  | DeleteRelationship rid =>
      (Ok tt, mkSGraph (s_nodes s) (s_allocated s) (filter (λ r, sr_id r ≠ rid) (s_rels s)))
  | PatchRelationshipProperties rid props =>
      if has_rel rid s
      then (Ok tt, mkSGraph (s_nodes s) (s_allocated s) (s_patch_rel rid props <$> s_rels s))
      else (Err (Internal "Relationship not found"), s)
  | GraphBatch ms =>
      match s_prevalidate s (GraphBatch ms) with
      | Err e => (Err e, s)
      | Ok _ =>
          (fix go ms s := match ms with
            | [] => (Ok tt, s)
            | m :: ms =>
                let '(r, s) := s_apply m s in
                match r with Err e => (Err e, s) | Ok _ => go ms s end
            end) ms s
      end
  end.

(** The indices of the nodes that are not deleted. *)
Definition s_alive (s : SGraph) (v : NodeIndex) : Prop := v ∈ (sn_idx <$> (map_to_list (s_nodes s)).*2).
#[export] Instance s_alive_dec s v : Decision (s_alive s v).
Proof. unfold s_alive. apply _. Defined.

(** The relationships of node [v] that a traversal lists: newest first. *)
Definition s_expand (this other : SRel → NodeIndex) (f : option RelTypeId) (v : NodeIndex) (s : SGraph) :
    list (NodeIndex * b32) :=
  omap (λ r, if decide (this r = v) then if type_matches f (sr_type r) then Some (other r, sr_weight r)
             else None else None)
    (reverse (s_rels s)).

(** ** Simulation *)

Definition rel_matches (a : GraphMutationApplier) (x : N * EdgeRecord) (r : SRel) : Prop :=
  rel_id_map a !! sr_id r = Some x.1 ∧
  src_node x.2 = sr_src r ∧ dst_node x.2 = sr_dst r ∧ rel_type x.2 = sr_type r ∧ weight x.2 = sr_weight r ∧
  default ∅ (rel_props (gg_properties (ga_generation a)) !! x.1) = sr_props r.

Definition node_matches (a : GraphMutationApplier) (id : string) (n : SNode) : Prop :=
  node_id_map a !! id = Some (sn_idx n) ∧
  (∃ r, arena_get (sn_idx n) (gg_nodes (ga_generation a)) = Some r ∧ label_fast_mask r = sn_mask n) ∧
  get_node_properties (sn_idx n) (gg_properties (ga_generation a)) = sn_props n.

Record nodes_sim (a : GraphMutationApplier) (s : SGraph) : Prop := {
  sim_arena : arena_ok (gg_nodes (ga_generation a));
  sim_nodes id n : s_nodes s !! id = Some n → node_matches a id n;
  sim_no_node id : s_nodes s !! id = None → node_id_map a !! id = None;
  sim_inj id id' n n' : s_nodes s !! id = Some n → s_nodes s !! id' = Some n' → sn_idx n = sn_idx n' → id = id';
  sim_live v : arena_is_live v (gg_nodes (ga_generation a)) = true →
    ∃ id n, s_nodes s !! id = Some n ∧ sn_idx n = v;
  sim_allocated : s_allocated s = lenN (na_records (gg_nodes (ga_generation a)));
  sim_fresh_props v : (s_allocated s ≤ v)%N → node_props (gg_properties (ga_generation a)) !! v = None
}.

Record rels_sim (d : EdgeDelta) (a : GraphMutationApplier) (s : SGraph) : Prop := {
  sim_delta : delta_ok d;
  sim_rels : Forall2 (rel_matches a) (live_edges d) (s_rels s);
  sim_rel_ids : NoDup (sr_id <$> s_rels s);
  sim_rel_dom rid id : rel_id_map a !! rid = Some id → rid ∈ sr_id <$> s_rels s;
  sim_rel_fresh id : (lenN (ed_records d) ≤ id)%N → rel_props (gg_properties (ga_generation a)) !! id = None
}.

(** Heads and links of the chains. *)
Record chains_ok (nodes : NodeArena) (d : EdgeDelta) : Prop := {
  chain_src : linked src_node next_src (ed_records d);
  chain_dst : linked dst_node next_dst (ed_records d);
  chain_heads v r : na_records nodes !! N.to_nat v = Some r →
    out_ref r = newest_before src_node (ed_records d) (length (ed_records d)) v ∧
    in_ref r = newest_before dst_node (ed_records d) (length (ed_records d)) v;
  chain_ends e : e ∈ ed_records d →
    (src_node e < lenN (na_records nodes))%N ∧ (dst_node e < lenN (na_records nodes))%N
}.

Record graph_sim (a : GraphMutationApplier) (s : SGraph) (d : EdgeDelta) : Prop := {
  sim_mutable : edge_delta (ga_generation a) = Some d;
  sim_unsealed : sealed (ga_generation a) = None;
  sim_n : nodes_sim a s;
  sim_r : rels_sim d a s;
  sim_c : chains_ok (gg_nodes (ga_generation a)) d
}.

Abbreviation nodes_of a := (gg_nodes (ga_generation a)).
Abbreviation props_of a := (gg_properties (ga_generation a)).

Lemma nodes_sim_ext a a' s s' :
  nodes_of a' = nodes_of a → node_props (props_of a') = node_props (props_of a) →
  node_id_map a' = node_id_map a → s_nodes s' = s_nodes s → s_allocated s' = s_allocated s →
  nodes_sim a s → nodes_sim a' s'.
Proof.
  intros E1 E2 E3 E4 E5 [Ha Hn Hno Hi Hl Hal Hf].
  split; rewrite ?E1, ?E2, ?E3, ?E4, ?E5; try done.
  intros id n Hid. destruct (Hn id n Hid) as (H1 & H2 & H3).
  split_and!; [by rewrite E3|by rewrite E1|]. unfold get_node_properties in *. by rewrite E2.
Qed.

Lemma rels_sim_ext d a a' s s' :
  rel_props (props_of a') = rel_props (props_of a) → rel_id_map a' = rel_id_map a →
  s_rels s' = s_rels s → rels_sim d a s → rels_sim d a' s'.
Proof.
  intros E1 E2 E3 [Hd Hr Hnd Hdom Hf]. split; rewrite ?E1, ?E2, ?E3; try done.
  eapply Forall2_impl; [exact Hr|]. intros x r Hm. unfold rel_matches in *. by rewrite E1, E2.
Qed.

Lemma sim_id a s id : nodes_sim a s → node_id_map a !! id = sn_idx <$> s_nodes s !! id.
Proof.
  intros Hs. destruct (s_nodes s !! id) as [n|] eqn:Hid; cbn.
  - by destruct (sim_nodes _ _ Hs _ _ Hid).
  - by apply (sim_no_node _ _ Hs).
Qed.

Lemma sim_is_live a s id n : nodes_sim a s → s_nodes s !! id = Some n →
  arena_is_live (sn_idx n) (nodes_of a) = true.
Proof.
  intros Hs Hid. destruct (sim_nodes _ _ Hs _ _ Hid) as (_ & (r & Hr & _) & _).
  unfold arena_get in Hr. by destruct (arena_is_live _ _).
Qed.

Lemma sim_idx_lt a s id n : nodes_sim a s → s_nodes s !! id = Some n → (sn_idx n < s_allocated s)%N.
Proof.
  intros Hs Hid. rewrite (sim_allocated _ _ Hs). pose proof (sim_is_live _ _ _ _ Hs Hid) as Hl.
  apply arena_live_lt in Hl. rewrite (arena_len _ (sim_arena _ _ Hs)) in Hl. unfold lenN. lia.
Qed.

Lemma sim_has_rel d a s rid : rels_sim d a s →
  bool_decide (is_Some (rel_id_map a !! rid)) = has_rel rid s.
Proof.
  intros Hs. unfold has_rel. apply bool_decide_ext. split.
  - intros [id Hid]. by eapply sim_rel_dom.
  - intros (r & -> & Hr)%list_elem_of_fmap. apply list_elem_of_lookup in Hr as [i Hi].
    destruct (Forall2_lookup_r _ _ _ _ _ (sim_rels _ _ _ Hs) Hi) as (x & _ & Hx & _). eauto.
Qed.

Lemma sim_require a s id : nodes_sim a s → require_node id a = s_require id s.
Proof.
  intros Hs. unfold require_node, s_require. rewrite (sim_id _ _ _ Hs).
  by destruct (s_nodes s !! id).
Qed.

(** *** Induction over nested batches *)

Lemma mutation_ind (P : GraphMutation → Prop) :
  (∀ m, (∀ ms, m ≠ GraphBatch ms) → P m) → (∀ ms, Forall P ms → P (GraphBatch ms)) → ∀ m, P m.
Proof.
  intros Hp Hb. fix IH 1. intros [| | | | | | | |ms]; try (apply Hp; done).
  apply Hb. induction ms as [|m ms IHms]; constructor; [apply IH|exact IHms].
Qed.

Fixpoint mutation_size (m : GraphMutation) : nat :=
  match m with
  | GraphBatch ms => (fix go ms := match ms with [] => 0 | m :: ms => mutation_size m + go ms end)%nat ms
  | _ => 1%nat
  end.
Definition mutations_size (ms : list GraphMutation) : nat := mutation_size (GraphBatch ms).

(** Lists of mutations, one after the other until one fails. *)
Fixpoint graph_run (ms : list GraphMutation) (a : GraphMutationApplier) :
    option (HNSQRResult unit * GraphMutationApplier) :=
  match ms with
  | [] => Some (Ok tt, a)
  | m :: ms => '(r, a) ← graph_apply m a; match r with Err e => Some (Err e, a) | Ok _ => graph_run ms a end
  end.
Fixpoint s_run (ms : list GraphMutation) (s : SGraph) : HNSQRResult unit * SGraph :=
  match ms with
  | [] => (Ok tt, s)
  | m :: ms => let '(r, s) := s_apply m s in match r with Err e => (Err e, s) | Ok _ => s_run ms s end
  end.

Lemma graph_apply_batch ms a :
  graph_apply (GraphBatch ms) a =
    match prevalidate a (GraphBatch ms) with Err e => Some (Err e, a) | Ok _ => graph_run ms a end.
Proof.
  cbn [graph_apply]. destruct (prevalidate a (GraphBatch ms)); [|done].
  revert a. induction ms as [|m ms IH]; intros a; [done|]. cbn.
  destruct (graph_apply m a) as [[[[]|e] a1]|]; cbn; [apply IH|done..].
Qed.

Lemma s_apply_batch ms s :
  s_apply (GraphBatch ms) s =
    match s_prevalidate s (GraphBatch ms) with Err e => (Err e, s) | Ok _ => s_run ms s end.
Proof.
  cbn [s_apply]. destruct (s_prevalidate s (GraphBatch ms)); [|done].
  revert s. induction ms as [|m ms IH]; intros s; [done|]. cbn.
  destruct (s_apply m s) as [[[]|e] s1]; cbn; [apply IH|done].
Qed.

Lemma sim_prevalidate a s d m : graph_sim a s d → prevalidate a m = s_prevalidate s m.
Proof.
  intros [_ _ Hn Hr _]. revert m. apply mutation_ind.
  - intros [| | | | | | | |ms] Hm; cbn; rewrite ?(sim_require _ _ _ Hn), ?(sim_has_rel _ _ _ _ Hr); try done.
    by destruct (Hm ms).
  - intros ms Hms. cbn. induction Hms as [|m ms Hm Hms IH]; [done|]. rewrite Hm. by destruct (s_prevalidate s m).
Qed.

(** *** Node operations *)

Lemma create_node_sim id labels props slot a s d :
  graph_sim a s d → (s_allocated s < u32_modulus)%N →
  let '(r, a') := create_node id labels props slot a in
  let '(r', s') := s_apply (CreateNode id labels props slot) s in
  r = r' ∧ graph_sim a' s' d ∧ (s_allocated s' ≤ s_allocated s + 1)%N.
Proof.
  intros Hsim Hlt. destruct Hsim as [Hmut Hun Hn Hr Hc]. unfold create_node. cbn [s_apply].
  rewrite (sim_id _ _ id Hn). destruct (s_nodes s !! id) as [n|] eqn:Hid.
  { rewrite !bool_decide_true by (cbn; eauto). split_and!; [done|by split|lia]. }
  rewrite !bool_decide_false by (cbn; by intros []). cbn [arena_alloc].
  set (rec := mkNodeRecord _ _ _ _ _ _ _). set (arena := mkArena _ _ _).
  assert (arena = (arena_alloc rec (nodes_of a)).2) as Earena by done.
  set (v := na_next_id (nodes_of a)).
  assert (v = s_allocated s) as Ev.
  { unfold v. rewrite (arena_next _ (sim_arena _ _ Hn)), <- (sim_allocated _ _ Hn). by apply N.mod_small. }
  set (a1 := with_gen (λ g, g <| gg_nodes := arena |>) a).
  set (a2 := if bool_decide (props = ∅) then a1 else _).
  set (a3 := a2 <| node_id_map ::= <[id := v]> |>).
  set (s3 := mkSGraph _ _ _).
  assert (nodes_of a3 = arena) as En by (unfold a3, a2; by destruct (bool_decide _)).
  assert (rel_props (props_of a3) = rel_props (props_of a)) as Erp by (unfold a3, a2; by destruct (bool_decide _)).
  assert (rel_id_map a3 = rel_id_map a) as Eri by (unfold a3, a2; by destruct (bool_decide _)).
  assert (node_id_map a3 = <[id := v]> (node_id_map a)) as Eni by (unfold a3, a2; by destruct (bool_decide _)).
  assert (edge_delta (ga_generation a3) = Some d) as Eed by (unfold a3, a2; by destruct (bool_decide _)).
  assert (sealed (ga_generation a3) = None) as Ese by (unfold a3, a2; by destruct (bool_decide _)).
  assert (∀ w, node_props (props_of a3) !! w =
    if decide (w = v) then if decide (props = ∅) then None else Some props
    else node_props (props_of a) !! w) as Enp.
  { assert (node_props (props_of a) !! v = None) as Hfree by (apply (sim_fresh_props _ _ Hn); lia).
    intros w. unfold a3, a2. case_bool_decide as Hp; cbn.
    - rewrite (decide_True (P := props = ∅)) by done. case_decide as Hw; [by subst|done].
    - rewrite (decide_False (P := props = ∅)) by done.
      unfold patch_entry. rewrite Hfree. cbn. rewrite (right_id_L ∅ (∪)).
      case_decide as Hw; [by subst; rewrite lookup_insert_eq|by rewrite lookup_insert_ne]. }
  clearbody a3. clear a1 a2. split_and!; [done| |unfold s3; cbn; lia]. split; [done|done| | |].
  - assert (∀ w, arena_is_live w (nodes_of a3) = arena_is_live w (nodes_of a) || (w =? v)%N) as Hlive.
    { intros w. rewrite En, Earena. apply arena_alloc_live; [apply Hn|]. by rewrite <- (sim_allocated _ _ Hn). }
    assert (∀ w, (w < s_allocated s)%N → arena_get w (nodes_of a3) = arena_get w (nodes_of a)) as Hget.
    { intros w Hw. unfold arena_get. rewrite Hlive, (proj2 (N.eqb_neq w v)), orb_false_r by lia.
      destruct (arena_is_live w (nodes_of a)); [|done]. rewrite En. cbn. rewrite lookup_app_l; [done|].
      rewrite (sim_allocated _ _ Hn) in Hw. unfold lenN in Hw. lia. }
    split.
    + rewrite En, Earena. apply arena_alloc_ok, Hn.
    + intros id' n'. cbn [s3 s_nodes]. rewrite lookup_insert_Some. intros [[<- <-]|[Hne Hid']].
      * split_and!; cbn [sn_idx sn_mask sn_props].
        -- by rewrite Eni, lookup_insert_eq, Ev.
        -- exists rec. split; [|done]. unfold arena_get. rewrite Hlive, <- Ev, N.eqb_refl, orb_true_r.
           rewrite En. cbn [na_records arena]. rewrite Ev, (sim_allocated _ _ Hn). unfold lenN.
           by rewrite Nat2N.id, lookup_app_r, Nat.sub_diag by done.
        -- unfold get_node_properties. rewrite Enp, decide_True by done. by case_decide.
      * pose proof (sim_idx_lt _ _ _ _ Hn Hid') as Hlt'.
        destruct (sim_nodes _ _ Hn _ _ Hid') as (H1 & H2 & H3).
        split_and!; [by rewrite Eni, lookup_insert_ne|by rewrite Hget|].
        unfold get_node_properties in *. by rewrite Enp, decide_False by lia.
    + intros id'. cbn [s3 s_nodes]. rewrite lookup_insert_None, Eni. intros [H1 H2].
      rewrite lookup_insert_ne by done. by apply (sim_no_node _ _ Hn).
    + intros i1 i2 n1 n2. cbn [s3 s_nodes]. rewrite !lookup_insert_Some.
      intros [[<- <-]|[Hne1 H1]] [[<- <-]|[Hne2 H2]]; cbn [sn_idx]; [done|..].
      * pose proof (sim_idx_lt _ _ _ _ Hn H2). lia.
      * pose proof (sim_idx_lt _ _ _ _ Hn H1). lia.
      * by apply (sim_inj _ _ Hn).
    + intros w. rewrite Hlive. intros [Hw| ->%N.eqb_eq]%orb_true_iff.
      * destruct (sim_live _ _ Hn w Hw) as (id' & n' & Hid' & <-). exists id', n'. split; [|done].
        cbn [s3 s_nodes]. rewrite lookup_insert_ne; [done|]. intros ->. congruence.
      * eexists id, _. cbn [s3 s_nodes]. rewrite lookup_insert_eq. split; [done|]. symmetry. exact Ev.
    + cbn [s3 s_allocated]. rewrite En. cbn [arena na_records]. by rewrite lenN_snoc, (sim_allocated _ _ Hn).
    + intros w. cbn [s3 s_allocated]. intros Hw. rewrite Enp, decide_False by lia. apply (sim_fresh_props _ _ Hn). lia.
  - by apply (rels_sim_ext d a a3 s s3).
  - destruct Hc as [H1 H2 H3 H4]. split; [done|done|..]; rewrite En; cbn [arena na_records].
    + intros w r. rewrite lookup_snoc_Some. intros [[_ Hw]|[Hw <-]]; [by apply H3|].
      assert (w = lenN (na_records (nodes_of a))) as -> by (unfold lenN; lia).
      cbn [rec out_ref in_ref]. split; symmetry; apply newest_before_none; intros e [? ?]%H4; lia.
    + intros e [? ?]%H4. rewrite lenN_snoc. lia.
Qed.

(** Updates of a node's record or properties that keep the chains. *)
Lemma nodes_sim_update a a' s id n n' :
  nodes_sim a s → s_nodes s !! id = Some n → sn_idx n' = sn_idx n →
  node_id_map a' = node_id_map a → na_live (nodes_of a') = na_live (nodes_of a) →
  arena_ok (nodes_of a') → lenN (na_records (nodes_of a')) = lenN (na_records (nodes_of a)) →
  (∀ w, w ≠ sn_idx n → na_records (nodes_of a') !! N.to_nat w = na_records (nodes_of a) !! N.to_nat w) →
  (∀ w, w ≠ sn_idx n → node_props (props_of a') !! w = node_props (props_of a) !! w) →
  (∃ r, na_records (nodes_of a') !! N.to_nat (sn_idx n) = Some r ∧ label_fast_mask r = sn_mask n') →
  get_node_properties (sn_idx n) (props_of a') = sn_props n' →
  nodes_sim a' (mkSGraph (<[id := n']> (s_nodes s)) (s_allocated s) (s_rels s)).
Proof.
  intros Hs Hid Hidx Eni Elive Hok Elen Erec Eprops (r & Hr & Hmask) Hprops.
  assert (∀ w, arena_is_live w (nodes_of a') = arena_is_live w (nodes_of a)) as Hlive
    by (intros w; unfold arena_is_live; by rewrite Elive).
  split; cbn [s_nodes s_allocated].
  - done.
  - intros id2 n2. rewrite lookup_insert_Some. intros [[<- <-]|[Hne Hid2]].
    + split_and!; rewrite ?Hidx; [by rewrite Eni, (sim_id _ _ _ Hs), Hid| |done].
      exists r. split; [|done]. unfold arena_get. by rewrite Hlive, (sim_is_live _ _ _ _ Hs Hid).
    + assert (sn_idx n2 ≠ sn_idx n) as Hi2 by (intros He; apply Hne; by eapply (sim_inj _ _ Hs)).
      destruct (sim_nodes _ _ Hs _ _ Hid2) as (H1 & H2 & H3). split_and!.
      * by rewrite Eni.
      * unfold arena_get. rewrite Hlive, Erec by done. exact H2.
      * unfold get_node_properties in *. by rewrite Eprops.
  - intros id2. rewrite lookup_insert_None, Eni. intros [? _]. by apply (sim_no_node _ _ Hs).
  - intros i1 i2 n1 n2. rewrite !lookup_insert_Some.
    intros [[<- <-]|[Hne1 H1]] [[<- <-]|[Hne2 H2]]; rewrite ?Hidx; [done|..]; by eapply (sim_inj _ _ Hs).
  - intros w. rewrite Hlive. intros Hw. destruct (sim_live _ _ Hs w Hw) as (i2 & n2 & H2 & <-).
    destruct (decide (i2 = id)) as [->|Hne].
    + exists id, n'. rewrite lookup_insert_eq. simplify_eq. done.
    + exists i2, n2. by rewrite lookup_insert_ne.
  - by rewrite Elen, (sim_allocated _ _ Hs).
  - intros w Hw. pose proof (sim_idx_lt _ _ _ _ Hs Hid). rewrite Eprops by lia. by apply (sim_fresh_props _ _ Hs).
Qed.

Lemma chains_ok_ext nodes nodes' d :
  lenN (na_records nodes') = lenN (na_records nodes) →
  (∀ v r', na_records nodes' !! N.to_nat v = Some r' →
     ∃ r, na_records nodes !! N.to_nat v = Some r ∧ out_ref r' = out_ref r ∧ in_ref r' = in_ref r) →
  chains_ok nodes d → chains_ok nodes' d.
Proof.
  intros Elen Href [H1 H2 H3 H4]. split; [done|done| |].
  - intros v r' (r & Hr & -> & ->)%Href. by apply H3.
  - intros e He. rewrite Elen. by apply H4.
Qed.

Lemma set_node_labels_sim id labels add a s d :
  graph_sim a s d →
  let '(r, a') := set_node_labels id labels add a in
  let '(r', s') := s_update_node id (s_relabel add labels) s in
  r = r' ∧ graph_sim a' s' d ∧ s_allocated s' = s_allocated s.
Proof.
  intros [Hmut Hun Hn Hr Hc]. unfold set_node_labels, s_update_node. rewrite (sim_id _ _ id Hn).
  destruct (s_nodes s !! id) as [n|] eqn:Hid; cbn [fmap option_fmap option_map]; [|by split_and!].
  destruct (sim_nodes _ _ Hn _ _ Hid) as (H1 & (r & Hg & Hm) & H3). rewrite Hg.
  pose proof (sim_is_live _ _ _ _ Hn Hid) as Hlive.
  assert (na_records (nodes_of a) !! N.to_nat (sn_idx n) = Some r) as Hr0.
  { unfold arena_get in Hg. by rewrite Hlive in Hg. }
  set (rec := r <| label_fast_mask ::= _ |>).
  set (a' := with_gen _ a).
  assert (nodes_of a' = mkArena (<[N.to_nat (sn_idx n) := rec]> (na_records (nodes_of a)))
    (na_live (nodes_of a)) (na_next_id (nodes_of a))) as En.
  { change (nodes_of a') with (arena_update (sn_idx n) rec (nodes_of a)).2. unfold arena_update. by rewrite Hlive. }
  assert (lenN (na_records (nodes_of a')) = lenN (na_records (nodes_of a))) as Elen.
  { rewrite En. unfold lenN. cbn [na_records]. by rewrite length_insert. }
  assert (∀ w, w ≠ sn_idx n → na_records (nodes_of a') !! N.to_nat w = na_records (nodes_of a) !! N.to_nat w) as Ene.
  { intros w Hw. rewrite En. cbn [na_records]. by rewrite list_lookup_insert_ne by lia. }
  assert (na_records (nodes_of a') !! N.to_nat (sn_idx n) = Some rec) as Eeq.
  { rewrite En. cbn [na_records]. apply list_lookup_insert_eq. by eapply lookup_lt_Some. }
  split_and!; [done| |done]. split; [done|done| | |].
  - apply (nodes_sim_update a a' s id n); try done.
    + by rewrite En.
    + change (nodes_of a') with (arena_update (sn_idx n) rec (nodes_of a)).2. apply arena_update_ok, Hn.
    + exists rec. split; [done|]. change (label_fast_mask rec) with (foldl (set_label_bit add) (label_fast_mask r) labels).
      cbn. by rewrite Hm.
  - by apply (rels_sim_ext d a a' s).
  - apply (chains_ok_ext (nodes_of a)); [done| |done]. intros v r'.
    destruct (decide (v = sn_idx n)) as [->|Hne].
    + rewrite Eeq. intros [= <-]. by exists r.
    + rewrite Ene by done. intros Hv. by exists r'.
Qed.

Lemma patch_node_sim id props a s d :
  graph_sim a s d →
  let '(r, a') := apply_patch_node id props a in
  let '(r', s') := s_update_node id (s_patch props) s in
  r = r' ∧ graph_sim a' s' d ∧ s_allocated s' = s_allocated s.
Proof.
  intros [Hmut Hun Hn Hr Hc]. unfold apply_patch_node, s_update_node. rewrite (sim_id _ _ id Hn).
  destruct (s_nodes s !! id) as [n|] eqn:Hid; cbn [fmap option_fmap option_map]; [|by split_and!].
  destruct (sim_nodes _ _ Hn _ _ Hid) as (H1 & (r & Hg & Hm) & H3). set (a' := with_gen _ a).
  assert (node_props (props_of a') = patch_entry (sn_idx n) props (node_props (props_of a))) as Enp by done.
  split_and!; [done| |done]. split; [done|done| | |done].
  - apply (nodes_sim_update a a' s id n); try done.
    + apply Hn.
    + intros w Hw. rewrite Enp. unfold patch_entry. by rewrite lookup_insert_ne.
    + exists r. split; [|done]. unfold arena_get in Hg. by rewrite (sim_is_live _ _ _ _ Hn Hid) in Hg.
    + unfold get_node_properties in *. rewrite Enp. unfold patch_entry. rewrite lookup_insert_eq. cbn. by rewrite H3.
  - by apply (rels_sim_ext d a a' s).
Qed.

Lemma delete_node_sim id a s d :
  graph_sim a s d →
  let '(r, a') := delete_node id a in
  let '(r', s') := s_apply (DeleteNode id) s in
  r = r' ∧ graph_sim a' s' d ∧ s_allocated s' = s_allocated s.
Proof.
  intros [Hmut Hun Hn Hr Hc]. unfold delete_node. cbn [s_apply]. rewrite (sim_id _ _ id Hn).
  destruct (s_nodes s !! id) as [n|] eqn:Hid; cbn [fmap option_fmap option_map].
  2:{ rewrite delete_id by done. destruct s. by split_and!. }
  set (a' := with_gen _ _).
  assert (nodes_of a' = (arena_delete (sn_idx n) (nodes_of a)).2) as En by done.
  assert (node_props (props_of a') = delete (sn_idx n) (node_props (props_of a))) as Enp by done.
  assert (node_id_map a' = delete id (node_id_map a)) as Eni by done.
  assert (rel_props (props_of a') = rel_props (props_of a)) as Erp by done.
  assert (rel_id_map a' = rel_id_map a) as Eri by done.
  assert (edge_delta (ga_generation a') = Some d) as Eed by done.
  assert (sealed (ga_generation a') = None) as Ese by done.
  assert (na_records (nodes_of a') = na_records (nodes_of a)) as Erec.
  { rewrite En. unfold arena_delete. by destruct (arena_is_live _ _). }
  clearbody a'. split_and!; [done| |done]. split; [done|done| | |].
  - split; cbn [s_nodes s_allocated].
    + rewrite En. apply arena_delete_ok, Hn.
    + intros id2 n2. rewrite lookup_delete_Some. intros [Hne Hid2].
      assert (sn_idx n2 ≠ sn_idx n) as Hi2 by (intros He; apply Hne; by eapply (sim_inj _ _ Hn)).
      destruct (sim_nodes _ _ Hn _ _ Hid2) as (H1 & H2 & H3). split_and!.
      * by rewrite Eni, lookup_delete_ne.
      * unfold arena_get in *. rewrite Erec, En, arena_delete_live, (proj2 (N.eqb_neq _ _)) by done.
        by rewrite andb_true_r.
      * unfold get_node_properties in *. by rewrite Enp, lookup_delete_ne.
    + intros id2. rewrite lookup_delete_None, Eni, lookup_delete_None.
      intros [->|?]; [by left|right]. by apply (sim_no_node _ _ Hn).
    + intros i1 i2 n1 n2. rewrite !lookup_delete_Some. intros [_ H1] [_ H2]. by eapply (sim_inj _ _ Hn).
    + intros w. rewrite En, arena_delete_live. intros [Hw Hne]%andb_true_iff.
      destruct (sim_live _ _ Hn w Hw) as (i2 & n2 & H2 & <-). exists i2, n2. split; [|done].
      rewrite lookup_delete_ne; [done|]. intros ->. simplify_eq. by rewrite N.eqb_refl in Hne.
    + by rewrite Erec, (sim_allocated _ _ Hn).
    + intros w Hw. rewrite Enp, lookup_delete_None. right. by apply (sim_fresh_props _ _ Hn).
  - by apply (rels_sim_ext d a a' s).
  - apply (chains_ok_ext (nodes_of a)); [by rewrite Erec| |done]. intros v r'. rewrite Erec. intros Hv. by exists r'.
Qed.

(** *** Relationship operations *)

Lemma linked_snoc sel next recs e :
  linked sel next recs → next e = newest_before sel recs (length recs) (sel e) → linked sel next (recs ++ [e]).
Proof.
  intros Hl He i x. rewrite lookup_snoc_Some. intros [[Hi Hx]|[-> <-]].
  - rewrite newest_before_app by lia. by apply Hl.
  - by rewrite newest_before_app.
Qed.

Lemma nodes_sim_relink a a' s s' id src dst :
  nodes_sim a s → s_nodes s' = s_nodes s → s_allocated s' = s_allocated s →
  node_id_map a' = node_id_map a → node_props (props_of a') = node_props (props_of a) →
  na_live (nodes_of a') = na_live (nodes_of a) → arena_ok (nodes_of a') →
  (∀ v, match na_records (nodes_of a) !! N.to_nat v with
        | Some r => ∃ r', na_records (nodes_of a') !! N.to_nat v = Some r' ∧ relinked id src dst v r r'
        | None => na_records (nodes_of a') !! N.to_nat v = None
        end) →
  nodes_sim a' s'.
Proof.
  intros Hs E1 E2 Eni Enp Elive Hok Hrel.
  assert (∀ w, arena_is_live w (nodes_of a') = arena_is_live w (nodes_of a)) as Hlive
    by (intros w; unfold arena_is_live; by rewrite Elive).
  split; rewrite ?E1, ?E2.
  - done.
  - intros id2 n2 Hid2. destruct (sim_nodes _ _ Hs _ _ Hid2) as (H1 & (r & H2 & Hm) & H3). split_and!.
    + by rewrite Eni.
    + unfold arena_get in *. rewrite Hlive. destruct (arena_is_live (sn_idx n2) (nodes_of a)); [|done].
      specialize (Hrel (sn_idx n2)). rewrite H2 in Hrel. destruct Hrel as (r' & Hr' & Hm' & _).
      exists r'. by rewrite Hr', Hm'.
    + unfold get_node_properties in *. by rewrite Enp.
  - intros id2. rewrite Eni. apply (sim_no_node _ _ Hs).
  - intros i1 i2 n1 n2. apply (sim_inj _ _ Hs).
  - intros w. rewrite Hlive. apply (sim_live _ _ Hs).
  - rewrite (sim_allocated _ _ Hs). unfold lenN. f_equal.
    by rewrite <- (arena_len _ (sim_arena _ _ Hs)), <- (arena_len _ Hok), Elive.
  - rewrite Enp. apply (sim_fresh_props _ _ Hs).
Qed.

Lemma chains_ok_link nodes nodes' d d' e src_rec dst_rec :
  chains_ok nodes d → arena_ok nodes → arena_ok nodes' → na_live nodes' = na_live nodes →
  arena_get (src_node e) nodes = Some src_rec → arena_get (dst_node e) nodes = Some dst_rec →
  next_src e = out_ref src_rec → next_dst e = in_ref dst_rec →
  ed_records d' = ed_records d ++ [e] →
  (∀ v, match na_records nodes !! N.to_nat v with
        | Some r => ∃ r', na_records nodes' !! N.to_nat v = Some r' ∧
                      relinked (lenN (ed_records d)) (src_node e) (dst_node e) v r r'
        | None => na_records nodes' !! N.to_nat v = None
        end) →
  chains_ok nodes' d'.
Proof.
  intros [H1 H2 H3 H4] Ha Ha' Elive Hs Hd Ens End Erec Hrel.
  assert (∀ v r, arena_get v nodes = Some r →
    na_records nodes !! N.to_nat v = Some r ∧ (v < lenN (na_records nodes))%N) as Hget.
  { intros v r. unfold arena_get. destruct (arena_is_live v nodes); [|done]. intros Hr. split; [done|].
    apply lookup_lt_Some in Hr. unfold lenN. lia. }
  destruct (Hget _ _ Hs) as [Hs' Hslt], (Hget _ _ Hd) as [Hd' Hdlt].
  assert (lenN (na_records nodes') = lenN (na_records nodes)) as Elen.
  { unfold lenN. f_equal. by rewrite <- (arena_len _ Ha), <- (arena_len _ Ha'), Elive. }
  split; rewrite Erec.
  - apply linked_snoc; [done|]. rewrite Ens. by apply H3.
  - apply linked_snoc; [done|]. rewrite End. by apply H3.
  - intros v r' Hr'. rewrite !newest_before_snoc. specialize (Hrel v).
    destruct (na_records nodes !! N.to_nat v) as [r|] eqn:Hr; [|congruence].
    destruct Hrel as (r2 & Hr2 & _ & Ho & Hi). simplify_eq. destruct (H3 _ _ Hr) as [Ho' Hi'].
    rewrite Ho, Hi, (N.eqb_sym (src_node e)), (N.eqb_sym (dst_node e)), Ho', Hi'. done.
  - intros x [Hx| ->%list_elem_of_singleton]%elem_of_app; rewrite Elen; [by apply H4|done].
Qed.

Lemma live_edges_fields d1 d2 :
  ed_records d1 = ed_records d2 → ed_live d1 = ed_live d2 → live_edges d1 = live_edges d2.
Proof. intros E1 E2. unfold live_edges. by rewrite E1, E2. Qed.

Lemma rels_sim_create d d' a a' s s' e r :
  rels_sim d a s → has_rel (sr_id r) s = false → delta_ok d' →
  ed_records d' = ed_records d ++ [e] → ed_live d' = ed_live d ++ [true] →
  rel_id_map a' = <[sr_id r := lenN (ed_records d)]> (rel_id_map a) →
  s_rels s' = s_rels s ++ [r] →
  (∀ i, i ≠ lenN (ed_records d) → rel_props (props_of a') !! i = rel_props (props_of a) !! i) →
  rel_matches a' (lenN (ed_records d), e) r → rels_sim d' a' s'.
Proof.
  intros [Hd Hr Hnd Hdom Hf] Hhas Hd' Erec Elive Eri Es Ep Hm.
  apply bool_decide_eq_false_1 in Hhas.
  assert (live_edges d' = live_edges d ++ [(lenN (ed_records d), e)]) as El.
  { rewrite <- (live_edges_append d e 0) by done. by apply live_edges_fields. }
  split.
  - done.
  - rewrite El, Es. apply Forall2_app; [|by constructor].
    apply Forall2_same_length_lookup. split; [by eapply Forall2_length|].
    intros i [j x] r' Hx Hr'. destruct (Forall2_lookup_lr _ _ _ _ _ _ Hr Hx Hr') as (M1 & M2).
    destruct (live_edges_lookup d j x Hd) as [_ Hj]; [by eapply list_elem_of_lookup_2|].
    split; [|rewrite Ep by (cbn; lia); exact M2]. rewrite Eri, lookup_insert_ne; [exact M1|].
    intros He. apply Hhas. rewrite He. apply list_elem_of_fmap_2. by eapply list_elem_of_lookup_2.
  - rewrite Es, fmap_app. apply NoDup_app. split_and!; [done| |apply NoDup_singleton].
    intros x Hx ->%list_elem_of_singleton. done.
  - intros rid id. rewrite Eri, lookup_insert_Some, Es, fmap_app, elem_of_app.
    intros [[<- _]|[_ Hid]]; [right; by apply list_elem_of_singleton|left]. by eapply Hdom.
  - intros id. rewrite Erec, lenN_snoc. intros Hid. rewrite Ep by lia. apply Hf. lia.
Qed.

Lemma create_relationship_sim rid src dst t props w a s d :
  graph_sim a s d → (lenN (ed_records d) < u32_modulus)%N →
  ∃ r a' d', create_relationship rid src dst t props w a = Some (r, a') ∧
    (s_apply (CreateRelationship rid src dst t props w) s).1 = r ∧
    graph_sim a' (s_apply (CreateRelationship rid src dst t props w) s).2 d' ∧
    s_allocated (s_apply (CreateRelationship rid src dst t props w) s).2 = s_allocated s ∧
    (lenN (ed_records d') ≤ lenN (ed_records d) + 1)%N.
Proof.
  intros Hsim Hlt. pose proof Hsim as [Hmut Hun Hn Hr Hc]. unfold create_relationship. cbn [s_apply].
  rewrite (sim_has_rel _ _ _ rid Hr), (sim_id _ _ src Hn), (sim_id _ _ dst Hn).
  destruct (has_rel rid s) eqn:Hhas; [eexists _, a, d; split_and!; try done; lia|].
  destruct (s_nodes s !! src) as [x|] eqn:Hx; [|eexists _, a, d; split_and!; try done; lia].
  destruct (s_nodes s !! dst) as [y|] eqn:Hy; [|eexists _, a, d; split_and!; try done; lia].
  cbn [fmap option_fmap option_map]. rewrite Hmut.
  destruct (sim_nodes _ _ Hn _ _ Hx) as (_ & (src_rec & Hsr & _) & _). rewrite Hsr.
  destruct (link_edge_spec (edge_record_new t (sn_idx x) (sn_idx y) w 0) src_rec (sn_idx x) (sn_idx y)
    (nodes_of a) d) as (dst_rec & nodes' & d' & Hdr & Hlink & Erec & Elive & Hd' & Enl & Hok' & Hrel);
    [apply Hn|apply Hr|done|done|by eapply sim_is_live|].
  rewrite Hlink. cbn [mbind option_bind].
  set (id := lenN (ed_records d)) in *.
  set (a1 := with_gen (λ g, g <| gg_nodes := nodes' |> <| edge_delta := Some d' |>) a).
  set (a2 := if bool_decide (props = ∅) then a1 else _).
  set (a3 := a2 <| rel_id_map ::= <[rid := id]> |>).
  assert (nodes_of a3 = nodes') as En by (unfold a3, a2; by destruct (bool_decide _)).
  assert (node_props (props_of a3) = node_props (props_of a)) as Enp by (unfold a3, a2; by destruct (bool_decide _)).
  assert (rel_id_map a3 = <[rid := id]> (rel_id_map a)) as Eri by (unfold a3, a2; by destruct (bool_decide _)).
  assert (node_id_map a3 = node_id_map a) as Eni by (unfold a3, a2; by destruct (bool_decide _)).
  assert (edge_delta (ga_generation a3) = Some d') as Eed by (unfold a3, a2; by destruct (bool_decide _)).
  assert (sealed (ga_generation a3) = None) as Ese by (unfold a3, a2; by destruct (bool_decide _)).
  assert ((∀ i, i ≠ id → rel_props (props_of a3) !! i = rel_props (props_of a) !! i) ∧
          default ∅ (rel_props (props_of a3) !! id) = props) as [Erp Eid].
  { assert (rel_props (props_of a) !! id = None) as Hfree by (apply (sim_rel_fresh _ _ _ Hr); lia).
    unfold a3, a2. case_bool_decide as Hp; cbn; [split; [done|by rewrite Hfree, Hp]|].
    unfold patch_entry. rewrite Hfree, lookup_insert_eq. cbn. rewrite (right_id_L ∅ (∪)).
    split; [|done]. intros i Hi. by rewrite lookup_insert_ne. }
  clearbody a3. clear a2 a1. eexists _, a3, d'. split_and!; [done|done| |done|].
  2:{ rewrite Erec, lenN_snoc. fold id. lia. }
  split; [done|done| | |].
  - eapply (nodes_sim_relink a a3 s _ id (sn_idx x) (sn_idx y)); try done; by rewrite En.
  - eapply (rels_sim_create d d' a a3 s _ _ (mkSRel rid (sn_idx x) (sn_idx y) t w props)); try done.
    split_and!; try done. by rewrite Eri, lookup_insert_eq.
  - rewrite En. apply (chains_ok_link (nodes_of a) nodes' d d' ((edge_record_new t (sn_idx x) (sn_idx y) w 0)
      <| next_src := out_ref src_rec |> <| next_dst := in_ref dst_rec |>) src_rec dst_rec); try done. apply Hn.
Qed.

Lemma sim_rel_edge d a s rid id : rels_sim d a s → rel_id_map a !! rid = Some id →
  ∃ i e r, live_edges d !! i = Some (id, e) ∧ s_rels s !! i = Some r ∧ sr_id r = rid.
Proof.
  intros [Hd Hrs Hnd Hdom Hf] Hid. destruct (list_elem_of_fmap_1 sr_id _ _ (Hdom _ _ Hid)) as (r & -> & Hr).
  apply list_elem_of_lookup in Hr as [i Hi].
  destruct (Forall2_lookup_r _ _ _ _ _ Hrs Hi) as ([j e] & Hx & M & _). cbn in M. simplify_eq. by exists i, e, r.
Qed.

Lemma sim_rel_inj d a s r1 r2 id : rels_sim d a s →
  rel_id_map a !! r1 = Some id → rel_id_map a !! r2 = Some id → r1 = r2.
Proof.
  intros Hs (i & e & r & Hi & Hr & <-)%(sim_rel_edge d a s) (j & e' & r' & Hj & Hr' & <-)%(sim_rel_edge d a s); try done.
  assert (i = j) as ->; [|congruence]. apply (NoDup_lookup (live_edges d).*1 i j id); [apply live_edges_NoDup|..].
  - by rewrite list_lookup_fmap, Hi.
  - by rewrite list_lookup_fmap, Hj.
Qed.

Lemma sim_rel_lt d a s rid id : rels_sim d a s → rel_id_map a !! rid = Some id → (id < lenN (ed_records d))%N.
Proof.
  intros Hs (i & e & r & Hi & _)%(sim_rel_edge d a s); [|done].
  apply list_elem_of_lookup_2, live_edges_lookup in Hi; [by destruct Hi|apply Hs].
Qed.

Lemma delete_relationship_sim rid a s d :
  graph_sim a s d →
  let '(r, a') := delete_relationship rid a in
  let '(r', s') := s_apply (DeleteRelationship rid) s in
  r = r' ∧ s_allocated s' = s_allocated s ∧
  ∃ d', graph_sim a' s' d' ∧ lenN (ed_records d') = lenN (ed_records d).
Proof.
  intros [Hmut Hun Hn Hr Hc]. unfold delete_relationship. cbn [s_apply].
  destruct (rel_id_map a !! rid) as [id|] eqn:Hid.
  2:{ split_and!; [done|done|]. exists d. split; [|done]. split; [done|done| | |done].
      - by apply (nodes_sim_ext a a s).
      - apply (rels_sim_ext d a a s); [done|done| |done]. cbn [s_rels].
        apply filter_all. intros r Hin Heq.
        pose proof (sim_has_rel _ _ _ rid Hr) as Hhas. rewrite Hid, bool_decide_false in Hhas by (by intros []).
        symmetry in Hhas. apply bool_decide_eq_false_1 in Hhas. apply Hhas, list_elem_of_fmap. by exists r. }
  cbn [ga_generation]. set (a1 := a <| rel_id_map ::= delete rid |>).
  change (edge_delta (ga_generation a1)) with (edge_delta (ga_generation a)). rewrite Hmut.
  set (a' := with_gen _ a1). set (d' := (delta_delete id d).2).
  assert (rel_id_map a' = delete rid (rel_id_map a)) as Eri by done.
  assert (rel_props (props_of a') = delete id (rel_props (props_of a))) as Erp by done.
  assert (ed_records d' = ed_records d) as Erec.
  { unfold d', delta_delete. by destruct (delta_is_live id d). }
  split_and!; [done|done|]. exists d'. split; [|by rewrite Erec]. split; [done|done| | |].
  - by apply (nodes_sim_ext a a' s).
  - pose proof Hr as [Hd Hrs Hnd Hdom Hf].
    assert (∀ x r, (x, r) ∈ zip (live_edges d) (s_rels s) → (x.1 ≠ id ↔ sr_id r ≠ rid)) as Hiff.
    { intros x r [i Hi]%list_elem_of_lookup. apply lookup_zip_Some in Hi as [Hx Hrr].
      destruct (Forall2_lookup_lr _ _ _ _ _ _ Hrs Hx Hrr) as [M1 _].
      split; intros Hne Heq; apply Hne; [congruence|].
      rewrite Heq in M1. by eapply (sim_rel_inj d a s). }
    split.
    + destruct Hd as [Hdl Hdn]. unfold d', delta_delete. destruct (delta_is_live id d); [|done].
      split; cbn [snd ed_live ed_records ed_next_id]; [by rewrite length_insert|done].
    + unfold d'. rewrite live_edges_delete. cbn [s_rels].
      assert (∀ l k, Forall2 (rel_matches a) l k → (∀ x r, (x, r) ∈ zip l k → (x.1 ≠ id ↔ sr_id r ≠ rid)) →
        Forall2 (rel_matches a') (filter (λ e, e.1 ≠ id) l) (filter (λ r, sr_id r ≠ rid) k)) as Hgen; [|by apply Hgen].
      induction 1 as [|x r l k Hm Hlk IH]; intros Hz; [constructor|].
      assert (x.1 ≠ id ↔ sr_id r ≠ rid) as Hxr by (apply Hz; by left).
      destruct (decide (x.1 = id)) as [He|Hne].
      * rewrite !filter_cons_False by (rewrite ?Hxr in *; tauto). apply IH. intros; apply Hz. by right.
      * rewrite !filter_cons_True by (rewrite ?Hxr in *; tauto).
        constructor; [|apply IH; intros; apply Hz; by right].
        destruct Hm as (M1 & M2). split; [rewrite Eri, lookup_delete_ne by naive_solver; done|].
        rewrite Erp, lookup_delete_ne by done. exact M2.
    + cbn [s_rels]. apply (sublist_NoDup _ (sr_id <$> s_rels s)); [exact Hnd|apply fmap_sublist, filter_sublist].
    + intros rid' id'. rewrite Eri, lookup_delete_Some. intros [Hne (r & -> & Hr')%Hdom%list_elem_of_fmap].
      cbn [s_rels]. apply list_elem_of_fmap_2, list_elem_of_filter. done.
    + intros i Hi. rewrite Erp, lookup_delete_None. right. apply Hf. by rewrite Erec in Hi.
  - destruct Hc as [H1 H2 H3 H4]. split; rewrite Erec; done.
Qed.

Lemma patch_rel_sim rid props a s d :
  graph_sim a s d →
  let '(r, a') := apply_patch_rel rid props a in
  let '(r', s') := s_apply (PatchRelationshipProperties rid props) s in
  r = r' ∧ graph_sim a' s' d ∧ s_allocated s' = s_allocated s.
Proof.
  intros [Hmut Hun Hn Hr Hc]. unfold apply_patch_rel. cbn [s_apply]. rewrite <- (sim_has_rel _ _ _ rid Hr).
  destruct (rel_id_map a !! rid) as [id|] eqn:Hid;
    [rewrite bool_decide_true by eauto|by rewrite bool_decide_false by (by intros []); split_and!].
  set (a' := with_gen _ a).
  assert (rel_props (props_of a') = patch_entry id props (rel_props (props_of a))) as Erp by done.
  split_and!; [done| |done]. split; [done|done| | |done].
  - by apply (nodes_sim_ext a a' s).
  - pose proof Hr as [Hd Hrs Hnd Hdom Hf].
    assert (sr_id <$> (s_patch_rel rid props <$> s_rels s) = sr_id <$> s_rels s) as Eids.
    { rewrite <- list_fmap_compose. apply list_fmap_ext. intros i r _. cbn. unfold s_patch_rel.
      by destruct (sr_id r =? rid)%N. }
    split; [done| |by cbn [s_rels]; rewrite Eids|by cbn [s_rels]; rewrite Eids|].
    + cbn [s_rels]. apply Forall2_fmap_r. eapply Forall2_impl; [exact Hrs|].
      intros [i e] r (M1 & M2 & M3 & M4 & M5 & M6). cbn [fst snd] in *. unfold compose, s_patch_rel.
      destruct (decide (sr_id r = rid)) as [<-|Hne]; [rewrite N.eqb_refl|rewrite (proj2 (N.eqb_neq _ _)) by done].
      * assert (i = id) as -> by congruence. split_and!; try done. cbn [fst sr_props]. rewrite Erp. unfold patch_entry.
        rewrite lookup_insert_eq. cbn. by rewrite M6.
      * split_and!; try done. cbn [fst]. rewrite Erp. unfold patch_entry. rewrite lookup_insert_ne; [done|].
        intros <-. apply Hne. by eapply (sim_rel_inj d a s).
    + intros i Hi. pose proof (sim_rel_lt _ _ _ _ _ Hr Hid). rewrite Erp. unfold patch_entry.
      rewrite lookup_insert_ne by lia. by apply Hf.
Qed.

(** *** Mutations, batches and runs *)

Definition within (n : nat) (s s' : SGraph) (d d' : EdgeDelta) : Prop :=
  (s_allocated s' ≤ s_allocated s + N.of_nat n)%N ∧ (lenN (ed_records d') ≤ lenN (ed_records d) + N.of_nat n)%N.

Definition simulated (m : GraphMutation) : Prop := ∀ a s d,
  graph_sim a s d → (s_allocated s + N.of_nat (mutation_size m) < u32_max)%N →
  (lenN (ed_records d) + N.of_nat (mutation_size m) < u32_max)%N →
  ∃ a' d', graph_apply m a = Some ((s_apply m s).1, a') ∧ graph_sim a' (s_apply m s).2 d' ∧
    within (mutation_size m) s (s_apply m s).2 d d'.

Lemma graph_run_sim ms : Forall simulated ms → ∀ a s d,
  graph_sim a s d → (s_allocated s + N.of_nat (mutations_size ms) < u32_max)%N →
  (lenN (ed_records d) + N.of_nat (mutations_size ms) < u32_max)%N →
  ∃ a' d', graph_run ms a = Some ((s_run ms s).1, a') ∧ graph_sim a' (s_run ms s).2 d' ∧
    within (mutations_size ms) s (s_run ms s).2 d d'.
Proof.
  induction 1 as [|m ms Hm Hms IH]; intros a s d Hs Hn He.
  { exists a, d. split_and!; [done|done|]. split; cbn; lia. }
  assert (mutations_size (m :: ms) = mutation_size m + mutations_size ms)%nat as E by done. rewrite E in *.
  destruct (Hm a s d Hs) as (a1 & d1 & Ha & Hs1 & [Hw1 Hw2]); [lia..|]. cbn [graph_run s_run]. rewrite Ha.
  destruct (s_apply m s) as [r s1]. cbn [fst snd mbind option_bind] in *. destruct r as [[]|er].
  - destruct (IH a1 s1 d1 Hs1) as (a2 & d2 & Ha2 & Hs2 & [Hw3 Hw4]); [lia..|].
    exists a2, d2. split_and!; [done|done|]. split; lia.
  - exists a1, d1. split_and!; [done|done|]. split; cbn; lia.
Qed.

Lemma apply_simulated m : simulated m.
Proof.
  revert m. apply mutation_ind.
  - intros m Hm a s d Hs Hn He.
    assert (u32_max < u32_modulus)%N as Hu by done.
    destruct m as [id ls ps sl|id|id ls|id ls|id ps|rid src dst t ps w|rid|rid ps|ms]; [..|by destruct (Hm ms)];
      cbn [mutation_size graph_apply] in *.
    + pose proof (create_node_sim id ls ps sl a s d Hs ltac:(lia)) as Hp.
      destruct (create_node id ls ps sl a) as [r a']. destruct (s_apply _ s) as [r' s'].
      destruct Hp as (-> & Hs' & Hle). exists a', d. split_and!; [done|done|]. split; cbn; lia.
    + pose proof (delete_node_sim id a s d Hs) as Hp.
      destruct (delete_node id a) as [r a']. destruct (s_apply _ s) as [r' s'].
      destruct Hp as (-> & Hs' & Hle). exists a', d. split_and!; [done|done|]. split; cbn; lia.
    + pose proof (set_node_labels_sim id ls true a s d Hs) as Hp. cbn [s_apply].
      destruct (set_node_labels id ls true a) as [r a']. destruct (s_update_node _ _ s) as [r' s'].
      destruct Hp as (-> & Hs' & Hle). exists a', d. split_and!; [done|done|]. split; cbn; lia.
    + pose proof (set_node_labels_sim id ls false a s d Hs) as Hp. cbn [s_apply].
      destruct (set_node_labels id ls false a) as [r a']. destruct (s_update_node _ _ s) as [r' s'].
      destruct Hp as (-> & Hs' & Hle). exists a', d. split_and!; [done|done|]. split; cbn; lia.
    + pose proof (patch_node_sim id ps a s d Hs) as Hp. cbn [s_apply].
      destruct (apply_patch_node id ps a) as [r a']. destruct (s_update_node _ _ s) as [r' s'].
      destruct Hp as (-> & Hs' & Hle). exists a', d. split_and!; [done|done|]. split; cbn; lia.
    + destruct (create_relationship_sim rid src dst t ps w a s d Hs ltac:(lia))
        as (r & a' & d' & Ha & <- & Hs' & Hal & Hle). exists a', d'. split_and!; [done|done|]. split; lia.
    + pose proof (delete_relationship_sim rid a s d Hs) as Hp.
      destruct (delete_relationship rid a) as [r a']. destruct (s_apply _ s) as [r' s'].
      destruct Hp as (-> & Hle & d' & Hs' & Hd'). exists a', d'. split_and!; [done|done|]. split; cbn; lia.
    + pose proof (patch_rel_sim rid ps a s d Hs) as Hp.
      destruct (apply_patch_rel rid ps a) as [r a']. destruct (s_apply _ s) as [r' s'].
      destruct Hp as (-> & Hs' & Hle). exists a', d. split_and!; [done|done|]. split; cbn; lia.
  - intros ms Hms a s d Hs Hn He. rewrite graph_apply_batch, s_apply_batch, (sim_prevalidate a s d _ Hs).
    destruct (s_prevalidate s (GraphBatch ms)) as [[]|er]; [by apply graph_run_sim|].
    exists a, d. split_and!; [done|done|]. split; cbn [fst snd]; lia.
Qed.

(** *** What a traversal sees *)

Lemma filter_reverse {A} (P : A → Prop) `{!∀ x, Decision (P x)} (l : list A) :
  reverse (filter P l) = filter P (reverse l).
Proof.
  induction l as [|x l IH]; [done|]. rewrite reverse_cons, filter_app, <- IH.
  destruct (decide (P x)).
  - by rewrite !filter_cons_True, reverse_cons, filter_nil by done.
  - by rewrite !filter_cons_False, filter_nil, app_nil_r by done.
Qed.

Lemma expand_matches (this other : SRel → N) (sel oth : EdgeRecord → N) f v a (l : list (N * EdgeRecord)) k :
  (∀ x r, rel_matches a x r → sel x.2 = this r ∧ oth x.2 = other r) →
  Forall2 (rel_matches a) l k →
  expand_chain oth f (filter (λ e, sel e.2 = v) l) =
    omap (λ r, if decide (this r = v) then if type_matches f (sr_type r) then Some (other r, sr_weight r)
               else None else None) k.
Proof.
  intros Hsel Hlk. unfold expand_chain. induction Hlk as [|x r l k Hm Hlk IH]; [done|].
  destruct (Hsel x r Hm) as [H1 H2]. destruct Hm as (_ & _ & _ & Ht & Hw & _). cbn.
  destruct (decide (sel x.2 = v)), (decide (this r = v)); try congruence; cbn; [|exact IH].
  rewrite Ht, Hw, H2. destruct (type_matches f (sr_type r)); [f_equal|]; exact IH.
Qed.

Lemma expand_sim a s d id n f :
  graph_sim a s d → (lenN (ed_records d) < u32_max)%N → s_nodes s !! id = Some n →
  let b := BlockDelta (nodes_of a) d in
  expand_out b (sn_idx n) f = Some (s_expand sr_src sr_dst f (sn_idx n) s) ∧
  expand_in b (sn_idx n) f = Some (s_expand sr_dst sr_src f (sn_idx n) s).
Proof.
  intros [_ _ Hn Hr Hc] Hlt Hid b. unfold b, expand_out, expand_in.
  destruct (sim_nodes _ _ Hn _ _ Hid) as (_ & (r & Hg & _) & _). rewrite Hg.
  assert (na_records (nodes_of a) !! N.to_nat (sn_idx n) = Some r) as Hrec.
  { unfold arena_get in Hg. by destruct (arena_is_live _ _). }
  destruct (chain_heads _ _ Hc _ _ Hrec) as [-> ->].
  assert (length (ed_live d) = length (ed_records d)) as Hlen by apply Hr.
  unfold iter_out_chain, iter_in_chain, s_expand. split.
  - rewrite iter_chain_newest, chain_selected_live; [|try done; try apply Hc; unfold lenN in Hlt; lia..].
    cbn. rewrite filter_reverse. f_equal. apply (expand_matches _ _ _ _ _ _ a).
    + by intros x q (_ & ? & ? & _).
    + apply Forall2_reverse, Hr.
  - rewrite iter_chain_newest, chain_selected_live; [|try done; try apply Hc; unfold lenN in Hlt; lia..].
    cbn. rewrite filter_reverse. f_equal. apply (expand_matches _ _ _ _ _ _ a).
    + by intros x q (_ & ? & ? & _).
    + apply Forall2_reverse, Hr.
Qed.

Lemma live_edges_count d : delta_ok d → length (live_edges d) = delta_edge_count d.
Proof.
  intros [Hl _]. unfold live_edges, delta_edge_count.
  assert (∀ l k, (k + length l ≤ length (ed_records d))%nat →
    length (omap (λ e : nat * bool, if e.2 then pair (N.of_nat e.1) <$> ed_records d !! e.1 else None)
      (imap (λ i b, (k + i, b)%nat) l)) = length (filter (λ b, b = true) l)) as Hgen.
  { induction l as [|b l IH]; intros k Hk; [done|]. cbn [imap]. cbn [length] in Hk.
    assert (imap ((λ i b, (k + i, b)%nat) ∘ S) l = imap (λ i b, (S k + i, b)%nat) l) as E.
    { apply imap_ext. intros i x _. cbn. f_equal. lia. }
    cbn. rewrite E, Nat.add_0_r. destruct b.
    - destruct (lookup_lt_is_Some_2 (ed_records d) k) as [e He]; [lia|]. rewrite He. cbn.
      destruct (decide (true = true)) as [_|]; [|done]. cbn. f_equal. apply (IH (S k)). lia.
    - destruct (decide (false = true)) as [|_]; [done|]. apply (IH (S k)). lia. }
  apply (Hgen (ed_live d) 0%nat). lia.
Qed.

Lemma sim_init g labels rels : graph_sim (applier_new (new_mutable g) labels rels) s_empty delta_new.
Proof.
  split; [done|done| | |].
  - by split.
  - split; cbn; try done; constructor.
  - split; cbn; try done. by intros e ?%elem_of_nil.
Qed.

Lemma graph_run_reaches g labels rels ms :
  (N.of_nat (mutations_size ms) < u32_max)%N →
  ∃ a d, graph_run ms (applier_new (new_mutable g) labels rels) = Some ((s_run ms s_empty).1, a) ∧
    graph_sim a (s_run ms s_empty).2 d ∧ (lenN (ed_records d) < u32_max)%N ∧
    (arena_capacity (nodes_of a) ≤ mutations_size ms)%nat.
Proof.
  intros Hsize.
  destruct (graph_run_sim ms ltac:(apply Forall_forall; intros; apply apply_simulated)
    _ s_empty delta_new (sim_init g labels rels)) as (a & d & Hrun & Hs & Hw1 & Hw2);
    [unfold lenN; cbn [s_allocated s_empty ed_records delta_new length]; lia..|].
  change (lenN (ed_records delta_new)) with 0%N in Hw2. exists a, d. split_and!; [done|done|lia|].
  rewrite (sim_allocated _ _ (sim_n _ _ _ Hs)) in Hw1. unfold lenN in Hw1. unfold arena_capacity. cbn [s_allocated s_empty] in Hw1. lia.
Qed.

(** C24: The mutable graph refines an abstract one: over any accepted sequence
    of mutations, batches included, with fewer than 2^32 - 1 primitive ones, the
    applier never panics and accepts it too; afterwards identifiers resolve to
    the same nodes, the edge count is the number of relationships created and
    not deleted, properties agree, and the live neighbours an expansion along a
    node's intrusive chains lists are exactly those of its relationships of the
    requested type, newest first. (Deleted neighbours an expansion may list as
    well, and sequences that end in a refused mutation, are not covered.) *)
Theorem graph_refines g labels rels ms :
  (N.of_nat (mutations_size ms) < u32_max)%N → (s_run ms s_empty).1 = Ok tt →
  let s := (s_run ms s_empty).2 in
  ∃ a b, graph_run ms (applier_new (new_mutable g) labels rels) = Some (Ok tt, a) ∧
    adjacency (ga_generation a) = Some b ∧
    (∀ id, resolve_node id a = sn_idx <$> s_nodes s !! id) ∧
    gen_edge_count (ga_generation a) = length (s_rels s) ∧
    ∀ id n, s_nodes s !! id = Some n →
      get_node_properties (sn_idx n) (props_of a) = sn_props n ∧
      ∀ f, ∃ out inc,
        expand_out b (sn_idx n) f = Some out ∧ expand_in b (sn_idx n) f = Some inc ∧
        filter (λ x, s_alive s x.1) out = filter (λ x, s_alive s x.1) (s_expand sr_src sr_dst f (sn_idx n) s) ∧
        filter (λ x, s_alive s x.1) inc = filter (λ x, s_alive s x.1) (s_expand sr_dst sr_src f (sn_idx n) s).
Proof.
  intros Hsize Hok s. destruct (graph_run_reaches g labels rels ms Hsize) as (a & d & Hrun & Hs & Hd & _). fold s in Hs.
  rewrite Hok in Hrun. exists a, (BlockDelta (nodes_of a) d). split_and!; [done| | | |].
  - unfold adjacency. by rewrite (sim_unsealed _ _ _ Hs), (sim_mutable _ _ _ Hs).
  - intros id. apply sim_id, Hs.
  - unfold gen_edge_count. rewrite (sim_mutable _ _ _ Hs), <- live_edges_count by apply Hs.
    eapply Forall2_length, Hs.
  - intros id n Hid. split.
    + by destruct (sim_nodes _ _ (sim_n _ _ _ Hs) _ _ Hid) as (_ & _ & ?).
    + intros f. destruct (expand_sim a s d id n f) as [Ho Hi]; [done..|]. eexists _, _. by split_and!.
Qed.
