(* ===== verification/GraphSeal.v ===== *)
(** Sealing a generation: the counting sort that builds the CSR and CSC rows,
    and that the sealed adjacency lists what the chains listed. *)

From stdpp Require Import base gmap sets strings numbers list sorting fin_maps.
From S2P Require Import Prelude.
From S2P Require Import Floats.
From S2P Require Import Order.
From S2P Require Import Graph.
From S2P Require Import GraphFacts.

Lemma list_set_lt {A} (i : nat) (x : A) l : (i < length l)%nat → list_set i x l = Some (<[i := x]> l).
Proof. intros Hi. unfold list_set. by rewrite bool_decide_true. Qed.

(** ** Rows laid out one after the other *)

Section rows.
Context {A : Type}.
Implicit Types (rows : list (list A)) (r : list A).

Definition offset rows (v : nat) : nat := length (concat (take v rows)).

Lemma concat_insert rows v r i x :
  rows !! v = Some r → (i < length r)%nat →
  <[offset rows v + i := x]> (concat rows) = concat (<[v := <[i := x]> r]> rows).
Proof.
  unfold offset. revert v. induction rows as [|r0 rows IH]; intros [|v] Hv Hi; simplify_eq/=.
  - by rewrite insert_app_l.
  - rewrite length_app, <- Nat.add_assoc, insert_app_r. f_equal. by apply IH.
Qed.

Lemma offset_S rows v r : rows !! v = Some r → offset rows (S v) = (offset rows v + length r)%nat.
Proof.
  intros Hv. unfold offset. by rewrite (take_S_r rows v r), concat_app, length_app; cbn; rewrite ?app_nil_r.
Qed.

Lemma offset_le rows v : (offset rows v ≤ length (concat rows))%nat.
Proof. unfold offset. rewrite <- (take_drop v rows) at 2. rewrite concat_app, length_app. lia. Qed.

Lemma concat_split rows v r :
  rows !! v = Some r →
  take (offset rows v) (concat rows) = concat (take v rows) ∧
  drop (offset rows (S v)) (concat rows) = concat (drop (S v) rows) ∧
  take (length r) (drop (offset rows v) (concat rows)) = r.
Proof.
  intros Hv. rewrite (offset_S rows v r Hv). unfold offset.
  assert (concat rows = concat (take v rows) ++ r ++ concat (drop (S v) rows)) as E.
  { rewrite <- (take_drop_middle rows v r Hv) at 1. by rewrite concat_app. }
  rewrite E. split_and!.
  - by rewrite take_app_length.
  - by rewrite <- drop_drop, drop_app_length, drop_app_length.
  - by rewrite drop_app_length, take_app_length.
Qed.

Lemma subslice_row rows v r :
  rows !! v = Some r → subslice (offset rows v) (offset rows (S v)) (concat rows) = Some r.
Proof.
  intros Hv. unfold subslice. pose proof (offset_le rows (S v)) as Hle. pose proof (offset_S rows v r Hv) as E.
  rewrite bool_decide_true by lia. destruct (concat_split rows v r Hv) as (_ & _ & H).
  by replace (offset rows (S v) - offset rows v)%nat with (length r) by lia; rewrite H.
Qed.

Lemma prefix_sums_lookup rows acc v :
  (v ≤ length rows)%nat → prefix_sums acc (length <$> rows) !! v = Some (acc + offset rows v)%nat.
Proof.
  revert acc v. induction rows as [|r rows IH]; intros acc [|v] Hv; cbn in *.
  - by rewrite Nat.add_0_r.
  - lia.
  - by rewrite Nat.add_0_r.
  - rewrite IH by lia. f_equal. unfold offset. cbn. rewrite length_app. lia.
Qed.

Lemma prefix_sums_length acc l : length (prefix_sums acc l) = S (length l).
Proof. revert acc. induction l as [|d l IH]; intros acc; cbn; [done|]. by rewrite IH. Qed.

Lemma offset_all rows : offset rows (length rows) = length (concat rows).
Proof. unfold offset. by rewrite firstn_all. Qed.

(** Rows of the same lengths have the same offsets. *)
Lemma offset_lengths {B} (rows' : list (list B)) rows v :
  length <$> rows = length <$> rows' → offset rows v = length (concat (take v rows')).
Proof.
  unfold offset. revert v rows'. induction rows as [|r rows IH]; intros [|v] [|r' rows'] E; simplify_eq/=; try done.
  rewrite !length_app, (IH v rows') by done. lia.
Qed.
End rows.
#[local] Arguments offset : simpl never.

(** ** The passes of [build] *)

Section build.
Context `{SortUnstable} (row col : EdgeRecord → NodeIndex) (arena : NodeArena) (n : nat).
Implicit Types es : list (N * EdgeRecord).

Definition slot_of (e : N * EdgeRecord) : Slot := (col e.2, rel_type e.2, weight e.2).
Definition in_row (v : nat) (e : N * EdgeRecord) : Prop :=
  kept row arena n e.2 = true ∧ N.to_nat (row e.2) = v.
#[local] Instance in_row_dec v e : Decision (in_row v e).
Proof. unfold in_row. apply _. Defined.

(** Row [v] in the order of the edges. *)
Definition row_of (es : list (N * EdgeRecord)) (v : nat) : list Slot := slot_of <$> filter (in_row v) es.
Definition rows_of (es : list (N * EdgeRecord)) : list (list Slot) := row_of es <$> seq 0 n.

Lemma row_of_snoc es e v :
  row_of (es ++ [e]) v = if decide (in_row v e) then row_of es v ++ [slot_of e] else row_of es v.
Proof.
  unfold row_of. rewrite filter_app, fmap_app. destruct (decide (in_row v e)).
  - by rewrite filter_cons_True, filter_nil by done.
  - by rewrite filter_cons_False, filter_nil, app_nil_r by done.
Qed.

Lemma rows_of_lookup es v : (v < n)%nat → rows_of es !! v = Some (row_of es v).
Proof. intros Hv. unfold rows_of. by rewrite list_lookup_fmap, lookup_seq_lt. Qed.

Lemma kept_row e : kept row arena n e = true → (N.to_nat (row e) < n)%nat.
Proof. unfold kept. rewrite !andb_true_iff, Nat.ltb_lt. tauto. Qed.

Lemma in_row_kept v e : in_row v e → (v < n)%nat.
Proof. intros [Hk <-]. by apply kept_row. Qed.

Lemma fmap_seq_insert {B} (f g : nat → B) v :
  (v < n)%nat → (∀ w, w ≠ v → f w = g w) → <[v := g v]> (f <$> seq 0 n) = g <$> seq 0 n.
Proof.
  intros Hv Hfg. apply list_eq. intros i. destruct (decide (i = v)) as [->|Hne].
  - rewrite list_lookup_insert_eq by (by rewrite length_fmap, length_seq).
    by rewrite list_lookup_fmap, lookup_seq_lt.
  - rewrite list_lookup_insert_ne, !list_lookup_fmap by done.
    destruct (seq 0 n !! i) as [j|] eqn:E; [|done]. apply lookup_seq in E as [-> _]. cbn. by rewrite Hfg.
Qed.

Lemma count_pass es :
  foldl (count_edge row arena n) (Some (replicate n 0%nat)) es = Some (length <$> rows_of es).
Proof.
  induction es as [|e es IH] using rev_ind.
  - cbn. f_equal. apply list_eq. intros i. unfold rows_of. rewrite !list_lookup_fmap.
    destruct (decide (i < n)%nat); [by rewrite lookup_replicate_2, lookup_seq_lt by done|].
    by rewrite !lookup_ge_None_2 by (rewrite ?length_replicate, ?length_seq; lia).
  - rewrite foldl_app, IH. cbn. destruct (kept row arena n e.2) eqn:Hk.
    + pose proof (kept_row _ Hk) as Hv. set (v := N.to_nat (row e.2)) in *.
      rewrite list_lookup_fmap, rows_of_lookup by done. cbn.
      rewrite list_set_lt by (unfold rows_of; by rewrite !length_fmap, length_seq).
      f_equal. unfold rows_of. rewrite <- !list_fmap_compose.
      assert (S (length (row_of es v)) = (length ∘ row_of (es ++ [e])) v) as ->.
      { cbn. rewrite row_of_snoc, decide_True by done. rewrite length_app. cbn. lia. }
      apply fmap_seq_insert; [done|]. intros w Hw. cbn. rewrite row_of_snoc, decide_False; [done|]. intros [_ ?]. done.
    + f_equal. unfold rows_of. rewrite <- !list_fmap_compose. apply list_fmap_ext. intros i v _. cbn.
      rewrite row_of_snoc, decide_False; [done|]. intros [Hk' _]. congruence.
Qed.

(** A row during the fill: what was written, then the initial values. *)
Definition filling (len : nat → nat) (es : list (N * EdgeRecord)) (v : nat) : list Slot :=
  row_of es v ++ replicate (len v - length (row_of es v)) (0%N, 0%N, f32_of_Z 1).

Lemma fill_pass all es :
  (∀ v, length (row_of es v) ≤ length (row_of all v))%nat →
  let len v := length (row_of all v) in
  foldl (fill_edge row col arena n)
    (Some (take n (prefix_sums 0 (length <$> rows_of all)),
       replicate (length (concat (rows_of all))) (0%N, 0%N, f32_of_Z 1))) es =
  Some ((λ v, offset (rows_of all) v + length (row_of es v))%nat <$> seq 0 n,
        concat (filling len es <$> seq 0 n)).
Proof.
  intros Hle len. induction es as [|e es IH] using rev_ind.
  - cbn. f_equal. f_equal.
    + apply list_eq. intros i. rewrite list_lookup_fmap. destruct (decide (i < n)%nat) as [Hi|Hi].
      * rewrite lookup_take_lt, prefix_sums_lookup, lookup_seq_lt
          by (try done; unfold rows_of; rewrite ?length_fmap, ?length_seq; lia).
        cbn. f_equal. lia.
      * rewrite lookup_take_ge, lookup_ge_None_2 by (rewrite ?length_seq; lia). done.
    + unfold rows_of, filling, len. cbn. induction (seq 0 n) as [|v l IHl]; [done|].
      cbn. rewrite length_app, replicate_add, IHl, Nat.sub_0_r. done.
  - assert (∀ v, length (row_of es v) ≤ length (row_of (es ++ [e]) v))%nat as Hmono.
    { intros v. rewrite row_of_snoc. destruct (decide _); rewrite ?length_app; lia. }
    rewrite foldl_app, IH by (intros v; etrans; [apply Hmono|apply Hle]). cbn.
    destruct (kept row arena n e.2) eqn:Hk.
    + pose proof (kept_row _ Hk) as Hv. set (v := N.to_nat (row e.2)) in *.
      assert (row_of (es ++ [e]) v = row_of es v ++ [slot_of e]) as Ev by (by rewrite row_of_snoc, decide_True).
      specialize (Hle v) as Hlv. rewrite Ev, length_app in Hlv. cbn in Hlv.
      rewrite list_lookup_fmap, lookup_seq_lt by done. cbn.
      assert (offset (rows_of all) v = offset (filling len es <$> seq 0 n) v) as Eoff.
      { apply offset_lengths. unfold rows_of. rewrite <- !list_fmap_compose. apply list_fmap_ext. intros i w _. cbn.
        unfold filling, len. rewrite length_app, length_replicate. pose proof (Hmono w). specialize (Hle w). lia. }
      assert ((filling len es <$> seq 0 n) !! v = Some (filling len es v)) as Hlk
        by (by rewrite list_lookup_fmap, lookup_seq_lt).
      assert (length (row_of es v) < length (filling len es v))%nat as Hpos.
      { unfold filling, len. rewrite length_app, length_replicate. lia. }
      rewrite (list_set_lt (_ + _)).
      2:{ pose proof (offset_le (filling len es <$> seq 0 n) (S v)) as Ho. rewrite (offset_S _ _ _ Hlk) in Ho. lia. }
      cbn [mbind option_bind]. rewrite list_set_lt by (by rewrite length_fmap, length_seq). cbn [mbind option_bind].
      rewrite Eoff at 2. rewrite (concat_insert _ _ _ _ _ Hlk Hpos). f_equal. f_equal.
      * set (g := λ w, (offset (rows_of all) w + length (row_of (es ++ [e]) w))%nat).
        replace (S (offset (rows_of all) v + length (row_of es v)))%nat with (g v)
          by (unfold g; rewrite Ev, length_app; cbn; lia).
        apply fmap_seq_insert; [done|]. intros w Hw. unfold g. f_equal.
        rewrite row_of_snoc, decide_False; [done|]. by intros [_ ?].
      * f_equal. set (g := filling len (es ++ [e])).
        assert (<[length (row_of es v) := (col e.2, rel_type e.2, weight e.2)]> (filling len es v) = g v) as ->.
        { unfold g, filling. rewrite Ev, insert_app_r_alt, Nat.sub_diag, length_app by done. cbn [length].
          replace (len v - length (row_of es v))%nat with (S (len v - (length (row_of es v) + 1)))%nat by (unfold len; lia).
          cbn. by rewrite <- app_assoc. }
        apply fmap_seq_insert; [done|]. intros w Hw. unfold g, filling.
        rewrite row_of_snoc, decide_False; [done|]. by intros [_ ?].
    + assert (∀ w, row_of (es ++ [e]) w = row_of es w) as Ew.
      { intros w. rewrite row_of_snoc, decide_False; [done|]. intros [? _]. congruence. }
      f_equal. f_equal; [|f_equal]; apply list_fmap_ext; intros i w _; unfold filling; by rewrite Ew.
Qed.

(** [sort_row] sorts a row of two or more slots. *)
Definition sorted_row (r : list Slot) : list Slot :=
  if (1 <? length r)%nat then sort_by slot_key_cmp r else r.

Lemma sorted_row_perm r : sorted_row r ≡ₚ r.
Proof. unfold sorted_row. destruct (1 <? length r)%nat; [apply sort_by_perm|done]. Qed.

Lemma slot_key_preorder : cmp_preorder slot_key_cmp.
Proof.
  apply (cmp_preorder_then (λ a b : Slot, (a.1.1 ?= b.1.1)%N) (λ a b, (a.1.2 ?= b.1.2)%N));
    apply (N_key_cmp_preorder _).
Qed.

Lemma sorted_row_sorted r : StronglySorted (λ x y : Slot, (x.1.1 ≤ y.1.1)%N) (sorted_row r).
Proof.
  unfold sorted_row. destruct (1 <? length r)%nat eqn:E.
  - eapply sorted_weaken; [|apply sort_by_sorted, slot_key_preorder].
    intros x y. unfold slot_key_cmp. destruct (N.compare_spec x.1.1 y.1.1); cbn; [lia|lia|done].
  - apply Nat.ltb_ge in E. destruct r as [|x [|y r]]; cbn in E; [constructor| |lia]. by repeat constructor.
Qed.

Lemma sort_row_eq offs rows v r :
  offs = prefix_sums 0 (length <$> rows) → rows !! v = Some r →
  sort_row offs (Some (concat rows)) v = Some (concat (<[v := sorted_row r]> rows)).
Proof.
  intros -> Hv. pose proof (lookup_lt_Some _ _ _ Hv) as Hlt. unfold sort_row. cbn [mbind option_bind].
  rewrite !prefix_sums_lookup by lia. cbn [mbind option_bind]. rewrite !Nat.add_0_l.
  rewrite (offset_S _ _ _ Hv), <- (offset_S _ _ _ Hv). unfold sorted_row.
  replace (S (offset rows v) <? offset rows (S v))%nat with (1 <? length r)%nat.
  2:{ rewrite (offset_S _ _ _ Hv). destruct (Nat.ltb_spec 1 (length r)), (Nat.ltb_spec (S (offset rows v)) (offset rows v + length r)); lia || done. }
  destruct (1 <? length r)%nat.
  - rewrite (subslice_row _ _ _ Hv). cbn [mbind option_bind]. f_equal.
    destruct (concat_split rows v r Hv) as (-> & -> & _).
    by rewrite insert_take_drop, concat_app by done.
  - by rewrite list_insert_id.
Qed.

Lemma sort_pass (f : nat → list Slot) k :
  (k ≤ n)%nat →
  foldl (sort_row (prefix_sums 0 (length <$> (f <$> seq 0 n)))) (Some (concat (f <$> seq 0 n))) (seq 0 k) =
  Some (concat ((λ v, if decide (v < k)%nat then sorted_row (f v) else f v) <$> seq 0 n)).
Proof.
  induction k as [|k IH]; intros Hk; [done|]. rewrite seq_S, foldl_app, IH by lia. cbn [foldl].
  set (g := λ v, if decide (v < k)%nat then sorted_row (f v) else f v).
  set (h := λ v, if decide (v < S k)%nat then sorted_row (f v) else f v).
  rewrite Nat.add_0_l, (sort_row_eq _ (g <$> seq 0 n) k (f k)).
  - f_equal. f_equal. replace (sorted_row (f k)) with (h k) by (unfold h; by rewrite decide_True by lia).
    apply fmap_seq_insert; [lia|]. intros w Hw. unfold g, h.
    destruct (decide (w < k)%nat), (decide (w < S k)%nat); try done; lia.
  - f_equal. rewrite <- !list_fmap_compose. apply list_fmap_ext. intros i v _. cbn. unfold g.
    destruct (decide _); [|done]. by rewrite (sorted_row_perm (f v)).
  - rewrite list_lookup_fmap, lookup_seq_lt by lia. cbn. unfold g. by rewrite decide_False by lia.
Qed.

(** What [build] returns: the rows, sorted, one after the other. *)
Lemma build_slots_eq es :
  let rows := (λ v, sorted_row (row_of es v)) <$> seq 0 n in
  build_slots row col arena n es = Some (prefix_sums 0 (length <$> rows), concat rows).
Proof.
  intros rows. unfold build_slots. rewrite count_pass. cbn [mbind option_bind].
  rewrite last_lookup_pred, prefix_sums_length, length_fmap. cbn [pred].
  rewrite prefix_sums_lookup, offset_all by done. cbn [mbind option_bind]. rewrite Nat.add_0_l.
  rewrite (fill_pass es es) by done. cbn [mbind option_bind].
  assert ((filling (λ v, length (row_of es v)) es <$> seq 0 n) = rows_of es) as ->.
  { apply list_fmap_ext. intros i v _. unfold filling. by rewrite Nat.sub_diag, app_nil_r. }
  unfold rows_of at 1 2. rewrite sort_pass by done. cbn [mbind option_bind]. f_equal. f_equal.
  - f_equal. unfold rows_of, rows. rewrite <- !list_fmap_compose. apply list_fmap_ext. intros i v _. cbn.
    by rewrite (sorted_row_perm (row_of es v)).
  - f_equal. apply list_fmap_ext. intros i v [-> Hi]%lookup_seq. by rewrite decide_True.
Qed.
End build.

(** ** Reading the sealed rows *)

Lemma subslice_fmap {A B} (f : A → B) start stop (l : list A) :
  subslice start stop (f <$> l : list B) = (fmap f : list A → list B) <$> subslice start stop l.
Proof.
  unfold subslice. rewrite length_fmap. case_bool_decide; [|done]. cbn. by rewrite <- fmap_drop, <- fmap_take.
Qed.

Definition target_of (x : Slot) : NodeIndex := x.1.1.

Section read.
Context (n : nat) (rows : list (list Slot)) (Hn : length rows = n).
Abbreviation csr := (csr_of n (prefix_sums 0 (length <$> rows), concat rows)).

Lemma row_slice_row {A} (field : CsrAdjacency → list A) (f : Slot → A) v r :
  field csr = f <$> concat rows → rows !! N.to_nat v = Some r → row_slice field v csr = Some (f <$> r).
Proof using Hn.
  intros Hf Hv. pose proof (lookup_lt_Some _ _ _ Hv) as Hlt. unfold row_slice. rewrite Hf. cbn [csr_of csr_node_count row_offsets].
  rewrite (proj2 (Nat.leb_gt _ _)) by lia. cbn [fst].
  rewrite !prefix_sums_lookup by lia. cbn [mbind option_bind]. rewrite !Nat.add_0_l, subslice_fmap, (subslice_row _ _ _ Hv). done.
Qed.

Lemma row_slice_none {A} (field : CsrAdjacency → list A) v :
  rows !! N.to_nat v = None → row_slice field v csr = Some [].
Proof using Hn.
  intros Hv%lookup_ge_None. unfold row_slice. cbn [csr_of csr_node_count]. by rewrite (proj2 (Nat.leb_le _ _)) by lia.
Qed.

Definition expand_slots (f : option RelTypeId) (r : list Slot) : list (NodeIndex * b32) :=
  omap (λ x : Slot, if type_matches f x.1.2 then Some (x.1.1, x.2) else None) r.

Lemma expand_row_eq f v :
  expand_row f v csr = Some (expand_slots f (default [] (rows !! N.to_nat v))).
Proof using Hn.
  unfold expand_row. destruct (rows !! N.to_nat v) as [r|] eqn:Hv; cbn [default].
  2:{ by rewrite !row_slice_none. }
  rewrite (row_slice_row targets target_of v r), (row_slice_row csr_weights snd v r); try done;
    [|by cbn; rewrite <- list_fmap_compose].
  cbn [mbind option_bind]. cbn [csr_of row_offsets csr_rel_types fst snd].
  pose proof (lookup_lt_Some _ _ _ Hv) as Hlt. rewrite prefix_sums_lookup by lia. cbn [default]. rewrite Nat.add_0_l.
  assert (∀ i x, r !! i = Some x → (concat rows).*1.*2 !! (offset rows (N.to_nat v) + i)%nat = Some x.1.2) as Htype.
  { intros i x Hx. destruct (concat_split rows _ _ Hv) as (_ & _ & Hr).
    rewrite <- Hr in Hx. apply lookup_take_Some in Hx as [Hx _]. rewrite lookup_drop in Hx.
    by rewrite !list_lookup_fmap, Hx. }
  unfold expand_slots.
  assert (∀ r' pre, r = pre ++ r' →
    mapM (λ e : nat * NodeIndex, if type_matches f (default 0%N ((concat rows).*1.*2 !! (offset rows (N.to_nat v) + e.1)%nat))
        then w ← (snd <$> r) !! e.1; Some [(e.2, w)] else Some []) (imap (λ i (y : N), (length pre + i, y)%nat) (target_of <$> r')) =
    Some ((λ x : Slot, if type_matches f x.1.2 then [(x.1.1, x.2)] else []) <$> r')) as Hgen.
  { induction r' as [|x r' IH]; intros pre Hpre; [done|].
    assert (r !! (length pre) = Some x) as Hx by (by rewrite Hpre, lookup_app_r, Nat.sub_diag).
    cbn [fmap list_fmap imap mapM]. rewrite Nat.add_0_r. cbn [fst snd].
    rewrite (Htype _ _ Hx), list_lookup_fmap, Hx. cbn [default fmap option_fmap option_map mbind option_bind].
    assert (imap ((λ i (y : N), (length pre + i, y)%nat) ∘ S) (target_of <$> r') =
            imap (λ i (y : N), (length (pre ++ [x]) + i, y)%nat) (target_of <$> r')) as E.
    { apply imap_ext. intros i y _. cbn. rewrite length_app. cbn. f_equal. lia. }
    specialize (IH (pre ++ [x])). rewrite <- app_assoc in IH. specialize (IH Hpre).
    rewrite E, IH. cbn. by destruct (type_matches f x.1.2). }
  specialize (Hgen r [] eq_refl). cbn [length Nat.add] in Hgen.
  refine (eq_trans (f_equal (λ o, l ← o; Some (concat l)) Hgen) _).
  cbn. f_equal. clear. induction r as [|x r IH]; [done|]. cbn. destruct (type_matches f x.1.2); cbn; by rewrite IH.
Qed.
End read.

(** ** Sealing *)

Section seal.
Context `{SortUnstable}.

(** The edges of the sealed graph: both ends alive. *)
Definition surviving (nodes : NodeArena) (e : N * EdgeRecord) : Prop :=
  arena_is_live (src_node e.2) nodes = true ∧ arena_is_live (dst_node e.2) nodes = true.
#[local] Instance surviving_dec nodes e : Decision (surviving nodes e).
Proof. unfold surviving. apply _. Defined.

Lemma expand_slots_perm f r r' : r ≡ₚ r' → expand_slots f r ≡ₚ expand_slots f r'.
Proof. intros Hp. unfold expand_slots. by apply omap_Permutation. Qed.

Lemma expand_slots_sorted f r :
  StronglySorted (λ x y : Slot, (x.1.1 ≤ y.1.1)%N) r →
  StronglySorted (λ x y : NodeIndex * b32, (x.1 ≤ y.1)%N) (expand_slots f r).
Proof.
  unfold expand_slots. induction 1 as [|x r Hr IH Hx]; cbn; [constructor|].
  destruct (type_matches f x.1.2); [|done]. constructor; [done|].
  apply Forall_forall. intros y (z & Hz & Hy)%list_elem_of_omap. rewrite Forall_forall in Hx. specialize (Hx z Hz).
  destruct (type_matches f z.1.2); by simplify_eq.
Qed.

(** A row against the chain of the same node. *)
Lemma row_of_chain row col nodes n v (es : list (N * EdgeRecord)) f :
  (∀ e, e ∈ es → kept row nodes n e.2 = true ↔ surviving nodes e) →
  (∀ e, surviving nodes e ↔ arena_is_live (row e.2) nodes = true ∧ arena_is_live (col e.2) nodes = true) →
  arena_is_live v nodes = true →
  expand_slots f (row_of row col nodes n es (N.to_nat v)) =
    filter (λ x, arena_is_live x.1 nodes = true) (expand_chain col f (filter (λ e, row e.2 = v) es)).
Proof.
  intros Hk Hends Hv. unfold row_of, expand_slots, expand_chain. induction es as [|e es IH]; [done|].
  specialize (IH ltac:(intros; apply Hk; by right)). specialize (Hk e ltac:(by left)).
  destruct (decide (row e.2 = v)) as [Hr|Hr].
  - rewrite (filter_cons_True (λ e, row e.2 = v)) by done. destruct (decide (arena_is_live (col e.2) nodes = true)) as [Hc|Hc].
    + rewrite (filter_cons_True (in_row row nodes n (N.to_nat v))).
      2:{ split; [apply Hk, Hends; by rewrite Hr|by rewrite Hr]. }
      cbn. destruct (type_matches f (rel_type e.2)); cbn; [|exact IH].
      rewrite decide_True by done. f_equal. exact IH.
    + rewrite (filter_cons_False (in_row row nodes n (N.to_nat v))).
      2:{ intros [H1%Hk%Hends _]. tauto. }
      cbn. destruct (type_matches f (rel_type e.2)); cbn; [|exact IH].
      rewrite decide_False by done. exact IH.
  - rewrite (filter_cons_False (λ e, row e.2 = v)) by done. rewrite (filter_cons_False (in_row row nodes n (N.to_nat v))); [exact IH|].
    intros [_ ?]. apply Hr. lia.
Qed.

(** The sealed expansion of a node as a permutation of the chain's. *)
Lemma sealed_row row col a s d f v (b : CsrAdjacency) l :
  (row = src_node ∧ col = dst_node ∨ row = dst_node ∧ col = src_node) →
  graph_sim a s d →
  csr_of (arena_capacity (nodes_of a)) <$>
    build_slots row col (nodes_of a) (arena_capacity (nodes_of a)) (live_edges d) = Some b →
  (arena_is_live v (nodes_of a) = true → l = expand_chain col f (reverse (filter (λ e, row e.2 = v) (live_edges d)))) →
  (arena_is_live v (nodes_of a) = false → l = []) →
  ∃ l', expand_row f v b = Some l' ∧
    l' ≡ₚ filter (λ x, arena_is_live x.1 (nodes_of a) = true) l ∧
    StronglySorted (λ x y : NodeIndex * b32, (x.1 ≤ y.1)%N) l'.
Proof.
  intros Hor Hs Hb Hlive Hdead. rewrite build_slots_eq in Hb. cbn [fmap option_fmap option_map] in Hb. injection Hb as <-.
  set (n := arena_capacity (nodes_of a)) in *.
  rewrite expand_row_eq by (by rewrite length_fmap, length_seq). eexists; split; [done|].
  assert (default [] (((λ v, sorted_row (row_of row col (nodes_of a) n (live_edges d) v)) <$> seq 0 n) !! N.to_nat v) =
    sorted_row (row_of row col (nodes_of a) n (live_edges d) (N.to_nat v))) as ->.
  { destruct (decide (N.to_nat v < n)%nat) as [Hv|Hv].
    - by rewrite list_lookup_fmap, lookup_seq_lt.
    - rewrite lookup_ge_None_2 by (rewrite length_fmap, length_seq; lia). cbn. unfold row_of.
      replace (filter (in_row row (nodes_of a) n (N.to_nat v)) (live_edges d)) with (@nil (N * EdgeRecord)); [done|].
      symmetry. apply filter_nil_all. intros e _ [Hke Hre]. apply (kept_row row col) in Hke. lia. }
  split; [|apply expand_slots_sorted, sorted_row_sorted].
  rewrite (expand_slots_perm f _ _ (sorted_row_perm _)).
  assert (∀ e, surviving (nodes_of a) e ↔
    arena_is_live (row e.2) (nodes_of a) = true ∧ arena_is_live (col e.2) (nodes_of a) = true) as Hends.
  { intros e. unfold surviving. destruct Hor as [[-> ->]|[-> ->]]; tauto. }
  assert (∀ e, e ∈ live_edges d → kept row (nodes_of a) n e.2 = true ↔ surviving (nodes_of a) e) as Hk.
  { intros [i e] He. destruct (live_edges_lookup d i e ltac:(apply Hs) He) as [He' _].
    apply list_elem_of_lookup_2, (chain_ends _ _ (sim_c _ _ _ Hs)) in He'. unfold lenN in He'.
    unfold kept, surviving. rewrite !andb_true_iff, Nat.ltb_lt. cbn [snd].
    assert (N.to_nat (row e) < n)%nat by (unfold n, arena_capacity; destruct Hor as [[-> _]|[-> _]]; lia); tauto. }
  destruct (arena_is_live v (nodes_of a)) eqn:Hv.
  - rewrite Hlive by done. rewrite (row_of_chain row col (nodes_of a) n v (live_edges d) f Hk Hends Hv).
    unfold expand_chain. by rewrite reverse_Permutation.
  - rewrite Hdead by done. unfold row_of.
    replace (filter (in_row row (nodes_of a) n (N.to_nat v)) (live_edges d)) with (@nil (N * EdgeRecord)); [done|].
    symmetry. apply filter_nil_all. intros e He [Hke Hre]. apply Hk, Hends in Hke as [Hke _]; [|done].
    assert (row e.2 = v) as Heq by lia. congruence.
Qed.

Definition sealed_listing (nodes : NodeArena) (l l' : list (NodeIndex * b32)) : Prop :=
  l' ≡ₚ filter (λ x, arena_is_live x.1 nodes = true) l ∧
  StronglySorted (λ x y : NodeIndex * b32, (x.1 ≤ y.1)%N) l'.

Lemma chain_expansion a s d f v :
  graph_sim a s d → (lenN (ed_records d) < u32_max)%N →
  let b := BlockDelta (nodes_of a) d in
  ∃ out inc, expand_out b v f = Some out ∧ expand_in b v f = Some inc ∧
    (arena_is_live v (nodes_of a) = true →
     out = expand_chain dst_node f (reverse (filter (λ e, src_node e.2 = v) (live_edges d))) ∧
     inc = expand_chain src_node f (reverse (filter (λ e, dst_node e.2 = v) (live_edges d)))) ∧
    (arena_is_live v (nodes_of a) = false → out = [] ∧ inc = []).
Proof.
  intros Hs Hlt b. unfold b, expand_out, expand_in, arena_get.
  destruct (arena_is_live v (nodes_of a)) eqn:Hv; [|by eexists [], []].
  destruct (arena_get_Some v (nodes_of a) (sim_arena _ _ (sim_n _ _ _ Hs)) Hv) as [r Hr].
  unfold arena_get in Hr. rewrite Hv in Hr. rewrite Hr.
  pose proof (sim_c _ _ _ Hs) as Hc. destruct (chain_heads _ _ Hc _ _ Hr) as [-> ->].
  assert (length (ed_live d) = length (ed_records d)) as Hlen by apply Hs.
  unfold iter_out_chain, iter_in_chain.
  rewrite !iter_chain_newest, !chain_selected_live; try done; try apply Hc; try (unfold lenN in Hlt; lia).
  cbn. by eexists _, _.
Qed.

Lemma sealed_block a s d :
  graph_sim a s d → (lenN (ed_records d) < u32_max)%N →
  ∃ g' b', seal (ga_generation a) = Some (Ok tt, g') ∧ adjacency g' = Some b' ∧
    ∀ v f, ∃ out out' inc inc',
      expand_out (BlockDelta (nodes_of a) d) v f = Some out ∧ expand_out b' v f = Some out' ∧
      sealed_listing (nodes_of a) out out' ∧
      expand_in (BlockDelta (nodes_of a) d) v f = Some inc ∧ expand_in b' v f = Some inc' ∧
      sealed_listing (nodes_of a) inc inc'.
Proof.
  intros Hs Hlt. unfold seal. rewrite (sim_unsealed _ _ _ Hs), (sim_mutable _ _ _ Hs).
  unfold csr_build, csc_build. set (n := arena_capacity (nodes_of a)).
  destruct (csr_of n <$> build_slots src_node dst_node (nodes_of a) n (live_edges d)) as [c1|] eqn:E1;
    [|by rewrite build_slots_eq in E1].
  destruct (csr_of n <$> build_slots dst_node src_node (nodes_of a) n (live_edges d)) as [c2|] eqn:E2;
    [|by rewrite build_slots_eq in E2].
  cbn [mbind option_bind]. eexists _, (BlockImmutable c1 c2). split; [done|]. split; [done|].
  intros v f. destruct (chain_expansion a s d f v Hs Hlt) as (out & inc & Ho & Hi & Hl & Hd).
  destruct (sealed_row src_node dst_node a s d f v c1 out) as (out' & Ho' & Hp1 & Hp2);
    [by left|done|done|intros Hv; by apply Hl|intros Hv; by apply Hd|].
  destruct (sealed_row dst_node src_node a s d f v c2 inc) as (inc' & Hi' & Hq1 & Hq2);
    [by right|done|done|intros Hv; by apply Hl|intros Hv; by apply Hd|].
  by exists out, out', inc, inc'.
Qed.

(** C25: Sealing preserves the graph: after any such run the generation seals,
    and the CSR and CSC expansion of every node under every type filter is the
    chain expansion it had before, less the neighbours that were deleted, sorted
    by neighbour. *)
Theorem seal_preserves_adjacency g labels rels ms :
  (N.of_nat (mutations_size ms) < u32_max)%N →
  ∃ r a b g' b', graph_run ms (applier_new (new_mutable g) labels rels) = Some (r, a) ∧
    adjacency (ga_generation a) = Some b ∧
    seal (ga_generation a) = Some (Ok tt, g') ∧ adjacency g' = Some b' ∧
    ∀ v f, ∃ out out' inc inc',
      expand_out b v f = Some out ∧ expand_out b' v f = Some out' ∧ sealed_listing (nodes_of a) out out' ∧
      expand_in b v f = Some inc ∧ expand_in b' v f = Some inc' ∧ sealed_listing (nodes_of a) inc inc'.
Proof.
  intros Hsize. destruct (graph_run_reaches g labels rels ms Hsize) as (a & d & Hrun & Hs & Hd & _).
  destruct (sealed_block a _ d Hs Hd) as (g' & b' & Hseal & Hadj & Hall).
  exists (s_run ms s_empty).1, a, (BlockDelta (nodes_of a) d), g', b'. split_and!; try done.
  unfold adjacency. by rewrite (sim_unsealed _ _ _ Hs), (sim_mutable _ _ _ Hs).
Qed.
End seal.
