(* ===== verification/GraphAnalytics.v ===== *)
(** Graph algorithms over a projection (src/graph/analytics): breadth-first
    search, bidirectional shortest paths, connected components by union-find,
    k-core peeling, degree centrality and triangle counting.

    [Vec<u32>] of distances keeps [u32::MAX] for "not reached" as the code does;
    an index out of range is a panic ([None]).  Loops that the code runs until a
    queue is empty take fuel; the facts files show how much is enough. *)

From stdpp Require Import base gmap sets strings numbers list sorting fin_maps.
From S2P Require Import Prelude.
From S2P Require Import Floats.
From S2P Require Import Order.
From S2P Require Import Graph.

(** ** Projections (projection.rs) *)

(** The trait [GraphProjection]. *)
Record GraphProjection := mkProjection {
  gp_node_count : nat;
  gp_out : NodeIndex → list NodeIndex;
  gp_in : NodeIndex → list NodeIndex
}.
Definition gp_out_degree (p : GraphProjection) (v : NodeIndex) : nat := length (gp_out p v).
Definition gp_in_degree (p : GraphProjection) (v : NodeIndex) : nat := length (gp_in p v).

(** What the algorithms assume of it: neighbours are nodes, and the incoming
    lists are the transpose of the outgoing ones, with multiplicity. *)
Definition occurrences (v : NodeIndex) (l : list NodeIndex) : nat := length (filter (λ x, x = v) l).

Record ProjectionLaws (p : GraphProjection) : Prop := {
  gp_out_range u v : v ∈ gp_out p u → (N.to_nat u < gp_node_count p)%nat ∧ (N.to_nat v < gp_node_count p)%nat;
  gp_transpose u v : occurrences v (gp_out p u) = occurrences u (gp_in p v)
}.

(** [CsrProjection]: a slice out of range would panic; the rows of a sealed
    generation are in range (GraphSearch.v). *)
Definition csr_projection (outgoing incoming : CsrAdjacency) : GraphProjection :=
  mkProjection (csr_node_count outgoing)
    (λ v, default [] (out_neighbors v outgoing)) (λ v, default [] (out_neighbors v incoming)).

Definition nodes_upto (n : nat) : list NodeIndex := N.of_nat <$> seq 0 n.

(** ** Breadth-first search (bfs.rs) *)

Definition visit_edge (d : N) (st : option (list N * list NodeIndex)) (v : NodeIndex) :
    option (list N * list NodeIndex) :=
  '(dist, queue) ← st;
  x ← dist !! N.to_nat v;
  if (x =? u32_max)%N then Some (<[N.to_nat v := (d + 1)%N]> dist, queue ++ [v]) else Some (dist, queue).

Fixpoint bfs_loop (fuel : nat) (p : GraphProjection) (dist : list N) (queue order : list NodeIndex) :
    option (list N * list NodeIndex) :=
  match queue with
  | [] => Some (dist, order)
  | u :: queue =>
      match fuel with
      | O => None
      | S fuel =>
          d ← dist !! N.to_nat u;
          '(dist, queue) ← foldl (visit_edge d) (Some (dist, queue)) (gp_out p u);
          bfs_loop fuel p dist queue (order ++ [u])
      end
  end.

(** Every node is queued at most once. *)
Definition bfs_from_source (p : GraphProjection) (source : NodeIndex) : option (list N * list NodeIndex) :=
  let n := gp_node_count p in
  let dist := replicate n u32_max in
  if (N.to_nat source <? n)%nat
  then bfs_loop n p (<[N.to_nat source := 0%N]> dist) [source] []
  else bfs_loop n p dist [] [].

(** ** Bidirectional search (pathfinding.rs, [unweighted]) *)

Record Frontiers := mkFrontiers {
  dist_fwd : list N;
  dist_rev : list N;
  frontier_fwd : list NodeIndex;
  frontier_rev : list NodeIndex;
  best : N
}.

(** One edge of an expansion: visit [v], and look whether the other side has
    been there. *)
Definition meet_edge (d : N) (other : list N) (st : option (list N * list NodeIndex * N)) (v : NodeIndex) :
    option (list N * list NodeIndex * N) :=
  '(dist, queue, best) ← st;
  '(dist, queue) ← visit_edge d (Some (dist, queue)) v;
  o ← other !! N.to_nat v;
  let candidate := ((d + 1 + o) `mod` u32_modulus)%N in
  Some (dist, queue, if negb (o =? u32_max)%N && (candidate <? best)%N then candidate else best).

Definition front_distance (dist : list N) (queue : list NodeIndex) : option N :=
  match queue with [] => Some u32_max | u :: _ => dist !! N.to_nat u end.

(** The stopping criterion. *)
Definition frontiers_done (s : Frontiers) : option bool :=
  f ← front_distance (dist_fwd s) (frontier_fwd s);
  r ← front_distance (dist_rev s) (frontier_rev s);
  Some (best s <=? u32_saturating_add f r)%N.

(** Expanding the front of one side; the flag is the [continue] that skips the
    stopping criterion. *)
Definition expand_half (neighbors : NodeIndex → list NodeIndex) (dist other : list N)
    (queue : list NodeIndex) (best : N) : option (list N * list NodeIndex * N * bool) :=
  match queue with
  | [] => Some (dist, [], best, false)
  | u :: queue =>
      d ← dist !! N.to_nat u;
      if (best <=? d)%N then Some (dist, queue, best, true)
      else
        '(dist, queue, best) ← foldl (meet_edge d other) (Some (dist, queue, best)) (neighbors u);
        Some (dist, queue, best, false)
  end.

(** The smaller frontier is expanded. *)
Definition forward_turn (s : Frontiers) : bool :=
  negb (bool_decide (frontier_fwd s = [])) &&
  (bool_decide (frontier_rev s = []) || (length (frontier_fwd s) <=? length (frontier_rev s))%nat).

(** One pass of the loop; the flag is the [break]. *)
Definition frontiers_step (p : GraphProjection) (s : Frontiers) : option (Frontiers * bool) :=
  '(s, skip) ←
    (if forward_turn s then
       '(dist, queue, b, skip) ← expand_half (gp_out p) (dist_fwd s) (dist_rev s) (frontier_fwd s) (best s);
       Some (mkFrontiers dist (dist_rev s) queue (frontier_rev s) b, skip)
     else
       '(dist, queue, b, skip) ← expand_half (gp_in p) (dist_rev s) (dist_fwd s) (frontier_rev s) (best s);
       Some (mkFrontiers (dist_fwd s) dist (frontier_fwd s) queue b, skip));
  if skip : bool then Some (s, false) else stop ← frontiers_done s; Some (s, stop).

Fixpoint frontiers_loop (fuel : nat) (p : GraphProjection) (s : Frontiers) : option Frontiers :=
  match frontier_fwd s, frontier_rev s with
  | [], [] => Some s
  | _, _ =>
      match fuel with
      | O => None
      | S fuel => '(s, stop) ← frontiers_step p s; if stop : bool then Some s else frontiers_loop fuel p s
      end
  end.

(** The hop count; [None] inside is "unreachable".  (The cost is the same number
    as an [f32].)  Each side queues a node at most once. *)
Definition shortest_unweighted (p : GraphProjection) (source target : NodeIndex) : option (option N) :=
  if (source =? target)%N then Some (Some 0%N)
  else
    let n := gp_node_count p in
    if (n <=? N.to_nat source)%nat || (n <=? N.to_nat target)%nat then Some None
    else
      let s := mkFrontiers (<[N.to_nat source := 0%N]> (replicate n u32_max))
                 (<[N.to_nat target := 0%N]> (replicate n u32_max)) [source] [target] u32_max in
      s ← frontiers_loop (2 * n) p s;
      Some (if (best s =? u32_max)%N then None else Some (best s)).

(** ** Connected components (components.rs)

    One thread: the compare-and-exchange of the path compression succeeds. *)

Record UnionFind := mkUnionFind { uf_parent : list NodeIndex; uf_rank : list N }.
(** [n as u32] *)
Definition count_as_u32 (n : nat) : nat := N.to_nat (N.of_nat n `mod` u32_modulus).
Definition uf_new (n : nat) : UnionFind := mkUnionFind (nodes_upto (count_as_u32 n)) (replicate n 0%N).

Fixpoint uf_find (fuel : nat) (x : NodeIndex) (u : UnionFind) : option (NodeIndex * UnionFind) :=
  match fuel with
  | O => None
  | S fuel =>
      px ← uf_parent u !! N.to_nat x;
      if (px =? x)%N then Some (x, u)
      else
        gpx ← uf_parent u !! N.to_nat px;
        uf_find fuel px (mkUnionFind (<[N.to_nat x := gpx]> (uf_parent u)) (uf_rank u))
  end.

(** A path visits every node at most once. *)
Definition uf_find_root (x : NodeIndex) (u : UnionFind) : option (NodeIndex * UnionFind) :=
  uf_find (length (uf_parent u)) x u.

Definition uf_union (a b : NodeIndex) (u : UnionFind) : option UnionFind :=
  '(ra, u) ← uf_find_root a u;
  '(rb, u) ← uf_find_root b u;
  if (ra =? rb)%N then Some u
  else
    ka ← uf_rank u !! N.to_nat ra;
    kb ← uf_rank u !! N.to_nat rb;
    let '(ra, rb) := if (ka <? kb)%N then (rb, ra) else (ra, rb) in
    let u := mkUnionFind (<[N.to_nat rb := ra]> (uf_parent u)) (uf_rank u) in
    Some (if (ka =? kb)%N
          then mkUnionFind (uf_parent u) (<[N.to_nat ra := ((ka + 1) `mod` u32_modulus)%N]> (uf_rank u)) else u).

Definition union_edges (p : GraphProjection) (u : option UnionFind) (x : NodeIndex) : option UnionFind :=
  foldl (λ u v, u ← u; uf_union x v u) u (gp_out p x).

(** [entry(r).or_insert_with(...)]: roots get labels in order of appearance. *)
Definition relabel (st : gmap NodeIndex N * N * list N) (r : NodeIndex) : gmap NodeIndex N * N * list N :=
  let '(labels, next, out) := st in
  match labels !! r with
  | Some l => (labels, next, out ++ [l])
  | None => (<[r := next]> labels, ((next + 1) `mod` u32_modulus)%N, out ++ [next])
  end.

Record ConnectedComponents := mkComponents {
  component : list N;
  num_components : N;
  component_sizes : list N
}.

Definition collect_root (st : option (list NodeIndex * UnionFind)) (v : NodeIndex) :
    option (list NodeIndex * UnionFind) :=
  '(raw, u) ← st; '(r, u) ← uf_find_root v u; Some (raw ++ [r], u).

Definition components_compute (p : GraphProjection) : option ConnectedComponents :=
  let n := gp_node_count p in
  if (n =? 0)%nat then Some (mkComponents [] 0 [])
  else
    uf ← foldl (union_edges p) (Some (uf_new n)) (nodes_upto (count_as_u32 n));
    '(raw, _) ← foldl collect_root (Some ([], uf)) (nodes_upto (count_as_u32 n));
    let '(_, next, component) := foldl relabel (∅, 0%N, []) raw in
    sizes ← foldl (λ s c, s ← s; k ← s !! N.to_nat c; list_set (N.to_nat c) (k + 1)%N s)
              (Some (replicate (N.to_nat next) 0%N)) component;
    Some (mkComponents component next sizes).

(** ** K-cores (k_core.rs) *)

Record Peeling := mkPeeling {
  pl_deg : list N;
  pl_coreness : list N;
  pl_removed : list bool;
  pl_remaining : nat
}.

(** One neighbour of a removed node loses a degree. *)
Definition lose_degree (removed : list bool) (deg : option (list N)) (nb : NodeIndex) : option (list N) :=
  deg ← deg;
  r ← removed !! N.to_nat nb;
  if r : bool then Some deg else d ← deg !! N.to_nat nb; list_set (N.to_nat nb) (d - 1)%N deg.

Definition peel_node (p : GraphProjection) (k : N) (st : option (Peeling * bool)) (v : NodeIndex) :
    option (Peeling * bool) :=
  '(s, changed) ← st;
  r ← pl_removed s !! N.to_nat v;
  d ← pl_deg s !! N.to_nat v;
  if negb r && (d <=? k)%N then
    let removed := <[N.to_nat v := true]> (pl_removed s) in
    deg ← foldl (lose_degree removed) (Some (pl_deg s)) (gp_out p v);
    deg ← foldl (lose_degree removed) (Some deg) (gp_in p v);
    Some (mkPeeling deg (<[N.to_nat v := k]> (pl_coreness s)) removed (pl_remaining s - 1), true)
  else Some (s, changed).

(** [while changed]: passes over all nodes. *)
Fixpoint peel_passes (fuel : nat) (p : GraphProjection) (k : N) (s : Peeling) : option Peeling :=
  match fuel with
  | O => None
  | S fuel =>
      '(s, changed) ← foldl (peel_node p k) (Some (s, false)) (nodes_upto (gp_node_count p));
      if changed : bool then peel_passes fuel p k s else Some s
  end.

(** [(0..n).filter(not removed).map(deg).min().unwrap_or(0)] *)
Definition min_degree (s : Peeling) : N :=
  let degs := omap (λ x : bool * N, if x.1 then None else Some x.2) (zip (pl_removed s) (pl_deg s)) in
  match degs with [] => 0%N | d :: ds => foldl N.min d ds end.

Fixpoint k_core_loop (fuel : nat) (p : GraphProjection) (k : N) (s : Peeling) : option (list N) :=
  if (pl_remaining s =? 0)%nat then Some (pl_coreness s)
  else match fuel with
  | O => None
  | S fuel =>
      let k := N.max k (min_degree s) in
      s ← peel_passes (S (gp_node_count p)) p k s;
      k_core_loop fuel p (k + 1) s
  end.

(** Every round removes a node. *)
Definition k_core_compute (p : GraphProjection) : option (list N * N) :=
  let n := gp_node_count p in
  if (n =? 0)%nat then Some ([], 0%N)
  else
    let deg := (λ v, (N.of_nat (gp_out_degree p v + gp_in_degree p v) `mod` u32_modulus)%N) <$> nodes_upto n in
    coreness ← k_core_loop n p 0 (mkPeeling deg (replicate n 0%N) (replicate n false) n);
    Some (coreness, foldl N.max 0%N coreness).

(** ** Centrality and triangles (centrality.rs, triangles.rs) *)

Definition degree_centrality (p : GraphProjection) : list f64 * list f64 :=
  let n := gp_node_count p in
  if (n <=? 1)%nat then ([], [])
  else
    let norm := f64_of_u64 (N.of_nat (n - 1)) in
    ((λ v, f64_div (f64_of_u64 (N.of_nat (gp_out_degree p v))) norm) <$> nodes_upto n,
     (λ v, f64_div (f64_of_u64 (N.of_nat (gp_in_degree p v))) norm) <$> nodes_upto n).

(** [Vec::dedup] on a sorted vector *)
Fixpoint dedup (l : list N) : list N :=
  match l with
  | x :: (y :: _) as l' => if (x =? y)%N then dedup l' else x :: dedup l'
  | l => l
  end.

Definition undirected_neighbors `{SortUnstable} (p : GraphProjection) (v : NodeIndex) : list NodeIndex :=
  dedup (sort_by_key (λ x, x) (filter (λ u, u ≠ v) (gp_out p v ++ gp_in p v))).

Record TriangleCount := mkTriangleCount {
  triangles : N;
  local_clustering : list f64
}.

(** [local_t[w] += common] *)
Definition add_at (w : NodeIndex) (c : N) (l : list N) : option (list N) :=
  x ← l !! N.to_nat w; list_set (N.to_nat w) (x + c)%N l.

Definition count_pair (adj : list (list NodeIndex)) (u : NodeIndex) (st : option (N * list N)) (v : NodeIndex) :
    option (N * list N) :=
  '(total, local_t) ← st;
  if (v <=? u)%N then Some (total, local_t)
  else
    nu ← adj !! N.to_nat u;
    nv ← adj !! N.to_nat v;
    common ← intersect_sorted_galloping nu nv;
    local_t ← add_at u (N.of_nat common) local_t;
    local_t ← add_at v (N.of_nat common) local_t;
    Some ((total + N.of_nat common)%N, local_t).

Definition clustering (nb : list NodeIndex) (t : N) : f64 :=
  let kv := f64_of_u64 (lenN nb) in
  if f64_lt kv (f64_of_Z 2) then f64_of_Z 0
  else f64_div (f64_mul (f64_of_Z 2) (f64_of_u64 t)) (f64_mul kv (f64_sub kv (f64_of_Z 1))).

Definition triangles_compute `{SortUnstable} (p : GraphProjection) : option TriangleCount :=
  let n := gp_node_count p in
  let adj := undirected_neighbors p <$> nodes_upto n in
  '(total, local_t) ← foldl (λ st u, nu ← adj !! N.to_nat u; foldl (count_pair adj u) st nu)
    (Some (0%N, replicate n 0%N)) (nodes_upto n);
  Some (mkTriangleCount total (zip_with clustering adj local_t)).
