(* ===== verification/GraphSearch.v ===== *)
(** Breadth-first search and the bidirectional search compute shortest hop
    counts; on a sealed generation, whose CSR and CSC rows form a lawful
    projection, those of the abstract graph the mutations describe. *)

From stdpp Require Import base gmap sets strings numbers list sorting fin_maps.
From S2P Require Import Prelude.
From S2P Require Import Graph.
From S2P Require Import GraphAnalytics.
From S2P Require Import Floats.
From S2P Require Import Order.
From S2P Require Import GraphFacts.
From S2P Require Import GraphSeal.

(** ** Walks *)

Inductive walk (E : N → list N) (s : N) : N → nat → Prop :=
  | walk_start : walk E s s 0
  | walk_edge v w k : walk E s v k → w ∈ E v → walk E s w (S k).

(** [d] is the length of a shortest walk. *)
Definition hops (E : N → list N) (s v : N) (d : nat) : Prop :=
  walk E s v d ∧ ∀ k, walk E s v k → (d ≤ k)%nat.

Lemma walk_app E s v w k l : walk E s v k → walk E v w l → walk E s w (k + l).
Proof.
  intros Hk. induction 1 as [|x y l Hl IH Hy]; [by rewrite Nat.add_0_r|].
  rewrite <- plus_n_Sm. by eapply walk_edge.
Qed.

Lemma walk_reverse (E F : N → list N) s v k :
  (∀ x y, y ∈ E x → x ∈ F y) → walk E s v k → walk F v s k.
Proof.
  intros HEF. induction 1 as [|x y k Hk IH Hy]; [constructor|].
  change (S k) with (1 + k)%nat. eapply walk_app; [|exact IH]. eapply walk_edge; [constructor|auto].
Qed.

(** ** Distances *)

Definition reached (dist : list N) (v d : N) : Prop := dist !! N.to_nat v = Some d ∧ d ≠ u32_max.

Lemma reached_fun dist v d d' : reached dist v d → reached dist v d' → d = d'.
Proof. intros [H1 _] [H2 _]. congruence. Qed.

(** Nodes not reached yet *)
Definition unreached (dist : list N) : nat := length (filter (λ d, d = u32_max) dist).

Lemma unreached_insert dist i d :
  dist !! i = Some u32_max → d ≠ u32_max → S (unreached (<[i := d]> dist)) = unreached dist.
Proof.
  unfold unreached. revert i. induction dist as [|x dist IH]; intros [|i] Hi Hd; cbn [insert list_insert lookup list_lookup] in *;
    [done|done|injection Hi as ->|].
  - by rewrite filter_cons_False, filter_cons_True by done.
  - destruct (decide (x = u32_max)).
    + rewrite !filter_cons_True by done. cbn. f_equal. by apply IH.
    + rewrite !filter_cons_False by done. by apply IH.
Qed.

Record visited_more (d : N) (l : list N) (dist dist' : list N) (new : list N) : Prop := {
  vm_len : length dist' = length dist;
  vm_old v x : reached dist v x → reached dist' v x;
  vm_inv v x : reached dist' v x → reached dist v x ∨ (x = (d + 1)%N ∧ v ∈ l ∧ v ∈ new);
  vm_all v : v ∈ l → ∃ x, reached dist' v x;
  vm_new v : v ∈ new → v ∈ l ∧ reached dist' v (d + 1) ∧ ∀ x, ¬ reached dist v x;
  vm_count : (unreached dist' + length new = unreached dist)%nat;
  vm_nodup : NoDup new
}.

Lemma visit_edges d l dist queue :
  (d + 1 < u32_max)%N → (∀ v, v ∈ l → N.to_nat v < length dist)%nat →
  ∃ dist' new, foldl (visit_edge d) (Some (dist, queue)) l = Some (dist', queue ++ new) ∧
    visited_more d l dist dist' new.
Proof.
  intros Hd. revert dist queue. induction l as [|v l IH]; intros dist queue Hl; cbn [foldl].
  { exists dist, []. rewrite app_nil_r. split; [done|]. split; [done|done|by left|by intros v ?%elem_of_nil|by intros v ?%elem_of_nil|cbn; lia|constructor]. }
  assert (∀ w, w ∈ l → N.to_nat w < length dist)%nat as Hl' by (intros; apply Hl; by right).
  destruct (lookup_lt_is_Some_2 dist (N.to_nat v)) as [x Hx]; [apply Hl; by left|].
  unfold visit_edge at 2. cbn [mbind option_bind]. rewrite Hx. cbn [mbind option_bind].
  destruct (N.eqb_spec x u32_max) as [->|Hne].
  - set (dist1 := <[N.to_nat v := (d + 1)%N]> dist).
    assert (length dist1 = length dist) as El by (unfold dist1; apply length_insert).
    assert (reached dist1 v (d + 1)) as Hv1.
    { split; [apply list_lookup_insert_eq; by eapply lookup_lt_Some|lia]. }
    assert (∀ w y, w ≠ v → reached dist1 w y ↔ reached dist w y) as Hne1.
    { intros w y Hw. unfold reached, dist1. by rewrite list_lookup_insert_ne by lia. }
    assert (∀ y, ¬ reached dist v y) as Hnv.
    { intros y [Hy Hmax]. congruence. }
    destruct (IH dist1 (queue ++ [v])) as (dist' & new & -> & [H1 H2 H3 H4 H5 H6 H7]).
    { intros w Hw. rewrite El. by apply Hl'. }
    exists dist', (v :: new). rewrite <- app_assoc. split; [done|]. split.
    + by rewrite H1.
    + intros w y Hw. apply H2. destruct (decide (w = v)) as [->|Hwv]; [by destruct (Hnv y)|by apply Hne1].
    + intros w y [Hw|(-> & Hw & Hn)]%H3.
      * destruct (decide (w = v)) as [->|Hwv]; [right|left; by apply Hne1].
        rewrite (reached_fun _ _ _ _ Hw Hv1). split_and!; [done|by left|by left].
      * right. split_and!; [done|by right|by right].
    + intros w [->|Hw]%elem_of_cons; [by exists (d + 1)%N; apply H2|by apply H4].
    + intros w [->|Hw]%elem_of_cons.
      * split_and!; [by left|by apply H2|done].
      * destruct (H5 w Hw) as (Hin & Hr & Hno). split_and!; [by right|done|]. intros y Hy.
        destruct (decide (w = v)) as [->|Hwv]; [by destruct (Hnv y)|]. by apply (Hno y), Hne1.
    + cbn [length]. pose proof (unreached_insert dist (N.to_nat v) (d + 1) Hx ltac:(lia)) as Hu. fold dist1 in Hu. lia.
    + constructor; [|done]. intros (_ & _ & Hno)%H5. by apply (Hno (d + 1)%N).
  - destruct (IH dist queue Hl') as (dist' & new & -> & [H1 H2 H3 H4 H5 H6 H7]).
    exists dist', new. split; [done|]. split; try done.
    + intros w y [Hw|(-> & Hw & Hn)]%H3; [by left|right]. split_and!; [done|by right|done].
    + intros w [->|Hw]%elem_of_cons; [exists x; by apply H2|by apply H4].
    + intros w Hw. destruct (H5 w Hw) as (Hin & Hr & Hno). split_and!; [by right|done..].
Qed.

Definition dist_le (dist : list N) (u v : N) : Prop :=
  ∀ a b, reached dist u a → reached dist v b → (a ≤ b)%N.

(** The new nodes come after the old ones. *)
Lemma sorted_grow d es dist dist' l new :
  visited_more d es dist dist' new → (∀ v x, reached dist' v x → (x ≤ d + 1)%N) →
  (∀ x, x ∈ l → ∃ y, reached dist x y) →
  StronglySorted (dist_le dist) l → StronglySorted (dist_le dist') (l ++ new).
Proof.
  intros [V1 V2 V3 V4 V5 V6 V7] Hmax Hl. induction 1 as [|x l Hsl IH Hx]; cbn.
  - assert (∀ l', (∀ y, y ∈ l' → y ∈ new) → StronglySorted (dist_le dist') l') as Hnew; [|by apply Hnew].
    induction l' as [|y l' IHl']; intros Hl'; constructor; [apply IHl'; intros; apply Hl'; by right|].
    apply Forall_forall. intros z Hz a c Ha Hc.
    destruct (V5 y ltac:(apply Hl'; by left)) as (_ & Hry & _), (V5 z ltac:(apply Hl'; by right)) as (_ & Hrz & _).
    rewrite (reached_fun _ _ _ _ Ha Hry), (reached_fun _ _ _ _ Hc Hrz). lia.
  - constructor; [apply IH; intros; apply Hl; by right|]. apply Forall_forall. intros z [Hz|Hz]%elem_of_app a c Ha Hc.
    + rewrite Forall_forall in Hx. destruct (Hl x) as [x' Hx']; [by left|]. destruct (Hl z) as [z' Hz']; [by right|].
      rewrite (reached_fun _ _ _ _ Ha (V2 _ _ Hx')), (reached_fun _ _ _ _ Hc (V2 _ _ Hz')). by apply (Hx z Hz).
    + destruct (V5 z Hz) as (_ & Hrz & _). rewrite (reached_fun _ _ _ _ Hc Hrz). by apply (Hmax x).
Qed.

(** ** One side of a search

    [X] are the expanded nodes.  Nodes at distance [bound] or more may have been
    dropped from the queue. *)

Section half.
Context (E : N → list N) (s : N) (n : nat).

Record half_ok (bound : N) (dist queue : list N) (X : list N) : Prop := {
  ho_len : length dist = n;
  ho_src : reached dist s 0;
  ho_sound v d : reached dist v d → walk E s v (N.to_nat d);
  ho_bound v d : reached dist v d → (N.to_nat d + unreached dist < n)%nat;
  ho_queue v : v ∈ queue → ∃ d, reached dist v d;
  ho_sorted : StronglySorted (dist_le dist) queue;
  ho_window u q a v b : queue = u :: q → reached dist u a → reached dist v b → (b ≤ a + 1)%N;
  ho_exp u : u ∈ X → ∃ a, reached dist u a ∧ ∀ w, w ∈ E u → ∃ b, reached dist w b ∧ (b ≤ a + 1)%N;
  ho_cover v d : reached dist v d → v ∈ X ∨ v ∈ queue ∨ (bound ≤ d)%N
}.

Lemma half_bound_le b b' dist queue X : (b' ≤ b)%N → half_ok b dist queue X → half_ok b' dist queue X.
Proof. intros Hb []. split; try done. intros v d [?|[?|?]]%ho_cover0; [by left|by right; left|right; right; lia]. Qed.

Lemma half_head_le b dist u q X a v d :
  half_ok b dist (u :: q) X → reached dist u a → v ∈ u :: q → reached dist v d → (a ≤ d)%N.
Proof.
  intros Hh Ha [->|Hv]%elem_of_cons Hd; [by rewrite (reached_fun _ _ _ _ Ha Hd)|].
  pose proof (ho_sorted _ _ _ _ Hh) as Hs. apply StronglySorted_inv in Hs as [_ Hall].
  rewrite Forall_forall in Hall. by apply (Hall v Hv).
Qed.

(** Dropping a node that is too far away. *)
Lemma half_skip b dist u q X d :
  half_ok b dist (u :: q) X → reached dist u d → (b ≤ d)%N → half_ok b dist q X.
Proof.
  intros Hh Hd Hb. pose proof Hh as [H1 H2 H3 H4 H5 H6 H7 H8 H9]. split; try done.
  - intros v Hv. apply H5. by right.
  - by apply StronglySorted_inv in H6 as [? _].
  - intros w q' a v c -> Ha Hc. pose proof (H7 u _ d v c eq_refl Hd Hc).
    assert (d ≤ a)%N by (apply (half_head_le _ _ _ _ _ d w a Hh); [done|right; by left|done]). lia.
  - intros v c Hc. destruct (H9 v c Hc) as [?|[[->|?]%elem_of_cons|?]]; [by left| |by right; left|by right; right].
    right; right. by rewrite (reached_fun _ _ _ _ Hc Hd).
Qed.

(** Everything closer than [K] is expanded, so everything up to [K] is reached. *)
Lemma half_complete b dist queue X (K : nat) :
  half_ok b dist queue X → (∀ v d, reached dist v d → (N.to_nat d < K)%nat → v ∈ X) →
  ∀ v i, walk E s v i → (i ≤ K)%nat → ∃ d, reached dist v d ∧ (N.to_nat d ≤ i)%nat.
Proof.
  intros Hh HK v i Hw. induction Hw as [|x w k Hk IH Hw]; intros Hi.
  { exists 0%N. split; [apply Hh|done]. }
  destruct IH as (d & Hd & Hle); [lia|]. pose proof (HK x d Hd ltac:(lia)) as Hx.
  destruct (ho_exp _ _ _ _ Hh x Hx) as (a & Ha & Hall). destruct (Hall w Hw) as (c & Hc & Hlec).
  exists c. split; [done|]. rewrite (reached_fun _ _ _ _ Hd Ha) in Hle. lia.
Qed.
Hypothesis range : ∀ u v, v ∈ E u → (N.to_nat v < n)%nat.
Hypothesis small : (N.of_nat n < u32_max)%N.

Lemma half_start bound : (N.to_nat s < n)%nat → half_ok bound (<[N.to_nat s := 0%N]> (replicate n u32_max)) [s] [].
Proof using small.
  intros Hs. set (dist := <[N.to_nat s := 0%N]> (replicate n u32_max)).
  assert (∀ v d, reached dist v d → v = s ∧ d = 0%N) as Honly.
  { intros v d [Hv Hd]. unfold dist in Hv. apply list_lookup_insert_Some in Hv as [(? & <- & _)|(_ & Hv)]; [split; lia|].
    by apply lookup_replicate in Hv as [-> _]. }
  assert (reached dist s 0) as H0.
  { split; [|done]. apply list_lookup_insert_eq. by rewrite length_replicate. }
  assert (unreached (replicate n u32_max) = n) as Hall.
  { unfold unreached. clear. induction n as [|m IH]; [done|]. cbn [replicate]. rewrite filter_cons_True by done. cbn. by rewrite IH. }
  pose proof (unreached_insert (replicate n u32_max) (N.to_nat s) 0 ltac:(by apply lookup_replicate_2) ltac:(done)) as Hu.
  fold dist in Hu. split.
  - unfold dist. by rewrite length_insert, length_replicate.
  - done.
  - intros v d [-> ->]%Honly. constructor.
  - intros v d [-> ->]%Honly. lia.
  - intros v ->%list_elem_of_singleton. eauto.
  - by repeat constructor.
  - intros u q a v b _ [-> ->]%Honly [-> ->]%Honly. lia.
  - by intros u ?%elem_of_nil.
  - intros v d [-> ->]%Honly. right; left. by left.
Qed.

Lemma half_expand b dist u q X d :
  half_ok b dist (u :: q) X → reached dist u d →
  ∃ dist' new, foldl (visit_edge d) (Some (dist, q)) (E u) = Some (dist', q ++ new) ∧
    visited_more d (E u) dist dist' new ∧ half_ok b dist' (q ++ new) (X ++ [u]).
Proof using range small.
  intros Hh Hd. pose proof Hh as [H1 H2 H3 H4 H5 H6 H7 H8 H9].
  pose proof (H4 u d Hd) as Hlt.
  destruct (visit_edges d (E u) dist q) as (dist' & new & Hf & Hvm).
  { lia. }
  { intros v Hv. rewrite H1. eauto. }
  exists dist', new. split_and!; [done|done|]. pose proof Hvm as [V1 V2 V3 V4 V5 V6 V7].
  assert (∀ v x, reached dist' v x → (x ≤ d + 1)%N) as Hmax.
  { intros v x [Hx|(-> & _)]%V3; [|lia]. by apply (H7 u q d v x). }
  assert (∀ v x, v ∈ q ++ new → reached dist' v x → (d ≤ x)%N) as Hmin.
  { intros v x [Hv|Hv]%elem_of_app Hx.
    - destruct (H5 v) as [y Hy]; [by right|]. rewrite (reached_fun _ _ _ _ Hx (V2 _ _ Hy)).
      apply (half_head_le _ _ _ _ _ d v y Hh); [done|by right|done].
    - destruct (V5 v Hv) as (_ & Hr & _). rewrite (reached_fun _ _ _ _ Hx Hr). lia. }
  split.
  - by rewrite V1.
  - by apply V2.
  - intros v x [Hx|(-> & Hv & _)]%V3; [by apply H3|].
    replace (N.to_nat (d + 1)) with (S (N.to_nat d)) by lia. eapply walk_edge; [by apply H3|done].
  - intros v x [Hx|(-> & _ & Hv)]%V3.
    + pose proof (H4 v x Hx). lia.
    + assert (0 < length new)%nat by (destruct new; [by apply elem_of_nil in Hv|cbn; lia]). lia.
  - intros v [Hv|Hv]%elem_of_app.
    + destruct (H5 v) as [y Hy]; [by right|]. eauto.
    + exists (d + 1)%N. by apply V5.
  - apply StronglySorted_inv in H6 as [Hq _].
    apply (sorted_grow d (E u) dist); [done|done| |done]. intros x Hx. apply H5. by right.
  - intros w q' a v c Hq Ha Hc. pose proof (Hmax v c Hc). assert (d ≤ a)%N by (apply (Hmin w); [rewrite Hq; by left|done]). lia.
  - intros w [Hw|Hw%list_elem_of_singleton]%elem_of_app.
    + destruct (H8 w Hw) as (a & Ha & Hall). exists a. split; [by apply V2|]. intros y Hy.
      destruct (Hall y Hy) as (c & Hc & Hle). exists c. split; [by apply V2|done].
    + subst w. exists d. split; [by apply V2|]. intros y Hy. destruct (V4 y Hy) as [c Hc]. exists c. split; [done|]. by apply (Hmax y).
  - intros v x [Hx|(_ & _ & Hv)]%V3.
    + destruct (H9 v x Hx) as [?|[[->|?]%elem_of_cons|?]]; [left..|right; left|by right; right]; apply elem_of_app; [by left|right; by left|by left].
    + right; left. apply elem_of_app. by right.
Qed.

End half.

(** ** Breadth-first search *)

Section bfs.
Context (p : GraphProjection) (laws : ProjectionLaws p) (s : N).
Hypothesis small : (N.of_nat (gp_node_count p) < u32_max)%N.

Lemma out_range u v : v ∈ gp_out p u → (N.to_nat v < gp_node_count p)%nat.
Proof using laws. intros Hv. by apply (gp_out_range _ laws u v). Qed.

Abbreviation ok := (half_ok (gp_out p) s (gp_node_count p) u32_max).

Lemma ok_reached dist queue X v : ok dist queue X → v ∈ X ++ queue → ∃ d, reached dist v d.
Proof.
  intros Hh [Hv|Hv]%elem_of_app; [|by eapply ho_queue].
  destruct (ho_exp _ _ _ _ _ _ _ Hh v Hv) as (a & Ha & _). eauto.
Qed.

Lemma bfs_loop_ok fuel dist queue order :
  ok dist queue order → NoDup (order ++ queue) → StronglySorted (dist_le dist) (order ++ queue) →
  (unreached dist + length queue ≤ fuel)%nat →
  ∃ dist' order', bfs_loop fuel p dist queue order = Some (dist', order') ∧
    ok dist' [] order' ∧ NoDup order' ∧ StronglySorted (dist_le dist') order'.
Proof using laws small.
  revert dist queue order. induction fuel as [|fuel IH]; intros dist [|u queue] order Hh Hnd Hs Hf.
  - rewrite app_nil_r in *. cbn. eauto 6.
  - cbn in Hf. lia.
  - rewrite app_nil_r in *. cbn. eauto 6.
  - destruct (ho_queue _ _ _ _ _ _ _ Hh u) as [d Hd]; [by left|].
    destruct (half_expand _ _ _ out_range small _ _ _ _ _ d Hh Hd) as (dist' & new & Hfold & Hvm & Hh').
    cbn [bfs_loop]. rewrite (proj1 Hd). cbn [mbind option_bind]. rewrite Hfold. cbn [mbind option_bind].
    assert (order ++ u :: queue = (order ++ [u]) ++ queue) as Eq by (by rewrite <- app_assoc).
    apply IH; [done| | |].
    + rewrite app_assoc, <- Eq. apply NoDup_app. split_and!; [done| |].
      * intros x Hx Hn. destruct (ok_reached _ _ _ x Hh Hx) as [y Hy]. by destruct (vm_new _ _ _ _ _ Hvm x Hn) as (_ & _ & Hno); destruct (Hno y).
      * apply Hvm.
    + rewrite app_assoc, <- Eq. apply (sorted_grow d (gp_out p u) dist); [done| |by intros x Hx; eapply ok_reached|done].
      intros v x Hx. destruct (vm_inv _ _ _ _ _ Hvm v x Hx) as [Hx'|(-> & _)]; [|lia].
      by apply (ho_window _ _ _ _ _ _ _ Hh u queue d v x).
    + rewrite length_app. pose proof (vm_count _ _ _ _ _ Hvm). cbn in Hf. lia.
Qed.

Lemma bfs_complete dist order w i :
  ok dist [] order → walk (gp_out p) s w i → w ∈ order ∧ ∃ x, reached dist w x ∧ (N.to_nat x ≤ i)%nat.
Proof using laws small.
  intros Hh Hwi. assert (∀ w x, reached dist w x → w ∈ order) as Hall.
  { intros y x Hx. destruct (ho_cover _ _ _ _ _ _ _ Hh y x Hx) as [?|[?%elem_of_nil|?]]; [done|done|].
    pose proof (ho_bound _ _ _ _ _ _ _ Hh y x Hx). lia. }
  assert (∃ x, reached dist w x ∧ (N.to_nat x ≤ i)%nat) as (x & Hx & Hle).
  { eapply half_complete with (K := i); [exact Hh|by intros; eapply Hall|exact Hwi|done]. }
  split; [by eapply Hall|eauto].
Qed.

Lemma bfs_exact dist order v d :
  ok dist [] order → reached dist v d ↔ hops (gp_out p) s v (N.to_nat d).
Proof using laws small.
  intros Hh. assert (∀ w i, walk (gp_out p) s w i → ∃ x, reached dist w x ∧ (N.to_nat x ≤ i)%nat) as Hw
    by (intros w i Hwi; by eapply bfs_complete).
  split.
  - intros Hd. split; [by apply (ho_sound _ _ _ _ _ _ _ Hh)|]. intros k (x & Hx & Hle)%Hw.
    by rewrite (reached_fun _ _ _ _ Hd Hx).
  - intros [Hwalk Hmin]. destruct (Hw v _ Hwalk) as (x & Hx & Hle).
    pose proof (Hmin _ (ho_sound _ _ _ _ _ _ _ Hh v x Hx)). by replace d with x by lia.
Qed.

Lemma bfs_run : (N.to_nat s < gp_node_count p)%nat →
  ∃ dist order, bfs_from_source p s = Some (dist, order) ∧ ok dist [] order ∧ NoDup order ∧ StronglySorted (dist_le dist) order.
Proof using laws small.
  intros Hs. unfold bfs_from_source. rewrite (proj2 (Nat.ltb_lt _ _) Hs).
  pose proof (half_start (gp_out p) s _ small u32_max Hs) as H0.
  destruct (bfs_loop_ok (gp_node_count p) _ [s] [] H0) as (dist & order & Hl & Hh & Hnd & Hso).
  - apply NoDup_singleton.
  - by repeat constructor.
  - pose proof (ho_bound _ _ _ _ _ _ _ H0 s 0 (ho_src _ _ _ _ _ _ _ H0)). cbn. lia.
  - by exists dist, order.
Qed.

(** A reachable node is reachable by a walk shorter than the number of nodes. *)
Lemma walk_short v k : (N.to_nat s < gp_node_count p)%nat → walk (gp_out p) s v k →
  ∃ j, walk (gp_out p) s v j ∧ (j < gp_node_count p)%nat.
Proof using laws small.
  intros Hs Hk. destruct (bfs_run Hs) as (dist & order & _ & Hh & _ & _).
  destruct (bfs_complete _ _ _ _ Hh Hk) as (_ & x & Hx & _). exists (N.to_nat x).
  split; [by apply (ho_sound _ _ _ _ _ _ _ Hh)|]. pose proof (ho_bound _ _ _ _ _ _ _ Hh v x Hx). lia.
Qed.

(** Breadth-first search is exact: on a graph of fewer than 2^32 - 1 nodes it
    returns; the distance of a node is the length of a shortest walk from the
    source, [u32::MAX] exactly when there is none; and the order lists the
    reachable nodes once each, by non-decreasing distance. *)
Theorem bfs_correct :
  (N.to_nat s < gp_node_count p)%nat →
  ∃ dist order, bfs_from_source p s = Some (dist, order) ∧
    length dist = gp_node_count p ∧
    (∀ v d, reached dist v d ↔ hops (gp_out p) s v (N.to_nat d)) ∧
    NoDup order ∧ (∀ v, v ∈ order ↔ ∃ k, walk (gp_out p) s v k) ∧ StronglySorted (dist_le dist) order.
Proof using laws small.
  intros Hs. destruct (bfs_run Hs) as (dist & order & Hr & Hh & Hnd & Hso).
  exists dist, order. split_and!; [done|apply Hh|by intros; eapply bfs_exact|done| |done].
  intros v. split.
  - intros Hv. destruct (ok_reached _ _ _ v Hh) as [d Hd]; [by rewrite app_nil_r|].
    eexists. by apply (ho_sound _ _ _ _ _ _ _ Hh).
  - intros [k Hk]. by eapply bfs_complete.
Qed.
End bfs.

(** ** Bidirectional search *)

Lemma walk_split E s v L i : walk E s v L → (i ≤ L)%nat → ∃ x, walk E s x i ∧ walk E x v (L - i).
Proof.
  intros Hw. revert i. induction Hw as [|y w k Hk IH Hy]; intros i Hi.
  - assert (i = 0)%nat as -> by lia. exists s. split; constructor.
  - destruct (decide (i = S k)) as [->|Hne].
    + exists w. rewrite Nat.sub_diag. split; [by eapply walk_edge|constructor].
    + destruct (IH i) as (x & H1 & H2); [lia|]. exists x. split; [done|].
      replace (S k - i)%nat with (S (k - i)) by lia. by eapply walk_edge.
Qed.

Lemma walk_first E s v k : walk E s v (S k) → ∃ x, x ∈ E s ∧ walk E x v k.
Proof.
  intros Hw. destruct (walk_split _ _ _ _ 1 Hw) as (x & H1 & H2); [lia|]. exists x.
  replace (S k - 1)%nat with k in H2 by lia. split; [|done]. inversion H1 as [|y z k' H3 H4]; subst.
  inversion H3; by subst.
Qed.

Lemma meet_edges d other l dist queue dist' queue' b :
  foldl (visit_edge d) (Some (dist, queue)) l = Some (dist', queue') →
  (∀ v, v ∈ l → N.to_nat v < length other)%nat →
  (∀ v o, reached other v o → d + 1 + o < u32_modulus)%N →
  ∃ b', foldl (meet_edge d other) (Some (dist, queue, b)) l = Some (dist', queue', b') ∧ (b' ≤ b)%N ∧
    (∀ v o, v ∈ l → reached other v o → (b' ≤ d + 1 + o)%N) ∧
    (b' = b ∨ ∃ v o, v ∈ l ∧ reached other v o ∧ b' = (d + 1 + o)%N).
Proof.
  intros Hf Hl Hsmall. revert dist queue b Hf. induction l as [|v l IH]; intros dist queue b Hf; cbn [foldl] in *.
  { injection Hf as -> ->. exists b. split_and!; [done|done|by intros v o ?%elem_of_nil|by left]. }
  destruct (visit_edge d (Some (dist, queue)) v) as [[dist1 queue1]|] eqn:Hv.
  2:{ assert (∀ l', foldl (visit_edge d) None l' = None) as Hnone by (by induction l'). by rewrite Hnone in Hf. }
  destruct (lookup_lt_is_Some_2 other (N.to_nat v)) as [o Ho]; [apply Hl; by left|].
  unfold meet_edge at 2. cbn [mbind option_bind]. rewrite Hv. cbn [mbind option_bind]. rewrite Ho. cbn [mbind option_bind].
  set (b1 := if negb _ && _ then _ else b).
  assert ((b1 ≤ b)%N ∧ (∀ x, reached other v x → (b1 ≤ d + 1 + x)%N) ∧
    (b1 = b ∨ reached other v o ∧ b1 = (d + 1 + o)%N)) as (B1 & B2 & B3).
  { unfold b1. destruct (N.eqb_spec o u32_max) as [->|Hne]; cbn [negb andb].
    - split_and!; [done| |by left]. intros x [Hx ?]. congruence.
    - assert (reached other v o) as Hr by done. rewrite N.mod_small by (by eapply Hsmall).
      assert (∀ x, reached other v x → x = o) as Hx by (intros x Hx; by eapply reached_fun).
      destruct (N.ltb_spec (d + 1 + o) b); (split_and!; [lia|intros x ->%Hx; lia|]); [by right|by left]. }
  destruct (IH ltac:(intros; apply Hl; by right) dist1 queue1 b1 Hf) as (b' & Hfold & C1 & C2 & C3).
  exists b'. split_and!; [done|lia| |].
  - intros w x [->|Hw]%elem_of_cons Hx; [specialize (B2 x Hx); lia|by eapply C2].
  - destruct C3 as [->|(w & x & Hw & Hx & ->)].
    + destruct B3 as [->|[Hr ->]]; [by left|right]. exists v, o. split_and!; [by left|done|done].
    + right. exists w, x. split_and!; [by right|done|done].
Qed.

Section bidirectional.
Context (p : GraphProjection) (laws : ProjectionLaws p) (s t : N).
Abbreviation n := (gp_node_count p).

Lemma transpose_elem u v : v ∈ gp_out p u ↔ u ∈ gp_in p v.
Proof using laws.
  assert (∀ x l, x ∈ l ↔ (0 < occurrences x l)%nat) as Hocc.
  { intros x l. unfold occurrences. split.
    - intros Hx. assert (x ∈ filter (λ y, y = x) l) as Hin by (by apply list_elem_of_filter).
      destruct (filter (λ y, y = x) l); [by apply elem_of_nil in Hin|cbn; lia].
    - intros Hlen. destruct (filter (λ y, y = x) l) as [|y l'] eqn:Ef; [cbn in Hlen; lia|].
      assert (y ∈ filter (λ y, y = x) l) as [-> ?]%list_elem_of_filter by (rewrite Ef; by left). done. }
  by rewrite !Hocc, (gp_transpose _ laws).
Qed.

Lemma in_range u v : u ∈ gp_in p v → (N.to_nat u < n)%nat.
Proof using laws. intros Hu%transpose_elem. by apply (gp_out_range _ laws u v). Qed.

Hypothesis small : (2 * N.of_nat (gp_node_count p) < u32_max)%N.

Lemma n_small : (N.of_nat n < u32_max)%N.
Proof using small. lia. Qed.

Record both_ok (f : Frontiers) (XF XR : list N) : Prop := {
  bo_fwd : half_ok (gp_out p) s n (best f) (dist_fwd f) (frontier_fwd f) XF;
  bo_rev : half_ok (gp_in p) t n (best f) (dist_rev f) (frontier_rev f) XR;
  bo_sound : (best f < u32_max)%N → walk (gp_out p) s t (N.to_nat (best f));
  bo_max : (best f ≤ u32_max)%N;
  bo_meet u v a b : u ∈ XF → v ∈ XR → v ∈ gp_out p u →
    reached (dist_fwd f) u a → reached (dist_rev f) v b → (best f ≤ a + 1 + b)%N;
  bo_target u a : u ∈ XF → t ∈ gp_out p u → reached (dist_fwd f) u a → (best f ≤ a + 1)%N;
  bo_source v b : v ∈ XR → v ∈ gp_out p s → reached (dist_rev f) v b → (best f ≤ 1 + b)%N
}.

Lemma rev_walk v d : walk (gp_in p) t v d → walk (gp_out p) v t d.
Proof using laws. apply walk_reverse. intros x y. by rewrite transpose_elem. Qed.

(** Everything nearer than the front and than [best] has been expanded. *)
Lemma half_front E s' b dist queue X m :
  half_ok E s' n b dist queue X → front_distance dist queue = Some m →
  ∀ v d, reached dist v d → (N.to_nat d < N.to_nat (N.min m b))%nat → v ∈ X.
Proof.
  intros Hh Hm v d Hd Hlt. destruct (ho_cover _ _ _ _ _ _ _ Hh v d Hd) as [?|[Hq|?]]; [done| |lia].
  destruct queue as [|u q]; [by apply elem_of_nil in Hq|]. cbn in Hm.
  destruct (ho_queue _ _ _ _ _ _ _ Hh u) as [a Ha]; [by left|]. assert (m = a) as -> by (destruct Ha; congruence).
  pose proof (half_head_le _ _ _ _ _ _ _ _ _ v d Hh Ha Hq Hd). lia.
Qed.

(** When the search stops, no walk is shorter than [best]. *)
Lemma search_exact f XF XR mf mr L :
  both_ok f XF XR → s ≠ t →
  front_distance (dist_fwd f) (frontier_fwd f) = Some mf →
  front_distance (dist_rev f) (frontier_rev f) = Some mr →
  (best f ≤ u32_saturating_add mf mr)%N →
  walk (gp_out p) s t L → (N.to_nat (best f) ≤ L)%nat.
Proof using laws small.
  intros [HF HR Hs Hmax Hmeet Htgt Hsrc] Hst Hmf Hmr Hstop Hwalk.
  destruct (decide (N.to_nat (best f) ≤ L)%nat) as [|Hgt]; [done|exfalso].
  pose proof (half_front _ _ _ _ _ _ mf HF Hmf) as KF. pose proof (half_front _ _ _ _ _ _ mr HR Hmr) as KR.
  set (kf := N.to_nat (N.min mf (best f))) in *. set (kr := N.to_nat (N.min mr (best f))) in *.
  assert (∀ v i, walk (gp_out p) s v i → (i ≤ kf)%nat → ∃ d, reached (dist_fwd f) v d ∧ (N.to_nat d ≤ i)%nat) as CF.
  { intros v i Hw Hi. eapply half_complete with (K := kf); [exact HF|done..]. }
  assert (∀ v i, walk (gp_out p) v t i → (i ≤ kr)%nat → ∃ d, reached (dist_rev f) v d ∧ (N.to_nat d ≤ i)%nat) as CR.
  { intros v i Hw Hi. eapply half_complete with (K := kr); [exact HR|done| |done].
    eapply walk_reverse; [|exact Hw]. intros x y. by rewrite transpose_elem. }
  assert (L ≠ 0)%nat as HL by (intros ->; inversion Hwalk; done).
  unfold u32_saturating_add in Hstop.
  destruct (decide (kf = 0)%nat) as [Hkf|Hkf]; [|destruct (decide (kr = 0)%nat) as [Hkr|Hkr]].
  - destruct L as [|L]; [done|]. destruct (walk_first _ _ _ _ Hwalk) as (y & Hy & Hyt).
    destruct (CR y L Hyt) as (b & Hb & Hle); [lia|].
    pose proof (KR y b Hb ltac:(lia)) as Hin. pose proof (Hsrc y b Hin Hy Hb). lia.
  - destruct L as [|L]; [done|]. inversion Hwalk as [|x t' k Hx Ht E1 E2]; subst.
    destruct (CF x L Hx) as (a & Ha & Hle); [lia|].
    pose proof (KF x a Ha ltac:(lia)) as Hin. pose proof (Htgt x a Hin Ht Ha). lia.
  - set (i := (L - kr)%nat). destruct (walk_split _ _ _ _ i Hwalk) as (x & Hx & Hxt); [lia|].
    destruct (L - i)%nat as [|m] eqn:Em; [lia|]. destruct (walk_first _ _ _ _ Hxt) as (y & Hy & Hyt).
    destruct (CF x i Hx) as (a & Ha & Hlea); [lia|]. destruct (CR y m Hyt) as (b & Hb & Hleb); [lia|].
    pose proof (KF x a Ha ltac:(lia)) as HX. pose proof (KR y b Hb ltac:(lia)) as HY.
    pose proof (Hmeet x y a b HX HY Hy Ha Hb). lia.
Qed.

(** What expanding one side does. *)
Definition expanded E s' (other : list N) (b b' : N) (dist dist' queue queue' X X' : list N) (skip : bool) : Prop :=
  half_ok E s' n b' dist' queue' X' ∧ (b' ≤ b)%N ∧
  (∀ v x, reached dist v x → reached dist' v x) ∧ (unreached dist' + length queue' < unreached dist + length queue)%nat ∧
  if skip then b' = b ∧ X' = X
  else ∃ u d, X' = X ++ [u] ∧ reached dist' u d ∧
    (∀ v o, v ∈ E u → reached other v o → (b' ≤ d + 1 + o)%N) ∧
    (b' = b ∨ ∃ v o, v ∈ E u ∧ reached other v o ∧ b' = (d + 1 + o)%N).

Lemma expand_half_ok E s' other b dist u queue X :
  (∀ x y, y ∈ E x → (N.to_nat y < n)%nat) → half_ok E s' n b dist (u :: queue) X →
  length other = n → (∀ v o, reached other v o → (N.to_nat o < n)%nat) →
  ∃ dist' queue' b' skip X', expand_half E dist other (u :: queue) b = Some (dist', queue', b', skip) ∧
    expanded E s' other b b' dist dist' (u :: queue) queue' X X' skip.
Proof using small.
  intros Hrange Hh Hlen Hother. destruct (ho_queue _ _ _ _ _ _ _ Hh u) as [d Hd]; [by left|].
  cbn [expand_half]. rewrite (proj1 Hd). cbn [mbind option_bind]. destruct (N.leb_spec b d) as [Hb|Hb].
  - exists dist, queue, b, true, X. split; [done|]. split_and!; try done; [eapply half_skip; [exact Hh|exact Hd|done]|cbn; lia].
  - destruct (half_expand _ _ _ Hrange n_small _ _ _ _ _ d Hh Hd) as (dist' & new & Hfold & Hvm & Hh').
    pose proof (ho_bound _ _ _ _ _ _ _ Hh u d Hd) as Hdn.
    destruct (meet_edges d other (E u) dist queue dist' (queue ++ new) b Hfold) as (b' & Hm & B1 & B2 & B3).
    { intros v Hv. rewrite Hlen. eauto. }
    { intros v o Ho%Hother. unfold u32_max, u32_modulus in *. lia. }
    exists dist', (queue ++ new), b', false, (X ++ [u]). rewrite Hm. split; [done|].
    split_and!; [by eapply half_bound_le|done|apply Hvm| |].
    + pose proof (vm_count _ _ _ _ _ Hvm). rewrite length_app. cbn. lia.
    + exists u, d. split_and!; [done|by apply Hvm|done|done].
Qed.

Definition measure (f : Frontiers) : nat :=
  (unreached (dist_fwd f) + length (frontier_fwd f) + (unreached (dist_rev f) + length (frontier_rev f)))%nat.

Lemma forward_ok f XF XR dist' queue' b' skip XF' :
  both_ok f XF XR →
  expanded (gp_out p) s (dist_rev f) (best f) b' (dist_fwd f) dist' (frontier_fwd f) queue' XF XF' skip →
  both_ok (mkFrontiers dist' (dist_rev f) queue' (frontier_rev f) b') XF' XR.
Proof using laws small.
  intros [HF HR Hs Hmax Hmeet Htgt Hsrc] (Hh & Hle & Hold & _ & Hx).
  assert (∀ u a, u ∈ XF → reached dist' u a → reached (dist_fwd f) u a) as Hback.
  { intros u a Hu Ha. destruct (ho_exp _ _ _ _ _ _ _ HF u Hu) as (c & Hc & _).
    by rewrite (reached_fun _ _ _ _ Ha (Hold _ _ Hc)). }
  assert (both_ok (mkFrontiers dist' (dist_rev f) queue' (frontier_rev f) b') XF' XR ↔
    (((b' < u32_max)%N → walk (gp_out p) s t (N.to_nat b')) ∧
     (∀ u a, u ∈ XF' → reached dist' u a →
       (∀ v b, v ∈ XR → v ∈ gp_out p u → reached (dist_rev f) v b → (b' ≤ a + 1 + b)%N) ∧
       (t ∈ gp_out p u → (b' ≤ a + 1)%N)))) as ->.
  { split; [intros []; split; [done|]; intros u a Hu Ha; split; [by intros; eapply bo_meet0|by intros; eapply bo_target0]|].
    intros [Hw Hall]. split; cbn [best dist_fwd dist_rev frontier_fwd frontier_rev]; try done.
    - by eapply half_bound_le.
    - lia.
    - intros u v a b Hu Hv Hin Ha Hb. destruct (Hall u a Hu Ha) as [H1 _]. by apply (H1 v).
    - intros u a Hu Hin Ha. by destruct (Hall u a Hu Ha) as [_ H2]; apply H2.
    - intros v b Hv Hin Hb. specialize (Hsrc v b Hv Hin Hb). lia. }
  assert (∀ u a, u ∈ XF → reached dist' u a →
       (∀ v b, v ∈ XR → v ∈ gp_out p u → reached (dist_rev f) v b → (b' ≤ a + 1 + b)%N) ∧
       (t ∈ gp_out p u → (b' ≤ a + 1)%N)) as Hold'.
  { intros u a Hu Ha%Hback; [|done]. split.
    - intros v b Hv Hin Hb. specialize (Hmeet u v a b Hu Hv Hin Ha Hb). lia.
    - intros Hin. specialize (Htgt u a Hu Hin Ha). lia. }
  destruct skip; [by destruct Hx as [-> ->]|]. destruct Hx as (u & d & -> & Hd & Hmin & Hor). split.
  - intros Hb. destruct Hor as [->|(v & o & Hv & Ho & ->)]; [by apply Hs|].
    replace (N.to_nat (d + 1 + o)) with (S (N.to_nat d) + N.to_nat o)%nat by lia.
    eapply walk_app; [eapply walk_edge; [by apply (ho_sound _ _ _ _ _ _ _ Hh)|exact Hv]|].
    by apply rev_walk, (ho_sound _ _ _ _ _ _ _ HR).
  - intros w a [Hw|Hw%list_elem_of_singleton]%elem_of_app Ha; [by apply Hold'|]. subst w.
    rewrite (reached_fun _ _ _ _ Ha Hd). split.
    + intros v b Hv Hin Hb. by apply (Hmin v).
    + intros Hin. specialize (Hmin t 0%N Hin (ho_src _ _ _ _ _ _ _ HR)). lia.
Qed.

Lemma backward_ok f XF XR dist' queue' b' skip XR' :
  both_ok f XF XR →
  expanded (gp_in p) t (dist_fwd f) (best f) b' (dist_rev f) dist' (frontier_rev f) queue' XR XR' skip →
  both_ok (mkFrontiers (dist_fwd f) dist' (frontier_fwd f) queue' b') XF XR'.
Proof using laws small.
  intros [HF HR Hs Hmax Hmeet Htgt Hsrc] (Hh & Hle & Hold & _ & Hx).
  assert (∀ u a, u ∈ XR → reached dist' u a → reached (dist_rev f) u a) as Hback.
  { intros u a Hu Ha. destruct (ho_exp _ _ _ _ _ _ _ HR u Hu) as (c & Hc & _).
    by rewrite (reached_fun _ _ _ _ Ha (Hold _ _ Hc)). }
  assert (both_ok (mkFrontiers (dist_fwd f) dist' (frontier_fwd f) queue' b') XF XR' ↔
    (((b' < u32_max)%N → walk (gp_out p) s t (N.to_nat b')) ∧
     (∀ v b, v ∈ XR' → reached dist' v b →
       (∀ u a, u ∈ XF → v ∈ gp_out p u → reached (dist_fwd f) u a → (b' ≤ a + 1 + b)%N) ∧
       (v ∈ gp_out p s → (b' ≤ 1 + b)%N)))) as ->.
  { split; [intros []; split; [done|]; intros v b Hv Hb; split; [by intros; eapply bo_meet0|by intros; eapply bo_source0]|].
    intros [Hw Hall]. split; cbn [best dist_fwd dist_rev frontier_fwd frontier_rev]; try done.
    - by eapply half_bound_le.
    - lia.
    - intros u v a b Hu Hv Hin Ha Hb. destruct (Hall v b Hv Hb) as [H1 _]. by apply (H1 u).
    - intros u a Hu Hin Ha. specialize (Htgt u a Hu Hin Ha). lia.
    - intros v b Hv Hin Hb. by destruct (Hall v b Hv Hb) as [_ H2]; apply H2. }
  assert (∀ v b, v ∈ XR → reached dist' v b →
       (∀ u a, u ∈ XF → v ∈ gp_out p u → reached (dist_fwd f) u a → (b' ≤ a + 1 + b)%N) ∧
       (v ∈ gp_out p s → (b' ≤ 1 + b)%N)) as Hold'.
  { intros v b Hv Hb%Hback; [|done]. split.
    - intros u a Hu Hin Ha. specialize (Hmeet u v a b Hu Hv Hin Ha Hb). lia.
    - intros Hin. specialize (Hsrc v b Hv Hin Hb). lia. }
  destruct skip; [by destruct Hx as [-> ->]|]. destruct Hx as (v & d & -> & Hd & Hmin & Hor). split.
  - intros Hb. destruct Hor as [->|(u & o & Hu & Ho & ->)]; [by apply Hs|].
    replace (N.to_nat (d + 1 + o)) with (S (N.to_nat o) + N.to_nat d)%nat by lia.
    eapply walk_app; [eapply walk_edge; [by apply (ho_sound _ _ _ _ _ _ _ HF)|by apply transpose_elem]|].
    by apply rev_walk, (ho_sound _ _ _ _ _ _ _ Hh).
  - intros w b [Hw|Hw%list_elem_of_singleton]%elem_of_app Hb; [by apply Hold'|]. subst w.
    rewrite (reached_fun _ _ _ _ Hb Hd). split.
    + intros u a Hu Hin%transpose_elem Ha. specialize (Hmin u a Hin Ha). lia.
    + intros Hin%transpose_elem. specialize (Hmin s 0%N Hin (ho_src _ _ _ _ _ _ _ HF)). lia.
Qed.

Lemma front_Some E s' b dist queue X : half_ok E s' n b dist queue X → ∃ m, front_distance dist queue = Some m.
Proof.
  intros Hh. destruct queue as [|u q]; [by eexists|]. cbn.
  destruct (ho_queue _ _ _ _ _ _ _ Hh u) as [d [Hd _]]; [by left|eauto].
Qed.

Definition stopped (f : Frontiers) : Prop := ∃ mf mr,
  front_distance (dist_fwd f) (frontier_fwd f) = Some mf ∧
  front_distance (dist_rev f) (frontier_rev f) = Some mr ∧ (best f ≤ u32_saturating_add mf mr)%N.

Lemma done_ok f XF XR : both_ok f XF XR →
  ∃ stop, frontiers_done f = Some stop ∧ (stop = true → stopped f).
Proof.
  intros [HF HR _ _ _ _ _]. destruct (front_Some _ _ _ _ _ _ HF) as [mf Hmf], (front_Some _ _ _ _ _ _ HR) as [mr Hmr].
  unfold frontiers_done. rewrite Hmf, Hmr. cbn. eexists. split; [done|]. intros Hle%N.leb_le. by exists mf, mr.
Qed.

Lemma step_ok f XF XR :
  both_ok f XF XR → (frontier_fwd f ≠ [] ∨ frontier_rev f ≠ []) →
  ∃ f' stop XF' XR', frontiers_step p f = Some (f', stop) ∧ both_ok f' XF' XR' ∧
    (measure f' < measure f)%nat ∧ (stop = true → stopped f').
Proof using laws small.
  intros Hb Hne. pose proof (bo_fwd _ _ _ Hb) as HF. pose proof (bo_rev _ _ _ Hb) as HR.
  assert (∃ f' skip XF' XR', frontiers_step p f = (if skip : bool then Some (f', false) else stop ← frontiers_done f'; Some (f', stop)) ∧
    both_ok f' XF' XR' ∧ (measure f' < measure f)%nat) as (f' & skip & XF' & XR' & Hstep & Hb' & Hm).
  { unfold frontiers_step. destruct (forward_turn f) eqn:Hturn.
    - destruct (frontier_fwd f) as [|u q] eqn:Hq; [unfold forward_turn in Hturn; by rewrite Hq in Hturn|].
      destruct (expand_half_ok (gp_out p) s (dist_rev f) (best f) (dist_fwd f) u q XF)
        as (dist' & queue' & b' & skip & XF' & He & Hx); [exact (out_range p laws)|done|apply HR| |].
      { intros v o Ho. pose proof (ho_bound _ _ _ _ _ _ _ HR v o Ho). lia. }
      rewrite He. cbn [mbind option_bind]. rewrite <- Hq in Hx.
      eexists _, skip, XF', XR. split_and!; [by destruct skip|by eapply forward_ok|].
      destruct Hx as (_ & _ & _ & Hlt & _). unfold measure. cbn [dist_fwd dist_rev frontier_fwd frontier_rev]. lia.
    - destruct (frontier_rev f) as [|u q] eqn:Hq.
      { unfold forward_turn in Hturn. rewrite Hq in Hturn. destruct Hne as [Hne|]; [|done].
        by rewrite bool_decide_false in Hturn by done. }
      destruct (expand_half_ok (gp_in p) t (dist_fwd f) (best f) (dist_rev f) u q XR)
        as (dist' & queue' & b' & skip & XR' & He & Hx); [exact (λ x y, in_range y x)|done|apply HF| |].
      { intros v o Ho. pose proof (ho_bound _ _ _ _ _ _ _ HF v o Ho). lia. }
      rewrite He. cbn [mbind option_bind]. rewrite <- Hq in Hx.
      eexists _, skip, XF, XR'. split_and!; [by destruct skip|by eapply backward_ok|].
      destruct Hx as (_ & _ & _ & Hlt & _). unfold measure. cbn [dist_fwd dist_rev frontier_fwd frontier_rev]. lia. }
  rewrite Hstep. destruct skip; [by eexists f', false, XF', XR'|].
  destruct (done_ok f' _ _ Hb') as (stop & -> & Hs). by exists f', stop, XF', XR'.
Qed.

Lemma loop_ok fuel f XF XR :
  both_ok f XF XR → (measure f ≤ fuel)%nat →
  ∃ f' XF' XR', frontiers_loop fuel p f = Some f' ∧ both_ok f' XF' XR' ∧ stopped f'.
Proof using laws small.
  revert f XF XR. induction fuel as [|fuel IH]; intros f XF XR Hb Hf.
  - unfold measure in Hf. exists f, XF, XR.
    assert (frontier_fwd f = [] ∧ frontier_rev f = []) as [E1 E2].
    { split; apply nil_length_inv; lia. }
    cbn [frontiers_loop]. rewrite E1, E2. split_and!; [done|done|]. exists u32_max, u32_max. rewrite E1, E2.
    split_and!; [done|done|]. pose proof (bo_max _ _ _ Hb). unfold u32_saturating_add. lia.
  - destruct (decide (frontier_fwd f = [] ∧ frontier_rev f = [])) as [[E1 E2]|Hne].
    { exists f, XF, XR. cbn [frontiers_loop]. rewrite E1, E2. split_and!; [done|done|]. exists u32_max, u32_max. rewrite E1, E2.
      split_and!; [done|done|]. pose proof (bo_max _ _ _ Hb). unfold u32_saturating_add. lia. }
    destruct (step_ok f XF XR Hb) as (f1 & stop & XF1 & XR1 & Hstep & Hb1 & Hm & Hst).
    { destruct (decide (frontier_fwd f = [])); [right|by left]. naive_solver. }
    assert (frontiers_loop (S fuel) p f = '(f1, stop) ← frontiers_step p f; if stop : bool then Some f1 else frontiers_loop fuel p f1) as ->.
    { cbn [frontiers_loop]. by destruct (frontier_fwd f), (frontier_rev f); [destruct Hne|..]. }
    rewrite Hstep. cbn [mbind option_bind]. destruct stop; [|apply (IH f1 XF1 XR1 Hb1); lia].
    exists f1, XF1, XR1. split_and!; [done|done|by apply Hst].
Qed.

(** The bidirectional search is exact: on a graph of fewer than 2^31 - 1 nodes it
    returns the length of a shortest walk from the source to the target, or
    "unreachable" exactly when there is no walk, although it stops as soon as the
    two frontiers cannot improve on the best meeting point. *)
Lemma shortest_unweighted_exact :
  ∃ r, shortest_unweighted p s t = Some r ∧
    match r with
    | Some d => hops (gp_out p) s t (N.to_nat d)
    | None => ∀ k, ¬ walk (gp_out p) s t k
    end.
Proof using laws small.
  unfold shortest_unweighted. destruct (N.eqb_spec s t) as [<-|Hst].
  { eexists; split; [done|]. split; [constructor|intros; cbn; lia]. }
  destruct (Nat.leb_spec n (N.to_nat s)) as [Hs|Hs]; cbn [orb].
  { eexists; split; [done|]. intros [|k] Hw; [by inversion Hw|]. destruct (walk_first _ _ _ _ Hw) as (x & Hx & _).
    pose proof (gp_out_range _ laws _ _ Hx). lia. }
  destruct (Nat.leb_spec n (N.to_nat t)) as [Ht|Ht].
  { eexists; split; [done|]. intros k Hw. inversion Hw as [|x y j H1 H2]; subst; [done|].
    pose proof (gp_out_range _ laws _ _ H2). lia. }
  set (f0 := mkFrontiers _ _ _ _ _).
  assert (both_ok f0 [] []) as H0.
  { split; cbn; try done; try lia; try (by intros; match goal with H : _ ∈ [] |- _ => apply elem_of_nil in H end).
    - apply half_start; [exact n_small|done].
    - apply half_start; [exact n_small|done]. }
  destruct (loop_ok (2 * n) f0 [] [] H0) as (f & XF & XR & Hl & Hb & mf & mr & Hmf & Hmr & Hstop).
  { pose proof (ho_bound _ _ _ _ _ _ _ (bo_fwd _ _ _ H0) s 0 (ho_src _ _ _ _ _ _ _ (bo_fwd _ _ _ H0))).
    pose proof (ho_bound _ _ _ _ _ _ _ (bo_rev _ _ _ H0) t 0 (ho_src _ _ _ _ _ _ _ (bo_rev _ _ _ H0))).
    unfold measure. cbn [f0 frontier_fwd frontier_rev length]. lia. }
  rewrite Hl. cbn [mbind option_bind]. eexists; split; [done|].
  pose proof (search_exact f XF XR mf mr) as Hex.
  destruct (N.eqb_spec (best f) u32_max) as [Hmax|Hmax].
  - intros k Hk. destruct (walk_short p laws s n_small t k Hs Hk) as (j & Hj & Hjn).
    specialize (Hex j Hb Hst Hmf Hmr Hstop Hj). lia.
  - split; [apply (bo_sound _ _ _ Hb); pose proof (bo_max _ _ _ Hb); lia|]. intros k Hk. by apply (Hex k).
Qed.
End bidirectional.

(** ** Rows as a projection *)

Lemma occurrences_perm v l l' : l ≡ₚ l' → occurrences v l = occurrences v l'.
Proof. intros Hp. unfold occurrences. by rewrite Hp. Qed.

Section projection.
Context `{SortUnstable} (arena : NodeArena) (es : list (N * EdgeRecord)).
Abbreviation n := (arena_capacity arena).
Hypothesis ends : ∀ e, e ∈ es → (N.to_nat (src_node e.2) < n)%nat ∧ (N.to_nat (dst_node e.2) < n)%nat.

(** Both ends alive: what both builders keep. *)
Definition kept_ends (e : N * EdgeRecord) : bool :=
  arena_is_live (src_node e.2) arena && arena_is_live (dst_node e.2) arena.

Lemma kept_by_ends row e :
  (row = src_node ∨ row = dst_node) → e ∈ es → kept row arena n e.2 = kept_ends e.
Proof using ends.
  intros Hrow [H1 H2]%ends. unfold kept, kept_ends.
  rewrite (proj2 (Nat.ltb_lt _ _)) by (by destruct Hrow as [-> | ->]). by rewrite andb_true_r.
Qed.

Lemma built_neighbors row col c v :
  (row = src_node ∨ row = dst_node) → csr_of n <$> build_slots row col arena n es = Some c →
  ∃ l, out_neighbors v c = Some l ∧
    l ≡ₚ col ∘ snd <$> filter (λ e, kept_ends e = true ∧ row e.2 = v) es.
Proof using ends.
  intros Hrow Hc. rewrite build_slots_eq in Hc. cbn [fmap option_fmap option_map] in Hc. injection Hc as <-.
  set (rows := (λ v, sorted_row (row_of row col arena n es v)) <$> seq 0 n).
  assert (length rows = n) as Hlen by (unfold rows; by rewrite length_fmap, length_seq).
  assert (row_of row col arena n es (N.to_nat v) =
    slot_of col <$> filter (λ e, kept_ends e = true ∧ row e.2 = v) es) as Hrow_of.
  { unfold row_of. f_equal. apply filter_ext_elem. intros e He. unfold in_row.
    rewrite (kept_by_ends row e Hrow He). split; intros [? ?]; split; try done; lia. }
  destruct (rows !! N.to_nat v) as [r|] eqn:Hr.
  - exists (target_of <$> r). split.
    + apply (row_slice_row n rows Hlen targets target_of v r); [|done]. cbn. by rewrite <- list_fmap_compose.
    + unfold rows in Hr. rewrite list_lookup_fmap in Hr. destruct (seq 0 n !! N.to_nat v) as [w|] eqn:Hw; [|done].
      apply lookup_seq in Hw as [-> _]. cbn in Hr. injection Hr as <-.
      rewrite (sorted_row_perm _), Hrow_of, <- list_fmap_compose. done.
  - exists []. split; [by apply (row_slice_none n rows Hlen)|].
    replace (filter (λ e, kept_ends e = true ∧ row e.2 = v) es) with (@nil (N * EdgeRecord)); [done|].
    symmetry. apply filter_nil_all. intros e He [_ Hv]. apply lookup_ge_None in Hr. rewrite Hlen in Hr.
    destruct (ends e He), Hrow; subst; lia.
Qed.

Lemma occurrences_fmap {A} (f : A → N) (P : A → Prop) `{!∀ x, Decision (P x)} v (l : list A) :
  occurrences v (f <$> filter P l) = length (filter (λ x, P x ∧ f x = v) l).
Proof.
  unfold occurrences. induction l as [|x l IH]; [done|]. destruct (decide (P x)) as [Hp|Hp].
  - rewrite (filter_cons_True P) by done. cbn [fmap list_fmap]. destruct (decide (f x = v)).
    + rewrite !filter_cons_True by done. cbn [length]. by rewrite <- IH.
    + rewrite !filter_cons_False by tauto. exact IH.
  - rewrite (filter_cons_False P) by done. rewrite filter_cons_False by tauto. exact IH.
Qed.

Lemma built_projection outgoing incoming :
  csr_of n <$> build_slots src_node dst_node arena n es = Some outgoing →
  csr_of n <$> build_slots dst_node src_node arena n es = Some incoming →
  let p := csr_projection outgoing incoming in
  gp_node_count p = n ∧ ProjectionLaws p ∧
  ∀ u v, v ∈ gp_out p u ↔ ∃ e, e ∈ es ∧ kept_ends e = true ∧ src_node e.2 = u ∧ dst_node e.2 = v.
Proof using ends.
  intros Ho Hi p. assert (gp_node_count p = n) as Hn.
  { rewrite build_slots_eq in Ho. cbn [fmap option_fmap option_map] in Ho. by injection Ho as <-. }
  assert (∀ u, gp_out p u ≡ₚ dst_node ∘ snd <$> filter (λ e, kept_ends e = true ∧ src_node e.2 = u) es) as Hout.
  { intros u. destruct (built_neighbors _ _ _ u (or_introl eq_refl) Ho) as (l & Hl & Hp). cbn. by rewrite Hl. }
  assert (∀ u, gp_in p u ≡ₚ src_node ∘ snd <$> filter (λ e, kept_ends e = true ∧ dst_node e.2 = u) es) as Hin.
  { intros u. destruct (built_neighbors _ _ _ u (or_intror eq_refl) Hi) as (l & Hl & Hp). cbn. by rewrite Hl. }
  assert (∀ u v, v ∈ gp_out p u ↔ ∃ e, e ∈ es ∧ kept_ends e = true ∧ src_node e.2 = u ∧ dst_node e.2 = v) as Hedge.
  { intros u v. rewrite Hout, list_elem_of_fmap. setoid_rewrite list_elem_of_filter. cbn. naive_solver. }
  split_and!; [done| |done]. split.
  - intros u v (e & He & _ & <- & <-)%Hedge. rewrite Hn. by apply ends.
  - intros u v. rewrite (occurrences_perm _ _ _ (Hout u)), (occurrences_perm _ _ _ (Hin v)), !occurrences_fmap.
    f_equal. apply list_filter_iff. intros e. cbn. tauto.
Qed.
End projection.

(** ** Paths of the abstract graph *)

(** The nodes one relationship away, deleted nodes left out. *)
Definition s_successors (s : SGraph) (u : NodeIndex) : list NodeIndex :=
  sr_dst <$> filter (λ r, sr_src r = u ∧ s_alive s (sr_src r) ∧ s_alive s (sr_dst r)) (s_rels s).

Lemma s_alive_spec s v : s_alive s v ↔ ∃ id x, s_nodes s !! id = Some x ∧ sn_idx x = v.
Proof.
  unfold s_alive. rewrite list_elem_of_fmap. setoid_rewrite list_elem_of_fmap.
  split.
  - intros (x & -> & [id y] & -> & Hy%elem_of_map_to_list). eauto.
  - intros (id & x & Hx & <-). exists x. split; [done|]. exists (id, x). split; [done|]. by apply elem_of_map_to_list.
Qed.

Lemma alive_sim a s v : nodes_sim a s → s_alive s v ↔ arena_is_live v (nodes_of a) = true.
Proof.
  intros Hs. rewrite s_alive_spec. split.
  - intros (id & x & Hx & <-). destruct (sim_nodes _ _ Hs _ _ Hx) as (_ & (r & Hr & _) & _).
    unfold arena_get in Hr. by destruct (arena_is_live (sn_idx x) _).
  - apply (sim_live _ _ Hs).
Qed.

Lemma walk_ext E F s v k : (∀ x y, y ∈ E x → y ∈ F x) → walk E s v k → walk F s v k.
Proof. intros HEF. induction 1; [constructor|eapply walk_edge; eauto]. Qed.

Section paths.
Context `{SortUnstable}.

Lemma sealed_projection a s d :
  graph_sim a s d →
  ∃ g' outgoing incoming, seal (ga_generation a) = Some (Ok tt, g') ∧ sealed g' = Some (outgoing, incoming) ∧
    let p := csr_projection outgoing incoming in
    gp_node_count p = arena_capacity (nodes_of a) ∧ ProjectionLaws p ∧
    ∀ u v, v ∈ gp_out p u ↔ v ∈ s_successors s u.
Proof.
  intros Hs. unfold seal. rewrite (sim_unsealed _ _ _ Hs), (sim_mutable _ _ _ Hs).
  unfold csr_build, csc_build.
  destruct (csr_of _ <$> build_slots src_node _ _ _ _) as [outgoing|] eqn:Ho; [|by rewrite build_slots_eq in Ho].
  destruct (csr_of _ <$> build_slots dst_node _ _ _ _) as [incoming|] eqn:Hi; [|by rewrite build_slots_eq in Hi].
  cbn [mbind option_bind]. eexists _, outgoing, incoming. split; [done|]. split; [done|].
  assert (∀ e, e ∈ live_edges d →
    (N.to_nat (src_node e.2) < arena_capacity (nodes_of a))%nat ∧ (N.to_nat (dst_node e.2) < arena_capacity (nodes_of a))%nat) as Hends.
  { intros [i e] He. destruct (live_edges_lookup d i e ltac:(apply Hs) He) as [He' _].
    apply list_elem_of_lookup_2, (chain_ends _ _ (sim_c _ _ _ Hs)) in He'. unfold lenN, arena_capacity in *. cbn. lia. }
  destruct (built_projection _ _ Hends outgoing incoming Ho Hi) as (Hn & Hlaws & Hedge). split_and!; [done|done|].
  intros u v. rewrite Hedge. unfold s_successors. rewrite list_elem_of_fmap. setoid_rewrite list_elem_of_filter.
  setoid_rewrite (alive_sim a s _ (sim_n _ _ _ Hs)). unfold kept_ends.
  pose proof (sim_rels _ _ _ (sim_r _ _ _ Hs)) as Hrels. split.
  - intros (e & He & [H1 H2]%andb_true_iff & <- & <-). apply list_elem_of_lookup_1 in He as [i Hi'].
    destruct (Forall2_lookup_l _ _ _ _ _ Hrels Hi') as (r & Hr & _ & Es & Ed & _).
    exists r. rewrite <- Es, <- Ed. split_and!; try done. by eapply list_elem_of_lookup_2.
  - intros (r & -> & (<- & H1 & H2) & Hr). apply list_elem_of_lookup_1 in Hr as [i Hi'].
    destruct (Forall2_lookup_r _ _ _ _ _ Hrels Hi') as (e & He & _ & Es & Ed & _).
    exists e. rewrite Es, Ed, H1, H2. split_and!; try done. by eapply list_elem_of_lookup_2.
Qed.

(** C26: Sealing and searching compose: after any run of fewer than 2^31 - 1
    primitive mutations the generation seals, and the bidirectional search over
    its CSR and CSC rows returns the length of a shortest path of the abstract
    graph the mutations describe, deleted nodes and relationships left out, and
    'unreachable' exactly when there is no path. *)
Theorem sealed_shortest_paths g labels rels ms id id' x y :
  (2 * N.of_nat (mutations_size ms) < u32_max)%N →
  let s := (s_run ms s_empty).2 in
  s_nodes s !! id = Some x → s_nodes s !! id' = Some y →
  ∃ r a g' outgoing incoming h,
    graph_run ms (applier_new (new_mutable g) labels rels) = Some (r, a) ∧
    resolve_node id a = Some (sn_idx x) ∧ resolve_node id' a = Some (sn_idx y) ∧
    seal (ga_generation a) = Some (Ok tt, g') ∧ sealed g' = Some (outgoing, incoming) ∧
    shortest_unweighted (csr_projection outgoing incoming) (sn_idx x) (sn_idx y) = Some h ∧
    match h with
    | Some d => hops (s_successors s) (sn_idx x) (sn_idx y) (N.to_nat d)
    | None => ∀ k, ¬ walk (s_successors s) (sn_idx x) (sn_idx y) k
    end.
Proof.
  intros Hsize s Hx Hy. destruct (graph_run_reaches g labels rels ms ltac:(lia)) as (a & d & Hrun & Hs & _ & Hcap). fold s in Hs.
  destruct (sealed_projection a s d Hs) as (g' & outgoing & incoming & Hseal & Hsealed & Hn & Hlaws & Hedge).
  destruct (shortest_unweighted_exact (csr_projection outgoing incoming) Hlaws (sn_idx x) (sn_idx y))
    as (h & Hh & Hspec); [rewrite Hn; lia|].
  assert (∀ u v k, walk (gp_out (csr_projection outgoing incoming)) u v k ↔ walk (s_successors s) u v k) as Hwalk.
  { intros u v k. split; apply walk_ext; intros; by apply Hedge. }
  eexists _, a, g', outgoing, incoming, h. split_and!; try done.
  - by destruct (sim_nodes _ _ (sim_n _ _ _ Hs) _ _ Hx) as (? & _).
  - by destruct (sim_nodes _ _ (sim_n _ _ _ Hs) _ _ Hy) as (? & _).
  - destruct h as [l|]; [|intros k Hk; by eapply Hspec, Hwalk]. destruct Hspec as [H1 H2].
    split; [by apply Hwalk|]. intros k Hk. by apply H2, Hwalk.
Qed.
End paths.
