(* ===== verification/GraphComponents.v ===== *)
(** The weakly connected components are the classes of the undirected
    reachability relation: the union-find forest, its ranks and the relabelling.
    Then cores: the k-core peeling computes core numbers. *)

From stdpp Require Import base gmap sets strings numbers list relations fin_maps fin_sets.
From S2P Require Import Prelude.
From S2P Require Import Graph.
From S2P Require Import GraphFacts.
From S2P Require Import GraphSeal.
From S2P Require Import GraphAnalytics.
From S2P Require Import GraphSearch.

Lemma elem_of_nodes_upto v n : v ∈ nodes_upto n ↔ (N.to_nat v < n)%nat.
Proof.
  unfold nodes_upto. rewrite list_elem_of_fmap. setoid_rewrite elem_of_seq. split.
  - intros (i & -> & Hi). lia.
  - intros Hv. exists (N.to_nat v). lia.
Qed.

Lemma nodes_upto_lookup n i : (i < n)%nat → nodes_upto n !! i = Some (N.of_nat i).
Proof. intros Hi. unfold nodes_upto. by rewrite list_lookup_fmap, lookup_seq_lt. Qed.

Lemma nodes_upto_length n : length (nodes_upto n) = n.
Proof. unfold nodes_upto. by rewrite length_fmap, length_seq. Qed.

Lemma filter_remove {A} `{EqDecision A} (P : A → Prop) `{!∀ x, Decision (P x)} (l : list A) x :
  NoDup l → x ∈ l → P x → S (length (filter (λ y, P y ∧ y ≠ x) l)) = length (filter P l).
Proof.
  induction 1 as [|y l Hy Hl IH]; intros Hx Hp; [by apply elem_of_nil in Hx|].
  apply elem_of_cons in Hx as [->|Hx].
  - rewrite filter_cons_False, filter_cons_True by tauto. cbn. f_equal. f_equal.
    assert (∀ l' : list A, y ∉ l' → filter (λ z, P z ∧ z ≠ y) l' = filter P l') as Hsame; [|by apply Hsame].
    clear. induction l' as [|z l' IH]; intros Hn; [done|]. apply not_elem_of_cons in Hn as [Hz Hn]. specialize (IH Hn).
    destruct (decide (P z)); [rewrite !filter_cons_True by done; by rewrite IH|by rewrite !filter_cons_False by tauto].
  - assert (y ≠ x) by (by intros ->). specialize (IH Hx Hp). destruct (decide (P y)).
    + rewrite !filter_cons_True by done. cbn. by rewrite IH.
    + by rewrite !filter_cons_False by tauto.
Qed.

(** ** The forest *)

Inductive rep (ps : list NodeIndex) : NodeIndex → NodeIndex → Prop :=
  | rep_root x : ps !! N.to_nat x = Some x → rep ps x x
  | rep_step x px r : ps !! N.to_nat x = Some px → px ≠ x → rep ps px r → rep ps x r.

Lemma rep_fun ps x r r' : rep ps x r → rep ps x r' → r = r'.
Proof.
  intros Hr. revert r'. induction Hr as [x Hx|x px r Hx Hne Hr IH]; intros r' Hr'; inversion Hr'; subst; try congruence.
  apply IH. congruence.
Qed.

Lemma rep_is_root ps x r : rep ps x r → ps !! N.to_nat r = Some r.
Proof. by induction 1. Qed.

Lemma rep_lt ps x r : rep ps x r → (N.to_nat x < length ps)%nat.
Proof. inversion 1; by eapply lookup_lt_Some. Qed.

Definition rank_of (u : UnionFind) (x : NodeIndex) : nat := N.to_nat (default 0%N (uf_rank u !! N.to_nat x)).
Definition is_root (u : UnionFind) (x : NodeIndex) : Prop := uf_parent u !! N.to_nat x = Some x.
#[local] Instance is_root_dec u x : Decision (is_root u x).
Proof. unfold is_root. apply _. Defined.

Section forest.
Context (n : nat).
Definition root_count (u : UnionFind) : nat := length (filter (is_root u) (nodes_upto n)).

(** Ranks grow along parents; a rank is bounded by the number of unions done. *)
Record uf_ok (u : UnionFind) : Prop := {
  uo_parent : length (uf_parent u) = n;
  uo_rank : length (uf_rank u) = n;
  uo_range x px : uf_parent u !! N.to_nat x = Some px → (N.to_nat px < n)%nat;
  uo_mono x px : uf_parent u !! N.to_nat x = Some px → px ≠ x → (rank_of u x < rank_of u px)%nat;
  uo_height x : (rank_of u x + root_count u ≤ n)%nat
}.

Lemma nodes_upto_NoDup : NoDup (nodes_upto n).
Proof. unfold nodes_upto. apply NoDup_fmap_2; [intros ???; lia|apply NoDup_seq]. Qed.

Lemma rep_total u x : uf_ok u → (N.to_nat x < n)%nat → ∃ r, rep (uf_parent u) x r.
Proof.
  intros Hu. remember (n - rank_of u x)%nat as k eqn:Hk. revert x Hk.
  induction k as [k IH] using lt_wf_ind. intros x Hk Hx.
  destruct (lookup_lt_is_Some_2 (uf_parent u) (N.to_nat x)) as [px Hpx]; [by rewrite (uo_parent u)|].
  destruct (decide (px = x)) as [->|Hne]; [exists x; by constructor|].
  pose proof (uo_mono u Hu x px Hpx Hne). pose proof (uo_height u Hu px).
  destruct (IH (n - rank_of u px)%nat) with (x := px) as [r Hr]; [lia|done|by eapply uo_range|].
  exists r. by eapply rep_step.
Qed.

Lemma root_count_pos u x : uf_ok u → (N.to_nat x < n)%nat → (0 < root_count u)%nat.
Proof.
  intros Hu Hx. destruct (rep_total u x Hu Hx) as [r Hr]. apply rep_is_root in Hr as Hroot. unfold root_count.
  assert (r ∈ filter (is_root u) (nodes_upto n)) as Hin.
  { apply list_elem_of_filter. split; [done|]. apply elem_of_nodes_upto. by eapply uo_range. }
  destruct (filter (is_root u) (nodes_upto n)); [by apply elem_of_nil in Hin|cbn; lia].
Qed.

(** One direction is enough to compare two forests. *)
Lemma rep_refine u u' (f : NodeIndex → NodeIndex) :
  uf_ok u → uf_ok u' → (∀ y s, rep (uf_parent u') y s → ∃ r, rep (uf_parent u) y r ∧ s = f r) →
  ∀ y s, rep (uf_parent u') y s ↔ ∃ r, rep (uf_parent u) y r ∧ s = f r.
Proof.
  intros Hu Hu' Hto y s. split; [apply Hto|]. intros (r & Hr & ->).
  destruct (rep_total u' y Hu') as [s Hs]; [rewrite <- (uo_parent u Hu); by eapply rep_lt|].
  destruct (Hto y s Hs) as (r' & Hr' & ->). by rewrite <- (rep_fun _ _ _ _ Hr Hr') in Hs.
Qed.

(** *** Path compression *)

Lemma compress_ok u x px gpx :
  uf_ok u → uf_parent u !! N.to_nat x = Some px → px ≠ x → uf_parent u !! N.to_nat px = Some gpx →
  let u' := mkUnionFind (<[N.to_nat x := gpx]> (uf_parent u)) (uf_rank u) in
  uf_ok u' ∧ ∀ y s, rep (uf_parent u') y s ↔ rep (uf_parent u) y s.
Proof.
  intros Hu Hx Hne Hpx u'. pose proof (lookup_lt_Some _ _ _ Hx) as Hlt.
  pose proof (uo_mono u Hu x px Hx Hne) as Hm.
  assert (rank_of u px ≤ rank_of u gpx)%nat as Hg.
  { destruct (decide (gpx = px)) as [->|Hne']; [done|]. pose proof (uo_mono u Hu px gpx Hpx Hne'). lia. }
  assert (gpx ≠ x) as Hgx by (intros ->; lia).
  assert (∀ y py, uf_parent u' !! N.to_nat y = Some py → (y = x ∧ py = gpx) ∨ (y ≠ x ∧ uf_parent u !! N.to_nat y = Some py)) as Hinv.
  { intros y py Hy. cbn in Hy. apply list_lookup_insert_Some in Hy as [(? & <- & _)|(? & Hy)]; [left; split; [lia|done]|right].
    split; [by intros ->|done]. }
  assert (∀ y, is_root u' y ↔ is_root u y) as Hroots.
  { intros y. unfold is_root. destruct (decide (y = x)) as [->|Hyx].
    - cbn. rewrite list_lookup_insert_eq by done. split; intros; congruence.
    - cbn. by rewrite list_lookup_insert_ne by lia. }
  assert (root_count u' = root_count u) as Hcount.
  { unfold root_count. f_equal. apply list_filter_iff. exact Hroots. }
  assert (uf_ok u') as Hu'.
  { split.
    - cbn. by rewrite length_insert, (uo_parent u).
    - apply Hu.
    - intros y py [[-> ->]|[_ Hy]]%Hinv; by eapply uo_range.
    - intros y py [[-> ->]|[_ Hy]]%Hinv Hyp; change (rank_of u') with (rank_of u); [lia|by eapply uo_mono].
    - intros y. rewrite Hcount. by apply (uo_height u Hu). }
  split; [done|]. intros y s. rewrite (rep_refine u u' (λ r, r) Hu Hu'); [naive_solver|].
  clear y s. intros y s Hs. exists s. split; [|done]. induction Hs as [y Hy|y py r Hy Hyp Hr IH].
  - constructor. by apply Hroots.
  - apply Hinv in Hy as [[-> ->]|[_ Hy]]; [|by eapply rep_step].
    eapply rep_step; [exact Hx|done|]. destruct (decide (gpx = px)) as [->|]; [done|by eapply rep_step].
Qed.

Lemma uf_find_ok fuel x u :
  uf_ok u → (N.to_nat x < n)%nat → (n ≤ fuel + rank_of u x)%nat →
  ∃ r u', uf_find fuel x u = Some (r, u') ∧ rep (uf_parent u) x r ∧ uf_ok u' ∧ uf_rank u' = uf_rank u ∧
    ∀ y s, rep (uf_parent u') y s ↔ rep (uf_parent u) y s.
Proof.
  revert x u. induction fuel as [|fuel IH]; intros x u Hu Hx Hf.
  { pose proof (root_count_pos u x Hu Hx). pose proof (uo_height u Hu x). lia. }
  cbn [uf_find]. destruct (lookup_lt_is_Some_2 (uf_parent u) (N.to_nat x)) as [px Hpx]; [by rewrite (uo_parent u)|].
  rewrite Hpx. cbn [mbind option_bind]. destruct (N.eqb_spec px x) as [->|Hne].
  { exists x, u. split_and!; try done. by constructor. }
  pose proof (uo_range u Hu _ _ Hpx) as Hr.
  destruct (lookup_lt_is_Some_2 (uf_parent u) (N.to_nat px)) as [gpx Hgpx]; [by rewrite (uo_parent u)|].
  rewrite Hgpx. cbn [mbind option_bind]. destruct (compress_ok u x px gpx Hu Hpx Hne Hgpx) as [Hu1 Hrep1].
  pose proof (uo_mono u Hu x px Hpx Hne).
  destruct (IH px _ Hu1 Hr) as (r & u' & -> & Hpr & Hu' & Hk & Hrep').
  { change (n ≤ fuel + rank_of u px)%nat. lia. }
  exists r, u'. split_and!; [done| |done|done|].
  - eapply rep_step; [exact Hpx|done|]. by apply Hrep1.
  - intros y s. by rewrite Hrep', Hrep1.
Qed.

Lemma uf_find_root_ok x u :
  uf_ok u → (N.to_nat x < n)%nat →
  ∃ r u', uf_find_root x u = Some (r, u') ∧ rep (uf_parent u) x r ∧ uf_ok u' ∧ uf_rank u' = uf_rank u ∧
    ∀ y s, rep (uf_parent u') y s ↔ rep (uf_parent u) y s.
Proof. intros Hu Hx. unfold uf_find_root. apply uf_find_ok; [done|done|]. rewrite (uo_parent u Hu). lia. Qed.

(** *** Linking two trees *)

Lemma link_ok u hi lo :
  uf_ok u → is_root u hi → is_root u lo → hi ≠ lo → (rank_of u lo ≤ rank_of u hi)%nat →
  let u' := mkUnionFind (<[N.to_nat lo := hi]> (uf_parent u))
              (if (rank_of u lo =? rank_of u hi)%nat
               then <[N.to_nat hi := (N.of_nat (rank_of u hi) + 1)%N]> (uf_rank u) else uf_rank u) in
  uf_ok u' ∧ ∀ y s, rep (uf_parent u') y s ↔ ∃ r, rep (uf_parent u) y r ∧ s = if decide (r = lo) then hi else r.
Proof.
  intros Hu Hhi Hlo Hne Hle u'.
  pose proof (lookup_lt_Some _ _ _ Hhi) as Hlth. pose proof (lookup_lt_Some _ _ _ Hlo) as Hltl.
  assert (∀ y, rank_of u' y = if decide (y = hi ∧ rank_of u lo = rank_of u hi) then S (rank_of u hi) else rank_of u y) as Hrank.
  { intros y. unfold rank_of at 1. cbn [u' uf_rank]. destruct (Nat.eqb_spec (rank_of u lo) (rank_of u hi)) as [E|E].
    - destruct (decide (y = hi)) as [->|Hy].
      + rewrite list_lookup_insert_eq, decide_True by (try done; by rewrite (uo_rank u Hu), <- (uo_parent u Hu)). cbn. lia.
      + rewrite list_lookup_insert_ne, decide_False by (tauto || lia). done.
    - by rewrite decide_False by tauto. }
  assert (∀ y py, uf_parent u' !! N.to_nat y = Some py → (y = lo ∧ py = hi) ∨ (y ≠ lo ∧ uf_parent u !! N.to_nat y = Some py)) as Hinv.
  { intros y py Hy. cbn in Hy. apply list_lookup_insert_Some in Hy as [(? & <- & _)|(? & Hy)]; [left; split; [lia|done]|right].
    split; [by intros ->|done]. }
  assert (∀ y, is_root u' y ↔ is_root u y ∧ y ≠ lo) as Hroots.
  { intros y. unfold is_root. cbn [u' uf_parent]. destruct (decide (y = lo)) as [->|Hyx].
    - rewrite list_lookup_insert_eq by done. split; [|tauto]. intros. congruence.
    - rewrite list_lookup_insert_ne by lia. tauto. }
  assert (S (root_count u') = root_count u) as Hcount.
  { unfold root_count. rewrite (list_filter_iff _ _ _ Hroots). apply filter_remove; [apply nodes_upto_NoDup| |done].
    apply elem_of_nodes_upto. by rewrite <- (uo_parent u Hu). }
  assert (uf_ok u') as Hu'.
  { split.
    - cbn. by rewrite length_insert, (uo_parent u).
    - cbn. destruct (_ =? _)%nat; rewrite ?length_insert; apply Hu.
    - intros y py [[-> ->]|[_ Hy]]%Hinv; [by rewrite <- (uo_parent u Hu)|by eapply uo_range].
    - intros y py [[-> ->]|[_ Hy]]%Hinv Hyp; rewrite !Hrank.
      + rewrite (decide_False (P := lo = hi ∧ _)) by (intros [? _]; congruence).
        destruct (decide (hi = hi ∧ _)) as [|Hn]; [lia|]. assert (rank_of u lo ≠ rank_of u hi) by (intros E; by apply Hn). lia.
      + rewrite (decide_False (P := y = hi ∧ _)) by (intros [-> _]; unfold is_root in Hhi; congruence).
        pose proof (uo_mono u Hu y py Hy Hyp). destruct (decide _) as [[-> _]|]; lia.
    - intros y. rewrite Hrank. pose proof (uo_height u Hu y). pose proof (uo_height u Hu hi). destruct (decide _); lia. }
  split; [done|]. apply (rep_refine u u' (λ r, if decide (r = lo) then hi else r) Hu Hu').
  intros y s Hs. induction Hs as [y [Hy Hyl]%Hroots|y py r Hy Hyp Hr (r' & Hr' & ->)].
  - exists y. rewrite decide_False by done. split; [by constructor|done].
  - apply Hinv in Hy as [[-> ->]|[Hyl Hy]].
    + exists lo. split; [by constructor|]. rewrite <- (rep_fun _ _ _ _ (rep_root _ _ Hhi) Hr').
      by rewrite decide_False, decide_True.
    + exists r'. split; [by eapply rep_step|done].
Qed.

(** The partition a forest represents. *)
Definition same (u : UnionFind) (x y : NodeIndex) : Prop := ∃ r, rep (uf_parent u) x r ∧ rep (uf_parent u) y r.
Definition joined (R : relation NodeIndex) (a b x y : NodeIndex) : Prop := R x y ∨ (R x a ∧ R b y) ∨ (R x b ∧ R a y).

Lemma same_ext u u' x y :
  (∀ y s, rep (uf_parent u') y s ↔ rep (uf_parent u) y s) → same u' x y ↔ same u x y.
Proof. intros Hr. unfold same. by setoid_rewrite Hr. Qed.

(** Merging class [lo] into class [hi]. *)
Lemma same_linked u u' hi lo a b x y :
  uf_ok u → (N.to_nat x < n)%nat → (N.to_nat y < n)%nat →
  (∀ y s, rep (uf_parent u') y s ↔ ∃ r, rep (uf_parent u) y r ∧ s = if decide (r = lo) then hi else r) →
  hi ≠ lo → (rep (uf_parent u) a hi ∧ rep (uf_parent u) b lo ∨ rep (uf_parent u) a lo ∧ rep (uf_parent u) b hi) →
  same u' x y ↔ joined (same u) a b x y.
Proof.
  intros Hu Hx Hy Hrep Hne Hab. unfold same, joined. setoid_rewrite Hrep.
  destruct (rep_total u x Hu Hx) as [rx Hrx], (rep_total u y Hu Hy) as [ry Hry].
  assert (∀ z r, rep (uf_parent u) z r → ∀ r', rep (uf_parent u) z r' → r' = r) as F by (intros; by eapply rep_fun).
  pose proof (F _ _ Hrx) as Fx. pose proof (F _ _ Hry) as Fy. split.
  - intros (s & (r1 & ->%Fx & ->) & (r2 & ->%Fy & E)).
    destruct Hab as [[Ha Hb]|[Ha Hb]]; destruct (decide (rx = lo)), (decide (ry = lo)); subst; naive_solver.
  - intros [(s & ->%Fx & ->%Fy)|[[(s & ->%Fx & Hs1) (s' & Hs2 & ->%Fy)]|[(s & ->%Fx & Hs1) (s' & Hs2 & ->%Fy)]]].
    + eexists. split; eexists; (split; [eassumption|done]).
    + destruct Hab as [[Ha Hb]|[Ha Hb]]; rewrite (F _ _ Ha _ Hs1) in *; rewrite (F _ _ Hb _ Hs2) in *;
        exists hi; split; (eexists; split; [eassumption|]); by repeat case_decide.
    + destruct Hab as [[Ha Hb]|[Ha Hb]]; rewrite (F _ _ Ha _ Hs2) in *; rewrite (F _ _ Hb _ Hs1) in *;
        exists hi; split; (eexists; split; [eassumption|]); by repeat case_decide.
Qed.

Lemma uf_union_ok a b u :
  (N.of_nat n < u32_max)%N → uf_ok u → (N.to_nat a < n)%nat → (N.to_nat b < n)%nat →
  ∃ u', uf_union a b u = Some u' ∧ uf_ok u' ∧
    ∀ x y, (N.to_nat x < n)%nat → (N.to_nat y < n)%nat → same u' x y ↔ joined (same u) a b x y.
Proof.
  intros Hsmall Hu Ha Hb. unfold uf_union.
  destruct (uf_find_root_ok a u Hu Ha) as (ra & u1 & -> & Hra & Hu1 & _ & Hrep1). cbn [mbind option_bind].
  destruct (uf_find_root_ok b u1 Hu1 Hb) as (rb & u2 & -> & Hrb & Hu2 & _ & Hrep2). cbn [mbind option_bind].
  apply Hrep1 in Hrb. assert (∀ y s, rep (uf_parent u2) y s ↔ rep (uf_parent u) y s) as Hrep by (intros; by rewrite Hrep2, Hrep1).
  destruct (N.eqb_spec ra rb) as [<-|Hne].
  { exists u2. split_and!; [done|done|]. intros x y _ _. rewrite (same_ext u u2 x y Hrep). unfold joined. split; [by left|].
    intros [?|[[(s & H1 & H2) (s' & H3 & H4)]|[(s & H1 & H2) (s' & H3 & H4)]]]; [done|..]; exists ra.
    - by rewrite (rep_fun _ _ _ _ Hra H2) at 1; rewrite (rep_fun _ _ _ _ Hrb H3).
    - by rewrite (rep_fun _ _ _ _ Hrb H2) at 1; rewrite (rep_fun _ _ _ _ Hra H3). }
  apply Hrep in Hra, Hrb.
  assert (∀ r z, rep (uf_parent u2) z r → is_root u2 r ∧ uf_rank u2 !! N.to_nat r = Some (N.of_nat (rank_of u2 r))) as Hroot.
  { intros r z Hz. pose proof (rep_is_root _ _ _ Hz) as Hr. split; [done|].
    destruct (lookup_lt_is_Some_2 (uf_rank u2) (N.to_nat r)) as [k Hk].
    { rewrite (uo_rank u2 Hu2), <- (uo_parent u2 Hu2). by eapply lookup_lt_Some. }
    unfold rank_of. rewrite Hk. cbn. by rewrite N2Nat.id. }
  destruct (Hroot _ _ Hra) as [Rra ->], (Hroot _ _ Hrb) as [Rrb ->]. cbn [mbind option_bind].
  assert (∀ z, (N.of_nat (rank_of u2 z) + 1) `mod` u32_modulus = N.of_nat (rank_of u2 z) + 1)%N as Hwrap.
  { intros z. apply N.mod_small. pose proof (uo_height u2 Hu2 z). unfold u32_max, u32_modulus in *. lia. }
  assert (∀ x y, joined (same u2) a b x y ↔ joined (same u) a b x y) as Hj.
  { intros x y. unfold joined. by rewrite !(same_ext u u2) by done. }
  destruct (N.ltb_spec (N.of_nat (rank_of u2 ra)) (N.of_nat (rank_of u2 rb))) as [Hlt|Hge]; cbn [uf_parent uf_rank]; rewrite ?Hwrap.
  - destruct (link_ok u2 rb ra Hu2 Rrb Rra) as [Hok Hl]; [done|lia|].
    rewrite (proj2 (Nat.eqb_neq _ _)) in Hok, Hl by lia. rewrite (proj2 (N.eqb_neq _ _)) by lia.
    eexists. split_and!; [done|exact Hok|]. intros x y Hx Hy. rewrite <- Hj.
    apply (same_linked u2 _ rb ra); try done. by right.
  - destruct (link_ok u2 ra rb Hu2 Rra Rrb) as [Hok Hl]; [done|lia|].
    assert ((N.of_nat (rank_of u2 ra) =? N.of_nat (rank_of u2 rb))%N = (rank_of u2 rb =? rank_of u2 ra)%nat) as ->.
    { destruct (N.eqb_spec (N.of_nat (rank_of u2 ra)) (N.of_nat (rank_of u2 rb))), (Nat.eqb_spec (rank_of u2 rb) (rank_of u2 ra)); lia || done. }
    eexists. split_and!; [done|by destruct (_ =? _)%nat|]. intros x y Hx Hy. rewrite <- Hj.
    apply (same_linked u2 _ ra rb); try done; [|by left]. by destruct (_ =? _)%nat.
Qed.
End forest.

(** ** All edges *)

Definition edges_of (p : GraphProjection) (l : list NodeIndex) : list (NodeIndex * NodeIndex) :=
  l ≫= λ x, pair x <$> gp_out p x.
Definition in_edges (es : list (NodeIndex * NodeIndex)) (x y : NodeIndex) : Prop := (x, y) ∈ es.

Lemma union_edges_flat p l u :
  foldl (union_edges p) u l = foldl (λ u e, u ← u; uf_union e.1 e.2 u) u (edges_of p l).
Proof.
  revert u. induction l as [|x l IH]; intros u; [done|]. cbn [foldl]. rewrite IH.
  unfold edges_of at 2. cbn [mbind list_bind]. rewrite foldl_app. f_equal. unfold union_edges.
  generalize (gp_out p x). intros vs. revert u. induction vs as [|v vs IHv]; intros u; [done|]. cbn. apply IHv.
Qed.

(** One more edge joins two classes. *)
Lemma rtsc_snoc es a b x y :
  rtsc (in_edges (es ++ [(a, b)])) x y ↔ joined (rtsc (in_edges es)) a b x y.
Proof.
  assert (∀ u v, rtsc (in_edges es) u v → rtsc (in_edges (es ++ [(a, b)])) u v) as Hmono.
  { intros u v. apply (rtsc_congruence (λ z, z)). intros ?? Hin. apply elem_of_app. by left. }
  assert (rtsc (in_edges (es ++ [(a, b)])) a b) as Hab.
  { apply rtsc_lr. apply elem_of_app. right. by left. }
  split.
  - induction 1 as [x|x z y Hxz Hzy IH]; [by left|].
    assert (∀ u v, in_edges (es ++ [(a, b)]) u v → in_edges es u v ∨ (u = a ∧ v = b)) as Hin.
    { intros u v [He|He%list_elem_of_singleton]%elem_of_app; [by left|right]. by injection He. }
    assert (rtsc (in_edges es) x z ∨ (x = a ∧ z = b) ∨ (x = b ∧ z = a)) as [Hx|[[-> ->]|[-> ->]]].
    { destruct Hxz as [[?|?]%Hin|[?|?]%Hin]; [left; by apply rtsc_lr|by right; left|left; by apply rtsc_rl|right; right; tauto]. }
    + destruct IH as [IH|[[IH1 IH2]|[IH1 IH2]]]; [left|right; left|right; right]; try split; try done; by etrans.
    + destruct IH as [IH|[[IH1 IH2]|[IH1 IH2]]]; [by right; left|right; left; split; [done|done]|by left].
    + destruct IH as [IH|[[IH1 IH2]|[IH1 IH2]]]; [by right; right|by left|right; right; split; [done|done]].
  - intros [H|[[H1 H2]|[H1 H2]]].
    + by apply Hmono.
    + etrans; [by apply Hmono|]. etrans; [exact Hab|by apply Hmono].
    + etrans; [by apply Hmono|]. etrans; [symmetry; exact Hab|by apply Hmono].
Qed.

Definition fresh_forest (n : nat) : UnionFind := mkUnionFind (nodes_upto n) (replicate n 0%N).

Lemma count_as_u32_small n : (N.of_nat n < u32_max)%N → count_as_u32 n = n.
Proof. intros. unfold count_as_u32. rewrite N.mod_small by (unfold u32_max, u32_modulus in *; lia). lia. Qed.

Lemma union_all n es :
  (N.of_nat n < u32_max)%N → (∀ e, e ∈ es → (N.to_nat e.1 < n)%nat ∧ (N.to_nat e.2 < n)%nat) →
  ∃ u, foldl (λ u e, u ← u; uf_union e.1 e.2 u) (Some (uf_new n)) es = Some u ∧ uf_ok n u ∧
    ∀ x y, (N.to_nat x < n)%nat → (N.to_nat y < n)%nat → same u x y ↔ rtsc (in_edges es) x y.
Proof.
  intros Hsmall. unfold uf_new. rewrite count_as_u32_small by done. fold (fresh_forest n).
  induction es as [|[a b] es IH] using rev_ind; intros Hes.
  - eexists; split; [done|].
    assert (∀ x px, uf_parent (fresh_forest n) !! N.to_nat x = Some px → px = x) as Hroot.
    { intros x px Hx. pose proof (lookup_lt_Some _ _ _ Hx) as Hlt. cbn in Hlt. rewrite nodes_upto_length in Hlt.
      cbn in Hx. rewrite nodes_upto_lookup in Hx by done. injection Hx as <-. lia. }
    split; [split|].
    + apply nodes_upto_length.
    + apply length_replicate.
    + intros x px Hx. pose proof (lookup_lt_Some _ _ _ Hx) as Hlt. rewrite (Hroot _ _ Hx). cbn in Hlt. by rewrite nodes_upto_length in Hlt.
    + intros x px Hx Hne. by destruct Hne; apply Hroot.
    + intros x. assert (rank_of (fresh_forest n) x = 0)%nat as ->.
      { unfold rank_of. cbn. destruct (replicate n 0%N !! N.to_nat x) as [k|] eqn:E; [|done]. by apply lookup_replicate in E as [-> _]. }
      unfold root_count. etrans; [apply length_filter|]. by rewrite nodes_upto_length.
    + intros x y Hx Hy. split.
      * intros (r & Hrx & Hry). assert (∀ z, rep (uf_parent (fresh_forest n)) z r → z = r) as Hr.
        { intros z. inversion 1; subst; [done|]. match goal with H : _ ≠ _ |- _ => by destruct H; apply Hroot end. }
        by rewrite (Hr _ Hrx), (Hr _ Hry).
      * intros Hxy. assert (x = y) as ->.
        { induction Hxy as [|x z y [?%elem_of_nil|?%elem_of_nil]]; done. }
        exists y. split; constructor; cbn; rewrite nodes_upto_lookup by done; by rewrite N2Nat.id.
  - destruct IH as (u & Hf & Hu & Hsame); [intros e He; apply Hes, elem_of_app; by left|].
    destruct (Hes (a, b)) as [Ha Hb]; [apply elem_of_app; right; by left|]. cbn in Ha, Hb.
    destruct (uf_union_ok n a b u Hsmall Hu Ha Hb) as (u' & Hu' & Hok & Hs).
    exists u'. rewrite foldl_app, Hf. cbn. split_and!; [done|done|]. intros x y Hx Hy.
    rewrite Hs, rtsc_snoc by done. unfold joined. by rewrite !Hsame.
Qed.

(** The final roots. *)
Lemma collect_roots n l : ∀ u raw, uf_ok n u → (∀ v, v ∈ l → (N.to_nat v < n)%nat) →
  ∃ rs u', foldl collect_root (Some (raw, u)) l = Some (raw ++ rs, u') ∧ Forall2 (rep (uf_parent u)) l rs.
Proof.
  induction l as [|v l IH]; intros u raw Hu Hl.
  { exists [], u. rewrite app_nil_r. split; [done|constructor]. }
  destruct (uf_find_root_ok n v u Hu) as (r & u1 & Hf & Hr & Hu1 & _ & Hrep); [apply Hl; by left|].
  cbn [foldl]. unfold collect_root at 2. cbn [mbind option_bind]. rewrite Hf. cbn [mbind option_bind].
  destruct (IH u1 (raw ++ [r]) Hu1) as (rs & u' & -> & Hrs); [intros; apply Hl; by right|].
  exists (r :: rs), u'. rewrite <- app_assoc. split; [done|]. constructor; [done|].
  eapply Forall2_impl; [exact Hrs|]. intros x y. apply Hrep.
Qed.

(** ** Relabelling *)

Record labels_ok (raw : list NodeIndex) (st : gmap NodeIndex N * N * list N) : Prop := {
  lo_out : Forall2 (λ r c, st.1.1 !! r = Some c) raw st.2;
  lo_dom r : is_Some (st.1.1 !! r) → r ∈ raw;
  lo_inj r r' c : st.1.1 !! r = Some c → st.1.1 !! r' = Some c → r = r';
  lo_values c : c ∈ st.2 ↔ (c < st.1.2)%N
}.

Lemma relabel_ok raw : (N.of_nat (length raw) < u32_max)%N →
  let st := foldl relabel (∅, 0%N, []) raw in labels_ok raw st ∧ (st.1.2 ≤ N.of_nat (length raw))%N.
Proof.
  cbn zeta. induction raw as [|r raw IH] using rev_ind; intros Hsmall.
  { split; [|done]. split; cbn; [constructor|intros r []; done|done|]. intros c. rewrite elem_of_nil. lia. }
  rewrite length_app in *. cbn [length] in Hsmall |- *. destruct IH as [IH Hle]; [lia|].
  rewrite foldl_app. cbn [foldl]. destruct (foldl relabel _ raw) as [[labels next] out]. destruct IH as [H1 H2 H3 H4]. cbn in *.
  rewrite N.mod_small by (unfold u32_max, u32_modulus in *; lia).
  destruct (labels !! r) as [l|] eqn:Hl; (split; [|cbn; lia]).
  - split; cbn.
    + apply Forall2_app; [done|]. by constructor.
    + intros r' Hr'. apply elem_of_app. left. by apply H2.
    + done.
    + intros c. rewrite elem_of_app, H4, list_elem_of_singleton. split; [|by left]. intros [?| -> ]; [done|]. apply H4.
      assert (r ∈ raw) as [i Hi]%list_elem_of_lookup_1 by (apply H2; eauto). destruct (Forall2_lookup_l _ _ _ _ _ H1 Hi) as (c & Hc & E).
      replace l with c by congruence. by eapply list_elem_of_lookup_2.
  - assert (∀ r' c, labels !! r' = Some c → (c < next)%N) as Hlt.
    { intros r' c Hr'. apply H4. assert (r' ∈ raw) as [i Hi]%list_elem_of_lookup_1 by (apply H2; eauto).
      destruct (Forall2_lookup_l _ _ _ _ _ H1 Hi) as (c' & Hc & E). replace c with c' by congruence. by eapply list_elem_of_lookup_2. }
    split; cbn.
    + apply Forall2_app.
      * eapply Forall2_impl; [exact H1|]. intros r' c Hc. rewrite lookup_insert_ne; [done|]. intros E. subst r'. cbn in Hc. congruence.
      * constructor; [|done]. by rewrite lookup_insert_eq.
    + intros r' Hr'. apply elem_of_app. destruct (decide (r' = r)) as [->|Hne]; [right; by left|left].
      apply H2. by rewrite lookup_insert_ne in Hr'.
    + intros r1 r2 c. rewrite !lookup_insert_Some.
      intros [[<- <-]|[Hn1 E1]] [[<- E2]|[Hn2 E2]]; [done| | |by eapply H3]; [apply Hlt in E2|apply Hlt in E1]; lia.
    + intros c. rewrite elem_of_app, H4, list_elem_of_singleton. lia.
Qed.

Lemma count_sizes next component :
  (∀ c, c ∈ component → (c < next)%N) →
  ∃ sizes, foldl (λ s c, s ← s; k ← s !! N.to_nat c; list_set (N.to_nat c) (k + 1)%N s)
      (Some (replicate (N.to_nat next) 0%N)) component = Some sizes ∧
    length sizes = N.to_nat next ∧ ∀ c k, sizes !! N.to_nat c = Some k → k = N.of_nat (occurrences c component).
Proof.
  induction component as [|d l IH] using rev_ind; intros Hl.
  { eexists. split; [done|]. rewrite length_replicate. split; [done|]. intros c k [-> _]%lookup_replicate. done. }
  destruct IH as (sizes & Hf & Hlen & Hk); [intros; apply Hl, elem_of_app; by left|].
  assert (d < next)%N as Hd by (apply Hl, elem_of_app; right; by left).
  destruct (lookup_lt_is_Some_2 sizes (N.to_nat d)) as [k Hkd]; [lia|].
  rewrite foldl_app, Hf. cbn [foldl mbind option_bind]. rewrite Hkd. cbn [mbind option_bind].
  rewrite list_set_lt by lia. eexists. split; [done|]. rewrite length_insert. split; [done|].
  intros c k' Hc. unfold occurrences. rewrite filter_app, length_app. apply list_lookup_insert_Some in Hc as [(E & <- & _)|(E & Hc)].
  - replace c with d by lia. rewrite filter_cons_True, filter_nil by done. rewrite (Hk d k Hkd). unfold occurrences. cbn. lia.
  - rewrite filter_cons_False, filter_nil by (intros ->; lia). rewrite (Hk c k' Hc). unfold occurrences. cbn. lia.
Qed.

(** C27: Connected components are right: on every lawful projection of fewer
    than 2^32 - 1 nodes the union-find computation returns; two nodes get the
    same component number exactly when a path that ignores edge directions links
    them; the numbers used are 0 to num_components - 1; and component_sizes
    counts the nodes of each. *)
Theorem components_correct p :
  ProjectionLaws p → (N.of_nat (gp_node_count p) < u32_max)%N →
  ∃ c, components_compute p = Some c ∧ length (component c) = gp_node_count p ∧
    (∀ u v cu cv, component c !! N.to_nat u = Some cu → component c !! N.to_nat v = Some cv →
      cu = cv ↔ rtsc (λ x y, y ∈ gp_out p x) u v) ∧
    (∀ l, l ∈ component c ↔ (l < num_components c)%N) ∧
    length (component_sizes c) = N.to_nat (num_components c) ∧
    ∀ l k, component_sizes c !! N.to_nat l = Some k → k = N.of_nat (occurrences l (component c)).
Proof.
  intros laws Hsmall. unfold components_compute. set (n := gp_node_count p) in *. rewrite count_as_u32_small by done.
  destruct (Nat.eqb_spec n 0) as [H0|Hn].
  { eexists; split; [done|]. cbn. split_and!; try done. intros l. rewrite elem_of_nil. lia. }
  assert (∀ x y, (x, y) ∈ edges_of p (nodes_upto n) ↔ y ∈ gp_out p x) as Hedges.
  { intros x y. unfold edges_of. rewrite list_elem_of_bind. setoid_rewrite list_elem_of_fmap. split.
    - intros (z & (w & [= -> ->] & Hw) & _). done.
    - intros Hy. exists x. split; [by exists y|]. rewrite <- list_elem_of_fmap. apply elem_of_nodes_upto. exact (proj1 (gp_out_range _ laws x y Hy)). }
  rewrite union_edges_flat. destruct (union_all n (edges_of p (nodes_upto n)) Hsmall) as (uf & -> & Huf & Hsame).
  { intros [x y] Hxy%Hedges. by apply (gp_out_range _ laws). }
  cbn [mbind option_bind]. destruct (collect_roots n (nodes_upto n) uf [] Huf) as (raw & uf' & -> & Hraw).
  { intros v. apply elem_of_nodes_upto. }
  cbn [mbind option_bind app]. destruct (relabel_ok raw) as [Hlab _]; [by rewrite <- (Forall2_length _ _ _ Hraw), nodes_upto_length|].
  destruct (foldl relabel _ raw) as [[labels next] component] eqn:Hrel. destruct Hlab as [L1 L2 L3 L4]. cbn [fst snd] in *.
  destruct (count_sizes next component) as (sizes & Hf & Hlen & Hk); [intros; by apply L4|].
  rewrite Hf. cbn [mbind option_bind]. eexists; split; [done|]. cbn. split_and!; try done.
  - by rewrite <- (Forall2_length _ _ _ L1), <- (Forall2_length _ _ _ Hraw), nodes_upto_length.
  - assert (∀ u cu, component !! N.to_nat u = Some cu →
      (N.to_nat u < n)%nat ∧ ∃ r, rep (uf_parent uf) u r ∧ labels !! r = Some cu) as Hc.
    { intros u cu Hu. destruct (Forall2_lookup_r _ _ _ _ _ L1 Hu) as (r & Hr & Hlr).
      destruct (Forall2_lookup_r _ _ _ _ _ Hraw Hr) as (v & Hv & Hrep). pose proof (lookup_lt_Some _ _ _ Hv) as Hlt.
      rewrite nodes_upto_length in Hlt. rewrite nodes_upto_lookup in Hv by done. injection Hv as <-. rewrite N2Nat.id in Hrep. eauto. }
    intros u v cu cv Hu Hv. destruct (Hc _ _ Hu) as (Hun & ru & Hru & Hlu), (Hc _ _ Hv) as (Hvn & rv & Hrv & Hlv).
    trans (same uf u v).
    + split.
      * intros <-. rewrite (L3 _ _ _ Hlu Hlv) in Hru. by exists rv.
      * intros (r & H1 & H2). rewrite (rep_fun _ _ _ _ Hru H1) in Hlu. rewrite (rep_fun _ _ _ _ Hrv H2) in Hlv. congruence.
    + rewrite Hsame by done. split; apply (rtsc_congruence (λ z, z)); intros x y; apply Hedges.
Qed.

(** ** Cores *)

Section cores.
Context (p : GraphProjection) (laws : ProjectionLaws p).
Abbreviation n := (gp_node_count p).

Definition inside (S : gset N) (l : list N) : nat := length (filter (λ x, x ∈ S) l).

(** The degree of [v] within [S]: out- plus in-edges, with multiplicity. *)
Definition inner_degree (S : gset N) (v : N) : nat := (inside S (gp_out p v) + inside S (gp_in p v))%nat.

(** [v] is in the [k]-core: some set of nodes around it has all its degrees at
    least [k] within itself. *)
Definition in_core (k : N) (v : N) : Prop :=
  ∃ S : gset N, v ∈ S ∧ (∀ w, w ∈ S → (N.to_nat w < n)%nat) ∧ ∀ w, w ∈ S → (k ≤ N.of_nat (inner_degree S w))%N.

Definition core_number (v c : N) : Prop := in_core c v ∧ ∀ k, in_core k v → (k ≤ c)%N.

Lemma inside_mono (S S' : gset N) l : S ⊆ S' → (inside S l ≤ inside S' l)%nat.
Proof.
  intros HS. unfold inside. induction l as [|x l IH]; [done|]. destruct (decide (x ∈ S)).
  - rewrite !filter_cons_True by set_solver. cbn. lia.
  - rewrite filter_cons_False by done. destruct (decide (x ∈ S')); [rewrite filter_cons_True by done; cbn; lia|].
    by rewrite filter_cons_False.
Qed.

Lemma inside_remove (S : gset N) v l : v ∈ S → (inside (S ∖ {[v]}) l + occurrences v l = inside S l)%nat.
Proof.
  intros Hv. unfold inside, occurrences. induction l as [|x l IH]; [done|]. destruct (decide (x = v)) as [->|Hx].
  - rewrite filter_cons_False, !filter_cons_True by set_solver. cbn. lia.
  - rewrite (filter_cons_False (λ y, y = v)) by done. destruct (decide (x ∈ S)).
    + rewrite !filter_cons_True by set_solver. cbn. lia.
    + rewrite !filter_cons_False by set_solver. done.
Qed.

(** Removing [v] costs [w] its edges to and from [v]. *)
Lemma inner_degree_remove (S : gset N) v w :
  v ∈ S →
  (inner_degree (S ∖ {[v]}) w = inner_degree S w - occurrences w (gp_out p v) - occurrences w (gp_in p v))%nat.
Proof using laws.
  intros Hv. unfold inner_degree.
  pose proof (inside_remove S v (gp_out p w) Hv). pose proof (inside_remove S v (gp_in p w) Hv).
  rewrite (gp_transpose _ laws w v) in *. rewrite <- (gp_transpose _ laws v w) in *. lia.
Qed.

(** ** The peeling state *)

Record peel_ok (k : N) (R : gset N) (s : Peeling) : Prop := {
  po_range v : v ∈ R → (N.to_nat v < n)%nat;
  po_removed v : (N.to_nat v < n)%nat → pl_removed s !! N.to_nat v = Some (bool_decide (v ∉ R));
  po_len : length (pl_removed s) = n ∧ length (pl_deg s) = n ∧ length (pl_coreness s) = n;
  po_deg v : v ∈ R → pl_deg s !! N.to_nat v = Some (N.of_nat (inner_degree R v));
  po_remaining : pl_remaining s = size R;
  po_core v : (N.to_nat v < n)%nat → v ∉ R →
    ∃ c, pl_coreness s !! N.to_nat v = Some c ∧ (c ≤ k)%N ∧ core_number v c
}.

Lemma peel_ok_le k k' R s : (k ≤ k')%N → peel_ok k R s → peel_ok k' R s.
Proof.
  intros Hk []. split; try done. intros v Hv HR. destruct (po_core0 v Hv HR) as (c & ? & ? & ?). exists c. split_and!; [done|lia|done].
Qed.

Lemma lose_degrees removed deg l :
  (∀ x, x ∈ l → (N.to_nat x < length removed)%nat) → length removed = length deg →
  ∃ deg', foldl (lose_degree removed) (Some deg) l = Some deg' ∧ length deg' = length deg ∧
    ∀ w d, removed !! N.to_nat w = Some false → deg !! N.to_nat w = Some d →
      deg' !! N.to_nat w = Some (d - N.of_nat (occurrences w l))%N.
Proof.
  revert deg. induction l as [|x l IH]; intros deg Hl Hlen.
  { exists deg. split_and!; try done. intros w d _ ->. f_equal. unfold occurrences. cbn. lia. }
  assert (∀ y, y ∈ l → (N.to_nat y < length removed)%nat) as Hl' by (intros; apply Hl; by right).
  destruct (lookup_lt_is_Some_2 removed (N.to_nat x)) as [r Hr]; [apply Hl; by left|].
  cbn [foldl]. unfold lose_degree at 2. cbn [mbind option_bind]. rewrite Hr. cbn [mbind option_bind].
  assert (∀ w, occurrences w (x :: l) = ((if decide (x = w) then 1 else 0) + occurrences w l)%nat) as Hocc.
  { intros w. unfold occurrences. destruct (decide (x = w)); [by rewrite filter_cons_True|by rewrite filter_cons_False]. }
  destruct r.
  - destruct (IH deg Hl' Hlen) as (deg' & -> & El & Hd). exists deg'. split_and!; try done. intros w d Hw Hwd.
    rewrite Hocc, decide_False by (intros ->; congruence). by apply Hd.
  - destruct (lookup_lt_is_Some_2 deg (N.to_nat x)) as [dx Hdx]; [rewrite <- Hlen; by eapply lookup_lt_Some|].
    rewrite Hdx. cbn [mbind option_bind]. rewrite list_set_lt by (by eapply lookup_lt_Some).
    destruct (IH (<[N.to_nat x := (dx - 1)%N]> deg) Hl') as (deg' & -> & El & Hd); [by rewrite length_insert|].
    exists deg'. split_and!; [done|by rewrite El, length_insert|]. intros w d Hw Hwd. rewrite Hocc.
    destruct (decide (x = w)) as [->|Hne].
    + rewrite (Hd w (dx - 1)%N); [f_equal|done|apply list_lookup_insert_eq; by eapply lookup_lt_Some].
      assert (dx = d) as -> by congruence. lia.
    + rewrite (Hd w d); [done|done|]. by rewrite list_lookup_insert_ne by lia.
Qed.

(** Peeling a node of degree at most [k] at level [k]. *)
Lemma peel_one k R R0 s v changed :
  peel_ok k R s → R ⊆ R0 → (∀ w, w ∈ R0 → (N.to_nat w < n)%nat ∧ (k ≤ N.of_nat (inner_degree R0 w))%N) →
  (N.to_nat v < n)%nat →
  ∃ s' changed', peel_node p k (Some (s, changed)) v = Some (s', changed') ∧
    (if decide (v ∈ R ∧ (N.of_nat (inner_degree R v) ≤ k)%N) then peel_ok k (R ∖ {[v]}) s' ∧ changed' = true
     else s' = s ∧ changed' = changed).
Proof using laws.
  intros Hs HR0 Hdense Hv. pose proof Hs as [H1 H2 (L1 & L2 & L3) H4 H5 H6].
  unfold peel_node. cbn [mbind option_bind]. rewrite (H2 v Hv). cbn [mbind option_bind].
  destruct (lookup_lt_is_Some_2 (pl_deg s) (N.to_nat v)) as [d Hd]; [lia|]. rewrite Hd. cbn [mbind option_bind].
  destruct (decide (v ∈ R ∧ (N.of_nat (inner_degree R v) ≤ k)%N)) as [[HvR Hle]|Hno].
  2:{ eexists _, _. split; [|done]. case_bool_decide as HvR; cbn; [done|].
      assert (v ∈ R) as Hin by (by destruct (decide (v ∈ R))). rewrite (H4 v Hin) in Hd. injection Hd as <-.
      destruct (N.leb_spec (N.of_nat (inner_degree R v)) k); [tauto|done]. }
  rewrite (H4 v HvR) in Hd. injection Hd as <-. rewrite bool_decide_false by tauto. cbn [negb andb].
  rewrite (proj2 (N.leb_le _ _) Hle). set (removed := <[N.to_nat v := true]> (pl_removed s)).
  assert (length removed = n) as El by (unfold removed; by rewrite length_insert).
  destruct (lose_degrees removed (pl_deg s) (gp_out p v)) as (deg1 & -> & E1 & D1); [|lia|].
  { intros x Hx. rewrite El. exact (proj2 (gp_out_range _ laws v x Hx)). }
  cbn [mbind option_bind]. destruct (lose_degrees removed deg1 (gp_in p v)) as (deg2 & -> & E2 & D2); [|lia|].
  { intros x Hx. rewrite El.
    exact (in_range p laws x v Hx). }
  cbn [mbind option_bind]. eexists _, true. split; [done|]. split; [|done].
  split; cbn [pl_removed pl_deg pl_coreness pl_remaining].
  - intros w Hw. apply H1. set_solver.
  - intros w Hw. destruct (decide (w = v)) as [->|Hne].
    + unfold removed. rewrite list_lookup_insert_eq by lia. by rewrite bool_decide_true by set_solver.
    + unfold removed. rewrite list_lookup_insert_ne, H2 by (done || lia). f_equal. apply bool_decide_ext. set_solver.
  - rewrite length_insert. lia.
  - intros w Hw. assert (w ∈ R ∧ w ≠ v) as [HwR Hwv] by set_solver.
    assert (removed !! N.to_nat w = Some false) as Hrem.
    { unfold removed. rewrite list_lookup_insert_ne, H2 by (lia || by apply H1). by rewrite bool_decide_false by tauto. }
    rewrite (D2 w _ Hrem (D1 w _ Hrem (H4 w HwR))), inner_degree_remove by done. f_equal. lia.
  - rewrite size_difference, size_singleton by set_solver. lia.
  - intros w Hw HwR. destruct (decide (w = v)) as [->|Hne].
    + exists k. rewrite list_lookup_insert_eq by lia. split_and!; [done|done|]. split.
      * exists R0. split_and!; [set_solver|intros; by apply Hdense|intros; by apply Hdense].
      * intros k' (S & HvS & HSn & HS). destruct (decide (k' ≤ k)%N) as [|Hgt]; [done|exfalso].
        assert (S ⊆ R) as HSR.
        { intros x Hx. destruct (decide (x ∈ R)) as [|HxR]; [done|].
          destruct (H6 x (HSn x Hx) HxR) as (c & _ & Hc & _ & Hmax).
          specialize (Hmax k'). rewrite (N.le_ngt k' c) in Hmax. exfalso. apply Hmax; [by exists S|lia]. }
        specialize (HS v HvS). pose proof (inside_mono S R (gp_out p v) HSR). pose proof (inside_mono S R (gp_in p v) HSR).
        unfold inner_degree in *. lia.
    + rewrite list_lookup_insert_ne by lia. apply H6; [done|set_solver].
Qed.

(** Once a pass has removed a node it reports a change. *)
Lemma changed_stays k l s s' : foldl (peel_node p k) (Some (s, true)) l ≠ Some (s', false).
Proof.
  revert s. induction l as [|w l IH]; intros s; [by intros [=]|]. cbn [foldl].
  assert (∀ l', foldl (peel_node p k) None l' = None) as Hnone by (by induction l').
  assert (peel_node p k (Some (s, true)) w = None ∨ ∃ s1, peel_node p k (Some (s, true)) w = Some (s1, true)) as [->|[s1 ->]];
    [|by rewrite Hnone|apply IH].
  unfold peel_node. cbn [mbind option_bind]. destruct (pl_removed s !! N.to_nat w) as [r|]; [|by left]. cbn [mbind option_bind].
  destruct (pl_deg s !! N.to_nat w) as [d|]; [|by left]. cbn [mbind option_bind]. destruct (negb r && (d <=? k)%N); [|by right; eexists].
  destruct (foldl _ _ _) as [deg|]; [|by left]. cbn [mbind option_bind].
  destruct (foldl _ _ _) as [deg'|]; [|by left]. by right; eexists.
Qed.

Section level.
Context (k : N) (R0 : gset N).
Hypothesis dense : ∀ w, w ∈ R0 → (N.to_nat w < n)%nat ∧ (k ≤ N.of_nat (inner_degree R0 w))%N.

Lemma peel_pass l : ∀ s R changed, peel_ok k R s → R ⊆ R0 → (∀ v, v ∈ l → (N.to_nat v < n)%nat) →
  ∃ s' R' changed', foldl (peel_node p k) (Some (s, changed)) l = Some (s', changed') ∧
    peel_ok k R' s' ∧ R' ⊆ R ∧
    (changed' = false → R' = R ∧ ∀ v, v ∈ l → v ∈ R → (k < N.of_nat (inner_degree R v))%N) ∧
    (changed' = true → changed = true ∨ (size R' < size R)%nat).
Proof using laws dense.
  induction l as [|v l IH]; intros s R changed Hs HR Hl.
  { exists s, R, changed. split_and!; try done; [|by left]. intros _. split; [done|]. by intros v ?%elem_of_nil. }
  destruct (peel_one k R R0 s v changed Hs HR dense) as (s1 & changed1 & Hp & Hcase); [apply Hl; by left|].
  cbn [foldl]. rewrite Hp. case_decide as Hd.
  - destruct Hcase as [Hs1 ->]. assert (size (R ∖ {[v]}) < size R)%nat as Hsize by (apply subset_size; set_solver).
    destruct (IH s1 (R ∖ {[v]}) true Hs1) as (s' & R' & changed' & Hf & Hs' & HR' & Hno & Hyes);
      [set_solver|intros; apply Hl; by right|].
    exists s', R', changed'. split_and!; [done|done|set_solver| |].
    + intros ->. by destruct (changed_stays k l s1 s').
    + intros _. right. apply subseteq_size in HR'. lia.
  - destruct Hcase as [-> ->]. destruct (IH s R changed Hs HR) as (s' & R' & changed' & Hf & Hs' & HR' & Hno & Hyes);
      [intros; apply Hl; by right|].
    exists s', R', changed'. split_and!; try done. intros Hc. destruct (Hno Hc) as [-> Hall]. split; [done|].
    intros w [->|Hw]%elem_of_cons HwR; [|by apply Hall]. apply N.nle_gt. tauto.
Qed.

Lemma peel_passes_ok fuel : ∀ s R, peel_ok k R s → R ⊆ R0 → (size R < fuel)%nat →
  ∃ s' R', peel_passes fuel p k s = Some s' ∧ peel_ok k R' s' ∧ R' ⊆ R ∧
    ∀ v, v ∈ R' → (k < N.of_nat (inner_degree R' v))%N.
Proof using laws dense.
  induction fuel as [|fuel IH]; intros s R Hs HR Hf; [lia|]. cbn [peel_passes].
  destruct (peel_pass (nodes_upto n) s R false Hs HR) as (s1 & R1 & changed & -> & Hs1 & HR1 & Hno & Hyes).
  { intros v. apply elem_of_nodes_upto. }
  cbn [mbind option_bind]. destruct changed.
  - destruct (Hyes eq_refl) as [|Hsize]; [done|].
    destruct (IH s1 R1 Hs1) as (s' & R' & -> & Hs' & HR' & Hall); [set_solver|lia|].
    exists s', R'. split_and!; [done|done|set_solver|done].
  - destruct (Hno eq_refl) as [-> Hall]. exists s1, R. split_and!; try done. intros v Hv. apply Hall; [|done].
    apply elem_of_nodes_upto. by apply (po_range _ _ _ Hs).
Qed.
End level.

(** ** The minimum degree *)

Lemma foldl_min l a :
  (∀ x, x ∈ l → (foldl N.min a l ≤ x)%N) ∧ (foldl N.min a l ≤ a)%N ∧ (foldl N.min a l = a ∨ foldl N.min a l ∈ l).
Proof.
  revert a. induction l as [|x l IH]; intros a; cbn.
  { split_and!; [by intros x ?%elem_of_nil|lia|by left]. }
  destruct (IH (N.min a x)) as (H1 & H2 & H3). split_and!.
  - intros y [->|Hy]%elem_of_cons; [lia|by apply H1].
  - lia.
  - destruct H3 as [->|H3]; [|right; by right]. destruct (N.min_spec a x) as [[_ ->]|[_ ->]]; [by left|right; by left].
Qed.

Lemma min_degree_ok k R s :
  peel_ok k R s → R ≠ ∅ →
  (∃ v, v ∈ R ∧ min_degree s = N.of_nat (inner_degree R v)) ∧
  ∀ v, v ∈ R → (min_degree s ≤ N.of_nat (inner_degree R v))%N.
Proof.
  intros [H1 H2 (L1 & L2 & L3) H4 H5 H6] Hne. unfold min_degree.
  set (degs := omap _ (zip (pl_removed s) (pl_deg s))).
  assert (∀ d, d ∈ degs ↔ ∃ v, v ∈ R ∧ d = N.of_nat (inner_degree R v)) as Hdegs.
  { intros d. unfold degs. rewrite list_elem_of_omap. split.
    - intros ([r x] & [i Hi]%list_elem_of_lookup_1 & E). apply lookup_zip_with_Some in Hi as (r' & x' & [= <- <-] & Hr & Hx).
      pose proof (lookup_lt_Some _ _ _ Hr) as Hlt. pose proof (H2 (N.of_nat i)) as Hri. rewrite Nat2N.id, Hr in Hri.
      specialize (Hri ltac:(lia)). injection Hri as ->. cbn in E. case_bool_decide as HiR; [done|]. injection E as <-.
      assert (N.of_nat i ∈ R) as Hin by (by destruct (decide (N.of_nat i ∈ R))). exists (N.of_nat i). split; [done|].
      pose proof (H4 _ Hin) as Hdi. rewrite Nat2N.id in Hdi. congruence.
    - intros (v & Hv & ->). exists (false, N.of_nat (inner_degree R v)). split; [|done].
      apply (list_elem_of_lookup_2 _ (N.to_nat v)), lookup_zip_with_Some. eexists _, _. split_and!; [done| |by apply H4].
      rewrite H2 by (by apply H1). by rewrite bool_decide_false by tauto. }
  destruct degs as [|d ds].
  { exfalso. apply set_choose_L in Hne as [v Hv]. eapply (elem_of_nil (N.of_nat (inner_degree R v))), Hdegs. eauto. }
  destruct (foldl_min ds d) as (M1 & M2 & M3). split.
  - apply Hdegs. apply elem_of_cons. naive_solver.
  - intros v Hv. assert (N.of_nat (inner_degree R v) ∈ d :: ds) as [->|Hin]%elem_of_cons by (apply Hdegs; eauto); [done|by apply M1].
Qed.

Lemma k_core_loop_ok fuel : ∀ k R s, peel_ok k R s → (∀ v, v ∈ R → (k ≤ N.of_nat (inner_degree R v))%N) →
  (size R ≤ fuel)%nat →
  ∃ coreness, k_core_loop fuel p k s = Some coreness ∧ length coreness = n ∧
    ∀ v c, coreness !! N.to_nat v = Some c → core_number v c.
Proof using laws.
  assert (∀ k R s, peel_ok k R s → size R = 0%nat → length (pl_coreness s) = n ∧
    ∀ v c, pl_coreness s !! N.to_nat v = Some c → core_number v c) as Hdone.
  { intros k R s [H1 H2 (L1 & L2 & L3) H4 H5 H6] Hsize%size_empty_inv. split; [done|]. intros v c Hc.
    pose proof (lookup_lt_Some _ _ _ Hc) as Hlt. destruct (H6 v) as (c' & Hc' & _ & Hcore); [lia|set_solver|]. congruence. }
  induction fuel as [|fuel IH]; intros k R s Hs Hall Hf; cbn [k_core_loop]; rewrite (po_remaining _ _ _ Hs);
    destruct (Nat.eqb_spec (size R) 0) as [H0|H0]; try (by eexists; split; [done|eapply Hdone]); [lia|].
  set (k' := N.max k (min_degree s)).
  assert (R ≠ ∅) as Hne by (intros ->; by rewrite size_empty in H0).
  destruct (min_degree_ok k R s Hs Hne) as [(v0 & Hv0 & Emin) Hmin]. pose proof (Hall v0 Hv0).
  assert (peel_ok k' R s) as Hs' by (eapply peel_ok_le; [|exact Hs]; lia).
  destruct (peel_passes_ok k' R) with (fuel := S n) (s := s) (R := R) as (s1 & R1 & -> & Hs1 & HR1 & Hgt); [|done|done| |].
  { intros w Hw. split; [by apply (po_range _ _ _ Hs)|]. specialize (Hall w Hw). specialize (Hmin w Hw). lia. }
  { assert (R ⊆ list_to_set (nodes_upto n)) as Hsub.
    { intros w Hw. apply elem_of_list_to_set, elem_of_nodes_upto. by apply (po_range _ _ _ Hs). }
    apply subseteq_size in Hsub. rewrite size_list_to_set, nodes_upto_length in Hsub by apply nodes_upto_NoDup. lia. }
  cbn [mbind option_bind]. apply (IH (k' + 1)%N R1 s1).
  - eapply peel_ok_le; [|exact Hs1]. lia.
  - intros v Hv. specialize (Hgt v Hv). lia.
  - assert (R1 ≠ R) by (intros ->; specialize (Hgt v0 Hv0); lia).
    assert (size R1 < size R)%nat by (apply subset_size; set_solver). lia.
Qed.

(** Core numbers are right: on a lawful projection whose degrees fit a u32
    the peeling ends, and the number it gives a node is the largest k such that
    the node lies in a set of nodes of which each has at least k edges, out or
    in, within the set; max_coreness bounds them. *)
Lemma k_core_correct :
  (∀ v, (N.of_nat (gp_out_degree p v + gp_in_degree p v) < u32_max)%N) →
  ∃ coreness max_coreness, k_core_compute p = Some (coreness, max_coreness) ∧ length coreness = n ∧
    (∀ v c, coreness !! N.to_nat v = Some c → core_number v c) ∧
    (∀ c, c ∈ coreness → (c ≤ max_coreness)%N).
Proof using laws.
  intros Hdeg. unfold k_core_compute. destruct (Nat.eqb_spec n 0) as [H0|Hn].
  { eexists _, _. split; [done|]. split_and!; [done|done|]. by intros c ?%elem_of_nil. }
  set (R := list_to_set (nodes_upto n) : gset N).
  assert (∀ v, v ∈ R ↔ (N.to_nat v < n)%nat) as HR by (intros v; unfold R; by rewrite elem_of_list_to_set, elem_of_nodes_upto).
  assert (∀ l, (∀ x, x ∈ l → (N.to_nat x < n)%nat) → inside R l = length l) as Hinside.
  { intros l Hl. unfold inside. by rewrite filter_all by (intros; apply HR; auto). }
  assert (size R = n) as Hsize.
  { unfold R. rewrite size_list_to_set by apply nodes_upto_NoDup. apply nodes_upto_length. }
  destruct (k_core_loop_ok n 0 R (mkPeeling ((λ v, (N.of_nat (gp_out_degree p v + gp_in_degree p v) `mod` u32_modulus)%N) <$> nodes_upto n)
      (replicate n 0%N) (replicate n false) n)) as (coreness & Hl & Hlen & Hcore); [|intros; lia|lia|].
  - split; cbn [pl_removed pl_deg pl_coreness pl_remaining].
    + intros v. by rewrite HR.
    + intros v Hv. rewrite lookup_replicate_2 by done. by rewrite bool_decide_false by (rewrite HR; tauto).
    + by rewrite !length_replicate, length_fmap, nodes_upto_length.
    + intros v Hv%HR. rewrite list_lookup_fmap, nodes_upto_lookup, N2Nat.id by done. cbn.
      rewrite N.mod_small by (specialize (Hdeg v); unfold u32_max, u32_modulus in *; lia).
      unfold inner_degree. rewrite !Hinside; [done| |].
      * intros x Hx. by apply (in_range p laws x v).
      * intros x Hx. exact (proj2 (gp_out_range _ laws v x Hx)).
    + done.
    + intros v Hv HvR. by rewrite HR in HvR.
  - rewrite Hl. cbn [mbind option_bind]. eexists _, _. split; [done|]. split_and!; [done|done|].
    intros c Hc. clear - Hc. revert c Hc. generalize 0%N. induction coreness as [|x l IH]; intros a c Hc; [by apply elem_of_nil in Hc|].
    assert (∀ l a, (a ≤ foldl N.max a l)%N) as Hge.
    { clear. induction l as [|y l IH]; intros a; cbn; [lia|]. specialize (IH (N.max a y)). lia. }
    cbn. apply elem_of_cons in Hc as [->|Hc]; [|by apply IH]. specialize (Hge l (N.max a x)). lia.
Qed.
End cores.
