(* ===== verification/QueryLexer.v ===== *)
(** The tokens of the graph query language and its lexer
    (src/graph/query/lexer.rs).

    The query text is its bytes ([ascii] is an 8-bit character), [pos] a byte
    offset.  Token texts are slices of the source.  Every slice starts and ends
    next to an ASCII byte or at the end, so slicing does not split a character of
    a valid UTF-8 text. *)

From Stdlib Require Import Ascii.
From stdpp Require Import base strings numbers list.
From S2P Require Import Prelude.

Inductive Token :=
  | T_Match | T_OptionalMatch | T_Where | T_Return | T_Limit | T_With | T_And | T_Or | T_Not
  | T_Is | T_Null | T_Create | T_Delete | T_Merge | T_Set | T_Vector | T_Certified
  | T_HighRecall | T_Bounded | T_As | T_True | T_False | T_Shortestpath
  | T_Ident (s : string)
  | T_StringLit (s : string)
  | T_IntLit (s : string)
  | T_FloatLit (s : string)
  | T_LParen | T_RParen | T_LBracket | T_RBracket | T_LBrace | T_RBrace
  | T_Dash | T_Gt | T_Lt | T_Colon | T_Comma | T_Dot | T_Pipe | T_Star
  | T_Eq | T_Ne | T_Le | T_Ge | T_Dollar | T_DotDot
  | T_Eof.
#[export] Instance Token_eq_dec : EqDecision Token.
Proof. solve_decision. Defined.

Record LexError := mkLexError { le_offset : nat; le_message : string }.
Record Lexer := mkLexer { lx_src : list ascii; lx_pos : nat }.

Definition lexer_new (src : string) : Lexer := mkLexer (String.list_ascii_of_string src) 0.

(** ** Bytes *)

Definition byte_code (c : ascii) : N := N_of_ascii c.
Definition between (lo hi : ascii) (c : ascii) : bool :=
  (byte_code lo <=? byte_code c)%N && (byte_code c <=? byte_code hi)%N.
Definition is_digit : ascii → bool := between "0" "9".
Definition is_upper : ascii → bool := between "A" "Z".
Definition is_lower : ascii → bool := between "a" "z".
(** [u8::is_ascii_whitespace]: space, tab, line feed, form feed, carriage return *)
Definition is_ascii_whitespace (c : ascii) : bool :=
  bool_decide (byte_code c ∈ [32; 9; 10; 12; 13]%N).
Definition is_word (c : ascii) : bool := is_digit c || is_upper c || is_lower c || Ascii.eqb c "_".
Definition to_ascii_uppercase (c : ascii) : ascii :=
  if is_lower c then ascii_of_N (byte_code c - 32) else c.

(** How many leading bytes satisfy [p]: where [while p(src[pos]) { pos += 1 }]
    stops. *)
Fixpoint span (p : ascii → bool) (l : list ascii) : nat :=
  match l with
  | [] => 0
  | c :: l => if p c then S (span p l) else 0
  end.

Definition slice (start stop : nat) (src : list ascii) : string :=
  String.string_of_list_ascii (take (stop - start) (drop start src)).

(** ** The lexer *)

Definition rest (l : Lexer) : list ascii := drop (lx_pos l) (lx_src l).
Definition byte_at (l : Lexer) (offset : nat) : option ascii := lx_src l !! (lx_pos l + offset)%nat.
Definition bump (k : nat) (l : Lexer) : Lexer := mkLexer (lx_src l) (lx_pos l + k).

Definition LF : ascii := ascii_of_N 10.

(** Every round but the last skips a comment of at least two bytes. *)
Fixpoint skip_loop (fuel : nat) (l : Lexer) : Lexer :=
  let l := bump (span is_ascii_whitespace (rest l)) l in
  match fuel with
  | O => l
  | S fuel =>
      if bool_decide (byte_at l 0 = Some "/"%char) && bool_decide (byte_at l 1 = Some "/"%char)
      then skip_loop fuel (bump (span (λ c, negb (Ascii.eqb c LF)) (rest l)) l)
      else l
  end.
Definition skip_whitespace_and_comments (l : Lexer) : Lexer := skip_loop (length (rest l)) l.

Definition keyword_table : list (string * Token) :=
  [("MATCH", T_Match); ("OPTIONAL", T_OptionalMatch); ("WHERE", T_Where); ("RETURN", T_Return);
   ("LIMIT", T_Limit); ("WITH", T_With); ("AND", T_And); ("OR", T_Or); ("NOT", T_Not); ("IS", T_Is);
   ("NULL", T_Null); ("CREATE", T_Create); ("DELETE", T_Delete); ("MERGE", T_Merge); ("SET", T_Set);
   ("VECTOR", T_Vector); ("CERTIFIED", T_Certified); ("HIGH_RECALL", T_HighRecall);
   ("BOUNDED", T_Bounded); ("AS", T_As); ("TRUE", T_True); ("FALSE", T_False);
   ("SHORTESTPATH", T_Shortestpath)].

Fixpoint assoc (key : string) (l : list (string * Token)) : option Token :=
  match l with
  | [] => None
  | (k, t) :: l => if String.eqb k key then Some t else assoc key l
  end.

(** The first 32 bytes, upper-cased, against the keywords. *)
Definition upper_prefix (word : string) : string :=
  String.string_of_list_ascii (to_ascii_uppercase <$> take 32 (String.list_ascii_of_string word)).
Definition keyword_or_ident (word : string) : Token :=
  default (T_Ident word) (assoc (upper_prefix word) keyword_table).

(** Where the closing quote is, in bytes after the opening one; an escape skips
    two bytes. *)
Fixpoint string_end (quote : ascii) (l : list ascii) : option nat :=
  match l with
  | [] => None
  | c :: l =>
      if Ascii.eqb c "\" then
        match l with [] => None | _ :: l => S ∘ S <$> string_end quote l end
      else if Ascii.eqb c quote then Some 0%nat
      else S <$> string_end quote l
  end.

Abbreviation LexResult := (Result Token LexError * Lexer)%type.

Definition lex_string_literal (quote : ascii) (l : Lexer) : LexResult :=
  let l := bump 1 l in
  let start := lx_pos l in
  match string_end quote (rest l) with
  | None => (Err (mkLexError (start - 1) "Unterminated string literal"), bump (length (rest l)) l)
  | Some k => (Ok (T_StringLit (slice start (start + k) (lx_src l))), bump (k + 1) l)
  end.

(** The digits of a number and its first point, unless two points follow. *)
Fixpoint number_span (is_float : bool) (l : list ascii) : nat * bool :=
  match l with
  | [] => (0%nat, is_float)
  | c :: l' =>
      if is_digit c then let '(k, f) := number_span is_float l' in (S k, f)
      else if Ascii.eqb c "." && negb is_float && negb (bool_decide (head l' = Some "."%char))
      then let '(k, f) := number_span true l' in (S k, f)
      else (0%nat, is_float)
  end.
Definition lex_number (l : Lexer) : LexResult :=
  let start := lx_pos l in
  let '(k, is_float) := number_span false (rest l) in
  let s := slice start (start + k) (lx_src l) in
  (Ok (if is_float : bool then T_FloatLit s else T_IntLit s), bump k l).

Definition lex_ident_or_keyword (l : Lexer) : LexResult :=
  let start := lx_pos l in
  let k := span is_word (rest l) in
  (Ok (keyword_or_ident (slice start (start + k) (lx_src l))), bump k l).

Definition lex_backtick_ident (l : Lexer) : LexResult :=
  let l := bump 1 l in
  let start := lx_pos l in
  let k := span (λ c, negb (Ascii.eqb c "`")) (rest l) in
  let l := bump k l in
  if (length (lx_src l) <=? lx_pos l)%nat
  then (Err (mkLexError (start - 1) "Unterminated backtick identifier"), l)
  else (Ok (T_Ident (slice start (start + k) (lx_src l))), bump 1 l).

Definition simple_tokens : list (ascii * Token) :=
  [("("%char, T_LParen); (")"%char, T_RParen); ("["%char, T_LBracket); ("]"%char, T_RBracket);
   ("{"%char, T_LBrace); ("}"%char, T_RBrace); (","%char, T_Comma); ("|"%char, T_Pipe);
   ("*"%char, T_Star); ("$"%char, T_Dollar); ("="%char, T_Eq); (":"%char, T_Colon); ("-"%char, T_Dash)].

Fixpoint simple_token (b : ascii) (l : list (ascii * Token)) : option Token :=
  match l with
  | [] => None
  | (c, t) :: l => if Ascii.eqb c b then Some t else simple_token b l
  end.

Definition DQUOTE : ascii := ascii_of_N 34.

(** The token that starts with the byte [b] at the position. *)
Definition lex_byte (b : ascii) (l : Lexer) : LexResult :=
  let second c := bool_decide (byte_at l 1 = Some c) in
  match simple_token b simple_tokens with
  | Some t => (Ok t, bump 1 l)
  | None =>
      if Ascii.eqb b "." then
        if second "."%char then (Ok T_DotDot, bump 2 l) else (Ok T_Dot, bump 1 l)
      else if Ascii.eqb b ">" then
        if second "="%char then (Ok T_Ge, bump 2 l) else (Ok T_Gt, bump 1 l)
      else if Ascii.eqb b "<" then
        if second "="%char then (Ok T_Le, bump 2 l)
        else if second ">"%char then (Ok T_Ne, bump 2 l)
        else (Ok T_Lt, bump 1 l)
      else if Ascii.eqb b "'" || Ascii.eqb b DQUOTE then lex_string_literal b l
      else if is_digit b then lex_number l
      else if is_upper b || is_lower b || Ascii.eqb b "_" then lex_ident_or_keyword l
      else if Ascii.eqb b "`" then lex_backtick_ident l
      else (Err (mkLexError (lx_pos l) "Unexpected character"), l)
  end.

Definition next_token (l : Lexer) : LexResult :=
  let l := skip_whitespace_and_comments l in
  match byte_at l 0 with
  | None => (Ok T_Eof, l)
  | Some b => lex_byte b l
  end.

Definition lex_advance (l : Lexer) : LexResult := next_token l.
(** [peek] restores the position unless the lexer failed. *)
Definition lex_peek (l : Lexer) : LexResult :=
  let '(r, l') := next_token l in
  match r with Ok t => (Ok t, l) | Err e => (Err e, l') end.

(** [tok_eq_kind]: equal constructors *)
Definition tok_eq_kind (a b : Token) : bool :=
  match a, b with
  | T_Ident _, T_Ident _ | T_StringLit _, T_StringLit _ | T_IntLit _, T_IntLit _
  | T_FloatLit _, T_FloatLit _ => true
  | _, _ => bool_decide (a = b)
  end.
Definition lex_expect (expected : Token) (l : Lexer) : Result unit LexError * Lexer :=
  let '(r, l) := next_token l in
  match r with
  | Err e => (Err e, l)
  | Ok t => (if tok_eq_kind t expected then Ok tt else Err (mkLexError (lx_pos l) "Unexpected token"), l)
  end.
