(* ===== verification/QueryAst.v ===== *)
(** The query AST (src/graph/query/ast.rs), the symbol table (symbols.rs) and the
    semantic analysis (semantic.rs).

    A [serde_json::Value] in a query is a scalar: the parser builds nothing
    else.  A [u8] hop count and a [u32] identifier are [N]. *)

From stdpp Require Import base gmap strings numbers list.
From S2P Require Import Prelude.
From S2P Require Import Floats.
From S2P Require Import Graph.

(** ** JSON scalars *)

(** [serde_json::Number] keeps integers apart from floats. *)
Inductive JsonNumber := PosInt (n : N) | NegInt (z : Z) | JFloat (x : f64).
Inductive JsonValue := JNull | JBool (b : bool) | JNumber (n : JsonNumber) | JString (s : string).

Definition number_of_i64 (z : Z) : JsonNumber := if (0 <=? z)%Z then PosInt (Z.to_N z) else NegInt z.
Definition as_f64 (n : JsonNumber) : f64 :=
  match n with PosInt n => f64_of_u64 n | NegInt z => f64_of_Z z | JFloat x => x end.
Definition f64_eq (a b : f64) : bool := match SpecFloat.SFcompare a b with Some Eq => true | _ => false end.
Definition number_eq (a b : JsonNumber) : bool :=
  match a, b with
  | PosInt x, PosInt y => (x =? y)%N
  | NegInt x, NegInt y => (x =? y)%Z
  | JFloat x, JFloat y => f64_eq x y
  | _, _ => false
  end.
Definition json_eq (a b : JsonValue) : bool :=
  match a, b with
  | JNull, JNull => true
  | JBool x, JBool y => Bool.eqb x y
  | JNumber x, JNumber y => number_eq x y
  | JString x, JString y => bool_decide (x = y)
  | _, _ => false
  end.
Definition json_is_null (v : JsonValue) : bool := match v with JNull => true | _ => false end.

(** ** The AST *)

Inductive Direction := Outgoing | Incoming | Undirected.
#[export] Instance Direction_eq_dec : EqDecision Direction.
Proof. solve_decision. Defined.

Inductive PredicateValue :=
  | V_Literal (v : JsonValue)
  | V_Parameter (name : string)
  | V_PropertyRef (alias key : string).

Inductive ScalarPredicate :=
  | P_Eq (a b : PredicateValue)
  | P_Ne (a b : PredicateValue)
  | P_Lt (a b : PredicateValue)
  | P_Le (a b : PredicateValue)
  | P_Gt (a b : PredicateValue)
  | P_Ge (a b : PredicateValue)
  | P_IsNull (a : PredicateValue)
  | P_IsNotNull (a : PredicateValue)
  | P_And (p q : ScalarPredicate)
  | P_Or (p q : ScalarPredicate)
  | P_Not (p : ScalarPredicate).

(** What [Expand] and [OptionalExpand] have in common. *)
Record ExpandSpec := mkExpandSpec {
  src_alias : string;
  rel_alias : option string;
  pat_rel_type : option RelTypeId;
  dst_alias : string;
  pat_direction : Direction;
  min_hops : N;
  max_hops : N
}.

Inductive GraphPattern :=
  | NodePattern (alias : string) (label : option LabelId) (predicates : list ScalarPredicate)
  | PatExpand (e : ExpandSpec)
  | PatOptionalExpand (e : ExpandSpec)
  | HyperMatch (antecedent_aliases : list string) (hm_rel_alias : option string)
      (hm_rel_type : option RelTypeId) (consequent_aliases : list string) (hm_direction : Direction).

Inductive VectorContract := Contract_Certified | Contract_HighRecall | Contract_Bounded.

Record VectorMatchClause := mkVectorMatch {
  vm_binding : string;
  vm_query_param : string;
  vm_k : N;
  vm_contract : VectorContract
}.

Inductive ReturnItem := R_Alias (alias : string) | R_PropertyRef (alias key : string).
Record ReturnClause := mkReturn { ret_items : list ReturnItem; ret_limit : option N }.

Inductive GraphMutationClause :=
  | M_CreateNode (alias : string) (labels : list LabelId) (properties : gmap string JsonValue)
  | M_CreateRelationship (src dst : string) (t : RelTypeId) (properties : gmap string JsonValue) (w : b32)
  | M_MergePattern (pattern : GraphPattern)
  | M_DeleteAlias (alias : string).

(** [unwind] and [subqueries] are never filled by the parser and read by nobody. *)
Record QueryAst := mkAst {
  vector_match : option VectorMatchClause;
  patterns : list GraphPattern;
  where_clause : list ScalarPredicate;
  return_clause : ReturnClause;
  ast_mutations : list GraphMutationClause
}.
#[export] Instance eta_QueryAst : Eta QueryAst := λ a,
  mkAst (vector_match a) (patterns a) (where_clause a) (return_clause a) (ast_mutations a).

Definition return_alias (item : ReturnItem) : string :=
  match item with R_Alias a | R_PropertyRef a _ => a end.

(** ** Symbols *)

Abbreviation SymbolId := N (only parsing).
Record SymbolTable := mkSymbols { sym_ids : gmap string SymbolId; sym_names : list string }.
Definition symbols_new : SymbolTable := mkSymbols ∅ [].

Definition intern (name : string) (t : SymbolTable) : SymbolTable :=
  match sym_ids t !! name with
  | Some _ => t
  | None => mkSymbols (<[name := (lenN (sym_names t) `mod` u32_modulus)%N]> (sym_ids t)) (sym_names t ++ [name])
  end.
Definition symbol_get (name : string) (t : SymbolTable) : option SymbolId := sym_ids t !! name.
Definition symbol_name_of (id : SymbolId) (t : SymbolTable) : option string := sym_names t !! N.to_nat id.

(** ** Semantic analysis *)

Inductive SemanticError :=
  | UndeclaredAlias (alias : string)
  | DuplicateAlias (alias : string)
  | InvalidHopRange (min max : N)
  | UnsupportedFeature (what : string).

Definition intern_opt (name : option string) (t : SymbolTable) : SymbolTable :=
  match name with Some n => intern n t | None => t end.

Definition analyse_expand (e : ExpandSpec) (st : SymbolTable * list SemanticError) :
    SymbolTable * list SemanticError :=
  let '(symbols, errors) := st in
  let errors := errors ++ (if (max_hops e <? min_hops e)%N then [InvalidHopRange (min_hops e) (max_hops e)] else []) in
  let errors := errors ++ (match symbol_get (src_alias e) symbols with
                           | None => [UndeclaredAlias (src_alias e)] | Some _ => [] end) in
  (intern_opt (rel_alias e) (intern (dst_alias e) symbols), errors).

Definition analyse_pattern (st : SymbolTable * list SemanticError) (p : GraphPattern) :
    SymbolTable * list SemanticError :=
  match p with
  | NodePattern alias _ _ => (intern alias st.1, st.2)
  | PatExpand e | PatOptionalExpand e => analyse_expand e st
  | HyperMatch ants ra _ conseqs _ =>
      (intern_opt ra (foldl (λ t a, intern a t) (foldl (λ t a, intern a t) st.1 ants) conseqs), st.2)
  end.

Definition undeclared (symbols : SymbolTable) (item : ReturnItem) : option SemanticError :=
  match symbol_get (return_alias item) symbols with
  | None => Some (UndeclaredAlias (return_alias item))
  | Some _ => None
  end.

Definition analyse (ast : QueryAst) : Result SymbolTable (list SemanticError) :=
  let symbols := match vector_match ast with Some vm => intern (vm_binding vm) symbols_new | None => symbols_new end in
  let '(symbols, errors) := foldl analyse_pattern (symbols, []) (patterns ast) in
  let errors := errors ++ omap (undeclared symbols) (ret_items (return_clause ast)) in
  match errors with [] => Ok symbols | _ => Err errors end.
