(* ===== verification/QueryParser.v ===== *)
(** The recursive-descent parser (src/graph/query/parser.rs).

    A parser takes the lexer and the two shared catalogs, which it may extend
    even when parsing fails later, and returns a result.  Loops and the recursion
    of predicates take fuel; [None] is running out of it, which does not happen
    (QueryParserFacts.v). *)

From Stdlib Require Import Ascii ZArith SpecFloat.
From stdpp Require Import base gmap strings numbers list.
From S2P Require Import Prelude.
From S2P Require Import Floats.
From S2P Require Import Graph.
From S2P Require Import QueryLexer.
From S2P Require Import QueryAst.

Inductive ParseError :=
  | PE_Lex (e : LexError)
  | PE_UnexpectedToken (offset : nat) (msg : string)
  | PE_Invalid (msg : string).

Record Parser := mkParser { pr_lex : Lexer; pr_labels : Catalog; pr_rels : Catalog }.
#[export] Instance eta_Parser : Eta Parser := λ p, mkParser (pr_lex p) (pr_labels p) (pr_rels p).

Definition P (A : Type) : Type := Parser → option (Result A ParseError * Parser).

Definition ret {A} (x : A) : P A := λ p, Some (Ok x, p).
Definition fail {A} (msg : string) : P A := λ p, Some (Err (PE_Invalid msg), p).
Definition no_fuel {A} : P A := λ _, None.
Definition bind {A B} (m : P A) (k : A → P B) : P B := λ p,
  match m p with
  | None => None
  | Some (Err e, p) => Some (Err e, p)
  | Some (Ok x, p) => k x p
  end.
Declare Scope parser_scope.
Notation "'let%' x := m 'in' k" := (bind m (λ x, k))
  (at level 10, x name, m at level 200, k at level 200) : parser_scope.
Notation "'let%' ' x := m 'in' k" := (bind m (λ x, k))
  (at level 10, x strict pattern, m at level 200, k at level 200) : parser_scope.
Notation "m ;;% k" := (bind m (λ _, k)) (at level 199, right associativity) : parser_scope.
#[local] Open Scope parser_scope.

Definition lift_lex (f : Lexer → LexResult) : P Token := λ p,
  let '(r, l) := f (pr_lex p) in
  Some (match r with Ok t => Ok t | Err e => Err (PE_Lex e) end, p <| pr_lex := l |>).
Definition peek : P Token := lift_lex lex_peek.
Definition advance : P Token := lift_lex lex_advance.

Definition get_or_register_label (name : string) : P LabelId := λ p,
  let '(id, c) := get_or_register name (pr_labels p) in Some (Ok id, p <| pr_labels := c |>).
Definition get_or_register_rel (name : string) : P (option RelTypeId) := λ p,
  let '(id, c) := rel_get_or_register name (pr_rels p) in Some (Ok id, p <| pr_rels := c |>).

(** ** Numbers *)

Definition digit_value (c : ascii) : N := (byte_code c - 48)%N.
Definition decimal (l : list ascii) : N := foldl (λ n c, (10 * n + digit_value c)%N) 0%N l.

(** [str::parse::<u64>] and [::<i64>] on a string of digits: an error out of
    range. *)
Definition i64_max : N := 9223372036854775807.
Definition parse_digits (max : N) (s : string) : option N :=
  let n := decimal (String.list_ascii_of_string s) in if (n <=? max)%N then Some n else None.

(** [str::parse::<f64>] on digits with one point: the nearest [f64] to
    [num / 10^k]. *)
Definition parse_f64 (s : string) : f64 :=
  let l := String.list_ascii_of_string s in
  let k := span is_digit l in
  let frac := drop (S k) l in
  match (decimal (take k l ++ frac), 10 ^ lenN frac)%N with
  | (Npos num, Npos den) =>
      let '(m, e, loc) := SFdiv_core_binary 53 1024 (Zpos num) 0 (Zpos den) 0 in
      binary_round_aux 53 1024 false m e loc
  | _ => S754_zero false
  end.
(** [Number::from_f64] refuses infinities. *)
Definition number_from_f64 (x : f64) : JsonValue :=
  match x with S754_nan | S754_infinity _ => JNull | _ => JNumber (JFloat x) end.

(** ** Helpers *)

Definition expect_lparen : P unit :=
  let% t := advance in match t with T_LParen => ret tt | _ => fail "Expected `(`" end.
Definition expect_rparen : P unit :=
  let% t := advance in match t with T_RParen => ret tt | _ => fail "Expected `)`" end.

Definition ident_text (t : Token) : option string :=
  match t with
  | T_Ident s => Some s
  | T_Match => Some "match" | T_Where => Some "where" | T_Return => Some "return" | T_With => Some "with"
  | T_As => Some "as" | T_Set => Some "set" | T_Create => Some "create" | T_Delete => Some "delete"
  | T_Merge => Some "merge" | T_True => Some "true" | T_False => Some "false" | T_Null => Some "null"
  | _ => None
  end.
Definition expect_ident : P string :=
  let% t := advance in match ident_text t with Some s => ret s | None => fail "Expected identifier" end.

Definition expect_uint : P N :=
  let% t := advance in
  match t with
  | T_IntLit s => match parse_digits u64_max s with Some n => ret n | None => fail "Expected unsigned integer" end
  | _ => fail "Expected integer literal"
  end.

Definition parse_literal_value : P JsonValue :=
  let% t := advance in
  match t with
  | T_StringLit s => ret (JString s)
  | T_IntLit s => match parse_digits i64_max s with
                  | Some n => ret (JNumber (number_of_i64 (Z.of_N n)))
                  | None => fail "Invalid integer literal" end
  | T_FloatLit s => ret (number_from_f64 (parse_f64 s))
  | T_True => ret (JBool true)
  | T_False => ret (JBool false)
  | T_Null => ret JNull
  | _ => fail "Expected literal value"
  end.

(** [if let t = peek()? { advance()?; ... }] *)
Definition next_is (t : Token) : P bool := let% x := peek in ret (tok_eq_kind x t).
Definition eq_ignore_ascii_case (s upper : string) : bool :=
  bool_decide (to_ascii_uppercase <$> String.list_ascii_of_string s = String.list_ascii_of_string upper).
Definition next_is_word (upper : string) : P bool :=
  let% x := peek in ret (match x with T_Ident s => eq_ignore_ascii_case s upper | _ => false end).

(** ** VECTOR MATCH *)

Definition parse_contract : P VectorContract :=
  let% word := next_is_word "CONTRACT" in
  if word then
    advance ;;% (let% t := advance in
    ret (match t with
         | T_HighRecall => Contract_HighRecall
         | T_Bounded => Contract_Bounded
         | _ => Contract_Certified end))
  else
    let% t := peek in
    match t with
    | T_Certified => advance ;;% ret Contract_Certified
    | T_HighRecall => advance ;;% ret Contract_HighRecall
    | T_Bounded => advance ;;% ret Contract_Bounded
    | _ => ret Contract_Certified
    end.

Definition parse_vector_match : P VectorMatchClause :=
  advance ;;%
  (let% t := advance in
   match t with T_Match => ret tt | _ => fail "Expected MATCH after VECTOR" end) ;;%
  expect_lparen ;;%
  (let% binding := expect_ident in
   expect_rparen ;;%
   (let% word := next_is_word "USING" in if word : bool then advance ;;% ret tt else ret tt) ;;%
   (let% dollar := next_is T_Dollar in
    let% query_param := (if dollar : bool then advance ;;% expect_ident else ret binding) in
    let% limit := next_is T_Limit in
    let% k := (if limit : bool then advance ;;% expect_uint else ret 10%N) in
    let% contract := parse_contract in
    ret (mkVectorMatch binding query_param k contract))).

(** ** Node and relationship specifications *)

(** [{ key: value, ... }]; a comma between entries is optional. *)
Fixpoint parse_props {A} (fuel : nat) (msg : string) (add : string → JsonValue → A → A) (acc : A) : P A :=
  match fuel with
  | O => no_fuel
  | S fuel =>
      let% close := next_is T_RBrace in
      if close : bool then advance ;;% ret acc
      else
        let% key := expect_ident in
        let% t := advance in
        match t with
        | T_Colon | T_Eq =>
            let% val := parse_literal_value in
            let% comma := next_is T_Comma in
            (if comma : bool then advance ;;% ret tt else ret tt) ;;%
            parse_props fuel msg add (add key val acc)
        | _ => fail msg
        end
  end.

Definition parse_inline_props (fuel : nat) (alias : option string) : P (list ScalarPredicate) :=
  advance ;;%
  parse_props fuel "Expected `:` or `=` in property filter"
    (λ key val preds, preds ++ [P_Eq (V_PropertyRef (default "_" alias) key) (V_Literal val)]) [].

Definition parse_json_props (fuel : nat) : P (gmap string JsonValue) :=
  advance ;;% parse_props fuel "Expected `:` in property map" (λ key val m, <[key := val]> m) ∅.

Definition opt_ident : P (option string) :=
  let% t := peek in match t with T_Ident _ => let% s := expect_ident in ret (Some s) | _ => ret None end.

Definition opt_label : P (option LabelId) :=
  let% colon := next_is T_Colon in
  if colon : bool then
    advance ;;% (let% name := expect_ident in let% id := get_or_register_label name in ret (Some id))
  else ret None.

Definition parse_node_spec (fuel : nat) : P (option string * option LabelId * list ScalarPredicate) :=
  expect_lparen ;;%
  (let% alias := opt_ident in
   let% label := opt_label in
   let% brace := next_is T_LBrace in
   let% predicates := (if brace : bool then parse_inline_props fuel alias else ret []) in
   expect_rparen ;;% ret (alias, label, predicates)).

(** [as u8] *)
Definition u8_cast (n : N) : N := (n `mod` 256)%N.

Definition parse_hops : P (N * N) :=
  let% star := next_is T_Star in
  if star : bool then
    advance ;;%
    (let% t := peek in
     match t with
     | T_IntLit _ =>
         let% min := expect_uint in
         let% dots := next_is T_DotDot in
         if dots : bool then advance ;;% (let% max := expect_uint in ret (u8_cast min, u8_cast max))
         else ret (u8_cast min, u8_cast min)
     | _ => ret (1, 255)%N
     end)
  else ret (1, 1)%N.

Definition opt_rel_type : P (option RelTypeId) :=
  let% colon := next_is T_Colon in
  if colon : bool then advance ;;% (let% name := expect_ident in get_or_register_rel name) else ret None.

Definition parse_rel_spec : P (option string * option RelTypeId * N * N) :=
  let% alias := opt_ident in
  let% t := opt_rel_type in
  let% 'hops := parse_hops in
  let% close := advance in
  match close with
  | T_RBracket => ret (alias, t, hops.1, hops.2)
  | _ => fail "Expected `]` to close relationship spec"
  end.

(** ** Patterns *)

(** [-], [->] or [>] after the bracket *)
Definition outgoing_suffix : P bool :=
  let% t := peek in
  match t with
  | T_Dash => advance ;;% (let% gt := next_is T_Gt in if gt : bool then advance ;;% ret true else ret false)
  | T_Gt => advance ;;% ret true
  | _ => ret false
  end.

Definition direction_of (incoming outgoing : bool) : Direction :=
  match incoming, outgoing with
  | true, false => Incoming
  | false, true => Outgoing
  | _, _ => Undirected
  end.

(** The source of an expand: the alias declared last. *)
Definition actual_src (src_alias : string) (out : list GraphPattern) : string :=
  if (2 <=? length out)%nat then
    match last out with
    | Some (PatExpand e) | Some (PatOptionalExpand e) => dst_alias e
    | Some (NodePattern alias _ _) => alias
    | Some (HyperMatch ants _ _ conseqs _) =>
        match last conseqs with
        | Some c => c
        | None => default src_alias (last ants)
        end
    | None => src_alias
    end
  else src_alias.

(** [Some b] when a relationship starts: [b] for [<-]. *)
Definition rel_prefix : P (option bool) :=
  let% t := peek in
  match t with
  | T_Dash => advance ;;% ret (Some false)
  | T_Lt =>
      advance ;;%
      (let% t := advance in
       match t with T_Dash => ret (Some true) | _ => fail "Expected `-` after `<`" end)
  | _ => ret None
  end.

Definition push_dst (alias : string) (label : option LabelId) (preds : list ScalarPredicate)
    (out : list GraphPattern) : list GraphPattern :=
  match label, preds with
  | None, [] => out
  | _, _ => out ++ [NodePattern alias label preds]
  end.

(** The rest of one step, after its dash: the bracket, the arrow and the node. *)
Definition parse_hop (fuel : nat) (first_alias : option string) (optional incoming : bool)
    (out : list GraphPattern) : P (list GraphPattern) :=
  let% bracket := next_is T_LBracket in
  let% 'spec := (if bracket : bool then advance ;;% parse_rel_spec else ret (None, None, 1, 1)%N) in
  let '(ra, rt, lo, hi) := spec in
  let% outgoing := outgoing_suffix in
  let% 'dst := parse_node_spec fuel in
  let '(dst, dst_label, dst_preds) := dst in
  let dst_str := default "_anon" dst in
  let out := push_dst dst_str dst_label dst_preds out in
  let src := actual_src (default "_anon" first_alias) out in
  let e := mkExpandSpec src ra rt dst_str (direction_of incoming outgoing) lo hi in
  ret (out ++ [if optional then PatOptionalExpand e else PatExpand e]).

Fixpoint chain_loop (fuel : nat) (first_alias : option string) (optional : bool) (out : list GraphPattern) :
    P (list GraphPattern) :=
  match fuel with
  | O => no_fuel
  | S fuel' =>
      let% prefix := rel_prefix in
      match prefix with
      | None => ret out
      | Some incoming =>
          let% out := parse_hop fuel first_alias optional incoming out in
          chain_loop fuel' first_alias optional out
      end
  end.

Definition parse_pattern_chain (fuel : nat) (optional : bool) (out : list GraphPattern) : P (list GraphPattern) :=
  let% 'first := parse_node_spec fuel in
  let '(alias, label, preds) := first in
  let out := match alias with Some a => out ++ [NodePattern a label preds] | None => out end in
  chain_loop fuel alias optional out.

Fixpoint parse_match_patterns (fuel : nat) (optional : bool) (out : list GraphPattern) : P (list GraphPattern) :=
  match fuel with
  | O => no_fuel
  | S fuel' =>
      let% out := parse_pattern_chain fuel optional out in
      let% comma := next_is T_Comma in
      if comma : bool then advance ;;% parse_match_patterns fuel' optional out else ret out
  end.

(** ** Predicates *)

Definition parse_pred_value : P PredicateValue :=
  let% t := peek in
  match t with
  | T_Dollar => advance ;;% (let% name := expect_ident in ret (V_Parameter name))
  | T_StringLit _ | T_IntLit _ | T_FloatLit _ | T_True | T_False | T_Null =>
      let% v := parse_literal_value in ret (V_Literal v)
  | T_Ident _ =>
      let% alias := expect_ident in
      let% dot := next_is T_Dot in
      if dot : bool then advance ;;% (let% key := expect_ident in ret (V_PropertyRef alias key))
      else ret (V_Parameter alias)
  | _ => fail "Expected predicate operand"
  end.

Definition parse_null (mk : PredicateValue → ScalarPredicate) (lhs : PredicateValue) (msg : string) :
    P ScalarPredicate :=
  let% t := advance in match t with T_Null => ret (mk lhs) | _ => fail msg end.

Definition comparison_of (t : Token) : option (PredicateValue → PredicateValue → ScalarPredicate) :=
  match t with
  | T_Eq => Some P_Eq | T_Ne => Some P_Ne | T_Lt => Some P_Lt | T_Le => Some P_Le
  | T_Gt => Some P_Gt | T_Ge => Some P_Ge | _ => None
  end.

Definition parse_comparison : P ScalarPredicate :=
  let% lhs := parse_pred_value in
  let% t := peek in
  match t with
  | T_Is =>
      advance ;;%
      (let% neg := next_is T_Not in
       if neg : bool then advance ;;% parse_null P_IsNotNull lhs "Expected NULL after IS NOT"
       else parse_null P_IsNull lhs "Expected NULL after IS")
  | _ =>
      match comparison_of t with
      | Some op => advance ;;% (let% rhs := parse_pred_value in ret (op lhs rhs))
      | None => fail "Expected comparison operator in predicate"
      end
  end.

Fixpoint parse_or_pred (fuel : nat) : P ScalarPredicate :=
  match fuel with
  | O => no_fuel
  | S fuel => let% left := parse_and_pred fuel in or_loop fuel left
  end
with or_loop (fuel : nat) (left : ScalarPredicate) : P ScalarPredicate :=
  match fuel with
  | O => no_fuel
  | S fuel =>
      let% more := next_is T_Or in
      if more : bool then advance ;;% (let% right := parse_and_pred fuel in or_loop fuel (P_Or left right))
      else ret left
  end
with parse_and_pred (fuel : nat) : P ScalarPredicate :=
  match fuel with
  | O => no_fuel
  | S fuel => let% left := parse_not_pred fuel in and_loop fuel left
  end
with and_loop (fuel : nat) (left : ScalarPredicate) : P ScalarPredicate :=
  match fuel with
  | O => no_fuel
  | S fuel =>
      let% more := next_is T_And in
      if more : bool then advance ;;% (let% right := parse_not_pred fuel in and_loop fuel (P_And left right))
      else ret left
  end
with parse_not_pred (fuel : nat) : P ScalarPredicate :=
  match fuel with
  | O => no_fuel
  | S fuel =>
      let% neg := next_is T_Not in
      if neg : bool then advance ;;% (let% inner := parse_not_pred fuel in ret (P_Not inner))
      else parse_atom_pred fuel
  end
with parse_atom_pred (fuel : nat) : P ScalarPredicate :=
  match fuel with
  | O => no_fuel
  | S fuel =>
      let% open := next_is T_LParen in
      if open : bool then
        advance ;;% (let% inner := parse_or_pred fuel in expect_rparen ;;% ret inner)
      else parse_comparison
  end.

(** ** RETURN, CREATE, DELETE *)

Definition ends_return (t : Token) : bool :=
  match t with T_Limit | T_Eof | T_Where | T_Match => true | _ => false end.

Definition return_item : P ReturnItem :=
  let% alias := expect_ident in
  let% dot := next_is T_Dot in
  if dot : bool then advance ;;% (let% key := expect_ident in ret (R_PropertyRef alias key))
  else ret (R_Alias alias).

Fixpoint return_items (fuel : nat) (items : list ReturnItem) : P (list ReturnItem) :=
  match fuel with
  | O => no_fuel
  | S fuel =>
      let% t := peek in
      if ends_return t then ret items
      else
        let% item := return_item in
        let% comma := next_is T_Comma in
        if comma : bool then advance ;;% return_items fuel (items ++ [item]) else ret (items ++ [item])
  end.

Definition parse_return_clause (fuel : nat) : P ReturnClause :=
  let% items := return_items fuel [] in
  let% limit := next_is T_Limit in
  if limit : bool then advance ;;% (let% n := expect_uint in ret (mkReturn items (Some n)))
  else ret (mkReturn items None).

Fixpoint parse_create_clause (fuel : nat) (acc : list GraphMutationClause) : P (list GraphMutationClause) :=
  match fuel with
  | O => no_fuel
  | S fuel' =>
      let% open := next_is T_LParen in
      if open : bool then
        advance ;;%
        (let% alias := expect_ident in
         let% label := opt_label in
         let% brace := next_is T_LBrace in
         let% props := (if brace : bool then parse_json_props fuel else ret ∅) in
         expect_rparen ;;%
         (let acc := acc ++ [M_CreateNode alias (option_list label) props] in
          let% comma := next_is T_Comma in
          if comma : bool then advance ;;% parse_create_clause fuel' acc else ret acc))
      else ret acc
  end.

Fixpoint parse_delete_clause (fuel : nat) (acc : list GraphMutationClause) : P (list GraphMutationClause) :=
  match fuel with
  | O => no_fuel
  | S fuel =>
      let% alias := expect_ident in
      let acc := acc ++ [M_DeleteAlias alias] in
      let% comma := next_is T_Comma in
      if comma : bool then advance ;;% parse_delete_clause fuel acc else ret acc
  end.

(** ** Queries *)

Definition empty_ast : QueryAst := mkAst None [] [] (mkReturn [] None) [].

(** One clause; the lexer stands before its first token [t]. *)
Definition parse_clause (fuel : nat) (t : Token) (ast : QueryAst) : P QueryAst :=
  match t with
  | T_Vector => let% vm := parse_vector_match in ret (ast <| vector_match := Some vm |>)
  | T_Match =>
      advance ;;% (let% ps := parse_match_patterns fuel false (patterns ast) in ret (ast <| patterns := ps |>))
  | T_OptionalMatch =>
      advance ;;%
      (let% t := advance in
       match t with T_Match => ret tt | _ => fail "Expected MATCH after OPTIONAL" end) ;;%
      (let% ps := parse_match_patterns fuel true (patterns ast) in ret (ast <| patterns := ps |>))
  | T_Where =>
      advance ;;% (let% p := parse_or_pred fuel in ret (ast <| where_clause ::= λ ps, ps ++ [p] |>))
  | T_Return =>
      advance ;;% (let% rc := parse_return_clause fuel in ret (ast <| return_clause := rc |>))
  | T_Create =>
      advance ;;% (let% ms := parse_create_clause fuel [] in ret (ast <| ast_mutations ::= λ l, l ++ ms |>))
  | T_Delete =>
      advance ;;% (let% ms := parse_delete_clause fuel [] in ret (ast <| ast_mutations ::= λ l, l ++ ms |>))
  | _ => advance ;;% ret ast
  end.

Fixpoint parse_clauses (fuel : nat) (ast : QueryAst) : P QueryAst :=
  match fuel with
  | O => no_fuel
  | S fuel' =>
      let% t := peek in
      match t with
      | T_Eof => ret ast
      | _ => let% ast := parse_clause fuel t ast in parse_clauses fuel' ast
      end
  end.

(** Eight steps per byte are enough. *)
Definition query_fuel (src : string) : nat := (8 * String.length src + 16)%nat.
Definition parse_query (src : string) (labels rels : Catalog) :
    option (Result QueryAst ParseError * Parser) :=
  parse_clauses (query_fuel src) empty_ast (mkParser (lexer_new src) labels rels).
