(* ===== verification/QueryParserFacts.v ===== *)
(** The parser terminates on every text: each round of a loop and each level of
    the recursion over predicates consumes a token, and a token takes at least
    one byte, so eight units of fuel per byte are enough. *)

From Stdlib Require Import Ascii.
From stdpp Require Import base gmap strings numbers list.
From S2P Require Import Prelude.
From S2P Require Import Floats.
From S2P Require Import Graph.
From S2P Require Import QueryLexer.
From S2P Require Import QueryAst.
From S2P Require Import QueryParser.

#[local] Open Scope parser_scope.

(** ** The lexer moves forward *)

(** Bytes left *)
Definition left_of (l : Lexer) : nat := length (rest l).

Lemma left_bump k l : left_of (bump k l) = (left_of l - k)%nat.
Proof. unfold left_of, rest, bump. cbn. rewrite !length_drop. lia. Qed.

Lemma byte_at_left l k b : byte_at l k = Some b → (k < left_of l)%nat.
Proof. unfold byte_at, left_of, rest. intros H%lookup_lt_Some. rewrite length_drop. lia. Qed.

Lemma byte_at_rest l b : byte_at l 0 = Some b → ∃ r, rest l = b :: r.
Proof.
  unfold byte_at, rest. rewrite Nat.add_0_r. intros H. exists (drop (S (lx_pos l)) (lx_src l)). by apply drop_S.
Qed.

Lemma skip_left fuel l : (left_of (skip_loop fuel l) ≤ left_of l)%nat.
Proof.
  revert l. induction fuel as [|fuel IH]; intros l; cbn [skip_loop].
  - rewrite left_bump. lia.
  - destruct (_ && _).
    + etrans; [apply IH|]. rewrite !left_bump. lia.
    + rewrite left_bump. lia.
Qed.

(** A token other than the end takes a byte. *)
Definition forward (l : Lexer) (r : LexResult) : Prop :=
  (left_of r.2 ≤ left_of l)%nat ∧ ∀ t, r.1 = Ok t → t = T_Eof ∨ (left_of r.2 < left_of l)%nat.

Lemma forward_bump l k r : (1 ≤ k)%nat → (0 < left_of l)%nat → forward l (r, bump k l).
Proof. intros Hk Hl. unfold forward. cbn [fst snd]. rewrite left_bump. split; [lia|]. intros; right; lia. Qed.

Lemma next_token_forward l : forward l (next_token l).
Proof.
  assert (∀ l', (left_of l' ≤ left_of l)%nat → ∀ r, forward l' r → forward l r) as Hweak.
  { intros l' Hl r [H1 H2]. split; [lia|]. intros t Ht. destruct (H2 t Ht); [by left|right; lia]. }
  unfold next_token. apply (Hweak (skip_whitespace_and_comments l)); [apply skip_left|].
  generalize (skip_whitespace_and_comments l). clear. intros l. destruct (byte_at l 0) as [b|] eqn:Hb.
  2: { split; cbn; [lia|]. intros t [= <-]. by left. }
  pose proof (byte_at_left l 0 b Hb) as Hpos. destruct (byte_at_rest l b Hb) as [r Hr]. unfold lex_byte.
  destruct (simple_token b simple_tokens); [by apply forward_bump; lia|].
  repeat (match goal with |- context [if ?c then _ else _] => destruct c eqn:?; try (apply forward_bump; lia) end).
  - unfold lex_string_literal. destruct (string_end b _) as [k|]; unfold forward; cbn [fst snd]; rewrite ?left_bump.
    + split; [lia|]. intros; right; lia.
    + split; [lia|]. done.
  - unfold lex_number. rewrite Hr. cbn [number_span].
    match goal with H : is_digit b = true |- _ => rewrite H end. destruct (number_span false r) as [k f]. apply forward_bump; lia.
  - unfold lex_ident_or_keyword. rewrite Hr. cbn [span]. replace (is_word b) with true; [apply forward_bump; lia|].
    unfold is_word. by destruct (is_digit b), (is_upper b), (is_lower b), (Ascii.eqb b "_").
  - unfold lex_backtick_ident. destruct (_ <=? _)%nat; unfold forward; cbn [fst snd]; rewrite ?left_bump;
      (split; [lia|]); [done|]. intros; right; lia.
  - split; cbn; [lia|done].
Qed.

(** ** Parsers that return *)

Definition remaining (p : Parser) : nat := left_of (pr_lex p).

(** What a parser may do to its state: consume input and register names. *)
Record reaches (p p' : Parser) : Prop := {
  rc_left : (remaining p' ≤ remaining p)%nat;
  rc_labels : name_to_id (pr_labels p) ⊆ name_to_id (pr_labels p');
  rc_rels : name_to_id (pr_rels p) ⊆ name_to_id (pr_rels p')
}.
#[export] Instance reaches_refl : Reflexive reaches.
Proof. intros p. by split. Qed.
#[export] Instance reaches_trans : Transitive reaches.
Proof. intros p1 p2 p3 [] []. split; [lia|by etrans|by etrans]. Qed.

(** The next token, and that there is one. *)
Definition upcoming (p : Parser) (t : Token) : Prop := (next_token (pr_lex p)).1 = Ok t.
Definition more (p : Parser) : Prop := ∃ t, upcoming p t ∧ t ≠ T_Eof.

(** [m] returns from [p], and what it returns if it succeeds satisfies [Q]. *)
Definition wp {A} (m : P A) (p : Parser) (Q : A → Parser → Prop) : Prop :=
  ∃ r p', m p = Some (r, p') ∧ reaches p p' ∧ ∀ x, r = Ok x → Q x p'.

Lemma upcoming_more p t : upcoming p t → t ≠ T_Eof → more p.
Proof. by exists t. Qed.

Section rules.
Context {A B : Type}.

Lemma wp_ret (x : A) p (Q : A → Parser → Prop) : Q x p → wp (ret x) p Q.
Proof. intros H. exists (Ok x), p. split_and!; [done|done|]. by intros y [= <-]. Qed.

Lemma wp_fail msg p (Q : A → Parser → Prop) : wp (fail msg) p Q.
Proof. by exists (Err (PE_Invalid msg)), p. Qed.

Lemma wp_mono (m : P A) p (Q Q' : A → Parser → Prop) :
  wp m p Q → (∀ x p', (remaining p' ≤ remaining p)%nat → Q x p' → Q' x p') → wp m p Q'.
Proof.
  intros (r & p' & E & Hr & HQ) H. exists r, p'. split_and!; [done|done|]. intros x Hx. apply H; [apply Hr|by apply HQ].
Qed.

Lemma wp_bind (m : P A) (k : A → P B) p (Q : B → Parser → Prop) :
  wp m p (λ x p', (remaining p' ≤ remaining p)%nat → wp (k x) p' Q) → wp (bind m k) p Q.
Proof.
  intros (r & p' & E & Hr & HQ). unfold wp, bind. rewrite E. destruct r as [x|e]; [|by exists (Err e), p'].
  destruct (HQ x eq_refl (rc_left _ _ Hr)) as (r2 & p2 & E2 & Hr2 & HQ2). exists r2, p2. split_and!; [done|by etrans|done].
Qed.
End rules.

Lemma wp_peek p Q : (∀ t, upcoming p t → Q t p) → wp peek p Q.
Proof.
  intros HQ. unfold wp, peek, lift_lex, lex_peek. unfold upcoming in HQ. pose proof (next_token_forward (pr_lex p)) as [Hf _].
  destruct (next_token (pr_lex p)) as [[t|e] l]; cbn [fst snd] in *.
  - exists (Ok t), p. destruct p. split_and!; [done|done|]. intros x [= <-]. by apply HQ.
  - eexists _, _. split; [done|]. split; [|done]. by split.
Qed.

Lemma wp_advance p Q :
  (∀ t p', (t ≠ T_Eof → (remaining p' < remaining p)%nat) → (more p → (remaining p' < remaining p)%nat) → Q t p') →
  wp advance p Q.
Proof.
  intros HQ. unfold wp, advance, lift_lex, lex_advance. pose proof (next_token_forward (pr_lex p)) as [Hf Hs].
  destruct (next_token (pr_lex p)) as [r l] eqn:E; cbn [fst snd] in *.
  eexists _, _. split; [done|]. assert (reaches p (p <| pr_lex := l |>)) as Hr by (by split).
  split; [done|]. intros x Hx. destruct r as [t|e]; [|done]. injection Hx as <-. apply HQ.
  - intros Ht. by destruct (Hs t eq_refl).
  - intros (t' & Ht' & Hne). unfold upcoming in Ht'. rewrite E in Ht'. injection Ht' as <-. by destruct (Hs t eq_refl).
Qed.

Lemma tok_eq_more p t t' : upcoming p t → tok_eq_kind t t' = true → t' ≠ T_Eof → more p.
Proof. intros Hu Ht Hne. exists t. split; [done|]. intros ->. by destruct t'. Qed.

Lemma wp_next_is t p Q : t ≠ T_Eof → Q false p → (more p → Q true p) → wp (next_is t) p Q.
Proof.
  intros Hne Hf Ht. apply wp_bind, wp_peek. intros x Hx _. apply wp_ret.
  destruct (tok_eq_kind x t) eqn:E; [|done]. apply Ht. by eapply tok_eq_more.
Qed.

Lemma wp_next_is_word w p Q : (∀ b, Q b p) → wp (next_is_word w) p Q.
Proof. intros H. apply wp_bind, wp_peek. intros x _ _. by apply wp_ret. Qed.

(** One token, checked by a match on it. *)
Lemma wp_expect_ident p Q : (∀ s p', (remaining p' < remaining p)%nat → Q s p') → wp expect_ident p Q.
Proof.
  intros HQ. apply wp_bind, wp_advance. intros t p' Hne _ _. destruct (ident_text t) as [s|] eqn:E; [|apply wp_fail].
  apply wp_ret, HQ, Hne. by intros ->.
Qed.

Lemma wp_register_label s p Q : (∀ id p', remaining p' = remaining p → Q id p') → wp (get_or_register_label s) p Q.
Proof.
  intros HQ. unfold wp, get_or_register_label, get_or_register. destruct (name_to_id (pr_labels p) !! s) as [id|] eqn:E.
  - eexists _, _. split_and!; [done|by destruct p|]. intros x [= <-]. destruct p. by apply HQ.
  - eexists _, _. split; [done|]. set (p' := p <| pr_labels := _ |>).
    assert (reaches p p') as Hr by (split; [done|by apply insert_subseteq|done]). split; [done|]. intros x [= <-]. by apply HQ.
Qed.

Lemma wp_register_rel s p Q : (∀ id p', remaining p' = remaining p → Q id p') → wp (get_or_register_rel s) p Q.
Proof.
  intros HQ. unfold wp, get_or_register_rel, rel_get_or_register. destruct (name_to_id (pr_rels p) !! s) as [id|] eqn:E.
  - eexists _, _. split_and!; [done|by destruct p|]. intros x [= <-]. destruct p. by apply HQ.
  - destruct (65535 <? _)%N.
    + eexists _, _. split_and!; [done|by destruct p|]. intros x [= <-]. destruct p. by apply HQ.
    + eexists _, _. split; [done|]. set (p' := p <| pr_rels := _ |>).
      assert (reaches p p') as Hr by (split; [done|done|by apply insert_subseteq]). split; [done|]. intros x [= <-]. by apply HQ.
Qed.

(** Returning is all that is asked of most parsers. *)
Definition returns {A} (m : P A) (p : Parser) : Prop := wp m p (λ _ _, True).

Lemma wp_returns {A} (m : P A) p (Q : A → Parser → Prop) :
  returns m p → (∀ x p', (remaining p' ≤ remaining p)%nat → Q x p') → wp m p Q.
Proof. intros Hm HQ. eapply wp_mono; [exact Hm|]. auto. Qed.

Create HintDb returns.

(** Fuel: what is left after a token is less than before it. *)
Ltac returns_fuel :=
  repeat match goal with
  | H : more ?p, H' : more ?p → _ |- _ => specialize (H' H)
  | H : upcoming ?p ?t, H' : more ?p → _ |- _ => specialize (H' (upcoming_more p t H ltac:(discriminate)))
  | H : ?t ≠ T_Eof → _ |- _ => first [specialize (H ltac:(discriminate)) | clear H]
  end; lia.

#[export] Hint Extern 1 (_ < _)%nat => returns_fuel : returns.
#[export] Hint Extern 1 (_ ≤ _)%nat => returns_fuel : returns.

(** Symbolic execution of a parser; the calls it does not know come from the hint
    database, their side conditions by [lia]. *)
Ltac parser_step :=
  lazymatch goal with
  | |- returns _ _ => unfold returns
  | |- wp (bind _ _) _ _ => apply wp_bind
  | |- wp (ret _) _ _ => apply wp_ret
  | |- wp (fail _) _ _ => apply wp_fail
  | |- wp peek _ _ => let t := fresh "t" in let H := fresh "Hup" in apply wp_peek; intros t H
  | |- wp advance _ _ => let t := fresh "t" in let p := fresh "p" in apply wp_advance; intros t p ? ?
  | |- wp expect_ident _ _ => let s := fresh "s" in let p := fresh "p" in apply wp_expect_ident; intros s p ?
  | |- wp (next_is _) _ _ => apply wp_next_is; [done| |intros ?]
  | |- wp (next_is_word _) _ _ => apply wp_next_is_word; intros ?
  | |- wp (get_or_register_label _) _ _ => apply wp_register_label; intros ? ? ?
  | |- wp (get_or_register_rel _) _ _ => apply wp_register_rel; intros ? ? ?
  | |- wp (if ?b then _ else _) _ _ => destruct b
  | |- wp (match ?x with _ => _ end) _ _ => destruct x
  | |- wp (let '_ := ?x in _) _ _ => destruct x
  | |- wp _ _ _ => apply wp_returns; [solve [eauto with returns]|intros ? ? ?]
  | |- (_ ≤ _)%nat → _ => intros ?
  | |- True => exact I
  end; cbn beta iota.
Ltac parse_all := repeat parser_step.

(** ** Parsers without loops *)

Lemma expect_lparen_returns p : returns expect_lparen p.
Proof. unfold expect_lparen. parse_all. Qed.
Lemma expect_rparen_returns p : returns expect_rparen p.
Proof. unfold expect_rparen. parse_all. Qed.
Lemma expect_uint_returns p : returns expect_uint p.
Proof. unfold expect_uint. parse_all. Qed.
Lemma parse_literal_returns p : returns parse_literal_value p.
Proof. unfold parse_literal_value. parse_all. Qed.
#[export] Hint Resolve expect_lparen_returns expect_rparen_returns expect_uint_returns parse_literal_returns : returns.

Lemma parse_contract_returns p : returns parse_contract p.
Proof. unfold parse_contract. parse_all. Qed.
Lemma opt_ident_returns p : returns opt_ident p.
Proof. unfold opt_ident. parse_all. Qed.
Lemma opt_label_returns p : returns opt_label p.
Proof. unfold opt_label. parse_all. Qed.
Lemma parse_hops_returns p : returns parse_hops p.
Proof. unfold parse_hops. parse_all. Qed.
Lemma opt_rel_type_returns p : returns opt_rel_type p.
Proof. unfold opt_rel_type. parse_all. Qed.
#[export] Hint Resolve parse_contract_returns opt_ident_returns opt_label_returns parse_hops_returns opt_rel_type_returns : returns.
Lemma parse_rel_returns p : returns parse_rel_spec p.
Proof. unfold parse_rel_spec. parse_all. Qed.
Lemma outgoing_returns p : returns outgoing_suffix p.
Proof. unfold outgoing_suffix. parse_all. Qed.
Lemma parse_value_returns p : returns parse_pred_value p.
Proof. unfold parse_pred_value. parse_all. Qed.
#[export] Hint Resolve parse_rel_returns outgoing_returns parse_value_returns : returns.
Lemma parse_comparison_returns p : returns parse_comparison p.
Proof. unfold parse_comparison, parse_null. parse_all. Qed.
Lemma return_item_returns p : returns return_item p.
Proof. unfold return_item. parse_all. Qed.
#[export] Hint Resolve parse_comparison_returns return_item_returns : returns.

(** ** Loops *)

Lemma parse_props_returns {A} fuel msg (add : string → JsonValue → A → A) : ∀ acc p,
  (remaining p < fuel)%nat → returns (parse_props fuel msg add acc) p.
Proof. induction fuel as [|fuel IH]; intros acc p Hf; [lia|]. cbn [parse_props]. parse_all. Qed.
#[export] Hint Resolve parse_props_returns : returns.

Lemma parse_node_returns fuel p : (remaining p < fuel)%nat → returns (parse_node_spec fuel) p.
Proof. intros Hf. unfold parse_node_spec, parse_inline_props. parse_all. Qed.
#[export] Hint Resolve parse_node_returns : returns.

Lemma rel_prefix_wp p Q :
  Q None p → (∀ b p', (remaining p' < remaining p)%nat → Q (Some b) p') → wp rel_prefix p Q.
Proof. intros H1 H2. unfold rel_prefix. parse_all; try assumption; apply H2; returns_fuel. Qed.

Lemma parse_hop_returns fuel first optional incoming out p :
  (remaining p < fuel)%nat → returns (parse_hop fuel first optional incoming out) p.
Proof. intros Hf. unfold parse_hop. parse_all. Qed.
#[export] Hint Resolve parse_hop_returns : returns.

Lemma chain_loop_returns fuel : ∀ first optional out p,
  (remaining p < fuel)%nat → returns (chain_loop fuel first optional out) p.
Proof.
  induction fuel as [|fuel IH]; intros first optional out p Hf; [lia|]. cbn [chain_loop].
  parser_step. parser_step. apply rel_prefix_wp; [by intros; parse_all|]. intros b p' Hp _. parse_all.
Qed.
#[export] Hint Resolve chain_loop_returns : returns.

Lemma parse_match_returns fuel : ∀ optional out p,
  (remaining p < fuel)%nat → returns (parse_match_patterns fuel optional out) p.
Proof.
  induction fuel as [|fuel IH]; intros optional out p Hf; [lia|]. cbn [parse_match_patterns]. unfold parse_pattern_chain.
  parse_all.
Qed.

Lemma return_items_returns fuel : ∀ items p, (remaining p < fuel)%nat → returns (return_items fuel items) p.
Proof. induction fuel as [|fuel IH]; intros items p Hf; [lia|]. cbn [return_items]. parse_all. Qed.
#[export] Hint Resolve parse_match_returns return_items_returns : returns.

Lemma parse_create_returns fuel : ∀ acc p, (remaining p < fuel)%nat → returns (parse_create_clause fuel acc) p.
Proof.
  induction fuel as [|fuel IH]; intros acc p Hf; [lia|]. cbn [parse_create_clause]. unfold parse_json_props. parse_all.
Qed.

Lemma parse_delete_returns fuel : ∀ acc p, (remaining p < fuel)%nat → returns (parse_delete_clause fuel acc) p.
Proof. induction fuel as [|fuel IH]; intros acc p Hf; [lia|]. cbn [parse_delete_clause]. parse_all. Qed.
#[export] Hint Resolve parse_create_returns parse_delete_returns : returns.

(** ** Predicates

    A level of the recursion that consumes nothing calls the next one down:
    [parse_or_pred], [parse_and_pred], [parse_not_pred], [parse_atom_pred]. *)
Lemma predicate_returns fuel :
  (∀ p, (8 * remaining p + 4 ≤ fuel)%nat → returns (parse_or_pred fuel) p) ∧
  (∀ left p, (8 * remaining p + 1 ≤ fuel)%nat → returns (or_loop fuel left) p) ∧
  (∀ p, (8 * remaining p + 3 ≤ fuel)%nat → returns (parse_and_pred fuel) p) ∧
  (∀ left p, (8 * remaining p + 1 ≤ fuel)%nat → returns (and_loop fuel left) p) ∧
  (∀ p, (8 * remaining p + 2 ≤ fuel)%nat → returns (parse_not_pred fuel) p) ∧
  (∀ p, (8 * remaining p + 1 ≤ fuel)%nat → returns (parse_atom_pred fuel) p).
Proof.
  induction fuel as [|fuel (IH1 & IH2 & IH3 & IH4 & IH5 & IH6)]; [split_and!; intros; lia|].
  split_and!; intros; cbn [parse_or_pred or_loop parse_and_pred and_loop parse_not_pred parse_atom_pred]; parse_all.
Qed.

Lemma parse_or_returns fuel p : (8 * remaining p + 4 ≤ fuel)%nat → returns (parse_or_pred fuel) p.
Proof. apply predicate_returns. Qed.
#[export] Hint Resolve parse_or_returns : returns.

(** ** Queries *)

Lemma parse_clause_returns fuel t ast p :
  upcoming p t → t ≠ T_Eof → (8 * remaining p + 8 ≤ fuel)%nat →
  wp (parse_clause fuel t ast) p (λ _ p', (remaining p' < remaining p)%nat).
Proof.
  intros Hup Hne Hf. assert (more p) as Hm by by exists t.
  unfold parse_clause, parse_return_clause, parse_vector_match. destruct t; try done; parse_all; returns_fuel.
Qed.

(** Parsing a query always ends: with an error, or with an AST once the whole text
    is read. *)
Lemma parse_clauses_returns fuel : ∀ ast p,
  (8 * remaining p + 8 ≤ fuel)%nat → wp (parse_clauses fuel ast) p (λ _ p', upcoming p' T_Eof).
Proof.
  induction fuel as [|fuel IH]; intros ast p Hf; [lia|]. cbn [parse_clauses]. parser_step. parser_step. intros _.
  destruct (decide (t = T_Eof)) as [->|Hne]; [by apply wp_ret|].
  assert (wp (let% ast := parse_clause (S fuel) t ast in parse_clauses fuel ast) p (λ _ p', upcoming p' T_Eof)) as Hgo.
  { apply wp_bind. eapply wp_mono; [apply (parse_clause_returns (S fuel) t ast p Hup Hne Hf)|].
    intros x p' _ Hp _. cbn beta in Hp. apply IH. lia. }
  destruct t; done.
Qed.

Lemma length_list_ascii s : length (String.list_ascii_of_string s) = String.length s.
Proof. induction s as [|c s IH]; cbn; [done|by f_equal]. Qed.

(** C30: The parser returns on every text, whatever the catalogs hold: every
    round of a loop and every level of the recursion over predicates consumes a
    token, and a token takes a byte.  It returns an AST only when it has read
    the text to its end, and the names known before keep their identifiers. *)
Theorem parse_query_returns src labels rels :
  ∃ r p', parse_query src labels rels = Some (r, p') ∧
    (∀ ast, r = Ok ast → (next_token (pr_lex p')).1 = Ok T_Eof) ∧
    name_to_id labels ⊆ name_to_id (pr_labels p') ∧ name_to_id rels ⊆ name_to_id (pr_rels p').
Proof.
  set (p := mkParser (lexer_new src) labels rels).
  assert (remaining p = String.length src) as Hrem.
  { unfold remaining, left_of, rest. cbn. by rewrite drop_0, length_list_ascii. }
  destruct (parse_clauses_returns (query_fuel src) empty_ast p) as (r & p' & E & [_ H1 H2] & HQ).
  { rewrite Hrem. unfold query_fuel. lia. }
  by exists r, p'.
Qed.
