(* ===== verification/QueryPrint.v ===== *)
(** Printing queries, and that the lexer reads the printed tokens back.

    The printer is the specification's, not the program's: it writes each token
    followed by a space.  Identifiers and strings are those the language can
    write without escapes. *)

From Stdlib Require Import Ascii.
From stdpp Require Import base gmap strings numbers list.
From S2P Require Import Prelude.
From S2P Require Import QueryLexer.
From S2P Require Import QueryParser.
From S2P Require Import QueryParserFacts.

Abbreviation chars := String.list_ascii_of_string.
Abbreviation text_of := String.string_of_list_ascii.
Definition SP : ascii := ascii_of_N 32.

(** ** Tokens and their text *)

Definition word_start (c : ascii) : bool := is_upper c || is_lower c || Ascii.eqb c "_".

Definition word_ok (s : string) : bool :=
  match chars s with [] => false | c :: cs => word_start c && forallb is_word cs end.
(** An identifier is a word that is no keyword. *)
Definition ident_ok (s : string) : bool := word_ok s && bool_decide (keyword_or_ident s = T_Ident s).
Definition string_ok (s : string) : bool :=
  forallb (λ c, negb (Ascii.eqb c "\") && negb (Ascii.eqb c DQUOTE)) (chars s).
Definition digits_ok (s : string) : bool := negb (bool_decide (s = ""%string)) && forallb is_digit (chars s).

Definition token_ok (t : Token) : bool :=
  match t with
  | T_Ident s => ident_ok s
  | T_StringLit s => string_ok s
  | T_IntLit s => digits_ok s
  | T_FloatLit _ | T_Eof => false
  | _ => true
  end.

Definition token_text (t : Token) : list ascii :=
  match t with
  | T_Ident s | T_IntLit s | T_FloatLit s => chars s
  | T_StringLit s => DQUOTE :: chars s ++ [DQUOTE]
  | T_Match => chars "MATCH" | T_OptionalMatch => chars "OPTIONAL" | T_Where => chars "WHERE"
  | T_Return => chars "RETURN" | T_Limit => chars "LIMIT" | T_With => chars "WITH"
  | T_And => chars "AND" | T_Or => chars "OR" | T_Not => chars "NOT" | T_Is => chars "IS"
  | T_Null => chars "NULL" | T_Create => chars "CREATE" | T_Delete => chars "DELETE"
  | T_Merge => chars "MERGE" | T_Set => chars "SET" | T_Vector => chars "VECTOR"
  | T_Certified => chars "CERTIFIED" | T_HighRecall => chars "HIGH_RECALL" | T_Bounded => chars "BOUNDED"
  | T_As => chars "AS" | T_True => chars "TRUE" | T_False => chars "FALSE" | T_Shortestpath => chars "SHORTESTPATH"
  | T_LParen => chars "(" | T_RParen => chars ")" | T_LBracket => chars "[" | T_RBracket => chars "]"
  | T_LBrace => chars "{" | T_RBrace => chars "}" | T_Dash => chars "-" | T_Gt => chars ">" | T_Lt => chars "<"
  | T_Colon => chars ":" | T_Comma => chars "," | T_Dot => chars "." | T_Pipe => chars "|" | T_Star => chars "*"
  | T_Eq => chars "=" | T_Ne => chars "<>" | T_Le => chars "<=" | T_Ge => chars ">=" | T_Dollar => chars "$"
  | T_DotDot => chars ".."
  | T_Eof => []
  end.

Definition print_tokens (ts : list Token) : list ascii := ts ≫= λ t, token_text t ++ [SP].

(** ** Reading one token *)

Lemma text_chars s : text_of (chars s) = s.
Proof. apply String.string_of_list_ascii_of_string. Qed.

Lemma rest_bump k l : rest (bump k l) = drop k (rest l).
Proof. unfold rest, bump. cbn. by rewrite drop_drop. Qed.

Lemma byte_at_lookup l k : byte_at l k = rest l !! k.
Proof. unfold byte_at, rest. by rewrite lookup_drop. Qed.

Lemma slice_rest l k : slice (lx_pos l) (lx_pos l + k) (lx_src l) = text_of (take k (rest l)).
Proof. unfold slice, rest. by replace (lx_pos l + k - lx_pos l)%nat with k by lia. Qed.

Lemma span_app p w c r : forallb p w = true → p c = false → span p (w ++ c :: r) = length w.
Proof.
  intros Hw Hc. induction w as [|d w IH]; cbn in *; [by rewrite Hc|].
  apply andb_true_iff in Hw as [-> Hw]. by rewrite IH.
Qed.

Lemma skip_spaces l ws c r :
  rest l = ws ++ c :: r → forallb is_ascii_whitespace ws = true → is_ascii_whitespace c = false → c ≠ "/"%char →
  rest (skip_whitespace_and_comments l) = c :: r.
Proof.
  intros Hr Hws Hc Hs. unfold skip_whitespace_and_comments.
  assert (rest (bump (span is_ascii_whitespace (rest l)) l) = c :: r) as Hb.
  { rewrite rest_bump, Hr, span_app by done. apply drop_app_length. }
  destruct (length (rest l)); cbn [skip_loop]; [done|].
  rewrite byte_at_lookup, Hb. cbn [lookup list_lookup].
  rewrite bool_decide_false by congruence. done.
Qed.

Lemma next_token_here l ws c r :
  rest l = ws ++ c :: r → forallb is_ascii_whitespace ws = true → is_ascii_whitespace c = false → c ≠ "/"%char →
  ∃ l', rest l' = c :: r ∧ next_token l = lex_byte c l'.
Proof.
  intros Hr Hws Hc Hs. exists (skip_whitespace_and_comments l).
  pose proof (skip_spaces l ws c r Hr Hws Hc Hs) as Hk. split; [done|].
  unfold next_token. by rewrite byte_at_lookup, Hk.
Qed.

(** What holds of each byte of a class, by looking at all 256. *)
Definition all_bytes : list ascii := ascii_of_N ∘ N.of_nat <$> seq 0 256.
Lemma byte_forall (f : ascii → bool) : forallb f all_bytes = true → ∀ c, f c = true.
Proof.
  rewrite forallb_forall. intros H c. apply H. apply list_elem_of_In, list_elem_of_fmap.
  exists (N.to_nat (N_of_ascii c)). split; [cbn [compose]; by rewrite N2Nat.id, ascii_N_embedding|].
  apply elem_of_seq. pose proof (N_ascii_bounded c). lia.
Qed.

(** ** The classes of first bytes *)

(** A byte that starts a word reaches the word branch, and so on. *)
Definition no_symbol (c : ascii) : bool :=
  negb (is_ascii_whitespace c) && negb (Ascii.eqb c "/") && bool_decide (simple_token c simple_tokens = None) &&
  negb (Ascii.eqb c ".") && negb (Ascii.eqb c ">") && negb (Ascii.eqb c "<").

Lemma no_symbol_spec c : no_symbol c = true →
  is_ascii_whitespace c = false ∧ c ≠ "/"%char ∧ simple_token c simple_tokens = None ∧
  Ascii.eqb c "." = false ∧ Ascii.eqb c ">" = false ∧ Ascii.eqb c "<" = false.
Proof.
  unfold no_symbol. rewrite !andb_true_iff, !negb_true_iff, bool_decide_eq_true. intros (((((? & H) & ?) & ?) & ?) & ?).
  split_and!; try done. by apply Ascii.eqb_neq in H.
Qed.

Lemma word_start_spec c : word_start c = true →
  no_symbol c = true ∧ Ascii.eqb c "'" || Ascii.eqb c DQUOTE = false ∧ is_digit c = false.
Proof.
  pose proof (byte_forall (λ c, negb (word_start c) ||
    no_symbol c && negb (Ascii.eqb c "'" || Ascii.eqb c DQUOTE) && negb (is_digit c)) ltac:(vm_compute; reflexivity) c) as H.
  cbn beta in H. intros Hc. rewrite Hc in H. cbn [negb orb] in H.
  rewrite !andb_true_iff, !negb_true_iff in H. tauto.
Qed.

Lemma digit_spec c : is_digit c = true → no_symbol c = true ∧ Ascii.eqb c "'" || Ascii.eqb c DQUOTE = false.
Proof.
  pose proof (byte_forall (λ c, negb (is_digit c) || no_symbol c && negb (Ascii.eqb c "'" || Ascii.eqb c DQUOTE))
    ltac:(vm_compute; reflexivity) c) as H.
  cbn beta in H. intros Hc. rewrite Hc in H. cbn [negb orb] in H.
  rewrite !andb_true_iff, !negb_true_iff in H. tauto.
Qed.

(** [l] stands before the text [txt] and a space, after blanks at most. *)
Definition before (l : Lexer) (txt r : list ascii) : Prop :=
  ∃ ws, forallb is_ascii_whitespace ws = true ∧ rest l = ws ++ txt ++ SP :: r.
Definition lexes (l : Lexer) (t : Token) (r : list ascii) : Prop :=
  ∃ l', next_token l = (Ok t, l') ∧ rest l' = SP :: r.

Lemma lex_word l s r : word_ok s = true → before l (chars s) r → lexes l (keyword_or_ident s) r.
Proof.
  unfold word_ok. intros Hw (ws & Hws & Hr). destruct (chars s) as [|c cs] eqn:Es; [done|].
  apply andb_true_iff in Hw as [Hc Hcs]. destruct (word_start_spec c Hc) as (Hn & Hq & Hd).
  destruct (no_symbol_spec c Hn) as (H1 & H2 & H3 & H4 & H5 & H6).
  destruct (next_token_here l ws c (cs ++ SP :: r) Hr Hws H1 H2) as (l' & Hl' & Hnt).
  assert (is_word c = true) as Hcw.
  { unfold is_word. unfold word_start in Hc. by destruct (is_digit c), (is_upper c), (is_lower c), (Ascii.eqb c "_"). }
  unfold lexes. rewrite Hnt. unfold lex_byte. rewrite H3, H4, H5, H6, Hq, Hd.
  replace (is_upper c || is_lower c || Ascii.eqb c "_") with true by (symmetry; exact Hc).
  unfold lex_ident_or_keyword. rewrite Hl'. change (c :: cs ++ SP :: r) with ((c :: cs) ++ SP :: r).
  rewrite span_app by (try done; cbn [forallb]; by rewrite Hcw).
  exists (bump (length (c :: cs)) l'). split; [|rewrite rest_bump, Hl'; exact (drop_app_length (c :: cs) (SP :: r))].
  do 3 f_equal. rewrite slice_rest, Hl'. change (c :: cs ++ SP :: r) with ((c :: cs) ++ SP :: r).
  by rewrite take_app_length, <- Es, text_chars.
Qed.

Lemma number_span_digits w r : forallb is_digit w = true → number_span false (w ++ SP :: r) = (length w, false).
Proof.
  induction w as [|c w IH]; intros Hw; cbn in *; [done|]. apply andb_true_iff in Hw as [-> Hw]. by rewrite IH.
Qed.

Lemma lex_digits l s r : digits_ok s = true → before l (chars s) r → lexes l (T_IntLit s) r.
Proof.
  unfold digits_ok. rewrite andb_true_iff, negb_true_iff, bool_decide_eq_false. intros [Hne Hall] (ws & Hws & Hr).
  destruct (chars s) as [|c cs] eqn:Es; [destruct Hne; rewrite <- (text_chars s), Es; done|].
  cbn [forallb] in Hall. apply andb_true_iff in Hall as [Hc Hcs]. destruct (digit_spec c Hc) as (Hn & Hq).
  destruct (no_symbol_spec c Hn) as (H1 & H2 & H3 & H4 & H5 & H6).
  destruct (next_token_here l ws c (cs ++ SP :: r) Hr Hws H1 H2) as (l' & Hl' & Hnt).
  unfold lexes. rewrite Hnt. unfold lex_byte. rewrite H3, H4, H5, H6, Hq, Hc. unfold lex_number. rewrite Hl'.
  change (c :: cs ++ SP :: r) with ((c :: cs) ++ SP :: r).
  rewrite number_span_digits by (cbn [forallb]; by rewrite Hc).
  exists (bump (length (c :: cs)) l'). split; [|rewrite rest_bump, Hl'; exact (drop_app_length (c :: cs) (SP :: r))].
  do 3 f_equal. rewrite slice_rest, Hl'. change (c :: cs ++ SP :: r) with ((c :: cs) ++ SP :: r).
  by rewrite take_app_length, <- Es, text_chars.
Qed.

Lemma string_end_plain w r :
  forallb (λ c, negb (Ascii.eqb c "\") && negb (Ascii.eqb c DQUOTE)) w = true →
  string_end DQUOTE (w ++ DQUOTE :: r) = Some (length w).
Proof.
  induction w as [|c w IH]; intros Hw; [done|]. cbn [forallb] in Hw.
  rewrite !andb_true_iff, !negb_true_iff in Hw. destruct Hw as [[H1 H2] Hw]. cbn [app string_end]. by rewrite H1, H2, IH by done.
Qed.

Lemma lex_string l s r : string_ok s = true → before l (DQUOTE :: chars s ++ [DQUOTE]) r → lexes l (T_StringLit s) r.
Proof.
  intros Hs (ws & Hws & Hr). cbn [app] in Hr. rewrite <- app_assoc in Hr. cbn [app] in Hr.
  destruct (next_token_here l ws DQUOTE (chars s ++ DQUOTE :: SP :: r) Hr Hws eq_refl ltac:(discriminate)) as (l' & Hl' & Hnt).
  unfold lexes. rewrite Hnt. change (lex_byte DQUOTE l') with (lex_string_literal DQUOTE l'). unfold lex_string_literal.
  assert (rest (bump 1 l') = chars s ++ DQUOTE :: SP :: r) as Hb by (by rewrite rest_bump, Hl').
  rewrite Hb, string_end_plain by done. eexists. split.
  - do 3 f_equal. rewrite slice_rest, Hb, take_app_length. apply text_chars.
  - rewrite rest_bump, Hb. rewrite <- drop_drop, drop_app_length. done.
Qed.

(** A symbol: the branch of its first byte, and its second one if it has two. *)
Ltac lex_symbol Hb :=
  let ws := fresh in let Hws := fresh in let Hr := fresh in let l := fresh in let Hl := fresh in let Hnt := fresh in
  destruct Hb as (ws & Hws & Hr); cbn in Hr; eapply next_token_here in Hr as (l & Hl & Hnt); [|done|done|done];
  unfold lexes; rewrite Hnt; unfold lex_byte; rewrite ?byte_at_lookup, ?Hl; cbn;
  eexists; (split; [reflexivity|by rewrite rest_bump, Hl]).

Lemma next_token_text l t r : token_ok t = true → before l (token_text t) r → lexes l t r.
Proof.
  intros Ht Hb. assert (let w := text_of (token_text t) in word_ok w = true → keyword_or_ident w = t → lexes l t r) as Hword.
  { intros w Hw Hk. rewrite <- Hk. apply lex_word; [done|]. unfold w. by rewrite String.list_ascii_of_string_of_list_ascii. }
  destruct t; try (exact (Hword eq_refl eq_refl)); try done; try (lex_symbol Hb).
  - cbn [token_text] in Hword. rewrite text_chars in Hword. change (ident_ok s = true) in Ht. unfold ident_ok in Ht.
    rewrite andb_true_iff, bool_decide_eq_true in Ht. destruct Ht. by apply Hword.
  - by apply lex_string.
  - by apply lex_digits.
Qed.
