(* ===== verification/QueryRoundtrip.v ===== *)
(** Printing a query and parsing it back gives its AST. *)

From Stdlib Require Import Ascii.
From stdpp Require Import base gmap strings numbers list.
From S2P Require Import Prelude.
From S2P Require Import Floats.
From S2P Require Import Graph.
From S2P Require Import QueryLexer.
From S2P Require Import QueryAst.
From S2P Require Import QueryParser.
From S2P Require Import QueryParserFacts.
From S2P Require Import QueryPrint.

#[local] Open Scope parser_scope.

(** ** Parsers over printed tokens *)

Section roundtrip.
Context (labels rels : Catalog).

(** The lexer of [p] stands before the printed tokens [ts]; the catalogs are as at
    the start. *)
Definition feeds (p : Parser) (ts : list Token) : Prop :=
  (forallb token_ok ts = true ∧ pr_labels p = labels ∧ pr_rels p = rels) ∧
  ∃ ws, forallb is_ascii_whitespace ws = true ∧ rest (pr_lex p) = ws ++ print_tokens ts.

Definition first (ts : list Token) : Token := match ts with t :: _ => t | [] => T_Eof end.

(** [m] succeeds from [p]. *)
Definition reads {A} (m : P A) (p : Parser) (Q : A → Parser → Prop) : Prop :=
  ∃ x p', m p = Some (Ok x, p') ∧ Q x p'.

Lemma feeds_cons p t ts : feeds p (t :: ts) →
  ∃ l, next_token (pr_lex p) = (Ok t, l) ∧ feeds (p <| pr_lex := l |>) ts.
Proof.
  intros [(Hok & HL & HR) (ws & Hws & Hr)]. cbn [forallb] in Hok. apply andb_true_iff in Hok as [Ht Hok].
  destruct (next_token_text (pr_lex p) t (print_tokens ts)) as (l & Hl & Hrest); [done| |].
  - exists ws. split; [done|]. rewrite Hr. unfold print_tokens. cbn [mbind list_bind]. by rewrite <- app_assoc.
  - exists l. split; [done|]. split; [done|]. by exists [SP].
Qed.

Lemma feeds_nil p : feeds p [] → ∃ l, next_token (pr_lex p) = (Ok T_Eof, l).
Proof.
  intros [_ (ws & Hws & Hr)]. cbn in Hr. rewrite app_nil_r in Hr. unfold next_token.
  assert (rest (skip_whitespace_and_comments (pr_lex p)) = []) as Hs.
  { unfold skip_whitespace_and_comments. assert (span is_ascii_whitespace (rest (pr_lex p)) = length (rest (pr_lex p))) as E.
    { rewrite Hr. clear Hr. induction ws as [|c ws IH]; [done|]. cbn [forallb span length] in *.
      apply andb_true_iff in Hws as [-> Hws]. by rewrite IH. }
    assert (rest (bump (span is_ascii_whitespace (rest (pr_lex p))) (pr_lex p)) = []) as Hb.
    { rewrite rest_bump, E. apply drop_all. }
    destruct (length (rest (pr_lex p))); cbn [skip_loop]; [done|]. by rewrite byte_at_lookup, Hb. }
  rewrite byte_at_lookup, Hs. by eexists.
Qed.

Lemma reads_ret {A} (x : A) p (Q : A → Parser → Prop) : Q x p → reads (ret x) p Q.
Proof. intros H. by exists x, p. Qed.

Lemma reads_bind {A B} (m : P A) (k : A → P B) p (Q : B → Parser → Prop) :
  reads m p (λ x p', reads (k x) p' Q) → reads (bind m k) p Q.
Proof. intros (x & p1 & E1 & y & p2 & E2 & HQ). exists y, p2. unfold bind. by rewrite E1. Qed.

Lemma reads_peek p ts Q : feeds p ts → Q (first ts) p → reads peek p Q.
Proof.
  intros Hf HQ. exists (first ts), p. split; [|done]. unfold peek, lift_lex, lex_peek. destruct p as [l c1 c2].
  destruct ts as [|t ts]; [destruct (feeds_nil _ Hf) as [l' E]|destruct (feeds_cons _ _ _ Hf) as (l' & E & _)]; cbn [pr_lex] in *; by rewrite E.
Qed.

Lemma reads_advance p t ts Q : feeds p (t :: ts) → (∀ p', feeds p' ts → Q t p') → reads advance p Q.
Proof.
  intros Hf HQ. destruct (feeds_cons _ _ _ Hf) as (l & E & Hf'). exists t, (p <| pr_lex := l |>).
  split_and!; [|by apply HQ]. unfold advance, lift_lex, lex_advance. by rewrite E.
Qed.

Lemma reads_next_is t p ts Q : feeds p ts → Q (tok_eq_kind (first ts) t) p → reads (next_is t) p Q.
Proof. intros Hf HQ. apply reads_bind, (reads_peek p ts); [done|]. by apply reads_ret. Qed.

Ltac decide_tokens :=
  repeat match goal with
  | |- context [bool_decide (@eq Token ?a ?b)] =>
      first [rewrite (bool_decide_true (a = b)) by reflexivity | rewrite (bool_decide_false (a = b)) by discriminate]
  end.

(** Runs a parser against the tokens it is known to stand before. *)
Ltac read_step :=
  lazymatch goal with
  | |- reads (bind _ _) _ _ => apply reads_bind
  | |- reads (ret _) _ _ => apply reads_ret
  | H : feeds ?p ?ts |- reads peek ?p _ => apply (reads_peek p ts _ H)
  | H : feeds ?p (?t :: ?ts) |- reads advance ?p _ =>
      let q := fresh "p" in let H' := fresh "Hf" in apply (reads_advance p t ts _ H); intros q H'; clear H
  | H : feeds ?p ?ts |- reads (next_is ?t) ?p _ => apply (reads_next_is t p ts _ H)
  end; cbn [first ident_text tok_eq_kind]; decide_tokens; cbn beta iota.
Ltac read := repeat read_step.

Ltac feed_simpl :=
  repeat match goal with H : feeds _ _ |- _ => progress (cbn [app] in H; rewrite <- ?app_assoc in H; cbn [app] in H) end.

(** A lemma about a parser, applied to the tokens it stands before. *)
Ltac read_with tac :=
  lazymatch goal with
  | H : feeds ?p _ |- reads _ ?p _ => tac H; clear H; let q := fresh "p" in let Hq := fresh "Hf" in intros q Hq
  end.

Lemma reads_ident p s ts Q : feeds p (T_Ident s :: ts) → (∀ p', feeds p' ts → Q s p') → reads expect_ident p Q.
Proof. intros Hf HQ. unfold expect_ident. read. by apply HQ. Qed.

Lemma reads_rparen p ts Q : feeds p (T_RParen :: ts) → (∀ p', feeds p' ts → Q tt p') → reads expect_rparen p Q.
Proof. intros Hf HQ. unfold expect_rparen. read. by apply HQ. Qed.

Lemma reads_lparen p ts Q : feeds p (T_LParen :: ts) → (∀ p', feeds p' ts → Q tt p') → reads expect_lparen p Q.
Proof. intros Hf HQ. unfold expect_lparen. read. by apply HQ. Qed.

(** ** Decimal numbers *)

Definition digit (n : N) : ascii := ascii_of_N (48 + n).
Fixpoint digits (fuel : nat) (n : N) : list ascii :=
  match fuel with
  | O => [digit (n mod 10)]
  | S fuel => if (n <? 10)%N then [digit n] else digits fuel (n / 10)%N ++ [digit (n mod 10)]
  end.
Definition print_N (n : N) : string := text_of (digits (N.size_nat n) n).

Lemma digit_byte n : (n < 10)%N → byte_code (digit n) = (48 + n)%N.
Proof. intros H. unfold byte_code, digit. apply N_ascii_embedding. lia. Qed.

Lemma digit_is_digit n : (n < 10)%N → is_digit (digit n) = true ∧ digit_value (digit n) = n.
Proof.
  intros H. unfold is_digit, between, digit_value. rewrite digit_byte by done.
  split; [|lia]. apply andb_true_iff. split; apply N.leb_le; cbn; lia.
Qed.

Lemma digits_spec fuel : ∀ n, (n < 2 ^ N.of_nat (S fuel))%N →
  decimal (digits fuel n) = n ∧ forallb is_digit (digits fuel n) = true ∧ digits fuel n ≠ [].
Proof.
  induction fuel as [|fuel IH]; intros n Hn; cbn [digits].
  - assert (n < 10)%N as H10 by (cbn in Hn; lia). rewrite N.mod_small by done. destruct (digit_is_digit n H10) as [H1 H2].
    unfold decimal. cbn [foldl forallb]. rewrite H1, H2. split_and!; [lia|done|done].
  - destruct (N.ltb_spec n 10) as [H10|H10].
    + destruct (digit_is_digit n H10) as [H1 H2]. unfold decimal. cbn [foldl forallb]. rewrite H1, H2. split_and!; [lia|done|done].
    + destruct (digit_is_digit (n mod 10)) as [H1 H2]; [by apply N.mod_lt|].
      destruct (IH (n / 10)%N) as (E1 & E2 & _).
      { rewrite Nat2N.inj_succ, N.pow_succ_r in Hn by lia. apply N.Div0.div_lt_upper_bound. lia. }
      unfold decimal in *. rewrite foldl_app, forallb_app. cbn [foldl forallb]. rewrite E1, E2, H1, H2.
      split_and!; [symmetry; apply N.div_mod; lia|done|by destruct (digits fuel _)].
Qed.

Lemma print_N_spec n : decimal (chars (print_N n)) = n ∧ digits_ok (print_N n) = true.
Proof.
  destruct (digits_spec (N.size_nat n) n) as (E1 & E2 & E3).
  { pose proof (N.size_gt n) as H. rewrite Nat2N.inj_succ, N.pow_succ_r by lia.
    assert (N.of_nat (N.size_nat n) = N.size n) as ->; [|lia].
    destruct n as [|p]; [done|]. cbn [N.size_nat N.size].
    clear H. induction p as [p IH|p IH|]; cbn [Pos.size_nat Pos.size]; by rewrite ?Nat2N.inj_succ, ?IH. }
  unfold digits_ok, print_N. rewrite String.list_ascii_of_string_of_list_ascii, E1, E2.
  split; [done|]. rewrite andb_true_r. apply negb_true_iff, bool_decide_eq_false. intros E.
  apply E3. rewrite <- (String.list_ascii_of_string_of_list_ascii (digits _ n)), E. done.
Qed.

Lemma parse_print_N n max : (n ≤ max)%N → parse_digits max (print_N n) = Some n.
Proof. intros Hle%N.leb_le. destruct (print_N_spec n) as [E _]. unfold parse_digits. by rewrite E, Hle. Qed.

(** ** Predicates *)

(** What the language can write: no floats, no negative numbers. *)
Definition literal_ok (v : JsonValue) : bool :=
  match v with
  | JNull | JBool _ => true
  | JNumber (PosInt n) => (n <=? i64_max)%N
  | JNumber _ => false
  | JString s => string_ok s
  end.
Definition print_literal (v : JsonValue) : Token :=
  match v with
  | JNull => T_Null
  | JBool b => if b then T_True else T_False
  | JNumber (PosInt n) => T_IntLit (print_N n)
  | JNumber _ => T_Null
  | JString s => T_StringLit s
  end.

Definition value_ok (v : PredicateValue) : bool :=
  match v with
  | V_Literal v => literal_ok v
  | V_Parameter s => ident_ok s
  | V_PropertyRef a k => ident_ok a && ident_ok k
  end.
Definition print_value (v : PredicateValue) : list Token :=
  match v with
  | V_Literal v => [print_literal v]
  | V_Parameter s => [T_Dollar; T_Ident s]
  | V_PropertyRef a k => [T_Ident a; T_Dot; T_Ident k]
  end.

Fixpoint pred_ok (q : ScalarPredicate) : bool :=
  match q with
  | P_Eq a b | P_Ne a b | P_Lt a b | P_Le a b | P_Gt a b | P_Ge a b => value_ok a && value_ok b
  | P_IsNull a | P_IsNotNull a => value_ok a
  | P_And p q | P_Or p q => pred_ok p && pred_ok q
  | P_Not q => pred_ok q
  end.

(** Conjunctions and disjunctions are put in parentheses. *)
Fixpoint print_pred (q : ScalarPredicate) : list Token :=
  match q with
  | P_Eq a b => print_value a ++ [T_Eq] ++ print_value b
  | P_Ne a b => print_value a ++ [T_Ne] ++ print_value b
  | P_Lt a b => print_value a ++ [T_Lt] ++ print_value b
  | P_Le a b => print_value a ++ [T_Le] ++ print_value b
  | P_Gt a b => print_value a ++ [T_Gt] ++ print_value b
  | P_Ge a b => print_value a ++ [T_Ge] ++ print_value b
  | P_IsNull a => print_value a ++ [T_Is; T_Null]
  | P_IsNotNull a => print_value a ++ [T_Is; T_Not; T_Null]
  | P_And p q => [T_LParen] ++ print_pred p ++ [T_And] ++ print_pred q ++ [T_RParen]
  | P_Or p q => [T_LParen] ++ print_pred p ++ [T_Or] ++ print_pred q ++ [T_RParen]
  | P_Not q => T_Not :: print_pred q
  end.

Lemma reads_literal v p ts Q :
  literal_ok v = true → feeds p (print_literal v :: ts) → (∀ p', feeds p' ts → Q v p') → reads parse_literal_value p Q.
Proof.
  intros Hv Hf HQ. unfold parse_literal_value. destruct v as [|b|[n|z|x]|s]; cbn [print_literal] in Hf; try done;
    try destruct b; read; try (by apply HQ).
  cbn in Hv. rewrite parse_print_N by (by apply N.leb_le). read.
  assert (number_of_i64 (Z.of_N n) = PosInt n) as ->; [|by apply HQ].
  unfold number_of_i64. replace (0 <=? Z.of_N n)%Z with true by (symmetry; apply Z.leb_le; lia). by rewrite N2Z.id.
Qed.

Lemma reads_value v p ts Q :
  value_ok v = true → feeds p (print_value v ++ ts) → (∀ p', feeds p' ts → Q v p') → reads parse_pred_value p Q.
Proof.
  intros Hv Hf HQ. unfold parse_pred_value. destruct v as [v|s|a k]; cbn [print_value app] in Hf.
  - assert (reads (let% v := parse_literal_value in ret (V_Literal v)) p Q) as Hgo.
    { read. eapply reads_literal; [exact Hv|exact Hf|]. intros p' Hp. read. by apply HQ. }
    destruct v as [|b|[n|z|x]|s]; cbn [print_literal] in Hf; try done; try destruct b;
      apply reads_bind, (reads_peek _ _ _ Hf); exact Hgo.
  - read. eapply reads_ident; [exact Hf0|]. intros p' Hp. read. by apply HQ.
  - read. eapply reads_ident; [exact Hf|]. clear Hf. intros p1 Hf. read. eapply reads_ident; [exact Hf0|]. intros p2 Hf2. read. by apply HQ.
Qed.

Lemma first_value v ts : value_ok v = true → first (print_value v ++ ts) ≠ T_Not ∧ first (print_value v ++ ts) ≠ T_LParen.
Proof. destruct v as [[|[]|[]|]| |]; done. Qed.

(** The comparison with its operator printed as [op]. *)
Lemma reads_comparison a b op f p ts Q :
  value_ok a = true → value_ok b = true → comparison_of op = Some f → 
  feeds p (print_value a ++ op :: print_value b ++ ts) → (∀ p', feeds p' ts → Q (f a b) p') → reads parse_comparison p Q.
Proof.
  intros Ha Hb Hop Hf HQ. unfold parse_comparison. apply reads_bind. eapply reads_value; [exact Ha|exact Hf|]. clear Hf.
  intros p1 Hf. apply reads_bind, (reads_peek _ _ _ Hf). cbn [first].
  assert (reads (advance ;;% (let% rhs := parse_pred_value in ret (f a rhs))) p1 Q) as Hgo.
  { read. eapply reads_value; [exact Hb|exact Hf0|]. intros p2 Hf2. read. by apply HQ. }
  destruct op; try done; injection Hop as <-; exact Hgo.
Qed.

Lemma reads_null_test a neg (f : PredicateValue → ScalarPredicate) p ts Q :
  value_ok a = true → f = (if neg : bool then P_IsNotNull else P_IsNull) →
  feeds p (print_value a ++ T_Is :: (if neg then [T_Not] else []) ++ T_Null :: ts) → (∀ p', feeds p' ts → Q (f a) p') →
  reads parse_comparison p Q.
Proof.
  intros Ha -> Hf HQ. unfold parse_comparison, parse_null. apply reads_bind. eapply reads_value; [exact Ha|exact Hf|]. clear Hf.
  intros p1 Hf. destruct neg; cbn [app] in Hf; read; by apply HQ.
Qed.

Fixpoint pred_depth (q : ScalarPredicate) : nat :=
  match q with
  | P_And p q | P_Or p q => 8 + Nat.max (pred_depth p) (pred_depth q)
  | P_Not q => S (pred_depth q)
  | _ => 2
  end.

Lemma tok_eq_false (x t : Token) : x ≠ t → t = T_Not ∨ t = T_LParen ∨ t = T_And ∨ t = T_Or ∨ t = T_Comma ∨ t = T_Limit →
  tok_eq_kind x t = false.
Proof.
  intros Hne Ht. assert (tok_eq_kind x t = bool_decide (x = t)) as ->.
  { destruct x; try done; by destruct Ht as [->|[->|[->|[->|[->| ->]]]]]. }
  by apply bool_decide_eq_false.
Qed.

(** One level of the recursion at a time. *)
Lemma or_pred_S fuel : parse_or_pred (S fuel) = (let% left := parse_and_pred fuel in or_loop fuel left).
Proof. reflexivity. Qed.
Lemma or_loop_S fuel left : or_loop (S fuel) left =
  (let% more := next_is T_Or in
   if more : bool then advance ;;% (let% right := parse_and_pred fuel in or_loop fuel (P_Or left right)) else ret left).
Proof. reflexivity. Qed.
Lemma and_pred_S fuel : parse_and_pred (S fuel) = (let% left := parse_not_pred fuel in and_loop fuel left).
Proof. reflexivity. Qed.
Lemma and_loop_S fuel left : and_loop (S fuel) left =
  (let% more := next_is T_And in
   if more : bool then advance ;;% (let% right := parse_not_pred fuel in and_loop fuel (P_And left right)) else ret left).
Proof. reflexivity. Qed.
Lemma not_pred_S fuel : parse_not_pred (S fuel) =
  (let% neg := next_is T_Not in
   if neg : bool then advance ;;% (let% inner := parse_not_pred fuel in ret (P_Not inner)) else parse_atom_pred fuel).
Proof. reflexivity. Qed.
Lemma atom_pred_S fuel : parse_atom_pred (S fuel) =
  (let% open := next_is T_LParen in
   if open : bool then advance ;;% (let% inner := parse_or_pred fuel in expect_rparen ;;% ret inner) else parse_comparison).
Proof. reflexivity. Qed.

Lemma reads_not_comparison fuel p ts Q :
  (2 ≤ fuel)%nat → feeds p ts → first ts ≠ T_Not → first ts ≠ T_LParen → reads parse_comparison p Q →
  reads (parse_not_pred fuel) p Q.
Proof.
  intros Hfuel Hf H1 H2 HQ. destruct fuel as [|[|fuel]]; [lia..|]. rewrite not_pred_S.
  apply reads_bind, (reads_next_is _ _ _ _ Hf). rewrite tok_eq_false by tauto. rewrite atom_pred_S.
  apply reads_bind, (reads_next_is _ _ _ _ Hf). by rewrite tok_eq_false by tauto.
Qed.

(** A predicate at the start of an operand list: no AND or OR follows. *)
Lemma reads_pred q : ∀ fuel p ts Q,
  pred_ok q = true → (pred_depth q ≤ fuel)%nat → feeds p (print_pred q ++ ts) → (∀ p', feeds p' ts → Q q p') →
  reads (parse_not_pred fuel) p Q.
Proof.
  assert (∀ a b op f fuel p ts Q, value_ok a && value_ok b = true → comparison_of op = Some f → (2 ≤ fuel)%nat →
    feeds p ((print_value a ++ [op] ++ print_value b) ++ ts) → (∀ p', feeds p' ts → Q (f a b) p') →
    reads (parse_not_pred fuel) p Q) as Hcmp.
  { intros a b op f fuel p ts Q [Ha Hb]%andb_true_iff Hop Hfuel Hf HQ. rewrite <- app_assoc in Hf. cbn [app] in Hf.
    rewrite <- ?app_assoc in Hf. cbn [app] in Hf. pose proof (first_value a (op :: print_value b ++ ts) Ha) as [H1 H2].
    eapply reads_not_comparison; [done|exact Hf|done|done|]. exact (reads_comparison a b op f p ts Q Ha Hb Hop Hf HQ). }
  assert (∀ a (neg : bool) f fuel p ts Q, value_ok a = true → f = (if neg then P_IsNotNull else P_IsNull) → (2 ≤ fuel)%nat →
    feeds p ((print_value a ++ T_Is :: (if neg then [T_Not] else []) ++ [T_Null]) ++ ts) → (∀ p', feeds p' ts → Q (f a) p') →
    reads (parse_not_pred fuel) p Q) as Hnull.
  { intros a neg f fuel p ts Q Ha Hop Hfuel Hf HQ. rewrite <- app_assoc in Hf. cbn [app] in Hf. rewrite <- ?app_assoc in Hf. cbn [app] in Hf.
    pose proof (first_value a (T_Is :: (if neg then [T_Not] else []) ++ T_Null :: ts) Ha) as [H1 H2].
    eapply reads_not_comparison; [done|exact Hf|done|done|]. exact (reads_null_test a neg f p ts Q Ha Hop Hf HQ). }
  induction q as [a b|a b|a b|a b|a b|a b|a|a|l IHl r IHr|l IHl r IHr|q IH]; intros fuel p ts Q Hok Hd Hf HQ;
    cbn [pred_ok pred_depth print_pred] in *.
  - exact (Hcmp a b T_Eq _ _ _ _ _ Hok eq_refl Hd Hf HQ).
  - exact (Hcmp a b T_Ne _ _ _ _ _ Hok eq_refl Hd Hf HQ).
  - exact (Hcmp a b T_Lt _ _ _ _ _ Hok eq_refl Hd Hf HQ).
  - exact (Hcmp a b T_Le _ _ _ _ _ Hok eq_refl Hd Hf HQ).
  - exact (Hcmp a b T_Gt _ _ _ _ _ Hok eq_refl Hd Hf HQ).
  - exact (Hcmp a b T_Ge _ _ _ _ _ Hok eq_refl Hd Hf HQ).
  - exact (Hnull a false _ _ _ _ _ Hok eq_refl Hd Hf HQ).
  - exact (Hnull a true _ _ _ _ _ Hok eq_refl Hd Hf HQ).
  - apply andb_true_iff in Hok as [Hl Hr]. do 8 (destruct fuel as [|fuel]; [lia|]).
    repeat (cbn [app] in Hf; rewrite <- ?app_assoc in Hf). rewrite not_pred_S. read. rewrite atom_pred_S. read. rewrite or_pred_S. read. rewrite and_pred_S. read.
    read_with ltac:(fun H => eapply IHl; [exact Hl|lia|exact H|]). rewrite and_loop_S. read.
    read_with ltac:(fun H => eapply IHr; [exact Hr|lia|exact H|]). rewrite and_loop_S. read. rewrite or_loop_S. read.
    read_with ltac:(fun H => eapply reads_rparen; [exact H|]). read. by apply HQ.
  - apply andb_true_iff in Hok as [Hl Hr]. do 8 (destruct fuel as [|fuel]; [lia|]).
    repeat (cbn [app] in Hf; rewrite <- ?app_assoc in Hf). rewrite not_pred_S. read. rewrite atom_pred_S. read. rewrite or_pred_S. read. rewrite and_pred_S. read.
    read_with ltac:(fun H => eapply IHl; [exact Hl|lia|exact H|]). rewrite and_loop_S. read. rewrite or_loop_S. read. rewrite and_pred_S. read.
    read_with ltac:(fun H => eapply IHr; [exact Hr|lia|exact H|]). rewrite and_loop_S. read. rewrite or_loop_S. read.
    read_with ltac:(fun H => eapply reads_rparen; [exact H|]). read. by apply HQ.
  - destruct fuel as [|fuel]; [lia|]. cbn [app] in Hf. rewrite not_pred_S. read.
    eapply IH; [done| |exact Hf0|]; [lia|]. intros p1 Hf1. read. by apply HQ.
Qed.

Lemma reads_or_pred q fuel p ts Q :
  pred_ok q = true → (pred_depth q + 2 ≤ fuel)%nat → feeds p (print_pred q ++ ts) → first ts ≠ T_And → first ts ≠ T_Or →
  (∀ p', feeds p' ts → Q q p') → reads (parse_or_pred fuel) p Q.
Proof.
  intros Hok Hd Hf H1 H2 HQ. assert (2 ≤ pred_depth q)%nat as H2d by (clear; induction q; cbn; lia).
  do 4 (destruct fuel as [|fuel]; [lia|]). rewrite or_pred_S. read. rewrite and_pred_S. read.
  eapply reads_pred; [done| |exact Hf|]; [lia|]. clear Hf. intros p1 Hf. rewrite and_loop_S.
  apply reads_bind, (reads_next_is _ _ _ _ Hf). rewrite tok_eq_false by tauto. read. rewrite or_loop_S.
  apply reads_bind, (reads_next_is _ _ _ _ Hf). rewrite tok_eq_false by tauto. read. by apply HQ.
Qed.

(** ** Queries *)

(** A step of a path: the type of the relationship, if given, with the identifier
    the catalog has for it. *)
Record Hop := mkHop {
  h_type : option (string * RelTypeId);
  h_direction : Direction;
  h_min : N;
  h_max : N;
  h_dst : string
}.
Record Chain := mkChain { ch_start : string; ch_hops : list Hop }.
Record Query := mkQuery {
  q_chains : list Chain;
  q_where : option ScalarPredicate;
  q_items : list ReturnItem;
  q_limit : option N
}.

Definition print_node (a : string) : list Token := [T_LParen; T_Ident a; T_RParen].
Definition print_hop (h : Hop) : list Token :=
  (match h_direction h with Incoming => [T_Lt; T_Dash] | _ => [T_Dash] end) ++ [T_LBracket] ++
  (match h_type h with Some (t, _) => [T_Colon; T_Ident t] | None => [] end) ++
  [T_Star; T_IntLit (print_N (h_min h)); T_DotDot; T_IntLit (print_N (h_max h)); T_RBracket; T_Dash] ++
  (match h_direction h with Outgoing => [T_Gt] | _ => [] end) ++ print_node (h_dst h).
Definition print_chain (c : Chain) : list Token := print_node (ch_start c) ++ (ch_hops c ≫= print_hop).
(** Separated by commas *)
Fixpoint print_list {A} (print : A → list Token) (l : list A) : list Token :=
  match l with
  | [] => []
  | [x] => print x
  | x :: l => print x ++ T_Comma :: print_list print l
  end.
Definition print_item (i : ReturnItem) : list Token :=
  match i with R_Alias a => [T_Ident a] | R_PropertyRef a k => [T_Ident a; T_Dot; T_Ident k] end.
Definition print_query (q : Query) : list Token :=
  [T_Match] ++ print_list print_chain (q_chains q) ++
  (match q_where q with Some w => T_Where :: print_pred w | None => [] end) ++
  [T_Return] ++ print_list print_item (q_items q) ++
  (match q_limit q with Some n => [T_Limit; T_IntLit (print_N n)] | None => [] end).

(** The AST: each step starts where the one before it ended. *)
Definition hop_pattern (src : string) (h : Hop) : GraphPattern :=
  PatExpand (mkExpandSpec src None (snd <$> h_type h) (h_dst h) (h_direction h) (h_min h) (h_max h)).
Fixpoint hop_patterns (src : string) (hs : list Hop) : list GraphPattern :=
  match hs with
  | [] => []
  | h :: hs => hop_pattern src h :: hop_patterns (h_dst h) hs
  end.
Definition chain_patterns (c : Chain) : list GraphPattern :=
  NodePattern (ch_start c) None [] :: hop_patterns (ch_start c) (ch_hops c).
Definition ast_of (q : Query) : QueryAst :=
  mkAst None (q_chains q ≫= chain_patterns) (option_list (q_where q)) (mkReturn (q_items q) (q_limit q)) [].

(** Every word can be written, relationship types are known, hop counts fit a byte
    and numbers their width. *)
Definition hop_ok (h : Hop) : Prop :=
  ident_ok (h_dst h) = true ∧ (h_min h < 256)%N ∧ (h_max h < 256)%N ∧
  match h_type h with Some (t, id) => ident_ok t = true ∧ name_to_id rels !! t = Some id | None => True end.
Definition item_ok (i : ReturnItem) : Prop :=
  match i with R_Alias a => ident_ok a = true | R_PropertyRef a k => ident_ok a = true ∧ ident_ok k = true end.
Record query_ok (q : Query) : Prop := {
  qo_chains : Forall (λ c, ident_ok (ch_start c) = true ∧ Forall hop_ok (ch_hops c)) (q_chains q);
  qo_some : q_chains q ≠ [];
  qo_where w : q_where q = Some w → pred_ok w = true;
  qo_items : Forall item_ok (q_items q);
  qo_item : q_items q ≠ [];
  qo_limit n : q_limit q = Some n → (n ≤ u64_max)%N
}.

Lemma reads_node fuel a p ts Q :
  feeds p (print_node a ++ ts) → (∀ p', feeds p' ts → Q (Some a, None, []) p') → reads (parse_node_spec fuel) p Q.
Proof.
  intros Hf HQ. unfold parse_node_spec, opt_ident, opt_label. cbn [print_node app] in Hf.
  apply reads_bind. read_with ltac:(fun H => eapply reads_lparen; [exact H|]). read.
  read_with ltac:(fun H => eapply reads_ident; [exact H|]). read.
  read_with ltac:(fun H => eapply reads_rparen; [exact H|]). read. by apply HQ.
Qed.

Lemma reads_uint n p ts Q :
  (n ≤ u64_max)%N → feeds p (T_IntLit (print_N n) :: ts) → (∀ p', feeds p' ts → Q n p') → reads expect_uint p Q.
Proof. intros Hn Hf HQ. unfold expect_uint. read. rewrite parse_print_N by done. read. by apply HQ. Qed.

Lemma reads_rel_type t p ts Q :
  match t with Some (t, id) => name_to_id rels !! t = Some id | None => first ts ≠ T_Colon end →
  feeds p ((match t with Some (t, _) => [T_Colon; T_Ident t] | None => [] end) ++ ts) →
  (∀ p', feeds p' ts → Q (snd <$> t) p') → reads opt_rel_type p Q.
Proof.
  intros Ht Hf HQ. unfold opt_rel_type. destruct t as [[t id]|]; cbn [app] in Hf.
  - read. read_with ltac:(fun H => eapply reads_ident; [exact H|]). exists (Some id), p1. split; [|by apply HQ].
    pose proof Hf as [(_ & _ & HR) _]. unfold get_or_register_rel, rel_get_or_register. rewrite HR, Ht. destruct p1. cbn in *. by subst.
  - apply reads_bind, (reads_next_is _ _ _ _ Hf). assert (tok_eq_kind (first ts) T_Colon = false) as ->; [|read; by apply HQ].
    destruct (first ts); try done.
Qed.

Lemma reads_hop_spec h p ts Q :
  hop_ok h →
  feeds p ((match h_type h with Some (t, _) => [T_Colon; T_Ident t] | None => [] end) ++
    [T_Star; T_IntLit (print_N (h_min h)); T_DotDot; T_IntLit (print_N (h_max h)); T_RBracket] ++ ts) →
  (∀ p', feeds p' ts → Q (None, snd <$> h_type h, h_min h, h_max h) p') → reads parse_rel_spec p Q.
Proof.
  intros (_ & Hmin & Hmax & Ht) Hf HQ. unfold parse_rel_spec. apply reads_bind.
  assert (reads opt_ident p (λ r p', p' = p ∧ r = None)) as (x & p' & E & -> & ->).
  { unfold opt_ident. destruct (h_type h) as [[t id]|]; cbn [app] in Hf; read; done. }
  exists None, p. split; [done|]. apply reads_bind.
  read_with ltac:(fun H => eapply reads_rel_type; [|exact H|]; [destruct (h_type h) as [[t id]|]; [by destruct Ht|done]|]).
  unfold parse_hops. feed_simpl. read.
  read_with ltac:(fun H => eapply reads_uint; [|exact H|]; [unfold u64_max; lia|]). read.
  read_with ltac:(fun H => eapply reads_uint; [|exact H|]; [unfold u64_max; lia|]). read.
  unfold u8_cast. cbn [fst snd]. rewrite !N.mod_small by lia. by apply HQ.
Qed.

Lemma reads_prefix d p ts Q :
  feeds p ((match d with Incoming => [T_Lt; T_Dash] | _ => [T_Dash] end) ++ ts) →
  (∀ p', feeds p' ts → Q (Some (bool_decide (d = Incoming))) p') → reads rel_prefix p Q.
Proof. intros Hf HQ. unfold rel_prefix. destruct d; cbn [app] in Hf; read; by apply HQ. Qed.

Lemma reads_suffix d p ts Q :
  first ts ≠ T_Gt → feeds p (T_Dash :: (match d with Outgoing => [T_Gt] | _ => [] end) ++ ts) →
  (∀ p', feeds p' ts → Q (bool_decide (d = Outgoing)) p') → reads outgoing_suffix p Q.
Proof.
  intros Hne Hf HQ. assert (tok_eq_kind (first ts) T_Gt = false) as Hgt by (by destruct (first ts)).
  unfold outgoing_suffix. destruct d; cbn [app] in Hf; read; rewrite ?Hgt; read; by apply HQ.
Qed.

Lemma reads_hop fuel start out h p ts Q :
  hop_ok h →
  feeds p (T_LBracket :: (match h_type h with Some (t, _) => [T_Colon; T_Ident t] | None => [] end) ++
    [T_Star; T_IntLit (print_N (h_min h)); T_DotDot; T_IntLit (print_N (h_max h)); T_RBracket] ++
    T_Dash :: (match h_direction h with Outgoing => [T_Gt] | _ => [] end) ++ print_node (h_dst h) ++ ts) →
  (∀ p', feeds p' ts → Q (out ++ [hop_pattern (actual_src start out) h]) p') →
  reads (parse_hop fuel (Some start) false (bool_decide (h_direction h = Incoming)) out) p Q.
Proof.
  intros Hh Hf HQ. unfold parse_hop. read.
  read_with ltac:(fun H => eapply (reads_hop_spec h); [done|exact H|]). read.
  read_with ltac:(fun H => eapply (reads_suffix (h_direction h)); [|exact H|]; [done|]). read.
  read_with ltac:(fun H => eapply (reads_node fuel (h_dst h)); [exact H|]). read. cbn [push_dst default].
  unfold hop_pattern in HQ. replace (direction_of _ _) with (h_direction h) by (by destruct (h_direction h)). by apply HQ.
Qed.

(** The steps of a chain, from the node [cur] reached so far. *)
Lemma reads_chain start hs : ∀ fuel cur out p ts Q,
  Forall hop_ok hs → (length hs < fuel)%nat → out ≠ [] → actual_src start out = cur →
  first ts ≠ T_Dash → first ts ≠ T_Lt →
  feeds p ((hs ≫= print_hop) ++ ts) → (∀ p', feeds p' ts → Q (out ++ hop_patterns cur hs) p') →
  reads (chain_loop fuel (Some start) false out) p Q.
Proof.
  induction hs as [|h hs IH]; intros fuel cur out p ts Q Hok Hfuel Hout Hsrc H1 H2 Hf HQ;
    (destruct fuel as [|fuel]; [cbn in Hfuel; lia|]); cbn [chain_loop]; apply reads_bind.
  - cbn [mbind list_bind app] in Hf. unfold rel_prefix. apply reads_bind, (reads_peek _ _ _ Hf).
    cbn [hop_patterns] in HQ. rewrite app_nil_r in HQ. destruct (first ts); try done; apply reads_ret; read; by apply HQ.
  - inversion_clear Hok as [|? ? Hh Hhs]. cbn [mbind list_bind] in Hf. rewrite <- app_assoc in Hf.
    unfold print_hop at 1 in Hf. rewrite <- !app_assoc in Hf.
    read_with ltac:(fun H => eapply reads_prefix; [exact H|]). apply reads_bind.
    read_with ltac:(fun H => eapply (reads_hop (S fuel) start out h); [done|exact H|]).
    eapply (IH fuel (h_dst h)); [done|cbn in Hfuel; lia|by destruct out| |done|done|eassumption|].
    + unfold actual_src. rewrite last_snoc. destruct out as [|o out]; [done|]. rewrite length_app. cbn. by rewrite Nat.add_comm.
    + intros p' Hp'. rewrite <- app_assoc. rewrite Hsrc. by apply HQ.
Qed.
Lemma reads_pattern_chain fuel c out p ts Q :
  ident_ok (ch_start c) = true ∧ Forall hop_ok (ch_hops c) → (length (ch_hops c) < fuel)%nat →
  first ts ≠ T_Dash → first ts ≠ T_Lt → feeds p (print_chain c ++ ts) →
  (∀ p', feeds p' ts → Q (out ++ chain_patterns c) p') → reads (parse_pattern_chain fuel false out) p Q.
Proof.
  intros [Hs Hh] Hfuel H1 H2 Hf HQ. unfold parse_pattern_chain, print_chain in *. rewrite <- app_assoc in Hf. apply reads_bind.
  read_with ltac:(fun H => eapply (reads_node fuel (ch_start c)); [exact H|]).
  eapply (reads_chain (ch_start c) (ch_hops c) fuel (ch_start c)); [done|done|by destruct out| |done|done|eassumption|].
  - unfold actual_src. rewrite last_snoc. by destruct (_ <=? _)%nat.
  - intros p' Hp. rewrite <- app_assoc. by apply HQ.
Qed.

Lemma print_list_cons {A} (print : A → list Token) x y l :
  print_list print (x :: y :: l) = print x ++ T_Comma :: print_list print (y :: l).
Proof. reflexivity. Qed.

(** Chains, with the fuel each round leaves to the next. *)
Definition chains_fuel (cs : list Chain) : nat := sum_list_with (λ c, S (length (ch_hops c))) cs.

Lemma reads_match cs : ∀ fuel out p ts Q,
  Forall (λ c, ident_ok (ch_start c) = true ∧ Forall hop_ok (ch_hops c)) cs → cs ≠ [] → (chains_fuel cs < fuel)%nat →
  first ts ≠ T_Dash → first ts ≠ T_Lt → first ts ≠ T_Comma → feeds p (print_list print_chain cs ++ ts) →
  (∀ p', feeds p' ts → Q (out ++ (cs ≫= chain_patterns)) p') → reads (parse_match_patterns fuel false out) p Q.
Proof.
  induction cs as [|c cs IH]; intros fuel out p ts Q Hok Hne Hfuel H1 H2 H3 Hf HQ; [done|].
  inversion_clear Hok as [|? ? Hc Hcs]. destruct fuel as [|fuel]; [lia|]. unfold chains_fuel in Hfuel. cbn [sum_list_with] in Hfuel.
  cbn [parse_match_patterns]. apply reads_bind. destruct cs as [|c' cs].
  - cbn [print_list] in Hf. read_with ltac:(fun H => eapply (reads_pattern_chain (S fuel) c); [done|lia|exact H1|exact H2|exact H|]).
    apply reads_bind. lazymatch goal with H : feeds _ _ |- _ => apply (reads_next_is _ _ _ _ H) end.
    rewrite tok_eq_false by tauto. read. cbn [mbind list_bind] in HQ. rewrite app_nil_r in HQ. by apply HQ.
  - rewrite print_list_cons, <- app_assoc in Hf.
    read_with ltac:(fun H => eapply (reads_pattern_chain (S fuel) c); [done|lia| | |exact H|]; [done|done|]). feed_simpl. read.
    read_with ltac:(fun H => eapply (IH fuel); [done|done|unfold chains_fuel; cbn [sum_list_with] in *; lia|exact H1|exact H2|exact H3|exact H|]).
    rewrite <- app_assoc. by apply HQ.
Qed.

Lemma reads_item i p ts Q :
  item_ok i → first ts ≠ T_Dot → feeds p (print_item i ++ ts) → (∀ p', feeds p' ts → Q i p') → reads return_item p Q.
Proof.
  intros Hi Hne Hf HQ. assert (tok_eq_kind (first ts) T_Dot = false) as Hdot by (by destruct (first ts)).
  unfold return_item. destruct i as [a|a k]; cbn [print_item app] in Hf; apply reads_bind;
    read_with ltac:(fun H => eapply reads_ident; [exact H|]); read; rewrite ?Hdot.
  - read. by apply HQ.
  - read_with ltac:(fun H => eapply reads_ident; [exact H|]). read. by apply HQ.
Qed.

Lemma reads_items its : ∀ fuel acc p ts Q,
  Forall item_ok its → its ≠ [] → (length its < fuel)%nat → first ts ≠ T_Dot → first ts ≠ T_Comma →
  feeds p (print_list print_item its ++ ts) → (∀ p', feeds p' ts → Q (acc ++ its) p') → reads (return_items fuel acc) p Q.
Proof.
  induction its as [|i its IH]; intros fuel acc p ts Q Hok Hne Hfuel H1 H2 Hf HQ; [done|].
  inversion_clear Hok as [|? ? Hi His]. destruct fuel as [|fuel]; [cbn in Hfuel; lia|]. cbn [length] in Hfuel.
  cbn [return_items]. apply reads_bind.
  assert (∀ ts, ends_return (first (print_item i ++ ts)) = false) as Hstart by (by destruct i).
  destruct its as [|i' its].
  - cbn [print_list] in Hf. apply (reads_peek _ _ _ Hf). rewrite Hstart. apply reads_bind.
    read_with ltac:(fun H => eapply (reads_item i); [done|exact H1|exact H|]).
    apply reads_bind. lazymatch goal with H : feeds _ _ |- _ => apply (reads_next_is _ _ _ _ H) end.
    rewrite tok_eq_false by tauto. read. by apply HQ.
  - rewrite print_list_cons, <- app_assoc in Hf. apply (reads_peek _ _ _ Hf). rewrite Hstart. apply reads_bind.
    read_with ltac:(fun H => eapply (reads_item i); [done| |exact H|]; [done|]). feed_simpl. read.
    read_with ltac:(fun H => eapply (IH fuel); [done|done|cbn [length] in *; lia|exact H1|exact H2|exact H|]).
    rewrite <- app_assoc. by apply HQ.
Qed.
Definition print_limit (l : option N) : list Token :=
  match l with Some n => [T_Limit; T_IntLit (print_N n)] | None => [] end.

Lemma reads_return fuel its l p Q :
  Forall item_ok its → its ≠ [] → (length its < fuel)%nat → (∀ n, l = Some n → (n ≤ u64_max)%N) →
  feeds p (print_list print_item its ++ print_limit l) → (∀ p', feeds p' [] → Q (mkReturn its l) p') →
  reads (parse_return_clause fuel) p Q.
Proof.
  intros Hi Hne Hfuel Hl Hf HQ. unfold parse_return_clause. apply reads_bind. destruct l as [n|]; cbn [print_limit] in Hf;
    read_with ltac:(fun H => eapply (reads_items its fuel []); [done|done|done| | |exact H|]; [done|done|]); read.
  - read_with ltac:(fun H => eapply (reads_uint n); [by apply Hl|exact H|]). read. by apply HQ.
  - by apply HQ.
Qed.

(** A clause that starts at the current token, and the clauses after it. *)
Lemma reads_clause fuel ast t ts p Q :
  feeds p (t :: ts) → t ≠ T_Eof → reads (parse_clause (S fuel) t ast) p (λ ast' p', reads (parse_clauses fuel ast') p' Q) →
  reads (parse_clauses (S fuel) ast) p Q.
Proof.
  intros Hf Ht HQ. cbn [parse_clauses]. apply reads_bind, (reads_peek _ _ _ Hf). cbn [first].
  apply (reads_bind (parse_clause (S fuel) t ast) (λ ast, parse_clauses fuel ast)) in HQ. by destruct t.
Qed.

Definition query_size (q : Query) : nat :=
  chains_fuel (q_chains q) + match q_where q with Some w => pred_depth w + 2 | None => 0 end + length (q_items q) + 4.

Lemma reads_query q fuel p Q :
  query_ok q → (query_size q ≤ fuel)%nat → feeds p (print_query q) → (∀ p', feeds p' [] → Q (ast_of q) p') →
  reads (parse_clauses fuel empty_ast) p Q.
Proof.
  intros [Hc Hne Hw Hi Hine Hl] Hfuel Hf HQ. unfold query_size in Hfuel. unfold print_query in Hf. fold (print_limit (q_limit q)) in Hf.
  set (ast1 := empty_ast <| patterns := q_chains q ≫= chain_patterns |>).
  assert (∀ fuel ws p, (length (q_items q) + 2 ≤ fuel)%nat → ws = option_list (q_where q) →
    feeds p (T_Return :: print_list print_item (q_items q) ++ print_limit (q_limit q)) →
    reads (parse_clauses fuel (ast1 <| where_clause := ws |>)) p Q) as Hret.
  { clear p Hf fuel Hfuel. intros fuel ws p Hfuel -> Hf. destruct fuel as [|fuel]; [lia|].
    eapply reads_clause; [exact Hf|done|]. cbn [parse_clause]. read.
    read_with ltac:(fun H => eapply (reads_return (S fuel)); [done|done|lia|exact Hl|exact H|]). read.
    destruct fuel as [|fuel]; [lia|]. cbn [parse_clauses]. read. by apply HQ. }
  destruct fuel as [|fuel]; [lia|]. cbn [app] in Hf. eapply reads_clause; [exact Hf|done|]. cbn [parse_clause]. read.
  destruct (q_where q) as [w|] eqn:Ew.
  - read_with ltac:(fun H => eapply (reads_match (q_chains q) (S fuel) []); [done|done|lia| | | |exact H|]; [done|done|done|]). feed_simpl. read.
    destruct fuel as [|fuel]; [lia|].
    lazymatch goal with H : feeds _ _ |- _ => eapply reads_clause; [exact H|done|] end. cbn [parse_clause]. read.
    read_with ltac:(fun H => eapply (reads_or_pred w (S fuel)); [by apply Hw|lia|exact H|done|done|]). read.
    eapply (Hret fuel [w]); [lia|done|eassumption].
  - read_with ltac:(fun H => eapply (reads_match (q_chains q) (S fuel) []); [done|done|lia| | | |exact H|]; [done|done|done|]). read.
    eapply (Hret fuel []); [lia|done|eassumption].
Qed.
(** ** What is printed can be read, and is long enough *)

Abbreviation all_ok := (forallb token_ok).

Lemma value_tokens v : value_ok v = true → all_ok (print_value v) = true.
Proof.
  destruct v as [[|[]|[n|z|x]|s]|s|a k]; cbn [value_ok literal_ok print_value print_literal forallb token_ok]; try done.
  - intros _. by destruct (print_N_spec n) as [_ ->].
  - by intros ->.
  - by intros ->.
  - intros [-> ->]%andb_true_iff. done.
Qed.

Lemma pred_tokens w : pred_ok w = true → all_ok (print_pred w) = true.
Proof.
  induction w as [a b|a b|a b|a b|a b|a b|a|a|l IHl r IHr|l IHl r IHr|q IH]; cbn [pred_ok print_pred]; intros H;
    try (apply andb_true_iff in H as [H1 H2]); rewrite ?forallb_app; cbn [forallb];
    rewrite ?value_tokens, ?IHl, ?IHr, ?IH, ?forallb_app, ?IHr by done; done.
Qed.

Lemma hop_tokens h : hop_ok h → all_ok (print_hop h) = true.
Proof.
  intros (Hd & _ & _ & Ht). unfold print_hop, print_node. rewrite !forallb_app. cbn [forallb token_ok].
  destruct (print_N_spec (h_min h)) as [_ ->], (print_N_spec (h_max h)) as [_ ->]. rewrite Hd.
  destruct (h_type h) as [[t id]|]; cbn [forallb token_ok]; [destruct Ht as [-> _]|]; by destruct (h_direction h).
Qed.

Lemma list_tokens {A} (print : A → list Token) (l : list A) :
  (∀ x, x ∈ l → all_ok (print x) = true) → all_ok (print_list print l) = true.
Proof.
  induction l as [|x l IH]; intros Hl; [done|]. assert (all_ok (print x) = true) as Hx by (apply Hl; by left).
  destruct l as [|y l]; [done|]. rewrite print_list_cons, forallb_app, Hx. cbn [forallb token_ok andb].
  apply IH. intros; apply Hl; by right.
Qed.

Lemma query_tokens q : query_ok q → all_ok (print_query q) = true.
Proof.
  intros [Hc _ Hw Hi _ _]. unfold print_query. rewrite !forallb_app. cbn [forallb token_ok].
  rewrite !list_tokens.
  - destruct (q_where q) as [w|], (q_limit q) as [n|]; cbn [forallb token_ok]; rewrite ?pred_tokens by (by apply Hw); try done;
      by destruct (print_N_spec n) as [_ ->].
  - intros i Hin. rewrite Forall_forall in Hi. specialize (Hi i Hin). destruct i as [a|a k]; cbn in *; [by rewrite Hi|].
    destruct Hi as [-> ->]. done.
  - intros c Hin. rewrite Forall_forall in Hc. destruct (Hc c Hin) as [Hs Hh]. unfold print_chain, print_node.
    rewrite forallb_app. cbn [forallb token_ok]. rewrite Hs. cbn [andb].
    clear -Hh. induction Hh as [|h hs Hh _ IH]; [done|]. cbn [mbind list_bind]. by rewrite forallb_app, hop_tokens.
Qed.

Lemma print_list_length {A} (print : A → list Token) (size : A → nat) (l : list A) :
  (∀ x, (size x ≤ length (print x))%nat) → (sum_list_with size l ≤ length (print_list print l))%nat.
Proof.
  intros Hs. induction l as [|x l IH]; [done|]. pose proof (Hs x). destruct l as [|y l]; cbn [sum_list_with].
  - cbn [print_list]. lia.
  - rewrite print_list_cons, length_app. cbn [length sum_list_with] in *. lia.
Qed.

Lemma pred_depth_length w : (pred_depth w ≤ 8 * length (print_pred w))%nat.
Proof.
  assert (∀ v, 1 ≤ length (print_value v))%nat as Hv by (intros [| |]; cbn; lia).
  induction w as [a b|a b|a b|a b|a b|a b|a|a|l IHl r IHr|l IHl r IHr|q IH]; cbn [pred_depth print_pred];
    rewrite ?length_app; cbn [length]; rewrite ?length_app; cbn [length]; try (pose proof (Hv a)); lia.
Qed.

Lemma query_size_length q : (query_size q ≤ 8 * length (print_query q) + 4)%nat.
Proof.
  unfold query_size, print_query. rewrite !length_app. cbn [length].
  pose proof (print_list_length print_chain (λ c, S (length (ch_hops c))) (q_chains q)) as H1.
  pose proof (print_list_length print_item (λ _, 1%nat) (q_items q)) as H2.
  assert (sum_list_with (λ _ : ReturnItem, 1%nat) (q_items q) = length (q_items q)) as E.
  { clear. induction (q_items q) as [|i l IH]; [done|]. cbn. by rewrite IH. }
  unfold chains_fuel. rewrite E in H2. assert (∀ i, 1 ≤ length (print_item i))%nat as H3 by (intros [|]; cbn; lia).
  assert (∀ c, S (length (ch_hops c)) ≤ length (print_chain c))%nat as H4.
  { intros c. unfold print_chain, print_node. rewrite length_app. cbn [length]. enough (length (ch_hops c) ≤ length (ch_hops c ≫= print_hop))%nat by lia.
    clear. induction (ch_hops c) as [|h hs IH]; [done|]. rewrite bind_cons, length_app. cbn [length].
    assert (1 ≤ length (print_hop h))%nat by (unfold print_hop; rewrite !length_app; cbn [length]; lia). lia. }
  specialize (H1 H4). specialize (H2 H3). destruct (q_where q) as [w|]; [|cbn [length]; lia].
  pose proof (pred_depth_length w). cbn [length]. lia.
Qed.

Lemma print_tokens_length ts : (length ts ≤ length (print_tokens ts))%nat.
Proof.
  induction ts as [|t ts IH]; [done|]. unfold print_tokens in *. rewrite bind_cons, !length_app. cbn [length]. lia.
Qed.

(** The text of a query *)
Definition query_text (q : Query) : string := text_of (print_tokens (print_query q)).

Lemma reads_query_text q :
  query_ok q →
  reads (parse_clauses (query_fuel (query_text q)) empty_ast) (mkParser (lexer_new (query_text q)) labels rels)
    (λ ast p', ast = ast_of q ∧ feeds p' []).
Proof.
  intros Hq. assert (chars (query_text q) = print_tokens (print_query q)) as Hsrc by apply String.list_ascii_of_string_of_list_ascii.
  apply (reads_query q); [done| | |by intros].
  - unfold query_fuel. rewrite <- length_list_ascii, Hsrc. pose proof (query_size_length q).
    pose proof (print_tokens_length (print_query q)). lia.
  - split; [split_and!; [by apply query_tokens|done|done]|]. exists []. split; [done|]. exact Hsrc.
Qed.
End roundtrip.

(** C29: Printing a query and parsing the text gives back its AST: chains of
    steps with types, directions and hop bounds, a predicate over properties,
    parameters and literals nested to any depth, the returned items and the
    limit; the catalogs are left as they were. *)
Theorem parse_print_query labels rels q :
  query_ok rels q →
  ∃ p', parse_query (query_text q) labels rels = Some (Ok (ast_of q), p') ∧ pr_labels p' = labels ∧ pr_rels p' = rels.
Proof.
  intros Hq. destruct (reads_query_text labels rels q Hq) as (ast & p' & E & -> & (_ & HL & HR) & _). by exists p'.
Qed.
