(* ===== verification/QueryPlan.v ===== *)
(** From the AST to a physical plan: the logical plan (src/graph/query/logical.rs,
    planner.rs), the optimiser (optimizer.rs) and the lowering (physical.rs).

    The arguments an [Expand] and an [OptionalExpand] share are one record.
    [f64::powi], whose last bits Rust leaves to the platform, is a parameter of
    the cost model. *)

From stdpp Require Import base gmap strings numbers list.
From S2P Require Import Prelude.
From S2P Require Import Floats.
From S2P Require Import Graph.
From S2P Require Import QueryLexer.
From S2P Require Import QueryAst.
From S2P Require Import QueryParser.

(** ** Logical plans *)

Record ExpandArgs := mkExpandArgs {
  src_binding : SymbolId;
  rel_binding : option SymbolId;
  dst_binding : SymbolId;
  rel_type_filter : option RelTypeId;
  direction : Direction;
  lp_min_hops : N;
  lp_max_hops : N
}.

Inductive LogicalPlan :=
  | LP_NodeScan (binding : SymbolId) (label_filter : option LabelId) (predicates : list ScalarPredicate)
  | LP_VectorSeed (binding : SymbolId) (query_param : string) (k : N) (contract : VectorContract)
  | LP_Expand (input : LogicalPlan) (e : ExpandArgs)
  | LP_OptionalExpand (input : LogicalPlan) (e : ExpandArgs)
  | LP_Filter (input : LogicalPlan) (predicates : list ScalarPredicate)
  | LP_Project (input : LogicalPlan) (outputs : list SymbolId)
  | LP_Limit (input : LogicalPlan) (count : N).

Fixpoint output_bindings (p : LogicalPlan) : list SymbolId :=
  match p with
  | LP_NodeScan b _ _ | LP_VectorSeed b _ _ _ => [b]
  | LP_Expand input e | LP_OptionalExpand input e =>
      output_bindings input ++ option_list (rel_binding e) ++ [dst_binding e]
  | LP_Filter input _ | LP_Limit input _ => output_bindings input
  | LP_Project _ outputs => outputs
  end.

(** ** Planning *)

Definition node_of (p : GraphPattern) : option (string * option LabelId) :=
  match p with NodePattern alias label _ => Some (alias, label) | _ => None end.
Definition predicates_for (alias : string) (p : GraphPattern) : option (list ScalarPredicate) :=
  match p with
  | NodePattern a _ preds => if bool_decide (a = alias) then Some preds else None
  | _ => None
  end.

(** [iter().find_map(f)] *)
Definition find_map {A B} (f : A → option B) (l : list A) : option B := head (omap f l).

Definition binding_of (symbols : SymbolTable) (alias : string) : SymbolId := default 0%N (symbol_get alias symbols).

Definition root_scan (ast : QueryAst) (symbols : SymbolTable) : LogicalPlan :=
  match vector_match ast with
  | Some vm => LP_VectorSeed (binding_of symbols (vm_binding vm)) (vm_query_param vm) (vm_k vm) (vm_contract vm)
  | None =>
      match find_map node_of (patterns ast) with
      | Some (alias, label) =>
          LP_NodeScan (binding_of symbols alias) label (default [] (find_map (predicates_for alias) (patterns ast)))
      | None => LP_NodeScan 0 None []
      end
  end.

Definition expand_args (symbols : SymbolTable) (e : ExpandSpec) : ExpandArgs :=
  mkExpandArgs (binding_of symbols (src_alias e)) (r ← rel_alias e; symbol_get r symbols)
    (binding_of symbols (dst_alias e)) (pat_rel_type e) (pat_direction e) (min_hops e) (max_hops e).

Definition plan_pattern (symbols : SymbolTable) (plan : LogicalPlan) (p : GraphPattern) : LogicalPlan :=
  match p with
  | NodePattern _ _ _ => plan
  | PatExpand e => LP_Expand plan (expand_args symbols e)
  | PatOptionalExpand e => LP_OptionalExpand plan (expand_args symbols e)
  | HyperMatch ants ra rt conseqs dir =>
      LP_Expand plan (mkExpandArgs
        (default 0%N (head (omap (λ a, symbol_get a symbols) ants)))
        (r ← ra; symbol_get r symbols)
        (default 0%N (c ← head conseqs; symbol_get c symbols)) rt dir 1 1)
  end.

Definition output_symbols (ast : QueryAst) (symbols : SymbolTable) : list SymbolId :=
  omap (λ item, symbol_get (return_alias item) symbols) (ret_items (return_clause ast)).

Definition add_filter (preds : list ScalarPredicate) (plan : LogicalPlan) : LogicalPlan :=
  match preds with [] => plan | _ => LP_Filter plan preds end.
Definition add_project (outputs : list SymbolId) (plan : LogicalPlan) : LogicalPlan :=
  match outputs with [] => plan | _ => LP_Project plan outputs end.
Definition add_limit (limit : option N) (plan : LogicalPlan) : LogicalPlan :=
  match limit with Some n => LP_Limit plan n | None => plan end.

Definition build_logical_plan (ast : QueryAst) (symbols : SymbolTable) : LogicalPlan :=
  add_limit (ret_limit (return_clause ast))
    (add_project (output_symbols ast symbols)
      (add_filter (where_clause ast)
        (foldl (plan_pattern symbols) (root_scan ast symbols) (patterns ast)))).

(** ** The optimiser *)

Record GraphCardinalityStats := mkStats {
  st_nodes : N;
  st_edges : N;
  label_cardinality : gmap LabelId N;
  relationship_cardinality : gmap RelTypeId N;
  average_out_degree : f64;
  max_out_degree : N
}.

(** *** Statistics (src/graph/stats/cardinality.rs) *)

(** [*entry(k).or_insert(0) += 1] *)
Definition count_key (m : gmap N N) (k : N) : gmap N N := <[k := (default 0 (m !! k) + 1)%N]> m.

Definition label_bits (mask : N) : list LabelId := filter (λ i, N.testbit mask i = true) (N.of_nat <$> seq 0 64).

(** One live node: its labels, the largest and the total out-degree. *)
Definition scan_node (g : GraphGeneration) (b : AdjacencyBlock) (st : option (gmap LabelId N * nat * nat)) (v : NodeIndex) :
    option (gmap LabelId N * nat * nat) :=
  '(labels, most, sum) ← st;
  match arena_get v (gg_nodes g) with
  | None => Some (labels, most, sum)
  | Some rec =>
      d ← block_out_degree b v;
      Some (foldl count_key labels (label_bits (label_fast_mask rec)), Nat.max most d, (sum + d)%nat)
  end.

Definition rel_type_counts (g : GraphGeneration) : gmap RelTypeId N :=
  match edge_delta g with
  | Some d => foldl (λ m e, count_key m (rel_type e.2)) ∅ (live_edges d)
  | None => match gen_csr g with Some c => foldl count_key ∅ (csr_rel_types c) | None => ∅ end
  end.

Definition stats_compute (g : GraphGeneration) : option GraphCardinalityStats :=
  let ids := live_nodes (gg_nodes g) in
  b ← adjacency g;
  '(labels, most, sum) ← foldl (scan_node g b) (Some (∅, 0%nat, 0%nat)) ids;
  let average := if (length ids =? 0)%nat then f64_of_Z 0
                 else f64_div (f64_of_u64 (N.of_nat sum)) (f64_of_u64 (lenN ids)) in
  Some (mkStats (lenN ids) (N.of_nat (gen_edge_count g)) labels (rel_type_counts g) average (N.of_nat most)).

Definition selectivity (count total : N) : f64 :=
  if (total =? 0)%N then f64_of_Z 0 else f64_div (f64_of_u64 count) (f64_of_u64 total).
Definition label_selectivity (l : LabelId) (s : GraphCardinalityStats) : f64 :=
  selectivity (default 0%N (label_cardinality s !! l)) (st_nodes s).
Definition rel_type_selectivity (t : RelTypeId) (s : GraphCardinalityStats) : f64 :=
  selectivity (default 0%N (relationship_cardinality s !! t)) (st_edges s).

(** R1.  Under a filter over anything but a scan, only the input is rewritten. *)
Fixpoint push_filters_down (p : LogicalPlan) : LogicalPlan :=
  match p with
  | LP_Filter (LP_NodeScan b label existing) preds => LP_NodeScan b label (existing ++ preds)
  | LP_Filter input preds => LP_Filter (push_filters_down input) preds
  | LP_Expand input e => LP_Expand (push_filters_down input) e
  | LP_OptionalExpand input e => LP_OptionalExpand (push_filters_down input) e
  | LP_Limit input n => LP_Limit (push_filters_down input) n
  | LP_Project input outs => LP_Project (push_filters_down input) outs
  | _ => p
  end.

Fixpoint recurse_without_reorder (p : LogicalPlan) : LogicalPlan :=
  match p with
  | LP_Expand input e => LP_Expand (recurse_without_reorder input) e
  | LP_OptionalExpand input e => LP_OptionalExpand (recurse_without_reorder input) e
  | LP_Filter input preds => LP_Filter (recurse_without_reorder input) preds
  | LP_Limit input n => LP_Limit (recurse_without_reorder input) n
  | LP_Project input outs => LP_Project (recurse_without_reorder input) outs
  | _ => p
  end.

Section optimise.
Context (powi : f64 → N → f64).

Definition estimate_expand_fanout (stats : GraphCardinalityStats) (e : ExpandArgs) : f64 :=
  let degree :=
    match rel_type_filter e with
    | Some t =>
        if (0 <? st_nodes stats)%N
        then f64_div (f64_of_u64 (default 0%N (relationship_cardinality stats !! t))) (f64_of_u64 (st_nodes stats))
        else average_out_degree stats
    | None => average_out_degree stats
    end in
  let degree := if bool_decide (direction e = Undirected) then f64_mul degree (f64_of_Z 2) else degree in
  let lo := N.max (lp_min_hops e) 1 in
  let hi := N.max (lp_max_hops e) lo in
  foldl (λ fanout hop, f64_add fanout (powi degree (N.of_nat hop))) (f64_of_Z 0)
    (seq (N.to_nat lo) (N.to_nat hi - N.to_nat lo + 1)).

Definition independent (lower_input : LogicalPlan) (lower e : ExpandArgs) : bool :=
  let base := output_bindings lower_input in
  bool_decide (src_binding lower ∈ base) && bool_decide (src_binding e ∈ base) &&
  negb (dst_binding lower =? src_binding e)%N && negb (dst_binding e =? src_binding lower)%N &&
  negb (dst_binding lower =? dst_binding e)%N.

(** One mandatory expand over an optimised input. *)
Definition place_expand (stats : GraphCardinalityStats) (input : LogicalPlan) (e : ExpandArgs) : LogicalPlan :=
  match input with
  | LP_Expand lower_input lower =>
      if independent lower_input lower e &&
         f64_lt (estimate_expand_fanout stats e) (estimate_expand_fanout stats lower)
      then LP_Expand (LP_Expand lower_input e) lower
      else LP_Expand (LP_Expand lower_input lower) e
  | other => LP_Expand other e
  end.

(** R2 with statistics *)
Fixpoint reorder_with (stats : GraphCardinalityStats) (p : LogicalPlan) : LogicalPlan :=
  match p with
  | LP_Expand input e => place_expand stats (reorder_with stats input) e
  | LP_OptionalExpand input e => LP_OptionalExpand (reorder_with stats input) e
  | LP_Filter input preds => LP_Filter (reorder_with stats input) preds
  | LP_Limit input n => LP_Limit (reorder_with stats input) n
  | LP_Project input outs => LP_Project (reorder_with stats input) outs
  | _ => p
  end.

Definition reorder_expands_by_cost (p : LogicalPlan) (stats : option GraphCardinalityStats) : LogicalPlan :=
  match stats with
  | None => recurse_without_reorder p
  | Some stats => reorder_with stats p
  end.

Definition optimise (p : LogicalPlan) (stats : option GraphCardinalityStats) : LogicalPlan :=
  reorder_expands_by_cost (push_filters_down p) stats.
End optimise.

(** ** Physical plans *)

Record ExpandOp := mkExpandOp {
  src_col : nat;
  dst_col : nat;
  rel_col : option nat;
  op_rel_type_filter : option RelTypeId;
  op_direction : Direction;
  op_min_hops : N;
  op_max_hops : N;
  op_optional : bool
}.

Inductive PhysicalOp :=
  | PO_NodeScan (binding_col : nat) (label_filter : option LabelId)
  | PO_VectorSeed (binding_col : nat) (query_param : string) (k : N) (contract : VectorContract)
  | PO_Expand (e : ExpandOp)
  | PO_ShortestPath (src_col dst_col out_cost_col : nat) (weighted : bool)
  | PO_Filter (predicates : list ScalarPredicate)
  | PO_Limit (count : N)
  | PO_Project (keep_cols : list nat).

Record PhysicalPlan := mkPhysical {
  ops : list PhysicalOp;
  col_of : list (SymbolId * nat);
  output_cols : list nat
}.

(** The operators so far, the registry and the column counter. *)
Record Lowering := mkLowering { lw_ops : list PhysicalOp; lw_cols : list (SymbolId * nat); lw_next : nat }.

Definition find_col (s : SymbolId) (cols : list (SymbolId * nat)) : option nat :=
  snd <$> find_map (λ c, if (c.1 =? s)%N then Some c else None) cols.

Definition push_op (op : PhysicalOp) (st : Lowering) : Lowering :=
  mkLowering (lw_ops st ++ [op]) (lw_cols st) (lw_next st).
Definition new_col (s : SymbolId) (st : Lowering) : nat * Lowering :=
  (lw_next st, mkLowering (lw_ops st) (lw_cols st ++ [(s, lw_next st)]) (S (lw_next st))).

Definition lower_filter (preds : list ScalarPredicate) (st : Lowering) : Lowering :=
  match preds with [] => st | _ => push_op (PO_Filter preds) st end.

Definition lower_expand (e : ExpandArgs) (optional : bool) (st : Lowering) : Lowering :=
  let src := default 0%nat (find_col (src_binding e) (lw_cols st)) in
  let '(rel, st) := match rel_binding e with
                    | Some rb => let '(c, st) := new_col rb st in (Some c, st)
                    | None => (None, st) end in
  let '(dst, st) := new_col (dst_binding e) st in
  push_op (PO_Expand (mkExpandOp src dst rel (rel_type_filter e) (direction e)
                        (lp_min_hops e) (lp_max_hops e) optional)) st.

Fixpoint lower_node (p : LogicalPlan) (st : Lowering) : Lowering :=
  match p with
  | LP_NodeScan b label preds =>
      let '(col, st) := new_col b st in lower_filter preds (push_op (PO_NodeScan col label) st)
  | LP_VectorSeed b q k c => let '(col, st) := new_col b st in push_op (PO_VectorSeed col q k c) st
  | LP_Expand input e => lower_expand e false (lower_node input st)
  | LP_OptionalExpand input e => lower_expand e true (lower_node input st)
  | LP_Filter input preds => lower_filter preds (lower_node input st)
  | LP_Limit input n => push_op (PO_Limit n) (lower_node input st)
  | LP_Project input outs =>
      let st := lower_node input st in
      push_op (PO_Project (omap (λ s, find_col s (lw_cols st)) outs)) st
  end.

Definition lower (p : LogicalPlan) : PhysicalPlan :=
  let st := lower_node p (mkLowering [] [] 0) in
  mkPhysical (lw_ops st) (lw_cols st) (lw_cols st).*2.

(** ** The pipeline *)

Inductive CompileError := CE_Parse (e : ParseError) | CE_Semantic (es : list SemanticError).
Record CompiledQuery := mkCompiled {
  cq_plan : PhysicalPlan;
  cq_symbols : SymbolTable;
  cq_ast : QueryAst;
  column_names : list string
}.

Definition column_name (item : ReturnItem) : string :=
  match item with R_Alias a => a | R_PropertyRef a k => (a +:+ "." +:+ k)%string end.

Definition compile (powi : f64 → N → f64) (src : string) (labels rels : Catalog) (stats : option GraphCardinalityStats) :
    option (Result CompiledQuery CompileError * Parser) :=
  '(r, p) ← parse_query src labels rels;
  Some (match r with
        | Err e => Err (CE_Parse e)
        | Ok ast =>
            match analyse ast with
            | Err es => Err (CE_Semantic es)
            | Ok symbols =>
                let plan := lower (optimise powi (build_logical_plan ast symbols) stats) in
                Ok (mkCompiled plan symbols ast (column_name <$> ret_items (return_clause ast)))
            end
        end, p).
