(* ===== verification/QueryExec.v ===== *)
(** The columnar executor (src/graph/query/morsel.rs, executor.rs).

    [None] is a panic: an index out of range, or [node_at] on a column that is
    not a node column. *)

From stdpp Require Import base gmap sets strings numbers list.
From S2P Require Import Prelude.
From S2P Require Import Floats.
From S2P Require Import Graph.
From S2P Require Import QueryAst.
From S2P Require Import QueryPlan.

(** ** Morsels *)

Inductive BindingColumn :=
  | C_Node (v : list NodeIndex)
  | C_Relationship (v : list N)
  | C_Scalar (v : list b32).

Definition node_at (i : nat) (c : BindingColumn) : option NodeIndex :=
  match c with C_Node v => v !! i | _ => None end.

(** [indices.iter().map(|i| v[i]).collect()] *)
Definition gather {A} (indices : list nat) (v : list A) : option (list A) := mapM (λ i, v !! i) indices.
Definition column_gather (indices : list nat) (c : BindingColumn) : option BindingColumn :=
  match c with
  | C_Node v => C_Node <$> gather indices v
  | C_Relationship v => C_Relationship <$> gather indices v
  | C_Scalar v => C_Scalar <$> gather indices v
  end.

Record Morsel := mkMorsel { m_rows : nat; columns : list BindingColumn; selection : list bool }.
Definition morsel_empty : Morsel := mkMorsel 0 [] [].
Definition from_node_column (nodes : list NodeIndex) : Morsel :=
  mkMorsel (length nodes) [C_Node nodes] (replicate (length nodes) true).

Definition active_indices (m : Morsel) : list nat :=
  omap (λ e, if e.2 : bool then Some e.1 else None) (imap pair (selection m)).
Definition active_row_count (m : Morsel) : nat := length (filter (λ b, b = true) (selection m)).
Definition morsel_compact (m : Morsel) : option Morsel :=
  let active := active_indices m in
  cols ← mapM (column_gather active) (columns m);
  Some (mkMorsel (length active) cols (replicate (length active) true)).

(** ** Predicates *)

Definition f64_le (a b : f64) : bool :=
  match SpecFloat.SFcompare a b with Some Lt | Some Eq => true | _ => false end.

(** Neither the morsel nor the row is looked at: a predicate on a property or a
    parameter is taken to hold. *)
Fixpoint eval_predicate (p : ScalarPredicate) : bool :=
  match p with
  | P_Eq (V_Literal a) (V_Literal b) => json_eq a b
  | P_Ne (V_Literal a) (V_Literal b) => negb (json_eq a b)
  | P_Lt (V_Literal (JNumber a)) (V_Literal (JNumber b)) => f64_lt (as_f64 a) (as_f64 b)
  | P_Le (V_Literal (JNumber a)) (V_Literal (JNumber b)) => f64_le (as_f64 a) (as_f64 b)
  | P_Gt (V_Literal (JNumber a)) (V_Literal (JNumber b)) => f64_lt (as_f64 b) (as_f64 a)
  | P_Ge (V_Literal (JNumber a)) (V_Literal (JNumber b)) => f64_le (as_f64 b) (as_f64 a)
  | P_IsNull (V_Literal v) => json_is_null v
  | P_IsNotNull (V_Literal v) => negb (json_is_null v)
  | P_And l r => eval_predicate l && eval_predicate r
  | P_Or l r => eval_predicate l || eval_predicate r
  | P_Not q => negb (eval_predicate q)
  | _ => true
  end.

(** ** Expansion *)

Section exec.
Context (g : GraphGeneration) (vector_seeds : gmap string (list NodeIndex)).

Definition label_matches (label : option LabelId) (v : NodeIndex) : bool :=
  match label with
  | Some l =>
      if (l <? LABEL_FAST_SLOTS)%N
      then match arena_get v (gg_nodes g) with
           | Some rec => negb (N.land (label_fast_mask rec) (N.shiftl 1 l) =? 0)%N
           | None => false
           end
      else true
  | None => true
  end.

(** [expand_out] unless incoming, then [expand_in] unless outgoing *)
Definition neighbors (b : AdjacencyBlock) (f : option RelTypeId) (d : Direction) (v : NodeIndex) :
    option (list NodeIndex) :=
  out ← (if bool_decide (d = Incoming) then Some [] else expand_out b v f);
  inc ← (if bool_decide (d = Outgoing) then Some [] else expand_in b v f);
  Some (out.*1 ++ inc.*1).

(** The [collect] closure over one node's neighbours *)
Definition collect_new (keep : bool) (st : gset NodeIndex * list NodeIndex * list NodeIndex) (v : NodeIndex) :
    gset NodeIndex * list NodeIndex * list NodeIndex :=
  let '(visited, next, found) := st in
  if bool_decide (v ∈ visited) then st
  else ({[v]} ∪ visited, next ++ [v], if keep then found ++ [v] else found).

Definition expand_frontier (b : AdjacencyBlock) (f : option RelTypeId) (d : Direction) (keep : bool)
    (st : option (gset NodeIndex * list NodeIndex * list NodeIndex)) (u : NodeIndex) :
    option (gset NodeIndex * list NodeIndex * list NodeIndex) :=
  st ← st;
  vs ← neighbors b f d u;
  Some (foldl (collect_new keep) st vs).

(** [for depth in depth..=max_h], [n] rounds left *)
Fixpoint hop_loop (n : nat) (b : AdjacencyBlock) (f : option RelTypeId) (d : Direction) (min_h depth : nat)
    (visited : gset NodeIndex) (frontier found : list NodeIndex) : option (list NodeIndex) :=
  match n with
  | O => Some found
  | S n =>
      '(visited, next, found) ← foldl (expand_frontier b f d (min_h <=? depth)%nat) (Some (visited, [], found)) frontier;
      match next with
      | [] => Some found
      | _ => hop_loop n b f d min_h (S depth) visited next found
      end
  end.

(** What one source expands to. *)
Definition expand_source (b : AdjacencyBlock) (e : ExpandOp) (src : NodeIndex) : option (list NodeIndex) :=
  let min_h := Nat.max (N.to_nat (op_min_hops e)) 1 in
  let max_h := Nat.max (N.to_nat (op_max_hops e)) 1 in
  if (max_h =? 1)%nat then neighbors b (op_rel_type_filter e) (op_direction e) src
  else hop_loop max_h b (op_rel_type_filter e) (op_direction e) min_h 1 {[src]} [src] [].

(** The rows of the fan-out: index into the active rows, target, relationship. *)
Definition fanout_of (b : AdjacencyBlock) (e : ExpandOp) (s : nat * NodeIndex) :
    option (list (nat * NodeIndex * N)) :=
  dsts ← expand_source b e s.2;
  Some (match dsts with
        | [] => if op_optional e then [(s.1, u32_max, u32_max)] else []
        | _ => (λ v, (s.1, v, 0%N)) <$> dsts
        end).

Definition apply_expand (e : ExpandOp) (m : Morsel) : option Morsel :=
  if (m_rows m =? 0)%nat then Some m
  else
    let active := active_indices m in
    c ← (match active with [] => Some (C_Node []) | _ => columns m !! src_col e end);
    src_nodes ← mapM (λ i, node_at i c) active;
    b ← adjacency g;
    fan ← mapM (fanout_of b e) (imap pair src_nodes);
    let fan := concat fan in
    rows ← mapM (λ s, active !! s) fan.*1.*1;
    cols ← mapM (column_gather rows) (columns m);
    Some (mkMorsel (length fan)
      (cols ++ [C_Node fan.*1.*2] ++
       match rel_col e with Some _ => [C_Relationship fan.*2] | None => [] end)
      (replicate (length fan) true)).

(** ** Operators *)

Definition apply_filter (preds : list ScalarPredicate) (m : Morsel) : Morsel :=
  mkMorsel (m_rows m) (columns m) ((λ s, s && forallb eval_predicate preds) <$> selection m).

Fixpoint limit_selection (seen count : N) (sel : list bool) : list bool :=
  match sel with
  | [] => []
  | true :: sel => if (count <=? seen)%N then false :: limit_selection seen count sel
                   else true :: limit_selection (seen + 1) count sel
  | false :: sel => false :: limit_selection seen count sel
  end.

(** [PO_ShortestPath] is never produced by the lowering and not modelled. *)
Definition apply_op (op : PhysicalOp) (m : Morsel) : option Morsel :=
  match op with
  | PO_NodeScan _ label => Some (from_node_column (filter (λ v, label_matches label v = true) (live_nodes (gg_nodes g))))
  | PO_VectorSeed _ q _ _ => Some (from_node_column (default [] (vector_seeds !! q)))
  | PO_Expand e => apply_expand e m
  | PO_ShortestPath _ _ _ _ => None
  | PO_Filter preds => Some (apply_filter preds m)
  | PO_Limit count => Some (mkMorsel (m_rows m) (columns m) (limit_selection 0 count (selection m)))
  | PO_Project keep => Some (mkMorsel (m_rows m) (omap (λ c, columns m !! c) keep) (selection m))
  end.

Definition apply_ops (ops : list PhysicalOp) (m : Morsel) : option Morsel :=
  foldl (λ m op, m ← m; apply_op op m) (Some m) ops.

(** One cell: a missing column reads as [NodeIndex::MAX]. *)
Definition read_cell (m : Morsel) (row col : nat) : option NodeIndex :=
  match columns m !! col with
  | None => Some u32_max
  | Some c => node_at row c
  end.

Definition execute (p : PhysicalPlan) : option (list (list NodeIndex)) :=
  m ← apply_ops (ops p) morsel_empty;
  m ← morsel_compact m;
  mapM (λ row, mapM (read_cell m row) (output_cols p)) (seq 0 (m_rows m)).
End exec.

(** Mutation clauses become commands for the replicated log. *)
Definition compile_mutation (c : GraphMutationClause) : option GraphMutation :=
  match c with
  | M_CreateNode alias labels _ => Some (CreateNode alias labels ∅ None)
  | M_CreateRelationship src dst t _ w => Some (CreateRelationship 0 src dst t ∅ w)
  | M_DeleteAlias alias => Some (DeleteNode alias)
  | M_MergePattern _ => None
  end.
Definition compile_mutations (cs : list GraphMutationClause) : list GraphMutation := omap compile_mutation cs.
