(* ===== verification/QueryExecFacts.v ===== *)
(** The lowered plan, run by the columnar executor, computes the rows a logical
    plan denotes: operators, projection, limit and collection of the result; and
    variable-length expansion lists the nodes whose distance from the source lies
    within the hop bounds. *)

From stdpp Require Import base gmap sets strings numbers list.
From S2P Require Import Prelude.
From S2P Require Import Floats.
From S2P Require Import Graph.
From S2P Require Import QueryAst.
From S2P Require Import QueryPlan.
From S2P Require Import QueryExec.
From S2P Require Import GraphSearch.

(** ** What a logical plan denotes

    Rows bind symbols to nodes, in the order of the plan's bindings.  A missing
    neighbour of an optional expand is [u32::MAX]. *)

Abbreviation Row := (list (SymbolId * NodeIndex)).

Section denotation.
Context (scan : option LabelId → list NodeIndex) (seed : string → list NodeIndex)
  (nb : ExpandArgs → NodeIndex → list NodeIndex).

(** The first binding of [s]; the first column when there is none. *)
Definition row_lookup (s : SymbolId) (row : Row) : NodeIndex :=
  match find_map (λ b, if (b.1 =? s)%N then Some b.2 else None) row with
  | Some v => v
  | None => default u32_max (snd <$> head row)
  end.

Definition extend (e : ExpandArgs) (optional : bool) (row : Row) : list Row :=
  match nb e (row_lookup (src_binding e) row) with
  | [] => if optional then [row ++ [(dst_binding e, u32_max)]] else []
  | dsts => (λ d, row ++ [(dst_binding e, d)]) <$> dsts
  end.

Definition passing (preds : list ScalarPredicate) (rows : list Row) : list Row :=
  if forallb eval_predicate preds then rows else [].

Definition project_row (outs : list SymbolId) (row : Row) : Row :=
  omap (λ s, if bool_decide (s ∈ row.*1) then Some (s, row_lookup s row) else None) outs.

Fixpoint denote (p : LogicalPlan) : list Row :=
  match p with
  | LP_NodeScan b label preds => passing preds ((λ v, [(b, v)]) <$> scan label)
  | LP_VectorSeed b q _ _ => (λ v, [(b, v)]) <$> seed q
  | LP_Expand input e => denote input ≫= extend e false
  | LP_OptionalExpand input e => denote input ≫= extend e true
  | LP_Filter input preds => passing preds (denote input)
  | LP_Project input outs => project_row outs <$> denote input
  | LP_Limit input n => take (N.to_nat n) (denote input)
  end.
End denotation.

(** Scans, seeds, expands without a relationship binding, and filters. *)
Fixpoint is_core (p : LogicalPlan) : Prop :=
  match p with
  | LP_NodeScan _ _ _ | LP_VectorSeed _ _ _ _ => True
  | LP_Expand input e | LP_OptionalExpand input e => rel_binding e = None ∧ is_core input
  | LP_Filter input _ => is_core input
  | LP_Project _ _ | LP_Limit _ _ => False
  end.

Lemma denote_keys scan seed nb p row : is_core p → row ∈ denote scan seed nb p → row.*1 = output_bindings p.
Proof.
  revert row. induction p as [b l preds|b q k c|p IH e|p IH e|p IH preds|p IH outs|p IH n]; intros row Hc Hin; cbn in *; try done.
  - unfold passing in Hin. destruct (forallb _ _); [|by apply elem_of_nil in Hin].
    by apply list_elem_of_fmap in Hin as (v & -> & _).
  - by apply list_elem_of_fmap in Hin as (v & -> & _).
  - destruct Hc as [-> Hc]. apply list_elem_of_bind in Hin as (r & Hr & Hin). unfold extend in Hr.
    destruct (nb e _); [by apply elem_of_nil in Hr|]. apply list_elem_of_fmap in Hr as (d & -> & _).
    by rewrite fmap_app, (IH r).
  - destruct Hc as [-> Hc]. apply list_elem_of_bind in Hin as (r & Hr & Hin). unfold extend in Hr.
    destruct (nb e _); [apply list_elem_of_singleton in Hr as ->|apply list_elem_of_fmap in Hr as (d & -> & _)];
      by rewrite fmap_app, (IH r).
  - unfold passing in Hin. destruct (forallb _ _); [by apply IH|by apply elem_of_nil in Hin].
Qed.

Lemma output_bindings_nonempty p : is_core p → output_bindings p ≠ [].
Proof.
  induction p; cbn; try done; [intros [_ Hc]|intros [_ Hc]]; intros E; by apply app_nil in E as [_ [_ ?]%app_nil].
Qed.

(** ** Morsels as lists of rows *)

Definition row_at (m : Morsel) (i : nat) : option (list NodeIndex) := mapM (node_at i) (columns m).

(** [m] holds the rows [vals] of width [w]; a morsel without rows may lack
    columns. *)
Record represents (w : nat) (m : Morsel) (vals : list (list NodeIndex)) : Prop := {
  rp_sel : length (selection m) = m_rows m;
  rp_cols : Forall (λ c, ∃ v, c = C_Node v ∧ length v = m_rows m) (columns m);
  rp_width : m_rows m ≠ 0%nat → length (columns m) = w;
  rp_vals : mapM (row_at m) (active_indices m) = Some vals
}.

Lemma active_indices_cons b sel :
  omap (λ e : nat * bool, if e.2 then Some e.1 else None) (imap pair (b :: sel)) =
  (if b : bool then [0%nat] else []) ++ (S <$> omap (λ e : nat * bool, if e.2 then Some e.1 else None) (imap pair sel)).
Proof.
  cbn [imap omap list_omap fst snd].
  assert (omap (λ e : nat * bool, if e.2 then Some e.1 else None) (imap (pair ∘ S) sel) =
    S <$> omap (λ e : nat * bool, if e.2 then Some e.1 else None) (imap pair sel)) as E.
  { rewrite <- (imap_ext (λ i x, prod_map S id (i, x))) by done.
    assert (∀ (l : list bool) (f : nat → bool → nat * bool), imap (λ i x, prod_map S id (f i x)) l = prod_map S id <$> imap f l) as Hi.
    { induction l as [|y l IH]; intros f; [done|]. cbn. f_equal. apply (IH (f ∘ S)). }
    rewrite (Hi sel pair). generalize (imap (pair (B := bool)) sel). intros l. induction l as [|[i x] l IH]; [done|].
    cbn. destruct x; cbn; by rewrite IH. }
  destruct b; cbn; by rewrite E.
Qed.

Lemma active_indices_lt m i : i ∈ active_indices m → (i < length (selection m))%nat.
Proof.
  unfold active_indices. generalize (selection m). intros sel. revert i. induction sel as [|b sel IH]; intros i.
  { by intros ?%elem_of_nil. }
  rewrite active_indices_cons, elem_of_app, list_elem_of_fmap. intros [Hi|(j & -> & Hj%IH)]; [|cbn; lia].
  destruct b; [apply list_elem_of_singleton in Hi as ->; cbn; lia|by apply elem_of_nil in Hi].
Qed.

Lemma active_indices_true n : omap (λ e : nat * bool, if e.2 then Some e.1 else None) (imap pair (replicate n true)) = seq 0 n.
Proof.
  induction n as [|n IH]; [done|]. cbn [replicate]. rewrite active_indices_cons, IH. cbn. by rewrite fmap_S_seq.
Qed.

Lemma node_at_lt m i c : (i < m_rows m)%nat → Forall (λ c, ∃ v, c = C_Node v ∧ length v = m_rows m) (columns m) →
  c ∈ columns m → ∃ x, node_at i c = Some x.
Proof.
  intros Hi Hall Hc. rewrite Forall_forall in Hall. destruct (Hall c Hc) as (v & -> & Hl). cbn.
  apply lookup_lt_is_Some. lia.
Qed.

Lemma represents_empty_rows w m vals : represents w m vals → m_rows m = 0%nat → vals = [].
Proof.
  intros [H1 H2 H3 H4] H0. unfold active_indices in H4. rewrite H0 in H1. apply nil_length_inv in H1.
  rewrite H1 in H4. change (Some [] = Some vals) in H4. congruence.
Qed.

Lemma represents_from nodes : represents 1 (from_node_column nodes) ((λ v, [v]) <$> nodes).
Proof.
  split; cbn.
  - apply length_replicate.
  - constructor; [eauto|constructor].
  - done.
  - unfold active_indices. cbn [selection from_node_column]. rewrite active_indices_true. apply mapM_Some.
    apply Forall2_fmap_r. apply Forall2_same_length_lookup. split; [by rewrite length_seq|].
    intros i j v Hj Hv. apply lookup_seq in Hj as [-> _]. cbn. unfold row_at. cbn. by rewrite Hv.
Qed.

Lemma represents_filter w m vals preds :
  represents w m vals → represents w (apply_filter preds m) (if forallb eval_predicate preds then vals else []).
Proof.
  intros [H1 H2 H3 H4]. split; cbn; try done; [by rewrite length_fmap|].
  unfold active_indices in *. cbn [selection apply_filter]. change (row_at (apply_filter preds m)) with (row_at m).
  destruct (forallb eval_predicate preds).
  - rewrite (list_fmap_ext _ id), list_fmap_id; [done|]. intros _ s _. by rewrite andb_true_r.
  - assert (omap (λ e : nat * bool, if e.2 then Some e.1 else None) (imap pair ((λ s, s && false) <$> selection m)) = []) as ->; [|done].
    generalize (selection m). intros sel. induction sel as [|b sel IH]; [done|]. cbn [fmap list_fmap].
    rewrite active_indices_cons, IH. by rewrite andb_false_r.
Qed.

Lemma active_limit seen count sel :
  omap (λ e : nat * bool, if e.2 then Some e.1 else None) (imap pair (limit_selection seen count sel)) =
  take (N.to_nat (count - seen)) (omap (λ e : nat * bool, if e.2 then Some e.1 else None) (imap pair sel)).
Proof.
  revert seen. induction sel as [|b sel IH]; intros seen; [by destruct (N.to_nat _)|]. cbn [limit_selection].
  destruct b; [destruct (N.leb_spec count seen)|]; rewrite !active_indices_cons, IH; cbn [app].
  - replace (N.to_nat (count - seen)) with 0%nat by lia. done.
  - replace (N.to_nat (count - seen)) with (S (N.to_nat (count - (seen + 1)))) by lia. cbn. by rewrite fmap_take.
  - by rewrite fmap_take.
Qed.

Lemma limit_length seen count sel : length (limit_selection seen count sel) = length sel.
Proof. revert seen. induction sel as [|[] sel IH]; intros seen; cbn; try destruct (_ <=? _)%N; cbn; by rewrite ?IH. Qed.

Lemma represents_limit w m vals n :
  represents w m vals →
  represents w (mkMorsel (m_rows m) (columns m) (limit_selection 0 n (selection m))) (take (N.to_nat n) vals).
Proof.
  intros [H1 H2 H3 H4]. split; cbn; try done; [by rewrite limit_length|].
  unfold active_indices in *. cbn [selection]. rewrite active_limit, N.sub_0_r.
  apply mapM_Some in H4. apply mapM_Some. by apply Forall2_take.
Qed.

(** ** Expansion *)

Definition block_total (b : AdjacencyBlock) : Prop :=
  ∀ v f, is_Some (expand_out b v f) ∧ is_Some (expand_in b v f).

Section expansion.
Context (g : GraphGeneration) (seeds : gmap string (list NodeIndex)) (b : AdjacencyBlock).
Hypothesis total : block_total b.

Lemma neighbors_total f d v : is_Some (neighbors b f d v).
Proof using total.
  unfold neighbors. destruct (total v f) as [[o Ho] [i Hi]].
  repeat case_bool_decide; rewrite ?Ho, ?Hi; by eexists.
Qed.

Lemma expand_frontier_total f d keep st us :
  ∃ st', foldl (expand_frontier b f d keep) (Some st) us = Some st'.
Proof using total.
  revert st. induction us as [|u us IH]; intros st; [by eexists|]. cbn.
  destruct (neighbors_total f d u) as [vs ->]. cbn. apply IH.
Qed.

Lemma hop_loop_total n f d lo : ∀ depth visited frontier found,
  is_Some (hop_loop n b f d lo depth visited frontier found).
Proof using total.
  induction n as [|n IH]; intros; [by eexists|]. cbn.
  destruct (expand_frontier_total f d (lo <=? depth)%nat (visited, [], found) frontier) as [[[v' next] fo] ->].
  cbn. destruct next; [by eexists|apply IH].
Qed.

Lemma expand_source_total e v : is_Some (expand_source b e v).
Proof using total.
  unfold expand_source. destruct (_ =? 1)%nat; [apply neighbors_total|apply hop_loop_total].
Qed.

Definition targets_of (e : ExpandOp) (v : NodeIndex) : list NodeIndex := default [] (expand_source b e v).

Lemma expand_source_eq e v : expand_source b e v = Some (targets_of e v).
Proof using total. unfold targets_of. by destruct (expand_source_total e v) as [l ->]. Qed.

(** The rows an operator adds to one row. *)
Definition grow (e : ExpandOp) (row : list NodeIndex) : list (list NodeIndex) :=
  match targets_of e (default u32_max (row !! src_col e)) with
  | [] => if op_optional e then [row ++ [u32_max]] else []
  | ds => (λ d, row ++ [d]) <$> ds
  end.

(** The fan-out against the rows it stands for. *)
Lemma fanout_rows e k vals : ∀ (srcs : list NodeIndex),
  Forall2 (λ row v, row !! src_col e = Some v) vals srcs →
  ∃ fan, mapM (fanout_of b e) (imap (λ i v, (k + i, v)%nat) srcs) = Some fan ∧
    Forall2 (λ (f : nat * NodeIndex * N) r, ∃ row, (k ≤ f.1.1)%nat ∧ vals !! (f.1.1 - k)%nat = Some row ∧ r = row ++ [f.1.2])
      (concat fan) (vals ≫= grow e).
Proof using total.
  revert k. induction vals as [|row vals IH]; intros k srcs Hs; inversion Hs as [|? v ? srcs' Hv Hs']; subst; clear Hs.
  { exists []. split; [done|constructor]. }
  destruct (IH (S k) srcs' Hs') as (fan & Hf & Hrel).
  assert (imap ((λ i v, ((k + i)%nat, v)) ∘ S) srcs' = imap (λ i v, ((S k + i)%nat, v)) srcs') as Eimap.
  { apply imap_ext. intros i x _. cbn. f_equal. lia. }
  assert (fanout_of b e ((k + 0)%nat, v) = Some (match targets_of e v with
      | [] => if op_optional e then [((k + 0)%nat, u32_max, u32_max)] else []
      | ds => (λ v, ((k + 0)%nat, v, 0%N)) <$> ds end)) as Ef by (unfold fanout_of; cbn [fst snd]; rewrite expand_source_eq; cbn [mbind option_bind]; by destruct (targets_of e v)).
  cbn [imap mapM]. rewrite Ef. cbn [mbind option_bind].
  rewrite Eimap, Hf. cbn [mbind option_bind]. eexists. split; [done|]. cbn [concat mbind list_bind].
  apply Forall2_app.
  - unfold grow. rewrite Hv. change (default u32_max (Some v)) with v. destruct (targets_of e v) as [|d ds].
    + destruct (op_optional e); [|constructor]. constructor; [|constructor]. exists row. cbn. split_and!; [lia| |done].
      by replace (k + 0 - k)%nat with 0%nat by lia.
    + apply Forall2_fmap. apply Forall2_same_length_lookup. split; [done|]. intros i x y Hx Hy.
      assert (x = y) as -> by congruence. exists row. cbn. split_and!; [lia| |done]. by replace (k + 0 - k)%nat with 0%nat by lia.
  - eapply Forall2_impl; [exact Hrel|]. intros f r (row' & Hk & Hl & ->). exists row'. split_and!; [lia| |done].
    replace (f.1.1 - k)%nat with (S (f.1.1 - S k)) by lia. done.
Qed.

Lemma gathered_row rows cols cols' i j :
  Forall (λ c, ∃ v, c = C_Node v ∧ True) cols →
  mapM (column_gather rows) cols = Some cols' → rows !! j = Some i →
  mapM (node_at j) cols' = mapM (node_at i) cols ∧ Forall (λ c, ∃ v, c = C_Node v ∧ length v = length rows) cols' ∧
  length cols' = length cols.
Proof.
  intros Hall Hm Hj. apply mapM_Some in Hm. induction Hm as [|c c' cols cols' Hc Hm IH]; [done|].
  apply Forall_cons in Hall as [(v & -> & _) Hall]. destruct (IH Hall) as (H1 & H2 & H3). cbn in Hc.
  destruct (gather rows v) as [v'|] eqn:Hg; [|done]. injection Hc as <-.
  unfold gather in Hg. apply mapM_Some in Hg. cbn [mapM]. rewrite H1.
  destruct (Forall2_lookup_l _ _ _ _ _ Hg Hj) as (x & Hx & Hvx). cbn. rewrite Hx, Hvx.
  split_and!; [done| |by rewrite H3]. constructor; [|done]. exists v'. split; [done|]. symmetry. by eapply Forall2_length.
Qed.

Lemma gather_total m rows :
  (∀ i, i ∈ rows → (i < m_rows m)%nat) → Forall (λ c, ∃ v, c = C_Node v ∧ length v = m_rows m) (columns m) →
  ∃ cols, mapM (column_gather rows) (columns m) = Some cols.
Proof.
  intros Hrows Hall. apply mapM_is_Some. eapply Forall_impl; [exact Hall|]. intros c (v & -> & Hl). cbn.
  assert (is_Some (gather rows v)) as [v' ->]; [|by eexists]. apply mapM_is_Some. apply Forall_forall.
  intros i Hi. apply lookup_lt_is_Some. rewrite Hl. by apply Hrows.
Qed.

Hypothesis adj : adjacency g = Some b.

Lemma represents_expand w m vals e :
  represents w m vals → rel_col e = None → (src_col e < w)%nat →
  ∃ m', apply_expand g e m = Some m' ∧ represents (S w) m' (vals ≫= grow e).
Proof using total adj.
  intros Hr Hrel Hsrc. pose proof Hr as [H1 H2 H3 H4]. unfold apply_expand. destruct (Nat.eqb_spec (m_rows m) 0) as [H0|H0].
  { exists m. split; [done|]. rewrite (represents_empty_rows _ _ _ Hr H0) in *. by split. }
  specialize (H3 H0). set (active := active_indices m) in *.
  assert (∀ i, i ∈ active → (i < m_rows m)%nat) as Hact by (intros i Hi; rewrite <- H1; by apply active_indices_lt).
  destruct (lookup_lt_is_Some_2 (columns m) (src_col e)) as [c Hc]; [lia|].
  assert (c ∈ columns m) as Hcin by (by eapply list_elem_of_lookup_2).
  apply mapM_Some in H4.
  assert (∃ srcs, mapM (λ i, node_at i c) active = Some srcs ∧ Forall2 (λ row v, row !! src_col e = Some v) vals srcs) as (srcs & Hsrcs & Hvs).
  { clear - H4 Hact H2 Hc Hcin. induction H4 as [|i row active vals Hi H4 IH]; [by exists []|].
    destruct IH as (srcs & Hm & Hf); [intros; apply Hact; by right|].
    unfold row_at in Hi. apply mapM_Some in Hi. destruct (Forall2_lookup_l _ _ _ _ _ Hi Hc) as (x & Hx & Hn).
    exists (x :: srcs). cbn. rewrite Hn. cbn. rewrite Hm. split; [done|by constructor]. }
  assert ((match active with [] => Some (C_Node []) | _ => columns m !! src_col e end) ≫=
    (λ c, src_nodes ← mapM (λ i, node_at i c) active; Some src_nodes) = Some srcs) as Hread.
  { destruct active; [cbn in *; by injection Hsrcs as <-|]. rewrite Hc. cbn [mbind option_bind]. by rewrite Hsrcs. }
  destruct (match active with [] => Some (C_Node []) | _ => columns m !! src_col e end) as [c'|]; [|done].
  cbn [mbind option_bind] in *. destruct (mapM (λ i, node_at i c') active) as [srcs'|]; [|done].
  cbn [mbind option_bind] in *. injection Hread as ->. rewrite adj. cbn [mbind option_bind].
  destruct (fanout_rows e 0 vals srcs Hvs) as (fan & Hfan & Hrows). cbn [Nat.add] in Hfan.
  change (imap (λ (i : nat) (v : N), (i, v)) srcs) with (imap pair srcs) in Hfan. rewrite Hfan. cbn [mbind option_bind].
  set (fs := concat fan) in *.
  assert (∃ rows, mapM (λ s, active !! s) fs.*1.*1 = Some rows ∧ (∀ i, i ∈ rows → i ∈ active) ∧ length rows = length fs ∧
    ∀ j f, fs !! j = Some f → ∃ i, rows !! j = Some i ∧ active !! f.1.1 = Some i) as (rows & Hm & Hin & Hlen & Hlook).
  { assert (is_Some (mapM (λ s, active !! s) fs.*1.*1)) as [rows Hm].
    { apply mapM_is_Some. rewrite !Forall_fmap. apply Forall_forall. intros f [j Hj]%list_elem_of_lookup_1. cbn.
      destruct (Forall2_lookup_l _ _ _ _ _ Hrows Hj) as (r & _ & row & _ & Hrow & _). rewrite Nat.sub_0_r in Hrow.
      apply lookup_lt_is_Some. rewrite (Forall2_length _ _ _ H4). by eapply lookup_lt_Some. }
    exists rows. split; [done|]. apply mapM_Some in Hm. split_and!.
    - intros i [j Hj]%list_elem_of_lookup_1. destruct (Forall2_lookup_r _ _ _ _ _ Hm Hj) as (k & _ & Hk). by eapply list_elem_of_lookup_2.
    - rewrite <- (Forall2_length _ _ _ Hm). by rewrite !length_fmap.
    - intros j f Hj. assert (fs.*1.*1 !! j = Some f.1.1) as Hj' by (by rewrite !list_lookup_fmap, Hj).
      destruct (Forall2_lookup_l _ _ _ _ _ Hm Hj') as (i & Hi & Ha). eauto. }
  rewrite Hm. cbn [mbind option_bind]. destruct (gather_total m rows) as [cols Hcols]; [auto|done|].
  rewrite Hcols. cbn [mbind option_bind]. rewrite Hrel. eexists. split; [done|].
  assert (Forall (λ c, ∃ v, c = C_Node v ∧ True) (columns m)) as H2' by (eapply Forall_impl; [exact H2|]; naive_solver).
  split; cbn [m_rows columns selection].
  - apply length_replicate.
  - rewrite app_nil_r. apply Forall_app. split.
    + destruct rows as [|i0 rows'] eqn:Er.
      * apply mapM_Some in Hcols. clear - Hcols H2' Hlen. cbn in Hlen. rewrite <- Hlen. induction Hcols as [|c c' cs cs' Hc _ IH]; [constructor|].
        apply Forall_cons in H2' as [(v & -> & _) H2']. constructor; [|by apply IH]. cbn in Hc. injection Hc as <-. by exists [].
      * destruct (gathered_row (i0 :: rows') (columns m) cols i0 0 H2' Hcols eq_refl) as (_ & H & _). by rewrite <- Hlen.
    + constructor; [|constructor]. exists (fs.*1.*2). by rewrite !length_fmap.
  - intros _. rewrite app_nil_r, length_app. cbn. rewrite <- H3. apply mapM_Some, Forall2_length in Hcols. lia.
  - unfold active_indices. cbn [selection]. rewrite active_indices_true. apply mapM_Some.
    apply Forall2_same_length_lookup. split; [rewrite length_seq; by eapply Forall2_length|].
    intros j j' r Hj Hrj. apply lookup_seq in Hj as [-> Hj]. cbn [Nat.add].
    destruct (Forall2_lookup_r _ _ _ _ _ Hrows Hrj) as (f & Hf & row & _ & Hrow & ->). rewrite Nat.sub_0_r in Hrow.
    destruct (Hlook j f Hf) as (i & Hi & Ha). destruct (Forall2_lookup_l _ _ _ _ _ H4 Ha) as (row' & Hrow' & Hat).
    assert (row' = row) as -> by congruence. unfold row_at in *. cbn [columns]. rewrite app_nil_r.
    destruct (gathered_row rows (columns m) cols i j H2' Hcols Hi) as (Hg & _ & _).
    apply mapM_Some. apply Forall2_app.
    + apply mapM_Some. by rewrite Hg.
    + constructor; [|constructor]. cbn. by rewrite !list_lookup_fmap, Hf.
Qed.

(** ** Columns of bindings *)

Lemma find_map_cons {A B} (f : A → option B) x l : find_map f (x :: l) = match f x with Some y => Some y | None => find_map f l end.
Proof. unfold find_map. cbn. by destruct (f x). Qed.

Lemma find_col_row s k (row : Row) :
  match find_col s (imap (λ i x, (x.1, (k + i)%nat)) row) with
  | Some j => (k ≤ j)%nat ∧ (j - k < length row)%nat ∧ s ∈ row.*1 ∧
      row.*2 !! (j - k)%nat = find_map (λ x, if (x.1 =? s)%N then Some x.2 else None) row
  | None => find_map (λ x, if (x.1 =? s)%N then Some x.2 else None) row = None ∧ s ∉ row.*1
  end.
Proof.
  revert k. induction row as [|[t v] row IH]; intros k; [cbn; split; [done|apply not_elem_of_nil]|].
  cbn [imap fst snd]. unfold find_col. rewrite !find_map_cons. cbn [fst snd].
  destruct (N.eqb_spec t s) as [->|Hne].
  - cbn [fmap option_fmap option_map snd]. split_and!; [lia|cbn; lia|by left|]. by replace (k + 0 - k)%nat with 0%nat by lia.
  - assert (imap ((λ i (x : N * N), (x.1, (k + i)%nat)) ∘ S) row = imap (λ i (x : N * N), (x.1, (S k + i)%nat)) row) as ->.
    { apply imap_ext. intros i x _. cbn. f_equal. lia. }
    specialize (IH (S k)). unfold find_col in IH.
    destruct (snd <$> find_map _ (imap _ row)) as [j|].
    + destruct IH as (H1 & H2 & H3 & H4). split_and!; [lia|cbn; lia|by right|].
      replace (j - k)%nat with (S (j - S k)) by lia. by rewrite <- H4.
    + destruct IH as [H1 H2]. split; [done|]. rewrite fmap_cons, not_elem_of_cons. done.
Qed.

(** The registry after lowering a core plan. *)
Definition columns_of (keys : list SymbolId) : list (SymbolId * nat) := imap (λ i s, (s, i)) keys.

Lemma columns_of_row keys (row : Row) : row.*1 = keys → columns_of keys = imap (λ i x, (x.1, (0 + i)%nat)) row.
Proof. intros <-. unfold columns_of. by rewrite imap_fmap. Qed.

Lemma columns_of_snoc keys s : columns_of (keys ++ [s]) = columns_of keys ++ [(s, length keys)].
Proof. unfold columns_of. rewrite imap_app. cbn. by rewrite Nat.add_0_r. Qed.

Lemma row_lookup_col s keys (row : Row) :
  row.*1 = keys → row ≠ [] →
  row_lookup s row = default u32_max (row.*2 !! default 0%nat (find_col s (columns_of keys))).
Proof.
  intros Hk Hne. rewrite (columns_of_row keys row Hk). pose proof (find_col_row s 0 row) as H. unfold row_lookup.
  destruct (find_col s _) as [j|].
  - destruct H as (_ & Hlt & _ & H). rewrite Nat.sub_0_r in H, Hlt. cbn [default]. unfold id. rewrite <- H.
    destruct (lookup_lt_is_Some_2 row.*2 j) as [x ->]; [by rewrite length_fmap|done].
  - destruct H as [-> _]. destruct row as [|x row]; [done|]. done.
Qed.

Lemma find_col_lt s keys j : find_col s (columns_of keys) = Some j → (j < length keys)%nat.
Proof.
  intros Hj. pose proof (find_col_row s 0 ((λ k, (k, 0%N)) <$> keys)) as H.
  rewrite <- (columns_of_row keys) in H by (rewrite <- list_fmap_compose; by apply list_fmap_id).
  rewrite Hj in H. destruct H as (_ & H & _). rewrite length_fmap in H. lia.
Qed.

(** ** Lowering and running a core plan *)

Definition op_of (e : ExpandArgs) : ExpandOp :=
  mkExpandOp 0 0 None (rel_type_filter e) (direction e) (lp_min_hops e) (lp_max_hops e) false.

Definition scan_nodes (label : option LabelId) : list NodeIndex :=
  filter (λ v, label_matches g label v = true) (live_nodes (gg_nodes g)).
Definition seed_nodes (q : string) : list NodeIndex := default [] (seeds !! q).
Definition denoted : LogicalPlan → list Row := denote scan_nodes seed_nodes (λ e, targets_of (op_of e)).

Definition values (rows : list Row) : list (list NodeIndex) := (λ r, r.*2) <$> rows.

Lemma values_passing preds rows : values (passing preds rows) = if forallb eval_predicate preds then values rows else [].
Proof. unfold passing. by destruct (forallb _ _). Qed.

Lemma apply_ops_app ops1 ops2 m : apply_ops g seeds (ops1 ++ ops2) m = apply_ops g seeds ops1 m ≫= apply_ops g seeds ops2.
Proof.
  unfold apply_ops. rewrite foldl_app. destruct (foldl _ (Some m) ops1) as [m'|]; [done|].
  cbn. by induction ops2.
Qed.

Lemma grow_extend e (opt : bool) o (row : Row) :
  row_lookup (src_binding e) row = default u32_max (row.*2 !! src_col o) →
  op_rel_type_filter o = rel_type_filter e → op_direction o = direction e →
  op_min_hops o = lp_min_hops e → op_max_hops o = lp_max_hops e → op_optional o = opt →
  grow o row.*2 = values (extend (λ e, targets_of (op_of e)) e opt row).
Proof.
  intros Hs E1 E2 E3 E4 E5. unfold grow, extend. rewrite <- Hs.
  assert (targets_of o (row_lookup (src_binding e) row) = targets_of (op_of e) (row_lookup (src_binding e) row)) as ->.
  { unfold targets_of, expand_source. by rewrite E1, E2, E3, E4. }
  destruct (targets_of (op_of e) _) as [|d ds].
  - rewrite E5. destruct opt; [|done]. cbn. by rewrite fmap_app.
  - unfold values. rewrite <- list_fmap_compose. apply list_fmap_ext. intros _ x _. cbn. by rewrite fmap_app.
Qed.

Lemma values_bind (rows : list Row) f h :
  (∀ r, r ∈ rows → h r.*2 = values (f r)) → values rows ≫= h = values (rows ≫= f).
Proof.
  intros Hh. induction rows as [|r rows IH]; [done|]. cbn [values fmap list_fmap mbind list_bind].
  unfold values in *. rewrite fmap_app, (Hh r) by (by left). f_equal. apply IH. intros; apply Hh; by right.
Qed.

Lemma lower_core p :
  is_core p →
  let st := lower_node p (mkLowering [] [] 0) in
  lw_cols st = columns_of (output_bindings p) ∧ lw_next st = length (output_bindings p) ∧
  ∃ m, apply_ops g seeds (lw_ops st) morsel_empty = Some m ∧
    represents (length (output_bindings p)) m (values (denoted p)).
Proof using total adj.
  assert (∀ st m w vals preds, apply_ops g seeds (lw_ops st) morsel_empty = Some m → represents w m vals →
    lw_cols (lower_filter preds st) = lw_cols st ∧ lw_next (lower_filter preds st) = lw_next st ∧
    ∃ m', apply_ops g seeds (lw_ops (lower_filter preds st)) morsel_empty = Some m' ∧
      represents w m' (if forallb eval_predicate preds then vals else [])) as Hfilter.
  { intros st m w vals preds Hm Hr. destruct preds as [|p0 ps]; [by eauto|]. cbn [lower_filter].
    split_and!; [done|done|]. cbn [push_op lw_ops]. rewrite apply_ops_app, Hm. eexists. split; [done|]. by apply represents_filter. }
  assert (∀ p e opt, is_core p → rel_binding e = None →
    let st := lower_node p (mkLowering [] [] 0) in
    lw_cols st = columns_of (output_bindings p) → lw_next st = length (output_bindings p) →
    (∃ m, apply_ops g seeds (lw_ops st) morsel_empty = Some m ∧ represents (length (output_bindings p)) m (values (denoted p))) →
    let st' := lower_expand e opt st in
    lw_cols st' = columns_of (output_bindings p ++ [dst_binding e]) ∧ lw_next st' = length (output_bindings p ++ [dst_binding e]) ∧
    ∃ m, apply_ops g seeds (lw_ops st') morsel_empty = Some m ∧
      represents (length (output_bindings p ++ [dst_binding e])) m (values (denoted p ≫= extend (λ e, targets_of (op_of e)) e opt))) as Hexpand.
  { clear p. intros p e opt Hcore Hrel st Hcols Hnext (m & Hm & Hr) st'. unfold st', lower_expand. rewrite Hrel, Hcols.
    cbn [push_op new_col lw_cols lw_next lw_ops]. rewrite Hcols, Hnext, length_app, columns_of_snoc. cbn [length].
    split_and!; [done|lia|]. rewrite apply_ops_app, Hm. cbn [mbind option_bind].
    set (o := mkExpandOp _ _ _ _ _ _ _ _).
    destruct (represents_expand _ m (values (denoted p)) o Hr eq_refl) as (m' & Hm' & Hr').
    { cbn. destruct (find_col (src_binding e) _) as [j|] eqn:Hj; cbn; [by eapply find_col_lt|].
      pose proof (output_bindings_nonempty p Hcore). destruct (output_bindings p); [done|cbn; lia]. }
    exists m'. split; [done|]. rewrite Nat.add_1_r. rewrite <- (values_bind _ _ (grow o)); [done|].
    intros r Hin. pose proof (denote_keys _ _ _ p r Hcore Hin) as Hkeys. apply grow_extend; try done.
    apply row_lookup_col; [done|]. intros ->. cbn in Hkeys. by apply (output_bindings_nonempty p Hcore). }
  induction p as [b0 l preds|b0 q k c|p IH e|p IH e|p IH preds|p IH outs|p IH n]; intros Hc; cbn [is_core] in Hc; try done.
  - cbn [lower_node new_col lw_next lw_ops lw_cols].
    pose proof (represents_from (scan_nodes l)) as Hr.
    assert (apply_ops g seeds (lw_ops (push_op (PO_NodeScan 0 l) (mkLowering [] ([] ++ [(b0, 0%nat)]) 1))) morsel_empty =
      Some (from_node_column (scan_nodes l))) as Hm by done.
    destruct (Hfilter _ _ _ _ preds Hm Hr) as (Hc1 & Hc2 & m' & Hm' & Hr').
    split_and!; [by rewrite Hc1|by rewrite Hc2|]. exists m'. split; [done|]. unfold denoted. cbn [denote].
    rewrite values_passing. unfold values. by rewrite <- list_fmap_compose.
  - split_and!; [done|done|]. eexists. split; [done|]. unfold denoted. cbn [denote]. unfold values.
    rewrite <- list_fmap_compose. apply represents_from.
  - destruct Hc as [Hrel Hc]. destruct (IH Hc) as (H1 & H2 & H3). cbn [lower_node output_bindings]. rewrite Hrel.
    apply (Hexpand p e false Hc Hrel H1 H2 H3).
  - destruct Hc as [Hrel Hc]. destruct (IH Hc) as (H1 & H2 & H3). cbn [lower_node output_bindings]. rewrite Hrel.
    apply (Hexpand p e true Hc Hrel H1 H2 H3).
  - destruct (IH Hc) as (H1 & H2 & m & Hm & Hr). cbn [lower_node output_bindings].
    destruct (Hfilter _ _ _ _ preds Hm Hr) as (Hc1 & Hc2 & m' & Hm' & Hr'). rewrite Hc1, Hc2. split_and!; [done|done|].
    exists m'. split; [done|]. unfold denoted. cbn [denote]. by rewrite values_passing.
Qed.
End expansion.

(** ** Projection and collection *)

Lemma omap_lookup_columns (cols : list BindingColumn) keep i row :
  mapM (node_at i) cols = Some row → Forall (λ c, c < length cols)%nat keep →
  mapM (node_at i) (omap (λ c, cols !! c) keep) = Some (omap (λ c, row !! c) keep).
Proof.
  intros Hm Hk. apply mapM_Some in Hm. induction Hk as [|c keep Hc Hk IH]; [done|].
  destruct (lookup_lt_is_Some_2 cols c Hc) as [x Hx]. destruct (Forall2_lookup_l _ _ _ _ _ Hm Hx) as (y & Hy & Hn).
  cbn [omap list_omap]. rewrite Hx, Hy. cbn [mapM]. rewrite Hn. cbn [mbind option_bind]. by rewrite IH.
Qed.

Lemma represents_project w m vals keep :
  represents w m vals → Forall (λ c, c < w)%nat keep →
  represents (length keep) (mkMorsel (m_rows m) (omap (λ c, columns m !! c) keep) (selection m))
    ((λ row, omap (λ c, row !! c) keep) <$> vals).
Proof.
  intros Hr Hk. pose proof Hr as [H1 H2 H3 H4]. split; cbn [m_rows columns selection].
  - done.
  - apply Forall_forall. intros c (k & _ & Hc)%list_elem_of_omap. rewrite Forall_forall in H2. apply H2.
    by eapply list_elem_of_lookup_2.
  - intros H0. specialize (H3 H0). clear - Hk H3. induction Hk as [|c keep Hc Hk IH]; [done|].
    cbn [omap list_omap]. destruct (lookup_lt_is_Some_2 (columns m) c) as [x ->]; [lia|]. cbn. by rewrite IH.
  - destruct (decide (m_rows m = 0%nat)) as [H0|H0].
    { rewrite (represents_empty_rows _ _ _ Hr H0) in *. unfold active_indices in *. cbn [selection].
      rewrite H0 in H1. apply nil_length_inv in H1. by rewrite H1. }
    specialize (H3 H0). apply mapM_Some in H4. apply mapM_Some. apply Forall2_fmap_r.
    change (active_indices (mkMorsel (m_rows m) (omap (λ c, columns m !! c) keep) (selection m))) with (active_indices m).
    eapply Forall2_impl; [exact H4|]. intros i row Hi. unfold row_at in *. cbn [columns].
    apply omap_lookup_columns; [done|by rewrite H3].
Qed.

(** The result of a query has as many cells per row as the plan has columns: a
    narrower row is filled up with [NodeIndex::MAX], a wider one cut. *)
Definition fit (w : nat) (row : list NodeIndex) : list NodeIndex := (λ c, default u32_max (row !! c)) <$> seq 0 w.

Lemma collect_rows w k m vals :
  represents k m vals → (m' ← morsel_compact m; mapM (λ row, mapM (read_cell m' row) (seq 0 w)) (seq 0 (m_rows m'))) =
    Some (fit w <$> vals).
Proof.
  intros [H1 H2 H3 H4]. unfold morsel_compact.
  assert (∀ i, i ∈ active_indices m → (i < m_rows m)%nat) as Hact by (intros i Hi; rewrite <- H1; by apply active_indices_lt).
  destruct (gather_total m (active_indices m) Hact H2) as [cols Hcols]. rewrite Hcols. cbn [mbind option_bind m_rows].
  apply mapM_Some in H4. apply mapM_Some. apply Forall2_fmap_r. apply Forall2_same_length_lookup.
  split; [rewrite length_seq; by eapply Forall2_length|]. intros j j' row Hj Hrow. apply lookup_seq in Hj as [-> Hj]. cbn [Nat.add].
  destruct (Forall2_lookup_r _ _ _ _ _ H4 Hrow) as (i & Hi & Hat).
  assert (Forall (λ c, ∃ v, c = C_Node v ∧ True) (columns m)) as H2' by (eapply Forall_impl; [exact H2|]; naive_solver).
  destruct (gathered_row (active_indices m) (columns m) cols i j H2' Hcols Hi) as (Hg & _ & Hlen).
  unfold row_at in Hat. rewrite Hat in Hg. apply mapM_Some in Hg. apply mapM_Some. unfold fit. apply Forall2_fmap_r.
  apply Forall2_same_length_lookup. split; [done|]. intros c x y Hx Hy. assert (x = y) as -> by congruence. unfold read_cell. cbn [columns].
  destruct (cols !! y) as [col|] eqn:Hc.
  - cbn. by destruct (Forall2_lookup_l _ _ _ _ _ Hg Hc) as (v & -> & ->).
  - cbn. rewrite (lookup_ge_None_2 row); [done|]. apply lookup_ge_None in Hc. by rewrite <- (Forall2_length _ _ _ Hg).
Qed.

(** ** Queries *)

Section query.
Context (g : GraphGeneration) (seeds : gmap string (list NodeIndex)) (b : AdjacencyBlock).
Hypothesis total : block_total b.
Hypothesis adj : adjacency g = Some b.

Abbreviation rows_of := (denoted g seeds b).

Lemma seq_columns keys : (columns_of keys).*2 = seq 0 (length keys).
Proof.
  unfold columns_of. apply list_eq. intros i. rewrite list_lookup_fmap, list_lookup_imap.
  destruct (decide (i < length keys)%nat) as [Hi|Hi].
  - destruct (lookup_lt_is_Some_2 keys i Hi) as [x ->]. by rewrite lookup_seq_lt.
  - by rewrite !lookup_ge_None_2 by (rewrite ?length_seq; lia).
Qed.

Lemma project_values outs keys row :
  row.*1 = keys → row ≠ [] →
  (project_row outs row).*2 = omap (λ c, row.*2 !! c) (omap (λ s, find_col s (columns_of keys)) outs).
Proof.
  intros Hk Hne. unfold project_row. induction outs as [|s outs IH]; [done|]. cbn [omap list_omap].
  pose proof (find_col_row s 0 row) as Hf. rewrite <- (columns_of_row keys row Hk) in Hf.
  pose proof (row_lookup_col s keys row Hk Hne) as Hl. destruct (find_col s (columns_of keys)) as [j|].
  - destruct Hf as (_ & Hlt & Hin & _). rewrite bool_decide_true by done. cbn [fmap list_fmap snd omap list_omap].
    rewrite Nat.sub_0_r in Hlt. destruct (lookup_lt_is_Some_2 row.*2 j) as [x Hx]; [by rewrite length_fmap|].
    cbn in Hl. unfold id in Hl. rewrite Hx in Hl. rewrite Hx, Hl. cbn. f_equal. apply IH.
  - destruct Hf as [_ Hin]. rewrite bool_decide_false by done. apply IH.
Qed.

(** The executor computes the rows of the plan. *)
Lemma execute_core p outs limit :
  is_core p →
  let q := add_limit limit (add_project outs p) in
  execute g seeds (lower q) = Some (fit (length (output_bindings p)) <$> values (rows_of q)).
Proof using total adj.
  intros Hcore q. destruct (lower_core g seeds b total adj p Hcore) as (Hcols & Hnext & m & Hm & Hr).
  set (st := lower_node p (mkLowering [] [] 0)) in *.
  assert (let st1 := lower_node (add_project outs p) (mkLowering [] [] 0) in
    lw_cols st1 = columns_of (output_bindings p) ∧
    ∃ k m1, apply_ops g seeds (lw_ops st1) morsel_empty = Some m1 ∧ represents k m1 (values (rows_of (add_project outs p))))
    as (Hcols1 & k & m1 & Hm1 & Hr1).
  { unfold add_project. destruct outs as [|o outs]; [by eauto|]. cbn [lower_node]. fold st. rewrite Hcols.
    split; [done|]. cbn [push_op lw_ops]. rewrite (apply_ops_app g seeds), Hm. cbn [mbind option_bind].
    set (keep := omap _ (o :: outs)). eexists _, _. split; [done|].
    replace (values (rows_of (LP_Project p (o :: outs)))) with ((λ row, omap (λ c, row !! c) keep) <$> values (rows_of p)).
    { apply (represents_project _ m _ keep Hr). apply Forall_forall. intros c (s & _ & Hs)%list_elem_of_omap. by eapply find_col_lt. }
    unfold values, denoted. cbn [denote]. rewrite <- !list_fmap_compose. apply list_fmap_ext. intros i r Hi. cbn [compose].
    pose proof (denote_keys _ _ _ p r Hcore (list_elem_of_lookup_2 _ _ _ Hi)) as Hkeys. symmetry.
    refine (project_values (o :: outs) (output_bindings p) r Hkeys _). intros ->. cbn in Hkeys. by apply (output_bindings_nonempty p Hcore). }
  assert (let st2 := lower_node q (mkLowering [] [] 0) in
    lw_cols st2 = columns_of (output_bindings p) ∧
    ∃ m2, apply_ops g seeds (lw_ops st2) morsel_empty = Some m2 ∧ represents k m2 (values (rows_of q))) as (Hcols2 & m2 & Hm2 & Hr2).
  { unfold q, add_limit. destruct limit as [l|]; [|by eauto]. cbn [lower_node push_op lw_cols lw_ops].
    split; [done|]. rewrite (apply_ops_app g seeds), Hm1. cbn [mbind option_bind]. eexists. split; [done|].
    unfold denoted. cbn [denote]. unfold values. rewrite fmap_take. by apply represents_limit. }
  unfold execute, lower. cbn [ops output_cols]. rewrite Hm2, Hcols2, seq_columns. cbn [mbind option_bind].
  apply (collect_rows _ k m2). done.
Qed.

(** ** From the AST *)

(** No relationship of the query has a name. *)
Definition no_rel_alias (p : GraphPattern) : Prop :=
  match p with
  | NodePattern _ _ _ => True
  | PatExpand e | PatOptionalExpand e => rel_alias e = None
  | HyperMatch _ ra _ _ _ => ra = None
  end.

Definition core_plan (ast : QueryAst) (symbols : SymbolTable) : LogicalPlan :=
  add_filter (where_clause ast) (foldl (plan_pattern symbols) (root_scan ast symbols) (patterns ast)).

Lemma core_plan_core ast symbols : Forall no_rel_alias (patterns ast) → is_core (core_plan ast symbols).
Proof.
  intros Hall. unfold core_plan. assert (is_core (foldl (plan_pattern symbols) (root_scan ast symbols) (patterns ast))) as Hc.
  { assert (is_core (root_scan ast symbols)) as H0.
    { unfold root_scan. destruct (vector_match ast); [done|]. by destruct (find_map node_of (patterns ast)) as [[]|]. }
    revert H0. generalize (root_scan ast symbols). induction Hall as [|p ps Hp Hps IH]; intros plan Hplan; [done|].
    cbn [foldl]. apply IH. destruct p as [| | |ants ra rt cs d]; cbn in *; [done| | |]; rewrite ?Hp; by split. }
  by destruct (where_clause ast).
Qed.
End query.

(** ** Distances layer by layer *)

Section layers.
Context (E : N → list N) (s : N).

(** [visited] holds the nodes within [d] hops, [frontier] those at distance [d];
    the neighbours of every other visited node are visited too. *)
Record layer (d : nat) (visited : gset N) (frontier : list N) : Prop := {
  ly_visited v : v ∈ visited ↔ ∃ k, (k ≤ d)%nat ∧ walk E s v k;
  ly_frontier v : v ∈ frontier ↔ hops E s v d;
  ly_closed u w : u ∈ visited → u ∉ frontier → w ∈ E u → w ∈ visited
}.

Lemma layer_start : layer 0 {[s]} [s].
Proof.
  assert (∀ v, walk E s v 0 ↔ v = s) as H0.
  { intros v. split; [by inversion 1|intros ->; constructor]. }
  split.
  - intros v. rewrite elem_of_singleton. split; [intros ->; exists 0%nat; split; [lia|constructor]|].
    intros (k & Hk & Hw). apply H0. by replace 0%nat with k by lia.
  - intros v. rewrite list_elem_of_singleton, <- H0. split; [|by intros []]. intros Hw. split; [done|intros; lia].
  - intros u w Hu%elem_of_singleton Hn. set_solver.
Qed.

Lemma hops_pred v k : hops E s v (S k) → ∃ u, hops E s u k ∧ v ∈ E u.
Proof.
  intros [Hw Hmin]. inversion Hw as [|u w k' Hu Hv]; subst. exists u. split; [|done]. split; [done|].
  intros j Hj. specialize (Hmin (S j) (walk_edge _ _ _ _ _ Hj Hv)). lia.
Qed.

Lemma layer_step d visited frontier visited' next :
  layer d visited frontier →
  (∀ v, v ∈ next ↔ (∃ u, u ∈ frontier ∧ v ∈ E u) ∧ v ∉ visited) →
  (∀ v, v ∈ visited' ↔ v ∈ visited ∨ v ∈ next) →
  layer (S d) visited' next.
Proof.
  intros [H1 H2 H3] Hnext Hvis.
  assert (∀ u v, u ∈ visited → v ∈ E u → v ∈ visited') as Hnb.
  { intros u v Hu Hv. apply Hvis. destruct (decide (v ∈ visited)) as [|Hnv]; [by left|right]. apply Hnext. split; [|done].
    exists u. split; [|done]. destruct (decide (u ∈ frontier)) as [|Hn]; [done|]. by destruct Hnv; eapply H3. }
  assert (∀ v, v ∈ next ↔ hops E s v (S d)) as H2'.
  { intros v. rewrite Hnext, H1. split.
    - intros [(u & [Hu _]%H2 & Hv) Hno]. split; [by eapply walk_edge|]. intros k Hk.
      destruct (le_lt_dec (S d) k); [done|]. destruct Hno. exists k. split; [lia|done].
    - intros Hh. split.
      + destruct (hops_pred v d Hh) as (u & Hu%H2 & Hv). by exists u.
      + intros (k & Hk & Hw). destruct Hh as [_ Hmin]. specialize (Hmin k Hw). lia. }
  split; [|done|].
  - intros v. split.
    + intros [(k & Hk & Hw)%H1|[Hw _]%H2']%Hvis; [exists k; split; [lia|done]|by exists (S d)].
    + intros (k & Hk & Hw). destruct (le_lt_dec k d) as [Hd|Hd]; [apply Hvis; left; apply H1; by exists k|].
      replace k with (S d) in Hw by lia. inversion Hw as [|u w k' Hu Hv]; subst. apply (Hnb u); [|done].
      apply H1. by exists d.
  - intros u w [Hu|Hu]%Hvis Hn Hw; [by apply (Hnb u)|done].
Qed.

Lemma no_layer d k : (∀ v, ¬ hops E s v d) → (d ≤ k)%nat → ∀ v, ¬ hops E s v k.
Proof.
  intros Hd. induction 1 as [|k _ IH]; [done|]. intros v (u & Hu & _)%hops_pred. by apply (IH u).
Qed.
End layers.

(** ** The loop *)

Lemma collect_fold (keep : bool) vs : ∀ visited next found,
  ∃ visited' new, foldl (collect_new keep) (visited, next, found) vs =
      (visited', next ++ new, if keep then found ++ new else found) ∧
    NoDup new ∧ (∀ v, v ∈ new ↔ v ∈ vs ∧ v ∉ visited) ∧ (∀ v, v ∈ visited' ↔ v ∈ visited ∨ v ∈ new).
Proof.
  induction vs as [|v vs IH]; intros visited next found; cbn [foldl].
  - exists visited, []. rewrite !app_nil_r. split_and!; [by destruct keep|constructor|set_solver|set_solver].
  - unfold collect_new at 2. case_bool_decide as Hv.
    + destruct (IH visited next found) as (vis & new & E & H1 & H2 & H3). exists vis, new. split_and!; [done|done| |done].
      intros w. rewrite H2, elem_of_cons. split; [tauto|]. intros [[->|Hw] Hn]; tauto.
    + destruct (IH ({[v]} ∪ visited) (next ++ [v]) (if keep then found ++ [v] else found)) as (vis & new & E & H1 & H2 & H3).
      exists vis, (v :: new). rewrite E. split_and!.
      * rewrite <- app_assoc. by destruct keep; rewrite <- ?app_assoc.
      * constructor; [|done]. rewrite H2, elem_of_union, elem_of_singleton. tauto.
      * intros w. rewrite !elem_of_cons, H2, elem_of_union, elem_of_singleton.
        destruct (decide (w = v)) as [->|]; tauto.
      * intros w. rewrite H3, elem_of_cons, elem_of_union, elem_of_singleton. tauto.
Qed.

Section loop.
Context (b : AdjacencyBlock) (f : option RelTypeId) (d : Direction).
Hypothesis total : block_total b.

(** The neighbours an expand follows. *)
Definition adjacent (v : NodeIndex) : list NodeIndex := default [] (neighbors b f d v).

Lemma frontier_fold keep us st : foldl (expand_frontier b f d keep) (Some st) us =
  Some (foldl (collect_new keep) st (us ≫= adjacent)).
Proof using total.
  revert st. induction us as [|u us IH]; intros st; [done|]. cbn [foldl mbind list_bind].
  destruct (neighbors_total b total f d u) as [vs Hvs]. unfold expand_frontier at 2. cbn [mbind option_bind].
  rewrite Hvs. cbn [mbind option_bind]. rewrite IH, foldl_app. unfold adjacent at 2. by rewrite Hvs.
Qed.

Lemma hop_loop_spec n lo src : (1 ≤ lo)%nat → ∀ dist visited frontier found,
  layer adjacent src dist visited frontier → NoDup found →
  (∀ v, v ∈ found ↔ ∃ k, (lo ≤ k ≤ dist)%nat ∧ hops adjacent src v k) →
  ∃ res, hop_loop n b f d lo (S dist) visited frontier found = Some res ∧ NoDup res ∧
    ∀ v, v ∈ res ↔ ∃ k, (lo ≤ k ≤ dist + n)%nat ∧ hops adjacent src v k.
Proof using total.
  intros Hlo. induction n as [|n IH]; intros dist visited frontier found Hl Hnd Hfound; cbn [hop_loop].
  { exists found. by rewrite Nat.add_0_r. }
  rewrite frontier_fold. cbn [mbind option_bind].
  destruct (collect_fold (lo <=? S dist)%nat (frontier ≫= adjacent) visited [] found)
    as (vis & new & -> & Hn1 & Hn2 & Hn3). cbn [app].
  assert (layer adjacent src (S dist) vis new) as Hl'.
  { apply (layer_step _ _ dist visited frontier); [done| |done]. intros v. rewrite Hn2, list_elem_of_bind.
    split; intros [(u & ? & ?) ?]; (split; [by exists u|done]). }
  set (found' := if (lo <=? S dist)%nat then found ++ new else found).
  assert (∀ v, v ∈ found' ↔ ∃ k, (lo ≤ k ≤ S dist)%nat ∧ hops adjacent src v k) as Hf'.
  { intros v. unfold found'. destruct (Nat.leb_spec lo (S dist)) as [Hle|Hgt].
    - rewrite elem_of_app, Hfound, (ly_frontier _ _ _ _ _ Hl'). split.
      + intros [(k & Hk & Hh)|Hh]; [exists k; split; [lia|done]|exists (S dist); split; [lia|done]].
      + intros (k & Hk & Hh). destruct (decide (k = S dist)) as [->|]; [by right|left; exists k; split; [lia|done]].
    - rewrite Hfound. split; intros (k & Hk & Hh); exists k; (split; [lia|done]). }
  assert (NoDup found') as Hnd'.
  { unfold found'. destruct (lo <=? S dist)%nat; [|done]. apply NoDup_app. split_and!; [done| |done].
    intros v (k & Hk & [Hw _])%Hfound [_ Hnv]%Hn2. apply Hnv, (ly_visited _ _ _ _ _ Hl). exists k. split; [lia|done]. }
  destruct new as [|x new].
  - exists found'. split_and!; [done|done|]. intros v. rewrite Hf'. split; intros (k & Hk & Hh); exists k; (split; [|done]); [lia|].
    destruct (le_lt_dec k (S dist)) as [|Hgt]; [lia|]. exfalso.
    apply (no_layer adjacent src (S dist) k) with v; [|lia|done]. intros w Hw%(ly_frontier _ _ _ _ _ Hl'). by apply elem_of_nil in Hw.
  - destruct (IH (S dist) vis (x :: new) found' Hl' Hnd' Hf') as (res & Hres & Hr1 & Hr2). exists res. split_and!; [done|done|].
    intros v. rewrite Hr2. split; intros (k & Hk & Hh); exists k; (split; [lia|done]).
Qed.
End loop.

(** An expand over more than one hop lists, without repetition, exactly the
    nodes whose distance from the source along relationships of the type and
    direction lies within its bounds. *)
Lemma expand_within_bounds b e src :
  block_total b → (2 ≤ op_max_hops e)%N →
  ∃ found, expand_source b e src = Some found ∧ NoDup found ∧
    ∀ v, v ∈ found ↔ ∃ k, (N.max (op_min_hops e) 1 ≤ N.of_nat k ≤ op_max_hops e)%N ∧
      hops (adjacent b (op_rel_type_filter e) (op_direction e)) src v k.
Proof.
  intros Ht Hmax. unfold expand_source. replace (Nat.max (N.to_nat (op_max_hops e)) 1 =? 1)%nat with false
    by (symmetry; apply Nat.eqb_neq; lia).
  destruct (hop_loop_spec b (op_rel_type_filter e) (op_direction e) Ht (Nat.max (N.to_nat (op_max_hops e)) 1)
    (Nat.max (N.to_nat (op_min_hops e)) 1) src ltac:(lia) 0 {[src]} [src] []) as (found & -> & Hnd & Hf).
  - apply layer_start.
  - constructor.
  - intros v. split; [by intros ?%elem_of_nil|]. intros (k & Hk & _). lia.
  - exists found. split_and!; [done|done|]. intros v. rewrite Hf.
    split; intros (k & Hk & Hh); exists k; (split; [lia|done]).
Qed.
