(* ===== verification/QueryOptimizer.v ===== *)
(** The optimiser preserves the meaning of a query: pushing filters down changes
    no row, and reordering independent expands permutes the rows. *)

From stdpp Require Import base gmap sets strings numbers list.
From S2P Require Import Prelude.
From S2P Require Import Floats.
From S2P Require Import Graph.
From S2P Require Import QueryAst.
From S2P Require Import QueryPlan.
From S2P Require Import QueryExec.
From S2P Require Import QueryExecFacts.

(** ** Well-scoped plans *)

Fixpoint scoped (p : LogicalPlan) : Prop :=
  match p with
  | LP_Expand input e | LP_OptionalExpand input e => src_binding e ∈ output_bindings input ∧ scoped input
  | LP_Filter input _ | LP_Project input _ | LP_Limit input _ => scoped input
  | _ => True
  end.

(** A core plan whose sources are bound below them and whose bindings differ. *)
Record sound_plan (p : LogicalPlan) : Prop := {
  sp_core : is_core p;
  sp_scoped : scoped p;
  sp_nodup : NoDup (output_bindings p)
}.

Section optimiser.
Context (scan : option LabelId → list NodeIndex) (seed : string → list NodeIndex)
  (nb : ExpandArgs → NodeIndex → list NodeIndex).
Abbreviation den := (denote scan seed nb).

(** ** Filters *)

Lemma push_filters_output p : output_bindings (push_filters_down p) = output_bindings p.
Proof. induction p as [| |p IH e|p IH e|p IH preds|p IH outs|p IH n]; cbn; try done; try (by rewrite IH). destruct p; cbn in *; done. Qed.

Lemma passing_app ps qs rows : passing qs (passing ps rows) = passing (ps ++ qs) rows.
Proof. unfold passing. rewrite forallb_app. by destruct (forallb _ ps), (forallb _ qs). Qed.

Lemma push_filters_denote p : den (push_filters_down p) = den p.
Proof.
  induction p as [| |p IH e|p IH e|p IH preds|p IH outs|p IH n]; cbn [push_filters_down denote]; try done; try (by rewrite IH).
  destruct p; cbn [push_filters_down denote] in *; try done; try (by rewrite IH). by rewrite passing_app.
Qed.

Lemma push_filters_core p : is_core p → is_core (push_filters_down p).
Proof.
  induction p as [| |p IH e|p IH e|p IH preds|p IH outs|p IH n]; cbn; try done; try (by intros []; auto).
  destruct p; cbn in *; try done; auto.
Qed.

Lemma push_filters_scoped p : scoped p → scoped (push_filters_down p).
Proof.
  induction p as [| |p IH e|p IH e|p IH preds|p IH outs|p IH n]; cbn; try done; try (by rewrite push_filters_output; intros []; auto).
  destruct p; cbn in *; try done; auto.
Qed.

Lemma recurse_id p : recurse_without_reorder p = p.
Proof. induction p; cbn; by f_equal. Qed.

(** ** Rows as finite maps *)

Definition as_map (row : Row) : gmap SymbolId NodeIndex := list_to_map row.

Lemma row_lookup_map s row : s ∈ row.*1 → row_lookup s row = default u32_max (as_map row !! s).
Proof.
  intros Hs. unfold row_lookup. assert (find_map (λ b, if (b.1 =? s)%N then Some b.2 else None) row = as_map row !! s) as ->.
  - clear Hs. unfold as_map. induction row as [|[t v] row IH]; [done|].
    rewrite find_map_cons. cbn [fst snd list_to_map foldr]. destruct (N.eqb_spec t s) as [->|Hne].
    + by rewrite lookup_insert_eq.
    + by rewrite lookup_insert_ne.
  - destruct (as_map row !! s) eqn:E; [done|]. unfold as_map in E. by apply not_elem_of_list_to_map in E.
Qed.

Lemma as_map_snoc row s v : s ∉ row.*1 → as_map (row ++ [(s, v)]) = <[s := v]> (as_map row).
Proof.
  intros Hs. unfold as_map. rewrite list_to_map_app. cbn. rewrite <- insert_union_r by (by apply not_elem_of_list_to_map). by rewrite (right_id_L ∅ (∪)).
Qed.

(** The targets of an expand, a missing one for an optional expand included. *)
Definition targets_or_null (e : ExpandArgs) (opt : bool) (v : NodeIndex) : list NodeIndex :=
  match nb e v with [] => if opt then [u32_max] else [] | ds => ds end.
Definition extend_map (e : ExpandArgs) (opt : bool) (m : gmap SymbolId NodeIndex) : list (gmap SymbolId NodeIndex) :=
  (λ d, <[dst_binding e := d]> m) <$> targets_or_null e opt (default u32_max (m !! src_binding e)).

Lemma extend_as_map e opt row :
  src_binding e ∈ row.*1 → dst_binding e ∉ row.*1 → as_map <$> extend nb e opt row = extend_map e opt (as_map row).
Proof.
  intros Hs Hd. unfold extend, extend_map, targets_or_null. rewrite row_lookup_map by done.
  destruct (nb e _) as [|d ds]; [destruct opt; [|done]; cbn; by rewrite as_map_snoc|].
  rewrite <- list_fmap_compose. apply list_fmap_ext. intros _ x _. cbn. by rewrite as_map_snoc.
Qed.

Lemma sound_input p e (mk : LogicalPlan → ExpandArgs → LogicalPlan) :
  mk = LP_Expand ∨ mk = LP_OptionalExpand → sound_plan (mk p e) →
  sound_plan p ∧ rel_binding e = None ∧ src_binding e ∈ output_bindings p ∧ dst_binding e ∉ output_bindings p.
Proof.
  intros Hmk [Hc Hs Hn]. assert (rel_binding e = None ∧ is_core p ∧ src_binding e ∈ output_bindings p ∧ scoped p ∧
    NoDup (output_bindings p ++ option_list (rel_binding e) ++ [dst_binding e])) as (Hr & H1 & H2 & H3 & H4)
    by (destruct Hmk as [-> | ->]; cbn in *; tauto).
  rewrite Hr in H4. cbn in H4. apply NoDup_app in H4 as (H4 & H5 & _). split_and!; [by split|done|done|].
  intros Hin. by apply (H5 _ Hin); left.
Qed.

Lemma bind_as_map (rows : list Row) (f : Row → list Row) h :
  (∀ r, r ∈ rows → as_map <$> f r = h (as_map r)) → as_map <$> (rows ≫= f) = (as_map <$> rows) ≫= h.
Proof.
  intros Hh. induction rows as [|r rows IH]; [done|]. cbn [mbind list_bind fmap list_fmap].
  rewrite fmap_app, Hh by (by left). f_equal. apply IH. intros; apply Hh; by right.
Qed.

Lemma expand_as_map p e (opt : bool) (mk : LogicalPlan → ExpandArgs → LogicalPlan) :
  mk = (if opt then LP_OptionalExpand else LP_Expand) → sound_plan (mk p e) →
  as_map <$> den (mk p e) = (as_map <$> den p) ≫= extend_map e opt.
Proof.
  intros Hmk Hs. destruct (sound_input p e mk) as (Hp & Hr & Hsrc & Hdst); [destruct opt; auto|done|].
  assert (den (mk p e) = den p ≫= extend nb e opt) as -> by (subst mk; by destruct opt).
  apply bind_as_map. intros r Hin. pose proof (denote_keys _ _ _ p r (sp_core _ Hp) Hin) as Hk.
  apply extend_as_map; by rewrite Hk.
Qed.

(** ** Independent expands commute *)

Lemma bind_swap {A B C} (l1 : list A) (l2 : list B) (f : A → B → C) :
  l1 ≫= (λ x, f x <$> l2) ≡ₚ l2 ≫= (λ y, (λ x, f x y) <$> l1).
Proof.
  induction l1 as [|x l1 IH]; cbn [mbind list_bind].
  { induction l2 as [|y l2 IH2]; [done|]. cbn. exact IH2. }
  rewrite IH. clear IH. induction l2 as [|y l2 IH2]; [done|]. cbn. rewrite <- IH2. solve_Permutation.
Qed.

Lemma extend_commute e1 e2 m :
  dst_binding e1 ≠ src_binding e2 → dst_binding e2 ≠ src_binding e1 → dst_binding e1 ≠ dst_binding e2 →
  extend_map e1 false m ≫= extend_map e2 false ≡ₚ extend_map e2 false m ≫= extend_map e1 false.
Proof.
  intros H1 H2 H3. unfold extend_map.
  assert (∀ (ea eb : ExpandArgs) (l : list NodeIndex), dst_binding ea ≠ src_binding eb →
    ((λ d, <[dst_binding ea := d]> m) <$> l) ≫= (λ m0, (λ d, <[dst_binding eb := d]> m0) <$>
        targets_or_null eb false (default u32_max (m0 !! src_binding eb))) =
    l ≫= λ d, (λ d', <[dst_binding eb := d']> (<[dst_binding ea := d]> m)) <$>
        targets_or_null eb false (default u32_max (m !! src_binding eb))) as Hstep.
  { intros ea eb l Hne. induction l as [|d l IH]; [done|]. cbn [fmap list_fmap mbind list_bind].
    rewrite lookup_insert_ne by done. f_equal. exact IH. }
  rewrite !Hstep, bind_swap by done. apply reflexive_eq, list_bind_ext; [|done]. intros y.
  apply list_fmap_ext. intros _ x _. by rewrite insert_insert_ne by done.
Qed.

(** ** Reordering *)

Context (powi : f64 → N → f64) (stats : GraphCardinalityStats).

Record reordered (p q : LogicalPlan) : Prop := {
  ro_sound : sound_plan q;
  ro_outputs : output_bindings q ≡ₚ output_bindings p;
  ro_rows : as_map <$> den q ≡ₚ as_map <$> den p
}.

Lemma reordered_trans p q r : reordered p q → reordered q r → reordered p r.
Proof. intros [] []. split; [done|by etrans|by etrans]. Qed.

(** The same step on two reordered inputs. *)
Lemma reordered_expand p q e (opt : bool) (mk : LogicalPlan → ExpandArgs → LogicalPlan) :
  mk = (if opt then LP_OptionalExpand else LP_Expand) → sound_plan (mk p e) → reordered p q → reordered (mk p e) (mk q e).
Proof.
  intros Hmk Hs [[Hc Hsc Hn] Hout Hrows].
  destruct (sound_input p e mk) as (Hp & Hr & Hsrc & Hdst); [destruct opt; auto|done|].
  assert (∀ x, output_bindings (mk x e) = output_bindings x ++ [dst_binding e]) as Ho.
  { intros x. subst mk. destruct opt; cbn; by rewrite Hr. }
  assert (sound_plan (mk q e)) as Hq.
  { split.
    - subst mk. by destruct opt.
    - subst mk. destruct opt; cbn; by rewrite Hout.
    - rewrite Ho, Hout, <- Ho. apply Hs. }
  split; [done|by rewrite !Ho, Hout|].
  by rewrite (expand_as_map q e opt mk Hmk Hq), (expand_as_map p e opt mk Hmk Hs), Hrows.
Qed.

Lemma reordered_swap p lower e :
  sound_plan (LP_Expand (LP_Expand p lower) e) → independent p lower e = true →
  reordered (LP_Expand (LP_Expand p lower) e) (LP_Expand (LP_Expand p e) lower).
Proof.
  intros Hs Hi. unfold independent in Hi. rewrite !andb_true_iff, !bool_decide_eq_true, !negb_true_iff, !N.eqb_neq in Hi.
  destruct Hi as ((((Hls & Hes) & H1) & H2) & H3).
  destruct (sound_input _ e LP_Expand (or_introl eq_refl) Hs) as (Hs1 & Hr & _ & Hd).
  destruct (sound_input p lower LP_Expand (or_introl eq_refl) Hs1) as (Hp & Hlr & _ & Hld).
  cbn in Hd. rewrite Hlr in Hd. cbn in Hd. rewrite elem_of_app, list_elem_of_singleton in Hd.
  assert (sound_plan (LP_Expand p e)) as Hs2.
  { split; cbn; [by split; [|apply Hp]|by split; [|apply Hp]|]. rewrite Hr. cbn. apply NoDup_app.
    split_and!; [apply Hp| |apply NoDup_singleton]. intros x Hx ->%list_elem_of_singleton. tauto. }
  assert (sound_plan (LP_Expand (LP_Expand p e) lower)) as Hs3.
  { split; cbn; [by split_and!; [| |apply Hp]| |].
    - rewrite Hr. cbn. split_and!; [apply elem_of_app; by left|done|apply Hp].
    - rewrite Hr, Hlr. cbn. apply NoDup_app. split_and!.
      + pose proof (sp_nodup _ Hs2) as Hn. cbn in Hn. by rewrite Hr in Hn.
      + intros x [Hx| ->%list_elem_of_singleton]%elem_of_app Hl%list_elem_of_singleton; [by subst|congruence].
      + apply NoDup_singleton. }
  split; [done|cbn; rewrite Hr, Hlr; cbn; solve_Permutation|].
  rewrite (expand_as_map _ lower false LP_Expand eq_refl Hs3), (expand_as_map _ e false LP_Expand eq_refl Hs2).
  rewrite (expand_as_map _ e false LP_Expand eq_refl Hs), (expand_as_map _ lower false LP_Expand eq_refl Hs1).
  generalize (as_map <$> den p). intros l. induction l as [|m l IH]; [done|]. cbn [mbind list_bind].
  rewrite !bind_app. apply Permutation_app; [|exact IH]. apply extend_commute; congruence.
Qed.

Lemma reordered_place p q e :
  sound_plan (LP_Expand p e) → reordered p q → reordered (LP_Expand p e) (place_expand powi stats q e).
Proof.
  intros Hs Hpq. pose proof (reordered_expand p q e false LP_Expand eq_refl Hs Hpq) as Hq.
  unfold place_expand. destruct q as [| |q lower| | | |]; try done.
  destruct (independent q lower e) eqn:Hi; cbn [andb]; [|done].
  destruct (f64_lt _ _); [|done]. eapply reordered_trans; [exact Hq|]. apply reordered_swap; [apply Hq|done].
Qed.

Lemma reorder_reordered p : sound_plan p → reordered p (reorder_with powi stats p).
Proof.
  assert (∀ q, sound_plan q → reordered q q) as Hrefl by (intros q Hq; by split).
  induction p as [b l preds|b q k c|p IH e|p IH e|p IH preds|p IH outs|p IH n]; intros Hs; cbn [reorder_with];
    try (by apply Hrefl); try (by destruct (sp_core _ Hs)).
  - destruct (sound_input p e LP_Expand (or_introl eq_refl) Hs) as (Hp & _). apply reordered_place; [done|by apply IH].
  - destruct (sound_input p e LP_OptionalExpand (or_intror eq_refl) Hs) as (Hp & _).
    apply (reordered_expand p _ e true LP_OptionalExpand eq_refl Hs). by apply IH.
  - assert (sound_plan p) as Hp by (by destruct Hs; split). destruct (IH Hp) as [[Hc Hsc Hn] Ho Hrows].
    split; [by split|done|]. cbn [denote]. unfold passing. by destruct (forallb _ _).
Qed.

Lemma optimise_reordered p (st : option GraphCardinalityStats) :
  sound_plan p → st = None ∨ st = Some stats → reordered p (optimise powi p st).
Proof.
  intros [Hc Hs Hn] Hst. assert (sound_plan (push_filters_down p)) as Hp.
  { split; [by apply push_filters_core|by apply push_filters_scoped|by rewrite push_filters_output]. }
  assert (reordered (push_filters_down p) (optimise powi p st)) as [H1 H2 H3].
  { unfold optimise, reorder_expands_by_cost. destruct Hst as [-> | ->]; [rewrite recurse_id; by split|by apply reorder_reordered]. }
  split; [done|by rewrite H2, push_filters_output|by rewrite H3, push_filters_denote].
Qed.

(** A projected row depends on the bindings only. *)
Lemma project_row_map outs row :
  project_row outs row = omap (λ s, pair s <$> as_map row !! s) outs.
Proof.
  unfold project_row. apply list_omap_ext. apply Forall2_same_length_lookup. split; [done|]. intros i s t Hs Ht.
  assert (s = t) as -> by congruence. case_bool_decide as Hin.
  - rewrite row_lookup_map by done. destruct (as_map row !! t) eqn:E; [done|]. unfold as_map in E. by apply not_elem_of_list_to_map in E.
  - unfold as_map. apply not_elem_of_list_to_map in Hin. by rewrite Hin.
Qed.

Lemma reordered_project outs p q : reordered p q → den (LP_Project q outs) ≡ₚ den (LP_Project p outs).
Proof.
  intros [_ _ Hrows]. cbn [denote].
  assert (∀ rows : list Row, project_row outs <$> rows = (λ m : gmap N N, omap (λ s, pair s <$> m !! s) outs) <$> (as_map <$> rows)) as E.
  { intros rows. rewrite <- list_fmap_compose. apply list_fmap_ext. intros _ r _. apply project_row_map. }
  by rewrite !E, Hrows.
Qed.
End optimiser.
