(* ===== verification/QueryCorrect.v ===== *)
(** The query pipeline behind the parser, over the graphs the mutation applier
    builds: a compiled query runs to an end and returns the rows its plan denotes,
    and the optimiser changes at most their order.  Then path queries from their
    text to their rows: compiling the printed query and running the plan returns
    the paths of the graph. *)

From Stdlib Require Import Ascii.
From stdpp Require Import base gmap sets strings numbers list.
From S2P Require Import Prelude.
From S2P Require Import Floats.
From S2P Require Import Order.
From S2P Require Import Graph.
From S2P Require Import GraphFacts.
From S2P Require Import GraphSeal.
From S2P Require Import GraphSearch.
From S2P Require Import QueryAst.
From S2P Require Import QueryPlan.
From S2P Require Import QueryExec.
From S2P Require Import QueryExecFacts.
From S2P Require Import QueryOptimizer.
From S2P Require Import QueryLexer.
From S2P Require Import QueryParser.
From S2P Require Import QueryPrint.
From S2P Require Import QueryRoundtrip.

(** ** Generations reached by mutations expand without a panic *)

Section generations.
Context `{!SortUnstable}.

(** The generation a run of mutations leaves behind, and its sealed form. *)
Definition generation_of (ms : list GraphMutation) (g : GraphGeneration) : Prop :=
  ∃ n labels rels r a, graph_run ms (applier_new (new_mutable n) labels rels) = Some (r, a) ∧
    (g = ga_generation a ∨ seal (ga_generation a) = Some (Ok tt, g)).

Lemma generation_total ms g :
  (N.of_nat (mutations_size ms) < u32_max)%N → generation_of ms g →
  ∃ b, adjacency g = Some b ∧ block_total b.
Proof.
  intros Hsize (n & labels & rels & r & a & Hrun & Hg).
  destruct (graph_run_reaches n labels rels ms Hsize) as (a' & d & Hrun' & Hs & Hd & _).
  assert (a' = a) as -> by congruence. destruct Hg as [-> | Hg].
  - exists (BlockDelta (nodes_of a) d). split; [unfold adjacency; by rewrite (sim_unsealed _ _ _ Hs), (sim_mutable _ _ _ Hs)|].
    intros v f. destruct (chain_expansion a _ d f v Hs Hd) as (out & inc & -> & -> & _). by split; eexists.
  - destruct (sealed_block a _ d Hs Hd) as (g' & b & Hseal & Hadj & Hall). assert (g' = g) as -> by congruence.
    exists b. split; [done|]. intros v f. destruct (Hall v f) as (? & out & ? & inc & _ & -> & _ & _ & -> & _). by split; eexists.
Qed.
End generations.

(** ** The optimiser and the shape of a plan *)

Section shape.
Context (powi : f64 → N → f64) (stats : option GraphCardinalityStats).

Lemma optimise_limit_project limit outs p :
  optimise powi (add_limit limit (add_project outs p)) stats = add_limit limit (add_project outs (optimise powi p stats)).
Proof.
  unfold optimise, reorder_expands_by_cost, add_limit, add_project.
  by destruct limit, outs, stats; cbn [push_filters_down reorder_with recurse_without_reorder].
Qed.

Lemma place_shape st p e :
  rel_binding e = None → is_core p →
  is_core (place_expand powi st p e) ∧ output_bindings (place_expand powi st p e) ≡ₚ output_bindings p ++ [dst_binding e].
Proof.
  intros He Hp. assert (∀ q, is_core q → is_core (LP_Expand q e) ∧ output_bindings (LP_Expand q e) ≡ₚ output_bindings q ++ [dst_binding e]) as Hsame.
  { intros q Hq. cbn. by rewrite He. }
  unfold place_expand. destruct p as [| |p l| | | |]; try (by apply Hsame).
  destruct (_ && _); [|by apply Hsame]. destruct Hp as [Hl Hp]. cbn. rewrite Hl, He. cbn. split; [done|]. solve_Permutation.
Qed.

Lemma optimise_shape p :
  is_core p → is_core (optimise powi p stats) ∧ output_bindings (optimise powi p stats) ≡ₚ output_bindings p.
Proof.
  intros Hp%push_filters_core. rewrite <- (push_filters_output p). unfold optimise, reorder_expands_by_cost.
  destruct stats as [st|]; [|rewrite recurse_id; by split].
  induction (push_filters_down p) as [| |q IH e|q IH e|q IH preds|q IH outs|q IH n]; cbn in *; try done; try tauto.
  - destruct Hp as [He Hq]. destruct (IH Hq) as [H1 H2]. destruct (place_shape st _ e He H1) as [H3 H4].
    split; [done|]. by rewrite H4, H2, He.
  - destruct Hp as [He Hq]. destruct (IH Hq) as [H1 H2]. split; [by split|]. by rewrite He, H2.
Qed.
End shape.

Lemma denoted_limit g seeds b limit p :
  denoted g seeds b (add_limit limit p) =
    match limit with None => denoted g seeds b p | Some n => take (N.to_nat n) (denoted g seeds b p) end.
Proof. by destruct limit. Qed.

(** ** Optimised execution *)

(** [rows] is what LIMIT may keep of [all], in any order. *)
Definition limited {A} (limit : option N) (rows all : list A) : Prop :=
  match limit with
  | None => rows ≡ₚ all
  | Some n => rows ⊆+ all ∧ length rows = Nat.min (N.to_nat n) (length all)
  end.

Lemma limited_take {A} limit (rows all : list A) :
  rows ≡ₚ all → limited limit (match limit with None => rows | Some n => take (N.to_nat n) rows end) all.
Proof.
  intros Hp. destruct limit as [n|]; [|done]. split.
  - rewrite <- Hp. apply sublist_submseteq, sublist_take.
  - rewrite length_take. f_equal. by rewrite Hp.
Qed.

Section execution.
Context (g : GraphGeneration) (seeds : gmap string (list NodeIndex)) (b : AdjacencyBlock).
Context (powi : f64 → N → f64) (stats : option GraphCardinalityStats).
Hypothesis total : block_total b.
Hypothesis adj : adjacency g = Some b.

(** The rows of a projected plan as the executor hands them out. *)
Definition result_rows (outs : list SymbolId) (p : LogicalPlan) : list (list NodeIndex) :=
  fit (length (output_bindings p)) <$> values (denoted g seeds b (LP_Project p outs)).

Lemma optimised_denoted outs p : sound_plan p →
  denoted g seeds b (LP_Project (optimise powi p stats) outs) ≡ₚ denoted g seeds b (LP_Project p outs).
Proof.
  intros Hsound. apply reordered_project. destruct stats as [st|].
  - apply (optimise_reordered _ _ _ _ st); [done|by right].
  - apply (optimise_reordered _ _ _ _ (mkStats 0 0 ∅ ∅ (f64_of_Z 0) 0)); [done|by left].
Qed.

Lemma execute_optimised p outs limit :
  sound_plan p → outs ≠ [] →
  ∃ rows, execute g seeds (lower (optimise powi (add_limit limit (add_project outs p)) stats)) = Some rows ∧
    limited limit rows (result_rows outs p).
Proof using total adj.
  intros Hsound Hne. destruct (optimise_shape powi stats p (sp_core _ Hsound)) as [Hc Hout].
  pose proof (execute_core g seeds b total adj _ outs limit Hc) as E. cbn zeta in E.
  rewrite <- optimise_limit_project, (Permutation_length Hout) in E. eexists. split; [exact E|].
  rewrite optimise_limit_project, denoted_limit.
  assert (∀ q, add_project outs q = LP_Project q outs) as Hproj by (intros q; unfold add_project; by destruct outs).
  rewrite Hproj. pose proof (optimised_denoted outs p Hsound) as Hperm. unfold result_rows, values in *.
  destruct limit as [n|]; [rewrite !fmap_take; apply (limited_take (Some n))|apply (limited_take None)]; by rewrite Hperm.
Qed.

Lemma execute_projected p outs :
  is_core p → outs ≠ [] → execute g seeds (lower (add_project outs p)) = Some (result_rows outs p).
Proof using total adj.
  intros Hc Hne. pose proof (execute_core g seeds b total adj p outs None Hc) as E. cbn zeta in E. cbn [add_limit] in E.
  rewrite E. unfold add_project, result_rows. by destruct outs.
Qed.
End execution.

(** ** The theorems *)

Lemma fit_take w row : (length row ≤ w)%nat → take (length row) (fit w row) = row.
Proof.
  intros Hl. apply list_eq. intros i. destruct (decide (i < length row)%nat) as [Hi|Hi].
  - rewrite lookup_take_lt by done. unfold fit. rewrite list_lookup_fmap, lookup_seq_lt by lia.
    destruct (row !! i) eqn:E; [cbn; by rewrite E|]. apply lookup_ge_None in E. lia.
  - rewrite !lookup_ge_None_2; [done|lia|rewrite length_take; lia].
Qed.

Section pipeline.
Context `{!SortUnstable}.

(** C32: A query over unnamed relationships never panics, whatever its patterns,
    predicates, symbols and statistics: on every graph that mutations and
    sealing produce the executor returns one row per row its optimised plan
    denotes, in order, each beginning with the cells the plan denotes when these
    are no more than the plan's bindings, and no more rows than the limit. *)
Theorem query_returns ms g seeds powi stats ast symbols :
  (N.of_nat (mutations_size ms) < u32_max)%N → generation_of ms g → Forall no_rel_alias (patterns ast) →
  let q := optimise powi (build_logical_plan ast symbols) stats in
  ∃ b rows, adjacency g = Some b ∧ execute g seeds (lower q) = Some rows ∧
    Forall2 (λ row cells, (length cells ≤ length (output_bindings (core_plan ast symbols)))%nat → cells `prefix_of` row)
      rows (values (denoted g seeds b q)) ∧
    (∀ n, ret_limit (return_clause ast) = Some n → (length rows ≤ N.to_nat n)%nat).
Proof.
  intros Hsize Hg Hrel q. destruct (generation_total ms g Hsize Hg) as (b & Hadj & Htot).
  pose proof (core_plan_core ast symbols Hrel) as Hcore.
  destruct (optimise_shape powi stats _ Hcore) as [Hc Hout].
  assert (q = add_limit (ret_limit (return_clause ast)) (add_project (output_symbols ast symbols)
    (optimise powi (core_plan ast symbols) stats))) as Eq by apply optimise_limit_project.
  pose proof (execute_core g seeds b Htot Hadj _ (output_symbols ast symbols) (ret_limit (return_clause ast)) Hc) as He.
  cbn zeta in He. rewrite <- Eq in He. rewrite (Permutation_length Hout) in He.
  eexists b, _. split_and!; [done|exact He| |].
  { apply Forall2_fmap_l, Forall_Forall2_diag, Forall_true. intros cells Hw.
    rewrite <- (fit_take _ cells Hw) at 1. apply prefix_take. }
  intros n Hn. rewrite Eq, denoted_limit, Hn. unfold values. rewrite !length_fmap, length_take. lia.
Qed.

(** C31: The optimiser preserves results: for a plan in which no relationship is
    named, at least one item is returned, and expands start at nodes bound below
    them and bind nodes of their own, the optimised query without a limit
    returns the same rows as the plan as written, up to order; with LIMIT n it
    returns n of these rows, or all if there are fewer. *)
Theorem optimise_preserves_rows ms g seeds powi stats ast symbols :
  (N.of_nat (mutations_size ms) < u32_max)%N → generation_of ms g →
  sound_plan (core_plan ast symbols) → output_symbols ast symbols ≠ [] →
  ∃ all rows,
    execute g seeds (lower (add_project (output_symbols ast symbols) (core_plan ast symbols))) = Some all ∧
    execute g seeds (lower (optimise powi (build_logical_plan ast symbols) stats)) = Some rows ∧
    limited (ret_limit (return_clause ast)) rows all.
Proof.
  intros Hsize Hg Hsound Hne. destruct (generation_total ms g Hsize Hg) as (b & Hadj & Htot).
  destruct (execute_optimised g seeds b powi stats Htot Hadj _ _ (ret_limit (return_clause ast)) Hsound Hne) as (rows & E & Hl).
  exists (result_rows g seeds b (output_symbols ast symbols) (core_plan ast symbols)), rows.
  split_and!; [|exact E|done]. apply execute_projected; [done|done|apply Hsound|done].
Qed.
End pipeline.

(** ** The paths of a chain *)

(** The paths that extend [path] by the steps [hs]. *)
Fixpoint extensions (step : Hop → NodeIndex → list NodeIndex) (hs : list Hop) (path : list NodeIndex) :
    list (list NodeIndex) :=
  match hs with
  | [] => [path]
  | h :: hs => step h (default u32_max (last path)) ≫= λ d, extensions step hs (path ++ [d])
  end.

(** The nodes one step leads to from [v]. *)
Definition step_targets (b : AdjacencyBlock) (h : Hop) (v : NodeIndex) : list NodeIndex :=
  targets_of b (mkExpandOp 0 0 None (snd <$> h_type h) (h_direction h) (h_min h) (h_max h) false) v.

Definition chain_paths (g : GraphGeneration) (b : AdjacencyBlock) (c : Chain) : list (list NodeIndex) :=
  live_nodes (gg_nodes g) ≫= λ v, extensions (step_targets b) (ch_hops c) [v].

Definition chain_names (c : Chain) : list string := ch_start c :: (h_dst <$> ch_hops c).
Definition position (a : string) (names : list string) : option nat := fst <$> list_find (λ s, s = a) names.

(** The cells of the returned items, out of a path. *)
Definition returned (names : list string) (items : list ReturnItem) (path : list NodeIndex) : list NodeIndex :=
  omap (λ i, j ← position (return_alias i) names; path !! j) items.

(** ** Symbols in the order of the path *)

Record symbols_for (t : SymbolTable) (ns : list string) : Prop := {
  sf_names : sym_names t = ns;
  sf_ids a : sym_ids t !! a = N.of_nat <$> position a ns
}.

Lemma position_snoc a ns s :
  position a (ns ++ [s]) = match position a ns with
                           | Some j => Some j
                           | None => if decide (s = a) then Some (length ns) else None end.
Proof.
  unfold position. destruct (list_find (λ x, x = a) ns) as [[j x]|] eqn:E.
  - by rewrite (list_find_app_l _ _ _ _ _ E).
  - rewrite (list_find_app_r _ _ _ E). cbn. destruct (decide (s = a)); done.
Qed.

Lemma position_None a ns : position a ns = None ↔ a ∉ ns.
Proof.
  unfold position. rewrite fmap_None, list_find_None, Forall_forall. split; [|naive_solver].
  intros H Hin. by apply (H a).
Qed.

Lemma position_Some a ns j : NoDup ns → position a ns = Some j ↔ ns !! j = Some a.
Proof.
  intros Hnd. unfold position. split.
  - intros ([i x] & Hx & [= ->])%fmap_Some. by apply list_find_Some in Hx as (H1 & -> & _).
  - intros Hj. destruct (list_find (λ s, s = a) ns) as [[i x]|] eqn:E.
    + apply list_find_Some in E as (H1 & -> & _). cbn. f_equal. by eapply NoDup_lookup.
    + apply list_find_None in E. rewrite Forall_forall in E. destruct (E a); [by eapply list_elem_of_lookup_2|done].
Qed.

Lemma intern_symbols t ns s :
  symbols_for t ns → s ∉ ns → (lenN ns < u32_modulus)%N → symbols_for (intern s t) (ns ++ [s]).
Proof.
  intros [H1 H2] Hs Hlen. unfold intern. rewrite H2. apply position_None in Hs as Hp. rewrite Hp. cbn [fmap option_fmap option_map].
  split; cbn [sym_names sym_ids]; [by rewrite H1|]. intros a. rewrite position_snoc, H1.
  rewrite N.mod_small by done. destruct (decide (s = a)) as [->|Hne].
  - by rewrite lookup_insert_eq, Hp.
  - rewrite lookup_insert_ne, H2 by done. by destruct (position a ns).
Qed.

Lemma analyse_hops hs : ∀ t ns src errs,
  symbols_for t ns → src ∈ ns → NoDup (ns ++ (h_dst <$> hs)) → (lenN ns + lenN hs < u32_modulus)%N →
  Forall (λ h, (h_min h ≤ h_max h)%N) hs →
  ∃ t', foldl analyse_pattern (t, errs) (hop_patterns src hs) = (t', errs) ∧ symbols_for t' (ns ++ (h_dst <$> hs)).
Proof.
  induction hs as [|h hs IH]; intros t ns src errs Ht Hsrc Hnd Hlen Hr; [exists t; by rewrite app_nil_r|].
  inversion_clear Hr as [|? ? Hh Hhs]. cbn [fmap list_fmap] in *. rewrite cons_middle, (assoc_L (++)) in Hnd |- *.
  assert (h_dst h ∉ ns) as Hfresh.
  { apply NoDup_app in Hnd as (Hnd & _ & _). apply NoDup_app in Hnd as (_ & Hd & _). intros Hin. apply (Hd _ Hin). by left. }
  assert (foldl analyse_pattern (t, errs) (hop_patterns src (h :: hs)) =
    foldl analyse_pattern (intern (h_dst h) t, errs) (hop_patterns (h_dst h) hs)) as ->.
  { cbn [hop_patterns foldl]. f_equal. unfold hop_pattern, analyse_pattern, analyse_expand. cbn [max_hops min_hops src_alias dst_alias rel_alias intern_opt].
    replace (h_max h <? h_min h)%N with false by (symmetry; apply N.ltb_ge; done).
    unfold symbol_get. rewrite (sf_ids _ _ Ht). destruct (position src ns) eqn:E; [cbn; by rewrite !app_nil_r|].
    by apply position_None in E. }
  unfold lenN in Hlen. cbn [length] in Hlen. apply IH; [|apply elem_of_app; right; by left|done| |done].
  - apply intern_symbols; [done|done|unfold lenN; lia].
  - unfold lenN. rewrite length_app. cbn [length]. lia.
Qed.

(** ** The plan of a chain *)

Definition hop_args (k : nat) (h : Hop) : ExpandArgs :=
  mkExpandArgs (N.of_nat k) None (N.of_nat (S k)) (snd <$> h_type h) (h_direction h) (h_min h) (h_max h).

(** Step [k] leads from binding [k] to binding [k + 1]. *)
Fixpoint path_plan (k : nat) (hs : list Hop) (plan : LogicalPlan) : LogicalPlan :=
  match hs with
  | [] => plan
  | h :: hs => path_plan (S k) hs (LP_Expand plan (hop_args k h))
  end.

Lemma plan_hops t ns : symbols_for t ns → NoDup ns → ∀ hs k src plan,
  ns !! k = Some src → (∀ i h, hs !! i = Some h → ns !! (S k + i)%nat = Some (h_dst h)) →
  foldl (plan_pattern t) plan (hop_patterns src hs) = path_plan k hs plan.
Proof.
  intros Ht Hnd. assert (∀ a j, ns !! j = Some a → symbol_get a t = Some (N.of_nat j)) as Hget.
  { intros a j Hj. unfold symbol_get. rewrite (sf_ids _ _ Ht). by rewrite (proj2 (position_Some a ns j Hnd) Hj). }
  induction hs as [|h hs IH]; intros k src plan Hk Hall; [done|]. cbn [hop_patterns foldl path_plan].
  assert (ns !! S k = Some (h_dst h)) as Hd by (rewrite <- (Nat.add_0_r (S k)); by apply Hall).
  assert (plan_pattern t plan (hop_pattern src h) = LP_Expand plan (hop_args k h)) as ->.
  { unfold plan_pattern, hop_pattern, expand_args, binding_of, hop_args. cbn [src_alias dst_alias rel_alias pat_rel_type pat_direction min_hops max_hops mbind option_bind]. by rewrite (Hget _ _ Hk), (Hget _ _ Hd). }
  apply IH; [done|]. intros i h' Hi. rewrite <- (Hall (S i) h' Hi). f_equal. lia.
Qed.

Lemma path_plan_sound hs : ∀ k plan,
  sound_plan plan → output_bindings plan = N.of_nat <$> seq 0 (S k) →
  sound_plan (path_plan k hs plan) ∧ output_bindings (path_plan k hs plan) = N.of_nat <$> seq 0 (S k + length hs).
Proof.
  induction hs as [|h hs IH]; intros k plan [Hc Hs Hn] Ho; [by rewrite Nat.add_0_r|].
  cbn [path_plan length]. replace (S k + S (length hs))%nat with (S (S k) + length hs)%nat by lia.
  assert (output_bindings (LP_Expand plan (hop_args k h)) = N.of_nat <$> seq 0 (S (S k))) as Ho'.
  { cbn [output_bindings hop_args rel_binding dst_binding option_list app]. rewrite Ho, (seq_S (S k)), fmap_app. done. }
  apply IH; [|done]. split; [done| |rewrite Ho'; apply NoDup_fmap_2; [apply _|apply NoDup_seq]].
  split; [|done]. rewrite Ho. cbn [hop_args src_binding]. apply list_elem_of_fmap_2, elem_of_seq. lia.
Qed.

(** ** Rows in the order of the path *)

Definition keyed (vs : list NodeIndex) : Row := imap (λ i v, (N.of_nat i, v)) vs.

Lemma keyed_snoc vs v : keyed (vs ++ [v]) = keyed vs ++ [(N.of_nat (length vs), v)].
Proof. unfold keyed. rewrite imap_app. cbn. by rewrite Nat.add_0_r. Qed.

Lemma keyed_keys vs : (keyed vs).*1 = N.of_nat <$> seq 0 (length vs).
Proof.
  induction vs as [|v vs IH] using rev_ind; [done|]. rewrite keyed_snoc, fmap_app, IH, length_app.
  cbn [length]. by rewrite Nat.add_1_r, seq_S, fmap_app.
Qed.

Lemma as_map_keyed vs j : as_map (keyed vs) !! N.of_nat j = vs !! j.
Proof.
  induction vs as [|v vs IH] using rev_ind; [by rewrite lookup_nil|].
  rewrite keyed_snoc, as_map_snoc.
  - destruct (decide (j = length vs)) as [->|Hne].
    + rewrite lookup_insert_eq, lookup_app_r, Nat.sub_diag by done. done.
    + rewrite lookup_insert_ne, IH by lia. destruct (decide (j < length vs)%nat).
      * by rewrite lookup_app_l.
      * rewrite !lookup_ge_None_2; rewrite ?length_app; cbn [length]; try done; lia.
  - rewrite keyed_keys. intros (i & Hi & Hin)%list_elem_of_fmap. apply elem_of_seq in Hin. lia.
Qed.

Section rows.
Context (g : GraphGeneration) (seeds : gmap string (list NodeIndex)) (b : AdjacencyBlock).

Lemma extend_keyed k h vs : length vs = S k →
  extend (λ e, targets_of b (op_of e)) (hop_args k h) false (keyed vs) =
    (λ d, keyed (vs ++ [d])) <$> step_targets b h (default u32_max (last vs)).
Proof.
  intros Hl. unfold extend. rewrite row_lookup_map.
  2: { rewrite keyed_keys, Hl. cbn [hop_args src_binding]. apply list_elem_of_fmap_2, elem_of_seq. lia. }
  cbn [hop_args src_binding dst_binding]. rewrite as_map_keyed.
  assert (vs !! k = last vs) as -> by (by rewrite last_lookup, Hl).
  change (targets_of b (op_of (hop_args k h))) with (step_targets b h).
  assert (∀ l : list NodeIndex, (λ d, keyed vs ++ [(N.of_nat (S k), d)]) <$> l = (λ d, keyed (vs ++ [d])) <$> l) as E.
  { intros l. apply list_fmap_ext. intros _ d _. by rewrite keyed_snoc, Hl. }
  rewrite <- E. by destruct (step_targets b h _).
Qed.

Lemma denoted_path hs : ∀ k plan rows,
  denoted g seeds b plan = keyed <$> rows → Forall (λ vs, length vs = S k) rows →
  denoted g seeds b (path_plan k hs plan) = keyed <$> (rows ≫= extensions (step_targets b) hs).
Proof.
  induction hs as [|h hs IH]; intros k plan rows Hd Hlen; cbn [path_plan extensions].
  - rewrite Hd. f_equal. clear. induction rows as [|r rows IH]; [done|]. rewrite bind_cons, <- IH. done.
  - set (step := λ vs : list NodeIndex, (λ d, vs ++ [d]) <$> step_targets b h (default u32_max (last vs))).
    rewrite (IH (S k) _ (rows ≫= step)).
    + f_equal. clear. induction rows as [|r rows IH]; [done|]. rewrite !bind_cons, bind_app, IH. f_equal. unfold step.
      clear. induction (step_targets b h _) as [|d l IH]; [done|]. rewrite fmap_cons, !bind_cons, IH. done.
    + unfold denoted. cbn [denote]. fold (denoted g seeds b plan). rewrite Hd. clear Hd IH.
      induction Hlen as [|r rows Hr _ IH]; [done|]. rewrite fmap_cons, !bind_cons, IH, fmap_app. f_equal.
      rewrite extend_keyed by done. unfold step. by rewrite <- list_fmap_compose.
    + apply Forall_forall. intros vs (r & Hin & Hr)%list_elem_of_bind. rewrite Forall_forall in Hlen.
      unfold step in Hin. apply list_elem_of_fmap in Hin as (d & -> & _). rewrite length_app, (Hlen r Hr). cbn. lia.
Qed.
End rows.

(** ** Path queries *)

(** One chain of distinctly named nodes, whose items name nodes of it. *)
Record path_query (rels : Catalog) (q : Query) (c : Chain) : Prop := {
  pq_ok : query_ok rels q;
  pq_chain : q_chains q = [c];
  pq_names : NoDup (chain_names c);
  pq_small : (lenN (chain_names c) < u32_modulus)%N;
  pq_hops : Forall (λ h, (h_min h ≤ h_max h)%N) (ch_hops c);
  pq_items : Forall (λ i, return_alias i ∈ chain_names c) (q_items q)
}.

Lemma path_analyse rels q c : path_query rels q c →
  ∃ t, analyse (ast_of q) = Ok t ∧ symbols_for t (chain_names c).
Proof.
  intros [Hok Hc Hnd Hsmall Hhops Hitems]. unfold analyse, ast_of. cbn [vector_match patterns return_clause ret_items].
  rewrite Hc. cbn [mbind list_bind]. rewrite app_nil_r. unfold chain_patterns. cbn [foldl analyse_pattern fst snd].
  assert (symbols_for symbols_new []) as H0 by (split; [done|]; done).
  unfold chain_names, lenN in *. cbn [length] in Hsmall. rewrite length_fmap in Hsmall.
  destruct (analyse_hops (ch_hops c) (intern (ch_start c) symbols_new) [ch_start c] (ch_start c) []) as (t & E & Ht).
  - apply (intern_symbols _ [] (ch_start c)); [done|apply not_elem_of_nil|done].
  - by left.
  - done.
  - unfold lenN. cbn [length]. lia.
  - done.
  - rewrite E. cbn [app]. assert (omap (undeclared t) (q_items q) = []) as ->; [|by exists t].
    clear -Hitems Ht. induction Hitems as [|i its Hi _ IH]; [done|]. cbn [omap list_omap]. unfold undeclared at 1, symbol_get.
    rewrite (sf_ids _ _ Ht). destruct (position (return_alias i) _) eqn:Ep; [done|]. by apply position_None in Ep.
Qed.

Lemma path_core rels q c t : path_query rels q c → symbols_for t (chain_names c) →
  core_plan (ast_of q) t = add_filter (option_list (q_where q)) (path_plan 0 (ch_hops c) (LP_NodeScan 0 None [])).
Proof.
  intros [Hok Hc Hnd Hsmall Hhops Hitems] Ht. unfold core_plan, ast_of. cbn [where_clause patterns]. f_equal.
  unfold root_scan. cbn [vector_match patterns]. rewrite Hc. cbn [mbind list_bind]. rewrite app_nil_r.
  unfold chain_patterns. rewrite find_map_cons. cbn [node_of]. rewrite find_map_cons. cbn [predicates_for].
  rewrite bool_decide_true by done. cbn [default].
  assert (binding_of t (ch_start c) = 0%N) as ->.
  { unfold binding_of, symbol_get. rewrite (sf_ids _ _ Ht). unfold chain_names, position. cbn. by rewrite decide_True. }
  cbn [foldl plan_pattern]. eapply plan_hops; [exact Ht|done|done|]. intros i h Hi. change ((h_dst <$> ch_hops c) !! i = Some (h_dst h)). by rewrite list_lookup_fmap, Hi.
Qed.

Section end_to_end.
Context (g : GraphGeneration) (seeds : gmap string (list NodeIndex)) (b : AdjacencyBlock).

(** The rows of the query: the paths, if the predicate holds, cut to the items. *)
Definition path_rows (q : Query) (c : Chain) : list (list NodeIndex) :=
  if forallb eval_predicate (option_list (q_where q))
  then fit (length (chain_names c)) ∘ returned (chain_names c) (q_items q) <$> chain_paths g b c
  else [].

Lemma denoted_filter preds p : denoted g seeds b (add_filter preds p) = passing preds (denoted g seeds b p).
Proof. by destruct preds. Qed.

Lemma output_filter preds p : output_bindings (add_filter preds p) = output_bindings p.
Proof. by destruct preds. Qed.

Lemma sound_filter preds p : sound_plan p → sound_plan (add_filter preds p).
Proof. intros [H1 H2 H3]. by destruct preds; split. Qed.

Lemma project_keyed names items t vs :
  symbols_for t names →
  (project_row (omap (λ i, symbol_get (return_alias i) t) items) (keyed vs)).*2 = returned names items vs.
Proof.
  intros Ht. rewrite project_row_map. unfold returned. induction items as [|i items IH]; [done|].
  cbn [omap list_omap]. unfold symbol_get at 1. rewrite (sf_ids _ _ Ht).
  destruct (position (return_alias i) names) as [j|]; cbn [fmap option_fmap option_map mbind option_bind]; [|exact IH].
  cbn [omap list_omap]. rewrite as_map_keyed. destruct (vs !! j); cbn [fmap option_fmap option_map list_fmap snd]; [f_equal|]; exact IH.
Qed.

Lemma path_result rels q c t : path_query rels q c → symbols_for t (chain_names c) →
  sound_plan (core_plan (ast_of q) t) ∧
  result_rows g seeds b (output_symbols (ast_of q) t) (core_plan (ast_of q) t) = path_rows q c.
Proof.
  intros Hq Ht. rewrite (path_core rels q c t Hq Ht).
  assert (sound_plan (LP_NodeScan 0 None [])) as Hscan by (split; [done|done|apply NoDup_singleton]).
  destruct (path_plan_sound (ch_hops c) 0 _ Hscan eq_refl) as [Hs Ho]. split; [by apply sound_filter|].
  unfold result_rows. rewrite output_filter, Ho, length_fmap, length_seq.
  replace (1 + length (ch_hops c))%nat with (length (chain_names c)) by (unfold chain_names; cbn; by rewrite length_fmap).
  assert (denoted g seeds b (LP_NodeScan 0 None []) = keyed <$> ((λ v, [v]) <$> live_nodes (gg_nodes g))) as Hd.
  { unfold denoted. cbn [denote]. unfold passing, scan_nodes. cbn [forallb]. rewrite filter_all by done.
    by rewrite <- list_fmap_compose. }
  pose proof (denoted_path g seeds b (ch_hops c) 0 _ _ Hd) as Hp.
  assert (denoted g seeds b (LP_Project (add_filter (option_list (q_where q)) (path_plan 0 (ch_hops c) (LP_NodeScan 0 None [])))
    (output_symbols (ast_of q) t)) = project_row (output_symbols (ast_of q) t) <$>
      passing (option_list (q_where q)) (keyed <$> chain_paths g b c)) as ->.
  { unfold denoted. cbn [denote]. fold (denoted g seeds b). rewrite denoted_filter, Hp.
    - do 3 f_equal. unfold chain_paths. clear. induction (live_nodes (gg_nodes g)) as [|v l IH]; [done|].
      rewrite fmap_cons, !bind_cons, IH. done.
    - apply Forall_forall. by intros vs (v & -> & _)%list_elem_of_fmap. }
  unfold path_rows, passing. destruct (forallb eval_predicate _); [|done]. unfold values. rewrite <- !list_fmap_compose.
  apply list_fmap_ext. intros _ vs _. cbn [compose]. f_equal. by apply project_keyed.
Qed.
End end_to_end.

(** ** Paths of the abstract graph *)

(** The nodes one relationship away in a direction, along a type, deleted nodes
    and relationships left out. *)
Definition s_adjacent (near far : SRel → NodeIndex) (s : SGraph) (f : option RelTypeId) (u : NodeIndex) : list NodeIndex :=
  far <$> filter (λ r, near r = u ∧ type_matches f (sr_type r) = true ∧ s_alive s (sr_src r) ∧ s_alive s (sr_dst r)) (s_rels s).
Definition s_neighbors (s : SGraph) (f : option RelTypeId) (d : Direction) (u : NodeIndex) : list NodeIndex :=
  match d with
  | Outgoing => s_adjacent sr_src sr_dst s f u
  | Incoming => s_adjacent sr_dst sr_src s f u
  | Undirected => s_adjacent sr_src sr_dst s f u ++ s_adjacent sr_dst sr_src s f u
  end.

(** Where a step leads: along one relationship, or to a node whose distance lies
    within the bounds. *)
Definition s_leads (s : SGraph) (h : Hop) (u v : NodeIndex) : Prop :=
  let E := s_neighbors s (snd <$> h_type h) (h_direction h) in
  if (h_max h <=? 1)%N then v ∈ E u
  else ∃ k, (N.max (h_min h) 1 ≤ N.of_nat k ≤ h_max h)%N ∧ hops E u v k.

Fixpoint leads_on (R : Hop → NodeIndex → NodeIndex → Prop) (hs : list Hop) (u : NodeIndex) (vs : list NodeIndex) : Prop :=
  match hs, vs with
  | [], [] => True
  | h :: hs, v :: vs => R h u v ∧ leads_on R hs v vs
  | _, _ => False
  end.

(** The nodes of a path along the chain: the first is live, each step leads to
    the next. *)
Definition s_path (s : SGraph) (c : Chain) (path : list NodeIndex) : Prop :=
  match path with [] => False | u :: vs => s_alive s u ∧ leads_on (s_leads s) (ch_hops c) u vs end.

Lemma extensions_spec step R hs : (∀ h u v, v ∈ step h u ↔ R h u v) → ∀ pre u p,
  p ∈ extensions step hs (pre ++ [u]) ↔ ∃ vs, p = pre ++ u :: vs ∧ leads_on R hs u vs.
Proof.
  intros Hstep. induction hs as [|h hs IH]; intros pre u p; cbn [extensions].
  - rewrite list_elem_of_singleton. split; [intros ->; by exists []|]. by intros ([|] & -> & ?).
  - rewrite list_elem_of_bind. setoid_rewrite last_snoc. cbn [default]. setoid_rewrite IH. setoid_rewrite <- (assoc_L (++)). split.
    + intros (v & (vs & -> & Hvs) & Hv%Hstep). by exists (v :: vs).
    + intros ([|v vs] & -> & Hl); [done|]. destruct Hl as [Hv%Hstep Hvs]. exists v. split; [by exists vs|done].
Qed.

Lemma leads_on_length R hs : ∀ u vs, leads_on R hs u vs → length vs = length hs.
Proof. induction hs as [|h hs IH]; intros u [|v vs]; cbn; [done..|]. intros [_ Hl]. f_equal. by eapply IH. Qed.

Lemma hops_ext E F s v k : (∀ x y, y ∈ E x ↔ y ∈ F x) → hops E s v k ↔ hops F s v k.
Proof.
  intros HEF. assert (∀ j, walk E s v j ↔ walk F s v j) as Hw by (intros j; split; apply walk_ext; naive_solver).
  unfold hops. rewrite Hw. by setoid_rewrite Hw.
Qed.

Lemma elem_live_nodes (a : NodeArena) v : v ∈ live_nodes a ↔ na_live a !! N.to_nat v = Some true.
Proof.
  unfold live_nodes. rewrite list_elem_of_omap. split.
  - intros ([j l] & Hin & Hl). apply list_elem_of_lookup in Hin as [i Hi]. rewrite list_lookup_imap in Hi.
    apply fmap_Some in Hi as (l' & Hl' & [= -> ->]). destruct l'; [|done]. cbn in Hl. injection Hl as <-. by rewrite Nat2N.id.
  - intros Hl. exists (N.to_nat v, true). split; [|cbn; by rewrite N2Nat.id].
    apply list_elem_of_lookup. exists (N.to_nat v). by rewrite list_lookup_imap, Hl.
Qed.

Lemma path_outputs rels q c t : path_query rels q c → symbols_for t (chain_names c) → output_symbols (ast_of q) t ≠ [].
Proof.
  intros Hq Ht. pose proof (qo_item _ _ (pq_ok _ _ _ Hq)) as Hi. pose proof (pq_items _ _ _ Hq) as Hall.
  unfold output_symbols, ast_of. cbn [return_clause ret_items]. destruct Hall as [|i its Hin _]; [done|].
  cbn [omap list_omap]. unfold symbol_get at 1. rewrite (sf_ids _ _ Ht).
  destruct (position (return_alias i) (chain_names c)) eqn:Ep; [done|]. by apply position_None in Ep.
Qed.

Section sealed_graphs.
Context `{!SortUnstable}.

(** The generation a run of mutations leaves behind, sealed. *)
Definition sealed_generation_of (ms : list GraphMutation) (g : GraphGeneration) : Prop :=
  ∃ n labels rels r a, graph_run ms (applier_new (new_mutable n) labels rels) = Some (r, a) ∧
    seal (ga_generation a) = Some (Ok tt, g).

Lemma seal_keeps_nodes g g' : seal g = Some (Ok tt, g') → gg_nodes g' = gg_nodes g.
Proof.
  unfold seal. destruct (sealed g); [done|]. destruct (edge_delta g); [|done].
  destruct (csr_build _ _ _); [|done]. cbn [mbind option_bind]. destruct (csc_build _ _ _); [|done]. cbn. by intros [= <-].
Qed.

Lemma sealed_targets a s d f v out out' near far snear sfar :
  graph_sim a s d → (∀ e r, src_node e = sr_src r → dst_node e = sr_dst r → near e = snear r ∧ far e = sfar r) →
  (∀ r, s_alive s (sr_src r) ∧ s_alive s (sr_dst r) ↔ s_alive s (snear r) ∧ s_alive s (sfar r)) →
  (arena_is_live v (nodes_of a) = true → out = expand_chain far f (reverse (filter (λ e, near e.2 = v) (live_edges d)))) →
  (arena_is_live v (nodes_of a) = false → out = []) →
  sealed_listing (nodes_of a) out out' → ∀ w, w ∈ out'.*1 ↔ w ∈ s_adjacent snear sfar s f v.
Proof.
  intros Hs Hends Hboth Hl Hd [Hp _] w. unfold s_adjacent. rewrite (Permutation_map fst Hp : out'.*1 ≡ₚ _).
  rewrite !list_elem_of_fmap. setoid_rewrite list_elem_of_filter. setoid_rewrite Hboth.
  setoid_rewrite (alive_sim a s _ (sim_n _ _ _ Hs)).
  pose proof (sim_rels _ _ _ (sim_r _ _ _ Hs)) as Hrels.
  destruct (arena_is_live v (nodes_of a)) eqn:Hv.
  2: { rewrite Hd by done. split; [by intros (? & _ & _ & ?%elem_of_nil)|]. intros (r & _ & (<- & _ & Ha & _) & _). congruence. }
  rewrite Hl by done. unfold expand_chain. setoid_rewrite list_elem_of_omap. setoid_rewrite elem_of_reverse.
  setoid_rewrite list_elem_of_filter. split.
  - intros (x & -> & Hx & e & (Hn & He) & Hm). destruct (type_matches f (rel_type e.2)) eqn:Et; [|done].
    injection Hm as <-. apply list_elem_of_lookup_1 in He as [i Hi].
    destruct (Forall2_lookup_l _ _ _ _ _ Hrels Hi) as (r & Hr & _ & Es & Ed & Ety & _).
    destruct (Hends _ _ Es Ed) as [En Ef]. exists r. rewrite <- Ef, <- En, <- Ety. cbn. split_and!; try done.
    + by rewrite Hn.
    + by eapply list_elem_of_lookup_2.
  - intros (r & -> & (Hn & Ht & Ha & Hb) & Hr). apply list_elem_of_lookup_1 in Hr as [i Hi].
    destruct (Forall2_lookup_r _ _ _ _ _ Hrels Hi) as (e & He & _ & Es & Ed & Ety & _).
    destruct (Hends _ _ Es Ed) as [En Ef]. exists (far e.2, weight e.2). cbn. rewrite Ef. split_and!; try done.
    exists e. rewrite Ety, Ht. split_and!; [by rewrite En|by eapply list_elem_of_lookup_2|by rewrite Ef].
Qed.

(** In a sealed generation a scan lists the live nodes and a step leads where it
    leads in the abstract graph. *)
Lemma sealed_steps ms g :
  (N.of_nat (mutations_size ms) < u32_max)%N → sealed_generation_of ms g →
  let s := (s_run ms s_empty).2 in
  ∃ b, adjacency g = Some b ∧ block_total b ∧ (∀ v, v ∈ live_nodes (gg_nodes g) ↔ s_alive s v) ∧
    ∀ h u v, v ∈ step_targets b h u ↔ s_leads s h u v.
Proof.
  intros Hsize (n & labels & rels & r & a & Hrun & Hg) s.
  destruct (graph_run_reaches n labels rels ms Hsize) as (a' & d & Hrun' & Hs & Hd & _).
  assert (a' = a) as -> by congruence. fold s in Hs.
  destruct (sealed_block a s d Hs Hd) as (g' & b & Hseal & Hadj & Hall). assert (g' = g) as -> by congruence.
  assert (gg_nodes g = nodes_of a) as Hnodes by (by eapply seal_keeps_nodes).
  assert (block_total b) as Htot.
  { intros v f. destruct (Hall v f) as (? & out & ? & inc & _ & -> & _ & _ & -> & _). by split; eexists. }
  exists b. split_and!; [done|done| |].
  { intros v. rewrite elem_live_nodes, Hnodes, (alive_sim a s v (sim_n _ _ _ Hs)). unfold arena_is_live.
    destruct (na_live (nodes_of a) !! N.to_nat v) as [[]|]; done. }
  assert (∀ f dir u v, v ∈ adjacent b f dir u ↔ v ∈ s_neighbors s f dir u) as Hnb.
  { intros f dir u v. destruct (Hall u f) as (out & out' & inc & inc' & Ho & Ho' & Hlo & Hi & Hi' & Hli).
    destruct (chain_expansion a s d f u Hs Hd) as (out1 & inc1 & E1 & E2 & Hlive & Hdead). simplify_eq.
    pose proof (sealed_targets a s d f u out out' src_node dst_node sr_src sr_dst Hs ltac:(done) ltac:(done)
      (λ l, proj1 (Hlive l)) (λ l, proj1 (Hdead l)) Hlo v) as Hout.
    pose proof (sealed_targets a s d f u inc inc' dst_node src_node sr_dst sr_src Hs ltac:(done) ltac:(tauto)
      (λ l, proj2 (Hlive l)) (λ l, proj2 (Hdead l)) Hli v) as Hinc.
    unfold adjacent, neighbors. destruct dir;
      repeat match goal with |- context [bool_decide (?x = ?y)] => let r := eval vm_compute in (bool_decide (x = y)) in
        change (bool_decide (x = y)) with r end;
      rewrite ?Ho', ?Hi'; cbn [mbind option_bind default s_neighbors fmap list_fmap app]; rewrite ?app_nil_r; [exact Hout|exact Hinc|].
    unfold id. by rewrite !elem_of_app, Hout, Hinc. }
  intros h u v. unfold step_targets, s_leads, targets_of. destruct (N.leb_spec (h_max h) 1) as [Hle|Hgt].
  - unfold expand_source. cbn [op_min_hops op_max_hops op_rel_type_filter op_direction].
    replace (Nat.max (N.to_nat (h_max h)) 1 =? 1)%nat with true by (symmetry; apply Nat.eqb_eq; lia). apply Hnb.
  - destruct (expand_within_bounds b (mkExpandOp 0 0 None (snd <$> h_type h) (h_direction h) (h_min h) (h_max h) false) u Htot)
      as (found & -> & _ & Hf); [cbn; lia|]. cbn [default op_min_hops op_max_hops op_rel_type_filter op_direction] in Hf |- *.
    rewrite Hf. by setoid_rewrite (hops_ext _ _ u v _ (Hnb _ _)).
Qed.
End sealed_graphs.
Lemma limited_fmap {A B} (f : A → B) limit rows all : limited limit rows all → limited limit (f <$> rows) (f <$> all).
Proof.
  destruct limit as [n|]; cbn.
  - intros [Hs Hl]. rewrite !length_fmap. split; [by apply fmap_submseteq|done].
  - by intros ->.
Qed.

Lemma returned_length names items path :
  NoDup names → Forall (λ i, return_alias i ∈ names) items → length path = length names →
  length (returned names items path) = length items.
Proof.
  intros Hnd Hall Hlen. unfold returned. induction Hall as [|i items Hi _ IH]; [done|]. cbn [omap list_omap].
  destruct (position (return_alias i) names) as [j|] eqn:Ep; [|by apply position_None in Ep].
  cbn [mbind option_bind]. apply position_Some in Ep; [|done]. apply lookup_lt_Some in Ep.
  destruct (lookup_lt_is_Some_2 path j) as [x ->]; [by rewrite Hlen|]. cbn. by f_equal.
Qed.

(** C28: A path query from its text to its rows: for a chain of distinctly named
    nodes with typed, directed, bounded steps, without WHERE and with no more
    returned items than nodes, the printed query compiles, and running the plan
    on the sealed generation of any accepted sequence of mutations returns rows
    whose leading cells, one per column name, are up to order those of a list
    that holds exactly the returned nodes of the paths of the abstract graph
    along the chain, or as many of them as the limit allows. A path starts at a
    live node; a one-hop step follows a relationship between live nodes, a step
    with a maximum of two hops or more leads to a node whose distance lies
    within its bounds. *)
Theorem path_query_correct `{!SortUnstable} ms g seeds powi stats labels rels q c :
  (N.of_nat (mutations_size ms) < u32_max)%N → (s_run ms s_empty).1 = Ok tt → sealed_generation_of ms g →
  path_query rels q c → q_where q = None → (length (q_items q) ≤ length (chain_names c))%nat →
  let s := (s_run ms s_empty).2 in
  ∃ cq p' rows all,
    compile powi (query_text q) labels rels stats = Some (Ok cq, p') ∧
    column_names cq = column_name <$> q_items q ∧
    execute g seeds (cq_plan cq) = Some rows ∧
    limited (q_limit q) (take (length (column_names cq)) <$> rows) all ∧
    ∀ cells, cells ∈ all ↔ ∃ path, s_path s c path ∧ cells = returned (chain_names c) (q_items q) path.
Proof.
  intros Hsize _ Hg Hq Hw Hwidth s. destruct (sealed_steps ms g Hsize Hg) as (b & Hadj & Htot & Hlive & Hstep). fold s in Hlive, Hstep.
  destruct (reads_query_text labels rels q (pq_ok _ _ _ Hq)) as (ast & p' & E & -> & _).
  destruct (path_analyse rels q c Hq) as (t & Ea & Ht).
  destruct (path_result g seeds b rels q c t Hq Ht) as [Hsound Hrows].
  destruct (execute_optimised g seeds b powi stats Htot Hadj _ _ (q_limit q) Hsound (path_outputs rels q c t Hq Ht)) as (rows & Er & Hl).
  assert (∀ path, path ∈ chain_paths g b c ↔ s_path s c path) as Hpaths.
  { intros path. unfold chain_paths. rewrite list_elem_of_bind. setoid_rewrite (extensions_spec _ _ _ Hstep []). cbn [app]. split.
    - intros (v & (vs & -> & Hvs) & Hv%Hlive). by split.
    - destruct path as [|v vs]; [done|]. intros [Hv Hvs]. exists v. split; [by exists vs|by apply Hlive]. }
  rewrite Hrows in Hl. unfold path_rows in Hl. rewrite Hw in Hl. change (forallb eval_predicate (option_list None)) with true in Hl.
  apply (limited_fmap (take (length (q_items q)))) in Hl.
  eexists _, p', rows, _. unfold compile, parse_query. rewrite E. cbn [mbind option_bind]. rewrite Ea.
  split; [done|]. cbn [column_names cq_plan]. split; [done|]. split; [exact Er|]. rewrite length_fmap. split; [exact Hl|].
  assert (∀ path, s_path s c path → take (length (q_items q)) (fit (length (chain_names c)) (returned (chain_names c) (q_items q) path)) =
    returned (chain_names c) (q_items q) path) as Hcells.
  { intros path Hp. assert (length path = length (chain_names c)) as Hlen.
    { destruct path as [|v vs]; [done|]. destruct Hp as [_ Hp]. apply leads_on_length in Hp. unfold chain_names. cbn. by rewrite Hp, length_fmap. }
    rewrite <- (returned_length (chain_names c) (q_items q) path (pq_names _ _ _ Hq) (pq_items _ _ _ Hq) Hlen) at 1.
    apply fit_take. rewrite (returned_length _ _ _ (pq_names _ _ _ Hq) (pq_items _ _ _ Hq) Hlen). done. }
  intros cells. rewrite <- list_fmap_compose, list_elem_of_fmap. split.
  - intros (path & -> & Hp%Hpaths). exists path. split; [done|]. by apply Hcells.
  - intros (path & Hp & ->). exists path. split; [symmetry; by apply Hcells|by apply Hpaths].
Qed.
