(* ===== verification/QuerySamples.v ===== *)
(** Small graphs and sample queries: the witnesses of the graph and query theorems,
    and runs that show what the engine does with deleted nodes, half-applied batches
    and uneven rows, and what the pipeline does with named relationships, labelled
    targets, padded rows and predicates it cannot evaluate. *)

From Stdlib Require Import Ascii.
From stdpp Require Import base gmap sets strings numbers list sorting relations fin_maps.
From S2P Require Import Prelude.
From S2P Require Import Floats.
From S2P Require Import Order.
From S2P Require Import ClusterSamples.
From S2P Require Import Graph.
From S2P Require Import GraphFacts.
From S2P Require Import GraphSeal.
From S2P Require Import GraphAnalytics.
From S2P Require Import GraphSearch.
From S2P Require Import GraphComponents.
From S2P Require Import QueryLexer.
From S2P Require Import QueryAst.
From S2P Require Import QueryParser.
From S2P Require Import QueryPrint.
From S2P Require Import QueryRoundtrip.
From S2P Require Import QueryPlan.
From S2P Require Import QueryExec.
From S2P Require Import QueryExecFacts.
From S2P Require Import QueryOptimizer.
From S2P Require Import QueryCorrect.

#[local] Existing Instance sample_sort.

Definition one : b32 := f32_of_Z 1.
Definition node (id : string) : GraphMutation := CreateNode id [] ∅ None.
Definition edge (rid : N) (src dst : string) : GraphMutation := CreateRelationship rid src dst 1 ∅ one.

(** a → b → c → d, with a shortcut over e, which is deleted again. *)
Definition sample_mutations : list GraphMutation :=
  [node "a"; node "b"; node "c"; node "d"; node "e";
   edge 1 "a" "b"; edge 2 "b" "c"; edge 3 "c" "d"; edge 4 "a" "e"; edge 5 "e" "d"; DeleteNode "e"].

Definition empty_applier : GraphMutationApplier := applier_new (new_mutable 0) catalog_new catalog_new.
Definition run_state (ms : list GraphMutation) : option GraphMutationApplier := snd <$> graph_run ms empty_applier.

Lemma graph_refines_witness :
  let s := (s_run sample_mutations s_empty).2 in
  ∃ a b, graph_run sample_mutations empty_applier = Some (Ok tt, a) ∧
    adjacency (ga_generation a) = Some b ∧
    (∀ id, resolve_node id a = sn_idx <$> s_nodes s !! id) ∧
    gen_edge_count (ga_generation a) = length (s_rels s) ∧
    ∀ id n, s_nodes s !! id = Some n →
      get_node_properties (sn_idx n) (props_of a) = sn_props n ∧
      ∀ f, ∃ out inc,
        expand_out b (sn_idx n) f = Some out ∧ expand_in b (sn_idx n) f = Some inc ∧
        filter (λ x, s_alive s x.1) out = filter (λ x, s_alive s x.1) (s_expand sr_src sr_dst f (sn_idx n) s) ∧
        filter (λ x, s_alive s x.1) inc = filter (λ x, s_alive s x.1) (s_expand sr_dst sr_src f (sn_idx n) s).
Proof. apply (graph_refines 0 catalog_new catalog_new sample_mutations); vm_compute; reflexivity. Defined.

Lemma seal_preserves_adjacency_witness :
  ∃ r a b g' b', graph_run sample_mutations empty_applier = Some (r, a) ∧
    adjacency (ga_generation a) = Some b ∧
    seal (ga_generation a) = Some (Ok tt, g') ∧ adjacency g' = Some b' ∧
    ∀ v f, ∃ out out' inc inc',
      expand_out b v f = Some out ∧ expand_out b' v f = Some out' ∧ sealed_listing (nodes_of a) out out' ∧
      expand_in b v f = Some inc ∧ expand_in b' v f = Some inc' ∧ sealed_listing (nodes_of a) inc inc'.
Proof. apply (seal_preserves_adjacency 0 catalog_new catalog_new sample_mutations). reflexivity. Defined.

(** The way over the deleted node does not count: three hops. *)
Lemma sealed_shortest_paths_witness :
  ∃ r a g' outgoing incoming h,
    graph_run sample_mutations empty_applier = Some (r, a) ∧
    resolve_node "a" a = Some 0%N ∧ resolve_node "d" a = Some 3%N ∧
    seal (ga_generation a) = Some (Ok tt, g') ∧ sealed g' = Some (outgoing, incoming) ∧
    shortest_unweighted (csr_projection outgoing incoming) 0 3 = Some h ∧
    match h with
    | Some d => hops (s_successors (s_run sample_mutations s_empty).2) 0 3 (N.to_nat d)
    | None => ∀ k, ¬ walk (s_successors (s_run sample_mutations s_empty).2) 0 3 k
    end.
Proof.
  refine (sealed_shortest_paths 0 catalog_new catalog_new sample_mutations "a" "d"
    (mkSNode 0 0 ∅) (mkSNode 3 0 ∅) _ _ _); reflexivity.
Defined.

Definition sealed_sample : option (CsrAdjacency * CsrAdjacency) :=
  a ← run_state sample_mutations; '(_, g) ← seal (ga_generation a); sealed g.

Example sample_three_hops :
  ('(o, i) ← sealed_sample; shortest_unweighted (csr_projection o i) 0 3) = Some (Some 3%N).
Proof. vm_compute. reflexivity. Qed.

(** ** A lawful projection *)

Definition path_projection : GraphProjection :=
  mkProjection 3 (λ v, if (v =? 0)%N then [1%N] else []) (λ v, if (v =? 1)%N then [0%N] else []).

Lemma path_projection_laws : ProjectionLaws path_projection.
Proof.
  split; cbn.
  - intros u v. destruct (N.eqb_spec u 0) as [->|]; [|by intros ?%elem_of_nil].
    intros ->%list_elem_of_singleton. lia.
  - intros u v. destruct (N.eqb_spec u 0) as [->|Hu], (N.eqb_spec v 1) as [->|Hv]; [done|..|done];
      unfold occurrences.
    + rewrite filter_cons_False by congruence. done.
    + rewrite filter_cons_False by congruence. done.
Qed.

Lemma bfs_correct_witness :
  ∃ dist order, bfs_from_source path_projection 0 = Some (dist, order) ∧
    length dist = gp_node_count path_projection ∧
    (∀ v d, reached dist v d ↔ hops (gp_out path_projection) 0 v (N.to_nat d)) ∧
    NoDup order ∧ (∀ v, v ∈ order ↔ ∃ k, walk (gp_out path_projection) 0 v k) ∧ StronglySorted (dist_le dist) order.
Proof. refine (bfs_correct path_projection path_projection_laws 0 _ _); [reflexivity|cbn; lia]. Defined.

Lemma components_correct_witness :
  ∃ c, components_compute path_projection = Some c ∧ length (component c) = 3%nat ∧
    (∀ u v cu cv, component c !! N.to_nat u = Some cu → component c !! N.to_nat v = Some cv →
      cu = cv ↔ rtsc (λ x y, y ∈ gp_out path_projection x) u v) ∧
    (∀ l, l ∈ component c ↔ (l < num_components c)%N) ∧
    length (component_sizes c) = N.to_nat (num_components c) ∧
    ∀ l k, component_sizes c !! N.to_nat l = Some k → k = N.of_nat (occurrences l (component c)).
Proof. exact (components_correct path_projection path_projection_laws eq_refl). Defined.

Lemma k_core_correct_witness :
  ∃ coreness max_coreness, k_core_compute path_projection = Some (coreness, max_coreness) ∧ length coreness = 3%nat ∧
    (∀ v c, coreness !! N.to_nat v = Some c → core_number path_projection v c) ∧
    (∀ c, c ∈ coreness → (c ≤ max_coreness)%N).
Proof.
  refine (k_core_correct path_projection path_projection_laws _). intros v.
  unfold gp_out_degree, gp_in_degree. cbn. by destruct (v =? 0)%N, (v =? 1)%N.
Defined.

Example sample_components :
  components_compute path_projection = Some (mkComponents [0; 0; 1] 2 [2; 1])%N.
Proof. vm_compute. reflexivity. Qed.

(** ** What the engine does *)

(** Before sealing, a traversal still lists the deleted node; after, it does not. *)
Example deleted_node_listed_until_sealed :
  (a ← run_state sample_mutations;
   b ← adjacency (ga_generation a);
   '(_, g) ← seal (ga_generation a);
   b' ← adjacency g;
   out ← expand_out b 0 None; out' ← expand_out b' 0 None; Some (out.*1, out'.*1)) = Some ([4; 1], [1])%N.
Proof. vm_compute. reflexivity. Qed.

(** Deleting a relationship leaves the degrees as they were. *)
Example degree_after_deletion :
  (a ← run_state [node "a"; node "b"; edge 1 "a" "b"; DeleteRelationship 1];
   b ← adjacency (ga_generation a);
   out ← expand_out b 0 None; d ← block_out_degree b 0; Some (out.*1, d)) = Some ([], 1)%nat.
Proof. vm_compute. reflexivity. Qed.

(** A batch cannot create a relationship between nodes it creates. *)
Example batch_with_its_own_nodes :
  (fst <$> graph_apply (GraphBatch [node "a"; node "b"; edge 1 "a" "b"]) empty_applier) =
    Some (Err (NodeNotFound "a")).
Proof. vm_compute. reflexivity. Qed.

(** A batch that fails half-way keeps its first half. *)
Example batch_half_applied :
  (a ← run_state [node "a"; node "b"];
   '(r, a) ← graph_apply (GraphBatch [DeleteNode "a"; edge 1 "a" "b"]) a;
   Some (r, resolve_node "a" a)) = Some (Err (NodeNotFound "a"), None).
Proof. vm_compute. reflexivity. Qed.

(** After sealing, deleting a relationship reports success and changes nothing a
    traversal sees. *)
Example delete_after_sealing :
  (a ← run_state [node "a"; node "b"; edge 1 "a" "b"];
   '(_, g) ← seal (ga_generation a);
   let '(r, a) := delete_relationship 1 (a <| ga_generation := g |>) in
   b ← adjacency (ga_generation a);
   out ← expand_out b 0 None; Some (r, out.*1)) = Some (Ok tt, [1%N]).
Proof. vm_compute. reflexivity. Qed.

(** The galloping intersection skips a value the gallop lands on. *)
Example galloping_misses_common_value :
  intersect_sorted_galloping [2]%N [1; 2; 3; 4; 5]%N = Some 0%nat ∧
  intersect_linear 6 [2]%N [1; 2; 3; 4; 5]%N 0 = 1%nat.
Proof. vm_compute. done. Qed.

(** One triangle is counted three times, and its local clustering is 2. *)
Example one_triangle_counted_three_times :
  (a ← run_state [node "a"; node "b"; node "c"; edge 1 "a" "b"; edge 2 "b" "c"; edge 3 "c" "a"];
   '(_, g) ← seal (ga_generation a);
   '(o, i) ← sealed g; triangles_compute (csr_projection o i)) =
  Some (mkTriangleCount 3 (replicate 3 (f64_of_Z 2))).
Proof. vm_compute. reflexivity. Qed.

#[local] Existing Instance sample_sort.

Definition sample_powi (x : f64) (n : N) : f64 := N.iter n (f64_mul x) (f64_of_Z 1).

Lemma sample_generation : ∃ g, generation_of sample_mutations g.
Proof.
  destruct (graph_run_reaches 0 catalog_new catalog_new sample_mutations eq_refl) as (a & d & Hrun & _).
  exists (ga_generation a), 0%N, catalog_new, catalog_new, (s_run sample_mutations s_empty).1, a. split; [exact Hrun|by left].
Qed.

Lemma sealed_sample_generation : ∃ g, sealed_generation_of sample_mutations g.
Proof.
  destruct (graph_run_reaches 0 catalog_new catalog_new sample_mutations eq_refl) as (a & d & Hrun & Hs & Hd & _).
  destruct (sealed_block a _ d Hs Hd) as (g & b & Hseal & _).
  exists g, 0%N, catalog_new, catalog_new, (s_run sample_mutations s_empty).1, a. by split.
Qed.

(** MATCH (x)-[:KNOWS*1..1]->(y)-[*1..2]->(z) WHERE NOT (x.age > 3 OR $p IS NULL) RETURN x, z.age LIMIT 3 *)
Definition knows : Catalog := catalog_add "KNOWS" 1 (catalog_add "LIKES" 0 catalog_new).
Definition sample_chain : Chain :=
  mkChain "x" [mkHop (Some ("KNOWS", 1%N)) Outgoing 1 1 "y"; mkHop None Outgoing 1 2 "z"].
Definition sample_query : Query :=
  mkQuery [sample_chain]
    (Some (P_Not (P_Or (P_Gt (V_PropertyRef "x" "age") (V_Literal (JNumber (PosInt 3)))) (P_IsNull (V_Parameter "p")))))
    [R_Alias "x"; R_PropertyRef "z" "age"] (Some 3%N).

Lemma sample_query_ok : query_ok knows sample_query.
Proof.
  split; cbn [q_chains q_where q_items q_limit sample_query].
  - constructor; [|constructor]. split; [reflexivity|].
    constructor; [split_and!; vm_compute; done|]. constructor; [split_and!; vm_compute; done|]. constructor.
  - discriminate.
  - intros w [= <-]. reflexivity.
  - constructor; [reflexivity|]. constructor; [split; reflexivity|]. constructor.
  - discriminate.
  - intros n [= <-]. discriminate.
Qed.

Lemma sample_path_query : path_query knows sample_query sample_chain.
Proof.
  split; [exact sample_query_ok|reflexivity|apply (bool_decide_unpack _); reflexivity|reflexivity| |].
  - constructor; [discriminate|]. constructor; [discriminate|]. constructor.
  - apply (bool_decide_unpack _). reflexivity.
Qed.

Lemma parse_print_query_witness :
  ∃ p', parse_query (query_text sample_query) catalog_new knows = Some (Ok (ast_of sample_query), p') ∧
    pr_labels p' = catalog_new ∧ pr_rels p' = knows.
Proof. exact (parse_print_query catalog_new knows sample_query sample_query_ok). Defined.

(** MATCH (x)-[:KNOWS*1..1]->(y)-[*1..2]->(z) RETURN x, z.age LIMIT 3 *)
Definition chain_query : Query := mkQuery [sample_chain] None [R_Alias "x"; R_PropertyRef "z" "age"] (Some 3%N).

Lemma chain_path_query : path_query knows chain_query sample_chain.
Proof.
  destruct sample_path_query as [[H1 H2 H3 H4 H5 H6] P2 P3 P4 P5 P6]. by repeat split.
Qed.

Lemma path_query_correct_witness :
  ∃ g cq p' rows all,
    compile sample_powi (query_text chain_query) catalog_new knows None = Some (Ok cq, p') ∧
    column_names cq = ["x"; "z.age"] ∧ execute g ∅ (cq_plan cq) = Some rows ∧
    limited (Some 3%N) (take (length (column_names cq)) <$> rows) all ∧
    ∀ cells, cells ∈ all ↔ ∃ path, s_path (s_run sample_mutations s_empty).2 sample_chain path ∧
      cells = returned ["x"; "y"; "z"] (q_items chain_query) path.
Proof.
  destruct sealed_sample_generation as [g Hg]. exists g.
  exact (path_query_correct sample_mutations g ∅ sample_powi None catalog_new knows chain_query sample_chain
    eq_refl eq_refl Hg chain_path_query eq_refl ltac:(cbn; lia)).
Defined.

(** Node 1 is one KNOWS step from node 0, node 2 within two steps of it. *)
Example sample_path : s_path (s_run sample_mutations s_empty).2 sample_chain [0; 1; 2]%N.
Proof.
  split; [apply (bool_decide_unpack _); vm_compute; reflexivity|]. split; [|split; [|done]].
  - change (1%N ∈ s_neighbors (s_run sample_mutations s_empty).2 (Some 1%N) Outgoing 0%N).
    apply (bool_decide_unpack _). vm_compute. reflexivity.
  - exists 1%nat. cbn [sample_chain]. split; [vm_compute; split; discriminate|]. split.
    + apply (walk_edge _ _ 1%N); [constructor|]. apply (bool_decide_unpack _). vm_compute. reflexivity.
    + intros [|j] Hj; [|lia]. inversion Hj.
Qed.

(** Two independent steps from the same node. *)
Definition fork_hop (dst : string) (hi : N) : GraphPattern :=
  PatExpand (mkExpandSpec "x" None None dst Outgoing 1 hi).
Definition fork_ast : QueryAst :=
  mkAst None [NodePattern "x" None []; fork_hop "y" 2; fork_hop "z" 1] [] (mkReturn [R_Alias "y"; R_Alias "z"] None) [].
Definition fork_symbols : SymbolTable := intern "z" (intern "y" (intern "x" symbols_new)).
Definition fork_stats : option GraphCardinalityStats := Some (mkStats 5 5 ∅ ∅ (f64_of_Z 2) 2).

Example fork_is_reordered :
  optimise sample_powi (core_plan fork_ast fork_symbols) fork_stats =
    LP_Expand (LP_Expand (LP_NodeScan 0 None []) (mkExpandArgs 0 None 2 None Outgoing 1 1)) (mkExpandArgs 0 None 1 None Outgoing 1 2).
Proof. vm_compute. reflexivity. Qed.

Lemma optimise_preserves_rows_witness :
  ∃ g all rows,
    execute g ∅ (lower (add_project [1; 2]%N (core_plan fork_ast fork_symbols))) = Some all ∧
    execute g ∅ (lower (optimise sample_powi (build_logical_plan fork_ast fork_symbols) fork_stats)) = Some rows ∧
    rows ≡ₚ all.
Proof.
  destruct sample_generation as [g Hg]. exists g.
  refine (optimise_preserves_rows sample_mutations g ∅ sample_powi fork_stats fork_ast fork_symbols eq_refl Hg _ _); [|discriminate].
  split; [cbn; tauto| |apply (bool_decide_unpack _); reflexivity].
  split; [apply (bool_decide_unpack _); reflexivity|]. split; [apply (bool_decide_unpack _); reflexivity|exact I].
Defined.

Lemma query_returns_witness :
  ∃ g b rows, adjacency g = Some b ∧
    execute g ∅ (lower (optimise sample_powi (build_logical_plan fork_ast fork_symbols) fork_stats)) = Some rows ∧
    Forall2 (λ row cells, (length cells ≤ 3)%nat → cells `prefix_of` row)
      rows (values (denoted g ∅ b (optimise sample_powi (build_logical_plan fork_ast fork_symbols) fork_stats))) ∧
    (∀ n, None = Some n → (length rows ≤ N.to_nat n)%nat).
Proof.
  destruct sample_generation as [g Hg]. exists g.
  refine (query_returns sample_mutations g ∅ sample_powi fork_stats fork_ast fork_symbols eq_refl Hg _).
  constructor; [exact I|]. constructor; [reflexivity|]. constructor; [reflexivity|]. constructor.
Defined.

Lemma expand_within_bounds_witness :
  ∃ g b found, adjacency g = Some b ∧
    expand_source b (mkExpandOp 0 1 None None Outgoing 2 3 false) 0 = Some found ∧ NoDup found ∧
    ∀ v, v ∈ found ↔ ∃ k, (2 ≤ N.of_nat k ≤ 3)%N ∧ hops (adjacent b None Outgoing) 0 v k.
Proof.
  destruct sample_generation as [g Hg]. destruct (generation_total sample_mutations g eq_refl Hg) as (b & Hadj & Htot).
  destruct (expand_within_bounds b (mkExpandOp 0 1 None None Outgoing 2 3 false) 0 Htot) as (found & H1 & H2 & H3); [discriminate|].
  exists g, b, found. split_and!; done.
Defined.

(** ** What the pipeline does *)

(** The column names of a query and its rows; [None] inside is a panic. *)
Definition run_query (ms : list GraphMutation) (src : string) :
    option (Result (list string * option (list (list NodeIndex))) CompileError) :=
  a ← run_state ms;
  '(r, _) ← compile sample_powi src catalog_new catalog_new None;
  Some (match r with
        | Ok cq => Ok (column_names cq, execute (ga_generation a) ∅ (cq_plan cq))
        | Err e => Err e
        end).

Definition line : list GraphMutation :=
  [node "a"; node "b"; node "c"; edge 1 "a" "b"; edge 2 "b" "c"].

Example path_of_two_steps :
  run_query line "MATCH (x)-->(y)-->(z) RETURN x, y, z" = Some (Ok (["x"; "y"; "z"], Some [[0; 1; 2]%N])).
Proof. vm_compute. reflexivity. Qed.

(** A label on the last node makes the second step start at the first node, and is
    not checked. *)
Example labelled_target_restarts_the_path :
  run_query line "MATCH (x)-->(y)-->(z:Person) RETURN x, y, z" =
    Some (Ok (["x"; "y"; "z"], Some [[0; 1; 1]; [1; 2; 2]]%N)).
Proof. vm_compute. reflexivity. Qed.

(** Naming a relationship and returning its target panics: the plan numbers the
    relationship's column before the target's, the executor appends them the other
    way round. *)
Example named_relationship_panics :
  run_query line "MATCH (x)-[r]->(y) RETURN y" = Some (Ok (["y"], None)).
Proof. vm_compute. reflexivity. Qed.

(** A row has a cell per binding of the plan, not per returned item. *)
Example rows_are_padded :
  run_query line "MATCH (x)-->(y) RETURN y" = Some (Ok (["y"], Some [[1; u32_max]; [2; u32_max]]%N)).
Proof. vm_compute. reflexivity. Qed.

(** A second pattern without a step is dropped: one column for two names. *)
Example second_node_dropped :
  run_query [node "a"] "MATCH (x), (y) RETURN x, y" = Some (Ok (["x"; "y"], Some [[0%N]])).
Proof. vm_compute. reflexivity. Qed.

(** A predicate on a property is taken to hold, and so is taken to fail under
    NOT. *)
Example property_predicates :
  run_query line "MATCH (x)-->(y) WHERE x.age = 3 RETURN x, y" = Some (Ok (["x"; "y"], Some [[0; 1]; [1; 2]]%N)) ∧
  run_query line "MATCH (x)-->(y) WHERE NOT x.age = 3 RETURN x, y" = Some (Ok (["x"; "y"], Some [])).
Proof. split; vm_compute; reflexivity. Qed.

(** Hop bounds wrap at a byte. *)
Example hop_bounds_wrap :
  run_query line "MATCH (x)-[*1..256]->(y) RETURN x, y" = Some (Err (CE_Semantic [InvalidHopRange 1 0])) ∧
  run_query line "MATCH (x)-[*1..257]->(y) RETURN x, y" = run_query line "MATCH (x)-->(y) RETURN x, y".
Proof. split; vm_compute; reflexivity. Qed.

(** The properties of a created node are parsed and dropped. *)
Example create_drops_properties :
  ('(r, _) ← parse_query "CREATE (n {age: 3})" catalog_new catalog_new;
   Some (match r with Ok ast => compile_mutations (ast_mutations ast) | Err _ => [] end)) =
  Some [CreateNode "n" [] ∅ None].
Proof. vm_compute. reflexivity. Qed.

(** A self-loop is a target of one step, never of several. *)
Example self_loop_lost :
  run_query [node "a"; edge 1 "a" "a"] "MATCH (x)-->(y) RETURN x, y" = Some (Ok (["x"; "y"], Some [[0; 0]]%N)) ∧
  run_query [node "a"; edge 1 "a" "a"] "MATCH (x)-[*1..2]->(y) RETURN x, y" = Some (Ok (["x"; "y"], Some [])).
Proof. split; vm_compute; reflexivity. Qed.
